(* ===== verification/_CoqProject ===== *)
-Q . S2P
Prelude.v
Abi.v
Object.v
ObjectFacts.v
ObjectLedger.v
ObjectTheorems.v
HandleTable.v
HandleProtocol.v
HandleFacts.v
HandleMoves.v
HandleOwnership.v
HandleSystem.v
HandleTheorems.v
Cpu.v
Wait.v
WaitFacts.v
WaitTheorems.v
EventFacts.v
EventTheorems.v
Channel.v
ChannelQueue.v
ChannelFacts.v
ChannelCycle.v
ChannelInvariant.v
ChannelWaits.v
ChannelSend.v
ChannelClose.v
ChannelCreate.v
ChannelMessages.v
ChannelSystem.v
ChannelMailbox.v
ChannelTheorems.v
ChannelReservations.v
Physical.v
PhysicalFacts.v
PhysicalUpdates.v
PhysicalPool.v
PhysicalSystem.v
PhysicalTheorems.v
Clock.v
ClockTheorems.v
Deadline.v
DeadlineFacts.v
DeadlineTheorems.v
Timer.v
LiveTime.v
LiveTimeFacts.v
LiveTimeTheorems.v
TimerFacts.v
TimerContract.v
TimerSystem.v
TimerSteps.v
TimerAdvance.v
LiveTimer.v
TimerTheorems.v
Gate.v
GateFacts.v
Blocked.v
BlockedFacts.v
BlockedMoves.v
BlockedSystem.v
BlockedTheorems.v
AtomicWait.v
AtomicFacts.v
AtomicTheorems.v
Scheduler.v
SchedulerOps.v
Carrier.v
SchedulerSpec.v
SchedulerFacts.v
SchedulerInvariant.v
SchedulerMoves.v
SchedulerSteps.v
SchedulerCalls.v
SchedulerSwitches.v
CarrierFacts.v
SchedulerTheorems.v
SchedulerPolicy.v
