(* ===== verification/Prelude.v ===== *)
(** * Verification of the Deepwyrm kernel

    Deepwyrm is a capability microkernel in Rust.  Its authorities are plain
    data structures over fixed arrays, with fallible methods on [&mut self]
    and assertions on broken invariants; this development translates them
    into Rocq functions and proves what makes them correct.

    ** The program and its parts

    A process names kernel objects by handles; its handle table maps a handle
    to a reference with rights.  The object registry counts the references to
    every object and says when the last is gone; the owner of the object's
    payload (channels, events, Timers) then finalizes it.  Channels carry
    bytes and handles between processes, and hold references to what is
    queued.  Threads that wait are registered with the object they wait for,
    and the operation that changes its signals takes them out as wakes.
    Timers are signalled when their deadline passes: they register it with
    the live time service, whose interrupt on the bootstrap CPU hands due
    deadlines back.  The scheduler gives the CPUs threads to run, places and
    migrates those that are runnable and suspends those that block; a blocked
    operation has a generation in a ledger, and of the signals, wakes,
    deadlines and terminations that race for it the first to claim it wins.
    A CPU takes part once its carrier is admitted.  The operations of a
    process pass a gate, which closes when it exits.  The physical frame
    allocator owns the memory the boot loader left free.

    ** How Rust is translated

    A [u32] or [u64] is a [Z] with its width written out at every operation
    ([checked_add], [try_from], [truncate], ...); a [usize] index is a [nat].  A
    method on a receiver of type [S] is a computation [M S E A]: from a state,
    it returns a value or an error together with the state left behind, or
    panics ([expect], [assert!], indexing out of range).  [wp] is total
    correctness: no panic, and a postcondition for either result; [wlp] is the
    same without excluding the panic, for code that halts the machine on
    purpose.  A move-only token is a record, and that tokens are neither
    forged nor copied is a ledger, a multiset of the tokens outstanding.  A
    method behind a lock is atomic; where the source lets a lock go in the
    middle of an operation, each critical section is a definition of its own
    and they interleave.  [debug_assert!] is not modelled: release builds do
    not have it.

    ** The files

    Sources are under [src/], those of the kernel under [src/kernel/src/].

    - [Prelude]: this header, machine integers, the monad, [wp], [wlp] and
      their rules, shared lemmas.
    - [Abi]: [abi/generated/deepwyrm_abi.rs], the rights, object types and
      signals and the masks of each object type, and [handle/rights.rs], the
      checks of rights.
    - [Object]: [object/mod.rs], the object registry.  [ObjectFacts] relates
      it to the lifecycle of a slot, [ObjectLedger] to the ledger of
      outstanding tokens and states the contract [RegistryContract] its
      clients use, [ObjectTheorems] has the claims.
    - [HandleTable]: [handle/table.rs], the table, its reservations and every
      guard.  [HandleProtocol] is its abstract specification, an
      event-labelled step relation on slots, with the invariants of that
      protocol; [HandleFacts] and [HandleMoves] prove that the operations
      follow it; [HandleOwnership] couples the table to the registry through
      [RegistryContract]; [HandleSystem] shows every operation safe;
      [HandleTheorems] has the claims.
    - [Wait]: [wait/mod.rs], the wait registry and the events.  [WaitFacts]
      and [WaitTheorems] are about the registry, [EventFacts] and
      [EventTheorems] about events with their waiters and references.
    - [Channel]: [ipc/mod.rs], the payload pool, the byte queues and the
      channel authority.  [ChannelQueue] and [ChannelFacts] specify the
      parts; [ChannelCycle] the search for queue cycles; [ChannelInvariant]
      the invariant of the authority, which [ChannelWaits], [ChannelSend],
      [ChannelClose] and [ChannelCreate] show kept by each operation; [ChannelMessages] composes the halves of a send
      and of a receive; [ChannelSystem] adds the registry and the waiters;
      [ChannelMailbox] is the specification; [ChannelTheorems] and
      [ChannelReservations] have the claims.
    - [Physical]: [memory/physical.rs], ranges and the frame allocator.
      [PhysicalFacts] shows its array routines to be list operations and,
      with [PhysicalUpdates], what they do to the addresses covered, [PhysicalPool] what the allocator starts from,
      [PhysicalSystem] its clients; [PhysicalTheorems] has the claims.
    - [Clock]: [time/pm_timer.rs], [time/service.rs], [time/init_state.rs] and
      the one-shot counts of [time/deadline.rs]; claims in [ClockTheorems].
    - [Deadline]: [time/deadline.rs] and [time/arbiter.rs].  [DeadlineFacts]
      specifies the queue by the keys it has issued; claims in
      [DeadlineTheorems].
    - [Timer]: [time/timer.rs], one definition per critical section, composed
      into the operations.
    - [LiveTime]: [time/live.rs], the state of the time service, arming the
      hardware and the deadline authority Timers use.  [LiveTimeFacts] and
      [LiveTimeTheorems] show what the hardware is armed for.
    - [TimerContract]: what Timers rely on, the documented behaviour of the
      trait [TimerDeadlineAuthority], as the classes [DeadlineService] and
      [DeadlineContract].  [TimerFacts] specifies the critical sections,
      [TimerSystem] interleaves them with interrupts, dispatch and waiters
      and has the invariant of that world, kept by [TimerSteps]
      and [TimerAdvance], all against the contract.  [LiveTimer] is the
      instance of the contract by the kernel's own deadlines, on every CPU
      but the bootstrap CPU; [TimerTheorems] has the claims.
    - [Cpu]: [cpu.rs], the CPU indices and arrays with a cell for each.
    - [Gate]: [task/mod.rs] and [task/authority.rs], the operation gate of a
      process and its lifecycle; [GateFacts] specifies it.
    - [Blocked]: [task/blocked_operation.rs], the ledger of blocked operations
      and the owner of one.  [BlockedFacts] and [BlockedMoves] specify its
      methods, [BlockedSystem] couples it to the gate and to all who claim;
      [BlockedTheorems] has the claims.
    - [AtomicWait]: [atomic_wait.rs], the index of waiters by word and the
      registry of suspended operations.  [AtomicFacts] specifies the index as
      a queue for each word, [AtomicTheorems] has the claims.
    - [Scheduler]: [task/scheduler.rs], the state and the methods of
      [SchedulerState], its accounting and its checks.  [SchedulerOps]: the
      methods of [CooperativeScheduler], in [BootstrapAdapters] those for
      callers that know one CPU.  [Carrier]:
      [task/scheduler/carrier_admission.rs].  Each method holds the lock of
      the scheduler, so that the CPUs' calls are one sequence.
    - [SchedulerSpec]: the calls, the abstract life of a thread ([permits])
      and of a carrier ([admits]).  [SchedulerFacts] specifies the table of
      entries, [SchedulerInvariant] is the invariant and shows that it implies
      the checks the kernel asserts, [SchedulerMoves] and [SchedulerSteps] say
      what keeps its parts, [SchedulerCalls], [SchedulerSwitches] and
      [CarrierFacts] show it kept by each method; [SchedulerTheorems] and
      [SchedulerPolicy] (placement, migration, dispatch, the completion of
      switches and the adapters) have the claims.

    ** What the theorems show

    Objects: the registry refines its lifecycle; its counts are the numbers of
    tokens outstanding; identities are fresh and never come back.

    Handles: through any interleaving no operation panics and the books
    balance; what a handle resolves to is a living object of its type with
    rights compatible with it; a closed or sent handle is dead for ever;
    neither a move nor a duplicate creates rights; reservations are honoured,
    or given back (but for one leak, proved); an aborted send restores the
    table; draining is complete.

    Waiting and events: a signal wakes each waiting thread once, pins are
    conserved, no wakeup is lost, and finalization always completes.

    Channels: the rings and their pool implement mailboxes; nothing leaks and
    nothing panics, also when reservations interleave; no wakeup is lost; the
    search for cycles is exact and terminates; finalization completes; a
    worn-out payload slot hides free ones (proved).

    Physical memory: the allocator starts from exactly the frames it should,
    never loses one or hands one out twice, is first fit, and freeing undoes
    allocation.

    Time: the clock is exact as long as it is sampled every half wrap; the
    deadline queue is a finite map; the count left in the hardware covers
    every pending deadline whatever interferes.  Timers fire neither early
    nor never, whatever operations overlap, where the contract holds; no
    transition is lost track of; and the sections that interleave are the
    operations.  On the bootstrap CPU the authority can fail after it has
    committed, which the contract forbids, and a Timer can then fire early
    (proved).

    Blocking: no block is won twice, and its owner completes it in the name of
    its winner; a process whose gate is closed and whose ledger is empty
    stays drained; waiters for a word form a queue which a wake serves from
    its head, and none is lost.

    Scheduling: whatever is called, the scheduler does not panic and its own
    checks pass; each thread lives as specified and is in one place; a CPU
    enters the placement mask only along the protocol of admission (but a
    ticket used again marks an admitted carrier as failed without taking it
    out, proved); threads are placed by the documented order, an idle CPU
    takes the oldest work there is for it, a rebalancing pull improves the
    balance, a pull that is given up leaves no trace, and a switch that was
    decided on can always be completed.

    ** Bounds and fuel

    Loops over slots or bounded batches are structural.  The others carry
    fuel that is proved enough: the cycle search visits each endpoint of each
    pair once, and is given one turn more than there are endpoints; draining a
    queue is given one turn more than its depth; the insertion search and
    [subtract] are given one turn more than there are free ranges.  The eight
    attempts of [reconcile_bsp_hardware_arm] are the source's own bound; each
    is given what happens around it, so that interference is arbitrary.
    [finish 4] follows a Timer operation to its end, which takes at most four
    sections.  The table theorems assume a permit counter at least
    [DW_CHANNEL_MAX_HANDLES] below [2^64]; the code panics when the counter is
    spent.  A wake of a word is given one turn more than the index has slots,
    as each turn frees one.  The scheduler theorems are about fewer than
    [2^60] calls: each advances a counter or a generation by at most sixteen,
    and the code panics when an accounting counter of 64 bits is spent.
    Tables have fewer than [2^64] slots, as [usize] has 64 bits.

    ** Not modelled

    Of tasks: creation, threads, groups, exceptions, execution and
    termination, beyond the gate of a process.  Of the scheduler: what only
    tests and evidence builds have, the trace and the liveness diagnostics.
    The wait engine and the transactions of atomic waits, which compose the
    scheduler, the ledger, the registries and the time service; memory
    objects and address regions; the boot memory map and frame roles over the
    frame allocator; boot validation; devices; the handle service, finalizer
    dispatch and the argument decoding of the system calls.  Of the time
    service: initialization, calibration, interprocessor interrupts, the
    binding of wake and expiry targets and the publication of collected
    wakes.  Register access, page-table writes, the implementation of locks
    and the host tools are out of scope. *)

From stdpp Require Import base tactics list gmap gmultiset.
From Stdlib Require Import ZArith Lia.

Declare Scope kernel_scope.
Delimit Scope kernel_scope with kernel.
Local Open Scope Z_scope.

(** * Machine-width unsigned integers

    An unsigned [w]-bit integer is a [Z] in [[0, 2^w)]; each Rust operator
    the source uses on one is written out at its width. *)

Definition is_uint (w a : Z) : Prop := 0 ≤ a < 2 ^ w.

(** Rust's [uN::checked_add]. *)
Definition checked_add (w a b : Z) : option Z :=
  if a + b <? 2 ^ w then Some (a + b) else None.

(** Rust's [uN::checked_sub]: the width does not matter. *)
Definition checked_sub (a b : Z) : option Z :=
  if b <=? a then Some (a - b) else None.

(** Rust's [uN::checked_mul]. *)
Definition checked_mul (w a b : Z) : option Z :=
  if a * b <? 2 ^ w then Some (a * b) else None.

(** Rust's [uN::try_from] on a non-negative integer. *)
Definition try_from (w a : Z) : option Z :=
  if a <? 2 ^ w then Some a else None.

(** Rust's [as uN] truncation. *)
Definition truncate (w a : Z) : Z := a mod 2 ^ w.

(** Rust's [!a] on [uN]. *)
Definition unot (w a : Z) : Z := Z.lxor (Z.ones w) a.

(** [Option::filter(|next| *next != 0)]. *)
Definition filter_nonzero (o : option Z) : option Z :=
  match o with
  | Some n => if n =? 0 then None else Some n
  | None => None
  end.

(** [x.checked_add(1).filter(|next| *next != 0)], the idiom by which every
    generation and every domain counter of the kernel advances. *)
Definition next_nonzero (w a : Z) : option Z := filter_nonzero (checked_add w a 1).

(** * Fallible and panicking computations

    [Result] is Rust's; [outcome] is what a call on a mutable receiver of
    type [S] comes to: a value or an error together with the receiver left
    behind, or a panic, after which no state is observable. *)

Inductive Result (A E : Type) : Type :=
| Ok (a : A)
| Err (e : E).
Arguments Ok {A E} a.
Arguments Err {A E} e.

(** [Result::and_then] on a unit result. *)
Definition and_then {E} (r r' : Result unit E) : Result unit E :=
  match r with Ok _ => r' | Err e => Err e end.

Inductive outcome (S E A : Type) : Type :=
| Ret (s : S) (a : A)
| Fail (s : S) (e : E)
| Panic.
Arguments Ret {S E A} s a.
Arguments Fail {S E A} s e.
Arguments Panic {S E A}.

Definition M (S E A : Type) : Type := S → outcome S E A.

Global Instance M_ret {S E} : MRet (M S E) := λ A a s, Ret s a.

Global Instance M_bind {S E} : MBind (M S E) := λ A B f m s,
  match m s with
  | Ret s' a => f a s'
  | Fail s' e => Fail s' e
  | Panic => Panic
  end.

Definition fail {S E A} (e : E) : M S E A := λ s, Fail s e.

Definition panic {S E A} : M S E A := λ _, Panic.

Definition get {S E} : M S E S := λ s, Ret s s.

Definition put {S E} (s : S) : M S E unit := λ _, Ret s tt.

Definition modify {S E} (f : S → S) : M S E unit := λ s, Ret (f s) tt.

(** [Option::expect] and array indexing: [None] panics. *)
Definition expect {S E A} (o : option A) : M S E A := λ s,
  match o with Some a => Ret s a | None => Panic end.

(** [assert!]. *)
Definition assert_that {S E} (b : bool) : M S E unit := λ s,
  if b then Ret s tt else Panic.

(** [Option::ok_or(e)?]. *)
Definition ok_or {S E A} (o : option A) (e : E) : M S E A := λ s,
  match o with Some a => Ret s a | None => Fail s e end.

(** [r?] on a pure result. *)
Definition lift {S E A} (r : Result A E) : M S E A := λ s,
  match r with Ok a => Ret s a | Err e => Fail s e end.

(** [Result::map_err]. *)
Definition map_err {S E E' A} (f : E → E') (m : M S E A) : M S E' A := λ s,
  match m s with
  | Ret s' a => Ret s' a
  | Fail s' e => Fail s' (f e)
  | Panic => Panic
  end.

(** [Result::map_err] with a closure that may panic ([None]). *)
Definition map_err_or_panic {S E E' A} (f : E → option E') (m : M S E A) : M S E' A := λ s,
  match m s with
  | Ret s' a => Ret s' a
  | Fail s' e => match f e with Some e' => Fail s' e' | None => Panic end
  | Panic => Panic
  end.

(** [Result::expect] and [unwrap_or_else(|_| panic!(..))]. *)
Definition unwrap {S E E' A} (m : M S E A) : M S E' A := λ s,
  match m s with
  | Ret s' a => Ret s' a
  | Fail _ _ => Panic
  | Panic => Panic
  end.

(** [match m { Ok(a) => .., Err(e) => .. }]: the call's result as a value. *)
Definition try {S E E' A} (m : M S E A) : M S E' (Result A E) := λ s,
  match m s with
  | Ret s' a => Ret s' (Ok a)
  | Fail s' e => Ret s' (Err e)
  | Panic => Panic
  end.

(** A call on the first or on the second of two receivers. *)
Definition on_fst {S T E A} (m : M S E A) : M (S * T) E A := λ st,
  match m st.1 with
  | Ret s' a => Ret (s', st.2) a
  | Fail s' e => Fail (s', st.2) e
  | Panic => Panic
  end.

Definition on_snd {S T E A} (m : M T E A) : M (S * T) E A := λ st,
  match m st.2 with
  | Ret t' a => Ret (st.1, t') a
  | Fail t' e => Fail (st.1, t') e
  | Panic => Panic
  end.

(** A call on a part of the receiver. *)
Definition on_part {S P E A} (part : S → P) (with_part : P → S → S) (m : M P E A) : M S E A := λ s,
  match m (part s) with
  | Ret p a => Ret (with_part p s) a
  | Fail p e => Fail (with_part p s) e
  | Panic => Panic
  end.

(** A [for] loop over [xs] carrying the locals [b]; [Break] is an early
    [return] from its body. *)
Inductive flow (B R : Type) : Type :=
| Continue (b : B)
| Break (r : R).
Arguments Continue {B R} b.
Arguments Break {B R} r.

Fixpoint loop {S E A B R} (xs : list A) (body : A → B → M S E (flow B R)) (b : B)
    : M S E (flow B R) :=
  match xs with
  | [] => mret (Continue b)
  | x :: xs' =>
      f ← body x b;
      match f with
      | Continue b' => loop xs' body b'
      | Break r => mret (Break r)
      end
  end.

(** A [for] loop whose body never returns early. *)
Fixpoint for_each {S E A B} (xs : list A) (body : A → B → M S E B) (b : B) : M S E B :=
  match xs with
  | [] => mret b
  | x :: xs' =>
      b' ← body x b;
      for_each xs' body b'
  end.

(** * Total correctness

    [wp m s Q R]: [m] started in [s] does not panic; if it returns, [Q]
    holds of the value and the state, and if it fails, [R] of the error and
    the state. *)

Definition wp {S E A} (m : M S E A) (s : S) (Q : A → S → Prop) (R : E → S → Prop) : Prop :=
  match m s with
  | Ret s' a => Q a s'
  | Fail s' e => R e s'
  | Panic => False
  end.

Section wp_rules.
Context {S E : Type}.

Lemma wp_bind {A B} (m : M S E A) (f : A → M S E B) s Q R :
  wp m s (λ a s', wp (f a) s' Q R) R → wp (m ≫= f) s Q R.
Proof. unfold wp, mbind, M_bind. by destruct (m s). Qed.

(** Two calls in sequence may be specified together. *)
Lemma wp_assoc {A B C} (m : M S E A) (f : A → M S E B) (g : B → M S E C) s Q R :
  wp (m ≫= f) s (λ b s', wp (g b) s' Q R) R → wp (m ≫= λ a, f a ≫= g) s Q R.
Proof. unfold wp, mbind, M_bind. destruct (m s) as [s' a| |]; try done. by destruct (f a s'). Qed.

Lemma wp_mono {A} (m : M S E A) s (Q Q' : A → S → Prop) (R R' : E → S → Prop) :
  wp m s Q R → (∀ a s', Q a s' → Q' a s') → (∀ e s', R e s' → R' e s') → wp m s Q' R'.
Proof. unfold wp. destruct (m s); eauto. Qed.

Lemma wp_and {A} (m : M S E A) s (Q Q' : A → S → Prop) (R R' : E → S → Prop) :
  wp m s Q R → wp m s Q' R' →
  wp m s (λ a s', Q a s' ∧ Q' a s') (λ e s', R e s' ∧ R' e s').
Proof. unfold wp. destruct (m s); eauto. Qed.

Lemma wp_map_err {E' A} (g : E' → E) (m : M S E' A) s Q R :
  wp m s Q (λ e s', R (g e) s') → wp (map_err g m) s Q R.
Proof. unfold wp, map_err. by destruct (m s). Qed.

Lemma wp_map_err_or_panic {E' A} (g : E' → option E) (m : M S E' A) s Q R :
  wp m s Q (λ e s', match g e with Some e' => R e' s' | None => False end) →
  wp (map_err_or_panic g m) s Q R.
Proof. unfold wp, map_err_or_panic. destruct (m s) as [| ? e|]; try done. by destruct (g e). Qed.

Lemma wp_unwrap {E' A} (m : M S E' A) s Q (R : E → S → Prop) :
  wp m s Q (λ _ _, False) → wp (unwrap m) s Q R.
Proof. unfold wp, unwrap. by destruct (m s). Qed.

Lemma wp_try {E' A} (m : M S E' A) s Q (R : E → S → Prop) :
  wp m s (λ a s', Q (Ok a) s') (λ e s', Q (Err e) s') → wp (try m) s Q R.
Proof. unfold wp, try. by destruct (m s). Qed.

Lemma wp_on_fst {T A} (m : M S E A) (s : S) (t : T) Q R :
  wp m s (λ a s', Q a (s', t)) (λ e s', R e (s', t)) → wp (on_fst m) (s, t) Q R.
Proof. unfold wp, on_fst. simpl. by destruct (m s). Qed.

Lemma wp_on_snd {T A} (m : M S E A) (t : T) (s : S) Q R :
  wp m s (λ a s', Q a (t, s')) (λ e s', R e (t, s')) → wp (on_snd m) (t, s) Q R.
Proof. unfold wp, on_snd. simpl. by destruct (m s). Qed.

Lemma wp_ret {A} (a : A) s Q (R : E → S → Prop) : Q a s → wp (mret a) s Q R.
Proof. done. Qed.

Lemma wp_fail {A} (e : E) s (Q : A → S → Prop) R : R e s → wp (fail e) s Q R.
Proof. done. Qed.

Lemma wp_get s Q (R : E → S → Prop) : Q s s → wp get s Q R.
Proof. done. Qed.

Lemma wp_put s s' Q (R : E → S → Prop) : Q tt s' → wp (put s') s Q R.
Proof. done. Qed.

Lemma wp_modify (f : S → S) s Q (R : E → S → Prop) : Q tt (f s) → wp (modify f) s Q R.
Proof. done. Qed.

Lemma wp_lift {A} (r : Result A E) s (Q : A → S → Prop) (R : E → S → Prop) :
  match r with Ok a => Q a s | Err e => R e s end → wp (lift r) s Q R.
Proof. by destruct r. Qed.

Lemma wp_ok_or {A} (o : option A) (e : E) s (Q : A → S → Prop) R :
  match o with Some a => Q a s | None => R e s end → wp (ok_or o e) s Q R.
Proof. by destruct o. Qed.

Lemma wp_assert (b : bool) s Q (R : E → S → Prop) : b = true → Q tt s → wp (assert_that b) s Q R.
Proof. by intros ->. Qed.

Lemma wp_expect {A} (o : option A) s Q (R : E → S → Prop) a :
  o = Some a → Q a s → wp (expect o) s Q R.
Proof. by intros ->. Qed.

Lemma wp_eq {A} (m : M S E A) s Q R s' a : m s = Ret s' a → Q a s' → wp m s Q R.
Proof. unfold wp. by intros ->. Qed.

Lemma wp_Ret {A} (m : M S E A) s Q R s' a :
  wp m s Q R → m s = Ret s' a → Q a s'.
Proof. unfold wp. intros Hwp Heq. by rewrite Heq in Hwp. Qed.

Lemma wp_Fail {A} (m : M S E A) s Q R s' e :
  wp m s Q R → m s = Fail s' e → R e s'.
Proof. unfold wp. intros Hwp Heq. by rewrite Heq in Hwp. Qed.

Lemma wp_Panic {A} (m : M S E A) s Q R : wp m s Q R → m s ≠ Panic.
Proof. unfold wp. by intros Hwp Heq; rewrite Heq in Hwp. Qed.

(** A specification that leaves one outcome is an equation. *)
Lemma wp_returns {A} (m : M S E A) s s' a :
  wp m s (λ b t, b = a ∧ t = s') (λ _ _, False) → m s = Ret s' a.
Proof. unfold wp. destruct (m s); naive_solver. Qed.

(** The invariant rule for [loop]: [I pre b s] holds before the element
    that follows the prefix [pre] is visited. *)
Lemma wp_loop {A B X} (I : list A → B → S → Prop) (xs : list A)
    (body : A → B → M S E (flow B X)) b s Q R :
  I [] b s →
  (∀ pre x post b s, xs = pre ++ x :: post → I pre b s →
    wp (body x b) s
      (λ f s', match f with
               | Continue b' => I (pre ++ [x]) b' s'
               | Break r => Q (Break r) s'
               end) R) →
  (∀ b s, I xs b s → Q (Continue b) s) →
  wp (loop xs body b) s Q R.
Proof.
  intros H0 Hstep Hend.
  assert (∀ post pre b s, xs = pre ++ post → I pre b s →
    wp (loop post body b) s Q R) as Hgen.
  { induction post as [|x post IH]; intros pre b' s' Hxs HI; simpl.
    - rewrite app_nil_r in Hxs. subst. by apply Hend.
    - apply wp_bind. eapply wp_mono; [by eapply Hstep| |done].
      intros [b''|r] s'' Hf; [|done].
      apply (IH (pre ++ [x])); [|done]. by rewrite <- app_assoc. }
  by apply (Hgen xs []).
Qed.

Lemma wp_for_each {A B} (I : list A → B → S → Prop) (xs : list A)
    (body : A → B → M S E B) b s Q R :
  I [] b s →
  (∀ pre x post b s, xs = pre ++ x :: post → I pre b s →
    wp (body x b) s (I (pre ++ [x])) R) →
  (∀ b s, I xs b s → Q b s) →
  wp (for_each xs body b) s Q R.
Proof.
  intros H0 Hstep Hend.
  assert (∀ post pre b s, xs = pre ++ post → I pre b s →
    wp (for_each post body b) s Q R) as Hgen.
  { induction post as [|x post IH]; intros pre b' s' Hxs HI; simpl.
    - rewrite app_nil_r in Hxs. subst. by apply Hend.
    - apply wp_bind. eapply wp_mono; [by eapply Hstep| |done].
      intros b'' s'' Hf. apply (IH (pre ++ [x])); [|done]. by rewrite <- app_assoc. }
  by apply (Hgen xs []).
Qed.

End wp_rules.

(** [wp_go] runs a straight-line [wp] goal: it splits binds, calls the
    structural rules and reduces the primitives, destructing what the code
    branches on. *)
Ltac wp_step :=
  lazymatch goal with
  | |- wp (_ ≫= _) _ _ _ => apply wp_bind
  | |- wp (mret _) _ _ _ => apply wp_ret
  | |- wp (fail _) _ _ _ => apply wp_fail
  | |- wp (lift _) _ _ _ => apply wp_lift; cbn beta iota
  | |- wp get _ _ _ => apply wp_get
  | |- wp (put _) _ _ _ => apply wp_put
  | |- wp (modify _) _ _ _ => apply wp_modify
  | |- wp (map_err _ _) _ _ _ => apply wp_map_err
  | |- wp (map_err_or_panic _ _) _ _ _ => apply wp_map_err_or_panic
  | |- wp (unwrap _) _ _ _ => apply wp_unwrap
  | |- wp (try _) _ _ _ => apply wp_try
  | |- wp (on_fst _) _ _ _ => apply wp_on_fst
  | |- wp (on_snd _) _ _ _ => apply wp_on_snd
  | |- wp (if ?b then _ else _) _ _ _ => destruct b eqn:?
  | |- wp (match ?x with _ => _ end) _ _ _ => destruct x eqn:?
  | |- wp (ok_or ?o _) _ _ _ => apply wp_ok_or; destruct o eqn:?
  | |- wp (let _ := _ in _) _ _ _ => cbv zeta
  end.
Ltac wp_go := repeat wp_step.

(** * Partial correctness

    [wlp m s Q R] is [wp] of a call that comes back: of a panic it says
    nothing. *)

Definition wlp {S E A} (m : M S E A) (s : S) (Q : A → S → Prop) (R : E → S → Prop) : Prop :=
  match m s with
  | Ret s' a => Q a s'
  | Fail s' e => R e s'
  | Panic => True
  end.

Section wlp_rules.
Context {S E : Type}.

Lemma wlp_bind {A B} (m : M S E A) (f : A → M S E B) s Q R :
  wlp m s (λ a s', wlp (f a) s' Q R) R → wlp (mbind f m) s Q R.
Proof. unfold wlp, mbind, M_bind. by destruct (m s). Qed.

Lemma wlp_assoc {A B C} (m : M S E A) (f : A → M S E B) (g : B → M S E C) s Q R :
  wlp (m ≫= f) s (λ b s', wlp (g b) s' Q R) R → wlp (m ≫= λ a, f a ≫= g) s Q R.
Proof. unfold wlp, mbind, M_bind. destruct (m s) as [s' a| |]; try done. by destruct (f a s'). Qed.

Lemma wlp_wp {A} (m : M S E A) s Q R : wp m s Q R → wlp m s Q R.
Proof. unfold wp, wlp. by destruct (m s). Qed.

Lemma wlp_mono {A} (m : M S E A) s (Q Q' : A → S → Prop) (R R' : E → S → Prop) :
  wlp m s Q R → (∀ a s', Q a s' → Q' a s') → (∀ e s', R e s' → R' e s') → wlp m s Q' R'.
Proof. unfold wlp. destruct (m s); naive_solver. Qed.

Lemma wlp_map_err {E' A} (g : E' → E) (m : M S E' A) s Q R :
  wlp m s Q (λ e s', R (g e) s') → wlp (map_err g m) s Q R.
Proof. unfold wlp, map_err. by destruct (m s). Qed.

Lemma wlp_unwrap {E' A} (m : M S E' A) s Q (R : E → S → Prop) :
  wlp m s Q (λ _ _, True) → wlp (unwrap m) s Q R.
Proof. unfold wlp, unwrap. by destruct (m s). Qed.

Lemma wlp_on_part {P A} (part : S → P) with_part (m : M P E A) s Q R :
  wlp m (part s) (λ a p, Q a (with_part p s)) (λ e p, R e (with_part p s)) → wlp (on_part part with_part m) s Q R.
Proof. unfold wlp, on_part. by destruct (m (part s)). Qed.

(** What a call does, and what it does if it comes back. *)
Lemma wp_wlp {A} (m : M S E A) s (Q Q' : A → S → Prop) (R R' : E → S → Prop) : wp m s Q R → wlp m s Q' R' →
  wp m s (λ a s', Q a s' ∧ Q' a s') (λ e s', R e s' ∧ R' e s').
Proof. unfold wp, wlp. by destruct (m s). Qed.

(** A call that is of no account. *)
Lemma wlp_any {A} (m : M S E A) s (Q : A → S → Prop) : (∀ a s', Q a s') → wlp m s Q (λ _ _, True).
Proof. unfold wlp. intros HQ. destruct (m s); [apply HQ|done..]. Qed.
End wlp_rules.

Ltac wlp_step :=
  lazymatch goal with
  | |- wlp (_ ≫= _) _ _ _ => apply wlp_bind
  | |- wlp (map_err _ _) _ _ _ => apply wlp_map_err
  | |- wlp (unwrap _) _ _ _ => apply wlp_unwrap
  | |- wlp (on_part _ _ _) _ _ _ => apply wlp_on_part
  | |- wlp (if ?b then _ else _) _ _ _ => destruct b eqn:?
  | |- wlp (match ?x with _ => _ end) _ _ _ => destruct x eqn:?
  | |- wlp _ _ _ _ => apply wlp_wp; wp_step
  end.

(** * Lemmas on machine integers *)

Lemma next_nonzero_spec w a : 0 ≤ a →
  next_nonzero w a = if a + 1 <? 2 ^ w then Some (a + 1) else None.
Proof.
  intros Ha. unfold next_nonzero, checked_add, filter_nonzero.
  destruct (_ <? _) eqn:?; [|done]. by rewrite (proj2 (Z.eqb_neq _ _)) by lia.
Qed.

Lemma next_nonzero_Some w a b : 0 ≤ a →
  next_nonzero w a = Some b ↔ b = a + 1 ∧ a + 1 < 2 ^ w.
Proof.
  intros Ha. rewrite next_nonzero_spec by done.
  destruct (Z.ltb_spec (a + 1) (2 ^ w)); naive_solver lia.
Qed.

Lemma next_nonzero_None w a : is_uint w a →
  next_nonzero w a = None ↔ a = 2 ^ w - 1.
Proof.
  intros [Ha Hb]. rewrite next_nonzero_spec by done.
  destruct (Z.ltb_spec (a + 1) (2 ^ w)); naive_solver lia.
Qed.

Lemma land_unot w a b : is_uint w a → 0 ≤ w → Z.land a (unot w b) = Z.ldiff a b.
Proof.
  intros [Ha Hb] Hw. apply Z.bits_inj'. intros n Hn.
  unfold unot. rewrite Z.land_spec, Z.lxor_spec, Z.ldiff_spec.
  destruct (decide (n < w)) as [Hlt|Hge].
  - rewrite Z.ones_spec_low by lia. by destruct (Z.testbit b n).
  - rewrite Z.ones_spec_high by lia.
    destruct (decide (a = 0)) as [->|]; [by rewrite Z.bits_0|].
    rewrite (Z.bits_above_log2 a n); [done|lia|].
    apply Z.log2_lt_pow2; [lia|]. apply Z.lt_le_trans with (2 ^ w); [lia|].
    apply Z.pow_le_mono_r; lia.
Qed.

(** [a & !b == 0] says that the bits of [a] are among those of [b]. *)
Lemma ldiff_0_subset a b :
  Z.ldiff a b = 0 ↔ ∀ n, 0 ≤ n → Z.testbit a n = true → Z.testbit b n = true.
Proof.
  split.
  - intros H n Hn Ha.
    assert (Z.testbit (Z.ldiff a b) n = false) as Hb by (by rewrite H, Z.bits_0).
    rewrite Z.ldiff_spec, Ha in Hb. by destruct (Z.testbit b n).
  - intros H. apply Z.bits_inj'. intros n Hn.
    rewrite Z.ldiff_spec, Z.bits_0. specialize (H n Hn).
    destruct (Z.testbit a n); [by rewrite H|done].
Qed.

(** [a & b == b] says the same of [b] and [a]. *)
Lemma land_eq_subset a b :
  Z.land a b = b ↔ ∀ n, 0 ≤ n → Z.testbit b n = true → Z.testbit a n = true.
Proof.
  split.
  - intros H n Hn Hb. rewrite <- H, Z.land_spec in Hb. by apply andb_true_iff in Hb as [].
  - intros H. apply Z.bits_inj'. intros n Hn. rewrite Z.land_spec.
    specialize (H n Hn). destruct (Z.testbit b n); [by rewrite H|by rewrite andb_false_r].
Qed.

(** [(hi << 32) | lo] packs two 32-bit words into disjoint halves. *)
Lemma pack32_add hi lo : is_uint 32 lo → Z.lor (Z.shiftl hi 32) lo = hi * 2 ^ 32 + lo.
Proof.
  intros [Hlo Hhi].
  assert (Z.land (Z.shiftl hi 32) lo = 0) as Hdisj.
  { apply Z.bits_inj'. intros n Hn. rewrite Z.land_spec, Z.bits_0.
    destruct (decide (n < 32)) as [Hlt|Hge].
    - by rewrite Z.shiftl_spec_low.
    - rewrite <- (Z.mod_small lo (2 ^ 32)) by lia.
      rewrite Z.mod_pow2_bits_high by lia. by rewrite andb_false_r. }
  rewrite <- Z.lxor_lor, <- Z.add_nocarry_lxor by done.
  by rewrite Z.shiftl_mul_pow2 by lia.
Qed.

(** * Lemmas on lists *)

(** A [for i in 0..n] loop that has visited [pre] is at index [length pre]. *)
Lemma seq_split_from a n pre x post :
  seq a n = pre ++ x :: post → x = (a + length pre)%nat ∧ (length pre < n)%nat.
Proof.
  intros Heq. assert (seq a n !! length pre = Some x) as Hx.
  { rewrite Heq. by apply list_lookup_middle. }
  apply lookup_seq in Hx. lia.
Qed.

Lemma seq_split_at n pre x post :
  seq 0 n = pre ++ x :: post → x = length pre ∧ (length pre < n)%nat.
Proof. apply (seq_split_from 0). Qed.

(** An array of [n] cells filled from the left takes one more element. *)
Lemma fill_next {A} (xs : list A) x n : (length xs < n)%nat →
  <[length xs := Some x]> ((Some <$> xs) ++ replicate (n - length xs) None) =
  (Some <$> xs ++ [x]) ++ replicate (n - length (xs ++ [x])) None.
Proof.
  intros Hn. rewrite insert_app_r_alt by (by rewrite length_fmap).
  rewrite length_fmap, Nat.sub_diag, length_app, fmap_app, <- app_assoc. f_equal. simpl.
  replace (n - length xs)%nat with (S (n - (length xs + 1)))%nat by lia. done.
Qed.

Lemma length_fill {A} (xs : list A) n : (length xs ≤ n)%nat →
  length ((Some <$> xs) ++ replicate (n - length xs) None) = n.
Proof. intros. rewrite length_app, length_fmap, length_replicate. lia. Qed.

Lemma omap_fill {A} (xs : list A) n :
  omap id ((Some <$> xs) ++ replicate n None) = xs.
Proof.
  rewrite omap_app.
  assert (omap id (replicate n None) = @nil A) as -> by (by induction n).
  rewrite app_nil_r. induction xs; f_equal/=; done.
Qed.

Lemma length_omap {A B} (f : A → option B) (xs : list A) :
  (length (omap f xs) ≤ length xs)%nat.
Proof. induction xs as [|x xs IH]; csimpl; [done|]. destruct (f x); csimpl; lia. Qed.

(** First occurrences, in order. *)
Definition dedup {A} `{EqDecision A} (xs : list A) : list A :=
  fold_left (λ seen x, if decide (x ∈ seen) then seen else seen ++ [x]) xs [].

Section dedup.
Context {A : Type} `{EqDecision A}.
Implicit Types (xs : list A) (x : A).

Lemma dedup_snoc xs x :
  dedup (xs ++ [x]) = if decide (x ∈ dedup xs) then dedup xs else dedup xs ++ [x].
Proof. unfold dedup. by rewrite fold_left_app. Qed.

Lemma elem_of_dedup xs x : x ∈ dedup xs ↔ x ∈ xs.
Proof.
  induction xs as [|y xs IH] using rev_ind; [done|].
  rewrite dedup_snoc. destruct (decide _); set_solver.
Qed.

Lemma NoDup_dedup xs : NoDup (dedup xs).
Proof.
  induction xs as [|y xs IH] using rev_ind; [apply base.NoDup_nil_2|].
  rewrite dedup_snoc. destruct (decide _); [done|].
  apply list.NoDup_app. split_and!; [done|set_solver|apply list.NoDup_singleton].
Qed.

Lemma length_dedup xs : (length (dedup xs) ≤ length xs)%nat.
Proof.
  induction xs as [|y xs IH] using rev_ind; [done|].
  rewrite dedup_snoc, length_app. destruct (decide _); rewrite ?length_app; cbn [length]; lia.
Qed.

End dedup.

(** * Lemmas on multisets *)

Lemma gmultiset_add_remove `{Countable A} (X Y : gmultiset A) : (X ⊎ Y) ∖ Y = X.
Proof. multiset_solver. Qed.

Lemma gmultiset_remove_add `{Countable A} (X : gmultiset A) x :
  x ∈ X → X ∖ {[+ x +]} ⊎ {[+ x +]} = X.
Proof. multiset_solver. Qed.

Lemma gmultiset_remove_nothing `{Countable A} (X : gmultiset A) : X ∖ ∅ = X.
Proof. multiset_solver. Qed.

Lemma gmultiset_add_nothing `{Countable A} (X : gmultiset A) : X ⊎ ∅ = X.
Proof. multiset_solver. Qed.

Lemma gmultiset_nothing_add `{Countable A} (X : gmultiset A) : ∅ ⊎ X = X.
Proof. multiset_solver. Qed.

(** The books after an operation are [held ∖ taken ⊎ given]: what was not
    taken or given drops out. *)
Create HintDb books.
#[export] Hint Rewrite @gmultiset_remove_nothing @gmultiset_add_nothing @gmultiset_nothing_add
  @gmultiset_add_remove : books.
Ltac balance := autorewrite with books.
