(* ===== verification/Abi.v ===== *)
(** * The native ABI constants the kernel's authorities are checked against

    Models the rights, object-type and signal part of
    [abi/generated/deepwyrm_abi.rs], which [crates/deepwyrm-abi] includes:
    the single-bit rights, the object types, the signals, the mask of rights
    and of signals each object type is compatible with, and the predicates
    over them.  A [DwRights], [DwSignals] or [DwHandle] is a 64-bit word and a
    [DwObjectType] a 32-bit word. *)

From stdpp Require Import base tactics numbers list sets.
From Stdlib Require Import ZArith Lia.
From S2P Require Import Prelude.
Local Open Scope Z_scope.

Abbreviation DwRights := Z (only parsing).
Abbreviation DwObjectType := Z (only parsing).
Abbreviation DwSignals := Z (only parsing).
Abbreviation DwHandle := Z (only parsing).

Definition DW_RIGHT_READ : DwRights := 1.
Definition DW_RIGHT_WRITE : DwRights := 2.
Definition DW_RIGHT_EXECUTE : DwRights := 4.
Definition DW_RIGHT_MAP : DwRights := 8.
Definition DW_RIGHT_WAIT : DwRights := 16.
Definition DW_RIGHT_SIGNAL : DwRights := 32.
Definition DW_RIGHT_DUPLICATE : DwRights := 64.
Definition DW_RIGHT_TRANSFER : DwRights := 128.
Definition DW_RIGHT_INSPECT : DwRights := 256.
Definition DW_RIGHT_MODIFY : DwRights := 512.
Definition DW_RIGHT_RESOURCE : DwRights := 1024.

Definition DW_OBJECT_TYPE_NONE : DwObjectType := 0.
Definition DW_OBJECT_TYPE_TASK_GROUP : DwObjectType := 1.
Definition DW_OBJECT_TYPE_PROCESS : DwObjectType := 2.
Definition DW_OBJECT_TYPE_THREAD : DwObjectType := 3.
Definition DW_OBJECT_TYPE_MEMORY_OBJECT : DwObjectType := 4.
Definition DW_OBJECT_TYPE_ADDRESS_REGION : DwObjectType := 5.
Definition DW_OBJECT_TYPE_CHANNEL : DwObjectType := 6.
Definition DW_OBJECT_TYPE_EVENT : DwObjectType := 7.
Definition DW_OBJECT_TYPE_TIMER : DwObjectType := 8.
Definition DW_OBJECT_TYPE_INTERRUPT : DwObjectType := 16.
Definition DW_OBJECT_TYPE_DEVICE_RESOURCE : DwObjectType := 17.
Definition DW_OBJECT_TYPE_EXCEPTION : DwObjectType := 18.

Definition DW_SIGNAL_READABLE : DwSignals := 1.
Definition DW_SIGNAL_WRITABLE : DwSignals := 2.
Definition DW_SIGNAL_PEER_CLOSED : DwSignals := 4.
Definition DW_SIGNAL_EXITED : DwSignals := 8.
Definition DW_SIGNAL_SIGNALED : DwSignals := 16.

Definition DW_RIGHTS_KNOWN_MASK : DwRights := 2047.
Definition DW_OBJECT_COMPATIBLE_RIGHTS_TASK_GROUP : DwRights := 1984.
Definition DW_OBJECT_COMPATIBLE_RIGHTS_PROCESS : DwRights := 976.
Definition DW_OBJECT_COMPATIBLE_RIGHTS_THREAD : DwRights := 980.
Definition DW_OBJECT_COMPATIBLE_RIGHTS_MEMORY_OBJECT : DwRights := 463.
Definition DW_OBJECT_COMPATIBLE_RIGHTS_ADDRESS_REGION : DwRights := 968.
Definition DW_OBJECT_COMPATIBLE_RIGHTS_CHANNEL : DwRights := 467.
Definition DW_OBJECT_COMPATIBLE_RIGHTS_EVENT : DwRights := 496.
Definition DW_OBJECT_COMPATIBLE_RIGHTS_TIMER : DwRights := 976.
Definition DW_OBJECT_COMPATIBLE_RIGHTS_INTERRUPT : DwRights := 912.
Definition DW_OBJECT_COMPATIBLE_RIGHTS_DEVICE_RESOURCE : DwRights := 963.

Definition dw_object_compatible_rights (object_type : DwObjectType) : DwRights :=
  match object_type with
  | 1 => DW_OBJECT_COMPATIBLE_RIGHTS_TASK_GROUP
  | 2 => DW_OBJECT_COMPATIBLE_RIGHTS_PROCESS
  | 3 => DW_OBJECT_COMPATIBLE_RIGHTS_THREAD
  | 4 => DW_OBJECT_COMPATIBLE_RIGHTS_MEMORY_OBJECT
  | 5 => DW_OBJECT_COMPATIBLE_RIGHTS_ADDRESS_REGION
  | 6 => DW_OBJECT_COMPATIBLE_RIGHTS_CHANNEL
  | 7 => DW_OBJECT_COMPATIBLE_RIGHTS_EVENT
  | 8 => DW_OBJECT_COMPATIBLE_RIGHTS_TIMER
  | 16 => DW_OBJECT_COMPATIBLE_RIGHTS_INTERRUPT
  | 17 => DW_OBJECT_COMPATIBLE_RIGHTS_DEVICE_RESOURCE
  | _ => 0
  end.

Definition dw_rights_are_known (rights : DwRights) : bool :=
  Z.land rights (unot 64 DW_RIGHTS_KNOWN_MASK) =? 0.

Definition dw_rights_are_compatible (object_type : DwObjectType) (rights : DwRights) : bool :=
  let compatible := dw_object_compatible_rights object_type in
  Z.land rights (unot 64 compatible) =? 0.

Definition DW_SIGNALS_KNOWN_MASK : DwSignals := 31.
Definition DW_OBJECT_COMPATIBLE_SIGNALS_TASK_GROUP : DwSignals := 0.
Definition DW_OBJECT_COMPATIBLE_SIGNALS_PROCESS : DwSignals := 8.
Definition DW_OBJECT_COMPATIBLE_SIGNALS_THREAD : DwSignals := 8.
Definition DW_OBJECT_COMPATIBLE_SIGNALS_MEMORY_OBJECT : DwSignals := 0.
Definition DW_OBJECT_COMPATIBLE_SIGNALS_ADDRESS_REGION : DwSignals := 0.
Definition DW_OBJECT_COMPATIBLE_SIGNALS_CHANNEL : DwSignals := 7.
Definition DW_OBJECT_COMPATIBLE_SIGNALS_EVENT : DwSignals := 16.
Definition DW_OBJECT_COMPATIBLE_SIGNALS_TIMER : DwSignals := 16.
Definition DW_OBJECT_COMPATIBLE_SIGNALS_INTERRUPT : DwSignals := 16.
Definition DW_OBJECT_COMPATIBLE_SIGNALS_DEVICE_RESOURCE : DwSignals := 0.

Definition dw_object_compatible_signals (object_type : DwObjectType) : DwSignals :=
  match object_type with
  | 1 => DW_OBJECT_COMPATIBLE_SIGNALS_TASK_GROUP
  | 2 => DW_OBJECT_COMPATIBLE_SIGNALS_PROCESS
  | 3 => DW_OBJECT_COMPATIBLE_SIGNALS_THREAD
  | 4 => DW_OBJECT_COMPATIBLE_SIGNALS_MEMORY_OBJECT
  | 5 => DW_OBJECT_COMPATIBLE_SIGNALS_ADDRESS_REGION
  | 6 => DW_OBJECT_COMPATIBLE_SIGNALS_CHANNEL
  | 7 => DW_OBJECT_COMPATIBLE_SIGNALS_EVENT
  | 8 => DW_OBJECT_COMPATIBLE_SIGNALS_TIMER
  | 16 => DW_OBJECT_COMPATIBLE_SIGNALS_INTERRUPT
  | 17 => DW_OBJECT_COMPATIBLE_SIGNALS_DEVICE_RESOURCE
  | _ => 0
  end.

Definition dw_signals_are_known (signals : DwSignals) : bool :=
  Z.land signals (unot 64 DW_SIGNALS_KNOWN_MASK) =? 0.

Definition dw_signals_are_compatible (object_type : DwObjectType) (signals : DwSignals) : bool :=
  let compatible := dw_object_compatible_signals object_type in
  Z.land signals (unot 64 compatible) =? 0.

Definition DW_HANDLE_INVALID : DwHandle := 0.
Definition DW_DEADLINE_NOW : Z := 0.
Definition DW_DEADLINE_INFINITE : Z := 18446744073709551615.
Definition DW_CHANNEL_MAX_PAYLOAD : Z := 65536.
Definition DW_CHANNEL_MAX_HANDLES : Z := 16.

(** * Rights as sets of bits *)

(** Every bit of [a] is a bit of [b]. *)
Definition bits_subset (a b : Z) : Prop :=
  ∀ n, 0 ≤ n → Z.testbit a n = true → Z.testbit b n = true.

Global Instance bits_subset_preorder : PreOrder bits_subset.
Proof. split; unfold bits_subset; [by intros ? ?|naive_solver]. Qed.

Lemma bits_subset_0 b : bits_subset 0 b.
Proof. intros n _. by rewrite Z.bits_0. Qed.

Lemma dw_rights_are_compatible_spec ty rights : is_uint 64 rights →
  dw_rights_are_compatible ty rights = true ↔
  bits_subset rights (dw_object_compatible_rights ty).
Proof.
  intros Hr. unfold dw_rights_are_compatible.
  rewrite land_unot, Z.eqb_eq by (done || lia). apply ldiff_0_subset.
Qed.

Lemma dw_rights_are_known_spec rights : is_uint 64 rights →
  dw_rights_are_known rights = true ↔ bits_subset rights DW_RIGHTS_KNOWN_MASK.
Proof.
  intros Hr. unfold dw_rights_are_known.
  rewrite land_unot, Z.eqb_eq by (done || lia). apply ldiff_0_subset.
Qed.

(** The generated table: an object type outside the listed ones is
    compatible with no right, and every listed mask is made of known bits. *)
Lemma dw_object_compatible_rights_cases ty :
  dw_object_compatible_rights ty = 0 ∨
  ty ∈ [1; 2; 3; 4; 5; 6; 7; 8; 16; 17].
Proof.
  destruct ty as [|p|p]; [by left| |by left].
  do 5 (destruct p as [p|p|]; try (by left); try (right; set_solver)).
Qed.

Lemma dw_object_compatible_rights_known ty :
  Z.ldiff (dw_object_compatible_rights ty) DW_RIGHTS_KNOWN_MASK = 0.
Proof.
  destruct (dw_object_compatible_rights_cases ty) as [->|Hin]; [done|].
  repeat (apply elem_of_cons in Hin as [->|Hin]; [done|]). by apply elem_of_nil in Hin.
Qed.

Lemma dw_object_compatible_signals_known ty :
  Z.ldiff (dw_object_compatible_signals ty) DW_SIGNALS_KNOWN_MASK = 0.
Proof.
  destruct ty as [|p|p]; [done| |done].
  do 5 (destruct p as [p|p|]; try done).
Qed.

(** * Rights validation

    Models [kernel/src/handle/rights.rs]: the checks a handle operation makes
    on a rights word before it may confer authority.  Each returns a pure
    [Result]. *)

Local Open Scope Z_scope.

Module RightsValidationError.
Inductive t : Type :=
| Zero
| Unknown
| Incompatible
| Missing
| Escalation.
End RightsValidationError.

Definition validate_requested_syntax (rights : DwRights)
    : Result unit RightsValidationError.t :=
  if rights =? 0 then Err RightsValidationError.Zero
  else if negb (dw_rights_are_known rights) then Err RightsValidationError.Unknown
  else Ok tt.

Definition validate_required_syntax (rights : DwRights)
    : Result unit RightsValidationError.t :=
  if negb (dw_rights_are_known rights) then Err RightsValidationError.Unknown
  else Ok tt.

Definition validate_compatible (object_type : DwObjectType) (rights : DwRights)
    : Result unit RightsValidationError.t :=
  if negb (dw_rights_are_compatible object_type rights)
  then Err RightsValidationError.Incompatible
  else Ok tt.

Definition require_held (held required : DwRights)
    : Result unit RightsValidationError.t :=
  if negb (Z.land held required =? required) then Err RightsValidationError.Missing
  else Ok tt.

Definition require_subset (held requested : DwRights)
    : Result unit RightsValidationError.t :=
  if negb (Z.land requested (unot 64 held) =? 0) then Err RightsValidationError.Escalation
  else Ok tt.

(** * What each check accepts *)

Lemma require_held_ok held required :
  require_held held required = Ok tt ↔ bits_subset required held.
Proof.
  unfold require_held. rewrite <- (land_eq_subset held required : _ ↔ bits_subset _ _).
  destruct (Z.eqb_spec (Z.land held required) required); naive_solver.
Qed.

Lemma require_subset_ok held requested : is_uint 64 requested →
  require_subset held requested = Ok tt ↔ bits_subset requested held.
Proof.
  intros Hr. unfold require_subset. rewrite land_unot by (done || lia).
  rewrite <- (ldiff_0_subset requested held : _ ↔ bits_subset _ _).
  destruct (Z.eqb_spec (Z.ldiff requested held) 0); naive_solver.
Qed.

Lemma validate_compatible_ok ty rights : is_uint 64 rights →
  validate_compatible ty rights = Ok tt ↔
  bits_subset rights (dw_object_compatible_rights ty).
Proof.
  intros Hr. rewrite <- dw_rights_are_compatible_spec by done.
  unfold validate_compatible. destruct (dw_rights_are_compatible ty rights); naive_solver.
Qed.

Lemma validate_requested_syntax_ok rights : is_uint 64 rights →
  validate_requested_syntax rights = Ok tt ↔
  rights ≠ 0 ∧ bits_subset rights DW_RIGHTS_KNOWN_MASK.
Proof.
  intros Hr. rewrite <- dw_rights_are_known_spec by done.
  unfold validate_requested_syntax.
  destruct (Z.eqb_spec rights 0), (dw_rights_are_known rights); naive_solver.
Qed.

Lemma validate_required_syntax_ok rights : is_uint 64 rights →
  validate_required_syntax rights = Ok tt ↔ bits_subset rights DW_RIGHTS_KNOWN_MASK.
Proof.
  intros Hr. rewrite <- dw_rights_are_known_spec by done.
  unfold validate_required_syntax. destruct (dw_rights_are_known rights); naive_solver.
Qed.
