(* ===== verification/Object.v ===== *)
(** * Kernel-object identity and strong lifetime

    Models [kernel/src/object/mod.rs].  An [ObjectRegistry] is a table of
    generation-counted slots; a slot is vacant, live with a count of handle
    and of internal references, finalizing, or retired.  The move-only tokens
    of the source ([CreationRef], [BoundCreation], [HandleRef],
    [InternalRef], [FinalRelease]) are records of an identity and a type; the
    sealed payload traits are type classes.  A method on [&mut self] is a
    computation of [Prelude.M] over the registry; an [expect], an
    [unreachable!] or a [panic!] is [Panic]. *)

From stdpp Require Import base tactics numbers list.
From Stdlib Require Import ZArith Lia.
From S2P Require Import Prelude Abi.
Local Open Scope Z_scope.

Record ObjectId : Type := { oid_domain : Z; oid_raw : Z }.

Global Instance ObjectId_eq_dec : EqDecision ObjectId.
Proof. solve_decision. Defined.

Module ObjectRegistryError.
Inductive t : Type :=
| InvalidObjectType
| Capacity
| ForeignReference
| StaleReference
| ObjectTypeMismatch
| ReferenceCountExhausted
| ReferenceCountUnderflow
| NotFinalizing.
End ObjectRegistryError.

Module ReferenceKind.
Inductive t : Type :=
| Handle
| Internal.

Global Instance t_eq_dec : EqDecision t.
Proof. solve_decision. Defined.
End ReferenceKind.

Record CreationRef : Type := { creation_id : ObjectId; creation_type : DwObjectType }.
Record BoundCreation : Type := { bound_reference : CreationRef }.
Record HandleRef : Type := { handle_id : ObjectId; handle_type : DwObjectType }.
Record InternalRef : Type := { internal_id : ObjectId; internal_type : DwObjectType }.
Record FinalRelease : Type := { final_id : ObjectId; final_type : DwObjectType }.

Global Instance HandleRef_eq_dec : EqDecision HandleRef.
Proof. solve_decision. Defined.
Global Instance InternalRef_eq_dec : EqDecision InternalRef.
Proof. solve_decision. Defined.
Global Instance FinalRelease_eq_dec : EqDecision FinalRelease.
Proof. solve_decision. Defined.

(** The sealed traits by which a typed payload gives up its creation
    reference, or its final release, to the registry. *)
Class PayloadBindingProof (P : Type) : Type := into_creation : P → CreationRef.
Class PayloadCleanupProof (P : Type) : Type := into_final_release : P → FinalRelease.

Record LiveObject : Type := {
  live_type : DwObjectType;
  handle_refs : Z;
  internal_refs : Z;
}.

Module SlotState.
Inductive t : Type :=
| Vacant
| Live (live : LiveObject)
| Finalizing (object_type : DwObjectType)
| Retired.
End SlotState.

Record ObjectSlot : Type := { generation : Z; state : SlotState.t }.

Definition EMPTY_SLOT : ObjectSlot := {| generation := 0; state := SlotState.Vacant |}.

Definition next_generation (generation : Z) : option Z := next_nonzero 32 generation.

Definition encode_object_id (slot : nat) (generation : Z) : option Z :=
  slot ← checked_add 64 (Z.of_nat slot) 1;
  slot ← try_from 32 slot;
  if negb (generation =? 0) then Some (Z.lor (Z.shiftl generation 32) slot) else None.

Definition decode_object_id (raw : Z) : option (nat * Z) :=
  let generation := truncate 32 (Z.shiftr raw 32) in
  slot ← try_from 32 (Z.land raw (2 ^ 32 - 1));
  slot ← checked_sub slot 1;
  if negb (generation =? 0) then Some (Z.to_nat slot, generation) else None.

(** The static [NEXT_REGISTRY_DOMAIN] is the state. *)
Definition mint_registry_domain {E} : M Z E Z :=
  domain ← get;
  next ← expect (next_nonzero 64 domain);
  put next;;
  mret domain.

Module ObjectRegistry.

Record t : Type := { domain : Z; slots : list ObjectSlot }.

Definition set_slot (slot : nat) (s : ObjectSlot) (r : t) : t :=
  {| domain := domain r; slots := <[slot := s]> (slots r) |}.

Definition new (capacity : nat) {E} : M Z E t :=
  domain ← mint_registry_domain;
  mret {| domain := domain; slots := replicate capacity EMPTY_SLOT |}.

(** [self.slots[slot]] *)
Definition slot_at {E} (slot : nat) : M t E ObjectSlot :=
  r ← get;
  expect (slots r !! slot).

Definition create (object_type : DwObjectType) : M t ObjectRegistryError.t CreationRef :=
  if dw_object_compatible_rights object_type =? 0
  then fail ObjectRegistryError.InvalidObjectType
  else
    self ← get;
    found ← loop (seq 0 (length (slots self))) (λ slot _,
      entry ← slot_at slot;
      match state entry with
      | SlotState.Vacant =>
          match next_generation (generation entry) with
          | None =>
              modify (set_slot slot {| generation := generation entry;
                                       state := SlotState.Retired |});;
              mret (Continue tt)
          | Some generation' =>
              match encode_object_id slot generation' with
              | None =>
                  modify (set_slot slot {| generation := generation entry;
                                           state := SlotState.Retired |});;
                  mret (Continue tt)
              | Some raw =>
                  modify (set_slot slot
                    {| generation := generation';
                       state := SlotState.Live
                         {| live_type := object_type; handle_refs := 0; internal_refs := 1 |} |});;
                  self ← get;
                  mret (Break {| creation_id := {| oid_domain := domain self; oid_raw := raw |};
                                 creation_type := object_type |})
              end
          end
      | _ => mret (Continue tt)
      end) tt;
    match found with
    | Break c => mret c
    | Continue _ => fail ObjectRegistryError.Capacity
    end.

Definition reference_slot (id : ObjectId) : M t ObjectRegistryError.t nat :=
  self ← get;
  if negb (oid_domain id =? domain self) then fail ObjectRegistryError.ForeignReference
  else
    '(slot, _) ← ok_or (decode_object_id (oid_raw id)) ObjectRegistryError.StaleReference;
    ok_or (slots self !! slot ≫= λ _, Some slot) ObjectRegistryError.StaleReference.

(** [match kind { Handle => live.handle_refs, Internal => live.internal_refs }] *)
Definition counter (kind : ReferenceKind.t) (live : LiveObject) : Z :=
  match kind with
  | ReferenceKind.Handle => handle_refs live
  | ReferenceKind.Internal => internal_refs live
  end.

Definition set_counter (kind : ReferenceKind.t) (n : Z) (live : LiveObject) : LiveObject :=
  match kind with
  | ReferenceKind.Handle =>
      {| live_type := live_type live; handle_refs := n; internal_refs := internal_refs live |}
  | ReferenceKind.Internal =>
      {| live_type := live_type live; handle_refs := handle_refs live; internal_refs := n |}
  end.

Definition validate_reference (id : ObjectId) (object_type : DwObjectType)
    (kind : ReferenceKind.t) : M t ObjectRegistryError.t unit :=
  slot ← reference_slot id;
  '(_, generation') ← ok_or (decode_object_id (oid_raw id)) ObjectRegistryError.StaleReference;
  entry ← slot_at slot;
  if negb (generation entry =? generation') then fail ObjectRegistryError.StaleReference
  else
    match state entry with
    | SlotState.Live live =>
        if negb (live_type live =? object_type) then fail ObjectRegistryError.ObjectTypeMismatch
        else if counter kind live =? 0 then fail ObjectRegistryError.ReferenceCountUnderflow
        else mret tt
    | _ => fail ObjectRegistryError.StaleReference
    end.

(** [let SlotState::Live(live) = &mut self.slots[slot].state else { return Err(StaleReference) }] *)
Definition live_at (slot : nat) : M t ObjectRegistryError.t (Z * LiveObject) :=
  entry ← slot_at slot;
  match state entry with
  | SlotState.Live live => mret (generation entry, live)
  | _ => fail ObjectRegistryError.StaleReference
  end.

Definition write_live {E} (slot : nat) (generation : Z) (live : LiveObject) : M t E unit :=
  modify (set_slot slot {| generation := generation; state := SlotState.Live live |}).

Definition retain_reference (id : ObjectId) (object_type : DwObjectType)
    (source_kind retained_kind : ReferenceKind.t) : M t ObjectRegistryError.t unit :=
  validate_reference id object_type source_kind;;
  slot ← reference_slot id;
  '(g, live) ← live_at slot;
  n ← ok_or (checked_add 32 (counter retained_kind live) 1)
        ObjectRegistryError.ReferenceCountExhausted;
  write_live slot g (set_counter retained_kind n live).

Definition transition_reference (id : ObjectId) (object_type : DwObjectType)
    (from to : ReferenceKind.t) : M t ObjectRegistryError.t unit :=
  validate_reference id object_type from;;
  if bool_decide (from = to) then mret tt
  else
    slot ← reference_slot id;
    '(g, live) ← live_at slot;
    match from, to with
    | ReferenceKind.Handle, ReferenceKind.Internal =>
        next ← ok_or (checked_add 32 (internal_refs live) 1)
                 ObjectRegistryError.ReferenceCountExhausted;
        h ← ok_or (checked_sub (handle_refs live) 1)
              ObjectRegistryError.ReferenceCountUnderflow;
        write_live slot g
          {| live_type := live_type live; handle_refs := h; internal_refs := next |}
    | ReferenceKind.Internal, ReferenceKind.Handle =>
        next ← ok_or (checked_add 32 (handle_refs live) 1)
                 ObjectRegistryError.ReferenceCountExhausted;
        i ← ok_or (checked_sub (internal_refs live) 1)
              ObjectRegistryError.ReferenceCountUnderflow;
        write_live slot g
          {| live_type := live_type live; handle_refs := next; internal_refs := i |}
    | _, _ => panic
    end.

Definition release_reference (id : ObjectId) (object_type : DwObjectType)
    (kind : ReferenceKind.t) : M t ObjectRegistryError.t (option FinalRelease) :=
  validate_reference id object_type kind;;
  slot ← reference_slot id;
  '(g, live) ← live_at slot;
  n ← ok_or (checked_sub (counter kind live) 1) ObjectRegistryError.ReferenceCountUnderflow;
  let live' := set_counter kind n live in
  write_live slot g live';;
  if handle_refs live' + internal_refs live' =? 0 then
    modify (set_slot slot {| generation := g; state := SlotState.Finalizing object_type |});;
    mret (Some {| final_id := id; final_type := object_type |})
  else mret None.

Definition complete_finalization_inner (final_release : FinalRelease)
    : M t ObjectRegistryError.t unit :=
  slot ← reference_slot (final_id final_release);
  entry ← slot_at slot;
  '(_, generation') ← expect (decode_object_id (oid_raw (final_id final_release)));
  if negb (generation entry =? generation') then fail ObjectRegistryError.StaleReference
  else
    match state entry with
    | SlotState.Finalizing object_type =>
        if negb (object_type =? final_type final_release)
        then fail ObjectRegistryError.ObjectTypeMismatch
        else
          modify (set_slot slot
            {| generation := generation entry;
               state := match next_generation (generation entry) with
                        | Some _ => SlotState.Vacant
                        | None => SlotState.Retired
                        end |})
    | _ => fail ObjectRegistryError.NotFinalizing
    end.

(** ** The public operations

    An operation that consumes a token returns it inside the error. *)

Definition with_reference {A T} (reference : T) (m : M t ObjectRegistryError.t A)
    : M t (ObjectRegistryError.t * T) A :=
  map_err (λ e, (e, reference)) m.

Definition creation_into_handle (reference : CreationRef)
    : M t (ObjectRegistryError.t * CreationRef) HandleRef :=
  with_reference reference (transition_reference (creation_id reference)
    (creation_type reference) ReferenceKind.Internal ReferenceKind.Handle);;
  mret {| handle_id := creation_id reference; handle_type := creation_type reference |}.

Definition creation_into_internal (reference : CreationRef)
    : M t (ObjectRegistryError.t * CreationRef) InternalRef :=
  with_reference reference (validate_reference (creation_id reference)
    (creation_type reference) ReferenceKind.Internal);;
  mret {| internal_id := creation_id reference; internal_type := creation_type reference |}.

Definition finish_payload_binding {P} `{PayloadBindingProof P} (proof : P)
    : M t (ObjectRegistryError.t * CreationRef) BoundCreation :=
  let reference := into_creation proof in
  with_reference reference (validate_reference (creation_id reference)
    (creation_type reference) ReferenceKind.Internal);;
  mret {| bound_reference := reference |}.

Definition retain_handle_from_bound (bound : BoundCreation)
    : M t ObjectRegistryError.t HandleRef :=
  let reference := bound_reference bound in
  retain_reference (creation_id reference) (creation_type reference)
    ReferenceKind.Internal ReferenceKind.Handle;;
  mret {| handle_id := creation_id reference; handle_type := creation_type reference |}.

Definition bound_into_handle (bound : BoundCreation)
    : M t (ObjectRegistryError.t * BoundCreation) HandleRef :=
  let reference := bound_reference bound in
  with_reference bound (transition_reference (creation_id reference)
    (creation_type reference) ReferenceKind.Internal ReferenceKind.Handle);;
  mret {| handle_id := creation_id reference; handle_type := creation_type reference |}.

Definition bound_into_internal (bound : BoundCreation)
    : M t (ObjectRegistryError.t * BoundCreation) InternalRef :=
  let reference := bound_reference bound in
  with_reference bound (validate_reference (creation_id reference)
    (creation_type reference) ReferenceKind.Internal);;
  mret {| internal_id := creation_id reference; internal_type := creation_type reference |}.

Definition handle_into_internal (reference : HandleRef)
    : M t (ObjectRegistryError.t * HandleRef) InternalRef :=
  with_reference reference (transition_reference (handle_id reference)
    (handle_type reference) ReferenceKind.Handle ReferenceKind.Internal);;
  mret {| internal_id := handle_id reference; internal_type := handle_type reference |}.

Definition internal_into_handle (reference : InternalRef)
    : M t (ObjectRegistryError.t * InternalRef) HandleRef :=
  with_reference reference (transition_reference (internal_id reference)
    (internal_type reference) ReferenceKind.Internal ReferenceKind.Handle);;
  mret {| handle_id := internal_id reference; handle_type := internal_type reference |}.

Definition retain_handle (source : HandleRef) : M t ObjectRegistryError.t HandleRef :=
  retain_reference (handle_id source) (handle_type source)
    ReferenceKind.Handle ReferenceKind.Handle;;
  mret {| handle_id := handle_id source; handle_type := handle_type source |}.

Definition retain_internal_from_handle (source : HandleRef)
    : M t ObjectRegistryError.t InternalRef :=
  retain_reference (handle_id source) (handle_type source)
    ReferenceKind.Handle ReferenceKind.Internal;;
  mret {| internal_id := handle_id source; internal_type := handle_type source |}.

Definition retain_internal (source : InternalRef) : M t ObjectRegistryError.t InternalRef :=
  retain_reference (internal_id source) (internal_type source)
    ReferenceKind.Internal ReferenceKind.Internal;;
  mret {| internal_id := internal_id source; internal_type := internal_type source |}.

Definition cancel_creation (reference : CreationRef)
    : M t (ObjectRegistryError.t * CreationRef) unit :=
  final_release ← with_reference reference (release_reference (creation_id reference)
    (creation_type reference) ReferenceKind.Internal);
  match final_release with
  | Some final_release => unwrap (complete_finalization_inner final_release)
  | None => panic
  end.

Definition release_creation (reference : CreationRef)
    : M t (ObjectRegistryError.t * CreationRef) (option FinalRelease) :=
  with_reference reference (release_reference (creation_id reference)
    (creation_type reference) ReferenceKind.Internal).

Definition release_handle (reference : HandleRef)
    : M t (ObjectRegistryError.t * HandleRef) (option FinalRelease) :=
  with_reference reference (release_reference (handle_id reference)
    (handle_type reference) ReferenceKind.Handle).

Definition release_internal (reference : InternalRef)
    : M t (ObjectRegistryError.t * InternalRef) (option FinalRelease) :=
  with_reference reference (release_reference (internal_id reference)
    (internal_type reference) ReferenceKind.Internal).

Definition complete_payload_finalization {P} `{PayloadCleanupProof P} (proof : P)
    : M t (ObjectRegistryError.t * FinalRelease) unit :=
  let final_release := into_final_release proof in
  with_reference final_release (complete_finalization_inner final_release).

Definition complete_finalization (final_release : FinalRelease)
    : M t (ObjectRegistryError.t * FinalRelease) unit :=
  with_reference final_release (complete_finalization_inner final_release).

End ObjectRegistry.
