(* ===== verification/ObjectFacts.v ===== *)
(** * The lifecycle of an object slot

    Identity encoding, the equations of the registry's operations on an
    identity that names a slot, and the slot state machine they refine:
    vacant, live, finalizing, then vacant again under a larger generation or
    retired for good. *)

From stdpp Require Import base tactics numbers list relations.
From Stdlib Require Import ZArith Lia.
From S2P Require Import Prelude Abi Object.
Import ObjectRegistry.
Local Open Scope Z_scope.

(** ** Identities *)

Lemma encode_object_id_Some i g raw : is_uint 32 g →
  encode_object_id i g = Some raw ↔
  g ≠ 0 ∧ Z.of_nat i + 1 < 2 ^ 32 ∧ raw = g * 2 ^ 32 + (Z.of_nat i + 1).
Proof.
  intros Hg. unfold encode_object_id, checked_add, try_from.
  destruct (Z.ltb_spec (Z.of_nat i + 1) (2 ^ 64)); simpl.
  - destruct (Z.ltb_spec (Z.of_nat i + 1) (2 ^ 32)); simpl; [|naive_solver lia].
    destruct (Z.eqb_spec g 0); simpl; [naive_solver|].
    rewrite pack32_add by (unfold is_uint; lia). naive_solver.
  - split; [done|]. intros (_ & Hi & _). lia.
Qed.

Lemma decode_object_id_Some raw i g : is_uint 64 raw →
  decode_object_id raw = Some (i, g) ↔
  g ≠ 0 ∧ is_uint 32 g ∧ Z.of_nat i + 1 < 2 ^ 32 ∧ raw = g * 2 ^ 32 + (Z.of_nat i + 1).
Proof.
  intros [Hr0 Hr1]. unfold decode_object_id, truncate, try_from, checked_sub, is_uint.
  rewrite Z.shiftr_div_pow2 by lia.
  replace (2 ^ 32 - 1) with (Z.ones 32) by done. rewrite Z.land_ones by lia.
  rewrite (Z.mod_small (raw / 2 ^ 32)) by (split; [apply Z.div_pos|apply Z.div_lt_upper_bound]; lia).
  pose proof (Z.div_mod raw (2 ^ 32) ltac:(lia)) as Hdm.
  pose proof (Z.mod_pos_bound raw (2 ^ 32) ltac:(lia)) as Hmb.
  assert (0 ≤ raw / 2 ^ 32 < 2 ^ 32) as Hdb
    by (split; [apply Z.div_pos|apply Z.div_lt_upper_bound]; lia).
  set (hi := raw / 2 ^ 32) in *. set (lo := raw mod 2 ^ 32) in *.
  rewrite (proj2 (Z.ltb_lt lo _)) by lia. simpl.
  destruct (Z.leb_spec 1 lo); simpl.
  - destruct (Z.eqb_spec hi 0); simpl.
    + split; [done|]. intros (Hg & Hg' & Hi & Heq). exfalso. lia.
    + split.
      * intros [= <- <-]. lia.
      * intros (Hg & Hg' & Hi & Heq). assert (hi = g) by lia. f_equal. f_equal; lia.
  - split; [done|]. intros (Hg & Hg' & Hi & Heq). exfalso. lia.
Qed.

Lemma encode_object_id_uint i g raw : is_uint 32 g →
  encode_object_id i g = Some raw → is_uint 64 raw.
Proof. intros Hg [_ [Hi ->]]%encode_object_id_Some; [|done]. unfold is_uint in *. lia. Qed.

Lemma decode_encode_object_id i g raw : is_uint 32 g →
  encode_object_id i g = Some raw → decode_object_id raw = Some (i, g).
Proof.
  intros Hg Henc. apply decode_object_id_Some; [by eapply encode_object_id_uint|].
  apply encode_object_id_Some in Henc; naive_solver.
Qed.

Lemma encode_decode_object_id raw i g : is_uint 64 raw →
  decode_object_id raw = Some (i, g) → encode_object_id i g = Some raw.
Proof.
  intros Hr Hdec. apply decode_object_id_Some in Hdec; [|done].
  apply encode_object_id_Some; naive_solver.
Qed.

(** ** Naming a slot *)

(** [id] carries the registry's domain and the current generation of the
    slot [i], which holds [s]. *)
Definition names (r : t) (id : ObjectId) (i : nat) (s : ObjectSlot) : Prop :=
  oid_domain id = domain r ∧ decode_object_id (oid_raw id) = Some (i, generation s) ∧
  slots r !! i = Some s.

Definition with_state (s : ObjectSlot) (st : SlotState.t) : ObjectSlot :=
  {| generation := generation s; state := st |}.

Lemma reference_slot_names r id i s : names r id i s → reference_slot id r = Ret r i.
Proof.
  intros (Hd & Hdec & Hs). unfold reference_slot, mbind, M_bind, get, ok_or. simpl.
  by rewrite Hd, Z.eqb_refl, Hdec, Hs.
Qed.

Lemma slot_at_lookup {E} r i s : slots r !! i = Some s → slot_at (E:=E) i r = Ret r s.
Proof. intros Hs. unfold slot_at, mbind, M_bind, get, expect. by rewrite Hs. Qed.

Ltac run_names H :=
  unfold mbind, M_bind; cbn beta iota;
  rewrite ?(reference_slot_names _ _ _ _ H);
  rewrite ?(proj1 (proj2 H)); unfold ok_or; cbn beta iota;
  rewrite ?(slot_at_lookup _ _ _ (proj2 (proj2 H))).

Lemma validate_reference_names r id i s ty k :
  names r id i s →
  validate_reference id ty k r =
    match state s with
    | SlotState.Live live =>
        if negb (live_type live =? ty) then Fail r ObjectRegistryError.ObjectTypeMismatch
        else if counter k live =? 0 then Fail r ObjectRegistryError.ReferenceCountUnderflow
        else Ret r tt
    | _ => Fail r ObjectRegistryError.StaleReference
    end.
Proof.
  intros H. unfold validate_reference. run_names H.
  rewrite Z.eqb_refl. simpl. by repeat case_match.
Qed.

Lemma live_at_names r id i s live :
  names r id i s → state s = SlotState.Live live → live_at i r = Ret r (generation s, live).
Proof. intros H Hl. unfold live_at. run_names H. by rewrite Hl. Qed.

Lemma retain_reference_names r id i s live ty k k' :
  names r id i s → state s = SlotState.Live live → live_type live = ty → counter k live ≠ 0 →
  retain_reference id ty k k' r =
    match checked_add 32 (counter k' live) 1 with
    | Some n => Ret (set_slot i (with_state s (SlotState.Live (set_counter k' n live))) r) tt
    | None => Fail r ObjectRegistryError.ReferenceCountExhausted
    end.
Proof.
  intros H Hl Hty Hk. unfold retain_reference, mbind, M_bind.
  rewrite (validate_reference_names _ _ _ _ _ _ H), Hl, Hty, Z.eqb_refl. simpl.
  rewrite (proj2 (Z.eqb_neq _ _) Hk), (reference_slot_names _ _ _ _ H).
  rewrite (live_at_names _ _ _ _ _ H Hl). unfold ok_or. by destruct (checked_add _ _ _).
Qed.

Lemma release_reference_names r id i s live ty k :
  names r id i s → state s = SlotState.Live live → live_type live = ty → counter k live ≠ 0 →
  release_reference id ty k r =
    match checked_sub (counter k live) 1 with
    | Some n =>
        let live' := set_counter k n live in
        if handle_refs live' + internal_refs live' =? 0
        then Ret (set_slot i (with_state s (SlotState.Finalizing ty)) r)
                 (Some {| final_id := id; final_type := ty |})
        else Ret (set_slot i (with_state s (SlotState.Live live')) r) None
    | None => Fail r ObjectRegistryError.ReferenceCountUnderflow
    end.
Proof.
  intros H Hl Hty Hk. unfold release_reference, mbind, M_bind.
  rewrite (validate_reference_names _ _ _ _ _ _ H), Hl, Hty, Z.eqb_refl. simpl.
  rewrite (proj2 (Z.eqb_neq (counter k live) 0)) by done.
  rewrite (reference_slot_names _ _ _ _ H), (live_at_names _ _ _ _ _ H Hl).
  unfold ok_or. destruct (checked_sub _ _) as [n|]; [|done]. cbv zeta.
  unfold write_live, modify. destruct (_ =? 0) eqn:E; [|done].
  unfold set_slot. simpl. by rewrite list_insert_insert_eq.
Qed.

Definition other_kind (k : ReferenceKind.t) : ReferenceKind.t :=
  match k with
  | ReferenceKind.Handle => ReferenceKind.Internal
  | ReferenceKind.Internal => ReferenceKind.Handle
  end.

Lemma transition_reference_names r id i s live ty k :
  names r id i s → state s = SlotState.Live live → live_type live = ty → counter k live ≠ 0 →
  transition_reference id ty k (other_kind k) r =
    match checked_add 32 (counter (other_kind k) live) 1 with
    | Some n =>
        match checked_sub (counter k live) 1 with
        | Some m =>
            Ret (set_slot i (with_state s (SlotState.Live
                   (set_counter k m (set_counter (other_kind k) n live)))) r) tt
        | None => Fail r ObjectRegistryError.ReferenceCountUnderflow
        end
    | None => Fail r ObjectRegistryError.ReferenceCountExhausted
    end.
Proof.
  intros H Hl Hty Hk. unfold transition_reference, mbind, M_bind.
  rewrite (validate_reference_names _ _ _ _ _ _ H), Hl, Hty, Z.eqb_refl. simpl.
  rewrite (proj2 (Z.eqb_neq (counter k live) 0)) by done.
  rewrite bool_decide_false by (by destruct k).
  rewrite (reference_slot_names _ _ _ _ H), (live_at_names _ _ _ _ _ H Hl).
  unfold ok_or. destruct k; simpl in *; destruct (checked_add _ _ _); try done;
    by destruct (checked_sub _ _).
Qed.

Lemma complete_finalization_names r f i s ty :
  names r (final_id f) i s → state s = SlotState.Finalizing ty → final_type f = ty →
  complete_finalization_inner f r =
    Ret (set_slot i (with_state s (match next_generation (generation s) with
                                   | Some _ => SlotState.Vacant
                                   | None => SlotState.Retired
                                   end)) r) tt.
Proof.
  intros H Hst Hty. unfold complete_finalization_inner. run_names H.
  unfold expect. rewrite Z.eqb_refl, Hst, Hty, Z.eqb_refl. done.
Qed.

(** ** Validation never panics and changes nothing *)

Lemma reference_slot_wp r id :
  wp (reference_slot id) r
    (λ i r', r' = r ∧ oid_domain id = domain r ∧
       ∃ g s, decode_object_id (oid_raw id) = Some (i, g) ∧ slots r !! i = Some s)
    (λ _ r', r' = r).
Proof.
  unfold reference_slot, wp, mbind, M_bind, get, ok_or.
  destruct (Z.eqb_spec (oid_domain id) (domain r)); simpl; [|done].
  destruct (decode_object_id (oid_raw id)) as [[i g]|] eqn:Hdec; simpl; [|done].
  destruct (slots r !! i) as [s|] eqn:Hs; simpl; [|done].
  eauto 7.
Qed.

Lemma validate_reference_wp r id ty k :
  wp (validate_reference id ty k) r
    (λ _ r', r' = r ∧ ∃ i s live, names r id i s ∧ state s = SlotState.Live live ∧
                                  live_type live = ty ∧ counter k live ≠ 0)
    (λ _ r', r' = r).
Proof.
  unfold validate_reference. apply wp_bind.
  eapply wp_mono; [apply reference_slot_wp| |done].
  intros i ? (-> & Hd & g & s & Hdec & Hs).
  unfold wp, ok_or, mbind, M_bind. rewrite Hdec, (slot_at_lookup _ _ _ Hs).
  destruct (Z.eqb_spec (generation s) g) as [<-|]; simpl; [|done].
  destruct (state s) as [|live| |] eqn:Hst; simpl; try done.
  destruct (Z.eqb_spec (live_type live) ty); simpl; [|done].
  destruct (Z.eqb_spec (counter k live) 0); simpl; [done|].
  split; [done|]. exists i, s, live. repeat split; eauto.
Qed.

(** ** The slot state machine *)

Inductive slot_step : ObjectSlot → ObjectSlot → Prop :=
| slot_create s g ty :
    state s = SlotState.Vacant → next_generation (generation s) = Some g →
    dw_object_compatible_rights ty ≠ 0 →
    slot_step s {| generation := g;
                   state := SlotState.Live
                     {| live_type := ty; handle_refs := 0; internal_refs := 1 |} |}
| slot_abandon s :
    state s = SlotState.Vacant → slot_step s (with_state s SlotState.Retired)
| slot_retain s live k k' n :
    state s = SlotState.Live live → counter k live ≠ 0 →
    checked_add 32 (counter k' live) 1 = Some n →
    slot_step s (with_state s (SlotState.Live (set_counter k' n live)))
| slot_transition s live k n m :
    state s = SlotState.Live live → counter k live ≠ 0 →
    checked_add 32 (counter (other_kind k) live) 1 = Some n →
    checked_sub (counter k live) 1 = Some m →
    slot_step s (with_state s (SlotState.Live
                   (set_counter k m (set_counter (other_kind k) n live))))
| slot_release s live k m :
    state s = SlotState.Live live → checked_sub (counter k live) 1 = Some m →
    handle_refs (set_counter k m live) + internal_refs (set_counter k m live) ≠ 0 →
    slot_step s (with_state s (SlotState.Live (set_counter k m live)))
| slot_finalize s live k m :
    state s = SlotState.Live live → checked_sub (counter k live) 1 = Some m →
    handle_refs (set_counter k m live) + internal_refs (set_counter k m live) = 0 →
    slot_step s (with_state s (SlotState.Finalizing (live_type live)))
| slot_reclaim s ty g :
    state s = SlotState.Finalizing ty → next_generation (generation s) = Some g →
    slot_step s (with_state s SlotState.Vacant)
| slot_retire s ty :
    state s = SlotState.Finalizing ty → next_generation (generation s) = None →
    slot_step s (with_state s SlotState.Retired).

Definition lifecycle_step (r r' : t) : Prop :=
  ∃ i s s', slots r !! i = Some s ∧ slot_step s s' ∧ r' = set_slot i s' r.

(** [effect m r r']: the call [m] on [r] comes back, with a value or an
    error, and leaves [r'] behind. *)
Definition effect {S E A} (m : M S E A) (s s' : S) : Prop :=
  (∃ a, m s = Ret s' a) ∨ (∃ e, m s = Fail s' e).

Lemma wp_effect {S E A} (m : M S E A) s s' (P : S → Prop) :
  wp m s (λ _, P) (λ _, P) → effect m s s' → P s'.
Proof. unfold wp. intros Hwp [[a Ha]|[e He]]; [by rewrite Ha in Hwp|by rewrite He in Hwp]. Qed.

(** Every call a holder of the registry can make, with arbitrary arguments. *)
Inductive registry_step (r r' : t) : Prop :=
| step_create ty : effect (create ty) r r' → registry_step r r'
| step_finish_payload_binding c :
    effect (finish_payload_binding (H:=id) c) r r' → registry_step r r'
| step_creation_into_handle c : effect (creation_into_handle c) r r' → registry_step r r'
| step_creation_into_internal c : effect (creation_into_internal c) r r' → registry_step r r'
| step_retain_handle_from_bound b :
    effect (retain_handle_from_bound b) r r' → registry_step r r'
| step_bound_into_handle b : effect (bound_into_handle b) r r' → registry_step r r'
| step_bound_into_internal b : effect (bound_into_internal b) r r' → registry_step r r'
| step_handle_into_internal h : effect (handle_into_internal h) r r' → registry_step r r'
| step_internal_into_handle n : effect (internal_into_handle n) r r' → registry_step r r'
| step_retain_handle h : effect (retain_handle h) r r' → registry_step r r'
| step_retain_internal_from_handle h :
    effect (retain_internal_from_handle h) r r' → registry_step r r'
| step_retain_internal n : effect (retain_internal n) r r' → registry_step r r'
| step_cancel_creation c : effect (cancel_creation c) r r' → registry_step r r'
| step_release_creation c : effect (release_creation c) r r' → registry_step r r'
| step_release_handle h : effect (release_handle h) r r' → registry_step r r'
| step_release_internal n : effect (release_internal n) r r' → registry_step r r'
| step_complete_finalization f : effect (complete_finalization f) r r' → registry_step r r'.

Lemma lifecycle_once r i s s' :
  slots r !! i = Some s → slot_step s s' → rtc lifecycle_step r (set_slot i s' r).
Proof. intros Hs Hstep. apply rtc_once. by exists i, s, s'. Qed.

Lemma lifecycle_slots r r' : rtc lifecycle_step r r' → length (slots r') = length (slots r).
Proof.
  induction 1 as [|r r1 r2 (i & s & s' & _ & _ & ->) _ IH]; [done|]. rewrite IH. simpl. by rewrite length_insert.
Qed.

(** The core calls, each as a run of the slot machine. *)

Lemma create_lifecycle ty r :
  wp (create ty) r (λ _, rtc lifecycle_step r) (λ _, rtc lifecycle_step r).
Proof.
  unfold create. destruct (Z.eqb_spec (dw_object_compatible_rights ty) 0) as [|Hty];
    [apply rtc_refl|].
  do 2 apply wp_bind.
  apply (wp_loop (λ _ _ r', rtc lifecycle_step r r' ∧ length (slots r') = length (slots r)));
    [done| |by intros [] r' [? ?]].
  intros pre i post [] r' Hseq [Hrtc Hlen].
  assert (is_Some (slots r' !! i)) as [s Hs].
  { apply lookup_lt_is_Some. rewrite Hlen.
    assert (i ∈ seq 0 (length (slots r))) as Hin by (rewrite Hseq; set_solver).
    apply elem_of_seq in Hin. lia. }
  unfold wp, mbind, M_bind. rewrite (slot_at_lookup _ _ _ Hs).
  destruct (state s) as [|live| |] eqn:Hst; try (by split).
  assert (rtc lifecycle_step r (set_slot i (with_state s SlotState.Retired) r')) as Hret.
  { etrans; [done|]. eapply lifecycle_once; [done|]. by constructor. }
  destruct (next_generation (generation s)) as [g|] eqn:Hg; simpl.
  2:{ split; [done|]. by rewrite length_insert. }
  destruct (encode_object_id i g) as [raw|] eqn:Henc; simpl.
  2:{ split; [done|]. by rewrite length_insert. }
  transitivity r'; [done|]. eapply lifecycle_once; [done|]. by apply slot_create.
Qed.

Lemma retain_reference_lifecycle id ty k k' r :
  wp (retain_reference id ty k k') r (λ _, rtc lifecycle_step r) (λ _, rtc lifecycle_step r).
Proof.
  pose proof (validate_reference_wp r id ty k) as Hv. unfold wp in *.
  destruct (validate_reference id ty k r) as [r1 []|r1 e|] eqn:Hval; [|subst|done].
  2:{ unfold retain_reference, mbind, M_bind. by rewrite Hval. }
  destruct Hv as (-> & i & s & live & Hn & Hst & Hty & Hk).
  rewrite (retain_reference_names _ _ _ _ _ _ _ _ Hn Hst Hty Hk).
  destruct (checked_add _ _ _) eqn:Hadd; [|done].
  eapply lifecycle_once; [apply Hn|]. by eapply slot_retain.
Qed.

Lemma transition_reference_lifecycle id ty k r :
  wp (transition_reference id ty k (other_kind k)) r
    (λ _, rtc lifecycle_step r) (λ _, rtc lifecycle_step r).
Proof.
  pose proof (validate_reference_wp r id ty k) as Hv. unfold wp in *.
  destruct (validate_reference id ty k r) as [r1 []|r1 e|] eqn:Hval; [|subst|done].
  2:{ unfold transition_reference, mbind, M_bind. by rewrite Hval. }
  destruct Hv as (-> & i & s & live & Hn & Hst & Hty & Hk).
  rewrite (transition_reference_names _ _ _ _ _ _ _ Hn Hst Hty Hk).
  destruct (checked_add _ _ _) eqn:Hadd; [|done].
  destruct (checked_sub _ _) eqn:Hsub; [|done].
  eapply lifecycle_once; [apply Hn|]. by eapply slot_transition.
Qed.

Lemma release_reference_lifecycle id ty k r :
  wp (release_reference id ty k) r (λ _, rtc lifecycle_step r) (λ _, rtc lifecycle_step r).
Proof.
  pose proof (validate_reference_wp r id ty k) as Hv. unfold wp in *.
  destruct (validate_reference id ty k r) as [r1 []|r1 e|] eqn:Hval; [|subst|done].
  2:{ unfold release_reference, mbind, M_bind. by rewrite Hval. }
  destruct Hv as (-> & i & s & live & Hn & Hst & Hty & Hk).
  rewrite (release_reference_names _ _ _ _ _ _ _ Hn Hst Hty Hk).
  destruct (checked_sub _ _) as [m|] eqn:Hsub; [|done]. cbv zeta.
  destruct (Z.eqb_spec (handle_refs (set_counter k m live)
                        + internal_refs (set_counter k m live)) 0);
    (eapply lifecycle_once; [apply Hn|]).
  - subst ty. by eapply slot_finalize.
  - by eapply slot_release.
Qed.

Lemma complete_finalization_lifecycle f r :
  wp (complete_finalization_inner f) r (λ _, rtc lifecycle_step r) (λ _, rtc lifecycle_step r).
Proof.
  unfold complete_finalization_inner. apply wp_bind.
  eapply wp_mono; [apply reference_slot_wp| |by intros ? ? ->].
  intros i ? (-> & Hd & g & s & Hdec & Hs).
  unfold wp, mbind, M_bind. rewrite (slot_at_lookup _ _ _ Hs), Hdec. simpl.
  destruct (_ =? g); simpl; [|done].
  destruct (state s) as [| |ty|] eqn:Hst; simpl; try done.
  destruct (_ =? _); simpl; [|done].
  eapply lifecycle_once; [done|].
  destruct (next_generation (generation s)) eqn:Hg; [by eapply slot_reclaim|by eapply slot_retire].
Qed.

#[export] Hint Extern 2 (rtc lifecycle_step ?r ?r) => apply rtc_refl : core.

Lemma validate_reference_lifecycle id ty k r :
  wp (validate_reference id ty k) r (λ _, rtc lifecycle_step r) (λ _, rtc lifecycle_step r).
Proof.
  eapply wp_mono; [apply validate_reference_wp| |]; simpl; [|by intros ? ? ->; auto].
  intros ? ? [-> _]. auto.
Qed.

Ltac lifecycle_done :=
  lazymatch goal with
  | |- wp (retain_reference _ _ _ _) _ _ _ => apply retain_reference_lifecycle
  | |- wp (transition_reference _ _ ReferenceKind.Internal ReferenceKind.Handle) _ _ _ =>
      apply (transition_reference_lifecycle _ _ ReferenceKind.Internal)
  | |- wp (transition_reference _ _ ReferenceKind.Handle ReferenceKind.Internal) _ _ _ =>
      apply (transition_reference_lifecycle _ _ ReferenceKind.Handle)
  | |- wp (release_reference _ _ _) _ _ _ => apply release_reference_lifecycle
  | |- wp (complete_finalization_inner _) _ _ _ => apply complete_finalization_lifecycle
  | |- wp (validate_reference _ _ _) _ _ _ =>
      apply validate_reference_lifecycle
  end.

Lemma cancel_creation_effect c r r' : effect (cancel_creation c) r r' → rtc lifecycle_step r r'.
Proof.
  pose proof (release_reference_lifecycle (creation_id c) (creation_type c)
                ReferenceKind.Internal r) as Hrel.
  unfold effect, cancel_creation, with_reference, map_err, mbind, M_bind. unfold wp in Hrel.
  destruct (release_reference _ _ _ r) as [r1 [f|]|r1 e|]; [|naive_solver..].
  pose proof (complete_finalization_lifecycle f r1) as Hcf. unfold unwrap. unfold wp in Hcf.
  destruct (complete_finalization_inner f r1); [|naive_solver..].
  intros [[? ?]|[? ?]]; [|naive_solver]. simplify_eq. by transitivity r1.
Qed.

Lemma registry_step_lifecycle r r' : registry_step r r' → rtc lifecycle_step r r'.
Proof.
  destruct 1 as [ty Hef|? Hef|? Hef|? Hef|? Hef|? Hef|? Hef|? Hef|? Hef|? Hef|? Hef|? Hef
                |? Hef|? Hef|? Hef|? Hef|? Hef];
    try (by eapply cancel_creation_effect);
    (eapply (wp_effect _ _ _ (rtc lifecycle_step r)); [|exact Hef]);
    try apply create_lifecycle;
    match goal with |- wp ?m _ _ _ => let h := get_head m in unfold h end;
    cbv zeta; try apply wp_bind; unfold with_reference; try apply wp_map_err;
    (eapply wp_mono; [lifecycle_done| |]); simpl; auto.
Qed.

(** ** Identities do not come back *)

(** The identity's object is gone: its slot has moved on to a later
    generation, or is vacant or retired at this one. *)
Definition expired (r : t) (id : ObjectId) : Prop :=
  ∃ i g s, oid_domain id = domain r ∧ decode_object_id (oid_raw id) = Some (i, g) ∧
    slots r !! i = Some s ∧
    (g < generation s ∨
     g = generation s ∧ (state s = SlotState.Vacant ∨ state s = SlotState.Retired)).

Lemma next_generation_succ g g' : next_generation g = Some g' → g' = g + 1.
Proof.
  unfold next_generation, next_nonzero, checked_add, filter_nonzero.
  repeat case_match; naive_solver.
Qed.

Lemma lifecycle_step_expired r r' id : lifecycle_step r r' → expired r id → expired r' id.
Proof.
  intros (i & s & s' & Hs & Hstep & ->) (j & g & s0 & Hd & Hdec & Hj & Hexp).
  destruct (decide (i = j)) as [->|Hne].
  - simplify_eq. exists j, g, s'. split; [done|]. split; [done|]. split.
    + simpl. apply list_lookup_insert_eq. by eapply lookup_lt_Some.
    + destruct Hstep as [s g0 ty Hst Hg| | | | | | |]; simpl;
        try (destruct Hexp as [|[? [|]]]; [by left|congruence..]);
        try (destruct Hexp as [|[]]; [by left|by right; auto]).
      apply next_generation_succ in Hg. left. lia.
  - exists j, g, s0. split; [done|]. split; [done|]. split; [|done].
    simpl. by rewrite list_lookup_insert_ne.
Qed.

Lemma expired_rejected r id ty k :
  expired r id → validate_reference id ty k r = Fail r ObjectRegistryError.StaleReference.
Proof.
  intros (i & g & s & Hd & Hdec & Hs & Hexp).
  unfold validate_reference, reference_slot, slot_at, mbind, M_bind, get, ok_or, expect.
  rewrite Hd, Z.eqb_refl, Hdec. simpl. rewrite Hs. simpl. rewrite Hs.
  destruct (Z.eqb_spec (generation s) g) as [Heq|]; simpl; [|done].
  destruct Hexp as [|[_ [->| ->]]]; [lia|done|done].
Qed.

Lemma complete_finalization_expires f r r1 :
  complete_finalization_inner f r = Ret r1 tt → expired r1 (final_id f).
Proof.
  unfold complete_finalization_inner. intros Hcf.
  pose proof (reference_slot_wp r (final_id f)) as Hrs. unfold mbind, M_bind in Hcf.
  destruct (reference_slot (final_id f) r) as [r0 i| |] eqn:Href; [|done..].
  destruct (wp_Ret _ _ _ _ _ _ Hrs Href) as (-> & Hd & g & s & Hdec & Hs).
  rewrite (slot_at_lookup _ _ _ Hs), Hdec in Hcf. simpl in Hcf.
  destruct (Z.eqb_spec (generation s) g) as [Heq|]; simpl in Hcf; [|done].
  destruct (state s) as [| |ty|] eqn:Hst; try done.
  destruct (_ =? _); simpl in Hcf; [|done]. injection Hcf as <-.
  exists i, g. eexists. split; [done|]. split; [done|]. split.
  - apply list_lookup_insert_eq. by eapply lookup_lt_Some.
  - right. simpl. split; [done|]. destruct (next_generation _); auto.
Qed.
