(* ===== verification/ObjectLedger.v ===== *)
(** * Reference accounting

    The tokens a registry has handed out are tracked in a ledger: a multiset
    of reference tokens and a multiset of final releases.  [ledger r refs
    finals] says that the counts stored in [r] are exactly the multiplicities
    of the outstanding tokens, that a live object has at least one, and that
    a finalizing object has exactly one outstanding [FinalRelease].  Each
    operation on an outstanding token is shown to keep the ledger balanced
    and to fail only where its documentation says it may. *)

From stdpp Require Import base tactics numbers list countable gmultiset.
From Stdlib Require Import ZArith Lia.
From S2P Require Import Prelude Abi Object ObjectFacts.
Import ObjectRegistry.
Local Open Scope Z_scope.

Global Instance ReferenceKind_countable : Countable ReferenceKind.t.
Proof.
  apply (inj_countable' (λ k, match k with ReferenceKind.Handle => true | _ => false end)
           (λ b : bool, if b then ReferenceKind.Handle else ReferenceKind.Internal)).
  by intros [].
Defined.

Global Instance ObjectId_countable : Countable ObjectId.
Proof.
  apply (inj_countable' (λ i, (oid_domain i, oid_raw i))
           (λ p, {| oid_domain := p.1; oid_raw := p.2 |})).
  by intros [].
Defined.

Global Instance FinalRelease_countable : Countable FinalRelease.
Proof.
  apply (inj_countable' (λ f, (final_id f, final_type f))
           (λ p, {| final_id := p.1; final_type := p.2 |})).
  by intros [].
Defined.

Global Instance is_uint_decision w a : Decision (is_uint w a).
Proof. unfold is_uint. apply _. Defined.

(** A reference token: its kind, the identity it names and its object type.
    A [CreationRef] and a [BoundCreation] own an internal reference. *)
Abbreviation Token := (ReferenceKind.t * ObjectId * Z)%type.

Definition handle_token (h : HandleRef) : Token :=
  (ReferenceKind.Handle, handle_id h, handle_type h).
Definition internal_token (n : InternalRef) : Token :=
  (ReferenceKind.Internal, internal_id n, internal_type n).
Definition creation_token (c : CreationRef) : Token :=
  (ReferenceKind.Internal, creation_id c, creation_type c).

(** The state of the slot an identity names, if it names one. *)
Definition object_at (r : t) (id : ObjectId) : option SlotState.t :=
  if bool_decide (oid_domain id = domain r ∧ is_uint 64 (oid_raw id)) then
    '(i, g) ← decode_object_id (oid_raw id);
    s ← slots r !! i;
    if generation s =? g then Some (state s) else None
  else None.

(** How many copies of a token of kind [k] and type [ty] a slot state
    accounts for. *)
Definition held_in (st : option SlotState.t) (k : ReferenceKind.t) (ty : Z) : Z :=
  match st with
  | Some (SlotState.Live live) => if live_type live =? ty then counter k live else 0
  | _ => 0
  end.

Definition held_final_in (st : option SlotState.t) (ty : Z) : Z :=
  match st with
  | Some (SlotState.Finalizing ty') => if ty' =? ty then 1 else 0
  | _ => 0
  end.

Definition held (r : t) (tok : Token) : Z := held_in (object_at r tok.1.2) tok.1.1 tok.2.

Definition held_final (r : t) (f : FinalRelease) : Z :=
  held_final_in (object_at r (final_id f)) (final_type f).

Definition slot_wf (i : nat) (s : ObjectSlot) : Prop :=
  is_uint 32 (generation s) ∧
  match state s with
  | SlotState.Vacant => generation s + 1 < 2 ^ 32
  | SlotState.Live live =>
      generation s ≠ 0 ∧ Z.of_nat i + 1 < 2 ^ 32 ∧
      dw_object_compatible_rights (live_type live) ≠ 0 ∧
      is_uint 32 (handle_refs live) ∧ is_uint 32 (internal_refs live) ∧
      0 < handle_refs live + internal_refs live
  | SlotState.Finalizing _ => generation s ≠ 0 ∧ Z.of_nat i + 1 < 2 ^ 32
  | SlotState.Retired => True
  end.

Definition registry_wf (r : t) : Prop := ∀ i s, slots r !! i = Some s → slot_wf i s.

Definition ledger (r : t) (refs : gmultiset Token) (finals : gmultiset FinalRelease) : Prop :=
  registry_wf r ∧
  (∀ tok, Z.of_nat (multiplicity tok refs) = held r tok) ∧
  (∀ f, Z.of_nat (multiplicity f finals) = held_final r f).

(** ** Looking an identity up after an update *)

Lemma object_at_names r id i s :
  names r id i s → is_uint 64 (oid_raw id) → object_at r id = Some (state s).
Proof.
  intros (Hd & Hdec & Hs) Hu. unfold object_at. rewrite bool_decide_true by done.
  rewrite Hdec. simpl. rewrite Hs. simpl. by rewrite Z.eqb_refl.
Qed.

Lemma object_at_Some r id st : object_at r id = Some st →
  ∃ i s, names r id i s ∧ is_uint 64 (oid_raw id) ∧ state s = st.
Proof.
  unfold object_at. case_bool_decide as Hid; [|done]. destruct Hid as [Hd Hu].
  destruct (decode_object_id (oid_raw id)) as [[i g]|] eqn:Hdec; simpl; [|done].
  destruct (slots r !! i) as [s|] eqn:Hs; simpl; [|done].
  destruct (Z.eqb_spec (generation s) g) as [<-|]; [|done]. intros [= <-].
  exists i, s. unfold names. eauto 6.
Qed.

Lemma names_inj r id id' i s :
  names r id i s → names r id' i s → is_uint 64 (oid_raw id) → is_uint 64 (oid_raw id') →
  id = id'.
Proof.
  intros (Hd & Hdec & Hs) (Hd' & Hdec' & _) Hu Hu'.
  apply decode_object_id_Some in Hdec as (_ & _ & _ & Hr); [|done].
  apply decode_object_id_Some in Hdec' as (_ & _ & _ & Hr'); [|done].
  destruct id, id'; simpl in *; congruence.
Qed.

Lemma object_at_update r id i s st id' :
  names r id i s → is_uint 64 (oid_raw id) →
  object_at (set_slot i (with_state s st) r) id' =
    if decide (id' = id) then Some st else object_at r id'.
Proof.
  intros Hn Hu. pose proof Hn as (Hd & Hdec & Hs).
  assert (i < length (slots r))%nat by (by eapply lookup_lt_Some).
  case_decide as Hid; [subst id'|].
  - change (Some st) with (Some (state (with_state s st))).
    apply (object_at_names _ _ i); [|done]. split; [done|]. split; [done|].
    simpl. by rewrite list_lookup_insert_eq.
  - unfold object_at. simpl. case_bool_decide as Hid'; [|done]. destruct Hid' as [Hd' Hu'].
    destruct (decode_object_id (oid_raw id')) as [[j g]|] eqn:Hdec'; simpl; [|done].
    destruct (decide (j = i)) as [->|]; [|by rewrite list_lookup_insert_ne].
    rewrite list_lookup_insert_eq, Hs by done. simpl.
    destruct (Z.eqb_spec (generation s) g) as [<-|]; [|done].
    destruct Hid. symmetry. by eapply names_inj.
Qed.

(** A new generation in a vacant slot: the new identity appears, and no
    outstanding one is touched. *)
Lemma object_at_create r id i s g live id' :
  slots r !! i = Some s → state s = SlotState.Vacant → is_uint 64 (oid_raw id) →
  oid_domain id = domain r → decode_object_id (oid_raw id) = Some (i, g) → generation s ≠ g →
  let r' := set_slot i {| generation := g; state := SlotState.Live live |} r in
  object_at r' id = Some (SlotState.Live live) ∧
  (id' ≠ id → object_at r' id' = object_at r id' ∨
              object_at r' id' = None ∧ object_at r id' = Some SlotState.Vacant).
Proof.
  intros Hs Hst Hu Hd Hdec Hg r'. assert (i < length (slots r))%nat by (by eapply lookup_lt_Some).
  assert (names r' id i {| generation := g; state := SlotState.Live live |}) as Hn.
  { split; [done|]. split; [done|]. subst r'. simpl. by rewrite list_lookup_insert_eq. }
  split; [by apply (object_at_names _ _ _ _ Hn)|]. intros Hne.
  unfold object_at. simpl. case_bool_decide as Hid'; [|by left]. destruct Hid' as [Hd' Hu'].
  destruct (decode_object_id (oid_raw id')) as [[j g']|] eqn:Hdec'; simpl; [|by left].
  destruct (decide (j = i)) as [->|]; [|left; by rewrite list_lookup_insert_ne].
  rewrite list_lookup_insert_eq, Hs by done. simpl.
  destruct (Z.eqb_spec g g') as [->|].
  - destruct Hne. symmetry. apply (names_inj r' id id' i _ Hn); [|done..].
    split; [done|]. split; [done|]. apply Hn.
  - destruct (Z.eqb_spec (generation s) g'); [right|by left]. by rewrite Hst.
Qed.

(** ** What an outstanding token entitles to *)

Lemma ledger_token r refs finals k id ty :
  ledger r refs finals → (k, id, ty) ∈ refs →
  ∃ i s live, names r id i s ∧ is_uint 64 (oid_raw id) ∧ state s = SlotState.Live live ∧
    live_type live = ty ∧ counter k live = Z.of_nat (multiplicity (k, id, ty) refs) ∧
    1 ≤ counter k live < 2 ^ 32.
Proof.
  intros (Hwf & Hrefs & _) Hin.
  assert (0 < multiplicity (k, id, ty) refs)%nat by (by apply elem_of_multiplicity).
  specialize (Hrefs (k, id, ty)). unfold held, held_in in Hrefs. simpl in Hrefs.
  destruct (object_at r id) as [[|live| |]|] eqn:Hobj; [lia| |lia..].
  destruct (Z.eqb_spec (live_type live) ty) as [Hty|]; [|lia].
  apply object_at_Some in Hobj as (i & s & Hn & Hu & Hst).
  exists i, s, live. split_and!; [done..|lia|].
  destruct Hn as (_ & _ & Hs). apply Hwf in Hs as [_ Hs]. rewrite Hst in Hs.
  unfold is_uint in Hs. destruct k; simpl in *; lia.
Qed.

Lemma ledger_final r refs finals f :
  ledger r refs finals → f ∈ finals →
  ∃ i s, names r (final_id f) i s ∧ is_uint 64 (oid_raw (final_id f)) ∧
    state s = SlotState.Finalizing (final_type f).
Proof.
  intros (Hwf & _ & Hfin) Hin.
  assert (0 < multiplicity f finals)%nat by (by apply elem_of_multiplicity).
  specialize (Hfin f). unfold held_final, held_final_in in Hfin.
  destruct (object_at r (final_id f)) as [[| |ty|]|] eqn:Hobj; [lia|lia| |lia..].
  destruct (Z.eqb_spec ty (final_type f)) as [->|]; [|lia].
  apply object_at_Some in Hobj as (i & s & Hn & Hu & Hst). eauto.
Qed.

(** No token of a finalizing or vacant identity is outstanding. *)
Lemma ledger_dead_token r refs finals k id ty :
  ledger r refs finals →
  (∀ live, object_at r id ≠ Some (SlotState.Live live)) → (k, id, ty) ∉ refs.
Proof.
  intros Hl Hdead Hin. eapply ledger_token in Hin as (i & s & live & Hn & Hu & Hst & _); [|done].
  apply (Hdead live). by rewrite (object_at_names _ _ _ _ Hn Hu), Hst.
Qed.

Lemma ledger_typed r refs finals k k' id ty ty' :
  ledger r refs finals → (k, id, ty) ∈ refs → (k', id, ty') ∈ refs → ty = ty'.
Proof.
  intros Hl Hin Hin'.
  destruct (ledger_token _ _ _ _ _ _ Hl Hin) as (i & s & live & Hn & Hu & Hst & Hty & _).
  destruct (ledger_token _ _ _ _ _ _ Hl Hin') as (i' & s' & live' & Hn' & Hu' & Hst' & Hty' & _).
  pose proof (object_at_names _ _ _ _ Hn Hu) as Ho. rewrite Hst in Ho.
  rewrite (object_at_names _ _ _ _ Hn' Hu'), Hst' in Ho. congruence.
Qed.

Lemma ledger_final_last r refs finals f k ty :
  ledger r refs finals → f ∈ finals → (k, final_id f, ty) ∉ refs.
Proof.
  intros Hl Hin. destruct (ledger_final _ _ _ _ Hl Hin) as (i & s & Hn & Hu & Hst).
  eapply ledger_dead_token; [done|]. intros live. rewrite (object_at_names _ _ _ _ Hn Hu), Hst. done.
Qed.

Lemma ledger_final_once r refs finals f f' :
  ledger r refs finals → f ∈ finals → f' ∈ finals ∖ {[+ f +]} → final_id f' ≠ final_id f.
Proof.
  intros Hl Hin Hin' Hid. pose proof Hl as (_ & _ & Hfin).
  destruct (ledger_final _ _ _ _ Hl Hin) as (i & s & Hn & Hu & Hst).
  pose proof (object_at_names _ _ _ _ Hn Hu) as Ho. rewrite Hst in Ho.
  assert (f' ∈ finals) as Hin2 by multiset_solver.
  destruct (ledger_final _ _ _ _ Hl Hin2) as (i' & s' & Hn' & Hu' & Hst').
  rewrite <- Hid, (object_at_names _ _ _ _ Hn' Hu'), Hst' in Ho. injection Ho as Hty.
  assert (f' = f) as -> by (destruct f, f'; simpl in *; congruence).
  specialize (Hfin f). unfold held_final, held_final_in in Hfin.
  rewrite (object_at_names _ _ _ _ Hn Hu), Hst, Z.eqb_refl in Hfin.
  assert (0 < multiplicity f (finals ∖ {[+ f +]}))%nat as Hm by (by apply elem_of_multiplicity).
  rewrite multiplicity_difference, multiplicity_singleton in Hm. case_decide; [lia|done].
Qed.

(** A multiset whose elements have distinct indices below [n]. *)
Lemma distinct_indices {X} `{Countable X} (index : X → nat) (m : gmultiset X) :
  (∀ x y, x ∈ m → y ∈ m ∖ {[+ x +]} → index y ≠ index x) →
  ∃ ks, NoDup ks ∧ length ks = size m ∧ ∀ i, i ∈ ks ↔ ∃ x, x ∈ m ∧ index x = i.
Proof.
  induction m as [|x m IH] using gmultiset_ind; intros Hm.
  - exists []. split_and!; [apply base.NoDup_nil_2|done|]. intros i.
    split; [by intros ?%elem_of_nil|by intros (x & ?%gmultiset_not_elem_of_empty & _)].
  - destruct IH as (ks & Hnd & Hlen & Hks).
    { intros y z Hy Hz. apply (Hm y z); multiset_solver. }
    exists (index x :: ks). split_and!.
    + apply list.NoDup_cons. split; [|done]. intros (y & Hy & Hi)%Hks.
      apply (Hm x y); [multiset_solver..|done].
    + simpl. rewrite Hlen, gmultiset_size_disj_union, gmultiset_size_singleton. lia.
    + intros i. rewrite elem_of_cons, Hks. split.
      * intros [->|(y & Hy & Hi)]; [exists x|exists y]; multiset_solver.
      * intros (y & [Hy%gmultiset_elem_of_singleton|Hy]%gmultiset_elem_of_disj_union & Hi); [left; congruence|right].
        by exists y.
Qed.

Definition slot_of_id (id : ObjectId) : nat := default 0%nat (fst <$> decode_object_id (oid_raw id)).

(** There are no more final releases outstanding than slots. *)
Lemma ledger_finals_fit r refs finals : ledger r refs finals → (size finals ≤ length (slots r))%nat.
Proof.
  intros Hl. destruct (distinct_indices (λ f, slot_of_id (final_id f)) finals) as (ks & Hnd & Hlen & Hks).
  - intros f f' Hf Hf' Hi. assert (f' ∈ finals) as Hin' by multiset_solver.
    destruct (ledger_final _ _ _ _ Hl Hf) as (i & s & Hn & Hu & _).
    destruct (ledger_final _ _ _ _ Hl Hin') as (i' & s' & Hn' & Hu' & _).
    destruct Hn as (Hd & Hdec & Hs), Hn' as (Hd' & Hdec' & Hs').
    unfold slot_of_id in Hi. rewrite Hdec, Hdec' in Hi. simpl in Hi. subst i'. rewrite Hs in Hs'. injection Hs' as <-.
    eapply (ledger_final_once r refs finals f f' Hl); [done..|].
    by eapply (names_inj r (final_id f') (final_id f) i s).
  - rewrite <- Hlen, <- (length_seq (length (slots r)) 0). apply submseteq_length, NoDup_submseteq; [done|].
    intros i (f & Hf & <-)%Hks. destruct (ledger_final _ _ _ _ Hl Hf) as (i & s & (_ & Hdec & Hs) & _).
    unfold slot_of_id. rewrite Hdec. simpl. apply elem_of_seq. apply lookup_lt_Some in Hs. lia.
Qed.

(** ** Keeping the ledger balanced *)

Lemma ledger_update r refs finals id i s st refs' finals' :
  ledger r refs finals → names r id i s → is_uint 64 (oid_raw id) →
  slot_wf i (with_state s st) →
  (∀ k ty, Z.of_nat (multiplicity (k, id, ty) refs') = held_in (Some st) k ty) →
  (∀ k id' ty, id' ≠ id → multiplicity (k, id', ty) refs' = multiplicity (k, id', ty) refs) →
  (∀ ty, Z.of_nat (multiplicity {| final_id := id; final_type := ty |} finals') =
         held_final_in (Some st) ty) →
  (∀ f, final_id f ≠ id → multiplicity f finals' = multiplicity f finals) →
  ledger (set_slot i (with_state s st) r) refs' finals'.
Proof.
  intros (Hwf & Hrefs & Hfin) Hn Hu Hst Hr1 Hr2 Hf1 Hf2.
  assert (i < length (slots r))%nat by (by eapply lookup_lt_Some, Hn).
  split_and!.
  - intros j s'. simpl. destruct (decide (j = i)) as [->|].
    + rewrite list_lookup_insert_eq by done. by intros [= <-].
    + rewrite list_lookup_insert_ne by done. apply Hwf.
  - intros [[k id'] ty]. unfold held. simpl. rewrite (object_at_update _ _ _ _ _ _ Hn Hu).
    case_decide as Hid; [subst; apply Hr1|]. rewrite Hr2 by done. apply Hrefs.
  - intros [id' ty]. unfold held_final. simpl. rewrite (object_at_update _ _ _ _ _ _ Hn Hu).
    case_decide as Hid; [subst; apply Hf1|]. rewrite Hf2 by done. apply Hfin.
Qed.

(** The multiplicities at [id] before the update. *)
Lemma ledger_at r refs finals id i s :
  ledger r refs finals → names r id i s → is_uint 64 (oid_raw id) →
  (∀ k ty, Z.of_nat (multiplicity (k, id, ty) refs) = held_in (Some (state s)) k ty) ∧
  (∀ ty, Z.of_nat (multiplicity {| final_id := id; final_type := ty |} finals) =
         held_final_in (Some (state s)) ty).
Proof.
  intros (_ & Hrefs & Hfin) Hn Hu. rewrite <- (object_at_names _ _ _ _ Hn Hu). split.
  - intros k ty. apply (Hrefs (k, id, ty)).
  - intros ty. apply (Hfin {| final_id := id; final_type := ty |}).
Qed.

Lemma ledger_slot_wf r refs finals id i s :
  ledger r refs finals → names r id i s → slot_wf i s.
Proof. intros (Hwf & _) (_ & _ & Hs). by apply Hwf. Qed.

Ltac count_tokens :=
  rewrite ?multiplicity_disj_union, ?multiplicity_difference, ?multiplicity_singleton,
    ?multiplicity_empty;
  repeat case_decide; simplify_eq.

Lemma checked_add_1_spec w a : checked_add w a 1 = if a + 1 <? 2 ^ w then Some (a + 1) else None.
Proof. done. Qed.

Lemma checked_sub_1_pos a : 1 ≤ a → checked_sub a 1 = Some (a - 1).
Proof. intros Ha. unfold checked_sub. by rewrite (proj2 (Z.leb_le 1 a)). Qed.

Lemma counter_set_counter k k' n live :
  counter k' (set_counter k n live) = if decide (k' = k) then n else counter k' live.
Proof. by destruct k, k'. Qed.

Lemma live_type_set_counter k n live : live_type (set_counter k n live) = live_type live.
Proof. by destruct k. Qed.

Lemma total_set_counter k n live :
  handle_refs (set_counter k n live) + internal_refs (set_counter k n live) =
  n + counter (other_kind k) live.
Proof. destruct k; simpl; lia. Qed.

Lemma other_kind_ne k k' : k' ≠ k ↔ k' = other_kind k.
Proof. by destruct k, k'. Qed.

(** The record a live slot's invariant gives. *)
Definition live_wf (i : nat) (g : Z) (live : LiveObject) : Prop :=
  is_uint 32 g ∧ g ≠ 0 ∧ Z.of_nat i + 1 < 2 ^ 32 ∧
  dw_object_compatible_rights (live_type live) ≠ 0 ∧
  (∀ k, 0 ≤ counter k live < 2 ^ 32) ∧ 0 < handle_refs live + internal_refs live.

Lemma slot_wf_live i s live :
  state s = SlotState.Live live → slot_wf i s ↔ live_wf i (generation s) live.
Proof.
  intros Hst. unfold slot_wf, live_wf. rewrite Hst. unfold is_uint. split.
  - intros (? & ? & ? & ? & ? & ? & ?). split_and!; try done; try lia. by intros [].
  - intros (? & ? & ? & ? & Hc & ?).
    pose proof (Hc ReferenceKind.Handle). pose proof (Hc ReferenceKind.Internal). simpl in *.
    split_and!; first [done|lia].
Qed.

(** What an outstanding token says about the slot it names. *)
Lemma ledger_open r refs finals k id ty :
  ledger r refs finals → (k, id, ty) ∈ refs →
  ∃ i s live, names r id i s ∧ is_uint 64 (oid_raw id) ∧ state s = SlotState.Live live ∧
    live_type live = ty ∧ 1 ≤ counter k live ∧ live_wf i (generation s) live ∧
    (∀ k' ty', Z.of_nat (multiplicity (k', id, ty') refs) =
               if ty =? ty' then counter k' live else 0) ∧
    (∀ ty', multiplicity {| final_id := id; final_type := ty' |} finals = 0%nat).
Proof.
  intros Hl Hin.
  destruct (ledger_token _ _ _ _ _ _ Hl Hin) as (i & s & live & Hn & Hu & Hst & Hty & Hc & Hb).
  destruct (ledger_at _ _ _ _ _ _ Hl Hn Hu) as [Hr Hf].
  exists i, s, live. split_and!; try done; [lia| | |].
  - apply slot_wf_live; [done|]. by eapply ledger_slot_wf.
  - intros k' ty'. rewrite Hr, Hst. simpl. by rewrite Hty.
  - intros ty'. specialize (Hf ty'). rewrite Hst in Hf. simpl in Hf. lia.
Qed.

Ltac open_token Hl Hin :=
  destruct (ledger_open _ _ _ _ _ _ Hl Hin)
    as (i & s & live & Hn & Hu & Hst & Hty & Hpos & Hlwf & Hrefs & Hfin).

(** A live slot keeps the ledger balanced when its new counts match the new
    multiset of tokens. *)
Lemma ledger_update_live r refs finals id i s live live' refs' :
  ledger r refs finals → names r id i s → is_uint 64 (oid_raw id) →
  state s = SlotState.Live live → live_type live' = live_type live →
  (∀ k, 0 ≤ counter k live' < 2 ^ 32) → 0 < handle_refs live' + internal_refs live' →
  (∀ k ty, Z.of_nat (multiplicity (k, id, ty) refs') =
           if live_type live =? ty then counter k live' else 0) →
  (∀ k id' ty, id' ≠ id → multiplicity (k, id', ty) refs' = multiplicity (k, id', ty) refs) →
  ledger (set_slot i (with_state s (SlotState.Live live')) r) refs' finals.
Proof.
  intros Hl Hn Hu Hst Hty Hc Hpos Hr Ho.
  destruct (ledger_at _ _ _ _ _ _ Hl Hn Hu) as [_ Hf].
  pose proof (ledger_slot_wf _ _ _ _ _ _ Hl Hn) as Hwf.
  apply (slot_wf_live _ _ _ Hst) in Hwf as (? & ? & ? & ? & _ & _).
  eapply ledger_update; [done..| | |done| |done].
  - apply (slot_wf_live _ _ live'); [done|]. unfold live_wf. rewrite Hty. by split_and!.
  - intros k ty. rewrite Hr. simpl. by rewrite Hty.
  - intros ty. rewrite Hf, Hst. done.
Qed.

Lemma validate_reference_ledger r refs finals k id ty :
  ledger r refs finals → (k, id, ty) ∈ refs → validate_reference id ty k r = Ret r tt.
Proof.
  intros Hl Hin. open_token Hl Hin.
  rewrite (validate_reference_names _ _ _ _ _ _ Hn), Hst, Hty, Z.eqb_refl. simpl.
  by rewrite (proj2 (Z.eqb_neq _ 0)) by lia.
Qed.

(** Retaining through an outstanding token mints one more token of the kind
    asked for, unless that count is at its maximum. *)
Lemma retain_reference_ledger r refs finals k k' id ty :
  ledger r refs finals → (k, id, ty) ∈ refs →
  wp (retain_reference id ty k k') r
    (λ _ r', ledger r' (refs ⊎ {[+ (k', id, ty) +]}) finals)
    (λ e r', e = ObjectRegistryError.ReferenceCountExhausted ∧ r' = r ∧
             Z.of_nat (multiplicity (k', id, ty) refs) = 2 ^ 32 - 1).
Proof.
  intros Hl Hin. open_token Hl Hin. subst ty. destruct Hlwf as (_ & _ & _ & _ & Hc & Htot).
  unfold wp. rewrite (retain_reference_names _ _ _ _ _ _ _ _ Hn Hst eq_refl) by lia.
  rewrite checked_add_1_spec. pose proof (Hc k'). pose proof (Hc (other_kind k')).
  destruct (Z.ltb_spec (counter k' live + 1) (2 ^ 32)).
  - eapply ledger_update_live; [done..|apply live_type_set_counter| | | |].
    + intros k2. rewrite counter_set_counter. case_decide; [lia|apply Hc].
    + rewrite total_set_counter. lia.
    + intros k2 ty2. specialize (Hrefs k2 ty2). rewrite counter_set_counter.
      count_tokens; try rewrite Z.eqb_refl in *; try lia.
      destruct (Z.eqb_spec (live_type live) ty2); simplify_eq; lia.
    + intros k2 id2 ty2 Hne. count_tokens; lia.
  - split; [done|]. split; [done|]. rewrite Hrefs, Z.eqb_refl. lia.
Qed.

(** Converting an outstanding token trades it for one of the other kind. *)
Lemma transition_reference_ledger r refs finals k id ty :
  ledger r refs finals → (k, id, ty) ∈ refs →
  wp (transition_reference id ty k (other_kind k)) r
    (λ _ r', ledger r' (refs ∖ {[+ (k, id, ty) +]} ⊎ {[+ (other_kind k, id, ty) +]}) finals)
    (λ e r', e = ObjectRegistryError.ReferenceCountExhausted ∧ r' = r ∧
             Z.of_nat (multiplicity (other_kind k, id, ty) refs) = 2 ^ 32 - 1).
Proof.
  intros Hl Hin. open_token Hl Hin. subst ty. destruct Hlwf as (_ & _ & _ & _ & Hc & Htot).
  unfold wp. rewrite (transition_reference_names _ _ _ _ _ _ _ Hn Hst eq_refl) by lia.
  rewrite checked_add_1_spec, checked_sub_1_pos by done.
  pose proof (Hc k). pose proof (Hc (other_kind k)).
  assert (other_kind k ≠ k) by (by destruct k).
  destruct (Z.ltb_spec (counter (other_kind k) live + 1) (2 ^ 32)).
  - eapply ledger_update_live; [done..|by rewrite !live_type_set_counter| | | |].
    + intros k2. rewrite !counter_set_counter. repeat case_decide; try lia. apply Hc.
    + rewrite total_set_counter, counter_set_counter, decide_True by done. lia.
    + intros k2 ty2. specialize (Hrefs k2 ty2). rewrite !counter_set_counter.
      count_tokens; try rewrite Z.eqb_refl in *; try lia;
      destruct (Z.eqb_spec (live_type live) ty2); simplify_eq; try lia.
    + intros k2 id2 ty2 Hne. count_tokens; lia.
  - split; [done|]. split; [done|]. rewrite Hrefs, Z.eqb_refl. lia.
Qed.

(** The identity has no reference left. *)
Definition unreferenced (refs : gmultiset Token) (id : ObjectId) : Prop :=
  ∀ k ty, (k, id, ty) ∉ refs.

(** Releasing an outstanding token never fails; it yields the final release
    exactly when it was the last token of its object. *)
Lemma release_reference_ledger r refs finals k id ty :
  ledger r refs finals → (k, id, ty) ∈ refs →
  wp (release_reference id ty k) r
    (λ o r', match o with
             | Some f =>
                 f = {| final_id := id; final_type := ty |} ∧
                 unreferenced (refs ∖ {[+ (k, id, ty) +]}) id ∧
                 ledger r' (refs ∖ {[+ (k, id, ty) +]}) (finals ⊎ {[+ f +]})
             | None =>
                 ¬ unreferenced (refs ∖ {[+ (k, id, ty) +]}) id ∧
                 ledger r' (refs ∖ {[+ (k, id, ty) +]}) finals
             end)
    (λ _ _, False).
Proof.
  intros Hl Hin. open_token Hl Hin. subst ty. pose proof Hlwf as (? & ? & ? & _ & Hc & Htot).
  unfold wp. rewrite (release_reference_names _ _ _ _ _ _ _ Hn Hst eq_refl) by lia.
  rewrite checked_sub_1_pos by done. cbv zeta. rewrite total_set_counter.
  pose proof (Hc k). pose proof (Hc (other_kind k)).
  set (refs' := refs ∖ {[+ (k, id, live_type live) +]}).
  assert (∀ k2 ty2, Z.of_nat (multiplicity (k2, id, ty2) refs') =
    if live_type live =? ty2
    then counter k2 (set_counter k (counter k live - 1) live) else 0) as Hrefs'.
  { intros k2 ty2. specialize (Hrefs k2 ty2). subst refs'. rewrite counter_set_counter.
    count_tokens; try rewrite Z.eqb_refl in *; try lia;
    destruct (Z.eqb_spec (live_type live) ty2); simplify_eq; lia. }
  assert (∀ k2 id2 ty2, id2 ≠ id →
    multiplicity (k2, id2, ty2) refs' = multiplicity (k2, id2, ty2) refs) as Hother.
  { intros. subst refs'. count_tokens; lia. }
  destruct (Z.eqb_spec (counter k live - 1 + counter (other_kind k) live) 0) as [Hz|Hz].
  - assert (∀ k2 ty2, multiplicity (k2, id, ty2) refs' = 0%nat) as Hnone.
    { intros k2 ty2. specialize (Hrefs' k2 ty2). rewrite counter_set_counter in Hrefs'.
      destruct (_ =? _); [|lia]. case_decide as Hk; [lia|].
      apply other_kind_ne in Hk as ->. lia. }
    split; [done|]. split.
    { intros k2 ty2 Hin2. rewrite elem_of_multiplicity in Hin2.
      specialize (Hnone k2 ty2). subst refs'. lia. }
    eapply ledger_update; [done..| | |done| |].
    + by split_and!.
    + intros k2 ty2. by rewrite Hnone.
    + intros ty2. specialize (Hfin ty2). count_tokens; simpl.
      * rewrite Z.eqb_refl. lia.
      * rewrite (proj2 (Z.eqb_neq _ _)) by congruence. lia.
    + intros [id2 ty2] Hne. count_tokens; simpl in *; congruence || lia.
  - split.
    { intros Hun. destruct (decide (counter k live = 1)).
      - apply (Hun (other_kind k) (live_type live)), elem_of_multiplicity, Nat2Z.inj_lt.
        rewrite Hrefs', Z.eqb_refl, counter_set_counter, decide_False by (by destruct k). lia.
      - apply (Hun k (live_type live)), elem_of_multiplicity, Nat2Z.inj_lt.
        rewrite Hrefs', Z.eqb_refl, counter_set_counter, decide_True by done. lia. }
    eapply ledger_update_live; [done..|apply live_type_set_counter| | |apply Hrefs'|done].
    + intros k2. rewrite counter_set_counter. case_decide; [lia|apply Hc].
    + rewrite total_set_counter. lia.
Qed.

(** Completing an outstanding final release never fails and uses it up. *)
Lemma complete_finalization_ledger r refs finals f :
  ledger r refs finals → f ∈ finals →
  wp (complete_finalization_inner f) r
    (λ _ r', ledger r' refs (finals ∖ {[+ f +]}))
    (λ _ _, False).
Proof.
  intros Hl Hin. destruct (ledger_final _ _ _ _ Hl Hin) as (i & s & Hn & Hu & Hst).
  destruct (ledger_at _ _ _ _ _ _ Hl Hn Hu) as [Hr Hf]. rewrite Hst in Hr, Hf.
  pose proof (ledger_slot_wf _ _ _ _ _ _ Hl Hn) as (Hg & _). destruct f as [id ty]. simpl in *.
  unfold wp. rewrite (complete_finalization_names _ {| final_id := id; final_type := ty |} i s ty) by done.
  eapply ledger_update; [done..| | |done| |].
  - split; [done|]. simpl. unfold next_generation.
    destruct (next_nonzero 32 (generation s)) eqn:Hnext; [|done].
    apply next_nonzero_Some in Hnext; [|apply Hg]. lia.
  - intros k ty'. rewrite Hr. by destruct (next_generation _).
  - intros ty'. specialize (Hf ty'). simpl in Hf. count_tokens.
    + rewrite Z.eqb_refl in Hf. destruct (next_generation _); simpl; lia.
    + destruct (Z.eqb_spec ty ty'); [congruence|]. destruct (next_generation _); simpl; lia.
  - intros f' Hne. count_tokens; lia.
Qed.

(** A slot in which an object can still be created. *)
Definition usable (i : nat) (s : ObjectSlot) : Prop :=
  state s = SlotState.Vacant ∧ Z.of_nat i + 1 < 2 ^ 32.

(** Giving up a vacant slot whose index no identity can encode. *)
Lemma ledger_abandon r refs finals i s :
  ledger r refs finals → slots r !! i = Some s → state s = SlotState.Vacant →
  2 ^ 32 ≤ Z.of_nat i + 1 →
  ledger (set_slot i (with_state s SlotState.Retired) r) refs finals.
Proof.
  intros (Hwf & Hrefs & Hfin) Hs Hst Hi.
  assert (i < length (slots r))%nat by (by eapply lookup_lt_Some).
  assert (∀ id, object_at (set_slot i (with_state s SlotState.Retired) r) id = object_at r id)
    as Hobj.
  { intros id. unfold object_at. simpl. case_bool_decide as Hid; [|done].
    destruct (decode_object_id (oid_raw id)) as [[j g]|] eqn:Hdec; simpl; [|done].
    apply decode_object_id_Some in Hdec as (_ & _ & Hj & _); [|by destruct Hid].
    rewrite list_lookup_insert_ne; [done|]. intros ->. lia. }
  split_and!.
  - intros j s'. simpl. destruct (decide (j = i)) as [->|].
    + rewrite list_lookup_insert_eq by done. intros [= <-]. split; [|done]. by apply Hwf in Hs as [].
    + rewrite list_lookup_insert_ne by done. apply Hwf.
  - intros tok. unfold held. by rewrite Hobj.
  - intros f. unfold held_final. by rewrite Hobj.
Qed.

Lemma ledger_create r refs finals i s ty raw :
  ledger r refs finals → slots r !! i = Some s → state s = SlotState.Vacant →
  dw_object_compatible_rights ty ≠ 0 →
  encode_object_id i (generation s + 1) = Some raw → generation s + 1 < 2 ^ 32 →
  let id := {| oid_domain := domain r; oid_raw := raw |} in
  unreferenced refs id ∧
  (∀ f, f ∈ finals → final_id f ≠ id) ∧
  ledger (set_slot i {| generation := generation s + 1;
                        state := SlotState.Live
                          {| live_type := ty; handle_refs := 0; internal_refs := 1 |} |} r)
         (refs ⊎ {[+ (ReferenceKind.Internal, id, ty) +]}) finals.
Proof.
  intros Hl Hs Hst Hty Henc Hmax id. pose proof Hl as (Hwf & Hrefs & Hfin).
  assert (i < length (slots r))%nat by (by eapply lookup_lt_Some).
  pose proof (Hwf _ _ Hs) as [[Hg0 Hg1] _].
  assert (is_uint 32 (generation s + 1)) as Hg by (unfold is_uint; lia).
  pose proof (encode_object_id_uint _ _ _ Hg Henc) as Hu.
  pose proof (decode_encode_object_id _ _ _ Hg Henc) as Hdec.
  apply encode_object_id_Some in Henc as (Hne0 & Hi & _); [|done].
  assert (object_at r id = None) as Hfresh.
  { unfold object_at. rewrite bool_decide_true by done. simpl. rewrite Hdec. simpl.
    rewrite Hs. simpl. by rewrite (proj2 (Z.eqb_neq _ _)) by lia. }
  assert (unreferenced refs id) as Hunref.
  { intros k ty'. eapply ledger_dead_token; [done|]. by rewrite Hfresh. }
  assert (∀ f, f ∈ finals → final_id f ≠ id) as Hunfinal.
  { intros f Hf Heq. apply (ledger_final _ _ _ _ Hl) in Hf as (j & s' & Hn & Hu' & _).
    rewrite Heq in Hn, Hu'. by rewrite (object_at_names _ _ _ _ Hn Hu') in Hfresh. }
  split; [done|]. split; [done|].
  pose proof (λ live id', object_at_create r id i s (generation s + 1) live id' Hs Hst Hu
                eq_refl Hdec ltac:(lia)) as Hobj. simpl in Hobj.
  split_and!.
  - intros j s'. simpl. destruct (decide (j = i)) as [->|].
    + rewrite list_lookup_insert_eq by done. intros [= <-].
      split; [done|]. simpl. unfold is_uint. split_and!; done || lia.
    + rewrite list_lookup_insert_ne by done. apply Hwf.
  - intros [[k id'] ty']. unfold held. simpl. rewrite multiplicity_disj_union, multiplicity_singleton.
    destruct (decide (id' = id)) as [->|Hne].
    + rewrite (proj1 (Hobj _ id)). simpl.
      assert (multiplicity (k, id, ty') refs = 0%nat) as -> by (apply not_elem_of_multiplicity, Hunref).
      destruct (Z.eqb_spec ty ty') as [->|], k; simpl; by repeat case_decide; simplify_eq.
    + rewrite decide_False by congruence. specialize (Hrefs (k, id', ty')).
      rewrite Nat.add_0_r, Hrefs. unfold held. simpl.
      destruct (proj2 (Hobj {| live_type := ty; handle_refs := 0; internal_refs := 1 |} id') Hne)
        as [->|[-> ->]]; done.
  - intros f. rewrite Hfin. unfold held_final.
    destruct (decide (final_id f = id)) as [->|Hne].
    + by rewrite (proj1 (Hobj _ id)), Hfresh.
    + destruct (proj2 (Hobj {| live_type := ty; handle_refs := 0; internal_refs := 1 |}
                         (final_id f)) Hne) as [->|[-> ->]]; done.
Qed.

(** Creation fails only on a type no object may have, or when no slot is
    usable; otherwise the new identity is one no outstanding token names. *)
Lemma create_ledger r refs finals ty :
  ledger r refs finals →
  wp (create ty) r
    (λ c r', creation_type c = ty ∧ unreferenced refs (creation_id c) ∧
             (∀ f, f ∈ finals → final_id f ≠ creation_id c) ∧
             domain r' = domain r ∧
             ledger r' (refs ⊎ {[+ creation_token c +]}) finals)
    (λ e r', ledger r' refs finals ∧ domain r' = domain r ∧
             (e = ObjectRegistryError.InvalidObjectType ∧ dw_object_compatible_rights ty = 0 ∧
                r' = r ∨
              e = ObjectRegistryError.Capacity ∧ dw_object_compatible_rights ty ≠ 0 ∧
                ∀ i s, slots r !! i = Some s → ¬ usable i s)).
Proof.
  intros Hl. unfold create.
  destruct (Z.eqb_spec (dw_object_compatible_rights ty) 0) as [Hty|Hty]; [unfold wp; simpl; tauto|].
  do 2 apply wp_bind. unfold wp at 1, get.
  apply (wp_loop (λ pre _ r', ledger r' refs finals ∧ domain r' = domain r ∧
    length (slots r') = length (slots r) ∧
    (∀ i, (length pre ≤ i)%nat → slots r' !! i = slots r !! i) ∧
    (∀ i s, (i < length pre)%nat → slots r !! i = Some s → ¬ usable i s))).
  - split_and!; try done. simpl. lia.
  - intros pre i post [] r' [-> Hi]%seq_split_at (Hl' & Hd & Hlen & Hrest & Hseen).
    assert (is_Some (slots r' !! length pre)) as [s Hs] by (apply lookup_lt_is_Some; lia).
    assert (slots r !! length pre = Some s) as Hs' by (by rewrite <- Hrest by lia).
    assert (∀ r2, ledger r2 refs finals → domain r2 = domain r → length (slots r2) = length (slots r) →
      (∀ j, j ≠ length pre → slots r2 !! j = slots r' !! j) → ¬ usable (length pre) s →
      ledger r2 refs finals ∧ domain r2 = domain r ∧ length (slots r2) = length (slots r) ∧
      (∀ j, (length (pre ++ [length pre]) ≤ j)%nat → slots r2 !! j = slots r !! j) ∧
      (∀ j sj, (j < length (pre ++ [length pre]))%nat → slots r !! j = Some sj → ¬ usable j sj))
      as Hnext.
    { intros r2 Hl2 Hd2 Hlen2 Hoth Hun. rewrite length_app. simpl. split_and!; try done.
      - intros j Hj. rewrite Hoth by lia. apply Hrest. lia.
      - intros j sj Hj Hsj. destruct (decide (j = length pre)) as [->|]; [by simplify_eq|].
        apply Hseen; [lia|done]. }
    unfold wp, mbind, M_bind. rewrite (slot_at_lookup _ _ _ Hs). unfold usable in Hnext.
    destruct (state s) as [|live|ty'|] eqn:Hst; try (apply Hnext; naive_solver).
    pose proof (proj1 Hl' _ _ Hs) as Hwf. unfold slot_wf in Hwf. rewrite Hst in Hwf.
    destruct Hwf as [[Hg0 Hg1] Hmax].
    unfold next_generation. rewrite next_nonzero_spec, (proj2 (Z.ltb_lt _ _) Hmax) by done.
    destruct (encode_object_id (length pre) (generation s + 1)) as [raw|] eqn:Henc.
    + destruct (ledger_create _ _ _ _ _ ty raw Hl' Hs Hst Hty Henc Hmax) as (Hf1 & Hf2 & Hl2).
      simpl. split_and!; done.
    + simpl. assert (2 ^ 32 ≤ Z.of_nat (length pre) + 1).
      { destruct (decide (Z.of_nat (length pre) + 1 < 2 ^ 32)); [|lia].
        assert (encode_object_id (length pre) (generation s + 1) =
          Some ((generation s + 1) * 2 ^ 32 + (Z.of_nat (length pre) + 1))) as Henc'; [|congruence].
        apply encode_object_id_Some; unfold is_uint; lia. }
      apply Hnext; simpl; [by apply ledger_abandon|done|by rewrite length_insert| |lia].
      intros j Hj. by rewrite list_lookup_insert_ne.
  - intros [] r' (Hl' & Hd & Hlen & _ & Hseen). simpl. split; [done|]. split; [done|].
    right. split_and!; try done. intros i s Hs. apply Hseen; [|done].
    rewrite length_seq. by eapply lookup_lt_Some.
Qed.

(** ** The contract the registry offers its clients

    [owns r refs finals] reads: the tokens [refs] and [finals], and no others,
    are outstanding against [r].  Clients (the handle table, the channel and
    event authorities) are verified against this class alone. *)

(** A retained count is at its maximum. *)
Definition exhausted (refs : gmultiset Token) (tok : Token) : Prop :=
  Z.of_nat (multiplicity tok refs) = 2 ^ 32 - 1.

(** What releasing [tok] yields: the final release exactly when no other
    token of the object is outstanding. *)
Definition released (owns : t → gmultiset Token → gmultiset FinalRelease → Prop)
    (refs : gmultiset Token) (finals : gmultiset FinalRelease) (tok : Token)
    (o : option FinalRelease) (r' : t) : Prop :=
  match o with
  | Some f =>
      f = {| final_id := tok.1.2; final_type := tok.2 |} ∧
      unreferenced (refs ∖ {[+ tok +]}) tok.1.2 ∧
      owns r' (refs ∖ {[+ tok +]}) (finals ⊎ {[+ f +]})
  | None =>
      ¬ unreferenced (refs ∖ {[+ tok +]}) tok.1.2 ∧
      owns r' (refs ∖ {[+ tok +]}) finals
  end.

Class RegistryContract (owns : t → gmultiset Token → gmultiset FinalRelease → Prop) : Prop := {
  contract_create r refs finals ty :
    owns r refs finals →
    wp (create ty) r
      (λ c r', creation_type c = ty ∧ unreferenced refs (creation_id c) ∧
               owns r' (refs ⊎ {[+ creation_token c +]}) finals)
      (λ _ r', owns r' refs finals);
  contract_bind r refs finals c :
    owns r refs finals → creation_token c ∈ refs →
    validate_reference (creation_id c) (creation_type c) ReferenceKind.Internal r = Ret r tt;
  contract_transition r refs finals k id ty :
    owns r refs finals → (k, id, ty) ∈ refs →
    wp (transition_reference id ty k (other_kind k)) r
      (λ _ r', owns r' (refs ∖ {[+ (k, id, ty) +]} ⊎ {[+ (other_kind k, id, ty) +]}) finals)
      (λ e r', e = ObjectRegistryError.ReferenceCountExhausted ∧ r' = r ∧
               exhausted refs (other_kind k, id, ty));
  contract_retain r refs finals k k' id ty :
    owns r refs finals → (k, id, ty) ∈ refs →
    wp (retain_reference id ty k k') r
      (λ _ r', owns r' (refs ⊎ {[+ (k', id, ty) +]}) finals)
      (λ e r', e = ObjectRegistryError.ReferenceCountExhausted ∧ r' = r ∧
               exhausted refs (k', id, ty));
  contract_release r refs finals k id ty :
    owns r refs finals → (k, id, ty) ∈ refs →
    wp (release_reference id ty k) r (released owns refs finals (k, id, ty)) (λ _ _, False);
  contract_finalize r refs finals f :
    owns r refs finals → f ∈ finals →
    wp (complete_finalization_inner f) r
      (λ _ r', owns r' refs (finals ∖ {[+ f +]})) (λ _ _, False);
  (** The tokens of one object agree on its type; a final release is
      outstanding at most once, and only for an object without tokens. *)
  contract_typed r refs finals k k' id ty ty' :
    owns r refs finals → (k, id, ty) ∈ refs → (k', id, ty') ∈ refs → ty = ty';
  contract_final_last r refs finals f :
    owns r refs finals → f ∈ finals → unreferenced refs (final_id f);
  contract_final_once r refs finals f f' :
    owns r refs finals → f ∈ finals → f' ∈ finals ∖ {[+ f +]} → final_id f' ≠ final_id f;
  contract_finals_fit r refs finals : owns r refs finals → (size finals ≤ length (slots r))%nat;
}.

Global Instance ledger_contract : RegistryContract ledger.
Proof.
  split.
  - intros r refs finals ty Hl. eapply wp_mono; [by apply create_ledger| |]; naive_solver.
  - intros r refs finals c Hl Hin. by eapply validate_reference_ledger.
  - intros r refs finals k id ty Hl Hin. by apply transition_reference_ledger.
  - intros r refs finals k k' id ty Hl Hin. by apply retain_reference_ledger.
  - intros r refs finals k id ty Hl Hin. eapply wp_mono; [by apply release_reference_ledger|done..].
  - intros r refs finals f Hl Hin. by apply complete_finalization_ledger.
  - intros r refs finals k k' id ty ty' Hl Hin Hin'. by eapply ledger_typed.
  - intros r refs finals f Hl Hin k ty. by eapply ledger_final_last.
  - intros r refs finals f f' Hl Hin Hin'. by eapply ledger_final_once.
  - intros r refs finals. apply ledger_finals_fit.
Qed.

Section public_operations.
Context {owns : t → gmultiset Token → gmultiset FinalRelease → Prop}.
Context `{!RegistryContract owns}.
Implicit Types (r : t) (refs : gmultiset Token) (finals : gmultiset FinalRelease).

Lemma retain_handle_owns r refs finals h :
  owns r refs finals → handle_token h ∈ refs →
  wp (retain_handle h) r
    (λ h' r', h' = h ∧ owns r' (refs ⊎ {[+ handle_token h +]}) finals)
    (λ e r', e = ObjectRegistryError.ReferenceCountExhausted ∧ r' = r ∧
             exhausted refs (handle_token h)).
Proof.
  intros Ho Hin. unfold retain_handle. apply wp_bind.
  eapply wp_mono; [by eapply contract_retain| |done]. intros ? r' Ho'. by destruct h.
Qed.

Lemma retain_internal_from_handle_owns r refs finals h :
  owns r refs finals → handle_token h ∈ refs →
  wp (retain_internal_from_handle h) r
    (λ n r', internal_id n = handle_id h ∧ internal_type n = handle_type h ∧
             owns r' (refs ⊎ {[+ internal_token n +]}) finals)
    (λ e r', e = ObjectRegistryError.ReferenceCountExhausted ∧ r' = r ∧
             exhausted refs (ReferenceKind.Internal, handle_id h, handle_type h)).
Proof.
  intros Ho Hin. unfold retain_internal_from_handle. apply wp_bind.
  eapply wp_mono; [by eapply contract_retain| |done]. intros ? r' Ho'. by destruct h.
Qed.

Lemma retain_internal_owns r refs finals n :
  owns r refs finals → internal_token n ∈ refs →
  wp (retain_internal n) r
    (λ n' r', n' = n ∧ owns r' (refs ⊎ {[+ internal_token n +]}) finals)
    (λ e r', e = ObjectRegistryError.ReferenceCountExhausted ∧ r' = r ∧
             exhausted refs (internal_token n)).
Proof.
  intros Ho Hin. unfold retain_internal. apply wp_bind.
  eapply wp_mono; [by eapply contract_retain| |done]. intros ? r' Ho'. by destruct n.
Qed.

Lemma release_handle_owns r refs finals h :
  owns r refs finals → handle_token h ∈ refs →
  wp (release_handle h) r (released owns refs finals (handle_token h)) (λ _ _, False).
Proof. intros Ho Hin. apply wp_map_err. by apply contract_release. Qed.

(** Releasing leaves the number of slots alone. *)
Lemma release_handle_slots h r :
  wp (release_handle h) r (λ _ r', length (slots r') = length (slots r))
    (λ _ r', length (slots r') = length (slots r)).
Proof.
  apply wp_map_err. eapply wp_mono; [apply release_reference_lifecycle|..]; intros ? r' Hr; by apply lifecycle_slots.
Qed.

Lemma release_internal_owns r refs finals n :
  owns r refs finals → internal_token n ∈ refs →
  wp (release_internal n) r (released owns refs finals (internal_token n)) (λ _ _, False).
Proof. intros Ho Hin. apply wp_map_err. by apply contract_release. Qed.

(** A creation that nothing else references yet cancels without a trace. *)
Lemma cancel_creation_owns r refs finals c :
  owns r refs finals → creation_token c ∈ refs →
  unreferenced (refs ∖ {[+ creation_token c +]}) (creation_id c) →
  wp (cancel_creation c) r
    (λ _ r', owns r' (refs ∖ {[+ creation_token c +]}) finals) (λ _ _, False).
Proof.
  intros Ho Hin Hun. unfold cancel_creation. apply wp_bind, wp_map_err.
  eapply wp_mono; [by apply contract_release| |done].
  intros [f|] r' Hrel; simpl in Hrel; [|by destruct Hrel as [[] _]].
  destruct Hrel as (-> & _ & Ho'). apply wp_unwrap.
  eapply wp_mono; [apply contract_finalize; [done|multiset_solver]| |done].
  intros ? r2 Ho2. simpl in Ho2. by rewrite gmultiset_add_remove in Ho2.
Qed.

(** Binding a creation's payload and publishing its first handle. *)
Lemma bound_into_handle_owns r refs finals c :
  owns r refs finals → creation_token c ∈ refs →
  wp (bound_into_handle {| bound_reference := c |}) r
    (λ h r', handle_id h = creation_id c ∧ handle_type h = creation_type c ∧
             owns r' (refs ∖ {[+ creation_token c +]} ⊎ {[+ handle_token h +]}) finals)
    (λ e r', e.1 = ObjectRegistryError.ReferenceCountExhausted ∧ r' = r ∧
             exhausted refs (ReferenceKind.Handle, creation_id c, creation_type c)).
Proof.
  intros Ho Hin. unfold bound_into_handle. cbv zeta. apply wp_bind, wp_map_err.
  eapply wp_mono; [by eapply (contract_transition _ _ _ ReferenceKind.Internal)| |].
  - intros ? r' Ho'. by destruct c.
  - done.
Qed.

(** A creation nothing else references becomes a handle. *)
Lemma fresh_into_handle_owns r refs finals c :
  owns r refs finals → creation_token c ∈ refs →
  unreferenced (refs ∖ {[+ creation_token c +]}) (creation_id c) →
  wp (bound_into_handle {| bound_reference := c |}) r
    (λ h r', handle_id h = creation_id c ∧ handle_type h = creation_type c ∧
             owns r' (refs ∖ {[+ creation_token c +]} ⊎ {[+ handle_token h +]}) finals)
    (λ _ _, False).
Proof.
  intros Ho Hin Hun. eapply wp_mono; [by eapply bound_into_handle_owns|done|].
  intros e r' (_ & _ & Hex). unfold exhausted in Hex.
  assert (multiplicity (ReferenceKind.Handle, creation_id c, creation_type c) refs = 0)%nat as Hz;
    [|rewrite Hz in Hex; lia].
  specialize (Hun ReferenceKind.Handle (creation_type c)).
  rewrite elem_of_multiplicity, multiplicity_difference, multiplicity_singleton_ne in Hun by done. lia.
Qed.

Lemma finish_payload_binding_owns {P} `{PayloadBindingProof P} r refs finals (proof : P) :
  owns r refs finals → creation_token (into_creation proof) ∈ refs →
  finish_payload_binding proof r = Ret r {| bound_reference := into_creation proof |}.
Proof.
  intros Ho Hin. unfold finish_payload_binding, with_reference, map_err, mbind, M_bind.
  by rewrite (contract_bind _ _ _ _ Ho Hin).
Qed.

Lemma internal_into_handle_owns r refs finals n :
  owns r refs finals → internal_token n ∈ refs →
  wp (internal_into_handle n) r
    (λ h r', handle_id h = internal_id n ∧ handle_type h = internal_type n ∧
             owns r' (refs ∖ {[+ internal_token n +]} ⊎ {[+ handle_token h +]}) finals)
    (λ e r', e = (ObjectRegistryError.ReferenceCountExhausted, n) ∧ r' = r ∧
             exhausted refs (ReferenceKind.Handle, internal_id n, internal_type n)).
Proof.
  intros Ho Hin. unfold internal_into_handle. apply wp_bind, wp_map_err.
  eapply wp_mono; [by eapply (contract_transition _ _ _ ReferenceKind.Internal)| |].
  - intros ? r' Ho'. by destruct n.
  - simpl. intros e r' (-> & -> & Hex). done.
Qed.

Lemma handle_into_internal_owns r refs finals h :
  owns r refs finals → handle_token h ∈ refs →
  wp (handle_into_internal h) r
    (λ n r', internal_id n = handle_id h ∧ internal_type n = handle_type h ∧
             owns r' (refs ∖ {[+ handle_token h +]} ⊎ {[+ internal_token n +]}) finals)
    (λ e r', e = (ObjectRegistryError.ReferenceCountExhausted, h) ∧ r' = r ∧
             exhausted refs (ReferenceKind.Internal, handle_id h, handle_type h)).
Proof.
  intros Ho Hin. unfold handle_into_internal. apply wp_bind, wp_map_err.
  eapply wp_mono; [by eapply (contract_transition _ _ _ ReferenceKind.Handle)| |].
  - intros ? r' Ho'. by destruct h.
  - simpl. intros e r' (-> & -> & Hex). done.
Qed.

End public_operations.

(** ** Living objects

    An object of type [ty] is alive while a reference or its final release is
    outstanding: the objects a typed authority must hold a payload for. *)

Definition alive (ty : Z) (id : ObjectId) (refs : gmultiset Token)
    (finals : gmultiset FinalRelease) : Prop :=
  (∃ k, (k, id, ty) ∈ refs) ∨ {| final_id := id; final_type := ty |} ∈ finals.

(** An object that is not unreferenced has a token. *)
Lemma not_forall_tokens refs id : ¬ unreferenced refs id → ∃ k ty, (k, id, ty) ∈ refs.
Proof.
  intros Hun. destruct (decide (Exists (λ tok, tok.1.2 = id) (elements refs))) as [Hex|Hex].
  - apply list.Exists_exists in Hex as ([[k id'] ty] & Hin & Hid). simpl in Hid. subst id'.
    exists k, ty. by apply gmultiset_elem_of_elements.
  - destruct Hun. intros k ty Hin. apply Hex, list.Exists_exists.
    exists (k, id, ty). split; [by apply gmultiset_elem_of_elements|done].
Qed.

Lemma alive_add k id ty ty' id' refs finals :
  alive ty' id' (refs ⊎ {[+ (k, id, ty) +]}) finals ↔
  alive ty' id' refs finals ∨ ty' = ty ∧ id' = id.
Proof.
  unfold alive. split.
  - intros [[k' Hk]|Hf]; [|by left; right].
    apply gmultiset_elem_of_disj_union in Hk as [Hk|Hk]; [by left; left; exists k'|].
    apply gmultiset_elem_of_singleton in Hk. simplify_eq. by right.
  - intros [[[k' Hk]|Hf]|[-> ->]]; [left; exists k'; multiset_solver|by right|].
    left. exists k. multiset_solver.
Qed.

(** Only which objects have tokens matters. *)
Lemma alive_ext ty id refs refs' finals :
  (∀ k, (k, id, ty) ∈ refs ↔ (k, id, ty) ∈ refs') →
  alive ty id refs finals ↔ alive ty id refs' finals.
Proof. intros He. unfold alive. naive_solver. Qed.

Section alive.
Context {owns : t → gmultiset Token → gmultiset FinalRelease → Prop}.
Context `{!RegistryContract owns}.
Implicit Types (r : t) (refs : gmultiset Token) (finals : gmultiset FinalRelease).

Lemma alive_typed r refs finals ty ty' id :
  owns r refs finals → alive ty id refs finals → alive ty' id refs finals → ty = ty'.
Proof.
  intros Ho [[k Hk]|Hf] [[k' Hk']|Hf'].
  - by eapply contract_typed.
  - by destruct (contract_final_last _ _ _ _ Ho Hf' k ty).
  - by destruct (contract_final_last _ _ _ _ Ho Hf k' ty').
  - destruct (decide (ty = ty')) as [|Hne]; [done|].
    destruct (contract_final_once _ _ _ _ {| final_id := id; final_type := ty' |} Ho Hf); [|done].
    multiset_solver.
Qed.

(** A created object was not alive. *)
Lemma alive_create r refs finals c ty :
  owns r (refs ⊎ {[+ creation_token c +]}) finals → unreferenced refs (creation_id c) →
  ¬ alive ty (creation_id c) refs finals.
Proof.
  intros Ho Hun [[k Hk]|Hf]; [by eapply Hun|].
  destruct (contract_final_last _ _ _ _ Ho Hf ReferenceKind.Internal (creation_type c)).
  simpl. unfold creation_token. multiset_solver.
Qed.

(** Completing a finalization retires exactly its object. *)
Lemma alive_finalize r refs finals f ty id :
  owns r refs finals → f ∈ finals →
  alive ty id refs (finals ∖ {[+ f +]}) ↔ alive ty id refs finals ∧ id ≠ final_id f.
Proof.
  intros Ho Hf. split.
  - intros [[k Hk]|Hf'].
    + split; [by left; exists k|]. intros ->. by eapply contract_final_last.
    + split; [right; multiset_solver|].
      intros Hid. by eapply (contract_final_once _ _ _ f _ Ho Hf Hf').
  - intros [[[k Hk]|Hf'] Hne]; [by left; exists k|right].
    assert ({| final_id := id; final_type := ty |} ≠ f) by (by intros <-). multiset_solver.
Qed.

(** Releasing a token keeps its object alive: by its other tokens, or by the
    final release. *)
Lemma alive_release r refs finals k id ty o r' ty' id' :
  owns r refs finals → (k, id, ty) ∈ refs →
  released owns refs finals (k, id, ty) o r' →
  let finals' := match o with Some f => finals ⊎ {[+ f +]} | None => finals end in
  alive ty' id' (refs ∖ {[+ (k, id, ty) +]}) finals' ↔ alive ty' id' refs finals.
Proof.
  intros Ho Hin Hrel finals'. subst finals'. destruct o as [f|]; simpl in Hrel.
  - destruct Hrel as (-> & Hun & _). split.
    + intros [[k' Hk]|Hf]; [left; exists k'; multiset_solver|].
      apply gmultiset_elem_of_disj_union in Hf as [Hf|Hf]; [by right|].
      apply gmultiset_elem_of_singleton in Hf. simplify_eq. left. by exists k.
    + intros [[k' Hk]|Hf]; [|right; multiset_solver].
      destruct (decide (id' = id)) as [->|Hne].
      * right. rewrite (contract_typed _ _ _ _ _ _ _ _ Ho Hk Hin). simpl. multiset_solver.
      * left. exists k'. assert ((k', id', ty') ≠ (k, id, ty)) by congruence. multiset_solver.
  - destruct Hrel as [Hun _]. split.
    + intros [[k' Hk]|Hf]; [left; exists k'; multiset_solver|by right].
    + intros [[k' Hk]|Hf]; [|by right]. destruct (decide (id' = id)) as [->|Hne].
      * left. rewrite (contract_typed _ _ _ _ _ _ _ _ Ho Hk Hin).
        apply not_forall_tokens in Hun as (k2 & ty2 & Hk2). exists k2.
        assert ((k2, id, ty2) ∈ refs) as Hk3 by multiset_solver.
        by rewrite (contract_typed _ _ _ _ _ _ _ _ Ho Hk3 Hin) in Hk2.
      * left. exists k'. assert ((k', id', ty') ≠ (k, id, ty)) by congruence. multiset_solver.
Qed.

End alive.
