(* ===== verification/ObjectTheorems.v ===== *)
(** * The object registry under its callers

    The registry as the rest of the kernel drives it: callers present only
    tokens they hold, and the registry's counts are, at every moment, the
    number of tokens outstanding.  The refinement of the registry to its
    lifecycle and the death of finalized identities are in [ObjectFacts]. *)

From stdpp Require Import base tactics numbers list gmultiset relations.
From Stdlib Require Import ZArith Lia.
From S2P Require Import Prelude Abi Object ObjectFacts ObjectLedger.
Import ObjectRegistry.
Local Open Scope Z_scope.

(** An empty registry. *)
Definition fresh_registry (d : Z) (n : nat) : ObjectRegistry.t :=
  {| domain := d; slots := replicate n EMPTY_SLOT |}.

(** The state a call leaves. *)
Definition after {S E A} (m : M S E A) (s : S) : S :=
  match m s with Ret s' _ | Fail s' _ => s' | Panic => s end.

(** Every operation of the registry, on any arguments, is a finite run of
    the slot state machine: it creates only in a vacant slot under a new
    generation, changes a count only of a live object, finalizes only an
    object whose last reference goes, and reclaims only a finalizing slot. *)
Theorem registry_refines_lifecycle r r' :
  rtc registry_step r r' → rtc lifecycle_step r r'.
Proof.
  induction 1 as [|r r1 r' Hstep _ IH]; [done|].
  etrans; [by apply registry_step_lifecycle|done].
Qed.

Lemma registry_refines_lifecycle_witness :
  rtc lifecycle_step (fresh_registry 1 2)
    (after (create DW_OBJECT_TYPE_EVENT) (fresh_registry 1 2)).
Proof.
  apply registry_refines_lifecycle, rtc_once. apply (step_create _ _ DW_OBJECT_TYPE_EVENT).
  left. eexists. reflexivity.
Defined.

(** C30. Once the finalization of an object completes, no sequence of registry
    operations on whatever arguments makes a reference to that identity valid
    again: every later use of one is refused as stale and changes nothing. *)
Theorem finalized_identity_is_dead f r r1 r2 ty k :
  complete_finalization_inner f r = Ret r1 tt →
  rtc registry_step r1 r2 →
  validate_reference (final_id f) ty k r2 = Fail r2 ObjectRegistryError.StaleReference.
Proof.
  intros Hcf Hrtc. apply expired_rejected. apply complete_finalization_expires in Hcf.
  induction Hrtc as [|r1 r3 r2 Hstep _ IH]; [done|]. apply IH.
  apply registry_step_lifecycle in Hstep.
  induction Hstep; eauto using lifecycle_step_expired.
Qed.

(** The one slot of this registry is finalizing the object [1:1]; afterwards
    it holds the object [1:2]. *)
Definition finalizing_registry : ObjectRegistry.t :=
  {| domain := 1;
     slots := [{| generation := 1; state := SlotState.Finalizing DW_OBJECT_TYPE_EVENT |}] |}.

Definition event_one : FinalRelease :=
  {| final_id := {| oid_domain := 1; oid_raw := 2 ^ 32 + 1 |}; final_type := DW_OBJECT_TYPE_EVENT |}.

Lemma finalized_identity_is_dead_witness :
  let r1 := after (complete_finalization_inner event_one) finalizing_registry in
  let r2 := after (create DW_OBJECT_TYPE_EVENT) r1 in
  validate_reference (final_id event_one) DW_OBJECT_TYPE_EVENT ReferenceKind.Handle r2 =
    Fail r2 ObjectRegistryError.StaleReference.
Proof.
  intros r1 r2. apply (finalized_identity_is_dead event_one finalizing_registry r1).
  - reflexivity.
  - apply rtc_once. apply (step_create _ _ DW_OBJECT_TYPE_EVENT). left. eexists. reflexivity.
Defined.

(** A registry and the tokens outstanding against it. *)
Record books : Type := {
  book : ObjectRegistry.t;
  tokens : gmultiset Token;
  finals : gmultiset FinalRelease;
}.

(** One call by a caller that presents tokens it holds. *)
Inductive honest_step : books → books → Prop :=
| honest_create r refs fs ty r' c :
    create ty r = Ret r' c →
    honest_step {| book := r; tokens := refs; finals := fs |}
                {| book := r'; tokens := refs ⊎ {[+ creation_token c +]}; finals := fs |}
| honest_create_fails r refs fs ty r' e :
    create ty r = Fail r' e →
    honest_step {| book := r; tokens := refs; finals := fs |}
                {| book := r'; tokens := refs; finals := fs |}
| honest_retain r refs fs k k' id ty r' :
    (k, id, ty) ∈ refs → retain_reference id ty k k' r = Ret r' tt →
    honest_step {| book := r; tokens := refs; finals := fs |}
                {| book := r'; tokens := refs ⊎ {[+ (k', id, ty) +]}; finals := fs |}
| honest_transition r refs fs k id ty r' :
    (k, id, ty) ∈ refs → transition_reference id ty k (other_kind k) r = Ret r' tt →
    honest_step {| book := r; tokens := refs; finals := fs |}
                {| book := r'; tokens := refs ∖ {[+ (k, id, ty) +]} ⊎ {[+ (other_kind k, id, ty) +]};
                   finals := fs |}
| honest_release r refs fs k id ty r' :
    (k, id, ty) ∈ refs → release_reference id ty k r = Ret r' None →
    honest_step {| book := r; tokens := refs; finals := fs |}
                {| book := r'; tokens := refs ∖ {[+ (k, id, ty) +]}; finals := fs |}
| honest_final_release r refs fs k id ty r' f :
    (k, id, ty) ∈ refs → release_reference id ty k r = Ret r' (Some f) →
    honest_step {| book := r; tokens := refs; finals := fs |}
                {| book := r'; tokens := refs ∖ {[+ (k, id, ty) +]}; finals := fs ⊎ {[+ f +]} |}
| honest_finalize r refs fs f r' :
    f ∈ fs → complete_finalization_inner f r = Ret r' tt →
    honest_step {| book := r; tokens := refs; finals := fs |}
                {| book := r'; tokens := refs; finals := fs ∖ {[+ f +]} |}.

Definition fresh_books (d : Z) (n : nat) : books :=
  {| book := fresh_registry d n; tokens := ∅; finals := ∅ |}.

Lemma object_at_fresh d n id : is_Some (object_at (fresh_registry d n) id) → False.
Proof.
  unfold object_at. case_bool_decide as Hid; [|intros [? [=]]].
  destruct (decode_object_id (oid_raw id)) as [[i g]|] eqn:Hdec; simpl; [|intros [? [=]]].
  apply decode_object_id_Some in Hdec; [|tauto].
  destruct (replicate n EMPTY_SLOT !! i) as [s|] eqn:Hs; simpl; [|intros [? [=]]].
  apply lookup_replicate in Hs as [-> _]. cbn [generation EMPTY_SLOT].
  rewrite (proj2 (Z.eqb_neq 0 g)) by lia. intros [? [=]].
Qed.

Lemma fresh_ledger d n : ledger (fresh_registry d n) ∅ ∅.
Proof.
  assert (∀ id, object_at (fresh_registry d n) id = None) as Hnone.
  { intros id. destruct (object_at _ id) eqn:Ho; [|done].
    destruct (object_at_fresh d n id). by rewrite Ho. }
  split_and!.
  - intros i s Hs. simpl in Hs. apply lookup_replicate in Hs as [-> _].
    split; simpl; [by unfold is_uint|lia].
  - intros tok. unfold held. by rewrite Hnone, multiplicity_empty.
  - intros f. unfold held_final. by rewrite Hnone, multiplicity_empty.
Qed.

Definition balanced_books (b : books) : Prop := ledger (book b) (tokens b) (finals b).

Lemma honest_step_ledger b b' : balanced_books b → honest_step b b' → balanced_books b'.
Proof.
  unfold balanced_books.
  intros Hl Hstep. destruct Hstep as [r refs fs ty r' c Hc|r refs fs ty r' e Hc
    |r refs fs k k' id ty r' Hin Hc|r refs fs k id ty r' Hin Hc|r refs fs k id ty r' Hin Hc
    |r refs fs k id ty r' f Hin Hc|r refs fs f r' Hin Hc]; simpl in *.
  - apply (wp_Ret _ _ _ _ _ _ (contract_create _ _ _ ty Hl) Hc).
  - apply (wp_Fail _ _ _ _ _ _ (contract_create _ _ _ ty Hl) Hc).
  - apply (wp_Ret _ _ _ _ _ _ (contract_retain _ _ _ _ k' _ _ Hl Hin) Hc).
  - apply (wp_Ret _ _ _ _ _ _ (contract_transition _ _ _ _ _ _ Hl Hin) Hc).
  - pose proof (wp_Ret _ _ _ _ _ _ (contract_release _ _ _ _ _ _ Hl Hin) Hc) as [_ Hl']. done.
  - pose proof (wp_Ret _ _ _ _ _ _ (contract_release _ _ _ _ _ _ Hl Hin) Hc) as (_ & _ & Hl'). done.
  - apply (wp_Ret _ _ _ _ _ _ (contract_finalize _ _ _ _ Hl Hin) Hc).
Qed.

Lemma honest_run_ledger b b' : balanced_books b → rtc honest_step b b' → balanced_books b'.
Proof. intros Hb. induction 1; eauto using honest_step_ledger. Qed.

(** C15. Whatever calls its holders make of the registry, in whatever order,
    from an empty registry on: each live object's handle and internal counts
    are exactly the numbers of handle and internal tokens outstanding for it,
    each finalizing object has exactly one final release outstanding, and every
    slot's generation and counts stay within 32 bits. *)
Theorem registry_counts_outstanding_tokens d n b :
  rtc honest_step (fresh_books d n) b →
  registry_wf (book b) ∧
  (∀ k id ty, Z.of_nat (multiplicity (k, id, ty) (tokens b)) =
     held_in (object_at (book b) id) k ty) ∧
  (∀ f, Z.of_nat (multiplicity f (finals b)) =
     held_final_in (object_at (book b) (final_id f)) (final_type f)).
Proof.
  intros Hrun. destruct (honest_run_ledger (fresh_books d n) _ (fresh_ledger d n) Hrun) as (Hwf & Hrefs & Hfin).
  split_and!; [done|intros k id ty; apply Hrefs|intros f; apply Hfin].
Qed.

(** An event created and retained once as a handle. *)
Definition event_id : ObjectId := {| oid_domain := 1; oid_raw := 2 ^ 32 + 1 |}.
Definition event_books : books :=
  {| book := after (create DW_OBJECT_TYPE_EVENT) (fresh_registry 1 2);
     tokens := ∅ ⊎ {[+ (ReferenceKind.Internal, event_id, DW_OBJECT_TYPE_EVENT) +]};
     finals := ∅ |}.
Definition retained_books : books :=
  {| book := after (retain_reference event_id DW_OBJECT_TYPE_EVENT
                      ReferenceKind.Internal ReferenceKind.Handle) (book event_books);
     tokens := tokens event_books ⊎ {[+ (ReferenceKind.Handle, event_id, DW_OBJECT_TYPE_EVENT) +]};
     finals := ∅ |}.

Lemma event_books_reachable : rtc honest_step (fresh_books 1 2) event_books.
Proof.
  apply rtc_once.
  apply (honest_create _ _ _ DW_OBJECT_TYPE_EVENT _
    {| creation_id := event_id; creation_type := DW_OBJECT_TYPE_EVENT |}). reflexivity.
Qed.

Lemma retained_books_reachable : rtc honest_step (fresh_books 1 2) retained_books.
Proof.
  eapply rtc_r; [exact event_books_reachable|].
  apply (honest_retain _ _ _ ReferenceKind.Internal ReferenceKind.Handle event_id
    DW_OBJECT_TYPE_EVENT); [simpl; multiset_solver|reflexivity].
Qed.

Lemma registry_counts_outstanding_tokens_witness :
  registry_wf (book retained_books) ∧
  Z.of_nat (multiplicity (ReferenceKind.Handle, event_id, DW_OBJECT_TYPE_EVENT)
              (tokens retained_books)) =
    held_in (object_at (book retained_books) event_id) ReferenceKind.Handle DW_OBJECT_TYPE_EVENT.
Proof.
  destruct (registry_counts_outstanding_tokens 1 2 _ retained_books_reachable) as (H1 & H2 & _).
  split; [exact H1|apply H2].
Defined.

(** C16. On a registry whose counts are in order, no call with an outstanding
    token panics; a release never fails, and is final exactly when the token
    was the last of its object; a retain or a transition fails only when the
    32-bit count it would raise is full, and then changes nothing; a
    finalization never fails. *)
Theorem registry_serves_its_holders r refs fs k k' id ty :
  ledger r refs fs → (k, id, ty) ∈ refs →
  (∃ r' o, release_reference id ty k r = Ret r' o ∧
     (o = None ↔ ∃ k'' ty', (k'', id, ty') ∈ refs ∖ {[+ (k, id, ty) +]}) ∧
     (∀ f, o = Some f → f = {| final_id := id; final_type := ty |} ∧
        ∃ r'', complete_finalization_inner f r' = Ret r'' tt)) ∧
  ((∃ r', retain_reference id ty k k' r = Ret r' tt) ∨
     retain_reference id ty k k' r = Fail r ObjectRegistryError.ReferenceCountExhausted ∧
     Z.of_nat (multiplicity (k', id, ty) refs) = 2 ^ 32 - 1) ∧
  ((∃ r', transition_reference id ty k (other_kind k) r = Ret r' tt) ∨
     transition_reference id ty k (other_kind k) r =
       Fail r ObjectRegistryError.ReferenceCountExhausted ∧
     Z.of_nat (multiplicity (other_kind k, id, ty) refs) = 2 ^ 32 - 1).
Proof.
  intros Hl Hin. split_and!.
  - pose proof (contract_release _ _ _ _ _ _ Hl Hin) as Hw. unfold wp in Hw.
    destruct (release_reference id ty k r) as [r' o| |]; [|done..].
    exists r', o. split; [done|]. destruct o as [f|]; simpl in Hw.
    + destruct Hw as (-> & Hun & Hl'). split.
      * split; [done|]. intros (k'' & ty' & Hin'). by destruct (Hun k'' ty').
      * intros f [= <-]. split; [done|].
        pose proof (contract_finalize _ _ _ {| final_id := id; final_type := ty |} Hl'
          ltac:(multiset_solver)) as Hf.
        unfold wp in Hf. destruct (complete_finalization_inner _ r') as [r'' []| |]; [|done..].
        by exists r''.
    + destruct Hw as [Hun _]. split; [|done]. split; [|done]. intros _.
      destruct (decide (Exists (λ tok : Token, tok.1.2 = id)
        (elements (refs ∖ {[+ (k, id, ty) +]})))) as [Hex|Hno].
      * apply list.Exists_exists in Hex as ([[k'' id'] ty'] & Hin' & Heq).
        apply gmultiset_elem_of_elements in Hin'. simpl in Heq. subst id'. eauto.
      * destruct Hun. intros k'' ty' Hin'. apply Hno, list.Exists_exists.
        exists (k'', id, ty'). by rewrite gmultiset_elem_of_elements.
  - pose proof (contract_retain _ _ _ _ k' _ _ Hl Hin) as Hw. unfold wp in Hw.
    destruct (retain_reference id ty k k' r) as [r' []|r' e|]; [by eauto| |done].
    destruct Hw as (-> & -> & Hex). eauto.
  - pose proof (contract_transition _ _ _ _ _ _ Hl Hin) as Hw. unfold wp in Hw.
    destruct (transition_reference id ty k (other_kind k) r) as [r' []|r' e|]; [by eauto| |done].
    destruct Hw as (-> & -> & Hex). eauto.
Qed.

Lemma registry_serves_its_holders_witness :
  ∃ r' o, release_reference event_id DW_OBJECT_TYPE_EVENT ReferenceKind.Handle
            (book retained_books) = Ret r' o.
Proof.
  destruct (registry_serves_its_holders (book retained_books) (tokens retained_books) ∅
    ReferenceKind.Handle ReferenceKind.Handle event_id DW_OBJECT_TYPE_EVENT)
    as ((r' & o & Hr & _) & _).
  - exact (honest_run_ledger (fresh_books 1 2) _ (fresh_ledger 1 2) retained_books_reachable).
  - simpl. multiset_solver.
  - exists r', o. exact Hr.
Defined.

(** Creation fails only for a type that names no object, or when every
    slot is taken or out of generations, and then no reference changes; else the
    new object has exactly one reference, its creation token, and an identity
    that no outstanding token or final release names. *)
Theorem create_yields_a_fresh_identity r refs fs ty :
  ledger r refs fs →
  (∃ r' c, create ty r = Ret r' c ∧ creation_type c = ty ∧
     (∀ k ty', (k, creation_id c, ty') ∉ refs) ∧
     (∀ f, f ∈ fs → final_id f ≠ creation_id c) ∧
     ledger r' (refs ⊎ {[+ (ReferenceKind.Internal, creation_id c, ty) +]}) fs) ∨
  (∃ r', create ty r = Fail r' ObjectRegistryError.InvalidObjectType ∧
     dw_object_compatible_rights ty = 0 ∧ r' = r) ∨
  (∃ r', create ty r = Fail r' ObjectRegistryError.Capacity ∧ ledger r' refs fs ∧
     ∀ i s, slots r !! i = Some s →
       state s ≠ SlotState.Vacant ∨ 2 ^ 32 ≤ Z.of_nat i + 1).
Proof.
  intros Hl. pose proof (create_ledger _ _ _ ty Hl) as Hw. unfold wp in Hw.
  destruct (create ty r) as [r' c|r' e|]; [| |done].
  - left. exists r', c. destruct Hw as (<- & Hun & Hf & _ & Hl'). done.
  - right. destruct Hw as (Hl' & _ & [(-> & Hty & ->)|(-> & _ & Hno)]); [left|right].
    + by exists r.
    + exists r'. split_and!; [done|done|]. intros i s Hs. pose proof (Hno i s Hs) as Hus.
      unfold usable in Hus. destruct (decide (Z.of_nat i + 1 < 2 ^ 32)); [left|right; lia].
      tauto.
Qed.

Lemma create_yields_a_fresh_identity_witness :
  ∃ r' c, create DW_OBJECT_TYPE_EVENT (fresh_registry 1 2) = Ret r' c ∧
    ledger r' (∅ ⊎ {[+ (ReferenceKind.Internal, creation_id c, DW_OBJECT_TYPE_EVENT) +]}) ∅.
Proof.
  destruct (create_yields_a_fresh_identity (fresh_registry 1 2) ∅ ∅ DW_OBJECT_TYPE_EVENT
    (fresh_ledger 1 2)) as [(r' & c & Hc & _ & _ & _ & Hl)|[(r' & Hc & _)|(r' & Hc & _)]].
  - exists r', c. split; [exact Hc|exact Hl].
  - discriminate Hc.
  - discriminate Hc.
Defined.

(** An object identity packs its slot and generation without loss: every
    encoded pair decodes to itself, every 64-bit value that decodes is the
    encoding of what it decodes to, and a pair is encodable exactly when its
    generation is not zero and its slot number fits 32 bits. *)
Theorem object_id_roundtrip i g raw :
  is_uint 32 g → is_uint 64 raw →
  (encode_object_id i g = Some raw ↔ decode_object_id raw = Some (i, g)) ∧
  (is_Some (encode_object_id i g) ↔ g ≠ 0 ∧ Z.of_nat i + 1 < 2 ^ 32).
Proof.
  intros Hg Hr. split.
  - split; [by apply decode_encode_object_id|by apply encode_decode_object_id].
  - split.
    + intros [raw' Henc]. apply encode_object_id_Some in Henc; tauto.
    + intros [Hz Hi]. eexists. by apply encode_object_id_Some.
Qed.

Lemma object_id_roundtrip_witness :
  decode_object_id (5 * 2 ^ 32 + 4) = Some (3%nat, 5).
Proof.
  apply (object_id_roundtrip 3 5 (5 * 2 ^ 32 + 4)).
  - by unfold is_uint.
  - by unfold is_uint.
  - reflexivity.
Defined.
