(* ===== verification/HandleTable.v ===== *)
(** * The caller-local handle table

    Models [kernel/src/handle/table.rs].  A table is an array of slots, each
    with a generation, at most one live entry (an object reference with the
    rights it confers) and at most one reservation (a permit held by a
    cross-subsystem transaction).  A [DwHandle] packs a slot number and the
    slot's generation.  A method on [&mut self] is a computation over
    [HandleTable.t]; one that also takes the object registry runs over the
    pair of both.  An owned guard ([PreparedHandleMove], ...) is a record whose
    [&mut self] methods return the guard they leave behind; a guard that
    borrows the table for its whole life is a list of its entries, and its
    methods run on the table.  A bounded array [[Option<T>; N]] filled from
    the front together with its length is a list. *)

From stdpp Require Import base tactics numbers list.
From Stdlib Require Import ZArith Lia.
From S2P Require Import Prelude Abi Object.
Local Open Scope Z_scope.

Module HandleTableError.
Inductive t : Type :=
| InvalidHandle
| InvalidRights
| WrongObjectType
| AccessDenied
| Capacity
| ReferenceCapacity.
End HandleTableError.

Module HandleReservationError.
Inductive t : Type :=
| ForeignTable
| StalePermit
| Conflict.
End HandleReservationError.

Module AcceptedObjectTypes.
Inductive t : Type :=
| Any
| One (expected : DwObjectType)
| Set_ (expected : list DwObjectType).

Definition accepts (self : t) (object_type : DwObjectType) : bool :=
  match self with
  | Any => true
  | One expected => expected =? object_type
  | Set_ expected => bool_decide (object_type ∈ expected)
  end.
End AcceptedObjectTypes.

Record BasicHandleInfo : Type := { basic_object_type : DwObjectType; basic_rights : DwRights }.

Record HandleEntry : Type := { entry_reference : HandleRef; entry_rights : DwRights }.

Module SlotReservationKind.
Inductive t : Type :=
| MovePrepared
| MoveExtracted
| Destination.

Global Instance t_eq_dec : EqDecision t.
Proof. solve_decision. Defined.
End SlotReservationKind.

Record SlotReservation : Type := {
  reserved_permit : Z;
  reserved_kind : SlotReservationKind.t;
}.

Global Instance SlotReservation_eq_dec : EqDecision SlotReservation.
Proof. solve_decision. Defined.

Record HandleSlot : Type := {
  slot_generation : Z;
  slot_retired : bool;
  slot_entry : option HandleEntry;
  slot_reservation : option SlotReservation;
}.

Record Reservation : Type := {
  res_slot : nat;
  res_prior_generation : Z;
  res_generation : Z;
  res_handle : DwHandle;
  res_permit : Z;
}.

Definition HANDLE_TRANSFER_LIMIT : nat := Z.to_nat DW_CHANNEL_MAX_HANDLES.

Record HandleMoveRequest : Type := { req_handle : DwHandle; req_requested_rights : DwRights }.

Record PreparedMoveEntry : Type := {
  prep_slot : nat;
  prep_handle : DwHandle;
  prep_object : ObjectId;
  prep_object_type : DwObjectType;
  prep_source_rights : DwRights;
  prep_requested_rights : DwRights;
  prep_permit : Z;
}.

Module HandleMovePrepareError.
Inductive t : Type :=
| DuplicateSource
| Table (error : HandleTableError.t).
End HandleMovePrepareError.

Record HandleTransferToken : Type := {
  token_reference : HandleRef;
  token_source_rights : DwRights;
  token_requested_rights : DwRights;
}.

Record PublishedHandleInfo : Type := {
  published_handle : DwHandle;
  published_rights : DwRights;
  published_object_type : DwObjectType;
}.

Record HandleReservationSpec : Type := {
  spec_object_type : DwObjectType;
  spec_rights : DwRights;
}.

Record DrainWindow : Type := { window_written : nat; window_resume : nat; window_done : bool }.

Record DrainResult : Type := {
  final_releases : list (option FinalRelease);
  final_release_count : nat;
}.

Definition next_generation (generation : Z) : option Z := next_nonzero 32 generation.

Definition encode_handle (slot : nat) (generation : Z) : option DwHandle :=
  slot ← checked_add 64 (Z.of_nat slot) 1;
  slot ← try_from 32 slot;
  if negb (generation =? 0) then Some (Z.lor (Z.shiftl generation 32) slot) else None.

Definition decode_handle (handle : DwHandle) : option (nat * Z) :=
  let generation := truncate 32 (Z.shiftr handle 32) in
  slot ← try_from 32 (Z.land handle (2 ^ 32 - 1));
  slot ← checked_sub slot 1;
  if negb (generation =? 0) then Some (Z.to_nat slot, generation) else None.

(** [(handle.0 >> 32) as u32] *)
Definition handle_generation (handle : DwHandle) : Z := truncate 32 (Z.shiftr handle 32).

Definition rights_error (error : RightsValidationError.t) : HandleTableError.t :=
  match error with
  | RightsValidationError.Zero
  | RightsValidationError.Unknown
  | RightsValidationError.Incompatible => HandleTableError.InvalidRights
  | RightsValidationError.Missing
  | RightsValidationError.Escalation => HandleTableError.AccessDenied
  end.

(** [None] is the panic on a broken table/registry invariant. *)
Definition retain_error (error : ObjectRegistryError.t) : option HandleTableError.t :=
  match error with
  | ObjectRegistryError.ReferenceCountExhausted => Some HandleTableError.ReferenceCapacity
  | _ => None
  end.

(** [check.map_err(rights_error)?] *)
Definition check_rights {S} (r : Result unit RightsValidationError.t)
    : M S HandleTableError.t unit :=
  map_err rights_error (lift r).

(** The static [NEXT_HANDLE_TABLE_DOMAIN] is the state. *)
Definition mint_handle_table_domain {E} : M Z E Z :=
  domain ← get;
  next ← expect (next_nonzero 64 domain);
  put next;;
  mret domain.

Module ResolvedHandle.

Record t : Type := { reference : InternalRef; rights : DwRights }.

Definition object_type (self : t) : DwObjectType := internal_type (reference self).
Definition object_id (self : t) : ObjectId := internal_id (reference self).
Definition into_internal (self : t) : InternalRef := reference self.

Definition retain (self : t) : M ObjectRegistry.t HandleTableError.t t :=
  reference' ← map_err_or_panic retain_error (ObjectRegistry.retain_internal (reference self));
  mret {| reference := reference'; rights := rights self |}.

Definition basic_info (self : t) : BasicHandleInfo :=
  {| basic_object_type := internal_type (reference self); basic_rights := rights self |}.

Definition from_kernel_reference (reference : HandleRef) (rights : DwRights)
    : M ObjectRegistry.t HandleTableError.t t :=
  check_rights (validate_requested_syntax rights);;
  check_rights (validate_compatible (handle_type reference) rights);;
  reference' ← map_err_or_panic retain_error
    (ObjectRegistry.retain_internal_from_handle reference);
  mret {| reference := reference'; rights := rights |}.

End ResolvedHandle.

Record HandlePairReservation : Type := {
  pair_domain : Z;
  pair_object_type : DwObjectType;
  pair_rights : DwRights;
  pair_first : Reservation;
  pair_second : Reservation;
  pair_completed : bool;
}.

Record PreparedHandleMove : Type := {
  move_domain : Z;
  move_entry : PreparedMoveEntry;
  move_completed : bool;
}.

Record PreparedHandleMoveRollback : Type := {
  rollback_domain : Z;
  rollback_entry : PreparedMoveEntry;
  rollback_completed : bool;
}.

Record HandleTransferReservation : Type := {
  transfer_domain : Z;
  transfer_reservation : Reservation;
  transfer_completed : bool;
}.

Record TypedHandlePairReservation : Type := {
  typed_domain : Z;
  typed_specs : HandleReservationSpec * HandleReservationSpec;
  typed_reservations : Reservation * Reservation;
  typed_completed : bool;
}.

(** The guards that borrow the table, by their filled entries. *)
Definition PreparedHandleMoveBatch : Type := list PreparedMoveEntry.
Definition HandleMoveRollback : Type := list PreparedMoveEntry.
Definition HandleTransferBatch : Type := list HandleTransferToken.
Definition HandleBatchReservation : Type := list Reservation.

Module HandleTable.

Record t : Type := {
  domain : Z;
  slots : list HandleSlot;
  live_count : Z;
  next_permit : Z;
}.

Definition EMPTY_SLOT : HandleSlot :=
  {| slot_generation := 0; slot_retired := false;
     slot_entry := None; slot_reservation := None |}.

Definition new (capacity : nat) {E} : M Z E t :=
  domain ← mint_handle_table_domain;
  mret {| domain := domain; slots := replicate capacity EMPTY_SLOT;
          live_count := 0; next_permit := 1 |}.

Definition len (self : t) : Z := live_count self.
Definition is_empty (self : t) : bool := live_count self =? 0.

(** ** Field access: [self.slots[slot].f], [self.slots[slot].f = ..] and the
    checked updates of [live_count] *)

Definition slot_at {E} (slot : nat) : M t E HandleSlot :=
  self ← get;
  expect (slots self !! slot).

Definition with_slot (slot : nat) (s : HandleSlot) (self : t) : t :=
  {| domain := domain self; slots := <[slot := s]> (slots self);
     live_count := live_count self; next_permit := next_permit self |}.

Definition set_entry (entry : option HandleEntry) (s : HandleSlot) : HandleSlot :=
  {| slot_generation := slot_generation s; slot_retired := slot_retired s;
     slot_entry := entry; slot_reservation := slot_reservation s |}.
Definition set_reservation (reservation : option SlotReservation) (s : HandleSlot) : HandleSlot :=
  {| slot_generation := slot_generation s; slot_retired := slot_retired s;
     slot_entry := slot_entry s; slot_reservation := reservation |}.
Definition set_retired (s : HandleSlot) : HandleSlot :=
  {| slot_generation := slot_generation s; slot_retired := true;
     slot_entry := slot_entry s; slot_reservation := slot_reservation s |}.
Definition set_generation (generation : Z) (s : HandleSlot) : HandleSlot :=
  {| slot_generation := generation; slot_retired := slot_retired s;
     slot_entry := slot_entry s; slot_reservation := slot_reservation s |}.

Definition update_slot {E} (slot : nat) (f : HandleSlot → HandleSlot) : M t E unit :=
  s ← slot_at slot;
  modify (with_slot slot (f s)).

Definition set_live_count {E} (n : option Z) : M t E unit :=
  n ← expect n;
  modify (λ self, {| domain := domain self; slots := slots self;
                     live_count := n; next_permit := next_permit self |}).

Definition live_count_sub {E} : M t E unit :=
  self ← get;
  set_live_count (checked_sub (live_count self) 1).

Definition live_count_add {E} : M t E unit :=
  self ← get;
  set_live_count (checked_add 64 (live_count self) 1).

(** [self.slots[slot].entry.take().expect(..)] *)
Definition take_entry {E} (slot : nat) : M t E HandleEntry :=
  s ← slot_at slot;
  entry ← expect (slot_entry s);
  update_slot slot (set_entry None);;
  mret entry.

(** [if next_generation(self.slots[slot].generation).is_none() { ..retired = true }] *)
Definition retire_if_exhausted (s : HandleSlot) : HandleSlot :=
  match next_generation (slot_generation s) with
  | None => set_retired s
  | Some _ => s
  end.

(** ** Resolution *)

Definition resolve_slot (self : t) (handle : DwHandle) : Result nat HandleTableError.t :=
  if handle =? DW_HANDLE_INVALID then Err HandleTableError.InvalidHandle
  else
    match decode_handle handle with
    | None => Err HandleTableError.InvalidHandle
    | Some (slot, generation) =>
        match slots self !! slot with
        | None => Err HandleTableError.InvalidHandle
        | Some entry =>
            if slot_retired entry || negb (slot_generation entry =? generation)
               || bool_decide (slot_entry entry = None)
            then Err HandleTableError.InvalidHandle
            else Ok slot
        end
    end.

(** [self.slots[slot].entry.as_ref().expect(..)] *)
Definition live_entry {S E} (self : t) (slot : nat) : M S E HandleEntry :=
  s ← expect (slots self !! slot);
  expect (slot_entry s).

Definition resolve_entry {S} (self : t) (handle : DwHandle) : M S HandleTableError.t HandleEntry :=
  slot ← lift (resolve_slot self handle);
  live_entry self slot.

Definition resolve_mutation_slot (handle : DwHandle) : M t HandleTableError.t nat :=
  self ← get;
  slot ← lift (resolve_slot self handle);
  s ← slot_at slot;
  match slot_reservation s with
  | Some _ => fail HandleTableError.AccessDenied
  | None => mret slot
  end.

(** ** Reservations *)

Definition mint_permit {E} : M t E Z :=
  self ← get;
  next ← expect (next_nonzero 64 (next_permit self));
  put {| domain := domain self; slots := slots self;
         live_count := live_count self; next_permit := next |};;
  mret (next_permit self).

(** The body of the scan for a free slot. *)
Definition reserve_candidate (excluded : option nat) (kind : SlotReservationKind.t)
    (retire_exhausted : bool) (slot : nat) : M t HandleTableError.t (flow unit Reservation) :=
  let retire : M t HandleTableError.t (flow unit Reservation) :=
    (if retire_exhausted then update_slot slot set_retired else mret tt);;
    mret (Continue tt) in
  s ← slot_at slot;
  if bool_decide (excluded = Some slot) || slot_retired s
     || negb (bool_decide (slot_entry s = None))
     || negb (bool_decide (slot_reservation s = None))
  then mret (Continue tt)
  else
    let prior_generation := slot_generation s in
    match next_generation prior_generation with
    | None => retire
    | Some generation =>
        match encode_handle slot generation with
        | None => retire
        | Some handle =>
            permit ← mint_permit;
            update_slot slot (set_reservation
              (Some {| reserved_permit := permit; reserved_kind := kind |}));;
            mret (Break {| res_slot := slot; res_prior_generation := prior_generation;
                           res_generation := generation; res_handle := handle;
                           res_permit := permit |})
        end
    end.

Definition reserve_slot_with_kind (excluded : option nat) (kind : SlotReservationKind.t)
    (retire_exhausted : bool) : M t HandleTableError.t Reservation :=
  self ← get;
  found ← loop (seq 0 (length (slots self)))
    (λ slot _, reserve_candidate excluded kind retire_exhausted slot) tt;
  match found with
  | Break reservation => mret reservation
  | Continue _ => fail HandleTableError.Capacity
  end.

Definition reserve_slot_unpublished (excluded : option nat)
    : M t HandleTableError.t Reservation :=
  reserve_slot_with_kind excluded SlotReservationKind.Destination false.

Definition reserve_slot_excluding (excluded : option nat)
    : M t HandleTableError.t Reservation :=
  reserve_slot_with_kind excluded SlotReservationKind.Destination true.

Definition reserve_slot : M t HandleTableError.t Reservation := reserve_slot_excluding None.

Definition reserve_live_slot (slot : nat) (kind : SlotReservationKind.t)
    : M t HandleTableError.t Z :=
  s ← slot_at slot;
  match slot_reservation s with
  | Some _ => fail HandleTableError.AccessDenied
  | None =>
      permit ← mint_permit;
      update_slot slot (set_reservation
        (Some {| reserved_permit := permit; reserved_kind := kind |}));;
      mret permit
  end.

Definition validate_reservation (reservation : Reservation)
    (expected_kind : SlotReservationKind.t) : M t HandleReservationError.t unit :=
  slot ← slot_at (res_slot reservation);
  if negb (bool_decide (slot_reservation slot =
       Some {| reserved_permit := res_permit reservation; reserved_kind := expected_kind |}))
  then fail HandleReservationError.StalePermit
  else if slot_retired slot || negb (bool_decide (slot_entry slot = None))
          || negb (slot_generation slot =? res_prior_generation reservation)
  then fail HandleReservationError.Conflict
  else mret tt.

Definition release_reservation (reservation : Reservation)
    (expected_kind : SlotReservationKind.t) : M t HandleReservationError.t unit :=
  validate_reservation reservation expected_kind;;
  update_slot (res_slot reservation) (set_reservation None).

Definition publish (reservation : Reservation) (entry : HandleEntry)
    : M t (HandleReservationError.t * HandleEntry) unit :=
  map_err (λ error, (error, entry))
    (validate_reservation reservation SlotReservationKind.Destination);;
  update_slot (res_slot reservation) (λ slot,
    set_reservation None (set_entry (Some entry)
      (set_generation (res_generation reservation) slot)));;
  live_count_add.

Definition validate_prepared_move (prepared : PreparedMoveEntry)
    (expected_kind : SlotReservationKind.t) (source_must_be_live : bool)
    : M t HandleReservationError.t unit :=
  self ← get;
  match slots self !! prep_slot prepared with
  | None => fail HandleReservationError.StalePermit
  | Some slot =>
      if negb (bool_decide (slot_reservation slot =
           Some {| reserved_permit := prep_permit prepared; reserved_kind := expected_kind |}))
      then fail HandleReservationError.StalePermit
      else if slot_retired slot
              || negb (slot_generation slot =? handle_generation (prep_handle prepared))
      then fail HandleReservationError.Conflict
      else
        match source_must_be_live, slot_entry slot with
        | true, Some entry =>
            if bool_decide (handle_id (entry_reference entry) = prep_object prepared)
               && (handle_type (entry_reference entry) =? prep_object_type prepared)
               && (entry_rights entry =? prep_source_rights prepared)
            then mret tt else fail HandleReservationError.Conflict
        | false, None => mret tt
        | _, _ => fail HandleReservationError.Conflict
        end
  end.

(** ** Moves *)

(** The checks [prepare_move_batch] and [prepare_move] make of a source. *)
Definition validate_move {S} (object_type : DwObjectType) (source_rights : DwRights)
    (requested_rights : DwRights) : M S HandleTableError.t unit :=
  check_rights (require_held source_rights DW_RIGHT_TRANSFER);;
  check_rights (validate_requested_syntax requested_rights);;
  check_rights (validate_compatible object_type requested_rights);;
  check_rights (require_subset source_rights requested_rights).

Definition prepared_entry (slot : nat) (request : HandleMoveRequest) (entry : HandleEntry)
    (permit : Z) : PreparedMoveEntry :=
  {| prep_slot := slot;
     prep_handle := req_handle request;
     prep_object := handle_id (entry_reference entry);
     prep_object_type := handle_type (entry_reference entry);
     prep_source_rights := entry_rights entry;
     prep_requested_rights := req_requested_rights request;
     prep_permit := permit |}.

(** The nested loop over [left < right]. *)
Fixpoint has_duplicate_source (requests : list HandleMoveRequest) : bool :=
  match requests with
  | [] => false
  | request :: rest =>
      existsb (λ other, req_handle request =? req_handle other) rest
      || has_duplicate_source rest
  end.

Definition prepare_move_batch (requests : list HandleMoveRequest)
    : M t HandleMovePrepareError.t PreparedHandleMoveBatch :=
  assert_that (bool_decide (length requests ≤ HANDLE_TRANSFER_LIMIT)%nat);;
  if has_duplicate_source requests then fail HandleMovePrepareError.DuplicateSource
  else
    for_each requests (λ request entries,
      self ← get;
      prepared ← map_err HandleMovePrepareError.Table (
        slot ← lift (resolve_slot self (req_handle request));
        entry ← live_entry self slot;
        validate_move (handle_type (entry_reference entry)) (entry_rights entry)
          (req_requested_rights request);;
        mret (prepared_entry slot request entry 0));
      mret (entries ++ [prepared])) [].

Definition prepare_move (request : HandleMoveRequest)
    : M t HandleMovePrepareError.t PreparedHandleMove :=
  map_err HandleMovePrepareError.Table (
    self ← get;
    slot ← lift (resolve_slot self (req_handle request));
    entry ← live_entry self slot;
    validate_move (handle_type (entry_reference entry)) (entry_rights entry)
      (req_requested_rights request);;
    permit ← reserve_live_slot slot SlotReservationKind.MovePrepared;
    mret {| move_domain := domain self;
            move_entry := prepared_entry slot request entry permit;
            move_completed := false |}).

Definition reserve_transfer_batch (count : nat)
    : M t HandleTableError.t HandleBatchReservation :=
  assert_that (bool_decide (count ≤ HANDLE_TRANSFER_LIMIT)%nat);;
  for_each (seq 0 count) (λ _ reservations,
    r ← try (reserve_slot_excluding None);
    match r with
    | Ok reservation => mret (reservations ++ [reservation])
    | Err error =>
        for_each reservations (λ reservation _,
          unwrap (release_reservation reservation SlotReservationKind.Destination)) tt;;
        fail error
    end) [].

Definition reserve_transfer_destination : M t HandleTableError.t HandleTransferReservation :=
  reservation ← reserve_slot_unpublished None;
  self ← get;
  mret {| transfer_domain := domain self; transfer_reservation := reservation;
          transfer_completed := false |}.

(** The two slots of [reserve_pair] and of [reserve_typed_pair]: when the
    second cannot be reserved the first is given back. *)
Definition reserve_two (reserve : option nat → M t HandleTableError.t Reservation)
    : M t HandleTableError.t (Reservation * Reservation) :=
  first ← reserve None;
  r ← try (reserve (Some (res_slot first)));
  match r with
  | Ok second => mret (first, second)
  | Err error =>
      unwrap (release_reservation first SlotReservationKind.Destination);;
      fail error
  end.

Definition reserve_typed_pair (specs : HandleReservationSpec * HandleReservationSpec)
    : M t HandleTableError.t TypedHandlePairReservation :=
  let check_spec (spec : HandleReservationSpec) : M t HandleTableError.t unit :=
    check_rights (validate_requested_syntax (spec_rights spec));;
    check_rights (validate_compatible (spec_object_type spec) (spec_rights spec)) in
  check_spec specs.1;;
  check_spec specs.2;;
  reservations ← reserve_two reserve_slot_unpublished;
  self ← get;
  mret {| typed_domain := domain self; typed_specs := specs;
          typed_reservations := reservations; typed_completed := false |}.

Definition reserve_pair (object_type : DwObjectType) (rights : DwRights)
    : M t HandleTableError.t HandlePairReservation :=
  check_rights (validate_requested_syntax rights);;
  check_rights (validate_compatible object_type rights);;
  reservations ← reserve_two reserve_slot_excluding;
  self ← get;
  mret {| pair_domain := domain self; pair_object_type := object_type; pair_rights := rights;
          pair_first := reservations.1; pair_second := reservations.2;
          pair_completed := false |}.

Definition complete_pair (reservation : HandlePairReservation) : HandlePairReservation :=
  {| pair_domain := pair_domain reservation; pair_object_type := pair_object_type reservation;
     pair_rights := pair_rights reservation; pair_first := pair_first reservation;
     pair_second := pair_second reservation; pair_completed := true |}.

Definition try_publish_reserved_pair (reservation : HandlePairReservation)
    (first second : HandleRef)
    : M t (HandleReservationError.t * (HandleRef * HandleRef))
        (HandlePairReservation * (DwHandle * DwHandle)) :=
  let references := (first, second) in
  self ← get;
  if negb (pair_domain reservation =? domain self)
  then fail (HandleReservationError.ForeignTable, references)
  else if negb (handle_type first =? pair_object_type reservation)
          || negb (handle_type second =? pair_object_type reservation)
  then fail (HandleReservationError.Conflict, references)
  else
    map_err (λ error, (error, references)) (
      validate_reservation (pair_first reservation) SlotReservationKind.Destination;;
      validate_reservation (pair_second reservation) SlotReservationKind.Destination);;
    unwrap (publish (pair_first reservation)
      {| entry_reference := first; entry_rights := pair_rights reservation |});;
    unwrap (publish (pair_second reservation)
      {| entry_reference := second; entry_rights := pair_rights reservation |});;
    mret (complete_pair reservation,
          (res_handle (pair_first reservation), res_handle (pair_second reservation))).

(** ** Entries *)

Definition install (reference : HandleRef) (rights : DwRights)
    : M t (HandleTableError.t * HandleRef) DwHandle :=
  match and_then (validate_requested_syntax rights)
          (validate_compatible (handle_type reference) rights) with
  | Err error => fail (rights_error error, reference)
  | Ok _ =>
      reservation ← map_err (λ error, (error, reference)) reserve_slot;
      unwrap (publish reservation {| entry_reference := reference; entry_rights := rights |});;
      mret (res_handle reservation)
  end.

(** The checks of [lookup] and of [inspect_object_id]. *)
Definition checked_entry {S} (self : t) (handle : DwHandle) (accepted : AcceptedObjectTypes.t)
    (required_rights : DwRights) : M S HandleTableError.t HandleEntry :=
  check_rights (validate_required_syntax required_rights);;
  entry ← resolve_entry self handle;
  let object_type := handle_type (entry_reference entry) in
  if negb (AcceptedObjectTypes.accepts accepted object_type)
  then fail HandleTableError.WrongObjectType
  else
    check_rights (validate_compatible object_type required_rights);;
    check_rights (require_held (entry_rights entry) required_rights);;
    mret entry.

Definition lookup (self : t) (handle : DwHandle) (accepted : AcceptedObjectTypes.t)
    (required_rights : DwRights) : M ObjectRegistry.t HandleTableError.t ResolvedHandle.t :=
  entry ← checked_entry self handle accepted required_rights;
  reference ← map_err_or_panic retain_error
    (ObjectRegistry.retain_internal_from_handle (entry_reference entry));
  mret {| ResolvedHandle.reference := reference; ResolvedHandle.rights := entry_rights entry |}.

Definition inspect_object_id {S} (self : t) (handle : DwHandle)
    (accepted : AcceptedObjectTypes.t) (required_rights : DwRights)
    : M S HandleTableError.t ObjectId :=
  entry ← checked_entry self handle accepted required_rights;
  mret (handle_id (entry_reference entry)).

Definition inspect_basic {S} (self : t) (handle : DwHandle)
    : M S HandleTableError.t BasicHandleInfo :=
  entry ← resolve_entry self handle;
  check_rights (require_held (entry_rights entry) DW_RIGHT_INSPECT);;
  mret {| basic_object_type := handle_type (entry_reference entry);
          basic_rights := entry_rights entry |}.

(** [take] of a live entry, the count and the retirement, as [close] and
    [drain_window] perform them. *)
Definition remove_entry {E} (slot : nat) : M t E HandleEntry :=
  entry ← take_entry slot;
  live_count_sub;;
  update_slot slot retire_if_exhausted;;
  mret entry.

Definition close (handle : DwHandle)
    : M (t * ObjectRegistry.t) HandleTableError.t (option FinalRelease) :=
  slot ← on_fst (resolve_mutation_slot handle);
  entry ← on_fst (remove_entry slot);
  on_snd (unwrap (ObjectRegistry.release_handle (entry_reference entry))).

Definition duplicate (source : DwHandle) (requested_rights : DwRights)
    : M (t * ObjectRegistry.t) HandleTableError.t DwHandle :=
  check_rights (validate_requested_syntax requested_rights);;
  source_slot ← on_fst (resolve_mutation_slot source);
  self ← on_fst get;
  entry ← live_entry self source_slot;
  check_rights (validate_compatible (handle_type (entry_reference entry)) requested_rights);;
  check_rights (require_held (entry_rights entry) DW_RIGHT_DUPLICATE);;
  check_rights (require_subset (entry_rights entry) requested_rights);;
  reservation ← on_fst reserve_slot;
  self ← on_fst get;
  entry ← live_entry self source_slot;
  retained ← on_snd (map_err_or_panic retain_error
    (ObjectRegistry.retain_handle (entry_reference entry)));
  on_fst (unwrap (publish reservation
    {| entry_reference := retained; entry_rights := requested_rights |}));;
  mret (res_handle reservation).

(** [out] is the caller's window; the step's locals are [written] and the
    window filled so far. *)
Definition drain_window {E} (from : nat) (out : list (option FinalRelease))
    : M (t * ObjectRegistry.t) E (DrainWindow * list (option FinalRelease)) :=
  assert_that (negb (bool_decide (out = [])));;
  self ← on_fst get;
  let capacity := length (slots self) in
  r ← loop (seq from (capacity - from)) (λ slot '(written, out),
    if (written =? length out)%nat then
      mret (Break ({| window_written := written; window_resume := slot;
                      window_done := false |}, out))
    else
      s ← on_fst (slot_at slot);
      match slot_reservation s, slot_entry s with
      | Some _, _ => mret (Continue (written, out))
      | None, None => mret (Continue (written, out))
      | None, Some _ =>
          entry ← on_fst (remove_entry slot);
          final ← on_snd (unwrap (ObjectRegistry.release_handle (entry_reference entry)));
          match final with
          | Some final_release =>
              mret (Continue (S written, <[written := Some final_release]> out))
          | None => mret (Continue (written, out))
          end
      end) (O, out);
  match r with
  | Break w => mret w
  | Continue (written, out) =>
      mret ({| window_written := written; window_resume := capacity; window_done := true |}, out)
  end.

Definition drain {E} : M (t * ObjectRegistry.t) E DrainResult :=
  self ← on_fst get;
  '(window, releases) ← drain_window 0 (replicate (length (slots self)) None);
  assert_that (window_done window);;
  mret {| final_releases := releases; final_release_count := window_written window |}.

(** [Drop]: the table is dropped without a panic. *)
Definition may_drop (self : t) : bool :=
  (live_count self =? 0)
  && forallb (λ slot, bool_decide (slot_entry slot = None)
                      && bool_decide (slot_reservation slot = None)) (slots self).

End HandleTable.

(** ** The guards *)

Definition foreign_or {A} (guard_domain : Z) (m : M HandleTable.t HandleReservationError.t A)
    : M HandleTable.t HandleReservationError.t A :=
  table ← get;
  if negb (guard_domain =? HandleTable.domain table)
  then fail HandleReservationError.ForeignTable
  else m.

Definition contains_object (self : PreparedHandleMoveBatch) (object : ObjectId) : bool :=
  existsb (λ entry, bool_decide (prep_object entry = object)) self.

Definition prepared_objects_of_type (self : PreparedHandleMoveBatch) (object_type : DwObjectType)
    : list ObjectId :=
  prep_object <$> filter (λ entry, prep_object_type entry = object_type) self.

(** [PreparedHandleMoveBatch::extract] *)
Definition extract {E} (self : PreparedHandleMoveBatch)
    : M HandleTable.t E (HandleMoveRollback * HandleTransferBatch) :=
  transfers ← for_each self (λ prepared transfers,
    table ← get;
    assert_that (match HandleTable.resolve_slot table (prep_handle prepared) with
                 | Ok slot => (slot =? prep_slot prepared)%nat
                 | Err _ => false
                 end);;
    entry ← HandleTable.take_entry (prep_slot prepared);
    assert_that (bool_decide (handle_id (entry_reference entry) = prep_object prepared));;
    assert_that (handle_type (entry_reference entry) =? prep_object_type prepared);;
    assert_that (entry_rights entry =? prep_source_rights prepared);;
    HandleTable.live_count_sub;;
    mret (transfers ++ [{| token_reference := entry_reference entry;
                           token_source_rights := entry_rights entry;
                           token_requested_rights := prep_requested_rights prepared |}])) [];
  mret (self, transfers).

Definition complete_move (self : PreparedHandleMove) : PreparedHandleMove :=
  {| move_domain := move_domain self; move_entry := move_entry self; move_completed := true |}.

(** [PreparedHandleMove::cancel] *)
Definition cancel_prepared_move (self : PreparedHandleMove)
    : M HandleTable.t HandleReservationError.t PreparedHandleMove :=
  foreign_or (move_domain self) (
    HandleTable.validate_prepared_move (move_entry self) SlotReservationKind.MovePrepared true;;
    HandleTable.update_slot (prep_slot (move_entry self)) (HandleTable.set_reservation None);;
    mret (complete_move self)).

Definition try_extract (self : PreparedHandleMove)
    : M HandleTable.t HandleReservationError.t
        (PreparedHandleMove * (PreparedHandleMoveRollback * HandleTransferToken)) :=
  foreign_or (move_domain self) (
    let entry := move_entry self in
    HandleTable.validate_prepared_move entry SlotReservationKind.MovePrepared true;;
    source ← HandleTable.take_entry (prep_slot entry);
    HandleTable.update_slot (prep_slot entry) (HandleTable.set_reservation
      (Some {| reserved_permit := prep_permit entry;
               reserved_kind := SlotReservationKind.MoveExtracted |}));;
    HandleTable.live_count_sub;;
    mret (complete_move self,
          ({| rollback_domain := move_domain self; rollback_entry := entry;
              rollback_completed := false |},
           {| token_reference := entry_reference source;
              token_source_rights := entry_rights source;
              token_requested_rights := prep_requested_rights entry |}))).

Definition complete_rollback (self : PreparedHandleMoveRollback) : PreparedHandleMoveRollback :=
  {| rollback_domain := rollback_domain self; rollback_entry := rollback_entry self;
     rollback_completed := true |}.

Definition try_finish (self : PreparedHandleMoveRollback)
    : M HandleTable.t HandleReservationError.t PreparedHandleMoveRollback :=
  foreign_or (rollback_domain self) (
    HandleTable.validate_prepared_move (rollback_entry self)
      SlotReservationKind.MoveExtracted false;;
    HandleTable.update_slot (prep_slot (rollback_entry self)) (λ slot,
      HandleTable.set_reservation None (HandleTable.retire_if_exhausted slot));;
    mret (complete_rollback self)).

(** The token is the one [try_extract] produced for this entry. *)
Definition token_matches (prepared : PreparedMoveEntry) (token : HandleTransferToken) : bool :=
  bool_decide (handle_id (token_reference token) = prep_object prepared)
  && (handle_type (token_reference token) =? prep_object_type prepared)
  && (token_source_rights token =? prep_source_rights prepared)
  && (token_requested_rights token =? prep_requested_rights prepared).

Definition try_rollback (self : PreparedHandleMoveRollback) (token : HandleTransferToken)
    : M HandleTable.t (HandleReservationError.t * HandleTransferToken)
        PreparedHandleMoveRollback :=
  map_err (λ error, (error, token)) (foreign_or (rollback_domain self) (
    if negb (token_matches (rollback_entry self) token)
    then fail HandleReservationError.Conflict
    else
      HandleTable.validate_prepared_move (rollback_entry self)
        SlotReservationKind.MoveExtracted false;;
      HandleTable.update_slot (prep_slot (rollback_entry self)) (λ slot,
        HandleTable.set_reservation None (HandleTable.set_entry
          (Some {| entry_reference := token_reference token;
                   entry_rights := token_source_rights token |}) slot));;
      HandleTable.live_count_add;;
      mret (complete_rollback self))).

(** [HandleMoveRollback::finish] *)
Definition finish {E} (self : HandleMoveRollback) : M HandleTable.t E unit :=
  for_each self (λ prepared _,
    slot ← HandleTable.slot_at (prep_slot prepared);
    assert_that (bool_decide (slot_entry slot = None)
                 && (slot_generation slot =? handle_generation (prep_handle prepared)));;
    HandleTable.update_slot (prep_slot prepared) HandleTable.retire_if_exhausted) tt.

(** [HandleMoveRollback::rollback] *)
Definition rollback {E} (self : HandleMoveRollback) (transfers : HandleTransferBatch)
    : M HandleTable.t E unit :=
  assert_that (length transfers =? length self)%nat;;
  for_each (zip self transfers) (λ '(prepared, token) _,
    assert_that (token_matches prepared token);;
    slot ← HandleTable.slot_at (prep_slot prepared);
    assert_that (negb (slot_retired slot) && bool_decide (slot_entry slot = None)
                 && (slot_generation slot =? handle_generation (prep_handle prepared)));;
    HandleTable.update_slot (prep_slot prepared) (HandleTable.set_entry
      (Some {| entry_reference := token_reference token;
               entry_rights := token_source_rights token |}));;
    HandleTable.live_count_add) tt.

Definition release_both (reservations : Reservation * Reservation)
    : M HandleTable.t HandleReservationError.t unit :=
  HandleTable.validate_reservation reservations.1 SlotReservationKind.Destination;;
  HandleTable.validate_reservation reservations.2 SlotReservationKind.Destination;;
  unwrap (HandleTable.release_reservation reservations.1 SlotReservationKind.Destination);;
  unwrap (HandleTable.release_reservation reservations.2 SlotReservationKind.Destination).

(** [HandlePairReservation::cancel] *)
Definition cancel_pair (self : HandlePairReservation)
    : M HandleTable.t HandleReservationError.t HandlePairReservation :=
  foreign_or (pair_domain self) (
    release_both (pair_first self, pair_second self);;
    mret (HandleTable.complete_pair self)).

Definition batch_objects_of_type (self : HandleTransferBatch) (object_type : DwObjectType)
    : list ObjectId :=
  (λ token, handle_id (token_reference token)) <$>
    filter (λ token, handle_type (token_reference token) = object_type) self.

(** [HandleTransferBatch::release] *)
Definition release {E} (self : HandleTransferBatch)
    : M ObjectRegistry.t E (list (option FinalRelease)) :=
  releases ← for_each self (λ token releases,
    release ← unwrap (ObjectRegistry.release_handle (token_reference token));
    mret (releases ++ [release])) [];
  mret (releases ++ replicate (HANDLE_TRANSFER_LIMIT - length self) None).

(** [HandleBatchReservation::publish] *)
Definition publish_batch {E} (self : HandleBatchReservation) (transfers : HandleTransferBatch)
    : M HandleTable.t E (list PublishedHandleInfo) :=
  assert_that (length transfers =? length self)%nat;;
  for_each (zip self transfers) (λ '(reservation, token) published,
    unwrap (HandleTable.validate_reservation reservation SlotReservationKind.Destination);;
    unwrap (HandleTable.publish reservation
      {| entry_reference := token_reference token;
         entry_rights := token_requested_rights token |});;
    mret (published ++ [{| published_handle := res_handle reservation;
                           published_rights := token_requested_rights token;
                           published_object_type := handle_type (token_reference token) |}])) [].

Definition complete_transfer (self : HandleTransferReservation) : HandleTransferReservation :=
  {| transfer_domain := transfer_domain self;
     transfer_reservation := transfer_reservation self; transfer_completed := true |}.

(** [HandleTransferReservation::cancel] *)
Definition cancel_transfer (self : HandleTransferReservation)
    : M HandleTable.t HandleReservationError.t HandleTransferReservation :=
  foreign_or (transfer_domain self) (
    HandleTable.release_reservation (transfer_reservation self) SlotReservationKind.Destination;;
    mret (complete_transfer self)).

(** The tail [try_publish_reference] and [try_publish] share. *)
Definition publish_transfer (self : HandleTransferReservation) (entry : HandleEntry)
    : M HandleTable.t HandleReservationError.t
        (HandleTransferReservation * PublishedHandleInfo) :=
  HandleTable.validate_reservation (transfer_reservation self) SlotReservationKind.Destination;;
  unwrap (HandleTable.publish (transfer_reservation self) entry);;
  mret (complete_transfer self,
        {| published_handle := res_handle (transfer_reservation self);
           published_rights := entry_rights entry;
           published_object_type := handle_type (entry_reference entry) |}).

Definition try_publish_reference (self : HandleTransferReservation) (reference : HandleRef)
    (rights : DwRights)
    : M HandleTable.t (HandleReservationError.t * HandleRef)
        (HandleTransferReservation * PublishedHandleInfo) :=
  map_err (λ error, (error, reference)) (foreign_or (transfer_domain self) (
    match and_then (validate_requested_syntax rights)
            (validate_compatible (handle_type reference) rights) with
    | Err _ => fail HandleReservationError.Conflict
    | Ok _ => publish_transfer self {| entry_reference := reference; entry_rights := rights |}
    end)).

(** [HandleTransferReservation::try_publish] *)
Definition try_publish (self : HandleTransferReservation) (token : HandleTransferToken)
    : M HandleTable.t (HandleReservationError.t * HandleTransferToken)
        (HandleTransferReservation * PublishedHandleInfo) :=
  map_err (λ error, (error, token)) (foreign_or (transfer_domain self) (
    publish_transfer self {| entry_reference := token_reference token;
                             entry_rights := token_requested_rights token |})).

Definition complete_typed (self : TypedHandlePairReservation) : TypedHandlePairReservation :=
  {| typed_domain := typed_domain self; typed_specs := typed_specs self;
     typed_reservations := typed_reservations self; typed_completed := true |}.

(** [TypedHandlePairReservation::cancel] *)
Definition cancel_typed_pair (self : TypedHandlePairReservation)
    : M HandleTable.t HandleReservationError.t TypedHandlePairReservation :=
  foreign_or (typed_domain self) (
    release_both (typed_reservations self);;
    mret (complete_typed self)).

(** [TypedHandlePairReservation::try_publish] *)
Definition try_publish_typed (self : TypedHandlePairReservation)
    (references : HandleRef * HandleRef)
    : M HandleTable.t (HandleReservationError.t * (HandleRef * HandleRef))
        (TypedHandlePairReservation * (DwHandle * DwHandle)) :=
  let check (reference : HandleRef) (spec : HandleReservationSpec) (reservation : Reservation)
      : M HandleTable.t HandleReservationError.t unit :=
    if negb (handle_type reference =? spec_object_type spec)
    then fail HandleReservationError.Conflict
    else HandleTable.validate_reservation reservation SlotReservationKind.Destination in
  let specs := typed_specs self in
  let reservations := typed_reservations self in
  map_err (λ error, (error, references)) (foreign_or (typed_domain self) (
    check references.1 specs.1 reservations.1;;
    check references.2 specs.2 reservations.2;;
    unwrap (HandleTable.publish reservations.1
      {| entry_reference := references.1; entry_rights := spec_rights specs.1 |});;
    unwrap (HandleTable.publish reservations.2
      {| entry_reference := references.2; entry_rights := spec_rights specs.2 |});;
    mret (complete_typed self, (res_handle reservations.1, res_handle reservations.2)))).
