(* ===== verification/HandleProtocol.v ===== *)
(** * The slot protocol of a handle table

    What a handle table may do, as an event-labelled step relation on single
    slots: the abstract specification every operation of [HandleTable] is
    proved to follow in [HandleFacts].  The invariants of the table (its
    well-formedness, the death of closed handles, the exclusivity of permits)
    are proved here once, by induction on the steps. *)

From stdpp Require Import base tactics numbers list gmultiset.
From Stdlib Require Import ZArith Lia.
From S2P Require Import Prelude Abi Object ObjectFacts ObjectLedger HandleTable.
Import HandleTable.
Local Open Scope Z_scope.

(** ** Entries and the tokens a table owns *)

Definition rights_ok (ty : DwObjectType) (rights : DwRights) : Prop :=
  is_uint 64 rights ∧ rights ≠ 0 ∧ bits_subset rights DW_RIGHTS_KNOWN_MASK ∧
  bits_subset rights (dw_object_compatible_rights ty).

Definition entry_ok (e : HandleEntry) : Prop :=
  rights_ok (handle_type (entry_reference e)) (entry_rights e).

Definition entry_token (e : HandleEntry) : Token := handle_token (entry_reference e).

Definition option_tokens (o : option HandleEntry) : gmultiset Token :=
  match o with Some e => {[+ entry_token e +]} | None => ∅ end.

(** The union over a table's slots of what each slot carries. *)
Fixpoint slot_sum `{Countable K} (f : HandleSlot → gmultiset K) (l : list HandleSlot)
    : gmultiset K :=
  match l with
  | [] => ∅
  | s :: l' => f s ⊎ slot_sum f l'
  end.

Definition entry_tokens (l : list HandleSlot) : gmultiset Token :=
  slot_sum (λ s, option_tokens (slot_entry s)) l.

(** The permits outstanding against a table. *)
Definition option_permit (o : option SlotReservation) : gmultiset Z :=
  match o with Some res => {[+ reserved_permit res +]} | None => ∅ end.

Definition permits (l : list HandleSlot) : gmultiset Z :=
  slot_sum (λ s, option_permit (slot_reservation s)) l.

(** ** Events *)

Inductive slot_event : Type :=
| ERetire
| EReserve (kind : SlotReservationKind.t) (permit : Z)
| ERelease (permit : Z)
| EPublish (permit : Z) (entry : HandleEntry)
| ETake (entry : HandleEntry)
| EBatchTake (entry : HandleEntry)
| ECancelMove (permit : Z)
| EExtract (permit : Z) (entry : HandleEntry)
| EFinish (permit : Z)
| ERollback (permit : Z) (entry : HandleEntry).

(** The entry an event puts into its slot, and the one it takes out. *)
Definition gained (ev : slot_event) : option HandleEntry :=
  match ev with EPublish _ e | ERollback _ e => Some e | _ => None end.
Definition lost (ev : slot_event) : option HandleEntry :=
  match ev with ETake e | EBatchTake e | EExtract _ e => Some e | _ => None end.

(** The permit whose holder performs the event. *)
Definition event_permit (ev : slot_event) : option Z :=
  match ev with
  | ERelease p | EPublish p _ | ECancelMove p | EExtract p _ | EFinish p | ERollback p _ => Some p
  | _ => None
  end.

Definition reserved (p : Z) (k : SlotReservationKind.t) : option SlotReservation :=
  Some {| reserved_permit := p; reserved_kind := k |}.

(** Only a move still prepared can be reserved on a slot being retired. *)
Definition retirable (o : option SlotReservation) : Prop :=
  match o with
  | Some res => reserved_kind res = SlotReservationKind.MovePrepared
  | None => True
  end.

Inductive slot_step : slot_event → HandleSlot → HandleSlot → Prop :=
| step_retire s :
    slot_entry s = None → retirable (slot_reservation s) →
    slot_step ERetire s (set_retired s)
| step_reserve_destination s p :
    slot_retired s = false → slot_entry s = None → slot_reservation s = None →
    slot_step (EReserve SlotReservationKind.Destination p) s
      (set_reservation (reserved p SlotReservationKind.Destination) s)
| step_reserve_move s p e :
    slot_retired s = false → slot_entry s = Some e → slot_reservation s = None →
    slot_step (EReserve SlotReservationKind.MovePrepared p) s
      (set_reservation (reserved p SlotReservationKind.MovePrepared) s)
| step_release s p :
    slot_reservation s = reserved p SlotReservationKind.Destination →
    slot_step (ERelease p) s (set_reservation None s)
| step_publish s p e g :
    slot_reservation s = reserved p SlotReservationKind.Destination →
    slot_retired s = false → slot_entry s = None → entry_ok e →
    next_generation (slot_generation s) = Some g →
    slot_step (EPublish p e) s (set_reservation None (set_entry (Some e) (set_generation g s)))
| step_take s e :
    slot_reservation s = None → slot_entry s = Some e →
    slot_step (ETake e) s (retire_if_exhausted (set_entry None s))
| step_batch_take s e :
    slot_entry s = Some e →
    slot_step (EBatchTake e) s (set_entry None s)
| step_cancel_move s p e :
    slot_reservation s = reserved p SlotReservationKind.MovePrepared →
    slot_entry s = Some e →
    slot_step (ECancelMove p) s (set_reservation None s)
| step_extract s p e :
    slot_reservation s = reserved p SlotReservationKind.MovePrepared →
    slot_entry s = Some e →
    slot_step (EExtract p e) s
      (set_reservation (reserved p SlotReservationKind.MoveExtracted) (set_entry None s))
| step_finish s p :
    slot_reservation s = reserved p SlotReservationKind.MoveExtracted →
    slot_step (EFinish p) s (set_reservation None (retire_if_exhausted s))
| step_rollback s p e :
    slot_reservation s = reserved p SlotReservationKind.MoveExtracted → entry_ok e →
    slot_step (ERollback p e) s (set_reservation None (set_entry (Some e) s)).

(** The permit counter moves exactly when a slot is reserved. *)
Definition permit_after (ev : slot_event) (next : Z) : option Z :=
  match ev with
  | EReserve _ p => if p =? next then next_nonzero 64 next else None
  | _ => Some next
  end.

Definition option_size (o : option HandleEntry) : Z :=
  match o with Some _ => 1 | None => 0 end.

Record table_step (iev : nat * slot_event) (t t' : HandleTable.t) : Prop := {
  ts_slot : ∃ s s', slots t !! iev.1 = Some s ∧ slot_step iev.2 s s' ∧
                    slots t' = <[iev.1 := s']> (slots t);
  ts_domain : domain t' = domain t;
  ts_count : live_count t' = live_count t - option_size (lost iev.2) + option_size (gained iev.2);
  ts_permit : permit_after iev.2 (next_permit t) = Some (next_permit t');
}.

Inductive table_steps : list (nat * slot_event) → HandleTable.t → HandleTable.t → Prop :=
| steps_nil t : table_steps [] t t
| steps_cons iev l t1 t2 t3 :
    table_step iev t1 t2 → table_steps l t2 t3 → table_steps (iev :: l) t1 t3.

(** ** Well-formed tables *)

Record slot_ok (s : HandleSlot) : Prop := {
  so_generation : is_uint 32 (slot_generation s);
  so_entry e : slot_entry s = Some e →
    slot_generation s ≠ 0 ∧ slot_retired s = false ∧ entry_ok e;
  so_vacant p k : slot_reservation s = reserved p k → k ≠ SlotReservationKind.MovePrepared →
    slot_entry s = None ∧ slot_retired s = false;
  so_extracted p : slot_reservation s = reserved p SlotReservationKind.MoveExtracted →
    slot_generation s ≠ 0;
}.

Record table_wf (t : HandleTable.t) : Prop := {
  wf_capacity : Z.of_nat (length (slots t)) < 2 ^ 64;
  wf_count : live_count t = Z.of_nat (size (entry_tokens (slots t)));
  wf_next_permit : 0 < next_permit t < 2 ^ 64;
  wf_slots i s : slots t !! i = Some s → slot_ok s;
  wf_permits i s p k : slots t !! i = Some s → slot_reservation s = reserved p k →
    0 < p < next_permit t;
  wf_exclusive i j s s' p k k' :
    slots t !! i = Some s → slots t !! j = Some s' →
    slot_reservation s = reserved p k → slot_reservation s' = reserved p k' → i = j;
}.

(** ** The tokens after an update *)

Section slot_sum.
Context `{Countable K} (f : HandleSlot → gmultiset K).

Lemma slot_sum_app l1 l2 : slot_sum f (l1 ++ l2) = slot_sum f l1 ⊎ slot_sum f l2.
Proof. induction l1 as [|s l1 IH]; simpl; [|rewrite IH]; multiset_solver. Qed.

Lemma slot_sum_insert l i s s' : l !! i = Some s →
  slot_sum f (<[i := s']> l) ⊎ f s = slot_sum f l ⊎ f s'.
Proof.
  intros Hi. pose proof (lookup_lt_Some _ _ _ Hi).
  rewrite <- (take_drop_middle l i s) at 2 by done.
  rewrite insert_take_drop by done. rewrite !slot_sum_app. simpl. multiset_solver.
Qed.
End slot_sum.

Lemma entry_tokens_app l1 l2 : entry_tokens (l1 ++ l2) = entry_tokens l1 ⊎ entry_tokens l2.
Proof. apply slot_sum_app. Qed.

Lemma entry_tokens_insert l i s s' : l !! i = Some s →
  entry_tokens (<[i := s']> l) ⊎ option_tokens (slot_entry s) =
  entry_tokens l ⊎ option_tokens (slot_entry s').
Proof. apply (slot_sum_insert (λ s, option_tokens (slot_entry s))). Qed.

Lemma entry_tokens_lookup l i s e :
  l !! i = Some s → slot_entry s = Some e → entry_token e ∈ entry_tokens l.
Proof.
  intros Hi He. rewrite <- (take_drop_middle l i s) by done.
  rewrite entry_tokens_app. unfold entry_tokens. simpl. rewrite He. simpl. multiset_solver.
Qed.

Lemma option_tokens_size o : Z.of_nat (size (option_tokens o)) = option_size o.
Proof.
  unfold option_tokens, option_size.
  destruct o; [by rewrite gmultiset_size_singleton|by rewrite gmultiset_size_empty].
Qed.

Lemma entry_tokens_size_insert l i s s' : l !! i = Some s →
  Z.of_nat (size (entry_tokens (<[i := s']> l))) =
  Z.of_nat (size (entry_tokens l)) - option_size (slot_entry s) + option_size (slot_entry s').
Proof.
  intros Hi. pose proof (f_equal size (entry_tokens_insert l i s s' Hi)) as Heq.
  rewrite !gmultiset_size_disj_union in Heq.
  rewrite <- !option_tokens_size. lia.
Qed.

Lemma entry_tokens_size_le l : (size (entry_tokens l) ≤ length l)%nat.
Proof.
  induction l as [|s l IH]; unfold entry_tokens in *; cbn [slot_sum length];
    [by rewrite gmultiset_size_empty|].
  rewrite gmultiset_size_disj_union. pose proof (option_tokens_size (slot_entry s)) as Hs.
  assert (option_size (slot_entry s) ≤ 1) by (by destruct (slot_entry s)). lia.
Qed.

Lemma entry_tokens_size_lt l i s :
  l !! i = Some s → slot_entry s = None → (size (entry_tokens l) < length l)%nat.
Proof.
  intros Hi Hs. rewrite <- (take_drop_middle l i s) by done.
  rewrite entry_tokens_app, length_app, gmultiset_size_disj_union. unfold entry_tokens. cbn [slot_sum length].
  rewrite Hs, gmultiset_size_disj_union. cbn [option_tokens]. rewrite gmultiset_size_empty.
  pose proof (entry_tokens_size_le (take i l)). pose proof (entry_tokens_size_le (drop (S i) l)).
  unfold entry_tokens in *. lia.
Qed.

Lemma entry_tokens_size_pos l i s e :
  l !! i = Some s → slot_entry s = Some e → (0 < size (entry_tokens l))%nat.
Proof.
  intros Hi He. pose proof (entry_tokens_lookup _ _ _ _ Hi He) as Hin.
  destruct (decide (size (entry_tokens l) = 0)%nat) as [H0|]; [|lia].
  apply gmultiset_size_empty_inv in H0. rewrite H0 in Hin. multiset_solver.
Qed.

(** ** Runs compose *)

Lemma table_steps_app l1 l2 t1 t2 t3 :
  table_steps l1 t1 t2 → table_steps l2 t2 t3 → table_steps (l1 ++ l2) t1 t3.
Proof. induction 1; simpl; eauto using table_steps. Qed.

Lemma table_steps_one iev t t' : table_step iev t t' → table_steps [iev] t t'.
Proof. eauto using table_steps. Qed.

(** An invariant of the steps is one of the runs, as long as every event of
    the run is one the invariant tolerates. *)
Lemma table_steps_invariant (P : HandleTable.t → Prop) (ok : nat * slot_event → Prop) l t t' :
  (∀ iev t t', P t → ok iev → table_step iev t t' → P t') →
  P t → Forall ok l → table_steps l t t' → P t'.
Proof.
  intros Hstep HP Hok Hrun. induction Hrun as [|iev l t1 t2 t3 Hs Hrun IH]; [done|].
  apply Forall_cons_1 in Hok as [??]. eauto.
Qed.

(** ** Every step preserves well-formedness *)

Ltac inv_slot_step :=
  match goal with H : slot_step _ _ _ |- _ => inversion H; subst; clear H end.

Lemma retire_if_exhausted_fields s :
  slot_generation (retire_if_exhausted s) = slot_generation s ∧
  slot_entry (retire_if_exhausted s) = slot_entry s ∧
  slot_reservation (retire_if_exhausted s) = slot_reservation s.
Proof. unfold retire_if_exhausted. by destruct (next_generation _). Qed.

Lemma next_generation_Some g g' : is_uint 32 g → next_generation g = Some g' →
  g' = g + 1 ∧ is_uint 32 g' ∧ g' ≠ 0.
Proof.
  unfold is_uint. intros Hg Hn. apply next_nonzero_Some in Hn; lia.
Qed.

(** A slot with neither a reservation nor an entry. *)
Lemma slot_ok_empty s : is_uint 32 (slot_generation s) → slot_reservation s = None →
  slot_entry s = None → slot_ok s.
Proof. intros Hg Hr He. split; [done|by rewrite He|by rewrite Hr..]. Qed.

(** A slot with a live entry and no reservation. *)
Lemma slot_ok_live s e : is_uint 32 (slot_generation s) → slot_generation s ≠ 0 →
  slot_retired s = false → slot_reservation s = None → slot_entry s = Some e → entry_ok e →
  slot_ok s.
Proof.
  intros Hg H0 Hret Hr He Hok. split; [done| |by rewrite Hr..].
  rewrite He. by intros ? [= <-].
Qed.

Lemma slot_step_ok ev s s' : slot_step ev s s' → slot_ok s → slot_ok s'.
Proof.
  intros Hstep [Hg He Hv Hx].
  pose proof (retire_if_exhausted_fields (set_entry None s)) as (Hg1 & He1 & Hr1).
  pose proof (retire_if_exhausted_fields s) as (Hg2 & He2 & Hr2).
  destruct Hstep as [s Hn Hr|s p Hret Hn Hr|s p e Hret Hs Hr|s p Hr|s p e g Hr Hret Hn Hok Hnext
    |s e Hr Hs|s e Hs|s p e Hr Hs|s p e Hr Hs|s p Hr|s p e Hr Hok].
  - split; simpl; [done|by rewrite Hn| |done].
    intros p k Heq Hk. by rewrite Heq in Hr.
  - split; simpl; [done|by rewrite Hn|done|done].
  - destruct (He e Hs) as (? & ? & ?). split; simpl; [done|done| |].
    + by intros ? ? [= _ <-].
    + by intros ? [=].
  - split; simpl; [done|done|done|done].
  - apply next_generation_Some in Hnext as (-> & Hg' & Hz); [|done].
    by apply (slot_ok_live _ e).
  - apply slot_ok_empty; [by rewrite Hg1|by rewrite Hr1|by rewrite He1].
  - split; simpl; [done|done| |done].
    intros p k Heq Hk. by destruct (Hv p k Heq Hk).
  - split; simpl; [done|done|done|done].
  - destruct (He e Hs) as (? & ? & ?). split; simpl; [done|done|done|done].
  - destruct (Hv _ _ Hr) as [Hn Hret]; [done|].
    apply slot_ok_empty; simpl; [by rewrite Hg2|done|by rewrite He2].
  - destruct (Hv _ _ Hr) as [Hn Hret]; [done|]. apply (slot_ok_live _ e); simpl; try done.
    by eapply Hx.
Qed.

Lemma slot_step_size ev s s' : slot_ok s → slot_step ev s s' →
  option_size (slot_entry s') =
  option_size (slot_entry s) - option_size (lost ev) + option_size (gained ev).
Proof.
  intros Hok Hstep. pose proof (retire_if_exhausted_fields (set_entry None s)) as (_ & He1 & _).
  pose proof (retire_if_exhausted_fields s) as (_ & He2 & _).
  destruct Hstep as [| | | |s p e g Hr Hret Hn|s e Hr Hs|s e Hs| |s p e Hr Hs| |s p e Hr];
    simpl in *; try lia.
  - by rewrite Hn.
  - by rewrite He1, Hs.
  - by rewrite Hs.
  - by rewrite Hs.
  - rewrite He2. lia.
  - destruct (so_vacant _ Hok _ _ Hr) as [-> _]; done.
Qed.

(** The reservation an event leaves: its own new one, none, or the old
    permit under some kind. *)
Lemma slot_step_reservation ev s s' p k : slot_step ev s s' →
  slot_reservation s' = reserved p k →
  (∃ k', ev = EReserve k' p) ∨ ∃ k', slot_reservation s = reserved p k'.
Proof.
  intros Hstep Heq.
  pose proof (retire_if_exhausted_fields (set_entry None s)) as (_ & _ & Hr1).
  destruct Hstep; simpl in *; try (rewrite Hr1 in Heq; simpl in Heq); unfold reserved in *;
    simplify_eq; eauto.
Qed.

Lemma permit_after_mono ev n n' : 0 < n < 2 ^ 64 → permit_after ev n = Some n' →
  n ≤ n' ∧ n' < 2 ^ 64 ∧ ∀ k p, ev = EReserve k p → p = n ∧ n < n'.
Proof.
  intros Hn Hp. destruct ev; simpl in Hp; simplify_eq; try (split_and!; [lia|lia|done]).
  destruct (Z.eqb_spec permit n) as [->|]; [|done].
  apply next_nonzero_Some in Hp; [|lia]. split_and!; [lia|lia|]. intros ? ? [= _ ->]. lia.
Qed.

Lemma table_step_wf iev t t' : table_wf t → table_step iev t t' → table_wf t'.
Proof.
  destruct iev as [i ev]. intros [Hcap Hcnt Hnp Hok Hp Hex] [(s & s' & Hi & Hstep & Hsl) _ Hcnt' Hp'].
  simpl in *. pose proof (permit_after_mono _ _ _ Hnp Hp') as (Hle & Hlt & Hnew).
  assert (∀ j sj p k, slots t' !! j = Some sj → slot_reservation sj = reserved p k →
    (j = i ∧ ∃ k', ev = EReserve k' p) ∨
    ∃ sj' k', slots t !! j = Some sj' ∧ slot_reservation sj' = reserved p k') as Hback.
  { intros j sj p k Hj Hr. rewrite Hsl in Hj.
    apply list_lookup_insert_Some in Hj as [(-> & -> & _)|[_ Hj]]; [|eauto].
    destruct (slot_step_reservation _ _ _ _ _ Hstep Hr) as [|[k' ?]]; eauto 6. }
  split.
  - by rewrite Hsl, length_insert.
  - rewrite Hsl, (entry_tokens_size_insert _ _ _ _ Hi), Hcnt', Hcnt.
    rewrite (slot_step_size _ _ _ (Hok _ _ Hi) Hstep). lia.
  - lia.
  - intros j sj Hj. rewrite Hsl in Hj.
    apply list_lookup_insert_Some in Hj as [(-> & -> & _)|[_ Hj]]; [|eauto].
    by eapply slot_step_ok; [|eapply Hok].
  - intros j sj p k Hj Hr. destruct (Hback _ _ _ _ Hj Hr) as [(_ & k' & ->)|(sj' & k' & Hj' & Hr')].
    + destruct (Hnew _ _ eq_refl). lia.
    + pose proof (Hp _ _ _ _ Hj' Hr'). lia.
  - intros a b sa sb p k k' Ha Hb Hra Hrb.
    destruct (Hback _ _ _ _ Ha Hra) as [(-> & ka & ->)|(sa' & ka & Ha' & Hra')],
      (Hback _ _ _ _ Hb Hrb) as [(-> & kb & Heb)|(sb' & kb & Hb' & Hrb')]; [done| | |by eapply Hex].
    + destruct (Hnew _ _ eq_refl). pose proof (Hp _ _ _ _ Hb' Hrb'). lia.
    + destruct (Hnew _ _ Heb). pose proof (Hp _ _ _ _ Ha' Hra'). lia.
Qed.

Lemma table_steps_wf l t t' : table_wf t → table_steps l t t' → table_wf t'.
Proof. induction 2; eauto using table_step_wf. Qed.

Lemma table_steps_domain l t t' : table_steps l t t' → domain t' = domain t.
Proof. induction 1 as [|??? ? ? Hs _ IH]; [done|]. by rewrite IH, (ts_domain _ _ _ Hs). Qed.

Lemma table_steps_capacity l t t' : table_steps l t t' → length (slots t') = length (slots t).
Proof.
  induction 1 as [|??? ? ? [(s & s' & _ & _ & Hsl) _ _ _] _ IH]; [done|].
  by rewrite IH, Hsl, length_insert.
Qed.

(** ** Dead handles *)

Definition extracting (s : HandleSlot) : Prop :=
  ∃ p, slot_reservation s = reserved p SlotReservationKind.MoveExtracted.

(** A slot in which the generation [g] is over. *)
Definition slot_stale (g : Z) (s : HandleSlot) : Prop :=
  g < slot_generation s ∨
  g = slot_generation s ∧ slot_entry s = None ∧ ¬ extracting s.

(** A handle that names a generation its slot will never hold again. *)
Definition stale (h : DwHandle) (t : HandleTable.t) : Prop :=
  ∃ i g s, decode_handle h = Some (i, g) ∧ slots t !! i = Some s ∧ slot_stale g s.

Lemma slot_step_generation ev s s' : slot_ok s → slot_step ev s s' →
  slot_generation s ≤ slot_generation s'.
Proof.
  intros Hok Hstep. pose proof (retire_if_exhausted_fields (set_entry None s)) as (Hg1 & _ & _).
  pose proof (retire_if_exhausted_fields s) as (Hg2 & _ & _).
  destruct Hstep as [| | | |s p e g Hr Hret Hn _ Hnext|s e Hr Hs|s e Hs| |s p e Hr Hs| |s p e Hr];
    simpl in *; try lia.
  apply next_generation_Some in Hnext; [lia|]. apply Hok.
Qed.

Lemma slot_step_stale ev s s' g : slot_ok s → slot_step ev s s' → slot_stale g s → slot_stale g s'.
Proof.
  intros Hok Hstep. pose proof (slot_step_generation _ _ _ Hok Hstep) as Hmono.
  intros [Hlt|(-> & Hn & Hx)]; [left; lia|].
  destruct Hstep as [s ? Hr|s p|s p e ? Hs|s p|s p e g ? ? ? ? Hnext|s e ? Hs|s e Hs|s p e ? Hs
    |s p e ? Hs|s p Hr|s p e Hr]; try congruence.
  - by right.
  - right. split_and!; [done|done|]. by intros [? [=]].
  - right. split_and!; [done|done|]. by intros [? [=]].
  - left. simpl. apply next_generation_Some in Hnext; [lia|]. apply Hok.
  - destruct Hx. by exists p.
  - destruct Hx. by exists p.
Qed.

Lemma table_step_stale iev t t' h : table_wf t → stale h t → table_step iev t t' → stale h t'.
Proof.
  intros Hwf (i & g & s & Hdec & Hi & Hst) [(s1 & s2 & Hj & Hstep & Hsl) _ _ _].
  exists i, g. rewrite Hsl. destruct (decide (iev.1 = i)) as [<-|Hne].
  - simplify_eq. exists s2. rewrite list_lookup_insert_eq by (by eapply lookup_lt_Some).
    split_and!; [done|done|]. by eapply slot_step_stale; [eapply wf_slots| |].
  - exists s. by rewrite list_lookup_insert_ne.
Qed.

Lemma table_steps_stale l t t' h : table_wf t → stale h t → table_steps l t t' → stale h t'.
Proof. intros Hwf Hst Hrun. induction Hrun; eauto using table_step_wf, table_step_stale. Qed.

Lemma stale_rejected h t : stale h t → resolve_slot t h = Err HandleTableError.InvalidHandle.
Proof.
  intros (i & g & s & Hdec & Hi & Hst). unfold resolve_slot. rewrite Hdec, Hi.
  destruct (h =? DW_HANDLE_INVALID); [done|].
  destruct (slot_retired s); [done|]. destruct (Z.eqb_spec (slot_generation s) g); simpl; [|done].
  destruct Hst as [|(_ & -> & _)]; [lia|done].
Qed.

(** What [resolve_slot] accepts. *)
Definition resolves (t : HandleTable.t) (h : DwHandle) (i : nat) (s : HandleSlot)
    (e : HandleEntry) : Prop :=
  h ≠ DW_HANDLE_INVALID ∧ decode_handle h = Some (i, slot_generation s) ∧
  slots t !! i = Some s ∧ slot_retired s = false ∧ slot_entry s = Some e.

Lemma resolve_slot_Ok t h i :
  resolve_slot t h = Ok i ↔ ∃ s e, resolves t h i s e.
Proof.
  unfold resolve_slot, resolves. split.
  - destruct (Z.eqb_spec h DW_HANDLE_INVALID) as [|Hz]; [done|].
    destruct (decode_handle h) as [[j g]|] eqn:Hdec; [|done].
    destruct (slots t !! j) as [s|] eqn:Hj; [|done].
    destruct (slot_retired s) eqn:Hr; [done|].
    destruct (Z.eqb_spec (slot_generation s) g) as [<-|]; [|done]. simpl.
    destruct (slot_entry s) as [e|] eqn:He; [|done]. simpl. intros [= <-]. by exists s, e.
  - intros (s & e & Hz & -> & -> & -> & ->). apply Z.eqb_neq in Hz. rewrite Hz.
    by rewrite Z.eqb_refl.
Qed.

Lemma resolve_slot_Err t h e : resolve_slot t h = Err e → e = HandleTableError.InvalidHandle.
Proof.
  unfold resolve_slot. repeat case_match; naive_solver.
Qed.

(** Taking the entry a handle resolves to kills the handle. *)
Lemma take_stale t t' h i s e ev :
  resolves t h i s e → table_step (i, ev) t t' → ev = ETake e ∨ ev = EBatchTake e →
  slot_ok s → stale h t'.
Proof.
  intros (_ & Hdec & Hi & _ & He) [(s1 & s2 & Hj & Hstep & Hsl) _ _ _] Hev Hok. simpl in *.
  simplify_eq. exists i, (slot_generation s), s2.
  rewrite Hsl, list_lookup_insert_eq by (by eapply lookup_lt_Some).
  split_and!; [done|done|]. right.
  pose proof (retire_if_exhausted_fields (set_entry None s)) as (Hg1 & He1 & Hr1).
  assert (∀ p, slot_reservation s ≠ reserved p SlotReservationKind.MoveExtracted) as Hx.
  { intros p Hp. by destruct (so_vacant _ Hok _ _ Hp) as [Hn _]; [|rewrite Hn in He]. }
  unfold extracting.
  destruct Hev as [-> | ->]; inv_slot_step; simpl in *.
  - rewrite Hg1, He1, Hr1. simpl. split_and!; [done|done|]. intros [p Hp]. by eapply Hx.
  - split_and!; [done|done|]. intros [p Hp]. by eapply Hx.
Qed.

(** ** Permits

    While a guard holds its permit, no event but its own touches the slot; a
    prepared move can in addition lose its entry to a batch move. *)

Definition guarded (p : Z) (i : nat) (s : HandleSlot) (t : HandleTable.t) : Prop :=
  slots t !! i = Some s ∧ ∃ k, slot_reservation s = reserved p k.

Definition tolerates (p : Z) (i : nat) (iev : nat * slot_event) : Prop :=
  event_permit iev.2 ≠ Some p ∧ ∀ e, iev ≠ (i, EBatchTake e).

Lemma slot_step_guarded ev s s' p k : slot_ok s → slot_step ev s s' →
  slot_reservation s = reserved p k → event_permit ev ≠ Some p →
  (∃ e, ev = EBatchTake e) ∨ ev = ERetire ∧ k = SlotReservationKind.MovePrepared ∧
    slot_entry s = None.
Proof.
  intros Hok [] Hr Hp; unfold reserved in *; simpl in *; try congruence; [|eauto..].
  right. rewrite Hr in *. eauto.
Qed.

(** A guarded slot is left alone, provided it is not the empty slot of a
    prepared move (which a batch move has emptied). *)
Lemma table_step_guarded iev t t' p i s : table_wf t → guarded p i s t →
  (slot_reservation s = reserved p SlotReservationKind.MovePrepared → slot_entry s ≠ None) →
  tolerates p i iev → table_step iev t t' → guarded p i s t'.
Proof.
  intros Hwf [Hi [k Hk]] Hlive [Hperm Hbatch] [(s1 & s2 & Hj & Hstep & Hsl) _ _ _].
  split; [|by exists k]. rewrite Hsl.
  destruct (decide (iev.1 = i)) as [<-|Hne]; [|by rewrite list_lookup_insert_ne].
  simplify_eq. destruct iev as [j ev]; simpl in *.
  destruct (slot_step_guarded _ _ _ _ _ (wf_slots _ Hwf _ _ Hi) Hstep Hk Hperm)
    as [[e ->]|(-> & -> & Hn)]; [by destruct (Hbatch e)|by destruct (Hlive Hk)].
Qed.

Lemma table_steps_guarded l t t' p i s : table_wf t → guarded p i s t →
  (slot_reservation s = reserved p SlotReservationKind.MovePrepared → slot_entry s ≠ None) →
  Forall (tolerates p i) l → table_steps l t t' → guarded p i s t'.
Proof.
  intros Hwf Hg Hlive Hok Hrun.
  apply (table_steps_invariant (λ t, table_wf t ∧ guarded p i s t) (tolerates p i) l t t') ;
    [|done..].
  intros iev t1 t2 [??] ??. eauto using table_step_wf, table_step_guarded.
Qed.

(** A prepared move whose source a batch has taken. *)
Definition robbed (p : Z) (i : nat) (t : HandleTable.t) : Prop :=
  ∃ s, slots t !! i = Some s ∧ slot_reservation s = reserved p SlotReservationKind.MovePrepared ∧ slot_entry s = None.

Lemma table_step_robbed iev t t' p i : table_wf t → robbed p i t →
  event_permit iev.2 ≠ Some p → table_step iev t t' → robbed p i t'.
Proof.
  intros Hwf (s & Hi & Hr & Hn) Hperm [(s1 & s2 & Hj & Hstep & Hsl) _ _ _]. unfold robbed. rewrite Hsl.
  destruct (decide (iev.1 = i)) as [<-|Hne]; [|exists s; by rewrite list_lookup_insert_ne].
  simplify_eq. destruct iev as [j ev]; simpl in *. rewrite list_lookup_insert_eq by (by eapply lookup_lt_Some).
  destruct (slot_step_guarded _ _ _ _ _ (wf_slots _ Hwf _ _ Hi) Hstep Hr Hperm) as [[e ->]|(-> & _ & _)];
    inversion Hstep; subst; [congruence|]. by eexists.
Qed.

(** A batch that takes from a slot takes what is in it. *)
Lemma batch_takes_the_entry iev t t' i s e : table_step iev t t' → slots t !! i = Some s → slot_entry s = Some e →
  iev = (i, EBatchTake e) ∨ ∀ e', iev ≠ (i, EBatchTake e').
Proof.
  intros [(s1 & s2 & Hj & Hs & _) _ _ _] Hi He. destruct iev as [j ev]; simpl in *.
  destruct (decide (j = i)) as [-> |Hne]; [|right; by intros ? [=]]. destruct ev as [| | | | |e0| | | |]; try (by right; intros ? [=]).
  left. simplify_eq. inversion Hs; subst. congruence.
Qed.

(** The source of a prepared move is left alone until a batch takes it, and
    once it is gone it does not come back. *)
Lemma prepared_run l t t' p i s e : table_wf t → guarded p i s t →
  slot_reservation s = reserved p SlotReservationKind.MovePrepared → slot_entry s = Some e →
  Forall (λ iev, event_permit iev.2 ≠ Some p) l → table_steps l t t' →
  (∀ e', (i, EBatchTake e') ∉ l) ∧ guarded p i s t' ∨ (i, EBatchTake e) ∈ l ∧ robbed p i t'.
Proof.
  intros Hwf Hg Hr He Hl Hrun. revert Hwf Hg Hl.
  induction Hrun as [t|iev l t1 t2 t3 Hstep Hrun IH]; intros Hwf Hg Hl; [left; split; [by intros ? ?%elem_of_nil|done]|].
  apply Forall_cons_1 in Hl as [Hperm Hl]. pose proof (table_step_wf _ _ _ Hwf Hstep) as Hwf2.
  destruct (batch_takes_the_entry _ _ _ _ _ _ Hstep (proj1 Hg) He) as [-> |Hb].
  - right. split; [by left|]. assert (robbed p i t2) as Hrob.
    { destruct Hstep as [(s1 & s2 & Hj & Hs & Hsl) _ _ _]. destruct Hg as [Hi _]. simpl in *. simplify_eq. inversion Hs; subst.
      eexists. rewrite Hsl, list_lookup_insert_eq by (by eapply lookup_lt_Some). done. }
    apply (table_steps_invariant (λ t, table_wf t ∧ robbed p i t) (λ iev, event_permit iev.2 ≠ Some p) l t2 t3); [|done..].
    intros iev t t' [??] ??. eauto using table_step_wf, table_step_robbed.
  - assert (tolerates p i iev) as Htol by done.
    assert (guarded p i s t2) as Hg2 by (eapply (table_step_guarded iev t1); [done..|by rewrite He|done|done]).
    destruct (IH Hwf2 Hg2 Hl) as [[Hno ?]|[??]]; [left|right; split; [by right|done]]. split; [|done].
    intros e' [<-|Hin]%elem_of_cons; [by destruct (Hb e')|by apply (Hno e')].
Qed.

(** ** Conservation of references

    Over any run, the tokens a table holds change by exactly the entries
    the run's events put in and took out. *)

Definition run_gained (l : list (nat * slot_event)) : gmultiset Token :=
  foldr (λ iev acc, option_tokens (gained iev.2) ⊎ acc) ∅ l.
Definition run_lost (l : list (nat * slot_event)) : gmultiset Token :=
  foldr (λ iev acc, option_tokens (lost iev.2) ⊎ acc) ∅ l.

Lemma slot_step_tokens ev s s' : slot_ok s → slot_step ev s s' →
  option_tokens (slot_entry s') ⊎ option_tokens (lost ev) =
  option_tokens (slot_entry s) ⊎ option_tokens (gained ev).
Proof.
  intros Hok Hstep. pose proof (retire_if_exhausted_fields (set_entry None s)) as (_ & He1 & _).
  pose proof (retire_if_exhausted_fields s) as (_ & He2 & _).
  destruct Hstep as [| | | |s p e g Hr Hret Hn|s e Hr Hs|s e Hs| |s p e Hr Hs| |s p e Hr];
    simpl in *; rewrite ?He1, ?He2, ?Hs, ?Hn; simpl; try multiset_solver.
  destruct (so_vacant _ Hok _ _ Hr) as [-> _]; [done|]. simpl. multiset_solver.
Qed.

Lemma table_steps_tokens l t t' : table_wf t → table_steps l t t' →
  entry_tokens (slots t') ⊎ run_lost l = entry_tokens (slots t) ⊎ run_gained l.
Proof.
  intros Hwf Hrun. induction Hrun as [|iev l t1 t2 t3 Hstep Hrun IH]; [done|].
  specialize (IH (table_step_wf _ _ _ Hwf Hstep)).
  destruct Hstep as [(s & s' & Hi & Hs & Hsl) _ _ _].
  pose proof (slot_step_tokens _ _ _ (wf_slots _ Hwf _ _ Hi) Hs) as Htok.
  pose proof (entry_tokens_insert _ _ _ s' Hi) as Hins. rewrite <- Hsl in Hins. simpl.
  multiset_solver.
Qed.

Lemma table_steps_slot l t t' i s : table_steps l t t' →
  Forall (λ iev, iev.1 ≠ i) l → slots t !! i = Some s → slots t' !! i = Some s.
Proof.
  intros Hrun Hl Hi. induction Hrun as [|iev l t1 t2 t3 Hstep Hrun IH]; [done|].
  apply Forall_cons_1 in Hl as [Hne Hl]. apply IH; [done|].
  destruct Hstep as [(s1 & s2 & _ & _ & ->) _ _ _]. by rewrite list_lookup_insert_ne.
Qed.

(** Likewise for the permits: a run leaves outstanding exactly the permits it
    issued and did not complete. *)

Definition issued (ev : slot_event) : gmultiset Z :=
  match ev with EReserve _ p => {[+ p +]} | _ => ∅ end.
Definition completed (ev : slot_event) : gmultiset Z :=
  match ev with
  | ERelease p | EPublish p _ | ECancelMove p | EFinish p | ERollback p _ => {[+ p +]}
  | _ => ∅
  end.

Definition run_issued (l : list (nat * slot_event)) : gmultiset Z :=
  foldr (λ iev acc, issued iev.2 ⊎ acc) ∅ l.
Definition run_completed (l : list (nat * slot_event)) : gmultiset Z :=
  foldr (λ iev acc, completed iev.2 ⊎ acc) ∅ l.

Lemma slot_step_permits ev s s' : slot_step ev s s' →
  option_permit (slot_reservation s') ⊎ completed ev =
  option_permit (slot_reservation s) ⊎ issued ev.
Proof.
  intros Hstep. pose proof (retire_if_exhausted_fields (set_entry None s)) as (_ & _ & Hr1).
  destruct Hstep as [| | | | | | | | | |]; simpl in *; try rewrite Hr1; simpl;
    repeat match goal with H : slot_reservation _ = _ |- _ => rewrite H end; simpl;
    multiset_solver.
Qed.

Lemma table_steps_permits l t t' : table_steps l t t' →
  permits (slots t') ⊎ run_completed l = permits (slots t) ⊎ run_issued l.
Proof.
  intros Hrun. induction Hrun as [|iev l t1 t2 t3 Hstep Hrun IH]; [done|].
  destruct Hstep as [(s & s' & Hi & Hs & Hsl) _ _ _].
  pose proof (slot_step_permits _ _ _ Hs) as Htok.
  pose proof (slot_sum_insert (λ s, option_permit (slot_reservation s)) _ _ _ s' Hi) as Hins.
  rewrite <- Hsl in Hins. unfold permits in *. simpl. multiset_solver.
Qed.

Lemma run_issued_app l1 l2 : run_issued (l1 ++ l2) = run_issued l1 ⊎ run_issued l2.
Proof. induction l1 as [|x l1 IH]; simpl; [|rewrite IH]; multiset_solver. Qed.

Lemma run_completed_app l1 l2 : run_completed (l1 ++ l2) = run_completed l1 ⊎ run_completed l2.
Proof. induction l1 as [|x l1 IH]; simpl; [|rewrite IH]; multiset_solver. Qed.

Lemma run_gained_app l1 l2 : run_gained (l1 ++ l2) = run_gained l1 ⊎ run_gained l2.
Proof. induction l1 as [|x l1 IH]; simpl; [|rewrite IH]; multiset_solver. Qed.

Lemma run_lost_app l1 l2 : run_lost (l1 ++ l2) = run_lost l1 ⊎ run_lost l2.
Proof. induction l1 as [|x l1 IH]; simpl; [|rewrite IH]; multiset_solver. Qed.
