(* ===== verification/HandleFacts.v ===== *)
(** * The handle table's operations follow the slot protocol

    Each operation of [HandleTable] is shown not to panic on a well-formed
    table and to perform exactly the protocol events its name promises. *)

From stdpp Require Import base tactics numbers list gmultiset.
From Stdlib Require Import ZArith Lia.
From S2P Require Import Prelude Abi Object ObjectFacts ObjectLedger HandleTable HandleProtocol.
Import HandleTable.
Local Open Scope Z_scope.

(** ** Handle encoding, shared with the object identities *)

Lemma encode_handle_Some i g h : is_uint 32 g →
  encode_handle i g = Some h ↔
  g ≠ 0 ∧ Z.of_nat i + 1 < 2 ^ 32 ∧ h = g * 2 ^ 32 + (Z.of_nat i + 1).
Proof. apply encode_object_id_Some. Qed.

Lemma decode_encode_handle i g h : is_uint 32 g →
  encode_handle i g = Some h → decode_handle h = Some (i, g).
Proof. apply decode_encode_object_id. Qed.

Lemma encode_handle_valid i g h : is_uint 32 g →
  encode_handle i g = Some h → h ≠ DW_HANDLE_INVALID.
Proof.
  intros Hg Henc. apply encode_handle_Some in Henc as (? & ? & ->); [|done].
  unfold DW_HANDLE_INVALID, is_uint in *. lia.
Qed.

Lemma decode_handle_generation h i g : decode_handle h = Some (i, g) → handle_generation h = g.
Proof.
  unfold decode_handle, handle_generation, mbind, option_bind.
  destruct (try_from 32 _); [|done]. destruct (checked_sub _ _); [|done].
  destruct (negb _); [|done]. congruence.
Qed.

(** ** Field access *)

Lemma slot_at_eq {E} t i s : slots t !! i = Some s → slot_at (E:=E) i t = Ret t s.
Proof. intros Hs. unfold slot_at, mbind, M_bind, get, expect. by rewrite Hs. Qed.

Lemma update_slot_eq {E} t i s f :
  slots t !! i = Some s → update_slot (E:=E) i f t = Ret (with_slot i (f s) t) tt.
Proof. intros Hs. unfold update_slot, mbind, M_bind. by rewrite (slot_at_eq _ _ _ Hs). Qed.

Definition with_count (n : Z) (t : HandleTable.t) : HandleTable.t :=
  {| domain := domain t; slots := slots t; live_count := n; next_permit := next_permit t |}.

Lemma live_count_sub_eq {E} t : 1 ≤ live_count t →
  live_count_sub (E:=E) t = Ret (with_count (live_count t - 1) t) tt.
Proof.
  intros Hc. unfold live_count_sub, set_live_count, mbind, M_bind, get, expect, checked_sub.
  by rewrite (proj2 (Z.leb_le _ _) Hc).
Qed.

Lemma live_count_add_eq {E} t : live_count t + 1 < 2 ^ 64 →
  live_count_add (E:=E) t = Ret (with_count (live_count t + 1) t) tt.
Proof.
  intros Hc. unfold live_count_add, set_live_count, mbind, M_bind, get, expect, checked_add.
  by rewrite (proj2 (Z.ltb_lt _ _) Hc).
Qed.

Definition with_permit (n : Z) (t : HandleTable.t) : HandleTable.t :=
  {| domain := domain t; slots := slots t; live_count := live_count t; next_permit := n |}.

Lemma mint_permit_eq {E} t : 0 < next_permit t → next_permit t + 1 < 2 ^ 64 →
  mint_permit (E:=E) t = Ret (with_permit (next_permit t + 1) t) (next_permit t).
Proof.
  intros H0 Hp. unfold mint_permit, mbind, M_bind, get, expect.
  by rewrite (proj2 (next_nonzero_Some 64 (next_permit t) (next_permit t + 1) ltac:(lia)) (conj eq_refl Hp)).
Qed.

Lemma take_entry_eq {E} t i s e : slots t !! i = Some s → slot_entry s = Some e →
  take_entry (E:=E) i t = Ret (with_slot i (set_entry None s) t) e.
Proof.
  intros Hs He. unfold take_entry, mbind, M_bind. rewrite (slot_at_eq _ _ _ Hs), He. simpl.
  by rewrite (update_slot_eq _ _ _ _ Hs).
Qed.

(** ** Events *)

Lemma table_step_intro i ev s s' t t' :
  slots t !! i = Some s → slot_step ev s s' → slots t' = <[i := s']> (slots t) →
  domain t' = domain t →
  live_count t' = live_count t - option_size (lost ev) + option_size (gained ev) →
  permit_after ev (next_permit t) = Some (next_permit t') →
  table_steps [(i, ev)] t t'.
Proof. intros. apply table_steps_one. split; eauto. Qed.

(** What a well-formed table knows of a live slot and of a vacant one. *)
Lemma wf_live_count t i s e : table_wf t → slots t !! i = Some s → slot_entry s = Some e →
  1 ≤ live_count t.
Proof.
  intros Hwf Hi He. rewrite (wf_count _ Hwf).
  pose proof (entry_tokens_size_pos _ _ _ _ Hi He). lia.
Qed.

Lemma wf_vacant_count t i s : table_wf t → slots t !! i = Some s → slot_entry s = None →
  live_count t + 1 < 2 ^ 64.
Proof.
  intros Hwf Hi He. rewrite (wf_count _ Hwf).
  pose proof (entry_tokens_size_lt _ _ _ Hi He). pose proof (wf_capacity _ Hwf). lia.
Qed.

(** [close] and [drain] take an unreserved entry out. *)
Lemma remove_entry_wp {E} t i s e : table_wf t → slots t !! i = Some s →
  slot_entry s = Some e → slot_reservation s = None →
  wp (remove_entry (E:=E) i) t
    (λ e' t', e' = e ∧ table_steps [(i, ETake e)] t t') (λ _ _, False).
Proof.
  intros Hwf Hi He Hr. pose proof (wf_live_count _ _ _ _ Hwf Hi He) as Hc.
  pose proof (lookup_lt_Some _ _ _ Hi) as Hlt.
  unfold remove_entry. apply wp_bind. eapply wp_eq; [by apply take_entry_eq|].
  apply wp_bind. eapply wp_eq; [by apply live_count_sub_eq|].
  apply wp_bind. eapply wp_eq; [eapply update_slot_eq; simpl; by apply list_lookup_insert_eq|].
  unfold wp; simpl. split; [done|]. eapply table_step_intro; [done|by apply step_take|..]; simpl; try done.
  - by rewrite list_insert_insert_eq.
  - lia.
Qed.

Definition vacant_generation (r : Reservation) (s : HandleSlot) : Prop :=
  slot_reservation s = reserved (res_permit r) SlotReservationKind.Destination ∧
  slot_retired s = false ∧ slot_entry s = None ∧ slot_generation s = res_prior_generation r.

(** A reservation as [reserve_slot_with_kind] makes it. *)
Definition reservation_ok (r : Reservation) : Prop :=
  is_uint 32 (res_prior_generation r) ∧
  next_generation (res_prior_generation r) = Some (res_generation r) ∧
  encode_handle (res_slot r) (res_generation r) = Some (res_handle r).

(** The table honours the reservation [r]. *)
Definition reservation_held (r : Reservation) (t : HandleTable.t) : Prop :=
  reservation_ok r ∧ ∃ s, slots t !! res_slot r = Some s ∧ vacant_generation r s.

Lemma validate_reservation_held r t :
  reservation_held r t → validate_reservation r SlotReservationKind.Destination t = Ret t tt.
Proof.
  intros (_ & s & Hs & Hr & Hret & He & Hg). unfold validate_reservation, mbind, M_bind.
  rewrite (slot_at_eq _ _ _ Hs), Hr, bool_decide_true by done. simpl.
  by rewrite Hret, He, Hg, Z.eqb_refl.
Qed.

Lemma validate_reservation_wp r t : (res_slot r < length (slots t))%nat →
  wp (validate_reservation r SlotReservationKind.Destination) t
    (λ _ t', t' = t ∧ ∃ s, slots t !! res_slot r = Some s ∧ vacant_generation r s)
    (λ _ t', t' = t ∧ ¬ reservation_held r t).
Proof.
  intros [s Hs]%lookup_lt_is_Some. unfold validate_reservation. apply wp_bind.
  eapply wp_eq; [by apply slot_at_eq|].
  assert (¬ vacant_generation r s → ¬ reservation_held r t) as Hheld.
  { intros Hn (_ & s' & Hs' & Hv). by simplify_eq. }
  case_bool_decide as Hr; unfold wp; simpl.
  - destruct (slot_retired s) eqn:Hret; simpl.
    { split; [done|]. apply Hheld. intros (_ & ? & _). congruence. }
    destruct (slot_entry s) eqn:He; simpl.
    { split; [done|]. apply Hheld. intros (_ & _ & ? & _). congruence. }
    destruct (Z.eqb_spec (slot_generation s) (res_prior_generation r)); simpl.
    + split; [done|]. by exists s.
    + split; [done|]. apply Hheld. intros (_ & _ & _ & ?). congruence.
  - split; [done|]. apply Hheld. by intros (? & _).
Qed.

Lemma clear_reservation_wp {E} r t : reservation_held r t →
  wp (update_slot (E:=E) (res_slot r) (set_reservation None)) t
    (λ _ t', table_steps [(res_slot r, ERelease (res_permit r))] t t') (λ _ _, False).
Proof.
  intros (_ & s & Hs & Hr & Hret & He & Hg). eapply wp_eq; [by apply update_slot_eq|].
  eapply table_step_intro; [done|by eapply step_release|..]; simpl; try done. lia.
Qed.

Lemma release_reservation_wp r t : reservation_held r t →
  wp (release_reservation r SlotReservationKind.Destination) t
    (λ _ t', table_steps [(res_slot r, ERelease (res_permit r))] t t') (λ _ _, False).
Proof.
  intros Hh. unfold release_reservation. apply wp_bind.
  eapply wp_eq; [by apply validate_reservation_held|]. by apply clear_reservation_wp.
Qed.

Lemma publish_wp r e t : table_wf t → reservation_held r t → entry_ok e →
  wp (publish r e) t
    (λ _ t', table_steps [(res_slot r, EPublish (res_permit r) e)] t t' ∧
             ∃ s, resolves t' (res_handle r) (res_slot r) s e ∧ slot_reservation s = None)
    (λ _ _, False).
Proof.
  intros Hwf Hh Hok. unfold publish. apply wp_bind, wp_map_err.
  eapply wp_eq; [by apply validate_reservation_held|].
  destruct Hh as ((Hu & Hn & Henc) & s & Hs & Hr & Hret & He & Hg).
  pose proof (lookup_lt_Some _ _ _ Hs).
  apply wp_bind. eapply wp_eq; [by apply update_slot_eq|].
  pose proof (wf_vacant_count _ _ _ Hwf Hs He). eapply wp_eq; [by apply live_count_add_eq|].
  split.
  - eapply table_step_intro; [done|eapply step_publish; by rewrite ?Hg|..]; simpl; try done. lia.
  - apply next_generation_Some in Hn as (_ & Hu' & _); [|done].
    exists (set_reservation None (set_entry (Some e) (set_generation (res_generation r) s))).
    unfold resolves; simpl. split_and!; try done.
    + by apply (encode_handle_valid _ _ _ Hu' Henc).
    + by apply decode_encode_handle.
    + by apply list_lookup_insert_eq.
Qed.

(** ** Reserving a slot *)

Definition retires (l : list (nat * slot_event)) : Prop := Forall (λ iev, iev.2 = ERetire) l.

(** A slot [reserve_slot_with_kind] would take. *)
Definition available (excluded : option nat) (i : nat) (s : HandleSlot) : Prop :=
  excluded ≠ Some i ∧ slot_retired s = false ∧ slot_entry s = None ∧
  slot_reservation s = None ∧ slot_generation s + 1 < 2 ^ 32 ∧ Z.of_nat i + 1 < 2 ^ 32.

Lemma table_steps_retires l t t' : retires l → table_steps l t t' →
  next_permit t' = next_permit t ∧ live_count t' = live_count t.
Proof.
  intros Hl Hrun. induction Hrun as [|iev l t1 t2 t3 [_ _ Hc Hp] Hrun IH]; [done|].
  apply Forall_cons_1 in Hl as [Hev Hl]. rewrite Hev in Hc, Hp. simpl in *.
  destruct (IH Hl) as [-> ->]. split; [congruence|lia].
Qed.

(** The scan's state: the slots seen were not available and are at most
    retired; the others are untouched. *)
Definition scanned (excluded : option nat) (retire : bool) (t : HandleTable.t) (n : nat)
    (t' : HandleTable.t) : Prop :=
  (∃ l, retires l ∧ (retire = false → l = []) ∧ table_steps l t t') ∧
  (∀ i, (n ≤ i)%nat → slots t' !! i = slots t !! i) ∧
  (∀ i s, (i < n)%nat → slots t !! i = Some s → ¬ available excluded i s).

Lemma scanned_skip ex b t n t' s :
  scanned ex b t n t' → slots t !! n = Some s → ¬ available ex n s → scanned ex b t (S n) t'.
Proof.
  intros (Hl & Hrest & Hseen) Hs Hna. split_and!; [done| |].
  - intros i Hi. apply Hrest. lia.
  - intros i si Hi Hsi. destruct (decide (i = n)) as [->|]; [by simplify_eq|].
    apply Hseen; [lia|done].
Qed.

Lemma scanned_retire ex b t n t' s :
  scanned ex b t n t' → slots t !! n = Some s → slot_entry s = None →
  slot_reservation s = None → ¬ available ex n s →
  wp ((if b then update_slot (E:=HandleTableError.t) n set_retired else mret tt)) t'
    (λ _ t'', scanned ex b t (S n) t'') (λ _ _, False).
Proof.
  intros Hsc Hs He Hr Hna. pose proof (scanned_skip _ _ _ _ _ _ Hsc Hs Hna) as Hskip.
  destruct b; [|done]. destruct Hsc as ((l & Hl & _ & Hrun) & Hrest & _).
  assert (slots t' !! n = Some s) as Hs' by (by rewrite Hrest).
  eapply wp_eq; [by apply update_slot_eq|].
  destruct Hskip as (_ & Hrest' & Hseen'). split_and!; [|intros i Hi; simpl|done].
  - exists (l ++ [(n, ERetire)]). split_and!; [by apply Forall_app_2; [|constructor]|done|].
    eapply table_steps_app; [done|].
    eapply table_step_intro; [done|by apply step_retire; [|rewrite Hr]|..]; simpl; try done. lia.
  - rewrite list_lookup_insert_ne by lia. by apply Hrest'.
Qed.

(** Minting a permit and writing the reservation, the tail of a scan. *)
Lemma reserve_at_wp {E} t i s kind :
  table_wf t → next_permit t + 1 < 2 ^ 64 → slots t !! i = Some s →
  slot_step (EReserve kind (next_permit t)) s (set_reservation (reserved (next_permit t) kind) s) →
  wp (permit ← mint_permit (E:=E);
      update_slot i (set_reservation
        (Some {| reserved_permit := permit; reserved_kind := kind |}));;
      mret permit) t
    (λ p t', p = next_permit t ∧ table_steps [(i, EReserve kind p)] t t' ∧
             slots t' = <[i := set_reservation (reserved p kind) s]> (slots t) ∧
             next_permit t' = next_permit t + 1)
    (λ _ _, False).
Proof.
  intros Hwf Hp Hs Hstep. pose proof (wf_next_permit _ Hwf).
  apply wp_bind. eapply wp_eq; [by apply mint_permit_eq; lia|].
  apply wp_bind. eapply wp_eq; [by apply update_slot_eq|]. unfold wp; simpl. split_and!; try done.
  eapply table_step_intro; [done|done|..]; simpl; try done; [lia|].
  by rewrite Z.eqb_refl; apply next_nonzero_Some; lia.
Qed.

Lemma not_exhausted_next g : is_uint 32 g →
  next_generation g = if g + 1 <? 2 ^ 32 then Some (g + 1) else None.
Proof. intros [??]. by apply next_nonzero_spec. Qed.

Lemma encode_handle_None i g : is_uint 32 g → g ≠ 0 → encode_handle i g = None →
  2 ^ 32 ≤ Z.of_nat i + 1.
Proof.
  intros Hg Hz Henc. destruct (decide (Z.of_nat i + 1 < 2 ^ 32)) as [Hlt|]; [|lia].
  by rewrite (proj2 (encode_handle_Some i g _ Hg) (conj Hz (conj Hlt eq_refl))) in Henc.
Qed.

Definition reserved_by (excluded : option nat) (retire : bool) (t : HandleTable.t)
    (r : Reservation) (t' : HandleTable.t) : Prop :=
  reservation_held r t' ∧ (res_permit r = next_permit t ∧ next_permit t' = next_permit t + 1) ∧
  (∃ s, slots t !! res_slot r = Some s ∧ available excluded (res_slot r) s) ∧
  (∀ i s, (i < res_slot r)%nat → slots t !! i = Some s → ¬ available excluded i s) ∧
  ∃ l, retires l ∧ (retire = false → l = []) ∧
    table_steps (l ++ [(res_slot r, EReserve SlotReservationKind.Destination (res_permit r))]) t t'.

Definition nothing_available (excluded : option nat) (retire : bool)
    (t : HandleTable.t) (e : HandleTableError.t) (t' : HandleTable.t) : Prop :=
  e = HandleTableError.Capacity ∧ scanned excluded retire t (length (slots t)) t'.

Lemma reserve_scan_step ex retire t t' s n :
  table_wf t → next_permit t + 1 < 2 ^ 64 →
  scanned ex retire t n t' → slots t !! n = Some s → available ex n s →
  ∀ h, encode_handle n (slot_generation s + 1) = Some h →
  wp (permit ← mint_permit (E:=HandleTableError.t);
      update_slot n (set_reservation
        (Some {| reserved_permit := permit;
                 reserved_kind := SlotReservationKind.Destination |}));;
      mret (Break (B := unit) {| res_slot := n; res_prior_generation := slot_generation s;
        res_generation := slot_generation s + 1; res_handle := h; res_permit := permit |})) t'
    (λ f t', match f with Continue _ => False | Break r => reserved_by ex retire t r t' end)
    (λ _ _, False).
Proof.
  intros Hwf Hp ((l & Hl & Hb & Hrun) & Hrest & Hseen) Hs Hav h Henc.
  destruct (table_steps_retires _ _ _ Hl Hrun) as [Hnp _].
  pose proof (table_steps_wf _ _ _ Hwf Hrun) as Hwf'.
  assert (slots t' !! n = Some s) as Hs' by (by rewrite Hrest).
  pose proof Hav as (_ & Hret & He & Hr & Hmax & _). rewrite <- Hnp in Hp.
  pose proof (so_generation _ (wf_slots _ Hwf _ _ Hs)) as Hg.
  pose proof (reserve_at_wp (E:=HandleTableError.t) _ _ _ SlotReservationKind.Destination Hwf' Hp Hs'
    (step_reserve_destination s (next_permit t') Hret He Hr)) as Hw.
  unfold wp, mbind, M_bind in *. destruct (mint_permit t') as [t1 p| |]; [|done..].
  destruct (update_slot n _ t1) as [t2 []| |]; [|done..]. simpl in *.
  destruct Hw as (-> & Hstep & Hsl & Hnp'). split_and!; simpl; try done; try lia.
  - split; [split_and!; simpl; [done| |done]|].
    + rewrite not_exhausted_next, (proj2 (Z.ltb_lt _ _) Hmax); done.
    + exists (set_reservation (reserved (next_permit t') SlotReservationKind.Destination) s).
      simpl. rewrite Hsl, list_lookup_insert_eq by (by eapply lookup_lt_Some). done.
  - by exists s.
  - exists l. split_and!; [done|done|]. by eapply table_steps_app.
Qed.

(** One iteration of the scan, on a slot not yet seen. *)
Lemma reserve_candidate_wp ex retire t t' s n :
  table_wf t → next_permit t + 1 < 2 ^ 64 → scanned ex retire t n t' → slots t !! n = Some s →
  wp (reserve_candidate ex SlotReservationKind.Destination retire n) t'
    (λ f t', match f with
             | Continue _ => scanned ex retire t (S n) t'
             | Break r => reserved_by ex retire t r t'
             end) (λ _ _, False).
Proof.
  intros Hwf Hp Hsc Hs. pose proof (so_generation _ (wf_slots _ Hwf _ _ Hs)) as Hg.
  assert (slots t' !! n = Some s) as Hs' by (destruct Hsc as (_ & Hrest & _); by rewrite Hrest).
  unfold reserve_candidate. cbv zeta. apply wp_bind. eapply wp_eq; [by apply slot_at_eq|].
  destruct (_ || _) eqn:Hbusy.
  { unfold wp; simpl. eapply scanned_skip; [done..|]. intros (Hex & Hret & He & Hr & _).
    by rewrite (bool_decide_false _ Hex), (bool_decide_true _ He), (bool_decide_true _ Hr), Hret
      in Hbusy. }
  rewrite !orb_false_iff, !negb_false_iff in Hbusy. destruct Hbusy as [[[Hex Hret] He] Hr].
  apply bool_decide_eq_false in Hex. apply bool_decide_eq_true in He, Hr.
  assert (¬ available ex n s → wp ((if retire then update_slot (E:=HandleTableError.t) n set_retired
      else mret tt);; mret (Continue (R := Reservation) tt)) t'
    (λ f t', match f with Continue _ => scanned ex retire t (S n) t'
             | Break r => reserved_by ex retire t r t' end) (λ _ _, False)) as Hretire.
  { intros Hna. apply wp_bind. eapply wp_mono; [by eapply scanned_retire|by intros []|done]. }
  rewrite not_exhausted_next by done. destruct (Z.ltb_spec (slot_generation s + 1) (2 ^ 32)).
  - destruct (encode_handle _ _) as [h|] eqn:Henc.
    + eapply wp_mono; [eapply reserve_scan_step; [done..| |done]|by intros []|done].
      apply encode_handle_Some in Henc; [|unfold is_uint in *; lia].
      split_and!; try done; lia.
    + apply Hretire. intros (_ & _ & _ & _ & _ & ?).
      apply encode_handle_None in Henc; unfold is_uint in *; lia.
  - apply Hretire. intros (_ & _ & _ & _ & ? & _). lia.
Qed.

Lemma reserve_slot_wp ex retire t :
  table_wf t → next_permit t + 1 < 2 ^ 64 →
  wp (reserve_slot_with_kind ex SlotReservationKind.Destination retire) t
    (reserved_by ex retire t) (nothing_available ex retire t).
Proof.
  intros Hwf Hp. unfold reserve_slot_with_kind. do 2 apply wp_bind. unfold wp at 1, get.
  apply (wp_loop (λ pre _ t', scanned ex retire t (length pre) t')).
  - split_and!; [|done|simpl; lia]. exists []. split_and!; [constructor|done|constructor].
  - intros pre i post [] t' [-> Hi]%seq_split_at Hsc.
    apply lookup_lt_is_Some in Hi as [s Hs]. rewrite length_app, Nat.add_1_r.
    eapply wp_mono; [by eapply reserve_candidate_wp|by intros [[]|]|done].
  - intros [] t' Hsc. by rewrite length_seq in Hsc.
Qed.

(** ** Rights and resolution *)

Lemma wp_check_rights {S} (r : Result unit RightsValidationError.t) (s : S) Q R :
  (r = Ok tt → Q tt s) → (∀ e, r = Err e → R (rights_error e) s) → wp (check_rights r) s Q R.
Proof. intros HQ HR. destruct r as [[]|e]; [by apply HQ|by apply HR]. Qed.

Lemma rights_ok_checks ty rights : is_uint 64 rights →
  and_then (validate_requested_syntax rights) (validate_compatible ty rights) = Ok tt ↔
  rights_ok ty rights.
Proof.
  intros Hu. unfold rights_ok.
  rewrite <- (validate_compatible_ok ty rights Hu).
  pose proof (validate_requested_syntax_ok rights Hu) as Hreq.
  destruct (validate_requested_syntax rights) as [[]|e]; simpl; [tauto|].
  split; [done|]. intros (_ & H1 & H2 & _). by destruct (proj2 Hreq (conj H1 H2)).
Qed.

(** A failed syntax or compatibility check is always [InvalidRights]. *)
Lemma syntax_error rights e :
  validate_requested_syntax rights = Err e → rights_error e = HandleTableError.InvalidRights.
Proof. unfold validate_requested_syntax. repeat case_match; naive_solver. Qed.

Lemma compatible_error ty rights e :
  validate_compatible ty rights = Err e → rights_error e = HandleTableError.InvalidRights.
Proof. unfold validate_compatible. repeat case_match; naive_solver. Qed.

Lemma held_error held required e :
  require_held held required = Err e → rights_error e = HandleTableError.AccessDenied.
Proof. unfold require_held. repeat case_match; naive_solver. Qed.

Lemma subset_error held requested e :
  require_subset held requested = Err e → rights_error e = HandleTableError.AccessDenied.
Proof. unfold require_subset. repeat case_match; naive_solver. Qed.

Lemma resolve_entry_wp {S} t h (s0 : S) :
  wp (resolve_entry t h) s0
    (λ e s', s' = s0 ∧ ∃ i s, resolves t h i s e)
    (λ err s', s' = s0 ∧ err = HandleTableError.InvalidHandle ∧
               resolve_slot t h = Err HandleTableError.InvalidHandle).
Proof.
  unfold resolve_entry, live_entry. apply wp_bind. unfold wp at 1, lift.
  destruct (resolve_slot t h) as [i|err] eqn:Hres.
  - apply resolve_slot_Ok in Hres as (s & e & Hres). pose proof Hres as (_ & _ & Hi & _ & He).
    apply wp_bind. eapply wp_expect; [done|]. eapply wp_expect; [done|]. eauto.
  - pose proof (resolve_slot_Err _ _ _ Hres) as ->. done.
Qed.

Lemma resolve_mutation_slot_wp t h :
  wp (resolve_mutation_slot h) t
    (λ i t', t' = t ∧ ∃ s e, resolves t h i s e ∧ slot_reservation s = None)
    (λ err t', t' = t ∧
       (err = HandleTableError.InvalidHandle ∧
          resolve_slot t h = Err HandleTableError.InvalidHandle ∨
        err = HandleTableError.AccessDenied ∧
          ∃ i s e, resolves t h i s e ∧ slot_reservation s ≠ None)).
Proof.
  unfold resolve_mutation_slot. apply wp_bind. unfold wp at 1, get. apply wp_bind.
  unfold wp at 1, lift.
  destruct (resolve_slot t h) as [i|err] eqn:Hres.
  - apply resolve_slot_Ok in Hres as (s & e & Hres). pose proof Hres as (_ & _ & Hi & _ & He).
    apply wp_bind. eapply wp_eq; [by apply slot_at_eq|].
    destruct (slot_reservation s) eqn:Hr; unfold wp; simpl.
    + split; [done|]. right. split; [done|]. exists i, s, e. by rewrite Hr.
    + eauto.
  - pose proof (resolve_slot_Err _ _ _ Hres) as ->. auto.
Qed.

(** ** Installing a handle *)

Definition reserved_published (t : HandleTable.t) (h : DwHandle) (e : HandleEntry)
    (t' : HandleTable.t) : Prop :=
  ∃ r l s, retires l ∧ res_permit r = next_permit t ∧ res_handle r = h ∧
    table_steps (l ++ [(res_slot r, EReserve SlotReservationKind.Destination (res_permit r));
                       (res_slot r, EPublish (res_permit r) e)]) t t' ∧
    resolves t' h (res_slot r) s e ∧ slot_reservation s = None.

Lemma reserve_then_publish {E} t r t1 e : table_wf t → entry_ok e →
  reserved_by None true t r t1 →
  wp (unwrap (E' := E) (publish r e)) t1 (λ _ t', reserved_published t (res_handle r) e t') (λ _ _, False).
Proof.
  intros Hwf Hok (Hheld & [Hp _] & _ & _ & l & Hl & _ & Hrun).
  pose proof (table_steps_wf _ _ _ Hwf Hrun) as Hwf1.
  apply wp_unwrap. eapply wp_mono; [by apply publish_wp| |done].
  intros [] t' (Hpub & s & Hres & Hr). exists r, l, s. split_and!; try done.
  pose proof (table_steps_app _ _ _ _ _ Hrun Hpub) as Happ. by rewrite <- app_assoc in Happ.
Qed.

Lemma install_wp t reference rights :
  table_wf t → next_permit t + 1 < 2 ^ 64 → is_uint 64 rights →
  wp (install reference rights) t
    (λ h t', rights_ok (handle_type reference) rights ∧
       reserved_published t h {| entry_reference := reference; entry_rights := rights |} t')
    (λ err t', err.2 = reference ∧
       (err.1 = HandleTableError.InvalidRights ∧ t' = t ∧
          ¬ rights_ok (handle_type reference) rights ∨
        rights_ok (handle_type reference) rights ∧ nothing_available None true t err.1 t')).
Proof.
  intros Hwf Hp Hu. unfold install. pose proof (rights_ok_checks (handle_type reference) _ Hu) as Hiff.
  destruct (and_then _ _) as [[]|err] eqn:Hand.
  - pose proof (proj1 Hiff eq_refl) as Hok. apply wp_bind, wp_map_err.
    eapply wp_mono; [by apply reserve_slot_wp| |by auto].
    intros r t1 Hr. apply wp_bind. eapply wp_mono; [by eapply reserve_then_publish| |done].
    intros [] t' Hpub. done.
  - unfold wp; simpl. split; [done|]. left. split_and!; [|done|naive_solver].
    destruct (validate_requested_syntax rights) as [[]|e] eqn:Hs; simpl in Hand.
    + by eapply compatible_error.
    + simplify_eq. by eapply syntax_error.
Qed.

(** ** Reservations survive other transactions *)

Lemma held_stable r l t t' : table_wf t → reservation_held r t →
  Forall (λ iev, event_permit iev.2 ≠ Some (res_permit r)) l → table_steps l t t' →
  reservation_held r t'.
Proof.
  intros Hwf (Hok & s & Hs & Hv) Hl Hrun. split; [done|]. exists s. split; [|done].
  revert Hl Hs. induction Hrun as [|iev l t1 t2 t3 Hstep Hrun IH]; [done|]. intros Hl Hs.
  apply Forall_cons_1 in Hl as [Hev Hl]. apply IH; [by eapply table_step_wf|done|].
  destruct Hv as (Hr & Hret & He & Hg).
  eapply (table_step_guarded _ _ _ (res_permit r) (res_slot r) s Hwf); try done.
  - split; [done|]. by eexists.
  - by rewrite Hr.
  - split; [done|]. intros e ->. destruct Hstep as [(s1 & s2 & Hj & Hst & _) _ _ _].
    simpl in *. inversion Hst. congruence.
Qed.

Definition pair_held (rs : Reservation * Reservation) (t : HandleTable.t) : Prop :=
  reservation_held rs.1 t ∧ reservation_held rs.2 t ∧ res_permit rs.1 ≠ res_permit rs.2.

Lemma retires_tolerated p l : retires l → Forall (λ iev, event_permit iev.2 ≠ Some p) l.
Proof. apply Forall_impl. by intros iev ->. Qed.

Lemma reserve_run_wf ex b t r t' : table_wf t → reserved_by ex b t r t' → table_wf t'.
Proof. intros Hwf (_ & _ & _ & _ & l & _ & _ & Hrun). by eapply table_steps_wf. Qed.

Definition reserve_event (r : Reservation) : nat * slot_event :=
  (res_slot r, EReserve SlotReservationKind.Destination (res_permit r)).

Lemma reserve_two_wp b t : table_wf t → next_permit t + 2 < 2 ^ 64 →
  wp (reserve_two (λ ex, reserve_slot_with_kind ex SlotReservationKind.Destination b)) t
    (λ rs t', pair_held rs t' ∧ res_slot rs.1 ≠ res_slot rs.2 ∧
       ∃ l1 l2, retires l1 ∧ retires l2 ∧ (b = false → l1 = [] ∧ l2 = []) ∧
         table_steps (l1 ++ reserve_event rs.1 :: l2 ++ [reserve_event rs.2]) t t')
    (λ err t', err = HandleTableError.Capacity ∧
       ∃ l l', retires l ∧ retires l' ∧ (b = false → l = [] ∧ l' = []) ∧
         (table_steps l t t' ∨
          ∃ r, table_steps (l ++ reserve_event r ::
                            l' ++ [(res_slot r, ERelease (res_permit r))]) t t')).
Proof.
  intros Hwf Hp. unfold reserve_two. apply wp_bind.
  eapply wp_mono; [apply reserve_slot_wp; [done|lia]| |].
  - intros r t1 Hr. pose proof (reserve_run_wf _ _ _ _ _ Hwf Hr) as Hwf1.
    destruct Hr as (Hheld & [Hp1 Hp2] & _ & _ & l1 & Hl1 & Hb1 & Hrun1).
    apply wp_bind, wp_try. eapply wp_mono; [apply reserve_slot_wp; [done|lia]| |].
    + intros r2 t2 (Hheld2 & [Hp3 _] & (s2 & _ & Hne & _) & _ & l2 & Hl2 & Hb2 & Hrun2).
      unfold wp; simpl. split; [|split; [congruence|]].
      * unfold pair_held; simpl. split_and!; [|done|lia]. eapply held_stable; [done|done| |done].
        apply Forall_app_2; [by apply retires_tolerated|by repeat constructor].
      * exists l1, l2. split_and!; [done|done|naive_solver|].
        pose proof (table_steps_app _ _ _ _ _ Hrun1 Hrun2) as H12.
        rewrite <- app_assoc in H12. exact H12.
    + intros err t2 (-> & (l2 & Hl2 & Hb2 & Hrun2) & _).
      assert (reservation_held r t2) as Hheld2.
      { eapply held_stable; [done|done|by apply retires_tolerated|done]. }
      apply wp_bind, wp_unwrap. eapply wp_mono; [by apply release_reservation_wp| |done].
      intros [] t3 Hrun3. unfold wp; simpl. split; [done|].
      exists l1, l2. split_and!; [done|done|naive_solver|]. right. exists r.
      pose proof (table_steps_app _ _ _ _ _ (table_steps_app _ _ _ _ _ Hrun1 Hrun2) Hrun3) as H13.
      rewrite <- !app_assoc in H13. exact H13.
  - intros err t' (-> & (l & Hl & Hb & Hrun) & _). split; [done|]. exists l, [].
    split_and!; [done|constructor|naive_solver|by left].
Qed.

Lemma pair_held_slots rs t : pair_held rs t → res_slot rs.1 ≠ res_slot rs.2.
Proof.
  intros ((_ & s1 & Hs1 & Hr1 & _) & (_ & s2 & Hs2 & Hr2 & _) & Hne) Heq.
  rewrite Heq in Hs1. unfold reserved in *. congruence.
Qed.

(** ** Completing a pair *)

Definition publish_event (r : Reservation) (e : HandleEntry) : nat * slot_event :=
  (res_slot r, EPublish (res_permit r) e).

Definition release_event (r : Reservation) : nat * slot_event :=
  (res_slot r, ERelease (res_permit r)).

Lemma publish_two_wp {E} rs e1 e2 t : table_wf t → pair_held rs t → entry_ok e1 → entry_ok e2 →
  wp (unwrap (E' := E) (publish rs.1 e1);; unwrap (publish rs.2 e2)) t
    (λ _ t', table_steps [publish_event rs.1 e1; publish_event rs.2 e2] t t' ∧
       ∃ s1 s2, resolves t' (res_handle rs.1) (res_slot rs.1) s1 e1 ∧
                resolves t' (res_handle rs.2) (res_slot rs.2) s2 e2)
    (λ _ _, False).
Proof.
  intros Hwf Hpair Hok1 Hok2. pose proof (pair_held_slots _ _ Hpair) as Hslots.
  destruct Hpair as (H1 & H2 & Hne).
  apply wp_bind, wp_unwrap. eapply wp_mono; [by apply publish_wp| |done].
  intros [] t1 (Hrun1 & s1 & Hres1 & _). pose proof (table_steps_wf _ _ _ Hwf Hrun1) as Hwf1.
  assert (reservation_held rs.2 t1).
  { eapply held_stable; [exact Hwf|done| |exact Hrun1]. repeat constructor. simpl. congruence. }
  apply wp_unwrap. eapply wp_mono; [by apply publish_wp| |done].
  intros [] t2 (Hrun2 & s2 & Hres2 & _). split; [by eapply (table_steps_app [_])|].
  exists s1, s2. split; [|done]. destruct Hres1 as (? & ? & Hs1 & ? & ?).
  unfold resolves. split_and!; try done.
  eapply table_steps_slot; [exact Hrun2| |exact Hs1]. repeat constructor. simpl. congruence.
Qed.

Lemma release_two_wp {E} rs t : table_wf t → pair_held rs t →
  wp (unwrap (E' := E) (release_reservation rs.1 SlotReservationKind.Destination);;
      unwrap (release_reservation rs.2 SlotReservationKind.Destination)) t
    (λ _ t', table_steps [release_event rs.1; release_event rs.2] t t') (λ _ _, False).
Proof.
  intros Hwf (H1 & H2 & Hne).
  apply wp_bind, wp_unwrap. eapply wp_mono; [by apply release_reservation_wp| |done].
  intros [] t1 Hrun1.
  assert (reservation_held rs.2 t1).
  { eapply held_stable; [exact Hwf|done| |exact Hrun1]. repeat constructor. simpl. congruence. }
  apply wp_unwrap. eapply wp_mono; [by apply release_reservation_wp| |done].
  intros [] t2 Hrun2. by eapply (table_steps_app [_]).
Qed.

(** ** Guards

    [guard_ok d r t]: the reservation of a guard of domain [d], as some
    operation made it; if the guard is one of [t]'s, its slot exists. *)
Definition guard_ok (d : Z) (r : Reservation) (t : HandleTable.t) : Prop :=
  reservation_ok r ∧ (d = domain t → (res_slot r < length (slots t))%nat).

Definition pair_guard_ok (d : Z) (rs : Reservation * Reservation) (t : HandleTable.t) : Prop :=
  guard_ok d rs.1 t ∧ guard_ok d rs.2 t ∧ res_permit rs.1 ≠ res_permit rs.2.

Lemma validate_guard_wp d r t : guard_ok d r t → d = domain t →
  wp (validate_reservation r SlotReservationKind.Destination) t
    (λ _ t', t' = t ∧ reservation_held r t) (λ _ t', t' = t ∧ ¬ reservation_held r t).
Proof.
  intros [Hok Hlen] Hd. eapply wp_mono; [by apply validate_reservation_wp, Hlen| |done].
  intros [] t' [-> Hs]. done.
Qed.

Lemma wp_foreign_or {A} d t (m : M HandleTable.t HandleReservationError.t A) Q R :
  (d ≠ domain t → R HandleReservationError.ForeignTable t) → (d = domain t → wp m t Q R) →
  wp (foreign_or d m) t Q R.
Proof.
  intros Hf Hm. unfold foreign_or. apply wp_bind. unfold wp at 1, get.
  destruct (Z.eqb_spec d (domain t)); [by apply Hm|by apply Hf].
Qed.

(** Validating the two reservations of an honest pair. *)
Lemma validate_pair_wp d rs t : pair_guard_ok d rs t → d = domain t →
  wp (validate_reservation rs.1 SlotReservationKind.Destination;;
      validate_reservation rs.2 SlotReservationKind.Destination) t
    (λ _ t', t' = t ∧ pair_held rs t) (λ _ t', t' = t ∧ ¬ pair_held rs t).
Proof.
  intros (H1 & H2 & Hne) Hd.
  apply wp_bind. eapply wp_mono; [by eapply validate_guard_wp| |].
  - intros [] t1 [-> Hh1]. eapply wp_mono; [by eapply validate_guard_wp| |].
    + intros [] t1 [-> Hh2]. by split.
    + intros e t1 [-> Hn]. split; [done|]. by intros (_ & ? & _).
  - intros e t1 [-> Hn]. split; [done|]. by intros (? & _ & _).
Qed.

Lemma release_both_wp d rs t : table_wf t → pair_guard_ok d rs t → d = domain t →
  wp (release_both rs) t
    (λ _ t', pair_held rs t ∧ table_steps [release_event rs.1; release_event rs.2] t t')
    (λ _ t', t' = t ∧ ¬ pair_held rs t).
Proof.
  intros Hwf Hg Hd. unfold release_both.
  apply wp_assoc. eapply wp_mono; [by eapply validate_pair_wp| |done].
  intros [] t1 [-> Hh]. eapply wp_mono; [by apply release_two_wp|by auto|done].
Qed.

(** ** The guards of two results *)

Definition pair_reservations (g : HandlePairReservation) : Reservation * Reservation :=
  (pair_first g, pair_second g).

(** A guard [reserve_pair] could have made. *)
Definition pair_ok (g : HandlePairReservation) (t : HandleTable.t) : Prop :=
  pair_guard_ok (pair_domain g) (pair_reservations g) t ∧
  rights_ok (pair_object_type g) (pair_rights g).

Definition typed_ok (g : TypedHandlePairReservation) (t : HandleTable.t) : Prop :=
  pair_guard_ok (typed_domain g) (typed_reservations g) t ∧
  rights_ok (spec_object_type (typed_specs g).1) (spec_rights (typed_specs g).1) ∧
  rights_ok (spec_object_type (typed_specs g).2) (spec_rights (typed_specs g).2).

Definition pair_reserved (b : bool) (t : HandleTable.t) (rs : Reservation * Reservation)
    (t' : HandleTable.t) : Prop :=
  pair_held rs t' ∧
  ∃ l1 l2, retires l1 ∧ retires l2 ∧ (b = false → l1 = [] ∧ l2 = []) ∧
    table_steps (l1 ++ reserve_event rs.1 :: l2 ++ [reserve_event rs.2]) t t'.

Lemma held_guard_ok r t : reservation_held r t → guard_ok (domain t) r t.
Proof. intros (Hok & s & Hs & _). split; [done|]. intros _. by eapply lookup_lt_Some. Qed.

Lemma pair_held_guard_ok rs t : pair_held rs t → pair_guard_ok (domain t) rs t.
Proof. intros (H1 & H2 & Hne). split_and!; [by apply held_guard_ok..|done]. Qed.

(** The run of a failed pair reservation leaves at most retirements. *)
Definition pair_unreserved (b : bool) (t t' : HandleTable.t) : Prop :=
  ∃ l l', retires l ∧ retires l' ∧ (b = false → l = [] ∧ l' = []) ∧
    (table_steps l t t' ∨
     ∃ r, table_steps (l ++ reserve_event r :: l' ++ [release_event r]) t t').

Lemma reserve_pair_wp t ty rights :
  table_wf t → next_permit t + 2 < 2 ^ 64 → is_uint 64 rights →
  wp (reserve_pair ty rights) t
    (λ g t', pair_ok g t' ∧ pair_domain g = domain t ∧ pair_object_type g = ty ∧
             pair_rights g = rights ∧ pair_reserved true t (pair_reservations g) t')
    (λ e t', e = HandleTableError.InvalidRights ∧ t' = t ∧ ¬ rights_ok ty rights ∨
             e = HandleTableError.Capacity ∧ rights_ok ty rights ∧ pair_unreserved true t t').
Proof.
  intros Hwf Hp Hu. unfold reserve_pair. pose proof (rights_ok_checks ty rights Hu) as Hiff.
  apply wp_bind, wp_check_rights; [intros Hs|intros e Hs; rewrite Hs in Hiff; simpl in Hiff;
    rewrite (syntax_error _ _ Hs); left; naive_solver].
  apply wp_bind, wp_check_rights; [intros Hc|intros e Hc; rewrite Hs, Hc in Hiff; simpl in Hiff;
    rewrite (compatible_error _ _ _ Hc); left; naive_solver].
  rewrite Hs, Hc in Hiff. pose proof (proj1 Hiff eq_refl) as Hok.
  apply wp_bind. eapply wp_mono; [by apply (reserve_two_wp true)| |].
  - intros rs t' (Hpair & Hslots & l1 & l2 & Hl1 & Hl2 & Hb & Hrun).
    apply wp_bind. unfold wp, get; simpl.
    rewrite (table_steps_domain _ _ _ Hrun). split_and!; try done.
    + split; [|done]. simpl. rewrite <- (table_steps_domain _ _ _ Hrun).
      destruct rs. by apply pair_held_guard_ok.
    + split; [by destruct rs|]. exists l1, l2. by destruct rs.
  - intros e t' (-> & Hun). right. split_and!; done.
Qed.

Lemma reserve_typed_pair_wp t specs :
  table_wf t → next_permit t + 2 < 2 ^ 64 →
  is_uint 64 (spec_rights specs.1) → is_uint 64 (spec_rights specs.2) →
  wp (reserve_typed_pair specs) t
    (λ g t', typed_ok g t' ∧ typed_domain g = domain t ∧ typed_specs g = specs ∧
             pair_reserved false t (typed_reservations g) t')
    (λ e t', e = HandleTableError.InvalidRights ∧ t' = t ∨
             e = HandleTableError.Capacity ∧ pair_unreserved false t t').
Proof.
  intros Hwf Hp Hu1 Hu2. unfold reserve_typed_pair. cbv zeta.
  pose proof (rights_ok_checks (spec_object_type specs.1) _ Hu1) as Hiff1.
  pose proof (rights_ok_checks (spec_object_type specs.2) _ Hu2) as Hiff2.
  do 2 apply wp_bind.
  apply wp_check_rights; [intros Hs1|intros e Hs; rewrite (syntax_error _ _ Hs); auto].
  apply wp_check_rights; [intros Hc1|intros e Hc; rewrite (compatible_error _ _ _ Hc); auto].
  do 2 apply wp_bind.
  apply wp_check_rights; [intros Hs2|intros e Hs; rewrite (syntax_error _ _ Hs); auto].
  apply wp_check_rights; [intros Hc2|intros e Hc; rewrite (compatible_error _ _ _ Hc); auto].
  rewrite Hs1, Hc1 in Hiff1. rewrite Hs2, Hc2 in Hiff2.
  apply wp_bind. eapply wp_mono; [by apply (reserve_two_wp false)| |].
  - intros rs t' (Hpair & Hslots & l1 & l2 & Hl1 & Hl2 & Hb & Hrun).
    apply wp_bind. unfold wp, get; simpl.
    rewrite (table_steps_domain _ _ _ Hrun). split_and!; try done.
    + unfold typed_ok; simpl. rewrite <- (table_steps_domain _ _ _ Hrun).
      split_and!; [by apply pair_held_guard_ok|by apply Hiff1|by apply Hiff2].
    + split; [done|]. by exists l1, l2.
  - intros e t' (-> & Hun). right. split; done.
Qed.

Definition pair_published (t : HandleTable.t) (rs : Reservation * Reservation)
    (e1 e2 : HandleEntry) (t' : HandleTable.t) : Prop :=
  pair_held rs t ∧ table_steps [publish_event rs.1 e1; publish_event rs.2 e2] t t' ∧
  ∃ s1 s2, resolves t' (res_handle rs.1) (res_slot rs.1) s1 e1 ∧
           resolves t' (res_handle rs.2) (res_slot rs.2) s2 e2.

Lemma try_publish_reserved_pair_wp g first second t : table_wf t → pair_ok g t →
  wp (try_publish_reserved_pair g first second) t
    (λ res t', res = (complete_pair g,
                      (res_handle (pair_first g), res_handle (pair_second g))) ∧
       pair_domain g = domain t ∧
       pair_published t (pair_reservations g)
         {| entry_reference := first; entry_rights := pair_rights g |}
         {| entry_reference := second; entry_rights := pair_rights g |} t')
    (λ err t', t' = t ∧ err.2 = (first, second) ∧
       (pair_domain g ≠ domain t ∨ handle_type first ≠ pair_object_type g ∨
        handle_type second ≠ pair_object_type g ∨ ¬ pair_held (pair_reservations g) t)).
Proof.
  intros Hwf [Hg Hok]. unfold try_publish_reserved_pair. cbv zeta.
  apply wp_bind. unfold wp at 1, get.
  destruct (Z.eqb_spec (pair_domain g) (domain t)) as [Hd|]; [|by unfold wp; simpl; auto].
  destruct (Z.eqb_spec (handle_type first) (pair_object_type g)) as [Ht1|];
    [|by unfold wp; simpl; auto].
  destruct (Z.eqb_spec (handle_type second) (pair_object_type g)) as [Ht2|];
    [|unfold wp; simpl; split_and!; auto]. simpl.
  apply wp_bind, wp_map_err.
  eapply wp_mono; [by eapply (validate_pair_wp _ (pair_reservations g))| |].
  - intros [] t1 [-> Hpair]. apply wp_assoc.
    eapply wp_mono; [apply (publish_two_wp (pair_reservations g)); try done| |done].
    + by rewrite <- Ht1 in Hok.
    + by rewrite <- Ht2 in Hok.
    + intros [] t' [Hrun Hres]. done.
  - intros e t1 [-> Hn]. simpl. split_and!; [done|done|auto 6].
Qed.

Lemma try_publish_typed_wp g refs t : table_wf t → typed_ok g t →
  wp (try_publish_typed g refs) t
    (λ res t', res = (complete_typed g, (res_handle (typed_reservations g).1,
                                         res_handle (typed_reservations g).2)) ∧
       typed_domain g = domain t ∧
       pair_published t (typed_reservations g)
         {| entry_reference := refs.1; entry_rights := spec_rights (typed_specs g).1 |}
         {| entry_reference := refs.2; entry_rights := spec_rights (typed_specs g).2 |} t')
    (λ err t', t' = t ∧ err.2 = refs).
Proof.
  intros Hwf ((Hg1 & Hg2 & Hne) & Hok1 & Hok2). unfold try_publish_typed. cbv zeta.
  apply wp_map_err, wp_foreign_or; [done|]. intros Hd.
  apply wp_bind. destruct (Z.eqb_spec (handle_type refs.1) (spec_object_type (typed_specs g).1))
    as [Ht1|]; [|done]. simpl.
  eapply wp_mono; [by eapply validate_guard_wp| |by intros ? ? [-> _]].
  intros [] t1 [-> Hh1]. apply wp_bind.
  destruct (Z.eqb_spec (handle_type refs.2) (spec_object_type (typed_specs g).2))
    as [Ht2|]; [|done]. simpl.
  eapply wp_mono; [by eapply validate_guard_wp| |by intros ? ? [-> _]].
  intros [] t1 [-> Hh2]. apply wp_assoc.
  eapply wp_mono; [apply publish_two_wp; try done| |done].
  - by rewrite <- Ht1 in Hok1.
  - by rewrite <- Ht2 in Hok2.
  - intros [] t' [Hrun Hres]. done.
Qed.

Lemma cancel_pair_wp g t : table_wf t → pair_ok g t →
  wp (cancel_pair g) t
    (λ g' t', g' = complete_pair g ∧ pair_held (pair_reservations g) t ∧
       table_steps [release_event (pair_first g); release_event (pair_second g)] t t')
    (λ _ t', t' = t).
Proof.
  intros Hwf [Hg _]. apply wp_foreign_or; [done|]. intros Hd. apply wp_bind.
  eapply wp_mono; [by eapply release_both_wp| |by intros ? ? [-> _]]. done.
Qed.

Lemma cancel_typed_pair_wp g t : table_wf t → typed_ok g t →
  wp (cancel_typed_pair g) t
    (λ g' t', g' = complete_typed g ∧ pair_held (typed_reservations g) t ∧
       table_steps [release_event (typed_reservations g).1;
                    release_event (typed_reservations g).2] t t')
    (λ _ t', t' = t).
Proof.
  intros Hwf [Hg _]. apply wp_foreign_or; [done|]. intros Hd. apply wp_bind.
  eapply wp_mono; [by eapply release_both_wp| |by intros ? ? [-> _]]. done.
Qed.

(** ** The guard of one transfer destination *)

Definition transfer_ok (g : HandleTransferReservation) (t : HandleTable.t) : Prop :=
  guard_ok (transfer_domain g) (transfer_reservation g) t.

Lemma reserve_transfer_destination_wp t : table_wf t → next_permit t + 1 < 2 ^ 64 →
  wp reserve_transfer_destination t
    (λ g t', transfer_ok g t' ∧ transfer_domain g = domain t ∧
       reservation_held (transfer_reservation g) t' ∧
       res_permit (transfer_reservation g) = next_permit t ∧
       table_steps [reserve_event (transfer_reservation g)] t t')
    (λ e t', e = HandleTableError.Capacity ∧ t' = t ∧
       ∀ i s, slots t !! i = Some s → ¬ available None i s).
Proof.
  intros Hwf Hp. unfold reserve_transfer_destination. apply wp_bind.
  eapply wp_mono; [by apply reserve_slot_wp| |].
  - intros r t' (Hheld & [Hp1 _] & _ & _ & l & _ & Hb & Hrun). rewrite (Hb eq_refl) in Hrun.
    apply wp_bind. unfold wp, get; simpl.
    pose proof (table_steps_domain _ _ _ Hrun) as Hd. split_and!; try done.
    unfold transfer_ok; simpl. by apply held_guard_ok.
  - intros e t' (-> & (l & _ & Hb & Hrun) & _ & Hseen). rewrite (Hb eq_refl) in Hrun.
    inversion Hrun; subst. split_and!; [done|done|]. intros i s Hs.
    apply Hseen; [by eapply lookup_lt_Some|done].
Qed.

Lemma cancel_transfer_wp g t : transfer_ok g t →
  wp (cancel_transfer g) t
    (λ g' t', g' = complete_transfer g ∧ reservation_held (transfer_reservation g) t ∧
       table_steps [release_event (transfer_reservation g)] t t')
    (λ _ t', t' = t ∧
       (transfer_domain g ≠ domain t ∨ ¬ reservation_held (transfer_reservation g) t)).
Proof.
  intros Hg. apply wp_foreign_or; [by auto|]. intros Hd. apply wp_bind.
  apply wp_bind. eapply wp_mono; [by eapply validate_guard_wp| |].
  - intros [] t1 [-> Hheld]. eapply wp_mono; [by apply clear_reservation_wp|done|done].
  - intros e t1 [-> Hn]. auto.
Qed.

Lemma publish_transfer_wp g e t : table_wf t → transfer_ok g t → transfer_domain g = domain t →
  entry_ok e →
  wp (publish_transfer g e) t
    (λ res t', res = (complete_transfer g,
                      {| published_handle := res_handle (transfer_reservation g);
                         published_rights := entry_rights e;
                         published_object_type := handle_type (entry_reference e) |}) ∧
       reservation_held (transfer_reservation g) t ∧
       table_steps [publish_event (transfer_reservation g) e] t t' ∧
       ∃ s, resolves t' (res_handle (transfer_reservation g)) (res_slot (transfer_reservation g)) s e)
    (λ _ t', t' = t ∧ ¬ reservation_held (transfer_reservation g) t).
Proof.
  intros Hwf Hg Hd Hok. unfold publish_transfer. apply wp_bind.
  eapply wp_mono; [by eapply validate_guard_wp| |done].
  intros [] t1 [-> Hheld]. apply wp_bind, wp_unwrap.
  eapply wp_mono; [by apply publish_wp| |done].
  intros [] t' (Hrun & s & Hres & _). unfold wp; simpl. split_and!; try done. by exists s.
Qed.

Lemma try_publish_reference_wp g reference rights t :
  table_wf t → transfer_ok g t → is_uint 64 rights →
  wp (try_publish_reference g reference rights) t
    (λ res t', published_handle res.2 = res_handle (transfer_reservation g) ∧
       rights_ok (handle_type reference) rights ∧
       let e := {| entry_reference := reference; entry_rights := rights |} in
       table_steps [publish_event (transfer_reservation g) e] t t' ∧
       ∃ s, resolves t' (published_handle res.2) (res_slot (transfer_reservation g)) s e)
    (λ err t', t' = t ∧ err.2 = reference).
Proof.
  intros Hwf Hg Hu. apply wp_map_err, wp_foreign_or; [done|]. intros Hd.
  pose proof (rights_ok_checks (handle_type reference) rights Hu) as Hiff.
  destruct (and_then _ _) as [[]|]; [|done].
  pose proof (proj1 Hiff eq_refl) as Hok.
  eapply wp_mono; [by apply publish_transfer_wp| |by intros ? ? [-> _]].
  intros res t' (-> & Hheld & Hrun & Hres). split_and!; done.
Qed.

Definition token_ok (token : HandleTransferToken) : Prop :=
  rights_ok (handle_type (token_reference token)) (token_source_rights token) ∧
  rights_ok (handle_type (token_reference token)) (token_requested_rights token) ∧
  bits_subset (token_requested_rights token) (token_source_rights token).

Definition received_entry (token : HandleTransferToken) : HandleEntry :=
  {| entry_reference := token_reference token; entry_rights := token_requested_rights token |}.

Lemma try_publish_wp g token t : table_wf t → transfer_ok g t → token_ok token →
  wp (try_publish g token) t
    (λ res t', published_handle res.2 = res_handle (transfer_reservation g) ∧
       published_rights res.2 = token_requested_rights token ∧
       table_steps [publish_event (transfer_reservation g) (received_entry token)] t t' ∧
       ∃ s, resolves t' (published_handle res.2) (res_slot (transfer_reservation g)) s
              (received_entry token))
    (λ err t', t' = t ∧ err.2 = token ∧
       (transfer_domain g ≠ domain t ∨ ¬ reservation_held (transfer_reservation g) t)).
Proof.
  intros Hwf Hg (_ & Hok & _). apply wp_map_err, wp_foreign_or; [by auto|]. intros Hd.
  eapply wp_mono; [by apply publish_transfer_wp| |].
  - intros res t' (-> & Hheld & Hrun & Hres). split_and!; done.
  - intros e t' [-> Hn]. simpl. auto.
Qed.
