(* ===== verification/HandleMoves.v ===== *)
(** * Moving handles

    The single move ([prepare_move], [try_extract], [try_finish],
    [try_rollback]) and the batch moves of a channel send and receive follow
    the slot protocol, and never give a receiver rights its sender did not
    hold. *)

From Stdlib Require Import ZArith Lia.
From stdpp Require Import base tactics numbers list gmultiset.
From S2P Require Import Prelude Abi Object ObjectFacts ObjectLedger HandleTable HandleProtocol HandleFacts.
Import HandleTable.
Local Open Scope Z_scope.

(** ** Preparing *)

(** What the checks of a move establish. *)
Definition movable (e : HandleEntry) (requested : DwRights) : Prop :=
  bits_subset DW_RIGHT_TRANSFER (entry_rights e) ∧
  rights_ok (handle_type (entry_reference e)) requested ∧
  bits_subset requested (entry_rights e).

Lemma validate_move_wp {S} e requested (s : S) : is_uint 64 requested →
  wp (validate_move (handle_type (entry_reference e)) (entry_rights e) requested) s
    (λ _ s', s' = s ∧ movable e requested)
    (λ err s', s' = s ∧ ¬ movable e requested ∧
       (err = HandleTableError.InvalidRights ∨ err = HandleTableError.AccessDenied)).
Proof.
  intros Hu. unfold validate_move, movable.
  pose proof (require_held_ok (entry_rights e) DW_RIGHT_TRANSFER) as H1.
  pose proof (rights_ok_checks (handle_type (entry_reference e)) _ Hu) as H2.
  pose proof (require_subset_ok (entry_rights e) _ Hu) as H4.
  apply wp_bind, wp_check_rights; [intros Hr|intros err Hr; rewrite (held_error _ _ _ Hr);
    rewrite Hr in H1; naive_solver].
  apply wp_bind, wp_check_rights; [intros Hs|intros err Hs; rewrite (syntax_error _ _ Hs);
    rewrite Hs in H2; simpl in H2; naive_solver].
  rewrite Hs in H2; simpl in H2.
  apply wp_bind, wp_check_rights; [intros Hc|intros err Hc; rewrite (compatible_error _ _ _ Hc);
    rewrite Hc in H2; naive_solver].
  apply wp_check_rights; [intros Hb|intros err Hb; rewrite (subset_error _ _ _ Hb);
    rewrite Hb in H4; naive_solver].
  split; [done|]. rewrite Hr in H1. rewrite Hc in H2. rewrite Hb in H4. naive_solver.
Qed.

(** The checked prefix [prepare_move_batch] and [prepare_move] share. *)
Lemma resolve_movable_wp {S} t (s0 : S) h requested
    (k : nat → HandleEntry → M S HandleTableError.t PreparedMoveEntry) Q R :
  is_uint 64 requested →
  (∀ i s e, resolves t h i s e → movable e requested → wp (k i e) s0 Q R) →
  (∀ err, (∀ i s e, resolves t h i s e → ¬ movable e requested) → R err s0) →
  wp (slot ← lift (resolve_slot t h);
      entry ← live_entry t slot;
      validate_move (handle_type (entry_reference entry)) (entry_rights entry) requested;;
      k slot entry) s0 Q R.
Proof.
  intros Hu HQ HR. apply wp_bind. unfold wp at 1, lift.
  destruct (resolve_slot t h) as [i|err] eqn:Hres.
  - apply resolve_slot_Ok in Hres as (s & e & Hres). pose proof Hres as (_ & Hdec & Hi & _ & He).
    apply wp_bind. unfold live_entry. apply wp_bind. eapply wp_expect; [done|].
    eapply wp_expect; [done|]. apply wp_bind. eapply wp_mono; [by apply validate_move_wp| |].
    + intros [] s' [-> Hmov]. by eapply HQ.
    + intros err s' (-> & Hn & _). apply HR. intros i' s' e' (_ & Hdec' & Hi' & _ & He').
      rewrite Hdec in Hdec'. congruence.
  - apply HR. intros i s e Hr. exfalso.
    assert (resolve_slot t h = Ok i) by (apply resolve_slot_Ok; eauto). congruence.
Qed.

(** The prepared entry of a resolved, movable source. *)
Definition prepared_from (t : HandleTable.t) (request : HandleMoveRequest) (p : Z)
    (pe : PreparedMoveEntry) : Prop :=
  ∃ i s e, resolves t (req_handle request) i s e ∧ movable e (req_requested_rights request) ∧
    pe = prepared_entry i request e p.

Lemma prepare_move_wp t request :
  table_wf t → next_permit t + 1 < 2 ^ 64 → is_uint 64 (req_requested_rights request) →
  wp (prepare_move request) t
    (λ g t', move_domain g = domain t ∧ move_completed g = false ∧
       ∃ i s e, resolves t (req_handle request) i s e ∧
         movable e (req_requested_rights request) ∧ slot_reservation s = None ∧
         move_entry g = prepared_entry i request e (next_permit t) ∧
         slots t' = <[i := set_reservation (reserved (next_permit t)
                            SlotReservationKind.MovePrepared) s]> (slots t) ∧
         table_steps [(i, EReserve SlotReservationKind.MovePrepared (next_permit t))] t t')
    (λ _ t', t' = t).
Proof.
  intros Hwf Hp Hu. unfold prepare_move. apply wp_map_err, wp_bind. unfold wp at 1, get.
  apply wp_bind. unfold wp at 1, lift.
  destruct (resolve_slot t (req_handle request)) as [i|err] eqn:Hres; [|done].
  apply resolve_slot_Ok in Hres as (s & e & Hres). pose proof Hres as (_ & _ & Hi & Hret & He).
  apply wp_bind. unfold live_entry. apply wp_bind. eapply wp_expect; [done|].
  eapply wp_expect; [done|]. apply wp_bind.
  eapply wp_mono; [by apply validate_move_wp| |by intros ? ? [-> _]].
  intros [] t1 [-> Hmov]. apply wp_bind. unfold reserve_live_slot. apply wp_bind.
  eapply wp_eq; [by apply slot_at_eq|]. destruct (slot_reservation s) eqn:Hr; [done|].
  eapply wp_mono; [by eapply reserve_at_wp; [..|eapply step_reserve_move]| |done].
  intros p t1 (-> & Hrun & Hsl & _). unfold wp; simpl. split_and!; [done|done|].
  exists i, s, e. by rewrite Hr.
Qed.

(** ** The single move *)

Definition entry_matches (pe : PreparedMoveEntry) (e : HandleEntry) : Prop :=
  handle_id (entry_reference e) = prep_object pe ∧
  handle_type (entry_reference e) = prep_object_type pe ∧
  entry_rights e = prep_source_rights pe.

(** A slot that holds the prepared move [pe]. *)
Definition move_held (pe : PreparedMoveEntry) (e : HandleEntry) (t : HandleTable.t) : Prop :=
  ∃ s, slots t !! prep_slot pe = Some s ∧
    slot_reservation s = reserved (prep_permit pe) SlotReservationKind.MovePrepared ∧
    slot_retired s = false ∧ slot_generation s = handle_generation (prep_handle pe) ∧
    slot_entry s = Some e ∧ entry_matches pe e.

(** A slot whose entry the move [pe] has extracted. *)
Definition move_extracted (pe : PreparedMoveEntry) (t : HandleTable.t) : Prop :=
  ∃ s, slots t !! prep_slot pe = Some s ∧
    slot_reservation s = reserved (prep_permit pe) SlotReservationKind.MoveExtracted ∧
    slot_retired s = false ∧ slot_generation s = handle_generation (prep_handle pe) ∧
    slot_entry s = None.

Lemma validate_prepared_held pe e t : move_held pe e t →
  validate_prepared_move pe SlotReservationKind.MovePrepared true t = Ret t tt.
Proof.
  intros (s & Hs & Hr & Hret & Hg & He & Hid & Hty & Hri).
  unfold validate_prepared_move, mbind, M_bind, get.
  rewrite Hs, Hr, bool_decide_true, Hret, Hg, Z.eqb_refl, He by done. simpl.
  by rewrite Hid, Hty, Hri, bool_decide_true, !Z.eqb_refl.
Qed.

Lemma validate_extracted_held pe t : move_extracted pe t →
  validate_prepared_move pe SlotReservationKind.MoveExtracted false t = Ret t tt.
Proof.
  intros (s & Hs & Hr & Hret & Hg & He). unfold validate_prepared_move, mbind, M_bind, get.
  by rewrite Hs, Hr, bool_decide_true, Hret, Hg, Z.eqb_refl, He.
Qed.

Lemma validate_prepared_move_wp pe kind live t :
  wp (validate_prepared_move pe kind live) t
    (λ _ t', t' = t ∧ ∃ s, slots t !! prep_slot pe = Some s ∧
       slot_reservation s = reserved (prep_permit pe) kind ∧ slot_retired s = false ∧
       slot_generation s = handle_generation (prep_handle pe) ∧
       if live then ∃ e, slot_entry s = Some e ∧ entry_matches pe e else slot_entry s = None)
    (λ _ t', t' = t).
Proof.
  unfold validate_prepared_move. apply wp_bind. unfold wp at 1, get.
  destruct (slots t !! prep_slot pe) as [s|] eqn:Hs; [|done].
  case_bool_decide as Hr; [|done]. destruct (slot_retired s) eqn:Hret; [done|].
  destruct (Z.eqb_spec (slot_generation s) (handle_generation (prep_handle pe))) as [Hg|]; [|done].
  destruct live, (slot_entry s) as [e|] eqn:He; simpl; try done.
  - case_bool_decide as Hid; [|done].
    destruct (Z.eqb_spec (handle_type (entry_reference e)) (prep_object_type pe)) as [Hty|]; [|done].
    destruct (Z.eqb_spec (entry_rights e) (prep_source_rights pe)) as [Hri|]; [|done].
    unfold wp; simpl. split; [done|]. exists s. split_and!; try done. by exists e.
  - unfold wp; simpl. split; [done|]. by exists s.
Qed.

Lemma validate_prepared_live pe t :
  wp (validate_prepared_move pe SlotReservationKind.MovePrepared true) t
    (λ _ t', t' = t ∧ ∃ e, move_held pe e t) (λ _ t', t' = t ∧ ∀ e, ¬ move_held pe e t).
Proof.
  pose proof (validate_prepared_move_wp pe SlotReservationKind.MovePrepared true t) as Hwp.
  pose proof (λ e, validate_prepared_held pe e t) as Hheld.
  unfold wp in *. destruct (validate_prepared_move _ _ _ t) as [t1 []|t1 err|]; [| |done].
  - destruct Hwp as (-> & s & Hs & Hr & Hret & Hg & e & He & Hm). split; [done|].
    exists e, s. split_and!; try done; apply Hm.
  - split; [done|]. intros e Hh. by specialize (Hheld e Hh).
Qed.

Lemma validate_prepared_extracted pe t :
  wp (validate_prepared_move pe SlotReservationKind.MoveExtracted false) t
    (λ _ t', t' = t ∧ move_extracted pe t) (λ _ t', t' = t ∧ ¬ move_extracted pe t).
Proof.
  pose proof (validate_prepared_move_wp pe SlotReservationKind.MoveExtracted false t) as Hwp.
  pose proof (validate_extracted_held pe t) as Hheld.
  unfold wp in *. destruct (validate_prepared_move _ _ _ t) as [t1 []|t1 err|]; [| |done].
  - destruct Hwp as (-> & s & Hs). split; [done|]. by exists s.
  - split; [done|]. intros Hh. by specialize (Hheld Hh).
Qed.

Definition moved_token (pe : PreparedMoveEntry) (e : HandleEntry) : HandleTransferToken :=
  {| token_reference := entry_reference e; token_source_rights := entry_rights e;
     token_requested_rights := prep_requested_rights pe |}.

Lemma cancel_prepared_move_wp g t :
  wp (cancel_prepared_move g) t
    (λ g' t', g' = complete_move g ∧ ∃ e, move_held (move_entry g) e t ∧
       table_steps [(prep_slot (move_entry g), ECancelMove (prep_permit (move_entry g)))] t t')
    (λ _ t', t' = t ∧ (move_domain g ≠ domain t ∨ ∀ e, ¬ move_held (move_entry g) e t)).
Proof.
  apply wp_foreign_or; [by auto|]. intros Hd.
  apply wp_bind. eapply wp_mono; [by apply validate_prepared_live| |by intros ? ? [-> ?]; auto].
  intros [] t1 (-> & e & Hheld). pose proof Hheld as (s & Hs & Hr & Hret & Hg & He & Hm).
  apply wp_bind. eapply wp_eq; [by apply update_slot_eq|]. unfold wp; simpl. split; [done|].
  exists e. split; [done|].
  eapply table_step_intro; [done|by eapply step_cancel_move|..]; simpl; try done. lia.
Qed.

Lemma try_extract_wp g t : table_wf t →
  wp (try_extract g) t
    (λ res t', ∃ e, move_held (move_entry g) e t ∧
       res = (complete_move g,
              ({| rollback_domain := move_domain g; rollback_entry := move_entry g;
                  rollback_completed := false |}, moved_token (move_entry g) e)) ∧
       table_steps [(prep_slot (move_entry g), EExtract (prep_permit (move_entry g)) e)] t t' ∧
       move_extracted (move_entry g) t')
    (λ _ t', t' = t ∧ (move_domain g ≠ domain t ∨ ∀ e, ¬ move_held (move_entry g) e t)).
Proof.
  intros Hwf. apply wp_foreign_or; [by auto|]. intros Hd. cbv zeta.
  apply wp_bind. eapply wp_mono; [by apply validate_prepared_live| |by intros ? ? [-> ?]; auto].
  intros [] t1 (-> & e & Hheld). pose proof Hheld as (s & Hs & Hr & Hret & Hg & He & Hm).
  pose proof (wf_live_count _ _ _ _ Hwf Hs He) as Hc. pose proof (lookup_lt_Some _ _ _ Hs) as Hlt.
  apply wp_bind. eapply wp_eq; [by apply take_entry_eq|].
  apply wp_bind. eapply wp_eq; [eapply update_slot_eq; simpl; by apply list_lookup_insert_eq|].
  apply wp_bind. eapply wp_eq; [by apply live_count_sub_eq|]. unfold wp; simpl.
  exists e. split_and!; [done|done| |].
  - eapply table_step_intro; [done|by eapply step_extract|..]; simpl; try done; [|lia].
    by rewrite list_insert_insert_eq.
  - eexists. simpl. rewrite list_insert_insert_eq, list_lookup_insert_eq by done. done.
Qed.

Lemma try_finish_wp g t :
  wp (try_finish g) t
    (λ g' t', g' = complete_rollback g ∧ move_extracted (rollback_entry g) t ∧
       table_steps [(prep_slot (rollback_entry g), EFinish (prep_permit (rollback_entry g)))] t t')
    (λ _ t', t' = t ∧ (rollback_domain g ≠ domain t ∨ ¬ move_extracted (rollback_entry g) t)).
Proof.
  apply wp_foreign_or; [by auto|]. intros Hd.
  apply wp_bind. eapply wp_mono; [by apply validate_prepared_extracted| |by intros ? ? [-> ?]; auto].
  intros [] t1 (-> & Hheld). pose proof Hheld as (s & Hs & Hr & Hret & Hg & He).
  apply wp_bind. eapply wp_eq; [by apply update_slot_eq|]. unfold wp; simpl.
  split_and!; [done|done|].
  eapply table_step_intro; [done|by eapply step_finish|..]; simpl; try done. lia.
Qed.

Lemma token_matches_spec pe token :
  token_matches pe token = true ↔
  handle_id (token_reference token) = prep_object pe ∧
  handle_type (token_reference token) = prep_object_type pe ∧
  token_source_rights token = prep_source_rights pe ∧
  token_requested_rights token = prep_requested_rights pe.
Proof.
  unfold token_matches. rewrite !andb_true_iff, bool_decide_eq_true, !Z.eqb_eq. tauto.
Qed.

Definition restored_entry (token : HandleTransferToken) : HandleEntry :=
  {| entry_reference := token_reference token; entry_rights := token_source_rights token |}.

Lemma try_rollback_wp g token t : table_wf t → token_ok token →
  wp (try_rollback g token) t
    (λ g' t', g' = complete_rollback g ∧ move_extracted (rollback_entry g) t ∧
       table_steps [(prep_slot (rollback_entry g),
                     ERollback (prep_permit (rollback_entry g)) (restored_entry token))] t t')
    (λ err t', t' = t ∧ err.2 = token ∧
       (rollback_domain g ≠ domain t ∨ ¬ move_extracted (rollback_entry g) t ∨
        token_matches (rollback_entry g) token = false)).
Proof.
  intros Hwf (Hok & _). apply wp_map_err, wp_foreign_or; [by auto|]. intros Hd.
  destruct (token_matches _ _) eqn:Hm; simpl; [|unfold wp; simpl; auto].
  apply wp_bind.
  eapply wp_mono; [by apply validate_prepared_extracted| |by intros ? ? [-> ?]; simpl; auto].
  intros [] t1 (-> & Hheld). pose proof Hheld as (s & Hs & Hr & Hret & Hg & He).
  pose proof (wf_vacant_count _ _ _ Hwf Hs He) as Hc.
  apply wp_bind. eapply wp_eq; [by apply update_slot_eq|].
  apply wp_bind. eapply wp_eq; [by apply live_count_add_eq|]. unfold wp; simpl.
  split_and!; [done|done|].
  eapply table_step_intro; [done|by eapply (step_rollback _ _ (restored_entry token))|..];
    simpl; try done. lia.
Qed.

(** ** Preparing and extracting a batch *)

Definition request_ok (request : HandleMoveRequest) : Prop :=
  is_uint 64 (req_handle request) ∧ is_uint 64 (req_requested_rights request).

Lemma has_duplicate_source_spec requests :
  has_duplicate_source requests = false ↔ NoDup (req_handle <$> requests).
Proof.
  induction requests as [|r rest IH]; simpl; [by split; [constructor|]|].
  rewrite orb_false_iff, list.NoDup_cons, IH. apply and_iff_compat_r.
  rewrite <- not_true_iff_false. apply not_iff_compat.
  rewrite existsb_exists, list_elem_of_fmap. split.
  - intros (x & Hx & Heq%Z.eqb_eq). exists x. split; [done|]. by apply list_elem_of_In.
  - intros (x & -> & Hx). exists x. split; [by apply list_elem_of_In|apply Z.eqb_refl].
Qed.

Lemma prepare_move_batch_wp t requests :
  (length requests ≤ HANDLE_TRANSFER_LIMIT)%nat → Forall request_ok requests →
  wp (prepare_move_batch requests) t
    (λ entries t', t' = t ∧ NoDup (req_handle <$> requests) ∧
       Forall2 (λ r pe, prepared_from t r 0 pe) requests entries)
    (λ err t', t' = t ∧
       (err = HandleMovePrepareError.DuplicateSource ∧ ¬ NoDup (req_handle <$> requests) ∨
        ∃ e, err = HandleMovePrepareError.Table e ∧
             ¬ Forall (λ r, ∃ pe, prepared_from t r 0 pe) requests)).
Proof.
  intros Hlen Hok. unfold prepare_move_batch. apply wp_bind.
  unfold wp at 1, assert_that. rewrite (bool_decide_true _ Hlen).
  pose proof (has_duplicate_source_spec requests) as Hdup.
  destruct (has_duplicate_source requests); [unfold wp; simpl; naive_solver|].
  pose proof (proj1 Hdup eq_refl) as Hnd.
  apply (wp_for_each (λ pre entries t', t' = t ∧
    Forall2 (λ r pe, prepared_from t r 0 pe) pre entries)).
  - split; [done|constructor].
  - intros pre r post entries t' Hsplit [-> Hpre].
    apply wp_bind. unfold wp at 1, get. apply wp_bind, wp_map_err.
    rewrite Hsplit in Hok. apply Forall_app in Hok as [_ Hok].
    apply Forall_cons_1 in Hok as [[_ Hu] _].
    apply (resolve_movable_wp t t _ _ (λ slot entry, mret (prepared_entry slot r entry 0)));
      [done| |].
    + intros i s e Hres Hmov. unfold wp; simpl. split; [done|].
      apply Forall2_app; [done|]. constructor; [|constructor]. by exists i, s, e.
    + intros err Hn. split; [done|]. right. exists err. split; [done|].
      rewrite Hsplit. intros Hall. apply Forall_app in Hall as [_ Hall].
      apply Forall_cons_1 in Hall as [(pe & i & s & e & Hres & Hmov & _) _]. by eapply Hn.
  - intros entries t' [-> Hall]. done.
Qed.

(** [t'] is [t] without the entries of the slots [l]. *)
Record emptied (t : HandleTable.t) (l : list nat) (t' : HandleTable.t) : Prop := {
  emptied_domain : domain t' = domain t;
  emptied_permit : next_permit t' = next_permit t;
  emptied_count : live_count t' = live_count t - Z.of_nat (length l);
  emptied_slots i : slots t' !! i =
    if decide (i ∈ l) then set_entry None <$> (slots t !! i) else slots t !! i;
}.

Lemma emptied_refl t : emptied t [] t.
Proof. split; [done|done|simpl; lia|]. intros i. by rewrite decide_False by (apply not_elem_of_nil). Qed.

Lemma emptied_nil t t' : emptied t [] t' → t' = t.
Proof.
  intros [Hd Hp Hc Hs]. destruct t as [d sl c p], t' as [d' sl' c' p']; simpl in *.
  assert (sl' = sl) as ->; [|f_equal; lia].
  apply list_eq. intros i. by rewrite Hs.
Qed.

(** A prepared batch on a table: every source still resolves, no two to the
    same slot. *)
Definition batch_prepared (t : HandleTable.t) (entries : list PreparedMoveEntry)
    (sources : list HandleEntry) : Prop :=
  NoDup (prep_slot <$> entries) ∧
  Forall2 (λ pe e, entry_matches pe e ∧ ∃ s, resolves t (prep_handle pe) (prep_slot pe) s e)
    entries sources.

Lemma decode_handle_inj h h' i g g' : is_uint 64 h → is_uint 64 h' → g = g' →
  decode_handle h = Some (i, g) → decode_handle h' = Some (i, g') → h = h'.
Proof.
  intros Hu Hu' -> H1 H2. pose proof (encode_decode_object_id _ _ _ Hu H1) as H1'.
  pose proof (encode_decode_object_id _ _ _ Hu' H2) as H2'. congruence.
Qed.

Lemma prepared_batch t requests entries :
  Forall request_ok requests → NoDup (req_handle <$> requests) →
  Forall2 (λ r pe, prepared_from t r 0 pe) requests entries →
  ∃ sources, batch_prepared t entries sources ∧
    Forall2 (λ r e, movable e (req_requested_rights r)) requests sources ∧
    Forall2 (λ r pe, prep_requested_rights pe = req_requested_rights r) requests entries.
Proof.
  intros Hok Hnd Hall. unfold batch_prepared.
  induction Hall as [|r pe requests entries (i & s & e & Hres & Hmov & ->) Hall IH].
  { exists []. by repeat constructor. }
  apply Forall_cons_1 in Hok as [[Hu _] Hok]. apply list.NoDup_cons in Hnd as [Hnew Hnd].
  destruct (IH Hok Hnd) as (sources & [Hslots Hsrc] & Hmovs & Hreq).
  exists (e :: sources). split_and!.
  2: { constructor; [|done]. split; [by split|]. eauto. }
  2: { by constructor. }
  2: { by constructor. }
  simpl. apply list.NoDup_cons. split; [|done]. intros Hin.
  apply list_elem_of_fmap in Hin as (pe' & Heq & Hin).
  apply list_elem_of_lookup in Hin as [j Hj].
  destruct (Forall2_lookup_r _ _ _ _ _ Hall Hj) as (r' & Hr' & i' & s' & e' & Hres' & _ & ->).
  simpl in Heq. subst i'. apply Hnew. apply list_elem_of_fmap. exists r'. split.
  - destruct Hres as (_ & Hdec & Hi & _), Hres' as (_ & Hdec' & Hi' & _).
    assert (is_uint 64 (req_handle r')) by (eapply (Forall_lookup_1 _ _ _ _ Hok Hr')).
    eapply decode_handle_inj; [done|done| |done|done]. congruence.
  - by eapply list_elem_of_lookup_2.
Qed.

Lemma emptied_take t l t' i s e :
  emptied t l t' → i ∉ l → slots t !! i = Some s → slot_entry s = Some e →
  emptied t (l ++ [i]) (with_count (live_count t' - 1) (with_slot i (set_entry None s) t')).
Proof.
  intros [Hd Hp Hc Hs] Hi Hsi He. split; simpl; [done|done|rewrite length_app; simpl; lia|].
  pose proof (Hs i) as Hi'. rewrite decide_False, Hsi in Hi' by done.
  intros j. destruct (decide (j = i)) as [->|Hne].
  - rewrite list_lookup_insert_eq by (by eapply lookup_lt_Some).
    rewrite decide_True, Hsi by (apply elem_of_app; right; by apply list_elem_of_singleton). done.
  - rewrite list_lookup_insert_ne by done. rewrite Hs.
    assert (j ∈ l ++ [i] ↔ j ∈ l) as Hiff.
    { rewrite elem_of_app, list_elem_of_singleton. naive_solver. }
    by destruct (decide (j ∈ l)), (decide (j ∈ l ++ [i])); try tauto.
Qed.

Lemma set_entry_back s e : slot_entry s = Some e → set_entry (Some e) (set_entry None s) = s.
Proof. destruct s; simpl. intros ->. done. Qed.

Lemma emptied_put t l t' i s e :
  emptied t (i :: l) t' → i ∉ l → slots t !! i = Some s → slot_entry s = Some e →
  emptied t l (with_count (live_count t' + 1)
                 (with_slot i (set_entry (Some e) (set_entry None s)) t')).
Proof.
  intros [Hd Hp Hc Hs] Hi Hsi He. rewrite set_entry_back by done.
  split; simpl; [done|done|simpl in Hc; lia|].
  pose proof (Hs i) as Hi'. rewrite decide_True, Hsi in Hi' by (apply elem_of_cons; auto).
  intros j. destruct (decide (j = i)) as [->|Hne].
  - rewrite list_lookup_insert_eq by (by eapply lookup_lt_Some). by rewrite decide_False.
  - rewrite list_lookup_insert_ne by done. rewrite Hs.
    assert (j ∈ i :: l ↔ j ∈ l) as Hiff by (rewrite elem_of_cons; naive_solver).
    by destruct (decide (j ∈ l)), (decide (j ∈ i :: l)); try tauto.
Qed.

Definition take_events (entries : list PreparedMoveEntry) (sources : list HandleEntry)
    : list (nat * slot_event) :=
  zip_with (λ pe e, (prep_slot pe, EBatchTake e)) entries sources.

Definition batch_tokens (entries : list PreparedMoveEntry) (sources : list HandleEntry)
    : HandleTransferBatch :=
  zip_with moved_token entries sources.

Lemma resolves_emptied t l t' h i s e : emptied t l t' → i ∉ l → resolves t h i s e →
  resolves t' h i s e.
Proof.
  intros Hem Hi (? & ? & Hs & ? & ?). unfold resolves. split_and!; try done.
  by rewrite (emptied_slots _ _ _ Hem), decide_False.
Qed.

(** One iteration of [extract]. *)
Lemma extract_one_wp {E} t l t' pe e s (transfers : HandleTransferBatch) :
  table_wf t' → emptied t l t' → prep_slot pe ∉ l →
  resolves t (prep_handle pe) (prep_slot pe) s e → entry_matches pe e →
  wp (E:=E) (table ← get;
      assert_that (match resolve_slot table (prep_handle pe) with
                   | Ok slot => (slot =? prep_slot pe)%nat
                   | Err _ => false
                   end);;
      entry ← take_entry (prep_slot pe);
      assert_that (bool_decide (handle_id (entry_reference entry) = prep_object pe));;
      assert_that (handle_type (entry_reference entry) =? prep_object_type pe);;
      assert_that (entry_rights entry =? prep_source_rights pe);;
      live_count_sub;;
      mret (transfers ++ [{| token_reference := entry_reference entry;
                             token_source_rights := entry_rights entry;
                             token_requested_rights := prep_requested_rights pe |}])) t'
    (λ tr t'', tr = transfers ++ [moved_token pe e] ∧ emptied t (l ++ [prep_slot pe]) t'' ∧
               table_steps [(prep_slot pe, EBatchTake e)] t' t'') (λ _ _, False).
Proof.
  intros Hwf Hem Hi Hres (Hid & Hty & Hri).
  pose proof (resolves_emptied _ _ _ _ _ _ _ Hem Hi Hres) as Hres'.
  apply wp_bind. unfold wp at 1, get. apply wp_bind. unfold wp at 1, assert_that.
  rewrite (proj2 (resolve_slot_Ok _ _ _)), Nat.eqb_refl by eauto.
  destruct Hres' as (_ & _ & Hs' & _ & He). destruct Hres as (_ & _ & Hs & _ & _).
  apply wp_bind. eapply wp_eq; [by apply take_entry_eq|].
  apply wp_bind. unfold wp at 1, assert_that. rewrite (bool_decide_true _ Hid).
  apply wp_bind. unfold wp at 1, assert_that. rewrite Hty, Z.eqb_refl.
  apply wp_bind. unfold wp at 1, assert_that. rewrite Hri, Z.eqb_refl.
  pose proof (wf_live_count _ _ _ _ Hwf Hs' He) as Hc.
  apply wp_bind. eapply wp_eq; [by apply live_count_sub_eq|]. unfold wp; simpl.
  split_and!; [by rewrite <- Hri|by eapply emptied_take|].
  eapply table_step_intro; [done|by apply step_batch_take|..]; simpl; try done. lia.
Qed.

Lemma extract_wp {E} t entries sources : table_wf t → batch_prepared t entries sources →
  wp (extract (E:=E) entries) t
    (λ res t', res = (entries, batch_tokens entries sources) ∧
       emptied t (prep_slot <$> entries) t' ∧
       table_steps (take_events entries sources) t t') (λ _ _, False).
Proof.
  intros Hwf [Hnd Hall]. unfold extract. apply wp_bind.
  apply (wp_for_each (λ pre transfers t', ∃ spre spost, sources = spre ++ spost ∧
    length pre = length spre ∧ transfers = batch_tokens pre spre ∧
    emptied t (prep_slot <$> pre) t' ∧ table_steps (take_events pre spre) t t')).
  - exists [], sources. split_and!; try done; [apply emptied_refl|constructor].
  - intros pre pe post transfers t' Hsplit (spre & spost & Hsrc & Hlen & -> & Hem & Hrun).
    rewrite Hsplit, Hsrc in Hall. apply Forall2_app_inv in Hall as [_ Hall]; [|done].
    apply Forall2_cons_inv_l in Hall as (e & spost' & [Hm [s Hres]] & _ & ->).
    rewrite Hsplit, fmap_app in Hnd. apply list.NoDup_app in Hnd as (_ & Hdisj & _).
    assert (prep_slot pe ∉ prep_slot <$> pre).
    { intros Hin. apply (Hdisj _ Hin). simpl. apply elem_of_cons. auto. }
    pose proof (table_steps_wf _ _ _ Hwf Hrun) as Hwf'.
    eapply wp_mono; [by eapply extract_one_wp| |done].
    intros tr t'' (-> & Hem' & Hrun'). exists (spre ++ [e]), spost'.
    unfold batch_tokens, take_events. rewrite <- app_assoc, !length_app, fmap_app.
    rewrite !zip_with_app by done. split_and!; try done; [simpl; lia|].
    by eapply table_steps_app.
  - intros transfers t' (spre & spost & -> & Hlen & -> & Hem & Hrun).
    apply Forall2_length in Hall. rewrite length_app in Hall.
    destruct spost; [|simpl in Hall; lia]. rewrite app_nil_r. unfold wp; simpl. done.
Qed.

(** ** Rolling a batch back, or finishing it *)

Lemma emptied_lookup t l t' i s : emptied t l t' → i ∈ l → slots t !! i = Some s →
  slots t' !! i = Some (set_entry None s).
Proof. intros Hem Hi Hs. by rewrite (emptied_slots _ _ _ Hem), decide_True, Hs. Qed.

Lemma moved_token_matches pe e : entry_matches pe e → token_matches pe (moved_token pe e) = true.
Proof. intros (? & ? & ?). by apply token_matches_spec. Qed.

Lemma emptied_vacant_count t l t' i : table_wf t → emptied t (i :: l) t' →
  live_count t' + 1 < 2 ^ 64.
Proof.
  intros Hwf Hem. rewrite (emptied_count _ _ _ Hem), (wf_count _ Hwf). simpl.
  pose proof (entry_tokens_size_le (slots t)). pose proof (wf_capacity _ Hwf). lia.
Qed.

(** A batch rolled back leaves the very table it was prepared on. *)
Lemma rollback_identity {E} t t' entries sources : table_wf t → batch_prepared t entries sources →
  emptied t (prep_slot <$> entries) t' →
  wp (rollback (E:=E) entries (batch_tokens entries sources)) t' (λ _ t'', t'' = t) (λ _ _, False).
Proof.
  intros Hwf [Hnd Hall] Hem. unfold rollback, batch_tokens. apply wp_bind.
  pose proof (Forall2_length Hall) as Hlen.
  unfold wp at 1, assert_that. rewrite length_zip_with_l_eq, Nat.eqb_refl by done.
  revert t' Hem. clear Hlen.
  induction Hall as [|pe e entries sources [Hm (s & Hres)] Hall IH]; intros t' Hem; simpl.
  { unfold wp; simpl. by apply emptied_nil. }
  simpl in Hnd. apply list.NoDup_cons in Hnd as [Hnew Hnd].
  pose proof Hres as (_ & Hdec & Hs & Hret & He).
  pose proof (emptied_lookup _ _ _ _ _ Hem ltac:(apply elem_of_cons; auto) Hs) as Hs'.
  do 2 apply wp_bind. unfold wp at 1, assert_that. rewrite (moved_token_matches _ _ Hm).
  apply wp_bind. eapply wp_eq; [by apply slot_at_eq|].
  apply wp_bind. unfold wp at 1, assert_that. simpl. rewrite Hret. simpl.
  rewrite (decode_handle_generation _ _ _ Hdec), Z.eqb_refl.
  apply wp_bind. eapply wp_eq; [by apply update_slot_eq|].
  eapply wp_eq; [apply live_count_add_eq; simpl; by eapply emptied_vacant_count|].
  apply IH; [done|]. eapply (emptied_put _ _ _ _ _ e) in Hem; [|done..].
  by destruct e.
Qed.

Lemma with_slot_id t i s : slots t !! i = Some s → with_slot i s t = t.
Proof. intros Hs. destruct t. unfold with_slot; simpl in *. by rewrite list_insert_id. Qed.

Lemma live_retirable s e : slot_ok s → slot_entry s = Some e → retirable (slot_reservation s).
Proof.
  intros Hok He. destruct (slot_reservation s) as [[p k]|] eqn:Hr; [|done]. simpl.
  destruct (decide (k = SlotReservationKind.MovePrepared)) as [|Hk]; [done|].
  destruct (so_vacant _ Hok _ _ Hr Hk) as [Hn _]. congruence.
Qed.

(** A committed batch retires the slots whose generation is spent. *)
Lemma finish_wp {E} t t' entries sources : table_wf t → batch_prepared t entries sources →
  emptied t (prep_slot <$> entries) t' →
  wp (finish (E:=E) entries) t'
    (λ _ t'', ∃ l, retires l ∧ table_steps l t' t'') (λ _ _, False).
Proof.
  intros Hwf [Hnd Hall] Hem. unfold finish.
  apply (wp_for_each (λ pre _ t'', (∃ l, retires l ∧ table_steps l t' t'') ∧
    ∀ i, i ∉ prep_slot <$> pre → slots t'' !! i = slots t' !! i)).
  { split; [|done]. exists []. split; constructor. }
  2: { intros _ t'' [Hl _]. done. }
  intros pre pe post _ t'' Hsplit [(l & Hl & Hrun) Hrest].
  rewrite Hsplit in Hall. apply Forall2_app_inv_l in Hall as (spre & spost & _ & Hall & _).
  apply Forall2_cons_inv_l in Hall as (e & spost' & [Hm (s & Hres)] & _ & ->).
  rewrite Hsplit, fmap_app in Hnd, Hem. apply list.NoDup_app in Hnd as (_ & Hdisj & _).
  pose proof Hres as (_ & Hdec & Hs & Hret & He).
  assert (slots t'' !! prep_slot pe = Some (set_entry None s)) as Hs'.
  { rewrite Hrest.
    - eapply emptied_lookup; [done| |done]. apply elem_of_app. right. apply elem_of_cons. auto.
    - intros Hin. apply (Hdisj _ Hin). simpl. apply elem_of_cons. auto. }
  apply wp_bind. eapply wp_eq; [by apply slot_at_eq|].
  apply wp_bind. unfold wp at 1, assert_that. simpl.
  rewrite (decode_handle_generation _ _ _ Hdec), Z.eqb_refl.
  eapply wp_eq; [by apply update_slot_eq|].
  split.
  2: { intros i Hi. rewrite fmap_app in Hi. simpl. rewrite list_lookup_insert_ne.
       - apply Hrest. intros Hin. apply Hi. apply elem_of_app. auto.
       - intros <-. apply Hi. apply elem_of_app. right. by apply list_elem_of_singleton. }
  unfold retire_if_exhausted. destruct (next_generation _).
  - exists l. split; [done|]. by rewrite with_slot_id.
  - exists (l ++ [(prep_slot pe, ERetire)]). split; [by apply Forall_app_2; [|constructor]|].
    eapply table_steps_app; [done|]. eapply table_step_intro; [done|apply step_retire|..];
      simpl; try done; [|lia]. by eapply live_retirable; [eapply wf_slots|].
Qed.

(** ** Receiving a batch *)

Definition all_held (rs : list Reservation) (t : HandleTable.t) : Prop :=
  Forall (λ r, reservation_held r t) rs ∧ NoDup (res_permit <$> rs).

(** A run that only reserves and gives back. *)
Definition quiet (l : list (nat * slot_event)) : Prop := run_gained l = ∅ ∧ run_lost l = ∅.

Lemma retires_run l : retires l →
  quiet l ∧ run_issued l = ∅ ∧ run_completed l = ∅.
Proof.
  unfold quiet. induction 1 as [|iev l Hev _ ([IH1 IH2] & IH3 & IH4)]; [done|]. simpl.
  rewrite Hev, IH1, IH2, IH3, IH4. simpl. split_and!; multiset_solver.
Qed.

Lemma quiet_app l1 l2 : quiet l1 → quiet l2 → quiet (l1 ++ l2).
Proof.
  intros [H1 H2] [H3 H4]. unfold quiet.
  rewrite run_gained_app, run_lost_app, H1, H2, H3, H4. split; multiset_solver.
Qed.

Lemma all_held_stable rs l t t' : table_wf t → all_held rs t →
  Forall (λ iev, ∀ p, event_permit iev.2 = Some p → p ∉ res_permit <$> rs) l →
  table_steps l t t' → all_held rs t'.
Proof.
  intros Hwf [Hall Hnd] Hl Hrun. split; [|done].
  apply list.Forall_forall. intros r Hr.
  eapply held_stable; [done|by eapply list.Forall_forall in Hall| |done].
  eapply list.Forall_impl; [exact Hl|]. intros iev Hp Heq. simpl in Hp.
  apply (Hp _ Heq). apply list_elem_of_fmap. eauto.
Qed.

(** Giving back every reservation of a list. *)
Lemma release_all_wp {E} rs t : table_wf t → all_held rs t →
  wp (E:=E) (for_each rs (λ reservation _,
        unwrap (release_reservation reservation SlotReservationKind.Destination)) tt) t
    (λ _ t', ∃ l, table_steps l t t' ∧ quiet l ∧ run_issued l = ∅ ∧
                  run_completed l = list_to_set_disj (res_permit <$> rs)) (λ _ _, False).
Proof.
  revert t. induction rs as [|r rs IH]; intros t Hwf [Hall Hnd]; simpl.
  { unfold wp; simpl. exists []. split_and!; try done. constructor. }
  apply Forall_cons_1 in Hall as [Hr Hall]. simpl in Hnd.
  apply list.NoDup_cons in Hnd as [Hnew Hnd].
  apply wp_bind, wp_unwrap. eapply wp_mono; [by apply release_reservation_wp| |done].
  intros [] t1 Hrun1. eapply wp_mono; [apply IH|  |done].
  - by eapply table_steps_wf.
  - eapply all_held_stable; [exact Hwf|by split| |exact Hrun1].
    constructor; [|constructor]. by intros p [= <-].
  - intros _ t2 (l & Hrun2 & [Hq1 Hq2] & Hi & Hc).
    exists ((res_slot r, ERelease (res_permit r)) :: l).
    split_and!; [by eapply (table_steps_app [_])|split|..]; simpl;
      rewrite ?Hq1, ?Hq2, ?Hi, ?Hc; simpl; multiset_solver.
Qed.

Definition reserving (rs : list Reservation) (t t' : HandleTable.t) : Prop :=
  all_held rs t' ∧ next_permit t' = next_permit t + Z.of_nat (length rs) ∧
  ∃ l, table_steps l t t' ∧ quiet l ∧ run_completed l = ∅ ∧
       run_issued l = list_to_set_disj (res_permit <$> rs).

Lemma reserving_next rs t t' r t'' : table_wf t → reserving rs t t' →
  reserved_by None true t' r t'' → reserving (rs ++ [r]) t t''.
Proof.
  intros Hwf ([Hall Hnd] & Hnp & l & Hrun & Hq & Hc & Hi)
    (Hheld & [Hp Hnp'] & _ & _ & lr & Hlr & _ & Hrun').
  pose proof (table_steps_wf _ _ _ Hwf Hrun) as Hwf'.
  destruct (retires_run _ Hlr) as (Hqr & Hir & Hcr).
  assert (Forall (λ r', res_permit r' < res_permit r) rs) as Hlt.
  { eapply list.Forall_impl; [exact Hall|]. intros r' (_ & s & Hs & Hr & _).
    rewrite Hp. by apply (wf_permits _ Hwf' _ _ _ _ Hs Hr). }
  split_and!.
  - split.
    + apply Forall_app_2; [|by constructor; [|constructor]].
      eapply (all_held_stable rs) in Hrun'; [by apply Hrun'|done|done|].
      apply Forall_app_2; [|by constructor; [|constructor]].
      eapply list.Forall_impl; [exact Hlr|]. by intros iev ->.
    + rewrite fmap_app. apply list.NoDup_app. split_and!; [done| |apply NoDup_singleton].
      intros p Hin Hin'. simpl in Hin'. apply list_elem_of_singleton in Hin' as ->.
      apply list_elem_of_fmap in Hin as (r' & Heq & Hin).
      pose proof (proj1 (list.Forall_forall _ _) Hlt _ Hin). simpl in *. lia.
  - rewrite Hnp', Hnp, length_app. simpl. lia.
  - exists (l ++ lr ++ [(res_slot r, EReserve SlotReservationKind.Destination (res_permit r))]).
    split_and!; [by eapply table_steps_app|repeat apply quiet_app; done|..].
    + rewrite !run_completed_app, Hc, Hcr. simpl. multiset_solver.
    + rewrite !run_issued_app, Hi, Hir, fmap_app, list_to_set_disj_app. simpl. multiset_solver.
Qed.

(** A receive reserves all the slots it needs, or keeps none. *)
Lemma reserve_transfer_batch_wp t count : table_wf t →
  (count ≤ HANDLE_TRANSFER_LIMIT)%nat → next_permit t + Z.of_nat count < 2 ^ 64 →
  wp (reserve_transfer_batch count) t
    (λ rs t', length rs = count ∧ reserving rs t t')
    (λ err t', err = HandleTableError.Capacity ∧
       ∃ l, table_steps l t t' ∧ quiet l ∧ run_completed l = run_issued l).
Proof.
  intros Hwf Hcount Hp. unfold reserve_transfer_batch. apply wp_bind.
  unfold wp at 1, assert_that. rewrite (bool_decide_true _ Hcount).
  apply (wp_for_each (λ pre rs t', length rs = length pre ∧ reserving rs t t')).
  - split; [done|]. split_and!; [split; constructor|simpl; lia|].
    exists []. split_and!; try done. constructor.
  - intros pre i post rs t' [-> Hlt]%seq_split_at [Hlen Hres].
    pose proof Hres as (Hall & Hnp & l & Hrun & Hq & Hc & Hi).
    pose proof (table_steps_wf _ _ _ Hwf Hrun) as Hwf'.
    apply wp_bind, wp_try. eapply wp_mono; [apply reserve_slot_wp; [done|lia]| |].
    + intros r t'' Hr. unfold wp; simpl. rewrite !length_app. split; [simpl; lia|].
      by eapply reserving_next.
    + intros err t'' (-> & (lr & Hlr & _ & Hrun') & _).
      destruct (retires_run _ Hlr) as (Hqr & Hir & Hcr).
      apply wp_bind. eapply wp_mono; [apply release_all_wp| |done].
      * by eapply table_steps_wf.
      * eapply all_held_stable; [exact Hwf'|done| |exact Hrun'].
        eapply list.Forall_impl; [exact Hlr|]. by intros iev ->.
      * intros _ t3 (l3 & Hrun3 & Hq3 & Hi3 & Hc3). unfold wp; simpl. split; [done|].
        exists (l ++ lr ++ l3). split_and!.
        -- eapply table_steps_app; [done|]. by eapply table_steps_app.
        -- repeat apply quiet_app; done.
        -- rewrite !run_completed_app, !run_issued_app, Hc, Hcr, Hc3, Hi, Hir, Hi3. multiset_solver.
  - intros rs t' [Hlen Hres]. by rewrite length_seq in Hlen.
Qed.

Definition published_info (r : Reservation) (token : HandleTransferToken) : PublishedHandleInfo :=
  {| published_handle := res_handle r; published_rights := token_requested_rights token;
     published_object_type := handle_type (token_reference token) |}.

Definition publish_events (rs : list Reservation) (tokens : HandleTransferBatch)
    : list (nat * slot_event) :=
  zip_with (λ r token, publish_event r (received_entry token)) rs tokens.

Definition resolves_received (t : HandleTable.t) (r : Reservation) (token : HandleTransferToken)
    : Prop :=
  ∃ s, resolves t (res_handle r) (res_slot r) s (received_entry token).

(** The slots of held reservations with distinct permits are distinct. *)
Lemma held_slots_distinct r r' t : reservation_held r t → reservation_held r' t →
  res_permit r ≠ res_permit r' → res_slot r ≠ res_slot r'.
Proof. intros H1 H2 Hne. by apply (pair_held_slots (r, r') t). Qed.

(** One iteration of [publish_batch]. *)
Lemma publish_one_wp {E} t r token (published : list PublishedHandleInfo) :
  table_wf t → reservation_held r t → token_ok token →
  wp (E:=E) (unwrap (validate_reservation r SlotReservationKind.Destination);;
      unwrap (publish r {| entry_reference := token_reference token;
                           entry_rights := token_requested_rights token |});;
      mret (published ++ [{| published_handle := res_handle r;
                             published_rights := token_requested_rights token;
                             published_object_type := handle_type (token_reference token) |}])) t
    (λ ps t', ps = published ++ [published_info r token] ∧
       table_steps [publish_event r (received_entry token)] t t' ∧ resolves_received t' r token)
    (λ _ _, False).
Proof.
  intros Hwf Hheld (_ & Hok & _). apply wp_bind, wp_unwrap.
  eapply wp_eq; [by apply validate_reservation_held|].
  apply wp_bind, wp_unwrap. eapply wp_mono; [by apply (publish_wp _ (received_entry token))| |done].
  intros [] t' (Hrun & s & Hres & _). unfold wp; simpl. split_and!; [done|done|]. by exists s.
Qed.

Lemma publish_batch_loop {E} rs tokens t published : table_wf t → all_held rs t →
  Forall token_ok tokens → length rs = length tokens →
  wp (E:=E) (for_each (zip rs tokens) (λ '(reservation, token) published,
       unwrap (validate_reservation reservation SlotReservationKind.Destination);;
       unwrap (publish reservation
         {| entry_reference := token_reference token;
            entry_rights := token_requested_rights token |});;
       mret (published ++ [{| published_handle := res_handle reservation;
                              published_rights := token_requested_rights token;
                              published_object_type := handle_type (token_reference token) |}]))
     published) t
    (λ ps t', ps = published ++ zip_with published_info rs tokens ∧
       table_steps (publish_events rs tokens) t t' ∧
       Forall2 (resolves_received t') rs tokens) (λ _ _, False).
Proof.
  revert tokens t published. induction rs as [|r rs IH]; intros [|token tokens] t published
    Hwf [Hall Hnd] Htok Hlen; simplify_eq/=.
  { unfold wp; simpl. rewrite app_nil_r. split_and!; [done|constructor|constructor]. }
  apply Forall_cons_1 in Hall as [Hr Hall], Htok as [Hk Htok].
  apply list.NoDup_cons in Hnd as [Hnew Hnd].
  apply wp_bind. eapply wp_mono; [by apply publish_one_wp| |done].
  intros ps t1 (-> & Hrun1 & Hres1). eapply wp_mono; [apply IH; try done| |done].
  - by eapply table_steps_wf.
  - eapply all_held_stable; [exact Hwf|by split| |exact Hrun1].
    constructor; [|constructor]. by intros p [= <-].
  - intros ps t2 (-> & Hrun2 & Hres2). rewrite <- app_assoc.
    split_and!; [done|by eapply (table_steps_app [_])|]. constructor; [|done].
    destruct Hres1 as (s & H1 & H2 & Hs & H4 & H5). exists s.
    unfold resolves. split_and!; try done.
    eapply table_steps_slot; [exact Hrun2| |exact Hs].
    unfold publish_events. apply list.Forall_forall. intros iev Hin.
    apply elem_of_lookup_zip_with in Hin as (j & r' & token' & -> & Hj & _). simpl.
    assert (r' ∈ rs) as Hin by (by eapply list_elem_of_lookup_2).
    pose proof (proj1 (list.Forall_forall _ _) Hall _ Hin) as Hr'.
    apply not_eq_sym, (held_slots_distinct _ _ t Hr Hr').
    intros Heq. apply Hnew. rewrite Heq. by apply list_elem_of_fmap_2.
Qed.

Lemma publish_batch_wp {E} rs tokens t : table_wf t → all_held rs t →
  Forall token_ok tokens → length rs = length tokens →
  wp (publish_batch (E:=E) rs tokens) t
    (λ ps t', ps = zip_with published_info rs tokens ∧
       table_steps (publish_events rs tokens) t t' ∧
       Forall2 (resolves_received t') rs tokens) (λ _ _, False).
Proof.
  intros Hwf Hall Htok Hlen. unfold publish_batch. apply wp_bind.
  unfold wp at 1, assert_that. rewrite Hlen, Nat.eqb_refl.
  by apply (publish_batch_loop rs tokens t []).
Qed.
