(* ===== verification/HandleOwnership.v ===== *)
(** * The handle table and the object registry together

    A table's entries own one handle reference each.  Against the contract
    [RegistryContract] of the registry, every operation that reaches both
    ([close], [lookup], [duplicate], [drain_window], [drain] and the release of
    a transfer batch) is shown to keep the registry's books: the references
    outstanding are exactly the table's entries and those held elsewhere. *)

From stdpp Require Import base tactics numbers list gmultiset.
From Stdlib Require Import ZArith Lia.
From S2P Require Import Prelude Abi Object ObjectFacts ObjectLedger HandleTable HandleProtocol HandleFacts HandleMoves.
Import HandleTable.
Local Open Scope Z_scope.

Section ownership.
Context {owns : ObjectRegistry.t → gmultiset Token → gmultiset FinalRelease → Prop}.
Context `{!RegistryContract owns}.
Implicit Types (t : HandleTable.t) (reg : ObjectRegistry.t) (F : gmultiset Token)
  (finals : gmultiset FinalRelease).

(** [F] are the references held outside the table: other tables, queued
    transfers, lookups in progress. *)
Definition coherent t reg F finals : Prop :=
  table_wf t ∧ owns reg (entry_tokens (slots t) ⊎ F) finals.

Definition option_final (o : option FinalRelease) : gmultiset FinalRelease :=
  match o with Some f => {[+ f +]} | None => ∅ end.

(** A release is final exactly when no other reference to the object is
    left, and then names the object. *)
Definition final_iff_last (refs : gmultiset Token) (tok : Token) (o : option FinalRelease)
    : Prop :=
  match o with
  | Some f => f = {| final_id := tok.1.2; final_type := tok.2 |} ∧ unreferenced refs tok.1.2
  | None => ¬ unreferenced refs tok.1.2
  end.

Lemma released_owns refs finals tok o r' :
  released owns (refs ⊎ {[+ tok +]}) finals tok o r' →
  owns r' refs (finals ⊎ option_final o) ∧ final_iff_last refs tok o.
Proof.
  unfold released, final_iff_last. rewrite gmultiset_add_remove.
  destruct o as [f|]; simpl; [tauto|].
  intros [Hn Ho]. assert (finals ⊎ ∅ = finals) as -> by multiset_solver. tauto.
Qed.

(** Taking one entry and releasing its reference. *)
Lemma remove_release_wp {E} t reg F finals i s e :
  coherent t reg F finals → slots t !! i = Some s → slot_entry s = Some e →
  slot_reservation s = None →
  wp (E:=E) (entry ← on_fst (remove_entry i);
      on_snd (unwrap (ObjectRegistry.release_handle (entry_reference entry)))) (t, reg)
    (λ o st', table_steps [(i, ETake e)] t st'.1 ∧
       slots st'.1 = <[i := retire_if_exhausted (set_entry None s)]> (slots t) ∧
       coherent st'.1 st'.2 F (finals ⊎ option_final o) ∧
       final_iff_last (entry_tokens (slots st'.1) ⊎ F) (entry_token e) o) (λ _ _, False).
Proof.
  intros [Hwf Ho] Hi He Hr. apply wp_bind, wp_on_fst.
  eapply wp_mono; [by eapply remove_entry_wp| |done].
  intros e' t1 [-> Hrun]. pose proof (table_steps_tokens _ _ _ Hwf Hrun) as Htok.
  assert (entry_tokens (slots t) ⊎ F =
    entry_tokens (slots t1) ⊎ F ⊎ {[+ entry_token e +]}) as Hrefs.
  { simpl in Htok. multiset_solver. }
  apply wp_on_snd, wp_unwrap.
  eapply wp_mono; [apply (release_handle_owns (owns:=owns)); [done|]| |done].
  - rewrite Hrefs. unfold entry_token. multiset_solver.
  - intros o reg' Hrel. rewrite Hrefs in Hrel. apply released_owns in Hrel as [Ho' Hfin].
    split_and!; [done| |by split; [eapply table_steps_wf|]|done]. simpl.
    inversion_clear Hrun as [|? ? ? ? ? [(s1 & s2 & Hs1 & Hst & Hsl) _ _ _] Hnil].
    inversion Hnil; subst. simpl in *. rewrite Hsl. inversion Hst; subst. congruence.
Qed.

(** ** Closing *)

Lemma close_wp t reg F finals h : coherent t reg F finals →
  wp (close h) (t, reg)
    (λ o st', ∃ i s e, resolves t h i s e ∧ slot_reservation s = None ∧
       table_steps [(i, ETake e)] t st'.1 ∧ coherent st'.1 st'.2 F (finals ⊎ option_final o) ∧
       final_iff_last (entry_tokens (slots st'.1) ⊎ F) (entry_token e) o)
    (λ err st', st' = (t, reg) ∧
       (err = HandleTableError.InvalidHandle ∧
          resolve_slot t h = Err HandleTableError.InvalidHandle ∨
        err = HandleTableError.AccessDenied ∧
          ∃ i s e, resolves t h i s e ∧ slot_reservation s ≠ None)).
Proof.
  intros Hco. unfold close. apply wp_bind, wp_on_fst.
  eapply wp_mono; [by apply resolve_mutation_slot_wp| |by intros err t' [-> ?]].
  intros i t' (-> & s & e & Hres & Hr). pose proof Hres as (_ & _ & Hi & _ & He).
  eapply wp_mono; [by eapply remove_release_wp| |done].
  intros o st' (Hrun & _ & Hco' & Hfin). exists i, s, e. done.
Qed.

(** ** Looking up *)

(** What [lookup] and [inspect_object_id] check of an entry. *)
Definition grants (accepted : AcceptedObjectTypes.t) (required : DwRights) (e : HandleEntry)
    : Prop :=
  AcceptedObjectTypes.accepts accepted (handle_type (entry_reference e)) = true ∧
  bits_subset required (dw_object_compatible_rights (handle_type (entry_reference e))) ∧
  bits_subset required (entry_rights e).

Lemma checked_entry_wp {S} t h accepted required (s0 : S) : is_uint 64 required →
  wp (checked_entry t h accepted required) s0
    (λ e s', s' = s0 ∧ grants accepted required e ∧ ∃ i s, resolves t h i s e)
    (λ err s', s' = s0 ∧ err ≠ HandleTableError.Capacity ∧
               err ≠ HandleTableError.ReferenceCapacity).
Proof.
  intros Hu. unfold checked_entry.
  apply wp_bind, wp_check_rights; [intros Hreq|by intros []].
  apply wp_bind. eapply wp_mono; [by apply resolve_entry_wp| |by intros err s' (-> & -> & _)].
  intros e s' (-> & i & s & Hres). cbv zeta.
  destruct (AcceptedObjectTypes.accepts _ _) eqn:Hacc; simpl; [|done].
  apply wp_bind, wp_check_rights; [intros Hc|by intros []].
  apply wp_bind, wp_check_rights; [intros Hh|by intros []]. unfold wp; simpl.
  apply validate_compatible_ok in Hc; [|done]. apply require_held_ok in Hh.
  split_and!; [done|done|]. eauto.
Qed.

(** The checks pass for every subset of a live entry's rights. *)
Lemma checked_entry_granted {S} t h accepted required (s0 : S) i s e :
  table_wf t → is_uint 64 required → resolves t h i s e →
  AcceptedObjectTypes.accepts accepted (handle_type (entry_reference e)) = true →
  bits_subset required (entry_rights e) →
  checked_entry t h accepted required s0 = Ret s0 e.
Proof.
  intros Hwf Hu Hres Hacc Hsub. pose proof Hres as (_ & _ & Hs & _ & He).
  destruct (so_entry _ (wf_slots _ Hwf _ _ Hs) _ He) as (_ & _ & _ & _ & Hknown & Hcompat).
  pose proof (transitivity Hsub Hknown) as Hk. apply validate_required_syntax_ok in Hk; [|done].
  pose proof (transitivity Hsub Hcompat) as Hc. apply validate_compatible_ok in Hc; [|done].
  pose proof (proj2 (require_held_ok _ _) Hsub) as Hh.
  pose proof (proj2 (resolve_slot_Ok t h i) (ex_intro _ s (ex_intro _ e Hres))) as Hslot.
  unfold checked_entry, resolve_entry, live_entry, check_rights, mbind, M_bind, map_err, lift, expect.
  rewrite Hk. rewrite Hslot, Hs, He, Hacc. simpl. by rewrite Hc, Hh.
Qed.

Lemma lookup_wp t reg F finals h accepted required :
  coherent t reg F finals → is_uint 64 required →
  wp (lookup t h accepted required) reg
    (λ rh reg', ∃ i s e, resolves t h i s e ∧ grants accepted required e ∧
       ResolvedHandle.object_id rh = handle_id (entry_reference e) ∧
       ResolvedHandle.object_type rh = handle_type (entry_reference e) ∧
       ResolvedHandle.rights rh = entry_rights e ∧
       coherent t reg' (F ⊎ {[+ internal_token (ResolvedHandle.reference rh) +]}) finals)
    (λ err reg', reg' = reg ∧ err ≠ HandleTableError.Capacity).
Proof.
  intros [Hwf Ho] Hu. unfold lookup. apply wp_bind.
  eapply wp_mono; [by apply checked_entry_wp| |by intros err s' (-> & ? & _)].
  intros e s' (-> & Hg & i & s & Hres). pose proof Hres as (_ & _ & Hi & _ & He).
  apply wp_bind, wp_map_err_or_panic.
  eapply wp_mono; [apply (retain_internal_from_handle_owns (owns:=owns)); [done|]| |].
  - apply (entry_tokens_lookup _ _ _ _ Hi) in He. unfold entry_token in He. multiset_solver.
  - intros n reg' (Hid & Hty & Ho'). unfold wp; simpl. exists i, s, e.
    split_and!; try done. split; [done|]. simpl. by rewrite gmultiset_disj_union_assoc.
  - by intros err reg' (-> & -> & _).
Qed.

Lemma lookup_granted_wp t reg F finals h accepted required i s e :
  coherent t reg F finals → is_uint 64 required → resolves t h i s e →
  AcceptedObjectTypes.accepts accepted (handle_type (entry_reference e)) = true →
  bits_subset required (entry_rights e) →
  wp (lookup t h accepted required) reg
    (λ rh reg', ResolvedHandle.object_id rh = handle_id (entry_reference e) ∧
       ResolvedHandle.object_type rh = handle_type (entry_reference e) ∧
       ResolvedHandle.rights rh = entry_rights e ∧
       coherent t reg' (F ⊎ {[+ internal_token (ResolvedHandle.reference rh) +]}) finals)
    (λ err reg', reg' = reg ∧ err = HandleTableError.ReferenceCapacity ∧
       exhausted (entry_tokens (slots t) ⊎ F)
         (ReferenceKind.Internal, handle_id (entry_reference e), handle_type (entry_reference e))).
Proof.
  intros [Hwf Ho] Hu Hres Hacc Hsub. unfold lookup. apply wp_bind.
  eapply wp_eq; [by eapply checked_entry_granted|].
  pose proof Hres as (_ & _ & Hi & _ & He). apply wp_bind, wp_map_err_or_panic.
  eapply wp_mono; [apply (retain_internal_from_handle_owns (owns:=owns)); [done|]| |].
  - apply (entry_tokens_lookup _ _ _ _ Hi) in He. unfold entry_token in He. multiset_solver.
  - intros n reg' (Hid & Hty & Ho'). unfold wp; simpl.
    split_and!; try done. split; [done|]. simpl. by rewrite gmultiset_disj_union_assoc.
  - by intros err reg' (-> & -> & Hex).
Qed.

(** ** Duplicating *)

(** A live entry is out of the reach of reservations, retirements and
    publications, which need a vacant slot. *)
Definition reserving_event (iev : nat * slot_event) : Prop :=
  iev.2 = ERetire ∨ (∃ p, iev.2 = EReserve SlotReservationKind.Destination p) ∨
  ∃ p e, iev.2 = EPublish p e.

Lemma live_untouched l t t' i s e : Forall reserving_event l → table_steps l t t' →
  slots t !! i = Some s → slot_entry s = Some e → slots t' !! i = Some s.
Proof.
  intros Hl Hrun Hi He. induction Hrun as [|iev l t1 t2 t3 Hstep Hrun IH]; [done|].
  apply Forall_cons_1 in Hl as [Hev Hl]. apply IH; [done|].
  destruct Hstep as [(s1 & s2 & Hj & Hst & ->) _ _ _].
  destruct (decide (iev.1 = i)) as [<-|Hne]; [|by rewrite list_lookup_insert_ne].
  destruct Hev as [Hev|[[p Hev]|(p & e' & Hev)]]; rewrite Hev in Hst; inversion Hst; congruence.
Qed.

Lemma reserved_by_events ex b t r t' : reserved_by ex b t r t' →
  ∃ l, Forall reserving_event l ∧ table_steps l t t' ∧ quiet l ∧ run_completed l = ∅ ∧
       run_issued l = {[+ res_permit r +]}.
Proof.
  intros (_ & _ & _ & _ & l & Hl & _ & Hrun). destruct (retires_run _ Hl) as (Hq & Hi & Hc).
  eexists. split_and!; [|exact Hrun|..].
  - apply Forall_app_2; [eapply list.Forall_impl; [exact Hl|by left]|].
    constructor; [|constructor]. right; left. by eexists.
  - apply quiet_app; done.
  - rewrite run_completed_app, Hc. simpl. multiset_solver.
  - rewrite run_issued_app, Hi. simpl. multiset_solver.
Qed.

Definition may_duplicate (e : HandleEntry) (requested : DwRights) : Prop :=
  bits_subset DW_RIGHT_DUPLICATE (entry_rights e) ∧
  rights_ok (handle_type (entry_reference e)) requested ∧
  bits_subset requested (entry_rights e).

(** The ways [duplicate] fails; [ReferenceCapacity] leaves the slot it had
    reserved behind. *)
Definition duplicate_failure t reg (err : HandleTableError.t) (st' : HandleTable.t * ObjectRegistry.t)
    : Prop :=
  st'.2 = reg ∧
  (st'.1 = t ∧ err ≠ HandleTableError.Capacity ∧ err ≠ HandleTableError.ReferenceCapacity ∨
   err = HandleTableError.Capacity ∧ (∃ l, retires l ∧ table_steps l t st'.1) ∨
   err = HandleTableError.ReferenceCapacity ∧ ∃ r, reserved_by None true t r st'.1).

Lemma duplicate_checked_wp t reg F finals i s e requested :
  coherent t reg F finals → next_permit t + 1 < 2 ^ 64 →
  slots t !! i = Some s → slot_entry s = Some e → may_duplicate e requested →
  wp (reservation ← on_fst reserve_slot;
      self ← on_fst get;
      entry ← live_entry self i;
      retained ← on_snd (map_err_or_panic retain_error
        (ObjectRegistry.retain_handle (entry_reference entry)));
      on_fst (unwrap (publish reservation
        {| entry_reference := retained; entry_rights := requested |}));;
      mret (res_handle reservation)) (t, reg)
    (λ h' st',
       reserved_published t h' {| entry_reference := entry_reference e;
                                  entry_rights := requested |} st'.1 ∧
       owns st'.2 (entry_tokens (slots st'.1) ⊎ F) finals)
    (λ err st', duplicate_failure t reg err st' ∧ owns st'.2 (entry_tokens (slots st'.1) ⊎ F) finals).
Proof.
  intros [Hwf Ho] Hp Hi He (_ & Hok & _). apply wp_bind, wp_on_fst.
  eapply wp_mono; [by apply reserve_slot_wp| |].
  2: { intros err t1 (-> & (l & Hl & _ & Hrun) & _). destruct (retires_run _ Hl) as ((Hg & Hlo) & _).
       pose proof (table_steps_tokens _ _ _ Hwf Hrun) as Htok. rewrite Hg, Hlo in Htok.
       simpl. assert (entry_tokens (slots t1) = entry_tokens (slots t)) as -> by multiset_solver.
       split; [|done]. split; [done|]. right; left. split; [done|]. by exists l. }
  intros r t1 Hr. destruct (reserved_by_events _ _ _ _ _ Hr) as (l & Hl & Hrun & [Hg Hlo] & _).
  pose proof (live_untouched _ _ _ _ _ _ Hl Hrun Hi He) as Hi1.
  pose proof (table_steps_tokens _ _ _ Hwf Hrun) as Htok. rewrite Hg, Hlo in Htok.
  assert (entry_tokens (slots t) = entry_tokens (slots t1)) as Heq by multiset_solver.
  rewrite Heq in Ho. apply wp_bind, wp_on_fst. unfold wp at 1, get.
  apply wp_bind. unfold live_entry. apply wp_bind. eapply wp_expect; [done|].
  eapply wp_expect; [done|]. apply wp_bind, wp_on_snd, wp_map_err_or_panic.
  eapply wp_mono; [apply (retain_handle_owns (owns:=owns)); [done|]| |].
  - apply (entry_tokens_lookup _ _ _ _ Hi1) in He. unfold entry_token in He. multiset_solver.
  - intros retained reg' (-> & Ho'). apply wp_bind, wp_on_fst.
    eapply wp_mono; [eapply (reserve_then_publish t r t1); [done| |done]; done| |done].
    intros [] t2 Hpub. unfold wp; simpl. split; [done|].
    pose proof Hpub as (r' & l' & s' & Hl' & _ & _ & Hrun' & _).
    pose proof (table_steps_tokens _ _ _ Hwf Hrun') as Htok'.
    destruct (retires_run _ Hl') as ((Hg' & Hlo') & _).
    rewrite run_gained_app, run_lost_app, Hg', Hlo' in Htok'. simpl in Htok'.
    unfold entry_token in Htok'. simpl in Htok'. rewrite Heq in Htok'.
    assert (entry_tokens (slots t2) ⊎ F =
      entry_tokens (slots t1) ⊎ F ⊎ {[+ handle_token (entry_reference e) +]}) as ->; [|done].
    multiset_solver.
  - intros err reg' (-> & -> & Hex). simpl. split; [|done]. split; [done|]. right; right.
    split; [done|]. by exists r.
Qed.

Lemma duplicate_wp t reg F finals h requested :
  coherent t reg F finals → next_permit t + 1 < 2 ^ 64 → is_uint 64 requested →
  wp (duplicate h requested) (t, reg)
    (λ h' st', ∃ i s e, resolves t h i s e ∧ slot_reservation s = None ∧
       may_duplicate e requested ∧
       reserved_published t h' {| entry_reference := entry_reference e;
                                  entry_rights := requested |} st'.1 ∧
       owns st'.2 (entry_tokens (slots st'.1) ⊎ F) finals)
    (λ err st', duplicate_failure t reg err st' ∧ owns st'.2 (entry_tokens (slots st'.1) ⊎ F) finals).
Proof.
  intros Hco Hp Hu. pose proof Hco as [Hwf Ho]. unfold duplicate.
  assert (∀ err, err ≠ HandleTableError.Capacity → err ≠ HandleTableError.ReferenceCapacity →
    duplicate_failure t reg err (t, reg) ∧ owns reg (entry_tokens (slots t) ⊎ F) finals) as Hfail.
  { intros err H1 H2. split; [|done]. split; [done|]. by left. }
  apply wp_bind, wp_check_rights; [intros Hs|intros err _; by apply Hfail; destruct err].
  apply wp_bind, wp_on_fst.
  eapply wp_mono; [by apply resolve_mutation_slot_wp| |].
  2: { intros err t' (-> & [[-> _]|[-> _]]); by apply Hfail. }
  intros i t' (-> & s & e & Hres & Hr). pose proof Hres as (_ & _ & Hi & _ & He).
  apply wp_bind, wp_on_fst. unfold wp at 1, get.
  apply wp_bind. unfold live_entry at 1. apply wp_bind. eapply wp_expect; [done|].
  eapply wp_expect; [done|].
  apply wp_bind, wp_check_rights; [intros Hc|intros err _; by apply Hfail; destruct err].
  apply wp_bind, wp_check_rights; [intros Hd|intros err _; by apply Hfail; destruct err].
  apply wp_bind, wp_check_rights; [intros Hb|intros err _; by apply Hfail; destruct err].
  assert (may_duplicate e requested) as Hdup.
  { split_and!; [by apply require_held_ok|apply rights_ok_checks; [done|by rewrite Hs]
      |by apply require_subset_ok]. }
  eapply wp_mono; [by eapply duplicate_checked_wp| |done].
  intros h' st' [Hpub Ho']. exists i, s, e. done.
Qed.

(** ** Draining *)

Definition drain_slot (s : HandleSlot) : HandleSlot :=
  match slot_reservation s, slot_entry s with
  | None, Some _ => retire_if_exhausted (set_entry None s)
  | _, _ => s
  end.

(** [t'] is [t] with the slots [a..b] drained. *)
Definition drained t (a b : nat) t' : Prop :=
  ∀ i, slots t' !! i =
    if bool_decide (a ≤ i < b)%nat then drain_slot <$> slots t !! i else slots t !! i.

Lemma drained_refl t a : drained t a a t.
Proof. intros i. rewrite bool_decide_false by lia. done. Qed.

Lemma drained_next t a b t' t'' s : drained t a b t' → (a ≤ b)%nat → slots t !! b = Some s →
  slots t'' = <[b := drain_slot s]> (slots t') → drained t a (S b) t''.
Proof.
  intros Hd Hle Hs Hsl i. rewrite Hsl.
  assert (slots t' !! b = Some s) as Hs' by (rewrite Hd, bool_decide_false by lia; done).
  destruct (decide (i = b)) as [->|Hne].
  - rewrite list_lookup_insert_eq by (by eapply lookup_lt_Some).
    rewrite bool_decide_true by lia. by rewrite Hs.
  - rewrite list_lookup_insert_ne, Hd by done.
    destruct (decide (a ≤ i < b)%nat); [rewrite !bool_decide_true by lia; done|].
    rewrite !bool_decide_false by lia. done.
Qed.

Lemma drained_skip t a b t' s : drained t a b t' → (a ≤ b)%nat → slots t !! b = Some s →
  drain_slot s = s → drained t a (S b) t'.
Proof.
  intros Hd Hle Hs Heq. eapply drained_next; [done|done|done|]. rewrite Heq.
  assert (slots t' !! b = Some s) as Hs' by (rewrite Hd, bool_decide_false by lia; done).
  by rewrite list_insert_id.
Qed.

(** The state of a drain that has reached slot [b] with the finalizers
    [fs] written. *)
Definition draining t reg F finals (a b : nat) (out : list (option FinalRelease))
    (fs : list FinalRelease) (out' : list (option FinalRelease))
    (st' : HandleTable.t * ObjectRegistry.t) : Prop :=
  drained t a b st'.1 ∧ coherent st'.1 st'.2 F (finals ⊎ list_to_set_disj fs) ∧
  (∃ l, table_steps l t st'.1) ∧
  (length fs ≤ b - a)%nat ∧ (length fs ≤ length out)%nat ∧
  out' = (Some <$> fs) ++ drop (length fs) out.

Lemma draining_write (out : list (option FinalRelease)) (fs : list FinalRelease) f :
  (length fs < length out)%nat →
  <[length fs := Some f]> ((Some <$> fs) ++ drop (length fs) out) =
  (Some <$> (fs ++ [f])) ++ drop (length (fs ++ [f])) out.
Proof.
  intros Hlt. rewrite insert_app_r_alt by (rewrite length_fmap; lia).
  rewrite length_fmap, Nat.sub_diag, fmap_app, <- app_assoc. f_equal.
  destruct (drop (length fs) out) as [|x rest] eqn:Hd.
  - apply (f_equal length) in Hd. rewrite length_drop in Hd. simpl in Hd. lia.
  - simpl. f_equal. rewrite length_app, <- drop_drop, Hd. done.
Qed.

(** One iteration of [drain_window] on a slot it does not stop at. *)
Lemma drain_step_wp {E} t reg F finals a b out fs out' st s :
  draining t reg F finals a b out fs out' st → (a ≤ b)%nat → slots t !! b = Some s →
  (length fs < length out)%nat →
  wp (E:=E) (s ← on_fst (slot_at b);
      match slot_reservation s, slot_entry s with
      | Some _, _ => mret (Continue (R := DrainWindow * list (option FinalRelease))
                             (length fs, out'))
      | None, None => mret (Continue (length fs, out'))
      | None, Some _ =>
          entry ← on_fst (remove_entry b);
          final ← on_snd (unwrap (ObjectRegistry.release_handle (entry_reference entry)));
          match final with
          | Some final_release =>
              mret (Continue (S (length fs), <[length fs := Some final_release]> out'))
          | None => mret (Continue (length fs, out'))
          end
      end) st
    (λ f st', match f with
              | Continue (w, out'') => ∃ fs', w = length fs' ∧
                  draining t reg F finals a (S b) out fs' out'' st'
              | Break _ => False
              end) (λ _ _, False).
Proof.
  destruct st as [t' reg']. intros (Hd & Hco & (l & Hrun) & Hn & Hlen & ->) Hle Hs Hlt. simpl in *.
  assert (slots t' !! b = Some s) as Hs' by (rewrite Hd, bool_decide_false by lia; done).
  apply wp_bind, wp_on_fst. eapply wp_eq; [by apply slot_at_eq|].
  assert (drain_slot s = s → ∃ fs', length fs = length fs' ∧ draining t reg F finals a (S b) out fs'
    ((Some <$> fs) ++ drop (length fs) out) (t', reg')) as Hskip.
  { intros Heq. exists fs. split; [done|]. split_and!; simpl; eauto; [|lia].
    by eapply drained_skip. }
  unfold drain_slot in Hskip.
  destruct (slot_reservation s) eqn:Hr; [by apply Hskip|].
  destruct (slot_entry s) as [e|] eqn:He; [|by apply Hskip].
  apply wp_assoc. eapply wp_mono; [by eapply remove_release_wp| |done].
  intros o [t2 reg2] (Hrun2 & Hsl & Hco2 & _). simpl in *.
  assert (drained t a (S b) t2) as Hd2.
  { eapply drained_next; [done|done|done|]. rewrite Hsl. unfold drain_slot. by rewrite Hr, He. }
  assert (∃ l, table_steps l t t2) as Hl2 by (eexists; by eapply table_steps_app).
  destruct o as [f|]; unfold wp; simpl.
  - exists (fs ++ [f]). rewrite length_app. simpl. split; [lia|]. split_and!; simpl; try done.
    + rewrite list_to_set_disj_app. simpl. rewrite gmultiset_disj_union_right_id.
      by rewrite gmultiset_disj_union_assoc.
    + rewrite length_app. simpl. lia.
    + rewrite length_app. simpl. lia.
    + by apply draining_write.
  - exists fs. split; [done|]. simpl in Hco2. rewrite gmultiset_disj_union_right_id in Hco2.
    split_and!; simpl; try done. lia.
Qed.

Lemma drain_window_wp {E} t reg F finals a out :
  coherent t reg F finals → out ≠ [] → (a ≤ length (slots t))%nat →
  wp (drain_window (E:=E) a out) (t, reg)
    (λ '(w, out') st', ∃ fs, window_written w = length fs ∧
       draining t reg F finals a (window_resume w) out fs out' st' ∧
       (a ≤ window_resume w)%nat ∧
       if window_done w then window_resume w = length (slots t)
       else (window_resume w < length (slots t))%nat ∧ length fs = length out)
    (λ _ _, False).
Proof.
  intros Hco Hout Hle. unfold drain_window. apply wp_bind. unfold wp at 1, assert_that.
  rewrite bool_decide_false by done. simpl. apply wp_bind, wp_on_fst. unfold wp at 1, get.
  cbv zeta. apply wp_bind.
  apply (wp_loop (λ pre '(w, out') st', ∃ fs, w = length fs ∧
    draining t reg F finals a (a + length pre) out fs out' st')).
  - exists []. split; [done|]. simpl. rewrite Nat.add_0_r. split_and!; simpl.
    + apply drained_refl.
    + by rewrite gmultiset_disj_union_right_id.
    + exists []. constructor.
    + lia.
    + lia.
    + by rewrite drop_0.
  - intros pre i post [w out'] st' [-> Hi]%seq_split_from (fs & -> & Hdr).
    rewrite length_app. simpl. rewrite Nat.add_1_r, Nat.add_succ_r.
    assert (length out' = length out) as Hlo.
    { destruct Hdr as (_ & _ & _ & _ & Hl & ->).
      rewrite length_app, length_fmap, length_drop. lia. }
    destruct (Nat.eqb_spec (length fs) (length out')) as [Hfull|Hfree].
    + unfold wp; simpl. exists fs. split_and!; [done|done|lia|lia|lia].
    + assert (is_Some (slots t !! (a + length pre)%nat)) as [s Hs] by (apply lookup_lt_is_Some; lia).
      eapply wp_mono; [eapply drain_step_wp; [done|lia|done|]| |done].
      * destruct Hdr as (_ & _ & _ & _ & Hl & _). lia.
      * by intros [[w o]|] st'' Hf.
  - intros [w out'] st' (fs & -> & Hdr). rewrite length_seq in Hdr.
    replace (a + (length (slots t) - a))%nat with (length (slots t)) in Hdr by lia.
    unfold wp; simpl. exists fs. split_and!; [done|done|lia|done].
Qed.

(** A whole-table drain always reaches the end of the table. *)
Lemma drain_wp {E} t reg F finals : coherent t reg F finals → slots t ≠ [] →
  wp (drain (E:=E)) (t, reg)
    (λ res st', ∃ fs, final_release_count res = length fs ∧
       draining t reg F finals 0 (length (slots t)) (replicate (length (slots t)) None) fs
         (final_releases res) st')
    (λ _ _, False).
Proof.
  intros Hco Hne. unfold drain. apply wp_bind, wp_on_fst. unfold wp at 1, get. apply wp_bind.
  eapply wp_mono; [apply drain_window_wp; [done| |lia]| |done].
  { destruct (slots t); [done|]. simpl. done. }
  intros [w out'] st' (fs & Hw & Hdr & _ & Hdone). destruct (window_done w) eqn:Hd.
  - apply wp_bind. unfold wp at 1, assert_that. unfold wp; simpl.
    exists fs. rewrite Hdone in Hdr. done.
  - exfalso. destruct Hdr as (_ & _ & _ & Hn & _). rewrite length_replicate in Hdone. lia.
Qed.

(** ** Releasing a queued batch *)

Definition batch_refs (tokens : HandleTransferBatch) : gmultiset Token :=
  list_to_set_disj ((λ token, handle_token (token_reference token)) <$> tokens).

Definition finals_of (os : list (option FinalRelease)) : gmultiset FinalRelease :=
  foldr (λ o acc, option_final o ⊎ acc) ∅ os.

Lemma finals_of_app os os' : finals_of (os ++ os') = finals_of os ⊎ finals_of os'.
Proof. induction os as [|o os IH]; simpl; [|rewrite IH]; multiset_solver. Qed.

Lemma finals_of_None n : finals_of (replicate n None) = ∅.
Proof. induction n as [|n IH]; simpl; [done|]. rewrite IH. multiset_solver. Qed.

Lemma token_added (refs : gmultiset Token) (tok : Token) : tok ∈ refs ⊎ {[+ tok +]}.
Proof. multiset_solver. Qed.

(** Objects stay alive when their references turn into final releases. *)
Definition same_alive (refs : gmultiset Token) (finals : gmultiset FinalRelease)
    (refs' : gmultiset Token) (finals' : gmultiset FinalRelease) : Prop :=
  ∀ ty id, alive ty id refs' finals' ↔ alive ty id refs finals.

Lemma release_loop_wp {E} tokens : ∀ reg F finals os,
  owns reg (F ⊎ batch_refs tokens) (finals ⊎ finals_of os) →
  wp (E:=E) (for_each tokens (λ token releases,
        release ← unwrap (ObjectRegistry.release_handle (token_reference token));
        mret (releases ++ [release])) os) reg
    (λ os' reg', length os' = (length os + length tokens)%nat ∧
                 owns reg' F (finals ⊎ finals_of os') ∧
                 same_alive (F ⊎ batch_refs tokens) (finals ⊎ finals_of os) F (finals ⊎ finals_of os') ∧
                 length (ObjectRegistry.slots reg') = length (ObjectRegistry.slots reg)) (λ _ _, False).
Proof.
  induction tokens as [|token tokens IH]; intros reg F finals os Ho; simpl.
  { unfold wp; simpl. unfold batch_refs in *. simpl in *.
    rewrite gmultiset_disj_union_right_id in *. split_and!; [lia|done|done|done]. }
  do 2 apply wp_bind. apply wp_unwrap.
  assert (F ⊎ batch_refs (token :: tokens) =
    F ⊎ batch_refs tokens ⊎ {[+ handle_token (token_reference token) +]}) as Heq.
  { unfold batch_refs. simpl. multiset_solver. }
  rewrite Heq in Ho |- *.
  eapply wp_mono; [apply wp_and; [apply (release_handle_owns (owns:=owns)); [exact Ho|multiset_solver]|
    apply release_handle_slots]| |by intros ? ? [[] _]].
  intros o reg' [Hrel Hsl].
  assert (same_alive (F ⊎ batch_refs tokens ⊎ {[+ handle_token (token_reference token) +]})
    (finals ⊎ finals_of os) (F ⊎ batch_refs tokens) (finals ⊎ finals_of (os ++ [o]))) as Ha.
  { intros ty id. pose proof (alive_release (owns:=owns) _ _ _ _ _ _ o reg' ty id Ho
      (token_added _ _) Hrel) as Hal.
    cbv zeta in Hal. fold (handle_token (token_reference token)) in Hal.
    rewrite gmultiset_add_remove in Hal. rewrite <- Hal, finals_of_app. simpl.
    rewrite gmultiset_disj_union_right_id. destruct o; simpl; [by rewrite gmultiset_disj_union_assoc|].
    by rewrite !gmultiset_disj_union_right_id. }
  apply released_owns in Hrel as [Ho' _]. unfold wp at 1; simpl.
  eapply wp_mono; [apply (IH reg' F finals (os ++ [o]))| |done].
  - rewrite finals_of_app. simpl. rewrite gmultiset_disj_union_right_id.
    by rewrite gmultiset_disj_union_assoc.
  - intros os' reg2 (Hlen & Ho2 & Ha2 & Hsl2). rewrite length_app in Hlen. simpl in Hlen.
    split_and!; [lia|done| |congruence]. intros ty id. etrans; [apply Ha2|apply Ha].
Qed.

Lemma release_wp {E} tokens reg F finals :
  owns reg (F ⊎ batch_refs tokens) finals → (length tokens ≤ HANDLE_TRANSFER_LIMIT)%nat →
  wp (release (E:=E) tokens) reg
    (λ os reg', length os = HANDLE_TRANSFER_LIMIT ∧ owns reg' F (finals ⊎ finals_of os) ∧
       same_alive (F ⊎ batch_refs tokens) finals F (finals ⊎ finals_of os) ∧
       length (ObjectRegistry.slots reg') = length (ObjectRegistry.slots reg))
    (λ _ _, False).
Proof.
  intros Ho Hlen. unfold release. apply wp_bind.
  assert (finals ⊎ finals_of [] = finals) as Hnil by (simpl; multiset_solver).
  eapply wp_mono; [apply (release_loop_wp tokens reg F finals [])| |done].
  - by rewrite Hnil.
  - intros os reg' (Hl & Ho' & Ha & Hsl). rewrite Hnil in Ha. unfold wp; simpl.
    rewrite length_app, length_replicate. simpl in Hl. split; [lia|].
    rewrite finals_of_app, finals_of_None, gmultiset_disj_union_right_id. by split_and!.
Qed.

End ownership.
