(* ===== verification/HandleSystem.v ===== *)
(** * Safety of a process's handle operations

    Every operation on a handle table, as the kernel's subsystems call it, run
    in any order from an empty table: none panics, the registry's reference
    counts stay equal to the references outstanding, a closed handle never
    works again, a reservation is always honoured, and no operation creates
    rights.  These are the theorems about [kernel/src/handle/table.rs] as a
    whole; the lemmas they rest on are in the files it requires. *)

From stdpp Require Import base tactics numbers list gmultiset.
From Stdlib Require Import ZArith Lia.
From S2P Require Import Prelude Abi Object ObjectFacts ObjectLedger HandleTable HandleProtocol HandleFacts HandleMoves HandleOwnership.
Import HandleTable.
Local Open Scope Z_scope.

(** ** The operations *)

Inductive op : Type :=
| Install (reference : HandleRef) (rights : DwRights)
| Close (handle : DwHandle)
| Duplicate (source : DwHandle) (requested : DwRights)
| Lookup (handle : DwHandle) (accepted : AcceptedObjectTypes.t) (required : DwRights)
| PrepareMove (request : HandleMoveRequest)
| CancelMove (guard : PreparedHandleMove)
| Extract (guard : PreparedHandleMove)
| Finish (guard : PreparedHandleMoveRollback)
| Rollback (guard : PreparedHandleMoveRollback) (token : HandleTransferToken)
| ReserveTransfer
| CancelTransfer (guard : HandleTransferReservation)
| PublishTransfer (guard : HandleTransferReservation) (token : HandleTransferToken)
| PublishReference (guard : HandleTransferReservation) (reference : HandleRef) (rights : DwRights)
| ReservePair (object_type : DwObjectType) (rights : DwRights)
| CancelPair (guard : HandlePairReservation)
| PublishPair (guard : HandlePairReservation) (first second : HandleRef)
| ReserveTyped (specs : HandleReservationSpec * HandleReservationSpec)
| CancelTyped (guard : TypedHandlePairReservation)
| PublishTyped (guard : TypedHandlePairReservation) (references : HandleRef * HandleRef)
| SendBatch (requests : list HandleMoveRequest)
| AbortBatch (requests : list HandleMoveRequest)
| ReceiveBatch (tokens : HandleTransferBatch)
| ReleaseBatch (tokens : HandleTransferBatch)
| DrainFrom (from : nat) (out : list (option FinalRelease)).

(** What an operation hands to its caller and takes from it: references and
    final releases. *)
Record delta : Type := {
  taken : gmultiset Token;
  given : gmultiset Token;
  finalized : gmultiset FinalRelease;
}.

Definition nothing : delta := {| taken := ∅; given := ∅; finalized := ∅ |}.
Definition takes (refs : gmultiset Token) : delta :=
  {| taken := refs; given := ∅; finalized := ∅ |}.
Definition gives (refs : gmultiset Token) : delta :=
  {| taken := ∅; given := refs; finalized := ∅ |}.
Definition finalizes (fs : gmultiset FinalRelease) : delta :=
  {| taken := ∅; given := ∅; finalized := fs |}.

Definition state : Type := HandleTable.t * ObjectRegistry.t.

(** Runs a table operation, forgetting which error it reports. *)
Definition on_table {E A} (m : M HandleTable.t E A) : M state unit A :=
  on_fst (map_err (λ _, tt) m).

Definition exec (o : op) : M state unit delta :=
  match o with
  | Install reference rights =>
      on_table (install reference rights);; mret (takes {[+ handle_token reference +]})
  | Close handle =>
      f ← map_err (λ _, tt) (close handle); mret (finalizes (option_final f))
  | Duplicate source requested => map_err (λ _, tt) (duplicate source requested);; mret nothing
  | Lookup handle accepted required =>
      self ← on_table (E:=unit) get;
      r ← on_snd (map_err (λ _, tt) (lookup self handle accepted required));
      mret (gives {[+ internal_token (ResolvedHandle.reference r) +]})
  | PrepareMove request => on_table (prepare_move request);; mret nothing
  | CancelMove guard => on_table (cancel_prepared_move guard);; mret nothing
  | Extract guard =>
      r ← on_table (try_extract guard);
      mret (gives {[+ handle_token (token_reference r.2.2) +]})
  | Finish guard => on_table (try_finish guard);; mret nothing
  | Rollback guard token =>
      on_table (try_rollback guard token);;
      mret (takes {[+ handle_token (token_reference token) +]})
  | ReserveTransfer => on_table reserve_transfer_destination;; mret nothing
  | CancelTransfer guard => on_table (cancel_transfer guard);; mret nothing
  | PublishTransfer guard token =>
      on_table (try_publish guard token);;
      mret (takes {[+ handle_token (token_reference token) +]})
  | PublishReference guard reference rights =>
      on_table (try_publish_reference guard reference rights);;
      mret (takes {[+ handle_token reference +]})
  | ReservePair object_type rights => on_table (reserve_pair object_type rights);; mret nothing
  | CancelPair guard => on_table (cancel_pair guard);; mret nothing
  | PublishPair guard first second =>
      on_table (try_publish_reserved_pair guard first second);;
      mret (takes ({[+ handle_token first +]} ⊎ {[+ handle_token second +]}))
  | ReserveTyped specs => on_table (reserve_typed_pair specs);; mret nothing
  | CancelTyped guard => on_table (cancel_typed_pair guard);; mret nothing
  | PublishTyped guard references =>
      on_table (try_publish_typed guard references);;
      mret (takes ({[+ handle_token references.1 +]} ⊎ {[+ handle_token references.2 +]}))
  | SendBatch requests =>
      batch ← on_table (prepare_move_batch requests);
      r ← on_table (E:=unit) (extract batch);
      on_table (E:=unit) (finish r.1);;
      mret (gives (batch_refs r.2))
  | AbortBatch requests =>
      batch ← on_table (prepare_move_batch requests);
      r ← on_table (E:=unit) (extract batch);
      on_table (E:=unit) (rollback r.1 r.2);;
      mret nothing
  | ReceiveBatch tokens =>
      reservations ← on_table (reserve_transfer_batch (length tokens));
      on_table (E:=unit) (publish_batch reservations tokens);;
      mret (takes (batch_refs tokens))
  | ReleaseBatch tokens =>
      releases ← on_snd (release tokens);
      mret {| taken := batch_refs tokens; given := ∅; finalized := finals_of releases |}
  | DrainFrom from out =>
      r ← drain_window from out;
      mret (finalizes (finals_of (take (window_written r.1) r.2)))
  end.

(** What a caller must bring: guards some operation made, references it
    holds ([F]), arguments of the machine's width, batches within the limit of
    the ABI, and a table whose permit counter is not about to run out. *)
Definition admissible (o : op) (t : HandleTable.t) (F : gmultiset Token) : Prop :=
  next_permit t + Z.of_nat HANDLE_TRANSFER_LIMIT < 2 ^ 64 ∧
  match o with
  | Install reference rights => handle_token reference ∈ F ∧ is_uint 64 rights
  | Close _ => True
  | Duplicate _ requested => is_uint 64 requested
  | Lookup _ _ required => is_uint 64 required
  | PrepareMove request => is_uint 64 (req_requested_rights request)
  | CancelMove _ | Extract _ | Finish _ | ReserveTransfer => True
  | Rollback _ token => token_ok token ∧ handle_token (token_reference token) ∈ F
  | CancelTransfer guard => transfer_ok guard t
  | PublishTransfer guard token =>
      transfer_ok guard t ∧ token_ok token ∧ handle_token (token_reference token) ∈ F
  | PublishReference guard reference rights =>
      transfer_ok guard t ∧ is_uint 64 rights ∧ handle_token reference ∈ F
  | ReservePair _ rights => is_uint 64 rights
  | CancelPair guard => pair_ok guard t
  | PublishPair guard first second =>
      pair_ok guard t ∧ {[+ handle_token first +]} ⊎ {[+ handle_token second +]} ⊆ F
  | ReserveTyped specs => is_uint 64 (spec_rights specs.1) ∧ is_uint 64 (spec_rights specs.2)
  | CancelTyped guard => typed_ok guard t
  | PublishTyped guard references =>
      typed_ok guard t ∧
      {[+ handle_token references.1 +]} ⊎ {[+ handle_token references.2 +]} ⊆ F
  | SendBatch requests | AbortBatch requests =>
      Forall request_ok requests ∧ (length requests ≤ HANDLE_TRANSFER_LIMIT)%nat
  | ReceiveBatch tokens =>
      Forall token_ok tokens ∧ (length tokens ≤ HANDLE_TRANSFER_LIMIT)%nat ∧ batch_refs tokens ⊆ F
  | ReleaseBatch tokens =>
      (length tokens ≤ HANDLE_TRANSFER_LIMIT)%nat ∧ batch_refs tokens ⊆ F
  | DrainFrom from out => out ≠ [] ∧ (from ≤ length (slots t))%nat
  end.

(** ** One operation *)

Section operations.
Context {owns : ObjectRegistry.t → gmultiset Token → gmultiset FinalRelease → Prop}.
Context `{!RegistryContract owns}.
Implicit Types (t : HandleTable.t) (reg : ObjectRegistry.t) (F : gmultiset Token)
  (finals : gmultiset FinalRelease).

Abbreviation coherent := (coherent (owns:=owns)).

(** What is true after an operation that succeeded, and after one that failed. *)
Definition done_safely t F finals (d : delta) (st' : state) : Prop :=
  taken d ⊆ F ∧ (∃ l, table_steps l t st'.1) ∧
  coherent st'.1 st'.2 (F ∖ taken d ⊎ given d) (finals ⊎ finalized d).
Definition failed_safely t F finals (st' : state) : Prop :=
  (∃ l, table_steps l t st'.1) ∧ coherent st'.1 st'.2 F finals.

Lemma coherent_steps l t t' reg F F' finals : coherent t reg F finals → table_steps l t t' →
  F ⊎ run_lost l = F' ⊎ run_gained l → coherent t' reg F' finals.
Proof.
  intros [Hwf Ho] Hrun Hbal. split; [by eapply table_steps_wf|].
  pose proof (table_steps_tokens _ _ _ Hwf Hrun) as Htok.
  assert (entry_tokens (slots t') ⊎ F' = entry_tokens (slots t) ⊎ F) as ->; [multiset_solver|done].
Qed.

(** The run accounts for what the caller gave and got. *)
Definition balanced F (d : delta) (l : list (nat * slot_event)) : Prop :=
  taken d ⊆ F ∧ finalized d = ∅ ∧ taken d ⊎ run_lost l = given d ⊎ run_gained l.

Lemma on_table_wp {E A} (m : M HandleTable.t E A) (d : A → delta) t reg F finals :
  coherent t reg F finals →
  wp m t (λ a t', ∃ l, table_steps l t t' ∧ balanced F (d a) l)
         (λ _ t', ∃ l, table_steps l t t' ∧ quiet l) →
  wp (a ← on_table m; mret (d a)) (t, reg)
    (done_safely t F finals) (λ _, failed_safely t F finals).
Proof.
  intros Hco Hm. apply wp_bind, wp_on_fst, wp_map_err. eapply wp_mono; [exact Hm| |].
  - intros a t' (l & Hrun & Hin & Hfin & Hbal). unfold wp; simpl.
    split_and!; [done|by exists l|]. rewrite Hfin, gmultiset_disj_union_right_id.
    eapply coherent_steps; [done|done|]. simpl. multiset_solver.
  - intros e t' (l & Hrun & Hg & Hl). split; [by exists l|].
    eapply coherent_steps; [done|done|]. rewrite Hg, Hl. done.
Qed.

Lemma same_table_failed t t' : t' = t → ∃ l, table_steps l t t' ∧ quiet l.
Proof. intros ->. exists []. split; [constructor|done]. Qed.

Lemma retires_failed l t t' : retires l → table_steps l t t' → ∃ l, table_steps l t t' ∧ quiet l.
Proof. intros Hl Hrun. exists l. split; [done|]. by apply retires_run. Qed.

Lemma unreserved_failed b t t' : pair_unreserved b t t' → ∃ l, table_steps l t t' ∧ quiet l.
Proof.
  intros (l & l' & Hl & Hl' & _ & [Hrun|[r Hrun]]); [exact (retires_failed _ _ _ Hl Hrun)|].
  eexists. split; [exact Hrun|]. apply quiet_app; [by apply retires_run|].
  apply (quiet_app [_]); [done|]. apply quiet_app; [by apply retires_run|done].
Qed.

Lemma pair_reserved_balanced b t rs t' F : pair_reserved b t rs t' →
  ∃ l, table_steps l t t' ∧ balanced F nothing l.
Proof.
  intros (_ & l1 & l2 & Hl1 & Hl2 & _ & Hrun). eexists. split; [exact Hrun|].
  apply retires_run in Hl1 as (Hq1 & _), Hl2 as (Hq2 & _).
  assert (quiet (l1 ++ reserve_event rs.1 :: l2 ++ [reserve_event rs.2])) as [Hg Hl].
  { apply quiet_app; [done|]. apply (quiet_app [_]); [done|]. by apply quiet_app. }
  split_and!; [multiset_solver|done|]. by rewrite Hg, Hl.
Qed.

(** A run of a single event. *)
Lemma one_event_balanced F (d : delta) iev t t' : table_steps [iev] t t' →
  taken d ⊆ F → finalized d = ∅ →
  taken d ⊎ option_tokens (lost iev.2) = given d ⊎ option_tokens (gained iev.2) →
  ∃ l, table_steps l t t' ∧ balanced F d l.
Proof.
  intros Hrun Hin Hfin Hbal. exists [iev]. split; [done|]. split_and!; [done|done|].
  simpl. multiset_solver.
Qed.

Lemma reserved_published_balanced F t h e t' tok : reserved_published t h e t' →
  handle_token (entry_reference e) = tok → tok ∈ F →
  ∃ l, table_steps l t t' ∧ balanced F (takes {[+ tok +]}) l.
Proof.
  intros (r & l & s & Hl & _ & _ & Hrun & _) <- Hin. eexists. split; [exact Hrun|].
  apply retires_run in Hl as ((Hg & Hlo) & _). split_and!; [|done|].
  - simpl. multiset_solver.
  - rewrite run_gained_app, run_lost_app, Hg, Hlo. simpl. unfold entry_token. multiset_solver.
Qed.

Lemma pair_published_balanced F t rs e1 e2 t' : pair_published t rs e1 e2 t' →
  {[+ entry_token e1 +]} ⊎ {[+ entry_token e2 +]} ⊆ F →
  ∃ l, table_steps l t t' ∧ balanced F (takes ({[+ entry_token e1 +]} ⊎ {[+ entry_token e2 +]})) l.
Proof.
  intros (_ & Hrun & _) Hin. eexists. split; [exact Hrun|]. split_and!; [done|done|].
  simpl. multiset_solver.
Qed.

Abbreviation safe o t reg F finals :=
  (wp (exec o) (t, reg) (done_safely t F finals) (λ _, failed_safely t F finals)).

Lemma nothing_balanced F l : quiet l → balanced F nothing l.
Proof. intros [Hg Hl]. split_and!; simpl; [multiset_solver|done|]. by rewrite Hg, Hl. Qed.

Ltac event_balance :=
  eapply one_event_balanced; [done|simpl; multiset_solver|done|
    simpl; unfold entry_token; simpl; multiset_solver].

Lemma limit_room t n : next_permit t + Z.of_nat HANDLE_TRANSFER_LIMIT < 2 ^ 64 →
  n ≤ 2 → next_permit t + n < 2 ^ 64.
Proof. unfold HANDLE_TRANSFER_LIMIT, DW_CHANNEL_MAX_HANDLES. simpl. lia. Qed.

Lemma install_safe t reg F finals reference rights : coherent t reg F finals →
  admissible (Install reference rights) t F → safe (Install reference rights) t reg F finals.
Proof.
  intros Hco (Hp & Hin & Hu). pose proof Hco as [Hwf _].
  apply (on_table_wp (install reference rights) (λ _, takes {[+ handle_token reference +]})); [done|].
  eapply wp_mono; [apply install_wp; [done|by apply limit_room|done]| |].
  - intros h t' [_ Hpub]. by eapply reserved_published_balanced.
  - intros [e r] t' [_ [(_ & -> & _)|(_ & _ & (l & Hl & _ & Hrun) & _)]];
      [by apply same_table_failed|by eapply retires_failed].
Qed.

Lemma close_safe t reg F finals h : coherent t reg F finals → safe (Close h) t reg F finals.
Proof.
  intros Hco. simpl. apply wp_bind, wp_map_err. eapply wp_mono; [by apply close_wp| |].
  - intros f [t' reg'] (i & s & e & _ & _ & Hrun & Hco' & _). unfold wp; simpl in *.
    split_and!; simpl; [multiset_solver|by eexists|].
    by balance.
  - intros err st' (-> & _). split; [|done]. exists []. constructor.
Qed.

Lemma duplicate_safe t reg F finals h requested : coherent t reg F finals →
  admissible (Duplicate h requested) t F → safe (Duplicate h requested) t reg F finals.
Proof.
  intros Hco (Hp & Hu). pose proof Hco as [Hwf _]. simpl. apply wp_bind, wp_map_err.
  eapply wp_mono; [apply duplicate_wp; [done|by apply limit_room|done]| |].
  - intros h' [t' reg'] (i & s & e & _ & _ & _ & (r & l & s' & _ & _ & _ & Hrun & _) & Ho).
    unfold wp; simpl in *. split_and!; simpl; [multiset_solver|by eexists|].
    balance.
    split; [by eapply table_steps_wf|done].
  - intros err [t' reg'] [(_ & Hst) Ho]. simpl in *.
    assert (∃ l, table_steps l t t') as [l Hrun].
    { destruct Hst as [(-> & _)|[(_ & l & _ & Hrun)|(_ & r & _ & _ & _ & _ & l & _ & _ & Hrun)]];
        eauto. exists []. constructor. }
    split; [by eexists|]. split; [by eapply table_steps_wf|done].
Qed.

Lemma lookup_safe t reg F finals h accepted required : coherent t reg F finals →
  admissible (Lookup h accepted required) t F → safe (Lookup h accepted required) t reg F finals.
Proof.
  intros Hco (_ & Hu). simpl. apply wp_bind, wp_on_fst, wp_map_err. unfold wp at 1, get.
  apply wp_bind, wp_on_snd, wp_map_err. eapply wp_mono; [by apply lookup_wp| |].
  - intros r reg' (i & s & e & _ & _ & _ & _ & _ & Hco'). unfold wp; simpl.
    split_and!; simpl; [multiset_solver|exists []; constructor|].
    by balance.
  - intros err reg' [-> _]. split; [|done]. exists []. constructor.
Qed.

(** The operations of the single-move guards. *)
Lemma move_safe t reg F finals o : coherent t reg F finals → admissible o t F →
  match o with
  | PrepareMove _ | CancelMove _ | Extract _ | Finish _ | Rollback _ _ => True
  | _ => False
  end → safe o t reg F finals.
Proof.
  intros Hco [Hp Hadm] Ho. pose proof Hco as [Hwf _].
  destruct o as [| | | |request|g|g|g|g token| | | | | | | | | | | | | | |]; try done; simpl in Hadm.
  - apply (on_table_wp (prepare_move request) (λ _, nothing)); [done|].
    eapply wp_mono; [apply prepare_move_wp; [done|by apply limit_room|done]| |].
    + intros g t' (_ & _ & i & s & e & _ & _ & _ & _ & _ & Hrun). event_balance.
    + intros err t'. apply same_table_failed.
  - apply (on_table_wp (cancel_prepared_move g) (λ _, nothing)); [done|].
    eapply wp_mono; [apply cancel_prepared_move_wp| |].
    + intros g' t' (_ & e & _ & Hrun). event_balance.
    + intros err t' [-> _]. by apply same_table_failed.
  - apply (on_table_wp (try_extract g) (λ r, gives {[+ handle_token (token_reference r.2.2) +]}));
      [done|]. eapply wp_mono; [by apply try_extract_wp| |].
    + intros r t' (e & _ & -> & Hrun & _). event_balance.
    + intros err t' [-> _]. by apply same_table_failed.
  - apply (on_table_wp (try_finish g) (λ _, nothing)); [done|].
    eapply wp_mono; [apply try_finish_wp| |].
    + intros g' t' (_ & _ & Hrun). event_balance.
    + intros err t' [-> _]. by apply same_table_failed.
  - destruct Hadm as [Hok Hin].
    apply (on_table_wp (try_rollback g token)
      (λ _, takes {[+ handle_token (token_reference token) +]})); [done|].
    eapply wp_mono; [by apply try_rollback_wp| |].
    + intros g' t' (_ & _ & Hrun). event_balance.
    + intros err t' [-> _]. by apply same_table_failed.
Qed.

(** The operations of the transfer-destination guard. *)
Lemma transfer_safe t reg F finals o : coherent t reg F finals → admissible o t F →
  match o with
  | ReserveTransfer | CancelTransfer _ | PublishTransfer _ _ | PublishReference _ _ _ => True
  | _ => False
  end → safe o t reg F finals.
Proof.
  intros Hco [Hp Hadm] Ho. pose proof Hco as [Hwf _].
  destruct o as [| | | | | | | | | |g|g token|g reference rights| | | | | | | | | | |]; try done;
    simpl in Hadm.
  - apply (on_table_wp reserve_transfer_destination (λ _, nothing)); [done|].
    eapply wp_mono; [apply reserve_transfer_destination_wp; [done|by apply limit_room]| |].
    + intros g t' (_ & _ & _ & _ & Hrun). event_balance.
    + intros err t' (_ & -> & _). by apply same_table_failed.
  - apply (on_table_wp (cancel_transfer g) (λ _, nothing)); [done|].
    eapply wp_mono; [by apply cancel_transfer_wp| |].
    + intros g' t' (_ & _ & Hrun). event_balance.
    + intros err t' [-> _]. by apply same_table_failed.
  - destruct Hadm as (Hg & Hok & Hin).
    apply (on_table_wp (try_publish g token)
      (λ _, takes {[+ handle_token (token_reference token) +]})); [done|].
    eapply wp_mono; [by apply try_publish_wp| |].
    + intros res t' (_ & _ & Hrun & _). event_balance.
    + intros err t' [-> _]. by apply same_table_failed.
  - destruct Hadm as (Hg & Hu & Hin).
    apply (on_table_wp (try_publish_reference g reference rights)
      (λ _, takes {[+ handle_token reference +]})); [done|].
    eapply wp_mono; [by apply try_publish_reference_wp| |].
    + intros res t' (_ & _ & Hrun & _). event_balance.
    + intros err t' [-> _]. by apply same_table_failed.
Qed.

(** The operations of the two pair guards. *)
Lemma pair_safe t reg F finals o : coherent t reg F finals → admissible o t F →
  match o with
  | ReservePair _ _ | CancelPair _ | PublishPair _ _ _
  | ReserveTyped _ | CancelTyped _ | PublishTyped _ _ => True
  | _ => False
  end → safe o t reg F finals.
Proof.
  intros Hco [Hp Hadm] Ho. pose proof Hco as [Hwf _].
  destruct o as [| | | | | | | | | | | | |ty rights|g|g first second|specs|g|g refs| | | | |];
    try done; simpl in Hadm.
  - apply (on_table_wp (reserve_pair ty rights) (λ _, nothing)); [done|].
    eapply wp_mono; [apply reserve_pair_wp; [done|by apply limit_room|done]| |].
    + intros g t' (_ & _ & _ & _ & Hres). by eapply pair_reserved_balanced.
    + intros err t' [(_ & -> & _)|(_ & _ & Hun)]; [by apply same_table_failed|].
      by eapply unreserved_failed.
  - apply (on_table_wp (cancel_pair g) (λ _, nothing)); [done|].
    eapply wp_mono; [by apply cancel_pair_wp| |].
    + intros g' t' (_ & _ & Hrun). eexists. split; [done|]. by apply nothing_balanced.
    + intros err t' ->. by apply same_table_failed.
  - destruct Hadm as [Hg Hin].
    apply (on_table_wp (try_publish_reserved_pair g first second)
      (λ _, takes ({[+ handle_token first +]} ⊎ {[+ handle_token second +]}))); [done|].
    eapply wp_mono; [by apply try_publish_reserved_pair_wp| |].
    + intros res t' (_ & _ & Hpub). by eapply pair_published_balanced in Hpub.
    + intros err t' [-> _]. by apply same_table_failed.
  - destruct Hadm as [Hu1 Hu2].
    apply (on_table_wp (reserve_typed_pair specs) (λ _, nothing)); [done|].
    eapply wp_mono; [apply reserve_typed_pair_wp; [done|by apply limit_room|done|done]| |].
    + intros g t' (_ & _ & _ & Hres). by eapply pair_reserved_balanced.
    + intros err t' [(_ & ->)|(_ & Hun)]; [by apply same_table_failed|].
      by eapply unreserved_failed.
  - apply (on_table_wp (cancel_typed_pair g) (λ _, nothing)); [done|].
    eapply wp_mono; [by apply cancel_typed_pair_wp| |].
    + intros g' t' (_ & _ & Hrun). eexists. split; [done|]. by apply nothing_balanced.
    + intros err t' ->. by apply same_table_failed.
  - destruct Hadm as [Hg Hin].
    apply (on_table_wp (try_publish_typed g refs)
      (λ _, takes ({[+ handle_token refs.1 +]} ⊎ {[+ handle_token refs.2 +]}))); [done|].
    eapply wp_mono; [by apply try_publish_typed_wp| |].
    + intros res t' (_ & _ & Hpub). by eapply pair_published_balanced in Hpub.
    + intros err t' [-> _]. by apply same_table_failed.
Qed.

Lemma take_events_run entries sources : length entries = length sources →
  run_lost (take_events entries sources) = batch_refs (batch_tokens entries sources) ∧
  run_gained (take_events entries sources) = ∅.
Proof.
  intros Hlen. unfold batch_refs.
  revert sources Hlen. induction entries as [|pe entries IH]; intros [|e sources] Hlen;
    simplify_eq/=; [done|]. destruct (IH sources Hlen) as [-> ->].
  unfold entry_token. split; multiset_solver.
Qed.

Lemma publish_events_run rs tokens : length rs = length tokens →
  run_gained (publish_events rs tokens) = batch_refs tokens ∧
  run_lost (publish_events rs tokens) = ∅.
Proof.
  intros Hlen. unfold batch_refs.
  revert tokens Hlen. induction rs as [|r rs IH]; intros [|token tokens] Hlen;
    simplify_eq/=; [done|]. destruct (IH tokens Hlen) as [-> ->].
  unfold entry_token. simpl. split; multiset_solver.
Qed.

(** The checked and extracted prefix of a send. *)
Lemma prepare_extract_wp {A} t reg F finals requests
    (k : HandleMoveRollback * HandleTransferBatch → M state unit A) Q :
  coherent t reg F finals → Forall request_ok requests →
  (length requests ≤ HANDLE_TRANSFER_LIMIT)%nat →
  (∀ entries sources t', batch_prepared t entries sources →
     emptied t (prep_slot <$> entries) t' → table_steps (take_events entries sources) t t' →
     wp (k (entries, batch_tokens entries sources)) (t', reg) Q (λ _, failed_safely t F finals)) →
  wp (batch ← on_table (prepare_move_batch requests);
      r ← on_table (E:=unit) (extract batch);
      k r) (t, reg) Q (λ _, failed_safely t F finals).
Proof.
  intros Hco Hok Hlen Hk. pose proof Hco as [Hwf _].
  apply wp_bind, wp_on_fst, wp_map_err. eapply wp_mono; [by apply prepare_move_batch_wp| |].
  - intros entries t1 (-> & Hnd & Hall).
    destruct (prepared_batch _ _ _ Hok Hnd Hall) as (sources & Hprep & _).
    apply wp_bind, wp_on_fst, wp_map_err. eapply wp_mono; [by apply extract_wp| |done].
    intros r t1 (-> & Hem & Hrun). by eapply Hk.
  - intros err t1 [-> _]. split; [|done]. exists []. constructor.
Qed.

Lemma batch_safe t reg F finals o : coherent t reg F finals → admissible o t F →
  match o with SendBatch _ | AbortBatch _ | ReceiveBatch _ => True | _ => False end →
  safe o t reg F finals.
Proof.
  intros Hco [Hp Hadm] Ho. pose proof Hco as [Hwf _].
  destruct o as [| | | | | | | | | | | | | | | | | | |requests|requests|tokens| |]; try done;
    simpl in Hadm; simpl.
  - destruct Hadm as [Hok Hlen]. apply prepare_extract_wp; [done..|].
    intros entries sources t' Hprep Hem Hrun.
    apply wp_bind, wp_on_fst, wp_map_err. eapply wp_mono; [by eapply finish_wp| |done].
    intros _ t2 (l & Hl & Hrun2). unfold wp; simpl.
    pose proof (table_steps_app _ _ _ _ _ Hrun Hrun2) as Hrun'.
    split_and!; simpl; [multiset_solver|by eexists|].
    eapply coherent_steps; [by rewrite gmultiset_disj_union_right_id|exact Hrun'|].
    apply retires_run in Hl as ((Hg & Hlo) & _).
    destruct (take_events_run entries sources) as [Ht1 Ht2];
      [by eapply Forall2_length; apply Hprep|].
    rewrite run_lost_app, run_gained_app, Hg, Hlo, Ht1, Ht2. multiset_solver.
  - destruct Hadm as [Hok Hlen]. apply prepare_extract_wp; [done..|].
    intros entries sources t' Hprep Hem Hrun.
    apply wp_bind, wp_on_fst, wp_map_err. eapply wp_mono; [by eapply rollback_identity| |done].
    intros _ t2 ->. unfold wp; simpl. split_and!; simpl; [multiset_solver|exists []; constructor|].
    by balance.
  - destruct Hadm as (Hok & Hlen & Hin).
    apply wp_bind, wp_on_fst, wp_map_err.
    eapply wp_mono; [apply reserve_transfer_batch_wp; [done|done|lia]| |].
    + intros rs t1 [Hlrs ([Hall Hnd] & _ & l & Hrun & [Hg Hlo] & _)].
      apply wp_bind, wp_on_fst, wp_map_err.
      eapply wp_mono; [apply publish_batch_wp; [by eapply table_steps_wf|done|done|done]| |done].
      intros ps t2 (_ & Hrun2 & _). unfold wp; simpl.
      pose proof (table_steps_app _ _ _ _ _ Hrun Hrun2) as Hrun'.
      split_and!; simpl; [done|by eexists|].
      eapply coherent_steps; [by rewrite gmultiset_disj_union_right_id|exact Hrun'|].
      destruct (publish_events_run rs tokens Hlrs) as [Hp1 Hp2].
      rewrite run_lost_app, run_gained_app, Hg, Hlo, Hp1, Hp2. multiset_solver.
    + intros err t1 (_ & l & Hrun & [Hg Hlo] & _). split; [by eexists|].
      eapply coherent_steps; [done|exact Hrun|]. by rewrite Hg, Hlo.
Qed.

Lemma finals_of_Some fs : finals_of (Some <$> fs) = list_to_set_disj fs.
Proof. induction fs as [|f fs IH]; simpl; [done|]. by rewrite <- IH. Qed.

(** The operations that release references in bulk. *)
Lemma bulk_release_safe t reg F finals o : coherent t reg F finals → admissible o t F →
  match o with ReleaseBatch _ | DrainFrom _ _ => True | _ => False end →
  safe o t reg F finals.
Proof.
  intros Hco [Hp Hadm] Ho. pose proof Hco as [Hwf Howns].
  destruct o as [| | | | | | | | | | | | | | | | | | | | | |tokens|from out]; try done;
    simpl in Hadm; simpl.
  - destruct Hadm as [Hlen Hin]. apply wp_bind, wp_on_snd.
    eapply wp_mono; [apply (release_wp tokens reg (entry_tokens (slots t) ⊎ F ∖ batch_refs tokens));
      [|done]| |done].
    + assert (entry_tokens (slots t) ⊎ F ∖ batch_refs tokens ⊎ batch_refs tokens =
        entry_tokens (slots t) ⊎ F) as ->; [multiset_solver|done].
    + intros os reg' (_ & Ho' & _). unfold wp; simpl.
      split_and!; simpl; [done|exists []; constructor|].
      split; [done|]. by rewrite gmultiset_disj_union_right_id.
  - destruct Hadm as [Hout Hfrom]. apply wp_bind.
    eapply wp_mono; [by apply drain_window_wp| |done].
    intros [w out'] [t' reg'] (fs & Hw & (_ & Hco' & Hl & _ & _ & ->) & _). unfold wp; simpl.
    split_and!; simpl in *; [multiset_solver|done|].
    balance. rewrite Hw.
    rewrite take_app_length' by (by rewrite length_fmap). by rewrite finals_of_Some.
Qed.

(** Every operation is safe. *)
Lemma exec_safe t reg F finals o : coherent t reg F finals → admissible o t F →
  safe o t reg F finals.
Proof.
  intros Hco Hadm. destruct o;
    first [by apply install_safe|by apply close_safe|by apply duplicate_safe|by apply lookup_safe
          |by apply move_safe|by apply transfer_safe|by apply pair_safe|by apply batch_safe
          |by apply bulk_release_safe].
Qed.

End operations.
