(* ===== verification/HandleTheorems.v ===== *)
(** * Theorems on handles

    What a process can rely on, whatever it and the rest of the kernel do:
    the claims on [kernel/src/handle/table.rs], with a witness for each that
    runs the model on a concrete table and registry. *)

From stdpp Require Import base tactics numbers list gmultiset relations.
From Stdlib Require Import ZArith Lia.
From S2P Require Import Prelude Abi Object ObjectFacts ObjectLedger ObjectTheorems HandleTable HandleProtocol HandleFacts HandleMoves HandleOwnership HandleSystem.
Import HandleTable.
Local Open Scope Z_scope.

(** ** Runs of a table beside the rest of the kernel *)

(** A table, the registry, and the references and final releases held
    outside the table. *)
Record config : Type := {
  cfg_table : HandleTable.t;
  cfg_registry : ObjectRegistry.t;
  cfg_refs : gmultiset Token;
  cfg_finals : gmultiset FinalRelease;
}.

Definition cfg_coherent (c : config) : Prop :=
  coherent (owns:=ledger) (cfg_table c) (cfg_registry c) (cfg_refs c) (cfg_finals c).

(** A step is an operation on the table, successful or not, or a call the
    rest of the kernel makes of the registry with tokens of its own. *)
Inductive sys_step : config → config → Prop :=
| sys_done c o t' reg' d :
    admissible o (cfg_table c) (cfg_refs c) →
    exec o (cfg_table c, cfg_registry c) = Ret (t', reg') d →
    sys_step c {| cfg_table := t'; cfg_registry := reg';
                  cfg_refs := cfg_refs c ∖ taken d ⊎ given d;
                  cfg_finals := cfg_finals c ⊎ finalized d |}
| sys_failed c o t' reg' e :
    admissible o (cfg_table c) (cfg_refs c) →
    exec o (cfg_table c, cfg_registry c) = Fail (t', reg') e →
    sys_step c {| cfg_table := t'; cfg_registry := reg';
                  cfg_refs := cfg_refs c; cfg_finals := cfg_finals c |}
| sys_elsewhere c b refs' :
    honest_step
      {| book := cfg_registry c; tokens := entry_tokens (slots (cfg_table c)) ⊎ cfg_refs c;
         finals := cfg_finals c |} b →
    tokens b = entry_tokens (slots (cfg_table c)) ⊎ refs' →
    sys_step c {| cfg_table := cfg_table c; cfg_registry := book b;
                  cfg_refs := refs'; cfg_finals := finals b |}.

Lemma sys_step_safe c c' : cfg_coherent c → sys_step c c' →
  cfg_coherent c' ∧ ∃ l, table_steps l (cfg_table c) (cfg_table c').
Proof.
  intros Hco Hstep.
  destruct Hstep as [c o t' reg' d Hadm Hex|c o t' reg' e Hadm Hex|c b refs' Hstep Hb].
  - pose proof (wp_Ret _ _ _ _ _ _ (exec_safe _ _ _ _ o Hco Hadm) Hex) as (_ & Hl & Hco').
    split; [exact Hco'|exact Hl].
  - pose proof (wp_Fail _ _ _ _ _ _ (exec_safe _ _ _ _ o Hco Hadm) Hex) as (Hl & Hco').
    split; [exact Hco'|exact Hl].
  - destruct Hco as [Hwf Hl]. split; [|exists []; constructor].
    split; [exact Hwf|]. simpl. rewrite <- Hb. refine (honest_step_ledger _ _ _ Hstep). exact Hl.
Qed.

Lemma sys_run_safe c c' : cfg_coherent c → rtc sys_step c c' →
  cfg_coherent c' ∧ ∃ l, table_steps l (cfg_table c) (cfg_table c').
Proof.
  intros Hco Hrun. revert Hco. induction Hrun as [c|c1 c2 c3 Hstep _ IH]; intros Hco.
  { split; [done|]. exists []. constructor. }
  destruct (sys_step_safe _ _ Hco Hstep) as [Hco2 [l1 Hl1]].
  destruct (IH Hco2) as [Hco3 [l2 Hl2]]. split; [done|].
  exists (l1 ++ l2). by eapply table_steps_app.
Qed.

(** A new table beside an empty registry. *)
Definition fresh_table (d : Z) (n : nat) : HandleTable.t :=
  {| domain := d; slots := replicate n EMPTY_SLOT; live_count := 0; next_permit := 1 |}.

Definition fresh_config (d rd : Z) (n m : nat) : config :=
  {| cfg_table := fresh_table d n; cfg_registry := fresh_registry rd m;
     cfg_refs := ∅; cfg_finals := ∅ |}.

Lemma fresh_entry_tokens n : entry_tokens (replicate n EMPTY_SLOT) = ∅.
Proof.
  induction n as [|n IH]; [done|]. unfold entry_tokens in *. simpl. rewrite IH. multiset_solver.
Qed.

Lemma fresh_table_wf d n : Z.of_nat n < 2 ^ 64 → table_wf (fresh_table d n).
Proof.
  intros Hn. assert (∀ i s, slots (fresh_table d n) !! i = Some s → s = EMPTY_SLOT) as Hempty.
  { intros i s Hs. by apply lookup_replicate in Hs as [-> _]. }
  split.
  - simpl. by rewrite length_replicate.
  - simpl. by rewrite fresh_entry_tokens, gmultiset_size_empty.
  - simpl. lia.
  - intros i s ->%Hempty. apply slot_ok_empty; [by unfold is_uint|done|done].
  - by intros i s p k ->%Hempty.
  - by intros i j s s' p k k' ->%Hempty.
Qed.

Lemma fresh_coherent d rd n m : Z.of_nat n < 2 ^ 64 → cfg_coherent (fresh_config d rd n m).
Proof.
  intros Hn. split; [by apply fresh_table_wf|]. simpl.
  rewrite fresh_entry_tokens, gmultiset_disj_union_right_id. apply fresh_ledger.
Qed.

(** C1. Starting from an empty table and an empty registry, and in any order
    of table operations and of calls by the rest of the kernel: the registry's
    counts are exactly the references the table's entries and the rest of the
    kernel hold, the table stays well formed (its live count is the number of
    its entries, its generations and permits are in range and its permits
    unique, every entry's rights are known and compatible with its object), and
    no admissible operation panics. *)
Theorem handle_system_safe d rd n m c :
  Z.of_nat n < 2 ^ 64 → rtc sys_step (fresh_config d rd n m) c →
  table_wf (cfg_table c) ∧
  ledger (cfg_registry c) (entry_tokens (slots (cfg_table c)) ⊎ cfg_refs c) (cfg_finals c) ∧
  ∀ o, admissible o (cfg_table c) (cfg_refs c) →
    exec o (cfg_table c, cfg_registry c) ≠ Panic.
Proof.
  intros Hn Hrun. destruct (sys_run_safe _ _ (fresh_coherent d rd n m Hn) Hrun) as [Hco _].
  split; [apply Hco|]. split; [apply Hco|].
  intros o Hadm. exact (wp_Panic _ _ _ _ (exec_safe _ _ _ _ o Hco Hadm)).
Qed.

(** A handle to an event, in a table of two slots. *)
Definition event_handle : HandleRef :=
  {| handle_id := event_id; handle_type := DW_OBJECT_TYPE_EVENT |}.
Definition event_rights : DwRights :=
  Z.lor DW_RIGHT_INSPECT (Z.lor DW_RIGHT_DUPLICATE (Z.lor DW_RIGHT_TRANSFER DW_RIGHT_WAIT)).

Definition event_registry : ObjectRegistry.t :=
  after (ObjectRegistry.transition_reference event_id DW_OBJECT_TYPE_EVENT
           ReferenceKind.Internal ReferenceKind.Handle) (book event_books).

Definition event_table : HandleTable.t :=
  after (install event_handle event_rights) (fresh_table 1 2).

(** The handle [install] returned. *)
Definition handle_one : DwHandle := 2 ^ 32 + 1.

Definition event_config : config :=
  {| cfg_table := event_table; cfg_registry := event_registry;
     cfg_refs := {[+ handle_token event_handle +]} ∖ {[+ handle_token event_handle +]} ⊎ ∅;
     cfg_finals := ∅ ⊎ ∅ |}.

Definition event_token (k : ReferenceKind.t) : Token := (k, event_id, DW_OBJECT_TYPE_EVENT).

Definition handle_books : books :=
  {| book := event_registry;
     tokens := (entry_tokens (slots (fresh_table 1 2)) ⊎ {[+ event_token ReferenceKind.Internal +]})
                 ∖ {[+ event_token ReferenceKind.Internal +]} ⊎ {[+ event_token ReferenceKind.Handle +]};
     finals := ∅ |}.

Lemma event_config_reachable : rtc sys_step (fresh_config 1 1 2 2) event_config.
Proof.
  eapply rtc_l; [eapply (sys_elsewhere _ event_books
    {[+ (ReferenceKind.Internal, event_id, DW_OBJECT_TYPE_EVENT) +]})|].
  { apply (honest_create _ _ _ DW_OBJECT_TYPE_EVENT _
      {| creation_id := event_id; creation_type := DW_OBJECT_TYPE_EVENT |}). reflexivity. }
  { simpl. multiset_solver. }
  eapply rtc_l; [eapply (sys_elsewhere _ handle_books {[+ handle_token event_handle +]})|].
  { apply (honest_transition _ _ _ ReferenceKind.Internal event_id DW_OBJECT_TYPE_EVENT);
      [simpl; multiset_solver|reflexivity]. }
  { unfold handle_books. simpl tokens. unfold handle_token, event_token. simpl. multiset_solver. }
  apply rtc_once.
  refine (sys_done {| cfg_table := fresh_table 1 2; cfg_registry := event_registry;
                      cfg_refs := {[+ handle_token event_handle +]}; cfg_finals := ∅ |}
    (Install event_handle event_rights) event_table event_registry
    (takes {[+ handle_token event_handle +]}) _ _).
  - split; [done|]. simpl. split; [multiset_solver|by unfold is_uint].
  - reflexivity.
Qed.

Lemma event_config_coherent : cfg_coherent event_config.
Proof.
  apply (sys_run_safe _ _ (fresh_coherent 1 1 2 2 ltac:(done)) event_config_reachable).
Qed.

Lemma handle_system_safe_witness :
  exec (Close handle_one) (event_table, event_registry) ≠ Panic.
Proof.
  apply (handle_system_safe 1 1 2 2 event_config).
  - done.
  - exact event_config_reachable.
  - split; [done|exact I].
Defined.

(** C22. Handles are typed.  In every state the system reaches, whatever a
    handle resolves to holds rights that are known, not empty and compatible
    with its object's type, and it names an object that is alive and of that
    very type in the registry; and no other reference in the kernel to the
    same object takes it for another type. *)
Theorem handles_are_typed d rd n m c h slot :
  Z.of_nat n < 2 ^ 64 → rtc sys_step (fresh_config d rd n m) c →
  resolve_slot (cfg_table c) h = Ok slot →
  ∃ s e, slots (cfg_table c) !! slot = Some s ∧ slot_entry s = Some e ∧
    let id := handle_id (entry_reference e) in
    let ty := handle_type (entry_reference e) in
    rights_ok ty (entry_rights e) ∧
    ObjectRegistry.validate_reference id ty ReferenceKind.Handle (cfg_registry c) = Ret (cfg_registry c) tt ∧
    ∀ k ty', (k, id, ty') ∈ entry_tokens (slots (cfg_table c)) ⊎ cfg_refs c → ty' = ty.
Proof.
  intros Hn Hrun (s & e & _ & _ & Hs & _ & He)%resolve_slot_Ok.
  destruct (sys_run_safe _ _ (fresh_coherent d rd n m Hn) Hrun) as [[Hwf Hl] _].
  assert (entry_token e ∈ entry_tokens (slots (cfg_table c)) ⊎ cfg_refs c) as Hin.
  { apply gmultiset_elem_of_disj_union. left. by eapply entry_tokens_lookup. }
  exists s, e. split; [done|]. split; [done|]. split.
  { by apply (so_entry _ (wf_slots _ Hwf _ _ Hs)). }
  split; [|intros k ty' Hin'; by eapply ledger_typed].
  destruct (ledger_token _ _ _ _ _ _ Hl Hin) as (i & r & live & Hnm & _ & Hst & Hty & _ & Hc).
  rewrite (validate_reference_names _ _ _ _ _ _ Hnm), Hst, Hty, Z.eqb_refl. cbn [negb].
  rewrite (proj2 (Z.eqb_neq _ _)); [done|lia].
Qed.

Lemma handles_are_typed_witness :
  ∃ s e, slots event_table !! 0%nat = Some s ∧ slot_entry s = Some e ∧
    ObjectRegistry.validate_reference (handle_id (entry_reference e)) (handle_type (entry_reference e))
      ReferenceKind.Handle event_registry = Ret event_registry tt.
Proof.
  destruct (handles_are_typed 1 1 2 2 event_config handle_one 0) as (s & e & Hs & He & _ & Hv & _).
  - done.
  - exact event_config_reachable.
  - reflexivity.
  - exists s, e. exact (conj Hs (conj He Hv)).
Defined.

(** ** Closed and moved handles *)

(** C7. Once a handle is closed, nothing the process or the rest of the
    kernel does makes it resolve again: its slot comes back only under a later
    generation. *)
Theorem closed_handle_is_dead c h t1 reg1 d c2 :
  cfg_coherent c → exec (Close h) (cfg_table c, cfg_registry c) = Ret (t1, reg1) d →
  rtc sys_step {| cfg_table := t1; cfg_registry := reg1;
                  cfg_refs := cfg_refs c ∖ taken d ⊎ given d;
                  cfg_finals := cfg_finals c ⊎ finalized d |} c2 →
  resolve_slot (cfg_table c2) h = Err HandleTableError.InvalidHandle.
Proof.
  intros Hco Hex Hrun. apply stale_rejected. pose proof Hco as [Hwf _].
  assert (stale h t1 ∧ cfg_coherent {| cfg_table := t1; cfg_registry := reg1;
    cfg_refs := cfg_refs c ∖ taken d ⊎ given d; cfg_finals := cfg_finals c ⊎ finalized d |})
    as [Hst Hco1].
  { simpl in Hex. unfold mbind, M_bind, map_err in Hex.
    pose proof (close_wp _ _ _ _ h Hco) as Hw. unfold wp in Hw.
    destruct (close h _) as [st f| |]; [|done..]. injection Hex as -> <-.
    destruct Hw as (i & s & e & Hres & _ & Hsteps & Hco' & _). simpl in *. split.
    - inversion Hsteps as [|? ? ? t' ? Hstep Hnil]; subst. inversion Hnil; subst.
      eapply take_stale; [done|done|by left|]. eapply wf_slots; [done|apply Hres].
    - by balance. }
  destruct (sys_run_safe _ _ Hco1 Hrun) as [_ [l Hl]].
  eapply table_steps_stale; [apply Hco1|exact Hst|exact Hl].
Qed.

Definition closed_state : state := after (exec (Close handle_one)) (event_table, event_registry).

Lemma closed_handle_is_dead_witness :
  resolve_slot (after (install event_handle event_rights) closed_state.1) handle_one =
    Err HandleTableError.InvalidHandle ∧
  resolve_slot closed_state.1 handle_one = Err HandleTableError.InvalidHandle.
Proof.
  split; [reflexivity|].
  set (d := finalizes (option_final
    (Some {| final_id := event_id; final_type := DW_OBJECT_TYPE_EVENT |}))).
  refine (closed_handle_is_dead event_config handle_one closed_state.1 closed_state.2 d
    {| cfg_table := closed_state.1; cfg_registry := closed_state.2;
       cfg_refs := cfg_refs event_config ∖ taken d ⊎ given d;
       cfg_finals := cfg_finals event_config ⊎ finalized d |} _ _ _).
  - exact event_config_coherent.
  - reflexivity.
  - apply rtc_refl.
Defined.

(** Emptied sources are dead. *)
Lemma emptied_stale t entries sources t' : table_wf t → batch_prepared t entries sources →
  emptied t (prep_slot <$> entries) t' → Forall (λ pe, stale (prep_handle pe) t') entries.
Proof.
  intros Hwf [_ Hall] Hem. apply list.Forall_forall. intros pe Hin.
  apply list_elem_of_lookup in Hin as [j Hj].
  destruct (Forall2_lookup_l _ _ _ _ _ Hall Hj) as (e & _ & _ & s & _ & Hdec & Hs & _ & He).
  exists (prep_slot pe), (slot_generation s), (set_entry None s). split_and!; [done| |].
  - eapply emptied_lookup; [done| |done]. apply list_elem_of_fmap_2.
    by eapply list_elem_of_lookup_2.
  - right. split_and!; [done|done|]. intros [p Hp]. simpl in Hp.
    destruct (so_vacant _ (wf_slots _ Hwf _ _ Hs) _ _ Hp); [done|congruence].
Qed.

(** What a sent token carries, against the entry its request named. *)
Definition sent_for (t : HandleTable.t) (request : HandleMoveRequest)
    (token : HandleTransferToken) : Prop :=
  ∃ i s e, resolves t (req_handle request) i s e ∧
    token_reference token = entry_reference e ∧
    token_requested_rights token = req_requested_rights request ∧
    bits_subset DW_RIGHT_TRANSFER (entry_rights e) ∧
    bits_subset (token_requested_rights token) (entry_rights e).

Lemma batch_tokens_sent t requests entries sources :
  Forall2 (λ r pe, prepared_from t r 0 pe) requests entries →
  batch_prepared t entries sources →
  Forall2 (sent_for t) requests (batch_tokens entries sources).
Proof.
  intros Hreq [_ Hall]. revert sources Hall. unfold batch_tokens.
  induction Hreq as [|r pe requests entries (i & s & e & Hres & Hmov & ->) _ IH];
    intros sources Hall; [by inversion Hall; constructor|].
  apply Forall2_cons_inv_l in Hall as (e' & sources' & [_ (s' & Hres')] & Hall & ->).
  simpl. constructor; [|by apply IH]. exists i, s, e.
  assert (e' = e) as ->.
  { destruct Hres as (_ & _ & H1 & _ & H2), Hres' as (_ & _ & H3 & _ & H4). simpl in *. congruence. }
  destruct Hmov as (H1 & _ & H3). split_and!; done.
Qed.

(** A channel send whose handles are validated always extracts them all:
    each token carries the reference of the very entry its handle named, with
    the requested rights, which that entry held together with TRANSFER; once
    the send commits, none of the sent handles ever resolves again. *)
Theorem sent_handles_move_and_die t requests entries :
  table_wf t → Forall request_ok requests → (length requests ≤ HANDLE_TRANSFER_LIMIT)%nat →
  prepare_move_batch requests t = Ret t entries →
  ∃ tokens t1 t2, extract (E:=unit) entries t = Ret t1 (entries, tokens) ∧
    finish (E:=unit) entries t1 = Ret t2 tt ∧
    Forall2 (sent_for t) requests tokens ∧
    ∀ l t3, table_steps l t2 t3 →
      Forall (λ r, resolve_slot t3 (req_handle r) = Err HandleTableError.InvalidHandle) requests.
Proof.
  intros Hwf Hok Hlen Hprep.
  pose proof (wp_Ret _ _ _ _ _ _ (prepare_move_batch_wp t requests Hlen Hok) Hprep)
    as (_ & Hnd & Hall).
  destruct (prepared_batch _ _ _ Hok Hnd Hall) as (sources & Hb & _ & _).
  pose proof (extract_wp (E:=unit) _ _ _ Hwf Hb) as Hex. unfold wp in Hex.
  destruct (extract entries t) as [t1 res| |]; [|done..]. destruct Hex as (-> & Hem & Hrun).
  pose proof (finish_wp (E:=unit) _ _ _ _ Hwf Hb Hem) as Hfin. unfold wp in Hfin.
  destruct (finish entries t1) as [t2 []| |] eqn:Hf; [|done..]. destruct Hfin as (lf & _ & Hrun2).
  exists (batch_tokens entries sources), t1, t2. split_and!; [done|done| |].
  - by eapply batch_tokens_sent.
  - intros l t3 Hrun3. pose proof (table_steps_wf _ _ _ Hwf Hrun) as Hwf1.
    pose proof (emptied_stale _ _ _ _ Hwf Hb Hem) as Hstale.
    apply list.Forall_forall. intros r Hin. apply list_elem_of_lookup in Hin as [j Hj].
    destruct (Forall2_lookup_l _ _ _ _ _ Hall Hj) as (pe & Hpe & i & s & e & _ & _ & Heq).
    apply stale_rejected. assert (req_handle r = prep_handle pe) as -> by (by rewrite Heq).
    eapply (table_steps_stale (lf ++ l) t1); [done| |by eapply table_steps_app].
    exact (Forall_lookup_1 _ _ _ _ Hstale Hpe).
Qed.

Definition event_request : HandleMoveRequest :=
  {| req_handle := handle_one; req_requested_rights := Z.lor DW_RIGHT_INSPECT DW_RIGHT_WAIT |}.

Definition event_entry : HandleEntry :=
  {| entry_reference := event_handle; entry_rights := event_rights |}.

Lemma event_table_wf : table_wf event_table.
Proof. apply event_config_coherent. Qed.

Lemma event_request_ok : request_ok event_request.
Proof. by split; unfold is_uint. Qed.

Lemma sent_handles_move_and_die_witness :
  ∃ tokens t1 t2, extract (E:=unit) [prepared_entry 0 event_request event_entry 0] event_table =
      Ret t1 ([prepared_entry 0 event_request event_entry 0], tokens) ∧
    finish (E:=unit) [prepared_entry 0 event_request event_entry 0] t1 = Ret t2 tt ∧
    resolve_slot t2 handle_one = Err HandleTableError.InvalidHandle.
Proof.
  destruct (sent_handles_move_and_die event_table [event_request]
    [prepared_entry 0 event_request event_entry 0]) as (tokens & t1 & t2 & H1 & H2 & _ & H3).
  - exact event_table_wf.
  - constructor; [exact event_request_ok|constructor].
  - simpl. unfold HANDLE_TRANSFER_LIMIT, DW_CHANNEL_MAX_HANDLES. lia.
  - reflexivity.
  - exists tokens, t1, t2. split; [exact H1|]. split; [exact H2|].
    specialize (H3 [] t2 (steps_nil t2)). by apply Forall_cons_1 in H3 as [H3 _].
Defined.

(** A channel send that fails after extraction restores the sender's table
    exactly as it was: the same slots, generations, rights, reservations, live
    count and permit counter. *)
Theorem aborted_send_restores_the_table t requests entries :
  table_wf t → Forall request_ok requests → (length requests ≤ HANDLE_TRANSFER_LIMIT)%nat →
  prepare_move_batch requests t = Ret t entries →
  ∃ tokens t1, extract (E:=unit) entries t = Ret t1 (entries, tokens) ∧
    rollback (E:=unit) entries tokens t1 = Ret t tt.
Proof.
  intros Hwf Hok Hlen Hprep.
  pose proof (wp_Ret _ _ _ _ _ _ (prepare_move_batch_wp t requests Hlen Hok) Hprep)
    as (_ & Hnd & Hall).
  destruct (prepared_batch _ _ _ Hok Hnd Hall) as (sources & Hb & _ & _).
  pose proof (extract_wp (E:=unit) _ _ _ Hwf Hb) as Hex. unfold wp in Hex.
  destruct (extract entries t) as [t1 res| |]; [|done..]. destruct Hex as (-> & Hem & Hrun).
  exists (batch_tokens entries sources), t1. split; [done|].
  pose proof (rollback_identity (E:=unit) _ _ _ _ Hwf Hb Hem) as Hroll. unfold wp in Hroll.
  destruct (rollback _ _ t1) as [t2 []| |]; [|done..]. by rewrite Hroll.
Qed.

Lemma aborted_send_restores_the_table_witness :
  ∃ tokens t1, extract (E:=unit) [prepared_entry 0 event_request event_entry 0] event_table =
      Ret t1 ([prepared_entry 0 event_request event_entry 0], tokens) ∧
    rollback (E:=unit) [prepared_entry 0 event_request event_entry 0] tokens t1 =
      Ret event_table tt.
Proof.
  apply (aborted_send_restores_the_table event_table [event_request]).
  - exact event_table_wf.
  - constructor; [exact event_request_ok|constructor].
  - simpl. unfold HANDLE_TRANSFER_LIMIT, DW_CHANNEL_MAX_HANDLES. lia.
  - reflexivity.
Defined.

(** ** A single move across tables *)

(** A move whose source is gone is refused. *)
Lemma robbed_move_conflicts g t : move_domain g = domain t → robbed (prep_permit (move_entry g)) (prep_slot (move_entry g)) t →
  try_extract g t = Fail t HandleReservationError.Conflict.
Proof.
  intros Hd (s & Hi & Hr & Hn). unfold try_extract, foreign_or, HandleTable.validate_prepared_move, mbind, M_bind, get.
  rewrite Hd, Z.eqb_refl. cbn [negb]. rewrite Hi, Hr. rewrite bool_decide_true by done. cbn [negb]. rewrite Hn. by destruct (_ || _).
Qed.

(** C8. A prepared move is honoured or refused, whatever else happens to the
    table while its permit is used by nobody else: unless a batch has taken
    the very reference the handle named, extraction succeeds and yields that
    reference, and when it is published into any reserved slot of any table
    the receiver gets that object with exactly the requested rights, all of
    which the sender held, and TRANSFER with them; and if a batch has taken
    it, which the reservation of the slot does not prevent, extraction fails
    with [Conflict] and changes nothing, so that no reference is moved twice. *)
Theorem moved_handle_arrives_without_amplification t request t1 g l t2 dst r :
  table_wf t → next_permit t + 1 < 2 ^ 64 → is_uint 64 (req_requested_rights request) →
  prepare_move request t = Ret t1 g →
  table_steps l t1 t2 →
  Forall (λ iev, event_permit iev.2 ≠ Some (prep_permit (move_entry g))) l →
  table_wf dst → transfer_domain r = domain dst →
  reservation_held (transfer_reservation r) dst →
  ∃ i s e,
    resolves t (req_handle request) i s e ∧
    bits_subset DW_RIGHT_TRANSFER (entry_rights e) ∧
    bits_subset (req_requested_rights request) (entry_rights e) ∧
    ((∀ e', (i, EBatchTake e') ∉ l) ∧ (∃ t3 rb token dst' r' info s',
       try_extract g t2 = Ret t3 (complete_move g, (rb, token)) ∧
       token_reference token = entry_reference e ∧
       try_publish r token dst = Ret dst' (r', info) ∧
       resolves dst' (published_handle info) (res_slot (transfer_reservation r)) s'
         {| entry_reference := entry_reference e; entry_rights := req_requested_rights request |}) ∨
     (i, EBatchTake e) ∈ l ∧ try_extract g t2 = Fail t2 HandleReservationError.Conflict).
Proof.
  intros Hwf Hp Hu Hprep Hrun Hl Hwfd Hd Hheld.
  pose proof (wp_Ret _ _ _ _ _ _ (prepare_move_wp t request Hwf Hp Hu) Hprep)
    as (Hdom & _ & i & s & e & Hres & Hmov & Hr & Hg & Hsl & Hrun1).
  pose proof Hres as (_ & Hdec & Hi & Hret & He). pose proof (table_steps_wf _ _ _ Hwf Hrun1) as Hwf1.
  set (s1 := set_reservation (reserved (next_permit t) SlotReservationKind.MovePrepared) s).
  assert (guarded (next_permit t) i s1 t1) as Hguard.
  { split; [|by eexists]. rewrite Hsl. apply list_lookup_insert_eq. by eapply lookup_lt_Some. }
  assert (move_domain g = domain t2) as Hdom2.
  { by rewrite Hdom, (table_steps_domain _ _ _ Hrun), (table_steps_domain _ _ _ Hrun1). }
  exists i, s, e. destruct Hmov as (Htr & Hrok & Hsub). split_and!; [done..|].
  rewrite Hg in Hl. simpl in Hl.
  destruct (prepared_run _ _ _ _ _ _ e Hwf1 Hguard eq_refl He Hl Hrun) as [[Hno [Hi2 _]]|[Hin Hrob]];
    [left|right; split; [done|apply robbed_move_conflicts; [done|by rewrite Hg]]].
  split; [done|]. assert (move_held (move_entry g) e t2) as Hmh.
  { exists s1. rewrite Hg. simpl. split_and!; try done.
    by rewrite (decode_handle_generation _ _ _ Hdec). }
  pose proof (table_steps_wf _ _ _ Hwf1 Hrun) as Hwf2.
  pose proof (try_extract_wp g t2 Hwf2) as Hex. unfold wp in Hex.
  destruct (try_extract g t2) as [t3 res|t3 err|] eqn:Hextract; [|exfalso|done].
  2: { by destruct Hex as [-> [Hne|Hno']]; [|destruct (Hno' e)]. }
  destruct Hex as (e' & (s' & Hs' & _ & _ & _ & He' & _) & -> & _ & _).
  assert (e' = e) as -> by (rewrite Hg in Hs'; simpl in Hs'; simplify_eq; simpl in He'; congruence).
  pose proof (proj2 (proj2 (so_entry _ (wf_slots _ Hwf _ _ Hi) _ He))) as Heok.
  assert (token_ok (moved_token (move_entry g) e)) as Htok.
  { rewrite Hg. split_and!; done. }
  pose proof (try_publish_wp r _ dst Hwfd ltac:(unfold transfer_ok; rewrite Hd; by apply held_guard_ok)
    Htok) as Hpub. unfold wp in Hpub.
  destruct (try_publish r _ dst) as [dst' [r' info]|dst' err|] eqn:Hpublish; [|exfalso|done].
  2: { destruct Hpub as (_ & _ & [?|?]); done. }
  destruct Hpub as (_ & _ & _ & s2 & Hres2). unfold received_entry in Hres2. rewrite Hg in Hres2.
  exists t3. eexists _, _, dst', r', info, s2. split_and!; try done.
Qed.

Definition child_table : HandleTable.t := after reserve_transfer_destination (fresh_table 2 1).

Definition child_guard : HandleTransferReservation :=
  {| transfer_domain := 2;
     transfer_reservation := {| res_slot := 0; res_prior_generation := 0; res_generation := 1;
                                res_handle := handle_one; res_permit := 1 |};
     transfer_completed := false |}.

Lemma child_table_reserved :
  table_wf child_table ∧ reservation_held (transfer_reservation child_guard) child_table.
Proof.
  assert (reserve_transfer_destination (fresh_table 2 1) = Ret child_table child_guard) as Heq
    by reflexivity.
  destruct (wp_Ret _ _ _ _ _ _ (reserve_transfer_destination_wp (fresh_table 2 1)
    (fresh_table_wf 2 1 ltac:(done)) ltac:(done)) Heq) as (_ & _ & Hheld & _ & Hrun).
  split; [|exact Hheld]. eapply table_steps_wf; [|exact Hrun]. by apply fresh_table_wf.
Qed.

Definition event_move : PreparedHandleMove :=
  {| move_domain := 1; move_entry := prepared_entry 0 event_request event_entry 2;
     move_completed := false |}.

Lemma moved_handle_arrives_without_amplification_witness :
  ∃ t3 rb token dst' r' info,
    try_extract event_move (after (prepare_move event_request) event_table) =
      Ret t3 (complete_move event_move, (rb, token)) ∧
    try_publish child_guard token child_table = Ret dst' (r', info).
Proof.
  destruct (moved_handle_arrives_without_amplification event_table event_request
    (after (prepare_move event_request) event_table) event_move []
    (after (prepare_move event_request) event_table) child_table child_guard)
    as (i & s & e & _ & _ & _ & [(_ & t3 & rb & token & dst' & r' & info & s' & H1 & _ & H2 & _)|[Hin _]]).
  - exact event_table_wf.
  - done.
  - by unfold is_uint.
  - reflexivity.
  - constructor.
  - constructor.
  - apply child_table_reserved.
  - reflexivity.
  - apply child_table_reserved.
  - exists t3, rb, token, dst', r', info. split; [exact H1|exact H2].
  - by apply elem_of_nil in Hin.
Defined.

(** A slot reserved for a transfer is kept for its holder through any
    run of other transactions: publication then succeeds, at the very handle
    value announced when the slot was reserved. *)
Theorem reserved_destination_is_honoured t t1 g l t2 token :
  table_wf t → next_permit t + 1 < 2 ^ 64 →
  reserve_transfer_destination t = Ret t1 g →
  table_steps l t1 t2 →
  Forall (λ iev, event_permit iev.2 ≠ Some (res_permit (transfer_reservation g))) l →
  token_ok token →
  ∃ t3 info s, try_publish g token t2 = Ret t3 (complete_transfer g, info) ∧
    published_handle info = res_handle (transfer_reservation g) ∧
    resolves t3 (published_handle info) (res_slot (transfer_reservation g)) s
      {| entry_reference := token_reference token;
         entry_rights := token_requested_rights token |}.
Proof.
  intros Hwf Hp Hreserve Hrun Hl Htok.
  pose proof (wp_Ret _ _ _ _ _ _ (reserve_transfer_destination_wp t Hwf Hp) Hreserve)
    as (_ & Hdom & Hheld & _ & Hrun1). pose proof (table_steps_wf _ _ _ Hwf Hrun1) as Hwf1.
  pose proof (held_stable _ _ _ _ Hwf1 Hheld Hl Hrun) as Hheld2.
  assert (transfer_domain g = domain t2) as Hd.
  { by rewrite Hdom, (table_steps_domain _ _ _ Hrun), (table_steps_domain _ _ _ Hrun1). }
  pose proof (table_steps_wf _ _ _ Hwf1 Hrun) as Hwf2.
  unfold try_publish, foreign_or, mbind, M_bind, get, map_err. rewrite Hd, Z.eqb_refl. simpl.
  pose proof (publish_transfer_wp g {| entry_reference := token_reference token;
    entry_rights := token_requested_rights token |} t2 Hwf2
    ltac:(unfold transfer_ok; rewrite Hd; by apply held_guard_ok) Hd ltac:(apply Htok)) as Hpub.
  unfold wp in Hpub. destruct (publish_transfer g _ t2) as [t3 res|t3 err|]; [| |done].
  - destruct Hpub as (-> & _ & _ & s & Hres). eexists t3, _, s. done.
  - by destruct Hpub as [_ []].
Qed.

Definition event_transfer : HandleTransferToken :=
  {| token_reference := event_handle; token_source_rights := event_rights;
     token_requested_rights := DW_RIGHT_WAIT |}.

Lemma event_transfer_ok : token_ok event_transfer.
Proof.
  split_and!; [apply rights_ok_checks; [by unfold is_uint|reflexivity]..|].
  by apply require_held_ok.
Qed.

Lemma reserved_destination_is_honoured_witness :
  ∃ t3 info, try_publish child_guard event_transfer child_table =
    Ret t3 (complete_transfer child_guard, info) ∧ published_handle info = handle_one.
Proof.
  destruct (reserved_destination_is_honoured (fresh_table 2 1) child_table child_guard []
    child_table event_transfer) as (t3 & info & s & H1 & H2 & _).
  - by apply fresh_table_wf.
  - done.
  - reflexivity.
  - constructor.
  - constructor.
  - exact event_transfer_ok.
  - exists t3, info. split; [exact H1|exact H2].
Defined.

(** A receive that needs [count] slots reserves all of them or none: when
    it fails, no permit is left outstanding and no entry has changed; when it
    succeeds, publishing any batch of that many valid tokens succeeds, and the
    [k]-th published handle resolves to the [k]-th token's object with exactly
    its requested rights. *)
Theorem received_batch_is_all_or_nothing t count tokens :
  table_wf t → (count ≤ HANDLE_TRANSFER_LIMIT)%nat → next_permit t + Z.of_nat count < 2 ^ 64 →
  Forall token_ok tokens → length tokens = count →
  (∃ t1, reserve_transfer_batch count t = Fail t1 HandleTableError.Capacity ∧
     permits (slots t1) = permits (slots t) ∧
     entry_tokens (slots t1) = entry_tokens (slots t)) ∨
  (∃ rs t1 infos t2, reserve_transfer_batch count t = Ret t1 rs ∧
     publish_batch (E:=unit) rs tokens t1 = Ret t2 infos ∧
     Forall2 (λ info token, ∃ i s, resolves t2 (published_handle info) i s
       {| entry_reference := token_reference token;
          entry_rights := token_requested_rights token |}) infos tokens).
Proof.
  intros Hwf Hcount Hp Htok Hlen.
  pose proof (reserve_transfer_batch_wp t count Hwf Hcount Hp) as Hw. unfold wp in Hw.
  destruct (reserve_transfer_batch count t) as [t1 rs|t1 err|]; [right|left|done].
  - destruct Hw as [Hlrs (Hall & _ & l & Hrun & _)].
    pose proof (publish_batch_wp (E:=unit) rs tokens t1 (table_steps_wf _ _ _ Hwf Hrun) Hall Htok
      ltac:(congruence)) as Hpub. unfold wp in Hpub.
    destruct (publish_batch rs tokens t1) as [t2 infos| |] eqn:Heq; [|done..].
    destruct Hpub as (-> & _ & Hres). exists rs, t1. eexists _, t2. split_and!; [done|exact Heq|].
    clear -Hres. induction Hres as [|r token rs tokens (s & Hr) _ IH]; simpl; constructor; [|done].
    eexists _, s. exact Hr.
  - destruct Hw as (-> & l & Hrun & [Hg Hlo] & Hbal). exists t1. split_and!; [done| |].
    + pose proof (table_steps_permits _ _ _ Hrun). multiset_solver.
    + pose proof (table_steps_tokens _ _ _ Hwf Hrun) as Hconserve.
      rewrite Hg, Hlo in Hconserve. multiset_solver.
Qed.

Lemma received_batch_is_all_or_nothing_witness :
  ∃ rs t1 infos t2, reserve_transfer_batch 1 (fresh_table 2 1) = Ret t1 rs ∧
    publish_batch (E:=unit) rs [event_transfer] t1 = Ret t2 infos.
Proof.
  destruct (received_batch_is_all_or_nothing (fresh_table 2 1) 1 [event_transfer])
    as [(t1 & H1 & _)|(rs & t1 & infos & t2 & H1 & H2 & _)].
  - by apply fresh_table_wf.
  - unfold HANDLE_TRANSFER_LIMIT, DW_CHANNEL_MAX_HANDLES. lia.
  - done.
  - constructor; [exact event_transfer_ok|constructor].
  - done.
  - discriminate H1.
  - exists rs, t1, infos, t2. split; [exact H1|exact H2].
Defined.

(** ** Looking up and duplicating *)

(** A lookup grants exactly what the entry holds: it succeeds when, and
    only when, the handle resolves to an entry of an accepted type that holds
    every required right (and the object's internal count is not full); it then
    pins the entry's object and reports the entry's rights, and the registry's
    books still balance; when it fails it changes nothing. *)
Theorem lookup_grants_exactly_the_entry t reg F fs h accepted required :
  coherent (owns:=ledger) t reg F fs → is_uint 64 required →
  (∃ reg' rh i s e, lookup t h accepted required reg = Ret reg' rh ∧
     resolves t h i s e ∧
     AcceptedObjectTypes.accepts accepted (handle_type (entry_reference e)) = true ∧
     bits_subset required (entry_rights e) ∧
     ResolvedHandle.object_id rh = handle_id (entry_reference e) ∧
     ResolvedHandle.object_type rh = handle_type (entry_reference e) ∧
     ResolvedHandle.rights rh = entry_rights e ∧
     coherent (owns:=ledger) t reg'
       (F ⊎ {[+ internal_token (ResolvedHandle.reference rh) +]}) fs) ∨
  (∃ err, lookup t h accepted required reg = Fail reg err ∧
     ∀ i s e, resolves t h i s e →
       AcceptedObjectTypes.accepts accepted (handle_type (entry_reference e)) = true →
       bits_subset required (entry_rights e) →
       err = HandleTableError.ReferenceCapacity ∧
       exhausted (entry_tokens (slots t) ⊎ F)
         (ReferenceKind.Internal, handle_id (entry_reference e), handle_type (entry_reference e))).
Proof.
  intros Hco Hu. pose proof (lookup_wp t reg F fs h accepted required Hco Hu) as Hw.
  pose proof (λ i s e, lookup_granted_wp t reg F fs h accepted required i s e Hco Hu) as Hgr.
  unfold wp in *. destruct (lookup t h accepted required reg) as [reg' rh|reg' err|]; [left|right|done].
  - destruct Hw as (i & s & e & Hres & (Hacc & _ & Hsub) & Hrest). exists reg', rh, i, s, e. done.
  - destruct Hw as [-> _]. exists err. split; [done|]. intros i s e Hres Hacc Hsub.
    by destruct (Hgr i s e Hres Hacc Hsub) as (_ & -> & Hex).
Qed.

Lemma lookup_grants_exactly_the_entry_witness :
  ∃ reg' rh, lookup event_table handle_one (AcceptedObjectTypes.One DW_OBJECT_TYPE_EVENT)
               DW_RIGHT_WAIT event_registry = Ret reg' rh ∧
    ResolvedHandle.rights rh = event_rights.
Proof.
  destruct (lookup_grants_exactly_the_entry event_table event_registry _ _ handle_one
    (AcceptedObjectTypes.One DW_OBJECT_TYPE_EVENT) DW_RIGHT_WAIT event_config_coherent)
    as [(reg' & rh & i & s & e & H1 & Hres & _ & _ & _ & _ & H2 & _)|(err & H1 & _)].
  - by unfold is_uint.
  - exists reg', rh. split; [exact H1|]. rewrite H2.
    destruct Hres as (_ & Hdec & Hs & _ & He). injection Hdec as <- _. injection Hs as <-.
    injection He as <-. reflexivity.
  - discriminate H1.
Defined.

(** Installing a reference either fails and gives the reference back,
    with [InvalidRights] exactly when the rights are empty, unknown or
    incompatible with the object's type, and [Capacity] only when no slot of the
    table is available; or it returns a handle that resolves to exactly the
    installed reference and rights, and every handle that resolved before still
    resolves to its entry. *)
Theorem install_publishes_exactly_the_entry t reference rights :
  table_wf t → next_permit t + 1 < 2 ^ 64 → is_uint 64 rights →
  (∃ t1 h i s, install reference rights t = Ret t1 h ∧
     rights_ok (handle_type reference) rights ∧
     resolves t1 h i s {| entry_reference := reference; entry_rights := rights |} ∧
     ∀ h' i' s' e', resolves t h' i' s' e' → resolves t1 h' i' s' e') ∨
  (install reference rights t = Fail t (HandleTableError.InvalidRights, reference) ∧
     ¬ rights_ok (handle_type reference) rights) ∨
  (∃ t1, install reference rights t = Fail t1 (HandleTableError.Capacity, reference) ∧
     rights_ok (handle_type reference) rights ∧
     ∀ i s, slots t !! i = Some s → ¬ available None i s).
Proof.
  intros Hwf Hp Hu. pose proof (install_wp t reference rights Hwf Hp Hu) as Hw. unfold wp in Hw.
  destruct (install reference rights t) as [t1 h|t1 [err ref]|]; [left|right|done].
  - destruct Hw as [Hok (r & l & s & Hl & _ & _ & Hrun & Hres & _)].
    exists t1, h, (res_slot r), s. split_and!; try done.
    intros h' i' s' e' (H1 & H2 & Hs' & H4 & He'). unfold resolves. split_and!; try done.
    eapply live_untouched; [|exact Hrun|done|done]. apply Forall_app_2.
    + eapply list.Forall_impl; [exact Hl|]. by left.
    + constructor; [|constructor; [|constructor]]; [right; left; by eexists|].
      right; right. by eexists _, _.
  - destruct Hw as [Href Hcase]. simpl in *. subst ref.
    destruct Hcase as [(-> & -> & Hn)|(Hok & -> & _ & _ & Hseen)]; [by left|right].
    exists t1. split_and!; [done|done|]. intros i s Hs.
    apply Hseen; [by eapply lookup_lt_Some|done].
Qed.

Lemma install_publishes_exactly_the_entry_witness :
  ∃ t1 h i s, install event_handle event_rights (fresh_table 1 2) = Ret t1 h ∧
    resolves t1 h i s event_entry.
Proof.
  destruct (install_publishes_exactly_the_entry (fresh_table 1 2) event_handle event_rights)
    as [(t1 & h & i & s & H1 & _ & H2 & _)|[[H1 _]|(t1 & H1 & _)]].
  - by apply fresh_table_wf.
  - done.
  - by unfold is_uint.
  - exists t1, h, i, s. split; [exact H1|exact H2].
  - discriminate H1.
  - discriminate H1.
Defined.

(** Duplication never amplifies: when it succeeds, the source held
    DUPLICATE and every requested right, the new handle resolves to the same
    object with exactly the requested rights, the source and every other handle
    still resolve to their entries, and the object has one more handle
    reference, the new entry's. *)
Theorem duplicate_never_amplifies t reg F fs h requested t1 reg1 h' :
  coherent (owns:=ledger) t reg F fs → next_permit t + 1 < 2 ^ 64 → is_uint 64 requested →
  duplicate h requested (t, reg) = Ret (t1, reg1) h' →
  ∃ i s e i' s', resolves t h i s e ∧
    bits_subset DW_RIGHT_DUPLICATE (entry_rights e) ∧
    bits_subset requested (entry_rights e) ∧
    resolves t1 h' i' s' {| entry_reference := entry_reference e; entry_rights := requested |} ∧
    (∀ h2 i2 s2 e2, resolves t h2 i2 s2 e2 → resolves t1 h2 i2 s2 e2) ∧
    entry_tokens (slots t1) = entry_tokens (slots t) ⊎ {[+ entry_token e +]} ∧
    coherent (owns:=ledger) t1 reg1 F fs.
Proof.
  intros Hco Hp Hu Hdup. pose proof Hco as [Hwf _].
  pose proof (wp_Ret _ _ _ _ _ _ (duplicate_wp t reg F fs h requested Hco Hp Hu) Hdup)
    as (i & s & e & Hres & _ & (Hd & _ & Hsub) & (r & l & s' & Hl & _ & _ & Hrun & Hres' & _) & Ho).
  exists i, s, e, (res_slot r), s'. split_and!; try done.
  - intros h2 i2 s2 e2 (H1 & H2 & Hs2 & H4 & He2). unfold resolves. split_and!; try done.
    eapply live_untouched; [|exact Hrun|done|done]. apply Forall_app_2.
    + eapply list.Forall_impl; [exact Hl|]. by left.
    + constructor; [|constructor; [|constructor]]; [right; left; by eexists|].
      right; right. by eexists _, _.
  - pose proof (table_steps_tokens _ _ _ Hwf Hrun) as Htok.
    apply retires_run in Hl as ((Hg & Hlo) & _).
    rewrite run_gained_app, run_lost_app, Hg, Hlo in Htok. simpl in Htok.
    unfold entry_token in *. simpl in *. multiset_solver.
  - split; [by eapply table_steps_wf|exact Ho].
Qed.

Lemma duplicate_never_amplifies_witness :
  ∃ i' s', resolves (after (duplicate handle_one DW_RIGHT_WAIT) (event_table, event_registry)).1
    (2 ^ 32 + 2) i' s' {| entry_reference := event_handle; entry_rights := DW_RIGHT_WAIT |}.
Proof.
  set (st := after (duplicate handle_one DW_RIGHT_WAIT) (event_table, event_registry)).
  destruct (duplicate_never_amplifies event_table event_registry _ _ handle_one DW_RIGHT_WAIT
    st.1 st.2 (2 ^ 32 + 2) event_config_coherent)
    as (i & s & e & i' & s' & Hres & _ & _ & H & _).
  - done.
  - by unfold is_uint.
  - reflexivity.
  - exists i', s'. destruct Hres as (_ & Hdec & Hs & _ & He). injection Hdec as <- _.
    injection Hs as <-. injection He as <-. exact H.
Defined.

(** C36. When a duplication fails because the object's 32-bit handle count is
    full, the slot it had reserved is not given back: its permit stays
    outstanding, and as nobody holds it, the slot is never available again
    whatever happens to the table afterwards. *)
Theorem duplicate_leaks_its_slot_at_full_count t reg F fs h requested t1 reg1 :
  coherent (owns:=ledger) t reg F fs → next_permit t + 1 < 2 ^ 64 → is_uint 64 requested →
  duplicate h requested (t, reg) = Fail (t1, reg1) HandleTableError.ReferenceCapacity →
  ∃ r, permits (slots t1) = permits (slots t) ⊎ {[+ res_permit r +]} ∧
    ∀ l t2, table_steps l t1 t2 →
      Forall (λ iev, event_permit iev.2 ≠ Some (res_permit r)) l →
      ∃ s, slots t2 !! res_slot r = Some s ∧ ¬ available None (res_slot r) s.
Proof.
  intros Hco Hp Hu Hdup. pose proof Hco as [Hwf _].
  pose proof (wp_Fail _ _ _ _ _ _ (duplicate_wp t reg F fs h requested Hco Hp Hu) Hdup)
    as [(_ & Hcase) _].
  destruct Hcase as [(_ & _ & ?)|[[? _]|(_ & r & Hr)]]; [done|done|].
  exists r. pose proof (reserve_run_wf _ _ _ _ _ Hwf Hr) as Hwf1. split.
  - destruct (reserved_by_events _ _ _ _ _ Hr) as (l & _ & Hrun & _ & Hc & Hi).
    pose proof (table_steps_permits _ _ _ Hrun) as Hperm. rewrite Hc, Hi in Hperm. simpl in *.
    multiset_solver.
  - intros l t2 Hrun Hl. destruct Hr as (Hheld & _).
    destruct (held_stable _ _ _ _ Hwf1 Hheld Hl Hrun) as (_ & s & Hs & Hres & _).
    exists s. split; [done|]. intros (_ & _ & _ & Hn & _). by rewrite Hn in Hres.
Qed.

(** A registry in which the event has as many handle references as its
    count can hold. *)
Definition full_registry : ObjectRegistry.t :=
  {| ObjectRegistry.domain := 1;
     ObjectRegistry.slots :=
       [{| generation := 1; Object.state := SlotState.Live
             {| live_type := DW_OBJECT_TYPE_EVENT; handle_refs := 2 ^ 32 - 1;
                internal_refs := 0 |} |}] |}.

Definition other_refs : gmultiset Token := Z.to_nat (2 ^ 32 - 2) *: {[+ handle_token event_handle +]}.

Lemma object_at_full id : object_at full_registry id =
  if decide (id = event_id) then
    Some (SlotState.Live {| live_type := DW_OBJECT_TYPE_EVENT; handle_refs := 2 ^ 32 - 1;
                            internal_refs := 0 |})
  else None.
Proof.
  destruct (decide (id = event_id)) as [->|Hne]; [reflexivity|].
  unfold object_at. case_bool_decide as Hid; [|done]. destruct Hid as [Hd Hu].
  destruct (decode_object_id (oid_raw id)) as [[i g]|] eqn:Hdec; simpl; [|done].
  apply decode_object_id_Some in Hdec as (_ & _ & _ & Hraw); [|done].
  destruct i as [|i]; [|done]. cbn -[Z.eqb Z.pow].
  destruct (Z.eqb_spec 1 g) as [<-|]; [|done].
  destruct Hne. destruct id; simpl in *. unfold event_id. f_equal; lia.
Qed.

Lemma full_ledger : ledger full_registry (entry_tokens (slots event_table) ⊎ other_refs) ∅.
Proof.
  assert (entry_tokens (slots event_table) = {[+ handle_token event_handle +]}) as ->.
  { change (entry_tokens (slots event_table)) with
      ({[+ handle_token event_handle +]} ⊎ (∅ ⊎ ∅) : gmultiset Token). multiset_solver. }
  split_and!.
  - intros [|i] s Hs; [|done]. injection Hs as <-. by split_and!; unfold is_uint; simpl; try lia.
  - assert (∃ n, Z.of_nat n = 2 ^ 32 - 2 ∧
      other_refs = n *: {[+ handle_token event_handle +]}) as (n & Hn & ->)
      by (eexists; split; [|reflexivity]; lia).
    intros [[k id] ty]. unfold held. simpl. rewrite object_at_full.
    rewrite multiplicity_disj_union, multiplicity_scalar_mul, !multiplicity_singleton.
    unfold handle_token, event_handle. simpl.
    destruct (decide (id = event_id)) as [->|Hne]; unfold held_in; cbn [live_type].
    + destruct (Z.eqb_spec DW_OBJECT_TYPE_EVENT ty) as [<-|Hty].
      * destruct k; [rewrite !decide_True by done; simpl; rewrite ?Nat.mul_1_r; lia|].
        rewrite !decide_False by congruence. rewrite Nat.mul_0_r. simpl. lia.
      * rewrite !decide_False by congruence. rewrite Nat.mul_0_r. lia.
    + rewrite !decide_False by congruence. rewrite Nat.mul_0_r. lia.
  - intros f. unfold held_final. rewrite multiplicity_empty, object_at_full.
    by destruct (decide (final_id f = event_id)).
Qed.

Lemma duplicate_leaks_its_slot_at_full_count_witness :
  ∃ r, permits (slots (after (duplicate handle_one DW_RIGHT_WAIT) (event_table, full_registry)).1) =
    permits (slots event_table) ⊎ {[+ res_permit r +]}.
Proof.
  destruct (duplicate_leaks_its_slot_at_full_count event_table full_registry other_refs ∅
    handle_one DW_RIGHT_WAIT
    (after (duplicate handle_one DW_RIGHT_WAIT) (event_table, full_registry)).1
    (after (duplicate handle_one DW_RIGHT_WAIT) (event_table, full_registry)).2)
    as (r & H & _).
  - exact (conj event_table_wf full_ledger).
  - done.
  - by unfold is_uint.
  - reflexivity.
  - exists r. exact H.
Defined.

(** ** Permits and pairs *)

(** While a move of a handle is prepared, the handle cannot be closed
    and cannot be duplicated: both are refused and change neither the table nor
    the registry. *)
Theorem prepared_move_excludes_close_and_duplicate t request t1 g reg requested :
  table_wf t → next_permit t + 1 < 2 ^ 64 → is_uint 64 (req_requested_rights request) →
  prepare_move request t = Ret t1 g →
  close (req_handle request) (t1, reg) = Fail (t1, reg) HandleTableError.AccessDenied ∧
  ∃ err, duplicate (req_handle request) requested (t1, reg) = Fail (t1, reg) err ∧
    (validate_requested_syntax requested = Ok tt → err = HandleTableError.AccessDenied).
Proof.
  intros Hwf Hp Hu Hprep.
  pose proof (wp_Ret _ _ _ _ _ _ (prepare_move_wp t request Hwf Hp Hu) Hprep)
    as (_ & _ & i & s & e & (Hz & Hdec & Hi & Hret & He) & _ & _ & _ & Hsl & _).
  assert (resolve_mutation_slot (req_handle request) t1 =
    Fail t1 HandleTableError.AccessDenied) as Hmut.
  { assert (slots t1 !! i = Some (set_reservation (reserved (next_permit t)
      SlotReservationKind.MovePrepared) s)) as Hi1.
    { rewrite Hsl. apply list_lookup_insert_eq. by eapply lookup_lt_Some. }
    assert (resolve_slot t1 (req_handle request) = Ok i) as Hslot.
    { apply resolve_slot_Ok. eexists _, e. unfold resolves. split_and!; [done| |exact Hi1|done|done].
      done. }
    unfold resolve_mutation_slot, mbind, M_bind, get, lift. rewrite Hslot.
    by rewrite (slot_at_eq _ _ _ Hi1). }
  unfold close, duplicate, on_fst, mbind, M_bind. cbn [fst snd]. rewrite Hmut. split; [done|].
  unfold check_rights, map_err, lift. destruct (validate_requested_syntax requested) as [[]|e'].
  - cbn [fst snd]. rewrite Hmut. eexists. split; [reflexivity|done].
  - eexists. split; [reflexivity|done].
Qed.

Lemma prepared_move_excludes_close_and_duplicate_witness :
  close handle_one (after (prepare_move event_request) event_table, event_registry) =
    Fail (after (prepare_move event_request) event_table, event_registry)
      HandleTableError.AccessDenied.
Proof.
  apply (prepared_move_excludes_close_and_duplicate event_table event_request
    (after (prepare_move event_request) event_table) event_move event_registry DW_RIGHT_WAIT).
  - exact event_table_wf.
  - done.
  - by unfold is_uint.
  - reflexivity.
Defined.

(** Publishing a typed pair is atomic: with a guard [reserve_typed_pair]
    made, either both announced handles resolve, each to its reference under
    its own type's rights, or the table is unchanged and both references come
    back. *)
Theorem typed_pair_publishes_both_or_neither t g refs :
  table_wf t → typed_ok g t →
  (∃ t1 g' h1 h2 i1 s1 i2 s2, try_publish_typed g refs t = Ret t1 (g', (h1, h2)) ∧
     h1 = res_handle (typed_reservations g).1 ∧ h2 = res_handle (typed_reservations g).2 ∧
     h1 ≠ h2 ∧
     resolves t1 h1 i1 s1
       {| entry_reference := refs.1; entry_rights := spec_rights (typed_specs g).1 |} ∧
     resolves t1 h2 i2 s2
       {| entry_reference := refs.2; entry_rights := spec_rights (typed_specs g).2 |}) ∨
  (∃ err, try_publish_typed g refs t = Fail t (err, refs)).
Proof.
  intros Hwf Hg. pose proof (try_publish_typed_wp g refs t Hwf Hg) as Hw. unfold wp in Hw.
  destruct (try_publish_typed g refs t) as [t1 [g' [h1 h2]]|t1 [err r]|]; [left|right|done].
  - destruct Hw as ([= -> -> ->] & _ & Hpair & _ & s1 & s2 & H1 & H2).
    exists t1. eexists _, _, _, _, s1, _, s2. split_and!; [reflexivity|done|done| |exact H1|exact H2].
    intros Heq. pose proof (pair_held_slots _ _ Hpair) as Hne.
    destruct H1 as (_ & Hd1 & _), H2 as (_ & Hd2 & _). rewrite Heq in Hd1. congruence.
  - destruct Hw as [-> Heq]. simpl in Heq. subst r. by exists err.
Qed.

Definition child_specs : HandleReservationSpec * HandleReservationSpec :=
  ({| spec_object_type := DW_OBJECT_TYPE_EVENT; spec_rights := DW_RIGHT_WAIT |},
   {| spec_object_type := DW_OBJECT_TYPE_PROCESS; spec_rights := DW_RIGHT_INSPECT |}).

Definition typed_table : HandleTable.t := after (reserve_typed_pair child_specs) (fresh_table 3 2).
Definition typed_guard : TypedHandlePairReservation :=
  match reserve_typed_pair child_specs (fresh_table 3 2) with
  | Ret _ g => g
  | _ => {| typed_domain := 0; typed_specs := child_specs;
            typed_reservations := (transfer_reservation child_guard,
                                   transfer_reservation child_guard);
            typed_completed := false |}
  end.

Definition process_handle : HandleRef :=
  {| handle_id := {| oid_domain := 1; oid_raw := 2 ^ 32 + 2 |};
     handle_type := DW_OBJECT_TYPE_PROCESS |}.

Lemma typed_pair_publishes_both_or_neither_witness :
  ∃ t1 g' hs, try_publish_typed typed_guard (event_handle, process_handle) typed_table =
    Ret t1 (g', hs).
Proof.
  assert (reserve_typed_pair child_specs (fresh_table 3 2) = Ret typed_table typed_guard) as Heq
    by reflexivity.
  pose proof (wp_Ret _ _ _ _ _ _ (reserve_typed_pair_wp (fresh_table 3 2) child_specs
    (fresh_table_wf 3 2 ltac:(done)) ltac:(done) ltac:(by unfold is_uint) ltac:(by unfold is_uint))
    Heq) as (Hok & _ & _ & _ & l1 & l2 & _ & _ & _ & Hrun).
  destruct (typed_pair_publishes_both_or_neither typed_table typed_guard
    (event_handle, process_handle)) as [(t1 & g' & h1 & h2 & _ & _ & _ & _ & H & _)|(err & H)].
  - exact (table_steps_wf _ _ _ (fresh_table_wf 3 2 ltac:(done)) Hrun).
  - exact Hok.
  - exists t1, g', (h1, h2). exact H.
  - discriminate H.
Defined.

(** ** Teardown *)

(** Draining a table never panics and reaches every slot: each entry no
    transaction has reserved is removed, everything else is left as it was, the
    final releases returned are exactly those of the objects whose last
    reference the table held, in the front of the result, and the registry's
    books still balance. *)
Theorem drain_releases_every_unreserved_entry t reg F fs :
  coherent (owns:=ledger) t reg F fs → slots t ≠ [] →
  ∃ t1 reg1 res rel, drain (E:=unit) (t, reg) = Ret (t1, reg1) res ∧
    slots t1 = drain_slot <$> slots t ∧
    coherent (owns:=ledger) t1 reg1 F (fs ⊎ list_to_set_disj rel) ∧
    final_releases res = (Some <$> rel) ++ replicate (length (slots t) - length rel) None ∧
    final_release_count res = length rel ∧
    ((∀ i s, slots t !! i = Some s → slot_reservation s = None) → may_drop t1 = true).
Proof.
  intros Hco Hne. pose proof (drain_wp (E:=unit) t reg F fs Hco Hne) as Hw. unfold wp in Hw.
  destruct (drain (t, reg)) as [[t1 reg1] res| |]; [|done..].
  destruct Hw as (rel & Hcount & Hd & Hco1 & _ & _ & Hle & Hout). simpl in *.
  exists t1, reg1, res, rel. rewrite length_replicate in Hle.
  assert (slots t1 = drain_slot <$> slots t) as Hsl.
  { apply list_eq. intros i. rewrite Hd, list_lookup_fmap.
    destruct (slots t !! i) eqn:Hi; [|by case_bool_decide].
    rewrite bool_decide_true; [done|]. split; [lia|by eapply lookup_lt_Some]. }
  split_and!; [done|done|done|by rewrite Hout, drop_replicate|done|].
  intros Hres. unfold may_drop. apply andb_true_iff.
  assert (∀ i s, slots t1 !! i = Some s → slot_entry s = None ∧ slot_reservation s = None) as Hgone.
  { intros i s Hs. rewrite Hsl, list_lookup_fmap in Hs. apply fmap_Some in Hs as (s0 & Hs0 & ->).
    pose proof (Hres i s0 Hs0) as Hr0. unfold drain_slot. rewrite Hr0.
    destruct (retire_if_exhausted_fields (set_entry None s0)) as (_ & He & Hr).
    destruct (slot_entry s0) eqn:He0; [by rewrite He, Hr|done]. }
  split.
  - apply Z.eqb_eq. rewrite (wf_count _ (proj1 Hco1)).
    assert (entry_tokens (slots t1) = ∅) as ->; [|by rewrite gmultiset_size_empty].
    unfold entry_tokens. clear -Hgone. induction (slots t1) as [|s l IH]; [done|]. simpl.
    rewrite (proj1 (Hgone 0%nat s eq_refl)), IH; [multiset_solver|].
    intros i s' Hs'. by apply (Hgone (S i)).
  - apply forallb_forall. intros s Hs. apply list_elem_of_In, list_elem_of_lookup in Hs as [i Hi].
    destruct (Hgone i s Hi) as [-> ->]. done.
Qed.

Lemma drain_releases_every_unreserved_entry_witness :
  ∃ st res, drain (E:=unit) (event_table, event_registry) = Ret st res ∧
    final_release_count res = 1%nat.
Proof.
  destruct (drain_releases_every_unreserved_entry event_table event_registry _ _
    event_config_coherent) as (t1 & reg1 & res & rel & H & _ & _ & _ & _ & _).
  - discriminate.
  - exists (t1, reg1), res. split; [exact H|]. by injection H as _ _ <-.
Defined.

(** A bounded drain step never panics, always makes progress, and is
    exact: it drains precisely the slots from where it started to where it
    stopped, fills the front of the caller's window with the final releases of
    that range, and stops before the end of the table only when the window is
    full; so steps that each resume where the last one stopped drain the whole
    table. *)
Theorem drain_window_is_exact_and_progresses t reg F fs from out :
  coherent (owns:=ledger) t reg F fs → out ≠ [] → (from < length (slots t))%nat →
  ∃ t1 reg1 w out' rel, drain_window (E:=unit) from out (t, reg) = Ret (t1, reg1) (w, out') ∧
    (from < window_resume w ≤ length (slots t))%nat ∧
    (window_done w = true ↔ window_resume w = length (slots t)) ∧
    (window_done w = false → length rel = length out) ∧
    (∀ i, slots t1 !! i =
       if bool_decide (from ≤ i < window_resume w)%nat
       then drain_slot <$> slots t !! i else slots t !! i) ∧
    window_written w = length rel ∧
    out' = (Some <$> rel) ++ drop (length rel) out ∧
    coherent (owns:=ledger) t1 reg1 F (fs ⊎ list_to_set_disj rel).
Proof.
  intros Hco Hout Hfrom.
  pose proof (drain_window_wp (E:=unit) t reg F fs from out Hco Hout ltac:(lia)) as Hw.
  unfold wp in Hw. destruct (drain_window from out (t, reg)) as [[t1 reg1] [w out']| |]; [|done..].
  destruct Hw as (rel & Hwr & (Hd & Hco1 & _ & Hn & Hle & Hout') & Hres & Hdone).
  exists t1, reg1, w, out', rel. simpl in *.
  assert (0 < length out)%nat by (destruct out; [done|simpl; lia]).
  destruct (window_done w).
  - split_and!; try done; lia.
  - destruct Hdone as [Hlt Hfull]. split_and!; try done; try lia.
Qed.

Lemma drain_window_is_exact_and_progresses_witness :
  ∃ st w out', drain_window (E:=unit) 0 [None] (event_table, event_registry) = Ret st (w, out') ∧
    (0 < window_resume w)%nat.
Proof.
  destruct (drain_window_is_exact_and_progresses event_table event_registry _ _ 0 [None]
    event_config_coherent) as (t1 & reg1 & w & out' & rel & H & Hres & _).
  - discriminate.
  - simpl. lia.
  - exists (t1, reg1), w, out'. split; [exact H|]. lia.
Defined.
