(* ===== verification/Cpu.v ===== *)
(** * Logical CPUs

    [kernel/src/cpu.rs]: the kernel has [CPU_CAPACITY] CPUs, and a [CpuIndex]
    is in range by construction.  [cpu_array A] is Rust's
    [[A; CPU_CAPACITY]], read and written at a [CpuIndex]. *)

From stdpp Require Import base tactics numbers list.

Definition CPU_CAPACITY : nat := 4.

Module CpuIndex.
Inductive t : Type :=
| Cpu0
| Cpu1
| Cpu2
| Cpu3.

#[global] Instance eq_dec : EqDecision t.
Proof. solve_decision. Defined.

Definition BOOTSTRAP : t := Cpu0.

Definition new (index : nat) : option t :=
  match index with
  | 0 => Some Cpu0
  | 1 => Some Cpu1
  | 2 => Some Cpu2
  | 3 => Some Cpu3
  | _ => None
  end.

Definition index (self : t) : nat :=
  match self with
  | Cpu0 => 0
  | Cpu1 => 1
  | Cpu2 => 2
  | Cpu3 => 3
  end.
End CpuIndex.

(** [(0..CPU_CAPACITY).filter_map(CpuIndex::new)] *)
Definition cpus : list CpuIndex.t := omap CpuIndex.new (seq 0 CPU_CAPACITY).

Lemma cpu_index_new i : CpuIndex.new i ≫= (λ cpu, Some (CpuIndex.index cpu)) = if decide (i < CPU_CAPACITY) then Some i else None.
Proof. by do 4 (destruct i as [|i]; [done|]). Qed.

Lemma cpu_new_index cpu : CpuIndex.new (CpuIndex.index cpu) = Some cpu.
Proof. by destruct cpu. Qed.

Lemma cpu_index_lt cpu : CpuIndex.index cpu < CPU_CAPACITY.
Proof. unfold CPU_CAPACITY. destruct cpu; simpl; lia. Qed.

Lemma elem_of_cpus cpu : cpu ∈ cpus.
Proof. unfold cpus. simpl. rewrite !elem_of_cons. destruct cpu; tauto. Qed.

Lemma NoDup_cpus : NoDup cpus.
Proof. apply (bool_decide_unpack _). vm_compute. exact I. Qed.

(** ** Arrays over the CPUs *)

Record cpu_array (A : Type) : Type := Cpus { at0 : A; at1 : A; at2 : A; at3 : A }.
Arguments Cpus {_}.
Arguments at0 {_}.
Arguments at1 {_}.
Arguments at2 {_}.
Arguments at3 {_}.

Section arrays.
Context {A : Type}.
Implicit Types (a : cpu_array A) (x : A).

(** [[x; CPU_CAPACITY]] *)
Definition all_cpus x : cpu_array A := Cpus x x x x.

#[global] Instance cpu_lookup : LookupTotal CpuIndex.t A (cpu_array A) := λ cpu a,
  match cpu with
  | CpuIndex.Cpu0 => at0 a
  | CpuIndex.Cpu1 => at1 a
  | CpuIndex.Cpu2 => at2 a
  | CpuIndex.Cpu3 => at3 a
  end.

#[global] Instance cpu_insert : Insert CpuIndex.t A (cpu_array A) := λ cpu x a,
  match cpu with
  | CpuIndex.Cpu0 => Cpus x (at1 a) (at2 a) (at3 a)
  | CpuIndex.Cpu1 => Cpus (at0 a) x (at2 a) (at3 a)
  | CpuIndex.Cpu2 => Cpus (at0 a) (at1 a) x (at3 a)
  | CpuIndex.Cpu3 => Cpus (at0 a) (at1 a) (at2 a) x
  end.

(** [a.iter()] *)
Definition cells a : list A := (λ cpu, a !!! cpu) <$> cpus.

Lemma cpu_lookup_insert cpu cpu' x a : <[cpu' := x]> a !!! cpu = if decide (cpu = cpu') then x else a !!! cpu.
Proof. by destruct cpu, cpu'. Qed.

Lemma cpu_lookup_insert_eq cpu x a : <[cpu := x]> a !!! cpu = x.
Proof. by destruct cpu. Qed.

Lemma cpu_lookup_insert_ne cpu cpu' x a : cpu ≠ cpu' → <[cpu' := x]> a !!! cpu = a !!! cpu.
Proof. by destruct cpu, cpu'. Qed.

Lemma cpu_insert_id cpu a : <[cpu := a !!! cpu]> a = a.
Proof. by destruct cpu, a. Qed.

Lemma cpu_insert_insert cpu x y a : <[cpu := x]> (<[cpu := y]> a) = <[cpu := x]> a.
Proof. by destruct cpu. Qed.

Lemma cpu_lookup_all cpu x : all_cpus x !!! cpu = x.
Proof. by destruct cpu. Qed.

Lemma elem_of_cells x a : x ∈ cells a ↔ ∃ cpu, a !!! cpu = x.
Proof.
  unfold cells. rewrite list_elem_of_fmap. split.
  - intros (cpu & -> & _). by exists cpu.
  - intros (cpu & <-). exists cpu. split; [done|apply elem_of_cpus].
Qed.
End arrays.

Arguments cpus : simpl never.
Arguments cells : simpl never.
