(* ===== verification/Wait.v ===== *)
(** * Wait registrations and manual-reset events

    Models [kernel/src/wait/mod.rs].  A [WaitRegistry] is a table of
    generation-counted slots that hold the registrations of blocked threads,
    each with the internal reference that pins its source; a [WakeBatch]
    collects the wake intents and the pins an operation gives back; an
    [EventAuthority] owns the signal state of the manual-reset events.

    The locks of the source make each method atomic; a method is a
    computation over the tables it locks.  [BlockWakeKey] and [ThreadKey] are
    the identities of [kernel/src/task]. *)

From stdpp Require Import base tactics numbers list.
From Stdlib Require Import ZArith Lia.
From S2P Require Import Prelude Abi Object HandleTable Cpu.
Local Open Scope Z_scope.

(** [task::ThreadKey], [cpu::CpuIndex] and [task::scheduler::BlockWakeKey]. *)
Record ThreadKey : Type := { thread_object : ObjectId }.

Global Instance ThreadKey_eq_dec : EqDecision ThreadKey.
Proof. solve_decision. Defined.

Record BlockWakeKey : Type := {
  wake_domain : Z;
  wake_token : Z;
  wake_thread : ThreadKey;
  wake_cpu : CpuIndex.t;
  wake_execution_generation : Z;
}.

Global Instance BlockWakeKey_eq_dec : EqDecision BlockWakeKey.
Proof. solve_decision. Defined.

(** The static [NEXT_WAIT_DOMAIN] is the state. *)
Definition mint_wait_domain {E} : M Z E Z :=
  domain ← get;
  next ← expect (next_nonzero 64 domain);
  put next;;
  mret domain.

Module WaitError.
Inductive t : Type :=
| Capacity
| InvalidObject
| InvalidSignals
| AccessDenied
| UnsupportedSource
| ForeignRegistration
| StaleRegistration
| EventFinalizationMismatch
| EventReference.
End WaitError.

Definition validate_event_signal_masks (clear_mask set_mask : DwSignals)
    : Result unit WaitError.t :=
  let known := DW_SIGNAL_SIGNALED in
  if negb (Z.land clear_mask (unot 64 known) =? 0)
     || negb (Z.land set_mask (unot 64 known) =? 0)
     || negb (Z.land clear_mask set_mask =? 0)
     || ((clear_mask =? 0) && (set_mask =? 0))
  then Err WaitError.InvalidSignals
  else if ((clear_mask =? DW_SIGNAL_SIGNALED) && (set_mask =? 0))
          || ((clear_mask =? 0) && (set_mask =? DW_SIGNAL_SIGNALED))
  then Ok tt
  else Err WaitError.InvalidSignals.

Definition validate_wait_signals (object_type : DwObjectType) (desired : DwSignals)
    : Result unit WaitError.t :=
  if (desired =? 0) || negb (dw_signals_are_compatible object_type desired)
  then Err WaitError.InvalidSignals
  else Ok tt.

(** * The wait registry *)

Record WaitEntryIdentity : Type := {
  wait_object : ObjectId;
  wait_thread : ThreadKey;
  wait_wake : BlockWakeKey;
}.

Record WaitEntry : Type := {
  wait_identity : WaitEntryIdentity;
  wait_desired : DwSignals;
  wait_item_index : Z;
  wait_pin : InternalRef;
}.

Record WaitSlot : Type := { wait_generation : Z; wait_entry : option WaitEntry }.

Record WaitRegistration : Type := {
  reg_domain : Z;
  reg_slot : nat;
  reg_generation : Z;
  reg_identity : WaitEntryIdentity;
}.

(** [WaitRegistrationFailure] *)
Definition WaitRegistrationFailure : Type := WaitError.t * InternalRef.

Record WakeIntent : Type := {
  intent_wake : BlockWakeKey;
  intent_observed : DwSignals;
  intent_item_index : Z;
}.

(** The two arrays have the batch's capacity as their length. *)
Module WakeBatch.

Record t : Type := {
  wakes : list (option WakeIntent);
  wake_len : nat;
  pins : list (option InternalRef);
  pin_len : nat;
}.

Definition empty (capacity : nat) : t :=
  {| wakes := replicate capacity None; wake_len := 0;
     pins := replicate capacity None; pin_len := 0 |}.

Definition push_wake {S E} (self : t) (wake : WakeIntent) : M S E t :=
  assert_that (wake_len self <? length (wakes self))%nat;;
  mret {| wakes := <[wake_len self := Some wake]> (wakes self);
          wake_len := wake_len self + 1;
          pins := pins self; pin_len := pin_len self |}.

Definition push_pin {S E} (self : t) (pin : InternalRef) : M S E t :=
  assert_that (pin_len self <? length (pins self))%nat;;
  mret {| wakes := wakes self; wake_len := wake_len self;
          pins := <[pin_len self := Some pin]> (pins self);
          pin_len := pin_len self + 1 |}.

Definition len (self : t) : nat := wake_len self.

Definition is_empty (self : t) : bool := (wake_len self =? 0)%nat && (pin_len self =? 0)%nat.

Definition into_parts (self : t) : list (option WakeIntent) * list (option InternalRef) :=
  (wakes self, pins self).

Definition append {S E} (self other : t) : M S E t :=
  let '(wakes, pins) := into_parts other in
  self ← for_each (omap id wakes) (λ wake self, push_wake self wake) self;
  for_each (omap id pins) (λ pin self, push_pin self pin) self.

End WakeBatch.

Module WaitRegistry.

Record t : Type := { domain : Z; slots : list WaitSlot }.

Definition new (capacity : nat) {E} : M Z E t :=
  domain ← mint_wait_domain;
  mret {| domain := domain;
          slots := replicate capacity {| wait_generation := 0; wait_entry := None |} |}.

Definition with_slot (slot : nat) (s : WaitSlot) (self : t) : t :=
  {| domain := domain self; slots := <[slot := s]> (slots self) |}.

Definition is_free (s : WaitSlot) : bool :=
  match wait_entry s with
  | None => negb (wait_generation s =? 2 ^ 32 - 1)
  | Some _ => false
  end.

Definition register (pin : InternalRef) (desired : DwSignals) (item_index : Z)
    (thread : ThreadKey) (wake : BlockWakeKey)
    : M t WaitRegistrationFailure WaitRegistration :=
  map_err (λ error, (error, pin)) (lift (validate_wait_signals (internal_type pin) desired));;
  let identity := {| wait_object := internal_id pin; wait_thread := thread; wait_wake := wake |} in
  self ← get;
  '(index, slot) ← ok_or (list_find (λ s, is_free s) (slots self)) (WaitError.Capacity, pin);
  generation ← ok_or (next_nonzero 32 (wait_generation slot)) (WaitError.Capacity, pin);
  slot_index ← ok_or (try_from 16 (Z.of_nat index)) (WaitError.Capacity, pin);
  modify (with_slot index
    {| wait_generation := generation;
       wait_entry := Some {| wait_identity := identity; wait_desired := desired;
                             wait_item_index := item_index; wait_pin := pin |} |});;
  mret {| reg_domain := domain self; reg_slot := Z.to_nat slot_index;
          reg_generation := generation; reg_identity := identity |}.

Definition cancel (registration : WaitRegistration) : M t WaitError.t InternalRef :=
  self ← get;
  if negb (reg_domain registration =? domain self) then fail WaitError.ForeignRegistration
  else
    slot ← ok_or (slots self !! reg_slot registration) WaitError.StaleRegistration;
    if negb (wait_generation slot =? reg_generation registration)
       || negb match wait_entry slot with
               | Some entry =>
                   bool_decide (wait_object (wait_identity entry) =
                                wait_object (reg_identity registration))
                   && bool_decide (wait_thread (wait_identity entry) =
                                   wait_thread (reg_identity registration))
                   && bool_decide (wait_wake (wait_identity entry) =
                                   wait_wake (reg_identity registration))
               | None => false
               end
    then fail WaitError.StaleRegistration
    else
      entry ← expect (wait_entry slot);
      modify (with_slot (reg_slot registration)
        {| wait_generation := wait_generation slot; wait_entry := None |});;
      mret (wait_pin entry).

(** The entry of [s] belongs to the block generation [wake]. *)
Definition of_generation (wake : BlockWakeKey) (s : WaitSlot) : bool :=
  match wait_entry s with
  | Some entry => bool_decide (wait_wake (wait_identity entry) = wake)
  | None => false
  end.

(** The loop over [slots.iter_mut()] that takes every entry of [wake]. *)
Definition take_generation {E} (wake : BlockWakeKey) (batch : WakeBatch.t) : M t E WakeBatch.t :=
  self ← get;
  for_each (seq 0 (length (slots self))) (λ index batch,
    self ← get;
    slot ← expect (slots self !! index);
    if negb (of_generation wake slot) then mret batch
    else
      entry ← expect (wait_entry slot);
      modify (with_slot index
        {| wait_generation := wait_generation slot; wait_entry := None |});;
      WakeBatch.push_pin batch (wait_pin entry)) batch.

Definition cancel_generation {E} (wake : BlockWakeKey) : M t E WakeBatch.t :=
  self ← get;
  take_generation wake (WakeBatch.empty (length (slots self))).

(** [candidate.identity.object == object && candidate.desired.0 & observed.0 != 0] *)
Definition is_ready (object : ObjectId) (observed : DwSignals) (entry : WaitEntry) : bool :=
  bool_decide (wait_object (wait_identity entry) = object)
  && negb (Z.land (wait_desired entry) observed =? 0).

(** [slots.iter().filter_map(|slot| slot.entry.as_ref())] *)
Definition entries (self : t) : list WaitEntry := omap wait_entry (slots self).

(** [Iterator::min]. *)
Fixpoint minimum (xs : list Z) : option Z :=
  match xs with
  | [] => None
  | x :: xs' => Some match minimum xs' with Some y => Z.min x y | None => x end
  end.

Definition winning_index (self : t) (object : ObjectId) (observed : DwSignals)
    (wake : BlockWakeKey) : option Z :=
  minimum (wait_item_index <$>
    filter (λ entry, wait_wake (wait_identity entry) = wake ∧ is_ready object observed entry)
      (entries self)).

Definition ready_wakes {E} (object : ObjectId) (observed : DwSignals) : M t E WakeBatch.t :=
  self ← get;
  for_each (entries self) (λ candidate batch,
    if negb (is_ready object observed candidate) then mret batch
    else
      let wake := wait_wake (wait_identity candidate) in
      if existsb (λ intent, bool_decide (intent_wake intent = wake))
           (omap id (take (WakeBatch.wake_len batch) (WakeBatch.wakes batch)))
      then mret batch
      else
        winning_index ← expect (winning_index self object observed wake);
        WakeBatch.push_wake batch
          {| intent_wake := wake; intent_observed := observed;
             intent_item_index := winning_index |})
    (WakeBatch.empty (length (slots self))).

Definition take_ready {E} (object : ObjectId) (observed : DwSignals) : M t E WakeBatch.t :=
  self ← get;
  for_each (seq 0 (length (slots self))) (λ candidate_index batch,
    self ← get;
    slot ← expect (slots self !! candidate_index);
    match wait_entry slot with
    | None => mret batch
    | Some candidate =>
        if negb (is_ready object observed candidate) then mret batch
        else
          let wake := wait_wake (wait_identity candidate) in
          winning_index ← expect (winning_index self object observed wake);
          batch ← WakeBatch.push_wake batch
            {| intent_wake := wake; intent_observed := observed;
               intent_item_index := winning_index |};
          take_generation wake batch
    end) (WakeBatch.empty (length (slots self))).

Definition unique_wait_generation (self : t) (object : ObjectId) (desired : DwSignals)
    : option (ThreadKey * BlockWakeKey) :=
  (fix go (found : option (ThreadKey * BlockWakeKey)) (es : list WaitEntry) :=
     match es with
     | [] => found
     | entry :: es' =>
         if negb (bool_decide (wait_object (wait_identity entry) = object))
            || negb (wait_desired entry =? desired)
         then go found es'
         else
           let candidate := (wait_thread (wait_identity entry), wait_wake (wait_identity entry)) in
           match found with
           | None => go (Some candidate) es'
           | Some existing =>
               if bool_decide (existing = candidate) then go found es' else None
           end
     end) None (entries self).

Definition len (self : t) : nat := length (entries self).

End WaitRegistry.

(** * Manual-reset events *)

Record EventKey : Type := { event_object : ObjectId }.

Module EventCreateError.
Inductive t : Type :=
| Registry (error : ObjectRegistryError.t)
| Wait (error : WaitError.t).
End EventCreateError.

Record EventPayloadBinding : Type := { event_creation : CreationRef; event_key : EventKey }.
Record EventPayloadCleanup : Type := { event_cleanup_release : FinalRelease }.
Record EventFinalization : Type := { event_final_release : FinalRelease }.

Global Instance EventPayloadBinding_proof : PayloadBindingProof EventPayloadBinding :=
  event_creation.
Global Instance EventPayloadCleanup_proof : PayloadCleanupProof EventPayloadCleanup :=
  event_cleanup_release.

Record EventRecord : Type := { record_object : ObjectId; signaled : bool }.

Module EventWaitOutcome.
Inductive t : Type :=
| Ready (observed : DwSignals) (pin : InternalRef)
| Registered (registration : WaitRegistration).
End EventWaitOutcome.

Module EventAuthority.

(** The array of optional records. *)
Abbreviation t := (list (option EventRecord)) (only parsing).

Definition new (capacity : nat) : t := replicate capacity None.

(** The slot holds the record of [object]. *)
Definition records (object : ObjectId) (slot : option EventRecord) : bool :=
  match slot with
  | Some event => bool_decide (record_object event = object)
  | None => false
  end.

(** [events.iter().flatten().find(|event| event.object == object)] *)
Definition find (object : ObjectId) (self : t) : option (nat * EventRecord) :=
  '(index, slot) ← list_find (λ slot, records object slot) self;
  event ← slot;
  Some (index, event).

Definition bind_event (creation : CreationRef)
    : M t (WaitError.t * CreationRef) EventPayloadBinding :=
  if negb (creation_type creation =? DW_OBJECT_TYPE_EVENT)
  then fail (WaitError.InvalidObject, creation)
  else
    let key := {| event_object := creation_id creation |} in
    events ← get;
    if existsb (records (event_object key)) events
    then fail (WaitError.EventReference, creation)
    else
      '(index, _) ← ok_or (list_find (λ slot, slot = None) events) (WaitError.Capacity, creation);
      modify (insert index (Some {| record_object := event_object key; signaled := false |}));;
      mret {| event_creation := creation; event_key := key |}.

Definition create_event : M (t * ObjectRegistry.t) EventCreateError.t (EventKey * HandleRef) :=
  creation ← on_snd (map_err EventCreateError.Registry
    (ObjectRegistry.create DW_OBJECT_TYPE_EVENT));
  bound ← on_fst (try (bind_event creation));
  match bound with
  | Err (error, creation) =>
      on_snd (unwrap (ObjectRegistry.cancel_creation creation));;
      fail (EventCreateError.Wait error)
  | Ok binding =>
      let key := event_key binding in
      bound ← on_snd (unwrap (ObjectRegistry.finish_payload_binding binding));
      handle ← on_snd (unwrap (ObjectRegistry.bound_into_handle bound));
      mret (key, handle)
  end.

Definition current_signals (self : t) (key : EventKey) : Result DwSignals WaitError.t :=
  match find (event_object key) self with
  | None => Err WaitError.InvalidObject
  | Some (_, event) => Ok (if signaled event then DW_SIGNAL_SIGNALED else 0)
  end.

Definition signal (key : EventKey) (clear_mask set_mask : DwSignals)
    : M (t * WaitRegistry.t) WaitError.t WakeBatch.t :=
  lift (validate_event_signal_masks clear_mask set_mask);;
  events ← on_fst get;
  '(index, event) ← ok_or (find (event_object key) events) WaitError.InvalidObject;
  let event := {| record_object := record_object event;
                  signaled := set_mask =? DW_SIGNAL_SIGNALED |} in
  on_fst (modify (insert index (Some event)));;
  if signaled event
  then on_snd (WaitRegistry.take_ready (event_object key) DW_SIGNAL_SIGNALED)
  else
    waits ← on_snd get;
    mret (WakeBatch.empty (length (WaitRegistry.slots waits))).

Definition register_wait (target : ResolvedHandle.t) (desired : DwSignals) (item_index : Z)
    (thread : ThreadKey) (wake : BlockWakeKey)
    : M (t * WaitRegistry.t) (WaitError.t * InternalRef) EventWaitOutcome.t :=
  let pin := ResolvedHandle.into_internal target in
  if negb (ResolvedHandle.object_type target =? DW_OBJECT_TYPE_EVENT)
  then fail (WaitError.InvalidObject, pin)
  else if negb (Z.land (ResolvedHandle.rights target) DW_RIGHT_WAIT =? DW_RIGHT_WAIT)
  then fail (WaitError.AccessDenied, pin)
  else
    map_err (λ error, (error, pin))
      (lift (validate_wait_signals (ResolvedHandle.object_type target) desired));;
    events ← on_fst get;
    '(_, event) ← ok_or (find (ResolvedHandle.object_id target) events)
                    (WaitError.InvalidObject, pin);
    if signaled event then mret (EventWaitOutcome.Ready DW_SIGNAL_SIGNALED pin)
    else
      registration ← on_snd (WaitRegistry.register pin desired item_index thread wake);
      mret (EventWaitOutcome.Registered registration).

Definition take_finalization (final_release : FinalRelease)
    : M t (WaitError.t * FinalRelease) EventFinalization :=
  if negb (final_type final_release =? DW_OBJECT_TYPE_EVENT)
  then fail (WaitError.EventFinalizationMismatch, final_release)
  else
    events ← get;
    '(index, _) ← ok_or (list_find (λ slot, records (final_id final_release) slot) events)
                    (WaitError.EventFinalizationMismatch, final_release);
    modify (insert index None);;
    mret {| event_final_release := final_release |}.

End EventAuthority.

Definition complete_event_finalization {E} (finalization : EventFinalization)
    : M ObjectRegistry.t E unit :=
  unwrap (ObjectRegistry.complete_payload_finalization
    {| event_cleanup_release := event_final_release finalization |}).
