(* ===== verification/WaitFacts.v ===== *)
(** * Facts about the wait registry

    A reference description of [WaitRegistry]: which block generations a
    signal wakes, which pins that gives back and what stays registered.  The
    loops of [Wait.v] compute exactly that, and never overflow a
    [WakeBatch]. *)

From stdpp Require Import base tactics numbers list sets gmultiset.
From Stdlib Require Import ZArith Lia.
From S2P Require Import Prelude Abi Object ObjectLedger HandleTable Wait.
Import WaitRegistry.
Local Open Scope Z_scope.

(** ** Wake batches *)

(** The batch of capacity [n] that holds [ws] and [ps]. *)
Definition batch_of (n : nat) (ws : list WakeIntent) (ps : list InternalRef) : WakeBatch.t :=
  {| WakeBatch.wakes := (Some <$> ws) ++ replicate (n - length ws) None;
     WakeBatch.wake_len := length ws;
     WakeBatch.pins := (Some <$> ps) ++ replicate (n - length ps) None;
     WakeBatch.pin_len := length ps |}.

Lemma batch_of_empty n : WakeBatch.empty n = batch_of n [] [].
Proof. unfold WakeBatch.empty, batch_of. simpl. by rewrite !Nat.sub_0_r. Qed.

Section batch.
Context {S E : Type}.
Implicit Types (s : S).

Lemma push_wake_batch n ws ps w s : (length ws < n)%nat →
  WakeBatch.push_wake (E:=E) (batch_of n ws ps) w s = Ret s (batch_of n (ws ++ [w]) ps).
Proof.
  intros Hn. unfold WakeBatch.push_wake, mbind, M_bind, assert_that. simpl.
  rewrite length_fill, (proj2 (Nat.ltb_lt _ _) Hn) by lia. unfold mret, M_ret, batch_of. simpl.
  rewrite fill_next by done. by rewrite length_app.
Qed.

Lemma push_pin_batch n ws ps p s : (length ps < n)%nat →
  WakeBatch.push_pin (E:=E) (batch_of n ws ps) p s = Ret s (batch_of n ws (ps ++ [p])).
Proof.
  intros Hn. unfold WakeBatch.push_pin, mbind, M_bind, assert_that. simpl.
  rewrite length_fill, (proj2 (Nat.ltb_lt _ _) Hn) by lia. unfold mret, M_ret, batch_of. simpl.
  rewrite fill_next by done. by rewrite length_app.
Qed.

Lemma push_wakes_batch n ws' ws ps s : (length ws + length ws' ≤ n)%nat →
  for_each ws' (λ w b, WakeBatch.push_wake (E:=E) b w) (batch_of n ws ps) s =
  Ret s (batch_of n (ws ++ ws') ps).
Proof.
  revert ws. induction ws' as [|w ws' IH]; intros ws Hn; simpl.
  - by rewrite app_nil_r.
  - unfold mbind, M_bind. simpl in Hn. rewrite push_wake_batch by lia.
    rewrite IH by (rewrite length_app; simpl; lia). by rewrite <- app_assoc.
Qed.

Lemma push_pins_batch n ps' ws ps s : (length ps + length ps' ≤ n)%nat →
  for_each ps' (λ p b, WakeBatch.push_pin (E:=E) b p) (batch_of n ws ps) s =
  Ret s (batch_of n ws (ps ++ ps')).
Proof.
  revert ps. induction ps' as [|p ps' IH]; intros ps Hn; simpl.
  - by rewrite app_nil_r.
  - unfold mbind, M_bind. simpl in Hn. rewrite push_pin_batch by lia.
    rewrite IH by (rewrite length_app; simpl; lia). by rewrite <- app_assoc.
Qed.

Lemma append_batch n m ws ps ws' ps' s :
  (length ws + length ws' ≤ n)%nat → (length ps + length ps' ≤ n)%nat →
  WakeBatch.append (E:=E) (batch_of n ws ps) (batch_of m ws' ps') s =
  Ret s (batch_of n (ws ++ ws') (ps ++ ps')).
Proof.
  intros Hw Hp. unfold WakeBatch.append, WakeBatch.into_parts.
  change (WakeBatch.wakes (batch_of m ws' ps')) with
    ((Some <$> ws') ++ replicate (m - length ws') None).
  change (WakeBatch.pins (batch_of m ws' ps')) with
    ((Some <$> ps') ++ replicate (m - length ps') None).
  unfold mbind, M_bind. by rewrite !omap_fill, push_wakes_batch, push_pins_batch.
Qed.

End batch.

(** ** What a signal takes out of the registry *)

Definition ready_key (object : ObjectId) (observed : DwSignals) (s : WaitSlot)
    : option BlockWakeKey :=
  entry ← wait_entry s;
  if is_ready object observed entry then Some (wait_wake (wait_identity entry)) else None.

(** The block generations with a ready registration, by first slot. *)
Definition ready_keys (object : ObjectId) (observed : DwSignals) (ss : list WaitSlot)
    : list BlockWakeKey :=
  dedup (omap (ready_key object observed) ss).

(** The pins of the generation [wake]. *)
Definition pins_of (ss : list WaitSlot) (wake : BlockWakeKey) : list InternalRef :=
  omap (λ s, if of_generation wake s then wait_pin <$> wait_entry s else None) ss.

Definition all_pins (ss : list WaitSlot) : list InternalRef :=
  omap (λ s, wait_pin <$> wait_entry s) ss.

(** The slot after every entry of the generations [keys] was taken. *)
Definition clear (keys : list BlockWakeKey) (s : WaitSlot) : WaitSlot :=
  match wait_entry s with
  | Some entry =>
      if decide (wait_wake (wait_identity entry) ∈ keys)
      then {| wait_generation := wait_generation s; wait_entry := None |} else s
  | None => s
  end.

Definition cleared (keys : list BlockWakeKey) (self : t) : t :=
  {| domain := domain self; slots := clear keys <$> slots self |}.

Definition intent (self : t) (object : ObjectId) (observed : DwSignals) (wake : BlockWakeKey)
    : WakeIntent :=
  {| intent_wake := wake; intent_observed := observed;
     intent_item_index := default 0 (winning_index self object observed wake) |}.

(** *** Taking generations out *)

Lemma length_cleared keys self : length (slots (cleared keys self)) = length (slots self).
Proof. simpl. by rewrite length_fmap. Qed.

Lemma clear_generation keys s : wait_generation (clear keys s) = wait_generation s.
Proof. unfold clear. by destruct (wait_entry s); [destruct (decide _)|]. Qed.

Lemma clear_nil s : clear [] s = s.
Proof.
  unfold clear. destruct (wait_entry s); [|done].
  destruct (decide _) as [H|]; [by apply elem_of_nil in H|done].
Qed.

(** What is left of an entry. *)
Lemma wait_entry_clear keys s :
  wait_entry (clear keys s) =
    entry ← wait_entry s;
    if decide (wait_wake (wait_identity entry) ∈ keys) then None else Some entry.
Proof. unfold clear. destruct (wait_entry s) eqn:He; simpl; [by destruct (decide _)|done]. Qed.

Lemma clear_entry_None keys s : wait_entry s = None → clear keys s = s.
Proof. unfold clear. by intros ->. Qed.

Lemma clear_clear keys keys' s : clear keys (clear keys' s) = clear (keys' ++ keys) s.
Proof.
  unfold clear at 2 3. destruct (wait_entry s) as [e|] eqn:He; [|by apply clear_entry_None].
  destruct (decide (_ ∈ keys')) as [Hin|Hin].
  - rewrite decide_True by set_solver. by apply clear_entry_None.
  - unfold clear. rewrite He.
    destruct (decide (_ ∈ keys)); [rewrite decide_True by set_solver|rewrite decide_False by set_solver]; done.
Qed.

Lemma fmap_clear_clear keys keys' (ss : list WaitSlot) :
  clear keys <$> (clear keys' <$> ss) = clear (keys' ++ keys) <$> ss.
Proof. rewrite <- list_fmap_compose. apply list_fmap_ext. intros ? ? _. apply clear_clear. Qed.

Lemma cleared_cleared keys keys' self :
  cleared keys (cleared keys' self) = cleared (keys' ++ keys) self.
Proof. unfold cleared. simpl. by rewrite fmap_clear_clear. Qed.

Lemma of_generation_clear keys w s : w ∉ keys →
  of_generation w (clear keys s) = of_generation w s.
Proof.
  intros Hw. unfold of_generation. rewrite wait_entry_clear.
  destruct (wait_entry s) as [e|]; simpl; [|done].
  destruct (decide _); [|done]. rewrite bool_decide_eq_false_2; [done|]. by intros <-.
Qed.

Lemma pins_of_clear keys w ss : w ∉ keys → pins_of (clear keys <$> ss) w = pins_of ss w.
Proof.
  intros Hw. unfold pins_of. induction ss as [|s ss IH]; csimpl; [done|].
  rewrite of_generation_clear, IH by done.
  destruct (of_generation w s) eqn:Hgen; [|done].
  rewrite wait_entry_clear. unfold of_generation in Hgen.
  destruct (wait_entry s) as [e|]; simpl; [|done].
  apply bool_decide_eq_true in Hgen. by rewrite decide_False by (by rewrite Hgen).
Qed.

(** The pins of one generation, and those of the others. *)
Lemma all_pins_split_one ss w :
  all_pins ss ≡ₚ pins_of ss w ++ all_pins (clear [w] <$> ss).
Proof.
  unfold all_pins, pins_of. induction ss as [|s ss IH]; csimpl; [done|].
  rewrite wait_entry_clear. unfold of_generation. destruct (wait_entry s) as [e|]; simpl; [|done].
  case_bool_decide as Hw.
  - rewrite decide_True by set_solver. csimpl. by rewrite IH.
  - rewrite decide_False by set_solver. csimpl. rewrite IH. by rewrite Permutation_middle.
Qed.

(** Every pin is either given back or still registered, exactly once. *)
Lemma all_pins_split ss keys : NoDup keys →
  all_pins ss ≡ₚ (keys ≫= pins_of ss) ++ all_pins (clear keys <$> ss).
Proof.
  intros Hnd. induction keys as [|w keys IH] using rev_ind; simpl.
  - rewrite (list_fmap_ext _ id) by (intros; apply clear_nil). by rewrite list_fmap_id.
  - apply list.NoDup_app in Hnd as (Hnd & Hdis & _). rewrite bind_app, <- app_assoc.
    rewrite IH at 1 by done. f_equiv. rewrite (all_pins_split_one _ w).
    simpl. rewrite app_nil_r, pins_of_clear by set_solver. by rewrite fmap_clear_clear.
Qed.

Lemma length_taken_pins ss keys : NoDup keys →
  (length (keys ≫= pins_of ss) ≤ length ss)%nat.
Proof.
  intros Hnd. apply Nat.le_trans with (length (all_pins ss)); [|apply length_omap].
  rewrite (Permutation_length (all_pins_split ss keys Hnd)), length_app. lia.
Qed.

(** *** The loops *)

Definition emptied (s : WaitSlot) : WaitSlot :=
  {| wait_generation := wait_generation s; wait_entry := None |}.

Lemma clear_one w s : clear [w] s = if of_generation w s then emptied s else s.
Proof.
  unfold clear, of_generation. destruct (wait_entry s); [|done].
  case_bool_decide; [rewrite decide_True by set_solver|rewrite decide_False by set_solver]; done.
Qed.

(** A table whose first [i] slots have been visited by a loop that maps [f]. *)
Lemma visit_next {A} (f : A → A) (xs : list A) i x :
  xs !! i = Some x →
  ((f <$> take i xs) ++ drop i xs) !! i = Some x ∧
  <[i := f x]> ((f <$> take i xs) ++ drop i xs) = (f <$> take (i + 1) xs) ++ drop (i + 1) xs.
Proof.
  intros Hx. pose proof (lookup_lt_Some _ _ _ Hx) as Hi.
  assert (length (f <$> take i xs) = i) as Hl by (rewrite length_fmap, length_take; lia).
  rewrite (drop_S _ _ _ Hx). split.
  - rewrite lookup_app_r by lia. by rewrite Hl, Nat.sub_diag.
  - rewrite insert_app_r_alt by lia. rewrite Hl, Nat.sub_diag. simpl.
    rewrite Nat.add_1_r, (take_S_r _ _ _ Hx), fmap_app, <- app_assoc. done.
Qed.

Lemma pins_of_app ss ss' w : pins_of (ss ++ ss') w = pins_of ss w ++ pins_of ss' w.
Proof. apply omap_app. Qed.

Lemma length_pins_of_take ss w i :
  (length (pins_of (take i ss) w) ≤ length (pins_of ss w))%nat.
Proof. rewrite <- (take_drop i ss) at 2. rewrite pins_of_app, length_app. lia. Qed.

(** The body of [take_generation] at slot [i]. *)
Lemma pins_of_take_S ss w i s : ss !! i = Some s →
  pins_of (take (i + 1) ss) w =
  pins_of (take i ss) w ++ (if of_generation w s then option_list (wait_pin <$> wait_entry s) else []).
Proof.
  intros Hs. rewrite Nat.add_1_r, (take_S_r _ _ _ Hs), pins_of_app. f_equal.
  unfold pins_of. simpl. destruct (of_generation w s); [|done]. by destruct (wait_entry s).
Qed.

Lemma take_generation_eq {E} w n ws ps self :
  (length ps + length (pins_of (slots self) w) ≤ n)%nat →
  take_generation (E:=E) w (batch_of n ws ps) self =
  Ret (cleared [w] self) (batch_of n ws (ps ++ pins_of (slots self) w)).
Proof.
  intros Hn. apply wp_returns. unfold take_generation. wp_step. wp_step.
  apply (wp_for_each (λ pre b st,
    b = batch_of n ws (ps ++ pins_of (take (length pre) (slots self)) w) ∧
    st = {| domain := domain self;
            slots := (clear [w] <$> take (length pre) (slots self)) ++ drop (length pre) (slots self) |})).
  - simpl. rewrite app_nil_r. by destruct self.
  - intros pre i post b st Hseq [-> ->]. apply seq_split_at in Hseq as [-> Hlt].
    destruct (lookup_lt_is_Some_2 _ _ Hlt) as [s Hs].
    destruct (visit_next (clear [w]) _ _ _ Hs) as [Hat Hins].
    pose proof (length_pins_of_take (slots self) w (length pre + 1)) as Hb.
    rewrite (pins_of_take_S _ _ _ _ Hs), clear_one in *. rewrite length_app in Hb. cbv beta.
    do 2 wp_step. apply wp_bind. simpl. eapply wp_expect; [exact Hat|].
    destruct (of_generation w s) eqn:Hgen; simpl.
    + pose proof Hgen as Hg. unfold of_generation in Hg.
      destruct (wait_entry s) as [e|] eqn:He; [|done]. simpl in *.
      wp_step. apply (wp_expect _ _ _ _ e); [done|]. do 2 wp_step.
      eapply wp_eq; [apply push_pin_batch; rewrite length_app; lia|].
      rewrite length_app. simpl. rewrite (pins_of_take_S _ _ _ _ Hs), Hgen, He. simpl.
      rewrite app_assoc. split; [done|]. unfold with_slot. simpl. f_equal. exact Hins.
    + wp_step. rewrite length_app. simpl. rewrite (pins_of_take_S _ _ _ _ Hs), Hgen, app_nil_r.
      split; [done|]. rewrite <- Hins, list_insert_id; done.
  - intros b st [-> ->]. rewrite length_seq, drop_all, firstn_all, app_nil_r. done.
Qed.

Lemma cancel_generation_eq {E} w self :
  cancel_generation (E:=E) w self =
  Ret (cleared [w] self) (batch_of (length (slots self)) [] (pins_of (slots self) w)).
Proof.
  unfold cancel_generation, mbind, M_bind, get. rewrite batch_of_empty, take_generation_eq; [done|].
  simpl. unfold pins_of. apply length_omap.
Qed.

Section ready.
Context (object : ObjectId) (observed : DwSignals).

Lemma ready_keys_take_S ss i s : ss !! i = Some s →
  ready_keys object observed (take (i + 1) ss) =
  let keys := ready_keys object observed (take i ss) in
  match ready_key object observed s with
  | Some w => if decide (w ∈ keys) then keys else keys ++ [w]
  | None => keys
  end.
Proof.
  intros Hs. unfold ready_keys. rewrite Nat.add_1_r, (take_S_r _ _ _ Hs), omap_app. simpl.
  destruct (ready_key _ _ s); [apply dedup_snoc|by rewrite app_nil_r].
Qed.

Lemma length_ready_keys ss : (length (ready_keys object observed ss) ≤ length ss)%nat.
Proof. etrans; [apply length_dedup|apply length_omap]. Qed.

Lemma NoDup_ready_keys ss : NoDup (ready_keys object observed ss).
Proof. apply NoDup_dedup. Qed.

(** The generations woken are those with a ready registration. *)
Lemma elem_of_ready_keys ss w :
  w ∈ ready_keys object observed ss ↔
  ∃ i s e, ss !! i = Some s ∧ wait_entry s = Some e ∧ is_ready object observed e ∧
           wait_wake (wait_identity e) = w.
Proof.
  unfold ready_keys. rewrite elem_of_dedup, list_elem_of_omap. split.
  - intros (s & Hs & Hk). apply list_elem_of_lookup in Hs as [i Hi].
    unfold ready_key in Hk. destruct (wait_entry s) as [e|] eqn:He; simpl in Hk; [|done].
    destruct (is_ready _ _ e) eqn:Hr; simplify_eq. exists i, s, e. by rewrite Hr.
  - intros (i & s & e & Hi & He & Hr & <-). exists s.
    split; [by apply list_elem_of_lookup; eauto|]. unfold ready_key. rewrite He. simpl.
    by destruct (is_ready _ _ e).
Qed.

Lemma winning_index_cleared keys self w : w ∉ keys →
  winning_index (cleared keys self) object observed w = winning_index self object observed w.
Proof.
  intros Hw. unfold winning_index, entries. simpl. do 2 f_equal.
  induction (slots self) as [|s ss IH]; csimpl; [done|].
  rewrite wait_entry_clear. destruct (wait_entry s) as [e|]; simpl; [|done].
  destruct (decide (_ ∈ keys)); simpl.
  - rewrite filter_cons_False; [done|]. intros [Heq _]. by rewrite Heq in *.
  - rewrite !filter_cons. by rewrite IH.
Qed.

Lemma minimum_is_Some xs x : x ∈ xs → is_Some (minimum xs).
Proof. destruct xs; [by intros ?%elem_of_nil|]. by eexists. Qed.

Lemma winning_index_is_Some self i s e :
  slots self !! i = Some s → wait_entry s = Some e → is_ready object observed e →
  is_Some (winning_index self object observed (wait_wake (wait_identity e))).
Proof.
  intros Hs He Hr. apply (minimum_is_Some _ (wait_item_index e)).
  apply list_elem_of_fmap. exists e. split; [done|]. apply list_elem_of_filter.
  split; [done|]. apply list_elem_of_omap. exists s. split; [|done].
  by eapply list_elem_of_lookup_2.
Qed.

(** The index chosen is the least of the generation's ready registrations. *)
Lemma minimum_spec xs m : minimum xs = Some m ↔ m ∈ xs ∧ ∀ x, x ∈ xs → m ≤ x.
Proof.
  revert m. induction xs as [|y xs IH]; intros m; csimpl.
  - split; [done|]. by intros [?%elem_of_nil _].
  - destruct (minimum xs) as [z|] eqn:Hmin.
    + destruct (proj1 (IH z) eq_refl) as [Hz Hle]. split.
      * intros [= <-]. destruct (Z.min_spec y z) as [[? ->]|[? ->]];
          (split; [set_solver|]; intros x [->|Hx]%elem_of_cons; [lia|specialize (Hle x Hx); lia]).
      * intros [Hm Hmle]. f_equal. pose proof (Hmle y ltac:(set_solver)).
        pose proof (Hmle z ltac:(set_solver)). apply elem_of_cons in Hm as [->|Hm]; [lia|].
        specialize (Hle m Hm). lia.
    + assert (xs = []) as -> by (destruct xs; [done|discriminate]). split.
      * intros [= <-]. split; [set_solver|]. intros x Hx. apply list_elem_of_singleton in Hx. lia.
      * intros [Hm _]. apply list_elem_of_singleton in Hm. by subst.
Qed.

Lemma take_ready_eq {E} self :
  let keys := ready_keys object observed (slots self) in
  take_ready (E:=E) object observed self =
  Ret (cleared keys self)
    (batch_of (length (slots self)) (intent self object observed <$> keys)
       (keys ≫= pins_of (slots self))).
Proof.
  intros keys. apply wp_returns. unfold take_ready. do 2 wp_step. rewrite batch_of_empty.
  apply (wp_for_each (λ pre b st,
    let K := ready_keys object observed (take (length pre) (slots self)) in
    b = batch_of (length (slots self)) (intent self object observed <$> K)
          (K ≫= pins_of (slots self)) ∧
    st = cleared K self)).
  - split; [done|]. unfold cleared. simpl. rewrite (list_fmap_ext _ id) by (intros; apply clear_nil).
    rewrite list_fmap_id. by destruct self.
  - intros pre i post b st Hseq [-> ->]. apply seq_split_at in Hseq as [-> Hlt].
    destruct (lookup_lt_is_Some_2 _ _ Hlt) as [s Hs].
    rewrite length_app. simpl length. rewrite (ready_keys_take_S _ _ _ Hs). cbv zeta.
    pose proof (NoDup_ready_keys (take (length pre) (slots self))) as Hnd.
    assert (length (ready_keys object observed (take (length pre) (slots self))) ≤ length pre)%nat as Hlen.
    { etrans; [apply length_ready_keys|]. rewrite length_take. lia. }
    set (K := ready_keys object observed (take (length pre) (slots self))) in *.
    do 3 wp_step. eapply wp_expect; [simpl; by rewrite list_lookup_fmap, Hs|].
    rewrite wait_entry_clear. unfold ready_key. destruct (wait_entry s) as [e|] eqn:He; simpl; [|done].
    destruct (decide (_ ∈ K)) as [Hin|Hin].
    { destruct (is_ready _ _ e); [by rewrite decide_True|done]. }
    destruct (is_ready object observed e) eqn:Hr; simpl; [|done]. rewrite decide_False by done.
    assert (is_Some (winning_index self object observed (wait_wake (wait_identity e)))) as [m Hm].
    { eapply winning_index_is_Some; [done..|]. by rewrite Hr. }
    wp_step. eapply wp_expect; [by rewrite winning_index_cleared|]. wp_step.
    eapply wp_eq; [apply push_wake_batch; rewrite length_fmap; lia|].
    assert (NoDup (K ++ [wait_wake (wait_identity e)])) as Hnd'.
    { apply list.NoDup_app. split_and!; [done|set_solver|apply list.NoDup_singleton]. }
    pose proof (length_taken_pins (slots self) _ Hnd') as Hp.
    rewrite bind_app, length_app in Hp. simpl in Hp. rewrite app_nil_r in Hp.
    eapply wp_eq; [apply take_generation_eq; simpl; by rewrite pins_of_clear|].
    rewrite cleared_cleared, fmap_app, bind_app. simpl. rewrite app_nil_r, pins_of_clear by done.
    split; [|done]. unfold intent at 3. by rewrite Hm.
  - intros b st [-> ->]. by rewrite length_seq, firstn_all.
Qed.

Definition entry_key (entry : WaitEntry) : option BlockWakeKey :=
  if is_ready object observed entry then Some (wait_wake (wait_identity entry)) else None.

Lemma ready_keys_entries self :
  ready_keys object observed (slots self) = dedup (omap entry_key (entries self)).
Proof.
  unfold ready_keys, entries. f_equal. induction (slots self) as [|s ss IH]; csimpl; [done|].
  unfold ready_key at 1. destruct (wait_entry s) as [e|]; csimpl; [|done].
  unfold entry_key at 1. destruct (is_ready _ _ e); by rewrite IH.
Qed.

(** The wakes the batch already holds name the generations [K]. *)
Lemma already_woken n self K w : (length K ≤ n)%nat →
  existsb (λ i, bool_decide (intent_wake i = w))
    (omap id (take (WakeBatch.wake_len (batch_of n (intent self object observed <$> K) []))
                   (WakeBatch.wakes (batch_of n (intent self object observed <$> K) []))))
  = bool_decide (w ∈ K).
Proof.
  intros Hn. simpl. rewrite take_app_le, firstn_all2 by (rewrite !length_fmap; lia).
  pose proof (omap_fill (intent self object observed <$> K) 0) as Hk.
  simpl in Hk. rewrite app_nil_r in Hk. rewrite Hk. clear Hn Hk. induction K as [|k K IH]; csimpl; [done|]. rewrite IH.
  rewrite <- bool_decide_or. apply bool_decide_ext. rewrite elem_of_cons. naive_solver.
Qed.

Lemma ready_wakes_eq {E} self :
  ready_wakes (E:=E) object observed self =
  Ret self (batch_of (length (slots self))
              (intent self object observed <$> ready_keys object observed (slots self)) []).
Proof.
  apply wp_returns. unfold ready_wakes. do 2 wp_step. rewrite batch_of_empty, ready_keys_entries.
  apply (wp_for_each (λ pre b st,
    b = batch_of (length (slots self)) (intent self object observed <$> dedup (omap entry_key pre)) []
    ∧ st = self)); [done| |by intros b st [-> ->]].
  intros pre e post b st Hpre [-> ->]. rewrite omap_app.
  assert (omap entry_key [e] = option_list (entry_key e)) as -> by (by simpl; destruct (entry_key e)).
  assert (entry_key e = if is_ready object observed e
    then Some (wait_wake (wait_identity e)) else None) as -> by done.
  destruct (is_ready object observed e) eqn:Hr; cbn -[batch_of dedup]; [|by rewrite app_nil_r].
  assert (length pre < length (entries self))%nat as Hlt.
  { rewrite Hpre, length_app. simpl. lia. }
  pose proof (length_omap wait_entry (slots self)) as Hn. unfold entries in Hlt.
  pose proof (length_dedup (omap entry_key pre)). pose proof (length_omap entry_key pre).
  rewrite already_woken, dedup_snoc by lia.
  case_bool_decide as Hin; [by rewrite decide_True by done|]. rewrite decide_False by done.
  assert (e ∈ entries self) as (s & Hs & He)%list_elem_of_omap by (rewrite Hpre; set_solver).
  apply list_elem_of_lookup in Hs as [i Hi].
  destruct (winning_index_is_Some self i s e Hi He) as [m Hm]; [by rewrite Hr|].
  wp_step. eapply wp_expect; [done|].
  eapply wp_eq; [apply push_wake_batch; rewrite length_fmap; lia|].
  split; [|done]. rewrite fmap_app. simpl. unfold intent at 3. by rewrite Hm.
Qed.

End ready.

(** ** Registration and cancellation *)

(** [registration] names the entry published in [self]. *)
Definition published (registration : WaitRegistration) (entry : WaitEntry) (self : t) : Prop :=
  reg_domain registration = domain self ∧
  slots self !! reg_slot registration =
    Some {| wait_generation := reg_generation registration; wait_entry := Some entry |} ∧
  wait_identity entry = reg_identity registration.

Lemma cancel_published registration entry self :
  published registration entry self →
  cancel registration self =
  Ret (with_slot (reg_slot registration)
         {| wait_generation := reg_generation registration; wait_entry := None |} self)
      (wait_pin entry).
Proof.
  intros (Hd & Hs & Hid). unfold cancel, mbind, M_bind, get, ok_or. rewrite Hd, Z.eqb_refl, Hs. simpl.
  rewrite Z.eqb_refl. simpl. rewrite <- Hid, !bool_decide_eq_true_2 by done. done.
Qed.

(** Whatever [cancel] is called with, it takes the pin of the registration
    that was named, or changes nothing. *)
Lemma cancel_wp registration self :
  wp (cancel registration) self
    (λ pin self', ∃ entry, published registration entry self ∧ pin = wait_pin entry ∧
       self' = with_slot (reg_slot registration)
         {| wait_generation := reg_generation registration; wait_entry := None |} self)
    (λ error self', self' = self ∧ (∀ entry, ¬ published registration entry self) ∧
       error = if reg_domain registration =? domain self
               then WaitError.StaleRegistration else WaitError.ForeignRegistration).
Proof.
  unfold cancel. do 2 wp_step. destruct (Z.eqb_spec (reg_domain registration) (domain self)) as [Hd|Hd]; simpl.
  2:{ wp_step. split_and!; [done| |done]. by intros entry [? _]. }
  do 2 wp_step; [|by split_and!; [| intros entry (_ & ? & _); congruence|]].
  destruct w as [g [e|]]; simpl.
  2:{ rewrite orb_true_r. wp_step. split_and!; [done| |done]. intros entry (_ & ? & _); congruence. }
  wp_step.
  - wp_step. split_and!; [done| |done]. intros entry (_ & Hs & Hid).
    rewrite Heqo in Hs. injection Hs as -> ->. rewrite Z.eqb_refl, Hid in Heqb.
    by rewrite !bool_decide_eq_true_2 in Heqb by done.
  - apply orb_false_elim in Heqb as [Hg%negb_false_iff%Z.eqb_eq Hid%negb_false_iff]. subst g.
    rewrite !andb_true_iff, !bool_decide_eq_true in Hid. destruct Hid as [[? ?] ?].
    wp_step. eapply wp_expect; [done|]. do 3 wp_step. exists e. split_and!; [|done..].
    split_and!; [done..|]. destruct (wait_identity e), (reg_identity registration). by simpl in *; subst.
Qed.

Definition entry_ok (e : WaitEntry) : Prop :=
  wait_object (wait_identity e) = internal_id (wait_pin e) ∧
  validate_wait_signals (internal_type (wait_pin e)) (wait_desired e) = Ok tt.

Definition wait_wf (self : t) : Prop :=
  ∀ i s, slots self !! i = Some s →
    is_uint 32 (wait_generation s) ∧ ∀ e, wait_entry s = Some e → entry_ok e.

(** No slot a 16-bit index can name is free. *)
Definition full (self : t) : Prop :=
  ∀ i s, slots self !! i = Some s → Z.of_nat i < 2 ^ 16 → is_free s = false.

Definition new_entry (pin : InternalRef) (desired : DwSignals) (item_index : Z)
    (thread : ThreadKey) (wake : BlockWakeKey) : WaitEntry :=
  {| wait_identity := {| wait_object := internal_id pin; wait_thread := thread; wait_wake := wake |};
     wait_desired := desired; wait_item_index := item_index; wait_pin := pin |}.

Lemma is_free_spec s : is_uint 32 (wait_generation s) →
  is_free s = true ↔ wait_entry s = None ∧ wait_generation s + 1 < 2 ^ 32.
Proof.
  intros [? ?]. unfold is_free. destruct (wait_entry s); [naive_solver|].
  rewrite negb_true_iff, Z.eqb_neq. naive_solver lia.
Qed.

Lemma register_wp pin desired item_index thread wake self : wait_wf self →
  let e := new_entry pin desired item_index thread wake in
  wp (register pin desired item_index thread wake) self
    (λ registration self', ∃ i s,
       slots self !! i = Some s ∧ wait_entry s = None ∧ Z.of_nat i < 2 ^ 16 ∧
       wait_generation s + 1 < 2 ^ 32 ∧ entry_ok e ∧
       self' = with_slot i {| wait_generation := wait_generation s + 1; wait_entry := Some e |} self ∧
       registration = {| reg_domain := domain self; reg_slot := i;
                         reg_generation := wait_generation s + 1;
                         reg_identity := wait_identity e |})
    (λ failure self', self' = self ∧ failure.2 = pin ∧
       (validate_wait_signals (internal_type pin) desired = Err failure.1 ∨
        failure.1 = WaitError.Capacity ∧ full self)).
Proof.
  intros Hwf e. unfold register. wp_step. wp_step. wp_step.
  destruct (validate_wait_signals _ desired) as [[]|error] eqn:Hv; [|by simpl; auto].
  wp_step. wp_step. wp_step. wp_step.
  2:{ split_and!; [done..|]. right. split; [done|]. intros i s Hs _.
      apply list_find_None in Heqo. rewrite list.Forall_forall in Heqo.
      destruct (is_free s) eqn:Hf; [|done]. destruct (Heqo s); [by eapply list_elem_of_lookup_2|].
      by rewrite Hf. }
  destruct p as [i s]. apply list_find_Some in Heqo as (Hs & Hfree%Is_true_true & Hfirst).
  destruct (Hwf _ _ Hs) as [Hu _]. apply is_free_spec in Hfree as [Hnone Hg]; [|done].
  cbn beta iota. wp_step. wp_step; rewrite next_nonzero_spec, (proj2 (Z.ltb_lt _ _) Hg) in Heqo by apply Hu;
    [injection Heqo as <-|done].
  wp_step. apply wp_ok_or. unfold try_from.
  destruct (Z.ltb_spec (Z.of_nat i) (2 ^ 16)) as [Hi|Hi].
  - cbn beta iota. wp_step. wp_step. wp_step. rewrite Nat2Z.id. exists i, s. split_and!; done.
  - split_and!; [done..|]. right. split; [done|]. intros j s' Hs' Hj.
    destruct (is_free s') eqn:Hf; [|done]. destruct (Hfirst j s' Hs'); [lia|]. by rewrite Hf.
Qed.

Lemma published_register i s e self :
  slots self !! i = Some s →
  published {| reg_domain := domain self; reg_slot := i; reg_generation := wait_generation s + 1;
               reg_identity := wait_identity e |} e
    (with_slot i {| wait_generation := wait_generation s + 1; wait_entry := Some e |} self).
Proof.
  intros Hs. split_and!; [done| |done]. simpl. apply list_lookup_insert_eq. by eapply lookup_lt_Some.
Qed.

(** *** Well-formedness *)

Lemma wait_wf_with_slot self i s : wait_wf self → is_uint 32 (wait_generation s) →
  (∀ e, wait_entry s = Some e → entry_ok e) → wait_wf (with_slot i s self).
Proof.
  intros Hwf Hg He j s' Hs'. simpl in Hs'. apply list_lookup_insert_Some in Hs' as [(-> & <- & _)|[_ Hs']].
  - by split.
  - by eapply Hwf.
Qed.

Lemma wait_wf_cleared keys self : wait_wf self → wait_wf (cleared keys self).
Proof.
  intros Hwf i s Hs. simpl in Hs. rewrite list_lookup_fmap in Hs.
  destruct (slots self !! i) as [s0|] eqn:Hs0; simplify_eq/=. destruct (Hwf _ _ Hs0) as [Hu He].
  rewrite clear_generation, wait_entry_clear. split; [done|].
  intros e. destruct (wait_entry s0) as [e0|]; simpl; [|done].
  destruct (decide _); [done|]. intros [= <-]. by apply He.
Qed.

(** *** Pins *)

Lemma all_pins_app ss ss' : all_pins (ss ++ ss') = all_pins ss ++ all_pins ss'.
Proof. apply omap_app. Qed.

Lemma all_pins_insert ss i s s' : ss !! i = Some s →
  option_list (wait_pin <$> wait_entry s') ++ all_pins ss ≡ₚ
  option_list (wait_pin <$> wait_entry s) ++ all_pins (<[i := s']> ss).
Proof.
  intros Hs. pose proof (lookup_lt_Some _ _ _ Hs) as Hi.
  rewrite insert_take_drop by done. rewrite <- (take_drop_middle _ _ _ Hs) at 1.
  rewrite !all_pins_app. unfold all_pins at 2 4. csimpl. fold (all_pins (drop (S i) ss)).
  destruct (wait_entry s), (wait_entry s'); csimpl; solve_Permutation.
Qed.

(** ** The entries of a registry *)

Lemma entry_wf ws e : wait_wf ws → e ∈ entries ws → entry_ok e.
Proof.
  intros Hwf (s & Hs & He)%list_elem_of_omap. apply list_elem_of_lookup in Hs as [i Hi].
  by eapply Hwf.
Qed.

Lemma ready_entry_woken object observed ws e : e ∈ entries ws →
  is_ready object observed e →
  wait_wake (wait_identity e) ∈ ready_keys object observed (slots ws).
Proof.
  intros (s & (j & Hs)%list_elem_of_lookup & Hse)%list_elem_of_omap Hr.
  apply elem_of_ready_keys. by exists j, s, e.
Qed.

(** Emptying generations only removes waiters. *)
Lemma entries_cleared keys ws e : e ∈ entries (cleared keys ws) ↔
  e ∈ entries ws ∧ wait_wake (wait_identity e) ∉ keys.
Proof.
  unfold entries. rewrite !list_elem_of_omap. simpl. split.
  - intros (s & (s0 & -> & Hs0)%list_elem_of_fmap & He). rewrite wait_entry_clear in He.
    destruct (wait_entry s0) as [e0|] eqn:He0; simpl in He; [|done].
    destruct (decide _); simplify_eq. split; [by exists s0|done].
  - intros [(s & Hs & He) Hk]. exists (clear keys s). split; [by apply list_elem_of_fmap; eauto|].
    rewrite wait_entry_clear, He. simpl. by rewrite decide_False.
Qed.

Lemma entries_with_slot ws i s e : e ∈ entries (with_slot i s ws) →
  e ∈ entries ws ∨ wait_entry s = Some e.
Proof.
  unfold entries. rewrite !list_elem_of_omap. simpl.
  intros (s' & (j & Hj)%list_elem_of_lookup & He).
  apply list_lookup_insert_Some in Hj as [(-> & <- & _)|[_ Hj]]; [by right|].
  left. exists s'. split; [by eapply list_elem_of_lookup_2|done].
Qed.

(** ** Signals *)

(** Where one signal is all an object has, a valid wait is for it. *)
Lemma land_only_signal object_type desired : dw_object_compatible_signals object_type = DW_SIGNAL_SIGNALED →
  validate_wait_signals object_type desired = Ok tt → is_uint 64 desired →
  Z.land desired DW_SIGNAL_SIGNALED ≠ 0.
Proof.
  unfold validate_wait_signals, dw_signals_are_compatible. intros -> Hv Hu.
  destruct (Z.eqb_spec desired 0) as [|Hne]; [done|]. cbn [orb] in Hv.
  rewrite land_unot in Hv by (done || lia).
  destruct (Z.eqb_spec (Z.ldiff desired DW_SIGNAL_SIGNALED) 0) as [Hd|]; [|done].
  intros Hl. apply Hne. rewrite <- (Z.lor_ldiff_and desired DW_SIGNAL_SIGNALED).
  by rewrite Hd, Z.land_comm, Z.land_comm, Hl.
Qed.
