(* ===== verification/WaitTheorems.v ===== *)
(** * The wait registry: claims

    Wakes happen once per block generation, pins are conserved, and a
    registration token only ever withdraws its own registration. *)

From stdpp Require Import base tactics numbers list sets relations gmultiset.
From Stdlib Require Import ZArith Lia.
From S2P Require Import Prelude Abi Object ObjectLedger HandleTable Cpu Wait WaitFacts.
Import WaitRegistry.
Local Open Scope Z_scope.

(** ** Runs of registry operations *)

Inductive wait_op : Type :=
| Register (pin : InternalRef) (desired : DwSignals) (item_index : Z) (thread : ThreadKey)
    (wake : BlockWakeKey)
| Cancel (registration : WaitRegistration)
| CancelGeneration (wake : BlockWakeKey)
| ReadyWakes (object : ObjectId) (observed : DwSignals)
| TakeReady (object : ObjectId) (observed : DwSignals).

Definition pins_in (batch : WakeBatch.t) : list InternalRef := omap id (WakeBatch.pins batch).
Definition wakes_in (batch : WakeBatch.t) : list WakeIntent := omap id (WakeBatch.wakes batch).

(** The pins handed to the registry by a call, and those it gave back. *)
Definition exec (o : wait_op) : M t Empty_set (list InternalRef * list InternalRef) :=
  match o with
  | Register pin desired item_index thread wake =>
      result ← try (register pin desired item_index thread wake);
      mret ([pin], match result with Ok _ => [] | Err (_, pin) => [pin] end)
  | Cancel registration =>
      result ← try (cancel registration);
      mret ([], match result with Ok pin => [pin] | Err _ => [] end)
  | CancelGeneration wake =>
      batch ← cancel_generation wake;
      mret ([], pins_in batch)
  | ReadyWakes object observed =>
      batch ← ready_wakes object observed;
      mret ([], pins_in batch)
  | TakeReady object observed =>
      batch ← take_ready object observed;
      mret ([], pins_in batch)
  end.

Fixpoint run (ops : list wait_op) : M t Empty_set (list InternalRef * list InternalRef) :=
  match ops with
  | [] => mret ([], [])
  | o :: ops' =>
      '(handed, returned) ← exec o;
      '(handed', returned') ← run ops';
      mret (handed ++ handed', returned ++ returned')
  end.

(** One call leaves a slot alone, empties it, or fills it one generation on. *)
Definition evolves (s s' : WaitSlot) : Prop :=
  s' = s ∨ s' = emptied s ∨
  wait_entry s = None ∧ wait_generation s' = wait_generation s + 1.

Definition all_evolve (self self' : t) : Prop :=
  domain self' = domain self ∧
  ∀ i s, slots self !! i = Some s → ∃ s', slots self' !! i = Some s' ∧ evolves s s'.

Lemma pins_in_batch n ws ps : pins_in (batch_of n ws ps) = ps.
Proof. apply omap_fill. Qed.

Lemma wakes_in_batch n ws ps : wakes_in (batch_of n ws ps) = ws.
Proof. apply omap_fill. Qed.

Lemma all_evolve_refl self : all_evolve self self.
Proof. split; [done|]. intros i s Hs. exists s. split; [done|by left]. Qed.

Lemma all_evolve_with_slot self i s s' : slots self !! i = Some s → evolves s s' →
  all_evolve self (with_slot i s' self).
Proof.
  intros Hs Hev. split; [done|]. intros j sj Hj. simpl. destruct (decide (j = i)) as [->|].
  - exists s'. rewrite list_lookup_insert_eq by (by eapply lookup_lt_Some).
    by simplify_eq.
  - exists sj. rewrite list_lookup_insert_ne by done. split; [done|by left].
Qed.

Lemma clear_evolves keys s : evolves s (clear keys s).
Proof.
  unfold clear, evolves, emptied. destruct (wait_entry s); [destruct (decide _)|]; auto.
Qed.

Lemma all_evolve_cleared keys self : all_evolve self (cleared keys self).
Proof.
  split; [done|]. intros i s Hs. exists (clear keys s). simpl.
  rewrite list_lookup_fmap, Hs. split; [done|apply clear_evolves].
Qed.

Lemma exec_wp o self : wait_wf self →
  wp (exec o) self
    (λ moved self', wait_wf self' ∧ all_evolve self self' ∧
       moved.1 ++ all_pins (slots self) ≡ₚ moved.2 ++ all_pins (slots self'))
    (λ _ _, False).
Proof.
  intros Hwf. destruct o as [pin desired idx th w|registration|w|obj sig|obj sig]; simpl; apply wp_bind.
  - apply wp_try. eapply wp_mono; [by apply register_wp| |].
    + intros reg self' (i & s & Hs & Hn & _ & Hg & Hok & -> & _). apply wp_ret. split_and!.
      * destruct (Hwf _ _ Hs) as [[? ?] _]. apply wait_wf_with_slot; [done|by split; simpl; lia|].
        by intros e [= <-].
      * eapply all_evolve_with_slot; [done|]. by right; right.
      * pose proof (all_pins_insert (slots self) i s {| wait_generation := wait_generation s + 1;
          wait_entry := Some (new_entry pin desired idx th w) |} Hs) as Hp.
        rewrite Hn in Hp. exact Hp.
    + intros [error pin'] self' (-> & Hpin & _). simpl in Hpin. subst pin'. apply wp_ret.
      split_and!; [done|apply all_evolve_refl|done].
  - apply wp_try. eapply wp_mono; [apply cancel_wp| |].
    + intros pin self' (e & (_ & Hs & _) & -> & ->). apply wp_ret. split_and!.
      * apply wait_wf_with_slot; [done|by apply Hwf in Hs as [? _]|done].
      * eapply all_evolve_with_slot; [done|]. by right; left.
      * by pose proof (all_pins_insert (slots self) _ _ {| wait_generation :=
          reg_generation registration; wait_entry := None |} Hs).
    + intros error self' (-> & _). apply wp_ret. split_and!; [done|apply all_evolve_refl|done].
  - eapply wp_eq; [apply cancel_generation_eq|]. apply wp_ret. rewrite pins_in_batch.
    split_and!; [by apply wait_wf_cleared|apply all_evolve_cleared|apply all_pins_split_one].
  - eapply wp_eq; [apply ready_wakes_eq|]. apply wp_ret. rewrite pins_in_batch.
    split_and!; [done|apply all_evolve_refl|done].
  - eapply wp_eq; [apply take_ready_eq|]. apply wp_ret. rewrite pins_in_batch.
    split_and!; [by apply wait_wf_cleared|apply all_evolve_cleared|].
    apply all_pins_split, NoDup_ready_keys.
Qed.

(** A relation preserved by every call is preserved by a run. *)
Lemma run_wp (ops : list wait_op) self : wait_wf self →
  wp (run ops) self
    (λ moved self', wait_wf self' ∧ rtc all_evolve self self' ∧
       moved.1 ++ all_pins (slots self) ≡ₚ moved.2 ++ all_pins (slots self'))
    (λ _ _, False).
Proof.
  revert self. induction ops as [|o ops IH]; intros self Hwf; simpl.
  { apply wp_ret. split_and!; [done|apply rtc_refl|done]. }
  apply wp_bind. eapply wp_mono; [by apply exec_wp| |done].
  intros [h r] self1 (Hwf1 & Hev1 & Hp1). apply wp_bind.
  eapply wp_mono; [by apply IH| |done].
  intros [h' r'] self2 (Hwf2 & Hev2 & Hp2). apply wp_ret. simpl in *.
  split_and!; [done|by eapply rtc_l|].
  rewrite (Permutation_app_comm h h'), <- app_assoc, Hp1, !app_assoc,
    (Permutation_app_comm h' r), <- !app_assoc. by rewrite Hp2.
Qed.

(** ** Pins as references *)

Definition tokens_of (ps : list InternalRef) : gmultiset Token :=
  list_to_set_disj (internal_token <$> ps).

(** The references the wait registry holds. *)
Definition pin_tokens (ws : t) : gmultiset Token :=
  tokens_of (all_pins (slots ws)).

Lemma tokens_of_app ps ps' : tokens_of (ps ++ ps') = tokens_of ps ⊎ tokens_of ps'.
Proof. unfold tokens_of. by rewrite fmap_app, list_to_set_disj_app. Qed.

Lemma tokens_of_perm ps ps' : ps ≡ₚ ps' → tokens_of ps = tokens_of ps'.
Proof. intros Hp. unfold tokens_of. by rewrite Hp. Qed.

Lemma tokens_of_singleton p : tokens_of [p] = {[+ internal_token p +]}.
Proof. unfold tokens_of. simpl. multiset_solver. Qed.

(** Pins that change hands are counted once before and once after. *)
Lemma exchange_balanced ws ws' handed returned refs :
  handed ++ all_pins (slots ws) ≡ₚ returned ++ all_pins (slots ws') →
  tokens_of handed ⊆ refs →
  pin_tokens ws' ⊎ (refs ∖ tokens_of handed ⊎ tokens_of returned) = pin_tokens ws ⊎ refs.
Proof.
  intros Hp Hin. apply tokens_of_perm in Hp. rewrite !tokens_of_app in Hp.
  unfold pin_tokens. multiset_solver.
Qed.

Lemma entry_pin_token ws e : e ∈ entries ws → internal_token (wait_pin e) ∈ pin_tokens ws.
Proof.
  intros (s & Hs & He)%list_elem_of_omap. unfold pin_tokens, tokens_of.
  apply elem_of_list_to_set_disj, list_elem_of_fmap. exists (wait_pin e). split; [done|].
  apply list_elem_of_omap. exists s. split; [done|]. by rewrite He.
Qed.

Definition handed_by (o : wait_op) : list InternalRef :=
  match o with Register pin _ _ _ _ => [pin] | _ => [] end.

(** A call of the registry adds no waiter but the one it registers. *)
Lemma exec_entries o ws : wait_wf ws →
  wp (exec o) ws
    (λ moved ws', moved.1 = handed_by o ∧
       ∀ e, e ∈ entries ws' → e ∈ entries ws ∨
         ∃ pin desired idx th w, o = Register pin desired idx th w ∧
           e = new_entry pin desired idx th w)
    (λ _ _, False).
Proof.
  intros Hwf. destruct o as [pin desired idx th w|registration|w|obj sig|obj sig]; simpl; apply wp_bind.
  - apply wp_try. eapply wp_mono; [by apply register_wp| |].
    + intros reg ws' (i & s & _ & _ & _ & _ & _ & -> & _). apply wp_ret.
      split; [done|]. intros e [He|[= <-]]%entries_with_slot; [by left|right]. by eexists _, _, _, _, _.
    + intros failure ws' (-> & _). apply wp_ret. auto.
  - apply wp_try. eapply wp_mono; [apply cancel_wp| |].
    + intros pin ws' (e0 & _ & _ & ->). apply wp_ret.
      split; [done|]. intros e [He|[=]]%entries_with_slot. by left.
    + intros error ws' (-> & _). apply wp_ret. auto.
  - eapply wp_eq; [apply cancel_generation_eq|]. apply wp_ret. split; [done|]. intros e [? _]%entries_cleared. by left.
  - eapply wp_eq; [apply ready_wakes_eq|]. apply wp_ret. auto.
  - eapply wp_eq; [apply take_ready_eq|]. apply wp_ret. split; [done|]. intros e [? _]%entries_cleared. by left.
Qed.

(** ** Registration tokens *)

(** The registration was withdrawn. *)
Definition withdrawn (registration : WaitRegistration) (self : t) : Prop :=
  reg_domain registration = domain self ∧
  ∃ s, slots self !! reg_slot registration = Some s ∧
    (reg_generation registration < wait_generation s ∨
     reg_generation registration = wait_generation s ∧ wait_entry s = None).

Lemma withdrawn_evolves registration self self' :
  all_evolve self self' → withdrawn registration self → withdrawn registration self'.
Proof.
  intros [Hd Hev] (Hdom & s & Hs & Hg). split; [congruence|].
  destruct (Hev _ _ Hs) as (s' & Hs' & Hsev). exists s'. split; [done|].
  destruct Hsev as [->|[->|[Hn Hg']]]; [done|simpl; tauto|left; lia].
Qed.

Lemma published_evolves registration e self self' :
  all_evolve self self' → published registration e self →
  published registration e self' ∨ withdrawn registration self'.
Proof.
  intros [Hd Hev] (Hdom & Hs & Hid). destruct (Hev _ _ Hs) as (s' & Hs' & Hsev).
  destruct Hsev as [->|[->|[[=] _]]].
  - left. split_and!; [congruence|done|done].
  - right. split; [congruence|]. exists (emptied {| wait_generation := reg_generation registration;
      wait_entry := Some e |}). split; [done|]. by right.
Qed.

Lemma tracked_evolves registration e self self' :
  rtc all_evolve self self' →
  published registration e self ∨ withdrawn registration self →
  published registration e self' ∨ withdrawn registration self'.
Proof.
  intros Hrtc. induction Hrtc as [|self1 self2 self3 Hev _ IH]; [done|].
  intros [Hp|Hw]; apply IH; [by eapply published_evolves|right; by eapply withdrawn_evolves].
Qed.

Lemma withdrawn_run registration self self' :
  rtc all_evolve self self' → withdrawn registration self → withdrawn registration self'.
Proof. induction 1; eauto using withdrawn_evolves. Qed.

Lemma withdrawn_not_published registration self e :
  withdrawn registration self → ¬ published registration e self.
Proof.
  intros (_ & s & Hs & Hg) (_ & Hs' & _). rewrite Hs in Hs'. injection Hs' as ->. simpl in Hg.
  destruct Hg as [|[_ [=]]]. lia.
Qed.

Lemma cancel_withdrawn registration self : withdrawn registration self →
  cancel registration self = Fail self WaitError.StaleRegistration.
Proof.
  intros Hw. pose proof (cancel_wp registration self) as Hc. unfold wp in Hc.
  destruct (cancel registration self) as [self' pin|self' error|]; [| |done].
  - destruct Hc as (e & Hp & _). by destruct (withdrawn_not_published _ _ e Hw).
  - destruct Hc as (-> & _ & ->). destruct Hw as [-> _]. by rewrite Z.eqb_refl.
Qed.

Lemma fresh_wait_wf d n :
  wait_wf {| domain := d; slots := replicate n {| wait_generation := 0; wait_entry := None |} |}.
Proof. intros i s Hs. simpl in Hs. apply lookup_replicate in Hs as [-> _]. by split. Qed.

(** Two threads blocked on one event, the second through two items of one
    [wait_many], in a registry of three slots. *)
Definition demo_pin : InternalRef :=
  {| internal_id := {| oid_domain := 1; oid_raw := 2 ^ 32 + 1 |};
     internal_type := DW_OBJECT_TYPE_EVENT |}.
Definition demo_thread (n : Z) : ThreadKey :=
  {| thread_object := {| oid_domain := 1; oid_raw := 2 ^ 32 + n |} |}.
Definition demo_wake (n : Z) : BlockWakeKey :=
  {| wake_domain := 1; wake_token := n; wake_thread := demo_thread n; wake_cpu := CpuIndex.BOOTSTRAP;
     wake_execution_generation := 1 |}.
Definition demo_waits : t :=
  {| domain := 1; slots := replicate 3 {| wait_generation := 0; wait_entry := None |} |}.
Definition demo_ops : list wait_op :=
  [Register demo_pin DW_SIGNAL_SIGNALED 0 (demo_thread 2) (demo_wake 2);
   Register demo_pin DW_SIGNAL_SIGNALED 5 (demo_thread 3) (demo_wake 3);
   Register demo_pin DW_SIGNAL_SIGNALED 4 (demo_thread 3) (demo_wake 3);
   TakeReady (internal_id demo_pin) DW_SIGNAL_SIGNALED].

(** ** Claims *)

(** A signal on [object] wakes each block generation that has a
    registration ready for it exactly once, and no other, with the least item
    index among that generation's ready registrations; it takes every
    registration of those generations, leaves all others as they were, and
    gives each pin it took back exactly once.  No batch overflows. *)
Theorem take_ready_wakes_each_generation_once {E} object observed self :
  ∃ self' batch, take_ready (E:=E) object observed self = Ret self' batch ∧
    NoDup (intent_wake <$> wakes_in batch) ∧
    (∀ w, w ∈ intent_wake <$> wakes_in batch ↔
       ∃ e, e ∈ entries self ∧ is_ready object observed e ∧ wait_wake (wait_identity e) = w) ∧
    (∀ i, i ∈ wakes_in batch → intent_observed i = observed ∧
       winning_index self object observed (intent_wake i) = Some (intent_item_index i)) ∧
    (∀ i s, slots self !! i = Some s →
       slots self' !! i = Some match wait_entry s with
         | Some e => if decide (wait_wake (wait_identity e) ∈ intent_wake <$> wakes_in batch)
                     then emptied s else s
         | None => s
         end) ∧
    all_pins (slots self) ≡ₚ pins_in batch ++ all_pins (slots self').
Proof.
  eexists _, _. split; [apply take_ready_eq|].
  rewrite wakes_in_batch, pins_in_batch, <- list_fmap_compose.
  rewrite (list_fmap_ext _ id), list_fmap_id by done.
  split_and!; [apply NoDup_ready_keys| | | |apply all_pins_split, NoDup_ready_keys].
  - intros w. rewrite elem_of_ready_keys. split.
    + intros (i & s & e & Hs & He & Hr & Hw). exists e. split; [|done].
      apply list_elem_of_omap. exists s. split; [by eapply list_elem_of_lookup_2|done].
    + intros (e & (s & Hs & He)%list_elem_of_omap & Hr & Hw).
      apply list_elem_of_lookup in Hs as [i Hs]. by exists i, s, e.
  - intros i (w & -> & (j & s & e & Hs & He & Hr & <-)%elem_of_ready_keys)%list_elem_of_fmap.
    split; [done|]. simpl. by destruct (winning_index_is_Some _ _ _ _ _ _ Hs He Hr) as [m ->].
  - intros i s Hs. simpl. rewrite list_lookup_fmap, Hs. simpl. done.
Qed.

(** The snapshot taken from interrupt context, [ready_wakes], reports
    exactly the wake intents [take_ready] would, without consuming a
    registration or a pin. *)
Theorem ready_wakes_is_the_read_only_take_ready {E} object observed self :
  ∃ self' batch snapshot,
    take_ready (E:=E) object observed self = Ret self' batch ∧
    ready_wakes (E:=E) object observed self = Ret self snapshot ∧
    wakes_in snapshot = wakes_in batch ∧ WakeBatch.len snapshot = WakeBatch.len batch ∧
    pins_in snapshot = [].
Proof.
  eexists _, _, _. split_and!; [apply take_ready_eq|apply ready_wakes_eq|..].
  - by rewrite !wakes_in_batch.
  - done.
  - by rewrite pins_in_batch.
Qed.

(** Whatever sequence of calls is made of a wait registry, none panics,
    and every pin it was handed or held is given back exactly once or still
    held: none is lost, none is duplicated. *)
Theorem wait_registry_conserves_pins ops self : wait_wf self →
  ∃ self' handed returned, run ops self = Ret self' (handed, returned) ∧ wait_wf self' ∧
    handed ++ all_pins (slots self) ≡ₚ returned ++ all_pins (slots self').
Proof.
  intros Hwf. pose proof (run_wp ops self Hwf) as Hr. unfold wp in Hr.
  destruct (run ops self) as [self' [h r]|? []|]; [|done].
  destruct Hr as (? & _ & ?). by exists self', h, r.
Qed.

Lemma wait_registry_conserves_pins_witness :
  ∃ self' handed returned, run demo_ops demo_waits = Ret self' (handed, returned) ∧ wait_wf self' ∧
    handed ++ all_pins (slots demo_waits) ≡ₚ returned ++ all_pins (slots self').
Proof. apply (wait_registry_conserves_pins demo_ops demo_waits). apply fresh_wait_wf. Defined.

(** A registration token withdraws its own registration or nothing:
    whatever calls follow its issue, cancelling it gives back the very pin it
    was issued for, or is refused as stale and changes nothing; and once it
    was cancelled it stays stale, though its slot be reused. *)
Theorem registration_withdraws_only_itself self pin desired item_index thread wake self1
    registration ops self2 moved :
  wait_wf self →
  register pin desired item_index thread wake self = Ret self1 registration →
  run ops self1 = Ret self2 moved →
  cancel registration self2 = Fail self2 WaitError.StaleRegistration ∨
  ∃ self3, cancel registration self2 = Ret self3 pin ∧
    ∀ ops' self4 moved', run ops' self3 = Ret self4 moved' →
      cancel registration self4 = Fail self4 WaitError.StaleRegistration.
Proof.
  intros Hwf Hreg Hrun.
  pose proof (wp_Ret _ _ _ _ _ _ (register_wp pin desired item_index thread wake self Hwf) Hreg)
    as (i & s & Hs & Hn & Hi & Hg & Hok & -> & ->).
  set (e := new_entry pin desired item_index thread wake) in *.
  assert (wait_wf (with_slot i {| wait_generation := wait_generation s + 1; wait_entry := Some e |} self))
    as Hwf1.
  { destruct (Hwf _ _ Hs) as [[? ?] _]. apply wait_wf_with_slot; [done|by split; simpl; lia|].
    by intros ? [= <-]. }
  pose proof (wp_Ret _ _ _ _ _ _ (run_wp ops _ Hwf1) Hrun) as (Hwf2 & Hev & _).
  destruct (tracked_evolves _ e _ _ Hev (or_introl (published_register i s e self Hs))) as [Hp|Hw].
  2:{ left. by apply cancel_withdrawn. }
  right. eexists. split; [apply (cancel_published _ _ _ Hp)|].
  intros ops' self4 moved' Hrun'. apply cancel_withdrawn.
  destruct Hp as (Hd & Hs2 & Hid). simpl in Hd, Hs2.
  match type of Hrun' with run _ ?self3 = _ =>
    assert (wait_wf self3) as Hwf3; [|pose proof (wp_Ret _ _ _ _ _ _ (run_wp ops' _ Hwf3) Hrun')
      as (_ & Hev' & _); eapply withdrawn_run; [exact Hev'|]] end.
  { apply wait_wf_with_slot; [done|by apply Hwf2 in Hs2 as [? _]|done]. }
  split; [done|]. eexists. simpl. rewrite list_lookup_insert_eq by (by eapply lookup_lt_Some).
  split; [done|]. by right.
Qed.

(** The registration is withdrawn after another was made beside it. *)
Definition demo_registered : t :=
  {| domain := 1;
     slots := [{| wait_generation := 1;
                  wait_entry := Some (new_entry demo_pin DW_SIGNAL_SIGNALED 0 (demo_thread 2)
                                        (demo_wake 2)) |};
               {| wait_generation := 0; wait_entry := None |};
               {| wait_generation := 0; wait_entry := None |}] |}.
Definition demo_registration : WaitRegistration :=
  {| reg_domain := 1; reg_slot := 0; reg_generation := 1;
     reg_identity := {| wait_object := internal_id demo_pin; wait_thread := demo_thread 2;
                        wait_wake := demo_wake 2 |} |}.

Lemma registration_withdraws_only_itself_witness :
  cancel demo_registration demo_registered =
    Fail demo_registered WaitError.StaleRegistration ∨
  ∃ self3, cancel demo_registration demo_registered = Ret self3 demo_pin ∧
    ∀ ops' self4 moved', run ops' self3 = Ret self4 moved' →
      cancel demo_registration self4 = Fail self4 WaitError.StaleRegistration.
Proof.
  apply (registration_withdraws_only_itself demo_waits demo_pin DW_SIGNAL_SIGNALED 0 (demo_thread 2)
    (demo_wake 2) demo_registered demo_registration [] demo_registered ([], [])).
  - apply fresh_wait_wf.
  - reflexivity.
  - reflexivity.
Defined.
