(* ===== verification/EventFacts.v ===== *)
(** * Facts about the event authority

    The operations of [EventAuthority] against a table in which no object is
    recorded twice, the wait registry of [WaitFacts.v] and the object
    registry's contract. *)

From stdpp Require Import base tactics numbers list sets gmultiset.
From Stdlib Require Import ZArith Lia.
From S2P Require Import Prelude Abi Object ObjectLedger HandleTable Wait WaitFacts.
Import EventAuthority.
Local Open Scope Z_scope.

Abbreviation events := (list (option EventRecord)) (only parsing).

(** The table records the event [ev] in slot [i]. *)
Definition recorded (es : events) (i : nat) (ev : EventRecord) : Prop := es !! i = Some (Some ev).

Definition events_wf (es : events) : Prop :=
  ∀ i j ev ev', recorded es i ev → recorded es j ev' →
    record_object ev = record_object ev' → i = j.

Definition bound (es : events) (id : ObjectId) : Prop :=
  ∃ i ev, recorded es i ev ∧ record_object ev = id.

Lemma records_true id slot :
  records id slot = true ↔ ∃ ev, slot = Some ev ∧ record_object ev = id.
Proof.
  unfold records. destruct slot as [ev|]; [|naive_solver].
  rewrite bool_decide_eq_true. naive_solver.
Qed.

Lemma find_record_Some es id i ev :
  list_find (λ slot, records id slot) es = Some (i, Some ev) →
  recorded es i ev ∧ record_object ev = id.
Proof.
  intros (Hi & Hr%Is_true_true & _)%list_find_Some. apply records_true in Hr as (ev' & [= <-] & ?).
  done.
Qed.

Lemma find_record_not_None es id i : list_find (λ slot, records id slot) es ≠ Some (i, None).
Proof. by intros (_ & [] & _)%list_find_Some. Qed.

Lemma find_record_None es id :
  list_find (λ slot, records id slot) es = None ↔ ¬ bound es id.
Proof.
  rewrite list_find_None, list.Forall_forall. split.
  - intros Hall (i & ev & Hi & Hid). eapply (Hall (Some ev)); [by eapply list_elem_of_lookup_2|].
    apply Is_true_true, records_true. eauto.
  - intros Hb slot Hin Hr%Is_true_true. apply records_true in Hr as (ev & -> & Hid).
    apply list_elem_of_lookup in Hin as [i Hi]. apply Hb. by exists i, ev.
Qed.

Lemma find_Some es id i ev : find id es = Some (i, ev) → recorded es i ev ∧ record_object ev = id.
Proof.
  unfold find. destruct (list_find _ es) as [[j [ev'|]]|] eqn:Hf; [|done..].
  intros [= <- <-]. by apply find_record_Some.
Qed.

Lemma find_None es id : find id es = None ↔ ¬ bound es id.
Proof.
  rewrite <- find_record_None. unfold find. destruct (list_find _ es) as [[j [ev'|]]|] eqn:Hf.
  - done.
  - by apply find_record_not_None in Hf.
  - done.
Qed.

Lemma find_recorded es i ev : events_wf es → recorded es i ev →
  find (record_object ev) es = Some (i, ev).
Proof.
  intros Hwf Hi. destruct (find _ es) as [[j ev']|] eqn:Hf.
  - apply find_Some in Hf as [Hj Hid]. assert (j = i) as -> by (by eapply Hwf).
    unfold recorded in *. congruence.
  - apply find_None in Hf. destruct Hf. by exists i, ev.
Qed.

(** ** Updates of the table *)

Lemma recorded_insert es i slot j ev : (i < length es)%nat →
  recorded (<[i := slot]> es) j ev ↔ (j = i ∧ slot = Some ev) ∨ (j ≠ i ∧ recorded es j ev).
Proof.
  intros Hi. unfold recorded. destruct (decide (j = i)) as [->|Hne].
  - rewrite list_lookup_insert_eq by done. naive_solver.
  - rewrite list_lookup_insert_ne by done. naive_solver.
Qed.

Lemma recorded_lt es i ev : recorded es i ev → (i < length es)%nat.
Proof. apply lookup_lt_Some. Qed.

(** Recording a new object. *)
Lemma events_wf_bind es i ev : events_wf es → es !! i = Some None →
  ¬ bound es (record_object ev) → events_wf (<[i := Some ev]> es).
Proof.
  intros Hwf Hi Hb j k ev1 ev2. pose proof (lookup_lt_Some _ _ _ Hi).
  rewrite !recorded_insert by done.
  intros [[-> [= <-]]|[Hj Hr1]] [[-> [= <-]]|[Hk Hr2]] Hid; [done| | |by eapply Hwf].
  - destruct Hb. by exists k, ev2.
  - destruct Hb. by exists j, ev1.
Qed.

Lemma bound_bind es i ev id : es !! i = Some None →
  bound (<[i := Some ev]> es) id ↔ bound es id ∨ id = record_object ev.
Proof.
  intros Hi. pose proof (lookup_lt_Some _ _ _ Hi). unfold bound. split.
  - intros (j & ev' & Hr & Hid). apply recorded_insert in Hr as [[-> [= <-]]|[? Hr]]; [by right| |done].
    left. by exists j, ev'.
  - intros [(j & ev' & Hr & Hid)| -> ].
    + exists j, ev'. split; [|done]. apply recorded_insert; [done|]. right. split; [|done].
      intros ->. unfold recorded in Hr. congruence.
    + exists i, ev. split; [|done]. apply recorded_insert; [done|]. by left.
Qed.

(** Changing a record in place. *)
Lemma events_wf_update es i ev ev' : events_wf es → recorded es i ev →
  record_object ev' = record_object ev → events_wf (<[i := Some ev']> es).
Proof.
  intros Hwf Hi Hid j k ev1 ev2. pose proof (recorded_lt _ _ _ Hi).
  rewrite !recorded_insert by done.
  intros [[-> [= <-]]|[Hj Hr1]] [[-> [= <-]]|[Hk Hr2]] He; [done| | |by eapply Hwf].
  - eapply Hwf; [exact Hi|exact Hr2|congruence].
  - eapply Hwf; [exact Hr1|exact Hi|congruence].
Qed.

Lemma bound_update es i ev ev' id : recorded es i ev → record_object ev' = record_object ev →
  bound (<[i := Some ev']> es) id ↔ bound es id.
Proof.
  intros Hi Hid. pose proof (recorded_lt _ _ _ Hi). unfold bound. split.
  - intros (j & e & Hr & Hj). apply recorded_insert in Hr as [[-> [= <-]]|[? Hr]]; [|by eauto|done].
    exists i, ev. split; [done|congruence].
  - intros (j & e & Hr & Hj). destruct (decide (j = i)) as [->|Hne].
    + exists i, ev'. split; [apply recorded_insert; auto|]. unfold recorded in *. congruence.
    + exists j, e. split; [apply recorded_insert; auto|done].
Qed.

(** Clearing a record. *)
Lemma events_wf_clear es i : events_wf es → (i < length es)%nat → events_wf (<[i := None]> es).
Proof.
  intros Hwf Hi j k ev1 ev2. rewrite !recorded_insert by done.
  intros [[_ [=]]|[_ Hr1]] [[_ [=]]|[_ Hr2]]. by eapply Hwf.
Qed.

Lemma bound_clear es i ev id : events_wf es → recorded es i ev →
  bound (<[i := None]> es) id ↔ bound es id ∧ id ≠ record_object ev.
Proof.
  intros Hwf Hi. pose proof (recorded_lt _ _ _ Hi). unfold bound. split.
  - intros (j & e & Hr & Hj). apply recorded_insert in Hr as [[_ [=]]|[Hne Hr]]; [|done].
    split; [by eauto|]. intros ->. apply Hne. by eapply Hwf.
  - intros [(j & e & Hr & Hj) Hne]. exists j, e. split; [|done]. apply recorded_insert; [done|].
    right. split; [|done]. intros ->. unfold recorded in *. congruence.
Qed.

(** ** Signals of an event *)

Lemma land_signaled desired :
  validate_wait_signals DW_OBJECT_TYPE_EVENT desired = Ok tt → is_uint 64 desired →
  Z.land desired DW_SIGNAL_SIGNALED ≠ 0.
Proof. by apply land_only_signal. Qed.

(** ** The operations *)

Lemma bind_event_wp c es : creation_type c = DW_OBJECT_TYPE_EVENT →
  wp (bind_event c) es
    (λ binding es', ∃ i, es !! i = Some None ∧ ¬ bound es (creation_id c) ∧
       binding = {| event_creation := c; event_key := {| event_object := creation_id c |} |} ∧
       es' = <[i := Some {| record_object := creation_id c; signaled := false |}]> es)
    (λ failure es', es' = es ∧ failure.2 = c ∧
       (failure.1 = WaitError.EventReference ∧ bound es (creation_id c) ∨
        failure.1 = WaitError.Capacity ∧ None ∉ es)).
Proof.
  intros Hty. unfold bind_event. rewrite Hty, Z.eqb_refl. simpl. do 2 wp_step.
  destruct (existsb (records (creation_id c)) es) eqn:Hex.
  - wp_step. split_and!; [done..|]. left. split; [done|].
    apply existsb_exists in Hex as (slot & Hin & Hr). apply records_true in Hr as (ev & -> & Hid).
    apply list_elem_of_In, list_elem_of_lookup in Hin as [i Hi]. by exists i, ev.
  - assert (¬ bound es (creation_id c)) as Hb.
    { intros (i & ev & Hi & Hid). apply not_true_iff_false in Hex. apply Hex, existsb_exists.
      exists (Some ev). split; [by eapply list_elem_of_In, list_elem_of_lookup_2|].
      apply records_true. eauto. }
    do 2 wp_step.
    + destruct p as [i slot]. apply list_find_Some in Heqo as (Hi & -> & _). cbn beta iota.
      do 3 wp_step. by exists i.
    + split_and!; [done..|]. right. split; [done|]. apply list_find_None in Heqo.
      rewrite list.Forall_forall in Heqo. intros Hin. by apply (Heqo None).
Qed.

Lemma signal_wp key clear_mask set_mask es ws :
  wp (signal key clear_mask set_mask) (es, ws)
    (λ batch st, ∃ i ev, recorded es i ev ∧ record_object ev = event_object key ∧
       validate_event_signal_masks clear_mask set_mask = Ok tt ∧
       st.1 = <[i := Some {| record_object := record_object ev;
                             signaled := set_mask =? DW_SIGNAL_SIGNALED |}]> es ∧
       if set_mask =? DW_SIGNAL_SIGNALED
       then WaitRegistry.take_ready (E:=WaitError.t) (event_object key) DW_SIGNAL_SIGNALED ws =
              Ret st.2 batch
       else st.2 = ws ∧ batch = WakeBatch.empty (length (WaitRegistry.slots ws)))
    (λ error st, st = (es, ws) ∧
       (validate_event_signal_masks clear_mask set_mask = Err error ∨
        error = WaitError.InvalidObject ∧ ¬ bound es (event_object key))).
Proof.
  unfold signal. do 2 wp_step. destruct (validate_event_signal_masks _ _) as [[]|error] eqn:Hv; [|by auto].
  do 5 wp_step; [|by rewrite find_None in Heqo; auto].
  destruct p as [i ev]. apply find_Some in Heqo as [Hi Hid]. cbn beta iota zeta. do 3 wp_step.
  simpl. destruct (set_mask =? DW_SIGNAL_SIGNALED) eqn:Hset.
  - wp_step. eapply wp_eq; [apply take_ready_eq|]. exists i, ev. rewrite take_ready_eq. done.
  - do 3 wp_step. wp_step. by exists i, ev.
Qed.

Lemma register_wait_wp target desired item_index thread wake es ws :
  WaitFacts.wait_wf ws →
  let pin := ResolvedHandle.reference target in
  let e := new_entry pin desired item_index thread wake in
  wp (register_wait target desired item_index thread wake) (es, ws)
    (λ outcome st, internal_type pin = DW_OBJECT_TYPE_EVENT ∧
       Z.land (ResolvedHandle.rights target) DW_RIGHT_WAIT = DW_RIGHT_WAIT ∧
       ∃ i ev, recorded es i ev ∧ record_object ev = internal_id pin ∧ st.1 = es ∧
       match outcome with
       | EventWaitOutcome.Ready observed p =>
           signaled ev = true ∧ observed = DW_SIGNAL_SIGNALED ∧ p = pin ∧ st.2 = ws
       | EventWaitOutcome.Registered registration =>
           signaled ev = false ∧
           WaitRegistry.register pin desired item_index thread wake ws = Ret st.2 registration
       end)
    (λ failure st, st = (es, ws) ∧ failure.2 = pin).
Proof.
  intros Hwf pin e. unfold register_wait, ResolvedHandle.into_internal. fold pin. cbv zeta.
  unfold ResolvedHandle.object_type. fold pin.
  destruct (Z.eqb_spec (internal_type pin) DW_OBJECT_TYPE_EVENT) as [Hty|]; [|by wp_step].
  cbn [negb]. destruct (Z.eqb_spec (Z.land (ResolvedHandle.rights target) DW_RIGHT_WAIT) DW_RIGHT_WAIT)
    as [Hr|]; [|by wp_step].
  cbn [negb]. do 3 wp_step. destruct (validate_wait_signals _ _) as [[]|]; [|done].
  do 5 wp_step; [|done]. destruct p as [i ev]. apply find_Some in Heqo as [Hi Hid].
  cbn beta iota. destruct (signaled ev) eqn:Hsig.
  - wp_step. split_and!; [done..|]. exists i, ev. by split_and!.
  - do 2 wp_step. pose proof (register_wp pin desired item_index thread wake ws Hwf) as Hreg.
    unfold wp in *. destruct (WaitRegistry.register _ _ _ _ _ ws) as [ws' reg|ws' failure|] eqn:Hq; [| |done].
    + split_and!; [done..|]. exists i, ev. by split_and!.
    + by destruct Hreg as (-> & ? & _).
Qed.

Lemma take_finalization_wp f es : final_type f = DW_OBJECT_TYPE_EVENT →
  wp (take_finalization f) es
    (λ finalization es', event_final_release finalization = f ∧
       ∃ i ev, recorded es i ev ∧ record_object ev = final_id f ∧ es' = <[i := None]> es)
    (λ failure es', failure = (WaitError.EventFinalizationMismatch, f) ∧ es' = es ∧
       ¬ bound es (final_id f)).
Proof.
  intros Hty. unfold take_finalization. rewrite Hty, Z.eqb_refl. simpl. do 3 wp_step.
  wp_step; [|by rewrite find_record_None in Heqo].
  destruct p as [i [ev|]]; [|by apply find_record_not_None in Heqo].
  apply find_record_Some in Heqo as [Hi Hid]. cbn beta iota. do 3 wp_step. split; [done|].
  by exists i, ev.
Qed.

Section with_registry.
Context {owns : ObjectRegistry.t → gmultiset Token → gmultiset FinalRelease → Prop}.
Context `{!RegistryContract owns}.

Lemma create_event_wp es reg refs finals :
  owns reg refs finals → (∀ id, bound es id → alive DW_OBJECT_TYPE_EVENT id refs finals) →
  wp create_event (es, reg)
    (λ made st, let '(key, h) := made in
       handle_id h = event_object key ∧ handle_type h = DW_OBJECT_TYPE_EVENT ∧
       owns st.2 (refs ⊎ {[+ handle_token h +]}) finals ∧
       (∀ ty, ¬ alive ty (event_object key) refs finals) ∧
       ∃ i, es !! i = Some None ∧
         st.1 = <[i := Some {| record_object := event_object key; signaled := false |}]> es)
    (λ error st, st.1 = es ∧ owns st.2 refs finals ∧
       match error with
       | EventCreateError.Registry _ => True
       | EventCreateError.Wait e => e = WaitError.Capacity ∧ None ∉ es
       end).
Proof.
  intros Ho Hb. unfold create_event. do 3 wp_step.
  eapply wp_mono; [by apply contract_create| |by auto].
  intros c reg1 (Hty & Hun & Ho1).
  assert (∀ ty, ¬ alive ty (creation_id c) refs finals) as Hfresh by (intros ty; by eapply alive_create).
  do 3 wp_step. eapply wp_mono; [by apply bind_event_wp| |].
  - intros binding es1 (i & Hi & _ & -> & ->). cbn beta iota zeta. do 3 wp_step.
    assert (creation_token c ∈ refs ⊎ {[+ creation_token c +]}) as Hin by multiset_solver.
    eapply wp_eq; [by eapply (finish_payload_binding_owns (P:=EventPayloadBinding))|].
    do 3 wp_step. eapply wp_mono; [eapply fresh_into_handle_owns; [done..|]| |done].
    + by rewrite gmultiset_add_remove.
    + intros h reg2 (Hh & Hht & Ho2). rewrite gmultiset_add_remove in Ho2. wp_step.
      split_and!; [done|by rewrite Hht|done|done|]. by exists i.
  - intros [error c'] es1 (-> & Hc & Herr). simpl in Hc. subst c'. cbn beta iota.
    do 3 wp_step. eapply wp_mono; [eapply cancel_creation_owns; [done|multiset_solver|]| |done].
    + by rewrite gmultiset_add_remove.
    + intros [] reg2 Ho2. rewrite gmultiset_add_remove in Ho2. wp_step. split; [done|]. split; [done|].
      destruct Herr as [[_ Hbound]|?]; [|done]. by destruct (Hfresh _ (Hb _ Hbound)).
Qed.

Lemma complete_event_finalization_wp {E} finalization reg refs finals :
  owns reg refs finals → event_final_release finalization ∈ finals →
  wp (complete_event_finalization (E:=E) finalization) reg
    (λ _ reg', owns reg' refs (finals ∖ {[+ event_final_release finalization +]})) (λ _ _, False).
Proof.
  intros Ho Hin. apply wp_unwrap, wp_map_err. by apply contract_finalize.
Qed.

End with_registry.
