(* ===== verification/EventTheorems.v ===== *)
(** * Events, waiters and references together: claims

    The event authority, the wait registry and the object registry as one
    system, with the tokens the rest of the kernel holds.  No operation
    panics, no wakeup is lost and an event's finalization always finds its
    record, and no waiter. *)

From stdpp Require Import base tactics numbers list sets relations gmultiset.
From Stdlib Require Import ZArith Lia.
From S2P Require Import Prelude Abi Object ObjectLedger ObjectTheorems HandleTable Wait WaitFacts WaitTheorems EventFacts.
Import EventAuthority.
Local Open Scope Z_scope.

(** ** The system *)

Abbreviation event_state := (list (option EventRecord) * WaitRegistry.t * ObjectRegistry.t)%type.

Inductive event_op : Type :=
| CreateEvent
| Signal (key : EventKey) (clear_mask set_mask : DwSignals)
| RegisterWait (target : ResolvedHandle.t) (desired : DwSignals) (item_index : Z)
    (thread : ThreadKey) (wake : BlockWakeKey)
| Waits (o : wait_op)
| Finalize (f : FinalRelease).

(** What a call moves between the system and the rest of the kernel. *)
Record exchange : Type := {
  consumed : gmultiset Token;
  produced : gmultiset Token;
  retired : gmultiset FinalRelease;
}.

(** A call on the events and the object registry. *)
Definition on_events_registry {E A} (m : M (list (option EventRecord) * ObjectRegistry.t) E A)
    : M event_state E A := λ st,
  match m (st.1.1, st.2) with
  | Ret (es, reg) a => Ret (es, st.1.2, reg) a
  | Fail (es, reg) e => Fail (es, st.1.2, reg) e
  | Panic => Panic
  end.

Definition event_exec (o : event_op) : M event_state Empty_set exchange :=
  match o with
  | CreateEvent =>
      result ← on_events_registry (try create_event);
      mret {| consumed := ∅;
              produced := match result with Ok (_, h) => {[+ handle_token h +]} | Err _ => ∅ end;
              retired := ∅ |}
  | Signal key clear_mask set_mask =>
      result ← on_fst (try (signal key clear_mask set_mask));
      mret {| consumed := ∅;
              produced := match result with Ok batch => tokens_of (pins_in batch) | Err _ => ∅ end;
              retired := ∅ |}
  | RegisterWait target desired item_index thread wake =>
      result ← on_fst (try (register_wait target desired item_index thread wake));
      mret {| consumed := match result with
                          | Ok (EventWaitOutcome.Registered _) =>
                              {[+ internal_token (ResolvedHandle.reference target) +]}
                          | _ => ∅
                          end;
              produced := ∅; retired := ∅ |}
  | Waits o =>
      '(handed, returned) ← on_fst (on_snd (exec o));
      mret {| consumed := tokens_of handed; produced := tokens_of returned; retired := ∅ |}
  | Finalize f =>
      result ← on_fst (on_fst (try (take_finalization f)));
      match result with
      | Ok finalization =>
          on_snd (complete_event_finalization finalization);;
          mret {| consumed := ∅; produced := ∅; retired := {[+ f +]} |}
      | Err _ => mret {| consumed := ∅; produced := ∅; retired := ∅ |}
      end
  end.

(** The caller presents tokens it holds; an event is waited for through
    [register_wait]. *)
Definition event_admissible (o : event_op) (refs : gmultiset Token)
    (finals : gmultiset FinalRelease) : Prop :=
  match o with
  | CreateEvent | Signal _ _ _ => True
  | RegisterWait target desired _ _ _ =>
      internal_token (ResolvedHandle.reference target) ∈ refs ∧ is_uint 64 desired
  | Waits (Register pin _ _ _ _) =>
      internal_token pin ∈ refs ∧ internal_type pin ≠ DW_OBJECT_TYPE_EVENT
  | Waits _ => True
  | Finalize f => f ∈ finals ∧ final_type f = DW_OBJECT_TYPE_EVENT
  end.

Record event_world : Type := {
  ec_events : list (option EventRecord);
  ec_waits : WaitRegistry.t;
  ec_registry : ObjectRegistry.t;
  ec_refs : gmultiset Token;
  ec_finals : gmultiset FinalRelease;
}.

Definition ec_state (c : event_world) : event_state := (ec_events c, ec_waits c, ec_registry c).
Definition ec_tokens (c : event_world) : gmultiset Token := pin_tokens (ec_waits c) ⊎ ec_refs c.

Definition after_exchange (c : event_world) (st : event_state) (d : exchange) : event_world :=
  {| ec_events := st.1.1; ec_waits := st.1.2; ec_registry := st.2;
     ec_refs := ec_refs c ∖ consumed d ⊎ produced d; ec_finals := ec_finals c ∖ retired d |}.

(** A step is a call on the system, or one the rest of the kernel makes of
    the object registry with tokens of its own that neither creates nor
    retires an event. *)
Inductive event_step : event_world → event_world → Prop :=
| event_call c o st d :
    event_admissible o (ec_refs c) (ec_finals c) →
    event_exec o (ec_state c) = Ret st d →
    event_step c (after_exchange c st d)
| event_elsewhere c b refs' :
    honest_step {| book := ec_registry c; tokens := ec_tokens c; finals := ec_finals c |} b →
    tokens b = pin_tokens (ec_waits c) ⊎ refs' →
    (∀ id, alive DW_OBJECT_TYPE_EVENT id (ec_tokens c) (ec_finals c) ↔
           alive DW_OBJECT_TYPE_EVENT id (tokens b) (finals b)) →
    event_step c {| ec_events := ec_events c; ec_waits := ec_waits c; ec_registry := book b;
                    ec_refs := refs'; ec_finals := finals b |}.

(** No waiter is registered on a recorded event that is signalled. *)
Definition quiet (es : list (option EventRecord)) (ws : WaitRegistry.t) : Prop :=
  ∀ e i ev, e ∈ WaitRegistry.entries ws → recorded es i ev →
    record_object ev = wait_object (wait_identity e) → signaled ev = false.

Record event_inv (c : event_world) : Prop := {
  inv_ledger : ledger (ec_registry c) (ec_tokens c) (ec_finals c);
  inv_waits : wait_wf (ec_waits c);
  inv_events : events_wf (ec_events c);
  inv_bound : ∀ id, bound (ec_events c) id ↔
    alive DW_OBJECT_TYPE_EVENT id (ec_tokens c) (ec_finals c);
  inv_masks : ∀ e, e ∈ WaitRegistry.entries (ec_waits c) →
    internal_type (wait_pin e) = DW_OBJECT_TYPE_EVENT → is_uint 64 (wait_desired e);
  inv_quiet : quiet (ec_events c) (ec_waits c);
}.

(** ** Tokens *)

Lemma pin_token_held c e : e ∈ WaitRegistry.entries (ec_waits c) →
  internal_token (wait_pin e) ∈ ec_tokens c.
Proof.
  intros Hp%entry_pin_token.
  unfold ec_tokens. multiset_solver.
Qed.

(** A waiter on a recorded event pins it as an event. *)
Lemma event_waiter_type c e : event_inv c → e ∈ WaitRegistry.entries (ec_waits c) →
  bound (ec_events c) (wait_object (wait_identity e)) →
  internal_type (wait_pin e) = DW_OBJECT_TYPE_EVENT.
Proof.
  intros Hinv He Hb. apply (inv_bound _ Hinv) in Hb.
  destruct (entry_wf _ _ (inv_waits _ Hinv) He) as [Hid _]. rewrite Hid in Hb.
  refine (alive_typed (owns:=ledger) _ _ _ _ _ _ (inv_ledger _ Hinv) _ Hb).
  left. exists ReferenceKind.Internal. by apply pin_token_held.
Qed.

(** Every waiter on a recorded event is ready for its signal. *)
Lemma event_waiter_ready c e : event_inv c → e ∈ WaitRegistry.entries (ec_waits c) →
  bound (ec_events c) (wait_object (wait_identity e)) →
  WaitRegistry.is_ready (wait_object (wait_identity e)) DW_SIGNAL_SIGNALED e.
Proof.
  intros Hinv He Hb. pose proof (event_waiter_type _ _ Hinv He Hb) as Hty.
  destruct (entry_wf _ _ (inv_waits _ Hinv) He) as [_ Hv]. rewrite Hty in Hv.
  unfold WaitRegistry.is_ready. rewrite bool_decide_eq_true_2 by done. simpl.
  rewrite (proj2 (Z.eqb_neq _ _)); [done|]. apply land_signaled; [done|]. by apply (inv_masks _ Hinv).
Qed.

(** ** Each call keeps the invariant *)

(** A call that exchanges pins for tokens and keeps the events. *)
Lemma exchange_inv c ws' handed returned :
  event_inv c → wait_wf ws' →
  handed ++ all_pins (WaitRegistry.slots (ec_waits c)) ≡ₚ
    returned ++ all_pins (WaitRegistry.slots ws') →
  tokens_of handed ⊆ ec_refs c →
  (∀ e, e ∈ WaitRegistry.entries ws' → e ∈ WaitRegistry.entries (ec_waits c) ∨
     (internal_type (wait_pin e) = DW_OBJECT_TYPE_EVENT → is_uint 64 (wait_desired e)) ∧
     ∀ i ev, recorded (ec_events c) i ev → record_object ev = wait_object (wait_identity e) →
       signaled ev = false) →
  event_inv {| ec_events := ec_events c; ec_waits := ws'; ec_registry := ec_registry c;
               ec_refs := ec_refs c ∖ tokens_of handed ⊎ tokens_of returned;
               ec_finals := ec_finals c |}.
Proof.
  intros [Hl Hw He Hb Hm Hq] Hw' Hp Hin Hnew.
  pose proof (exchange_balanced _ _ _ _ _ Hp Hin) as Htok.
  split; unfold ec_tokens in *; simpl in *; rewrite ?Htok; [done..| |].
  - intros e Hin'. destruct (Hnew e Hin') as [Hold|[? _]]; [by apply Hm|done].
  - intros e i ev Hin'. destruct (Hnew e Hin') as [Hold|[_ ?]]; [by apply Hq|by eauto].
Qed.

(** Changing one event's signal once its waiters are gone. *)
Lemma signal_inv c ws' i ev b :
  event_inv c → wait_wf ws' → recorded (ec_events c) i ev →
  (∀ e, e ∈ WaitRegistry.entries ws' → e ∈ WaitRegistry.entries (ec_waits c) ∧
     (b = true → wait_object (wait_identity e) ≠ record_object ev)) →
  ∀ returned, all_pins (WaitRegistry.slots (ec_waits c)) ≡ₚ
    returned ++ all_pins (WaitRegistry.slots ws') →
  event_inv {| ec_events := <[i := Some {| record_object := record_object ev; signaled := b |}]>
                              (ec_events c);
               ec_waits := ws'; ec_registry := ec_registry c;
               ec_refs := ec_refs c ∖ ∅ ⊎ tokens_of returned; ec_finals := ec_finals c ∖ ∅ |}.
Proof.
  intros [Hl Hw He Hb Hm Hq] Hw' Hi Hsub returned Hp.
  pose proof (exchange_balanced (ec_waits c) ws' [] returned (ec_refs c) Hp) as Htok.
  change (tokens_of []) with (∅ : gmultiset Token) in Htok.
  specialize (Htok ltac:(multiset_solver)).
  rewrite gmultiset_remove_nothing in Htok. rewrite !gmultiset_remove_nothing.
  split; unfold ec_tokens in *; simpl in *; rewrite ?Htok; [done..| | | |].
  - by eapply events_wf_update.
  - intros id. rewrite bound_update by done. apply Hb.
  - intros e [Hin _]%Hsub. by apply Hm.
  - intros e j ev' Hin Hj Hid. apply Hsub in Hin as [Hin Hgone].
    apply recorded_insert in Hj as [[-> [= <-]]|[Hne Hj]]; [| |by eapply recorded_lt].
    + simpl in *. destruct b; [|done]. by destruct Hgone.
    + by eapply Hq.
Qed.

Lemma wp_on_events_registry {E A} (m : M (list (option EventRecord) * ObjectRegistry.t) E A) es ws reg Q R :
  wp m (es, reg) (λ a st, Q a (st.1, ws, st.2)) (λ e st, R e (st.1, ws, st.2)) →
  wp (on_events_registry m) (es, ws, reg) Q R.
Proof. unfold wp, on_events_registry. simpl. by destruct (m (es, reg)) as [[]|[]|]. Qed.

(** The post-condition of every call. *)
Definition kept (c : event_world) (d : exchange) (st : event_state) : Prop :=
  event_inv (after_exchange c st d).

(** A call that changed nothing. *)
Lemma kept_same c : event_inv c →
  kept c {| consumed := ∅; produced := ∅; retired := ∅ |} (ec_state c).
Proof.
  intros Hinv. unfold kept, after_exchange. simpl.
  balance. by destruct c.
Qed.

Lemma create_kept c : event_inv c →
  wp (event_exec CreateEvent) (ec_state c) (kept c) (λ _ _, False).
Proof.
  intros Hinv. pose proof Hinv as [Hl Hw He Hb Hm Hq]. simpl.
  apply wp_bind, wp_on_events_registry, wp_try.
  eapply wp_mono; [eapply create_event_wp; [done|intros id; apply Hb]| |].
  - intros [key h] [es' reg'] (Hid & Hty & Hl' & Hfresh & i & Hi & Hes). simpl in Hes, Hl'. subst es'.
    apply wp_ret. unfold kept, after_exchange. simpl. rewrite !gmultiset_remove_nothing.
    assert (pin_tokens (ec_waits c) ⊎ (ec_refs c ⊎ {[+ handle_token h +]}) =
            pin_tokens (ec_waits c) ⊎ ec_refs c ⊎ {[+ handle_token h +]}) as Htok.
    { by rewrite gmultiset_disj_union_assoc. }
    split; unfold ec_tokens in *; simpl; rewrite ?Htok; [done|done| | |done|].
    + apply events_wf_bind; [done..|]. rewrite Hb. simpl. apply Hfresh.
    + intros id. rewrite bound_bind by done. simpl. unfold handle_token. rewrite alive_add, Hb, Hid, Hty. naive_solver.
    + intros e j ev Hin Hj. apply recorded_insert in Hj as [[-> [= <-]]|[_ Hj]];
        [done| |by eapply lookup_lt_Some]. by eapply Hq.
  - intros error [es' reg'] (-> & Hl' & _). apply wp_ret. unfold kept, after_exchange. simpl.
    balance. by split.
Qed.

Lemma signal_kept c key clear_mask set_mask : event_inv c →
  wp (event_exec (Signal key clear_mask set_mask)) (ec_state c) (kept c) (λ _ _, False).
Proof.
  intros Hinv. simpl. apply wp_bind, wp_on_fst, wp_try.
  eapply wp_mono; [apply signal_wp| |].
  - intros batch [es' ws'] (i & ev & Hi & Hid & _ & Hes & Hres). simpl in Hes, Hres. subst es'.
    apply wp_ret. unfold kept, after_exchange. simpl.
    destruct (set_mask =? DW_SIGNAL_SIGNALED).
    + rewrite take_ready_eq in Hres. injection Hres as <- <-. rewrite pins_in_batch.
      apply signal_inv; [done|by apply wait_wf_cleared, inv_waits|done| |by apply all_pins_split, NoDup_ready_keys].
      intros e [He Hk]%entries_cleared. split; [done|]. intros _ Hobj. apply Hk.
      rewrite <- Hid, <- Hobj. apply ready_entry_woken; [done|].
      apply (event_waiter_ready c); [done..|]. exists i, ev. by rewrite Hobj.
    + destruct Hres as [-> ->]. rewrite batch_of_empty, pins_in_batch.
      apply signal_inv; [done|by apply inv_waits|done| |done]. done.
  - intros error st (-> & _). apply wp_ret. by apply kept_same.
Qed.

Lemma register_wait_kept c target desired item_index thread wake : event_inv c →
  internal_token (ResolvedHandle.reference target) ∈ ec_refs c → is_uint 64 desired →
  wp (event_exec (RegisterWait target desired item_index thread wake)) (ec_state c) (kept c)
    (λ _ _, False).
Proof.
  intros Hinv Htok Hu. simpl. apply wp_bind, wp_on_fst, wp_try.
  eapply wp_mono; [by apply register_wait_wp, inv_waits| |].
  - intros outcome [es' ws'] (Hty & _ & i & ev & Hi & Hid & Hes & Hout). simpl in Hes, Hout. subst es'.
    apply wp_ret. destruct outcome as [observed p|reg].
    { destruct Hout as (_ & _ & _ & ->). by apply kept_same. }
    destruct Hout as [Hsig Hreg].
    pose proof (exec_wp (Register (ResolvedHandle.reference target) desired item_index thread wake)
      _ (inv_waits _ Hinv)) as Hx.
    pose proof (exec_entries (Register (ResolvedHandle.reference target) desired item_index thread wake)
      _ (inv_waits _ Hinv)) as Hn.
    unfold wp, exec, try, mbind, M_bind in Hx, Hn. rewrite Hreg in Hx, Hn.
    destruct Hx as (Hwf' & _ & Hp), Hn as [_ Hn]. simpl in Hp.
    unfold kept, after_exchange. simpl. rewrite <- tokens_of_singleton, (gmultiset_remove_nothing (ec_finals c)).
    apply (exchange_inv c ws' [ResolvedHandle.reference target] []); [done..| |].
    { rewrite tokens_of_singleton. multiset_solver. }
    intros e [He|(? & ? & ? & ? & ? & [= <- <- <- <- <-] & ->)]%Hn; [by left|right]. simpl.
    split; [done|]. intros j ev' Hj Hid'. assert (j = i) as ->.
    { eapply (inv_events _ Hinv); [done..|congruence]. }
    unfold recorded in *. congruence.
  - intros failure st [-> _]. apply wp_ret. by apply kept_same.
Qed.

Lemma waits_kept c o : event_inv c → event_admissible (Waits o) (ec_refs c) (ec_finals c) →
  wp (event_exec (Waits o)) (ec_state c) (kept c) (λ _ _, False).
Proof.
  intros Hinv Hadm. simpl. apply wp_bind, wp_on_fst, wp_on_snd.
  eapply wp_mono; [apply wp_and; [apply exec_wp|apply exec_entries]; by apply inv_waits| |by intros ? ? []].
  intros [handed returned] ws' [(Hwf' & _ & Hp) [Hh Hn]]. apply wp_ret.
  unfold kept, after_exchange. simpl in *. subst handed.
  rewrite (gmultiset_remove_nothing (ec_finals c)).
  apply (exchange_inv c ws' (handed_by o) returned); [done..| |].
  { destruct o; simpl; [rewrite tokens_of_singleton; destruct Hadm|..]; unfold tokens_of; multiset_solver. }
  intros e [He|(pin & desired & idx & th & w & -> & ->)]%Hn; [by left|right]. simpl in *.
  destruct Hadm as [Hin Hty]. split; [done|]. intros i ev Hi Hid. destruct Hty.
  assert (bound (ec_events c) (internal_id pin)) as Hb by (by exists i, ev).
  apply (inv_bound _ Hinv) in Hb.
  refine (alive_typed (owns:=ledger) _ _ _ _ _ _ (inv_ledger _ Hinv) _ Hb).
  left. exists ReferenceKind.Internal. unfold ec_tokens, internal_token in *. multiset_solver.
Qed.

Lemma finalize_kept c f : event_inv c → f ∈ ec_finals c → final_type f = DW_OBJECT_TYPE_EVENT →
  wp (event_exec (Finalize f)) (ec_state c)
    (λ d st, retired d = {[+ f +]} ∧ kept c d st ∧ ¬ bound st.1.1 (final_id f) ∧
       ∀ e, e ∈ WaitRegistry.entries (ec_waits c) → wait_object (wait_identity e) ≠ final_id f)
    (λ _ _, False).
Proof.
  intros Hinv Hf Hty. pose proof Hinv as [Hl Hw He Hb Hm Hq]. simpl.
  assert (alive DW_OBJECT_TYPE_EVENT (final_id f) (ec_tokens c) (ec_finals c)) as Halive.
  { right. destruct f; simpl in *; by subst. }
  apply wp_bind, wp_on_fst, wp_on_fst, wp_try. eapply wp_mono; [by apply take_finalization_wp| |].
  2:{ intros failure es' (_ & _ & Hnb). destruct Hnb. by apply Hb. }
  intros finalization es' (Hfin & i & ev & Hi & Hid & ->). apply wp_bind, wp_on_snd.
  eapply wp_mono; [eapply (complete_event_finalization_wp (owns:=ledger)); [done|by rewrite Hfin]| |done].
  intros [] reg' Hl'. rewrite Hfin in Hl'. apply wp_ret. split; [done|]. split_and!.
  - unfold kept, after_exchange. simpl.
    rewrite (gmultiset_remove_nothing (ec_refs c)), gmultiset_disj_union_right_id.
    split; unfold ec_tokens in *; simpl; [done..| | |done|].
    + apply events_wf_clear; [done|by eapply recorded_lt].
    + intros id. rewrite (bound_clear _ _ _ _ He Hi), Hb, Hid.
      by rewrite (alive_finalize (owns:=ledger) _ _ _ _ _ _ Hl Hf).
    + intros e j ev' Hin Hj. apply recorded_insert in Hj as [[_ [=]]|[_ Hj]]; [|by eapply recorded_lt].
      by eapply Hq.
  - simpl. rewrite (bound_clear _ _ _ _ He Hi), Hid. by intros [_ []].
  - intros e Hin Hobj. destruct (entry_wf _ _ Hw Hin) as [Hpin _].
    eapply (contract_final_last (owns:=ledger) _ _ _ _ Hl Hf ReferenceKind.Internal).
    rewrite <- Hobj, Hpin. by apply pin_token_held.
Qed.

Lemma event_exec_safe c o : event_inv c → event_admissible o (ec_refs c) (ec_finals c) →
  wp (event_exec o) (ec_state c) (kept c) (λ _ _, False).
Proof.
  intros Hinv Hadm. destruct o as [|key cl st|target desired idx th w|o|f].
  - by apply create_kept.
  - by apply signal_kept.
  - destruct Hadm. by apply register_wait_kept.
  - by apply waits_kept.
  - destruct Hadm. eapply wp_mono; [by apply finalize_kept|by intros d st (_ & ? & _)|done].
Qed.

Lemma event_step_inv c c' : event_inv c → event_step c c' → event_inv c'.
Proof.
  intros Hinv Hstep. destruct Hstep as [c o st d Hadm Hex|c b refs' Hstep Htok Halive].
  - exact (wp_Ret _ _ _ _ _ _ (event_exec_safe _ _ Hinv Hadm) Hex).
  - destruct Hinv as [Hl Hw He Hb Hm Hq].
    assert (balanced_books b) as Hl' by (refine (honest_step_ledger _ _ _ Hstep); exact Hl).
    unfold balanced_books in Hl'.
    split; unfold ec_tokens in *; simpl; rewrite <- ?Htok; [done..| |done|done].
    intros id. by rewrite Hb, Halive.
Qed.

Lemma event_run_inv c c' : event_inv c → rtc event_step c c' → event_inv c'.
Proof. intros Hinv. induction 1; eauto using event_step_inv. Qed.

Definition fresh_event_world (d rd : Z) (events waiters objects : nat) : event_world :=
  {| ec_events := EventAuthority.new events;
     ec_waits := {| WaitRegistry.domain := d;
                    WaitRegistry.slots := replicate waiters {| wait_generation := 0; wait_entry := None |} |};
     ec_registry := fresh_registry rd objects; ec_refs := ∅; ec_finals := ∅ |}.

Lemma all_pins_fresh n : all_pins (replicate n {| wait_generation := 0; wait_entry := None |}) = [].
Proof. by induction n. Qed.

Lemma fresh_event_inv d rd n m k : event_inv (fresh_event_world d rd n m k).
Proof.
  assert (∀ i ev, ¬ recorded (EventAuthority.new n) i ev) as Hnone.
  { intros i ev Hi. by apply lookup_replicate in Hi as [[=] _]. }
  assert (∀ e, e ∉ WaitRegistry.entries (ec_waits (fresh_event_world d rd n m k))) as Hnoent.
  { intros e (s & Hs & He)%list_elem_of_omap. simpl in Hs.
    apply list_elem_of_lookup in Hs as [i Hs]. by apply lookup_replicate in Hs as [-> _]. }
  assert (ec_tokens (fresh_event_world d rd n m k) = ∅) as Htok.
  { unfold ec_tokens, pin_tokens. simpl. rewrite all_pins_fresh. done. }
  split; rewrite ?Htok.
  - apply fresh_ledger.
  - apply fresh_wait_wf.
  - by intros i j ev ev' ?%Hnone.
  - intros id. split; [by intros (i & ev & ?%Hnone & _)|].
    intros [[kd Hk]|Hf]; [by apply gmultiset_not_elem_of_empty in Hk|].
    by apply gmultiset_not_elem_of_empty in Hf.
  - by intros e ?%Hnoent.
  - by intros e i ev ?%Hnoent.
Qed.

(** *** A system with one event and one waiter on it *)

Definition event_after (o : event_op) (c : event_world) : event_world :=
  match event_exec o (ec_state c) with
  | Ret st d => after_exchange c st d
  | _ => c
  end.

Lemma event_after_step o c : event_inv c → event_admissible o (ec_refs c) (ec_finals c) →
  event_step c (event_after o c).
Proof.
  intros Hinv Hadm. pose proof (event_exec_safe c o Hinv Hadm) as Hw. unfold wp in Hw. unfold event_after.
  destruct (event_exec o (ec_state c)) as [st d|? []|] eqn:Hex; [|done].
  by apply event_call with o.
Qed.

Definition one_event : event_world := event_after CreateEvent (fresh_event_world 1 1 2 3 4).

Definition event_token (k : ReferenceKind.t) : Token := (k, event_id, DW_OBJECT_TYPE_EVENT).

(** The rest of the kernel retains an internal reference to the event. *)
Definition pinned_event : event_world :=
  {| ec_events := ec_events one_event; ec_waits := ec_waits one_event;
     ec_registry := after (ObjectRegistry.retain_reference event_id DW_OBJECT_TYPE_EVENT
                             ReferenceKind.Handle ReferenceKind.Internal) (ec_registry one_event);
     ec_refs := ec_refs one_event ⊎ {[+ event_token ReferenceKind.Internal +]};
     ec_finals := ec_finals one_event |}.

Definition event_target : ResolvedHandle.t :=
  {| ResolvedHandle.reference := {| internal_id := event_id; internal_type := DW_OBJECT_TYPE_EVENT |};
     ResolvedHandle.rights := DW_RIGHT_WAIT |}.

Definition one_waiter : event_world :=
  event_after (RegisterWait event_target DW_SIGNAL_SIGNALED 0 (demo_thread 2) (demo_wake 2)) pinned_event.

(** The event's only handle is closed instead. *)
Definition dying_event : event_world :=
  {| ec_events := ec_events one_event; ec_waits := ec_waits one_event;
     ec_registry := after (ObjectRegistry.release_reference event_id DW_OBJECT_TYPE_EVENT
                             ReferenceKind.Handle) (ec_registry one_event);
     ec_refs := ec_refs one_event ∖ {[+ event_token ReferenceKind.Handle +]};
     ec_finals := ec_finals one_event ⊎
       {[+ {| final_id := event_id; final_type := DW_OBJECT_TYPE_EVENT |} +]} |}.

Lemma one_event_reached : rtc event_step (fresh_event_world 1 1 2 3 4) one_event.
Proof. apply rtc_once, event_after_step; [apply fresh_event_inv|done]. Qed.

Lemma one_event_inv : event_inv one_event.
Proof. eapply event_run_inv; [apply fresh_event_inv|apply one_event_reached]. Qed.

Lemma one_event_refs : ec_refs one_event = ∅ ∖ ∅ ⊎ {[+ event_token ReferenceKind.Handle +]}.
Proof. reflexivity. Qed.

Lemma one_event_pins : pin_tokens (ec_waits one_event) = ∅.
Proof. reflexivity. Qed.

Lemma pinned_event_reached : rtc event_step (fresh_event_world 1 1 2 3 4) pinned_event.
Proof.
  eapply rtc_r; [apply one_event_reached|].
  refine (event_elsewhere one_event {| book := ec_registry pinned_event;
    tokens := ec_tokens one_event ⊎ {[+ event_token ReferenceKind.Internal +]};
    finals := ec_finals one_event |} (ec_refs pinned_event) _ _ _).
  - apply (honest_retain _ _ _ ReferenceKind.Handle); [|reflexivity].
    unfold ec_tokens. rewrite one_event_refs. unfold event_token. multiset_solver.
  - simpl. unfold ec_tokens. by rewrite gmultiset_disj_union_assoc.
  - intros id. simpl. unfold event_token. rewrite alive_add.
    assert (alive DW_OBJECT_TYPE_EVENT event_id (ec_tokens one_event) (ec_finals one_event)).
    { left. exists ReferenceKind.Handle. unfold ec_tokens. rewrite one_event_refs.
      unfold event_token. multiset_solver. }
    naive_solver.
Qed.

Lemma one_waiter_reached : rtc event_step (fresh_event_world 1 1 2 3 4) one_waiter.
Proof.
  eapply rtc_r; [apply pinned_event_reached|]. apply event_after_step.
  - eapply event_run_inv; [apply fresh_event_inv|apply pinned_event_reached].
  - split; [|by unfold is_uint]. simpl. unfold event_token, internal_token. simpl. multiset_solver.
Qed.

Lemma dying_event_reached : rtc event_step (fresh_event_world 1 1 2 3 4) dying_event.
Proof.
  eapply rtc_r; [apply one_event_reached|].
  assert (event_token ReferenceKind.Handle ∈ ec_tokens one_event) as Hin.
  { unfold ec_tokens. rewrite one_event_refs. multiset_solver. }
  refine (event_elsewhere one_event {| book := ec_registry dying_event;
    tokens := ec_tokens one_event ∖ {[+ event_token ReferenceKind.Handle +]};
    finals := ec_finals dying_event |} (ec_refs dying_event) _ _ _).
  - apply honest_final_release; [exact Hin|reflexivity].
  - simpl. unfold ec_tokens. rewrite one_event_pins, one_event_refs. multiset_solver.
  - intros id. symmetry.
    refine (alive_release (owns:=ledger) _ _ _ ReferenceKind.Handle event_id DW_OBJECT_TYPE_EVENT
      (Some {| final_id := event_id; final_type := DW_OBJECT_TYPE_EVENT |}) (ec_registry dying_event)
      _ _ (inv_ledger _ one_event_inv) Hin _).
    pose proof (contract_release (owns:=ledger) _ _ _ _ _ _ (inv_ledger _ one_event_inv) Hin) as Hw.
    exact Hw.
Qed.

(** ** Claims *)

(** From an empty event authority, wait registry and object registry on,
    and in any order of their operations and of calls by the rest of the
    kernel: the object registry's counts are exactly the references held by
    waiters and by the rest of the kernel, the events recorded are exactly the
    living objects of type EVENT, and no admissible operation panics. *)
Theorem event_system_safe d rd n m k c :
  rtc event_step (fresh_event_world d rd n m k) c →
  ledger (ec_registry c) (pin_tokens (ec_waits c) ⊎ ec_refs c) (ec_finals c) ∧
  (∀ id, bound (ec_events c) id ↔
     alive DW_OBJECT_TYPE_EVENT id (pin_tokens (ec_waits c) ⊎ ec_refs c) (ec_finals c)) ∧
  ∀ o, event_admissible o (ec_refs c) (ec_finals c) → event_exec o (ec_state c) ≠ Panic.
Proof.
  intros Hrun. pose proof (event_run_inv _ _ (fresh_event_inv d rd n m k) Hrun) as Hinv.
  split; [apply Hinv|]. split; [apply Hinv|].
  intros o Hadm. exact (wp_Panic _ _ _ _ (event_exec_safe _ _ Hinv Hadm)).
Qed.

Lemma event_system_safe_witness :
  ledger (ec_registry one_waiter) (pin_tokens (ec_waits one_waiter) ⊎ ec_refs one_waiter)
    (ec_finals one_waiter) ∧
  (∀ id, bound (ec_events one_waiter) id ↔
     alive DW_OBJECT_TYPE_EVENT id (pin_tokens (ec_waits one_waiter) ⊎ ec_refs one_waiter)
       (ec_finals one_waiter)) ∧
  ∀ o, event_admissible o (ec_refs one_waiter) (ec_finals one_waiter) →
    event_exec o (ec_state one_waiter) ≠ Panic.
Proof. apply (event_system_safe 1 1 2 3 4). apply one_waiter_reached. Defined.

(** C31. No wakeup is lost: in every reachable state no thread waits on an
    event that is signalled, and setting an event wakes every thread that
    waits on it and leaves none registered. *)
Theorem no_event_wakeup_is_lost d rd n m k c :
  rtc event_step (fresh_event_world d rd n m k) c →
  (∀ e, e ∈ WaitRegistry.entries (ec_waits c) →
     internal_type (wait_pin e) = DW_OBJECT_TYPE_EVENT →
     current_signals (ec_events c) {| event_object := wait_object (wait_identity e) |} = Ok 0) ∧
  (∀ key st batch,
     signal key 0 DW_SIGNAL_SIGNALED (ec_events c, ec_waits c) = Ret st batch →
     current_signals st.1 key = Ok DW_SIGNAL_SIGNALED ∧
     (∀ e, e ∈ WaitRegistry.entries (ec_waits c) →
        wait_object (wait_identity e) = event_object key →
        wait_wake (wait_identity e) ∈ intent_wake <$> wakes_in batch) ∧
     (∀ e, e ∈ WaitRegistry.entries st.2 → wait_object (wait_identity e) ≠ event_object key)).
Proof.
  intros Hrun. pose proof (event_run_inv _ _ (fresh_event_inv d rd n m k) Hrun) as Hinv. split.
  - intros e He Hty. destruct (entry_wf _ _ (inv_waits _ Hinv) He) as [Hpin _].
    assert (bound (ec_events c) (wait_object (wait_identity e))) as (i & ev & Hi & Hid).
    { apply (inv_bound _ Hinv). left. exists ReferenceKind.Internal. rewrite Hpin, <- Hty.
      by apply pin_token_held. }
    unfold current_signals. simpl. rewrite <- Hid, (find_recorded _ _ _ (inv_events _ Hinv) Hi).
    by rewrite (inv_quiet _ Hinv _ _ _ He Hi Hid).
  - intros key [es ws] batch Hsig.
    pose proof (wp_Ret _ _ _ _ _ _ (signal_wp _ _ _ _ _) Hsig) as (i & ev & Hi & Hid & _ & Hes & Hws).
    simpl in Hes, Hws. rewrite take_ready_eq in Hws. injection Hws as <- <-.
    assert (∀ e, e ∈ WaitRegistry.entries (ec_waits c) → wait_object (wait_identity e) = event_object key →
      wait_wake (wait_identity e) ∈ ready_keys (event_object key) DW_SIGNAL_SIGNALED
        (WaitRegistry.slots (ec_waits c))) as Hwoken.
    { intros e He Hobj. apply ready_entry_woken; [done|]. rewrite <- Hobj.
      apply (event_waiter_ready c); [done..|]. exists i, ev. by rewrite Hobj. }
    split_and!; simpl.
    + unfold current_signals. subst es. set (ev' := {| record_object := _ |}).
      rewrite <- Hid. change (record_object ev) with (record_object ev').
      erewrite find_recorded; [done|eapply events_wf_update; [apply Hinv|exact Hi|done]|].
      apply recorded_insert; [by eapply recorded_lt|by left].
    + intros e He Hobj. rewrite wakes_in_batch, <- list_fmap_compose.
      rewrite (list_fmap_ext _ id), list_fmap_id by done. by apply Hwoken.
    + intros e [He Hk]%entries_cleared Hobj. by apply Hk, Hwoken.
Qed.

Lemma no_event_wakeup_is_lost_witness :
  length (WaitRegistry.entries (ec_waits one_waiter)) = 1%nat ∧
  ∀ e, e ∈ WaitRegistry.entries (ec_waits one_waiter) →
    internal_type (wait_pin e) = DW_OBJECT_TYPE_EVENT →
    current_signals (ec_events one_waiter) {| event_object := wait_object (wait_identity e) |} = Ok 0.
Proof.
  split; [reflexivity|]. apply (no_event_wakeup_is_lost 1 1 2 3 4). apply one_waiter_reached.
Defined.

(** The last reference to an event retires it: in every reachable state
    an outstanding final release of an event finds its record, completes, and
    no thread waits on the event. *)
Theorem event_finalization_completes d rd n m k c f :
  rtc event_step (fresh_event_world d rd n m k) c →
  f ∈ ec_finals c → final_type f = DW_OBJECT_TYPE_EVENT →
  ∃ st exchanged, event_exec (Finalize f) (ec_state c) = Ret st exchanged ∧
    retired exchanged = {[+ f +]} ∧ ¬ bound st.1.1 (final_id f) ∧
    ∀ e, e ∈ WaitRegistry.entries (ec_waits c) → wait_object (wait_identity e) ≠ final_id f.
Proof.
  intros Hrun Hf Hty. pose proof (event_run_inv _ _ (fresh_event_inv d rd n m k) Hrun) as Hinv.
  pose proof (finalize_kept c f Hinv Hf Hty) as Hw. unfold wp in Hw.
  destruct (event_exec (Finalize f) (ec_state c)) as [st x| |]; [|done..].
  destruct Hw as (Hx & _ & Hb & Hno). by exists st, x.
Qed.

Lemma event_finalization_completes_witness :
  let f := {| final_id := event_id; final_type := DW_OBJECT_TYPE_EVENT |} in
  ∃ st exchanged, event_exec (Finalize f) (ec_state dying_event) = Ret st exchanged ∧
    retired exchanged = {[+ f +]} ∧ ¬ bound st.1.1 (final_id f) ∧
    ∀ e, e ∈ WaitRegistry.entries (ec_waits dying_event) → wait_object (wait_identity e) ≠ final_id f.
Proof.
  intros f. apply (event_finalization_completes 1 1 2 3 4).
  - apply dying_event_reached.
  - unfold dying_event. simpl. multiset_solver.
  - reflexivity.
Defined.
