(* ===== verification/Channel.v ===== *)
(** * Channels: bounded datagram queues between two endpoints

    Models [kernel/src/ipc/mod.rs].  A payload lives in a slot of the shared
    static [PAYLOAD_POOL]; a queue holds descriptors that name payload slots
    and own transferred handles; a pair of endpoints has one inbound queue
    per side; a [ChannelAuthority] is a table of generation-counted pairs.

    The locks of the source make each method atomic: a method is a
    computation over the structures it locks or borrows, the authority, the
    pool, the wait registry and the object registry.  The refusal counters of
    [debug::liveness] are diagnostics and are left out, and so are
    [debug_assert]s. *)

From stdpp Require Import base tactics numbers list.
From Stdlib Require Import ZArith Lia.
From S2P Require Import Prelude Abi Object HandleTable Wait.
Local Open Scope Z_scope.

(** The static [NEXT_CHANNEL_DOMAIN] is the state. *)
Definition mint_channel_domain {E} : M Z E Z :=
  domain ← get;
  next ← expect (next_nonzero 64 domain);
  put next;;
  mret domain.

Module ChannelError.
Inductive t : Type :=
| Capacity
| InvalidArgument
| InvalidEndpoint
| StalePair
| WouldBlock
| PayloadExhausted
| PeerClosed
| BufferTooSmall
| AccessDenied
| FinalizationMismatch.
End ChannelError.

Module ChannelCreateError.
Inductive t : Type :=
| Registry (error : ObjectRegistryError.t)
| Channel (error : ChannelError.t).
End ChannelCreateError.

Record ChannelEndpointKey : Type := { endpoint_object_id : ObjectId }.

Record ChannelPairKey : Type := { key_domain : Z; key_slot : nat; key_generation : Z }.

Module ChannelSide.
Inductive t : Type :=
| Zero
| One.

Global Instance t_eq_dec : EqDecision t.
Proof. solve_decision. Defined.

Definition index (self : t) : Z :=
  match self with Zero => 0 | One => 1 end.

Definition peer (self : t) : t :=
  match self with Zero => One | One => Zero end.
End ChannelSide.

(** An array of two, indexed by [side.index()]. *)
Record sides (A : Type) : Type := { side_zero : A; side_one : A }.
Arguments side_zero {A} _.
Arguments side_one {A} _.

Definition at_side {A} (side : ChannelSide.t) (xs : sides A) : A :=
  match side with ChannelSide.Zero => side_zero xs | ChannelSide.One => side_one xs end.

Definition set_side {A} (side : ChannelSide.t) (x : A) (xs : sides A) : sides A :=
  match side with
  | ChannelSide.Zero => {| side_zero := x; side_one := side_one xs |}
  | ChannelSide.One => {| side_zero := side_zero xs; side_one := x |}
  end.

Definition both_sides {A} (p : A → bool) (xs : sides A) : bool :=
  p (side_zero xs) && p (side_one xs).

Record ChannelSideLease : Type := { lease_pair : ChannelPairKey; lease_side : ChannelSide.t }.

Record EndpointRecord : Type := { endpoint_object : ObjectId; endpoint_lease : ChannelSideLease }.

(** * The payload pool *)

Definition PAYLOAD_POOL_SLOTS : nat := 16.
Definition PAYLOAD_BYTES : nat := Z.to_nat DW_CHANNEL_MAX_PAYLOAD.
Definition SMALL_PAYLOAD_BYTES : nat := 1024.
Definition SMALL_PAYLOAD_SLOTS : nat := 128.

Module PayloadClass.
Inductive t : Type :=
| Small
| Large.

Global Instance t_eq_dec : EqDecision t.
Proof. solve_decision. Defined.
End PayloadClass.

Record PayloadToken : Type := {
  token_class : PayloadClass.t;
  token_slot : Z;
  token_generation : Z;
}.

Global Instance PayloadToken_eq_dec : EqDecision PayloadToken.
Proof. solve_decision. Defined.

(** [PayloadSlot] and [SmallPayloadSlot], which differ in the length of
    their byte array. *)
Record PayloadSlot : Type := {
  payload_generation : Z;
  in_use : bool;
  payload_bytes : list Z;
}.

Definition EMPTY_PAYLOAD_SLOT : PayloadSlot :=
  {| payload_generation := 0; in_use := false; payload_bytes := replicate PAYLOAD_BYTES 0 |}.
Definition EMPTY_SMALL_PAYLOAD_SLOT : PayloadSlot :=
  {| payload_generation := 0; in_use := false; payload_bytes := replicate SMALL_PAYLOAD_BYTES 0 |}.

(** [dst[..n].copy_from_slice(&src[..n])]: [None] when either slice is out
    of range. *)
Definition copy_slice (n : nat) (src dst : list Z) : option (list Z) :=
  if ((n <=? length src) && (n <=? length dst))%nat
  then Some (take n src ++ drop n dst) else None.

Module PayloadPool.

Record t : Type := { slots : list PayloadSlot; small : list PayloadSlot }.

Definition new : t :=
  {| slots := replicate PAYLOAD_POOL_SLOTS EMPTY_PAYLOAD_SLOT;
     small := replicate SMALL_PAYLOAD_SLOTS EMPTY_SMALL_PAYLOAD_SLOT |}.

(** The array of a size class. *)
Definition class_slots (class : PayloadClass.t) (self : t) : list PayloadSlot :=
  match class with PayloadClass.Small => small self | PayloadClass.Large => slots self end.

Definition with_slot (class : PayloadClass.t) (index : nat) (slot : PayloadSlot) (self : t) : t :=
  match class with
  | PayloadClass.Small => {| slots := slots self; small := <[index := slot]> (small self) |}
  | PayloadClass.Large => {| slots := <[index := slot]> (slots self); small := small self |}
  end.

(** Filling the free slot [index], once its next generation is known. *)
Definition fill {E} (class : PayloadClass.t) (index : nat) (slot : PayloadSlot) (generation : Z)
    (payload : list Z) : M t E PayloadToken :=
  bytes ← expect (copy_slice (length payload) payload (payload_bytes slot));
  modify (with_slot class index
    {| payload_generation := generation; in_use := true; payload_bytes := bytes |});;
  token_slot ← expect (try_from 8 (Z.of_nat index));
  mret {| token_class := class; token_slot := token_slot; token_generation := generation |}.

Definition allocate_small {E} (payload : list Z) : M t E (option PayloadToken) :=
  self ← get;
  found ← loop (seq 0 (length (small self))) (λ index _,
    self ← get;
    slot ← expect (small self !! index);
    if in_use slot then mret (Continue tt)
    else
      match next_nonzero 32 (payload_generation slot) with
      | None => mret (Break None)
      | Some generation =>
          token ← fill PayloadClass.Small index slot generation payload;
          mret (Break (Some token))
      end) tt;
  match found with
  | Break result => mret result
  | Continue _ => mret None
  end.

Definition allocate_large (payload : list Z) : M t ChannelError.t (option PayloadToken) :=
  self ← get;
  found ← loop (seq 0 (length (slots self))) (λ index _,
    self ← get;
    slot ← expect (slots self !! index);
    if in_use slot then mret (Continue tt)
    else
      match next_nonzero 32 (payload_generation slot) with
      | None => mret (Continue tt)
      | Some generation =>
          token ← fill PayloadClass.Large index slot generation payload;
          mret (Break token)
      end) tt;
  match found with
  | Break token => mret (Some token)
  | Continue _ => fail ChannelError.PayloadExhausted
  end.

Definition allocate (payload : list Z) : M t ChannelError.t (option PayloadToken) :=
  if (length payload =? 0)%nat then mret None
  else if (length payload <=? SMALL_PAYLOAD_BYTES)%nat then
    token ← allocate_small payload;
    match token with
    | Some token => mret (Some token)
    | None => allocate_large payload
    end
  else allocate_large payload.

(** The slot a token names, checked against its generation. *)
Definition token_slot_at {E} (token : PayloadToken) : M t E PayloadSlot :=
  self ← get;
  slot ← expect (class_slots (token_class token) self !! Z.to_nat (token_slot token));
  assert_that (in_use slot && (payload_generation slot =? token_generation token));;
  mret slot.

Definition free_slot {E} (token : PayloadToken) (slot : PayloadSlot) : M t E unit :=
  modify (with_slot (token_class token) (Z.to_nat (token_slot token))
    {| payload_generation := payload_generation slot; in_use := false;
       payload_bytes := payload_bytes slot |}).

Definition copy_and_release {E} (token : PayloadToken) (byte_len : nat) (output : list Z)
    : M t E (list Z) :=
  slot ← token_slot_at token;
  output ← expect (copy_slice byte_len (payload_bytes slot) output);
  free_slot token slot;;
  mret output.

Definition release {E} (token : PayloadToken) : M t E unit :=
  slot ← token_slot_at token;
  free_slot token slot.

(** [if let Some(token) = payload { PAYLOAD_POOL.release(token) }] *)
Definition release_payload {E} (payload : option PayloadToken) : M t E unit :=
  match payload with Some token => release token | None => mret tt end.

End PayloadPool.

(** * One direction's queue *)

Record QueuedMessage : Type := {
  byte_len : Z;
  payload : option PayloadToken;
  transfers : HandleTransferBatch;
}.

Record ChannelMessageInfo : Type := { required_bytes : Z; required_handles : Z }.

Definition message_info {S E} (message : QueuedMessage) : M S E ChannelMessageInfo :=
  required_handles ← expect (try_from 32 (Z.of_nat (length (transfers message))));
  mret {| required_bytes := byte_len message; required_handles := required_handles |}.

(** The arrays have the queue's depth as their length. *)
Module ByteQueue.

Record t : Type := {
  descriptors : list (option QueuedMessage);
  head : nat;
  len : nat;
  send_reservations : list (option Z);
  next_send_generation : Z;
  receive_reservation : option Z;
  next_receive_generation : Z;
}.

Definition new (depth : nat) : t :=
  {| descriptors := replicate depth None; head := 0; len := 0;
     send_reservations := replicate depth None; next_send_generation := 0;
     receive_reservation := None; next_receive_generation := 0 |}.

Definition depth (self : t) : nat := length (descriptors self).

Definition is_empty (self : t) : bool := (len self =? 0)%nat.

Definition reserved_send_count (self : t) : nat := length (omap id (send_reservations self)).

Definition has_minimal_capacity (self : t) : bool :=
  (len self + reserved_send_count self <? depth self)%nat.

Definition can_admit (self : t) : bool := has_minimal_capacity self.

(** [self.descriptors[self.head].as_ref()] *)
Definition head_message {S E} (self : t) : M S E (option QueuedMessage) :=
  expect (descriptors self !! head self).

Definition set_send (reservations : list (option Z)) (next : Z) (self : t) : t :=
  {| descriptors := descriptors self; head := head self; len := len self;
     send_reservations := reservations; next_send_generation := next;
     receive_reservation := receive_reservation self;
     next_receive_generation := next_receive_generation self |}.

Definition set_receive (reservation : option Z) (next : Z) (self : t) : t :=
  {| descriptors := descriptors self; head := head self; len := len self;
     send_reservations := send_reservations self;
     next_send_generation := next_send_generation self;
     receive_reservation := reservation; next_receive_generation := next |}.

Definition set_ring (descriptors : list (option QueuedMessage)) (head len : nat) (self : t) : t :=
  {| descriptors := descriptors; head := head; len := len;
     send_reservations := send_reservations self;
     next_send_generation := next_send_generation self;
     receive_reservation := receive_reservation self;
     next_receive_generation := next_receive_generation self |}.

Definition reserve_send : M t ChannelError.t Z :=
  self ← get;
  if negb (can_admit self) then fail ChannelError.WouldBlock
  else
    generation ← ok_or (next_nonzero 64 (next_send_generation self)) ChannelError.Capacity;
    '(slot, _) ← ok_or (list_find (λ reservation, reservation = None) (send_reservations self))
                   ChannelError.WouldBlock;
    modify (set_send (<[slot := Some generation]> (send_reservations self)) generation);;
    mret generation.

Definition cancel_send (generation : Z) : M t ChannelError.t unit :=
  self ← get;
  '(slot, _) ← ok_or (list_find (λ reservation, reservation = Some generation)
                        (send_reservations self)) ChannelError.StalePair;
  modify (set_send (<[slot := None]> (send_reservations self)) (next_send_generation self)).

Definition commit_send {E} (generation : Z) (message : QueuedMessage) : M t E unit :=
  unwrap (cancel_send generation);;
  self ← get;
  assert_that (len self <? depth self)%nat;;
  let tail := ((head self + len self) mod depth self)%nat in
  modify (set_ring (<[tail := Some message]> (descriptors self)) (head self) (len self + 1)).

Definition reserve_head : M t ChannelError.t (Z * ChannelMessageInfo) :=
  self ← get;
  message ← head_message self;
  message ← ok_or message ChannelError.WouldBlock;
  info ← message_info message;
  if negb (bool_decide (receive_reservation self = None)) then fail ChannelError.WouldBlock
  else
    generation ← ok_or (next_nonzero 64 (next_receive_generation self)) ChannelError.Capacity;
    modify (set_receive (Some generation) generation);;
    mret (generation, info).

Definition cancel_receive (generation : Z) : M t ChannelError.t unit :=
  self ← get;
  if negb (bool_decide (receive_reservation self = Some generation))
  then fail ChannelError.StalePair
  else modify (set_receive None (next_receive_generation self)).

(** [self.descriptors[self.head].take()] with the advance of the head; the
    [len] is a [usize]. *)
Definition take_head {E} : M t E (option QueuedMessage) :=
  self ← get;
  message ← head_message self;
  match message with
  | None => mret None
  | Some message =>
      len ← expect (checked_sub (Z.of_nat (len self)) 1);
      modify (set_ring (<[head self := None]> (descriptors self))
                ((head self + 1) mod depth self) (Z.to_nat len));;
      mret (Some message)
  end.

Definition pop_reserved (generation : Z) : M t ChannelError.t QueuedMessage :=
  cancel_receive generation;;
  message ← take_head;
  ok_or message ChannelError.StalePair.

Definition pop {E} : M t E (option QueuedMessage) :=
  self ← get;
  assert_that (bool_decide (receive_reservation self = None));;
  take_head.

(** The [while let Some(message) = self.pop()] loop; each turn empties a
    descriptor, so it takes at most one turn more than there are descriptors. *)
Fixpoint drain_loop {E} (fuel : nat) (transfers : list (option HandleTransferBatch))
    (transfer_count : nat) : M (t * PayloadPool.t) E (list (option HandleTransferBatch)) :=
  match fuel with
  | O => panic
  | S fuel =>
      message ← on_fst pop;
      match message with
      | None => mret transfers
      | Some message =>
          on_snd (PayloadPool.release_payload (payload message));;
          if (length (Channel.transfers message) =? 0)%nat
          then drain_loop fuel transfers transfer_count
          else
            assert_that (transfer_count <? length transfers)%nat;;
            drain_loop fuel (<[transfer_count := Some (Channel.transfers message)]> transfers)
              (transfer_count + 1)
      end
  end.

Definition drain_transfers {E} : M (t * PayloadPool.t) E (list (option HandleTransferBatch)) :=
  self ← on_fst get;
  transfers ← drain_loop (S (depth self)) (replicate (depth self) None) 0;
  on_fst (modify (λ self,
    set_ring (descriptors self) 0 (len self)
      (set_send (replicate (length (send_reservations self)) None)
         (next_send_generation self) self)));;
  mret transfers.

End ByteQueue.

(** * The authority *)

Record PairRecord : Type := {
  endpoints : sides (option EndpointRecord);
  inbound : sides ByteQueue.t;
}.

Definition new_pair (depth : nat) : PairRecord :=
  {| endpoints := {| side_zero := None; side_one := None |};
     inbound := {| side_zero := ByteQueue.new depth; side_one := ByteQueue.new depth |} |}.

Record PairSlot : Type := { pair_generation : Z; pair_record : option PairRecord }.

Record ChannelPayloadBinding : Type := { channel_creation : CreationRef }.
Record ChannelPayloadCleanup : Type := { channel_cleanup_release : FinalRelease }.

Global Instance ChannelPayloadBinding_proof : PayloadBindingProof ChannelPayloadBinding :=
  channel_creation.
Global Instance ChannelPayloadCleanup_proof : PayloadCleanupProof ChannelPayloadCleanup :=
  channel_cleanup_release.

Record ChannelFinalization : Type := {
  channel_final_release : FinalRelease;
  finalization_wakes : WakeBatch.t;
  drained_transfers : list (option HandleTransferBatch);
}.

Record ChannelSendReservation : Type := {
  send_pair : ChannelPairKey;
  send_side : ChannelSide.t;
  send_generation : Z;
  send_byte_len : Z;
  send_payload : option PayloadToken;
}.

Record ChannelReceivedMessage : Type := {
  received_byte_len : nat;
  received_transfers : HandleTransferBatch;
  received_wakes : WakeBatch.t;
}.

Record ChannelCompletion : Type := {
  completion_wakes : WakeBatch.t;
  completion_releases : list (option FinalRelease);
}.

Record ChannelReceiveReservation : Type := {
  receive_pair : ChannelPairKey;
  receive_side : ChannelSide.t;
  receive_generation : Z;
  receive_info : ChannelMessageInfo;
}.

Module ChannelWaitOutcome.
Inductive t : Type :=
| Ready (observed : DwSignals) (pin : InternalRef)
| Registered (registration : WaitRegistration).
End ChannelWaitOutcome.

(** [for side in [ChannelSide::Zero, ChannelSide::One]] *)
Definition ALL_SIDES : list ChannelSide.t := [ChannelSide.Zero; ChannelSide.One].

Module ChannelAuthority.

Record t : Type := { domain : Z; pairs : list PairSlot }.

Definition new (pairs depth : nat) {E} : M Z E t :=
  assert_that (0 <? pairs)%nat;;
  assert_that (0 <? depth)%nat;;
  domain ← mint_channel_domain;
  mret {| domain := domain;
          pairs := replicate pairs {| pair_generation := 0; pair_record := None |} |}.

Definition with_slot (index : nat) (slot : PairSlot) (self : t) : t :=
  {| domain := domain self; pairs := <[index := slot]> (pairs self) |}.

Definition set_pair {E} (index : nat) (pair : option PairRecord) : M t E unit :=
  self ← get;
  slot ← expect (pairs self !! index);
  modify (with_slot index {| pair_generation := pair_generation slot; pair_record := pair |}).

(** A call on one queue of the pair in slot [index]. *)
Definition on_queue {E A} (index : nat) (side : ChannelSide.t) (m : M ByteQueue.t E A) : M t E A :=
  λ self,
    match pairs self !! index with
    | Some {| pair_generation := generation; pair_record := Some record |} =>
        let put_back queue := with_slot index
          {| pair_generation := generation;
             pair_record := Some {| endpoints := endpoints record;
                                    inbound := set_side side queue (inbound record) |} |} self in
        match m (at_side side (inbound record)) with
        | Ret queue a => Ret (put_back queue) a
        | Fail queue e => Fail (put_back queue) e
        | Panic => Panic
        end
    | _ => Panic
    end.

(** The depth of the queues is a parameter of the type. *)
Definition reserve_pair (depth : nat) : M t ChannelError.t ChannelPairKey :=
  self ← get;
  found ← loop (seq 0 (length (pairs self))) (λ index _,
    self ← get;
    slot ← expect (pairs self !! index);
    match pair_record slot with
    | Some _ => mret (Continue tt)
    | None =>
        match next_nonzero 32 (pair_generation slot) with
        | None => mret (Continue tt)
        | Some generation =>
            slot_index ← ok_or (try_from 16 (Z.of_nat index)) ChannelError.Capacity;
            modify (with_slot index
              {| pair_generation := generation; pair_record := Some (new_pair depth) |});;
            mret (Break {| key_domain := domain self; key_slot := Z.to_nat slot_index;
                           key_generation := generation |})
        end
    end) tt;
  match found with
  | Break key => mret key
  | Continue _ => fail ChannelError.Capacity
  end.

Definition is_none {A} (o : option A) : bool := match o with None => true | Some _ => false end.

Definition cancel_empty_pair {E} (key : ChannelPairKey) : M t E unit :=
  self ← get;
  slot ← expect (pairs self !! key_slot key);
  assert_that (key_domain key =? domain self);;
  assert_that (pair_generation slot =? key_generation key);;
  pair ← expect (pair_record slot);
  assert_that (both_sides is_none (endpoints pair));;
  assert_that (both_sides ByteQueue.is_empty (inbound pair));;
  set_pair (key_slot key) None.

Definition bind_pair (key : ChannelPairKey) (first second : CreationRef)
    : M t ChannelError.t (ChannelPayloadBinding * ChannelPayloadBinding) :=
  if negb (creation_type first =? DW_OBJECT_TYPE_CHANNEL)
     || negb (creation_type second =? DW_OBJECT_TYPE_CHANNEL)
  then fail ChannelError.InvalidEndpoint
  else
    self ← get;
    slot ← ok_or (pairs self !! key_slot key) ChannelError.StalePair;
    if negb (key_domain key =? domain self) || negb (pair_generation slot =? key_generation key)
    then fail ChannelError.StalePair
    else
      pair ← ok_or (pair_record slot) ChannelError.StalePair;
      if negb (both_sides is_none (endpoints pair)) then fail ChannelError.StalePair
      else
        let endpoint side reference :=
          Some {| endpoint_object := creation_id reference;
                  endpoint_lease := {| lease_pair := key; lease_side := side |} |} in
        set_pair (key_slot key)
          (Some {| endpoints := {| side_zero := endpoint ChannelSide.Zero first;
                                   side_one := endpoint ChannelSide.One second |};
                   inbound := inbound pair |});;
        mret ({| channel_creation := first |}, {| channel_creation := second |}).

Definition create_pair (depth : nat)
    : M (t * ObjectRegistry.t) ChannelCreateError.t
        ((ChannelEndpointKey * ChannelEndpointKey) * (HandleRef * HandleRef)) :=
  pair ← on_fst (map_err ChannelCreateError.Channel (reserve_pair depth));
  first ← on_snd (try (ObjectRegistry.create DW_OBJECT_TYPE_CHANNEL));
  match first with
  | Err error =>
      on_fst (cancel_empty_pair pair);;
      fail (ChannelCreateError.Registry error)
  | Ok first =>
      second ← on_snd (try (ObjectRegistry.create DW_OBJECT_TYPE_CHANNEL));
      match second with
      | Err error =>
          on_snd (unwrap (ObjectRegistry.cancel_creation first));;
          on_fst (cancel_empty_pair pair);;
          fail (ChannelCreateError.Registry error)
      | Ok second =>
          let first_key := {| endpoint_object_id := creation_id first |} in
          let second_key := {| endpoint_object_id := creation_id second |} in
          '(first_binding, second_binding) ← on_fst (unwrap (bind_pair pair first second));
          first_bound ← on_snd (unwrap (ObjectRegistry.finish_payload_binding first_binding));
          second_bound ← on_snd (unwrap (ObjectRegistry.finish_payload_binding second_binding));
          first_handle ← on_snd (unwrap (ObjectRegistry.bound_into_handle first_bound));
          second_handle ← on_snd (unwrap (ObjectRegistry.bound_into_handle second_bound));
          mret ((first_key, second_key), (first_handle, second_handle))
      end
  end.

(** ** Locating an endpoint *)

(** The lease of [endpoint] names the place it was found in. *)
Definition lease_matches (self : t) (index : nat) (slot : PairSlot) (side : ChannelSide.t)
    (endpoint : EndpointRecord) : bool :=
  let lease := endpoint_lease endpoint in
  (key_domain (lease_pair lease) =? domain self)
  && (key_slot (lease_pair lease) =? index)%nat
  && (key_generation (lease_pair lease) =? pair_generation slot)
  && bool_decide (lease_side lease = side).

(** The first side of the pair whose endpoint's object is [object]. *)
Definition side_of (object : ObjectId) (pair : PairRecord)
    : option (ChannelSide.t * EndpointRecord) :=
  let candidate side :=
    endpoint ← at_side side (endpoints pair);
    if bool_decide (endpoint_object endpoint = object) then Some (side, endpoint) else None in
  match candidate ChannelSide.Zero with
  | Some found => Some found
  | None => candidate ChannelSide.One
  end.

Fixpoint locate_from (self : t) (object : ObjectId) (index : nat) (slots : list PairSlot)
    : Result (nat * ChannelSide.t) ChannelError.t :=
  match slots with
  | [] => Err ChannelError.InvalidEndpoint
  | slot :: slots' =>
      match pair_record slot ≫= side_of object with
      | Some (side, endpoint) =>
          if lease_matches self index slot side endpoint
          then Ok (index, side) else Err ChannelError.StalePair
      | None => locate_from self object (S index) slots'
      end
  end.

Definition locate (self : t) (key : ChannelEndpointKey)
    : Result (nat * ChannelSide.t) ChannelError.t :=
  locate_from self (endpoint_object_id key) 0 (pairs self).

(** [slots[slot_index].pair.as_ref().ok_or(StalePair)?] *)
Definition pair_at {S} (self : t) (index : nat) : M S ChannelError.t PairRecord :=
  slot ← expect (pairs self !! index);
  ok_or (pair_record slot) ChannelError.StalePair.

(** ** Signals *)

Definition signals_for_pair (pair : PairRecord) (side : ChannelSide.t)
    : Result DwSignals ChannelError.t :=
  if is_none (at_side side (endpoints pair)) then Err ChannelError.InvalidEndpoint
  else
    let peer := ChannelSide.peer side in
    let peer_open := negb (is_none (at_side peer (endpoints pair))) in
    let signals := 0 in
    let signals := if negb (ByteQueue.is_empty (at_side side (inbound pair)))
                   then Z.lor signals DW_SIGNAL_READABLE else signals in
    let signals := if peer_open && ByteQueue.has_minimal_capacity (at_side peer (inbound pair))
                   then Z.lor signals DW_SIGNAL_WRITABLE else signals in
    let signals := if negb peer_open then Z.lor signals DW_SIGNAL_PEER_CLOSED else signals in
    Ok signals.

Definition current_signals (key : ChannelEndpointKey) : M t ChannelError.t DwSignals :=
  self ← get;
  '(slot_index, side) ← lift (locate self key);
  pair ← pair_at self slot_index;
  lift (signals_for_pair pair side).

Definition collect_changed (pair : PairRecord) (first second : ChannelSide.t)
    : M WaitRegistry.t ChannelError.t WakeBatch.t :=
  waits ← get;
  for_each [first; second] (λ side wakes,
    match at_side side (endpoints pair) with
    | None => mret wakes
    | Some endpoint =>
        observed ← lift (signals_for_pair pair side);
        ready ← WaitRegistry.take_ready (endpoint_object endpoint) observed;
        WakeBatch.append wakes ready
    end) (WakeBatch.empty (length (WaitRegistry.slots waits))).

Definition peer_object (endpoint : ChannelEndpointKey) : M t ChannelError.t ObjectId :=
  self ← get;
  '(slot_index, side) ← lift (locate self endpoint);
  pair ← pair_at self slot_index;
  ok_or (endpoint_object <$> at_side (ChannelSide.peer side) (endpoints pair))
    ChannelError.PeerClosed.

(** ** Queue cycles

    [pending] and [visited] are arrays of side masks, one per pair. *)

Definition side_bit (side : ChannelSide.t) : Z := Z.shiftl 1 (ChannelSide.index side).

Record marks : Type := { pending : list Z; visited : list Z }.

Definition set_pending (slot : nat) (mask : Z) (m : marks) : marks :=
  {| pending := <[slot := mask]> (pending m); visited := visited m |}.
Definition set_visited (slot : nat) (mask : Z) (m : marks) : marks :=
  {| pending := pending m; visited := <[slot := mask]> (visited m) |}.

(** [self.locate(slots, object).map_err(|_| StalePair)?] *)
Definition locate_transferred (self : t) (object : ObjectId)
    : Result (nat * ChannelSide.t) ChannelError.t :=
  match locate self {| endpoint_object_id := object |} with
  | Ok found => Ok found
  | Err _ => Err ChannelError.StalePair
  end.

(** The endpoints to transfer become pending. *)
Definition mark_transferred (self : t) (destination : ObjectId) (object : ObjectId)
    : M marks ChannelError.t (flow unit bool) :=
  if bool_decide (object = destination) then mret (Break true)
  else
    '(slot, side) ← lift (locate_transferred self object);
    m ← get;
    mask ← expect (pending m !! slot);
    modify (set_pending slot (Z.lor mask (side_bit side)));;
    mret (Continue tt).

(** The next pending endpoint that was not visited, which becomes visited. *)
Definition next_pending (pairs : nat) : M marks ChannelError.t (option (nat * ChannelSide.t)) :=
  found ← loop (slot ← seq 0 pairs; (λ side, (slot, side)) <$> ALL_SIDES) (λ place _,
    let '(slot, side) := place in
    m ← get;
    pending_mask ← expect (pending m !! slot);
    if Z.land pending_mask (side_bit side) =? 0 then mret (Continue tt)
    else
      modify (set_pending slot (Z.land pending_mask (unot 8 (side_bit side))));;
      visited_mask ← expect (visited m !! slot);
      if negb (Z.land visited_mask (side_bit side) =? 0) then mret (Continue tt)
      else
        modify (set_visited slot (Z.lor visited_mask (side_bit side)));;
        mret (Break (slot, side))) tt;
  mret match found with Break place => Some place | Continue _ => None end.

(** The channel endpoints in the messages queued for an endpoint. *)
Definition queued_channels (queue : ByteQueue.t) : list ObjectId :=
  message ← omap id (ByteQueue.descriptors queue);
  batch_objects_of_type (transfers message) DW_OBJECT_TYPE_CHANNEL.

Definition mark_queued (self : t) (destination : ObjectId) (object : ObjectId)
    : M marks ChannelError.t (flow unit bool) :=
  if bool_decide (object = destination) then mret (Break true)
  else
    '(slot, side) ← lift (locate_transferred self object);
    m ← get;
    visited_mask ← expect (visited m !! slot);
    if negb (Z.land visited_mask (side_bit side) =? 0) then mret (Continue tt)
    else
      mask ← expect (pending m !! slot);
      modify (set_pending slot (Z.lor mask (side_bit side)));;
      mret (Continue tt).

(** The [loop]: each turn visits one more of the endpoints, of which there
    are two per pair. *)
Fixpoint search (fuel : nat) (self : t) (destination : ObjectId) : M marks ChannelError.t bool :=
  match fuel with
  | O => panic
  | S fuel =>
      next ← next_pending (length (pairs self));
      match next with
      | None => mret false
      | Some (slot, side) =>
          pair ← pair_at self slot;
          endpoint ← ok_or (at_side side (endpoints pair)) ChannelError.StalePair;
          if bool_decide (endpoint_object endpoint = destination) then mret true
          else
            found ← loop (queued_channels (at_side side (inbound pair)))
                      (λ object _, mark_queued self destination object) tt;
            match found with
            | Break result => mret result
            | Continue _ => search fuel self destination
            end
      end
  end.

Definition cycle_search (self : t) (destination : ObjectId) (transferred_channels : list ObjectId)
    : M marks ChannelError.t bool :=
  found ← loop transferred_channels (λ object _, mark_transferred self destination object) tt;
  match found with
  | Break result => mret result
  | Continue _ => search (2 * length (pairs self) + 1) self destination
  end.

Definition transfer_closes_queue_cycle {S} (self : t) (destination : ObjectId)
    (transferred_channels : list ObjectId) : M S ChannelError.t bool := λ s,
  let unmarked := replicate (length (pairs self)) 0 in
  match cycle_search self destination transferred_channels
          {| pending := unmarked; visited := unmarked |} with
  | Ret _ found => Ret s found
  | Fail _ error => Fail s error
  | Panic => Panic
  end.

Definition transfer_would_close_queue_cycle (endpoint : ChannelEndpointKey)
    (transferred_channels : list ObjectId) : M t ChannelError.t bool :=
  self ← get;
  '(slot, side) ← lift (locate self endpoint);
  pair ← pair_at self slot;
  destination ← ok_or (endpoint_object <$> at_side (ChannelSide.peer side) (endpoints pair))
                  ChannelError.PeerClosed;
  transfer_closes_queue_cycle self destination transferred_channels.

(** ** Sending *)

Definition reserve_send (endpoint : ChannelEndpointKey) (payload : list Z)
    : M (t * PayloadPool.t) ChannelError.t ChannelSendReservation :=
  if (Z.to_nat DW_CHANNEL_MAX_PAYLOAD <? length payload)%nat then fail ChannelError.InvalidArgument
  else
    self ← on_fst get;
    '(slot_index, side) ← lift (locate self endpoint);
    slot ← expect (pairs self !! slot_index);
    pair ← ok_or (pair_record slot) ChannelError.StalePair;
    let peer := ChannelSide.peer side in
    if is_none (at_side peer (endpoints pair)) then fail ChannelError.PeerClosed
    else
      generation ← on_fst (on_queue slot_index peer ByteQueue.reserve_send);
      payload_token ← on_snd (try (PayloadPool.allocate payload));
      match payload_token with
      | Err error =>
          on_fst (unwrap (on_queue slot_index peer (ByteQueue.cancel_send generation)));;
          fail error
      | Ok payload_token =>
          key_slot ← ok_or (try_from 16 (Z.of_nat slot_index)) ChannelError.Capacity;
          byte_len ← expect (try_from 32 (Z.of_nat (length payload)));
          mret {| send_pair := {| key_domain := domain self; key_slot := Z.to_nat key_slot;
                                  key_generation := pair_generation slot |};
                  send_side := side; send_generation := generation;
                  send_byte_len := byte_len; send_payload := payload_token |}
      end.

Definition cancel_send (reservation : ChannelSendReservation)
    : M (t * PayloadPool.t) ChannelError.t unit :=
  let pair_key := send_pair reservation in
  self ← on_fst get;
  result ←
    (if negb (key_domain pair_key =? domain self) then mret (Err ChannelError.StalePair)
     else
       match pairs self !! key_slot pair_key with
       | Some slot =>
           if negb (pair_generation slot =? key_generation pair_key)
           then mret (Err ChannelError.StalePair)
           else
             match pair_record slot with
             | Some _ =>
                 cancelled ← on_fst (try (on_queue (key_slot pair_key)
                   (ChannelSide.peer (send_side reservation))
                   (ByteQueue.cancel_send (send_generation reservation))));
                 mret match cancelled with Ok _ => Ok tt | Err _ => Err ChannelError.StalePair end
             | None => mret (Err ChannelError.StalePair)
             end
       | None => mret (Err ChannelError.StalePair)
       end);
  on_snd (PayloadPool.release_payload (send_payload reservation));;
  lift result.

(** Every error path of [commit_send] gives the payload slot up and the
    transfers back; those that found the pair also drop the reservation. *)
Definition refuse_send {A} (reservation : ChannelSendReservation) (transfers : HandleTransferBatch)
    (error : ChannelError.t)
    : M (t * PayloadPool.t * WaitRegistry.t) (ChannelError.t * HandleTransferBatch) A :=
  on_fst (on_snd (PayloadPool.release_payload (send_payload reservation)));;
  fail (error, transfers).

Definition drop_reservation {E} (reservation : ChannelSendReservation)
    : M (t * PayloadPool.t * WaitRegistry.t) E unit :=
  _ ← on_fst (on_fst (try (on_queue (key_slot (send_pair reservation))
        (ChannelSide.peer (send_side reservation))
        (ByteQueue.cancel_send (send_generation reservation)))));
  mret tt.

Definition commit_send (reservation : ChannelSendReservation) (transfers : HandleTransferBatch)
    : M (t * PayloadPool.t * WaitRegistry.t) (ChannelError.t * HandleTransferBatch) WakeBatch.t :=
  let pair_key := send_pair reservation in
  let side := send_side reservation in
  let slot_index := key_slot pair_key in
  self ← on_fst (on_fst get);
  if negb (key_domain pair_key =? domain self)
  then refuse_send reservation transfers ChannelError.StalePair
  else
    match pairs self !! slot_index with
    | None => refuse_send reservation transfers ChannelError.StalePair
    | Some slot =>
        if negb (pair_generation slot =? key_generation pair_key)
        then refuse_send reservation transfers ChannelError.StalePair
        else
          match pair_record slot with
          | None => refuse_send reservation transfers ChannelError.StalePair
          | Some record =>
              if is_none (at_side side (endpoints record)) then
                drop_reservation reservation;;
                refuse_send reservation transfers ChannelError.InvalidEndpoint
              else
                let peer := ChannelSide.peer side in
                match at_side peer (endpoints record) with
                | None =>
                    drop_reservation reservation;;
                    refuse_send reservation transfers ChannelError.PeerClosed
                | Some peer_endpoint =>
                    cycle ← try (transfer_closes_queue_cycle self (endpoint_object peer_endpoint)
                                   (batch_objects_of_type transfers DW_OBJECT_TYPE_CHANNEL));
                    match cycle with
                    | Ok true =>
                        drop_reservation reservation;;
                        refuse_send reservation transfers ChannelError.InvalidArgument
                    | Err error =>
                        drop_reservation reservation;;
                        refuse_send reservation transfers error
                    | Ok false =>
                        on_fst (on_fst (on_queue slot_index peer
                          (ByteQueue.commit_send (send_generation reservation)
                             {| byte_len := send_byte_len reservation;
                                payload := send_payload reservation;
                                Channel.transfers := transfers |})));;
                        self ← on_fst (on_fst get);
                        pair ← unwrap (pair_at self slot_index);
                        on_snd (unwrap (collect_changed pair peer side))
                    end
                end
          end
    end.

Definition send (endpoint : ChannelEndpointKey) (payload : list Z)
    : M (t * PayloadPool.t * WaitRegistry.t) ChannelError.t WakeBatch.t :=
  reservation ← on_fst (reserve_send endpoint payload);
  map_err fst (commit_send reservation []).

(** ** Receiving *)

Definition peek_receive (endpoint : ChannelEndpointKey) : M t ChannelError.t ChannelMessageInfo :=
  self ← get;
  '(slot_index, side) ← lift (locate self endpoint);
  pair ← pair_at self slot_index;
  message ← ByteQueue.head_message (at_side side (inbound pair));
  match message with
  | Some message => message_info message
  | None =>
      fail (if is_none (at_side (ChannelSide.peer side) (endpoints pair))
            then ChannelError.PeerClosed else ChannelError.WouldBlock)
  end.

Definition reserve_receive (endpoint : ChannelEndpointKey)
    : M t ChannelError.t ChannelReceiveReservation :=
  self ← get;
  '(slot_index, side) ← lift (locate self endpoint);
  slot ← expect (pairs self !! slot_index);
  pair ← ok_or (pair_record slot) ChannelError.StalePair;
  if ByteQueue.is_empty (at_side side (inbound pair)) then
    fail (if is_none (at_side (ChannelSide.peer side) (endpoints pair))
          then ChannelError.PeerClosed else ChannelError.WouldBlock)
  else
    '(generation, info) ← on_queue slot_index side ByteQueue.reserve_head;
    key_slot ← ok_or (try_from 16 (Z.of_nat slot_index)) ChannelError.Capacity;
    mret {| receive_pair := {| key_domain := domain self; key_slot := Z.to_nat key_slot;
                               key_generation := pair_generation slot |};
            receive_side := side; receive_generation := generation; receive_info := info |}.

(** The pair a receive reservation was made on. *)
Definition reserved_pair (self : t) (pair_key : ChannelPairKey) : Result PairRecord ChannelError.t :=
  if negb (key_domain pair_key =? domain self) then Err ChannelError.StalePair
  else
    match pairs self !! key_slot pair_key with
    | None => Err ChannelError.StalePair
    | Some slot =>
        if negb (pair_generation slot =? key_generation pair_key) then Err ChannelError.StalePair
        else
          match pair_record slot with
          | None => Err ChannelError.StalePair
          | Some record => Ok record
          end
    end.

Definition cancel_receive (reservation : ChannelReceiveReservation) : M t ChannelError.t unit :=
  self ← get;
  _ ← lift (reserved_pair self (receive_pair reservation));
  on_queue (key_slot (receive_pair reservation)) (receive_side reservation)
    (ByteQueue.cancel_receive (receive_generation reservation)).

Definition receive_reserved (reservation : ChannelReceiveReservation) (output : list Z)
    : M (t * PayloadPool.t * WaitRegistry.t) ChannelError.t (ChannelReceivedMessage * list Z) :=
  let slot_index := key_slot (receive_pair reservation) in
  let side := receive_side reservation in
  self ← on_fst (on_fst get);
  pair ← lift (reserved_pair self (receive_pair reservation));
  if is_none (at_side side (endpoints pair)) then fail ChannelError.InvalidEndpoint
  else
    let required := Z.to_nat (required_bytes (receive_info reservation)) in
    if (length output <? required)%nat then
      on_fst (on_fst (on_queue slot_index side
        (ByteQueue.cancel_receive (receive_generation reservation))));;
      fail ChannelError.BufferTooSmall
    else
      message ← on_fst (on_fst (on_queue slot_index side
                  (ByteQueue.pop_reserved (receive_generation reservation))));
      output ← on_fst (on_snd
        match payload message with
        | Some token => PayloadPool.copy_and_release token required output
        | None => mret output
        end);
      self ← on_fst (on_fst get);
      pair ← unwrap (pair_at self slot_index);
      wakes ← on_snd (collect_changed pair (ChannelSide.peer side) side);
      mret ({| received_byte_len := required; received_transfers := transfers message;
               received_wakes := wakes |}, output).

Definition receive_into (endpoint : ChannelEndpointKey) (output : list Z)
    : M (t * PayloadPool.t * WaitRegistry.t) ChannelError.t ((nat * WakeBatch.t) * list Z) :=
  reservation ← on_fst (on_fst (reserve_receive endpoint));
  let info := receive_info reservation in
  if negb (required_handles info =? 0) then
    on_fst (on_fst (cancel_receive reservation));;
    fail ChannelError.InvalidArgument
  else if (length output <? Z.to_nat (required_bytes info))%nat then
    on_fst (on_fst (cancel_receive reservation));;
    fail ChannelError.BufferTooSmall
  else
    '(received, output) ← receive_reserved reservation output;
    mret ((received_byte_len received, received_wakes received), output).

(** ** Waiting *)

Definition wait_error (error : WaitError.t) : ChannelError.t :=
  match error with
  | WaitError.Capacity => ChannelError.Capacity
  | WaitError.AccessDenied => ChannelError.AccessDenied
  | WaitError.InvalidSignals => ChannelError.InvalidArgument
  | _ => ChannelError.StalePair
  end.

Definition register_wait (target : ResolvedHandle.t) (desired : DwSignals) (item_index : Z)
    (thread : ThreadKey) (wake : BlockWakeKey)
    : M (t * WaitRegistry.t) (ChannelError.t * InternalRef) ChannelWaitOutcome.t :=
  let pin := ResolvedHandle.into_internal target in
  if negb (ResolvedHandle.object_type target =? DW_OBJECT_TYPE_CHANNEL)
  then fail (ChannelError.InvalidEndpoint, pin)
  else if negb (Z.land (ResolvedHandle.rights target) DW_RIGHT_WAIT =? DW_RIGHT_WAIT)
  then fail (ChannelError.AccessDenied, pin)
  else if (desired =? 0)
          || negb (dw_signals_are_compatible (ResolvedHandle.object_type target) desired)
  then fail (ChannelError.InvalidArgument, pin)
  else
    let with_pin {A} (m : M (t * WaitRegistry.t) ChannelError.t A) :=
      map_err (λ error, (error, pin)) m in
    self ← on_fst get;
    '(slot_index, side) ← with_pin
      (lift (locate self {| endpoint_object_id := ResolvedHandle.object_id target |}));
    pair ← with_pin (pair_at self slot_index);
    observed ← with_pin (lift (signals_for_pair pair side));
    if negb (Z.land observed desired =? 0) then mret (ChannelWaitOutcome.Ready observed pin)
    else
      registration ← on_snd (map_err (λ failure, (wait_error failure.1, failure.2))
        (WaitRegistry.register pin desired item_index thread wake));
      mret (ChannelWaitOutcome.Registered registration).

(** ** Finalization *)

(** [drain_transfers] on one queue of the pair in slot [index]. *)
Definition drain_queue {E} (index : nat) (side : ChannelSide.t)
    : M (t * PayloadPool.t) E (list (option HandleTransferBatch)) := λ st,
  match pairs st.1 !! index with
  | Some {| pair_generation := generation; pair_record := Some record |} =>
      match ByteQueue.drain_transfers (at_side side (inbound record), st.2) with
      | Ret (queue, pool) drained =>
          Ret (with_slot index
                 {| pair_generation := generation;
                    pair_record := Some {| endpoints := endpoints record;
                                           inbound := set_side side queue (inbound record) |} |}
                 st.1, pool) drained
      | Fail _ e => Fail st e
      | Panic => Panic
      end
  | _ => Panic
  end.

Definition take_finalization (final_release : FinalRelease)
    : M (t * PayloadPool.t * WaitRegistry.t) (ChannelError.t * FinalRelease) ChannelFinalization :=
  if negb (final_type final_release =? DW_OBJECT_TYPE_CHANNEL)
  then fail (ChannelError.FinalizationMismatch, final_release)
  else
    self ← on_fst (on_fst get);
    '(slot_index, side) ← map_err (λ error, (error, final_release))
      (lift (locate self {| endpoint_object_id := final_id final_release |}));
    slot ← expect (pairs self !! slot_index);
    pair ← ok_or (pair_record slot) (ChannelError.StalePair, final_release);
    endpoint ← expect (at_side side (endpoints pair));
    on_fst (on_fst (set_pair slot_index
      (Some {| endpoints := set_side side None (endpoints pair); inbound := inbound pair |})));;
    if negb (lease_matches self slot_index slot side endpoint)
    then fail (ChannelError.StalePair, final_release)
    else
      drained_transfers ← on_fst (drain_queue slot_index side);
      self ← on_fst (on_fst get);
      pair ← unwrap (pair_at self slot_index);
      waits ← on_snd get;
      let wakes := WakeBatch.empty (length (WaitRegistry.slots waits)) in
      let peer := ChannelSide.peer side in
      wakes ← match at_side peer (endpoints pair) with
              | Some peer_endpoint =>
                  observed ← unwrap (lift (signals_for_pair pair peer));
                  ready ← on_snd (WaitRegistry.take_ready (endpoint_object peer_endpoint) observed);
                  WakeBatch.append wakes ready
              | None => mret wakes
              end;
      (if both_sides is_none (endpoints pair) then on_fst (on_fst (set_pair slot_index None))
       else mret tt);;
      mret {| channel_final_release := final_release; finalization_wakes := wakes;
              drained_transfers := drained_transfers |}.

End ChannelAuthority.

(** The array of final releases has the registry's capacity. *)
Definition complete_channel_finalization {E} (finalization : ChannelFinalization)
    : M ObjectRegistry.t E ChannelCompletion :=
  unwrap (ObjectRegistry.complete_payload_finalization
    {| channel_cleanup_release := channel_final_release finalization |});;
  registry ← get;
  let objects := length (ObjectRegistry.slots registry) in
  releases ← for_each (omap id (drained_transfers finalization)) (λ transfers releases,
    released ← release transfers;
    for_each (omap id released) (λ release releases,
      assert_that (length releases <? objects)%nat;;
      mret (releases ++ [release])) releases) [];
  mret {| completion_wakes := finalization_wakes finalization;
          completion_releases := (Some <$> releases) ++ replicate (objects - length releases) None |}.
