(* ===== verification/ChannelQueue.v ===== *)
(** * Facts about the payload pool

    Who owns the pool's slots: a token owns the slot it names while the slot
    is in use at the token's generation.  Allocation adds one owner,
    releasing removes one, and neither touches the bytes of the others. *)

From stdpp Require Import base tactics numbers list sets.
From Stdlib Require Import ZArith Lia.
From S2P Require Import Prelude Abi Object HandleTable Wait Channel.
Import PayloadPool.
Local Open Scope Z_scope.

Definition class_bytes (class : PayloadClass.t) : nat :=
  match class with
  | PayloadClass.Small => SMALL_PAYLOAD_BYTES
  | PayloadClass.Large => PAYLOAD_BYTES
  end.

Record pool_wf (P : t) : Prop := {
  pool_slots_wf class i s : class_slots class P !! i = Some s →
    is_uint 32 (payload_generation s) ∧ length (payload_bytes s) = class_bytes class;
  pool_index_fits class : (length (class_slots class P) ≤ 256)%nat;
}.

Definition slot_of (P : t) (token : PayloadToken) : option PayloadSlot :=
  class_slots (token_class token) P !! Z.to_nat (token_slot token).

Definition owned (P : t) (token : PayloadToken) : Prop :=
  0 ≤ token_slot token ∧ ∃ s, slot_of P token = Some s ∧ in_use s = true ∧
    payload_generation s = token_generation token.

(** The tokens outstanding are exactly [tokens], each once. *)
Definition pool_owns (P : t) (tokens : list PayloadToken) : Prop :=
  NoDup tokens ∧ ∀ token, owned P token ↔ token ∈ tokens.

Definition bytes_of (P : t) (token : PayloadToken) : list Z :=
  match slot_of P token with Some s => payload_bytes s | None => [] end.

Lemma pool_owns_perm P tokens tokens' :
  tokens ≡ₚ tokens' → pool_owns P tokens → pool_owns P tokens'.
Proof. intros Hp [Hnd Ho]. split; [by rewrite <- Hp|]. intros token. by rewrite Ho, Hp. Qed.

Lemma class_slots_with_slot class i s P class' :
  class_slots class' (with_slot class i s P) =
  if decide (class' = class) then <[i := s]> (class_slots class P) else class_slots class' P.
Proof. by destruct class, class'. Qed.

(** Two tokens of one place agree on the slot. *)
Lemma owned_place_inj P token token' :
  owned P token → owned P token' → token_class token = token_class token' →
  token_slot token = token_slot token' → token = token'.
Proof.
  intros (_ & s & Hs & _ & Hg) (_ & s' & Hs' & _ & Hg') Hc Hi.
  unfold slot_of in *. rewrite Hc, Hi, Hs' in Hs. injection Hs as ->.
  destruct token, token'; simpl in *; congruence.
Qed.

Lemma slot_of_with_slot class i s P token : (i < length (class_slots class P))%nat →
  slot_of (with_slot class i s P) token =
  if decide (token_class token = class ∧ Z.to_nat (token_slot token) = i)
  then Some s else slot_of P token.
Proof.
  intros Hi. unfold slot_of. rewrite class_slots_with_slot.
  destruct (decide (token_class token = class)) as [->|Hne].
  - destruct (decide (Z.to_nat (token_slot token) = i)) as [<-|Hne].
    + rewrite list_lookup_insert_eq by done. by rewrite decide_True.
    + rewrite list_lookup_insert_ne by done. by rewrite decide_False by tauto.
  - by rewrite decide_False by tauto.
Qed.

Lemma pool_wf_with_slot class i s P :
  pool_wf P → is_uint 32 (payload_generation s) → length (payload_bytes s) = class_bytes class →
  pool_wf (with_slot class i s P).
Proof.
  intros [Hs Hl] Hg Hb. split.
  - intros class' j s'. rewrite class_slots_with_slot. case_decide as Hc; [|apply Hs].
    subst. intros [(-> & <- & _)|[_ ?]]%list_lookup_insert_Some; [done|by eapply Hs].
  - intros class'. rewrite class_slots_with_slot. case_decide; [subst|]; rewrite ?length_insert; apply Hl.
Qed.

(** ** Filling a free slot *)

Lemma copy_slice_Some n src dst : (n ≤ length src)%nat → (n ≤ length dst)%nat →
  copy_slice n src dst = Some (take n src ++ drop n dst).
Proof.
  intros Hs Hd. unfold copy_slice. by rewrite (proj2 (Nat.leb_le _ _) Hs), (proj2 (Nat.leb_le _ _) Hd).
Qed.

(** The pool [P'] is [P] with [payload] stored under the new [token]. *)
Definition stored (P : t) (tokens : list PayloadToken) (payload : list Z) (token : PayloadToken)
    (P' : t) : Prop :=
  pool_wf P' ∧ pool_owns P' (token :: tokens) ∧
  take (length payload) (bytes_of P' token) = payload ∧
  (∀ token', token' ∈ tokens → bytes_of P' token' = bytes_of P token') ∧
  (length payload ≤ class_bytes (token_class token))%nat.

Lemma fill_wp {E} class i s P tokens payload :
  pool_wf P → pool_owns P tokens → class_slots class P !! i = Some s → in_use s = false →
  payload_generation s + 1 < 2 ^ 32 → (length payload ≤ class_bytes class)%nat →
  wp (E:=E) (fill class i s (payload_generation s + 1) payload) P
    (λ token P', stored P tokens payload token P') (λ _ _, False).
Proof.
  intros Hwf [Hnd Ho] Hs Hfree Hg Hlen. destruct (pool_slots_wf _ Hwf _ _ _ Hs) as [[Hg0 _] Hbytes].
  pose proof (lookup_lt_Some _ _ _ Hs) as Hi. pose proof (pool_index_fits _ Hwf class).
  unfold fill. wp_step. eapply wp_expect; [apply copy_slice_Some; lia|]. do 2 wp_step. wp_step.
  eapply wp_expect; [unfold try_from; rewrite (proj2 (Z.ltb_lt _ _)) by lia; done|]. wp_step.
  rewrite firstn_all. set (s' := {| payload_generation := _; in_use := _; payload_bytes := _ |}).
  set (token := {| token_class := _; token_slot := _; token_generation := _ |}).
  assert (slot_of (with_slot class i s' P) token = Some s') as Htok.
  { rewrite slot_of_with_slot by done. simpl. by rewrite Nat2Z.id, decide_True. }
  assert (¬ owned P token) as Hnew.
  { intros (_ & s0 & Hs0 & Hu & _). unfold slot_of in Hs0. simpl in Hs0.
    rewrite Nat2Z.id, Hs in Hs0. congruence. }
  assert (∀ token', owned P token' →
    ¬ (token_class token' = class ∧ Z.to_nat (token_slot token') = i)) as Hother.
  { intros token' (Hp & s0 & Hs0 & Hu & _) [Hc Hi']. unfold slot_of in Hs0.
    rewrite Hc, Hi', Hs in Hs0. congruence. }
  split_and!.
  - apply pool_wf_with_slot; [done|by split; simpl; lia|]. simpl.
    rewrite length_app, length_drop. lia.
  - split; [apply list.NoDup_cons; split; [|done]; by rewrite <- Ho|].
    intros token'. rewrite elem_of_cons, <- Ho. split.
    + intros (Hp & s0 & Hs0 & Hu & Hg'). rewrite slot_of_with_slot in Hs0 by done.
      case_decide as Hc; [left|right; split; [done|]; by exists s0].
      injection Hs0 as <-. destruct token' as [c' i' g'], Hc as [Hc' Hi']. simpl in *.
      subst. unfold token. f_equal. lia.
    + intros [->|Hown].
      * split; [simpl; lia|]. by exists s'.
      * pose proof (Hother _ Hown) as Hne. destruct Hown as (Hp & s0 & Hs0 & ?).
        split; [done|]. exists s0. rewrite slot_of_with_slot by done. by rewrite decide_False.
  - unfold bytes_of. rewrite Htok. simpl. by rewrite take_app_length.
  - intros token' Hin%Ho. unfold bytes_of. rewrite slot_of_with_slot by done.
    by rewrite decide_False by (by apply Hother).
  - done.
Qed.

(** ** Allocation *)

(** No later allocation takes this slot. *)
Definition spent (s : PayloadSlot) : Prop :=
  in_use s = true ∨ payload_generation s = 2 ^ 32 - 1.

Definition class_spent (class : PayloadClass.t) (P : t) : Prop :=
  ∀ i s, class_slots class P !! i = Some s → spent s.

(** The small class is full, or its first free slot has run out of
    generations. *)
Definition small_refused (P : t) : Prop :=
  class_spent PayloadClass.Small P ∨
  ∃ i s, small P !! i = Some s ∧ in_use s = false ∧ payload_generation s = 2 ^ 32 - 1 ∧
    ∀ j s', (j < i)%nat → small P !! j = Some s' → in_use s' = true.

Lemma generation_next s P class i : pool_wf P → class_slots class P !! i = Some s →
  next_nonzero 32 (payload_generation s) =
    if decide (payload_generation s = 2 ^ 32 - 1) then None else Some (payload_generation s + 1).
Proof.
  intros Hwf Hs. destruct (pool_slots_wf _ Hwf _ _ _ Hs) as [[? ?] _].
  rewrite next_nonzero_spec by done. case_decide; [rewrite (proj2 (Z.ltb_ge _ _))|
    rewrite (proj2 (Z.ltb_lt _ _))]; done || lia.
Qed.

Lemma allocate_small_wp {E} payload P tokens :
  pool_wf P → pool_owns P tokens → (length payload ≤ SMALL_PAYLOAD_BYTES)%nat →
  wp (E:=E) (allocate_small payload) P
    (λ o P', match o with
             | Some token => stored P tokens payload token P'
             | None => P' = P ∧ small_refused P
             end) (λ _ _, False).
Proof.
  intros Hwf Ho Hlen. unfold allocate_small. do 3 wp_step.
  apply (wp_loop (λ pre _ st, st = P ∧
    ∀ j s, (j < length pre)%nat → small P !! j = Some s → in_use s = true)).
  - split; [done|]. intros j s Hj. simpl in Hj. lia.
  - intros pre i post [] st Hseq [-> Hpre]. apply seq_split_at in Hseq as [-> Hi].
    destruct (lookup_lt_is_Some_2 _ _ Hi) as [s Hs]. do 3 wp_step. eapply wp_expect; [done|].
    destruct (in_use s) eqn:Hu.
    { wp_step. split; [done|]. intros j s' Hj Hs'. rewrite length_app in Hj. simpl in Hj.
      destruct (decide (j = length pre)) as [->|]; [congruence|]. apply (Hpre j); [lia|done]. }
    rewrite (generation_next s P PayloadClass.Small (length pre)) by done. case_decide as Hg.
    + do 2 wp_step. split; [done|]. right. by exists (length pre), s.
    + destruct (pool_slots_wf _ Hwf PayloadClass.Small _ _ Hs) as [[? ?] _].
      wp_step. eapply wp_mono; [by eapply (fill_wp PayloadClass.Small); [| | | |lia|]| |done].
      intros token P' Hst. by do 2 wp_step.
  - intros [] st [-> Hall]. rewrite length_seq in Hall. wp_step. split; [done|]. left.
    intros i s Hs. left. apply (Hall i); [by eapply lookup_lt_Some|done].
Qed.

Lemma allocate_large_wp payload P tokens :
  pool_wf P → pool_owns P tokens → (length payload ≤ PAYLOAD_BYTES)%nat →
  wp (allocate_large payload) P
    (λ o P', ∃ token, o = Some token ∧ stored P tokens payload token P')
    (λ error P', error = ChannelError.PayloadExhausted ∧ P' = P ∧ class_spent PayloadClass.Large P).
Proof.
  intros Hwf Ho Hlen. unfold allocate_large. do 3 wp_step.
  apply (wp_loop (λ pre _ st, st = P ∧
    ∀ j s, (j < length pre)%nat → slots P !! j = Some s → spent s)).
  - split; [done|]. intros j s Hj. simpl in Hj. lia.
  - intros pre i post [] st Hseq [-> Hpre]. apply seq_split_at in Hseq as [-> Hi].
    destruct (lookup_lt_is_Some_2 _ _ Hi) as [s Hs]. do 3 wp_step. eapply wp_expect; [done|].
    assert (spent s → ∀ j s', (j < length (pre ++ [length pre]))%nat → slots P !! j = Some s' → spent s')
      as Hext.
    { intros Hsp j s' Hj Hs'. rewrite length_app in Hj. simpl in Hj.
      destruct (decide (j = length pre)) as [->|]; [congruence|]. apply (Hpre j); [lia|done]. }
    destruct (in_use s) eqn:Hu; [wp_step; split; [done|]; apply Hext; by left|].
    rewrite (generation_next s P PayloadClass.Large (length pre)) by done. case_decide as Hg.
    + wp_step. split; [done|]. apply Hext. by right.
    + destruct (pool_slots_wf _ Hwf PayloadClass.Large _ _ Hs) as [[? ?] _].
      wp_step. eapply wp_mono; [by eapply (fill_wp PayloadClass.Large); [| | | |lia|]| |done].
      intros token P' Hst. do 2 wp_step. by exists token.
  - intros [] st [-> Hall]. rewrite length_seq in Hall. wp_step. split_and!; [done..|].
    intros i s Hs. apply (Hall i); [by eapply lookup_lt_Some|done].
Qed.

Lemma allocate_wp payload P tokens :
  pool_wf P → pool_owns P tokens → (length payload ≤ PAYLOAD_BYTES)%nat →
  wp (allocate payload) P
    (λ o P', match o with
             | Some token => payload ≠ [] ∧ stored P tokens payload token P'
             | None => payload = [] ∧ P' = P
             end)
    (λ error P', error = ChannelError.PayloadExhausted ∧ P' = P ∧ payload ≠ [] ∧
       class_spent PayloadClass.Large P ∧
       ((length payload ≤ SMALL_PAYLOAD_BYTES)%nat → small_refused P)).
Proof.
  intros Hwf Ho Hlen. unfold allocate. destruct payload as [|b payload]; [by wp_step|].
  set (bytes := b :: payload) in *. assert (bytes ≠ []) as Hne by done.
  rewrite (proj2 (Nat.eqb_neq (length bytes) 0)) by done.
  assert (∀ Q : Prop, ((length bytes ≤ SMALL_PAYLOAD_BYTES)%nat → Q) →
    wp (allocate_large bytes) P
      (λ o P', match o with
               | Some token => bytes ≠ [] ∧ stored P tokens bytes token P'
               | None => bytes = [] ∧ P' = P
               end)
      (λ error P', error = ChannelError.PayloadExhausted ∧ P' = P ∧ bytes ≠ [] ∧
         class_spent PayloadClass.Large P ∧ ((length bytes ≤ SMALL_PAYLOAD_BYTES)%nat → Q))) as Hlarge.
  { intros Q HQ. eapply wp_mono; [by apply allocate_large_wp| |].
    - intros o P' (token & -> & Hst). done.
    - intros error P' (-> & -> & Hsp). done. }
  destruct (Nat.leb_spec (length bytes) SMALL_PAYLOAD_BYTES) as [Hsmall|Hbig].
  - wp_step. eapply wp_mono; [by apply allocate_small_wp| |done].
    intros [token|] P'; [by intros Hst; wp_step|]. intros [-> Href]. by apply Hlarge.
  - apply Hlarge. lia.
Qed.

(** ** Release *)

(** The pool [P'] is [P] without the owner of one slot. *)
Definition given_up (P : t) (tokens : list PayloadToken) (P' : t) : Prop :=
  pool_wf P' ∧ pool_owns P' tokens ∧ ∀ token', bytes_of P' token' = bytes_of P token'.

Lemma token_slot_at_wp {E} P token s Q R :
  slot_of P token = Some s → in_use s = true → payload_generation s = token_generation token →
  Q s P → wp (E:=E) (token_slot_at token) P Q R.
Proof.
  intros Hs Hu Hg HQ. unfold token_slot_at. do 3 wp_step. eapply wp_expect; [exact Hs|].
  wp_step. apply wp_assert; [by rewrite Hu, Hg, Z.eqb_refl|]. by wp_step.
Qed.

Lemma free_slot_wp {E} P token tokens s :
  pool_wf P → pool_owns P (token :: tokens) → slot_of P token = Some s →
  wp (E:=E) (free_slot token s) P (λ _ P', given_up P tokens P') (λ _ _, False).
Proof.
  intros Hwf [Hnd Ho] Hs. apply list.NoDup_cons in Hnd as [Hnin Hnd]. unfold free_slot. wp_step.
  pose proof (lookup_lt_Some _ _ _ Hs) as Hi. set (s' := {| in_use := false |}).
  destruct (pool_slots_wf _ Hwf _ _ _ Hs) as [Hg Hb]. split_and!.
  - by apply pool_wf_with_slot.
  - split; [done|]. intros token'. split.
    + intros (Hp & s0 & Hs0 & Hu & Hg'). rewrite slot_of_with_slot in Hs0 by done.
      case_decide as Hc; [injection Hs0 as <-; done|].
      assert (owned P token') as Hown by (split; [done|]; by exists s0).
      apply Ho, elem_of_cons in Hown as [->|?]; [|done]. by destruct Hc.
    + intros Hin. assert (owned P token') as Hown by (apply Ho; set_solver).
      assert (owned P token) as Hown0 by (apply Ho; set_solver).
      pose proof Hown as (Hp & s0 & Hs0 & Hrest). split; [done|]. exists s0.
      rewrite slot_of_with_slot by done. rewrite decide_False; [done|]. intros [Hc Hi'].
      assert (token' = token) as ->; [|done].
      apply (owned_place_inj P); [done..|]. destruct Hown0 as [? _]. lia.
  - intros token'. unfold bytes_of. rewrite slot_of_with_slot by done.
    case_decide as Hc; [|done]. destruct Hc as [Hc Hi']. unfold slot_of in *.
    by rewrite Hc, Hi', Hs.
Qed.

Lemma owned_head P token tokens : pool_owns P (token :: tokens) → ∃ s,
  slot_of P token = Some s ∧ in_use s = true ∧ payload_generation s = token_generation token.
Proof.
  intros [_ Ho]. destruct (proj2 (Ho token)) as (_ & s & ?); [set_solver|]. by exists s.
Qed.

Lemma pool_release_wp {E} P token tokens :
  pool_wf P → pool_owns P (token :: tokens) →
  wp (E:=E) (release token) P (λ _ P', given_up P tokens P') (λ _ _, False).
Proof.
  intros Hwf Ho. destruct (owned_head _ _ _ Ho) as (s & Hs & Hu & Hg). unfold release. wp_step.
  eapply token_slot_at_wp; [done..|]. by eapply free_slot_wp.
Qed.

Lemma copy_and_release_wp {E} P token tokens n output :
  pool_wf P → pool_owns P (token :: tokens) → (n ≤ length (bytes_of P token))%nat →
  (n ≤ length output)%nat →
  wp (E:=E) (copy_and_release token n output) P
    (λ output' P', output' = take n (bytes_of P token) ++ drop n output ∧ given_up P tokens P')
    (λ _ _, False).
Proof.
  intros Hwf Ho Hn Hout. destruct (owned_head _ _ _ Ho) as (s & Hs & Hu & Hg).
  unfold copy_and_release. wp_step. eapply token_slot_at_wp; [done..|]. wp_step.
  unfold bytes_of in *. rewrite Hs in *. eapply wp_expect; [by apply copy_slice_Some|]. wp_step.
  eapply wp_mono; [by eapply free_slot_wp| |done]. intros [] P' Hgiven. by wp_step.
Qed.

Lemma release_payload_wp {E} P o tokens :
  pool_wf P → pool_owns P (option_list o ++ tokens) →
  wp (E:=E) (release_payload o) P (λ _ P', given_up P tokens P') (λ _ _, False).
Proof.
  intros Hwf Ho. destruct o as [token|]; simpl in *; [by apply pool_release_wp|].
  wp_step. by split.
Qed.

(** * Facts about one queue

    A [ByteQueue] is a ring: rotated to its head, its descriptor array is the
    queued messages followed by free descriptors.  Committing appends a
    message, popping removes the first, draining removes all and gives their
    payload slots and transfers back. *)

Import ByteQueue.
Local Open Scope Z_scope.

(** ** Rotation *)

Definition rot {A} (h : nat) (xs : list A) : list A := drop h xs ++ take h xs.

Section rotation.
Context {A : Type}.
Implicit Types (xs : list A) (x : A).

Lemma length_rot h xs : length (rot h xs) = length xs.
Proof. unfold rot. rewrite length_app, length_drop, length_take. lia. Qed.

(** Where the [k]-th element of the ring is kept. *)
Lemma ring_index h k n : (h < n)%nat → (k < n)%nat →
  (k < n - h)%nat ∧ ((h + k) mod n = h + k)%nat ∨
  (n - h ≤ k)%nat ∧ ((h + k) mod n = h + k - n)%nat.
Proof.
  intros Hh Hk. destruct (decide (h + k < n)%nat).
  - left. rewrite Nat.mod_small by lia. lia.
  - right. split; [lia|]. symmetry. apply (Nat.mod_unique _ _ 1); lia.
Qed.

Lemma rot_lookup h xs k : (h < length xs)%nat → (k < length xs)%nat →
  rot h xs !! k = xs !! ((h + k) mod length xs)%nat.
Proof.
  intros Hh Hk. unfold rot. destruct (ring_index h k (length xs) Hh Hk) as [[Hlt ->]|[Hge ->]].
  - rewrite lookup_app_l by (rewrite length_drop; lia). by rewrite lookup_drop.
  - rewrite lookup_app_r by (rewrite length_drop; lia). rewrite length_drop, lookup_take_lt by lia.
    f_equal. lia.
Qed.

Lemma rot_insert h xs k x : (h < length xs)%nat → (k < length xs)%nat →
  rot h (<[(h + k) mod length xs := x]> xs)%nat = <[k := x]> (rot h xs).
Proof.
  intros Hh Hk. apply list_eq_same_length with (length xs).
  { by rewrite length_insert, length_rot. }
  { by rewrite length_rot, length_insert. }
  intros j y z Hj. rewrite rot_lookup by (rewrite length_insert; lia). rewrite length_insert.
  destruct (decide (j = k)) as [->|Hne].
  - rewrite list_lookup_insert_eq by (apply Nat.mod_upper_bound; lia).
    rewrite list_lookup_insert_eq by (by rewrite length_rot). congruence.
  - rewrite list_lookup_insert_ne, (list_lookup_insert_ne (rot h xs)) by
      (done || destruct (ring_index h j (length xs)), (ring_index h k (length xs)); lia).
    rewrite rot_lookup by lia. congruence.
Qed.

Lemma rot_next h xs : (h < length xs)%nat →
  rot ((h + 1) mod length xs) xs = drop 1 (rot h xs) ++ take 1 (rot h xs).
Proof.
  intros Hh. unfold rot. destruct (lookup_lt_is_Some_2 _ _ Hh) as [x Hx].
  rewrite (drop_S _ _ _ Hx). cbn [app drop take]. rewrite drop_0, take_0.
  destruct (decide (h + 1 = length xs)%nat) as [He|Hne].
  - rewrite He, Nat.Div0.mod_same, drop_0, take_0, app_nil_r, (drop_ge xs (S h)) by lia.
    simpl. rewrite <- (take_drop h xs) at 1. f_equal.
    rewrite (drop_S _ _ _ Hx). f_equal. by rewrite drop_ge by lia.
  - rewrite Nat.mod_small by lia. rewrite Nat.add_1_r, (take_S_r _ _ _ Hx), app_assoc. done.
Qed.

(** Advancing past the head, whose cell becomes the last. *)
Lemma rot_advance h xs x : (h < length xs)%nat →
  rot ((h + 1) mod length xs) (<[h := x]> xs) = drop 1 (rot h xs) ++ [x].
Proof.
  intros Hh. rewrite <- (length_insert xs h x) at 1. rewrite rot_next by (by rewrite length_insert).
  assert (rot h (<[h := x]> xs) = <[0%nat := x]> (rot h xs)) as ->.
  { rewrite <- rot_insert by lia. by rewrite Nat.add_0_r, Nat.mod_small. }
  pose proof (length_rot h xs) as Hl. destruct (rot h xs); simpl in *; [lia|done].
Qed.

End rotation.

(** ** The queue as a sequence of messages *)

(** The generations of the outstanding send reservations. *)
Definition reserved (q : t) : list Z := omap id (send_reservations q).

Record queue_wf (q : t) (ms : list QueuedMessage) : Prop := {
  ring_head : (head q < depth q)%nat;
  ring_len : len q = length ms;
  ring_content : rot (head q) (descriptors q) = (Some <$> ms) ++ replicate (depth q - length ms) None;
  sends_length : length (send_reservations q) = depth q;
  sends_fit : (length ms + length (reserved q) ≤ depth q)%nat;
  sends_distinct : NoDup (reserved q);
  sends_issued g : g ∈ reserved q → 1 ≤ g ≤ next_send_generation q;
  sends_range : is_uint 64 (next_send_generation q);
  receive_range : is_uint 64 (next_receive_generation q);
  receive_pending g : receive_reservation q = Some g → ms ≠ [];
}.

(** The messages of the ring, oldest first. *)
Definition contents (q : t) : list QueuedMessage := omap id (rot (head q) (descriptors q)).

Lemma contents_wf q ms : queue_wf q ms → contents q = ms.
Proof. intros Hwf. unfold contents. by rewrite (ring_content _ _ Hwf), omap_fill. Qed.

Lemma queue_wf_contents q ms : queue_wf q ms → queue_wf q (contents q).
Proof. intros Hwf. by rewrite (contents_wf _ _ Hwf). Qed.

(** The descriptors hold exactly the messages, in some order. *)
Lemma descriptors_perm q : omap id (descriptors q) ≡ₚ contents q.
Proof.
  unfold contents, rot. rewrite <- (take_drop (head q) (descriptors q)) at 1.
  rewrite !omap_app. apply Permutation_app_comm.
Qed.

Lemma new_queue_wf n : (0 < n)%nat → queue_wf (ByteQueue.new n) [].
Proof.
  intros Hn. assert (omap id (replicate n None) = @nil Z) as Hz by (clear Hn; by induction n).
  split; unfold depth, reserved; simpl; rewrite ?length_replicate, ?Hz, ?Nat.sub_0_r;
    try (done || lia || apply base.NoDup_nil_2 || (by unfold is_uint) || (by intros g ?%elem_of_nil)).
  - unfold rot. by rewrite drop_0, take_0, app_nil_r.
  - simpl. lia.
Qed.

(** Reservations in an array. *)
Lemma omap_insert_perm {A} (xs : list (option A)) i o o' : xs !! i = Some o →
  option_list o' ++ omap id xs ≡ₚ option_list o ++ omap id (<[i := o']> xs).
Proof.
  intros Hi. pose proof (lookup_lt_Some _ _ _ Hi).
  rewrite insert_take_drop by done. rewrite <- (take_drop_middle _ _ _ Hi) at 1.
  rewrite !omap_app. destruct o, o'; csimpl; solve_Permutation.
Qed.

Lemma find_reservation_None (xs : list (option Z)) o `{∀ r : option Z, Decision (r = o)} :
  list_find (λ r, r = o) xs = None ↔ o ∉ xs.
Proof.
  rewrite list_find_None, list.Forall_forall. split; [naive_solver|]. intros Hn x Hx ->. done.
Qed.

Lemma elem_of_reserved q g : g ∈ reserved q ↔ Some g ∈ send_reservations q.
Proof. unfold reserved. rewrite list_elem_of_omap. naive_solver. Qed.

Lemma no_free_reservation (xs : list (option Z)) : None ∉ xs → length (omap id xs) = length xs.
Proof.
  intros Hn. induction xs as [|[x|] xs IH]; csimpl; [done| |by destruct Hn; left].
  rewrite IH; [done|]. intros Hin. apply Hn. by right.
Qed.

(** Changing only the send reservations. *)
Lemma queue_wf_set_send q ms rs next :
  queue_wf q ms → length rs = depth q → (length ms + length (omap id rs) ≤ depth q)%nat →
  NoDup (omap id rs) → (∀ g, g ∈ omap id rs → 1 ≤ g ≤ next) → is_uint 64 next →
  queue_wf (set_send rs next q) ms.
Proof. intros [] **. by split. Qed.

Lemma reserve_send_wp q ms : queue_wf q ms →
  wp reserve_send q
    (λ g q', queue_wf q' ms ∧ reserved q' ≡ₚ g :: reserved q ∧ (g ∉ reserved q) ∧
       (length ms + length (reserved q) < depth q)%nat ∧
       ∃ rs, q' = set_send rs g q)
    (λ error q', q' = q ∧
       (error = ChannelError.WouldBlock ∧ ((depth q ≤ length ms + length (reserved q))%nat) ∨
        error = ChannelError.Capacity ∧ next_send_generation q = 2 ^ 64 - 1)).
Proof.
  intros Hwf. pose proof Hwf as [Hh Hl Hc Hsl Hsf Hsd Hsi Hsr Hrr Hrp].
  unfold reserve_send. do 2 wp_step. unfold can_admit, has_minimal_capacity, reserved_send_count.
  fold (reserved q). rewrite Hl.
  destruct (Nat.ltb_spec (length ms + length (reserved q)) (depth q)) as [Hlt|Hge]; simpl.
  2:{ wp_step. split; [done|]. left. split; [done|lia]. }
  do 2 wp_step; [|by apply next_nonzero_None in Heqo; auto].
  apply next_nonzero_Some in Heqo as [-> Hg]; [|apply Hsr].
  do 2 wp_step.
  2:{ apply find_reservation_None, no_free_reservation in Heqo. unfold reserved in Hlt. lia. }
  destruct p as [i o]. apply list_find_Some in Heqo as (Hi & -> & _). cbn beta iota. do 3 wp_step.
  pose proof (omap_insert_perm _ _ _ (Some (next_send_generation q + 1)) Hi) as Hp. simpl in Hp.
  fold (reserved q) in Hp.
  assert (next_send_generation q + 1 ∉ reserved q) as Hnew by (intros ?%Hsi; lia).
  split_and!; [|by symmetry|done|done|by eexists].
  apply queue_wf_set_send; [done|by rewrite length_insert|by rewrite <- Hp; simpl; lia|..].
  - rewrite <- Hp. by apply list.NoDup_cons.
  - intros g. rewrite <- Hp, elem_of_cons. unfold is_uint in Hsr.
    intros [->|?%Hsi]; lia.
  - unfold is_uint in *. lia.
Qed.

Lemma cancel_send_wp q ms g : queue_wf q ms →
  wp (cancel_send g) q
    (λ _ q', queue_wf q' ms ∧ g ∈ reserved q ∧ g :: reserved q' ≡ₚ reserved q ∧
       ∃ rs, q' = set_send rs (next_send_generation q) q)
    (λ error q', q' = q ∧ (g ∉ reserved q) ∧ error = ChannelError.StalePair).
Proof.
  intros Hwf. pose proof Hwf as [Hh Hl Hc Hsl Hsf Hsd Hsi Hsr Hrr Hrp].
  unfold cancel_send. do 4 wp_step.
  2:{ apply find_reservation_None in Heqo. by rewrite elem_of_reserved. }
  destruct p as [i o]. apply list_find_Some in Heqo as (Hi & -> & _). cbn beta iota. wp_step.
  pose proof (omap_insert_perm _ _ _ None Hi) as Hp. simpl in Hp. fold (reserved q) in Hp.
  rewrite Hp in Hsd, Hsf. apply list.NoDup_cons in Hsd as [_ Hsd]. simpl in Hsf.
  split_and!; [| |by symmetry|by eexists].
  - apply queue_wf_set_send; [done|by rewrite length_insert|lia|done| |done].
    intros g' Hg'. apply Hsi. rewrite Hp. by right.
  - rewrite Hp. by left.
Qed.

Lemma commit_send_wp {E} q ms g m : queue_wf q ms → g ∈ reserved q →
  wp (E:=E) (commit_send g m) q
    (λ _ q', queue_wf q' (ms ++ [m]) ∧ g :: reserved q' ≡ₚ reserved q ∧ depth q' = depth q ∧
       receive_reservation q' = receive_reservation q) (λ _ _, False).
Proof.
  intros Hwf Hg. unfold commit_send. do 2 wp_step.
  eapply wp_mono; [by apply cancel_send_wp| |by intros e q' (_ & [] & _)].
  intros [] q1 (Hwf1 & _ & Hp & rs & ->). pose proof (sends_fit _ _ Hwf) as Hfit.
  rewrite <- Hp in Hfit. simpl in Hfit.
  pose proof Hwf1 as [Hh Hl Hc Hsl Hsf Hsd Hsi Hsr Hrr Hrp]. unfold depth in *. simpl in *.
  do 3 wp_step. apply wp_assert; [apply Nat.ltb_lt; unfold depth; simpl; lia|].
  cbv zeta. wp_step. unfold depth. simpl. split_and!; [|done|by rewrite length_insert|done].
  split; unfold depth; simpl; rewrite ?length_insert; [done|by rewrite Hl, length_app| |done| |done..|].
  - rewrite rot_insert, Hc, Hl by lia. apply fill_next. lia.
  - rewrite length_app. unfold reserved in *. simpl in *. lia.
  - intros g' _. by destruct ms.
Qed.

(** The head of the ring. *)
Lemma head_lookup q ms : queue_wf q ms → descriptors q !! head q = Some (ms !! 0%nat).
Proof.
  intros Hwf. pose proof (ring_head _ _ Hwf) as Hh. unfold depth in Hh.
  assert (rot (head q) (descriptors q) !! 0%nat = descriptors q !! head q) as <-.
  { rewrite rot_lookup by lia. by rewrite Nat.add_0_r, Nat.mod_small. }
  rewrite (ring_content _ _ Hwf). unfold depth. destruct ms as [|m ms]; [|done]. simpl.
  destruct (length (descriptors q)); [lia|done].
Qed.

Lemma take_head_wp {E} q ms : queue_wf q ms → receive_reservation q = None →
  wp (E:=E) take_head q
    (λ o q', o = ms !! 0%nat ∧ queue_wf q' (drop 1 ms) ∧ depth q' = depth q ∧
       send_reservations q' = send_reservations q ∧ receive_reservation q' = None ∧
       next_receive_generation q' = next_receive_generation q ∧
       next_send_generation q' = next_send_generation q) (λ _ _, False).
Proof.
  intros Hwf Hrecv. pose proof (head_lookup _ _ Hwf) as Hd.
  pose proof Hwf as [Hh Hl Hc Hsl Hsf Hsd Hsi Hsr Hrr Hrp].
  unfold take_head. do 3 wp_step. eapply wp_expect; [exact Hd|].
  destruct ms as [|m ms]; simpl; [by wp_step|]. simpl in *.
  wp_step. eapply wp_expect.
  { rewrite Hl. unfold checked_sub. rewrite (proj2 (Z.leb_le 1 _)) by lia. done. }
  do 3 wp_step. split_and!; [done| |by unfold depth; simpl; rewrite length_insert|done..].
  rewrite drop_0. unfold depth, reserved in *.
  split; unfold depth, reserved; simpl; rewrite ?length_insert; [|lia| |done|lia|done..|].
  - apply Nat.mod_upper_bound. lia.
  - rewrite rot_advance, Hc by done. simpl. rewrite drop_0, <- app_assoc. f_equal.
    replace (length (descriptors q) - length ms)%nat with
      (S (length (descriptors q) - S (length ms))) by lia. by rewrite <- replicate_S_end.
  - intros g Hg. congruence.
Qed.

Lemma set_receive_wf q ms r next : queue_wf q ms → is_uint 64 next →
  (∀ g, r = Some g → ms ≠ []) → queue_wf (set_receive r next q) ms.
Proof. intros [] **. by split. Qed.

Lemma reserve_head_wp q ms : queue_wf q ms → Forall (λ m, Z.of_nat (length (transfers m)) < 2 ^ 32) ms →
  wp reserve_head q
    (λ made q', ∃ m ms', ms = m :: ms' ∧ receive_reservation q = None ∧
       made.2 = {| required_bytes := byte_len m; required_handles := Z.of_nat (length (transfers m)) |} ∧
       q' = set_receive (Some made.1) made.1 q ∧ queue_wf q' ms)
    (λ error q', q' = q ∧
       (error = ChannelError.WouldBlock ∧ (ms = [] ∨ receive_reservation q ≠ None) ∨
        error = ChannelError.Capacity ∧ next_receive_generation q = 2 ^ 64 - 1)).
Proof.
  intros Hwf Hsmall. unfold reserve_head. do 3 wp_step.
  eapply wp_expect; [by apply head_lookup|].
  destruct ms as [|m ms]; simpl; wp_step; apply wp_ok_or; [by auto|].
  apply Forall_cons_1 in Hsmall as [Hm _]. unfold message_info. do 2 wp_step.
  eapply wp_expect; [unfold try_from; rewrite (proj2 (Z.ltb_lt _ _)); [done|]; lia|].
  wp_step. case_bool_decide as Hr; simpl; [|by wp_step; auto].
  pose proof (receive_range _ _ Hwf) as Hu. do 2 wp_step; [|by apply next_nonzero_None in Heqo; auto].
  apply next_nonzero_Some in Heqo as [-> Hg]; [|apply Hu]. do 3 wp_step.
  exists m, ms. split_and!; [done..|]. apply set_receive_wf; [done| |done].
  unfold is_uint in *. lia.
Qed.

Lemma cancel_receive_eq q g : receive_reservation q = Some g →
  cancel_receive g q = Ret (set_receive None (next_receive_generation q) q) tt.
Proof.
  intros Hr. unfold cancel_receive, mbind, M_bind, get. by rewrite bool_decide_eq_true_2.
Qed.

Lemma pop_reserved_wp q ms g : queue_wf q ms → receive_reservation q = Some g →
  wp (pop_reserved g) q
    (λ m q', ms = m :: drop 1 ms ∧ queue_wf q' (drop 1 ms) ∧ depth q' = depth q ∧
       send_reservations q' = send_reservations q ∧ receive_reservation q' = None) (λ _ _, False).
Proof.
  intros Hwf Hr. unfold pop_reserved. wp_step. eapply wp_eq; [by apply cancel_receive_eq|]. wp_step.
  eapply wp_mono; [eapply (take_head_wp _ ms)| |done]; [|done|].
  - apply set_receive_wf; [done|apply Hwf|done].
  - intros o q' (-> & Hwf' & Hd & Hs & Hr' & _). pose proof (receive_pending _ _ Hwf _ Hr).
    destruct ms as [|m ms]; [done|]. simpl in *. by apply wp_ok_or.
Qed.

(** ** Draining *)

(** The transfers of the messages that carry any. *)
Definition carried (ms : list QueuedMessage) : list HandleTransferBatch :=
  filter (λ batch, batch ≠ []) (transfers <$> ms).

Lemma length_carried ms : (length (carried ms) ≤ length ms)%nat.
Proof. unfold carried. etrans; [apply length_filter|]. by rewrite length_fmap. Qed.

Lemma pop_wp {E} q ms : queue_wf q ms → receive_reservation q = None →
  wp (E:=E) pop q
    (λ o q', o = ms !! 0%nat ∧ queue_wf q' (drop 1 ms) ∧ depth q' = depth q ∧
       send_reservations q' = send_reservations q ∧ receive_reservation q' = None ∧
       next_receive_generation q' = next_receive_generation q ∧
       next_send_generation q' = next_send_generation q) (λ _ _, False).
Proof.
  intros Hwf Hr. unfold pop. do 3 wp_step. apply wp_assert; [by rewrite bool_decide_eq_true_2|].
  by apply take_head_wp.
Qed.

Lemma given_up_trans P P' P'' tokens tokens' :
  given_up P tokens P' → given_up P' tokens' P'' → given_up P tokens' P''.
Proof. intros (_ & _ & Hb) (Hwf & Ho & Hb'). split_and!; [done..|]. intros token. by rewrite Hb', Hb. Qed.

Lemma drain_loop_wp {E} n q P ms tokens fuel gone :
  queue_wf q ms → receive_reservation q = None →
  pool_wf P → pool_owns P (omap payload ms ++ tokens) →
  (length ms < fuel)%nat → (length gone + length ms ≤ n)%nat →
  wp (E:=E) (drain_loop fuel ((Some <$> gone) ++ replicate (n - length gone) None) (length gone)) (q, P)
    (λ drained st,
       drained = (Some <$> gone ++ carried ms) ++ replicate (n - length (gone ++ carried ms)) None ∧
       queue_wf st.1 [] ∧ depth st.1 = depth q ∧ send_reservations st.1 = send_reservations q ∧
       receive_reservation st.1 = None ∧ next_send_generation st.1 = next_send_generation q ∧
       given_up P tokens st.2) (λ _ _, False).
Proof.
  revert q P fuel gone. induction ms as [|m ms IH]; intros q P fuel gone Hwf Hr Hpool Ho Hfuel Hn.
  all: destruct fuel as [|fuel]; simpl in Hfuel; [lia|]; cbn [drain_loop]; do 2 wp_step.
  all: eapply wp_mono; [by eapply pop_wp| |done].
  - intros o q' (-> & Hwf' & Hd & Hs & Hr' & _ & Hns).
    change (@nil QueuedMessage !! 0%nat) with (@None QueuedMessage). cbn beta iota. wp_step.
    rewrite app_nil_r. by split_and!.
  - intros o q' (-> & Hwf' & Hd & Hs & Hr' & _ & Hns). simpl in Hwf'. rewrite drop_0 in Hwf'.
    assert (omap payload (m :: ms) = option_list (payload m) ++ omap payload ms) as Hom.
    { simpl. by destruct (payload m). }
    rewrite Hom, <- app_assoc in Ho. cbn [lookup list_lookup]. do 2 wp_step.
    eapply wp_mono; [by apply release_payload_wp| |done]. intros [] P' Hgiven.
    pose proof Hgiven as (Hpool' & Ho' & _). unfold carried. cbn [fmap list_fmap length] in *.
    destruct (transfers m) as [|x batch] eqn:Ht; cbn [length Nat.eqb].
    + rewrite filter_cons_False by auto. eapply wp_mono; [apply (IH q' P'); [done..|lia|lia]| |done].
      intros drained st (-> & ? & ? & ? & ? & ? & ?). split_and!; [done|done|congruence..|].
      by eapply given_up_trans.
    + rewrite filter_cons_True by done. wp_step.
      apply wp_assert; [apply Nat.ltb_lt; rewrite length_fill; lia|].
      rewrite fill_next by lia. replace (length gone + 1)%nat with (length (gone ++ [x :: batch])) by
        (rewrite length_app; done).
      eapply wp_mono; [apply (IH q' P'); [done..|lia|rewrite length_app; simpl; lia]| |done].
      intros drained st (-> & ? & ? & ? & ? & ? & ?). rewrite <- app_assoc.
      split_and!; [done|done|congruence..|]. by eapply given_up_trans.
Qed.

Lemma drain_transfers_wp {E} q P ms tokens :
  queue_wf q ms → receive_reservation q = None →
  pool_wf P → pool_owns P (omap payload ms ++ tokens) →
  wp (E:=E) drain_transfers (q, P)
    (λ drained st, omap id drained = carried ms ∧ queue_wf st.1 [] ∧ depth st.1 = depth q ∧
       reserved st.1 = [] ∧ receive_reservation st.1 = None ∧ given_up P tokens st.2) (λ _ _, False).
Proof.
  intros Hwf Hr Hpool Ho. unfold drain_transfers. do 4 wp_step.
  pose proof (sends_fit _ _ Hwf) as Hfit.
  assert (replicate (depth q) None = (Some <$> []) ++ replicate (depth q - length (@nil HandleTransferBatch)) None)
    as -> by (simpl; by rewrite Nat.sub_0_r).
  change 0%nat with (length (@nil HandleTransferBatch)) at 2.
  eapply wp_mono; [eapply (drain_loop_wp (depth q) q P ms tokens); [done..|lia|simpl; lia]| |done].
  intros drained [q' P'] (-> & Hwf' & Hd & Hs & Hr' & Hns & Hgiven). simpl in *. do 3 wp_step. wp_step.
  assert (∀ k, omap id (replicate k None) = @nil Z) as Hz by (intros k; by induction k).
  unfold reserved. simpl. rewrite omap_fill, Hz. split_and!; [done| |done..].
  pose proof Hwf' as [Hh' Hl' Hc' Hsl' Hsf' Hsd' Hsi' Hsr' Hrr' Hrp'].
  split; unfold depth, reserved in *; simpl in *; rewrite ?Hz, ?length_replicate;
    [lia|done| |done|simpl; lia|apply base.NoDup_nil_2|by intros g ?%elem_of_nil|done..].
  unfold rot in *. rewrite drop_0, take_0, app_nil_r, Nat.sub_0_r in *. symmetry.
  apply replicate_Permutation. rewrite <- Hc'. rewrite Permutation_app_comm. by rewrite take_drop.
Qed.
