(* ===== verification/ChannelFacts.v ===== *)
(** * Facts about the channel authority

    Which endpoint and which queue are where, what an update of one queue
    leaves alone, and which payload slots the queued messages own. *)

From stdpp Require Import base tactics numbers list sets.
From Stdlib Require Import ZArith Lia.
From S2P Require Import Prelude Abi Object HandleTable Wait WaitFacts Channel ChannelQueue.
Import ChannelAuthority.
Local Open Scope Z_scope.

(** ** Places *)

Definition record_at (A : t) (i : nat) : option PairRecord := slot ← pairs A !! i; pair_record slot.

Definition endpoint_at (A : t) (i : nat) (side : ChannelSide.t) : option EndpointRecord :=
  record ← record_at A i; at_side side (endpoints record).

Definition queue_at (A : t) (i : nat) (side : ChannelSide.t) : option ByteQueue.t :=
  record ← record_at A i; Some (at_side side (inbound record)).

(** The endpoint for [object] is on [side] of the pair in slot [i]. *)
Definition located (A : t) (object : ObjectId) (i : nat) (side : ChannelSide.t) : Prop :=
  ∃ e, endpoint_at A i side = Some e ∧ endpoint_object e = object.

(** A side without an endpoint has nothing queued and nothing reserved. *)
Definition queue_idle (q : ByteQueue.t) : Prop :=
  contents q = [] ∧ reserved q = [] ∧ ByteQueue.receive_reservation q = None.

Record record_wf (A : t) (i : nat) (slot : PairSlot) (record : PairRecord) : Prop := {
  record_index : Z.of_nat i < 2 ^ 16;
  record_generation : 1 ≤ pair_generation slot;
  record_leases side e : at_side side (endpoints record) = Some e →
    lease_matches A i slot side e = true;
  record_queues side : queue_wf (at_side side (inbound record)) (contents (at_side side (inbound record)));
  record_closed side : at_side side (endpoints record) = None → queue_idle (at_side side (inbound record));
}.

Record channels_wf (A : t) : Prop := {
  slots_range i slot : pairs A !! i = Some slot → is_uint 32 (pair_generation slot);
  records_wf i slot record : pairs A !! i = Some slot → pair_record slot = Some record →
    record_wf A i slot record;
  located_once object i side j side' : located A object i side → located A object j side' →
    i = j ∧ side = side';
}.

Lemma at_side_set_side {X} side side' (x : X) xs :
  at_side side (set_side side' x xs) = if decide (side = side') then x else at_side side xs.
Proof. by destruct side, side'. Qed.

Lemma record_at_Some A i record : record_at A i = Some record ↔
  ∃ slot, pairs A !! i = Some slot ∧ pair_record slot = Some record.
Proof. unfold record_at. destruct (pairs A !! i); naive_solver. Qed.

(** ** [locate] *)

Lemma side_of_Some object record side e : side_of object record = Some (side, e) →
  at_side side (endpoints record) = Some e ∧ endpoint_object e = object.
Proof.
  unfold side_of. destruct (endpoints record) as [[e0|] [e1|]]; simpl; repeat case_bool_decide;
    intros; simplify_eq; done.
Qed.

Lemma side_of_None object record side e : side_of object record = None →
  at_side side (endpoints record) = Some e → endpoint_object e ≠ object.
Proof.
  unfold side_of. destruct (endpoints record) as [[e0|] [e1|]], side; simpl;
    repeat case_bool_decide; intros; simplify_eq; done.
Qed.

Lemma locate_from_spec A object k slots :
  (∀ j slot, slots !! j = Some slot → pairs A !! (k + j)%nat = Some slot) → channels_wf A →
  match locate_from A object k slots with
  | Ok (i, side) => located A object i side
  | Err error => error = ChannelError.InvalidEndpoint ∧
      ∀ j side e slot record, slots !! j = Some slot → pair_record slot = Some record →
        at_side side (endpoints record) = Some e → endpoint_object e ≠ object
  end.
Proof.
  revert k. induction slots as [|slot slots IH]; intros k Hslots Hwf; simpl; [done|].
  assert (pairs A !! k = Some slot) as Hk by (rewrite <- (Nat.add_0_r k); by apply Hslots).
  assert (∀ j s, slots !! j = Some s → pairs A !! (S k + j)%nat = Some s) as Hnext.
  { intros j s Hj. replace (S k + j)%nat with (k + S j)%nat by lia. by apply Hslots. }
  specialize (IH (S k) Hnext Hwf).
  destruct (pair_record slot ≫= side_of object) as [[side e]|] eqn:Hs.
  - apply bind_Some in Hs as (record & Hr & Hs). apply side_of_Some in Hs as [He Hobj].
    rewrite (record_leases _ _ _ _ (records_wf _ Hwf _ _ _ Hk Hr) _ _ He).
    exists e. unfold endpoint_at, record_at. by rewrite Hk; simpl; rewrite Hr.
  - destruct (locate_from A object (S k) slots) as [[i side]|error]; [done|].
    destruct IH as [-> IH]. split; [done|].
    intros [|j] side e s r Hj Hr; simpl in Hj; [|by eapply IH]. injection Hj as <-.
    rewrite Hr in Hs. by apply side_of_None.
Qed.

Lemma locate_cases A object : channels_wf A →
  (∃ i side, locate A {| endpoint_object_id := object |} = Ok (i, side) ∧ located A object i side) ∨
  locate A {| endpoint_object_id := object |} = Err ChannelError.InvalidEndpoint ∧
    ∀ i side, ¬ located A object i side.
Proof.
  intros Hwf. pose proof (locate_from_spec A object 0 (pairs A) (λ _ _ H, H) Hwf) as Hl.
  unfold locate. simpl. destruct (locate_from A object 0 (pairs A)) as [[i side]|error].
  - left. by exists i, side.
  - right. destruct Hl as [-> Hno]. split; [done|].
    intros i side (e & He & Hobj). unfold endpoint_at, record_at in He.
    destruct (pairs A !! i) as [slot|] eqn:Hi; simpl in He; [|done].
    destruct (pair_record slot) as [record|] eqn:Hr; simpl in He; [|done]. by eapply Hno.
Qed.

Lemma locate_located A object i side : channels_wf A → located A object i side →
  locate A {| endpoint_object_id := object |} = Ok (i, side).
Proof.
  intros Hwf Hl. destruct (locate_cases A object Hwf) as [(j & side' & -> & Hl')|[_ Hno]].
  - by destruct (located_once _ Hwf _ _ _ _ _ Hl Hl') as [-> ->].
  - by destruct (Hno i side).
Qed.

(** ** Updating one slot *)

Lemma record_at_with_slot A i s j : (i < length (pairs A))%nat →
  record_at (with_slot i s A) j = if decide (j = i) then pair_record s else record_at A j.
Proof.
  intros Hi. unfold record_at. simpl. case_decide as Hj; [subst|].
  - by rewrite list_lookup_insert_eq.
  - by rewrite list_lookup_insert_ne.
Qed.

(** The pair in slot [i] with another queue on one side. *)
Definition put_queue (side : ChannelSide.t) (q : ByteQueue.t) (record : PairRecord) : PairRecord :=
  {| endpoints := endpoints record; inbound := set_side side q (inbound record) |}.

Definition set_queue (A : t) (i : nat) (side : ChannelSide.t) (q : ByteQueue.t) : t :=
  match pairs A !! i with
  | Some slot => with_slot i {| pair_generation := pair_generation slot;
                                pair_record := put_queue side q <$> pair_record slot |} A
  | None => A
  end.

Lemma queue_at_Some A i side q : queue_at A i side = Some q ↔
  ∃ slot record, pairs A !! i = Some slot ∧ pair_record slot = Some record ∧
    q = at_side side (inbound record).
Proof.
  unfold queue_at, record_at. split.
  - intros (record & (slot & Hi & Hr)%bind_Some & [= <-])%bind_Some. by exists slot, record.
  - intros (slot & record & -> & Hr & ->). simpl. by rewrite Hr.
Qed.

Lemma domain_set_queue A i side q : domain (set_queue A i side q) = domain A.
Proof. unfold set_queue. by destruct (pairs A !! i). Qed.

Lemma record_at_set_queue A i side q j :
  record_at (set_queue A i side q) j =
  if decide (j = i) then put_queue side q <$> record_at A i else record_at A j.
Proof.
  unfold set_queue. destruct (pairs A !! i) as [slot|] eqn:Hi.
  - rewrite record_at_with_slot by (by eapply lookup_lt_Some). simpl.
    unfold record_at. rewrite Hi. done.
  - case_decide as Hj; [subst|done]. unfold record_at. by rewrite Hi.
Qed.

Lemma endpoint_at_set_queue A i side q j side' :
  endpoint_at (set_queue A i side q) j side' = endpoint_at A j side'.
Proof.
  unfold endpoint_at. rewrite record_at_set_queue. case_decide; [subst|done].
  by destruct (record_at A i).
Qed.

Lemma located_set_queue A i side q object j side' :
  located (set_queue A i side q) object j side' ↔ located A object j side'.
Proof. unfold located. by setoid_rewrite endpoint_at_set_queue. Qed.

Lemma queue_at_set_queue A i side q q0 j side' : queue_at A i side = Some q0 →
  queue_at (set_queue A i side q) j side' =
  if decide (j = i ∧ side' = side) then Some q else queue_at A j side'.
Proof.
  unfold queue_at. rewrite record_at_set_queue. intros Hq.
  destruct (decide (j = i)) as [->|Hne]; [|by rewrite decide_False by tauto].
  destruct (record_at A i) as [record|]; [|done]. simpl. rewrite at_side_set_side.
  destruct (decide (side' = side)); [rewrite decide_True by done|rewrite decide_False by tauto]; done.
Qed.

(** A call on a queue. *)
Lemma wp_on_queue {E X} i side (m : M ByteQueue.t E X) A q Q R : queue_at A i side = Some q →
  wp m q (λ a q', Q a (set_queue A i side q')) (λ e q', R e (set_queue A i side q')) →
  wp (on_queue i side m) A Q R.
Proof.
  intros (slot & record & Hi & Hr & ->)%queue_at_Some. unfold wp, on_queue, set_queue.
  rewrite Hi. destruct slot as [g o]. simpl in *. subst o. simpl.
  by destruct (m (at_side side (inbound record))).
Qed.

Lemma lease_matches_ext A A' i slot slot' side e : domain A' = domain A →
  pair_generation slot' = pair_generation slot →
  lease_matches A' i slot' side e = lease_matches A i slot side e.
Proof. intros Hd Hg. unfold lease_matches. by rewrite Hd, Hg. Qed.

(** Replacing a queue by another well-formed one. *)
Lemma set_queue_wf A i side q0 q : channels_wf A → queue_at A i side = Some q0 →
  queue_wf q (contents q) → (endpoint_at A i side = None → queue_idle q) →
  channels_wf (set_queue A i side q).
Proof.
  intros Hwf (slot & record & Hi & Hr & ->)%queue_at_Some Hq Hidle.
  pose proof (lookup_lt_Some _ _ _ Hi) as Hlt.
  assert (endpoint_at A i side = at_side side (endpoints record)) as Hep.
  { unfold endpoint_at, record_at. by rewrite Hi; simpl; rewrite Hr. }
  assert (∀ j s, pairs (set_queue A i side q) !! j = Some s →
    j = i ∧ s = {| pair_generation := pair_generation slot; pair_record := Some (put_queue side q record) |} ∨
    j ≠ i ∧ pairs A !! j = Some s) as Hcases.
  { intros j s. unfold set_queue. rewrite Hi, Hr. simpl.
    intros [(-> & <- & _)|[? ?]]%list_lookup_insert_Some; [by left|by right]. }
  split.
  - intros j s Hj. apply Hcases in Hj as [[-> ->]|[_ Hj]]; [|by eapply slots_range].
    simpl. by eapply slots_range.
  - intros j s r Hj Hsr. apply Hcases in Hj as [[-> ->]|[_ Hj]].
    + simpl in Hsr. injection Hsr as <-. destruct (records_wf _ Hwf _ _ _ Hi Hr) as [H1 H2 H3 H4 H5].
      split; [done|done| | |]; simpl.
      * intros side' e He. rewrite (lease_matches_ext A _ _ slot) by (apply domain_set_queue || done).
        by apply H3.
      * intros side'. rewrite at_side_set_side. case_decide; [subst; done|apply H4].
      * intros side' He. rewrite at_side_set_side. case_decide; [subst|by apply H5].
        apply Hidle. by rewrite Hep.
    + destruct (records_wf _ Hwf _ _ _ Hj Hsr) as [H1 H2 H3 H4 H5]. split; [done..| |done|done].
      intros side' e He. rewrite (lease_matches_ext A _ _ s) by (apply domain_set_queue || done).
      by apply H3.
  - intros object j side1 k side2. rewrite !located_set_queue. by apply located_once.
Qed.

Lemma queue_at_wf A i side q : channels_wf A → queue_at A i side = Some q → queue_wf q (contents q).
Proof.
  intros Hwf (slot & record & Hi & Hr & ->)%queue_at_Some. by eapply record_queues, records_wf.
Qed.

Lemma queue_at_idle A i side q : channels_wf A → queue_at A i side = Some q →
  endpoint_at A i side = None → queue_idle q.
Proof.
  intros Hwf (slot & record & Hi & Hr & ->)%queue_at_Some He.
  eapply record_closed; [by eapply records_wf|]. unfold endpoint_at, record_at in He.
  by rewrite Hi in He; simpl in He; rewrite Hr in He.
Qed.

(** An endpoint has a queue on each side of its pair. *)
Lemma located_queue A object i side : located A object i side → ∀ side', ∃ q, queue_at A i side' = Some q.
Proof.
  intros (e & He & _) side'. unfold endpoint_at, queue_at in *.
  destruct (record_at A i) as [record|]; [|done]. by eexists.
Qed.

(** ** The queues of the authority *)

Definition slot_queues (slot : PairSlot) : list ByteQueue.t :=
  match pair_record slot with
  | Some record => [side_zero (inbound record); side_one (inbound record)]
  | None => []
  end.

Definition all_queues (A : t) : list ByteQueue.t := pairs A ≫= slot_queues.

Lemma all_queues_with_slot A i slot : pairs A !! i = Some slot →
  ∃ rest, all_queues A ≡ₚ slot_queues slot ++ rest ∧
    ∀ slot', all_queues (with_slot i slot' A) ≡ₚ slot_queues slot' ++ rest.
Proof.
  intros Hi. pose proof (lookup_lt_Some _ _ _ Hi) as Hlt.
  exists ((take i (pairs A) ++ drop (S i) (pairs A)) ≫= slot_queues). unfold all_queues. split.
  - rewrite <- (take_drop_middle _ _ _ Hi) at 1. rewrite !bind_app, bind_cons. solve_Permutation.
  - intros slot'. simpl. rewrite insert_take_drop by done. rewrite !bind_app, bind_cons. solve_Permutation.
Qed.

Lemma all_queues_set_queue A i side q q0 : queue_at A i side = Some q0 →
  ∃ rest, all_queues A ≡ₚ q0 :: rest ∧ all_queues (set_queue A i side q) ≡ₚ q :: rest.
Proof.
  intros (slot & record & Hi & Hr & ->)%queue_at_Some.
  destruct (all_queues_with_slot A i slot Hi) as (rest & H1 & H2).
  unfold set_queue. rewrite Hi. setoid_rewrite H1. setoid_rewrite H2.
  unfold slot_queues. rewrite Hr. simpl. destruct side; simpl.
  - by exists (side_one (inbound record) :: rest).
  - exists (side_zero (inbound record) :: rest). split; apply Permutation_swap.
Qed.

Lemma elem_of_all_queues A q : q ∈ all_queues A ↔ ∃ i side, queue_at A i side = Some q.
Proof.
  unfold all_queues. rewrite list_elem_of_bind. split.
  - intros (slot & Hq & (i & Hi)%list_elem_of_lookup). unfold slot_queues in Hq.
    destruct (pair_record slot) as [record|] eqn:Hr; [|by apply elem_of_nil in Hq].
    apply elem_of_cons in Hq as [->|Hq]; [|apply list_elem_of_singleton in Hq as ->].
    + exists i, ChannelSide.Zero. apply queue_at_Some. by exists slot, record.
    + exists i, ChannelSide.One. apply queue_at_Some. by exists slot, record.
  - intros (i & side & (slot & record & Hi & Hr & ->)%queue_at_Some). exists slot.
    split; [|by eapply list_elem_of_lookup_2]. unfold slot_queues. rewrite Hr.
    destruct side; set_solver.
Qed.

(** The payload slots of the queued messages. *)
Definition queued_tokens (A : t) : list PayloadToken :=
  all_queues A ≫= λ q, omap payload (contents q).

Lemma queued_tokens_set_queue A i side q q0 : queue_at A i side = Some q0 →
  ∃ rest, queued_tokens A ≡ₚ omap payload (contents q0) ++ rest ∧
    queued_tokens (set_queue A i side q) ≡ₚ omap payload (contents q) ++ rest.
Proof.
  intros (rest & H1 & H2)%(all_queues_set_queue A i side q q0).
  exists (rest ≫= λ q, omap payload (contents q)). unfold queued_tokens.
  by rewrite H1, H2, !bind_cons.
Qed.
