(* ===== verification/ChannelCycle.v ===== *)
(** * The queue-cycle search

    [transfer_closes_queue_cycle] is a graph search over endpoints: an
    endpoint leads to the channel endpoints queued in the messages it has not
    received yet.  The search ends within its bound and answers whether the
    destination can be reached from the endpoints about to be sent to it. *)

From stdpp Require Import base tactics numbers list sets relations.
From Stdlib Require Import ZArith Lia.
From S2P Require Import Prelude Abi Object HandleTable Wait Channel ChannelQueue ChannelFacts.
Import ChannelAuthority.
Local Open Scope Z_scope.

(** ** The graph *)

(** The endpoint [o'] is queued for the endpoint [o]. *)
Definition edge (A : t) (o o' : ObjectId) : Prop :=
  ∃ i side q, located A o i side ∧ queue_at A i side = Some q ∧ o' ∈ queued_channels q.

(** Every endpoint that is queued still exists. *)
Definition queues_resolve (A : t) : Prop :=
  ∀ o o', edge A o o' → ∃ i side, located A o' i side.

(** ** Side masks *)

Abbreviation place := (nat * ChannelSide.t)%type.

Definition marked (masks : list Z) (p : place) : bool :=
  match masks !! p.1 with
  | Some mask => Z.testbit mask (ChannelSide.index p.2)
  | None => false
  end.

Lemma side_bit_land mask side :
  (Z.land mask (side_bit side) =? 0) = negb (Z.testbit mask (ChannelSide.index side)).
Proof.
  assert (side_bit side = 2 ^ ChannelSide.index side) as -> by (by destruct side).
  assert (0 ≤ ChannelSide.index side) by (by destruct side).
  destruct (Z.testbit mask (ChannelSide.index side)) eqn:Hb.
  - apply Z.eqb_neq. intros Hz.
    assert (Z.testbit (Z.land mask (2 ^ ChannelSide.index side)) (ChannelSide.index side) = true) as Ht.
    { by rewrite Z.land_spec, Hb, Z.pow2_bits_true. }
    by rewrite Hz, Z.bits_0 in Ht.
  - apply Z.eqb_eq, Z.bits_inj'. intros n Hn. rewrite Z.land_spec, Z.bits_0.
    destruct (decide (n = ChannelSide.index side)) as [->|]; [by rewrite Hb|].
    rewrite Z.pow2_bits_false by lia. by rewrite andb_false_r.
Qed.

Lemma side_bit_testbit side side' :
  Z.testbit (side_bit side) (ChannelSide.index side') = bool_decide (side' = side).
Proof. by destruct side, side'. Qed.

Lemma unmark_testbit mask side side' :
  Z.testbit (Z.land mask (unot 8 (side_bit side))) (ChannelSide.index side') =
  Z.testbit mask (ChannelSide.index side') && negb (bool_decide (side' = side)).
Proof. rewrite Z.land_spec. by destruct side, side'. Qed.

Lemma marked_or masks s side mask p : masks !! s = Some mask →
  marked (<[s := Z.lor mask (side_bit side)]> masks) p = marked masks p || bool_decide (p = (s, side)).
Proof.
  intros Hs. pose proof (lookup_lt_Some _ _ _ Hs). destruct p as [s' side']. unfold marked. simpl.
  destruct (decide (s' = s)) as [->|Hne].
  - rewrite list_lookup_insert_eq, Hs, Z.lor_spec, side_bit_testbit by done. f_equal.
    apply bool_decide_ext. naive_solver.
  - rewrite list_lookup_insert_ne by done.
    rewrite (bool_decide_eq_false_2 ((s', side') = (s, side))) by naive_solver. by rewrite orb_false_r.
Qed.

Lemma marked_clear masks s side mask p : masks !! s = Some mask →
  marked (<[s := Z.land mask (unot 8 (side_bit side))]> masks) p =
  marked masks p && negb (bool_decide (p = (s, side))).
Proof.
  intros Hs. pose proof (lookup_lt_Some _ _ _ Hs). destruct p as [s' side']. unfold marked. simpl.
  destruct (decide (s' = s)) as [->|Hne].
  - rewrite list_lookup_insert_eq, Hs, unmark_testbit by done. do 2 f_equal.
    apply bool_decide_ext. naive_solver.
  - rewrite list_lookup_insert_ne by done.
    rewrite (bool_decide_eq_false_2 ((s', side') = (s, side))) by naive_solver. by rewrite andb_true_r.
Qed.

Lemma marked_replicate n p : marked (replicate n 0) p = false.
Proof.
  unfold marked. destruct (replicate n 0 !! p.1) as [mask|] eqn:Hm; [|done].
  apply lookup_replicate in Hm as [-> _]. by destruct p.2.
Qed.

(** ** The next pending place *)

Definition places (n : nat) : list place :=
  slot ← seq 0 n; (λ side, (slot, side)) <$> ALL_SIDES.

Lemma elem_of_places n p : p ∈ places n ↔ (p.1 < n)%nat.
Proof.
  unfold places. rewrite list_elem_of_bind. destruct p as [s side]. simpl. split.
  - intros (s' & Hp & Hs'). apply elem_of_seq in Hs'.
    assert (s = s') as -> by (destruct side; set_solver). lia.
  - intros Hs. exists s. split; [|apply elem_of_seq; lia]. destruct side; set_solver.
Qed.

Definition sized (n : nat) (m : marks) : Prop := length (pending m) = n ∧ length (visited m) = n.

Lemma next_pending_wp n m : sized n m →
  wp (next_pending n) m
    (λ o m', sized n m' ∧
       (∀ p, marked (pending m') p → marked (pending m) p) ∧
       match o with
       | Some p => (p.1 < n)%nat ∧ marked (pending m) p ∧ marked (visited m) p = false ∧
           (∀ p', marked (visited m') p' = marked (visited m) p' || bool_decide (p' = p)) ∧
           (∀ p', marked (pending m) p' → marked (pending m') p' ∨ marked (visited m') p')
       | None => visited m' = visited m ∧ ∀ p', marked (pending m) p' → marked (visited m) p'
       end)
    (λ _ _, False).
Proof.
  intros [Hp Hv]. unfold next_pending. fold (places n). wp_step.
  apply (wp_loop (λ pre _ st, sized n st ∧ visited st = visited m ∧
    (∀ p, marked (pending st) p → marked (pending m) p) ∧
    (∀ p, marked (pending m) p → marked (pending st) p ∨ marked (visited m) p) ∧
    (∀ p, p ∈ pre → marked (pending st) p = false))).
  - split_and!; [done|done|done|by left|by intros p ?%elem_of_nil].
  - intros pre [s side] post [] st Hpre ([Hps Hvs] & Hvis & Hsub & Hkeep & Hdone).
    assert ((s, side) ∈ places n) as Hin%elem_of_places by (rewrite Hpre; set_solver). simpl in Hin.
    destruct (lookup_lt_is_Some_2 (pending st) s) as [mask Hmask]; [lia|].
    destruct (lookup_lt_is_Some_2 (visited st) s) as [vmask Hvmask]; [lia|].
    cbn beta iota. do 3 wp_step. eapply wp_expect; [done|]. rewrite side_bit_land.
    assert (marked (pending st) (s, side) = Z.testbit mask (ChannelSide.index side)) as Hm.
    { unfold marked. simpl. by rewrite Hmask. }
    destruct (Z.testbit mask (ChannelSide.index side)) eqn:Hbit; cbn [negb].
    2:{ wp_step. split_and!; [done..|]. intros p [Hp'|Hp']%elem_of_app; [by apply Hdone|].
        apply list_elem_of_singleton in Hp' as ->. done. }
    do 3 wp_step. eapply wp_expect; [done|]. rewrite side_bit_land, negb_involutive.
    assert (marked (visited m) (s, side) = Z.testbit vmask (ChannelSide.index side)) as Hvm.
    { unfold marked. simpl. by rewrite <- Hvis, Hvmask. }
    assert (∀ p, marked (pending (set_pending s (Z.land mask (unot 8 (side_bit side))) st)) p =
      marked (pending st) p && negb (bool_decide (p = (s, side)))) as Hclr.
    { intros p. by apply marked_clear. }
    destruct (Z.testbit vmask (ChannelSide.index side)) eqn:Hvbit.
    + wp_step. split_and!.
      * split; simpl; [by rewrite length_insert|done].
      * done.
      * intros p. rewrite Hclr. intros [? _]%andb_prop_elim. by apply Hsub.
      * intros p Hp'. rewrite Hclr. case_bool_decide as He; [subst; right; by rewrite Hvm|].
        rewrite andb_true_r. by apply Hkeep.
      * intros p [Hp'|Hp']%elem_of_app; rewrite Hclr; [by rewrite Hdone|].
        apply list_elem_of_singleton in Hp' as ->. by rewrite bool_decide_eq_true_2, andb_false_r.
    + do 4 wp_step. split_and!.
      * split; simpl; by rewrite length_insert.
      * intros p. simpl. rewrite marked_clear by done. intros [? _]%andb_prop_elim. by apply Hsub.
      * done.
      * apply Hsub. by rewrite Hm.
      * done.
      * intros p. simpl. by rewrite <- Hvis, marked_or by done.
      * intros p Hp'. simpl. rewrite marked_clear, marked_or by done.
        case_bool_decide as He; [right; by rewrite orb_true_r|]. rewrite andb_true_r, orb_false_r, Hvis.
        by apply Hkeep.
  - intros [] st (Hsz & Hvis & Hsub & Hkeep & Hdone). wp_step. split_and!; [done..|].
    intros p Hp'. destruct (Hkeep p Hp') as [Hpd|]; [|done].
    assert (p ∈ places n) as Hpl.
    { apply elem_of_places. unfold marked in Hp'. destruct (pending m !! p.1) eqn:Hl; [|done].
      apply lookup_lt_Some in Hl. lia. }
    by rewrite Hdone in Hpd.
Qed.

(** ** Marking endpoints *)

Section search.
Context (A : t) (destination : ObjectId).
Hypothesis (Hwf : channels_wf A).

Abbreviation n := (length (pairs A)).

Definition dangling (o : ObjectId) : Prop := ∀ i side, ¬ located A o i side.

(** [o] is waiting to be visited or has been. *)
Definition noted (m : marks) (o : ObjectId) : Prop :=
  ∃ i side, located A o i side ∧ (marked (pending m) (i, side) ∨ marked (visited m) (i, side)).

(** The marks [m'] are [m] with endpoints of [os] pending too. *)
Definition extended (m : marks) (os : list ObjectId) (m' : marks) : Prop :=
  sized n m' ∧ visited m' = visited m ∧
  (∀ p, marked (pending m) p → marked (pending m') p) ∧
  (∀ p, marked (pending m') p → marked (pending m) p ∨ ∃ o, o ∈ os ∧ located A o p.1 p.2) ∧
  (∀ o, o ∈ os → o ≠ destination ∧ noted m' o).

Definition marks_object (body : ObjectId → M marks ChannelError.t (flow unit bool)) : Prop :=
  ∀ o m, sized n m →
    wp (body o) m
      (λ f m', match f with
               | Break b => b = true ∧ o = destination
               | Continue _ => extended m [o] m'
               end)
      (λ error _, error = ChannelError.StalePair ∧ dangling o).

Lemma located_lt o i side : located A o i side → (i < n)%nat.
Proof.
  intros (e & He & _). unfold endpoint_at, record_at in He.
  destruct (pairs A !! i) eqn:Hi; [|done]. by eapply lookup_lt_Some.
Qed.

Lemma locate_transferred_cases o :
  (∃ i side, locate_transferred A o = Ok (i, side) ∧ located A o i side) ∨
  locate_transferred A o = Err ChannelError.StalePair ∧ dangling o.
Proof.
  unfold locate_transferred. destruct (locate_cases A o Hwf) as [(i & side & -> & Hl)|[-> Hno]].
  - left. by exists i, side.
  - by right.
Qed.

Lemma extended_pending m o i side mask : sized n m → o ≠ destination → located A o i side →
  pending m !! i = Some mask → extended m [o] (set_pending i (Z.lor mask (side_bit side)) m).
Proof.
  intros [Hp Hv] Hne Hl Hm. split_and!.
  - split; simpl; [by rewrite length_insert|done].
  - done.
  - intros p Hp'. simpl. rewrite marked_or by done. by apply orb_prop_intro; left.
  - intros p. simpl. rewrite marked_or by done. intros [?|He%bool_decide_unpack]%orb_prop_elim; [by left|].
    right. subst p. exists o. set_solver.
  - intros o' ->%list_elem_of_singleton. split; [done|]. exists i, side. split; [done|]. left. simpl.
    rewrite marked_or by done. apply orb_prop_intro. right. by apply bool_decide_pack.
Qed.

Lemma mark_transferred_marks : marks_object (mark_transferred A destination).
Proof.
  intros o m Hsz. unfold mark_transferred. case_bool_decide as Ho; [by wp_step|]. do 2 wp_step.
  destruct (locate_transferred_cases o) as [(i & side & -> & Hl)|[-> Hd]]; [|done].
  pose proof (located_lt _ _ _ Hl). destruct Hsz as [Hp Hv].
  destruct (lookup_lt_is_Some_2 (pending m) i) as [mask Hm]; [lia|].
  do 3 wp_step. eapply wp_expect; [done|]. do 3 wp_step. by apply extended_pending.
Qed.

Lemma mark_queued_marks : marks_object (mark_queued A destination).
Proof.
  intros o m Hsz. unfold mark_queued. case_bool_decide as Ho; [by wp_step|]. do 2 wp_step.
  destruct (locate_transferred_cases o) as [(i & side & -> & Hl)|[-> Hd]]; [|done].
  pose proof (located_lt _ _ _ Hl). pose proof Hsz as [Hp Hv].
  destruct (lookup_lt_is_Some_2 (pending m) i) as [mask Hm]; [lia|].
  destruct (lookup_lt_is_Some_2 (visited m) i) as [vmask Hvm]; [lia|].
  do 3 wp_step. eapply wp_expect; [done|]. rewrite side_bit_land, negb_involutive.
  destruct (Z.testbit vmask _) eqn:Hbit.
  - wp_step. split_and!; [done|done|done|by left|].
    intros o' ->%list_elem_of_singleton. split; [done|]. exists i, side. split; [done|]. right.
    unfold marked. simpl. by rewrite Hvm, Hbit.
  - wp_step. eapply wp_expect; [done|]. do 3 wp_step. by apply extended_pending.
Qed.

(** A loop that marks a list of endpoints. *)
Lemma marks_objects body os m : marks_object body → sized n m →
  wp (loop os (λ o _, body o) tt) m
    (λ f m', match f with
             | Break b => b = true ∧ destination ∈ os
             | Continue _ => extended m os m'
             end)
    (λ error _, error = ChannelError.StalePair ∧ ∃ o, o ∈ os ∧ dangling o).
Proof.
  intros Hbody Hsz. apply (wp_loop (λ pre _ st, extended m pre st)).
  - split_and!; [done|done|done|by left|by intros o ?%elem_of_nil].
  - intros pre o post [] st Hos (Hsz' & Hv & Hmono & Hsrc & Hnoted).
    eapply wp_mono; [by apply Hbody| |].
    + intros [[]|b] st' Hf.
      * destruct Hf as (Hsz2 & Hv2 & Hmono2 & Hsrc2 & Hnoted2). split_and!; [done|congruence|by auto| |].
        -- intros p [Hp|(o' & ->%list_elem_of_singleton & Hl)]%Hsrc2.
           ++ destruct (Hsrc p Hp) as [|(o' & ? & ?)]; [by left|right]. exists o'. set_solver.
           ++ right. exists o. set_solver.
        -- intros o' [Ho'|Ho']%elem_of_app; [|by apply Hnoted2].
           destruct (Hnoted o' Ho') as [? (i & side & Hl & Hm)]. split; [done|]. exists i, side.
           split; [done|]. rewrite Hv2. destruct Hm; [left; by apply Hmono2|by right].
      * destruct Hf as [-> ->]. split; [done|]. rewrite Hos. set_solver.
    + intros error st' [-> Hd]. split; [done|]. exists o. split; [rewrite Hos; set_solver|done].
  - done.
Qed.

(** ** The search *)

Section from.
Context (sources : list ObjectId).

Definition reachable (o : ObjectId) : Prop := ∃ source, source ∈ sources ∧ rtc (edge A) source o.

(** The endpoint at [p] is not the destination, and what is queued for it
    has been noted. *)
Definition explored (m : marks) (p : place) : Prop :=
  ∀ o, located A o p.1 p.2 → o ≠ destination ∧
    ∀ o', edge A o o' → o' ≠ destination ∧ noted m o'.

Record search_inv (m : marks) : Prop := {
  inv_sized : sized n m;
  inv_sources o : o ∈ sources → o ≠ destination ∧ noted m o;
  inv_explored p : marked (visited m) p → explored m p;
  inv_reachable p : marked (pending m) p ∨ marked (visited m) p →
    ∃ o, located A o p.1 p.2 ∧ reachable o;
}.

(** The places still to visit. *)
Definition unvisited (m : marks) : list place :=
  filter (λ p, marked (visited m) p = false) (places n).

Lemma length_filter_lt {X} (P P' : X → Prop) `{∀ x, Decision (P x), ∀ x, Decision (P' x)} (xs : list X) x :
  (∀ y, P' y → P y) → x ∈ xs → P x → ¬ P' x → (length (filter P' xs) < length (filter P xs))%nat.
Proof.
  intros Hsub Hin HP HP'.
  assert (∀ ys, length (filter P' ys) ≤ length (filter P ys))%nat as Hle.
  { induction ys as [|y ys IH]; [done|]. rewrite !filter_cons. repeat case_decide; simpl; naive_solver lia. }
  induction Hin as [x ys|x y ys Hin IH]; rewrite !filter_cons.
  - specialize (Hle ys). repeat case_decide; [done|done|simpl; lia|done].
  - specialize (IH HP HP'). repeat case_decide; simpl; naive_solver lia.
Qed.

(** One place of the graph has one endpoint. *)
Lemma located_inj o o' i side : located A o i side → located A o' i side → o = o'.
Proof. intros (e & He & <-) (e' & He' & <-). congruence. Qed.

Lemma noted_mono m m' o :
  (∀ p, marked (pending m) p ∨ marked (visited m) p → marked (pending m') p ∨ marked (visited m') p) →
  noted m o → noted m' o.
Proof. intros Hmono (i & side & Hl & Hm). exists i, side. split; [done|]. by apply Hmono. Qed.

(** Nothing is pending: the visited places are closed under [edge]. *)
Lemma search_closed m o : search_inv m →
  (∀ p, marked (pending m) p → marked (visited m) p) → reachable o → o ≠ destination.
Proof.
  intros Hinv Hnone (source & Hs & Hrtc).
  assert (∀ o1 o2, o1 ≠ destination ∧ noted m o1 → rtc (edge A) o1 o2 → o2 ≠ destination) as Hgo.
  { intros o' o'' Ho' Hr. induction Hr as [|o1 o2 o3 Hedge _ IH]; [tauto|]. apply IH.
    destruct Ho' as [_ (i & side & Hl & Hm)].
    assert (marked (visited m) (i, side)) as Hvis by (destruct Hm; auto).
    destruct (inv_explored _ Hinv _ Hvis o1 Hl) as [_ Hnext]. by apply Hnext. }
  apply (Hgo source o); [by apply Hinv|done].
Qed.

Lemma edge_of_queue o i side record : located A o i side → record_at A i = Some record →
  ∀ o', edge A o o' ↔ o' ∈ queued_channels (at_side side (inbound record)).
Proof.
  intros Hl Hr o'. split.
  - intros (j & side' & q & Hl' & Hq & Ho'). destruct (located_once _ Hwf _ _ _ _ _ Hl Hl') as [<- <-].
    unfold queue_at in Hq. rewrite Hr in Hq. by injection Hq as ->.
  - intros Ho'. exists i, side, (at_side side (inbound record)). split_and!; [done| |done].
    unfold queue_at. by rewrite Hr.
Qed.

(** Visiting [p]: the marks [m1] with what is queued at [p] noted. *)
Lemma search_visit m p m1 m2 o record :
  search_inv m → sized n m1 →
  (∀ p', marked (pending m1) p' → marked (pending m) p') →
  (∀ p', marked (visited m1) p' = marked (visited m) p' || bool_decide (p' = p)) →
  (∀ p', marked (pending m) p' → marked (pending m1) p' ∨ marked (visited m1) p') →
  located A o p.1 p.2 → reachable o → o ≠ destination → record_at A p.1 = Some record →
  extended m1 (queued_channels (at_side p.2 (inbound record))) m2 → search_inv m2.
Proof.
  intros [Hsz Hsrc Hexp Hreach] Hsz1 Hpend Hvis Hkeep Hl Hro Hne Hrec (Hsz2 & Hv2 & Hmono & Hnew & Hnoted).
  assert (∀ p', marked (pending m) p' ∨ marked (visited m) p' →
    marked (pending m2) p' ∨ marked (visited m2) p') as Hall.
  { intros p' [Hp'|Hp']; rewrite Hv2.
    - destruct (Hkeep _ Hp'); [left; by apply Hmono|by right].
    - right. rewrite Hvis. by apply orb_prop_intro; left. }
  split.
  - done.
  - intros o' [? Hn]%Hsrc. split; [done|]. by eapply noted_mono.
  - intros p'. rewrite Hv2, Hvis. intros [Hp'|He%bool_decide_unpack]%orb_prop_elim o' Hl'.
    + destruct (Hexp _ Hp' o' Hl') as [? Hnext]. split; [done|]. intros o'' [? Hn]%Hnext.
      split; [done|]. by eapply noted_mono.
    + subst p'. rewrite (located_inj _ _ _ _ Hl' Hl) in *. split; [done|].
      intros o'' Ho''%(edge_of_queue _ _ _ _ Hl Hrec). by apply Hnoted.
  - intros p' [Hp'|Hp'].
    + destruct (Hnew _ Hp') as [Hold|(o' & Ho' & Hl')]; [apply Hreach; left; by apply Hpend|].
      exists o'. split; [done|]. destruct Hro as (source & Hs & Hrtc). exists source. split; [done|].
      eapply rtc_r; [done|]. by eapply edge_of_queue.
    + rewrite Hv2, Hvis in Hp'. apply orb_prop_elim in Hp' as [?|He%bool_decide_unpack].
      * apply Hreach. by right.
      * subst p'. by exists o.
Qed.

Lemma search_wp fuel m : search_inv m → (length (unvisited m) < fuel)%nat →
  wp (search fuel A destination) m
    (λ found _, found = true ↔ reachable destination)
    (λ error _, error = ChannelError.StalePair ∧ ∃ o, reachable o ∧ dangling o).
Proof.
  revert m. induction fuel as [|fuel IH]; intros m Hinv Hfuel; [lia|]. cbn [search]. wp_step.
  eapply wp_mono; [apply next_pending_wp, Hinv| |done].
  intros [[i side]|] m1 (Hsz1 & Hsub & Hnext).
  2:{ destruct Hnext as [_ Hall]. wp_step. split; [done|]. intros Hr.
      by destruct (search_closed m destination Hinv Hall Hr). }
  destruct Hnext as (Hi & Hpd & Hnv & Hvis & Hkeep).
  destruct (inv_reachable _ Hinv (i, side) (or_introl Hpd)) as (o & Hl & Hro). simpl in Hl.
  pose proof Hl as (e & He & Hobj). unfold endpoint_at in He.
  destruct (record_at A i) as [record|] eqn:Hrec; simpl in He; [|done].
  pose proof Hrec as (slot & Hslot & Hsr)%record_at_Some.
  unfold pair_at. do 2 wp_step. eapply wp_expect; [done|]. rewrite Hsr. apply wp_ok_or.
  wp_step. rewrite He. apply wp_ok_or. rewrite Hobj.
  case_bool_decide as Hd; [wp_step; split; [intros _; by rewrite <- Hd|done]|].
  wp_step. eapply wp_mono; [apply marks_objects; [apply mark_queued_marks|done]| |].
  - intros [[]|b] m2 Hf.
    + apply IH.
      * by eapply (search_visit m (i, side) m1).
      * destruct Hf as (_ & Hv2 & _). apply Nat.lt_le_trans with (length (unvisited m)); [|lia].
        unfold unvisited. apply (length_filter_lt _ _ _ (i, side)).
        -- intros p. rewrite Hv2, Hvis. by intros [? _]%orb_false_iff.
        -- by apply elem_of_places.
        -- done.
        -- rewrite Hv2, Hvis, bool_decide_eq_true_2, orb_true_r by done. done.
    + destruct Hf as [-> Hin]. wp_step. split; [|done]. intros _.
      destruct Hro as (source & Hs & Hrtc). exists source. split; [done|]. eapply rtc_r; [done|].
      by eapply edge_of_queue.
  - intros error m2 [-> (o' & Hin & Hdang)]. split; [done|]. exists o'. split; [|done].
    destruct Hro as (source & Hs & Hrtc). exists source. split; [done|]. eapply rtc_r; [done|].
    by eapply edge_of_queue.
Qed.

Lemma length_unvisited m : (length (unvisited m) ≤ 2 * n)%nat.
Proof.
  unfold unvisited. etrans; [apply length_filter|]. unfold places.
  assert (∀ xs : list nat, length (slot ← xs; (λ side, (slot, side)) <$> ALL_SIDES) = 2 * length xs)%nat as ->.
  { induction xs as [|x xs IHxs]; [done|]. rewrite bind_cons, length_app, IHxs. simpl. lia. }
  by rewrite length_seq.
Qed.

End from.

Lemma cycle_search_wp sources :
  let unmarked := replicate n 0 in
  wp (cycle_search A destination sources) {| pending := unmarked; visited := unmarked |}
    (λ found _, found = true ↔ reachable sources destination)
    (λ error _, error = ChannelError.StalePair ∧ ∃ o, reachable sources o ∧ dangling o).
Proof.
  cbv zeta. unfold cycle_search. wp_step.
  assert (sized n {| pending := replicate n 0; visited := replicate n 0 |}) as Hsz.
  { split; simpl; apply length_replicate. }
  eapply wp_mono; [apply marks_objects; [apply mark_transferred_marks|done]| |].
  - intros [[]|b] m Hf.
    + destruct Hf as (Hsz' & Hv & _ & Hsrc & Hnoted). apply search_wp.
      * split; [done|done| |].
        -- intros p. rewrite Hv. simpl. by rewrite marked_replicate.
        -- intros p [Hp|Hp].
           ++ destruct (Hsrc p Hp) as [Hm|(o & Ho & Hl)].
              { simpl in Hm. by rewrite marked_replicate in Hm. }
              exists o. split; [done|]. exists o. split; [done|apply rtc_refl].
           ++ rewrite Hv in Hp. simpl in Hp. by rewrite marked_replicate in Hp.
      * pose proof (length_unvisited m). lia.
    + destruct Hf as [-> Hin]. wp_step. split; [|done]. intros _. exists destination.
      split; [done|apply rtc_refl].
  - intros error m [-> (o & Ho & Hd)]. split; [done|]. exists o. split; [|done].
    exists o. split; [done|apply rtc_refl].
Qed.

End search.

(** The answer of the search, and its only error. *)
Lemma transfer_closes_queue_cycle_wp {S} A destination sources (s : S) : channels_wf A →
  wp (transfer_closes_queue_cycle A destination sources) s
    (λ found s', s' = s ∧ (found = true ↔ reachable A sources destination))
    (λ error s', s' = s ∧ error = ChannelError.StalePair ∧
       ∃ o, reachable A sources o ∧ dangling A o).
Proof.
  intros Hwf. pose proof (cycle_search_wp A destination Hwf sources) as Hw. cbv zeta in Hw.
  unfold wp, transfer_closes_queue_cycle in *.
  by destruct (cycle_search A destination sources _) as [m found|m error|].
Qed.

(** When every queued endpoint exists there is no error. *)
Lemma transfer_closes_queue_cycle_total {S} A destination sources (s : S) :
  channels_wf A → queues_resolve A → (∀ o, o ∈ sources → ∃ i side, located A o i side) →
  ∃ found, transfer_closes_queue_cycle A destination sources s = Ret s found ∧
    (found = true ↔ reachable A sources destination).
Proof.
  intros Hwf Hres Hsrc. pose proof (transfer_closes_queue_cycle_wp A destination sources s Hwf) as Hw.
  unfold wp in Hw. destruct (transfer_closes_queue_cycle A destination sources s) as [s' found|s' error|]; [| |done].
  - destruct Hw as [-> Hf]. by exists found.
  - destruct Hw as (_ & _ & o & (source & Hs & Hrtc) & Hd). exfalso.
    assert (∃ i side, located A o i side) as (i & side & Hl); [|by eapply Hd].
    apply rtc_inv_r in Hrtc as [->|(o' & _ & He)]; [by apply Hsrc|by eapply Hres].
Qed.
