(* ===== verification/ChannelInvariant.v ===== *)
(** * The invariant of the channel authority

    The authority and the payload pool together with the send and receive
    reservations their callers hold: every payload slot in use belongs to one
    queued message or one reservation, every reservation of a queue is held
    by one caller, and no queue leads back to its own endpoint. *)

From stdpp Require Import base tactics numbers list sets relations.
From Stdlib Require Import ZArith Lia.
From S2P Require Import Prelude Abi Object HandleTable Wait Channel ChannelQueue ChannelFacts ChannelCycle.
Import ChannelAuthority.
Local Open Scope Z_scope.

(** ** Messages *)

Definition payload_ok (P : PayloadPool.t) (len : Z) (o : option PayloadToken) : Prop :=
  match o with
  | None => len = 0
  | Some token => 1 ≤ len ≤ DW_CHANNEL_MAX_PAYLOAD ∧ (Z.to_nat len ≤ length (bytes_of P token))%nat
  end.

Definition payload_of (P : PayloadPool.t) (len : Z) (o : option PayloadToken) : list Z :=
  match o with
  | None => []
  | Some token => take (Z.to_nat len) (bytes_of P token)
  end.

Lemma payload_length P len o : payload_ok P len o →
  length (payload_of P len o) = Z.to_nat len ∧ 0 ≤ len ≤ DW_CHANNEL_MAX_PAYLOAD.
Proof.
  assert (0 ≤ DW_CHANNEL_MAX_PAYLOAD) by done. destruct o as [token|]; simpl.
  - intros [? ?]. rewrite length_take. lia.
  - intros ->. done.
Qed.

Definition message_ok (P : PayloadPool.t) (m : QueuedMessage) : Prop :=
  payload_ok P (byte_len m) (payload m) ∧ (length (transfers m) ≤ HANDLE_TRANSFER_LIMIT)%nat.

(** What a queued message carries: its bytes and its transfers. *)
Definition message (P : PayloadPool.t) (m : QueuedMessage) : list Z * HandleTransferBatch :=
  (payload_of P (byte_len m) (payload m), transfers m).

(** What an endpoint has been sent and not received. *)
Definition inbox (A : t) (P : PayloadPool.t) (i : nat) (side : ChannelSide.t)
    : option (list (list Z * HandleTransferBatch)) :=
  q ← queue_at A i side; Some (message P <$> contents q).

(** The bytes of these tokens are the same in both pools. *)
Definition frame (tokens : list PayloadToken) (P P' : PayloadPool.t) : Prop :=
  ∀ token, token ∈ tokens → bytes_of P' token = bytes_of P token.

Lemma payload_ok_frame P P' len o : frame (option_list o) P P' →
  payload_ok P len o → payload_ok P' len o.
Proof. intros Hf. destruct o as [token|]; simpl; [|done]. rewrite Hf; [done|]. simpl. set_solver. Qed.

Lemma payload_of_frame P P' len o : frame (option_list o) P P' →
  payload_of P' len o = payload_of P len o.
Proof. intros Hf. destruct o as [token|]; simpl; [|done]. rewrite Hf; [done|]. simpl. set_solver. Qed.

Lemma frame_subset tokens tokens' P P' :
  (∀ token, token ∈ tokens' → token ∈ tokens) → frame tokens P P' → frame tokens' P P'.
Proof. intros Hs Hf token Hin. by apply Hf, Hs. Qed.

Lemma messages_frame P P' ms : frame (omap payload ms) P P' →
  (Forall (message_ok P) ms → Forall (message_ok P') ms) ∧ message P' <$> ms = message P <$> ms.
Proof.
  intros Hf. induction ms as [|m ms IH]; [done|].
  assert (frame (option_list (payload m)) P P') as Hm.
  { eapply frame_subset; [|exact Hf]. intros token Ht. csimpl. destruct (payload m); simpl in Ht; [|by apply elem_of_nil in Ht].
    apply list_elem_of_singleton in Ht as ->. by left. }
  assert (frame (omap payload ms) P P') as Hms.
  { eapply frame_subset; [|exact Hf]. intros token Ht. csimpl. destruct (payload m); [by right|done]. }
  destruct (IH Hms) as [IH1 IH2]. split.
  - intros [[Hp Ht] Hall]%Forall_cons_1. apply list.Forall_cons. split; [|by apply IH1].
    split; [by eapply payload_ok_frame|done].
  - rewrite !fmap_cons, IH2. f_equal. unfold message. by rewrite (payload_of_frame P P').
Qed.

(** ** Reservations *)

(** The send reservation is for the queue of [side] in slot [i]. *)
Definition targets (A : t) (i : nat) (side : ChannelSide.t) (r : ChannelSendReservation) : bool :=
  (key_domain (send_pair r) =? domain A) && (key_slot (send_pair r) =? i)%nat
  && bool_decide (ChannelSide.peer (send_side r) = side)
  && match pairs A !! i with
     | Some slot => key_generation (send_pair r) =? pair_generation slot
     | None => false
     end.

Definition issued (A : t) (S : list ChannelSendReservation) (i : nat) (side : ChannelSide.t) : list Z :=
  omap (λ r, if targets A i side r then Some (send_generation r) else None) S.

Definition receive_place (r : ChannelReceiveReservation) : place :=
  (key_slot (receive_pair r), receive_side r).

(** The receive reservation names the first message of this queue. *)
Definition reserves_head (r : ChannelReceiveReservation) (q : ByteQueue.t) : Prop :=
  ByteQueue.receive_reservation q = Some (receive_generation r) ∧
  ∃ m ms, contents q = m :: ms ∧
    receive_info r = {| required_bytes := byte_len m;
                        required_handles := Z.of_nat (length (transfers m)) |}.

Definition receiving (A : t) (r : ChannelReceiveReservation) : Prop :=
  key_domain (receive_pair r) = domain A ∧
  (∃ slot, pairs A !! key_slot (receive_pair r) = Some slot ∧
     pair_generation slot = key_generation (receive_pair r)) ∧
  is_Some (endpoint_at A (key_slot (receive_pair r)) (receive_side r)) ∧
  ∃ q, queue_at A (key_slot (receive_pair r)) (receive_side r) = Some q ∧ reserves_head r q.

Definition acyclic (A : t) : Prop := ∀ o, ¬ tc (edge A) o o.

(** Payload slots: each belongs to one queued message or one reservation. *)
Record payloads_owned (A : t) (P : PayloadPool.t) (S : list ChannelSendReservation) : Prop := {
  po_wf : pool_wf P;
  po_owns : pool_owns P (queued_tokens A ++ omap send_payload S);
  po_messages i side q : queue_at A i side = Some q → Forall (message_ok P) (contents q);
  po_reserved r : r ∈ S → payload_ok P (send_byte_len r) (send_payload r);
}.

(** Send reservations: those of an open queue are the ones callers hold. *)
Record sends_held (A : t) (S : list ChannelSendReservation) : Prop := {
  sh_reserved i side q : queue_at A i side = Some q → is_Some (endpoint_at A i side) →
    reserved q ≡ₚ issued A S i side;
  sh_keys r : r ∈ S → key_domain (send_pair r) = domain A ∧
    ∃ slot, pairs A !! key_slot (send_pair r) = Some slot ∧
      key_generation (send_pair r) ≤ pair_generation slot;
}.

(** Receive reservations: one caller for each reserved head. *)
Record receives_held (A : t) (R : list ChannelReceiveReservation) : Prop := {
  rh_receiving r : r ∈ R → receiving A r;
  rh_reserved i side q g : queue_at A i side = Some q → ByteQueue.receive_reservation q = Some g →
    (i, side) ∈ receive_place <$> R;
  rh_once : NoDup (receive_place <$> R);
}.

Record channel_inv (A : t) (P : PayloadPool.t) (S : list ChannelSendReservation)
    (R : list ChannelReceiveReservation) : Prop := {
  ci_wf : channels_wf A;
  ci_payloads : payloads_owned A P S;
  ci_sends : sends_held A S;
  ci_receives : receives_held A R;
  ci_acyclic : acyclic A;
}.

(** The slots of the authority, their generations and endpoints. *)
Definition same_places (A A' : t) : Prop :=
  domain A' = domain A ∧ (∀ i side, endpoint_at A' i side = endpoint_at A i side) ∧
  (∀ i, pair_generation <$> pairs A' !! i = pair_generation <$> pairs A !! i).

Lemma same_places_refl A : same_places A A.
Proof. done. Qed.

Lemma same_places_trans A A' A'' : same_places A A' → same_places A' A'' → same_places A A''.
Proof. intros (? & H1 & H2) (? & H1' & H2'). split_and!; [congruence|..]; intros; by rewrite ?H1', ?H2'. Qed.

Lemma same_places_set_queue A i side q : same_places A (set_queue A i side q).
Proof.
  split_and!; [apply domain_set_queue|intros; apply endpoint_at_set_queue|].
  intros j. unfold set_queue. destruct (pairs A !! i) as [slot|] eqn:Hi; [|done]. simpl.
  destruct (decide (j = i)) as [->|].
  - rewrite list_lookup_insert_eq by (by eapply lookup_lt_Some). by rewrite Hi.
  - by rewrite list_lookup_insert_ne.
Qed.

Lemma same_places_slot A A' i slot : same_places A A' → pairs A !! i = Some slot →
  ∃ slot', pairs A' !! i = Some slot' ∧ pair_generation slot' = pair_generation slot.
Proof.
  intros (_ & _ & Hg) Hi. specialize (Hg i). rewrite Hi in Hg. simpl in Hg.
  destruct (pairs A' !! i) as [slot'|]; simplify_eq/=. by exists slot'.
Qed.

Lemma targets_same A A' i side r : same_places A A' → targets A' i side r = targets A i side r.
Proof.
  intros (Hd & _ & Hg). unfold targets. rewrite Hd. specialize (Hg i). f_equal.
  destruct (pairs A !! i), (pairs A' !! i); simplify_eq/=; congruence.
Qed.

Lemma issued_same A A' S i side : same_places A A' → issued A' S i side = issued A S i side.
Proof.
  intros Hs. unfold issued. induction S as [|r S IH]; [done|]. csimpl. by rewrite (targets_same A A'), IH.
Qed.

Lemma located_same A A' o i side : same_places A A' → located A' o i side ↔ located A o i side.
Proof. intros (_ & He & _). unfold located. by rewrite He. Qed.

(** ** Queue graphs *)

Lemma elem_of_queued_channels q o : o ∈ queued_channels q ↔
  ∃ m, m ∈ contents q ∧ o ∈ batch_objects_of_type (transfers m) DW_OBJECT_TYPE_CHANNEL.
Proof.
  unfold queued_channels. rewrite list_elem_of_bind.
  split; intros (m & H1 & H2); exists m.
  - split; [by rewrite <- (descriptors_perm q)|done].
  - split; [done|by rewrite (descriptors_perm q)].
Qed.

(** Replacing one queue replaces the edges from its endpoint. *)
Lemma edge_set_queue A i side q0 q o o' : queue_at A i side = Some q0 →
  edge (set_queue A i side q) o o' →
  edge A o o' ∨ located A o i side ∧ o' ∈ queued_channels q.
Proof.
  intros Hq (j & side' & q' & Hl & Hq' & Ho'). rewrite located_set_queue in Hl.
  rewrite (queue_at_set_queue _ _ _ _ _ _ _ Hq) in Hq'. case_decide as Hc.
  - destruct Hc as [-> ->]. injection Hq' as <-. by right.
  - left. by exists j, side', q'.
Qed.

Lemma tc_mono {X} (R R' : relation X) : (∀ x y, R x y → R' x y) → ∀ x y, tc R x y → tc R' x y.
Proof. intros Hs x y Ht. induction Ht; [by apply tc_once, Hs|by eapply tc_l; [apply Hs|]]. Qed.

Lemma rtc_mono {X} (R R' : relation X) : (∀ x y, R x y → R' x y) → ∀ x y, rtc R x y → rtc R' x y.
Proof. intros Hs x y Ht. induction Ht; [apply rtc_refl|by eapply rtc_l; [apply Hs|]]. Qed.

Section extend.
Context {X : Type} (R R' : relation X) (d : X) (T : X → Prop).
Hypothesis (Hstep : ∀ x y, R' x y → R x y ∨ x = d ∧ T y).

(** A path to [d] can stop at its first visit of [d]. *)
Lemma rtc_to_source x z : rtc R' x z → z = d → rtc R x z.
Proof.
  intros Hr. induction Hr as [|x y z Hxy _ IH]; intros Hz; [apply rtc_refl|].
  destruct (Hstep _ _ Hxy) as [Hold|[-> _]]; [by eapply rtc_l, IH|subst; apply rtc_refl].
Qed.

Lemma rtc_extend x y : rtc R' x y → rtc R x y ∨ rtc R' x d ∧ ∃ z, T z ∧ rtc R' z y.
Proof.
  intros Hr. induction Hr as [|x y z Hxy Hyz IH]; [left; apply rtc_refl|].
  destruct (Hstep _ _ Hxy) as [Hold|[-> Hnew]].
  - destruct IH as [IH|[Hyd Hz]]; [left; by eapply rtc_l|right]. split; [by eapply rtc_l|done].
  - right. split; [apply rtc_refl|by exists y].
Qed.

(** New edges from [d] close no cycle unless one of their targets already
    leads to [d]. *)
Lemma extend_acyclic : (∀ x, ¬ tc R x x) → (∀ y, T y → ¬ rtc R y d) → ∀ x, ¬ tc R' x x.
Proof.
  intros Hac Hno x Hx.
  assert (∃ y, R' x y ∧ rtc R' y x) as (y & Hxy & Hyx).
  { inversion Hx as [? ? Hxy|? y ? Hxy Hyz]; subst; [by exists x; split; [|apply rtc_refl]|].
    exists y. split; [done|by apply tc_rtc]. }
  destruct (Hstep _ _ Hxy) as [Hold|[-> Hnew]].
  - destruct (rtc_extend _ _ Hyx) as [Hr|[Hyd (z & Hz & Hzx)]].
    + apply (Hac x). by eapply tc_rtc_r; [apply tc_once|].
    + apply (Hno z Hz), rtc_to_source; [|done]. etrans; [exact Hzx|by eapply rtc_l].
  - by apply (Hno y Hnew), rtc_to_source.
Qed.
End extend.

Lemma acyclic_mono A A' : (∀ o o', edge A' o o' → edge A o o') → acyclic A → acyclic A'.
Proof. intros Hs Hac o Ho. apply (Hac o). by eapply tc_mono. Qed.

(** ** Changing one queue *)

Section update.
Context (A : t) (i : nat) (side : ChannelSide.t) (q0 q : ByteQueue.t).
Hypothesis (Hq : queue_at A i side = Some q0).

Lemma queue_at_update j side' q' : queue_at (set_queue A i side q) j side' = Some q' →
  j = i ∧ side' = side ∧ q' = q ∨ (j ≠ i ∨ side' ≠ side) ∧ queue_at A j side' = Some q'.
Proof.
  rewrite (queue_at_set_queue _ _ _ _ _ _ _ Hq). case_decide as Hc.
  - destruct Hc as [-> ->]. intros [= <-]. by left.
  - intros. right. split; [|done]. destruct (decide (j = i)) as [->|]; [|by left]. right. intros ->. by apply Hc.
Qed.

Lemma queued_tokens_keep : contents q = contents q0 →
  queued_tokens (set_queue A i side q) ≡ₚ queued_tokens A.
Proof.
  intros Hc. destruct (queued_tokens_set_queue A i side q q0 Hq) as (rest & -> & ->). by rewrite Hc.
Qed.

Lemma queued_tokens_push m : contents q = contents q0 ++ [m] →
  queued_tokens (set_queue A i side q) ≡ₚ option_list (payload m) ++ queued_tokens A.
Proof.
  intros Hc. destruct (queued_tokens_set_queue A i side q q0 Hq) as (rest & -> & ->).
  rewrite Hc, omap_app. csimpl. destruct (payload m); simpl; solve_Permutation.
Qed.

Lemma queued_tokens_pop m : contents q0 = m :: contents q →
  queued_tokens A ≡ₚ option_list (payload m) ++ queued_tokens (set_queue A i side q).
Proof.
  intros Hc. destruct (queued_tokens_set_queue A i side q q0 Hq) as (rest & -> & ->).
  rewrite Hc. csimpl. by destruct (payload m).
Qed.

(** The payloads of the other queues are framed. *)
Lemma queued_token j side' q' token : queue_at A j side' = Some q' →
  token ∈ omap payload (contents q') → token ∈ queued_tokens A.
Proof.
  intros Hj Ht. unfold queued_tokens. apply list_elem_of_bind. exists q'.
  split; [done|]. apply elem_of_all_queues. by exists j, side'.
Qed.

Lemma messages_at_frame P P' S j side' q' : payloads_owned A P S →
  frame (queued_tokens A ++ omap send_payload S) P P' → queue_at A j side' = Some q' →
  Forall (message_ok P') (contents q') ∧ message P' <$> contents q' = message P <$> contents q'.
Proof.
  intros Ho Hf Hj. destruct (messages_frame P P' (contents q')) as [H1 H2].
  - eapply frame_subset; [|exact Hf]. intros token Ht. apply elem_of_app. left. by eapply queued_token.
  - split; [|done]. apply H1. by eapply po_messages.
Qed.

Lemma payloads_update P P' S S' : payloads_owned A P S →
  pool_wf P' → frame (queued_tokens A ++ omap send_payload S) P P' →
  pool_owns P' (queued_tokens (set_queue A i side q) ++ omap send_payload S') →
  Forall (message_ok P') (contents q) →
  (∀ r, r ∈ S' → payload_ok P' (send_byte_len r) (send_payload r)) →
  payloads_owned (set_queue A i side q) P' S'.
Proof.
  intros Ho Hwf Hf Howns Hms Hrs. split; [done..| |done].
  intros j side' q' [(-> & -> & ->)|[_ Hj]]%queue_at_update; [done|].
  by eapply messages_at_frame.
Qed.

(** What the other endpoints have been sent is untouched. *)
Lemma inbox_update P P' S j side' : payloads_owned A P S →
  frame (queued_tokens A ++ omap send_payload S) P P' →
  inbox (set_queue A i side q) P' j side' =
  if decide (j = i ∧ side' = side) then Some (message P' <$> contents q) else inbox A P j side'.
Proof.
  intros Ho Hf. unfold inbox. rewrite (queue_at_set_queue _ _ _ _ _ _ _ Hq). case_decide; [done|].
  destruct (queue_at A j side') as [q'|] eqn:Hj; [|done]. simpl. f_equal.
  by eapply messages_at_frame.
Qed.

(** *** Send reservations *)

Lemma sends_keys_same S : sends_held A S → ∀ r, r ∈ S →
  key_domain (send_pair r) = domain (set_queue A i side q) ∧
  ∃ slot, pairs (set_queue A i side q) !! key_slot (send_pair r) = Some slot ∧
    key_generation (send_pair r) ≤ pair_generation slot.
Proof.
  intros Hs r Hr. destruct (sh_keys _ _ Hs r Hr) as (Hd & slot & Hslot & Hg).
  split; [by rewrite domain_set_queue|].
  destruct (same_places_slot _ _ _ _ (same_places_set_queue A i side q) Hslot) as (slot' & ? & Heq).
  exists slot'. split; [done|by rewrite Heq].
Qed.

Lemma sends_update S S' : sends_held A S →
  (∀ r, r ∈ S' → r ∈ S ∨ targets A i side r = true) →
  (is_Some (endpoint_at A i side) → reserved q ≡ₚ issued A S' i side) →
  (∀ j side', j ≠ i ∨ side' ≠ side → issued A S' j side' ≡ₚ issued A S j side') →
  sends_held (set_queue A i side q) S'.
Proof.
  intros Hs Hsub Hnew Hother. split.
  - intros j side' q' Hq'. rewrite endpoint_at_set_queue, (issued_same A) by apply same_places_set_queue.
    apply queue_at_update in Hq' as [(-> & -> & ->)|[Hne Hj]]; [done|].
    intros He. rewrite Hother by done. by eapply sh_reserved.
  - intros r Hr. destruct (Hsub r Hr) as [Hold|Ht]; [by eapply sends_keys_same|].
    unfold targets in Ht. destruct (pairs A !! i) as [slot|] eqn:Hi; [|by rewrite andb_false_r in Ht].
    apply andb_true_iff in Ht as [[[Hd Hk]%andb_true_iff _]%andb_true_iff Hg].
    apply Z.eqb_eq in Hd, Hg. apply Nat.eqb_eq in Hk.
    destruct (same_places_slot _ _ _ _ (same_places_set_queue A i side q) Hi) as (slot' & ? & Heq).
    split; [by rewrite domain_set_queue|]. exists slot'. rewrite Hk, Heq, Hg. by split.
Qed.
End update.

Lemma targets_place A i side j side' r : targets A i side r = true → targets A j side' r = true →
  j = i ∧ side' = side.
Proof.
  unfold targets. rewrite !andb_true_iff, !bool_decide_eq_true, !Nat.eqb_eq.
  intros [[[_ <-] <-] _] [[[_ <-] <-] _]. done.
Qed.

Lemma targets_elsewhere A i side j side' r : targets A i side r = true → j ≠ i ∨ side' ≠ side →
  targets A j side' r = false.
Proof.
  intros Ht Hne. apply not_true_is_false. intros Ht'.
  destruct (targets_place _ _ _ _ _ _ Ht Ht') as [-> ->]. tauto.
Qed.

Lemma issued_cons A r S i side :
  issued A (r :: S) i side = if targets A i side r then send_generation r :: issued A S i side else issued A S i side.
Proof. unfold issued. csimpl. by destruct (targets A i side r). Qed.

Lemma issued_perm A S S' i side : S ≡ₚ S' → issued A S i side ≡ₚ issued A S' i side.
Proof. intros Hp. unfold issued. by rewrite Hp. Qed.

Lemma sends_keep A S i side q0 q : sends_held A S → queue_at A i side = Some q0 →
  reserved q ≡ₚ reserved q0 → sends_held (set_queue A i side q) S.
Proof.
  intros Hs Hq Hr. eapply sends_update; [done..|by auto| |done].
  intros He. rewrite Hr. by eapply sh_reserved.
Qed.

Lemma sends_add A S i side q0 q r : sends_held A S → queue_at A i side = Some q0 →
  targets A i side r = true → reserved q ≡ₚ send_generation r :: reserved q0 →
  sends_held (set_queue A i side q) (r :: S).
Proof.
  intros Hs Hq Ht Hr. eapply sends_update; [done..| | |].
  - intros r' [->|?]%elem_of_cons; auto.
  - intros He. rewrite issued_cons, Ht, Hr. f_equiv. by eapply sh_reserved.
  - intros j side' Hne. by rewrite issued_cons, (targets_elsewhere _ _ _ _ _ _ Ht Hne).
Qed.

Lemma sends_remove A S S' i side q0 q r : sends_held A S → queue_at A i side = Some q0 →
  S ≡ₚ r :: S' → targets A i side r = true → send_generation r :: reserved q ≡ₚ reserved q0 →
  sends_held (set_queue A i side q) S'.
Proof.
  intros Hs Hq HS Ht Hr. eapply sends_update; [done..| | |].
  - intros r' ?. left. rewrite HS. by right.
  - intros He. apply (Permutation_cons_inv (a := send_generation r)). rewrite Hr.
    rewrite (sh_reserved _ _ Hs _ _ _ Hq He), (issued_perm _ _ _ _ _ HS), issued_cons, Ht. done.
  - intros j side' Hne. by rewrite (issued_perm A S _ _ _ HS), issued_cons, (targets_elsewhere _ _ _ _ _ _ Ht Hne).
Qed.

(** A reservation whose queue is gone can be forgotten. *)
Lemma sends_forget A S S' r : sends_held A S → S ≡ₚ r :: S' →
  (∀ i side, targets A i side r = true → endpoint_at A i side = None) → sends_held A S'.
Proof.
  intros Hs HS Hgone. split.
  - intros i side q Hq He. rewrite (sh_reserved _ _ Hs _ _ _ Hq He), (issued_perm _ _ _ _ _ HS), issued_cons.
    destruct (targets A i side r) eqn:Ht; [|done]. rewrite (Hgone _ _ Ht) in He. by destruct He.
  - intros r' Hr'. apply (sh_keys _ _ Hs). rewrite HS. by right.
Qed.

(** *** Receive reservations *)

Lemma receiving_update A i side q0 q r : queue_at A i side = Some q0 → receiving A r →
  (receive_place r = (i, side) → reserves_head r q0 → reserves_head r q) →
  receiving (set_queue A i side q) r.
Proof.
  intros Hq (Hd & (slot & Hslot & Hg) & He & q1 & Hq1 & Hh) Hkeep.
  pose proof (same_places_set_queue A i side q) as Hs. unfold receive_place in Hkeep.
  split_and!; [by rewrite domain_set_queue| |by rewrite endpoint_at_set_queue|].
  - destruct (same_places_slot _ _ _ _ Hs Hslot) as (slot' & ? & Heq). exists slot'. by rewrite Heq.
  - rewrite (queue_at_set_queue _ _ _ _ _ _ _ Hq). case_decide as Hc; [|by exists q1].
    exists q. split; [done|]. destruct Hc as [Hi Hside]. rewrite Hi, Hside in *. simplify_eq. by apply Hkeep.
Qed.

Lemma reserves_head_keep r q0 q :
  ByteQueue.receive_reservation q = ByteQueue.receive_reservation q0 → contents q0 `prefix_of` contents q →
  reserves_head r q0 → reserves_head r q.
Proof.
  intros Hr [ms' Hc] (Hg & m & ms & Hms & Hinfo). split; [by rewrite Hr|].
  exists m, (ms ++ ms'). by rewrite Hc, Hms.
Qed.

Lemma receives_keep A R i side q0 q : receives_held A R → queue_at A i side = Some q0 →
  ByteQueue.receive_reservation q = ByteQueue.receive_reservation q0 → contents q0 `prefix_of` contents q →
  receives_held (set_queue A i side q) R.
Proof.
  intros HR Hq Hr Hc. split; [| |by apply HR].
  - intros r Hin. eapply receiving_update; [done|by apply HR|]. intros _. by apply reserves_head_keep.
  - intros j side' q' g Hq' Hg. apply (queue_at_update A i side q0 q Hq) in Hq' as [(-> & -> & ->)|[_ Hj]];
      [|by eapply rh_reserved]. eapply rh_reserved; [done..|]. by rewrite <- Hr.
Qed.

(** A queue without a receive reservation has no caller that receives. *)
Lemma no_receiver A R i side q : receives_held A R → queue_at A i side = Some q →
  ByteQueue.receive_reservation q = None → (i, side) ∉ receive_place <$> R.
Proof.
  intros HR Hq Hr (r & Hp & Hin)%list_elem_of_fmap.
  destruct (rh_receiving _ _ HR r Hin) as (_ & _ & _ & q' & Hq' & Hg & _).
  unfold receive_place in Hp. injection Hp as -> ->. rewrite Hq in Hq'. by simplify_eq.
Qed.

Lemma receives_add A R i side q0 q r : receives_held A R → queue_at A i side = Some q0 →
  ByteQueue.receive_reservation q0 = None → receive_place r = (i, side) →
  receiving (set_queue A i side q) r → receives_held (set_queue A i side q) (r :: R).
Proof.
  intros HR Hq Hnone Hp Hr. pose proof (no_receiver _ _ _ _ _ HR Hq Hnone) as Hno. split.
  - intros r' [->|Hin]%elem_of_cons; [done|]. eapply receiving_update; [done|by apply HR|].
    intros Hp'. destruct Hno. rewrite <- Hp'. by apply list_elem_of_fmap_2.
  - intros j side' q' g Hq' Hg. rewrite fmap_cons, Hp, elem_of_cons.
    apply (queue_at_update A i side q0 q Hq) in Hq' as [(-> & -> & ->)|[_ Hj]]; [by left|right].
    by eapply rh_reserved.
  - rewrite fmap_cons, Hp. apply list.NoDup_cons. split; [done|apply HR].
Qed.

Lemma receives_remove A R R' i side q0 q r : receives_held A R → queue_at A i side = Some q0 →
  R ≡ₚ r :: R' → receive_place r = (i, side) → ByteQueue.receive_reservation q = None →
  receives_held (set_queue A i side q) R'.
Proof.
  intros HR Hq HRp Hp Hnone. pose proof (rh_once _ _ HR) as Hnd.
  rewrite HRp, fmap_cons, Hp in Hnd. apply list.NoDup_cons in Hnd as [Hnin Hnd].
  split; [| |done].
  - intros r' Hin. eapply receiving_update; [done|apply HR; rewrite HRp; by right|].
    intros Hp'. destruct Hnin. rewrite <- Hp'. by apply list_elem_of_fmap_2.
  - intros j side' q' g Hq' Hg.
    apply (queue_at_update A i side q0 q Hq) in Hq' as [(-> & -> & ->)|[Hne Hj]]; [congruence|].
    pose proof (rh_reserved _ _ HR _ _ _ _ Hj Hg) as Hin. rewrite HRp, fmap_cons, Hp, elem_of_cons in Hin.
    destruct Hin as [[= -> ->]|]; [tauto|done].
Qed.

(** *** Cycles *)

Lemma acyclic_shrink A i side q0 q : queue_at A i side = Some q0 →
  (∀ m, m ∈ contents q → m ∈ contents q0) → acyclic A → acyclic (set_queue A i side q).
Proof.
  intros Hq Hsub. apply acyclic_mono. intros o o' He.
  apply (edge_set_queue A i side q0) in He as [He|[Hl Ho]]; [done| |done].
  exists i, side, q0. split_and!; [done..|]. apply elem_of_queued_channels in Ho as (m & Hm & Ho).
  apply elem_of_queued_channels. exists m. auto.
Qed.

Lemma acyclic_push A i side q0 q m e : queue_at A i side = Some q0 →
  endpoint_at A i side = Some e → contents q = contents q0 ++ [m] →
  ¬ reachable A (batch_objects_of_type (transfers m) DW_OBJECT_TYPE_CHANNEL) (endpoint_object e) →
  acyclic A → acyclic (set_queue A i side q).
Proof.
  intros Hq He Hc Hno Hac.
  refine (extend_acyclic (edge A) _ (endpoint_object e)
    (.∈ batch_objects_of_type (transfers m) DW_OBJECT_TYPE_CHANNEL) _ Hac _).
  - intros o o' Ho. pose proof Ho as Ho'.
    apply (edge_set_queue A i side q0) in Ho as [|[(e' & He' & Hobj) Hin]]; [by left| |done].
    rewrite He in He'. injection He' as <-. subst o.
    apply elem_of_queued_channels in Hin as (m' & Hm' & Hin). rewrite Hc in Hm'.
    apply elem_of_app in Hm' as [Hm'|Hm']; [left|right].
    + exists i, side, q0. split_and!; [by exists e|done|]. apply elem_of_queued_channels. by exists m'.
    + apply list_elem_of_singleton in Hm' as ->. done.
  - intros o Hin Hr. apply Hno. by exists o.
Qed.
