(* ===== verification/ChannelWaits.v ===== *)
(** * Channels and their waiters

    A change of a pair collects the waiters of both its endpoints in one
    batch: each block generation with a registration ready for the signals of
    its endpoint is woken once, and no batch overflows. *)

From stdpp Require Import base tactics numbers list sets relations gmultiset.
From Stdlib Require Import ZArith Lia.
From S2P Require Import Prelude Abi Object ObjectLedger HandleTable Wait WaitFacts WaitTheorems Channel ChannelQueue ChannelFacts ChannelCycle ChannelInvariant.
Import ChannelAuthority.
Local Open Scope Z_scope.

(** ** Collecting in steps *)

(** The batch [b] holds the generations with a registration ready for one of
    [sources], objects with the signals observed on them; the rest of the
    registry is as it was. *)
Record collected (W : WaitRegistry.t) (sources : list (ObjectId * DwSignals)) (W' : WaitRegistry.t)
    (b : WakeBatch.t) : Prop := {
  collected_rest : W' = cleared (intent_wake <$> wakes_in b) W;
  collected_once : NoDup (intent_wake <$> wakes_in b);
  collected_pins : pins_in b = (intent_wake <$> wakes_in b) ≫= pins_of (WaitRegistry.slots W);
  collected_batch : b = batch_of (length (WaitRegistry.slots W)) (wakes_in b) (pins_in b);
  collected_ready w : w ∈ intent_wake <$> wakes_in b ↔
    ∃ e o s, e ∈ WaitRegistry.entries W ∧ (o, s) ∈ sources ∧ WaitRegistry.is_ready o s e ∧
      wait_wake (wait_identity e) = w;
}.

Lemma collected_nil W : collected W [] W (WakeBatch.empty (length (WaitRegistry.slots W))).
Proof.
  rewrite batch_of_empty. split; rewrite ?wakes_in_batch, ?pins_in_batch; simpl.
  - destruct W as [d ss]. unfold cleared. simpl. f_equal. symmetry. rewrite <- (list_fmap_id ss) at 2.
    apply list_fmap_ext. intros. apply clear_nil.
  - apply base.NoDup_nil_2.
  - done.
  - done.
  - intros w. split; [by intros ?%elem_of_nil|]. by intros (e & o & s & _ & ?%elem_of_nil & _).
Qed.

Lemma length_le_bind {X Y} (f : X → list Y) xs : (∀ x, x ∈ xs → f x ≠ []) →
  (length xs ≤ length (xs ≫= f))%nat.
Proof.
  induction xs as [|x xs IH]; intros Hne; [done|]. rewrite bind_cons, length_app. simpl.
  assert (f x ≠ []) as Hx by (apply Hne; by left).
  assert (length xs ≤ length (xs ≫= f))%nat by (apply IH; intros; apply Hne; by right).
  destruct (f x); simpl; [done|lia].
Qed.

(** Generations that are registered have pins. *)
Lemma entry_pin W e : e ∈ WaitRegistry.entries W →
  wait_pin e ∈ pins_of (WaitRegistry.slots W) (wait_wake (wait_identity e)).
Proof.
  intros (s & Hs & He)%list_elem_of_omap. apply list_elem_of_omap. exists s. split; [done|].
  unfold WaitRegistry.of_generation. rewrite He, bool_decide_eq_true_2 by done. done.
Qed.

Lemma registered_fit W keys : NoDup keys →
  (∀ w, w ∈ keys → ∃ e, e ∈ WaitRegistry.entries W ∧ wait_wake (wait_identity e) = w) →
  (length keys ≤ length (WaitRegistry.slots W))%nat.
Proof.
  intros Hnd Hreg. etrans; [apply (length_le_bind (pins_of (WaitRegistry.slots W)))|by apply length_taken_pins].
  intros w Hw Hnil. destruct (Hreg w Hw) as (e & He & <-). apply entry_pin in He.
  rewrite Hnil in He. by apply elem_of_nil in He.
Qed.

(** What is ready once the generations [keys] were taken. *)
Lemma ready_keys_cleared object observed keys W w :
  w ∈ ready_keys object observed (WaitRegistry.slots (cleared keys W)) ↔
  (∃ e, e ∈ WaitRegistry.entries W ∧ WaitRegistry.is_ready object observed e ∧
     wait_wake (wait_identity e) = w) ∧ w ∉ keys.
Proof.
  split.
  - intros (i & s & e & Hi & He & Hr & <-)%elem_of_ready_keys.
    assert (e ∈ WaitRegistry.entries (cleared keys W)) as Hin.
    { apply list_elem_of_omap. exists s. split; [by eapply list_elem_of_lookup_2|done]. }
    apply entries_cleared in Hin as [Hin Hn]. split; [by exists e|done].
  - intros [(e & He & Hr & <-) Hn]. apply ready_entry_woken; [|done]. by apply entries_cleared.
Qed.

Lemma pins_bind_clear keys keys' ss : (∀ w, w ∈ keys' → w ∉ keys) →
  keys' ≫= pins_of (clear keys <$> ss) = keys' ≫= pins_of ss.
Proof.
  induction keys' as [|w keys' IH]; intros Hn; [done|].
  rewrite !bind_cons, IH by (intros; apply Hn; by right). f_equal. apply pins_of_clear, Hn. by left.
Qed.

(** The waiters of one more source. *)
Lemma collect_source W sources W' b object observed : collected W sources W' b →
  ∃ W'' ready b', (∀ E, WaitRegistry.take_ready (E:=E) object observed W' = Ret W'' ready) ∧
    (∀ S E (st : S), WakeBatch.append (E:=E) b ready st = Ret st b') ∧
    collected W (sources ++ [(object, observed)]) W'' b'.
Proof.
  intros [-> Hnd Hps Hb Hready]. set (K := intent_wake <$> wakes_in b) in *.
  set (W' := cleared K W).
  set (K' := ready_keys object observed (WaitRegistry.slots W')).
  pose proof (ready_keys_cleared object observed K W : ∀ w, w ∈ K' ↔ _) as HK'.
  assert (NoDup (K ++ K')) as HND.
  { apply list.NoDup_app. split_and!; [done| |apply NoDup_ready_keys]. by intros w Hw [_ Hn]%HK'. }
  assert (K' ≫= pins_of (WaitRegistry.slots W') = K' ≫= pins_of (WaitRegistry.slots W)) as Hpins.
  { apply pins_bind_clear. by intros w [_ Hn]%HK'. }
  assert (length (K ++ K') ≤ length (WaitRegistry.slots W))%nat as Hlen.
  { apply registered_fit; [done|]. intros w [Hw|[(e & He & _ & Hw) _]%HK']%elem_of_app; [|by exists e].
    apply Hready in Hw as (e & o & s & He & _ & _ & Hw). by exists e. }
  pose proof (length_taken_pins (WaitRegistry.slots W) _ HND) as Hlen'.
  rewrite bind_app, length_app in Hlen'. rewrite length_app in Hlen.
  unfold K in Hlen. rewrite length_fmap in Hlen.
  eexists _, _, (batch_of (length (WaitRegistry.slots W))
    (wakes_in b ++ (intent W' object observed <$> K')) (pins_in b ++ (K' ≫= pins_of (WaitRegistry.slots W')))).
  split_and!; [intros E; apply take_ready_eq| |].
  { intros S E st. fold K'. rewrite Hb at 1. apply append_batch; rewrite ?length_fmap, ?Hps, ?Hpins; lia. }
  fold K'.
  assert (intent_wake <$> (wakes_in b ++ (intent W' object observed <$> K')) = K ++ K') as HKK.
  { rewrite fmap_app. f_equal. rewrite <- list_fmap_compose. by apply list_fmap_id. }
  split; rewrite ?wakes_in_batch, ?pins_in_batch, ?HKK; [by rewrite <- cleared_cleared|done| |done|].
  - by rewrite bind_app, Hps, Hpins.
  - intros w. rewrite elem_of_app, HK', Hready. setoid_rewrite elem_of_app.
    setoid_rewrite list_elem_of_singleton. split.
    { intros [(e & o & s & ? & ? & ? & ?)|[(e & ? & ? & ?) _]]; [by exists e, o, s; auto|].
      exists e, object, observed. auto. }
    intros (e & o & s & He & [Hin|[= -> ->]] & Hr & Hw); [left; by exists e, o, s|].
    destruct (decide (w ∈ K)) as [HK|HK]; [left; exact (proj1 (Hready w) HK)|right]. split; [by exists e|]. by intros ?%Hready.
Qed.

(** ** The waiters of a pair *)

(** The signals of an open side. *)
Definition pair_signals (record : PairRecord) (side : ChannelSide.t) : DwSignals :=
  match signals_for_pair record side with Ok signals => signals | Err _ => 0 end.

Lemma signals_open record side e : at_side side (endpoints record) = Some e →
  signals_for_pair record side = Ok (pair_signals record side).
Proof. intros He. unfold pair_signals, signals_for_pair. by rewrite He. Qed.

Definition pair_sources (record : PairRecord) (sides : list ChannelSide.t)
    : list (ObjectId * DwSignals) :=
  omap (λ side, e ← at_side side (endpoints record);
                Some (endpoint_object e, pair_signals record side)) sides.

Lemma pair_sources_open record side e : at_side side (endpoints record) = Some e →
  pair_sources record [side] = [(endpoint_object e, pair_signals record side)].
Proof. intros He. unfold pair_sources. csimpl. by rewrite He. Qed.

Lemma collect_side {E} record side W sources W' b : collected W sources W' b →
  wp (E:=E) match at_side side (endpoints record) with
     | None => mret b
     | Some endpoint =>
         ready ← WaitRegistry.take_ready (endpoint_object endpoint) (pair_signals record side);
         WakeBatch.append b ready
     end W'
    (λ b' W'', collected W (sources ++ pair_sources record [side]) W'' b') (λ _ _, False).
Proof.
  intros Hc. unfold pair_sources. csimpl. destruct (at_side side (endpoints record)) as [e|]; simpl.
  - destruct (collect_source _ _ _ _ (endpoint_object e) (pair_signals record side) Hc) as (W'' & ready & b' & Ht & Ha & Hc').
    wp_step. eapply wp_eq; [apply Ht|]. by eapply wp_eq; [apply Ha|].
  - wp_step. by rewrite app_nil_r.
Qed.

Lemma collect_changed_wp record first second W :
  wp (collect_changed record first second) W
    (λ b W', collected W (pair_sources record [first; second]) W' b) (λ _ _, False).
Proof.
  unfold collect_changed. do 2 wp_step.
  apply (wp_for_each (λ pre b W', collected W (pair_sources record pre) W' b)).
  - apply collected_nil.
  - intros pre side post b W' _ Hc.
    pose proof (collect_side (E:=ChannelError.t) record side W _ _ _ Hc) as Hw.
    assert (pair_sources record (pre ++ [side]) = pair_sources record pre ++ pair_sources record [side]) as ->
      by apply omap_app.
    destruct (at_side side (endpoints record)) as [e|] eqn:He; [|exact Hw].
    wp_step. apply wp_lift. by rewrite (signals_open _ _ _ He).
  - done.
Qed.

Lemma elem_of_pair_sources record sides o s : (o, s) ∈ pair_sources record sides ↔
  ∃ side e, side ∈ sides ∧ at_side side (endpoints record) = Some e ∧ endpoint_object e = o ∧
    s = pair_signals record side.
Proof.
  unfold pair_sources. rewrite list_elem_of_omap. split.
  - intros (side & Hside & Hs). destruct (at_side side (endpoints record)) as [e|] eqn:He; [|done].
    simplify_eq/=. by exists side, e.
  - intros (side & e & Hside & He & <- & ->). exists side. split; [done|]. by rewrite He.
Qed.

(** ** No waiter is registered for signals it could observe *)

Definition quiet_pair (record : PairRecord) (W : WaitRegistry.t) : Prop :=
  ∀ side e entry, at_side side (endpoints record) = Some e → entry ∈ WaitRegistry.entries W →
    wait_object (wait_identity entry) = endpoint_object e →
    Z.land (wait_desired entry) (pair_signals record side) = 0.

Definition channels_quiet (A : t) (W : WaitRegistry.t) : Prop :=
  ∀ i record, record_at A i = Some record → quiet_pair record W.

Lemma quiet_fewer A W W' : (∀ e, e ∈ WaitRegistry.entries W' → e ∈ WaitRegistry.entries W) →
  channels_quiet A W → channels_quiet A W'.
Proof. intros Hsub Hq i record Hi side e entry He Hin. apply Hsub in Hin. by eapply Hq. Qed.

(** Collecting the waiters of every open endpoint leaves none to wake. *)
Lemma quiet_sides record sides W W' b : (∀ side, is_Some (at_side side (endpoints record)) → side ∈ sides) →
  collected W (pair_sources record sides) W' b → quiet_pair record W'.
Proof.
  intros Hsides [-> _ _ _ Hready] side e entry He [Hin Hk]%entries_cleared Hobj.
  destruct (Z.eq_dec (Z.land (wait_desired entry) (pair_signals record side)) 0) as [|Hne]; [done|].
  destruct Hk. apply Hready. exists entry, (endpoint_object e), (pair_signals record side).
  split_and!; [done| | |done].
  - apply elem_of_pair_sources. exists side, e. split_and!; [apply Hsides; by rewrite He|done..].
  - unfold WaitRegistry.is_ready. rewrite bool_decide_eq_true_2 by done. simpl.
    by rewrite (proj2 (Z.eqb_neq _ _) Hne).
Qed.

Lemma quiet_collected_pair record first W W' b :
  collected W (pair_sources record [first; ChannelSide.peer first]) W' b → quiet_pair record W'.
Proof. apply quiet_sides. intros side _. destruct first, side; set_solver. Qed.

Lemma collected_fewer W sources W' b entry : collected W sources W' b →
  entry ∈ WaitRegistry.entries W' → entry ∈ WaitRegistry.entries W.
Proof. by intros [-> _ _ _ _] [? _]%entries_cleared. Qed.

Lemma quiet_collected A A' W W' b i record first : channels_quiet A W →
  collected W (pair_sources record [first; ChannelSide.peer first]) W' b →
  record_at A' i = Some record → (∀ j, j ≠ i → record_at A' j = record_at A j) →
  channels_quiet A' W'.
Proof.
  intros Hq Hc Hi Hj j record' Hr. destruct (decide (j = i)) as [->|Hne].
  - rewrite Hi in Hr. injection Hr as <-. by eapply quiet_collected_pair.
  - rewrite Hj in Hr by done. destruct Hc as [-> _ _ _ _].
    intros side e entry He [Hin _]%entries_cleared. by eapply Hq.
Qed.

(** A pair whose signals are those of before. *)
Lemma quiet_same A A' W : channels_quiet A W →
  (∀ i record', record_at A' i = Some record' → ∃ record, record_at A i = Some record ∧
     endpoints record' = endpoints record ∧ ∀ side, pair_signals record' side = pair_signals record side) →
  channels_quiet A' W.
Proof.
  intros Hq Hsame i record' Hi side e entry He Hin Hobj.
  destruct (Hsame i record' Hi) as (record & Hr & Heps & Hsig). rewrite Hsig. rewrite Heps in He.
  by eapply Hq.
Qed.

(** ** Waiting for an endpoint *)

(** A waiter is registered only where nothing it asks for holds. *)
Lemma channel_register_wp A W target desired item_index thread wake : channels_wf A → wait_wf W →
  let pin := ResolvedHandle.reference target in
  wp (register_wait target desired item_index thread wake) (A, W)
    (λ outcome st, st.1 = A ∧ internal_type pin = DW_OBJECT_TYPE_CHANNEL ∧
       Z.land (ResolvedHandle.rights target) DW_RIGHT_WAIT = DW_RIGHT_WAIT ∧
       ∃ i side record e, record_at A i = Some record ∧ at_side side (endpoints record) = Some e ∧
         endpoint_object e = internal_id pin ∧
         match outcome with
         | ChannelWaitOutcome.Ready observed p => p = pin ∧ st.2 = W ∧
             observed = pair_signals record side ∧ Z.land observed desired ≠ 0
         | ChannelWaitOutcome.Registered registration =>
             Z.land (pair_signals record side) desired = 0 ∧
             WaitRegistry.register pin desired item_index thread wake W = Ret st.2 registration
         end)
    (λ failure st, st = (A, W) ∧ failure.2 = pin).
Proof.
  intros Hwf Hw pin. unfold register_wait, ResolvedHandle.into_internal. fold pin. cbv zeta.
  unfold ResolvedHandle.object_type, ResolvedHandle.object_id. fold pin.
  destruct (Z.eqb_spec (internal_type pin) DW_OBJECT_TYPE_CHANNEL) as [Hty|]; [|by wp_step].
  cbn [negb]. destruct (Z.eqb_spec (Z.land (ResolvedHandle.rights target) DW_RIGHT_WAIT) DW_RIGHT_WAIT)
    as [Hr|]; [|by wp_step].
  cbn [negb]. destruct (_ || _); [by wp_step|]. wp_step. apply wp_on_fst, wp_get. wp_step. apply wp_map_err, wp_lift.
  destruct (locate_cases A (internal_id pin) Hwf) as [(i & side & -> & Hl)|[-> Hno]]; [|done].
  destruct Hl as (e & He & Hid). unfold endpoint_at in He.
  destruct (record_at A i) as [record|] eqn:Hrec; [|done]. simpl in He.
  pose proof Hrec as (slot & Hi & Hs)%record_at_Some. cbn beta iota. wp_step. apply wp_map_err.
  unfold pair_at. wp_step. eapply wp_expect; [exact Hi|]. rewrite Hs. apply wp_ok_or.
  wp_step. apply wp_map_err, wp_lift. rewrite (signals_open record side e He).
  destruct (Z.eqb_spec (Z.land (pair_signals record side) desired) 0) as [Hz|Hnz]; cbn [negb].
  - wp_step. apply wp_on_snd, wp_map_err. pose proof (register_wp pin desired item_index thread wake W Hw) as Hreg.
    unfold wp in Hreg |- *. destruct (WaitRegistry.register _ _ _ _ _ W) as [W' reg|W' failure|] eqn:Hq; [| |done].
    + split_and!; [done..|]. by exists i, side, record, e.
    + by destruct Hreg as (-> & ? & _).
  - wp_step. split_and!; [done..|]. by exists i, side, record, e.
Qed.
