(* ===== verification/ChannelSend.v ===== *)
(** * Sending on a channel

    What [reserve_send], [cancel_send] and [commit_send] do to the authority,
    the payload pool and the reservations outstanding: each keeps the
    invariant, each error path gives back what was taken, and a committed
    message is appended to the peer's inbox and to no other. *)

From stdpp Require Import base tactics numbers list sets relations.
From Stdlib Require Import ZArith Lia.
From S2P Require Import Prelude Abi Object HandleTable Wait WaitFacts Channel ChannelQueue ChannelFacts ChannelCycle ChannelInvariant ChannelWaits.
Import ChannelAuthority.
Local Open Scope Z_scope.

(** Only send reservations changed: [gs] were added, [gs'] removed. *)
Record resent (q q' : ByteQueue.t) (gs gs' : list Z) : Prop := {
  resent_wf : queue_wf q' (contents q');
  resent_contents : contents q' = contents q;
  resent_depth : ByteQueue.depth q' = ByteQueue.depth q;
  resent_receive : ByteQueue.receive_reservation q' = ByteQueue.receive_reservation q;
  resent_reserved : gs ++ reserved q ≡ₚ gs' ++ reserved q';
}.

Lemma resent_refl q : queue_wf q (contents q) → resent q q [] [].
Proof. by split. Qed.

Lemma resent_trans q q' q'' g : resent q q' [g] [] → resent q' q'' [] [g] → resent q q'' [] [].
Proof.
  intros [_ Hc Hd Hr Hs] [Hwf' Hc' Hd' Hr' Hs']. split; [done|congruence..|].
  simpl in *. apply (Permutation_cons_inv (a := g)). by rewrite Hs, Hs'.
Qed.

Lemma set_queue_set_queue A i side q q' :
  set_queue (set_queue A i side q) i side q' = set_queue A i side q'.
Proof.
  unfold set_queue at 2 3. destruct (pairs A !! i) as [slot|] eqn:Hi.
  - unfold set_queue. simpl. rewrite list_lookup_insert_eq by (by eapply lookup_lt_Some).
    unfold with_slot. simpl. rewrite list_insert_insert_eq. do 3 f_equal.
    destruct (pair_record slot) as [record|]; [|done]. simpl. unfold put_queue. simpl.
    by destruct side, (inbound record).
  - unfold set_queue. by rewrite Hi.
Qed.

Lemma queue_at_set_queue_eq A i side q q0 : queue_at A i side = Some q0 →
  queue_at (set_queue A i side q) i side = Some q.
Proof. intros Hq. rewrite (queue_at_set_queue _ _ _ _ _ _ _ Hq). by rewrite decide_True. Qed.

Lemma slot_at_queue A i side q : queue_at A i side = Some q →
  ∃ slot record, pairs A !! i = Some slot ∧ pair_record slot = Some record ∧
    q = at_side side (inbound record) ∧ ∀ side', endpoint_at A i side' = at_side side' (endpoints record).
Proof.
  intros (slot & record & Hi & Hr & ->)%queue_at_Some. exists slot, record. split_and!; [done..|].
  intros side'. unfold endpoint_at, record_at. by rewrite Hi; simpl; rewrite Hr.
Qed.

Lemma slot_index A i slot record : channels_wf A → pairs A !! i = Some slot →
  pair_record slot = Some record → Z.of_nat i < 2 ^ 16.
Proof. intros Hwf Hi Hr. by eapply record_index, records_wf. Qed.

Lemma try_from_Some w z : z < 2 ^ w → try_from w z = Some z.
Proof. intros Hz. unfold try_from. by rewrite (proj2 (Z.ltb_lt _ _) Hz). Qed.

(** ** The queue of an open endpoint *)

Lemma queue_reserve_wp A i side q : channels_wf A → queue_at A i side = Some q →
  wp (on_queue i side ByteQueue.reserve_send) A
    (λ g A', ∃ q', A' = set_queue A i side q' ∧ resent q q' [g] [])
    (λ error A', A' = set_queue A i side q ∧
       (error = ChannelError.WouldBlock ∧
          (ByteQueue.depth q ≤ length (contents q) + length (reserved q))%nat ∨
        error = ChannelError.Capacity ∧ ByteQueue.next_send_generation q = 2 ^ 64 - 1)).
Proof.
  intros Hwf Hq. eapply wp_on_queue; [done|].
  eapply wp_mono; [apply reserve_send_wp; by eapply queue_at_wf| |].
  - intros g q' (Hwf' & Hp & _ & _ & rs & ->). exists (ByteQueue.set_send rs g q). split; [done|].
    split; [by eapply queue_wf_contents|by apply contents_wf|done|done|by symmetry].
  - intros error q' (-> & H). done.
Qed.

Lemma queue_cancel_wp A i side q g : channels_wf A → queue_at A i side = Some q →
  wp (on_queue i side (ByteQueue.cancel_send g)) A
    (λ _ A', g ∈ reserved q ∧ ∃ q', A' = set_queue A i side q' ∧ resent q q' [] [g])
    (λ error A', A' = set_queue A i side q ∧ (g ∉ reserved q) ∧ error = ChannelError.StalePair).
Proof.
  intros Hwf Hq. eapply wp_on_queue; [done|].
  eapply wp_mono; [apply cancel_send_wp; by eapply queue_at_wf| |].
  - intros [] q' (Hwf' & Hg & Hp & rs & ->). split; [done|]. eexists. split; [done|].
    split; [by eapply queue_wf_contents|by apply contents_wf|done|done|by symmetry].
  - intros error q' (-> & H). done.
Qed.

Lemma set_queue_same A i side q : queue_at A i side = Some q → set_queue A i side q = A.
Proof.
  intros (slot & record & Hi & Hr & ->)%queue_at_Some. unfold set_queue. rewrite Hi, Hr.
  destruct A as [d ps], slot as [g o]. simpl in *. subst o. unfold with_slot. simpl. f_equal.
  apply list_insert_id. rewrite Hi. do 3 f_equal. unfold put_queue. destruct record as [es qs]. simpl.
  f_equal. by destruct side, qs.
Qed.

(** An open endpoint's queue after a change of its send reservations. *)
Lemma resent_inv A P S R i side q q' P' S' gs gs' : channel_inv A P S R →
  queue_at A i side = Some q → is_Some (endpoint_at A i side) → resent q q' gs gs' →
  sends_held (set_queue A i side q') S' →
  pool_wf P' → frame (queued_tokens A ++ omap send_payload S) P P' →
  pool_owns P' (queued_tokens A ++ omap send_payload S') →
  (∀ r, r ∈ S' → payload_ok P' (send_byte_len r) (send_payload r)) →
  channel_inv (set_queue A i side q') P' S' R.
Proof.
  intros [Hwf Hp Hs Hr Hac] Hq [e He] [Hwf' Hc Hd Hrr Hres] Hs' HP' Hf Ho Hok. split.
  - eapply set_queue_wf; [done..|]. by rewrite He.
  - eapply payloads_update; [done..| | |done].
    + eapply pool_owns_perm; [|exact Ho]. f_equiv. symmetry. by eapply queued_tokens_keep.
    + rewrite Hc. by eapply messages_at_frame.
  - done.
  - eapply receives_keep; [done..|]. by rewrite Hc.
  - eapply acyclic_shrink; [done| |done]. by rewrite Hc.
Qed.

(** What endpoints have been sent does not depend on reservations. *)
Lemma resent_inbox A P S R i side q q' P' gs gs' j side' : channel_inv A P S R →
  queue_at A i side = Some q → resent q q' gs gs' →
  frame (queued_tokens A ++ omap send_payload S) P P' →
  inbox (set_queue A i side q') P' j side' = inbox A P j side'.
Proof.
  intros Hinv Hq Hre Hf. rewrite (inbox_update A i side q q' Hq P P' S) by (apply Hinv || done).
  case_decide as Hc; [|done]. destruct Hc as [-> ->]. unfold inbox. rewrite Hq. simpl. f_equal.
  rewrite (resent_contents _ _ _ _ Hre). eapply messages_at_frame; [by apply Hinv|done..].
Qed.

(** ** Making a reservation *)

(** Why a send is refused before anything is taken. *)
Inductive send_refused (A : t) (P : PayloadPool.t) (object : ObjectId) (bytes : list Z)
    : ChannelError.t → Prop :=
| refused_length : (Z.to_nat DW_CHANNEL_MAX_PAYLOAD < length bytes)%nat →
    send_refused A P object bytes ChannelError.InvalidArgument
| refused_endpoint : (∀ i side, ¬ located A object i side) →
    send_refused A P object bytes ChannelError.InvalidEndpoint
| refused_peer i side : located A object i side → endpoint_at A i (ChannelSide.peer side) = None →
    send_refused A P object bytes ChannelError.PeerClosed
| refused_full i side q : located A object i side → is_Some (endpoint_at A i (ChannelSide.peer side)) →
    queue_at A i (ChannelSide.peer side) = Some q →
    (ByteQueue.depth q ≤ length (contents q) + length (reserved q))%nat →
    send_refused A P object bytes ChannelError.WouldBlock
| refused_generation i side q : located A object i side → is_Some (endpoint_at A i (ChannelSide.peer side)) →
    queue_at A i (ChannelSide.peer side) = Some q →
    ByteQueue.next_send_generation q = 2 ^ 64 - 1 →
    send_refused A P object bytes ChannelError.Capacity
| refused_payload : bytes ≠ [] → class_spent PayloadClass.Large P →
    ((length bytes ≤ SMALL_PAYLOAD_BYTES)%nat → small_refused P) →
    send_refused A P object bytes ChannelError.PayloadExhausted.

(** The reservation [r] for [bytes] from the endpoint on [side] of slot [i]. *)
Definition reservation_made (A : t) (P : PayloadPool.t) (i : nat) (side : ChannelSide.t)
    (bytes : list Z) (r : ChannelSendReservation) : Prop :=
  targets A i (ChannelSide.peer side) r = true ∧ key_slot (send_pair r) = i ∧ send_side r = side ∧
  payload_of P (send_byte_len r) (send_payload r) = bytes.

(** Nothing but send reservations of one queue changed. *)
Definition only_resent (A : t) (i : nat) (side : ChannelSide.t) (gs : list Z) (A' : t) : Prop :=
  ∃ q q', queue_at A i side = Some q ∧ A' = set_queue A i side q' ∧ resent q q' gs [].

(** The bytes are stored in a slot of the pool, unless there are none. *)
Definition bytes_stored (P : PayloadPool.t) (tokens : list PayloadToken) (bytes : list Z)
    (o : option PayloadToken) (P' : PayloadPool.t) : Prop :=
  pool_wf P' ∧ pool_owns P' (option_list o ++ tokens) ∧ frame tokens P P' ∧
  payload_ok P' (Z.of_nat (length bytes)) o ∧ payload_of P' (Z.of_nat (length bytes)) o = bytes.

Lemma allocate_stored bytes P tokens : pool_wf P → pool_owns P tokens →
  (length bytes ≤ Z.to_nat DW_CHANNEL_MAX_PAYLOAD)%nat →
  wp (PayloadPool.allocate bytes) P (λ o P', bytes_stored P tokens bytes o P')
    (λ error P', error = ChannelError.PayloadExhausted ∧ P' = P ∧ bytes ≠ [] ∧
       class_spent PayloadClass.Large P ∧
       ((length bytes ≤ SMALL_PAYLOAD_BYTES)%nat → small_refused P)).
Proof.
  intros Hwf Ho Hlen. eapply wp_mono; [by apply allocate_wp| |done].
  intros [token|] P'; [|by intros [-> ->]; split_and!].
  intros (Hne & Hwf' & Ho' & Hb & Hf & Hfit).
  assert (length bytes ≤ length (bytes_of P' token))%nat as Hl.
  { rewrite <- Hb at 1. rewrite length_take. lia. }
  split_and!; [done..| |].
  - simpl. rewrite Nat2Z.id. split; [|done]. split; [destruct bytes; simpl; [done|lia]|].
    revert Hlen. change DW_CHANNEL_MAX_PAYLOAD with 65536. lia.
  - simpl. by rewrite Nat2Z.id.
Qed.

(** The place of an endpoint, and the queue of its peer. *)
Lemma located_pair A object i side : located A object i side →
  ∃ slot record, pairs A !! i = Some slot ∧ pair_record slot = Some record ∧
    (∀ side', endpoint_at A i side' = at_side side' (endpoints record)) ∧
    ∀ side', queue_at A i side' = Some (at_side side' (inbound record)).
Proof.
  intros Hl. destruct (located_queue _ _ _ _ Hl side) as [q Hq].
  destruct (slot_at_queue _ _ _ _ Hq) as (slot & record & Hi & Hr & _ & He). exists slot, record.
  split_and!; [done..|]. intros side'. unfold queue_at, record_at. by rewrite Hi; simpl; rewrite Hr.
Qed.

Lemma is_none_false {X} (o : option X) : is_none o = false ↔ is_Some o.
Proof. destruct o; simpl; naive_solver. Qed.

(** The payloads of the reservations are framed too. *)
Lemma reserved_payload_frame A P S P' r : payloads_owned A P S →
  frame (queued_tokens A ++ omap send_payload S) P P' → r ∈ S →
  payload_ok P' (send_byte_len r) (send_payload r).
Proof.
  intros Hp Hf Hin. eapply payload_ok_frame; [|by apply Hp]. eapply frame_subset; [|exact Hf].
  intros token Htok. apply elem_of_app. right. apply list_elem_of_omap. exists r. split; [done|].
  destruct (send_payload r); simpl in Htok; [|by apply elem_of_nil in Htok].
  by apply list_elem_of_singleton in Htok as ->.
Qed.

Lemma reservation_inv A P S R i side q q' P' bytes r : channel_inv A P S R →
  queue_at A i side = Some q → is_Some (endpoint_at A i side) →
  resent q q' [send_generation r] [] → targets A i side r = true →
  bytes_stored P (queued_tokens A ++ omap send_payload S) bytes (send_payload r) P' →
  send_byte_len r = Z.of_nat (length bytes) → channel_inv (set_queue A i side q') P' (r :: S) R.
Proof.
  intros Hinv Hq He Hre Ht (HP' & Ho & Hf & Hok & Hb) Hlen.
  eapply resent_inv; [done..| |done|done| |].
  - eapply sends_add; [apply Hinv|done..|]. symmetry. apply (resent_reserved _ _ _ _ Hre).
  - eapply pool_owns_perm; [|exact Ho]. csimpl. destruct (send_payload r); simpl; solve_Permutation.
  - intros r' [->|Hin]%elem_of_cons; [by rewrite Hlen|]. eapply reserved_payload_frame; [apply Hinv|done..].
Qed.

(** Withdrawing the reservation when there is no room for the bytes. *)
Lemma unreserve_wp A P S R i side q q' g : channel_inv A P S R →
  queue_at A i side = Some q → is_Some (endpoint_at A i side) → resent q q' [g] [] →
  wp (E:=ChannelError.t) (unwrap (on_queue i side (ByteQueue.cancel_send g))) (set_queue A i side q')
    (λ _ A', channel_inv A' P S R ∧ only_resent A i side [] A') (λ _ _, False).
Proof.
  intros Hinv Hq He Hre. apply wp_unwrap.
  assert (channels_wf (set_queue A i side q')) as Hwf'.
  { eapply set_queue_wf; [apply Hinv|done|apply Hre|]. intros Hn. rewrite Hn in He. by destruct He. }
  eapply wp_mono; [eapply queue_cancel_wp; [done|by eapply queue_at_set_queue_eq]| |].
  - intros [] A' (_ & q'' & -> & Hre'). rewrite set_queue_set_queue.
    pose proof (resent_trans _ _ _ _ Hre Hre') as Hre2. split; [|by exists q, q''].
    pose proof Hinv as [_ Hp Hs _ _]. eapply resent_inv; [done..| |apply Hp|done|apply Hp|apply Hp].
    eapply sends_keep; [done..|]. symmetry. apply (resent_reserved _ _ _ _ Hre2).
  - intros error A' (_ & [] & _). pose proof (resent_reserved _ _ _ _ Hre) as Hp'. simpl in Hp'.
    rewrite <- Hp'. by left.
Qed.

Lemma reserve_send_kept A P S R object bytes : channel_inv A P S R →
  wp (reserve_send {| endpoint_object_id := object |} bytes) (A, P)
    (λ r st, ∃ i side, located A object i side ∧ is_Some (endpoint_at A i (ChannelSide.peer side)) ∧
       only_resent A i (ChannelSide.peer side) [send_generation r] st.1 ∧
       frame (queued_tokens A ++ omap send_payload S) P st.2 ∧
       channel_inv st.1 st.2 (r :: S) R ∧ reservation_made st.1 st.2 i side bytes r)
    (λ error st, send_refused A P object bytes error ∧ st.2 = P ∧ channel_inv st.1 P S R ∧
       (st.1 = A ∨ ∃ i side, located A object i side ∧ only_resent A i (ChannelSide.peer side) [] st.1)).
Proof.
  intros Hinv. pose proof Hinv as [Hwf Hp Hs Hr Hac]. unfold reserve_send.
  destruct (Nat.ltb_spec (Z.to_nat DW_CHANNEL_MAX_PAYLOAD) (length bytes)) as [Hlong|Hlen].
  { wp_step. split_and!; [by constructor|done..|by left]. }
  wp_step. apply wp_on_fst. wp_step. wp_step. wp_step.
  destruct (locate_cases A object Hwf) as [(i & side & -> & Hl)|[-> Hno]].
  2:{ split_and!; [by constructor|done..|by left]. }
  destruct (located_pair _ _ _ _ Hl) as (slot & record & Hi & Hrec & Hep & Hqs).
  wp_step. eapply wp_expect; [done|]. wp_step. rewrite Hrec. apply wp_ok_or. cbv zeta.
  destruct (is_none (at_side (ChannelSide.peer side) (endpoints record))) eqn:Hpeer.
  { wp_step. split_and!; [|done..|by left]. econstructor; [done|]. rewrite Hep.
    by destruct (at_side (ChannelSide.peer side) (endpoints record)). }
  apply is_none_false in Hpeer. rewrite <- Hep in Hpeer.
  specialize (Hqs (ChannelSide.peer side)). set (q := at_side _ (inbound record)) in *.
  wp_step. apply wp_on_fst. eapply wp_mono; [by apply queue_reserve_wp| |].
  2:{ intros error A' [-> Herr]. rewrite set_queue_same by done. split_and!; [|done..|by left].
      destruct Herr as [[-> ?]|[-> ?]]; by econstructor. }
  intros g A' (q' & -> & Hre). wp_step. apply wp_on_snd, wp_try.
  eapply wp_mono; [apply (allocate_stored bytes P (queued_tokens A ++ omap send_payload S)); [apply Hp..|done]| |].
  - intros o P' Hst. wp_step.
    rewrite try_from_Some by (by eapply slot_index). apply wp_ok_or. wp_step.
    assert (Z.of_nat (length bytes) < 2 ^ 32) as H32.
    { revert Hlen. change DW_CHANNEL_MAX_PAYLOAD with 65536. lia. }
    eapply wp_expect; [by apply try_from_Some|]. wp_step. rewrite Nat2Z.id.
    set (r := {| send_pair := _ |}). exists i, side.
    assert (targets A i (ChannelSide.peer side) r = true) as Ht.
    { unfold targets. simpl. rewrite Hi, !Z.eqb_refl, Nat.eqb_refl, bool_decide_eq_true_2 by done. done. }
    split_and!; [done..|by exists q, q'|apply Hst|by eapply reservation_inv|].
    split_and!; [|done..|apply Hst]. simpl. rewrite (targets_same A); [done|apply same_places_set_queue].
  - intros error P' (-> & -> & Hne & Hl1 & Hl2). wp_step. apply wp_on_fst.
    eapply wp_mono; [by eapply unreserve_wp| |done]. intros [] A' [Hinv' Hre']. wp_step.
    split_and!; [by constructor|done..|]. right. by exists i, side.
Qed.

(** ** Giving a reservation up *)

(** The authority without the reservation [r], which may have been lost to
    the closing of its queue already. *)
Definition abandoned (A : t) (r : ChannelSendReservation) (A' : t) : Prop :=
  A' = A ∨ ∃ i side q q', queue_at A i side = Some q ∧ is_Some (endpoint_at A i side) ∧
    targets A i side r = true ∧ A' = set_queue A i side q' ∧ resent q q' [] [send_generation r].

Lemma targets_key A i side r : targets A i side r = true →
  i = key_slot (send_pair r) ∧ side = ChannelSide.peer (send_side r).
Proof.
  unfold targets. rewrite !andb_true_iff, Nat.eqb_eq, bool_decide_eq_true. intros [[[_ ->] ->] _]. done.
Qed.

Section abandon.
Context (A : t) (P : PayloadPool.t) (S S' : list ChannelSendReservation)
  (R : list ChannelReceiveReservation) (r : ChannelSendReservation).
Hypothesis (Hinv : channel_inv A P S R) (HS : S ≡ₚ r :: S').

Lemma release_reserved {E} :
  wp (E:=E) (PayloadPool.release_payload (send_payload r)) P
    (λ _ P', given_up P (queued_tokens A ++ omap send_payload S') P') (λ _ _, False).
Proof using Hinv HS.
  apply release_payload_wp; [apply Hinv|]. eapply pool_owns_perm; [|by apply Hinv].
  rewrite HS. csimpl. destruct (send_payload r); simpl; solve_Permutation.
Qed.

(** A reservation with nothing to withdraw. *)
Lemma forget_inv P' : sends_held A S' → given_up P (queued_tokens A ++ omap send_payload S') P' →
  channel_inv A P' S' R.
Proof using Hinv HS.
  intros Hs (HP' & Ho & Hb). pose proof Hinv as [Hwf Hp _ Hr Hac]. split; [done| |done..].
  assert (frame (queued_tokens A ++ omap send_payload S) P P') as Hf by (by intros token _).
  split; [done..| |].
  - intros i side q Hq. by eapply messages_at_frame.
  - intros r' Hr'. eapply reserved_payload_frame; [done..|]. rewrite HS. by right.
Qed.

Lemma withdraw_inv i side q q' P' : queue_at A i side = Some q → is_Some (endpoint_at A i side) →
  targets A i side r = true → resent q q' [] [send_generation r] →
  given_up P (queued_tokens A ++ omap send_payload S') P' →
  channel_inv (set_queue A i side q') P' S' R.
Proof using Hinv HS.
  intros Hq He Ht Hre (HP' & Ho & Hb).
  assert (frame (queued_tokens A ++ omap send_payload S) P P') as Hf by (by intros token _).
  eapply resent_inv; [done..| |done|done|done|].
  - eapply sends_remove; [apply Hinv|done..|]. symmetry. apply (resent_reserved _ _ _ _ Hre).
  - intros r' Hr'. eapply reserved_payload_frame; [apply Hinv|done|]. rewrite HS. by right.
Qed.

(** A reservation of a closed queue is not in it any more. *)
Lemma closed_forgets : (∀ i side, targets A i side r = true → endpoint_at A i side = None) →
  sends_held A S'.
Proof using Hinv HS. intros Hc. eapply sends_forget; [apply Hinv|done..]. Qed.

Lemma withdraw_wp i side q : queue_at A i side = Some q → targets A i side r = true →
  wp (on_queue i side (ByteQueue.cancel_send (send_generation r))) A
    (λ _ A', is_Some (endpoint_at A i side) ∧ ∃ q', A' = set_queue A i side q' ∧
       resent q q' [] [send_generation r])
    (λ error A', A' = A ∧ error = ChannelError.StalePair ∧ endpoint_at A i side = None).
Proof using Hinv HS.
  intros Hq Ht. pose proof Hinv as [Hwf _ Hs _ _].
  eapply wp_mono; [by apply queue_cancel_wp| |].
  - intros [] A' (Hg & q' & -> & Hre). split; [|by exists q'].
    destruct (endpoint_at A i side) eqn:He; [done|].
    destruct (queue_at_idle _ _ _ _ Hwf Hq He) as (_ & Hn & _). rewrite Hn in Hg. by apply elem_of_nil in Hg.
  - intros error A' (-> & Hg & ->). rewrite set_queue_same by done. split_and!; [done..|].
    destruct (endpoint_at A i side) eqn:He; [|done]. destruct Hg.
    rewrite (sh_reserved _ _ Hs _ _ _ Hq) by done.
    rewrite (issued_perm _ _ _ _ _ HS), issued_cons, Ht. by left.
Qed.

(** The error paths of [commit_send]. *)
Definition send_undone (W : WaitRegistry.t) (st : t * PayloadPool.t * WaitRegistry.t) : Prop :=
  st.2 = W ∧ channel_inv st.1.1 st.1.2 S' R ∧ abandoned A r st.1.1 ∧
  frame (queued_tokens A ++ omap send_payload S) P st.1.2.

Lemma refuse_wp {X} W transfers error : sends_held A S' →
  wp (refuse_send (A:=X) r transfers error) (A, P, W) (λ _ _, False)
    (λ failure st, failure = (error, transfers) ∧ send_undone W st).
Proof using Hinv HS.
  intros Hs. unfold refuse_send. wp_step. apply wp_on_fst, wp_on_snd.
  eapply wp_mono; [apply release_reserved| |done]. intros [] P' Hup. wp_step. split; [done|].
  split_and!; [done|by apply forget_inv|by left|by intros token _; apply Hup].
Qed.

Lemma drop_refuse_wp {X} W transfers error q :
  queue_at A (key_slot (send_pair r)) (ChannelSide.peer (send_side r)) = Some q →
  targets A (key_slot (send_pair r)) (ChannelSide.peer (send_side r)) r = true →
  wp (drop_reservation r;; refuse_send (A:=X) r transfers error) (A, P, W) (λ _ _, False)
    (λ failure st, failure = (error, transfers) ∧ send_undone W st).
Proof using Hinv HS.
  intros Hq Ht. wp_step. unfold drop_reservation. wp_step. apply wp_on_fst, wp_on_fst, wp_try.
  eapply wp_mono; [by apply withdraw_wp| |].
  - intros [] A' (He & q' & -> & Hre). wp_step. unfold refuse_send. wp_step. apply wp_on_fst, wp_on_snd.
    eapply wp_mono; [apply release_reserved| |done]. intros [] P' Hup. wp_step. split; [done|].
    split_and!; [done|by eapply withdraw_inv| |by intros token _; apply Hup].
    right. by eexists _, _, q, q'.
  - intros e A' (-> & _ & Hc). wp_step. apply refuse_wp. apply closed_forgets. intros j side' Ht'.
    by destruct (targets_place _ _ _ _ _ _ Ht Ht') as [-> ->].
Qed.

End abandon.

(** The pair a reservation was made on is live, or nothing is left to
    withdraw. *)
Lemma reservation_pair A S r : sends_held A S → r ∈ S →
  key_domain (send_pair r) = domain A ∧
  ∃ slot, pairs A !! key_slot (send_pair r) = Some slot ∧
    ((pair_generation slot = key_generation (send_pair r) ∧ ∃ record, pair_record slot = Some record ∧
        targets A (key_slot (send_pair r)) (ChannelSide.peer (send_side r)) r = true) ∨
     (pair_generation slot ≠ key_generation (send_pair r) ∨ pair_record slot = None) ∧
       ∀ i side, targets A i side r = true → endpoint_at A i side = None).
Proof.
  intros Hs Hr. destruct (sh_keys _ _ Hs r Hr) as (Hd & slot & Hslot & _). split; [done|].
  exists slot. split; [done|].
  assert (∀ i side, targets A i side r = true → i = key_slot (send_pair r) ∧
    pair_generation slot = key_generation (send_pair r)) as Hkey.
  { intros i side Ht. pose proof Ht as Ht'. apply targets_key in Ht' as [-> ->]. split; [done|].
    unfold targets in Ht. rewrite Hslot, !andb_true_iff, !Z.eqb_eq in Ht. symmetry. apply Ht. }
  destruct (decide (pair_generation slot = key_generation (send_pair r))) as [Hg|Hg].
  - destruct (pair_record slot) as [record|] eqn:Hrec.
    + left. split; [done|]. exists record. split; [done|]. unfold targets.
      rewrite Hslot, Hd, Hg, !Z.eqb_refl, Nat.eqb_refl, bool_decide_eq_true_2 by done. done.
    + right. split; [by right|]. intros i side [-> _]%Hkey. unfold endpoint_at, record_at.
      by rewrite Hslot; simpl; rewrite Hrec.
  - right. split; [by left|]. intros i side [_ ?]%Hkey. done.
Qed.

Lemma slot_queue A i slot record side : pairs A !! i = Some slot → pair_record slot = Some record →
  queue_at A i side = Some (at_side side (inbound record)).
Proof. intros Hi Hr. apply queue_at_Some. by exists slot, record. Qed.

Lemma cancel_send_kept A P S S' R r : channel_inv A P S R → S ≡ₚ r :: S' →
  wp (cancel_send r) (A, P)
    (λ _ st, channel_inv st.1 st.2 S' R ∧ abandoned A r st.1 ∧
       frame (queued_tokens A ++ omap send_payload S) P st.2)
    (λ error st, error = ChannelError.StalePair ∧ channel_inv st.1 st.2 S' R ∧ st.1 = A ∧
       frame (queued_tokens A ++ omap send_payload S) P st.2).
Proof.
  intros Hinv HS. assert (r ∈ S) as Hr by (rewrite HS; by left).
  destruct (reservation_pair A S r (ci_sends _ _ _ _ Hinv) Hr) as (Hd & slot & Hslot & Hcase).
  assert ((∀ i side, targets A i side r = true → endpoint_at A i side = None) →
    wp (on_snd (PayloadPool.release_payload (send_payload r));; lift (Err ChannelError.StalePair)) (A, P)
      (λ (_ : unit) st, channel_inv st.1 st.2 S' R ∧ abandoned A r st.1 ∧
         frame (queued_tokens A ++ omap send_payload S) P st.2)
      (λ error st, error = ChannelError.StalePair ∧ channel_inv st.1 st.2 S' R ∧ st.1 = A ∧
         frame (queued_tokens A ++ omap send_payload S) P st.2)) as Hstale.
  { intros Hc. wp_step. apply wp_on_snd. eapply wp_mono; [by eapply release_reserved| |done].
    intros [] P' Hup. apply wp_lift. split_and!; [done| |done|by intros token _; apply Hup].
    eapply forget_inv; [done..| |done]. by eapply closed_forgets. }
  unfold cancel_send. cbv zeta. wp_step. apply wp_on_fst. wp_step. wp_step.
  rewrite Hd, Z.eqb_refl. cbn [negb]. rewrite Hslot.
  destruct Hcase as [(Hg & record & Hrec & Ht)|[Hbad Hc]].
  - rewrite Hg, Z.eqb_refl, Hrec. cbn [negb].
    pose proof (slot_queue _ _ _ _ (ChannelSide.peer (send_side r)) Hslot Hrec) as Hq.
    wp_step. apply wp_on_fst, wp_try. eapply wp_mono; [by eapply withdraw_wp| |].
    + intros [] A' (He & q' & -> & Hre). wp_step. wp_step. apply wp_on_snd.
      eapply wp_mono; [by eapply release_reserved| |done]. intros [] P' Hup. apply wp_lift.
      split_and!; [by eapply withdraw_inv| |by intros token _; apply Hup]. right. by eexists _, _, _, _.
    + intros error A' (-> & _ & Hc). wp_step. apply Hstale. intros i side Ht'.
      by destruct (targets_place _ _ _ _ _ _ Ht Ht') as [-> ->].
  - specialize (Hstale Hc). destruct (Z.eqb_spec (pair_generation slot) (key_generation (send_pair r))); cbn [negb].
    + destruct Hbad as [?| -> ]; [done|]. wp_step. exact Hstale.
    + wp_step. exact Hstale.
Qed.

(** ** Committing *)

(** The message [r] and [transfers] make. *)
Definition sent_message (r : ChannelSendReservation) (transfers : HandleTransferBatch) : QueuedMessage :=
  {| byte_len := send_byte_len r; payload := send_payload r; Channel.transfers := transfers |}.

Lemma commit_inv A P S S' R r transfers i side q q' e : channel_inv A P S R → S ≡ₚ r :: S' →
  queue_at A i side = Some q → endpoint_at A i side = Some e → targets A i side r = true →
  (length transfers ≤ HANDLE_TRANSFER_LIMIT)%nat →
  ¬ reachable A (batch_objects_of_type transfers DW_OBJECT_TYPE_CHANNEL) (endpoint_object e) →
  queue_wf q' (contents q ++ [sent_message r transfers]) →
  send_generation r :: reserved q' ≡ₚ reserved q →
  ByteQueue.receive_reservation q' = ByteQueue.receive_reservation q →
  channel_inv (set_queue A i side q') P S' R.
Proof.
  intros [Hwf Hp Hs HR Hac] HS Hq He Ht Hlim Hno Hwf' Hres Hrecv.
  pose proof (contents_wf _ _ Hwf') as Hc.
  assert (r ∈ S) as Hr by (rewrite HS; by left). split.
  - eapply set_queue_wf; [done..| |by rewrite He]. by rewrite Hc.
  - eapply payloads_update; [done..|apply Hp|done| | |].
    + eapply pool_owns_perm; [|by apply Hp].
      rewrite (queued_tokens_push A i side q q' Hq _ Hc), HS. csimpl.
      destruct (send_payload r); simpl; solve_Permutation.
    + rewrite Hc. apply Forall_app. split; [by eapply po_messages|]. apply Forall_singleton.
      split; [by apply Hp|done].
    + intros r' Hr'. apply Hp. rewrite HS. by right.
  - by eapply sends_remove.
  - eapply receives_keep; [done..|]. rewrite Hc. by apply prefix_app_r.
  - by eapply acyclic_push.
Qed.

(** Why a commit is refused. *)
Inductive commit_refused (A : t) (r : ChannelSendReservation) (transfers : HandleTransferBatch)
    : ChannelError.t → Prop :=
| refused_stale : (∀ i side, targets A i side r = true → endpoint_at A i side = None) →
    commit_refused A r transfers ChannelError.StalePair
| refused_sender : endpoint_at A (key_slot (send_pair r)) (send_side r) = None →
    commit_refused A r transfers ChannelError.InvalidEndpoint
| refused_closed : endpoint_at A (key_slot (send_pair r)) (ChannelSide.peer (send_side r)) = None →
    commit_refused A r transfers ChannelError.PeerClosed
| refused_cycle e : endpoint_at A (key_slot (send_pair r)) (ChannelSide.peer (send_side r)) = Some e →
    reachable A (batch_objects_of_type transfers DW_OBJECT_TYPE_CHANNEL) (endpoint_object e) →
    commit_refused A r transfers ChannelError.InvalidArgument
| refused_dangling o : reachable A (batch_objects_of_type transfers DW_OBJECT_TYPE_CHANNEL) o →
    dangling A o → commit_refused A r transfers ChannelError.StalePair.

(** The message was appended to the peer's queue and both sides' waiters
    collected. *)
Record committed (A : t) (W : WaitRegistry.t) (r : ChannelSendReservation)
    (transfers : HandleTransferBatch) (A' : t) (W' : WaitRegistry.t) (b : WakeBatch.t) : Prop := {
  committed_target : targets A (key_slot (send_pair r)) (ChannelSide.peer (send_side r)) r = true;
  committed_sender : is_Some (endpoint_at A (key_slot (send_pair r)) (send_side r));
  committed_queue : ∃ q q',
    queue_at A (key_slot (send_pair r)) (ChannelSide.peer (send_side r)) = Some q ∧
    A' = set_queue A (key_slot (send_pair r)) (ChannelSide.peer (send_side r)) q' ∧
    contents q' = contents q ++ [sent_message r transfers] ∧
    ByteQueue.depth q' = ByteQueue.depth q;
  committed_acyclic : ∃ e,
    endpoint_at A (key_slot (send_pair r)) (ChannelSide.peer (send_side r)) = Some e ∧
    ¬ reachable A (batch_objects_of_type transfers DW_OBJECT_TYPE_CHANNEL) (endpoint_object e);
  committed_wakes : ∃ record, record_at A' (key_slot (send_pair r)) = Some record ∧
    collected W (pair_sources record [ChannelSide.peer (send_side r); send_side r]) W' b;
}.

(** Appending to an open queue and waking the two endpoints. *)
Lemma commit_queue_wp A P W S S' R r transfers q e : channel_inv A P S R → S ≡ₚ r :: S' →
  let i := key_slot (send_pair r) in let side := ChannelSide.peer (send_side r) in
  queue_at A i side = Some q → endpoint_at A i side = Some e → is_Some (endpoint_at A i (send_side r)) →
  targets A i side r = true → (length transfers ≤ HANDLE_TRANSFER_LIMIT)%nat →
  ¬ reachable A (batch_objects_of_type transfers DW_OBJECT_TYPE_CHANNEL) (endpoint_object e) →
  wp (E:=ChannelError.t * HandleTransferBatch)
     (on_fst (on_fst (on_queue i side (ByteQueue.commit_send (send_generation r) (sent_message r transfers))));;
      self ← on_fst (on_fst get);
      pair ← unwrap (pair_at self i);
      on_snd (unwrap (collect_changed pair side (send_side r)))) (A, P, W)
    (λ b st, st.1.2 = P ∧ committed A W r transfers st.1.1 st.2 b ∧ channel_inv st.1.1 P S' R)
    (λ _ _, False).
Proof.
  intros Hinv HS i side Hq He Hown Ht Hlim Hno. pose proof Hinv as [Hwf _ Hs _ _].
  wp_step. apply wp_on_fst, wp_on_fst. eapply wp_on_queue; [exact Hq|].
  eapply wp_mono; [eapply commit_send_wp; [by eapply queue_at_wf|]| |done].
  { rewrite (sh_reserved _ _ Hs _ _ _ Hq) by done.
    rewrite (issued_perm _ _ _ _ _ HS), issued_cons, Ht. by left. }
  intros [] q' (Hwf' & Hres & Hd & Hrecv). wp_step. apply wp_on_fst, wp_on_fst, wp_get. wp_step.
  destruct (slot_at_queue _ _ _ _ (queue_at_set_queue_eq A i side q' q Hq)) as (slot & record & Hi & Hrec & _).
  apply wp_unwrap. unfold pair_at. wp_step. eapply wp_expect; [exact Hi|]. rewrite Hrec. apply wp_ok_or.
  apply wp_on_snd, wp_unwrap. eapply wp_mono; [apply collect_changed_wp| |done].
  intros b W' Hcol. split_and!; [done| |by eapply commit_inv]. split; [done|done| | |].
  - exists q, q'. split_and!; [done..|by apply contents_wf|done].
  - by exists e.
  - exists record. split; [|done]. apply record_at_Some. by exists slot.
Qed.

Lemma commit_send_kept A P W S S' R r transfers : channel_inv A P S R → S ≡ₚ r :: S' →
  (length transfers ≤ HANDLE_TRANSFER_LIMIT)%nat →
  wp (commit_send r transfers) (A, P, W)
    (λ b st, st.1.2 = P ∧ committed A W r transfers st.1.1 st.2 b ∧ channel_inv st.1.1 P S' R)
    (λ failure st, failure.2 = transfers ∧ commit_refused A r transfers failure.1 ∧
       send_undone A P S S' R r W st).
Proof.
  intros Hinv HS Hlim. assert (r ∈ S) as Hr by (rewrite HS; by left).
  destruct (reservation_pair A S r (ci_sends _ _ _ _ Hinv) Hr) as (Hd & slot & Hslot & Hcase).
  unfold commit_send. cbv zeta. wp_step. apply wp_on_fst, wp_on_fst, wp_get.
  rewrite Hd, Z.eqb_refl. cbn [negb]. rewrite Hslot.
  destruct Hcase as [(Hg & record & Hrec & Ht)|[Hbad Hc]].
  2:{ assert (∀ X, wp (refuse_send (A:=X) r transfers ChannelError.StalePair) (A, P, W) (λ _ _, False)
        (λ failure st, failure.2 = transfers ∧ commit_refused A r transfers failure.1 ∧
           send_undone A P S S' R r W st)) as Href.
      { intros X. eapply wp_mono; [eapply refuse_wp; [done..|by eapply closed_forgets]|done|].
        intros failure st [-> Hu]. split_and!; [done|by constructor|done]. }
      destruct (Z.eqb_spec (pair_generation slot) (key_generation (send_pair r))); cbn [negb];
        [destruct Hbad as [?| -> ]; [done|]|]; (eapply wp_mono; [apply Href|done|done]). }
  rewrite Hg, Z.eqb_refl, Hrec. cbn [negb].
  pose proof (slot_queue _ _ _ _ (ChannelSide.peer (send_side r)) Hslot Hrec) as Hq.
  destruct (slot_at_queue _ _ _ _ Hq) as (slot' & record' & Hs' & Hr' & _ & Hep).
  rewrite Hslot in Hs'. injection Hs' as <-. rewrite Hrec in Hr'. injection Hr' as <-.
  assert (∀ error, commit_refused A r transfers error →
    wp (drop_reservation r;; refuse_send (A:=WakeBatch.t) r transfers error) (A, P, W)
      (λ b st, st.1.2 = P ∧ committed A W r transfers st.1.1 st.2 b ∧ channel_inv st.1.1 P S' R)
      (λ failure st, failure.2 = transfers ∧ commit_refused A r transfers failure.1 ∧
         send_undone A P S S' R r W st)) as Hdrop.
  { intros error Herr. eapply wp_mono; [by eapply drop_refuse_wp|done|]. by intros failure st [-> Hu]. }
  rewrite <- !Hep. destruct (endpoint_at A (key_slot (send_pair r)) (send_side r)) as [e0|] eqn:He0; simpl is_none; cbv iota.
  2:{ apply Hdrop. by constructor. }
  destruct (endpoint_at A (key_slot (send_pair r)) (ChannelSide.peer (send_side r))) as [e|] eqn:He.
  2:{ apply Hdrop. by constructor. }
  wp_step. apply wp_try. eapply wp_mono; [apply transfer_closes_queue_cycle_wp, Hinv| |].
  - intros [|] st [-> Hfound].
    + apply Hdrop. econstructor; [done|]. by apply Hfound.
    + eapply wp_mono; [eapply commit_queue_wp; [done..|]| |done]; [|done].
      intros Hreach%Hfound. done.
  - intros error st (-> & -> & o & Ho & Hdang). apply Hdrop. by eapply refused_dangling.
Qed.

(** * Receiving from a channel

    What [reserve_receive], [cancel_receive] and [receive_reserved] do: a
    reservation holds the first message of the inbox in place, cancelling it
    changes nothing else, and receiving hands out exactly that message and
    frees its payload slot. *)

Import ChannelAuthority.
Local Open Scope Z_scope.

(** Only the receive reservation changed. *)
Record rereserved (q q' : ByteQueue.t) : Prop := {
  rereserved_wf : queue_wf q' (contents q');
  rereserved_contents : contents q' = contents q;
  rereserved_depth : ByteQueue.depth q' = ByteQueue.depth q;
  rereserved_sends : reserved q' = reserved q;
}.

Lemma rereserved_inv A P S R R' i side q q' : channel_inv A P S R →
  queue_at A i side = Some q → is_Some (endpoint_at A i side) → rereserved q q' →
  receives_held (set_queue A i side q') R' → channel_inv (set_queue A i side q') P S R'.
Proof.
  intros [Hwf Hp Hs HR Hac] Hq [e He] [Hwf' Hc Hd Hres] HR'. split; [| | |done|].
  - eapply set_queue_wf; [done..|by rewrite He].
  - eapply payloads_update; [done|done|apply Hp|done| | |apply Hp].
    + eapply pool_owns_perm; [|by apply Hp]. f_equiv. symmetry. by eapply queued_tokens_keep.
    + rewrite Hc. by eapply po_messages.
  - eapply sends_keep; [done..|]. by rewrite Hres.
  - eapply acyclic_shrink; [done| |done]. by rewrite Hc.
Qed.

Lemma set_receive_rereserved q r next : queue_wf q (contents q) → is_uint 64 next →
  (∀ g, r = Some g → contents q ≠ []) → rereserved q (ByteQueue.set_receive r next q).
Proof. intros Hwf Hn Hr. split; [|done..]. by apply set_receive_wf. Qed.

(** Why no receive reservation is made. *)
Inductive receive_refused (A : t) (object : ObjectId) : ChannelError.t → Prop :=
| no_endpoint : (∀ i side, ¬ located A object i side) →
    receive_refused A object ChannelError.InvalidEndpoint
| nothing_more i side q : located A object i side → queue_at A i side = Some q → contents q = [] →
    endpoint_at A i (ChannelSide.peer side) = None → receive_refused A object ChannelError.PeerClosed
| nothing_yet i side q : located A object i side → queue_at A i side = Some q → contents q = [] →
    is_Some (endpoint_at A i (ChannelSide.peer side)) → receive_refused A object ChannelError.WouldBlock
| busy i side q : located A object i side → queue_at A i side = Some q →
    ByteQueue.receive_reservation q ≠ None → receive_refused A object ChannelError.WouldBlock
| no_generation i side q : located A object i side → queue_at A i side = Some q → contents q ≠ [] →
    ByteQueue.next_receive_generation q = 2 ^ 64 - 1 → receive_refused A object ChannelError.Capacity.

Lemma queue_empty q : queue_wf q (contents q) → ByteQueue.is_empty q = bool_decide (contents q = []).
Proof.
  intros Hwf. unfold ByteQueue.is_empty. rewrite (ring_len _ _ Hwf). by destruct (contents q).
Qed.

Lemma messages_small A P S R i side q : channel_inv A P S R → queue_at A i side = Some q →
  Forall (λ m, Z.of_nat (length (transfers m)) < 2 ^ 32) (contents q).
Proof.
  intros Hinv Hq. eapply Forall_impl; [eapply po_messages; [apply Hinv|done]|].
  intros m [_ Hm]. assert (Z.of_nat HANDLE_TRANSFER_LIMIT < 2 ^ 32) by done. lia.
Qed.

(** The head of the inbox of [object] is held by [r]. *)
Definition head_reserved (A : t) (object : ObjectId) (r : ChannelReceiveReservation) (A' : t) : Prop :=
  ∃ i side q q', located A object i side ∧ queue_at A i side = Some q ∧ receive_place r = (i, side) ∧
    A' = set_queue A i side q' ∧ rereserved q q' ∧ reserves_head r q'.

Lemma reserve_receive_kept A P S R object : channel_inv A P S R →
  wp (reserve_receive {| endpoint_object_id := object |}) A
    (λ r A', head_reserved A object r A' ∧ channel_inv A' P S (r :: R))
    (λ error A', A' = A ∧ receive_refused A object error).
Proof.
  intros Hinv. pose proof Hinv as [Hwf Hp Hs HR Hac]. unfold reserve_receive.
  wp_step. wp_step. wp_step. apply wp_lift.
  destruct (locate_cases A object Hwf) as [(i & side & -> & Hl)|[-> Hno]]; [|by split; [|constructor]].
  destruct (located_pair _ _ _ _ Hl) as (slot & record & Hi & Hrec & Hep & Hqs).
  wp_step. eapply wp_expect; [done|]. wp_step. rewrite Hrec. apply wp_ok_or. cbv beta.
  specialize (Hqs side). set (q := at_side side (inbound record)) in *.
  pose proof (queue_at_wf _ _ _ _ Hwf Hqs) as Hqwf. rewrite queue_empty by done.
  case_bool_decide as Hempty.
  { wp_step. split; [done|]. rewrite <- Hep.
    destruct (endpoint_at A i (ChannelSide.peer side)) eqn:He; simpl; by econstructor. }
  wp_step. eapply wp_on_queue; [done|].
  eapply wp_mono; [eapply reserve_head_wp; [done|by eapply messages_small]| |].
  2:{ intros error q' (-> & Herr). rewrite set_queue_same by done. split; [done|].
      destruct Herr as [[-> [?|?]]|[-> ?]]; [done|by eapply busy|by eapply no_generation]. }
  intros [g info] q' (m & ms & Hms & Hnone & Hinfo & -> & Hwf'). simpl in Hinfo, Hwf'. cbn beta iota.
  wp_step. rewrite try_from_Some by (by eapply slot_index). apply wp_ok_or. wp_step. rewrite Nat2Z.id. cbn [fst snd].
  set (r := {| receive_pair := _ |}). set (q' := ByteQueue.set_receive (Some g) g q) in *.
  assert (rereserved q q') as Hre by (by split).
  assert (reserves_head r q') as Hhead. { split; [done|]. by exists m, ms. }
  assert (is_Some (endpoint_at A i side)) as He by (destruct Hl as (e & -> & _); done).
  split; [by exists i, side, q, q'|]. eapply rereserved_inv; [done..|].
  eapply receives_add; [done..|]. pose proof (same_places_set_queue A i side q') as Hsame.
  destruct (same_places_slot _ _ _ _ Hsame Hi) as (slot' & Hslot' & Hg').
  split_and!; [by rewrite domain_set_queue|by exists slot'|by rewrite endpoint_at_set_queue|].
  exists q'. split; [|done]. by eapply queue_at_set_queue_eq.
Qed.

(** ** With a reservation in hand *)

Lemma reserved_pair_held A r : receiving A r →
  ∃ slot record q, pairs A !! key_slot (receive_pair r) = Some slot ∧ pair_record slot = Some record ∧
    reserved_pair A (receive_pair r) = Ok record ∧
    queue_at A (key_slot (receive_pair r)) (receive_side r) = Some q ∧ reserves_head r q ∧
    at_side (receive_side r) (endpoints record) = endpoint_at A (key_slot (receive_pair r)) (receive_side r).
Proof.
  intros (Hd & (slot & Hslot & Hg) & He & q & Hq & Hh).
  destruct (slot_at_queue _ _ _ _ Hq) as (slot' & record & Hi & Hrec & _ & Hep).
  rewrite Hslot in Hi. injection Hi as <-. exists slot, record, q. split_and!; [done..| |done|done|].
  - unfold reserved_pair. by rewrite Hd, Z.eqb_refl, Hslot, Hg, Z.eqb_refl, Hrec.
  - by rewrite Hep.
Qed.

(** The reservation [r] was withdrawn and its message is still first. *)
Definition head_released (A : t) (r : ChannelReceiveReservation) (A' : t) : Prop :=
  ∃ q q', queue_at A (key_slot (receive_pair r)) (receive_side r) = Some q ∧
    A' = set_queue A (key_slot (receive_pair r)) (receive_side r) q' ∧ rereserved q q'.

Lemma unreserve_receive_wp A P S R R' r : channel_inv A P S R → R ≡ₚ r :: R' → receiving A r →
  wp (on_queue (key_slot (receive_pair r)) (receive_side r)
        (ByteQueue.cancel_receive (receive_generation r))) A
    (λ _ A', head_released A r A' ∧ channel_inv A' P S R') (λ _ _, False).
Proof.
  intros Hinv HRp Hr. pose proof Hr as (_ & _ & He & _).
  destruct (reserved_pair_held A r Hr) as (slot & record & q & Hslot & Hrec & _ & Hq & [Hg Hms] & _).
  pose proof (queue_at_wf _ _ _ _ (ci_wf _ _ _ _ Hinv) Hq) as Hqwf.
  eapply wp_on_queue; [done|]. eapply wp_eq; [by apply cancel_receive_eq|].
  assert (rereserved q (ByteQueue.set_receive None (ByteQueue.next_receive_generation q) q)) as Hre.
  { apply set_receive_rereserved; [done|apply Hqwf|done]. }
  split; [by eexists _, _|]. eapply rereserved_inv; [done..|].
  eapply receives_remove; [apply Hinv|done..].
Qed.

Lemma cancel_receive_kept A P S R R' r : channel_inv A P S R → R ≡ₚ r :: R' →
  wp (cancel_receive r) A (λ _ A', head_released A r A' ∧ channel_inv A' P S R') (λ _ _, False).
Proof.
  intros Hinv HRp. assert (receiving A r) as Hr.
  { apply Hinv. rewrite HRp. by left. }
  destruct (reserved_pair_held A r Hr) as (slot & record & q & _ & _ & Hpair & _).
  unfold cancel_receive. do 3 wp_step. apply wp_lift. rewrite Hpair. by eapply unreserve_receive_wp.
Qed.

(** ** Receiving *)

(** The queue without its first message. *)
Record popped (q q' : ByteQueue.t) (m : QueuedMessage) : Prop := {
  popped_head : contents q = m :: contents q';
  popped_wf : queue_wf q' (contents q');
  popped_depth : ByteQueue.depth q' = ByteQueue.depth q;
  popped_sends : reserved q' = reserved q;
  popped_receive : ByteQueue.receive_reservation q' = None;
}.

Lemma popped_inv A P S R R' r i side q q' m P' : channel_inv A P S R → R ≡ₚ r :: R' →
  receive_place r = (i, side) → queue_at A i side = Some q → is_Some (endpoint_at A i side) →
  popped q q' m →
  given_up P (queued_tokens (set_queue A i side q') ++ omap send_payload S) P' →
  channel_inv (set_queue A i side q') P' S R'.
Proof.
  intros [Hwf Hp Hs HR Hac] HRp Hplace Hq [e He] [Hc Hwf' Hd Hres Hrecv] (HP' & Ho & Hb).
  assert (frame (queued_tokens A ++ omap send_payload S) P P') as Hf by (by intros token _). split.
  - eapply set_queue_wf; [done..|by rewrite He].
  - eapply payloads_update; [done..| |].
    + pose proof (messages_at_frame _ _ _ _ _ _ _ Hp Hf Hq) as [Hall _]. rewrite Hc in Hall.
      by apply Forall_cons_1 in Hall as [_ ?].
    + intros r' Hr'. by eapply reserved_payload_frame.
  - eapply sends_keep; [done..|by rewrite Hres].
  - by eapply receives_remove.
  - eapply acyclic_shrink; [done| |done]. intros m' Hm'. rewrite Hc. by right.
Qed.

Lemma pop_reserved_popped q g : queue_wf q (contents q) → ByteQueue.receive_reservation q = Some g →
  wp (ByteQueue.pop_reserved g) q (λ m q', popped q q' m) (λ _ _, False).
Proof.
  intros Hwf Hg. eapply wp_mono; [by eapply pop_reserved_wp| |done].
  intros m q' (Hms & Hwf' & Hd & Hs & Hr). pose proof (contents_wf _ _ Hwf') as Hc.
  split; [by rewrite Hc|by rewrite Hc|done| |done]. unfold reserved. by rewrite Hs.
Qed.

(** What a successful receive hands out. *)
Record received (A : t) (P : PayloadPool.t) (W : WaitRegistry.t) (r : ChannelReceiveReservation)
    (output : list Z) (result : ChannelReceivedMessage * list Z) (A' : t) (W' : WaitRegistry.t) : Prop := {
  received_queue : ∃ q q' m, queue_at A (key_slot (receive_pair r)) (receive_side r) = Some q ∧
    A' = set_queue A (key_slot (receive_pair r)) (receive_side r) q' ∧ popped q q' m ∧
    received_transfers result.1 = transfers m ∧
    received_byte_len result.1 = Z.to_nat (byte_len m) ∧
    result.2 = (message P m).1 ++ drop (Z.to_nat (byte_len m)) output;
  received_wakeups : ∃ record, record_at A' (key_slot (receive_pair r)) = Some record ∧
    collected W (pair_sources record [ChannelSide.peer (receive_side r); receive_side r]) W'
      (received_wakes result.1);
}.

(** Copying the payload out frees its slot. *)
Lemma copy_out_wp {E} P m tokens output : pool_wf P → pool_owns P (option_list (payload m) ++ tokens) →
  message_ok P m → (Z.to_nat (byte_len m) ≤ length output)%nat →
  wp (E:=E) match payload m with
     | Some token => PayloadPool.copy_and_release token (Z.to_nat (byte_len m)) output
     | None => mret output
     end P
    (λ output' P', output' = (message P m).1 ++ drop (Z.to_nat (byte_len m)) output ∧ given_up P tokens P')
    (λ _ _, False).
Proof.
  intros Hwf Ho [Hok _] Hlen. unfold message, payload_of. simpl. unfold payload_ok in Hok.
  destruct (payload m) as [token|]; simpl in *.
  - destruct Hok as [_ Hb]. by apply copy_and_release_wp.
  - wp_step. rewrite Hok. simpl. by rewrite drop_0.
Qed.

Lemma receive_reserved_kept A P W S R R' r output : channel_inv A P S R → R ≡ₚ r :: R' →
  let required := Z.to_nat (required_bytes (receive_info r)) in
  wp (receive_reserved r output) (A, P, W)
    (λ result st, received A P W r output result st.1.1 st.2 ∧ (required ≤ length output)%nat ∧
       channel_inv st.1.1 st.1.2 S R' ∧ ∀ token, bytes_of st.1.2 token = bytes_of P token)
    (λ error st, error = ChannelError.BufferTooSmall ∧ (length output < required)%nat ∧
       st.1.2 = P ∧ st.2 = W ∧ head_released A r st.1.1 ∧ channel_inv st.1.1 P S R').
Proof.
  intros Hinv HRp required. assert (receiving A r) as Hr.
  { apply Hinv. rewrite HRp. by left. }
  pose proof Hr as (_ & _ & He & _).
  destruct (reserved_pair_held A r Hr) as (slot & record & q & Hslot & Hrec & Hpair & Hq & Hhead & Hep).
  unfold receive_reserved. cbv zeta. fold required. wp_step. apply wp_on_fst, wp_on_fst, wp_get.
  wp_step. apply wp_lift. rewrite Hpair, Hep, (proj2 (is_none_false _) He).
  destruct (Nat.ltb_spec (length output) required) as [Hshort|Hfit].
  { wp_step. apply wp_on_fst, wp_on_fst. eapply wp_mono; [by eapply unreserve_receive_wp| |done].
    intros [] A' [Hrel Hinv']. wp_step. by split_and!. }
  destruct Hhead as (Hg & m & ms & Hms & Hinfo).
  assert (required = Z.to_nat (byte_len m)) as Hreq by (unfold required; by rewrite Hinfo).
  pose proof Hinv as [Hwf Hp _ _ _]. wp_step. apply wp_on_fst, wp_on_fst. eapply wp_on_queue; [done|].
  eapply wp_mono; [eapply pop_reserved_popped; [by eapply queue_at_wf|done]| |done].
  intros m' q' Hpop. pose proof (popped_head _ _ _ Hpop) as Hc. rewrite Hms in Hc. injection Hc as <- Hms'.
  wp_step. apply wp_on_fst, wp_on_snd. rewrite Hreq in *.
  eapply wp_mono; [eapply (copy_out_wp P m); [apply Hp| | |done]| |done].
  { eapply pool_owns_perm; [|apply Hp]. rewrite (queued_tokens_pop A _ _ q q' Hq m (popped_head _ _ _ Hpop)).
    by rewrite <- app_assoc. }
  { pose proof (po_messages _ _ _ Hp _ _ _ Hq) as Hall. rewrite Hms in Hall.
    by apply Forall_cons_1 in Hall as [? _]. }
  intros output' P' [-> Hup]. wp_step. apply wp_on_fst, wp_on_fst, wp_get. wp_step.
  destruct (slot_at_queue _ _ _ _ (queue_at_set_queue_eq A _ _ q' q Hq)) as (slot' & record' & Hi' & Hrec' & _).
  apply wp_unwrap. unfold pair_at. wp_step. eapply wp_expect; [exact Hi'|]. rewrite Hrec'. apply wp_ok_or.
  wp_step. apply wp_on_snd. eapply wp_mono; [apply collect_changed_wp| |done].
  intros b W' Hcol. wp_step. split_and!; [|done|by eapply popped_inv|apply Hup]. split.
  - exists q, q', m. by split_and!.
  - exists record'. split; [|done]. apply record_at_Some. by exists slot'.
Qed.
