(* ===== verification/ChannelClose.v ===== *)
(** * Closing channel endpoints

    [take_finalization]: the final release of an endpoint drains its
    inbox, hands out the transfers that were queued in it, frees their payload
    slots and tells the peer. *)

From stdpp Require Import base tactics numbers list sets relations.
From Stdlib Require Import ZArith Lia.
From S2P Require Import Prelude Abi Object HandleTable Wait WaitFacts Channel ChannelQueue ChannelFacts ChannelCycle ChannelInvariant ChannelWaits ChannelSend.
Import ChannelAuthority.
Local Open Scope Z_scope.

(** ** Closing one side *)

(** The slot of a pair whose [side] was closed and drained to [q]. *)
Definition close_slot (slot : PairSlot) (record : PairRecord) (side : ChannelSide.t) (q : ByteQueue.t)
    : PairSlot :=
  {| pair_generation := pair_generation slot;
     pair_record :=
       if is_none (at_side (ChannelSide.peer side) (endpoints record)) then None
       else Some {| endpoints := set_side side None (endpoints record);
                    inbound := set_side side q (inbound record) |} |}.

Section close.
Context (A : t) (i : nat) (side : ChannelSide.t) (slot : PairSlot) (record : PairRecord)
  (q : ByteQueue.t) (e : EndpointRecord).
Hypothesis (Hwf : channels_wf A) (Hi : pairs A !! i = Some slot) (Hrec : pair_record slot = Some record)
  (He : at_side side (endpoints record) = Some e) (Hq : queue_wf q []) (Hidle : queue_idle q).

Abbreviation A' := (with_slot i (close_slot slot record side q) A).

Lemma close_record j : record_at A' j =
  if decide (j = i) then pair_record (close_slot slot record side q) else record_at A j.
Proof using Hi. apply record_at_with_slot. by eapply lookup_lt_Some. Qed.

Lemma close_record_same : record_at A i = Some record.
Proof using Hi Hrec. unfold record_at. by rewrite Hi; simpl. Qed.

Lemma close_endpoint j side' :
  endpoint_at A' j side' = if decide (j = i ∧ side' = side) then None else endpoint_at A j side'.
Proof using Hi Hrec He.
  unfold endpoint_at. rewrite close_record. destruct (decide (j = i)) as [->|Hne].
  2:{ by rewrite decide_False by tauto. }
  rewrite close_record_same. simpl. destruct (at_side (ChannelSide.peer side) (endpoints record)) as [p|] eqn:Hp; simpl.
  - rewrite at_side_set_side. destruct (decide (side' = side)); [rewrite decide_True by done|rewrite decide_False by tauto]; done.
  - destruct (decide (side' = side)) as [->|Hne]; [by rewrite decide_True|rewrite decide_False by tauto].
    destruct side, side'; done.
Qed.

(** A queue that is still there is the drained one or was there before. *)
Lemma close_queue j side' q' : queue_at A' j side' = Some q' →
  j = i ∧ side' = side ∧ q' = q ∨ (j ≠ i ∨ side' ≠ side) ∧ queue_at A j side' = Some q'.
Proof using Hi Hrec He.
  unfold queue_at. rewrite close_record. destruct (decide (j = i)) as [->|Hne]; [|by auto].
  rewrite close_record_same. simpl. destruct (is_none _); simpl; [done|].
  rewrite at_side_set_side. destruct (decide (side' = side)) as [->|Hne]; intros [= <-]; auto.
Qed.

Lemma close_located o j side' : located A' o j side' ↔
  located A o j side' ∧ ¬ (j = i ∧ side' = side).
Proof using Hi Hrec He.
  unfold located. rewrite close_endpoint. case_decide; naive_solver.
Qed.

Lemma close_wf : channels_wf A'.
Proof using Hwf Hi Hrec He Hq Hidle.
  pose proof (lookup_lt_Some _ _ _ Hi) as Hlt.
  assert (∀ j s, pairs A' !! j = Some s → j = i ∧ s = close_slot slot record side q ∨ j ≠ i ∧ pairs A !! j = Some s)
    as Hcases.
  { intros j s. simpl. intros [(-> & <- & _)|[? ?]]%list_lookup_insert_Some; [by left|by right]. }
  split.
  - intros j s [[-> ->]|[_ Hj]]%Hcases; [|by eapply slots_range]. simpl. by eapply slots_range.
  - intros j s r [[-> ->]|[_ Hj]]%Hcases Hsr.
    + simpl in Hsr. destruct (is_none _); [done|]. injection Hsr as <-.
      destruct (records_wf _ Hwf _ _ _ Hi Hrec) as [H1 H2 H3 H4 H5]. split; simpl; [done|done| | |].
      * intros side' e'. rewrite at_side_set_side. case_decide; [done|]. intros He'.
        rewrite (lease_matches_ext A _ _ slot) by done. by apply H3.
      * intros side'. rewrite at_side_set_side. case_decide; [by eapply queue_wf_contents|apply H4].
      * intros side'. rewrite !at_side_set_side. case_decide; [done|apply H5].
    + destruct (records_wf _ Hwf _ _ _ Hj Hsr) as [H1 H2 H3 H4 H5]. split; [done..| |done|done].
      intros side' e' He'. rewrite (lease_matches_ext A _ _ s) by done. by apply H3.
  - intros o j side1 k side2 [H1 _]%close_located [H2 _]%close_located. by eapply located_once.
Qed.

Lemma close_queued {X} (g : list QueuedMessage → list X) : g [] = [] →
  (all_queues A ≫= λ q, g (contents q)) ≡ₚ
  g (contents (at_side side (inbound record))) ++ (all_queues A' ≫= λ q, g (contents q)).
Proof using Hwf Hi Hrec He Hidle.
  intros Hg. destruct (all_queues_with_slot A i slot Hi) as (rest & H1 & H2).
  rewrite H1, H2, !bind_app, app_assoc. f_equiv.
  unfold slot_queues at 1. rewrite Hrec. unfold slot_queues, close_slot. simpl.
  destruct Hidle as (Hc & _ & _).
  destruct (at_side (ChannelSide.peer side) (endpoints record)) eqn:Hp; simpl.
  - destruct side; simpl; rewrite Hc, Hg; simpl; rewrite ?app_nil_r; [done|apply Permutation_app_comm].
  - destruct (record_closed _ _ _ _ (records_wf _ Hwf _ _ _ Hi Hrec) _ Hp) as (Hc' & _).
    destruct side; simpl in *; rewrite Hc', Hg; simpl; by rewrite ?app_nil_r.
Qed.

Lemma close_tokens : queued_tokens A ≡ₚ
  omap payload (contents (at_side side (inbound record))) ++ queued_tokens A'.
Proof using Hwf Hi Hrec He Hidle. by apply (close_queued (omap payload)). Qed.

Lemma close_edge o o' : edge A' o o' → edge A o o'.
Proof using Hi Hrec He Hidle.
  intros (j & side' & q' & Hl & Hq' & Ho). apply close_located in Hl as [Hl Hne].
  apply close_queue in Hq' as [(-> & -> & ->)|[_ Hj]]; [by destruct Hne|]. by exists j, side', q'.
Qed.

Lemma close_same_slots j : pair_generation <$> pairs A' !! j = pair_generation <$> pairs A !! j.
Proof using Hi.
  simpl. destruct (decide (j = i)) as [->|Hne].
  - rewrite list_lookup_insert_eq by (by eapply lookup_lt_Some). by rewrite Hi.
  - by rewrite list_lookup_insert_ne.
Qed.

Lemma close_targets j side' r : targets A' j side' r = targets A j side' r.
Proof using Hi.
  unfold targets. simpl domain. pose proof (close_same_slots j) as Hg. f_equal.
  destruct (pairs A' !! j), (pairs A !! j); simplify_eq/=; congruence.
Qed.

Lemma close_slot_at j s : pairs A !! j = Some s →
  ∃ s', pairs A' !! j = Some s' ∧ pair_generation s' = pair_generation s.
Proof using Hi.
  intros Hs. pose proof (close_same_slots j) as Hg. rewrite Hs in Hg.
  destruct (pairs A' !! j) as [s'|]; [|done]. exists s'. split; [done|]. by injection Hg.
Qed.

(** The queue of an endpoint that stays open. *)
Lemma close_queue_keep j side' q' : (j, side') ≠ (i, side) → queue_at A j side' = Some q' →
  is_Some (endpoint_at A j side') → queue_at A' j side' = Some q'.
Proof using Hi Hrec He.
  unfold queue_at, endpoint_at. rewrite close_record. destruct (decide (j = i)) as [->|Hne]; [|done].
  rewrite close_record_same. simpl. intros Hne Hq' Hopen.
  destruct side, side'; try done; simpl in *; destruct Hopen as [p ->]; done.
Qed.

Context (P P' : PayloadPool.t) (S : list ChannelSendReservation) (R : list ChannelReceiveReservation).

Lemma close_payloads : payloads_owned A P S → given_up P (queued_tokens A' ++ omap send_payload S) P' →
  payloads_owned A' P' S.
Proof using Hi Hrec He Hidle.
  intros Hp (HP' & Ho & Hb). pose proof Hidle as (Hnil & _).
  assert (frame (queued_tokens A ++ omap send_payload S) P P') as Hf by (by intros token _).
  split; [done..| |].
  - intros j side' q' [(-> & -> & ->)|[_ Hj]]%close_queue; [by rewrite Hnil|by eapply messages_at_frame].
  - intros r Hr. by eapply reserved_payload_frame.
Qed.

Lemma close_sends : sends_held A S → sends_held A' S.
Proof using Hi Hrec He.
  intros Hs. split.
  - intros j side' q' Hq' Hopen. rewrite close_endpoint in Hopen.
    assert (issued A' S j side' = issued A S j side') as ->.
    { unfold issued. clear Hs Hq'. induction S as [|r S' IH]; [done|]. csimpl. by rewrite close_targets, IH. }
    case_decide as Hc; [by destruct Hopen|].
    apply close_queue in Hq' as [(-> & -> & ->)|[_ Hj]]; [tauto|]. by eapply sh_reserved.
  - intros r Hr. destruct (sh_keys _ _ Hs r Hr) as (Hd & s & Hs' & Hg). split; [done|].
    destruct (close_slot_at _ _ Hs') as (s' & ? & Heq). exists s'. split; [done|]. by rewrite Heq.
Qed.

Lemma close_receives : receives_held A R → (i, side) ∉ receive_place <$> R → receives_held A' R.
Proof using Hi Hrec He Hidle.
  intros HR Hno. pose proof Hidle as (_ & _ & Hnone). split; [| |by apply HR].
  - intros r Hr. destruct (rh_receiving _ _ HR r Hr) as (Hd & (s & Hs' & Hg) & Hopen & q' & Hq' & Hhead).
    assert (receive_place r ≠ (i, side)) as Hne.
    { intros Heq. apply Hno. rewrite <- Heq. by apply list_elem_of_fmap_2. }
    destruct (close_slot_at _ _ Hs') as (s' & ? & Heq). unfold receive_place in Hne.
    split_and!; [done|by exists s'; split; [|congruence]| |by exists q'; split; [apply close_queue_keep|]].
    rewrite close_endpoint, decide_False; [done|]. intros [<- <-]. done.
  - intros j side' q' g Hq' Hg. apply close_queue in Hq' as [(-> & -> & ->)|[_ Hj]]; [congruence|].
    by eapply rh_reserved.
Qed.

Lemma close_inv : channel_inv A P S R → (i, side) ∉ receive_place <$> R →
  given_up P (queued_tokens A' ++ omap send_payload S) P' → channel_inv A' P' S R.
Proof using Hwf Hi Hrec He Hq Hidle.
  intros [_ Hp Hs HR Hac] Hno Hup. split.
  - by apply close_wf.
  - by apply close_payloads.
  - by apply close_sends.
  - by apply close_receives.
  - eapply acyclic_mono; [|done]. apply close_edge.
Qed.
End close.

(** ** [take_finalization] *)

(** The endpoint of [f] was closed: [drained] are the transfers that were
    queued for it, the peer's waiters were collected. *)
Record finalized (A : t) (P : PayloadPool.t) (W : WaitRegistry.t) (S : list ChannelSendReservation)
    (f : FinalRelease) (finalization : ChannelFinalization) (A' : t) (P' : PayloadPool.t)
    (W' : WaitRegistry.t) : Prop := {
  finalized_release : channel_final_release finalization = f;
  finalized_side : ∃ i side slot record e q,
    pairs A !! i = Some slot ∧ pair_record slot = Some record ∧
    at_side side (endpoints record) = Some e ∧ endpoint_object e = final_id f ∧
    queue_wf q [] ∧ queue_idle q ∧ ByteQueue.depth q = ByteQueue.depth (at_side side (inbound record)) ∧
    A' = with_slot i (close_slot slot record side q) A ∧
    omap id (drained_transfers finalization) = carried (contents (at_side side (inbound record))) ∧
    collected W (match pair_record (close_slot slot record side q) with
                 | Some record' => pair_sources record' [ChannelSide.peer side]
                 | None => []
                 end) W' (finalization_wakes finalization);
  finalized_pool : given_up P (queued_tokens A' ++ omap send_payload S) P';
}.

Lemma both_none_close side (es : sides (option EndpointRecord)) :
  both_sides is_none (set_side side None es) = is_none (at_side (ChannelSide.peer side) es).
Proof. destruct side, es as [[|] [|]]; done. Qed.

Lemma drain_queue_wp {E} A P i slot record side tokens : pairs A !! i = Some slot →
  pair_record slot = Some record → let q := at_side side (inbound record) in
  queue_wf q (contents q) → ByteQueue.receive_reservation q = None →
  pool_wf P → pool_owns P (omap payload (contents q) ++ tokens) →
  wp (E:=E) (drain_queue i side) (A, P)
    (λ drained st, ∃ q', queue_wf q' [] ∧ queue_idle q' ∧ ByteQueue.depth q' = ByteQueue.depth q ∧
       omap id drained = carried (contents q) ∧
       st.1 = with_slot i {| pair_generation := pair_generation slot;
         pair_record := Some {| endpoints := endpoints record;
                                inbound := set_side side q' (inbound record) |} |} A ∧
       given_up P tokens st.2) (λ _ _, False).
Proof.
  intros Hi Hrec q Hwf Hr HP Ho. pose proof (drain_transfers_wp (E:=E) q P _ tokens Hwf Hr HP Ho) as Hd.
  unfold wp, drain_queue in *. simpl. rewrite Hi. destruct slot as [g o]. simpl in *. subst o.
  fold q. destruct (ByteQueue.drain_transfers (q, P)) as [[q' P'] drained| |]; [|done..].
  destruct Hd as (Hdr & Hwf' & Hdep & Hres & Hrr & Hup). exists q'. simpl in *.
  split_and!; [done| |done..]. split_and!; [by apply contents_wf|done..].
Qed.

Lemma with_slot_with_slot A i s s' : with_slot i s' (with_slot i s A) = with_slot i s' A.
Proof. unfold with_slot. simpl. by rewrite list_insert_insert_eq. Qed.

Lemma set_pair_wp {E} A i slot record Q R : pairs A !! i = Some slot →
  Q tt (with_slot i {| pair_generation := pair_generation slot; pair_record := record |} A) →
  wp (E:=E) (set_pair i record) A Q R.
Proof. intros Hi HQ. unfold set_pair. do 3 wp_step. eapply wp_expect; [done|]. by wp_step. Qed.

Lemma unreceived A R i side q : receives_held A R → queue_at A i side = Some q →
  (i, side) ∉ receive_place <$> R → ByteQueue.receive_reservation q = None.
Proof.
  intros HR Hq Hno. destruct (ByteQueue.receive_reservation q) as [g|] eqn:Hg; [|done].
  destruct Hno. by eapply rh_reserved.
Qed.

(** The pair after [side] was taken out and drained, before it is freed. *)
Lemma close_finish {E X} A (P : PayloadPool.t) W W' i slot record side q b
    (rest : WakeBatch.t → M (t * PayloadPool.t * WaitRegistry.t) E X) Q R : pairs A !! i = Some slot →
  let closed := {| endpoints := set_side side None (endpoints record);
                   inbound := set_side side q (inbound record) |} in
  let A1 := with_slot i {| pair_generation := pair_generation slot; pair_record := Some closed |} A in
  collected W [] W' b →
  (∀ wakes W'', collected W (match pair_record (close_slot slot record side q) with
                             | Some record' => pair_sources record' [ChannelSide.peer side]
                             | None => []
                             end) W'' wakes →
     wp (rest wakes) (with_slot i (close_slot slot record side q) A, P, W'') Q R) →
  wp (wakes ← match at_side (ChannelSide.peer side) (endpoints closed) with
              | Some peer_endpoint =>
                  observed ← unwrap (lift (signals_for_pair closed (ChannelSide.peer side)));
                  ready ← on_snd (WaitRegistry.take_ready (endpoint_object peer_endpoint) observed);
                  WakeBatch.append b ready
              | None => mret b
              end;
      (if both_sides is_none (endpoints closed) then on_fst (on_fst (set_pair i None)) else mret tt);;
      rest wakes) (A1, P, W') Q R.
Proof.
  intros Hi closed A1 Hcol HQ. unfold close_slot in HQ. cbn [pair_record] in HQ. fold closed in HQ.
  assert (both_sides is_none (endpoints closed) = is_none (at_side (ChannelSide.peer side) (endpoints record)))
    as -> by apply both_none_close.
  assert (at_side (ChannelSide.peer side) (endpoints closed) = at_side (ChannelSide.peer side) (endpoints record)) as Hp.
  { unfold closed. simpl. rewrite at_side_set_side. by destruct side. }
  assert (pairs A1 !! i = Some {| pair_generation := pair_generation slot; pair_record := Some closed |}) as Hi'.
  { simpl. rewrite list_lookup_insert_eq; [done|]. by eapply lookup_lt_Some. }
  rewrite Hp. destruct (at_side (ChannelSide.peer side) (endpoints record)) as [pe|] eqn:Hpe; simpl is_none in *; cbv iota in *.
  - wp_step. wp_step. apply wp_unwrap, wp_lift. rewrite (signals_open _ _ pe) by (by rewrite Hp).
    destruct (collect_source _ _ _ _ (endpoint_object pe) (pair_signals closed (ChannelSide.peer side)) Hcol)
      as (W'' & ready & b' & Ht & Ha & Hc').
    wp_step. apply wp_on_snd. eapply wp_eq; [apply Ht|]. eapply wp_eq; [apply Ha|]. do 2 wp_step.
    apply HQ. by rewrite (pair_sources_open _ _ _ Hp).
  - do 5 wp_step. eapply set_pair_wp; [done|]. unfold A1. rewrite with_slot_with_slot. by apply HQ.
Qed.

Lemma given_up_perm P tokens tokens' P' : tokens ≡ₚ tokens' → given_up P tokens P' → given_up P tokens' P'.
Proof. intros Hp (H1 & H2 & H3). split_and!; [done| |done]. by eapply pool_owns_perm. Qed.

Lemma new_queue_idle : queue_idle (ByteQueue.new 1).
Proof. done. Qed.

Lemma take_finalization_kept A P W S R f : channel_inv A P S R →
  final_type f = DW_OBJECT_TYPE_CHANNEL →
  (∀ i side, located A (final_id f) i side → (i, side) ∉ receive_place <$> R) →
  wp (take_finalization f) (A, P, W)
    (λ finalization st, finalized A P W S f finalization st.1.1 st.1.2 st.2 ∧
       channel_inv st.1.1 st.1.2 S R)
    (λ failure st, failure = (ChannelError.InvalidEndpoint, f) ∧ st = (A, P, W) ∧
       ∀ i side, ¬ located A (final_id f) i side).
Proof.
  intros Hinv Hty Hno. pose proof Hinv as [Hwf Hp Hs HR Hac]. unfold take_finalization.
  rewrite Hty, Z.eqb_refl. cbn [negb]. wp_step. apply wp_on_fst, wp_on_fst, wp_get. wp_step.
  apply wp_map_err, wp_lift.
  destruct (locate_cases A (final_id f) Hwf) as [(i & side & -> & Hl)|[-> Hnone]]; [|done].
  destruct (located_pair _ _ _ _ Hl) as (slot & record & Hi & Hrec & Hep & Hqs).
  pose proof Hl as (e & He & Hobj). rewrite Hep in He. specialize (Hqs side). specialize (Hno _ _ Hl).
  wp_step. eapply wp_expect; [done|]. wp_step. rewrite Hrec. apply wp_ok_or.
  wp_step. eapply wp_expect; [done|]. wp_step. apply wp_on_fst, wp_on_fst. eapply set_pair_wp; [done|].
  rewrite (record_leases _ _ _ _ (records_wf _ Hwf _ _ _ Hi Hrec) _ _ He). cbn [negb].
  pose proof (queue_at_wf _ _ _ _ Hwf Hqs) as Hqwf.
  set (opened := {| endpoints := set_side side None (endpoints record); inbound := inbound record |}).
  set (A1 := with_slot i _ A).
  assert (pairs A1 !! i = Some {| pair_generation := pair_generation slot; pair_record := Some opened |}) as Hi1.
  { simpl. rewrite list_lookup_insert_eq; [done|]. by eapply lookup_lt_Some. }
  set (rest q := queued_tokens (with_slot i (close_slot slot record side q) A)).
  assert (∀ q, queue_idle q → queued_tokens A ≡ₚ omap payload (contents (at_side side (inbound record))) ++ rest q)
    as Hrest by (intros q Hidle; by eapply close_tokens).
  wp_step. apply wp_on_fst.
  eapply wp_mono; [eapply (drain_queue_wp A1 P i _ opened side (rest (ByteQueue.new 1) ++ omap send_payload S)
    Hi1 eq_refl Hqwf); [by eapply unreceived|apply Hp|]| |done].
  { eapply pool_owns_perm; [|apply Hp]. rewrite (Hrest _ new_queue_idle). by rewrite <- app_assoc. }
  intros drained [A2 P'] (q & Hq & Hidle & Hdep & Hdr & HA2 & Hup). simpl in HA2, Hup. subst A2.
  unfold A1. rewrite with_slot_with_slot. cbn [pair_generation endpoints inbound opened].
  set (closed := {| endpoints := set_side side None (endpoints record); inbound := set_side side q (inbound record) |}).
  wp_step. apply wp_on_fst, wp_on_fst, wp_get. wp_step. apply wp_unwrap. unfold pair_at. wp_step.
  eapply wp_expect; [simpl; rewrite list_lookup_insert_eq; [done|by eapply lookup_lt_Some]|].
  apply wp_ok_or. cbn [pair_record]. wp_step. apply wp_on_snd, wp_get. cbv zeta.
  apply (close_finish A P' W W i slot record side q); [done|apply collected_nil|].
  intros wakes W'' Hcol. wp_step.
  assert (given_up P (rest q ++ omap send_payload S) P') as Hup'.
  { eapply given_up_perm; [|exact Hup]. f_equiv. apply (Permutation_app_inv_l (omap payload (contents (at_side side (inbound record))))).
    rewrite <- (Hrest q Hidle). symmetry. apply Hrest, new_queue_idle. }
  split; [split|].
  - done.
  - by exists i, side, slot, record, e, q.
  - done.
  - by eapply close_inv.
Qed.

(** ** Closing under a receiver *)

(** A queue whose head is reserved by a receiver cannot be drained. *)
Lemma drain_reserved {E} q P g : ByteQueue.receive_reservation q = Some g → ByteQueue.drain_transfers (E:=E) (q, P) = Panic.
Proof.
  intros Hr. unfold ByteQueue.drain_transfers, mbind, M_bind, on_fst, get. simpl.
  unfold ByteQueue.pop, mbind, M_bind, on_fst, get, assert_that. simpl. by rewrite bool_decide_false by (by rewrite Hr).
Qed.

(** The endpoint that a receiver has reserved the head of is not closed:
    [ByteQueue::pop] asserts that there is no such reservation. *)
Lemma take_finalization_panics A P W S R f i side : channel_inv A P S R →
  final_type f = DW_OBJECT_TYPE_CHANNEL → located A (final_id f) i side → (i, side) ∈ receive_place <$> R →
  take_finalization f (A, P, W) = Panic.
Proof.
  intros Hinv Hty Hl Hin. pose proof Hinv as [Hwf _ _ HR _].
  assert (wlp (take_finalization f) (A, P, W) (λ _ _, False) (λ _ _, False)) as Hp.
  { unfold take_finalization. rewrite Hty, Z.eqb_refl. cbn [negb]. wlp_step. apply wlp_wp, wp_on_fst, wp_on_fst, wp_get.
    wlp_step. apply wlp_wp, wp_map_err, wp_lift.
    destruct (locate_cases A (final_id f) Hwf) as [(j & side' & -> & Hl')|[-> Hnone]]; [|by destruct (Hnone i side)].
    destruct (located_once _ Hwf _ _ _ _ _ Hl Hl') as [<- <-].
    destruct (located_pair _ _ _ _ Hl) as (slot & record & Hi & Hrec & Hep & Hqs).
    pose proof Hl as (e & He & Hobj). rewrite Hep in He. specialize (Hqs side).
    wlp_step. apply wlp_wp. eapply wp_expect; [done|]. wlp_step. rewrite Hrec. apply wlp_wp, wp_ok_or.
    wlp_step. apply wlp_wp. eapply wp_expect; [done|]. wlp_step. apply wlp_wp, wp_on_fst, wp_on_fst. eapply set_pair_wp; [done|].
    rewrite (record_leases _ _ _ _ (records_wf _ Hwf _ _ _ Hi Hrec) _ _ He). cbn [negb].
    apply list_elem_of_fmap in Hin as (r & Hplace & Hr%(rh_receiving _ _ HR)). destruct Hr as (_ & _ & _ & q & Hq & Hg & _).
    injection Hplace as -> ->. rewrite Hqs in Hq. injection Hq as <-.
    wlp_step. unfold wlp, on_fst, drain_queue. simpl. rewrite list_lookup_insert_eq by (by eapply lookup_lt_Some).
    simpl. by rewrite (drain_reserved _ _ _ Hg). }
  unfold wlp in Hp. by destruct (take_finalization f (A, P, W)).
Qed.
