(* ===== verification/ChannelCreate.v ===== *)
(** * Creating channel pairs

    [create_pair] takes a free slot one generation on, two fresh objects and
    binds them to its sides, or leaves neither a pair nor an object behind. *)

From stdpp Require Import base tactics numbers list sets relations gmultiset.
From Stdlib Require Import ZArith Lia.
From S2P Require Import Prelude Abi Object ObjectLedger HandleTable Wait WaitFacts Channel ChannelQueue ChannelFacts ChannelCycle ChannelInvariant ChannelWaits ChannelSend ChannelClose.
Import ChannelAuthority.
Local Open Scope Z_scope.

(** ** Filling a free slot *)

(** A record that can be put in slot [i] with the generation of [s]. *)
Record fits (A : t) (i : nat) (s : PairSlot) (record : PairRecord) : Prop := {
  fits_wf : record_wf A i s record;
  fits_idle side : queue_idle (at_side side (inbound record));
  fits_fresh side e : at_side side (endpoints record) = Some e →
    ∀ j side', ¬ located A (endpoint_object e) j side';
  fits_apart side side' e e' : at_side side (endpoints record) = Some e →
    at_side side' (endpoints record) = Some e' → endpoint_object e = endpoint_object e' → side = side';
}.

Section fill.
Context (A : t) (i : nat) (slot s : PairSlot).
Hypothesis (Hi : pairs A !! i = Some slot) (Hfree : pair_record slot = None)
  (Hrange : is_uint 32 (pair_generation s)) (Hnext : pair_generation slot < pair_generation s)
  (Hfits : ∀ record, pair_record s = Some record → fits A i s record).

Abbreviation A' := (with_slot i s A).

Lemma fill_record j : record_at A' j = if decide (j = i) then pair_record s else record_at A j.
Proof using Hi. apply record_at_with_slot. by eapply lookup_lt_Some. Qed.

Lemma fill_vacant : record_at A i = None.
Proof using Hi Hfree. unfold record_at. by rewrite Hi. Qed.

Lemma fill_endpoint j side e : endpoint_at A' j side = Some e ↔
  endpoint_at A j side = Some e ∨
  j = i ∧ ∃ record, pair_record s = Some record ∧ at_side side (endpoints record) = Some e.
Proof using Hi Hfree.
  clear Hfits. unfold endpoint_at. rewrite fill_record. destruct (decide (j = i)) as [->|Hne].
  - rewrite fill_vacant. simpl. destruct (pair_record s); simpl; naive_solver.
  - naive_solver.
Qed.

Lemma fill_queue j side q : queue_at A' j side = Some q →
  queue_at A j side = Some q ∨
  j = i ∧ ∃ record, pair_record s = Some record ∧ at_side side (inbound record) = q.
Proof using Hi.
  clear Hfits. unfold queue_at. rewrite fill_record. destruct (decide (j = i)) as [->|Hne]; [|by left].
  destruct (pair_record s) as [record|]; simpl; [|done]. intros [= <-]. right. split; [done|]. by exists record.
Qed.

Lemma fill_queue_keep j side q : queue_at A j side = Some q → queue_at A' j side = Some q.
Proof using Hi Hfree.
  unfold queue_at. rewrite fill_record. destruct (decide (j = i)) as [->|Hne]; [|done].
  by rewrite fill_vacant.
Qed.

Lemma fill_located o j side : located A' o j side ↔
  located A o j side ∨
  j = i ∧ ∃ record e, pair_record s = Some record ∧ at_side side (endpoints record) = Some e ∧
    endpoint_object e = o.
Proof using Hi Hfree.
  unfold located. setoid_rewrite fill_endpoint. split.
  - intros (e & [He|[-> (record & Hr & He)]] & Ho); [left; by exists e|right]. split; [done|]. by exists record, e.
  - intros [(e & He & Ho)|[-> (record & e & Hr & He & Ho)]]; exists e; split; auto. right. split; [done|]. by exists record.
Qed.

Lemma fill_wf : channels_wf A → channels_wf A'.
Proof using Hi Hfree Hrange Hfits.
  intros Hwf. assert (∀ j s', pairs A' !! j = Some s' → j = i ∧ s' = s ∨ j ≠ i ∧ pairs A !! j = Some s') as Hcases.
  { intros j s'. simpl. intros [(-> & <- & _)|[? ?]]%list_lookup_insert_Some; [by left|by right]. }
  split.
  - intros j s' [[-> ->]|[_ Hj]]%Hcases; [done|by eapply slots_range].
  - intros j s' record [[-> ->]|[_ Hj]]%Hcases Hr.
    + destruct (fits_wf _ _ _ _ (Hfits _ Hr)) as [H1 H2 H3 H4 H5]. split; [done..| |done|done].
      intros side e He. rewrite (lease_matches_ext A _ _ s) by done. by apply H3.
    + destruct (records_wf _ Hwf _ _ _ Hj Hr) as [H1 H2 H3 H4 H5]. split; [done..| |done|done].
      intros side e He. rewrite (lease_matches_ext A _ _ s') by done. by apply H3.
  - intros o j side k side' [H1|[-> (r & e & Hr & He & Ho)]]%fill_located
      [H2|[-> (r' & e' & Hr' & He' & Ho')]]%fill_located; [by eapply located_once| | |].
    + exfalso. subst o. by eapply (fits_fresh _ _ _ _ (Hfits _ Hr')).
    + exfalso. subst o. by eapply (fits_fresh _ _ _ _ (Hfits _ Hr)).
    + split; [done|]. simplify_eq. by eapply (fits_apart _ _ _ _ (Hfits _ Hr)).
Qed.

Lemma fill_queued {X} (g : list QueuedMessage → list X) : g [] = [] →
  (all_queues A' ≫= λ q, g (contents q)) ≡ₚ (all_queues A ≫= λ q, g (contents q)).
Proof using Hi Hfree Hfits.
  intros Hg. destruct (all_queues_with_slot A i slot Hi) as (rest & H1 & H2).
  rewrite H1, H2, !bind_app. f_equiv.
  unfold slot_queues. rewrite Hfree. destruct (pair_record s) as [record|] eqn:Hr; [|done]. simpl.
  destruct (fits_idle _ _ _ _ (Hfits _ eq_refl) ChannelSide.Zero) as [H0 _].
  destruct (fits_idle _ _ _ _ (Hfits _ eq_refl) ChannelSide.One) as [H1' _]. simpl in *.
  by rewrite H0, H1', Hg.
Qed.

Lemma fill_tokens : queued_tokens A' ≡ₚ queued_tokens A.
Proof using Hi Hfree Hfits. by apply (fill_queued (omap payload)). Qed.

Lemma fill_targets j side r : j ≠ i → targets A' j side r = targets A j side r.
Proof using Type. intros Hne. unfold targets. simpl. by rewrite list_lookup_insert_ne. Qed.

Context (P : PayloadPool.t) (S : list ChannelSendReservation) (R : list ChannelReceiveReservation).

(** No outstanding reservation names the new generation. *)
Lemma fill_issued side : sends_held A S → issued A' S i side = [].
Proof using Hi Hnext.
  intros Hs. unfold issued. assert (∀ r, r ∈ S → targets A' i side r = false) as Hno.
  { intros r Hr. destruct (sh_keys _ _ Hs r Hr) as (_ & s0 & Hs0 & Hle). apply not_true_is_false. intros Ht.
    pose proof (targets_key _ _ _ _ Ht) as [Hk _]. rewrite <- Hk, Hi in Hs0. injection Hs0 as <-.
    unfold targets in Ht. simpl in Ht. rewrite list_lookup_insert_eq in Ht by (by eapply lookup_lt_Some).
    rewrite !andb_true_iff, Z.eqb_eq in Ht. lia. }
  clear Hs. induction S as [|r S' IH]; csimpl; [done|]. rewrite (Hno r) by (by left).
  apply IH. intros r' Hr'. apply Hno. by right.
Qed.

Lemma fill_issued_elsewhere j side : j ≠ i → issued A' S j side = issued A S j side.
Proof using Type.
  intros Hne. unfold issued. induction S as [|r S' IH]; csimpl; [done|]. by rewrite fill_targets, IH.
Qed.

Lemma fill_inv : channel_inv A P S R → channel_inv A' P S R.
Proof using Hi Hfree Hrange Hnext Hfits.
  intros [Hwf Hp Hs HR Hac]. split.
  - by apply fill_wf.
  - split; [apply Hp| | |apply Hp].
    + eapply pool_owns_perm; [|apply Hp]. f_equiv. symmetry. apply fill_tokens.
    + intros j side q [Hj|[-> (record & Hr & <-)]]%fill_queue; [by eapply po_messages|].
      by rewrite (proj1 (fits_idle _ _ _ _ (Hfits _ Hr) side)).
  - split.
    + intros j side q [Hj|[-> (record & Hr & <-)]]%fill_queue He.
      * assert (j ≠ i) as Hne. { intros ->. unfold queue_at in Hj. by rewrite fill_vacant in Hj. }
        rewrite fill_issued_elsewhere by done. eapply sh_reserved; [done..|].
        destruct He as [e [He|[-> _]]%fill_endpoint]; done.
      * rewrite fill_issued by done. by rewrite (proj1 (proj2 (fits_idle _ _ _ _ (Hfits _ Hr) side))).
    + intros r Hr. destruct (sh_keys _ _ Hs r Hr) as (Hd & s0 & Hs0 & Hle). split; [done|]. simpl.
      destruct (decide (key_slot (send_pair r) = i)) as [Heq|Hne].
      * rewrite Heq in *. exists s. rewrite list_lookup_insert_eq by (by eapply lookup_lt_Some). split; [done|].
        rewrite Hi in Hs0. injection Hs0 as <-. lia.
      * exists s0. by rewrite list_lookup_insert_ne.
  - split; [| |by apply HR].
    + intros r Hr. destruct (rh_receiving _ _ HR r Hr) as (Hd & (s0 & Hs0 & Hg) & [e He] & q & Hq & Hhead).
      split_and!; [done| |exists e; apply fill_endpoint; by left|exists q; split; [by apply fill_queue_keep|done]].
      exists s0. split; [|done]. simpl. rewrite list_lookup_insert_ne; [done|]. intros Heq.
      unfold queue_at in Hq. rewrite <- Heq, fill_vacant in Hq. done.
    + intros j side q g [Hj|[-> (record & Hr & <-)]]%fill_queue Hg; [by eapply rh_reserved|].
      by rewrite (proj2 (proj2 (fits_idle _ _ _ _ (Hfits _ Hr) side))) in Hg.
  - eapply acyclic_mono; [|done]. intros o o' (j & side & q & Hl & Hq & Ho).
    apply fill_queue in Hq as [Hq|[-> (record & Hr & <-)]].
    + exists j, side, q. split_and!; [|done..]. apply fill_located in Hl as [Hl|[-> _]]; [done|].
      unfold queue_at in Hq. by rewrite fill_vacant in Hq.
    + exfalso. apply elem_of_queued_channels in Ho as (m & Hm & _).
      rewrite (proj1 (fits_idle _ _ _ _ (Hfits _ Hr) side)) in Hm. by apply elem_of_nil in Hm.
Qed.
End fill.

(** ** The steps of [create_pair] *)

(** The slot [key] names, taken one generation on from free. *)
Definition taken (A : t) (key : ChannelPairKey) (slot : PairSlot) : Prop :=
  pairs A !! key_slot key = Some slot ∧ pair_record slot = None ∧ Z.of_nat (key_slot key) < 2 ^ 16 ∧
  key_generation key = pair_generation slot + 1 ∧ key_generation key < 2 ^ 32 ∧ key_domain key = domain A.

Definition holding (A : t) (key : ChannelPairKey) (record : option PairRecord) : t :=
  with_slot (key_slot key) {| pair_generation := key_generation key; pair_record := record |} A.

(** No slot can hold another pair. *)
Definition pairs_full (A : t) : Prop := ∀ i slot, pairs A !! i = Some slot → Z.of_nat i < 2 ^ 16 →
  is_Some (pair_record slot) ∨ pair_generation slot = 2 ^ 32 - 1.

Lemma reserve_endpoints_wp A depth : channels_wf A →
  wp (reserve_pair depth) A
    (λ key A', ∃ slot, taken A key slot ∧ A' = holding A key (Some (new_pair depth)))
    (λ error A', error = ChannelError.Capacity ∧ A' = A ∧ pairs_full A).
Proof.
  intros Hwf. unfold reserve_pair. do 3 wp_step.
  apply (wp_loop (λ pre _ st, st = A ∧ ∀ i slot, (i < length pre)%nat → pairs A !! i = Some slot →
    is_Some (pair_record slot) ∨ pair_generation slot = 2 ^ 32 - 1)).
  - split; [done|]. simpl. lia.
  - intros pre i post [] st Hseq [-> Hprev]. apply seq_split_at in Hseq as [-> Hi].
    destruct (lookup_lt_is_Some_2 (pairs A) (length pre)) as [slot Hslot]; [done|].
    assert (is_Some (pair_record slot) ∨ pair_generation slot = 2 ^ 32 - 1 →
      ∀ j s, (j < length (pre ++ [length pre]))%nat → pairs A !! j = Some s →
        is_Some (pair_record s) ∨ pair_generation s = 2 ^ 32 - 1) as Hmore.
    { intros Hs j s Hj Hjs. rewrite length_app in Hj. simpl in Hj.
      destruct (decide (j = length pre)) as [->|]; [by simplify_eq|]. apply (Hprev j); [lia|done]. }
    do 3 wp_step. eapply wp_expect; [done|]. destruct (pair_record slot) as [record|] eqn:Hrec.
    { wp_step. split; [done|]. apply Hmore. by left. }
    pose proof (slots_range _ Hwf _ _ Hslot) as Hu.
    destruct (next_nonzero 32 (pair_generation slot)) as [g|] eqn:Hg.
    2:{ apply next_nonzero_None in Hg; [|done]. wp_step. split; [done|]. apply Hmore. by right. }
    apply next_nonzero_Some in Hg as [-> Hg]; [|apply Hu]. wp_step. apply wp_ok_or.
    unfold try_from. destruct (Z.ltb_spec (Z.of_nat (length pre)) (2 ^ 16)) as [H16|H16].
    + do 2 wp_step. wp_step. wp_step. rewrite Nat2Z.id. exists slot. by split_and!.
    + split_and!; [done..|]. intros j s Hj H16'. apply (Hprev j); [lia|done].
  - intros [] st [-> Hall]. wp_step. split_and!; [done..|]. intros i slot Hslot _.
    apply (Hall i); [|done]. rewrite length_seq. by eapply lookup_lt_Some.
Qed.

Definition endpoint_for (key : ChannelPairKey) (side : ChannelSide.t) (object : ObjectId) : EndpointRecord :=
  {| endpoint_object := object; endpoint_lease := {| lease_pair := key; lease_side := side |} |}.

(** The pair with both endpoints bound and nothing queued. *)
Definition bound_pair (key : ChannelPairKey) (depth : nat) (first second : ObjectId) : PairRecord :=
  {| endpoints := {| side_zero := Some (endpoint_for key ChannelSide.Zero first);
                     side_one := Some (endpoint_for key ChannelSide.One second) |};
     inbound := inbound (new_pair depth) |}.

Lemma holding_slot A key slot record : taken A key slot →
  pairs (holding A key record) !! key_slot key =
    Some {| pair_generation := key_generation key; pair_record := record |}.
Proof. intros (Hi & _). simpl. rewrite list_lookup_insert_eq; [done|]. by eapply lookup_lt_Some. Qed.

Lemma holding_holding A key record record' :
  with_slot (key_slot key) {| pair_generation := key_generation key; pair_record := record' |}
    (holding A key record) = holding A key record'.
Proof. apply with_slot_with_slot. Qed.

Lemma bind_pair_wp A key slot depth first second : taken A key slot →
  creation_type first = DW_OBJECT_TYPE_CHANNEL → creation_type second = DW_OBJECT_TYPE_CHANNEL →
  wp (bind_pair key first second) (holding A key (Some (new_pair depth)))
    (λ bindings A', bindings = ({| channel_creation := first |}, {| channel_creation := second |}) ∧
       A' = holding A key (Some (bound_pair key depth (creation_id first) (creation_id second))))
    (λ _ _, False).
Proof.
  intros Ht H1 H2. pose proof (holding_slot _ _ _ (Some (new_pair depth)) Ht) as Hslot.
  pose proof Ht as (_ & _ & _ & _ & _ & Hd). unfold bind_pair. rewrite H1, H2, !Z.eqb_refl. cbn [negb orb].
  wp_step. apply wp_get. wp_step. rewrite Hslot. apply wp_ok_or.
  cbn [pair_generation pair_record]. rewrite Hd, !Z.eqb_refl. cbn [negb orb].
  wp_step. apply wp_ok_or. cbn [new_pair endpoints both_sides is_none at_side side_zero side_one negb andb]. cbv zeta. wp_step. eapply set_pair_wp; [exact Hslot|].
  wp_step. split; [done|]. cbn [pair_generation]. by rewrite holding_holding.
Qed.

Lemma cancel_empty_pair_wp {E} A key slot depth : taken A key slot →
  wp (E:=E) (cancel_empty_pair key) (holding A key (Some (new_pair depth)))
    (λ _ A', A' = holding A key None) (λ _ _, False).
Proof.
  intros Ht. pose proof (holding_slot _ _ _ (Some (new_pair depth)) Ht) as Hslot.
  pose proof Ht as (_ & _ & _ & _ & _ & Hd). unfold cancel_empty_pair. wp_step. apply wp_get. wp_step.
  eapply wp_expect; [exact Hslot|]. wp_step. apply wp_assert; [by rewrite Hd, Z.eqb_refl|].
  wp_step. apply wp_assert; [apply Z.eqb_refl|]. wp_step. eapply wp_expect; [done|].
  wp_step. apply wp_assert; [done|]. wp_step. apply wp_assert; [done|].
  eapply set_pair_wp; [exact Hslot|]. cbn [pair_generation]. by rewrite holding_holding.
Qed.

Lemma fresh_queue_idle depth : (0 < depth)%nat → queue_idle (ByteQueue.new depth).
Proof.
  intros Hd. split_and!; [by apply contents_wf, new_queue_wf| |done].
  apply (omap_fill (@nil Z) depth).
Qed.

Lemma bound_fits A key slot depth first second : channels_wf A → taken A key slot → (0 < depth)%nat →
  (∀ j side, ¬ located A first j side) → (∀ j side, ¬ located A second j side) → first ≠ second →
  fits A (key_slot key) {| pair_generation := key_generation key;
                           pair_record := Some (bound_pair key depth first second) |}
    (bound_pair key depth first second).
Proof.
  intros Hwf (Hi & _ & H16 & Hg & H32 & Hd) Hdepth Hf Hs Hne.
  destruct (slots_range _ Hwf _ _ Hi) as [Hu _]. split.
  - split; simpl; [done|lia| | |by intros []].
    + intros [] e [= <-]; unfold lease_matches; simpl;
        by rewrite Hd, !Z.eqb_refl, Nat.eqb_refl.
    + intros []; by eapply queue_wf_contents, new_queue_wf.
  - intros []; by apply fresh_queue_idle.
  - intros [] e [= <-]; simpl; done.
  - intros [] [] e e' [= <-] [= <-]; simpl; done.
Qed.

(** ** With the object registry *)

Lemma unreferenced_add refs id tok : unreferenced refs id → tok.1.2 ≠ id →
  unreferenced (refs ⊎ {[+ tok +]}) id.
Proof.
  intros Hun Hne k ty [Hin|Hin]%gmultiset_elem_of_disj_union; [by eapply Hun|].
  apply gmultiset_elem_of_singleton in Hin as <-. done.
Qed.

Lemma swap_out {X} `{Countable X} (m : gmultiset X) x y :
  (m ⊎ {[+ x +]} ⊎ {[+ y +]}) ∖ {[+ x +]} = m ⊎ {[+ y +]}.
Proof. multiset_solver. Qed.

(** At most a generation was used up. *)
Definition pair_cancelled (A A' : t) : Prop :=
  A' = A ∨ ∃ key slot, taken A key slot ∧ A' = holding A key None.

Section with_registry.
Context {owns : ObjectRegistry.t → gmultiset Token → gmultiset FinalRelease → Prop}.
Context `{!RegistryContract owns}.
Context (A : t) (P : PayloadPool.t) (S : list ChannelSendReservation) (R : list ChannelReceiveReservation).
Context (depth : nat) (refs : gmultiset Token) (finals : gmultiset FinalRelease).
Hypothesis (Hinv : channel_inv A P S R) (Hdepth : (0 < depth)%nat).
Hypothesis (Halive : ∀ o i side, located A o i side → alive DW_OBJECT_TYPE_CHANNEL o refs finals).

(** Both endpoints exist, fresh and apart, with a handle each. *)
Record pair_created (A' : t) (reg : ObjectRegistry.t) (first second : ObjectId) (h1 h2 : HandleRef) : Prop := {
  created_ids : handle_id h1 = first ∧ handle_id h2 = second;
  created_types : handle_type h1 = DW_OBJECT_TYPE_CHANNEL ∧ handle_type h2 = DW_OBJECT_TYPE_CHANNEL;
  created_apart : first ≠ second;
  created_fresh : (∀ ty, ¬ alive ty first refs finals) ∧ ∀ ty, ¬ alive ty second refs finals;
  created_owned : owns reg (refs ⊎ {[+ handle_token h1 +]} ⊎ {[+ handle_token h2 +]}) finals;
  created_inv : channel_inv A' P S R;
  created_place : ∃ key slot, taken A key slot ∧ A' = holding A key (Some (bound_pair key depth first second));
}.

Lemma created_channel_inv key slot first second : taken A key slot → first ≠ second →
  (∀ j side, ¬ located A first j side) → (∀ j side, ¬ located A second j side) →
  channel_inv (holding A key (Some (bound_pair key depth first second))) P S R.
Proof using Hinv Hdepth.
  intros Ht Hne H1 H2. pose proof Ht as (Hi & Hfree & H16 & Hg & H32 & Hd).
  destruct (slots_range _ (ci_wf _ _ _ _ Hinv) _ _ Hi) as [Hu _].
  eapply fill_inv; [done|done|simpl; split; simpl; lia|simpl; lia| |done].
  intros record [= <-]. eapply bound_fits; [apply Hinv|done..].
Qed.

Lemma cancelled_channel_inv key slot : taken A key slot → channel_inv (holding A key None) P S R.
Proof using Hinv.
  clear Hdepth. intros Ht. pose proof Ht as (Hi & Hfree & H16 & Hg & H32 & Hd).
  destruct (slots_range _ (ci_wf _ _ _ _ Hinv) _ _ Hi) as [Hu _].
  by eapply fill_inv; [done|done|simpl; split; simpl; lia|simpl; lia| |done].
Qed.

Lemma cancelled_record key slot j : taken A key slot → record_at (holding A key None) j = record_at A j.
Proof using Type.
  intros (Hi & Hfree & _). unfold holding. rewrite record_at_with_slot by (by eapply lookup_lt_Some).
  simpl. case_decide as Hj; [subst|done]. unfold record_at. by rewrite Hi.
Qed.

(** Two fresh objects become handles. *)
Lemma publish_both_wp {E} (A' : t) reg c1 c2 (keys : ChannelEndpointKey * ChannelEndpointKey) :
  creation_id c1 ≠ creation_id c2 →
  unreferenced refs (creation_id c1) → unreferenced refs (creation_id c2) →
  owns reg (refs ⊎ {[+ creation_token c1 +]} ⊎ {[+ creation_token c2 +]}) finals →
  wp (E:=E)
    (first ← on_snd (unwrap (ObjectRegistry.finish_payload_binding {| channel_creation := c1 |}));
     second ← on_snd (unwrap (ObjectRegistry.finish_payload_binding {| channel_creation := c2 |}));
     h1 ← on_snd (unwrap (ObjectRegistry.bound_into_handle first));
     h2 ← on_snd (unwrap (ObjectRegistry.bound_into_handle second));
     mret (keys, (h1, h2))) (A', reg)
    (λ made st, made.1 = keys ∧ st.1 = A' ∧
       handle_id made.2.1 = creation_id c1 ∧ handle_type made.2.1 = creation_type c1 ∧
       handle_id made.2.2 = creation_id c2 ∧ handle_type made.2.2 = creation_type c2 ∧
       owns st.2 (refs ⊎ {[+ handle_token made.2.1 +]} ⊎ {[+ handle_token made.2.2 +]}) finals) (λ _ _, False).
Proof using All.
  intros Hne H1 H2 Ho. wp_step. apply wp_on_snd, wp_unwrap. eapply wp_eq.
  { eapply (finish_payload_binding_owns (P:=ChannelPayloadBinding)); [done|]. simpl. multiset_solver. }
  wp_step. apply wp_on_snd, wp_unwrap. eapply wp_eq.
  { eapply (finish_payload_binding_owns (P:=ChannelPayloadBinding)); [done|]. simpl. multiset_solver. }
  cbn [into_creation ChannelPayloadBinding_proof channel_creation].
  wp_step. apply wp_on_snd, wp_unwrap.
  eapply wp_mono; [eapply (fresh_into_handle_owns _ _ _ c1); [done|multiset_solver|]| |done].
  { rewrite swap_out. apply unreferenced_add; [done|]. simpl. congruence. }
  intros h1 reg1 (Hid1 & Hty1 & Ho1). rewrite swap_out in Ho1. wp_step. apply wp_on_snd, wp_unwrap.
  eapply wp_mono; [eapply (fresh_into_handle_owns _ _ _ c2); [done|multiset_solver|]| |done].
  { rewrite swap_out. apply unreferenced_add; [done|]. simpl. congruence. }
  intros h2 reg2 (Hid2 & Hty2 & Ho2). rewrite swap_out in Ho2. wp_step. by split_and!.
Qed.

(** The second object is not the first, and neither was known. *)
Lemma created_objects_fresh reg c1 c2 : creation_type c1 = DW_OBJECT_TYPE_CHANNEL →
  unreferenced refs (creation_id c1) → unreferenced (refs ⊎ {[+ creation_token c1 +]}) (creation_id c2) →
  owns reg (refs ⊎ {[+ creation_token c1 +]} ⊎ {[+ creation_token c2 +]}) finals →
  (∀ ty, ¬ alive ty (creation_id c1) refs finals) ∧ (∀ ty, ¬ alive ty (creation_id c2) refs finals) ∧
  creation_id c1 ≠ creation_id c2 ∧ unreferenced refs (creation_id c2).
Proof using RegistryContract0.
  intros Hty Hun1 Hun2 Ho.
  assert (unreferenced refs (creation_id c2)) as Hun2'.
  { intros k ty Hin. apply (Hun2 k ty). apply gmultiset_elem_of_disj_union. by left. }
  assert (creation_id c1 ≠ creation_id c2) as Hne.
  { intros Heq. apply (Hun2 ReferenceKind.Internal (creation_type c1)). rewrite <- Heq.
    apply gmultiset_elem_of_disj_union. right. by apply gmultiset_elem_of_singleton. }
  split_and!; [| |done..]; intros ty [[k Hk]|Hf].
  - by eapply Hun1.
  - eapply (contract_final_last _ _ _ _ Ho Hf ReferenceKind.Internal (creation_type c1)). simpl.
    apply gmultiset_elem_of_disj_union. left. apply gmultiset_elem_of_disj_union. right.
    by apply gmultiset_elem_of_singleton.
  - by eapply Hun2'.
  - eapply (contract_final_last _ _ _ _ Ho Hf ReferenceKind.Internal (creation_type c2)). simpl.
    apply gmultiset_elem_of_disj_union. right. by apply gmultiset_elem_of_singleton.
Qed.

Lemma create_pair_wp reg : owns reg refs finals →
  wp (create_pair depth) (A, reg)
    (λ made st, pair_created st.1 st.2 (endpoint_object_id made.1.1) (endpoint_object_id made.1.2) made.2.1 made.2.2)
    (λ error st, owns st.2 refs finals ∧ channel_inv st.1 P S R ∧ pair_cancelled A st.1 ∧
       match error with
       | ChannelCreateError.Channel e => e = ChannelError.Capacity ∧ st = (A, reg) ∧ pairs_full A
       | ChannelCreateError.Registry _ => True
       end).
Proof using All.
  intros Ho. unfold create_pair. wp_step. apply wp_on_fst, wp_map_err.
  eapply wp_mono; [apply reserve_endpoints_wp, Hinv| |by intros error A' (-> & -> & ?); split_and!; try done; left].
  intros key A' (slot & Ht & ->). wp_step. apply wp_on_snd, wp_try.
  eapply wp_mono; [by apply contract_create| |].
  2:{ intros error reg1 Ho1. wp_step. apply wp_on_fst. eapply wp_mono; [by eapply cancel_empty_pair_wp| |done].
      intros [] A' ->. wp_step. split_and!; [done|by eapply cancelled_channel_inv|by right; exists key, slot|done]. }
  intros c1 reg1 (Hty1 & Hun1 & Ho1). wp_step. apply wp_on_snd, wp_try.
  eapply wp_mono; [by apply contract_create| |].
  2:{ intros error reg2 Ho2. wp_step. apply wp_on_snd, wp_unwrap.
      eapply wp_mono; [eapply (cancel_creation_owns _ _ _ c1 Ho2); [multiset_solver|by rewrite gmultiset_add_remove]| |done].
      intros [] reg3 Ho3. rewrite gmultiset_add_remove in Ho3. wp_step. apply wp_on_fst.
      eapply wp_mono; [by eapply cancel_empty_pair_wp| |done].
      intros [] A' ->. wp_step. split_and!; [done|by eapply cancelled_channel_inv|by right; exists key, slot|done]. }
  intros c2 reg2 (Hty2 & Hun2 & Ho2). cbv zeta. wp_step. apply wp_on_fst, wp_unwrap.
  eapply wp_mono; [by eapply bind_pair_wp| |done]. intros [b1 b2] A' [[= -> ->] ->].
  destruct (created_objects_fresh reg2 c1 c2 Hty1 Hun1 Hun2 Ho2) as (Hf1 & Hf2 & Hne & Hun2').
  eapply wp_mono; [by apply publish_both_wp| |done].
  intros [keys [h1 h2]] [A' reg3] (Hkeys & HA' & Hid1 & Ht1 & Hid2 & Ht2 & Ho3). simpl in *. subst keys A'.
  split; simpl; [done|split; congruence|done|done|done| |by exists key, slot].
  eapply created_channel_inv; [done..| |]; intros j side Hl%Halive; [by apply Hf1 in Hl|by apply Hf2 in Hl].
Qed.
End with_registry.
