(* ===== verification/ChannelMessages.v ===== *)
(** * Whole messages

    Sending and receiving as the system-call layer composes them: a
    reservation that is committed or refused in the same call.  A message is
    delivered or nothing has changed for anyone. *)

From stdpp Require Import base tactics numbers list sets relations.
From Stdlib Require Import ZArith Lia.
From S2P Require Import Prelude Abi Object HandleTable Wait WaitFacts Channel ChannelQueue ChannelFacts ChannelCycle ChannelInvariant ChannelWaits ChannelSend ChannelClose.
Import ChannelAuthority.
Local Open Scope Z_scope.

(** ** The load of a queue *)

(** What the signals of a pair depend on. *)
Record same_load (q q' : ByteQueue.t) : Prop := {
  load_contents : contents q' = contents q;
  load_sends : length (reserved q') = length (reserved q);
  load_depth : ByteQueue.depth q' = ByteQueue.depth q;
}.

(** The authorities agree but for the bookkeeping of reservations. *)
Definition same_traffic (A A' : t) : Prop :=
  A' = A ∨ ∃ i side q q', queue_at A i side = Some q ∧ A' = set_queue A i side q' ∧ same_load q q'.

Lemma pair_signals_put record side q' side0 :
  let q := at_side side (inbound record) in
  queue_wf q (contents q) → queue_wf q' (contents q') → same_load q q' →
  pair_signals (put_queue side q' record) side0 = pair_signals record side0.
Proof.
  intros q Hwf Hwf' [Hc Hs Hd].
  assert (ByteQueue.len q' = ByteQueue.len q) as Hlen.
  { by rewrite (ring_len _ _ Hwf), (ring_len _ _ Hwf'), Hc. }
  assert (ByteQueue.is_empty q' = ByteQueue.is_empty q) as Hempty by (unfold ByteQueue.is_empty; by rewrite Hlen).
  assert (ByteQueue.has_minimal_capacity q' = ByteQueue.has_minimal_capacity q) as Hcap.
  { unfold ByteQueue.has_minimal_capacity, ByteQueue.reserved_send_count.
    fold (reserved q) (reserved q'). by rewrite Hlen, Hs, Hd. }
  unfold pair_signals, signals_for_pair, put_queue. simpl. rewrite !at_side_set_side.
  subst q. destruct side, side0; simpl; rewrite ?Hempty, ?Hcap; done.
Qed.

Lemma quiet_same_traffic A A' W : channels_wf A → channels_wf A' → same_traffic A A' →
  channels_quiet A W → channels_quiet A' W.
Proof.
  intros Hwf Hwf' [->|(i & side & q & q' & Hq & -> & Hload)] Hquiet; [done|].
  eapply quiet_same; [done|]. intros j record'. rewrite record_at_set_queue.
  case_decide as Hj; [subst|by intros ?; exists record'].
  destruct (record_at A i) as [record|] eqn:Hr; [|done]. intros [= <-]. exists record. split; [done|].
  split; [done|]. intros side0.
  assert (q = at_side side (inbound record)) as ->.
  { unfold queue_at in Hq. rewrite Hr in Hq. simpl in Hq. congruence. }
  apply pair_signals_put; [exact (queue_at_wf A i side _ Hwf Hq)| |done].
  eapply (queue_at_wf (set_queue A i side q')); [done|by eapply queue_at_set_queue_eq].
Qed.

Lemma located_same_traffic A A' o i side : same_traffic A A' → located A' o i side ↔ located A o i side.
Proof. intros [->|(j & s & q & q' & _ & -> & _)]; [done|]. apply located_set_queue. Qed.

(** Reservations do not show in the graph of queued endpoints. *)
Lemma edge_same_contents A i side q q' o o' : queue_at A i side = Some q → contents q' = contents q →
  edge (set_queue A i side q') o o' ↔ edge A o o'.
Proof.
  intros Hq Hc. split.
  - intros [He|[Hl Ho]]%(edge_set_queue A i side q); [done| |done].
    exists i, side, q. split_and!; [done..|]. apply elem_of_queued_channels in Ho as (m & Hm & Ho).
    apply elem_of_queued_channels. exists m. by rewrite <- Hc.
  - intros (j & side' & q0 & Hl & Hq0 & Ho). rewrite <- (located_set_queue A i side q') in Hl.
    destruct (decide (j = i ∧ side' = side)) as [[-> ->]|Hne].
    + exists i, side, q'. split_and!; [done|by eapply queue_at_set_queue_eq|].
      rewrite Hq in Hq0. injection Hq0 as <-. apply elem_of_queued_channels in Ho as (m & Hm & Ho).
      apply elem_of_queued_channels. exists m. by rewrite Hc.
    + exists j, side', q0. split_and!; [done| |done]. rewrite (queue_at_set_queue _ _ _ _ _ _ _ Hq).
      by rewrite decide_False.
Qed.

Lemma reachable_same_contents A i side q q' sources o : queue_at A i side = Some q →
  contents q' = contents q → reachable (set_queue A i side q') sources o ↔ reachable A sources o.
Proof.
  intros Hq Hc. split; intros (source & Hs & Hr); exists source; (split; [done|]);
    (eapply rtc_mono; [|done]); intros x y; by apply (edge_same_contents A i side q q').
Qed.

(** ** Sending *)

(** A message with transfers, as the send path of the system-call layer
    composes it: a reservation and its commit. *)
Definition send_message (object : ObjectId) (bytes : list Z) (transfers : HandleTransferBatch)
    : M (ChannelAuthority.t * PayloadPool.t * WaitRegistry.t) (ChannelError.t * HandleTransferBatch)
        WakeBatch.t :=
  reservation ← map_err (λ error, (error, transfers))
    (on_fst (reserve_send {| endpoint_object_id := object |} bytes));
  commit_send reservation transfers.

Definition receive_message (object : ObjectId) (output : list Z)
    : M (ChannelAuthority.t * PayloadPool.t * WaitRegistry.t) ChannelError.t
        (ChannelReceivedMessage * list Z) :=
  reservation ← on_fst (on_fst (reserve_receive {| endpoint_object_id := object |}));
  receive_reserved reservation output.

(** Why a message was not sent. *)
Inductive send_failed (A : t) (P : PayloadPool.t) (object : ObjectId) (bytes : list Z)
    (transfers : HandleTransferBatch) : ChannelError.t → Prop :=
| failed_early error : send_refused A P object bytes error → send_failed A P object bytes transfers error
| failed_cycle i side e : located A object i side → endpoint_at A i (ChannelSide.peer side) = Some e →
    reachable A (batch_objects_of_type transfers DW_OBJECT_TYPE_CHANNEL) (endpoint_object e) →
    send_failed A P object bytes transfers ChannelError.InvalidArgument
| failed_dangling o : reachable A (batch_objects_of_type transfers DW_OBJECT_TYPE_CHANNEL) o →
    dangling A o → send_failed A P object bytes transfers ChannelError.StalePair.

(** The message is the last of the peer's inbox, and nothing else changed. *)
Record delivered (A : t) (P : PayloadPool.t) (W : WaitRegistry.t) (object : ObjectId) (bytes : list Z)
    (transfers : HandleTransferBatch) (A' : t) (P' : PayloadPool.t) (W' : WaitRegistry.t)
    (b : WakeBatch.t) : Prop := {
  delivered_queue : ∃ i side q q' m record, located A object i side ∧
    is_Some (endpoint_at A i (ChannelSide.peer side)) ∧
    queue_at A i (ChannelSide.peer side) = Some q ∧ A' = set_queue A i (ChannelSide.peer side) q' ∧
    contents q' = contents q ++ [m] ∧ ByteQueue.depth q' = ByteQueue.depth q ∧
    Channel.transfers m = transfers ∧
    record_at A' i = Some record ∧
    collected W (pair_sources record [ChannelSide.peer side; side]) W' b ∧
    ∀ j side', inbox A' P' j side' =
      if decide (j = i ∧ side' = ChannelSide.peer side) then (.++ [(bytes, transfers)]) <$> inbox A P j side'
      else inbox A P j side';
  delivered_acyclic i side e : located A object i side →
    endpoint_at A i (ChannelSide.peer side) = Some e →
    ¬ reachable A (batch_objects_of_type transfers DW_OBJECT_TYPE_CHANNEL) (endpoint_object e);
  delivered_length : (length bytes ≤ Z.to_nat DW_CHANNEL_MAX_PAYLOAD)%nat;
}.

(** A send between its reservation and its commit. *)
Section sending.
Context (A : t) (P : PayloadPool.t) (object : ObjectId) (bytes : list Z) (transfers : HandleTransferBatch).
Context (r : ChannelSendReservation) (i : nat) (side : ChannelSide.t) (q q1 : ByteQueue.t) (P1 : PayloadPool.t).
Hypothesis (Hinv : channel_inv A P [] []).
Hypothesis (Hl : located A object i side) (Hpeer : is_Some (endpoint_at A i (ChannelSide.peer side))).
Hypothesis (Hq : queue_at A i (ChannelSide.peer side) = Some q) (Hre : resent q q1 [send_generation r] []).
Hypothesis (Hf : frame (queued_tokens A ++ omap send_payload []) P P1).

Let A1 := set_queue A i (ChannelSide.peer side) q1.
Hypothesis (Hinv1 : channel_inv A1 P1 [r] []) (Hmade : reservation_made A1 P1 i side bytes r).

Lemma sending_place : key_slot (send_pair r) = i ∧ send_side r = side.
Proof using Hmade. split; apply Hmade. Qed.

Lemma sending_queue : queue_at A1 i (ChannelSide.peer side) = Some q1.
Proof using Hq. by eapply queue_at_set_queue_eq. Qed.

Lemma sending_delivered W A2 W' b : committed A1 W r transfers A2 W' b →
  channel_inv A2 P1 [] [] → delivered A P W object bytes transfers A2 P1 W' b.
Proof using All.
  intros [Ht Hsend (q0 & q2 & Hq0 & HA2 & Hc & Hd) (e & He & Hno) (record & Hrec & Hcol)] Hinv2.
  destruct sending_place as [Hi Hs]. rewrite Hi, Hs in *. rewrite sending_queue in Hq0. injection Hq0 as <-.
  pose proof (resent_contents _ _ _ _ Hre) as Hc1. pose proof (resent_depth _ _ _ _ Hre) as Hd1.
  unfold A1 in HA2. rewrite set_queue_set_queue in HA2. split.
  - exists i, side, q, q2, (sent_message r transfers), record. split_and!; try done; [by rewrite Hc, Hc1|congruence|].
    intros j side'. rewrite HA2, (inbox_update A i _ q q2 Hq P P1 []) by (apply Hinv || done).
    case_decide as Hj; [|done]. destruct Hj as [-> ->]. unfold inbox. rewrite Hq. simpl. f_equal.
    rewrite Hc, Hc1, fmap_app. f_equal.
    + eapply messages_at_frame; [by apply Hinv|done..].
    + simpl. unfold message. simpl. by destruct Hmade as (_ & _ & _ & ->).
  - intros j side' e' Hl' He' Hre'. destruct (located_once _ (ci_wf _ _ _ _ Hinv) _ _ _ _ _ Hl Hl') as [<- <-].
    apply Hno. unfold A1 in He. rewrite endpoint_at_set_queue in He. rewrite He in He'. injection He' as <-.
    by apply (reachable_same_contents A i _ q q1 _ _ Hq Hc1).
  - destruct Hmade as (_ & _ & _ & <-).
    destruct (payload_length P1 (send_byte_len r) (send_payload r)) as [-> ?].
    { apply (po_reserved _ _ _ (ci_payloads _ _ _ _ Hinv1)). by left. }
    lia.
Qed.

(** A refused commit takes the reservation back. *)
Lemma sending_undone W st : send_undone A1 P1 [r] [] [] r W st →
  st.2 = W ∧ channel_inv st.1.1 st.1.2 [] [] ∧ same_traffic A st.1.1 ∧
  ∀ j side', inbox st.1.1 st.1.2 j side' = inbox A P j side'.
Proof using All.
  intros (HW & Hinv2 & Hab & Hf2).
  assert (∃ q2, st.1.1 = set_queue A i (ChannelSide.peer side) q2 ∧ resent q q2 [] []) as (q2 & HA2 & Hre2).
  { destruct Hab as [HA2|(j & side' & q0 & q2 & Hq0 & _ & Ht & HA2 & Hre2)].
    - exfalso. destruct Hinv2 as [_ _ [Hres _] _ _]. rewrite HA2 in Hres.
      assert (is_Some (endpoint_at A1 i (ChannelSide.peer side))) as He by (unfold A1; by rewrite endpoint_at_set_queue).
      pose proof (Hres _ _ _ sending_queue He) as Hnil. pose proof (resent_reserved _ _ _ _ Hre) as Hp.
      rewrite Hnil in Hp. apply Permutation_length in Hp. done.
    - apply targets_key in Ht as [-> ->]. destruct sending_place as [Hi Hs]. rewrite Hi, Hs in *.
      rewrite sending_queue in Hq0. injection Hq0 as <-. exists q2. split; [|by eapply resent_trans].
      unfold A1 in HA2. by rewrite set_queue_set_queue in HA2. }
  split_and!; [done..| |].
  - right. exists i, (ChannelSide.peer side), q, q2. split_and!; [done..|]. destruct Hre2 as [_ Hc Hd _ Hp].
    split; [done| |done]. simpl in Hp. by rewrite Hp.
  - intros j side'. rewrite HA2. eapply resent_inbox; [exact Hinv|done..|].
    intros token Hin. rewrite Hf2; [by apply Hf|]. apply elem_of_app in Hin as [Hin|Hin]; [|by apply elem_of_nil in Hin].
    apply elem_of_app. left. unfold A1.
    by rewrite (queued_tokens_keep A i _ q q1 Hq (resent_contents _ _ _ _ Hre)).
Qed.

(** Both endpoints are open, so only the transfers can be at fault. *)
Lemma sending_failed error : commit_refused A1 r transfers error →
  send_failed A P object bytes transfers error.
Proof using All.
  pose proof (resent_contents _ _ _ _ Hre) as Hc. destruct sending_place as [Hi Hs], Hpeer as [e He].
  pose proof Hmade as (Ht & _). pose proof Hl as (e' & He' & _).
  assert (∀ side', endpoint_at A1 i side' = endpoint_at A i side') as Hep
    by (intros side'; unfold A1; apply endpoint_at_set_queue).
  intros Href. destruct Href as [Hstale|Hsender|Hclosed|e0 He0 Hreach|o Hreach Hdang]; rewrite ?Hi, ?Hs, ?Hep in *.
  - specialize (Hstale _ _ Ht). by rewrite Hep, He in Hstale.
  - by rewrite He' in Hsender.
  - by rewrite He in Hclosed.
  - eapply failed_cycle; [done..|]. by apply (reachable_same_contents A i _ q q1 _ _ Hq Hc).
  - eapply failed_dangling; [by apply (reachable_same_contents A i _ q q1 _ _ Hq Hc)|].
    intros j side' Hj. apply (Hdang j side'). by apply located_set_queue.
Qed.
End sending.

(** A message is delivered, or nothing changed and the transfers are back. *)
Lemma send_message_wp A P W object bytes transfers : channel_inv A P [] [] →
  (length transfers ≤ HANDLE_TRANSFER_LIMIT)%nat →
  wp (send_message object bytes transfers) (A, P, W)
    (λ b st, delivered A P W object bytes transfers st.1.1 st.1.2 st.2 b ∧
       channel_inv st.1.1 st.1.2 [] [])
    (λ failure st, failure.2 = transfers ∧ send_failed A P object bytes transfers failure.1 ∧
       st.2 = W ∧ channel_inv st.1.1 st.1.2 [] [] ∧ same_traffic A st.1.1 ∧
       ∀ j side', inbox st.1.1 st.1.2 j side' = inbox A P j side').
Proof.
  intros Hinv Hlim. unfold send_message. wp_step. apply wp_map_err, wp_on_fst.
  eapply wp_mono; [by apply reserve_send_kept| |].
  - intros r [A1 P1] (i & side & Hl & Hpeer & (q & q1 & Hq & HA1 & Hre) & Hf & Hinv1 & Hmade). simpl in *. subst A1.
    eapply wp_mono; [by eapply commit_send_kept| |].
    + intros b st (HP & Hc & Hinv2). rewrite HP. split; [|done]. by eapply sending_delivered.
    + intros failure st (Htr & Href & Hun). split; [done|]. split; [by eapply sending_failed|].
      by eapply sending_undone.
  - intros error [A1 P1] (Href & HP & Hinv1 & Hcase). simpl in *. subst P1.
    split_and!; [done|by apply failed_early|done..| |].
    + destruct Hcase as [->|(i & side & _ & q & q1 & Hq & -> & Hre)]; [by left|right].
      exists i, (ChannelSide.peer side), q, q1. split_and!; [done..|]. destruct Hre as [_ Hc Hd _ Hp].
      split; [done| |done]. simpl in Hp. by rewrite Hp.
    + destruct Hcase as [->|(i & side & _ & q & q1 & Hq & -> & Hre)]; [done|]. intros j side'.
      by eapply resent_inbox.
Qed.

(** ** Receiving *)

Inductive receive_failed (A : t) (object : ObjectId) (room : nat) : ChannelError.t → Prop :=
| failed_no_message error : receive_refused A object error → receive_failed A object room error
| failed_short i side q m ms : located A object i side → queue_at A i side = Some q →
    contents q = m :: ms → (room < Z.to_nat (byte_len m))%nat →
    receive_failed A object room ChannelError.BufferTooSmall.

(** The first message of the inbox is handed out, and nothing else changed. *)
Record obtained (A : t) (P : PayloadPool.t) (W : WaitRegistry.t) (object : ObjectId) (output : list Z)
    (result : ChannelReceivedMessage * list Z) (A' : t) (P' : PayloadPool.t) (W' : WaitRegistry.t)
    : Prop := {
  obtained_message : ∃ i side q q' m record, located A object i side ∧ queue_at A i side = Some q ∧
    A' = set_queue A i side q' ∧ contents q = m :: contents q' ∧
    ByteQueue.depth q' = ByteQueue.depth q ∧
    received_transfers result.1 = transfers m ∧ received_byte_len result.1 = Z.to_nat (byte_len m) ∧
    (received_byte_len result.1 ≤ length output)%nat ∧
    result.2 = (message P m).1 ++ drop (received_byte_len result.1) output ∧
    record_at A' i = Some record ∧
    collected W (pair_sources record [ChannelSide.peer side; side]) W' (received_wakes result.1) ∧
    ∀ j side', inbox A' P' j side' =
      if decide (j = i ∧ side' = side) then tail <$> inbox A P j side' else inbox A P j side';
}.

Section receiving.
Context (A : t) (P : PayloadPool.t) (object : ObjectId) (r : ChannelReceiveReservation).
Context (i : nat) (side : ChannelSide.t) (q q1 : ByteQueue.t).
Hypothesis (Hinv : channel_inv A P [] []).
Hypothesis (Hl : located A object i side) (Hq : queue_at A i side = Some q).
Hypothesis (Hplace : receive_place r = (i, side)) (Hre : rereserved q q1) (Hhead : reserves_head r q1).

Let A1 := set_queue A i side q1.

Lemma receiving_obtained W output result A2 P2 W' : received A1 P W r output result A2 W' →
  (Z.to_nat (required_bytes (receive_info r)) ≤ length output)%nat →
  (∀ token, bytes_of P2 token = bytes_of P token) → obtained A P W object output result A2 P2 W'.
Proof using All.
  intros [(q0 & q2 & m & Hq0 & HA2 & Hpop & Htr & Hlen & Hout) (record & Hrec & Hcol)] Hfit Hb.
  injection Hplace as Hi Hs. rewrite Hi, Hs in *. unfold A1 in Hq0, HA2. rewrite set_queue_set_queue in HA2.
  rewrite (queue_at_set_queue_eq A i side q1 q Hq) in Hq0. injection Hq0 as <-.
  destruct Hhead as (_ & m' & ms & Hms & Hinfo). pose proof (popped_head _ _ _ Hpop) as Hc.
  rewrite Hc in Hms. injection Hms as <- _. rewrite Hinfo in Hfit. simpl in Hfit.
  rewrite (rereserved_contents _ _ Hre) in Hc.
  pose proof (popped_depth _ _ _ Hpop) as Hd. rewrite (rereserved_depth _ _ Hre) in Hd.
  constructor. exists i, side, q, q2, m, record. rewrite Hlen. split_and!; try done.
  intros j side'. rewrite HA2, (inbox_update A i side q q2 Hq P P2 []); [|apply Hinv|by intros token _].
  case_decide as Hj; [|done]. destruct Hj as [-> ->]. unfold inbox. rewrite Hq. simpl. rewrite Hc. simpl.
  f_equal. apply list_fmap_ext. intros k m' _. unfold message. f_equal. apply payload_of_frame. by intros token _.
Qed.

Lemma receiving_undone A2 : head_released A1 r A2 →
  same_traffic A A2 ∧ ∀ j side', inbox A2 P j side' = inbox A P j side'.
Proof using All.
  intros (q0 & q2 & Hq0 & HA2 & Hre2). injection Hplace as Hi Hs. rewrite Hi, Hs in *.
  unfold A1 in Hq0, HA2. rewrite set_queue_set_queue in HA2.
  rewrite (queue_at_set_queue_eq A i side q1 q Hq) in Hq0. injection Hq0 as <-.
  assert (contents q2 = contents q) as Hc by (destruct Hre, Hre2; congruence). split.
  - right. exists i, side, q, q2. split_and!; [done..|]. destruct Hre, Hre2. split; congruence.
  - intros j side'. rewrite HA2, (inbox_update A i side q q2 Hq P P []); [|apply Hinv|done].
    case_decide as Hj; [|done]. destruct Hj as [-> ->]. unfold inbox. rewrite Hq. simpl. by rewrite Hc.
Qed.
End receiving.

(** The first message is handed out, or nothing changed. *)
Lemma receive_message_wp A P W object output : channel_inv A P [] [] →
  wp (receive_message object output) (A, P, W)
    (λ result st, obtained A P W object output result st.1.1 st.1.2 st.2 ∧
       channel_inv st.1.1 st.1.2 [] [])
    (λ error st, receive_failed A object (length output) error ∧
       st.2 = W ∧ channel_inv st.1.1 st.1.2 [] [] ∧ same_traffic A st.1.1 ∧
       ∀ j side', inbox st.1.1 st.1.2 j side' = inbox A P j side').
Proof.
  intros Hinv. unfold receive_message. wp_step. apply wp_on_fst, wp_on_fst.
  eapply wp_mono; [by apply reserve_receive_kept| |].
  - intros r A1 [(i & side & q & q1 & Hl & Hq & Hplace & -> & Hre & Hhead) Hinv1].
    eapply wp_mono; [by eapply receive_reserved_kept| |].
    + intros result st (Hrec & Hfit & Hinv2 & Hb). split; [|done]. by eapply receiving_obtained.
    + intros error [[A2 P2] W2] (-> & Hshort & HP & HW & Hrel & Hinv2). simpl in *. subst P2 W2.
      destruct (receiving_undone A P object r i side q q1 Hinv Hl Hq Hplace Hre Hhead A2 Hrel) as [Hsame Hin].
      split_and!; [|done..]. destruct Hhead as (_ & m & ms & Hms & Hinfo). rewrite Hinfo in Hshort.
      rewrite (rereserved_contents _ _ Hre) in Hms. by eapply failed_short.
  - intros error A1 [-> Href]. split_and!; [by constructor|done..|by left|done].
Qed.
