(* ===== verification/ChannelSystem.v ===== *)
(** * Channels, waiters and references together

    The channel authority, the payload pool, the wait registry and the object
    registry as one system, with the references the rest of the kernel holds.
    A reference travels with the message it was sent in: while the message is
    queued the queue holds it. *)

From stdpp Require Import base tactics numbers list sets relations gmultiset.
From Stdlib Require Import ZArith Lia.
From S2P Require Import Prelude Abi Object ObjectLedger ObjectTheorems HandleTable HandleOwnership Wait WaitFacts WaitTheorems Channel ChannelQueue ChannelFacts ChannelCycle ChannelInvariant ChannelWaits ChannelSend ChannelClose ChannelCreate ChannelMessages.
Import ChannelAuthority.
Local Open Scope Z_scope.

(** ** References in queued messages *)

Lemma batch_refs_app ts ts' : batch_refs (ts ++ ts') = batch_refs ts ⊎ batch_refs ts'.
Proof. unfold batch_refs. by rewrite fmap_app, list_to_set_disj_app. Qed.

Lemma batch_refs_perm ts ts' : ts ≡ₚ ts' → batch_refs ts = batch_refs ts'.
Proof. intros Hp. unfold batch_refs. by rewrite Hp. Qed.

(** The transfers of all queued messages. *)
Definition queued_transfers (A : t) : HandleTransferBatch :=
  all_queues A ≫= λ q, contents q ≫= transfers.

Definition queued_refs (A : t) : gmultiset Token := batch_refs (queued_transfers A).

Lemma queued_transfers_set_queue A i side q q0 : queue_at A i side = Some q0 →
  ∃ rest, queued_transfers A ≡ₚ (contents q0 ≫= transfers) ++ rest ∧
    queued_transfers (set_queue A i side q) ≡ₚ (contents q ≫= transfers) ++ rest.
Proof.
  intros (rest & H1 & H2)%(all_queues_set_queue A i side q q0).
  exists (rest ≫= λ q, contents q ≫= transfers). unfold queued_transfers.
  by rewrite H1, H2, !bind_cons.
Qed.

Lemma queued_refs_keep A i side q q0 : queue_at A i side = Some q0 → contents q = contents q0 →
  queued_refs (set_queue A i side q) = queued_refs A.
Proof.
  intros Hq Hc. destruct (queued_transfers_set_queue A i side q q0 Hq) as (rest & H1 & H2).
  unfold queued_refs. apply batch_refs_perm. by rewrite H1, H2, Hc.
Qed.

Lemma queued_refs_push A i side q q0 m : queue_at A i side = Some q0 → contents q = contents q0 ++ [m] →
  queued_refs (set_queue A i side q) = queued_refs A ⊎ batch_refs (transfers m).
Proof.
  intros Hq Hc. destruct (queued_transfers_set_queue A i side q q0 Hq) as (rest & H1 & H2).
  unfold queued_refs. rewrite <- batch_refs_app. apply batch_refs_perm.
  rewrite H1, H2, Hc, bind_app. simpl. rewrite app_nil_r. solve_Permutation.
Qed.

Lemma queued_refs_pop A i side q q0 m : queue_at A i side = Some q0 → contents q0 = m :: contents q →
  queued_refs A = queued_refs (set_queue A i side q) ⊎ batch_refs (transfers m).
Proof.
  intros Hq Hc. destruct (queued_transfers_set_queue A i side q q0 Hq) as (rest & H1 & H2).
  unfold queued_refs. rewrite <- batch_refs_app. apply batch_refs_perm.
  rewrite H1, H2, Hc, bind_cons. solve_Permutation.
Qed.

(** A message without transfers carries no reference. *)
Lemma carried_refs ms : batch_refs (mjoin (carried ms)) = batch_refs (ms ≫= transfers).
Proof.
  unfold carried. induction ms as [|m ms IH]; [done|]. rewrite bind_cons, fmap_cons, batch_refs_app, <- IH.
  destruct (decide (transfers m = [])) as [Hnil|Hne].
  - rewrite filter_cons_False by auto. rewrite Hnil. change (batch_refs []) with (∅ : gmultiset Token). multiset_solver.
  - rewrite filter_cons_True by done. simpl. by rewrite batch_refs_app.
Qed.

(** ** Releasing what was queued *)

Lemma finals_of_list os : finals_of os = list_to_set_disj (omap id os).
Proof. induction os as [|[f|] os IH]; csimpl; rewrite ?IH; multiset_solver. Qed.

Lemma size_list_to_set_disj (fs : list FinalRelease) :
  size (list_to_set_disj fs : gmultiset FinalRelease) = length fs.
Proof.
  induction fs as [|f fs IH]; [done|]. simpl.
  by rewrite gmultiset_size_disj_union, gmultiset_size_singleton, IH.
Qed.

Lemma push_releases_eq {S E} (objects : nat) (xs rs : list FinalRelease) (s : S) :
  (length rs + length xs ≤ objects)%nat →
  for_each xs (λ release releases,
    assert_that (length releases <? objects)%nat;; mret (releases ++ [release])) rs s =
  Ret (E:=E) s (rs ++ xs).
Proof.
  revert rs. induction xs as [|x xs IH]; intros rs Hlen; simpl; [by rewrite app_nil_r|].
  simpl in Hlen. unfold mbind, M_bind, assert_that. rewrite (proj2 (Nat.ltb_lt _ _)) by lia.
  unfold mret, M_ret. rewrite IH; [by rewrite <- app_assoc|]. rewrite length_app. simpl. lia.
Qed.

Definition release_batches {E} (objects : nat) (batches : list HandleTransferBatch)
    (rs : list FinalRelease) : M ObjectRegistry.t E (list FinalRelease) :=
  for_each batches (λ transfers releases,
    released ← release transfers;
    for_each (omap id released) (λ release releases,
      assert_that (length releases <? objects)%nat;;
      mret (releases ++ [release])) releases) rs.

Section with_registry.
Context {owns : ObjectRegistry.t → gmultiset Token → gmultiset FinalRelease → Prop}.
Context `{!RegistryContract owns}.

Lemma release_batches_wp {E} objects batches : ∀ reg F finals rs,
  length (ObjectRegistry.slots reg) = objects → Forall (λ b, length b ≤ HANDLE_TRANSFER_LIMIT)%nat batches →
  owns reg (F ⊎ batch_refs (mjoin batches)) (finals ⊎ list_to_set_disj rs) →
  wp (E:=E) (release_batches objects batches rs) reg
    (λ rs' reg', owns reg' F (finals ⊎ list_to_set_disj rs') ∧ (length rs' ≤ objects)%nat ∧
       same_alive (F ⊎ batch_refs (mjoin batches)) (finals ⊎ list_to_set_disj rs) F (finals ⊎ list_to_set_disj rs'))
    (λ _ _, False).
Proof using RegistryContract0.
  unfold release_batches. induction batches as [|b batches IH]; intros reg F finals rs Hobj Hlim Ho; simpl.
  - wp_step. change (batch_refs (mjoin [])) with (∅ : gmultiset Token) in *.
    rewrite gmultiset_disj_union_right_id in *. split_and!; [done| |done].
    pose proof (contract_finals_fit _ _ _ Ho) as Hfit. rewrite gmultiset_size_disj_union, size_list_to_set_disj in Hfit. lia.
  - apply Forall_cons_1 in Hlim as [Hb Hlim]. simpl in Ho. rewrite batch_refs_app in Ho |- *.
    assert (F ⊎ (batch_refs b ⊎ batch_refs (mjoin batches)) = F ⊎ batch_refs (mjoin batches) ⊎ batch_refs b) as Heq
      by multiset_solver.
    rewrite Heq in Ho |- *. do 2 wp_step. eapply wp_mono; [by apply (release_wp (owns:=owns))| |done].
    intros os reg1 (_ & Ho1 & Ha1 & Hsl). rewrite finals_of_list in *.
    pose proof (contract_finals_fit _ _ _ Ho1) as Hfit.
    rewrite !gmultiset_size_disj_union, !size_list_to_set_disj in Hfit.
    eapply wp_eq; [apply push_releases_eq; lia|].
    assert (finals ⊎ list_to_set_disj rs ⊎ list_to_set_disj (omap id os) =
      finals ⊎ list_to_set_disj (rs ++ omap id os)) as Hfin.
    { rewrite list_to_set_disj_app. multiset_solver. }
    rewrite Hfin in *. eapply wp_mono; [apply (IH reg1 F finals); [congruence|done|done]| |done].
    intros rs' reg2 (Ho2 & Hl2 & Ha2). split_and!; [done..|]. intros ty id. etrans; [apply Ha2|apply Ha1].
Qed.


(** Completing a finalization releases every reference that was queued. *)
Lemma complete_channel_finalization_wp {E} finalization reg F finals :
  let batches := omap id (drained_transfers finalization) in
  let f := channel_final_release finalization in
  Forall (λ b, length b ≤ HANDLE_TRANSFER_LIMIT)%nat batches → f ∈ finals →
  owns reg (F ⊎ batch_refs (mjoin batches)) finals →
  wp (E:=E) (complete_channel_finalization finalization) reg
    (λ completion reg', completion_wakes completion = finalization_wakes finalization ∧
       let raised := finals_of (completion_releases completion) in
       owns reg' F (finals ∖ {[+ f +]} ⊎ raised) ∧
       same_alive (F ⊎ batch_refs (mjoin batches)) (finals ∖ {[+ f +]}) F (finals ∖ {[+ f +]} ⊎ raised))
    (λ _ _, False).
Proof using RegistryContract0.
  intros batches f Hlim Hf Ho. unfold complete_channel_finalization. wp_step. apply wp_unwrap, wp_map_err.
  eapply wp_mono; [exact (contract_finalize _ _ _ f Ho Hf)| |done]. intros [] reg1 Ho1.
  do 2 wp_step. cbv zeta. wp_step.
  assert (∀ m : gmultiset FinalRelease, m ⊎ list_to_set_disj [] = m) as Hnil by (intros m; simpl; multiset_solver).
  eapply wp_mono; [apply (release_batches_wp (length (ObjectRegistry.slots reg1)) batches reg1 F (finals ∖ {[+ f +]}) []);
    [done|done|by rewrite Hnil]| |done].
  intros rs reg2 (Ho2 & Hlen & Ha). rewrite Hnil in Ha. wp_step. simpl.
  rewrite finals_of_list, omap_fill. by split_and!.
Qed.

End with_registry.

(** ** The system *)

Abbreviation channel_state :=
  (ChannelAuthority.t * PayloadPool.t * WaitRegistry.t * ObjectRegistry.t)%type.

Inductive channel_op : Type :=
| CreatePair
| Send (object : ObjectId) (bytes : list Z) (transfers : HandleTransferBatch)
| Receive (object : ObjectId) (output : list Z)
| AwaitChannel (target : ResolvedHandle.t) (desired : DwSignals) (item_index : Z)
    (thread : ThreadKey) (wake : BlockWakeKey)
| OtherWaits (o : wait_op)
| FinalizeChannel (f : FinalRelease).

Inductive channel_result : Type :=
| Created (first second : ObjectId)
| Sent
| SendRefused (error : ChannelError.t) (returned : HandleTransferBatch)
| Received (bytes : nat) (transfers : HandleTransferBatch) (output : list Z)
| ReceiveRefused (error : ChannelError.t)
| Finalized
| Other.

(** What a call moves between the system and the rest of the kernel. *)
Record flux : Type := {
  f_consumed : gmultiset Token;
  f_produced : gmultiset Token;
  f_retired : gmultiset FinalRelease;
  f_raised : gmultiset FinalRelease;
}.

Definition no_flux : flux := {| f_consumed := ∅; f_produced := ∅; f_retired := ∅; f_raised := ∅ |}.
Definition moves (consumed produced : gmultiset Token) : flux :=
  {| f_consumed := consumed; f_produced := produced; f_retired := ∅; f_raised := ∅ |}.

(** A call on the authority and the object registry. *)
Definition on_authority_registry {E X} (m : M (ChannelAuthority.t * ObjectRegistry.t) E X)
    : M channel_state E X := λ st,
  let '(A, P, W, reg) := st in
  match m (A, reg) with
  | Ret (A', reg') a => Ret (A', P, W, reg') a
  | Fail (A', reg') e => Fail (A', P, W, reg') e
  | Panic => Panic
  end.

(** A call on the authority and the wait registry. *)
Definition on_authority_waits {E X} (m : M (ChannelAuthority.t * WaitRegistry.t) E X)
    : M channel_state E X := λ st,
  let '(A, P, W, reg) := st in
  match m (A, W) with
  | Ret (A', W') a => Ret (A', P, W', reg) a
  | Fail (A', W') e => Fail (A', P, W', reg) e
  | Panic => Panic
  end.

Section system.
(** The depth of the queues, [CHANNEL_DEPTH]. *)
Context (depth : nat).

Definition channel_exec (o : channel_op) : M channel_state Empty_set (channel_result * flux) :=
  match o with
  | CreatePair =>
      result ← on_authority_registry (try (create_pair depth));
      mret match result with
           | Ok ((first, second), (h1, h2)) =>
               (Created (endpoint_object_id first) (endpoint_object_id second),
                moves ∅ ({[+ handle_token h1 +]} ⊎ {[+ handle_token h2 +]}))
           | Err _ => (Other, no_flux)
           end
  | Send object bytes transfers =>
      result ← on_fst (try (send_message object bytes transfers));
      mret match result with
           | Ok wakes => (Sent, moves (batch_refs transfers) (tokens_of (pins_in wakes)))
           | Err (error, returned) => (SendRefused error returned, no_flux)
           end
  | Receive object output =>
      result ← on_fst (try (receive_message object output));
      mret match result with
           | Ok (received, output) =>
               (Received (received_byte_len received) (received_transfers received) output,
                moves ∅ (batch_refs (received_transfers received) ⊎
                         tokens_of (pins_in (received_wakes received))))
           | Err error => (ReceiveRefused error, no_flux)
           end
  | AwaitChannel target desired item_index thread wake =>
      result ← on_authority_waits (try (register_wait target desired item_index thread wake));
      mret (Other, match result with
                   | Ok (ChannelWaitOutcome.Registered _) =>
                       moves {[+ internal_token (ResolvedHandle.reference target) +]} ∅
                   | _ => no_flux
                   end)
  | OtherWaits o =>
      '(handed, returned) ← on_fst (on_snd (exec o));
      mret (Other, moves (tokens_of handed) (tokens_of returned))
  | FinalizeChannel f =>
      result ← on_fst (try (take_finalization f));
      match result with
      | Ok finalization =>
          completion ← on_snd (complete_channel_finalization finalization);
          mret (Finalized,
            {| f_consumed := ∅; f_produced := tokens_of (pins_in (completion_wakes completion));
               f_retired := {[+ f +]}; f_raised := finals_of (completion_releases completion) |})
      | Err _ => mret (Other, no_flux)
      end
  end.

(** The caller presents references it holds. *)
Definition channel_admissible (o : channel_op) (refs : gmultiset Token)
    (finals : gmultiset FinalRelease) : Prop :=
  match o with
  | CreatePair | Receive _ _ => True
  | Send _ _ transfers => batch_refs transfers ⊆ refs ∧ (length transfers ≤ HANDLE_TRANSFER_LIMIT)%nat
  | AwaitChannel target _ _ _ _ => internal_token (ResolvedHandle.reference target) ∈ refs
  | OtherWaits (Register pin _ _ _ _) =>
      internal_token pin ∈ refs ∧ internal_type pin ≠ DW_OBJECT_TYPE_CHANNEL
  | OtherWaits _ => True
  | FinalizeChannel f => f ∈ finals ∧ final_type f = DW_OBJECT_TYPE_CHANNEL
  end.

Record channel_world : Type := {
  cw_channels : ChannelAuthority.t;
  cw_pool : PayloadPool.t;
  cw_waits : WaitRegistry.t;
  cw_registry : ObjectRegistry.t;
  cw_refs : gmultiset Token;
  cw_finals : gmultiset FinalRelease;
}.

Definition cw_state (c : channel_world) : channel_state :=
  (cw_channels c, cw_pool c, cw_waits c, cw_registry c).

(** Every reference outstanding: the waiters', the queues', and the rest. *)
Definition cw_tokens (c : channel_world) : gmultiset Token :=
  pin_tokens (cw_waits c) ⊎ queued_refs (cw_channels c) ⊎ cw_refs c.

Definition after_flux (c : channel_world) (st : channel_state) (d : flux) : channel_world :=
  let '(A, P, W, reg) := st in
  {| cw_channels := A; cw_pool := P; cw_waits := W; cw_registry := reg;
     cw_refs := cw_refs c ∖ f_consumed d ⊎ f_produced d;
     cw_finals := cw_finals c ∖ f_retired d ⊎ f_raised d |}.

(** A step is a call on the system, or one the rest of the kernel makes of
    the object registry with references of its own that neither creates nor
    retires a channel endpoint. *)
Inductive channel_step : channel_world → channel_world → Prop :=
| channel_call c o st result d :
    channel_admissible o (cw_refs c) (cw_finals c) →
    channel_exec o (cw_state c) = Ret st (result, d) →
    channel_step c (after_flux c st d)
| channel_elsewhere c b refs' :
    honest_step {| book := cw_registry c; tokens := cw_tokens c; finals := cw_finals c |} b →
    tokens b = pin_tokens (cw_waits c) ⊎ queued_refs (cw_channels c) ⊎ refs' →
    (∀ id, alive DW_OBJECT_TYPE_CHANNEL id (cw_tokens c) (cw_finals c) ↔
           alive DW_OBJECT_TYPE_CHANNEL id (tokens b) (finals b)) →
    channel_step c {| cw_channels := cw_channels c; cw_pool := cw_pool c; cw_waits := cw_waits c;
                      cw_registry := book b; cw_refs := refs'; cw_finals := finals b |}.

(** The endpoint for [object] exists. *)
Definition open (A : t) (object : ObjectId) : Prop := ∃ i side, located A object i side.

(** Every queue has the depth the authority was made for. *)
Definition depths (A : t) : Prop :=
  ∀ i side q, queue_at A i side = Some q → ByteQueue.depth q = depth.

Record system_inv (c : channel_world) : Prop := {
  si_ledger : ledger (cw_registry c) (cw_tokens c) (cw_finals c);
  si_channels : channel_inv (cw_channels c) (cw_pool c) [] [];
  si_waits : wait_wf (cw_waits c);
  si_open : ∀ id, open (cw_channels c) id ↔ alive DW_OBJECT_TYPE_CHANNEL id (cw_tokens c) (cw_finals c);
  si_quiet : channels_quiet (cw_channels c) (cw_waits c);
  si_depths : depths (cw_channels c);
}.

(** ** Each call keeps the invariant *)

(** The post-condition of every call. *)
Definition kept_by (c : channel_world) (d : flux) (st : channel_state) : Prop :=
  system_inv (after_flux c st d).

Lemma collected_tokens W sources W' b : wait_wf W → collected W sources W' b →
  wait_wf W' ∧ pin_tokens W = tokens_of (pins_in b) ⊎ pin_tokens W'.
Proof.
  intros Hwf [-> Hnd Hpins _ _]. split; [by apply wait_wf_cleared|]. rewrite Hpins.
  unfold pin_tokens. rewrite <- tokens_of_app. apply tokens_of_perm. by apply all_pins_split.
Qed.

(** A call that moves references about without dropping or making any. *)
Lemma moved_kept c A P W consumed produced : system_inv c → channel_inv A P [] [] → wait_wf W →
  (∀ id, open A id ↔ open (cw_channels c) id) → channels_quiet A W → depths A →
  pin_tokens W ⊎ queued_refs A ⊎ (cw_refs c ∖ consumed ⊎ produced) = cw_tokens c →
  kept_by c (moves consumed produced) (A, P, W, cw_registry c).
Proof.
  intros [Hl Hc Hw Ho Hq Hd] Hc' Hw' Ho' Hq' Hd' Htok. unfold kept_by, after_flux, moves. simpl.
  balance.
  unfold cw_tokens in Hl, Ho, Htok. split; unfold cw_tokens; simpl; rewrite ?Htok; [done..| |done|done].
  intros id. rewrite Ho'. apply Ho.
Qed.

Lemma depths_set_queue A i side q q' : depths A → queue_at A i side = Some q →
  ByteQueue.depth q' = ByteQueue.depth q → depths (set_queue A i side q').
Proof.
  intros Hd Hq Hsame j side' q0. rewrite (queue_at_set_queue _ _ _ _ _ _ _ Hq). case_decide; [|apply Hd].
  intros [= <-]. rewrite Hsame. by eapply Hd.
Qed.

(** A call that at most shuffled reservations. *)
Lemma kept_same_traffic c A P : system_inv c → channel_inv A P [] [] → same_traffic (cw_channels c) A →
  kept_by c no_flux (A, P, cw_waits c, cw_registry c).
Proof.
  intros Hinv Hc Hsame. apply (moved_kept c A P (cw_waits c) ∅ ∅); [done..|apply Hinv| | | |].
  - intros id. unfold open. split; intros (i & side & H); exists i, side; by apply (located_same_traffic _ _ _ _ _ Hsame).
  - eapply quiet_same_traffic; [apply Hinv|apply Hc|done|apply Hinv].
  - destruct Hsame as [->|(i & side & q & q' & Hq & -> & Hload)]; [apply Hinv|].
    eapply depths_set_queue; [apply Hinv|done|]. by rewrite (load_depth _ _ Hload).
  - balance. unfold cw_tokens. do 2 f_equal.
    destruct Hsame as [->|(i & side & q & q' & Hq & -> & Hload)]; [done|].
    eapply queued_refs_keep; [done|apply Hload].
Qed.

Lemma open_set_queue A i side q id : open (set_queue A i side q) id ↔ open A id.
Proof. unfold open. by setoid_rewrite located_set_queue. Qed.

Lemma quiet_set_queue A i side q W W' b record first : channels_quiet A W →
  record_at (set_queue A i side q) i = Some record →
  collected W (pair_sources record [first; ChannelSide.peer first]) W' b →
  channels_quiet (set_queue A i side q) W'.
Proof.
  intros Hq Hr Hcol. eapply quiet_collected; [done..|]. intros j Hj. rewrite record_at_set_queue.
  by rewrite decide_False.
Qed.

Lemma send_kept c object bytes transfers : system_inv c →
  batch_refs transfers ⊆ cw_refs c → (length transfers ≤ HANDLE_TRANSFER_LIMIT)%nat →
  wp (channel_exec (Send object bytes transfers)) (cw_state c)
    (λ result st, kept_by c result.2 st) (λ _ _, False).
Proof.
  intros Hinv Hsub Hlim. pose proof Hinv as [Hl Hc Hw Ho Hq Hd]. simpl. wp_step. apply wp_on_fst, wp_try.
  eapply wp_mono; [by apply send_message_wp| |].
  - intros b [[A P] W] [[(i & side & q & q' & m & record & Hloc & _ & Hqi & HA & Hcon & Hdep & Htr & Hr & Hcol & _) _ _] Hc'].
    simpl in *. destruct (collected_tokens _ _ _ _ Hw Hcol) as [Hw' Htok]. wp_step. simpl.
    apply moved_kept; [done..| | | |].
    + intros id. subst A. apply open_set_queue.
    + subst A. eapply (quiet_set_queue _ _ _ _ _ _ _ _ (ChannelSide.peer side)); [done..|]. by destruct side.
    + subst A. by eapply depths_set_queue.
    + subst A. rewrite (queued_refs_push _ _ _ _ _ _ Hqi Hcon), Htr. unfold cw_tokens. rewrite Htok. multiset_solver.
  - intros [error returned] [[A P] W] (_ & _ & HW & Hc' & Hsame & _). simpl in *. subst W.
    wp_step. by apply kept_same_traffic.
Qed.

Lemma receive_kept c object output : system_inv c →
  wp (channel_exec (Receive object output)) (cw_state c)
    (λ result st, kept_by c result.2 st) (λ _ _, False).
Proof.
  intros Hinv. pose proof Hinv as [Hl Hc Hw Ho Hq Hd]. simpl. wp_step. apply wp_on_fst, wp_try.
  eapply wp_mono; [by apply receive_message_wp| |].
  - intros [received out] [[A P] W] [[(i & side & q & q' & m & record & Hloc & Hqi & HA & Hcon & Hdep & Htr & _ & _ & _ & Hr & Hcol & _)] Hc'].
    simpl in *. destruct (collected_tokens _ _ _ _ Hw Hcol) as [Hw' Htok]. wp_step. simpl.
    apply moved_kept; [done..| | | |].
    + intros id. subst A. apply open_set_queue.
    + subst A. eapply (quiet_set_queue _ _ _ _ _ _ _ _ (ChannelSide.peer side)); [done..|]. by destruct side.
    + subst A. by eapply depths_set_queue.
    + subst A. unfold cw_tokens. rewrite (queued_refs_pop _ _ _ _ _ _ Hqi Hcon), Htr, Htok. multiset_solver.
  - intros error [[A P] W] (_ & HW & Hc' & Hsame & _). simpl in *. subst W.
    wp_step. by apply kept_same_traffic.
Qed.

Lemma waiter_token c entry : entry ∈ WaitRegistry.entries (cw_waits c) →
  internal_token (wait_pin entry) ∈ cw_tokens c.
Proof. intros Hp%entry_pin_token. unfold cw_tokens. multiset_solver. Qed.

(** A waiter's pin keeps its object alive. *)
Lemma waiter_alive c entry : system_inv c → entry ∈ WaitRegistry.entries (cw_waits c) →
  ∃ ty, alive ty (wait_object (wait_identity entry)) (cw_tokens c) (cw_finals c).
Proof.
  intros Hinv Hin. destruct (entry_wf _ _ (si_waits _ Hinv) Hin) as [-> _]. exists (internal_type (wait_pin entry)).
  left. exists ReferenceKind.Internal. by apply waiter_token.
Qed.

Lemma wp_on_authority_registry {E X} (m : M (t * ObjectRegistry.t) E X) A P W reg Q R :
  wp m (A, reg) (λ a st, Q a (st.1, P, W, st.2)) (λ e st, R e (st.1, P, W, st.2)) →
  wp (on_authority_registry m) (A, P, W, reg) Q R.
Proof. unfold wp, on_authority_registry. by destruct (m (A, reg)) as [[]|[]|]. Qed.

Lemma queued_refs_fill A i slot s : pairs A !! i = Some slot → pair_record slot = None →
  (∀ record, pair_record s = Some record → fits A i s record) →
  queued_refs (with_slot i s A) = queued_refs A.
Proof.
  intros Hi Hfree Hfits. unfold queued_refs. apply batch_refs_perm.
  by apply (fill_queued A i slot s Hi Hfree Hfits (λ ms, ms ≫= transfers)).
Qed.

Lemma queued_refs_created A key slot first second : channels_wf A → taken A key slot → (0 < depth)%nat →
  (∀ j side, ¬ located A first j side) → (∀ j side, ¬ located A second j side) → first ≠ second →
  queued_refs (holding A key (Some (bound_pair key depth first second))) = queued_refs A.
Proof.
  intros Hwf Ht Hdepth Hf Hs Hne. pose proof Ht as (Hi & Hfree & _). eapply queued_refs_fill; [done..|].
  intros record [= <-]. by eapply bound_fits.
Qed.

Lemma depths_with_slot A i slot s : pairs A !! i = Some slot → depths A →
  (∀ record side, pair_record s = Some record → ByteQueue.depth (at_side side (inbound record)) = depth) →
  depths (with_slot i s A).
Proof.
  intros Hi Hd Hs j side q Hq. apply (fill_queue A i slot s Hi) in Hq as [Hq|[-> (record & Hr & <-)]]; [by eapply Hd|].
  by apply Hs.
Qed.

(** A pair that did not come to be. *)
Lemma cancelled_kept c A reg : system_inv c → ledger reg (cw_tokens c) (cw_finals c) →
  channel_inv A (cw_pool c) [] [] → pair_cancelled (cw_channels c) A →
  kept_by c no_flux (A, cw_pool c, cw_waits c, reg).
Proof.
  intros [Hl Hc Hw Ho Hq Hd] Hl' Hc' Hcan. unfold kept_by, after_flux. simpl.
  balance.
  destruct Hcan as [->|(key & slot & Ht & ->)]; [by split|]. pose proof Ht as (Hi & Hfree & _).
  assert (queued_refs (holding (cw_channels c) key None) = queued_refs (cw_channels c)) as Hrefs
    by (by eapply queued_refs_fill).
  split; unfold cw_tokens in *; simpl; rewrite ?Hrefs; [done..| | |].
  - intros id. rewrite <- Ho. unfold open, holding. setoid_rewrite (fill_located _ _ _ _ Hi Hfree). naive_solver.
  - eapply quiet_same; [done|]. intros j record. rewrite (cancelled_record _ _ _ _ Ht).
    intros Hj. by exists record.
  - by eapply depths_with_slot.
Qed.

(** No waiter knows the endpoints of a new pair. *)
Lemma created_kept c A reg first second h1 h2 : system_inv c → (0 < depth)%nat →
  pair_created (owns:=ledger) (cw_channels c) (cw_pool c) [] [] depth (cw_tokens c) (cw_finals c)
    A reg first second h1 h2 →
  kept_by c (moves ∅ ({[+ handle_token h1 +]} ⊎ {[+ handle_token h2 +]})) (A, cw_pool c, cw_waits c, reg).
Proof.
  intros Hinv Hdepth [[Hid1 Hid2] [Hty1 Hty2] Hne [Hf1 Hf2] Hl' Hc' (key & slot & Ht & ->)].
  pose proof Hinv as [Hl Hc Hw Ho Hq Hd]. pose proof Ht as (Hi & Hfree & _).
  unfold kept_by, after_flux. simpl. balance.
  assert (queued_refs (holding (cw_channels c) key (Some (bound_pair key depth first second))) =
    queued_refs (cw_channels c)) as Hrefs.
  { eapply queued_refs_created; [apply Hc|done..| | |done];
      intros j side Hj; [apply (Hf1 DW_OBJECT_TYPE_CHANNEL)|apply (Hf2 DW_OBJECT_TYPE_CHANNEL)];
      apply Ho; by exists j, side. }
  assert (∀ m : gmultiset Token, m ⊎ (cw_refs c ⊎ ({[+ handle_token h1 +]} ⊎ {[+ handle_token h2 +]})) =
    m ⊎ cw_refs c ⊎ {[+ handle_token h1 +]} ⊎ {[+ handle_token h2 +]}) as Hassoc by multiset_solver.
  split; unfold cw_tokens in *; simpl; rewrite ?Hrefs, ?Hassoc; [done..| | |].
  - intros id. unfold handle_token. rewrite !alive_add, <- Ho. unfold open, holding.
    setoid_rewrite (fill_located _ _ _ _ Hi Hfree). rewrite Hid1, Hid2, Hty1, Hty2. split.
    + intros (j & side & [Hold|(-> & record & e & [= <-] & He & <-)]); [left; left; by exists j, side|].
      destruct side; simpl in He; injection He as <-; simpl; auto.
    + intros [[(j & side & Hold)|[_ ->]]|[_ ->]]; [by exists j, side; left|exists (key_slot key), ChannelSide.Zero
        |exists (key_slot key), ChannelSide.One]; right; split; try done; by eexists _, _.
  - intros j record. unfold holding. rewrite (fill_record _ _ _ _ Hi). case_decide; [|by apply Hq]. intros [= <-] side e entry He Hin Hobj.
    exfalso. destruct (waiter_alive c entry Hinv Hin) as [ty Hal]. rewrite Hobj in Hal.
    destruct side; simpl in He; injection He as <-; [by apply (Hf1 ty)|by apply (Hf2 ty)].
  - eapply depths_with_slot; [done..|]. intros record side [= <-].
    destruct side; apply length_replicate.
Qed.

Lemma create_pair_kept c : system_inv c → (0 < depth)%nat →
  wp (channel_exec CreatePair) (cw_state c) (λ result st, kept_by c result.2 st) (λ _ _, False).
Proof.
  intros Hinv Hdepth. pose proof Hinv as [Hl Hc Hw Ho Hq Hd]. simpl. wp_step.
  apply wp_on_authority_registry, wp_try.
  eapply wp_mono; [eapply (create_pair_wp (owns:=ledger)); [exact Hc|done| |exact Hl]| |].
  { intros o i side Hloc. apply Ho. by exists i, side. }
  - intros [[first second] [h1 h2]] [A reg] Hmade. simpl in Hmade. wp_step. simpl. by eapply created_kept.
  - intros error [A reg] (Hl' & Hc' & Hcan & _). wp_step. by apply cancelled_kept.
Qed.

Lemma wp_on_authority_waits {E X} (m : M (t * WaitRegistry.t) E X) A P W reg Q R :
  wp m (A, W) (λ a st, Q a (st.1, P, st.2, reg)) (λ e st, R e (st.1, P, st.2, reg)) →
  wp (on_authority_waits m) (A, P, W, reg) Q R.
Proof. unfold wp, on_authority_waits. by destruct (m (A, W)) as [[]|[]|]. Qed.

Lemma kept_unchanged c : system_inv c → kept_by c no_flux (cw_state c).
Proof. intros Hinv. apply kept_same_traffic; [done|apply Hinv|by left]. Qed.

(** A call of the wait registry that adds no waiter for what already holds. *)
Lemma waits_moved_kept c W handed returned : system_inv c → wait_wf W →
  handed ++ all_pins (WaitRegistry.slots (cw_waits c)) ≡ₚ returned ++ all_pins (WaitRegistry.slots W) →
  tokens_of handed ⊆ cw_refs c →
  (∀ entry, entry ∈ WaitRegistry.entries W → entry ∈ WaitRegistry.entries (cw_waits c) ∨
     ∀ i record side e, record_at (cw_channels c) i = Some record →
       at_side side (endpoints record) = Some e →
       wait_object (wait_identity entry) = endpoint_object e →
       Z.land (wait_desired entry) (pair_signals record side) = 0) →
  kept_by c (moves (tokens_of handed) (tokens_of returned)) (cw_channels c, cw_pool c, W, cw_registry c).
Proof.
  intros Hinv Hw Hp Hin Hnew. apply moved_kept; [done|apply Hinv|done..| |apply Hinv|].
  - intros i record Hi side e entry He Hent Hobj. destruct (Hnew _ Hent) as [Hold|Hz]; [|by eapply Hz].
    by eapply (si_quiet _ Hinv).
  - pose proof (exchange_balanced _ _ _ _ _ Hp Hin) as Htok. unfold cw_tokens. multiset_solver.
Qed.

Lemma other_waits_kept c o : system_inv c → channel_admissible (OtherWaits o) (cw_refs c) (cw_finals c) →
  wp (channel_exec (OtherWaits o)) (cw_state c) (λ result st, kept_by c result.2 st) (λ _ _, False).
Proof.
  intros Hinv Hadm. simpl. wp_step. apply wp_on_fst, wp_on_snd.
  eapply wp_mono; [apply wp_and; [apply exec_wp|apply exec_entries]; by apply si_waits| |by intros ? ? []].
  intros [handed returned] W [(Hwf' & _ & Hp) [Hh Hn]]. cbn beta iota. wp_step. simpl in *. subst handed.
  apply waits_moved_kept; [done..| |].
  { destruct o; simpl; [rewrite tokens_of_singleton; destruct Hadm|..]; unfold tokens_of; multiset_solver. }
  intros entry [He|(pin & desired & idx & th & w & -> & ->)]%Hn; [by left|right]. simpl in *.
  destruct Hadm as [Hin Hty]. intros i record side e Hi He Hid. destruct Hty.
  assert (open (cw_channels c) (internal_id pin)) as Hb.
  { exists i, side, e. split; [|done]. unfold endpoint_at. by rewrite Hi. }
  apply (si_open _ Hinv) in Hb.
  refine (alive_typed (owns:=ledger) _ _ _ _ _ _ (si_ledger _ Hinv) _ Hb).
  left. exists ReferenceKind.Internal. unfold cw_tokens, internal_token in *. multiset_solver.
Qed.

Lemma await_kept c target desired item_index thread wake : system_inv c →
  internal_token (ResolvedHandle.reference target) ∈ cw_refs c →
  wp (channel_exec (AwaitChannel target desired item_index thread wake)) (cw_state c)
    (λ result st, kept_by c result.2 st) (λ _ _, False).
Proof.
  intros Hinv Htok. simpl. wp_step. apply wp_on_authority_waits, wp_try.
  eapply wp_mono; [by apply channel_register_wp; apply Hinv| |].
  2:{ intros failure [A W] [[= -> ->] _]. wp_step. by apply kept_unchanged. }
  intros outcome [A W] (HA & Hty & _ & i & side & record & e & Hi & He & Hid & Hout). simpl in HA, Hout. subst A.
  wp_step. destruct outcome as [observed p|reg].
  { destruct Hout as (_ & -> & _). by apply kept_unchanged. }
  destruct Hout as [Hz Hreg].
  pose proof (exec_wp (Register (ResolvedHandle.reference target) desired item_index thread wake)
    _ (si_waits _ Hinv)) as Hx.
  pose proof (exec_entries (Register (ResolvedHandle.reference target) desired item_index thread wake)
    _ (si_waits _ Hinv)) as Hn.
  unfold wp, exec, try, mbind, M_bind in Hx, Hn. rewrite Hreg in Hx, Hn.
  destruct Hx as (Hwf' & _ & Hp), Hn as [_ Hn]. simpl in Hp. simpl. rewrite <- tokens_of_singleton.
  apply (waits_moved_kept c W [ResolvedHandle.reference target] []); [done..| |].
  { rewrite tokens_of_singleton. multiset_solver. }
  intros entry [?|(? & ? & ? & ? & ? & [= <- <- <- <- <-] & ->)]%Hn; [by left|right]. simpl.
  intros j record' side' e' Hj He' Hid'. assert (j = i ∧ side' = side) as [-> ->].
  { eapply (located_once (cw_channels c)); [apply Hinv|exists e'|exists e; split; [|exact Hid]]; unfold endpoint_at.
    - by rewrite Hj.
    - by rewrite Hi. }
  rewrite Hi in Hj. injection Hj as <-. by rewrite Z.land_comm.
Qed.

(** *** Finalization *)

Lemma queued_refs_close A i side slot record q e : channels_wf A → pairs A !! i = Some slot →
  pair_record slot = Some record → at_side side (endpoints record) = Some e → queue_idle q →
  queued_refs A = batch_refs (contents (at_side side (inbound record)) ≫= transfers) ⊎
    queued_refs (with_slot i (close_slot slot record side q) A).
Proof.
  intros Hwf Hi Hrec He Hidle. unfold queued_refs. rewrite <- batch_refs_app. apply batch_refs_perm.
  by apply (close_queued A i side slot record q e Hwf Hi Hrec He Hidle (λ ms, ms ≫= transfers)).
Qed.

Lemma open_close A i side slot record q e id : channels_wf A → pairs A !! i = Some slot →
  pair_record slot = Some record → at_side side (endpoints record) = Some e →
  open (with_slot i (close_slot slot record side q) A) id ↔ open A id ∧ id ≠ endpoint_object e.
Proof.
  intros Hwf Hi Hrec He. assert (located A (endpoint_object e) i side) as Hl.
  { exists e. split; [|done]. unfold endpoint_at, record_at. rewrite Hi. simpl. by rewrite Hrec. }
  unfold open. setoid_rewrite (close_located A i side slot record q e Hi Hrec He). split.
  - intros (j & side' & Hj & Hne). split; [by exists j, side'|]. intros ->.
    destruct Hne. by eapply located_once.
  - intros [(j & side' & Hj) Hne]. exists j, side'. split; [done|]. intros [-> ->].
    destruct Hj as (e' & He' & <-), Hl as (e'' & He'' & Heq). congruence.
Qed.

(** Closing an endpoint wakes the waiters of its peer. *)
Lemma quiet_close A i side slot record q W W' b : pairs A !! i = Some slot → pair_record slot = Some record →
  channels_quiet A W →
  collected W (match pair_record (close_slot slot record side q) with
               | Some record' => pair_sources record' [ChannelSide.peer side]
               | None => []
               end) W' b →
  channels_quiet (with_slot i (close_slot slot record side q) A) W'.
Proof.
  intros Hi Hrec Hq Hcol j record'. rewrite (close_record _ _ _ _ _ _ Hi). case_decide as Hj.
  - subst j. intros Hr. rewrite Hr in Hcol. eapply quiet_sides; [|exact Hcol]. intros side0 [e He].
    unfold close_slot in Hr. simpl in Hr. destruct (is_none _); [done|]. injection Hr as <-. simpl in He.
    rewrite at_side_set_side in He. destruct (decide (side0 = side)); [done|]. destruct side, side0; set_solver.
  - intros Hr side0 e entry He Hin%(collected_fewer _ _ _ _ _ Hcol). by eapply Hq.
Qed.

Lemma depths_close A i side slot record q : channels_wf A → pairs A !! i = Some slot →
  pair_record slot = Some record → ByteQueue.depth q = ByteQueue.depth (at_side side (inbound record)) →
  depths A → depths (with_slot i (close_slot slot record side q) A).
Proof.
  intros Hwf Hi Hrec Hq Hd. assert (∀ side', queue_at A i side' = Some (at_side side' (inbound record))) as Hqs.
  { intros side'. apply queue_at_Some. by exists slot, record. }
  eapply depths_with_slot; [done..|]. intros record' side'. unfold close_slot. simpl.
  destruct (is_none _); [done|]. intros [= <-]. simpl. rewrite at_side_set_side.
  case_decide; [rewrite Hq|]; by eapply Hd.
Qed.

Lemma carried_small A P S i side slot record : payloads_owned A P S → pairs A !! i = Some slot →
  pair_record slot = Some record →
  Forall (λ b, length b ≤ HANDLE_TRANSFER_LIMIT)%nat (carried (contents (at_side side (inbound record)))).
Proof.
  intros Hp Hi Hrec. assert (queue_at A i side = Some (at_side side (inbound record))) as Hq.
  { apply queue_at_Some. by exists slot, record. }
  apply list.Forall_forall. intros b [_ (m & -> & Hm)%list_elem_of_fmap]%list_elem_of_filter.
  pose proof (po_messages _ _ _ Hp _ _ _ Hq) as Hall. rewrite list.Forall_forall in Hall. by apply Hall.
Qed.

Lemma shuffle (w W q Q R : gmultiset Token) : w ⊎ W ⊎ (q ⊎ Q) ⊎ R = W ⊎ Q ⊎ (R ⊎ w) ⊎ q.
Proof. multiset_solver. Qed.

(** What was queued for the endpoint is released, and the rest stands. *)
Lemma finalize_channel_kept c f : system_inv c → f ∈ cw_finals c →
  final_type f = DW_OBJECT_TYPE_CHANNEL →
  wp (channel_exec (FinalizeChannel f)) (cw_state c)
    (λ result st, result.1 = Finalized ∧ f_consumed result.2 = ∅ ∧ f_retired result.2 = {[+ f +]} ∧ kept_by c result.2 st ∧
       ¬ open st.1.1.1 (final_id f) ∧
       ∃ finalization, finalized (cw_channels c) (cw_pool c) (cw_waits c) [] f finalization
         st.1.1.1 st.1.1.2 st.1.2 ∧
         f_produced result.2 = tokens_of (pins_in (finalization_wakes finalization)))
    (λ _ _, False).
Proof.
  intros Hinv Hf Hty. pose proof Hinv as [Hl Hc Hw Ho Hq Hd]. simpl. wp_step. apply wp_on_fst, wp_try.
  eapply wp_mono; [eapply take_finalization_kept; [done..|by intros i side _ ?%elem_of_nil]| |].
  2:{ intros failure st (_ & _ & Hno). destruct (Ho (final_id f)) as [_ (i & side & Hl')].
      - right. destruct f. simpl in *. by subst.
      - by destruct (Hno i side). }
  intros finalization [[A P] W] [Hfin Hc']. pose proof Hfin as [Hrel (i & side & slot & record & e & q & Hi & Hrec & He & Hid & Hqwf & Hidle & Hdep & HA & Hdr & Hcol) _].
  simpl in HA, Hc' |- *. cbn [snd] in Hcol. destruct (collected_tokens _ _ _ _ Hw Hcol) as [Hw' Htok].
  pose proof (queued_refs_close _ i side slot record q e (ci_wf _ _ _ _ Hc) Hi Hrec He Hidle) as Hrefs.
  rewrite <- HA, <- carried_refs, <- Hdr in Hrefs.
  wp_step. apply wp_on_snd.
  set (F := pin_tokens W ⊎ queued_refs A ⊎ (cw_refs c ⊎ tokens_of (pins_in (finalization_wakes finalization)))).
  assert (cw_tokens c = F ⊎ batch_refs (mjoin (omap id (drained_transfers finalization)))) as HF.
  { unfold cw_tokens, F. rewrite Hrefs, Htok. apply shuffle. }
  rewrite HF in Hl. eapply wp_mono; [eapply (complete_channel_finalization_wp (owns:=ledger) finalization _ F); [|by rewrite Hrel|exact Hl]| |done].
  { pose proof (carried_small _ _ _ _ side _ _ (ci_payloads _ _ _ _ Hc) Hi Hrec) as Hsmall. by rewrite <- Hdr in Hsmall. }
  intros completion reg (Hwk & Hl' & Ha). rewrite Hrel in Hl', Ha. wp_step. simpl. rewrite Hwk.
  split_and!; [done..| | |by exists finalization].
  - unfold kept_by, after_flux. simpl. rewrite !gmultiset_remove_nothing.
    split; unfold cw_tokens; simpl; fold F; [done..| | |].
    + intros id. etrans; [|symmetry; apply Ha]. rewrite (alive_finalize (owns:=ledger) _ _ _ _ _ _ Hl Hf).
      rewrite <- HF, <- Ho, HA, <- Hid. by eapply open_close; [apply Hc|..].
    + rewrite HA. by eapply quiet_close.
    + rewrite HA. by eapply depths_close; [apply Hc|..].
  - rewrite HA. intros Hop. apply (open_close _ _ _ _ _ _ _ _ (ci_wf _ _ _ _ Hc) Hi Hrec He) in Hop as [_ Hne]. by rewrite Hid in Hne.
Qed.

(** ** Runs *)

Hypothesis (Hdepth : (0 < depth)%nat).

Lemma channel_exec_safe c o : system_inv c → channel_admissible o (cw_refs c) (cw_finals c) →
  wp (channel_exec o) (cw_state c) (λ result st, kept_by c result.2 st) (λ _ _, False).
Proof using Hdepth.
  intros Hinv Hadm. destruct o as [|object bytes transfers|object output|target desired idx th w|o|f].
  - by apply create_pair_kept.
  - destruct Hadm. by apply send_kept.
  - by apply receive_kept.
  - by apply await_kept.
  - by apply other_waits_kept.
  - destruct Hadm. eapply wp_mono; [by apply finalize_channel_kept|by intros result st (_ & _ & _ & ? & _)|done].
Qed.

Lemma channel_step_inv c c' : system_inv c → channel_step c c' → system_inv c'.
Proof using Hdepth.
  intros Hinv Hstep. destruct Hstep as [c o st result d Hadm Hex|c b refs' Hstep Htok Halive].
  - exact (wp_Ret _ _ _ _ _ _ (channel_exec_safe _ _ Hinv Hadm) Hex).
  - destruct Hinv as [Hl Hc Hw Ho Hq Hd].
    assert (balanced_books b) as Hl' by (refine (honest_step_ledger _ _ _ Hstep); exact Hl).
    unfold balanced_books in Hl'.
    split; unfold cw_tokens in *; simpl; rewrite <- ?Htok; [done..| |done|done].
    intros id. by rewrite Ho, Halive.
Qed.

Lemma channel_run_inv c c' : system_inv c → rtc channel_step c c' → system_inv c'.
Proof using Hdepth. intros Hinv. induction 1; eauto using channel_step_inv. Qed.
End system.

(** ** The empty system *)

(** Every slot of the pool is free. *)
Definition empty_pool (P : PayloadPool.t) : Prop := pool_wf P ∧ pool_owns P [].

Definition fresh_channel_world (d wd rd : Z) (pairs waiters objects : nat) (P : PayloadPool.t)
    : channel_world :=
  {| cw_channels := {| domain := d;
       ChannelAuthority.pairs := replicate pairs {| pair_generation := 0; pair_record := None |} |};
     cw_pool := P;
     cw_waits := {| WaitRegistry.domain := wd;
                    WaitRegistry.slots := replicate waiters {| wait_generation := 0; wait_entry := None |} |};
     cw_registry := fresh_registry rd objects; cw_refs := ∅; cw_finals := ∅ |}.

Lemma fresh_record d n i :
  record_at {| domain := d; pairs := replicate n {| pair_generation := 0; pair_record := None |} |} i = None.
Proof.
  unfold record_at. simpl. destruct (replicate n _ !! i) as [slot|] eqn:Hi; [|done].
  by apply lookup_replicate in Hi as [-> _].
Qed.

Lemma fresh_queues d n :
  all_queues {| domain := d; pairs := replicate n {| pair_generation := 0; pair_record := None |} |} = [].
Proof. unfold all_queues. simpl. by induction n. Qed.

Lemma fresh_channel_inv d n P : empty_pool P →
  channel_inv {| domain := d; pairs := replicate n {| pair_generation := 0; pair_record := None |} |} P [] [].
Proof.
  intros [HP Howns]. set (A := {| domain := d |}).
  assert (∀ i side, endpoint_at A i side = None) as He by (intros i side; unfold endpoint_at, A; by rewrite fresh_record).
  assert (∀ i side, queue_at A i side = None) as Hq by (intros i side; unfold queue_at, A; by rewrite fresh_record).
  assert (∀ o i side, ¬ located A o i side) as Hl by (intros o i side (e & He' & _); by rewrite He in He').
  split.
  - split; [|intros i slot record Hi Hr|by intros object i side j side' ?%Hl].
    + intros i slot Hi. by apply lookup_replicate in Hi as [-> _].
    + simpl in Hi. apply lookup_replicate in Hi as [-> _]. done.
  - split; [done|unfold queued_tokens, A; by rewrite fresh_queues|by intros i side q; rewrite Hq|by intros r ?%elem_of_nil].
  - split; [by intros i side q; rewrite Hq|by intros r ?%elem_of_nil].
  - split; [by intros r ?%elem_of_nil|by intros i side q g; rewrite Hq|constructor].
  - intros o Htc. assert (∃ o', edge A o o') as (o' & i & side & q & Hloc & _) by (inversion Htc; eauto). by apply Hl in Hloc.
Qed.

Lemma fresh_system_inv depth d wd rd n m k P : empty_pool P → system_inv depth (fresh_channel_world d wd rd n m k P).
Proof.
  intros HP. pose proof (fresh_channel_inv d n P HP) as Hc.
  assert (cw_tokens (fresh_channel_world d wd rd n m k P) = ∅) as Htok.
  { unfold cw_tokens, pin_tokens, queued_refs, queued_transfers. simpl. rewrite fresh_queues.
    assert (all_pins (replicate m {| wait_generation := 0; wait_entry := None |}) = []) as -> by (by induction m). done. }
  split; rewrite ?Htok.
  - apply fresh_ledger.
  - done.
  - apply fresh_wait_wf.
  - intros id. split.
    + intros (i & side & e & He & _). unfold endpoint_at in He. simpl in He. by rewrite fresh_record in He.
    + intros [[kd Hk]|Hf]; [by apply gmultiset_not_elem_of_empty in Hk|by apply gmultiset_not_elem_of_empty in Hf].
  - intros i record Hi. simpl in Hi. by rewrite fresh_record in Hi.
  - intros i side q Hq. unfold queue_at in Hq. simpl in Hq. by rewrite fresh_record in Hq.
Qed.
