(* ===== verification/ChannelMailbox.v ===== *)
(** * Channels as mailboxes

    The abstract specification of channels: every endpoint has an inbox of
    messages and may have a peer, a send appends to the peer's inbox and a
    receive takes the first message of one's own.  The channel authority with
    its rings, reservations and payload pool implements it. *)

From stdpp Require Import base tactics numbers list sets relations gmultiset.
From Stdlib Require Import ZArith Lia.
From S2P Require Import Prelude Abi Object ObjectLedger HandleTable HandleOwnership Wait WaitFacts WaitTheorems Channel ChannelQueue ChannelFacts ChannelCycle ChannelInvariant ChannelWaits ChannelSend ChannelClose ChannelCreate ChannelMessages ChannelSystem.
Import ChannelAuthority.
Local Open Scope Z_scope.

(** ** The specification *)

Abbreviation letter := (list Z * HandleTransferBatch)%type.

Record mail : Type := {
  box : ObjectId → option (list letter);
  link : ObjectId → option ObjectId;
}.

#[export] Instance mail_equiv : Equiv mail := λ v v',
  (∀ o, box v o = box v' o) ∧ ∀ o, link v o = link v' o.

#[export] Instance mail_equivalence : Equivalence (≡@{mail}).
Proof.
  split.
  - by intros v.
  - intros v v' [Hb Hl]. by split.
  - intros v1 v2 v3 [Hb Hl] [Hb' Hl']. split; intros o; etrans; eauto.
Qed.

(** Two new endpoints with empty inboxes. *)
Definition connect (first second : ObjectId) (v : mail) : mail :=
  {| box o := if decide (o = first ∨ o = second) then Some [] else box v o;
     link o := if decide (o = first) then Some second
               else if decide (o = second) then Some first else link v o |}.

Definition post (to : ObjectId) (l : letter) (v : mail) : mail :=
  {| box o := if decide (o = to) then (.++ [l]) <$> box v o else box v o; link := link v |}.

Definition fetch (to : ObjectId) (v : mail) : mail :=
  {| box o := if decide (o = to) then tail <$> box v o else box v o; link := link v |}.

(** The endpoint is gone, and its peer has none any more. *)
Definition disconnect (gone : ObjectId) (v : mail) : mail :=
  {| box o := if decide (o = gone) then None else box v o;
     link o := if decide (o = gone ∨ link v o = Some gone) then None else link v o |}.

(** [o'] is on its way to [o]. *)
Definition on_its_way (v : mail) (o o' : ObjectId) : Prop :=
  ∃ ls l, box v o = Some ls ∧ l ∈ ls ∧ o' ∈ batch_objects_of_type l.2 DW_OBJECT_TYPE_CHANNEL.

(** Delivering these endpoints to [o] would let [o] hold itself. *)
Definition would_hold_itself (v : mail) (transfers : HandleTransferBatch) (o : ObjectId) : Prop :=
  ∃ source, source ∈ batch_objects_of_type transfers DW_OBJECT_TYPE_CHANNEL ∧
    rtc (on_its_way v) source o.

Section specification.
Context (depth : nat).

(** When each error is given for a send from [o]. *)
Definition send_error (v : mail) (o : ObjectId) (bytes : list Z) (transfers : HandleTransferBatch)
    (error : ChannelError.t) : Prop :=
  match error with
  | ChannelError.InvalidArgument => (Z.to_nat DW_CHANNEL_MAX_PAYLOAD < length bytes)%nat ∨
      ∃ p, link v o = Some p ∧ would_hold_itself v transfers p
  | ChannelError.InvalidEndpoint => box v o = None
  | ChannelError.PeerClosed => is_Some (box v o) ∧ link v o = None
  | ChannelError.WouldBlock => ∃ p ls, link v o = Some p ∧ box v p = Some ls ∧ length ls = depth
  | ChannelError.PayloadExhausted => bytes ≠ []
  | ChannelError.Capacity => is_Some (link v o)
  | _ => False
  end.

Definition receive_error (v : mail) (o : ObjectId) (room : nat) (error : ChannelError.t) : Prop :=
  match error with
  | ChannelError.InvalidEndpoint => box v o = None
  | ChannelError.PeerClosed => box v o = Some [] ∧ link v o = None
  | ChannelError.WouldBlock => box v o = Some [] ∧ is_Some (link v o)
  | ChannelError.BufferTooSmall => ∃ l ls, box v o = Some (l :: ls) ∧ (room < length l.1)%nat
  | ChannelError.Capacity => ∃ l ls, box v o = Some (l :: ls)
  | _ => False
  end.

Inductive mail_step (v : mail) : channel_op → channel_result → mail → Prop :=
| mail_created first second v' : first ≠ second → box v first = None → box v second = None →
    v' ≡ connect first second v → mail_step v CreatePair (Created first second) v'
| mail_sent o bytes transfers p ls v' : link v o = Some p → box v p = Some ls →
    (length ls < depth)%nat → (length bytes ≤ Z.to_nat DW_CHANNEL_MAX_PAYLOAD)%nat →
    ¬ would_hold_itself v transfers p →
    v' ≡ post p (bytes, transfers) v → mail_step v (Send o bytes transfers) Sent v'
| mail_refused o bytes transfers error v' : send_error v o bytes transfers error → v' ≡ v →
    mail_step v (Send o bytes transfers) (SendRefused error transfers) v'
| mail_received o output bytes transfers ls v' : box v o = Some ((bytes, transfers) :: ls) →
    (length bytes ≤ length output)%nat → v' ≡ fetch o v →
    mail_step v (Receive o output)
      (Received (length bytes) transfers (bytes ++ drop (length bytes) output)) v'
| mail_unreceived o output error v' : receive_error v o (length output) error → v' ≡ v →
    mail_step v (Receive o output) (ReceiveRefused error) v'
| mail_finalized f v' : is_Some (box v (final_id f)) → v' ≡ disconnect (final_id f) v →
    mail_step v (FinalizeChannel f) Finalized v'
| mail_silent op v' : (∀ o bytes transfers, op ≠ Send o bytes transfers) →
    (∀ o output, op ≠ Receive o output) → (∀ f, op ≠ FinalizeChannel f) →
    v' ≡ v → mail_step v op Other v'.
End specification.

(** ** The view of the authority *)

Definition mail_of (A : t) (P : PayloadPool.t) : mail :=
  {| box o := match locate A {| endpoint_object_id := o |} with
              | Ok (i, side) => inbox A P i side
              | Err _ => None
              end;
     link o := match locate A {| endpoint_object_id := o |} with
               | Ok (i, side) => endpoint_object <$> endpoint_at A i (ChannelSide.peer side)
               | Err _ => None
               end |}.

Lemma box_located A P o i side : channels_wf A → located A o i side → box (mail_of A P) o = inbox A P i side.
Proof. intros Hwf Hl. simpl. by rewrite (locate_located _ _ _ _ Hwf Hl). Qed.

Lemma link_located A P o i side : channels_wf A → located A o i side →
  link (mail_of A P) o = endpoint_object <$> endpoint_at A i (ChannelSide.peer side).
Proof. intros Hwf Hl. simpl. by rewrite (locate_located _ _ _ _ Hwf Hl). Qed.

Lemma mail_closed A P o : channels_wf A → ¬ open A o →
  box (mail_of A P) o = None ∧ link (mail_of A P) o = None.
Proof.
  intros Hwf Hno. simpl. destruct (locate_cases A o Hwf) as [(i & side & -> & Hl)|[-> _]]; [|done].
  destruct Hno. by exists i, side.
Qed.

Lemma open_cases A o : channels_wf A → (∃ i side, located A o i side) ∨ ¬ open A o.
Proof.
  intros Hwf. destruct (locate_cases A o Hwf) as [(i & side & _ & Hl)|[_ Hno]]; [left; by exists i, side|right].
  intros (i & side & Hl). by destruct (Hno i side).
Qed.

Lemma inbox_open A P o i side : located A o i side → ∃ q, queue_at A i side = Some q ∧
  inbox A P i side = Some (message P <$> contents q).
Proof.
  intros (slot & record & Hi & Hrec & _ & Hq)%located_pair. eexists. split; [apply Hq|].
  unfold inbox. by rewrite Hq.
Qed.

(** The authorities have the same endpoints. *)
Definition same_endpoints (A A' : t) : Prop := ∀ i side, endpoint_at A' i side = endpoint_at A i side.

Lemma same_endpoints_set_queue A i side q : same_endpoints A (set_queue A i side q).
Proof. intros j side'. apply endpoint_at_set_queue. Qed.

Lemma same_endpoints_traffic A A' : same_traffic A A' → same_endpoints A A'.
Proof. by intros [->|(i & side & q & q' & _ & -> & _)]; [|apply same_endpoints_set_queue]. Qed.

Lemma same_endpoints_located A A' o i side : same_endpoints A A' → located A' o i side ↔ located A o i side.
Proof. intros Hsame. unfold located. by rewrite (Hsame i side). Qed.

(** A change of one inbox. *)
Lemma mail_of_update A P A' P' p i side f : channels_wf A → channels_wf A' → same_endpoints A A' →
  located A p i side →
  (∀ j side', inbox A' P' j side' =
     if decide (j = i ∧ side' = side) then f <$> inbox A P j side' else inbox A P j side') →
  mail_of A' P' ≡ {| box o := if decide (o = p) then f <$> box (mail_of A P) o else box (mail_of A P) o;
                     link := link (mail_of A P) |}.
Proof.
  intros Hwf Hwf' Hsame Hp Hin.
  assert (∀ o, ¬ open A o → ¬ open A' o) as Hopen.
  { intros o Hno (j & side' & Hl). apply Hno. exists j, side'. by apply (same_endpoints_located A A'). }
  assert (∀ o j side', located A o j side' → located A' o j side') as Hloc
    by (intros o j side'; by apply same_endpoints_located).
  split; intros o; destruct (open_cases A o Hwf) as [(j & side' & Hl)|Hno].
  - rewrite (box_located A' P' o j side' Hwf' (Hloc _ _ _ Hl)), Hin. cbn [box].
    rewrite (box_located A P o j side' Hwf Hl). destruct (decide (o = p)) as [->|Hne].
    + destruct (located_once _ Hwf _ _ _ _ _ Hl Hp) as [-> ->]. by rewrite decide_True.
    + rewrite decide_False; [done|]. intros [-> ->]. destruct Hl as (e & He & <-), Hp as (e' & He' & <-). congruence.
  - destruct (mail_closed A' P' o Hwf' (Hopen o Hno)) as [-> _]. cbn [box].
    destruct (mail_closed A P o Hwf Hno) as [-> _]. by case_decide.
  - rewrite (link_located A' P' o j side' Hwf' (Hloc _ _ _ Hl)), Hsame. cbn [link].
    by rewrite (link_located A P o j side' Hwf Hl).
  - destruct (mail_closed A' P' o Hwf' (Hopen o Hno)) as [_ ->]. cbn [link].
    by destruct (mail_closed A P o Hwf Hno) as [_ ->].
Qed.

Lemma mail_of_same A P A' P' : channels_wf A → channels_wf A' → same_endpoints A A' →
  (∀ j side, inbox A' P' j side = inbox A P j side) → mail_of A' P' ≡ mail_of A P.
Proof.
  intros Hwf Hwf' Hsame Hin. assert (∀ o i side, located A' o i side ↔ located A o i side) as Hloc
    by (intros o i side; by apply same_endpoints_located).
  split; intros o; destruct (open_cases A o Hwf) as [(i & side & Hl)|Hno].
  - rewrite (box_located A P o i side Hwf Hl), <- Hin. apply box_located; [done|]. by apply Hloc.
  - rewrite (proj1 (mail_closed A P o Hwf Hno)). apply mail_closed; [done|].
    intros (j & side' & Hl). apply Hno. exists j, side'. by apply Hloc.
  - rewrite (link_located A P o i side Hwf Hl), <- Hsame. apply link_located; [done|]. by apply Hloc.
  - rewrite (proj2 (mail_closed A P o Hwf Hno)). apply mail_closed; [done|].
    intros (j & side' & Hl). apply Hno. exists j, side'. by apply Hloc.
Qed.

(** The graph of queued endpoints is the one of the view. *)
Lemma edge_on_its_way A P o o' : channels_wf A → edge A o o' ↔ on_its_way (mail_of A P) o o'.
Proof.
  intros Hwf. split.
  - intros (i & side & q & Hl & Hq & (m & Hm & Ho)%elem_of_queued_channels).
    exists (message P <$> contents q), (message P m). rewrite (box_located _ _ _ _ _ Hwf Hl). unfold inbox.
    rewrite Hq. split_and!; [done|by apply list_elem_of_fmap_2|done].
  - intros (ls & l & Hb & Hl & Ho). destruct (open_cases A o Hwf) as [(i & side & Hloc)|Hno].
    2:{ by rewrite (proj1 (mail_closed A P o Hwf Hno)) in Hb. }
    rewrite (box_located _ _ _ _ _ Hwf Hloc) in Hb. unfold inbox in Hb.
    destruct (queue_at A i side) as [q|] eqn:Hq; [|done]. simpl in Hb. injection Hb as <-.
    apply list_elem_of_fmap in Hl as (m & -> & Hm). exists i, side, q. split_and!; [done..|].
    apply elem_of_queued_channels. by exists m.
Qed.

Lemma reachable_would_hold A P transfers o : channels_wf A →
  reachable A (batch_objects_of_type transfers DW_OBJECT_TYPE_CHANNEL) o ↔
  would_hold_itself (mail_of A P) transfers o.
Proof.
  intros Hwf. split; intros (source & Hs & Hr); exists source; (split; [done|]);
    (eapply rtc_mono; [|exact Hr]); intros x y; by apply edge_on_its_way.
Qed.

(** ** Every queued endpoint is open *)

Lemma batch_object_token transfers o : o ∈ batch_objects_of_type transfers DW_OBJECT_TYPE_CHANNEL →
  ∃ k, (k, o, DW_OBJECT_TYPE_CHANNEL) ∈ batch_refs transfers.
Proof.
  intros (token & -> & [Hty Hin]%list_elem_of_filter)%list_elem_of_fmap. exists ReferenceKind.Handle.
  unfold batch_refs. apply elem_of_list_to_set_disj, list_elem_of_fmap. exists token. split; [|done].
  unfold handle_token. by rewrite Hty.
Qed.

Lemma edge_token A o o' : edge A o o' → ∃ k, (k, o', DW_OBJECT_TYPE_CHANNEL) ∈ queued_refs A.
Proof.
  intros (i & side & q & _ & Hq & (m & Hm & (k & Hk)%batch_object_token)%elem_of_queued_channels). exists k.
  unfold queued_refs, queued_transfers, batch_refs in *. rewrite elem_of_list_to_set_disj in Hk |- *.
  apply list_elem_of_fmap in Hk as (token & Htok & Hin). apply list_elem_of_fmap. exists token. split; [done|].
  apply list_elem_of_bind. exists q. split; [apply list_elem_of_bind; by exists m|].
  apply elem_of_all_queues. by exists i, side.
Qed.

Section simulation.
Context (depth : nat).

Abbreviation view c := (mail_of (cw_channels c) (cw_pool c)).

Lemma nothing_dangling c transfers o : system_inv depth c → batch_refs transfers ⊆ cw_refs c →
  reachable (cw_channels c) (batch_objects_of_type transfers DW_OBJECT_TYPE_CHANNEL) o →
  ¬ dangling (cw_channels c) o.
Proof.
  intros Hinv Hsub (source & Hs & Hr) Hdang.
  assert (∃ k, (k, o, DW_OBJECT_TYPE_CHANNEL) ∈ cw_tokens c) as [k Hk].
  { apply rtc_inv_r in Hr as [->|(x & _ & (k & Hk)%edge_token)].
    - apply batch_object_token in Hs as [k Hk]. exists k. unfold cw_tokens. multiset_solver.
    - exists k. unfold cw_tokens. multiset_solver. }
  assert (open (cw_channels c) o) as (i & side & Hl) by (apply (si_open _ _ Hinv); left; by exists k).
  by apply (Hdang i side).
Qed.

Lemma serial_reserved A P i side q : channel_inv A P [] [] → queue_at A i side = Some q →
  is_Some (endpoint_at A i side) → reserved q = [].
Proof.
  intros Hinv Hq He. pose proof (sh_reserved _ _ (ci_sends _ _ _ _ Hinv) _ _ _ Hq He) as Hp.
  unfold issued in Hp. simpl in Hp. by apply Permutation_nil_r in Hp.
Qed.

Lemma send_failed_error c object bytes transfers error : system_inv depth c →
  batch_refs transfers ⊆ cw_refs c →
  send_failed (cw_channels c) (cw_pool c) object bytes transfers error →
  send_error depth (view c) object bytes transfers error.
Proof.
  intros Hinv Hsub Hfail. pose proof (si_channels _ _ Hinv) as Hc. pose proof (ci_wf _ _ _ _ Hc) as Hwf.
  destruct Hfail as [error Href|i side e Hl He Hr|o Hr Hd].
  - destruct Href as [Hlong|Hno|i side Hl Hnone|i side q Hl Hp Hq Hfull|i side q Hl [e He] Hq Hg|Hne _ _].
    + by left.
    + apply mail_closed; [done|]. intros (i & side & Hl). by apply (Hno i side).
    + unfold send_error. rewrite (box_located _ _ _ _ _ Hwf Hl), (link_located _ _ _ _ _ Hwf Hl), Hnone.
      destruct (inbox_open _ (cw_pool c) _ _ _ Hl) as (q & _ & ->). done.
    + destruct Hp as [e He]. unfold send_error. rewrite (link_located _ _ _ _ _ Hwf Hl), He.
      assert (located (cw_channels c) (endpoint_object e) i (ChannelSide.peer side)) as Hlp by (by exists e).
      exists (endpoint_object e), (message (cw_pool c) <$> contents q). rewrite (box_located _ _ _ _ _ Hwf Hlp).
      unfold inbox. rewrite Hq. split_and!; [done..|]. rewrite length_fmap.
      rewrite (serial_reserved _ _ _ _ _ Hc Hq) in Hfull by (by rewrite He). simpl in Hfull.
      pose proof (sends_fit _ _ (queue_at_wf _ _ _ _ Hwf Hq)). rewrite (si_depths _ _ Hinv _ _ _ Hq) in *. lia.
    + unfold send_error. rewrite (link_located _ _ _ _ _ Hwf Hl), He. done.
    + done.
  - right. exists (endpoint_object e). rewrite (link_located _ _ _ _ _ Hwf Hl), He. split; [done|].
    by apply reachable_would_hold.
  - by destruct (nothing_dangling c transfers o Hinv Hsub Hr).
Qed.

(** The step a call makes in the specification. *)
Definition simulated (c : channel_world) (o : channel_op) (result : channel_result * flux)
    (st : channel_state) : Prop :=
  mail_step depth (view c) o result.1 (mail_of st.1.1.1 st.1.1.2).

Lemma send_simulated c object bytes transfers : system_inv depth c →
  batch_refs transfers ⊆ cw_refs c → (length transfers ≤ HANDLE_TRANSFER_LIMIT)%nat →
  wp (channel_exec depth (Send object bytes transfers)) (cw_state c)
    (simulated c (Send object bytes transfers)) (λ _ _, False).
Proof.
  intros Hinv Hsub Hlim. pose proof (si_channels _ _ Hinv) as Hc. pose proof (ci_wf _ _ _ _ Hc) as Hwf.
  simpl. wp_step. apply wp_on_fst, wp_try. eapply wp_mono; [by apply send_message_wp| |].
  - intros b [[A P] W] [[(i & side & q & q' & m & record & Hl & [e He] & Hq & HA & Hcon & Hdep & _ & _ & _ & Hin) Hac Hlen] Hc'].
    simpl in *. wp_step. unfold simulated. simpl. pose proof (ci_wf _ _ _ _ Hc') as Hwf'.
    assert (located (cw_channels c) (endpoint_object e) i (ChannelSide.peer side)) as Hp by (by exists e).
    apply (mail_sent _ _ _ _ _ (endpoint_object e) (message (cw_pool c) <$> contents q)).
    + by rewrite (link_located _ _ _ _ _ Hwf Hl), He.
    + rewrite (box_located _ _ _ _ _ Hwf Hp). unfold inbox. by rewrite Hq.
    + assert (queue_at A i (ChannelSide.peer side) = Some q') as Hq' by (subst A; by eapply queue_at_set_queue_eq).
      pose proof (sends_fit _ _ (queue_at_wf _ _ _ _ Hwf' Hq')) as Hfit.
      rewrite Hcon, length_app, Hdep, (si_depths _ _ Hinv _ _ _ Hq) in Hfit. rewrite length_fmap. simpl in Hfit. lia.
    + done.
    + rewrite <- reachable_would_hold by done. by eapply Hac.
    + eapply mail_of_update; [done..| |done|exact Hin]. subst A. apply same_endpoints_set_queue.
  - intros [error returned] [[A P] W] (Hret & Hfail & HW & Hc' & Hsame & Hin). simpl in *. subst returned W.
    wp_step. unfold simulated. simpl. apply mail_refused; [by apply send_failed_error|].
    apply mail_of_same; [done|apply Hc'|by apply same_endpoints_traffic|done].
Qed.

Lemma receive_failed_error c object room error : system_inv depth c →
  receive_failed (cw_channels c) object room error → receive_error (view c) object room error.
Proof.
  intros Hinv Hfail. pose proof (si_channels _ _ Hinv) as Hc. pose proof (ci_wf _ _ _ _ Hc) as Hwf.
  assert (∀ i side q, located (cw_channels c) object i side → queue_at (cw_channels c) i side = Some q →
    box (view c) object = Some (message (cw_pool c) <$> contents q)) as Hbox.
  { intros i side q Hl Hq. rewrite (box_located _ _ _ _ _ Hwf Hl). unfold inbox. by rewrite Hq. }
  assert (∀ i side q, queue_at (cw_channels c) i side = Some q → ByteQueue.receive_reservation q = None) as Hidle.
  { intros i side q Hq. eapply unreceived; [apply Hc|done|]. by intros ?%elem_of_nil. }
  destruct Hfail as [error Href|i side q m ms Hl Hq Hms Hroom].
  - destruct Href as [Hno|i side q Hl Hq Hnil Hp|i side q Hl Hq Hnil Hp|i side q Hl Hq Hbusy|i side q Hl Hq Hne Hg]; unfold receive_error.
    + apply mail_closed; [done|]. intros (i & side & Hl). by apply (Hno i side).
    + rewrite (Hbox _ _ _ Hl Hq), Hnil. split; [done|]. by rewrite (link_located _ _ _ _ _ Hwf Hl), Hp.
    + rewrite (Hbox _ _ _ Hl Hq), Hnil. split; [done|]. rewrite (link_located _ _ _ _ _ Hwf Hl).
      destruct Hp as [e ->]. done.
    + by rewrite (Hidle _ _ _ Hq) in Hbusy.
    + rewrite (Hbox _ _ _ Hl Hq). destruct (contents q) as [|m ms]; [done|]. by eexists _, _.
  - unfold receive_error. rewrite (Hbox _ _ _ Hl Hq), Hms. exists (message (cw_pool c) m), (message (cw_pool c) <$> ms). split; [done|].
    pose proof (po_messages _ _ _ (ci_payloads _ _ _ _ Hc) _ _ _ Hq) as Hall. rewrite Hms in Hall.
    apply Forall_cons_1 in Hall as [[Hok _] _]. simpl. by rewrite (proj1 (payload_length _ _ _ Hok)).
Qed.

Lemma receive_simulated c object output : system_inv depth c →
  wp (channel_exec depth (Receive object output)) (cw_state c) (simulated c (Receive object output))
    (λ _ _, False).
Proof.
  intros Hinv. pose proof (si_channels _ _ Hinv) as Hc. pose proof (ci_wf _ _ _ _ Hc) as Hwf.
  simpl. wp_step. apply wp_on_fst, wp_try. eapply wp_mono; [by apply receive_message_wp| |].
  - intros [received out] [[A P] W] [[(i & side & q & q' & m & record & Hl & Hq & HA & Hcon & _ & Htr & Hlen & Hroom & Hout & _ & _ & Hin)] Hc'].
    simpl in *. wp_step. unfold simulated. simpl.
    pose proof (po_messages _ _ _ (ci_payloads _ _ _ _ Hc) _ _ _ Hq) as Hall. rewrite Hcon in Hall.
    apply Forall_cons_1 in Hall as [[Hok _] _]. apply payload_length in Hok as [Hmsg _]. rewrite <- Hlen in Hmsg.
    rewrite Htr, Hout, <- Hmsg. apply (mail_received _ _ _ _ _ _ (message (cw_pool c) <$> contents q')).
    + rewrite (box_located _ _ _ _ _ Hwf Hl). unfold inbox. rewrite Hq. simpl. by rewrite Hcon.
    + by rewrite Hmsg.
    + eapply mail_of_update; [done|apply Hc'| |done|exact Hin]. subst A. apply same_endpoints_set_queue.
  - intros error [[A P] W] (Hfail & HW & Hc' & Hsame & Hin). simpl in *. subst W.
    wp_step. unfold simulated. simpl. apply mail_unreceived; [by apply receive_failed_error|].
    apply mail_of_same; [done|apply Hc'|by apply same_endpoints_traffic|done].
Qed.

(** ** Creation *)

Lemma same_endpoints_cancelled A A' P : pair_cancelled A A' →
  same_endpoints A A' ∧ ∀ j side, inbox A' P j side = inbox A P j side.
Proof.
  intros [->|(key & slot & Ht & ->)]; [done|]. unfold same_endpoints, inbox, endpoint_at, queue_at.
  by split; intros j side; rewrite (cancelled_record _ _ _ _ Ht).
Qed.

Section connect.
Context (A : t) (P : PayloadPool.t) (key : ChannelPairKey) (slot : PairSlot) (first second : ObjectId).
Hypothesis (Hwf : channels_wf A) (Ht : taken A key slot) (Hne : first ≠ second).
Hypothesis (Hf : ¬ open A first) (Hs : ¬ open A second).

Let A' := holding A key (Some (bound_pair key depth first second)).
Hypothesis (Hwf' : channels_wf A') (Hdepth : (0 < depth)%nat).

Lemma connect_located o j side : located A' o j side ↔ located A o j side ∨
  j = key_slot key ∧ o = match side with ChannelSide.Zero => first | ChannelSide.One => second end.
Proof using Ht.
  pose proof Ht as (Hi & Hfree & _). unfold A', holding. rewrite (fill_located _ _ _ _ Hi Hfree). f_equiv. split.
  - intros [-> (record & e & [= <-] & He & <-)]. split; [done|]. by destruct side; injection He as <-.
  - intros [-> ->]. split; [done|]. destruct side; by eexists _, _.
Qed.

Lemma connect_new side : let o := match side with ChannelSide.Zero => first | ChannelSide.One => second end in
  box (mail_of A' P) o = Some [] ∧
  link (mail_of A' P) o = Some match side with ChannelSide.Zero => second | ChannelSide.One => first end.
Proof using Ht Hwf' Hdepth.
  intros o. assert (located A' o (key_slot key) side) as Hl by (apply connect_located; right; by destruct side).
  rewrite (box_located _ _ _ _ _ Hwf' Hl), (link_located _ _ _ _ _ Hwf' Hl).
  pose proof Ht as (Hi & _). unfold inbox, queue_at, endpoint_at, A', holding. rewrite (fill_record _ _ _ _ Hi), decide_True by done.
  destruct (fresh_queue_idle depth Hdepth) as [Hnil _]. simpl. destruct side; simpl; by rewrite Hnil.
Qed.

Lemma mail_of_connect : mail_of A' P ≡ connect first second (mail_of A P).
Proof using All.
  destruct (connect_new ChannelSide.Zero) as [Hb1 Hl1], (connect_new ChannelSide.One) as [Hb2 Hl2].
  assert (∀ o, o ≠ first → o ≠ second → box (mail_of A' P) o = box (mail_of A P) o ∧
    link (mail_of A' P) o = link (mail_of A P) o) as Hold.
  { intros o Ho1 Ho2. destruct (open_cases A o Hwf) as [(j & side & Hl)|Hno].
    - assert (located A' o j side) as Hl' by (apply connect_located; by left).
      assert (j ≠ key_slot key) as Hj.
      { intros ->. destruct Hl as (e & He & _). pose proof Ht as (Hi & Hfree & _).
        unfold endpoint_at in He. by rewrite (fill_vacant _ _ _ Hi Hfree) in He. }
      rewrite (box_located _ _ _ _ _ Hwf Hl), (box_located _ _ _ _ _ Hwf' Hl'),
        (link_located _ _ _ _ _ Hwf Hl), (link_located _ _ _ _ _ Hwf' Hl').
      pose proof Ht as (Hi & _). unfold inbox, queue_at, endpoint_at, A', holding.
      by rewrite (fill_record _ _ _ _ Hi), decide_False.
    - assert (¬ open A' o) as Hno'.
      { intros (j & side & [Hl|[_ ->]]%connect_located); [apply Hno; by exists j, side|]. by destruct side. }
      destruct (mail_closed A P o Hwf Hno) as [-> ->]. by apply mail_closed. }
  split; intros o; cbn [connect box link]; destruct (decide (o = first)) as [->|H1]; [by rewrite decide_True by auto| |done|];
    destruct (decide (o = second)) as [->|H2]; [by rewrite decide_True by auto| |done|].
  - rewrite decide_False by tauto. by apply Hold.
  - by apply Hold.
Qed.
End connect.

Lemma create_simulated c : system_inv depth c → (0 < depth)%nat →
  wp (channel_exec depth CreatePair) (cw_state c) (simulated c CreatePair) (λ _ _, False).
Proof.
  intros Hinv Hdepth. pose proof Hinv as [Hl Hc Hw Ho Hq Hd]. pose proof (ci_wf _ _ _ _ Hc) as Hwf. simpl. wp_step.
  apply wp_on_authority_registry, wp_try.
  eapply wp_mono; [eapply (create_pair_wp (owns:=ledger)); [exact Hc|done| |exact Hl]| |].
  { intros o i side Hloc. apply Ho. by exists i, side. }
  - intros [[first second] [h1 h2]] [A reg] [_ _ Hne [Hf1 Hf2] _ Hc' (key & slot & Ht & HA)]. simpl in *. wp_step.
    assert (¬ open (cw_channels c) (endpoint_object_id first)) as Hn1 by (rewrite Ho; apply Hf1).
    assert (¬ open (cw_channels c) (endpoint_object_id second)) as Hn2 by (rewrite Ho; apply Hf2).
    unfold simulated. simpl. apply mail_created; [done|by apply mail_closed..|]. subst A.
    eapply mail_of_connect; [done..|apply Hc'|done].
  - intros error [A reg] (_ & Hc' & Hcan & _). wp_step. unfold simulated. simpl in *.
    apply mail_silent; [done..|]. destruct (same_endpoints_cancelled _ _ (cw_pool c) Hcan).
    apply mail_of_same; [done|apply Hc'|done..].
Qed.

(** ** Finalization *)

Section disconnect.
Context (A : t) (P P' : PayloadPool.t) (i : nat) (side : ChannelSide.t) (slot : PairSlot) (record : PairRecord).
Context (q : ByteQueue.t) (e : EndpointRecord).
Hypothesis (Hwf : channels_wf A) (Hi : pairs A !! i = Some slot) (Hrec : pair_record slot = Some record).
Hypothesis (He : at_side side (endpoints record) = Some e).
Hypothesis (Hb : ∀ token, bytes_of P' token = bytes_of P token).

Let A' := with_slot i (close_slot slot record side q) A.
Hypothesis (Hwf' : channels_wf A').

Lemma disconnect_inbox o j side' : located A o j side' → (j, side') ≠ (i, side) →
  inbox A' P' j side' = inbox A P j side'.
Proof using Hi Hrec He Hb.
  intros Hl Hne. pose proof Hl as (e' & He' & _). destruct (inbox_open A P _ _ _ Hl) as (q' & Hq' & ->).
  unfold inbox. unfold A'. rewrite (close_queue_keep A i side slot record q e Hi Hrec He j side' q' Hne Hq'); [|by rewrite He'].
  simpl. f_equal. apply list_fmap_ext. intros k m _. unfold message. f_equal. apply payload_of_frame. by intros token _.
Qed.

Lemma disconnect_here : located A (endpoint_object e) i side.
Proof using Hi Hrec He. exists e. split; [|done]. unfold endpoint_at, record_at. rewrite Hi. simpl. by rewrite Hrec. Qed.

Lemma mail_of_disconnect : mail_of A' P' ≡ disconnect (endpoint_object e) (mail_of A P).
Proof using All.
  pose proof disconnect_here as Hhere.
  split; intros o; cbn [disconnect box link]; destruct (open_cases A' o Hwf') as [(j & side' & Hl')|Hno].
  - pose proof Hl' as [Hl Hne]%(close_located A i side slot record q e Hi Hrec He).
    rewrite (box_located _ _ _ _ _ Hwf' Hl'), (disconnect_inbox o) by naive_solver. rewrite decide_False; [by rewrite (box_located _ _ _ _ _ Hwf Hl)|].
    intros ->. apply Hne. by apply (located_once _ Hwf (endpoint_object e)).
  - rewrite (proj1 (mail_closed _ P' _ Hwf' Hno)). case_decide as Ho; [done|].
    symmetry. apply mail_closed; [done|]. intros Hopen. apply Hno. by apply (open_close _ _ _ _ _ _ _ _ Hwf Hi Hrec He).
  - pose proof Hl' as [Hl Hne]%(close_located A i side slot record q e Hi Hrec He).
    rewrite (link_located _ _ _ _ _ Hwf' Hl'), (link_located _ _ _ _ _ Hwf Hl).
    unfold A'. rewrite (close_endpoint A i side slot record q e Hi Hrec He). case_decide as Hp.
    + destruct Hp as [-> Hp]. rewrite Hp. destruct Hhere as (e' & -> & Heq). simpl. rewrite Heq. by rewrite decide_True by auto.
    + rewrite decide_False; [done|]. intros [->|Heq]; [apply Hne; by apply (located_once _ Hwf (endpoint_object e))|].
      destruct (endpoint_at A j (ChannelSide.peer side')) as [e'|] eqn:He'; [|done]. simpl in Heq. injection Heq as Heq.
      apply Hp. eapply (located_once _ Hwf (endpoint_object e)); [by exists e'|done].
  - rewrite (proj2 (mail_closed _ P' _ Hwf' Hno)). destruct (decide (o = endpoint_object e)) as [->|Ho].
    { by rewrite decide_True by auto. }
    assert (¬ open A o) as Hno'. { intros Hopen. apply Hno. by apply (open_close _ _ _ _ _ _ _ _ Hwf Hi Hrec He). }
    rewrite (proj2 (mail_closed A P o Hwf Hno')). by case_decide.
Qed.
End disconnect.

Lemma finalize_simulated c f : system_inv depth c → f ∈ cw_finals c → final_type f = DW_OBJECT_TYPE_CHANNEL →
  wp (channel_exec depth (FinalizeChannel f)) (cw_state c) (simulated c (FinalizeChannel f)) (λ _ _, False).
Proof.
  intros Hinv Hf Hty. pose proof (ci_wf _ _ _ _ (si_channels _ _ Hinv)) as Hwf.
  eapply wp_mono; [by apply (finalize_channel_kept depth)| |done].
  intros [result d] [[[A P] W] reg] (Hres & _ & _ & Hkept & _ & finalization & Hfin & _). simpl in Hres. subst result.
  destruct Hfin as [_ (i & side & slot & record & e & q & Hi & Hrec & He & Hid & _ & _ & _ & HA & _ & _) (_ & _ & Hb)].
  pose proof (ci_wf _ _ _ _ (si_channels _ _ Hkept)) as Hwf'. simpl in *. unfold simulated. simpl. apply mail_finalized.
  - rewrite <- Hid. pose proof (disconnect_here _ _ _ _ _ _ Hi Hrec He) as Hl.
    rewrite (box_located _ _ _ _ _ Hwf Hl). by destruct (inbox_open _ (cw_pool c) _ _ _ Hl) as (? & _ & ->).
  - rewrite <- Hid, HA. eapply mail_of_disconnect; [done..|]. by rewrite <- HA.
Qed.

(** ** Every call *)

Lemma waits_simulated c o : system_inv depth c → channel_admissible o (cw_refs c) (cw_finals c) →
  match o with AwaitChannel _ _ _ _ _ | OtherWaits _ => True | _ => False end →
  wp (channel_exec depth o) (cw_state c) (simulated c o) (λ _ _, False).
Proof.
  intros Hinv Hadm Ho. destruct o as [| | |target desired idx th w|o|]; try done.
  - simpl. wp_step. apply wp_on_authority_waits, wp_try.
    eapply wp_mono; [by apply channel_register_wp; apply Hinv| |].
    + intros outcome [A W] (HA & _). simpl in HA. subst A. wp_step. by apply mail_silent.
    + intros failure [A W] [[= -> ->] _]. wp_step. by apply mail_silent.
  - simpl. wp_step. apply wp_on_fst, wp_on_snd.
    eapply wp_mono; [apply exec_wp; by eapply si_waits| |by intros ? ? []].
    intros [handed returned] W _. cbn beta iota. wp_step. by apply mail_silent.
Qed.

Lemma channel_exec_simulated c o : system_inv depth c → (0 < depth)%nat →
  channel_admissible o (cw_refs c) (cw_finals c) →
  wp (channel_exec depth o) (cw_state c) (simulated c o) (λ _ _, False).
Proof.
  intros Hinv Hdepth Hadm. destruct o as [|object bytes transfers|object output|target desired idx th w|o|f].
  - by apply create_simulated.
  - destruct Hadm. by apply send_simulated.
  - by apply receive_simulated.
  - by apply waits_simulated.
  - by apply waits_simulated.
  - destruct Hadm. by apply finalize_simulated.
Qed.
End simulation.
