(* ===== verification/ChannelTheorems.v ===== *)
(** * Channels: claims

    What holds of the channel authority with its payload pool, wait registry
    and object registry in every state they can reach: nothing panics and
    nothing leaks, the rings implement mailboxes, no wakeup is lost, an
    endpoint's finalization completes, and no endpoint can come to hold
    itself through messages queued for it. *)

From stdpp Require Import base tactics numbers list sets relations gmultiset.
From Stdlib Require Import ZArith Lia.
From S2P Require Import Prelude Abi Object ObjectLedger ObjectTheorems HandleTable HandleOwnership Wait WaitFacts WaitTheorems Channel ChannelQueue ChannelFacts ChannelCycle ChannelInvariant ChannelWaits ChannelSend ChannelClose ChannelCreate ChannelMessages ChannelSystem ChannelMailbox.
Import ChannelAuthority.
Local Open Scope Z_scope.

(** ** Current signals *)

Definition endpoint_key (o : ObjectId) : ChannelEndpointKey := {| endpoint_object_id := o |}.

(** The endpoint [o] exists and shows the signals [s]. *)
Definition shows (A : t) (o : ObjectId) (s : DwSignals) : Prop := current_signals (endpoint_key o) A = Ret A s.

Lemma shows_iff A o s : channels_wf A →
  shows A o s ↔ ∃ i side record e, record_at A i = Some record ∧ at_side side (endpoints record) = Some e ∧
    endpoint_object e = o ∧ s = pair_signals record side.
Proof.
  intros Hwf. unfold shows, current_signals, endpoint_key. unfold mbind, M_bind, get, lift. split.
  - intros Hs. destruct (locate_cases A o Hwf) as [(i & side & Hloc & Hl)|[Hloc _]]; rewrite Hloc in Hs; [|done].
    destruct Hl as (e & He & Hid). unfold endpoint_at in He. destruct (record_at A i) as [record|] eqn:Hr; [|done].
    pose proof Hr as (slot & Hi & Hrec)%record_at_Some. unfold pair_at, expect, mbind, M_bind in Hs.
    rewrite Hi in Hs. unfold mret, M_ret, ok_or in Hs. rewrite Hrec in Hs. simpl in He, Hs.
    rewrite (signals_open record side e He) in Hs. injection Hs as <-. by exists i, side, record, e.
  - intros (i & side & record & e & Hr & He & <- & ->).
    rewrite (locate_located A (endpoint_object e) i side Hwf); [|exists e; split; [unfold endpoint_at; by rewrite Hr|done]].
    pose proof Hr as (slot & Hi & Hrec)%record_at_Some. unfold pair_at, expect, mbind, M_bind.
    rewrite Hi. unfold mret, M_ret, ok_or. rewrite Hrec. simpl. by rewrite (signals_open record side e He).
Qed.

Lemma shows_fun A o s s' : shows A o s → shows A o s' → s = s'.
Proof. unfold shows. congruence. Qed.

(** Only the waiters of the changed pair can have become ready. *)
Lemma woken_are_ready A A' W W' b i record first w : channels_wf A → channels_wf A' → channels_quiet A W →
  record_at A' i = Some record → (∀ j, j ≠ i → record_at A' j = record_at A j) →
  collected W (pair_sources record [first; ChannelSide.peer first]) W' b →
  w ∈ intent_wake <$> wakes_in b ↔
  ∃ e s, e ∈ WaitRegistry.entries W ∧ shows A' (wait_object (wait_identity e)) s ∧
    Z.land (wait_desired e) s ≠ 0 ∧ wait_wake (wait_identity e) = w.
Proof.
  intros Hwf Hwf' Hq Hr Hj Hcol. rewrite (collected_ready _ _ _ _ Hcol). split.
  - intros (e & o & s & He & (side & ep & _ & Hep & Ho & Hs)%elem_of_pair_sources & Hready & <-).
    subst.
    unfold WaitRegistry.is_ready in Hready. rewrite Is_true_true, andb_true_iff, bool_decide_eq_true, negb_true_iff, Z.eqb_neq in Hready.
    destruct Hready as [Hobj Hne]. exists e, (pair_signals record side). split_and!; [done| |done..].
    apply shows_iff; [done|]. by exists i, side, record, ep.
  - intros (e & s & He & (j & side & record' & ep & Hr' & Hep & Hobj & ->)%shows_iff & Hne & <-); [|done].
    destruct (decide (j = i)) as [->|Hji].
    + rewrite Hr in Hr'. injection Hr' as <-. exists e, (endpoint_object ep), (pair_signals record side).
      split_and!; [done| | |done].
      * apply elem_of_pair_sources. exists side, ep. split_and!; [|done..]. destruct first, side; set_solver.
      * unfold WaitRegistry.is_ready. rewrite bool_decide_eq_true_2 by done. simpl. by rewrite (proj2 (Z.eqb_neq _ _) Hne).
    + rewrite Hj in Hr' by done. by destruct Hne; eapply Hq.
Qed.

(** A waiter on a channel waits on an open endpoint. *)
Lemma waiter_shows depth c e : system_inv depth c → e ∈ WaitRegistry.entries (cw_waits c) →
  internal_type (wait_pin e) = DW_OBJECT_TYPE_CHANNEL →
  ∃ i side record ep, record_at (cw_channels c) i = Some record ∧ at_side side (endpoints record) = Some ep ∧
    wait_object (wait_identity e) = endpoint_object ep.
Proof.
  intros Hinv He Hty. destruct (entry_wf _ _ (si_waits _ _ Hinv) He) as [Hpin _].
  assert (open (cw_channels c) (wait_object (wait_identity e))) as (i & side & ep & Hep & Hid).
  { apply (si_open _ _ Hinv). left. exists ReferenceKind.Internal. rewrite Hpin, <- Hty.
    by apply waiter_token. }
  unfold endpoint_at in Hep. destruct (record_at (cw_channels c) i) as [record|] eqn:Hr; [|done].
  by exists i, side, record, ep.
Qed.

Lemma letters_transfers P ms : (message P <$> ms) ≫= snd = ms ≫= transfers.
Proof. induction ms as [|m ms IH]; [done|]. by rewrite fmap_cons, !bind_cons, IH. Qed.

(** What was queued for an endpoint before its finalization. *)
Lemma finalized_letters depth c f finalization A P W : system_inv depth c →
  finalized (cw_channels c) (cw_pool c) (cw_waits c) [] f finalization A P W →
  ∃ letters, box (mail_of (cw_channels c) (cw_pool c)) (final_id f) = Some letters ∧
    queued_refs (cw_channels c) = batch_refs (letters ≫= snd) ⊎ queued_refs A.
Proof.
  intros Hinv [_ (i & side & slot & record & e & q & Hi & Hrec & He & Hid & _ & Hidle & _ & -> & _ & _) _].
  pose proof (ci_wf _ _ _ _ (si_channels _ _ Hinv)) as Hwf.
  pose proof (disconnect_here _ _ _ _ _ _ Hi Hrec He) as Hl.
  exists (message (cw_pool c) <$> contents (at_side side (inbound record))). split.
  - rewrite <- Hid, (box_located _ _ _ _ _ Hwf Hl). unfold inbox.
    assert (queue_at (cw_channels c) i side = Some (at_side side (inbound record))) as ->; [|done].
    apply queue_at_Some. by exists slot, record.
  - rewrite (queued_refs_close _ i side slot record q e Hwf Hi Hrec He Hidle). do 2 f_equal.
    symmetry. apply letters_transfers.
Qed.

(** ** A system with one pair of endpoints *)

Lemma replicate_pool_empty n m : (n ≤ 256)%nat → (m ≤ 256)%nat →
  empty_pool {| PayloadPool.slots := replicate n EMPTY_PAYLOAD_SLOT;
                PayloadPool.small := replicate m EMPTY_SMALL_PAYLOAD_SLOT |}.
Proof.
  intros Hn Hm. split; [split|split; [constructor|]].
  - intros [] i s [-> _]%lookup_replicate; (split; [done|]); apply length_replicate.
  - intros []; simpl; by rewrite length_replicate.
  - intros token. split; [|by intros ?%elem_of_nil].
    intros (_ & s & Hs & Huse & _). unfold slot_of in Hs.
    destruct (token_class token); apply lookup_replicate in Hs as [-> _]; done.
Qed.

(** The pool the kernel starts with. *)
Lemma new_pool_empty : empty_pool PayloadPool.new.
Proof. apply replicate_pool_empty; unfold PAYLOAD_POOL_SLOTS, SMALL_PAYLOAD_SLOTS; lia. Qed.

Definition demo_pool : PayloadPool.t :=
  {| PayloadPool.slots := replicate 0 EMPTY_PAYLOAD_SLOT;
     PayloadPool.small := replicate 2 EMPTY_SMALL_PAYLOAD_SLOT |}.

Lemma demo_pool_empty : empty_pool demo_pool.
Proof. apply replicate_pool_empty; lia. Qed.

Definition demo_fresh : channel_world := fresh_channel_world 1 1 1 2 3 6 demo_pool.
Definition demo_first : ObjectId := {| oid_domain := 1; oid_raw := 4294967297 |}.
Definition demo_second : ObjectId := {| oid_domain := 1; oid_raw := 4294967298 |}.

Definition channel_after (o : channel_op) (c : channel_world) : channel_world :=
  match channel_exec 2 o (cw_state c) with
  | Ret st (_, d) => after_flux c st d
  | _ => c
  end.

Lemma channel_after_step o c : system_inv 2 c → channel_admissible o (cw_refs c) (cw_finals c) →
  channel_step 2 c (channel_after o c).
Proof.
  intros Hinv Hadm. assert (0 < 2)%nat as Hdepth by lia.
  pose proof (channel_exec_safe 2 Hdepth c o Hinv Hadm) as Hw. unfold wp in Hw. unfold channel_after.
  destruct (channel_exec 2 o (cw_state c)) as [st [result d]|? []|] eqn:Hex; [|done].
  by apply channel_call with o result.
Qed.

Lemma channel_after_reached o c : rtc (channel_step 2) demo_fresh c →
  channel_admissible o (cw_refs c) (cw_finals c) → rtc (channel_step 2) demo_fresh (channel_after o c).
Proof.
  intros Hr Hadm. eapply rtc_r; [done|]. apply channel_after_step; [|done].
  eapply channel_run_inv; [lia|apply fresh_system_inv, demo_pool_empty|exact Hr].
Qed.

Definition demo_paired : channel_world := channel_after CreatePair demo_fresh.
Definition demo_sent : channel_world := channel_after (Send demo_first [7; 8; 9] []) demo_paired.

(** Transferring the handle of an endpoint. *)
Definition demo_batch (o : ObjectId) : HandleTransferBatch :=
  [{| token_reference := {| handle_id := o; handle_type := DW_OBJECT_TYPE_CHANNEL |};
      token_source_rights := DW_RIGHT_TRANSFER; token_requested_rights := DW_RIGHT_TRANSFER |}].

(** The handle of the first endpoint is queued for the second. *)
Definition demo_nested : channel_world := channel_after (Send demo_first [] (demo_batch demo_first)) demo_paired.

Lemma demo_paired_reached : rtc (channel_step 2) demo_fresh demo_paired.
Proof. by apply channel_after_reached. Qed.

Lemma demo_paired_refs : cw_refs demo_paired =
  ∅ ∖ ∅ ⊎ ({[+ (ReferenceKind.Handle, demo_first, DW_OBJECT_TYPE_CHANNEL) +]} ⊎
           {[+ (ReferenceKind.Handle, demo_second, DW_OBJECT_TYPE_CHANNEL) +]}).
Proof. reflexivity. Qed.

Lemma demo_sent_reached : rtc (channel_step 2) demo_fresh demo_sent.
Proof.
  apply channel_after_reached; [apply demo_paired_reached|]. split; [|simpl; lia].
  change (batch_refs []) with (∅ : gmultiset Token). multiset_solver.
Qed.

Lemma demo_batch_refs o : batch_refs (demo_batch o) = {[+ (ReferenceKind.Handle, o, DW_OBJECT_TYPE_CHANNEL) +]} ⊎ ∅.
Proof. reflexivity. Qed.

Lemma demo_nested_reached : rtc (channel_step 2) demo_fresh demo_nested.
Proof.
  apply channel_after_reached; [apply demo_paired_reached|]. split.
  - rewrite demo_paired_refs, demo_batch_refs. multiset_solver.
  - by apply Nat.leb_le.
Qed.

(** The rest of the kernel retains an internal reference to an endpoint it
    has a handle for. *)
Definition with_pin (id : ObjectId) (c : channel_world) : channel_world :=
  {| cw_channels := cw_channels c; cw_pool := cw_pool c; cw_waits := cw_waits c;
     cw_registry := after (ObjectRegistry.retain_reference id DW_OBJECT_TYPE_CHANNEL
                             ReferenceKind.Handle ReferenceKind.Internal) (cw_registry c);
     cw_refs := cw_refs c ⊎ {[+ (ReferenceKind.Internal, id, DW_OBJECT_TYPE_CHANNEL) +]};
     cw_finals := cw_finals c |}.

(** The rest of the kernel closes the only handle of an endpoint. *)
Definition without_handle (id : ObjectId) (c : channel_world) : channel_world :=
  {| cw_channels := cw_channels c; cw_pool := cw_pool c; cw_waits := cw_waits c;
     cw_registry := after (ObjectRegistry.release_reference id DW_OBJECT_TYPE_CHANNEL ReferenceKind.Handle)
                      (cw_registry c);
     cw_refs := cw_refs c ∖ {[+ (ReferenceKind.Handle, id, DW_OBJECT_TYPE_CHANNEL) +]};
     cw_finals := cw_finals c ⊎ {[+ {| final_id := id; final_type := DW_OBJECT_TYPE_CHANNEL |} +]} |}.

Lemma held_token c k id ty : (k, id, ty) ∈ cw_refs c → (k, id, ty) ∈ cw_tokens c.
Proof. unfold cw_tokens. multiset_solver. Qed.

Lemma with_pin_step c id reg : (ReferenceKind.Handle, id, DW_OBJECT_TYPE_CHANNEL) ∈ cw_refs c →
  ObjectRegistry.retain_reference id DW_OBJECT_TYPE_CHANNEL ReferenceKind.Handle ReferenceKind.Internal
    (cw_registry c) = Ret reg tt →
  channel_step 2 c (with_pin id c).
Proof.
  intros Hin%held_token Hreg. unfold with_pin, after. rewrite Hreg.
  refine (channel_elsewhere 2 c {| book := reg;
    tokens := cw_tokens c ⊎ {[+ (ReferenceKind.Internal, id, DW_OBJECT_TYPE_CHANNEL) +]};
    finals := cw_finals c |} _ _ _ _).
  - by apply (honest_retain _ _ _ ReferenceKind.Handle).
  - simpl. unfold cw_tokens. by rewrite gmultiset_disj_union_assoc.
  - intros id'. simpl. rewrite alive_add.
    assert (alive DW_OBJECT_TYPE_CHANNEL id (cw_tokens c) (cw_finals c)) by (left; by exists ReferenceKind.Handle).
    naive_solver.
Qed.

Lemma without_handle_step c id reg : system_inv 2 c →
  (ReferenceKind.Handle, id, DW_OBJECT_TYPE_CHANNEL) ∈ cw_refs c →
  ObjectRegistry.release_reference id DW_OBJECT_TYPE_CHANNEL ReferenceKind.Handle (cw_registry c) =
    Ret reg (Some {| final_id := id; final_type := DW_OBJECT_TYPE_CHANNEL |}) →
  channel_step 2 c (without_handle id c).
Proof.
  intros Hinv Hrefs Hreg. pose proof (held_token _ _ _ _ Hrefs) as Hin. unfold without_handle, after. rewrite Hreg.
  refine (channel_elsewhere 2 c {| book := reg;
    tokens := cw_tokens c ∖ {[+ (ReferenceKind.Handle, id, DW_OBJECT_TYPE_CHANNEL) +]};
    finals := cw_finals c ⊎ {[+ {| final_id := id; final_type := DW_OBJECT_TYPE_CHANNEL |} +]} |} _ _ _ _).
  - by apply honest_final_release.
  - simpl. unfold cw_tokens. multiset_solver.
  - intros id'. symmetry.
    refine (alive_release (owns:=ledger) _ _ _ _ _ _ (Some {| final_id := id; final_type := DW_OBJECT_TYPE_CHANNEL |})
      reg _ _ (si_ledger _ _ Hinv) Hin _).
    exact (wp_Ret _ _ _ _ _ _ (contract_release (owns:=ledger) _ _ _ _ _ _ (si_ledger _ _ Hinv) Hin) Hreg).
Qed.

Lemma demo_reached_inv c : rtc (channel_step 2) demo_fresh c → system_inv 2 c.
Proof. intros Hr. eapply channel_run_inv; [lia|apply fresh_system_inv, demo_pool_empty|exact Hr]. Qed.

(** A thread waits for a message to the second endpoint. *)
Definition demo_target : ResolvedHandle.t :=
  {| ResolvedHandle.reference := {| internal_id := demo_second; internal_type := DW_OBJECT_TYPE_CHANNEL |};
     ResolvedHandle.rights := DW_RIGHT_WAIT |}.

Definition demo_waiting : channel_world :=
  channel_after (AwaitChannel demo_target DW_SIGNAL_READABLE 0 (demo_thread 2) (demo_wake 2))
    (with_pin demo_second demo_paired).

(** The second endpoint is closed with a message and a handle queued for it. *)
Definition demo_dying : channel_world := without_handle demo_second demo_nested.

Lemma demo_second_held : (ReferenceKind.Handle, demo_second, DW_OBJECT_TYPE_CHANNEL) ∈ cw_refs demo_paired.
Proof. rewrite demo_paired_refs. multiset_solver. Qed.

Lemma demo_waiting_reached : rtc (channel_step 2) demo_fresh demo_waiting.
Proof.
  apply channel_after_reached.
  - eapply rtc_r; [apply demo_paired_reached|]. eapply with_pin_step; [apply demo_second_held|vm_compute; reflexivity].
  - unfold channel_admissible, with_pin, internal_token. cbn [cw_refs ResolvedHandle.reference demo_target internal_id internal_type].
    generalize (cw_refs demo_paired). multiset_solver.
Qed.

Lemma demo_nested_refs : cw_refs demo_nested = cw_refs demo_paired ∖ batch_refs (demo_batch demo_first) ⊎ tokens_of [].
Proof. reflexivity. Qed.

Lemma demo_dying_reached : rtc (channel_step 2) demo_fresh demo_dying.
Proof.
  eapply rtc_r; [apply demo_nested_reached|]. eapply without_handle_step.
  - apply demo_reached_inv, demo_nested_reached.
  - rewrite demo_nested_refs, demo_paired_refs, demo_batch_refs. unfold tokens_of. simpl. multiset_solver.
  - vm_compute. reflexivity.
Qed.

(** ** Claims *)

Section claims.
Context (depth : nat) (d wd rd : Z) (n m k : nat) (P : PayloadPool.t).

Definition reached (c : channel_world) : Prop :=
  (0 < depth)%nat ∧ empty_pool P ∧ rtc (channel_step depth) (fresh_channel_world d wd rd n m k P) c.

Lemma reached_inv c : reached c → system_inv depth c.
Proof. intros (Hd & HP & Hr). eapply channel_run_inv; [done|by apply fresh_system_inv|exact Hr]. Qed.
End claims.

(** C5. From an empty channel authority, payload pool, wait registry and
    object registry on, in any order of their operations and of calls by the
    rest of the kernel: the object registry's counts are exactly the
    references held by waiters, by queued messages and by the rest of the
    kernel; the open endpoints are exactly the living objects of type
    CHANNEL; the payload slots in use are exactly those of queued messages,
    each of one message; no endpoint can be reached from itself through
    messages queued for it; and no admissible operation panics. *)
Theorem channel_system_safe depth d wd rd n m k P c : reached depth d wd rd n m k P c →
  ledger (cw_registry c)
    (pin_tokens (cw_waits c) ⊎ queued_refs (cw_channels c) ⊎ cw_refs c) (cw_finals c) ∧
  (∀ id, open (cw_channels c) id ↔
     alive DW_OBJECT_TYPE_CHANNEL id
       (pin_tokens (cw_waits c) ⊎ queued_refs (cw_channels c) ⊎ cw_refs c) (cw_finals c)) ∧
  pool_owns (cw_pool c) (queued_tokens (cw_channels c)) ∧
  acyclic (cw_channels c) ∧
  ∀ o, channel_admissible o (cw_refs c) (cw_finals c) → channel_exec depth o (cw_state c) ≠ Panic.
Proof.
  intros Hr. pose proof (reached_inv _ _ _ _ _ _ _ _ _ Hr) as Hinv. destruct Hr as (Hd & _).
  split_and!; [apply Hinv|apply (si_open _ _ Hinv)| |apply Hinv|].
  - pose proof (po_owns _ _ _ (ci_payloads _ _ _ _ (si_channels _ _ Hinv))) as Ho. by rewrite app_nil_r in Ho.
  - intros o Hadm. exact (wp_Panic _ _ _ _ (channel_exec_safe depth Hd c o Hinv Hadm)).
Qed.

Lemma channel_system_safe_witness :
  acyclic (cw_channels demo_nested) ∧
  pool_owns (cw_pool demo_nested) (queued_tokens (cw_channels demo_nested)) ∧
  open (cw_channels demo_nested) demo_first.
Proof.
  destruct (channel_system_safe 2 1 1 1 2 3 6 demo_pool demo_nested) as (_ & Ho & Hp & Hac & _).
  - split_and!; [lia|apply demo_pool_empty|apply demo_nested_reached].
  - split_and!; [done..|]. exists 0%nat, ChannelSide.Zero. by eexists.
Defined.

(** C3. The channel authority, with its rings, reservations, payload slots and
    wakeups, implements mailboxes: in every reachable state every admissible
    call returns, and what it returns and does to what is queued is a step of
    the specification.  A send either appends exactly its bytes and transfers
    to the peer's inbox or gives back the transfers with one of the
    specified errors and changes nothing; a receive takes the first message
    of the inbox, whole, or changes nothing; a finalized endpoint's inbox is
    gone and its peer has no peer. *)
Theorem channels_refine_mailboxes depth d wd rd n m k P c o : reached depth d wd rd n m k P c →
  channel_admissible o (cw_refs c) (cw_finals c) →
  ∃ A' P' W' reg' result moved,
    channel_exec depth o (cw_state c) = Ret (A', P', W', reg') (result, moved) ∧
    mail_step depth (mail_of (cw_channels c) (cw_pool c)) o result (mail_of A' P').
Proof.
  intros Hr Hadm. pose proof (reached_inv _ _ _ _ _ _ _ _ _ Hr) as Hinv. destruct Hr as (Hd & _).
  pose proof (channel_exec_simulated depth c o Hinv Hd Hadm) as Hw. unfold wp in Hw.
  destruct (channel_exec depth o (cw_state c)) as [[[[A' P'] W'] reg'] [result moved]|? []|]; [|done].
  by exists A', P', W', reg', result, moved.
Qed.

Definition result_of (o : channel_op) (c : channel_world) : option channel_result :=
  match channel_exec 2 o (cw_state c) with Ret _ (result, _) => Some result | _ => None end.

Lemma channels_refine_mailboxes_witness :
  result_of (Receive demo_second [0; 0; 0; 0]) demo_sent = Some (Received 3 [] [7; 8; 9; 0]) ∧
  ∃ A' P' W' reg' result moved,
    channel_exec 2 (Receive demo_second [0; 0; 0; 0]) (cw_state demo_sent) = Ret (A', P', W', reg') (result, moved) ∧
    mail_step 2 (mail_of (cw_channels demo_sent) (cw_pool demo_sent)) (Receive demo_second [0; 0; 0; 0])
      result (mail_of A' P').
Proof.
  split; [vm_compute; reflexivity|].
  apply (channels_refine_mailboxes 2 1 1 1 2 3 6 demo_pool demo_sent); [|done].
  split_and!; [lia|apply demo_pool_empty|apply demo_sent_reached].
Defined.

(** C17. No wakeup is lost: in every reachable state no thread waits on an
    endpoint for a signal it shows, and a message sent or received wakes
    exactly the threads that wait for a signal shown afterwards. *)
Theorem no_channel_wakeup_is_lost depth d wd rd n m k P c : reached depth d wd rd n m k P c →
  (∀ e, e ∈ WaitRegistry.entries (cw_waits c) → internal_type (wait_pin e) = DW_OBJECT_TYPE_CHANNEL →
     ∃ s, shows (cw_channels c) (wait_object (wait_identity e)) s ∧ Z.land (wait_desired e) s = 0) ∧
  (∀ object bytes transfers A' P' W' wakes,
     (length transfers ≤ HANDLE_TRANSFER_LIMIT)%nat →
     send_message object bytes transfers (cw_channels c, cw_pool c, cw_waits c) = Ret (A', P', W') wakes →
     ∀ w, w ∈ intent_wake <$> wakes_in wakes ↔
       ∃ e s, e ∈ WaitRegistry.entries (cw_waits c) ∧ shows A' (wait_object (wait_identity e)) s ∧
         Z.land (wait_desired e) s ≠ 0 ∧ wait_wake (wait_identity e) = w) ∧
  (∀ object output A' P' W' received output',
     receive_message object output (cw_channels c, cw_pool c, cw_waits c) =
       Ret (A', P', W') (received, output') →
     ∀ w, w ∈ intent_wake <$> wakes_in (received_wakes received) ↔
       ∃ e s, e ∈ WaitRegistry.entries (cw_waits c) ∧ shows A' (wait_object (wait_identity e)) s ∧
         Z.land (wait_desired e) s ≠ 0 ∧ wait_wake (wait_identity e) = w).
Proof.
  intros Hr. pose proof (reached_inv _ _ _ _ _ _ _ _ _ Hr) as Hinv.
  pose proof Hinv as [_ Hc _ Ho Hq _]. pose proof (ci_wf _ _ _ _ Hc) as Hwf. split_and!.
  - intros e He Hty. destruct (waiter_shows _ c e Hinv He Hty) as (i & side & record & ep & Hrec & Hep & Hobj).
    exists (pair_signals record side). split; [|by eapply Hq].
    apply shows_iff; [done|]. by exists i, side, record, ep.
  - intros object bytes transfers A' P' W' wakes Hlim Hsend.
    pose proof (wp_Ret _ _ _ _ _ _ (send_message_wp _ _ (cw_waits c) object bytes transfers Hc Hlim) Hsend)
      as [[(i & side & q & q' & ms & record & _ & _ & _ & HA & _ & _ & _ & Hrec & Hcol & _) _ _] Hc'].
    intros w. eapply (woken_are_ready _ _ _ _ _ i record (ChannelSide.peer side)); [done|apply Hc'|done..| |by destruct side].
    intros j Hj. simpl in HA |- *. rewrite HA, record_at_set_queue. by rewrite decide_False.
  - intros object output A' P' W' received output' Hrecv.
    pose proof (wp_Ret _ _ _ _ _ _ (receive_message_wp _ _ (cw_waits c) object output Hc) Hrecv)
      as [[(i & side & q & q' & ms & record & _ & _ & HA & _ & _ & _ & _ & _ & _ & Hrec & Hcol & _)] Hc'].
    intros w. eapply (woken_are_ready _ _ _ _ _ i record (ChannelSide.peer side)); [done|apply Hc'|done..| |by destruct side].
    intros j Hj. simpl in HA |- *. rewrite HA, record_at_set_queue. by rewrite decide_False.
Qed.

Lemma no_channel_wakeup_is_lost_witness :
  length (WaitRegistry.entries (cw_waits demo_waiting)) = 1%nat ∧
  ∀ e, e ∈ WaitRegistry.entries (cw_waits demo_waiting) → internal_type (wait_pin e) = DW_OBJECT_TYPE_CHANNEL →
    ∃ s, shows (cw_channels demo_waiting) (wait_object (wait_identity e)) s ∧ Z.land (wait_desired e) s = 0.
Proof.
  split; [vm_compute; reflexivity|].
  apply (no_channel_wakeup_is_lost 2 1 1 1 2 3 6 demo_pool demo_waiting).
  split_and!; [lia|apply demo_pool_empty|apply demo_waiting_reached].
Defined.

(** C32. A channel endpoint whose last reference is gone can always be
    finalized: the call succeeds in every reachable state, the endpoint and
    its inbox are gone, no thread waits on it, and every reference queued for
    it is released, which may raise further finalizations. *)
Theorem channel_finalization_completes depth d wd rd n m k P c f : reached depth d wd rd n m k P c →
  f ∈ cw_finals c → final_type f = DW_OBJECT_TYPE_CHANNEL →
  ∃ st moved, channel_exec depth (FinalizeChannel f) (cw_state c) = Ret st (Finalized, moved) ∧
    f_retired moved = {[+ f +]} ∧ ¬ open st.1.1.1 (final_id f) ∧
    (∀ e, e ∈ WaitRegistry.entries (cw_waits c) → wait_object (wait_identity e) ≠ final_id f) ∧
    ∃ letters, box (mail_of (cw_channels c) (cw_pool c)) (final_id f) = Some letters ∧
      queued_refs (cw_channels c) = batch_refs (letters ≫= snd) ⊎ queued_refs st.1.1.1 ∧
      ledger st.2 (pin_tokens st.1.2 ⊎ queued_refs st.1.1.1 ⊎ (cw_refs c ⊎ f_produced moved))
        (cw_finals c ∖ {[+ f +]} ⊎ f_raised moved).
Proof.
  intros Hr Hf Hty. pose proof (reached_inv _ _ _ _ _ _ _ _ _ Hr) as Hinv.
  pose proof (finalize_channel_kept depth c f Hinv Hf Hty) as Hw. unfold wp in Hw.
  destruct (channel_exec depth (FinalizeChannel f) (cw_state c)) as [[[[A P'] W] reg] [result moved]|? []|]; [|done].
  destruct Hw as (Hres & Hcons & Hret & Hkept & Hno & finalization & Hfin & _). simpl in *. subst result.
  exists (A, P', W, reg), moved. split_and!; [done..| |].
  { intros e He Hobj. refine (contract_final_last (owns:=ledger) _ _ _ _ (si_ledger _ _ Hinv) Hf ReferenceKind.Internal
      (internal_type (wait_pin e)) _).
    rewrite <- Hobj, (proj1 (entry_wf _ _ (si_waits _ _ Hinv) He)).
    by apply waiter_token. }
  destruct (finalized_letters _ c f finalization A P' W Hinv Hfin) as (letters & Hb & Hrefs).
  exists letters. split_and!; [done..|]. pose proof (si_ledger _ _ Hkept) as Hl. unfold cw_tokens in Hl.
  simpl in Hl. by rewrite Hcons, Hret, gmultiset_remove_nothing in Hl.
Qed.

Lemma channel_finalization_completes_witness :
  ∃ st moved, channel_exec 2 (FinalizeChannel {| final_id := demo_second; final_type := DW_OBJECT_TYPE_CHANNEL |})
      (cw_state demo_dying) = Ret st (Finalized, moved) ∧ ¬ open st.1.1.1 demo_second.
Proof.
  destruct (channel_finalization_completes 2 1 1 1 2 3 6 demo_pool demo_dying
    {| final_id := demo_second; final_type := DW_OBJECT_TYPE_CHANNEL |}) as (st & moved & Hex & _ & Hno & _).
  - split_and!; [lia|apply demo_pool_empty|apply demo_dying_reached].
  - unfold demo_dying. unfold without_handle. cbn [cw_finals]. generalize (cw_finals demo_nested). multiset_solver.
  - reflexivity.
  - exists st, moved. exact (conj Hex Hno).
Defined.

(** C35. The search for cycles is exact and always answers: in every reachable
    state, for an endpoint whose peer is open and transfers the caller holds,
    it says whether the peer could be reached through messages queued for the
    transferred endpoints, and it neither fails nor runs out of turns. *)
Theorem cycle_search_is_exact depth d wd rd n m k P c o p transfers : reached depth d wd rd n m k P c →
  link (mail_of (cw_channels c) (cw_pool c)) o = Some p → batch_refs transfers ⊆ cw_refs c →
  ∃ found, transfer_would_close_queue_cycle (endpoint_key o)
      (batch_objects_of_type transfers DW_OBJECT_TYPE_CHANNEL) (cw_channels c) = Ret (cw_channels c) found ∧
    (found = true ↔ would_hold_itself (mail_of (cw_channels c) (cw_pool c)) transfers p).
Proof.
  intros Hr Hlink Hsub. pose proof (reached_inv _ _ _ _ _ _ _ _ _ Hr) as Hinv.
  pose proof (ci_wf _ _ _ _ (si_channels _ _ Hinv)) as Hwf.
  destruct (open_cases (cw_channels c) o Hwf) as [(i & side & Hl)|Hno].
  2:{ by rewrite (proj2 (mail_closed _ _ _ Hwf Hno)) in Hlink. }
  rewrite (link_located _ _ _ _ _ Hwf Hl) in Hlink.
  destruct (located_pair _ _ _ _ Hl) as (slot & record & Hi & Hrec & Hep & _). rewrite Hep in Hlink.
  unfold transfer_would_close_queue_cycle, endpoint_key, mbind, M_bind, get, lift, pair_at, expect, ok_or, mret, M_ret.
  rewrite (locate_located _ _ _ _ Hwf Hl). unfold mbind, M_bind, expect. rewrite Hi. unfold mret, M_ret. rewrite Hrec.
  rewrite Hlink.
  destruct (transfer_closes_queue_cycle_total (cw_channels c) p
    (batch_objects_of_type transfers DW_OBJECT_TYPE_CHANNEL) (cw_channels c) Hwf) as (found & Hf & Hiff).
  - intros x y (kind & Hk)%edge_token. apply (si_open _ _ Hinv). left. exists kind.
    unfold cw_tokens. multiset_solver.
  - intros x (kind & Hk)%batch_object_token. apply (si_open _ _ Hinv). left. exists kind.
    unfold cw_tokens. multiset_solver.
  - exists found. rewrite Hf. split; [done|]. rewrite Hiff. by apply reachable_would_hold.
Qed.

(** The second endpoint would hold itself through the first, whose handle is
    queued for it. *)
Lemma cycle_search_is_exact_witness :
  ∃ found, transfer_would_close_queue_cycle (endpoint_key demo_second)
      (batch_objects_of_type (demo_batch demo_second) DW_OBJECT_TYPE_CHANNEL) (cw_channels demo_nested) =
      Ret (cw_channels demo_nested) found ∧
    (found = true ↔
      would_hold_itself (mail_of (cw_channels demo_nested) (cw_pool demo_nested)) (demo_batch demo_second) demo_first).
Proof.
  apply (cycle_search_is_exact 2 1 1 1 2 3 6 demo_pool demo_nested).
  - split_and!; [lia|apply demo_pool_empty|apply demo_nested_reached].
  - vm_compute. reflexivity.
  - rewrite demo_nested_refs, demo_paired_refs, !demo_batch_refs. unfold tokens_of. simpl. multiset_solver.
Defined.

(** ** Payload slots *)

(** [s] is the first free slot of the small class. *)
Definition first_free_small (P : PayloadPool.t) (i : nat) (s : PayloadSlot) : Prop :=
  PayloadPool.small P !! i = Some s ∧ in_use s = false ∧
  ∀ j s', (j < i)%nat → PayloadPool.small P !! j = Some s' → in_use s' = true.

Lemma allocate_small_worn {E} payload P i s : pool_wf P → first_free_small P i s →
  payload_generation s = 2 ^ 32 - 1 →
  wp (E:=E) (PayloadPool.allocate_small payload) P (λ o P', o = None ∧ P' = P) (λ _ _, False).
Proof.
  intros Hwf (Hs & Hfree & Hbefore) Hworn. unfold PayloadPool.allocate_small. do 3 wp_step.
  apply (wp_loop (λ pre _ st, st = P ∧ (length pre ≤ i)%nat)).
  - split; [done|]. simpl. lia.
  - intros pre j post [] st Hseq [-> Hpre]. apply seq_split_at in Hseq as [-> Hj].
    destruct (lookup_lt_is_Some_2 _ _ Hj) as [s' Hs']. do 3 wp_step. eapply wp_expect; [done|].
    destruct (decide (length pre = i)) as [Heq|Hne].
    + subst i. rewrite Hs in Hs'. injection Hs' as <-. rewrite Hfree.
      rewrite (generation_next s P PayloadClass.Small (length pre)) by done. rewrite decide_True by done.
      by do 2 wp_step.
    + rewrite (Hbefore (length pre) s') by (done || lia). wp_step. split; [done|]. rewrite length_app. simpl. lia.
  - intros [] st [-> Hall]. rewrite length_seq in Hall. apply lookup_lt_Some in Hs. lia.
Qed.

Lemma allocate_large_spent payload P : pool_wf P → class_spent PayloadClass.Large P →
  wp (PayloadPool.allocate_large payload) P (λ _ _, False)
    (λ error P', error = ChannelError.PayloadExhausted ∧ P' = P).
Proof.
  intros Hwf Hsp. unfold PayloadPool.allocate_large. do 3 wp_step. apply (wp_loop (λ _ _ st, st = P)); [done| |].
  - intros pre i post [] st Hseq ->. apply seq_split_at in Hseq as [-> Hi].
    destruct (lookup_lt_is_Some_2 _ _ Hi) as [s Hs]. do 3 wp_step. eapply wp_expect; [done|].
    destruct (Hsp (length pre) s Hs) as [->|Hg]; [by wp_step|].
    destruct (in_use s); [by wp_step|]. rewrite (generation_next s P PayloadClass.Large (length pre)) by done.
    rewrite decide_True by done. by wp_step.
  - intros [] st ->. by wp_step.
Qed.

(** C37. A small slot that has used up its generations hides every free slot
    after it: while it is the first free one and no large slot is to be had,
    a small payload is refused, however many small slots are free. *)
Theorem worn_small_slot_hides_free_slots P i s payload : pool_wf P → first_free_small P i s →
  payload_generation s = 2 ^ 32 - 1 → class_spent PayloadClass.Large P →
  payload ≠ [] → (length payload ≤ SMALL_PAYLOAD_BYTES)%nat →
  PayloadPool.allocate payload P = Fail P ChannelError.PayloadExhausted.
Proof.
  intros Hwf Hfirst Hworn Hsp Hne Hlen.
  assert (wp (PayloadPool.allocate payload) P (λ _ _, False)
    (λ error P', error = ChannelError.PayloadExhausted ∧ P' = P)) as Hw.
  { unfold PayloadPool.allocate. rewrite (proj2 (Nat.eqb_neq (length payload) 0)) by (by destruct payload).
    rewrite (proj2 (Nat.leb_le _ _) Hlen). wp_step. eapply wp_mono; [by eapply allocate_small_worn| |done].
    intros o P' [-> ->]. by apply allocate_large_spent. }
  unfold wp in Hw. destruct (PayloadPool.allocate payload P) as [|P' error|]; [done| |done].
  by destruct Hw as [-> ->].
Qed.

(** One worn small slot before a free one, and one large slot in use. *)
Definition worn_slot (bytes : list Z) : PayloadSlot :=
  {| payload_generation := 2 ^ 32 - 1; in_use := false; payload_bytes := bytes |}.

Definition worn_pool_with (small_bytes large_bytes : list Z) : PayloadPool.t :=
  {| PayloadPool.slots := [{| payload_generation := 1; in_use := true; payload_bytes := large_bytes |}];
     PayloadPool.small := [worn_slot small_bytes;
       {| payload_generation := 0; in_use := false; payload_bytes := small_bytes |}] |}.

Definition worn_pool : PayloadPool.t :=
  worn_pool_with (replicate SMALL_PAYLOAD_BYTES 0) (replicate PAYLOAD_BYTES 0).

Lemma worn_pool_with_wf bs bs' : length bs = SMALL_PAYLOAD_BYTES → length bs' = PAYLOAD_BYTES →
  pool_wf (worn_pool_with bs bs').
Proof.
  intros Hs Hl. split.
  - intros [] [|[|i]] s Hi; injection Hi as <- || done; by split.
  - intros []; simpl; lia.
Qed.

Lemma worn_pool_with_spent bs bs' : class_spent PayloadClass.Large (worn_pool_with bs bs').
Proof. intros [|i] s Hs; [|done]. injection Hs as <-. by left. Qed.

Lemma worn_pool_with_first bs bs' : first_free_small (worn_pool_with bs bs') 0 (worn_slot bs).
Proof. split_and!; [done..|]. intros j s' Hj. lia. Qed.

Lemma worn_small_slot_hides_free_slots_witness :
  PayloadPool.small worn_pool !! 1%nat = Some EMPTY_SMALL_PAYLOAD_SLOT ∧
  PayloadPool.allocate [42] worn_pool = Fail worn_pool ChannelError.PayloadExhausted.
Proof.
  split; [reflexivity|].
  apply (worn_small_slot_hides_free_slots worn_pool 0 (worn_slot (replicate SMALL_PAYLOAD_BYTES 0))).
  - apply worn_pool_with_wf; apply length_replicate.
  - apply worn_pool_with_first.
  - reflexivity.
  - apply worn_pool_with_spent.
  - discriminate.
  - apply Nat.leb_le. reflexivity.
Defined.
