(* ===== verification/ChannelReservations.v ===== *)
(** * Reservations in any order: claims

    Sends and receives are made in two halves, a reservation and its commit
    or cancellation, and many callers may hold reservations at once.  Here the
    halves of all callers interleave freely, with endpoints closing between
    them. *)

From stdpp Require Import base tactics numbers list sets relations gmultiset.
From Stdlib Require Import ZArith Lia.
From S2P Require Import Prelude Abi Object ObjectLedger HandleTable Wait WaitFacts Channel ChannelQueue ChannelFacts ChannelCycle ChannelInvariant ChannelWaits ChannelSend ChannelClose ChannelSystem ChannelTheorems.
Import ChannelAuthority.
Local Open Scope Z_scope.

(** ** The interleaved system *)

Inductive reservation_op : Type :=
| ReserveSend (object : ObjectId) (bytes : list Z)
| CancelSend (r : ChannelSendReservation)
| CommitSend (r : ChannelSendReservation) (transfers : HandleTransferBatch)
| ReserveReceive (object : ObjectId)
| CancelReceive (r : ChannelReceiveReservation)
| ReceiveReserved (r : ChannelReceiveReservation) (output : list Z)
| CloseEndpoint (f : FinalRelease).

Definition sends_spent (o : reservation_op) : list ChannelSendReservation :=
  match o with CancelSend r | CommitSend r _ => [r] | _ => [] end.

Definition receives_spent (o : reservation_op) : list ChannelReceiveReservation :=
  match o with CancelReceive r | ReceiveReserved r _ => [r] | _ => [] end.

(** A call, with the reservations it makes. *)
Definition reservation_exec (o : reservation_op)
    : M (t * PayloadPool.t * WaitRegistry.t) Empty_set
        (list ChannelSendReservation * list ChannelReceiveReservation) :=
  match o with
  | ReserveSend object bytes =>
      result ← on_fst (try (reserve_send {| endpoint_object_id := object |} bytes));
      mret (match result with Ok r => [r] | Err _ => [] end, [])
  | CancelSend r => on_fst (try (cancel_send r));; mret ([], [])
  | CommitSend r transfers => try (commit_send r transfers);; mret ([], [])
  | ReserveReceive object =>
      result ← on_fst (on_fst (try (reserve_receive {| endpoint_object_id := object |})));
      mret ([], match result with Ok r => [r] | Err _ => [] end)
  | CancelReceive r => on_fst (on_fst (try (cancel_receive r)));; mret ([], [])
  | ReceiveReserved r output => try (receive_reserved r output);; mret ([], [])
  | CloseEndpoint f => try (take_finalization f);; mret ([], [])
  end.

Record reservations : Type := {
  rs_channels : ChannelAuthority.t;
  rs_pool : PayloadPool.t;
  rs_waits : WaitRegistry.t;
  rs_sends : list ChannelSendReservation;
  rs_receives : list ChannelReceiveReservation;
}.

Definition rs_state (w : reservations) : t * PayloadPool.t * WaitRegistry.t :=
  (rs_channels w, rs_pool w, rs_waits w).

(** A caller presents a reservation it holds and has not used, and transfers
    at most as many handles as a batch has room for. *)
Definition reservation_admissible (o : reservation_op) (w : reservations)
    (S' : list ChannelSendReservation) (R' : list ChannelReceiveReservation) : Prop :=
  rs_sends w ≡ₚ sends_spent o ++ S' ∧ rs_receives w ≡ₚ receives_spent o ++ R' ∧
  match o with
  | CommitSend _ transfers => (length transfers ≤ HANDLE_TRANSFER_LIMIT)%nat
  | CloseEndpoint f => final_type f = DW_OBJECT_TYPE_CHANNEL
  | _ => True
  end.

(** An endpoint is closed for which a caller still holds a receive
    reservation. *)
Definition closes_under_receiver (o : reservation_op) (w : reservations) : Prop :=
  match o with
  | CloseEndpoint f => ∃ i side, located (rs_channels w) (final_id f) i side ∧ (i, side) ∈ receive_place <$> rs_receives w
  | _ => False
  end.

Inductive reservation_step : reservations → reservations → Prop :=
| reservation_call w o S' R' A P W made_sends made_receives :
    reservation_admissible o w S' R' →
    reservation_exec o (rs_state w) = Ret (A, P, W) (made_sends, made_receives) →
    reservation_step w {| rs_channels := A; rs_pool := P; rs_waits := W;
                          rs_sends := made_sends ++ S'; rs_receives := made_receives ++ R' |}.

(** ** The invariant is kept *)

Lemma channel_inv_perm A P S S' R R' : S ≡ₚ S' → R ≡ₚ R' → channel_inv A P S R → channel_inv A P S' R'.
Proof.
  intros HS HR [Hwf [Hpool Hown Hmsg Hres] [Hsend Hkeys] [Hrecv Hheld Honce] Hac]. split; [done| | | |done].
  - split; [done| |done|].
    + eapply pool_owns_perm; [|exact Hown]. by rewrite HS.
    + intros r. rewrite <- HS. apply Hres.
  - split.
    + intros i side q Hq He. rewrite (Hsend i side q Hq He). unfold issued. by rewrite HS.
    + intros r. rewrite <- HS. apply Hkeys.
  - split.
    + intros r. rewrite <- HR. apply Hrecv.
    + intros i side q g Hq Hg. rewrite <- HR. by eapply Hheld.
    + by rewrite <- HR.
Qed.

Lemma reservation_exec_kept w o S' R' : channel_inv (rs_channels w) (rs_pool w) (rs_sends w) (rs_receives w) →
  reservation_admissible o w S' R' → ¬ closes_under_receiver o w →
  wp (reservation_exec o) (rs_state w)
    (λ made st, channel_inv st.1.1 st.1.2 (made.1 ++ S') (made.2 ++ R')) (λ _ _, False).
Proof.
  intros Hinv (HS & HR & Hadm) Hopen. eapply channel_inv_perm in Hinv; [|exact HS|exact HR].
  destruct o as [object bytes|r|r transfers|object|r|r output|f]; simpl in *; wp_step.
  - apply wp_on_fst, wp_try. eapply wp_mono; [by apply reserve_send_kept| |].
    + intros r [A P] (i & side & _ & _ & _ & _ & Hinv' & _). by wp_step.
    + intros error [A P] (_ & HP & Hinv' & _). simpl in HP. subst P. by wp_step.
  - apply wp_on_fst, wp_try. eapply wp_mono; [by eapply cancel_send_kept| |].
    + intros [] [A P] (Hinv' & _). by wp_step.
    + intros error [A P] (_ & Hinv' & _). by wp_step.
  - apply wp_try. eapply wp_mono; [by eapply commit_send_kept| |].
    + intros b [[A P] W] (HP & _ & Hinv'). simpl in HP. subst P. by wp_step.
    + intros failure [[A P] W] (_ & _ & _ & Hinv' & _). by wp_step.
  - apply wp_on_fst, wp_on_fst, wp_try. eapply wp_mono; [by eapply reserve_receive_kept| |].
    + intros r A [_ Hinv']. by wp_step.
    + intros error A [-> _]. by wp_step.
  - apply wp_on_fst, wp_on_fst, wp_try. eapply wp_mono; [by eapply cancel_receive_kept| |done].
    intros [] A [_ Hinv']. by wp_step.
  - apply wp_try. eapply wp_mono; [by eapply receive_reserved_kept| |].
    + intros result [[A P] W] (_ & _ & Hinv' & _). by wp_step.
    + intros error [[A P] W] (_ & _ & HP & _ & _ & Hinv'). simpl in HP. subst P. by wp_step.
  - apply wp_try. eapply wp_mono; [eapply take_finalization_kept; [done..|]| |].
    + intros i side Hl. rewrite <- HR. intros Hin. apply Hopen. eauto.
    + intros finalization [[A P] W] [_ Hinv']. by wp_step.
    + intros failure st (_ & -> & _). by wp_step.
Qed.

(** A call panics only when it closes an endpoint under its receiver. *)
Lemma reservation_exec_panics w o S' R' : channel_inv (rs_channels w) (rs_pool w) (rs_sends w) (rs_receives w) →
  reservation_admissible o w S' R' → reservation_exec o (rs_state w) = Panic ↔ closes_under_receiver o w.
Proof.
  intros Hinv Hadm. split.
  - intros Hp. destruct o as [| | | | | |f]; try (by destruct (wp_Panic _ _ _ _ (reservation_exec_kept _ _ _ _ Hinv Hadm (λ H, H)) Hp)).
    destruct (locate_cases (rs_channels w) (final_id f) (ci_wf _ _ _ _ Hinv)) as [(i & side & _ & Hl)|[_ Hnone]].
    + destruct (decide ((i, side) ∈ receive_place <$> rs_receives w)) as [Hin|Hni]; [by exists i, side|].
      destruct (wp_Panic _ _ _ _ (reservation_exec_kept _ _ _ _ Hinv Hadm ltac:(
        intros (j & side' & Hl' & Hin'); by destruct (located_once _ (ci_wf _ _ _ _ Hinv) _ _ _ _ _ Hl Hl') as [<- <-])) Hp).
    + destruct (wp_Panic _ _ _ _ (reservation_exec_kept _ _ _ _ Hinv Hadm ltac:(intros (j & side' & Hl' & _); by apply (Hnone j side'))) Hp).
  - destruct o as [| | | | | |f]; try done. intros (i & side & Hl & Hin). destruct Hadm as (_ & _ & Hty).
    unfold reservation_exec, rs_state, mbind, M_bind, try.
    by rewrite (take_finalization_panics _ _ (rs_waits w) _ _ _ _ _ Hinv Hty Hl Hin).
Qed.

Lemma reservation_run_kept w w' :
  channel_inv (rs_channels w) (rs_pool w) (rs_sends w) (rs_receives w) → rtc reservation_step w w' →
  channel_inv (rs_channels w') (rs_pool w') (rs_sends w') (rs_receives w').
Proof.
  intros Hinv Hrun. induction Hrun as [|w1 w2 w3 Hstep _ IH]; [done|]. apply IH.
  destruct Hstep as [w o S' R' A P W made1 made2 Hadm Hex].
  assert (¬ closes_under_receiver o w) as Hopen.
  { intros Hp%(reservation_exec_panics _ _ _ _ Hinv Hadm). congruence. }
  exact (wp_Ret _ _ _ _ _ _ (reservation_exec_kept _ _ _ _ Hinv Hadm Hopen) Hex).
Qed.

(** ** Claims *)

(** The channels of a reachable system, with no reservation held. *)
Definition unreserved (c : channel_world) : reservations :=
  {| rs_channels := cw_channels c; rs_pool := cw_pool c; rs_waits := cw_waits c;
     rs_sends := []; rs_receives := [] |}.

(** C18. However many callers interleave the reserving, committing and
    cancelling of sends and receives, and the closing of endpoints, in any
    order: the payload slots in use are exactly those of queued messages and
    of held send reservations, so none leaks; every open queue has room for
    all the messages reserved for it; no call panics but one, the closing of an
    endpoint for which a receive reservation is still held, which always does;
    and a commit hands back its transfers when it fails and fails only because
    an endpoint was closed or the transfers would close a cycle, never for want
    of room. *)
Theorem reservations_interleave_safely depth d wd rd n m k P c w : reached depth d wd rd n m k P c →
  rtc reservation_step (unreserved c) w →
  pool_owns (rs_pool w) (queued_tokens (rs_channels w) ++ omap send_payload (rs_sends w)) ∧
  (∀ i side q, queue_at (rs_channels w) i side = Some q → is_Some (endpoint_at (rs_channels w) i side) →
     (length (contents q) + length (issued (rs_channels w) (rs_sends w) i side) ≤ ByteQueue.depth q)%nat) ∧
  (∀ o S' R', reservation_admissible o w S' R' →
     reservation_exec o (rs_state w) = Panic ↔ closes_under_receiver o w) ∧
  (∀ r transfers S' R' st error returned, reservation_admissible (CommitSend r transfers) w S' R' →
     commit_send r transfers (rs_state w) = Fail st (error, returned) →
     returned = transfers ∧ commit_refused (rs_channels w) r transfers error).
Proof.
  intros Hr Hrun. pose proof (si_channels _ _ (reached_inv _ _ _ _ _ _ _ _ _ Hr)) as Hc.
  pose proof (reservation_run_kept (unreserved c) w Hc Hrun) as Hinv. split_and!.
  - apply Hinv.
  - intros i side q Hq He. rewrite <- (sh_reserved _ _ (ci_sends _ _ _ _ Hinv) _ _ _ Hq He).
    apply sends_fit. eapply queue_at_wf; [apply Hinv|exact Hq].
  - intros o S' R' Hadm. exact (reservation_exec_panics _ _ _ _ Hinv Hadm).
  - intros r transfers S' R' st error returned (HS & HR & Hlim) Hfail.
    pose proof (commit_send_kept _ _ (rs_waits w) _ _ _ r transfers Hinv HS Hlim) as Hw.
    unfold wp in Hw. unfold rs_state in Hfail. rewrite Hfail in Hw. by destruct Hw as (? & ? & _).
Qed.

Definition reservations_after (o : reservation_op) (S' : list ChannelSendReservation) (w : reservations)
    : reservations :=
  match reservation_exec o (rs_state w) with
  | Ret (A, P, W) (made_sends, made_receives) =>
      {| rs_channels := A; rs_pool := P; rs_waits := W;
         rs_sends := made_sends ++ S'; rs_receives := made_receives ++ rs_receives w |}
  | _ => w
  end.

(** Two senders hold a reservation each, which is all the room there is. *)
Definition demo_one : reservations := reservations_after (ReserveSend demo_first [7; 8]) [] (unreserved demo_paired).
Definition demo_two : reservations := reservations_after (ReserveSend demo_first [9]) (rs_sends demo_one) demo_one.

Lemma reserve_send_step object bytes w :
  channel_inv (rs_channels w) (rs_pool w) (rs_sends w) (rs_receives w) →
  reservation_step w (reservations_after (ReserveSend object bytes) (rs_sends w) w).
Proof.
  intros Hinv. assert (reservation_admissible (ReserveSend object bytes) w (rs_sends w) (rs_receives w)) as Hadm by done.
  pose proof (reservation_exec_kept _ _ _ _ Hinv Hadm (λ H, H)) as Hw. unfold wp in Hw. unfold reservations_after.
  destruct (reservation_exec _ _) as [[[A P] W] [made1 made2]|? []|] eqn:Hex; [|done].
  by eapply reservation_call.
Qed.

Lemma demo_two_reached : rtc reservation_step (unreserved demo_paired) demo_two.
Proof.
  pose proof (si_channels _ _ (demo_reached_inv _ demo_paired_reached)) as Hc.
  assert (rtc reservation_step (unreserved demo_paired) demo_one) as Hone.
  { apply rtc_once. apply (reserve_send_step demo_first [7; 8] (unreserved demo_paired)). exact Hc. }
  eapply rtc_r; [exact Hone|]. apply reserve_send_step. exact (reservation_run_kept (unreserved demo_paired) demo_one Hc Hone).
Qed.

Lemma reservations_interleave_safely_witness :
  length (rs_sends demo_two) = 2%nat ∧
  pool_owns (rs_pool demo_two) (queued_tokens (rs_channels demo_two) ++ omap send_payload (rs_sends demo_two)).
Proof.
  split; [vm_compute; reflexivity|].
  apply (reservations_interleave_safely 2 1 1 1 2 3 6 demo_pool demo_paired demo_two).
  - split_and!; [lia|apply demo_pool_empty|apply demo_paired_reached].
  - apply demo_two_reached.
Defined.
