(* ===== verification/Physical.v ===== *)
(** * Physical ranges and the frame allocator

    [kernel/src/memory/physical.rs]: checked physical ranges, page ranges and
    the first-fit allocator over a fixed array of free page ranges.  The array
    is kept with its length beside it, as in the source; reading, writing or
    slicing it out of range panics, and so does unsigned arithmetic that
    overflows. *)

From stdpp Require Import base tactics numbers list.
From Stdlib Require Import ZArith Lia.
From S2P Require Import Prelude.
Local Open Scope Z_scope.

(** [u64::is_power_of_two] and [u64::is_multiple_of]. *)
Definition is_power_of_two (a : Z) : bool := (0 <? a) && (2 ^ Z.log2 a =? a).
Definition is_multiple_of (a n : Z) : bool := a mod n =? 0.

(** From [abi/generated/deepwyrm_abi.rs]. *)
Definition DW_BOOT_BASE_PAGE_SIZE : Z := 4096.
Definition BASE_PAGE_SIZE : Z := DW_BOOT_BASE_PAGE_SIZE.

Module PhysicalRangeError.
Inductive t : Type := EmptyRange | AddressOverflow | InvalidAddressLimit.
End PhysicalRangeError.

Module PhysicalMemoryError.
Inductive t : Type :=
| InvalidPageRange
| AddressOverflow
| OutsidePhysicalLimit
| CapacityExceeded
| NoFramesAvailable
| InvalidFrame
| DoubleFree.
End PhysicalMemoryError.

(** [?] on an option in a pure function. *)
Definition some_or {A B E} (o : option A) (e : E) (f : A → Result B E) : Result B E :=
  match o with Some a => f a | None => Err e end.

Module PhysicalRange.

Record t : Type := { physical_start : Z; byte_len : Z }.

Definition new (physical_start byte_len : Z) : Result t PhysicalRangeError.t :=
  if byte_len =? 0 then Err PhysicalRangeError.EmptyRange
  else some_or (checked_add 64 physical_start byte_len) PhysicalRangeError.AddressOverflow (λ _,
    Ok {| physical_start := physical_start; byte_len := byte_len |}).

(** [PhysicalRange::end] *)
Definition end_ (self : t) : Result Z PhysicalRangeError.t :=
  some_or (checked_add 64 (physical_start self) (byte_len self)) PhysicalRangeError.AddressOverflow Ok.

Definition contains (self : t) (physical_address : Z) : bool :=
  match end_ self with
  | Ok finish => (physical_start self <=? physical_address) && (physical_address <? finish)
  | Err _ => false
  end.

End PhysicalRange.

Module PageRange.

(** The half-open range from [start] to [end]. *)
Record t : Type := { start : Z; end_ : Z }.

#[export] Instance t_eq_dec : EqDecision t.
Proof. solve_decision. Defined.

Definition empty : t := {| start := 0; end_ := 0 |}.

Definition contains (self other : t) : bool :=
  (start self <=? start other) && (end_ other <=? end_ self).

Definition overlaps (self other : t) : bool :=
  (start self <? end_ other) && (start other <? end_ self).

(** [(self.end - self.start) / BASE_PAGE_SIZE]: [None] when the subtraction
    underflows. *)
Definition page_count (self : t) : option Z :=
  bytes ← checked_sub (end_ self) (start self); Some (bytes / BASE_PAGE_SIZE).

End PageRange.

Module PhysicalAddressLimit.

Record t : Type := { exclusive : Z }.

Definition new (exclusive : Z) : Result t PhysicalRangeError.t :=
  if (exclusive <? BASE_PAGE_SIZE) || negb (is_power_of_two exclusive) || (2 ^ 52 <? exclusive)
  then Err PhysicalRangeError.InvalidAddressLimit
  else Ok {| exclusive := exclusive |}.

Definition from_address_bits (bits : Z) : Result t PhysicalRangeError.t :=
  if negb ((12 <=? bits) && (bits <=? 52)) then Err PhysicalRangeError.InvalidAddressLimit
  else new (Z.shiftl 1 bits).

Definition contains_page_range (self : t) (range : PageRange.t) : bool :=
  PageRange.end_ range <=? exclusive self.

End PhysicalAddressLimit.

(** [PageRange::from_page_count] *)
Definition from_page_count (physical_start page_count : Z) (limit : PhysicalAddressLimit.t)
    : Result PageRange.t PhysicalMemoryError.t :=
  if (page_count =? 0) || negb (is_multiple_of physical_start BASE_PAGE_SIZE)
  then Err PhysicalMemoryError.InvalidPageRange
  else
    some_or (checked_mul 64 page_count BASE_PAGE_SIZE) PhysicalMemoryError.AddressOverflow (λ byte_len,
    some_or (checked_add 64 physical_start byte_len) PhysicalMemoryError.AddressOverflow (λ finish,
    let range := {| PageRange.start := physical_start; PageRange.end_ := finish |} in
    if negb (PhysicalAddressLimit.contains_page_range limit range)
    then Err PhysicalMemoryError.OutsidePhysicalLimit
    else Ok range)).

(** [address & !(BASE_PAGE_SIZE - 1)] *)
Definition page_floor (address : Z) : Z := Z.land address (unot 64 (BASE_PAGE_SIZE - 1)).

(** [PageRange::cover] *)
Definition cover (range : PhysicalRange.t) (limit : PhysicalAddressLimit.t)
    : Result PageRange.t PhysicalMemoryError.t :=
  match PhysicalRange.end_ range with
  | Err _ => Err PhysicalMemoryError.AddressOverflow
  | Ok finish =>
      some_or (checked_add 64 finish (BASE_PAGE_SIZE - 1)) PhysicalMemoryError.AddressOverflow (λ raised,
      let page_range := {| PageRange.start := page_floor (PhysicalRange.physical_start range);
                           PageRange.end_ := page_floor raised |} in
      if PageRange.start page_range =? PageRange.end_ page_range
      then Err PhysicalMemoryError.InvalidPageRange
      else if negb (PhysicalAddressLimit.contains_page_range limit page_range)
      then Err PhysicalMemoryError.OutsidePhysicalLimit
      else Ok page_range)
  end.

Module PhysicalFrameAllocator.

(** [RANGE_CAPACITY] is the length of [initial] and of [free]. *)
Record t : Type := {
  initial : list PageRange.t;
  initial_len : nat;
  free : list PageRange.t;
  free_len : nat;
  limit : PhysicalAddressLimit.t;
}.

Definition set_free (free : list PageRange.t) (free_len : nat) (self : t) : t :=
  {| initial := initial self; initial_len := initial_len self;
     free := free; free_len := free_len; limit := limit self |}.

(** [self.free[index]], [self.free[index] = range] and
    [self.free[..self.free_len]]. *)
Definition read_free {E} (index : nat) : M t E PageRange.t :=
  self ← get;
  expect (free self !! index).

Definition write_free {E} (index : nat) (range : PageRange.t) : M t E unit :=
  self ← get;
  assert_that (index <? length (free self))%nat;;
  modify (set_free (<[index := range]> (free self)) (free_len self)).

Definition slice {S E A} (array : list A) (len : nat) : M S E (list A) :=
  assert_that (len <=? length array)%nat;;
  mret (take len array).

(** [self.free[index].start = start] and [self.free[index].end = finish]. *)
Definition write_start {E} (index : nat) (start : Z) : M t E unit :=
  range ← read_free index;
  write_free index {| PageRange.start := start; PageRange.end_ := PageRange.end_ range |}.

Definition write_end {E} (index : nat) (finish : Z) : M t E unit :=
  range ← read_free index;
  write_free index {| PageRange.start := PageRange.start range; PageRange.end_ := finish |}.

Definition shift_right {E} (index : nat) : M t E unit :=
  self ← get;
  for_each (reverse (seq index (free_len self - index))) (λ position _,
    range ← read_free position;
    write_free (position + 1) range) tt.

Definition remove_free {E} (index : nat) : M t E unit :=
  self ← get;
  last ← expect (if (free_len self =? 0)%nat then None else Some (free_len self - 1)%nat);
  for_each (seq index (last - index)) (λ position _,
    range ← read_free (position + 1);
    write_free position range) tt;;
  modify (λ self, set_free (free self) last self);;
  write_free last PageRange.empty.

Definition validate_candidate (range : PageRange.t) : M t PhysicalMemoryError.t unit :=
  self ← get;
  if (PageRange.end_ range <=? PageRange.start range)
     || negb (is_multiple_of (PageRange.start range) BASE_PAGE_SIZE)
     || negb (is_multiple_of (PageRange.end_ range) BASE_PAGE_SIZE)
  then fail PhysicalMemoryError.InvalidPageRange
  else if negb (PhysicalAddressLimit.contains_page_range (limit self) range)
  then fail PhysicalMemoryError.OutsidePhysicalLimit
  else mret tt.

(** The [while] loop of [subtract].  Every turn brings [index] one closer to
    [free_len]. *)
Fixpoint subtract_from (fuel index : nat) (reservation : PageRange.t) : M t PhysicalMemoryError.t unit :=
  match fuel with
  | O => panic
  | S fuel =>
      self ← get;
      if (free_len self <=? index)%nat then mret tt
      else
        range ← read_free index;
        if negb (PageRange.overlaps range reservation) then subtract_from fuel (index + 1) reservation
        else if (PageRange.start reservation <=? PageRange.start range)
                && (PageRange.end_ range <=? PageRange.end_ reservation)
        then remove_free index;; subtract_from fuel index reservation
        else if (PageRange.start range <? PageRange.start reservation)
                && (PageRange.end_ reservation <? PageRange.end_ range)
        then
          if (free_len self =? length (free self))%nat then fail PhysicalMemoryError.CapacityExceeded
          else
            shift_right (index + 1);;
            write_free index {| PageRange.start := PageRange.start range;
                                PageRange.end_ := PageRange.start reservation |};;
            write_free (index + 1) {| PageRange.start := PageRange.end_ reservation;
                                      PageRange.end_ := PageRange.end_ range |};;
            modify (λ self, set_free (free self) (free_len self + 1) self);;
            subtract_from fuel (index + 2) reservation
        else
          (if PageRange.start reservation <=? PageRange.start range
           then write_start index (PageRange.end_ reservation)
           else write_end index (PageRange.start reservation));;
          subtract_from fuel (index + 1) reservation
  end.

Definition subtract (reservation : PageRange.t) : M t PhysicalMemoryError.t unit :=
  self ← get;
  subtract_from (free_len self + 1) 0 reservation.

(** The [while] loop of [insert_free]. *)
Fixpoint find_insertion {E} (fuel insertion : nat) (start : Z) : M t E nat :=
  match fuel with
  | O => panic
  | S fuel =>
      self ← get;
      if (free_len self <=? insertion)%nat then mret insertion
      else
        range ← read_free insertion;
        if PageRange.start range <? start then find_insertion fuel (insertion + 1) start
        else mret insertion
  end.

Definition insert_free (range : PageRange.t) : M t PhysicalMemoryError.t unit :=
  validate_candidate range;;
  if PageRange.start range =? PageRange.end_ range then mret tt
  else
    self ← get;
    let len := free_len self in
    insertion ← find_insertion (len + 1) 0 (PageRange.start range);
    previous ← (if (0 <? insertion)%nat then r ← read_free (insertion - 1); mret (Some r) else mret None);
    if match previous with
       | Some previous => PageRange.start range <? PageRange.end_ previous
       | None => false
       end
    then fail PhysicalMemoryError.DoubleFree
    else
      next ← (if (insertion <? len)%nat then r ← read_free insertion; mret (Some r) else mret None);
      if match next with
         | Some next => PageRange.start next <? PageRange.end_ range
         | None => false
         end
      then fail PhysicalMemoryError.DoubleFree
      else if match previous with
              | Some previous => PageRange.end_ previous =? PageRange.start range
              | None => false
              end
      then
        write_end (insertion - 1) (PageRange.end_ range);;
        match next with
        | Some next =>
            if PageRange.end_ range =? PageRange.start next
            then write_end (insertion - 1) (PageRange.end_ next);; remove_free insertion
            else mret tt
        | None => mret tt
        end
      else if match next with
              | Some next => PageRange.end_ range =? PageRange.start next
              | None => false
              end
      then write_start insertion (PageRange.start range)
      else if (len =? length (free self))%nat then fail PhysicalMemoryError.CapacityExceeded
      else
        shift_right insertion;;
        write_free insertion range;;
        modify (λ self, set_free (free self) (free_len self + 1) self).

(** [from_candidates], on the allocator it starts from. *)
Definition fill_candidates (candidates : list PageRange.t) (reservations : list PhysicalRange.t)
    : M t PhysicalMemoryError.t unit :=
  for_each candidates (λ candidate _, validate_candidate candidate;; insert_free candidate) tt;;
  subtract {| PageRange.start := 0; PageRange.end_ := BASE_PAGE_SIZE |};;
  self ← get;
  for_each reservations (λ reservation _,
    range ← lift (cover reservation (limit self));
    subtract range) tt;;
  self ← get;
  live ← slice (free self) (free_len self);
  assert_that (free_len self <=? length (initial self))%nat;;
  modify (λ self, {| initial := live ++ drop (free_len self) (initial self); initial_len := free_len self;
                     free := free self; free_len := free_len self; limit := limit self |}).

Definition from_candidates {S} (RANGE_CAPACITY : nat) (candidates : list PageRange.t)
    (limit : PhysicalAddressLimit.t) (reservations : list PhysicalRange.t)
    : M S PhysicalMemoryError.t t := λ s,
  match fill_candidates candidates reservations
          {| initial := replicate RANGE_CAPACITY PageRange.empty; initial_len := 0;
             free := replicate RANGE_CAPACITY PageRange.empty; free_len := 0; limit := limit |} with
  | Ret self _ => Ret s self
  | Fail _ error => Fail s error
  | Panic => Panic
  end.

(** [iter().position(..)] with a predicate whose arithmetic may panic. *)
Fixpoint position {T E A} (f : A → option bool) (xs : list A) : M T E (option nat) :=
  match xs with
  | [] => mret None
  | x :: xs =>
      found ← expect (f x);
      if found : bool then mret (Some 0%nat)
      else rest ← position f xs; mret (S <$> rest)
  end.

(** What [allocate_run] and [allocate_run_below] do once a range is chosen. *)
Definition take_run (index : nat) (byte_len : Z) : M t PhysicalMemoryError.t PageRange.t :=
  range ← read_free index;
  let start := PageRange.start range in
  finish ← ok_or (checked_add 64 start byte_len) PhysicalMemoryError.AddressOverflow;
  write_start index finish;;
  (if finish =? PageRange.end_ range then remove_free index else mret tt);;
  mret {| PageRange.start := start; PageRange.end_ := finish |}.

Definition allocate_run (page_count : Z) : M t PhysicalMemoryError.t PageRange.t :=
  if page_count =? 0 then fail PhysicalMemoryError.InvalidPageRange
  else
    byte_len ← ok_or (checked_mul 64 page_count BASE_PAGE_SIZE) PhysicalMemoryError.AddressOverflow;
    self ← get;
    live ← slice (free self) (free_len self);
    found ← position (λ range,
      available ← checked_sub (PageRange.end_ range) (PageRange.start range);
      Some (byte_len <=? available)) live;
    index ← ok_or found PhysicalMemoryError.NoFramesAvailable;
    take_run index byte_len.

Definition allocate_run_below (page_count exclusive_ceiling : Z)
    : M t PhysicalMemoryError.t PageRange.t :=
  if page_count =? 0 then fail PhysicalMemoryError.InvalidPageRange
  else
    byte_len ← ok_or (checked_mul 64 page_count BASE_PAGE_SIZE) PhysicalMemoryError.AddressOverflow;
    self ← get;
    let ceiling := Z.min exclusive_ceiling (PhysicalAddressLimit.exclusive (limit self)) in
    live ← slice (free self) (free_len self);
    found ← position (λ range,
      Some match checked_sub (Z.min (PageRange.end_ range) ceiling) (PageRange.start range) with
           | Some available => byte_len <=? available
           | None => false
           end) live;
    index ← ok_or found PhysicalMemoryError.NoFramesAvailable;
    take_run index byte_len.

Definition contains_initial {E} (range : PageRange.t) : M t E bool :=
  self ← get;
  ranges ← slice (initial self) (initial_len self);
  mret (existsb (λ initial, PageRange.contains initial range) ranges).

Definition overlaps_initial {E} (range : PageRange.t) : M t E bool :=
  self ← get;
  ranges ← slice (initial self) (initial_len self);
  mret (existsb (λ initial, PageRange.overlaps initial range) ranges).

Definition overlaps_free {E} (range : PageRange.t) : M t E bool :=
  self ← get;
  ranges ← slice (free self) (free_len self);
  mret (existsb (λ free, PageRange.overlaps free range) ranges).

Definition free_run (range : PageRange.t) : M t PhysicalMemoryError.t unit :=
  validate_candidate range;;
  known ← contains_initial range;
  if negb known then fail PhysicalMemoryError.InvalidFrame
  else
    available ← overlaps_free range;
    if (available : bool) then fail PhysicalMemoryError.DoubleFree
    else insert_free range.

(** [fold(0_u64, |total, range| total + range.page_count())] *)
Definition count_frames {S E} (ranges : list PageRange.t) : M S E Z :=
  for_each ranges (λ range total,
    pages ← expect (PageRange.page_count range);
    expect (checked_add 64 total pages)) 0.

Definition available_frames {E} : M t E Z :=
  self ← get;
  ranges ← slice (free self) (free_len self);
  count_frames ranges.

Definition initial_frames {E} : M t E Z :=
  self ← get;
  ranges ← slice (initial self) (initial_len self);
  count_frames ranges.

End PhysicalFrameAllocator.
