(* ===== verification/PhysicalFacts.v ===== *)
(** * The free array as a list

    The allocator keeps its free ranges at the front of a fixed array and
    shifts them by hand.  Each of its array routines is an operation on the
    list of the ranges in use. *)

From stdpp Require Import base tactics numbers list sorting.
From Stdlib Require Import ZArith Lia.
From S2P Require Import Prelude Physical.
Import PhysicalFrameAllocator.

(** [self.free[..self.free_len]] *)
Definition live (a : t) : list PageRange.t := take (free_len a) (free a).

Definition array_ok (a : t) : Prop := (free_len a ≤ length (free a))%nat.

(** The allocator [a] with the free ranges [rs] instead of its own. *)
Record refreed (a : t) (rs : list PageRange.t) (a' : t) : Prop := {
  rf_live : live a' = rs;
  rf_len : free_len a' = length rs;
  rf_capacity : length (free a') = length (free a);
  rf_ok : array_ok a';
  rf_initial : initial a' = initial a;
  rf_initial_len : initial_len a' = initial_len a;
  rf_limit : limit a' = limit a;
}.

Lemma length_live a : array_ok a → length (live a) = free_len a.
Proof. unfold array_ok, live. intros Ha. rewrite length_take. lia. Qed.

Lemma live_lookup a i : (i < free_len a)%nat → live a !! i = free a !! i.
Proof. intros Hi. unfold live. by rewrite lookup_take_lt. Qed.

Lemma refreed_refl a : array_ok a → refreed a (live a) a.
Proof. intros Ha. split; try done. by rewrite length_live. Qed.

Lemma refreed_trans a rs a' rs' a'' : refreed a rs a' → refreed a' rs' a'' → refreed a rs' a''.
Proof. intros [] []. split; congruence. Qed.

(** An array with this content at the front is as good as the list. *)
Lemma refreed_front a xs rs : take (length rs) xs = rs → length xs = length (free a) →
  refreed a rs (set_free xs (length rs) a).
Proof.
  intros Hrs Hlen. split; try done. unfold array_ok. simpl. rewrite <- Hrs, length_take. lia.
Qed.

Section operations.
Context {E : Type}.

Lemma read_free_wp a i r Q (R : E → t → Prop) : array_ok a → live a !! i = Some r → Q r a →
  wp (read_free i) a Q R.
Proof.
  intros Ha Hi HQ. unfold read_free. wp_step. wp_step. eapply wp_expect; [|done].
  pose proof (lookup_lt_Some _ _ _ Hi) as Hlt. rewrite length_live in Hlt by done.
  by rewrite live_lookup in Hi.
Qed.

Lemma write_raw_wp a i r Q (R : E → t → Prop) : (i < length (free a))%nat →
  Q tt (set_free (<[i := r]> (free a)) (free_len a) a) → wp (write_free i r) a Q R.
Proof.
  intros Hi HQ. unfold write_free. do 3 wp_step. apply wp_assert; [by apply Nat.ltb_lt|]. by wp_step.
Qed.

Lemma refreed_write a i r : array_ok a → (i < free_len a)%nat →
  refreed a (<[i := r]> (live a)) (set_free (<[i := r]> (free a)) (free_len a) a).
Proof.
  intros Ha Hi. assert (free_len a = length (<[i := r]> (live a))) as Hlen.
  { by rewrite length_insert, length_live. }
  rewrite Hlen. apply refreed_front; [|by rewrite length_insert]. rewrite <- Hlen.
  unfold live. by rewrite take_insert_lt.
Qed.

Lemma write_free_wp a i r Q (R : E → t → Prop) : array_ok a → (i < free_len a)%nat →
  (∀ a', refreed a (<[i := r]> (live a)) a' → Q tt a') → wp (write_free i r) a Q R.
Proof.
  intros Ha Hi HQ. apply write_raw_wp; [unfold array_ok in Ha; lia|]. by apply HQ, refreed_write.
Qed.

Lemma write_start_wp a i r start Q (R : E → t → Prop) : array_ok a → live a !! i = Some r →
  (∀ a', refreed a (<[i := {| PageRange.start := start; PageRange.end_ := PageRange.end_ r |}]> (live a)) a' →
     Q tt a') →
  wp (write_start i start) a Q R.
Proof.
  intros Ha Hi HQ. unfold write_start. wp_step. eapply read_free_wp; [done..|].
  apply lookup_lt_Some in Hi. rewrite length_live in Hi by done. by apply write_free_wp.
Qed.

Lemma write_end_wp a i r finish Q (R : E → t → Prop) : array_ok a → live a !! i = Some r →
  (∀ a', refreed a (<[i := {| PageRange.start := PageRange.start r; PageRange.end_ := finish |}]> (live a)) a' →
     Q tt a') →
  wp (write_end i finish) a Q R.
Proof.
  intros Ha Hi HQ. unfold write_end. wp_step. eapply read_free_wp; [done..|].
  apply lookup_lt_Some in Hi. rewrite length_live in Hi by done. by apply write_free_wp.
Qed.

(** ** Closing a gap *)

Lemma remove_free_wp a i : array_ok a → (i < free_len a)%nat →
  wp (E:=E) (remove_free i) a (λ _ a', refreed a (delete i (live a)) a') (λ _ _, False).
Proof.
  intros Ha Hi. unfold array_ok in Ha. unfold remove_free. wp_step. wp_step. wp_step.
  eapply wp_expect; [by rewrite (proj2 (Nat.eqb_neq _ _)) by lia|]. wp_step.
  apply (wp_for_each (λ pre _ b, ∃ xs, b = set_free xs (free_len a) a ∧ length xs = length (free a) ∧
    ∀ j, xs !! j = if decide (i ≤ j < i + length pre)%nat then free a !! S j else free a !! j)).
  - exists (free a). split; [by destruct a|]. split; [done|]. intros j. by rewrite decide_False by (simpl; lia).
  - intros pre p post [] b Hseq (xs & -> & Hlen & Hxs). apply seq_split_from in Hseq as [-> Hpre].
    destruct (lookup_lt_is_Some_2 (free a) (i + length pre + 1)) as [r Hr]; [lia|].
    wp_step. unfold read_free. wp_step. wp_step. eapply wp_expect.
    { simpl. rewrite Hxs, decide_False by lia. exact Hr. }
    apply write_raw_wp; [simpl; lia|]. simpl. eexists. split; [done|]. split; [by rewrite length_insert|].
    intros j. rewrite length_app. simpl. destruct (decide (j = i + length pre)%nat) as [->|Hne].
    + rewrite list_lookup_insert_eq by lia. rewrite decide_True by lia. by rewrite Nat.add_1_r in Hr.
    + rewrite list_lookup_insert_ne by done. rewrite Hxs.
      destruct (decide (i ≤ j < i + length pre)%nat); [by rewrite decide_True by lia|by rewrite decide_False by lia].
  - intros [] b (xs & -> & Hlen & Hxs). rewrite length_seq in Hxs. wp_step. wp_step. simpl.
    apply write_raw_wp; [simpl; lia|].
    assert (length (delete i (live a)) = free_len a - 1)%nat as Hdel.
    { rewrite length_delete; [by rewrite length_live|]. apply lookup_lt_is_Some. by rewrite length_live. }
    pose proof (refreed_front a (<[(free_len a - 1)%nat := PageRange.empty]> xs) (delete i (live a))) as Hf.
    rewrite Hdel in Hf. apply Hf; [|by rewrite length_insert]. rewrite take_insert_ge by lia.
    apply list_eq. intros j. destruct (decide (j < free_len a - 1)%nat) as [Hj|Hj].
    + rewrite lookup_take_lt by done. rewrite Hxs. destruct (decide (j < i)%nat).
      * rewrite decide_False by lia. rewrite list_lookup_delete_lt by done. by rewrite live_lookup by lia.
      * rewrite decide_True by lia. rewrite list_lookup_delete_ge by lia. by rewrite live_lookup by lia.
    + rewrite !lookup_ge_None_2; [done|lia|]. rewrite length_take. lia.
Qed.

(** ** Opening a gap *)

Lemma reverse_seq_split i n pre x post : reverse (seq i n) = pre ++ x :: post →
  (x + length pre = i + n - 1)%nat ∧ (length pre < n)%nat.
Proof.
  intros Heq. assert (seq i n = reverse post ++ x :: reverse pre) as Hseq.
  { rewrite <- (reverse_involutive (seq i n)), Heq, reverse_app, reverse_cons. by rewrite <- app_assoc. }
  pose proof (f_equal length Hseq) as Hlen. apply seq_split_from in Hseq as [-> Hlt].
  rewrite length_seq, length_app in Hlen. simpl in Hlen. rewrite !length_reverse in *. lia.
Qed.

(** The array with every range in use from [i] on moved one place up. *)
Definition shifted (a : t) (i : nat) (xs : list PageRange.t) : Prop :=
  length xs = length (free a) ∧
  ∀ j, xs !! j = if decide (i < j ≤ free_len a)%nat then free a !! (j - 1)%nat else free a !! j.

Lemma shift_right_wp a i Q (R : E → t → Prop) : (i ≤ free_len a < length (free a))%nat →
  (∀ xs, shifted a i xs → Q tt (set_free xs (free_len a) a)) → wp (shift_right i) a Q R.
Proof.
  intros [Hi Ha] HQ. unfold shift_right. wp_step. wp_step.
  apply (wp_for_each (λ pre _ b, ∃ xs, b = set_free xs (free_len a) a ∧ length xs = length (free a) ∧
    ∀ j, xs !! j = if decide (free_len a - length pre < j ≤ free_len a)%nat
                   then free a !! (j - 1)%nat else free a !! j)).
  - exists (free a). split; [by destruct a|]. split; [done|]. intros j. by rewrite decide_False by (simpl; lia).
  - intros pre p post [] b Hseq (xs & -> & Hlen & Hxs). apply reverse_seq_split in Hseq as [Hp Hpre].
    destruct (lookup_lt_is_Some_2 (free a) p) as [r Hr]; [lia|].
    wp_step. unfold read_free. wp_step. wp_step. eapply wp_expect.
    { simpl. rewrite Hxs, decide_False by lia. exact Hr. }
    apply write_raw_wp; [simpl; lia|]. simpl. eexists. split; [done|]. split; [by rewrite length_insert|].
    intros j. rewrite length_app. simpl. destruct (decide (j = p + 1)%nat) as [->|Hne].
    + rewrite list_lookup_insert_eq by lia. rewrite decide_True by lia. by rewrite Nat.add_sub.
    + rewrite list_lookup_insert_ne by done. rewrite Hxs.
      destruct (decide (free_len a - length pre < j ≤ free_len a)%nat); [by rewrite decide_True by lia|by rewrite decide_False by lia].
  - intros [] b (xs & -> & Hlen & Hxs). rewrite length_reverse, length_seq in Hxs. apply HQ. split; [done|].
    intros j. rewrite Hxs. destruct (decide (i < j ≤ free_len a)%nat); [by rewrite decide_True by lia|by rewrite decide_False by lia].
Qed.

(** Moving up and writing into the gap inserts. *)
Lemma shifted_insert a i xs r : (i ≤ free_len a < length (free a))%nat → shifted a i xs →
  refreed a (take i (live a) ++ r :: drop i (live a)) (set_free (<[i := r]> xs) (free_len a + 1) a).
Proof.
  intros [Hi Ha] [Hlen Hxs]. assert (array_ok a) as Hok by (unfold array_ok; lia).
  pose proof (length_live a Hok) as Hll. set (rs := take i (live a) ++ r :: drop i (live a)).
  assert (length rs = free_len a + 1)%nat as Hrs.
  { unfold rs. rewrite length_app. simpl. rewrite length_take, length_drop. lia. }
  rewrite <- Hrs. apply refreed_front; [|by rewrite length_insert]. apply list_eq. intros j. rewrite Hrs.
  destruct (decide (j < free_len a + 1)%nat) as [Hj|Hj].
  2:{ rewrite !lookup_ge_None_2; [done|lia|]. rewrite length_take. lia. }
  rewrite lookup_take_lt by done. unfold rs. destruct (decide (j < i)%nat).
  { rewrite list_lookup_insert_ne, Hxs by lia. rewrite decide_False by lia.
    rewrite lookup_app_l by (rewrite length_take; lia). rewrite lookup_take_lt by done. by rewrite live_lookup by lia. }
  rewrite lookup_app_r by (rewrite length_take; lia). rewrite length_take, Nat.min_l by lia.
  destruct (decide (j = i)) as [->|].
  { rewrite Nat.sub_diag, list_lookup_insert_eq by lia. done. }
  rewrite list_lookup_insert_ne, Hxs by done. rewrite decide_True by lia.
  replace (j - i)%nat with (S (j - 1 - i)) by lia. simpl. rewrite lookup_drop.
  replace (i + (j - 1 - i))%nat with (j - 1)%nat by lia. by rewrite live_lookup by lia.
Qed.

End operations.

(** * What the free ranges cover

    The free ranges are whole pages, in order and with a gap between any two,
    so that a run of free frames always lies in one range.  The routines of
    the allocator are specified by the addresses the ranges cover. *)

Import PhysicalFrameAllocator.
Local Open Scope Z_scope.

(** ** Ranges *)

Definition within (r : PageRange.t) (p : Z) : Prop := PageRange.start r ≤ p < PageRange.end_ r.

Definition covers (rs : list PageRange.t) (p : Z) : Prop := ∃ r, r ∈ rs ∧ within r p.

(** A range of one or more whole pages below the limit. *)
Record pages_ok (limit : PhysicalAddressLimit.t) (r : PageRange.t) : Prop := {
  pages_nonempty : PageRange.start r < PageRange.end_ r;
  pages_start : (BASE_PAGE_SIZE | PageRange.start r);
  pages_end : (BASE_PAGE_SIZE | PageRange.end_ r);
  pages_positive : 0 ≤ PageRange.start r;
  pages_limit : PageRange.end_ r ≤ PhysicalAddressLimit.exclusive limit;
}.

Definition before (r r' : PageRange.t) : Prop := PageRange.end_ r < PageRange.start r'.

Record free_wf (limit : PhysicalAddressLimit.t) (rs : list PageRange.t) : Prop := {
  free_pages : Forall (pages_ok limit) rs;
  free_sorted : StronglySorted before rs;
}.

Lemma covers_nil p : ¬ covers [] p.
Proof. by intros (r & ?%elem_of_nil & _). Qed.

Lemma covers_app rs rs' p : covers (rs ++ rs') p ↔ covers rs p ∨ covers rs' p.
Proof. unfold covers. setoid_rewrite elem_of_app. naive_solver. Qed.

Lemma covers_cons r rs p : covers (r :: rs) p ↔ within r p ∨ covers rs p.
Proof. unfold covers. setoid_rewrite elem_of_cons. naive_solver. Qed.

Lemma free_wf_nil limit : free_wf limit [].
Proof. split; constructor. Qed.

Lemma free_wf_app limit rs rs' : free_wf limit (rs ++ rs') ↔
  free_wf limit rs ∧ free_wf limit rs' ∧ ∀ r r', r ∈ rs → r' ∈ rs' → before r r'.
Proof.
  split.
  - intros [[? ?]%Forall_app (? & ? & ?)%StronglySorted_app]. done.
  - intros ([? ?] & [? ?] & ?). split; [by apply Forall_app|by apply StronglySorted_app].
Qed.

Lemma free_wf_cons limit r rs : free_wf limit (r :: rs) ↔
  pages_ok limit r ∧ free_wf limit rs ∧ ∀ r', r' ∈ rs → before r r'.
Proof.
  assert (free_wf limit [r] ↔ pages_ok limit r) as Hone.
  { split; [intros [Hf _]; by inversion Hf|]. intros ?. split.
    - by rewrite Forall_cons, Forall_nil.
    - apply SSorted_cons; [apply SSorted_nil|by rewrite Forall_nil]. }
  change (r :: rs) with ([r] ++ rs). rewrite free_wf_app, Hone. split; intros (? & ? & Hb).
  - split_and!; [done..|]. intros r' Hr'. apply Hb; [by left|done].
  - split_and!; [done..|]. intros x r' ->%list_elem_of_singleton Hr'. by apply Hb.
Qed.

Lemma free_wf_pages limit rs r : free_wf limit rs → r ∈ rs → pages_ok limit r.
Proof. intros [Hall _]. rewrite list.Forall_forall in Hall. apply Hall. Qed.

Lemma overlaps_spec r r' : PageRange.overlaps r r' = true ↔
  PageRange.start r < PageRange.end_ r' ∧ PageRange.start r' < PageRange.end_ r.
Proof. unfold PageRange.overlaps. rewrite andb_true_iff, !Z.ltb_lt. done. Qed.

(** Non-empty ranges overlap when they share an address. *)
Lemma overlaps_within limit limit' r r' : pages_ok limit r → pages_ok limit' r' →
  PageRange.overlaps r r' = true ↔ ∃ p, within r p ∧ within r' p.
Proof.
  intros [] []. rewrite overlaps_spec. unfold within. split.
  - intros [? ?]. exists (Z.max (PageRange.start r) (PageRange.start r')). lia.
  - intros (p & ? & ?). lia.
Qed.

Lemma is_multiple_of_spec a n : 0 < n → is_multiple_of a n = true ↔ (n | a).
Proof. intros Hn. unfold is_multiple_of. rewrite Z.eqb_eq, Z.mod_divide by lia. done. Qed.

Lemma page_size_pos : 0 < BASE_PAGE_SIZE.
Proof. done. Qed.

(** ** Candidates *)

Lemma validate_candidate_wp a r : 0 ≤ PageRange.start r →
  wp (validate_candidate r) a (λ _ a', a' = a ∧ pages_ok (limit a) r)
    (λ error a', a' = a ∧ ¬ pages_ok (limit a) r ∧
       (error = PhysicalMemoryError.InvalidPageRange ∨ error = PhysicalMemoryError.OutsidePhysicalLimit)).
Proof.
  intros H0. unfold validate_candidate, PhysicalAddressLimit.contains_page_range. do 2 wp_step.
  pose proof page_size_pos as Hpos.
  destruct (Z.leb_spec (PageRange.end_ r) (PageRange.start r)) as [Hle|Hlt]; cbn [orb].
  { wp_step. split_and!; [done| |by left]. intros []. lia. }
  destruct (is_multiple_of (PageRange.start r) BASE_PAGE_SIZE) eqn:Hs; cbn [orb negb].
  2:{ wp_step. split_and!; [done| |by left]. intros []. by rewrite (proj2 (is_multiple_of_spec _ _ Hpos)) in Hs. }
  destruct (is_multiple_of (PageRange.end_ r) BASE_PAGE_SIZE) eqn:He; cbn [orb negb].
  2:{ wp_step. split_and!; [done| |by left]. intros []. by rewrite (proj2 (is_multiple_of_spec _ _ Hpos)) in He. }
  destruct (Z.leb_spec (PageRange.end_ r) (PhysicalAddressLimit.exclusive (limit a))) as [Hl|Hl]; cbn [negb].
  - wp_step. split; [done|]. split; try done; by apply is_multiple_of_spec.
  - wp_step. split_and!; [done| |by right]. intros []. lia.
Qed.

(** ** Allocation *)

(** The addresses from [p] on, [len] of them, are free and below [ceiling]. *)
Definition run_free (rs : list PageRange.t) (ceiling p len : Z) : Prop :=
  p + len ≤ ceiling ∧ ∀ x, p ≤ x < p + len → covers rs x.

Lemma sorted_order limit rs i j r r' : free_wf limit rs → rs !! i = Some r → rs !! j = Some r' →
  (i < j)%nat → before r r'.
Proof.
  intros Hwf Hi Hj Hij. rewrite <- (take_drop_middle _ _ _ Hi) in Hwf.
  apply free_wf_app in Hwf as (_ & Hwf & _). apply free_wf_cons in Hwf as (_ & _ & Hb).
  apply Hb. apply list_elem_of_lookup. exists (j - S i)%nat. rewrite lookup_drop. by replace (S i + (j - S i))%nat with j by lia.
Qed.

(** A run of free addresses lies in one range, because ranges do not touch. *)
Lemma run_in_one_range limit rs ceiling p len : free_wf limit rs → 0 < len → run_free rs ceiling p len →
  ∃ i r, rs !! i = Some r ∧ PageRange.start r ≤ p ∧ p + len ≤ PageRange.end_ r.
Proof.
  intros Hwf Hlen [_ Hcov]. destruct (Hcov p) as (r & [i Hi]%list_elem_of_lookup & Hp); [lia|].
  exists i, r. split; [done|]. unfold within in Hp. split; [lia|].
  destruct (decide (p + len ≤ PageRange.end_ r)) as [|Hgt]; [done|]. exfalso.
  destruct (Hcov (PageRange.end_ r)) as (r' & [j Hj]%list_elem_of_lookup & Hend); [lia|]. unfold within in Hend.
  destruct (Nat.lt_trichotomy i j) as [Hlt|[->|Hlt]].
  - pose proof (sorted_order _ _ _ _ _ _ Hwf Hi Hj Hlt) as Hb. unfold before in Hb. lia.
  - rewrite Hi in Hj. injection Hj as <-. lia.
  - pose proof (sorted_order _ _ _ _ _ _ Hwf Hj Hi Hlt) as Hb. unfold before in Hb.
    assert (PageRange.start r < PageRange.end_ r) by (eapply pages_nonempty, free_wf_pages; [done|by eapply list_elem_of_lookup_2]).
    lia.
Qed.

(** The range can hold [len] bytes below [ceiling]. *)
Definition fits (ceiling len : Z) (r : PageRange.t) : bool :=
  PageRange.start r + len <=? Z.min (PageRange.end_ r) ceiling.

(** The first range that fits has the lowest run. *)
Lemma first_fit_lowest limit rs ceiling len : free_wf limit rs → 0 < len →
  match list_find (λ r, fits ceiling len r = true) rs with
  | Some (i, r) => rs !! i = Some r ∧ fits ceiling len r = true ∧
      ∀ p, run_free rs ceiling p len → PageRange.start r ≤ p
  | None => ∀ p, ¬ run_free rs ceiling p len
  end.
Proof.
  intros Hwf Hlen. assert (∀ p, run_free rs ceiling p len → ∃ i r, rs !! i = Some r ∧ PageRange.start r ≤ p ∧
    fits ceiling len r = true) as Hone.
  { intros p Hrun. destruct (run_in_one_range _ _ _ _ _ Hwf Hlen Hrun) as (i & r & Hi & Hs & He).
    exists i, r. split_and!; [done..|]. destruct Hrun as [Hc _]. apply Z.leb_le. lia. }
  destruct (list_find _ rs) as [[i r]|] eqn:Hfind.
  - apply list_find_Some in Hfind as (Hi & Hfit & Hfirst). split_and!; [done..|].
    intros p (j & r' & Hj & Hs & Hfit')%Hone. destruct (Nat.lt_trichotomy j i) as [Hlt|[->|Hlt]].
    + by destruct (Hfirst j r' Hj Hlt).
    + rewrite Hi in Hj. injection Hj as <-. done.
    + pose proof (sorted_order _ _ _ _ _ _ Hwf Hi Hj Hlt) as Hb. unfold before in Hb.
      assert (PageRange.start r < PageRange.end_ r) by (eapply pages_nonempty, free_wf_pages; [done|by eapply list_elem_of_lookup_2]).
      lia.
  - apply list_find_None in Hfind. intros p (j & r' & Hj & _ & Hfit)%Hone.
    rewrite list.Forall_forall in Hfind. apply (Hfind r'); [by eapply list_elem_of_lookup_2|done].
Qed.

Lemma position_wp {T E A} (f : A → option bool) (g : A → bool) xs (s : T) Q (R : E → T → Prop) :
  (∀ x, x ∈ xs → f x = Some (g x)) → Q (fst <$> list_find (λ x, g x = true) xs) s →
  wp (position f xs) s Q R.
Proof.
  revert Q. induction xs as [|x xs IH]; intros Q Hf HQ; simpl in *; [done|].
  wp_step. eapply wp_expect; [apply Hf; by left|]. destruct (g x) eqn:Hg.
  - rewrite decide_True in HQ by done. by wp_step.
  - rewrite decide_False in HQ by done. wp_step. apply IH; [intros y Hy; apply Hf; by right|]. wp_step.
    destruct (list_find _ xs) as [[i y]|]; done.
Qed.

Lemma slice_wp {T E A} (array : list A) len (s : T) Q (R : E → T → Prop) :
  (len ≤ length array)%nat → Q (take len array) s → wp (slice array len) s Q R.
Proof. intros Hlen HQ. unfold slice. wp_step. apply wp_assert; [by apply Nat.leb_le|]. by wp_step. Qed.

(** What [PhysicalAddressLimit::new] guarantees. *)
Definition limit_ok (limit : PhysicalAddressLimit.t) : Prop :=
  BASE_PAGE_SIZE ≤ PhysicalAddressLimit.exclusive limit ≤ 2 ^ 52.

Record alloc_wf (a : t) : Prop := {
  aw_array : array_ok a;
  aw_free : free_wf (limit a) (live a);
  aw_limit : limit_ok (limit a);
}.

(** The allocator [a'] is [a] with the free addresses [cov]. *)
Record recovers (a : t) (cov : Z → Prop) (a' : t) : Prop := {
  rc_refreed : refreed a (live a') a';
  rc_free : free_wf (limit a) (live a');
  rc_covers p : covers (live a') p ↔ cov p;
}.

Lemma recovers_wf a cov a' : alloc_wf a → recovers a cov a' → alloc_wf a'.
Proof. intros [Ha Hf Hl] [Hre Hf' _]. split; [apply Hre|by rewrite (rf_limit _ _ _ Hre)..]. Qed.

Lemma recovers_refreed a rs a' (cov : Z → Prop) : refreed a rs a' → free_wf (limit a) rs →
  (∀ p, covers rs p ↔ cov p) → recovers a cov a'.
Proof. intros Hre Hf Hc. pose proof (rf_live _ _ _ Hre) as Hl. by split; rewrite Hl. Qed.

Lemma recovers_trans a cov a' cov' a'' : recovers a cov a' → recovers a' cov' a'' → recovers a cov' a''.
Proof.
  intros [Hre Hf Hc] [Hre' Hf' Hc']. split; [by eapply refreed_trans| |done].
  by rewrite (rf_limit _ _ _ Hre) in Hf'.
Qed.

Lemma recovers_iff a (cov cov' : Z → Prop) a' : (∀ p, cov p ↔ cov' p) → recovers a cov a' → recovers a cov' a'.
Proof. intros Hiff [Hre Hf Hc]. split; [done..|]. intros p. by rewrite Hc. Qed.

(** Only the range itself covers what lies in it. *)
Lemma covered_once limit front r back p : free_wf limit (front ++ r :: back) → within r p →
  ¬ covers front p ∧ ¬ covers back p.
Proof.
  intros (_ & Hb & Hf)%free_wf_app Hp. apply free_wf_cons in Hb as (_ & _ & Hb). unfold within, before in *.
  split; intros (x & Hx & Hxp).
  - specialize (Hf x r Hx ltac:(by left)). unfold within in Hxp. lia.
  - specialize (Hb x Hx). unfold within in Hxp. lia.
Qed.

(** A range may be replaced by ranges inside it. *)
Lemma replace_range limit front r back mid : free_wf limit (front ++ r :: back) → free_wf limit mid →
  (∀ m, m ∈ mid → PageRange.start r ≤ PageRange.start m ∧ PageRange.end_ m ≤ PageRange.end_ r) →
  free_wf limit (front ++ mid ++ back).
Proof.
  intros (Hfront & Hb & Hf)%free_wf_app Hmid Hin. apply free_wf_cons in Hb as (_ & Hback & Hb).
  apply free_wf_app. split; [done|]. split.
  - apply free_wf_app. split; [done|]. split; [done|]. intros m y Hm Hy.
    specialize (Hb y Hy). specialize (Hin m Hm). unfold before in *. lia.
  - intros x y Hx [Hy|Hy]%elem_of_app.
    + specialize (Hf x r Hx ltac:(by left)). specialize (Hin y Hy). unfold before in *. lia.
    + apply Hf; [done|by right].
Qed.

Lemma cut_range limit front r back mid (cut : Z → Prop) p : free_wf limit (front ++ r :: back) →
  (∀ p, covers mid p ↔ within r p ∧ ¬ cut p) → (∀ p, cut p → within r p) →
  covers (front ++ mid ++ back) p ↔ covers (front ++ r :: back) p ∧ ¬ cut p.
Proof.
  intros Hwf Hmid Hcut. pose proof (covered_once _ _ _ _ p Hwf) as Hon. specialize (Hcut p).
  rewrite !covers_app, covers_cons, Hmid. tauto.
Qed.

Lemma covers_one r p : covers [r] p ↔ within r p.
Proof. rewrite covers_cons. split; [intros [?|[]%covers_nil]; done|by left]. Qed.

Lemma free_wf_one limit r : pages_ok limit r → free_wf limit [r].
Proof. intros Hr. apply free_wf_cons. split; [done|]. split; [apply free_wf_nil|by intros ? ?%elem_of_nil]. Qed.

Lemma take_run_wp a i r len : alloc_wf a → live a !! i = Some r → 0 < len → (BASE_PAGE_SIZE | len) →
  PageRange.start r + len ≤ PageRange.end_ r →
  let run := {| PageRange.start := PageRange.start r; PageRange.end_ := PageRange.start r + len |} in
  wp (take_run i len) a
    (λ run' a', run' = run ∧ recovers a (λ p, covers (live a) p ∧ ¬ within run p) a') (λ _ _, False).
Proof.
  intros [Ha Hf [_ Hl]] Hi Hpos Hdiv Hle run.
  assert (pages_ok (limit a) r) as [Hr1 Hr2 Hr3 Hr4 Hr5] by (eapply free_wf_pages; [done|by eapply list_elem_of_lookup_2]).
  pose proof (take_drop_middle _ _ _ Hi) as Hsplit. pose proof Hf as Hf'. rewrite <- Hsplit in Hf'.
  unfold take_run. wp_step. eapply read_free_wp; [done..|]. cbv zeta. wp_step.
  assert (2 ^ 52 < 2 ^ 64) by done. unfold checked_add. rewrite (proj2 (Z.ltb_lt _ _)) by lia.
  apply wp_ok_or. wp_step. eapply write_start_wp; [done..|]. intros a1 Hre1. wp_step.
  pose proof (lookup_lt_Some _ _ _ Hi) as Hlt.
  set (r' := {| PageRange.start := PageRange.start r + len; PageRange.end_ := PageRange.end_ r |}) in *.
  assert (∀ mid a', refreed a (take i (live a) ++ mid ++ drop (S i) (live a)) a' → free_wf (limit a) mid →
    (∀ m, m ∈ mid → PageRange.start r ≤ PageRange.start m ∧ PageRange.end_ m ≤ PageRange.end_ r) →
    (∀ p, covers mid p ↔ within r p ∧ ¬ within run p) →
    recovers a (λ p, covers (live a) p ∧ ¬ within run p) a') as Hdone.
  { intros mid a' Hre Hmid Hin Hcov. eapply recovers_refreed; [exact Hre|by eapply replace_range|].
    intros p. rewrite <- Hsplit at 3. eapply cut_range; [done..|]. unfold within, run. simpl. lia. }
  destruct (Z.eqb_spec (PageRange.start r + len) (PageRange.end_ r)) as [Heq|Hne].
  - assert (i < free_len a1)%nat as Hi1 by (by rewrite (rf_len _ _ _ Hre1), length_insert).
    eapply wp_mono; [apply remove_free_wp; [apply Hre1|done]| |done]. intros [] a2 Hre2. wp_step. split; [done|].
    rewrite (rf_live _ _ _ Hre1), delete_take_drop, take_insert_ge, drop_insert_lt in Hre2 by lia.
    apply (Hdone [] a2); [by eapply refreed_trans|apply free_wf_nil|by intros m ?%elem_of_nil|].
    intros p. pose proof (covers_nil p). unfold within, run. simpl. rewrite Heq. tauto.
  - wp_step. wp_step. split; [done|]. rewrite insert_take_drop in Hre1 by done.
    apply (Hdone [r'] a1); [exact Hre1| |intros m ->%list_elem_of_singleton; simpl; lia|].
    + apply free_wf_one. split; simpl; try done; try lia. by apply Z.divide_add_r.
    + intros p. rewrite covers_one. unfold within, run, r'. simpl. lia.
Qed.

(** The lowest run of [n] free pages below [ceiling] is taken. *)
Record first_run (a : t) (ceiling n : Z) (run : PageRange.t) (a' : t) : Prop := {
  run_length : PageRange.end_ run = PageRange.start run + n * BASE_PAGE_SIZE;
  run_pages : pages_ok (limit a) run;
  run_was_free : run_free (live a) ceiling (PageRange.start run) (n * BASE_PAGE_SIZE);
  run_lowest p : run_free (live a) ceiling p (n * BASE_PAGE_SIZE) → PageRange.start run ≤ p;
  run_taken : recovers a (λ p, covers (live a) p ∧ ¬ within run p) a';
}.

(** Why no run is taken. *)
Definition no_run (a : t) (ceiling n : Z) (error : PhysicalMemoryError.t) : Prop :=
  match error with
  | PhysicalMemoryError.InvalidPageRange => n = 0
  | PhysicalMemoryError.AddressOverflow => 2 ^ 64 ≤ n * BASE_PAGE_SIZE
  | PhysicalMemoryError.NoFramesAvailable => ∀ p, ¬ run_free (live a) ceiling p (n * BASE_PAGE_SIZE)
  | _ => False
  end.

Lemma choose_run_wp a ceiling n : alloc_wf a → 0 < n →
  wp (index ← ok_or (fst <$> list_find (λ r, fits ceiling (n * BASE_PAGE_SIZE) r = true) (live a))
                PhysicalMemoryError.NoFramesAvailable;
      take_run index (n * BASE_PAGE_SIZE)) a
    (λ run a', first_run a ceiling n run a') (λ error a', a' = a ∧ no_run a ceiling n error).
Proof.
  intros Hwf Hn. set (len := n * BASE_PAGE_SIZE).
  assert (0 < len) as Hlen by (pose proof page_size_pos; unfold len; lia).
  pose proof (first_fit_lowest _ _ ceiling len (aw_free _ Hwf) Hlen) as Hfirst.
  destruct (list_find _ (live a)) as [[i r]|]; wp_step; apply wp_ok_or; simpl; [|done].
  destruct Hfirst as (Hi & Hfit & Hlow). unfold fits in Hfit. rewrite Z.leb_le in Hfit.
  eapply wp_mono; [apply (take_run_wp a i r len Hwf Hi Hlen); [by apply Z.divide_factor_r|lia]| |done].
  intros run a' [-> Hrc].
  assert (pages_ok (limit a) r) as [Hr1 Hr2 Hr3 Hr4 Hr5].
  { eapply free_wf_pages; [apply Hwf|by eapply list_elem_of_lookup_2]. }
  split; try done; simpl.
  - split; simpl; [lia|done| |done|lia]. apply Z.divide_add_r; [done|]. by apply Z.divide_factor_r.
  - fold len. split; [lia|]. intros x Hx. exists r. split; [by eapply list_elem_of_lookup_2|]. unfold within. lia.
Qed.

Lemma byte_len_wp {T} n (s : T) Q R : 0 ≤ n →
  (n = 0 → R PhysicalMemoryError.InvalidPageRange s) →
  (2 ^ 64 ≤ n * BASE_PAGE_SIZE → R PhysicalMemoryError.AddressOverflow s) →
  ∀ (rest : Z → M T PhysicalMemoryError.t PageRange.t),
  (0 < n → wp (rest (n * BASE_PAGE_SIZE)) s Q R) →
  wp (if n =? 0 then fail PhysicalMemoryError.InvalidPageRange
      else byte_len ← ok_or (checked_mul 64 n BASE_PAGE_SIZE) PhysicalMemoryError.AddressOverflow;
           rest byte_len) s Q R.
Proof.
  intros Hn H0 Hover rest Hrest. destruct (Z.eqb_spec n 0) as [->|Hne]; [by apply wp_fail, H0|].
  wp_step. unfold checked_mul. destruct (Z.ltb_spec (n * BASE_PAGE_SIZE) (2 ^ 64)); apply wp_ok_or.
  - apply Hrest. lia.
  - by apply Hover.
Qed.

Lemma allocate_run_wp a n : alloc_wf a → 0 ≤ n →
  let ceiling := PhysicalAddressLimit.exclusive (limit a) in
  wp (allocate_run n) a (λ run a', first_run a ceiling n run a') (λ error a', a' = a ∧ no_run a ceiling n error).
Proof.
  intros Hwf Hn ceiling. unfold allocate_run. apply byte_len_wp; [done..|]. intros Hpos.
  do 3 wp_step. apply slice_wp; [apply Hwf|]. fold (live a). wp_step.
  apply (position_wp _ (fits ceiling (n * BASE_PAGE_SIZE))); [|by apply choose_run_wp].
  intros r Hr. assert (pages_ok (limit a) r) as [] by (eapply free_wf_pages; [apply Hwf|done]).
  unfold checked_sub, fits. rewrite (proj2 (Z.leb_le _ _)) by lia. simpl. f_equal. apply eq_bool_prop_intro.
  rewrite !Is_true_true, !Z.leb_le. unfold ceiling. lia.
Qed.

Lemma allocate_run_below_wp a n exclusive_ceiling : alloc_wf a → 0 ≤ n →
  let ceiling := Z.min exclusive_ceiling (PhysicalAddressLimit.exclusive (limit a)) in
  wp (allocate_run_below n exclusive_ceiling) a (λ run a', first_run a ceiling n run a')
    (λ error a', a' = a ∧ no_run a ceiling n error).
Proof.
  intros Hwf Hn ceiling. unfold allocate_run_below. apply byte_len_wp; [done..|]. intros Hpos.
  do 2 wp_step. cbv zeta. fold ceiling. wp_step. apply slice_wp; [apply Hwf|]. fold (live a). wp_step.
  apply (position_wp _ (fits ceiling (n * BASE_PAGE_SIZE))); [|by apply choose_run_wp].
  intros r Hr. f_equal. unfold checked_sub, fits. pose proof page_size_pos.
  destruct (Z.leb_spec (PageRange.start r) (Z.min (PageRange.end_ r) ceiling)).
  - apply eq_bool_prop_intro. rewrite !Is_true_true, !Z.leb_le. lia.
  - symmetry. apply Z.leb_gt. nia.
Qed.
