(* ===== verification/PhysicalUpdates.v ===== *)
(** * Returning and reserving physical ranges

    [insert_free] adds a range and merges it with the free ranges it touches;
    [subtract] cuts a reservation out of all free ranges.  Both keep the free
    ranges in order and apart, and change exactly the addresses asked for. *)

From stdpp Require Import base tactics numbers list sorting.
From Stdlib Require Import ZArith Lia.
From S2P Require Import Prelude Physical PhysicalFacts.
Import PhysicalFrameAllocator.
Local Open Scope Z_scope.

Lemma insert_here {A} (f : list A) y z b : <[length f := z]> (f ++ y :: b) = f ++ z :: b.
Proof. induction f; simpl; [done|by f_equal]. Qed.

Lemma delete_here {A} (f : list A) y b : delete (length f) (f ++ y :: b) = f ++ b.
Proof. induction f; simpl; [done|by f_equal]. Qed.

Lemma delete_next {A} (f : list A) x y b : delete (S (length f)) (f ++ x :: y :: b) = f ++ x :: b.
Proof. induction f; simpl; [done|by f_equal]. Qed.

Lemma lookup_here {A} (f : list A) y b : (f ++ y :: b) !! length f = Some y.
Proof. by rewrite list_lookup_middle. Qed.

Lemma live_bound a f b : array_ok a → live a = f ++ b → free_len a = (length f + length b)%nat.
Proof. intros Ha Hl. by rewrite <- length_live, Hl, length_app. Qed.

(** ** Insertion *)

(** The ranges [mid] and the range [x] are replaced by their union [m]. *)
Lemma glue_recovers a a' f mid b m x : alloc_wf a → live a = f ++ mid ++ b →
  refreed a (f ++ m :: b) a' → pages_ok (limit a) m → (∀ r, r ∈ f → before r m) → (∀ r, r ∈ b → before m r) →
  (∀ p, within m p ↔ covers mid p ∨ within x p) →
  recovers a (λ p, covers (live a) p ∨ within x p) a' ∧ (length (live a') ≤ length (live a) + 1)%nat.
Proof.
  intros [_ Hf _] Hlive Hre Hm Hfront Hback Hcov. rewrite Hlive in Hf.
  split; [|rewrite (rf_live _ _ _ Hre), Hlive, !length_app; simpl; lia].
  apply free_wf_app in Hf as (Hwf & Hmb & Hsep). apply free_wf_app in Hmb as (_ & Hwb & _).
  eapply recovers_refreed; [done| |].
  - apply free_wf_app. split_and!; [done|by apply free_wf_cons|]. intros r r' Hr [->|Hr']%elem_of_cons; [by apply Hfront|].
    apply Hsep; [done|]. apply elem_of_app. by right.
  - intros p. rewrite Hlive, !covers_app, covers_cons, Hcov. tauto.
Qed.

Lemma before_last limit f pr s : free_wf limit (f ++ [pr]) → PageRange.end_ pr < s →
  ∀ r, r ∈ f ++ [pr] → PageRange.end_ r < s.
Proof.
  intros (_ & Hp & Hsep)%free_wf_app Hlt r [Hr| ->%list_elem_of_singleton]%elem_of_app; [|done].
  specialize (Hsep r pr Hr ltac:(by left)). unfold before in Hsep.
  apply free_wf_cons in Hp as ([] & _). lia.
Qed.

Lemma before_head limit nx b s : free_wf limit (nx :: b) → s < PageRange.start nx →
  ∀ r, r ∈ nx :: b → s < PageRange.start r.
Proof.
  intros ([] & _ & Hsep)%free_wf_cons Hlt r [->|Hr]%elem_of_cons; [done|].
  specialize (Hsep r Hr). unfold before in Hsep. lia.
Qed.

(** The ranges of [f] start before [s], those of [b] do not. *)
Definition splits_at (a : t) (s : Z) (i : nat) (f b : list PageRange.t) : Prop :=
  live a = f ++ b ∧ length f = i ∧ Forall (λ r, PageRange.start r < s) f ∧
  match b with [] => True | nx :: _ => s ≤ PageRange.start nx end.

Lemma find_insertion_wp {E} a s fuel i Q (R : E → t → Prop) : array_ok a →
  (free_len a - i < fuel)%nat → (i ≤ free_len a)%nat → Forall (λ r, PageRange.start r < s) (take i (live a)) →
  (∀ j f b, splits_at a s j f b → Q j a) → wp (find_insertion fuel i s) a Q R.
Proof.
  intros Ha. pose proof (length_live a Ha) as Hlen. revert i.
  induction fuel as [|fuel IH]; intros i Hfuel Hi Hbefore HQ; [lia|]. simpl. do 2 wp_step.
  destruct (Nat.leb_spec (free_len a) i) as [Hle|Hlt].
  { wp_step. apply (HQ _ (live a) []). split_and!; [by rewrite app_nil_r|lia| |done].
    by rewrite take_ge in Hbefore by lia. }
  destruct (lookup_lt_is_Some_2 (live a) i) as [r Hr]; [lia|].
  wp_step. eapply read_free_wp; [done..|]. destruct (Z.ltb_spec (PageRange.start r) s) as [Hs|Hs].
  - apply IH; [lia..| |done]. rewrite Nat.add_1_r, (take_S_r _ _ _ Hr). by apply Forall_app_2; [|apply Forall_singleton].
  - wp_step. apply (HQ _ (take i (live a)) (drop i (live a))).
    split_and!; [by rewrite take_drop|rewrite length_take; lia|done|by rewrite (drop_S _ _ _ Hr)].
Qed.

(** Reading the neighbours of the insertion point. *)
Lemma read_previous_wp {E} a f b Q (R : E → t → Prop) : array_ok a → live a = f ++ b → Q (last f) a →
  wp (if (0 <? length f)%nat then r ← read_free (length f - 1); mret (Some r) else mret None) a Q R.
Proof.
  intros Ha Hlive HQ. destruct f as [|pr f _] using rev_ind; [by wp_step|].
  rewrite last_snoc in HQ. rewrite length_app. simpl. rewrite (proj2 (Nat.ltb_lt _ _)) by lia.
  wp_step. eapply read_free_wp; [done| |by wp_step].
  rewrite Hlive, <- app_assoc. replace (length f + 1 - 1)%nat with (length f) by lia. apply lookup_here.
Qed.

Lemma read_next_wp {E} a f b Q (R : E → t → Prop) : array_ok a → live a = f ++ b → Q (head b) a →
  wp (if (length f <? free_len a)%nat then r ← read_free (length f); mret (Some r) else mret None) a Q R.
Proof.
  intros Ha Hlive HQ. rewrite (live_bound _ _ _ Ha Hlive). destruct b as [|nx b]; simpl.
  - rewrite (proj2 (Nat.ltb_ge _ _)) by lia. by wp_step.
  - rewrite (proj2 (Nat.ltb_lt _ _)) by lia. wp_step. eapply read_free_wp; [done| |by wp_step].
    rewrite Hlive. apply lookup_here.
Qed.

Section insertion.
Context (a : t) (x : PageRange.t) (Hwf : alloc_wf a) (Hx : pages_ok (limit a) x).

Let joined (a' : t) : Prop :=
  recovers a (λ p, covers (live a) p ∨ within x p) a' ∧ (length (live a') ≤ length (live a) + 1)%nat.

Lemma join_previous_wp {E} f pr b (R : E → t → Prop) : live a = (f ++ [pr]) ++ b →
  PageRange.end_ pr = PageRange.start x →
  match head b with Some nx => PageRange.end_ x ≤ PageRange.start nx | None => True end →
  wp (write_end (length (f ++ [pr]) - 1) (PageRange.end_ x);;
      match head b with
      | Some next =>
          if PageRange.end_ x =? PageRange.start next
          then write_end (length (f ++ [pr]) - 1) (PageRange.end_ next);; remove_free (length (f ++ [pr]))
          else mret tt
      | None => mret tt
      end) a (λ _ a', joined a') R.
Proof.
  intros Hlive Htouch Hnext. assert (length (f ++ [pr]) = S (length f)) as Hl by (rewrite length_app; simpl; lia).
  rewrite Hl. simpl. rewrite Nat.sub_0_r. rewrite <- app_assoc in Hlive. simpl in Hlive.
  pose proof (aw_array _ Hwf) as Ha. pose proof (aw_free _ Hwf) as Hf. rewrite Hlive in Hf.
  apply free_wf_app in Hf as (_ & Hf & Hfront). apply free_wf_cons in Hf as ([] & Hb & Hback). destruct Hx.
  wp_step. eapply write_end_wp; [done|by rewrite Hlive; apply lookup_here|]. intros a1 Hre1.
  rewrite Hlive, insert_here in Hre1.
  assert (∀ r m, r ∈ f → PageRange.start m = PageRange.start pr → before r m) as Hbef.
  { intros r m Hr Hm. specialize (Hfront r pr Hr ltac:(by left)). unfold before in *. lia. }
  assert ((∀ r, r ∈ b → PageRange.end_ x < PageRange.start r) → joined a1) as Hdone.
  { intros Hafter. eapply (glue_recovers a a1 f [pr] b); [done..| | | |]; simpl.
    - by split; simpl; try done; lia.
    - intros r Hr. by apply Hbef.
    - intros r Hr. by apply Hafter.
    - intros p. rewrite covers_one. unfold within. simpl. lia. }
  destruct b as [|nx b]; simpl in *; [wp_step; apply Hdone; by intros r ?%elem_of_nil|].
  destruct (Z.eqb_spec (PageRange.end_ x) (PageRange.start nx)) as [Heq|Hne].
  2:{ wp_step. apply Hdone. eapply before_head; [done|lia]. }
  wp_step. eapply write_end_wp; [apply Hre1|rewrite (rf_live _ _ _ Hre1); apply lookup_here|]. intros a2 Hre2.
  rewrite (rf_live _ _ _ Hre1), insert_here in Hre2. simpl in Hre2.
  eapply wp_mono; [apply remove_free_wp; [apply Hre2|]| |done].
  { rewrite (rf_len _ _ _ Hre2), length_app. simpl. lia. }
  intros [] a3 Hre3. rewrite (rf_live _ _ _ Hre2) in Hre3.
  rewrite delete_next in Hre3.
  pose proof (refreed_trans _ _ _ _ _ Hre1 (refreed_trans _ _ _ _ _ Hre2 Hre3)) as Hre.
  apply free_wf_cons in Hb as ([] & _ & Hafter).
  eapply (glue_recovers a a3 f [pr; nx] b); [done..| | | |]; simpl.
  - by split; simpl; try done; lia.
  - intros r Hr. by apply Hbef.
  - intros r Hr. by apply Hafter.
  - intros p. rewrite covers_cons, covers_one. unfold within. simpl. lia.
Qed.

Lemma join_next_wp {E} f nx b (R : E → t → Prop) : live a = f ++ nx :: b →
  PageRange.end_ x = PageRange.start nx → (∀ r, r ∈ f → before r x) →
  wp (write_start (length f) (PageRange.start x)) a (λ _ a', joined a') R.
Proof.
  intros Hlive Htouch Hbef. pose proof (aw_free _ Hwf) as Hf. rewrite Hlive in Hf.
  apply free_wf_app in Hf as (_ & Hf & _). apply free_wf_cons in Hf as ([] & _ & Hback). destruct Hx.
  eapply write_start_wp; [apply Hwf|by rewrite Hlive; apply lookup_here|]. intros a1 Hre1.
  rewrite Hlive, insert_here in Hre1.
  eapply (glue_recovers a a1 f [nx] b); [done..| | | |]; simpl.
  - by split; simpl; try done; lia.
  - intros r Hr. by apply Hbef.
  - intros r Hr. by apply Hback.
  - intros p. rewrite covers_one. unfold within. simpl. lia.
Qed.

Lemma insert_apart_wp {E} f b (R : E → t → Prop) : live a = f ++ b → (free_len a < length (free a))%nat →
  (∀ r, r ∈ f → before r x) → (∀ r, r ∈ b → before x r) →
  wp (shift_right (length f);; write_free (length f) x;;
      modify (λ self, set_free (free self) (free_len self + 1) self)) a (λ _ a', joined a') R.
Proof.
  intros Hlive Hroom Hbef Haft. pose proof (live_bound _ _ _ (aw_array _ Hwf) Hlive) as Hlen.
  wp_step. apply shift_right_wp; [lia|]. intros xs Hxs.
  pose proof (shifted_insert a (length f) xs x ltac:(lia) Hxs) as Hre.
  wp_step. apply write_raw_wp; [simpl; rewrite (proj1 Hxs); lia|]. wp_step. simpl.
  rewrite Hlive, take_app_length, drop_app_length in Hre.
  eapply (glue_recovers a _ f [] b x); [done|done|exact Hre|done..|].
  intros p. pose proof (covers_nil p). tauto.
Qed.
End insertion.

(** Why a range is not inserted. *)
Definition no_insertion (a : t) (x : PageRange.t) (error : PhysicalMemoryError.t) : Prop :=
  match error with
  | PhysicalMemoryError.InvalidPageRange | PhysicalMemoryError.OutsidePhysicalLimit => ¬ pages_ok (limit a) x
  | PhysicalMemoryError.DoubleFree => pages_ok (limit a) x ∧ ∃ p, covers (live a) p ∧ within x p
  | PhysicalMemoryError.CapacityExceeded => pages_ok (limit a) x ∧ length (live a) = length (free a) ∧
      ∀ r, r ∈ live a → before r x ∨ before x r
  | _ => False
  end.

Lemma insert_free_wp a x : alloc_wf a → 0 ≤ PageRange.start x →
  wp (insert_free x) a
    (λ _ a', pages_ok (limit a) x ∧ (∀ p, ¬ (covers (live a) p ∧ within x p)) ∧
       recovers a (λ p, covers (live a) p ∨ within x p) a' ∧ (length (live a') ≤ length (live a) + 1)%nat)
    (λ error a', a' = a ∧ no_insertion a x error).
Proof.
  intros Hwf H0. unfold insert_free. wp_step.
  eapply wp_mono; [by apply validate_candidate_wp| |by intros ? ? (-> & ? & [-> | ->])].
  intros [] ? [-> Hx]. pose proof Hx as [Hne _ _ _ _]. rewrite (proj2 (Z.eqb_neq _ _)) by lia.
  pose proof (aw_array _ Hwf) as Ha. do 2 wp_step. cbv zeta. wp_step.
  apply find_insertion_wp; [done|lia|lia|by rewrite take_0|].
  intros j f b (Hlive & <- & Hfront & Hback). pose proof (aw_free _ Hwf) as Hf. rewrite Hlive in Hf.
  apply free_wf_app in Hf as (Hf & Hb & Hsep). rewrite list.Forall_forall in Hfront.
  wp_step. eapply read_previous_wp; [done..|].
  destruct (match last f with Some pr => PageRange.start x <? PageRange.end_ pr | None => false end) eqn:Hprev.
  { wp_step. split; [done|]. split; [done|]. destruct (last f) as [pr|] eqn:Hl; [|done]. apply Z.ltb_lt in Hprev.
    apply last_Some in Hl as [f' ->]. specialize (Hfront pr ltac:(by apply elem_of_app; right; left)).
    exists (PageRange.start x). rewrite Hlive, !covers_app, covers_one. unfold within. split; [left; right|]; lia. }
  wp_step. eapply read_next_wp; [done..|].
  destruct (match head b with Some nx => PageRange.start nx <? PageRange.end_ x | None => false end) eqn:Hnext.
  { wp_step. split; [done|]. split; [done|]. destruct b as [|nx b]; simpl in *; [done|]. apply Z.ltb_lt in Hnext.
    apply free_wf_cons in Hb as ([] & _).
    exists (PageRange.start nx). rewrite Hlive, covers_app, covers_cons. unfold within. split; [right; left|]; lia. }
  assert (∀ r, r ∈ f → PageRange.end_ r ≤ PageRange.start x) as Hbef.
  { destruct f as [|pr f' _] using rev_ind; [by intros r ?%elem_of_nil|]. rewrite last_snoc in Hprev.
    apply Z.ltb_ge in Hprev. intros r Hr. enough (PageRange.end_ r < PageRange.start x + 1) by lia.
    eapply before_last; [done| |done]. lia. }
  assert (∀ r, r ∈ b → PageRange.end_ x ≤ PageRange.start r) as Haft.
  { destruct b as [|nx b']; [by intros r ?%elem_of_nil|]. apply Z.ltb_ge in Hnext. intros r Hr.
    enough (PageRange.end_ x - 1 < PageRange.start r) by lia. eapply before_head; [done| |done]. lia. }
  assert (∀ p, ¬ (covers (live a) p ∧ within x p)) as Hdisj.
  { intros p [Hp Hxp]. rewrite Hlive, covers_app in Hp. unfold within in *.
    destruct Hp as [(r & Hr%Hbef & Hrp)|(r & Hr%Haft & Hrp)]; unfold within in Hrp; lia. }
  enough (wp _ a (λ _ a', recovers a (λ p, covers (live a) p ∨ within x p) a' ∧
                            (length (live a') ≤ length (live a) + 1)%nat)
    (λ error a', a' = a ∧ no_insertion a x error)) as Hrest by (eapply wp_mono; [exact Hrest| |done]; done).
  destruct (match last f with Some pr => PageRange.end_ pr =? PageRange.start x | None => false end) eqn:Htouch.
  { destruct (last f) as [pr|] eqn:Hl; [|done]. apply Z.eqb_eq in Htouch. apply last_Some in Hl as [f' ->].
    apply join_previous_wp; try done. destruct b as [|nx b]; simpl in *; [done|]. by apply Z.ltb_ge. }
  assert (∀ r, r ∈ f → before r x) as Hbef'.
  { destruct f as [|pr f' _] using rev_ind; [by intros r ?%elem_of_nil|]. rewrite last_snoc in Hprev, Htouch.
    apply Z.ltb_ge in Hprev. apply Z.eqb_neq in Htouch. intros r Hr. eapply before_last; [done| |done]. lia. }
  destruct (match head b with Some nx => PageRange.end_ x =? PageRange.start nx | None => false end) eqn:Htouch'.
  { destruct b as [|nx b]; [done|]. apply Z.eqb_eq in Htouch'. by eapply join_next_wp. }
  assert (∀ r, r ∈ b → before x r) as Haft'.
  { destruct b as [|nx b']; [by intros r ?%elem_of_nil|]. simpl in Hnext, Htouch'. apply Z.ltb_ge in Hnext.
    apply Z.eqb_neq in Htouch'. intros r Hr. eapply before_head; [done| |done]. lia. }
  destruct (Nat.eqb_spec (free_len a) (length (free a))) as [Hfull|Hroom].
  { wp_step. split; [done|]. split_and!; [done|by rewrite length_live|].
    intros r. rewrite Hlive. intros [Hr|Hr]%elem_of_app; [left; by apply Hbef'|right; by apply Haft']. }
  apply (insert_apart_wp a x Hwf Hx f b); [done|unfold array_ok in Ha; lia|done..].
Qed.

(** ** Reservations *)

Section subtraction.
Context (res : PageRange.t).

Definition outside (cov : Z → Prop) (p : Z) : Prop := cov p ∧ ¬ within res p.

(** The part of one range that is reserved is cut out. *)
Lemma cut_recovers a a' f r b mid : alloc_wf a → live a = f ++ r :: b →
  refreed a (f ++ mid ++ b) a' → free_wf (limit a) mid →
  (∀ p, covers mid p ↔ within r p ∧ ¬ within res p) →
  (∀ m, m ∈ mid → PageRange.start r ≤ PageRange.start m ∧ PageRange.end_ m ≤ PageRange.end_ r) →
  recovers a (λ p, covers (live a) p ∧ ¬ (within r p ∧ within res p)) a'.
Proof.
  intros [_ Hf _] Hlive Hre Hmid Hcov Hin. rewrite Hlive in Hf.
  eapply recovers_refreed; [done|by eapply replace_range|]. intros p. rewrite Hlive.
  apply (cut_range _ _ _ _ _ (λ p, within r p ∧ within res p) p Hf); [|by intros ? []].
  intros q. rewrite Hcov. tauto.
Qed.

Lemma recovers_outside a a' a'' r : recovers a (λ p, covers (live a) p ∧ ¬ (within r p ∧ within res p)) a' →
  recovers a' (outside (covers (live a'))) a'' → recovers a (outside (covers (live a))) a''.
Proof.
  intros Hrc Hrc'. eapply recovers_iff; [|by eapply recovers_trans]. intros p. simpl. unfold outside.
  rewrite (rc_covers _ _ _ Hrc). tauto.
Qed.

(** The range is split in two around the reservation. *)
Lemma split_range_wp {E A} a f r b left right (rest : M t E A) Q R : alloc_wf a → live a = f ++ r :: b →
  (free_len a < length (free a))%nat → (∀ a', refreed a (f ++ left :: right :: b) a' → wp rest a' Q R) →
  wp (shift_right (length f + 1);; write_free (length f) left;; write_free (length f + 1) right;;
      modify (λ self, set_free (free self) (free_len self + 1) self);; rest) a Q R.
Proof.
  intros Hwf Hlive Hroom HQ. pose proof (live_bound _ _ _ (aw_array _ Hwf) Hlive) as Hlen. simpl in Hlen.
  wp_step. apply shift_right_wp; [lia|]. intros xs Hxs. pose proof (proj1 Hxs) as Hxl.
  pose proof (shifted_insert a (length f + 1) xs right ltac:(lia) Hxs) as Hre.
  wp_step. apply write_raw_wp; [simpl; lia|]. wp_step. apply write_raw_wp; [simpl; rewrite length_insert; lia|].
  wp_step. wp_step. simpl. rewrite list_insert_insert_ne by lia. apply HQ.
  set (a1 := set_free (<[(length f + 1)%nat := right]> xs) (free_len a + 1) a) in *.
  assert (length f + 1 = length (f ++ [r]))%nat as Hl by (rewrite length_app; done).
  rewrite Hlive, (cons_middle r), app_assoc, Hl, take_app_length, drop_app_length in Hre.
  pose proof (refreed_write a1 (length f) left (rf_ok _ _ _ Hre) ltac:(simpl; lia)) as Hre'.
  rewrite (rf_live _ _ _ Hre), <- app_assoc in Hre'. cbn [app] in Hre'. rewrite insert_here in Hre'. exact (refreed_trans _ _ _ _ _ Hre Hre').
Qed.

(** The only case in which the number of free ranges grows. *)
Definition inside (r : PageRange.t) : Prop :=
  PageRange.start r < PageRange.start res ∧ PageRange.end_ res < PageRange.end_ r.

(** What the loop does from any range on, when the ranges before it are clear
    of the reservation. *)
Definition subtracts (fuel : nat) : Prop := ∀ a f b,
  pages_ok (limit a) res → alloc_wf a → live a = f ++ b → (length b < fuel)%nat →
  (∀ r, r ∈ f → PageRange.overlaps r res = false) →
  wp (subtract_from fuel (length f) res) a
    (λ _ a', recovers a (outside (covers (live a))) a' ∧
       (length (live a') ≤ length (live a) ∨ length (live a') = length (live a) + 1 ∧ Exists inside b)%nat)
    (λ error _, error = PhysicalMemoryError.CapacityExceeded ∧ length (live a) = length (free a) ∧ Exists inside b).

(** The loop goes on once a range is cut down to [mid], clear of the
    reservation. *)
Lemma next_range_wp fuel a f r b mid a' i : subtracts fuel → pages_ok (limit a) res → alloc_wf a →
  live a = f ++ r :: b → (length b < fuel)%nat → (∀ r, r ∈ f → PageRange.overlaps r res = false) →
  refreed a (f ++ mid ++ b) a' → free_wf (limit a) mid → i = length (f ++ mid) →
  (∀ p, covers mid p ↔ within r p ∧ ¬ within res p) →
  (∀ m, m ∈ mid → PageRange.start r ≤ PageRange.start m ∧ PageRange.end_ m ≤ PageRange.end_ r) →
  (length mid ≤ 1 ∨ length mid = 2 ∧ inside r ∧ Forall (λ r, ¬ inside r) b)%nat →
  wp (subtract_from fuel i res) a'
    (λ _ a'', recovers a (outside (covers (live a))) a'' ∧
       (length (live a'') ≤ length (live a) ∨ length (live a'') = length (live a) + 1 ∧ Exists inside (r :: b))%nat)
    (λ error _, error = PhysicalMemoryError.CapacityExceeded ∧ length (live a) = length (free a) ∧
       Exists inside (r :: b)).
Proof.
  intros IH Hres Hwf Hlive Hfuel Hclear Hre Hmid -> Hcov Hin Hcount.
  pose proof (cut_recovers _ _ _ _ _ _ Hwf Hlive Hre Hmid Hcov Hin) as Hrc.
  assert (length (live a') ≤ length (live a) + 1 - (2 - length mid))%nat as Hgrow.
  { rewrite (rf_live _ _ _ Hre), Hlive, !length_app. simpl. lia. }
  eapply wp_mono; [apply (IH a' (f ++ mid) b)| |]; simpl.
  - by rewrite (rf_limit _ _ _ Hre).
  - by eapply recovers_wf.
  - by rewrite (rf_live _ _ _ Hre), app_assoc.
  - done.
  - intros m [Hm|Hm]%elem_of_app; [by apply Hclear|]. apply not_true_iff_false. intros Hov.
    apply (overlaps_within _ _ _ _ (free_wf_pages _ _ _ Hmid Hm) Hres) in Hov as (p & Hmp & Hrp).
    by apply (proj1 (Hcov p)); [exists m|].
  - intros _ a'' [Hrc'' Hlen]. split; [by eapply recovers_outside|].
    destruct Hcount as [Hle|(Heq & Hr & Hno)].
    + destruct Hlen as [Hlen|[Hlen Hex]]; [left; lia|].
      destruct (decide (length (live a'') ≤ length (live a))%nat); [by left|right]. split; [lia|by apply Exists_cons_tl].
    + destruct Hlen as [Hlen|[_ Hex]]; [|by destruct (proj1 (Forall_Exists_neg _ _) Hno)].
      destruct (decide (length (live a'') ≤ length (live a))%nat); [by left|right]. split; [lia|by apply Exists_cons_hd].
  - intros error a'' (-> & Hfull & Hex). split; [done|]. rewrite (rf_capacity _ _ _ Hre) in Hfull.
    destruct Hcount as [Hle|(_ & _ & Hno)]; [|by destruct (proj1 (Forall_Exists_neg _ _) Hno)].
    split; [|by apply Exists_cons_tl]. pose proof (aw_array _ Hwf) as Ha. pose proof (length_live _ Ha).
    unfold array_ok in Ha. lia.
Qed.

Lemma all_clear a : pages_ok (limit a) res → alloc_wf a →
  (∀ r, r ∈ live a → PageRange.overlaps r res = false) → recovers a (outside (covers (live a))) a.
Proof.
  intros Hres [Ha Hf _] Hclear. split; [by apply refreed_refl|done|].
  intros p. unfold outside. split; [|by intros []]. intros Hp. split; [done|]. intros Hin.
  destruct Hp as (r & Hr & Hrp). pose proof (free_wf_pages _ _ _ Hf Hr) as Hrok. pose proof (Hclear r Hr) as Hno.
  by rewrite (proj2 (overlaps_within _ _ _ _ Hrok Hres)) in Hno by eauto.
Qed.

Lemma subtract_from_wp fuel : subtracts fuel.
Proof.
  induction fuel as [|fuel IH]; intros a f b Hres Hwf Hlive Hfuel Hclear; [lia|].
  pose proof (aw_array _ Hwf) as Ha. pose proof (live_bound _ _ _ Ha Hlive) as Hlen.
  simpl. do 2 wp_step. destruct b as [|r b]; simpl in *.
  { rewrite (proj2 (Nat.leb_le _ _)) by lia. wp_step. split; [|by left].
    apply all_clear; [done..|]. by rewrite Hlive, app_nil_r. }
  rewrite (proj2 (Nat.leb_gt _ _)) by lia. wp_step.
  assert (live a !! length f = Some r) as Hlook by (by rewrite Hlive; apply lookup_here).
  eapply read_free_wp; [done..|].
  pose proof (free_wf_pages _ _ _ (aw_free _ Hwf) (list_elem_of_lookup_2 _ _ _ Hlook)) as [Hr1 Hr2 Hr3 Hr4 Hr5].
  pose proof Hres as [Hs1 Hs2 Hs3 Hs4 Hs5].
  pose proof (λ mid a' i, next_range_wp fuel a f r b mid a' i IH Hres Hwf Hlive ltac:(lia) Hclear) as Hnext.
  destruct (PageRange.overlaps r res) eqn:Hov; cbn [negb].
  2:{ apply not_true_iff_false in Hov. rewrite overlaps_spec in Hov. apply (Hnext [r]).
      - simpl. rewrite <- Hlive. by apply refreed_refl.
      - by apply free_wf_one.
      - by rewrite length_app.
      - intros p. rewrite covers_one. unfold within. lia.
      - by intros m ->%list_elem_of_singleton.
      - by left. }
  apply overlaps_spec in Hov.
  destruct (Z.leb_spec (PageRange.start res) (PageRange.start r)) as [Hs|Hs];
    destruct (Z.leb_spec (PageRange.end_ r) (PageRange.end_ res)) as [He|He]; cbn [andb].
  - wp_step. eapply wp_mono; [apply remove_free_wp; [done|lia]| |done]. intros [] a1 Hre.
    rewrite Hlive, delete_here in Hre. apply (Hnext []); [done|apply free_wf_nil|by rewrite app_nil_r| |by intros m ?%elem_of_nil|left; simpl; lia].
    intros p. unfold within. split; [by intros ?%covers_nil|lia].
  - rewrite (proj2 (Z.ltb_ge _ _)) by lia. cbn [andb]. wp_step. eapply write_start_wp; [done..|]. intros a1 Hre.
    rewrite Hlive, insert_here in Hre. eapply (Hnext [_]); [exact Hre| |by rewrite length_app| | |by left].
    + apply free_wf_one. by split; simpl; try done; lia.
    + intros p. rewrite covers_one. unfold within. simpl. lia.
    + intros m ->%list_elem_of_singleton. simpl. lia.
  - rewrite (proj2 (Z.ltb_lt _ _)), (proj2 (Z.ltb_ge _ _)) by lia. cbn [andb]. wp_step.
    eapply write_end_wp; [done..|]. intros a1 Hre.
    rewrite Hlive, insert_here in Hre. eapply (Hnext [_]); [exact Hre| |by rewrite length_app| | |by left].
    + apply free_wf_one. by split; simpl; try done; lia.
    + intros p. rewrite covers_one. unfold within. simpl. lia.
    + intros m ->%list_elem_of_singleton. simpl. lia.
  - rewrite !(proj2 (Z.ltb_lt _ _)) by lia. cbn [andb].
    destruct (Nat.eqb_spec (free_len a) (length (free a))) as [Hfull|Hroom].
    { wp_step. split; [done|]. rewrite length_live by done. split; [done|]. by apply Exists_cons_hd. }
    eapply split_range_wp; [done..|unfold array_ok in Ha; lia|]. intros a1 Hre.
    eapply (Hnext [_; _]); [exact Hre| |by rewrite length_app| | |].
    + apply free_wf_cons. split; [by split; simpl; try done; lia|].
      split; [apply free_wf_one; by split; simpl; try done; lia|].
      intros m ->%list_elem_of_singleton. unfold before. simpl. lia.
    + intros p. rewrite covers_cons, covers_one. unfold within. simpl. lia.
    + intros m [->| ->%list_elem_of_singleton]%elem_of_cons; simpl; lia.
    + right. split_and!; [done..|]. apply list.Forall_forall. intros r' Hr' [Hr'' _]. pose proof (aw_free _ Hwf) as Hf.
      rewrite Hlive in Hf. apply free_wf_app in Hf as (_ & Hf & _). apply free_wf_cons in Hf as (_ & _ & Hb).
      specialize (Hb r' Hr'). unfold before in Hb. lia.
Qed.

Lemma subtract_wp a : pages_ok (limit a) res → alloc_wf a →
  wp (subtract res) a
    (λ _ a', recovers a (outside (covers (live a))) a' ∧ (length (live a') ≤ length (live a) + 1)%nat)
    (λ error _, error = PhysicalMemoryError.CapacityExceeded ∧ length (live a) = length (free a)).
Proof.
  intros Hres Hwf. unfold subtract. do 2 wp_step.
  eapply wp_mono; [apply (subtract_from_wp _ a [] (live a)); try done| |].
  - rewrite length_live by apply Hwf. lia.
  - by intros r ?%elem_of_nil.
  - intros _ a' [Hrc Hlen]. split; [done|lia].
  - intros error _ (? & ? & _). done.
Qed.
End subtraction.
