(* ===== verification/PhysicalPool.v ===== *)
(** * The pool the allocator starts from

    Which pages a reserved byte range touches, which addresses
    [from_candidates] leaves free, and what [free_run] accepts. *)

From stdpp Require Import base tactics numbers list sorting.
From Stdlib Require Import ZArith Lia.
From S2P Require Import Prelude Physical PhysicalFacts PhysicalUpdates.
Import PhysicalFrameAllocator.
Local Open Scope Z_scope.

(** ** Pages touched by a byte range *)

(** What [PhysicalRange::new] guarantees. *)
Definition range_ok (r : PhysicalRange.t) : Prop :=
  0 ≤ PhysicalRange.physical_start r ∧ 0 < PhysicalRange.byte_len r ∧
  PhysicalRange.physical_start r + PhysicalRange.byte_len r < 2 ^ 64.

Lemma new_range_ok start len r : is_uint 64 start → is_uint 64 len →
  PhysicalRange.new start len = Ok r → range_ok r.
Proof.
  intros Hs Hl. unfold PhysicalRange.new, checked_add, some_or. unfold is_uint in *.
  destruct (Z.eqb_spec len 0); [done|]. destruct (Z.ltb_spec (start + len) (2 ^ 64)); [|done].
  injection 1 as <-. unfold range_ok. simpl. lia.
Qed.

(** The page of [p] holds a byte of the range. *)
Definition touches (r : PhysicalRange.t) (p : Z) : Prop :=
  ∃ q, PhysicalRange.physical_start r ≤ q < PhysicalRange.physical_start r + PhysicalRange.byte_len r ∧
       q / BASE_PAGE_SIZE = p / BASE_PAGE_SIZE.

Lemma page_floor_spec x : is_uint 64 x → page_floor x = BASE_PAGE_SIZE * (x / BASE_PAGE_SIZE).
Proof.
  intros Hx. unfold page_floor. rewrite land_unot by done.
  change (BASE_PAGE_SIZE - 1) with (Z.ones 12). rewrite Z.ldiff_ones_r by done.
  rewrite Z.shiftl_mul_pow2, Z.shiftr_div_pow2 by done. change (2 ^ 12) with BASE_PAGE_SIZE. lia.
Qed.

Lemma page_bounds x : 4096 * (x / BASE_PAGE_SIZE) ≤ x < 4096 * (x / BASE_PAGE_SIZE) + 4096.
Proof.
  pose proof (Z.mul_div_le x BASE_PAGE_SIZE page_size_pos) as Hle.
  pose proof (Z.mul_succ_div_gt x BASE_PAGE_SIZE page_size_pos) as Hgt.
  change (BASE_PAGE_SIZE * _) with (4096 * (x / BASE_PAGE_SIZE)) in Hle.
  change (BASE_PAGE_SIZE * _) with (4096 * Z.succ (x / BASE_PAGE_SIZE)) in Hgt. lia.
Qed.

Lemma touches_spec r p : range_ok r →
  let s := PhysicalRange.physical_start r in
  let e := s + PhysicalRange.byte_len r + (BASE_PAGE_SIZE - 1) in
  touches r p ↔ 4096 * (s / BASE_PAGE_SIZE) ≤ p < 4096 * (e / BASE_PAGE_SIZE).
Proof.
  intros (Hs & Hl & _) s e. unfold touches. fold s. pose proof (page_bounds s). pose proof (page_bounds p).
  pose proof (page_bounds e). assert (e = s + PhysicalRange.byte_len r + 4095) by done. clearbody e s. split.
  - intros (q & Hq & Heq). pose proof (page_bounds q) as Hb. rewrite Heq in Hb. lia.
  - intros Hp. exists (Z.max s (4096 * (p / BASE_PAGE_SIZE))). split; [lia|].
    pose proof (page_bounds (Z.max s (4096 * (p / BASE_PAGE_SIZE)))). lia.
Qed.

(** [cover] is the range of exactly the pages touched. *)
Lemma cover_spec r limit : range_ok r →
  match cover r limit with
  | Ok pages => pages_ok limit pages ∧ ∀ p, within pages p ↔ touches r p
  | Err PhysicalMemoryError.AddressOverflow =>
      2 ^ 64 ≤ PhysicalRange.physical_start r + PhysicalRange.byte_len r + (BASE_PAGE_SIZE - 1)
  | Err PhysicalMemoryError.OutsidePhysicalLimit => ∃ p, touches r p ∧ PhysicalAddressLimit.exclusive limit ≤ p
  | Err _ => False
  end.
Proof.
  intros Hr. pose proof (touches_spec r) as Htouch. pose proof Hr as (Hs & Hl & Hend).
  unfold cover, PhysicalRange.end_, checked_add, some_or, PhysicalAddressLimit.contains_page_range.
  rewrite (proj2 (Z.ltb_lt _ _)) by lia. cbv zeta in Htouch.
  set (s := PhysicalRange.physical_start r) in *. set (len := PhysicalRange.byte_len r) in *.
  destruct (Z.ltb_spec (s + len + (BASE_PAGE_SIZE - 1)) (2 ^ 64)) as [Hup|Hup]; [|done]. simpl.
  assert (is_uint 64 s ∧ is_uint 64 (s + len + (BASE_PAGE_SIZE - 1))) as [Hus Hue].
  { unfold is_uint. change (BASE_PAGE_SIZE - 1) with 4095 in *. lia. }
  rewrite !page_floor_spec by done. pose proof (page_bounds s).
  pose proof (page_bounds (s + len + (BASE_PAGE_SIZE - 1))) as He.
  change (s + len + (BASE_PAGE_SIZE - 1)) with (s + len + 4095) in *.
  change (BASE_PAGE_SIZE * (s / BASE_PAGE_SIZE)) with (4096 * (s / BASE_PAGE_SIZE)).
  change (BASE_PAGE_SIZE * ((s + len + 4095) / BASE_PAGE_SIZE)) with (4096 * ((s + len + 4095) / BASE_PAGE_SIZE)).
  assert (s / BASE_PAGE_SIZE < (s + len + 4095) / BASE_PAGE_SIZE) as Hlt by lia.
  assert (0 ≤ s / BASE_PAGE_SIZE) by lia.
  rewrite (proj2 (Z.eqb_neq _ _)) by lia.
  destruct (Z.leb_spec (4096 * ((s + len + 4095) / BASE_PAGE_SIZE)) (PhysicalAddressLimit.exclusive limit)) as [Hin|Hout]; simpl.
  - split; [|intros p; by rewrite Htouch]. split; simpl; [lia|by apply Z.divide_factor_l..|lia|done].
  - exists (4096 * ((s + len + 4095) / BASE_PAGE_SIZE) - 1). rewrite Htouch by done. lia.
Qed.

(** ** The initial pool *)

(** The addresses [from_candidates] should leave free: those of the
    candidates, without page zero and without the pages the reservations
    touch. *)
Definition pool (candidates : list PageRange.t) (reservations : list PhysicalRange.t) (p : Z) : Prop :=
  covers candidates p ∧ BASE_PAGE_SIZE ≤ p ∧ ∀ r, r ∈ reservations → ¬ touches r p.

(** Why there is no allocator. *)
Definition rejected (RANGE_CAPACITY : nat) (candidates : list PageRange.t) (limit : PhysicalAddressLimit.t)
    (reservations : list PhysicalRange.t) (error : PhysicalMemoryError.t) : Prop :=
  match error with
  | PhysicalMemoryError.InvalidPageRange => ∃ c, c ∈ candidates ∧ ¬ pages_ok limit c
  | PhysicalMemoryError.OutsidePhysicalLimit =>
      (∃ c, c ∈ candidates ∧ ¬ pages_ok limit c) ∨
      (∃ r p, r ∈ reservations ∧ touches r p ∧ PhysicalAddressLimit.exclusive limit ≤ p)
  | PhysicalMemoryError.AddressOverflow => ∃ r, r ∈ reservations ∧
      2 ^ 64 ≤ PhysicalRange.physical_start r + PhysicalRange.byte_len r + (BASE_PAGE_SIZE - 1)
  | PhysicalMemoryError.DoubleFree => ∃ pre c post p, candidates = pre ++ c :: post ∧ covers pre p ∧ within c p
  | PhysicalMemoryError.CapacityExceeded =>
      (RANGE_CAPACITY < length candidates + 1 + length reservations)%nat
  | _ => False
  end.

Section filling.
Context (candidates : list PageRange.t) (reservations : list PhysicalRange.t).
Context (a : t) (Hwf : alloc_wf a) (Hempty : live a = []).
Context (Hcandidates : Forall (λ c, 0 ≤ PageRange.start c) candidates).
Context (Hreservations : Forall range_ok reservations).

Let bad (error : PhysicalMemoryError.t) (_ : t) : Prop :=
  rejected (length (free a)) candidates (limit a) reservations error.

(** At most [n] ranges, which cover [cov]. *)
Let filled (cov : Z → Prop) (n : nat) (b : t) : Prop := recovers a cov b ∧ (length (live b) ≤ n)%nat.

Lemma insert_candidate_wp pre c post b : candidates = pre ++ c :: post →
  Forall (pages_ok (limit a)) pre → filled (covers pre) (length pre) b →
  wp (validate_candidate c;; insert_free c) b
    (λ _ b', Forall (pages_ok (limit a)) (pre ++ [c]) ∧ filled (covers (pre ++ [c])) (length (pre ++ [c])) b') bad.
Proof.
  intros Hsplit Hpre [Hrc Hlen]. pose proof (recovers_wf _ _ _ Hwf Hrc) as Hwfb. pose proof (rc_refreed _ _ _ Hrc) as Hre.
  assert (c ∈ candidates) as Hc by (rewrite Hsplit; apply elem_of_app; right; by left).
  assert (0 ≤ PageRange.start c) as H0 by (rewrite list.Forall_forall in Hcandidates; by apply Hcandidates).
  wp_step. eapply wp_mono; [by apply validate_candidate_wp| |].
  2:{ intros error ? (_ & Hno & [-> | ->]); rewrite (rf_limit _ _ _ Hre) in Hno; unfold bad, rejected; [|left]; by exists c. }
  intros [] ? [-> Hok]. eapply wp_mono; [by apply insert_free_wp| |].
  - intros [] b' (_ & _ & Hrc' & Hlen'). rewrite (rf_limit _ _ _ Hre) in Hok. split; [apply Forall_app; by rewrite Forall_singleton|].
    split; [|rewrite length_app; simpl; lia]. eapply recovers_iff; [|by eapply recovers_trans].
    intros p. simpl. rewrite covers_app, covers_one, (rc_covers _ _ _ Hrc). done.
  - intros error ? [_ Hno]. unfold bad, rejected. unfold no_insertion in Hno. destruct error; try done.
    + destruct Hno as (_ & Hfull & _). rewrite (rf_capacity _ _ _ Hre) in Hfull. rewrite Hsplit, length_app. simpl. lia.
    + destruct Hno as [_ (p & Hp & Hcp)]. rewrite (rc_covers _ _ _ Hrc) in Hp. by exists pre, c, post, p.
Qed.

Lemma reserve_wp range cov n b : pages_ok (limit a) range →
  (n < length candidates + 1 + length reservations)%nat → filled cov n b →
  wp (subtract range) b (λ _ b', filled (λ p, cov p ∧ ¬ within range p) (n + 1) b') bad.
Proof.
  intros Hok Hn [Hrc Hlen]. pose proof (recovers_wf _ _ _ Hwf Hrc) as Hwfb. pose proof (rc_refreed _ _ _ Hrc) as Hre.
  eapply wp_mono; [apply subtract_wp; [by rewrite (rf_limit _ _ _ Hre)|done]| |].
  - intros [] b' [Hrc' Hlen']. split; [|lia]. eapply recovers_iff; [|by eapply recovers_trans].
    intros p. unfold outside. by rewrite (rc_covers _ _ _ Hrc).
  - intros error ? [-> Hfull]. rewrite (rf_capacity _ _ _ Hre) in Hfull. unfold bad. simpl. lia.
Qed.

Lemma reserve_cover_wp pre r post b : reservations = pre ++ r :: post →
  filled (pool candidates pre) (length candidates + 1 + length pre) b →
  wp (range ← lift (cover r (limit a)); subtract range) b
    (λ _ b', filled (pool candidates (pre ++ [r])) (length candidates + 1 + length (pre ++ [r])) b') bad.
Proof.
  intros Hsplit Hb. assert (r ∈ reservations) as Hr by (rewrite Hsplit; apply elem_of_app; right; by left).
  rewrite list.Forall_forall in Hreservations. pose proof (cover_spec r (limit a) (Hreservations r Hr)) as Hcover.
  wp_step. apply wp_lift. destruct (cover r (limit a)) as [range|error].
  - destruct Hcover as [Hok Hpages].
    eapply wp_mono; [apply (reserve_wp _ (pool candidates pre) (length candidates + 1 + length pre) _ Hok); [|exact Hb]| |done].
    + rewrite Hsplit, length_app. simpl. lia.
    + intros [] b' [Hrc Hlen]. split; [|rewrite length_app; simpl; lia]. eapply recovers_iff; [|exact Hrc].
      intros p. simpl. rewrite Hpages. unfold pool. setoid_rewrite elem_of_app. setoid_rewrite list_elem_of_singleton.
      naive_solver.
  - unfold bad. destruct error; simpl; try done; [by exists r|]. destruct Hcover as (p & ? & ?). right. by exists r, p.
Qed.

Lemma fill_candidates_wp : (length (free a) ≤ length (initial a))%nat →
  wp (fill_candidates candidates reservations) a
    (λ _ b, alloc_wf b ∧ limit b = limit a ∧ length (free b) = length (free a) ∧
       length (initial b) = length (initial a) ∧ initial_len b = free_len b ∧
       take (initial_len b) (initial b) = live b ∧ Forall (pages_ok (limit a)) candidates ∧
       ∀ p, covers (live b) p ↔ pool candidates reservations p) bad.
Proof.
  intros Hroom. unfold fill_candidates. wp_step.
  apply (wp_for_each (λ pre _ b, Forall (pages_ok (limit a)) pre ∧ filled (covers pre) (length pre) b)).
  { split; [by apply Forall_nil|]. split; [|by rewrite Hempty]. apply (recovers_refreed a (live a)).
    - apply refreed_refl, Hwf.
    - apply Hwf.
    - by rewrite Hempty. }
  { intros pre c post [] b Hsplit [Hpre Hb]. by eapply insert_candidate_wp. }
  intros [] b1 [Hok Hb1]. wp_step.
  eapply wp_mono; [apply (reserve_wp _ (covers candidates) (length candidates)); [|lia|exact Hb1]| |done].
  { pose proof (aw_limit _ Hwf) as [? _]. by split; simpl; try done; apply Z.divide_0_r || apply Z.divide_refl. }
  intros [] b2 Hb2. do 3 wp_step.
  apply (wp_for_each (λ pre _ b, filled (pool candidates pre) (length candidates + 1 + length pre) b)).
  { destruct Hb2 as [Hrc Hlen]. split; [|simpl; lia]. eapply recovers_iff; [|exact Hrc]. intros p. simpl. unfold pool, within. simpl.
    split; [|naive_solver lia]. intros [(c & Hc & Hp) Hz]. split_and!; [by exists c| |by intros r ?%elem_of_nil].
    rewrite list.Forall_forall in Hok. destruct (Hok c Hc). unfold within in Hp. lia. }
  { rewrite (rf_limit _ _ _ (rc_refreed _ _ _ (proj1 Hb2))). intros pre r post [] b Hsplit Hb. by eapply reserve_cover_wp. }
  intros [] b3 [Hrc _]. pose proof (rc_refreed _ _ _ Hrc) as Hre. pose proof (recovers_wf _ _ _ Hwf Hrc) as Hwf3.
  pose proof (aw_array _ Hwf3) as Ha3. do 3 wp_step. apply slice_wp; [done|]. fold (live b3). wp_step. unfold array_ok in Ha3.
  rewrite (rf_capacity _ _ _ Hre), <- (rf_initial _ _ _ Hre) in *.
  apply wp_assert; [apply Nat.leb_le; lia|]. wp_step. simpl. pose proof (length_live b3 (rf_ok _ _ _ Hre)) as Hl.
  split_and!; try done.
  - by split; apply Hwf3.
  - by rewrite (rf_limit _ _ _ Hre).
  - by rewrite (rf_capacity _ _ _ Hre).
  - rewrite length_app, length_drop, Hl. lia.
  - by rewrite <- Hl at 1; rewrite take_app_length.
  - intros p. by rewrite (rc_covers _ _ _ Hrc).
Qed.
End filling.

(** The ranges the allocator was given. *)
Definition origin (a : t) : list PageRange.t := take (initial_len a) (initial a).

Record pool_wf (a : t) : Prop := {
  pw_alloc : alloc_wf a;
  pw_array : (initial_len a ≤ length (initial a))%nat;
  pw_origin : free_wf (limit a) (origin a);
  pw_free p : covers (live a) p → covers (origin a) p;
}.

Lemma pool_wf_recovers a cov a' : pool_wf a → recovers a cov a' → (∀ p, cov p → covers (origin a) p) →
  pool_wf a' ∧ origin a' = origin a ∧ limit a' = limit a ∧ ∀ p, covers (live a') p ↔ cov p.
Proof.
  intros [Hwf Har Ho Hf] Hrc Hsub. pose proof (recovers_wf _ _ _ Hwf Hrc) as Hwf'. destruct Hrc as [Hre _ Hc].
  assert (origin a' = origin a) as Heq by (unfold origin; by rewrite (rf_initial _ _ _ Hre), (rf_initial_len _ _ _ Hre)).
  split_and!; [|done|by rewrite (rf_limit _ _ _ Hre)|done]. split.
  - done.
  - by rewrite (rf_initial _ _ _ Hre), (rf_initial_len _ _ _ Hre).
  - by rewrite Heq, (rf_limit _ _ _ Hre).
  - intros p. rewrite Heq, Hc. apply Hsub.
Qed.

Lemma from_candidates_wp {S} RANGE_CAPACITY candidates limit reservations (s : S) : limit_ok limit →
  Forall (λ c, 0 ≤ PageRange.start c) candidates → Forall range_ok reservations →
  wp (from_candidates RANGE_CAPACITY candidates limit reservations) s
    (λ a s', s' = s ∧ pool_wf a ∧ PhysicalFrameAllocator.limit a = limit ∧ origin a = live a ∧
       Forall (pages_ok limit) candidates ∧ ∀ p, covers (live a) p ↔ pool candidates reservations p)
    (λ error s', s' = s ∧ rejected RANGE_CAPACITY candidates limit reservations error).
Proof.
  intros Hl Hc Hr. unfold from_candidates, wp.
  match goal with |- context [fill_candidates _ _ ?a] => set (a0 := a) end.
  assert (live a0 = []) as Hempty by done.
  assert (alloc_wf a0) as Hwf.
  { split; [unfold array_ok; simpl; lia| |done]. rewrite Hempty. apply free_wf_nil. }
  pose proof (fill_candidates_wp candidates reservations a0 Hwf Hempty Hc Hr (Nat.le_refl _)) as Hfill.
  unfold wp in Hfill.
  assert (length (free a0) = RANGE_CAPACITY) as Hcap by (simpl; apply length_replicate).
  destruct (fill_candidates _ _ a0) as [b []|b error|].
  - destruct Hfill as (Hb & Hlim & Hcf & Hci & Hlen & Ho & Hok & Hcov). simpl in Hlim.
    split_and!; try done. split; [done| | |].
    + pose proof (aw_array _ Hb) as Ha. unfold array_ok in Ha. rewrite Hlen, Hci.
      change (length (initial a0)) with (length (free a0)). lia.
    + unfold origin. rewrite Ho. apply Hb.
    + unfold origin. by rewrite Ho.
  - split; [done|]. by rewrite Hcap in Hfill.
  - done.
Qed.

(** ** Freeing *)

Lemma contains_within rs r limit ceiling : free_wf limit rs → pages_ok limit r → PageRange.end_ r ≤ ceiling →
  existsb (λ i, PageRange.contains i r) rs = true ↔ ∀ p, within r p → covers rs p.
Proof.
  intros Hwf Hr Hc. rewrite existsb_exists. unfold PageRange.contains. split.
  - intros (i & Hi & [Hs He]%andb_true_iff) p Hp. rewrite Z.leb_le in Hs, He. exists i.
    split; [by apply list_elem_of_In|]. unfold within in *. lia.
  - intros Hall. destruct Hr. destruct (run_in_one_range limit rs ceiling (PageRange.start r) (PageRange.end_ r - PageRange.start r))
      as (i & x & Hi & Hs & He); [done|lia| |].
    + split; [lia|]. intros p Hp. apply Hall. unfold within. lia.
    + exists x. split; [apply list_elem_of_In; by eapply list_elem_of_lookup_2|].
      rewrite andb_true_iff, !Z.leb_le. lia.
Qed.

Lemma overlaps_covers rs r limit : free_wf limit rs → pages_ok limit r →
  existsb (λ i, PageRange.overlaps i r) rs = true ↔ ∃ p, covers rs p ∧ within r p.
Proof.
  intros Hwf Hr. rewrite existsb_exists. split.
  - intros (i & Hi%list_elem_of_In & Hov). pose proof (free_wf_pages _ _ _ Hwf Hi) as Hiok.
    apply (overlaps_within _ _ _ _ Hiok Hr) in Hov as (p & ? & ?). exists p. split; [by exists i|done].
  - intros (p & (i & Hi & Hip) & Hp). exists i. split; [by apply list_elem_of_In|].
    apply (overlaps_within _ _ _ _ (free_wf_pages _ _ _ Hwf Hi) Hr). by exists p.
Qed.

(** Why a range is not taken back. *)
Definition not_freed (a : t) (x : PageRange.t) (error : PhysicalMemoryError.t) : Prop :=
  match error with
  | PhysicalMemoryError.InvalidPageRange | PhysicalMemoryError.OutsidePhysicalLimit => ¬ pages_ok (limit a) x
  | PhysicalMemoryError.InvalidFrame => pages_ok (limit a) x ∧ ¬ ∀ p, within x p → covers (origin a) p
  | PhysicalMemoryError.DoubleFree => pages_ok (limit a) x ∧ ∃ p, covers (live a) p ∧ within x p
  | PhysicalMemoryError.CapacityExceeded => pages_ok (limit a) x ∧ length (live a) = length (free a) ∧
      ∀ r, r ∈ live a → before r x ∨ before x r
  | _ => False
  end.

Lemma free_run_wp a x : pool_wf a → 0 ≤ PageRange.start x →
  wp (free_run x) a
    (λ _ a', pages_ok (limit a) x ∧ (∀ p, within x p → covers (origin a) p ∧ ¬ covers (live a) p) ∧
       recovers a (λ p, covers (live a) p ∨ within x p) a')
    (λ error a', a' = a ∧ not_freed a x error).
Proof.
  intros [Hwf Har Ho _] H0. unfold free_run. wp_step.
  eapply wp_mono; [by apply validate_candidate_wp| |by intros ? ? (-> & ? & [-> | ->])].
  intros [] ? [-> Hx]. wp_step. unfold contains_initial. do 3 wp_step. apply slice_wp; [done|]. fold (origin a). wp_step.
  pose proof (contains_within _ _ _ _ Ho Hx (Z.le_refl _)) as Hin.
  destruct (existsb _ (origin a)); cbn [negb].
  2:{ wp_step. split; [done|]. split; [done|]. by rewrite <- Hin. }
  wp_step. unfold overlaps_free. do 3 wp_step. apply slice_wp; [apply Hwf|]. fold (live a). wp_step.
  pose proof (overlaps_covers _ _ _ (aw_free _ Hwf) Hx) as Hov.
  destruct (existsb _ (live a)).
  { wp_step. split; [done|]. split; [done|]. by apply Hov. }
  eapply wp_mono; [by apply insert_free_wp| |].
  - intros [] a' (_ & Hdis & Hrc & _). split; [done|]. split; [|done]. intros p Hp.
    split; [by apply (proj1 Hin)|]. intros Hf. by apply (Hdis p).
  - intros error ? [-> Hno]. split; [done|]. by destruct error.
Qed.
