(* ===== verification/PhysicalSystem.v ===== *)
(** * Frames and clients of the allocator

    Frames as a finite set: which frames are free, how many there are, and
    how a sequence of requests moves them between the free ranges and the
    clients.  The free ranges are canonical: they are determined by the
    addresses they cover. *)

From stdpp Require Import base tactics numbers list sorting gmap sets.
From Stdlib Require Import ZArith Lia.
From S2P Require Import Prelude Physical PhysicalFacts PhysicalUpdates PhysicalPool.
Import PhysicalFrameAllocator.
Local Open Scope Z_scope.

(** ** Canonical free lists *)

Lemma covers_head limit r rs p : free_wf limit (r :: rs) → covers (r :: rs) p → PageRange.start r ≤ p.
Proof.
  intros ([] & _ & Hb)%free_wf_cons [Hp|(x & Hx & Hp)]%covers_cons; unfold within in Hp; [lia|].
  specialize (Hb x Hx). unfold before in Hb. lia.
Qed.

Lemma covers_tail limit r rs p : free_wf limit (r :: rs) → covers rs p ↔ covers (r :: rs) p ∧ ¬ within r p.
Proof.
  intros Hwf. rewrite covers_cons. pose proof (covered_once limit [] r rs p Hwf). tauto.
Qed.

Lemma start_covered limit r rs : free_wf limit (r :: rs) → covers (r :: rs) (PageRange.start r).
Proof. intros ([] & _)%free_wf_cons. apply covers_cons. left. unfold within. lia. Qed.

Lemma end_uncovered limit r rs : free_wf limit (r :: rs) → ¬ covers (r :: rs) (PageRange.end_ r).
Proof.
  intros (_ & _ & Hb)%free_wf_cons [Hp|(x & Hx & Hp)]%covers_cons; unfold within in Hp; [lia|].
  specialize (Hb x Hx). unfold before in Hb. lia.
Qed.

Lemma free_list_canonical limit rs rs' : free_wf limit rs → free_wf limit rs' →
  (∀ p, covers rs p ↔ covers rs' p) → rs = rs'.
Proof.
  revert rs'. induction rs as [|r rs IH]; intros [|r' rs'] Hwf Hwf' Heq; [done| | |].
  - destruct (covers_nil (PageRange.start r')). by apply Heq, (start_covered limit).
  - destruct (covers_nil (PageRange.start r)). by apply Heq, (start_covered limit).
  - pose proof (covers_head _ _ _ _ Hwf (proj2 (Heq _) (start_covered _ _ _ Hwf'))).
    pose proof (covers_head _ _ _ _ Hwf' (proj1 (Heq _) (start_covered _ _ _ Hwf))).
    assert (∀ x xs y ys, free_wf limit (x :: xs) → free_wf limit (y :: ys) →
      (∀ p, covers (x :: xs) p ↔ covers (y :: ys) p) → PageRange.start x = PageRange.start y →
      PageRange.end_ y ≤ PageRange.end_ x) as Hend.
    { intros x xs y ys Hx Hy Hc Hs. apply Z.le_ngt. intros Hlt. apply (end_uncovered _ _ _ Hx), Hc, covers_cons.
      left. apply free_wf_cons in Hx as ([] & _). unfold within. lia. }
    assert (r = r') as <-.
    { pose proof (Hend _ _ _ _ Hwf Hwf' Heq). pose proof (Hend _ _ _ _ Hwf' Hwf (λ p, iff_sym (Heq p))).
      destruct r, r'. simpl in *. f_equal; lia. }
    f_equal. apply IH; [by apply free_wf_cons in Hwf as (_ & ? & _)|by apply free_wf_cons in Hwf' as (_ & ? & _)|].
    intros p. by rewrite (covers_tail _ _ _ p Hwf), (covers_tail _ _ _ p Hwf'), Heq.
Qed.

(** ** Frames *)

(** The frame numbers of a range. *)
Definition frames (r : PageRange.t) : gset Z :=
  list_to_set (seqZ (PageRange.start r / BASE_PAGE_SIZE)
                 ((PageRange.end_ r - PageRange.start r) / BASE_PAGE_SIZE)).

Definition frames_of (rs : list PageRange.t) : gset Z := ⋃ (frames <$> rs).

Lemma elem_of_frames limit r i : pages_ok limit r → i ∈ frames r ↔ within r (i * BASE_PAGE_SIZE).
Proof.
  intros [_ [s Hs] [e He] _ _]. unfold frames, within. rewrite elem_of_list_to_set, elem_of_seqZ, Hs, He.
  rewrite <- Z.mul_sub_distr_r, !Z.div_mul by done. pose proof page_size_pos. nia.
Qed.

Lemma elem_of_frames_of limit rs i : Forall (pages_ok limit) rs → i ∈ frames_of rs ↔ covers rs (i * BASE_PAGE_SIZE).
Proof.
  intros Hall. unfold frames_of, covers. rewrite elem_of_union_list. setoid_rewrite list_elem_of_fmap.
  rewrite list.Forall_forall in Hall. split.
  - intros (X & (r & -> & Hr) & Hi). exists r. split; [done|]. by eapply elem_of_frames; [apply Hall|].
  - intros (r & Hr & Hi). exists (frames r). split; [by exists r|]. by eapply elem_of_frames; [apply Hall|].
Qed.

Lemma size_frames limit r : pages_ok limit r →
  Z.of_nat (size (frames r)) = (PageRange.end_ r - PageRange.start r) / BASE_PAGE_SIZE.
Proof.
  intros []. unfold frames. rewrite size_list_to_set by apply NoDup_seqZ. rewrite length_seqZ.
  apply Z2Nat.id. apply Z.div_pos; [lia|apply page_size_pos].
Qed.

Lemma frames_of_app xs ys : frames_of (xs ++ ys) = frames_of xs ∪ frames_of ys.
Proof. unfold frames_of. rewrite fmap_app, union_list_app_L. done. Qed.

Lemma frames_of_one r : frames_of [r] = frames r.
Proof. unfold frames_of. simpl. apply right_id_L, _. Qed.

Lemma size_frames_of limit xs ys : free_wf limit (xs ++ ys) →
  size (frames_of (xs ++ ys)) = (size (frames_of xs) + size (frames_of ys))%nat.
Proof.
  intros ([Hxs _] & [Hys _] & Hsep)%free_wf_app. rewrite frames_of_app. apply size_union. intros i Hi Hi'.
  apply (elem_of_frames_of _ _ _ Hxs) in Hi as (x & Hx & Hi). apply (elem_of_frames_of _ _ _ Hys) in Hi' as (y & Hy & Hi').
  specialize (Hsep x y Hx Hy). unfold before, within in *. lia.
Qed.

(** The frames of the free ranges lie below the limit. *)
Lemma size_frames_bound limit rs : free_wf limit rs →
  Z.of_nat (size (frames_of rs)) ≤ PhysicalAddressLimit.exclusive limit / BASE_PAGE_SIZE ∨ rs = [].
Proof.
  intros [Hall _]. destruct rs as [|r rs]; [by right|left].
  set (top := PhysicalAddressLimit.exclusive limit / BASE_PAGE_SIZE).
  assert (0 ≤ top) as Htop.
  { apply Z.div_pos; [|apply page_size_pos]. apply Forall_cons in Hall as [[] _]. lia. }
  assert (frames_of (r :: rs) ⊆ list_to_set (seqZ 0 top)) as Hsub.
  { intros i Hi. apply (elem_of_frames_of _ _ _ Hall) in Hi as (x & Hx & Hi). unfold within in Hi.
    rewrite list.Forall_forall in Hall. destruct (Hall x Hx) as [_ _ [e He] ? ?].
    rewrite elem_of_list_to_set, elem_of_seqZ. pose proof page_size_pos.
    split; [nia|]. apply Z.lt_le_trans with e; [nia|]. apply Z.div_le_lower_bound; [done|]. lia. }
  apply subseteq_size in Hsub. rewrite size_list_to_set, length_seqZ in Hsub by apply NoDup_seqZ. lia.
Qed.

Lemma count_frames_wp {T E} limit rs (s : T) (R : E → T → Prop) : free_wf limit rs → limit_ok limit →
  wp (count_frames rs) s (λ total s', s' = s ∧ total = Z.of_nat (size (frames_of rs))) R.
Proof.
  intros Hwf [_ Hlim]. unfold count_frames.
  apply (wp_for_each (λ pre total s', s' = s ∧ total = Z.of_nat (size (frames_of pre)))); [done| |done].
  intros pre r post ? ? Hsplit [-> ->]. rewrite Hsplit, cons_middle, app_assoc in Hwf.
  apply free_wf_app in Hwf as (Hpre & _ & _). pose proof (size_frames_of _ _ _ Hpre) as Hsize.
  rewrite frames_of_one in Hsize. destruct (size_frames_bound _ _ Hpre) as [Hbound|]; [|by destruct pre].
  apply free_wf_app in Hpre as (_ & Hr & _). apply free_wf_cons in Hr as (Hr & _). pose proof (size_frames _ _ Hr) as Hcount.
  pose proof Hr as []. wp_step. eapply wp_expect.
  { unfold PageRange.page_count, checked_sub. rewrite (proj2 (Z.leb_le _ _)) by lia. simpl. by rewrite <- Hcount. }
  eapply wp_expect; [|split; [done|]].
  { unfold checked_add. rewrite (proj2 (Z.ltb_lt _ _)); [done|].
    assert (PhysicalAddressLimit.exclusive limit / BASE_PAGE_SIZE ≤ 2 ^ 52 / BASE_PAGE_SIZE) by (apply Z.div_le_mono; [done|lia]).
    change (2 ^ 52 / BASE_PAGE_SIZE) with (2 ^ 40) in *. assert (2 ^ 40 < 2 ^ 64) by done. lia. }
  lia.
Qed.

(** ** Requests *)

Inductive request : Type :=
| AllocateRun (page_count : Z)
| AllocateRunBelow (page_count exclusive_ceiling : Z)
| FreeRun (range : PageRange.t).

Definition request_ok (q : request) : Prop :=
  match q with
  | AllocateRun n | AllocateRunBelow n _ => 0 ≤ n
  | FreeRun range => 0 ≤ PageRange.start range
  end.

(** The frames a request moves to the clients, or back. *)
Definition serve (q : request) (out : gset Z) : M t PhysicalMemoryError.t (gset Z) :=
  match q with
  | AllocateRun n => run ← allocate_run n; mret (out ∪ frames run)
  | AllocateRunBelow n ceiling => run ← allocate_run_below n ceiling; mret (out ∪ frames run)
  | FreeRun range => free_run range;; mret (out ∖ frames range)
  end.

(** The allocator and the frames its clients hold. *)
Definition pool_step (st : t * gset Z) (q : request) : option (t * gset Z) :=
  match serve q (snd st) (fst st) with
  | Ret a out => Some (a, out)
  | Fail a _ => Some (a, snd st)
  | Panic => None
  end.

Fixpoint pool_run (qs : list request) (st : t * gset Z) : option (t * gset Z) :=
  match qs with
  | [] => Some st
  | q :: qs => st' ← pool_step st q; pool_run qs st'
  end.

Record pool_inv (initial : list PageRange.t) (st : t * gset Z) : Prop := {
  pi_wf : pool_wf (fst st);
  pi_origin : origin (fst st) = initial;
  pi_all : frames_of (live (fst st)) ∪ snd st = frames_of initial;
  pi_apart : frames_of (live (fst st)) ## snd st;
}.

Lemma frames_recovered a cov a' i : recovers a cov a' → i ∈ frames_of (live a') ↔ cov (i * BASE_PAGE_SIZE).
Proof. intros [_ [Hall _] Hc]. rewrite (elem_of_frames_of _ _ _ Hall). apply Hc. Qed.

Lemma frames_free a i : alloc_wf a → i ∈ frames_of (live a) ↔ covers (live a) (i * BASE_PAGE_SIZE).
Proof. intros [_ [Hall _] _]. by rewrite (elem_of_frames_of _ _ _ Hall). Qed.

Lemma frames_taken a run a' : alloc_wf a → pages_ok (limit a) run →
  recovers a (λ p, covers (live a) p ∧ ¬ within run p) a' →
  frames_of (live a') = frames_of (live a) ∖ frames run.
Proof.
  intros Hwf Hrun Hrc. apply set_eq. intros i.
  rewrite elem_of_difference, (frames_recovered _ _ _ _ Hrc), (frames_free a i Hwf), (elem_of_frames _ _ _ Hrun). done.
Qed.

Lemma frames_given a x a' : alloc_wf a → pages_ok (limit a) x →
  recovers a (λ p, covers (live a) p ∨ within x p) a' →
  frames_of (live a') = frames_of (live a) ∪ frames x.
Proof.
  intros Hwf Hx Hrc. apply set_eq. intros i.
  rewrite elem_of_union, (frames_recovered _ _ _ _ Hrc), (frames_free a i Hwf), (elem_of_frames _ _ _ Hx). done.
Qed.

Lemma run_frames_free a ceiling n run a' : alloc_wf a → first_run a ceiling n run a' →
  frames run ⊆ frames_of (live a).
Proof.
  intros Hwf [Hlen Hok [_ Hfree] _ _] i Hi. apply (elem_of_frames _ _ _ Hok) in Hi. unfold within in Hi.
  apply (frames_free a i Hwf), Hfree. lia.
Qed.

Lemma take_inv initial a out ceiling n run a' : pool_inv initial (a, out) → first_run a ceiling n run a' →
  pool_inv initial (a', out ∪ frames run).
Proof.
  intros [Hwf Ho Hall Hap] Hrun. simpl in *. pose proof (pw_alloc _ Hwf) as Haw.
  pose proof (run_frames_free _ _ _ _ _ Haw Hrun) as Hsub. destruct Hrun as [_ Hok _ _ Hrc].
  pose proof (frames_taken _ _ _ Haw Hok Hrc) as Hf.
  destruct (pool_wf_recovers _ _ _ Hwf Hrc) as (Hwf' & Ho' & _); [intros p [Hp _]; by apply (pw_free _ Hwf)|].
  split; simpl; [done|congruence| |rewrite Hf; set_solver].
  rewrite <- Hall, Hf. apply set_eq. intros i. rewrite !elem_of_union, elem_of_difference.
  destruct (decide (i ∈ frames run)); set_solver.
Qed.

Lemma give_inv initial a out x a' : pool_inv initial (a, out) → pages_ok (limit a) x →
  (∀ p, within x p → covers (origin a) p ∧ ¬ covers (live a) p) →
  recovers a (λ p, covers (live a) p ∨ within x p) a' → pool_inv initial (a', out ∖ frames x).
Proof.
  intros [Hwf Ho Hall Hap] Hok Hx Hrc. simpl in *. pose proof (pw_alloc _ Hwf) as Haw.
  pose proof (frames_given _ _ _ Haw Hok Hrc) as Hf.
  destruct (pool_wf_recovers _ _ _ Hwf Hrc) as (Hwf' & Ho' & _).
  { intros p [Hp|Hp]; [by apply (pw_free _ Hwf)|by apply Hx]. }
  assert (frames x ⊆ out) as Hsub.
  { intros i Hi. apply (elem_of_frames _ _ _ Hok), Hx in Hi as [Hin Hno].
    assert (i ∈ frames_of initial) as Hi.
    { rewrite <- Ho. destruct (pw_origin _ Hwf) as [Hpo _]. by apply (elem_of_frames_of _ _ _ Hpo). }
    rewrite <- Hall in Hi. apply elem_of_union in Hi as [Hi|Hi]; [|done]. by apply (frames_free a i Haw) in Hi. }
  split; simpl; [done|congruence| |rewrite Hf; set_solver].
  rewrite <- Hall, Hf. apply set_eq. intros i. rewrite !elem_of_union, elem_of_difference.
  destruct (decide (i ∈ frames x)); set_solver.
Qed.

Lemma pool_step_inv initial st q : pool_inv initial st → request_ok q →
  ∃ st', pool_step st q = Some st' ∧ pool_inv initial st'.
Proof.
  destruct st as [a out]. intros Hinv Hq. pose proof (pi_wf _ _ Hinv) as Hwf. pose proof (pw_alloc _ Hwf) as Haw.
  assert (wp (serve q out) a (λ out' a', pool_inv initial (a', out')) (λ _ a', a' = a)) as Hserve.
  { destruct q as [n|n ceiling|x]; simpl in Hq |- *; wp_step.
    - eapply wp_mono; [by apply allocate_run_wp| |by intros ? ? []]. intros run a' Hrun. wp_step. by eapply take_inv.
    - eapply wp_mono; [by apply allocate_run_below_wp| |by intros ? ? []]. intros run a' Hrun. wp_step. by eapply take_inv.
    - eapply wp_mono; [by apply free_run_wp| |by intros ? ? []]. intros [] a' (Hok & Hx & Hrc). wp_step. by eapply give_inv. }
  unfold pool_step. simpl. unfold wp in Hserve. destruct (serve q out a) as [a' out'|a' e|]; [| |done].
  - by exists (a', out').
  - subst a'. by exists (a, out).
Qed.

Lemma pool_run_inv initial qs st : pool_inv initial st → Forall request_ok qs →
  ∃ st', pool_run qs st = Some st' ∧ pool_inv initial st'.
Proof.
  revert st. induction qs as [|q qs IH]; intros st Hinv Hqs; [by exists st|].
  apply Forall_cons in Hqs as [Hq Hqs]. destruct (pool_step_inv _ _ _ Hinv Hq) as (st' & Hstep & Hinv').
  simpl. rewrite Hstep. simpl. by apply IH.
Qed.

(** What [PhysicalAddressLimit::new] accepts. *)
Lemma new_limit_ok exclusive limit : PhysicalAddressLimit.new exclusive = Ok limit → limit_ok limit.
Proof.
  unfold PhysicalAddressLimit.new. destruct (Z.ltb_spec exclusive BASE_PAGE_SIZE); [done|].
  destruct (is_power_of_two exclusive); [|done]. destruct (Z.ltb_spec (2 ^ 52) exclusive); [done|].
  intros [= <-]. unfold limit_ok. simpl. lia.
Qed.

(** The state of an allocator built from validated inputs, after some
    requests. *)
Record pool_state (candidates : list PageRange.t) (reservations : list PhysicalRange.t)
    (a : t) (out : gset Z) : Prop := {
  ps_candidates : Forall (λ c, 0 ≤ PageRange.start c) candidates;
  ps_reservations : Forall range_ok reservations;
  ps_run : ∃ RANGE_CAPACITY exclusive limit a0 qs, PhysicalAddressLimit.new exclusive = Ok limit ∧
    from_candidates RANGE_CAPACITY candidates limit reservations tt = Ret tt a0 ∧
    Forall request_ok qs ∧ pool_run qs (a0, ∅) = Some (a, out);
}.

Lemma pool_state_inv candidates reservations a out : pool_state candidates reservations a out →
  pool_inv (origin a) (a, out) ∧ (∀ p, covers (origin a) p ↔ pool candidates reservations p).
Proof.
  intros [Hc Hr (cap & e & limit & a0 & qs & Hl & H0 & Hqs & Hrun)].
  pose proof (wp_Ret _ _ _ _ _ _ (from_candidates_wp cap candidates limit reservations tt (new_limit_ok _ _ Hl) Hc Hr) H0)
    as (_ & Hwf & _ & Ho & _ & Hcov).
  assert (pool_inv (live a0) (a0, ∅)) as Hinv by (split; simpl; [done..|set_solver|set_solver]).
  destruct (pool_run_inv _ _ _ Hinv Hqs) as (st & Hst & Hinv'). rewrite Hrun in Hst. injection Hst as <-.
  pose proof (pi_origin _ _ Hinv') as Heq. simpl in Heq. rewrite Heq. split; [done|]. intros p. apply Hcov.
Qed.

(** ** Freeing what was just allocated *)

(** A range apart from all free ranges fits in between them. *)
Lemma apart_splits limit rs x : free_wf limit rs → pages_ok limit x →
  (∀ r, r ∈ rs → before r x ∨ before x r) → ∃ f b, rs = f ++ b ∧ free_wf limit (f ++ x :: b).
Proof.
  intros Hwf Hx. induction rs as [|r rs IH]; intros Hap.
  - exists [], []. split; [done|]. by apply free_wf_one.
  - pose proof Hwf as (Hr & Hrs & Hb)%free_wf_cons. destruct (Hap r) as [Hrx|Hxr]; [by left| |].
    + destruct IH as (f & b & -> & Hfb); [done|intros r' Hr'; apply Hap; by right|].
      exists (r :: f), b. split; [done|]. simpl. apply free_wf_cons. split_and!; [done..|].
      intros r' [Hr'|[->|Hr']%elem_of_cons]%elem_of_app; [|done|]; apply Hb, elem_of_app; [by left|by right].
    + exists [], (r :: rs). split; [done|]. apply free_wf_cons. split_and!; [done..|].
      intros r' [->|Hr']%elem_of_cons; [done|]. specialize (Hb r' Hr'). destruct Hr. unfold before in *. lia.
Qed.

Lemma run_undone a ceiling n run a' : pool_wf a → first_run a ceiling n run a' →
  wp (free_run run) a' (λ _ a'', live a'' = live a) (λ _ _, False).
Proof.
  intros Hwf [Hlen Hok [_ Hrun] _ Hrc]. pose proof (pw_alloc _ Hwf) as Haw.
  destruct (pool_wf_recovers _ _ _ Hwf Hrc) as (Hwf' & Ho & Hlim & Hcov); [intros p [Hp _]; by apply (pw_free _ Hwf)|].
  assert (∀ p, within run p → covers (live a) p) as Hin by (intros p Hp; apply Hrun; unfold within in Hp; lia).
  assert (∀ rs, free_wf (limit a) rs → (∀ p, covers rs p ↔ covers (live a') p ∨ within run p) → rs = live a) as Hsame.
  { intros rs Hrs Heq. eapply free_list_canonical; [done|apply Haw|]. intros p. rewrite Heq, Hcov.
    assert (within run p ∨ ¬ within run p) by (unfold within; lia). specialize (Hin p). tauto. }
  eapply wp_mono; [apply free_run_wp; [done|apply Hok]| |].
  - intros [] a'' (_ & _ & [Hre Hfree Hc]). apply Hsame; [by rewrite <- Hlim|done].
  - intros error ? [_ Hno]. destruct error; simpl in Hno; rewrite ?Hlim, ?Ho in Hno; try done.
    + destruct Hno as (_ & Hfull & Hap).
      destruct (apart_splits (limit a) (live a') run) as (f & b & Hfb & Hwfb); [rewrite <- Hlim; apply Hwf'|done..|].
      assert (f ++ run :: b = live a) as Heq.
      { apply Hsame; [done|]. intros p. rewrite Hfb, !covers_app, covers_cons. tauto. }
      pose proof (length_live _ (aw_array _ Haw)). pose proof (aw_array _ Haw) as Har. unfold array_ok in Har.
      rewrite (rf_capacity _ _ _ (rc_refreed _ _ _ Hrc)), Hfb, length_app in Hfull.
      apply (f_equal length) in Heq. rewrite length_app in Heq. simpl in Heq. lia.
    + destruct Hno as [_ Hno]. apply Hno. intros p Hp. by apply (pw_free _ Hwf), Hin.
    + destruct Hno as [_ (p & Hp & Hrp)]. by apply Hcov in Hp as [_ ?].
Qed.
