(* ===== verification/PhysicalTheorems.v ===== *)
(** * The physical frame allocator is correct

    Which frames are available at the start, that allocation is first fit,
    that freeing undoes allocation and that no frame is ever lost or handed
    out twice. *)

From stdpp Require Import base tactics numbers list sorting gmap sets.
From Stdlib Require Import ZArith Lia.
From S2P Require Import Prelude Physical PhysicalFacts PhysicalUpdates PhysicalPool PhysicalSystem.
Import PhysicalFrameAllocator.
Local Open Scope Z_scope.

(** C9. Whatever an allocator built by [from_candidates] is asked, it never
    panics, and at any time every frame of the initial pool (the candidates
    without page zero and without the pages a reservation touches) is either
    free or held by a client, never both, and no other frame is either.  The
    counters agree: [available_frames] and the frames held add up to
    [initial_frames]. *)
Theorem frames_are_partitioned candidates reservations a out qs :
  pool_state candidates reservations a out → Forall request_ok qs →
  ∃ a' out', pool_run qs (a, out) = Some (a', out') ∧
    frames_of (live a') ## out' ∧
    (∀ i, i ∈ frames_of (live a') ∪ out' ↔ pool candidates reservations (i * BASE_PAGE_SIZE)) ∧
    ∃ available total, available_frames a' = Ret (E:=PhysicalMemoryError.t) a' available ∧
      initial_frames a' = Ret (E:=PhysicalMemoryError.t) a' total ∧ available + Z.of_nat (size out') = total.
Proof.
  intros [Hinv Hpool]%pool_state_inv Hqs. destruct (pool_run_inv _ _ _ Hinv Hqs) as ([a' out'] & Hrun & [Hwf Ho Hall Hap]).
  simpl in *. exists a', out'. split_and!; [done..| |].
  - intros i. rewrite Hall, <- Hpool, <- Ho. destruct (pw_origin _ Hwf) as [Hf _]. by rewrite (elem_of_frames_of _ _ _ Hf).
  - exists (Z.of_nat (size (frames_of (live a')))), (Z.of_nat (size (frames_of (origin a')))).
    pose proof (pw_alloc _ Hwf) as [Har Hfree Hlim]. split_and!.
    + apply wp_returns. unfold available_frames. do 3 wp_step. apply slice_wp; [done|]. fold (live a').
      eapply wp_mono; [by apply (count_frames_wp (limit a') _ _ (λ _ _, False))| |done]. intros n ? [-> ->]. done.
    + apply wp_returns. unfold initial_frames. do 3 wp_step. apply slice_wp; [apply Hwf|]. fold (origin a').
      eapply wp_mono; [by apply (count_frames_wp (limit a') _ _ (λ _ _, False)); [apply Hwf|]| |done]. intros n ? [-> ->]. done.
    + rewrite Ho, <- Hall, size_union by done. lia.
Qed.

(** [from_candidates] answers on every input.  It builds an allocator
    whose free ranges, in order and apart, cover exactly the addresses of the
    candidates that are neither in page zero nor in a page a reservation
    touches, or it says why not: a candidate is not a range of whole pages
    below the limit, two candidates overlap, a reservation reaches over the
    limit or the end of the address space, or the candidates and reservations
    can outnumber the capacity. *)
Theorem from_candidates_leaves_the_pool {S} RANGE_CAPACITY candidates exclusive limit reservations (s : S) :
  PhysicalAddressLimit.new exclusive = Ok limit →
  Forall (λ c, 0 ≤ PageRange.start c) candidates → Forall range_ok reservations →
  match from_candidates RANGE_CAPACITY candidates limit reservations s with
  | Ret _ a => free_wf limit (live a) ∧ origin a = live a ∧ Forall (pages_ok limit) candidates ∧
      ∀ p, covers (live a) p ↔ pool candidates reservations p
  | Fail _ error => rejected RANGE_CAPACITY candidates limit reservations error
  | Panic => False
  end.
Proof.
  intros Hl%new_limit_ok Hc Hr. pose proof (from_candidates_wp RANGE_CAPACITY _ _ _ s Hl Hc Hr) as Hwp. unfold wp in Hwp.
  destruct (from_candidates _ _ _ _ s) as [s' a|s' e|]; [|by destruct Hwp|done].
  destruct Hwp as (_ & Hwf & <- & Ho & Hok & Hcov). split_and!; [apply Hwf|done..].
Qed.

(** C34. In every state an allocator reaches, [allocate_run] and
    [allocate_run_below] hand out the lowest run of exactly the pages asked
    for, below the ceiling, take nothing else, and never a frame a client
    holds; they fail, and change nothing, exactly when there is no such run,
    when no page is asked for or when the length overflows. *)
Theorem allocation_is_first_fit candidates reservations a out page_count exclusive_ceiling :
  pool_state candidates reservations a out → 0 ≤ page_count →
  let top := PhysicalAddressLimit.exclusive (limit a) in
  let answers ceiling outcome := match outcome with
    | Ret a' run => first_run a ceiling page_count run a' ∧ frames run ## out ∧
        frames_of (live a') = frames_of (live a) ∖ frames run
    | Fail a' error => a' = a ∧ no_run a ceiling page_count error
    | Panic => False
    end in
  answers top (allocate_run page_count a) ∧
  answers (Z.min exclusive_ceiling top) (allocate_run_below page_count exclusive_ceiling a).
Proof.
  intros [Hinv _]%pool_state_inv Hn top answers. pose proof (pw_alloc _ (pi_wf _ _ Hinv)) as Hwf. simpl in Hwf.
  assert (∀ ceiling m, wp m a (λ run a', first_run a ceiling page_count run a')
    (λ error a', a' = a ∧ no_run a ceiling page_count error) → answers ceiling (m a)) as Hgen.
  { intros ceiling m Hm. unfold wp in Hm. unfold answers. destruct (m a) as [a' run|a' e|]; [|done..].
    split_and!; [done| |by apply frames_taken; [done|apply Hm..]].
    pose proof (run_frames_free _ _ _ _ _ Hwf Hm). pose proof (pi_apart _ _ Hinv). simpl in *. set_solver. }
  split; apply Hgen; [by apply allocate_run_wp|by apply allocate_run_below_wp].
Qed.

(** Freeing undoes allocation: a run that was just allocated can always
    be freed, whatever the capacity, and the free ranges are then, range by
    range, what they were before. *)
Theorem freeing_undoes_allocation candidates reservations a out page_count a' run :
  pool_state candidates reservations a out → 0 ≤ page_count → allocate_run page_count a = Ret a' run →
  ∃ a'', free_run run a' = Ret a'' tt ∧ live a'' = live a.
Proof.
  intros [Hinv _]%pool_state_inv Hn Hrun. pose proof (pi_wf _ _ Hinv) as Hwf. simpl in Hwf. pose proof (pw_alloc _ Hwf) as Haw.
  pose proof (wp_Ret _ _ _ _ _ _ (allocate_run_wp a page_count Haw Hn) Hrun) as Hfirst.
  pose proof (run_undone _ _ _ _ _ Hwf Hfirst) as Hundo. unfold wp in Hundo.
  destruct (free_run run a') as [a'' []|a'' error|]; [by exists a''|done..].
Qed.

(** ** A small machine *)

(** Two candidates that touch, a third apart, and a reservation in the
    middle of a page. *)
Definition demo_candidates : list PageRange.t :=
  [ {| PageRange.start := 0x10000; PageRange.end_ := 0x14000 |};
    {| PageRange.start := 0; PageRange.end_ := 0x10000 |};
    {| PageRange.start := 0x20000; PageRange.end_ := 0x24000 |} ].
Definition demo_reservations : list PhysicalRange.t :=
  [ {| PhysicalRange.physical_start := 0x5ff0; PhysicalRange.byte_len := 0x20 |} ].
Definition demo_limit : PhysicalAddressLimit.t := {| PhysicalAddressLimit.exclusive := 2 ^ 36 |}.
Definition demo_start : t :=
  match from_candidates 4 demo_candidates demo_limit demo_reservations tt with
  | Ret _ a => a
  | _ => {| initial := []; initial_len := 0; free := []; free_len := 0; PhysicalFrameAllocator.limit := demo_limit |}
  end.

Lemma demo_pool_state : pool_state demo_candidates demo_reservations demo_start ∅.
Proof.
  split.
  - by repeat (apply Forall_cons; split).
  - by repeat (apply Forall_cons; split).
  - exists 4%nat, (2 ^ 36), demo_limit, demo_start, []. by repeat split.
Qed.

Lemma frames_are_partitioned_witness : ∃ a' out',
  pool_run [AllocateRun 2; AllocateRunBelow 3 0x20000; FreeRun {| PageRange.start := 0x1000; PageRange.end_ := 0x2000 |}]
    (demo_start, ∅) = Some (a', out') ∧ frames_of (live a') ## out' ∧
  (∀ i, i ∈ frames_of (live a') ∪ out' ↔ pool demo_candidates demo_reservations (i * BASE_PAGE_SIZE)) ∧
  ∃ available total, available_frames a' = Ret (E:=PhysicalMemoryError.t) a' available ∧
    initial_frames a' = Ret (E:=PhysicalMemoryError.t) a' total ∧ available + Z.of_nat (size out') = total.
Proof.
  apply (frames_are_partitioned demo_candidates demo_reservations demo_start ∅); [exact demo_pool_state|].
  repeat (apply Forall_cons; split); done.
Defined.

Lemma from_candidates_leaves_the_pool_witness :
  match from_candidates 4 demo_candidates demo_limit demo_reservations tt with
  | Ret _ a => free_wf demo_limit (live a) ∧ origin a = live a ∧ Forall (pages_ok demo_limit) demo_candidates ∧
      ∀ p, covers (live a) p ↔ pool demo_candidates demo_reservations p
  | Fail _ error => rejected 4 demo_candidates demo_limit demo_reservations error
  | Panic => False
  end.
Proof.
  apply (from_candidates_leaves_the_pool 4 demo_candidates (2 ^ 36) demo_limit demo_reservations tt); [reflexivity| |].
  - by repeat (apply Forall_cons; split).
  - by repeat (apply Forall_cons; split).
Defined.

Lemma allocation_is_first_fit_witness :
  match allocate_run 2 demo_start with
  | Ret a' run => PageRange.start run = 0x1000 ∧ frames run ## ∅ ∧ frames_of (live a') = frames_of (live demo_start) ∖ frames run
  | _ => False
  end.
Proof.
  destruct (allocation_is_first_fit demo_candidates demo_reservations demo_start ∅ 2 0 demo_pool_state ltac:(done)) as [Htop _].
  vm_compute (allocate_run 2 demo_start) in *. destruct Htop as (_ & ? & ?). done.
Defined.

Lemma freeing_undoes_allocation_witness : ∃ a' run a'', allocate_run 3 demo_start = Ret a' run ∧
  free_run run a' = Ret a'' tt ∧ live a'' = live demo_start.
Proof.
  destruct (allocate_run 3 demo_start) as [a' run|a' e|] eqn:Hrun; [|by vm_compute in Hrun..].
  destruct (freeing_undoes_allocation demo_candidates demo_reservations demo_start ∅ 3 a' run demo_pool_state ltac:(done) Hrun) as (a'' & ? & ?).
  by exists a', run, a''.
Defined.
