(* ===== verification/Clock.v ===== *)
(** * The monotonic clock and the one-shot timer

    [kernel/src/time/pm_timer.rs]: the free-running ACPI counter of 24 or 32
    bits extended to 64 bits of ticks and converted to nanoseconds;
    [apic_one_shot_for_delta] of [kernel/src/time/deadline.rs]: the initial
    count that lets the local timer expire at a deadline;
    [kernel/src/time/service.rs] and [init_state.rs]: the request latch of
    the timer service and the byte of its initialization state. *)

From stdpp Require Import base tactics numbers list.
From Stdlib Require Import ZArith Lia.
From S2P Require Import Prelude Abi.
Local Open Scope Z_scope.

Definition ACPI_PM_TIMER_HZ : Z := 3579545.
Definition NANOS_PER_SECOND : Z := 1000000000.

(** Rust's [u32::wrapping_sub]. *)
Definition wrapping_sub (w a b : Z) : Z := (a - b) mod 2 ^ w.

(** Rust's [u64::saturating_sub]. *)
Definition saturating_sub (a b : Z) : Z := Z.max 0 (a - b).

(** [Option::filter]. *)
Definition filter_option {A} (f : A → bool) (o : option A) : option A :=
  match o with Some a => if f a then Some a else None | None => None end.

Module PmTimerWidth.

Inductive t : Type := Bits24 | Bits32.

Definition mask (self : t) : Z :=
  match self with Bits24 => Z.shiftl 1 24 - 1 | Bits32 => 2 ^ 32 - 1 end.

Definition modulus (self : t) : Z := mask self + 1.
Definition maximum_unambiguous_gap_ticks (self : t) : Z := modulus self / 2.
Definition maintenance_arm_ticks (self : t) : Z := modulus self / 4.

End PmTimerWidth.

Module PmTimerError.
Inductive t : Type :=
| InvalidPort
| SampleGapTooLarge
| TickOverflow
| NanosecondOverflow
| MaintenanceOverflow.
End PmTimerError.

Definition ticks_to_nanoseconds (ticks : Z) : Result Z PmTimerError.t :=
  match checked_mul 128 ticks NANOS_PER_SECOND with
  | None => Err PmTimerError.NanosecondOverflow
  | Some product =>
      let value := product / ACPI_PM_TIMER_HZ in
      match filter_option (λ value, value <? DW_DEADLINE_INFINITE) (try_from 64 value) with
      | Some value => Ok value
      | None => Err PmTimerError.NanosecondOverflow
      end
  end.

Module PmTimerDescriptor.

Record t : Type := { port : Z; width : PmTimerWidth.t }.

Definition new (port : Z) (width : PmTimerWidth.t) : Result t PmTimerError.t :=
  if port =? 0 then Err PmTimerError.InvalidPort else Ok {| port := port; width := width |}.

Definition maximum_unambiguous_gap_nanoseconds (self : t) : Result Z PmTimerError.t :=
  ticks_to_nanoseconds (PmTimerWidth.maximum_unambiguous_gap_ticks (width self)).

Definition maintenance_arm_nanoseconds (self : t) : Result Z PmTimerError.t :=
  ticks_to_nanoseconds (PmTimerWidth.maintenance_arm_ticks (width self)).

Definition full_wrap_nanoseconds (self : t) : Result Z PmTimerError.t :=
  ticks_to_nanoseconds (PmTimerWidth.modulus (width self)).

End PmTimerDescriptor.

Record MonotonicSample : Type := { nanoseconds : Z; maintenance_deadline : Z }.

Module PmTimerState.

Record t : Type := {
  descriptor : PmTimerDescriptor.t;
  last_raw : Z;
  extended_ticks : Z;
}.

Definition new (descriptor : PmTimerDescriptor.t) (initial_raw : Z) : t :=
  {| descriptor := descriptor;
     last_raw := Z.land initial_raw (PmTimerWidth.mask (PmTimerDescriptor.width descriptor));
     extended_ticks := 0 |}.

Definition sample (raw : Z) : M t PmTimerError.t MonotonicSample :=
  self ← get;
  let width := PmTimerDescriptor.width (descriptor self) in
  let mask := PmTimerWidth.mask width in
  let current := Z.land raw mask in
  let delta := Z.land (wrapping_sub 32 current (last_raw self)) mask in
  if PmTimerWidth.maximum_unambiguous_gap_ticks width <? delta
  then fail PmTimerError.SampleGapTooLarge
  else
    ticks ← ok_or (checked_add 64 (extended_ticks self) delta) PmTimerError.TickOverflow;
    nanos ← lift (ticks_to_nanoseconds ticks);
    maintenance_delta ← lift (PmTimerDescriptor.maintenance_arm_nanoseconds (descriptor self));
    maintenance ← ok_or (filter_option (λ value, value <? DW_DEADLINE_INFINITE)
                           (checked_add 64 nanos maintenance_delta))
                    PmTimerError.MaintenanceOverflow;
    put {| descriptor := descriptor self; last_raw := current; extended_ticks := ticks |};;
    mret {| nanoseconds := nanos; maintenance_deadline := maintenance |}.

End PmTimerState.

(** * Programming the local timer *)

Module DeadlineQueueError.
Inductive t : Type :=
| Capacity
| InvalidDeadline
| ForeignRegistration
| StaleRegistration
| GenerationExhausted
| InvalidTimerRate
| ArithmeticOverflow.
End DeadlineQueueError.

Record ApicOneShot : Type := { initial_count : Z; reaches_deadline : bool }.

Definition apic_one_shot_for_delta (delta_ns timer_hz : Z) : Result ApicOneShot DeadlineQueueError.t :=
  if timer_hz =? 0 then Err DeadlineQueueError.InvalidTimerRate
  else
    match checked_mul 128 delta_ns timer_hz with
    | None => Err DeadlineQueueError.ArithmeticOverflow
    | Some numerator =>
        match checked_add 128 numerator (NANOS_PER_SECOND - 1) with
        | None => Err DeadlineQueueError.ArithmeticOverflow
        | Some raised =>
            let rounded := raised / NANOS_PER_SECOND in
            let count := Z.max rounded 1 in
            if 2 ^ 32 - 1 <? count
            then Ok {| initial_count := 2 ^ 32 - 1; reaches_deadline := false |}
            else Ok {| initial_count := truncate 32 count; reaches_deadline := true |}
        end
    end.

(** * The timer-service request latch *)

Inductive TimerServiceFault : Type := ServiceFault.

Module TimerServiceSignal.

Record t : Type := { pending : bool; faulted : bool }.

Definition new : t := {| pending := false; faulted := false |}.

(** One load of [faulted]. *)
Definition ensure_healthy : M t TimerServiceFault unit :=
  self ← get;
  if faulted self then fail ServiceFault else mret tt.

Definition publish : M t TimerServiceFault unit :=
  ensure_healthy;;
  modify (λ self, {| pending := true; faulted := faulted self |}).

Definition fail_transport {E} : M t E unit :=
  modify (λ self, {| pending := pending self; faulted := true |}).

(** [take] with the fault it may race with: [late] is whether another CPU
    publishes a fault between the swap and the second check. *)
Definition take (late : bool) : M t TimerServiceFault bool :=
  ensure_healthy;;
  self ← get;
  modify (λ self, {| pending := false; faulted := faulted self |});;
  (if late then fail_transport else mret tt);;
  ensure_healthy;;
  mret (pending self).

End TimerServiceSignal.

(** * Initialization state *)

Module TimeInitState.

Inductive t : Type := Uninitialized | Preparing | Faulted | Initialized.

Definition from_u8 (value : Z) : option t :=
  match value with
  | 0 => Some Uninitialized
  | 1 => Some Preparing
  | 2 => Some Faulted
  | 3 => Some Initialized
  | _ => None
  end.

Definition byte (self : t) : Z :=
  match self with Uninitialized => 0 | Preparing => 1 | Faulted => 2 | Initialized => 3 end.

End TimeInitState.
