(* ===== verification/ClockTheorems.v ===== *)
(** * The clock shows the true time

    The counter wraps; sampled often enough it is extended without loss, and
    sampled too late it is refused rather than guessed. *)

From stdpp Require Import base tactics numbers list.
From Stdlib Require Import ZArith Lia.
From S2P Require Import Prelude Abi Clock.
Local Open Scope Z_scope.

(** The register reads [raw] when the counter has made [ticks] ticks: its
    low bits are those of the count, the bits above the width are anything. *)
Definition shows (width : PmTimerWidth.t) (raw ticks : Z) : Prop :=
  is_uint 32 raw ∧ Z.land raw (PmTimerWidth.mask width) = ticks mod PmTimerWidth.modulus width.

(** Nanoseconds of a number of ticks, rounded down. *)
Definition ns_of (ticks : Z) : Z := ticks * NANOS_PER_SECOND / ACPI_PM_TIMER_HZ.

(** What maintenance adds to the time. *)
Definition arm_ns (width : PmTimerWidth.t) : Z := ns_of (PmTimerWidth.maintenance_arm_ticks width).

(** The state has followed the counter from [origin] to [now]. *)
Record tracks (s : PmTimerState.t) (width : PmTimerWidth.t) (origin now : Z) : Prop := {
  tr_width : PmTimerDescriptor.width (PmTimerState.descriptor s) = width;
  tr_raw : PmTimerState.last_raw s = now mod PmTimerWidth.modulus width;
  tr_ticks : PmTimerState.extended_ticks s = now - origin;
  tr_order : 0 ≤ origin ≤ now;
}.

Lemma mask_ones width : ∃ n, (n = 24 ∨ n = 32) ∧ PmTimerWidth.mask width = Z.ones n ∧ PmTimerWidth.modulus width = 2 ^ n.
Proof. destruct width; [exists 24|exists 32]; split_and!; auto. Qed.

Lemma modulus_pos width : 0 < PmTimerWidth.modulus width.
Proof. by destruct width. Qed.

Lemma ticks_to_nanoseconds_spec ticks : 0 ≤ ticks < 2 ^ 64 →
  ticks_to_nanoseconds ticks =
    if ns_of ticks <? DW_DEADLINE_INFINITE then Ok (ns_of ticks) else Err PmTimerError.NanosecondOverflow.
Proof.
  intros Ht. unfold ticks_to_nanoseconds, checked_mul, try_from, filter_option.
  assert (ticks * NANOS_PER_SECOND < 2 ^ 128) as Hlt.
  { apply Z.lt_trans with (2 ^ 64 * NANOS_PER_SECOND); [|done]. unfold NANOS_PER_SECOND. lia. }
  rewrite (proj2 (Z.ltb_lt _ _) Hlt). fold (ns_of ticks). change (2 ^ 64) with (DW_DEADLINE_INFINITE + 1).
  destruct (Z.ltb_spec (ns_of ticks) (DW_DEADLINE_INFINITE + 1)); [by destruct (_ <? _)|].
  rewrite (proj2 (Z.ltb_ge _ _)) by lia. done.
Qed.

Lemma ns_of_pos ticks : 0 ≤ ticks → 0 ≤ ns_of ticks.
Proof. intros Ht. unfold ns_of. apply Z.div_pos; [|done]. unfold NANOS_PER_SECOND. lia. Qed.

(** The distance the state computes is the true one, less than a wrap. *)
Lemma delta_true width raw now later : shows width raw later → now ≤ later < now + PmTimerWidth.modulus width →
  Z.land (wrapping_sub 32 (Z.land raw (PmTimerWidth.mask width)) (now mod PmTimerWidth.modulus width))
    (PmTimerWidth.mask width) = later - now.
Proof.
  intros [_ ->] Hgap. destruct (mask_ones width) as (n & Hn & -> & Hm). rewrite Hm in *.
  unfold wrapping_sub. rewrite Z.land_ones by lia.
  assert (((later mod 2 ^ n - now mod 2 ^ n) mod 2 ^ 32) mod 2 ^ n = (later mod 2 ^ n - now mod 2 ^ n) mod 2 ^ n) as ->.
  { destruct Hn as [-> | ->]; [|by rewrite Z.mod_mod].
    apply Z.mod_mod_divide. by exists (2 ^ 8). }
  rewrite <- Zminus_mod. apply Z.mod_small. lia.
Qed.

Lemma sample_wp s width origin now raw later : tracks s width origin now → shows width raw later →
  now ≤ later < now + PmTimerWidth.modulus width →
  let gap := PmTimerWidth.maximum_unambiguous_gap_ticks width in
  wp (PmTimerState.sample raw) s
    (λ sample s', later ≤ now + gap ∧ tracks s' width origin later ∧
       sample = {| nanoseconds := ns_of (later - origin);
                   maintenance_deadline := ns_of (later - origin) + arm_ns width |})
    (λ error s', s' = s ∧
       match error with
       | PmTimerError.SampleGapTooLarge => now + gap < later
       | _ => later ≤ now + gap ∧ DW_DEADLINE_INFINITE ≤ ns_of (later - origin) + arm_ns width
       end).
Proof.
  intros [Hw Hraw Hticks Hord] Hshow Hgap gap. unfold PmTimerState.sample. do 2 wp_step. cbv zeta.
  rewrite Hw, Hraw, Hticks, (delta_true _ _ _ _ Hshow Hgap). fold gap.
  destruct (Z.ltb_spec gap (later - now)) as [Hfar|Hnear]; [wp_step; split; [done|lia]|].
  assert (arm_ns width < DW_DEADLINE_INFINITE ∧ 0 ≤ arm_ns width) as [Harm Harm0] by (by destruct width).
  replace (now - origin + (later - now)) with (later - origin) by lia.
  assert (0 ≤ later - origin) as Hpos by lia. pose proof (ns_of_pos _ Hpos) as Hns.
  wp_step. unfold checked_add. replace (now - origin + (later - now)) with (later - origin) by lia.
  destruct (Z.ltb_spec (later - origin) (2 ^ 64)) as [Hlt|Hge].
  2:{ apply wp_ok_or. split; [done|]. split; [lia|]. assert (ns_of (2 ^ 64) ≤ ns_of (later - origin)).
      { apply Z.div_le_mono; [done|]. unfold NANOS_PER_SECOND. lia. }
      assert (DW_DEADLINE_INFINITE ≤ ns_of (2 ^ 64)) by done. lia. }
  apply wp_ok_or. wp_step. apply wp_lift. rewrite ticks_to_nanoseconds_spec by lia.
  destruct (Z.ltb_spec (ns_of (later - origin)) DW_DEADLINE_INFINITE) as [Hfit|Hover]; [|split; [done|lia]].
  wp_step. apply wp_lift. unfold PmTimerDescriptor.maintenance_arm_nanoseconds. rewrite Hw.
  rewrite ticks_to_nanoseconds_spec by (by destruct width). fold (arm_ns width). rewrite (proj2 (Z.ltb_lt _ _) Harm).
  wp_step. unfold filter_option. change (2 ^ 64) with (DW_DEADLINE_INFINITE + 1).
  destruct (Z.ltb_spec (ns_of (later - origin) + arm_ns width) (DW_DEADLINE_INFINITE + 1)) as [Hsum|Hsum];
    [destruct (Z.ltb_spec (ns_of (later - origin) + arm_ns width) DW_DEADLINE_INFINITE)|];
    apply wp_ok_or; [|split; [done|lia]..].
  do 3 wp_step. split_and!; [lia| |done]. destruct Hshow as [_ Hshow]. split; simpl; [done|by rewrite Hshow|done|lia].
Qed.

(** One sample after another. *)
Fixpoint samples (raws : list Z) : M PmTimerState.t PmTimerError.t (list MonotonicSample) :=
  match raws with
  | [] => mret []
  | raw :: raws =>
      sample ← PmTimerState.sample raw;
      rest ← samples raws;
      mret (sample :: rest)
  end.

(** The counts do not run backwards, and none is more than [gap] after the
    one before. *)
Fixpoint steady (gap now : Z) (counts : list Z) : Prop :=
  match counts with
  | [] => True
  | later :: counts => now ≤ later ≤ now + gap ∧ steady gap later counts
  end.

Definition reads (width : PmTimerWidth.t) (origin ticks : Z) : MonotonicSample :=
  {| nanoseconds := ns_of (ticks - origin); maintenance_deadline := ns_of (ticks - origin) + arm_ns width |}.

Lemma default_last {A} (d x : A) xs : default d (last (x :: xs)) = default x (last xs).
Proof.
  destruct xs as [|y xs]; [done|]. rewrite last_cons_cons.
  destruct (last (y :: xs)) eqn:Hl; [done|]. by apply last_None in Hl.
Qed.

Lemma samples_wp width origin readings s now :
  tracks s width origin now → Forall (λ '(raw, ticks), shows width raw ticks) readings →
  steady (PmTimerWidth.maximum_unambiguous_gap_ticks width) now (snd <$> readings) →
  Forall (λ '(_, ticks), ns_of (ticks - origin) + arm_ns width < DW_DEADLINE_INFINITE) readings →
  wp (samples (fst <$> readings)) s
    (λ xs s', xs = (λ '(_, ticks), reads width origin ticks) <$> readings ∧
       tracks s' width origin (default now (last (snd <$> readings))))
    (λ _ _, False).
Proof.
  revert s now. induction readings as [|[raw later] readings IH]; intros s now Htr Hshow Hst Hfit; [done|].
  apply Forall_cons in Hshow as [Hsh Hshow]. apply Forall_cons in Hfit as [Hf Hfit]. cbn [fmap list_fmap snd steady] in Hst.
  destruct Hst as [Hgap Hst].
  assert (PmTimerWidth.maximum_unambiguous_gap_ticks width < PmTimerWidth.modulus width) by (by destruct width).
  simpl. wp_step. eapply wp_mono; [apply (sample_wp _ _ _ _ _ later Htr Hsh); lia| |].
  - intros sample s' (_ & Htr' & ->). wp_step. eapply wp_mono; [by eapply IH| |done].
    intros xs s'' [-> Hlast]. wp_step. split; [done|]. cbn [fmap list_fmap snd]. by rewrite default_last.
  - intros error ? [_ Hno]. destruct error; lia.
Qed.

Lemma new_tracks d raw now : 0 ≤ now → shows (PmTimerDescriptor.width d) raw now →
  tracks (PmTimerState.new d raw) (PmTimerDescriptor.width d) now now.
Proof. intros H0 [_ Hs]. split; simpl; [done|done|lia|lia]. Qed.

(** C21. A clock that is sampled often enough is exact.  From a counter at
    [origin], each reading taken at most half a wrap after the one before
    yields the nanoseconds of the ticks that really passed, across any number
    of wraps (and so the time never runs backwards), with the maintenance
    deadline a quarter wrap later.  A reading taken later than half a wrap,
    and before a full one, is refused and changes nothing. *)
Theorem clock_reads_true_time d raw0 origin readings :
  let width := PmTimerDescriptor.width d in
  let gap := PmTimerWidth.maximum_unambiguous_gap_ticks width in
  0 ≤ origin → shows width raw0 origin → Forall (λ '(raw, ticks), shows width raw ticks) readings →
  steady gap origin (snd <$> readings) →
  Forall (λ '(_, ticks), ns_of (ticks - origin) + arm_ns width < DW_DEADLINE_INFINITE) readings →
  ∃ s, samples (fst <$> readings) (PmTimerState.new d raw0) =
         Ret s ((λ '(_, ticks), reads width origin ticks) <$> readings) ∧
    ∀ raw ticks, shows width raw ticks →
      let now := default origin (last (snd <$> readings)) in
      now + gap < ticks < now + PmTimerWidth.modulus width →
      PmTimerState.sample raw s = Fail s PmTimerError.SampleGapTooLarge.
Proof.
  intros width gap H0 Hs0 Hshow Hst Hfit.
  pose proof (samples_wp _ _ _ _ _ (new_tracks _ _ _ H0 Hs0) Hshow Hst Hfit) as Hwp. unfold wp in Hwp.
  destruct (samples _ _) as [s xs|s e|]; [|done..]. destruct Hwp as [-> Htr]. exists s. split; [done|].
  intros raw ticks Hsh now Hfar. assert (0 ≤ gap) by (unfold gap; by destruct width).
  pose proof (sample_wp s width origin now raw ticks Htr Hsh ltac:(lia)) as Hone. unfold wp in Hone.
  destruct (PmTimerState.sample raw s) as [s' sample|s' e|]; [unfold gap in *; lia| |done].
  destruct Hone as [-> Hno]. destruct e; try done; unfold gap in *; lia.
Qed.

Lemma clock_reads_true_time_witness : ∃ s,
  samples [0x10; 0xaa7ffff0] (PmTimerState.new
    {| PmTimerDescriptor.port := 0x608; PmTimerDescriptor.width := PmTimerWidth.Bits24 |} 0xfffff0) =
  Ret s [reads PmTimerWidth.Bits24 0xfffff0 0x1000010; reads PmTimerWidth.Bits24 0xfffff0 0x17ffff0].
Proof.
  destruct (clock_reads_true_time
    {| PmTimerDescriptor.port := 0x608; PmTimerDescriptor.width := PmTimerWidth.Bits24 |}
    0xfffff0 0xfffff0 [(0x10, 0x1000010); (0xaa7ffff0, 0x17ffff0)]) as (s & Hs & _); [done|done| | | |].
  - by repeat (apply Forall_cons; split).
  - by vm_compute.
  - by repeat (apply Forall_cons; split).
  - by exists s.
Defined.

(** ** The one-shot timer *)

(** [delta_ns] at [timer_hz] is [count] counts: not early, and less than one
    count late unless one count is already too long. *)
Definition shot_spec (delta_ns timer_hz : Z) (shot : ApicOneShot) : Prop :=
  1 ≤ initial_count shot < 2 ^ 32 ∧
  if reaches_deadline shot then
    delta_ns * timer_hz ≤ initial_count shot * NANOS_PER_SECOND ∧
    (initial_count shot = 1 ∨ initial_count shot * NANOS_PER_SECOND < delta_ns * timer_hz + NANOS_PER_SECOND)
  else initial_count shot = 2 ^ 32 - 1 ∧ initial_count shot * NANOS_PER_SECOND < delta_ns * timer_hz.

Lemma one_shot_spec delta_ns timer_hz : is_uint 64 delta_ns → is_uint 64 timer_hz →
  match apic_one_shot_for_delta delta_ns timer_hz with
  | Ok shot => 0 < timer_hz ∧ shot_spec delta_ns timer_hz shot
  | Err error => timer_hz = 0 ∧ error = DeadlineQueueError.InvalidTimerRate
  end.
Proof.
  intros [Hd0 Hd] [Hh0 Hh]. unfold apic_one_shot_for_delta. destruct (Z.eqb_spec timer_hz 0) as [->|Hne]; [done|].
  set (n := delta_ns * timer_hz). assert (0 ≤ n ≤ (2 ^ 64 - 1) * (2 ^ 64 - 1)) as Hn by (unfold n; nia).
  assert ((2 ^ 64 - 1) * (2 ^ 64 - 1) + 999999999 < 2 ^ 128) by done.
  unfold checked_mul, checked_add. fold n. rewrite (proj2 (Z.ltb_lt n _)) by lia.
  change (NANOS_PER_SECOND - 1) with 999999999. rewrite (proj2 (Z.ltb_lt _ _)) by lia.
  pose proof (Z.mul_div_le (n + 999999999) NANOS_PER_SECOND ltac:(done)) as Hlo.
  pose proof (Z.mul_succ_div_gt (n + 999999999) NANOS_PER_SECOND ltac:(done)) as Hhi.
  set (q := (n + 999999999) / NANOS_PER_SECOND) in *. cbv zeta. unfold NANOS_PER_SECOND in Hlo, Hhi.
  destruct (Z.ltb_spec (2 ^ 32 - 1) (Z.max q 1)) as [Hbig|Hsmall]; (split; [lia|]); unfold shot_spec, NANOS_PER_SECOND; simpl.
  - split; [lia|]. split; [done|]. lia.
  - unfold truncate. rewrite Z.mod_small by lia. lia.
Qed.
