(* ===== verification/Deadline.v ===== *)
(** * Deadline queues and deadline sources

    [kernel/src/time/deadline.rs]: a table of generation-counted slots, each
    with a deadline and a payload; [kernel/src/time/arbiter.rs]: the
    scheduler's own deadline of one CPU, the earliest of several sources, and
    the generations that tell the newest hardware arm from older ones. *)

From stdpp Require Import base tactics numbers list.
From Stdlib Require Import ZArith Lia.
From S2P Require Import Prelude Abi Wait Clock.
Local Open Scope Z_scope.

Definition DEADLINE_QUEUE_CAPACITY : nat := 64.

(** The static [NEXT_DEADLINE_DOMAIN] is the state. *)
Definition mint_domain {E} : M Z E Z :=
  value ← get;
  next ← expect (next_nonzero 64 value);
  put next;;
  mret value.

(** [Option::is_none]. *)
Definition is_none {A} (o : option A) : bool := match o with Some _ => false | None => true end.

Module DeadlineClass.
Inductive t : Type := Now | Finite (deadline : Z) | Infinite.
End DeadlineClass.

Definition classify_deadline (deadline : Z) : DeadlineClass.t :=
  if deadline =? DW_DEADLINE_NOW then DeadlineClass.Now
  else if deadline =? DW_DEADLINE_INFINITE then DeadlineClass.Infinite
  else DeadlineClass.Finite deadline.

Record DeadlineEntry (T : Type) : Type := { deadline_ns : Z; payload : T }.
Arguments deadline_ns {T} _.
Arguments payload {T} _.

Record DeadlineSlot (T : Type) : Type := { generation : Z; entry : option (DeadlineEntry T) }.
Arguments generation {T} _.
Arguments entry {T} _.

Record DeadlineRegistration : Type := {
  registration_domain : Z;
  registration_slot : nat;
  registration_generation : Z;
}.

Module DeadlineQueue.

Section queue.
Context {T : Type}.

Record t : Type := { domain : Z; slots : list (DeadlineSlot T) }.

Definition empty_slot : DeadlineSlot T := {| generation := 0; entry := None |}.

Definition new {E} (CAPACITY : nat) : M Z E t :=
  domain ← mint_domain;
  mret {| domain := domain; slots := replicate CAPACITY empty_slot |}.

Definition with_slot (index : nat) (slot : DeadlineSlot T) (self : t) : t :=
  {| domain := domain self; slots := <[index := slot]> (slots self) |}.

(** [deadline_ns == DW_DEADLINE_NOW.0 || deadline_ns == DW_DEADLINE_INFINITE.0] *)
Definition is_sentinel (deadline : Z) : bool :=
  (deadline =? DW_DEADLINE_NOW) || (deadline =? DW_DEADLINE_INFINITE).

(** The closure of [find_map]: the generation a free slot would get. *)
Definition next_in (slot : DeadlineSlot T) : option Z :=
  if is_none (entry slot) then next_nonzero 32 (generation slot) else None.

(** [iter().enumerate().find_map(..)], counting from [from]. *)
Fixpoint find_free (from : nat) (slots : list (DeadlineSlot T)) : option (nat * Z) :=
  match slots with
  | [] => None
  | slot :: slots =>
      match next_in slot with
      | Some generation => Some (from, generation)
      | None => find_free (S from) slots
      end
  end.

Definition register (deadline : Z) (payload : T) : M t DeadlineQueueError.t DeadlineRegistration :=
  if is_sentinel deadline then fail DeadlineQueueError.InvalidDeadline
  else
    self ← get;
    let has_empty_slot := existsb (λ slot, is_none (entry slot)) (slots self) in
    '(slot, generation) ← ok_or (find_free 0 (slots self))
      (if has_empty_slot then DeadlineQueueError.GenerationExhausted else DeadlineQueueError.Capacity);
    slot ← ok_or (try_from 16 (Z.of_nat slot)) DeadlineQueueError.Capacity;
    let slot := Z.to_nat slot in
    assert_that (slot <? length (slots self))%nat;;
    modify (with_slot slot
      {| generation := generation; entry := Some {| deadline_ns := deadline; payload := payload |} |});;
    mret {| registration_domain := domain self; registration_slot := slot;
            registration_generation := generation |}.

Definition cancel (registration : DeadlineRegistration) : M t DeadlineQueueError.t T :=
  self ← get;
  if negb (registration_domain registration =? domain self) then fail DeadlineQueueError.ForeignRegistration
  else
    slot ← ok_or (slots self !! registration_slot registration) DeadlineQueueError.StaleRegistration;
    if negb (generation slot =? registration_generation registration)
    then fail DeadlineQueueError.StaleRegistration
    else
      modify (with_slot (registration_slot registration) {| generation := generation slot; entry := None |});;
      ok_or (payload <$> entry slot) DeadlineQueueError.StaleRegistration.

Definition replace_if_live (registration : DeadlineRegistration) (deadline : Z) (payload : T)
    : M t DeadlineQueueError.t (option DeadlineRegistration) :=
  if is_sentinel deadline then fail DeadlineQueueError.InvalidDeadline
  else
    self ← get;
    if negb (registration_domain registration =? domain self) then fail DeadlineQueueError.ForeignRegistration
    else
      slot ← ok_or (slots self !! registration_slot registration) DeadlineQueueError.StaleRegistration;
      if generation slot <? registration_generation registration
      then fail DeadlineQueueError.StaleRegistration
      else if (registration_generation registration <? generation slot)
              || is_none (entry slot)
      then mret None
      else
        generation ← ok_or (next_nonzero 32 (generation slot)) DeadlineQueueError.GenerationExhausted;
        modify (with_slot (registration_slot registration)
          {| generation := generation;
             entry := Some {| deadline_ns := deadline; payload := payload |} |});;
        mret (Some {| registration_domain := domain self;
                      registration_slot := registration_slot registration;
                      registration_generation := generation |}).

Definition cancel_if_live_ref (registration : DeadlineRegistration)
    : M t DeadlineQueueError.t (option T) :=
  self ← get;
  if negb (registration_domain registration =? domain self) then fail DeadlineQueueError.ForeignRegistration
  else
    slot ← ok_or (slots self !! registration_slot registration) DeadlineQueueError.StaleRegistration;
    if generation slot <? registration_generation registration
    then fail DeadlineQueueError.StaleRegistration
    else if registration_generation registration <? generation slot then mret None
    else
      modify (with_slot (registration_slot registration) {| generation := generation slot; entry := None |});;
      mret (payload <$> entry slot).

Definition cancel_if_live : DeadlineRegistration → M t DeadlineQueueError.t (option T) :=
  cancel_if_live_ref.

Definition earliest (self : t) : option Z :=
  WaitRegistry.minimum (omap (λ slot, deadline_ns <$> entry slot) (slots self)).

(** Whether [expire] takes the entry of the slot. *)
Definition due (now_ns : Z) (slot : DeadlineSlot T) : bool :=
  match entry slot with Some entry => deadline_ns entry <=? now_ns | None => false end.

(** The loop of [expire] over [self.slots], with [output] and [count]. *)
Definition expire {E} (now_ns : Z) (output : list (option T)) : M t E (list (option T) * nat) :=
  self ← get;
  for_each (seq 0 (length (slots self))) (λ index '(output, count),
    self ← get;
    slot ← expect (slots self !! index);
    if due now_ns slot then
      entry ← expect (entry slot);
      modify (with_slot index {| generation := generation slot; entry := None |});;
      assert_that (count <? length output)%nat;;
      mret (<[count := Some (payload entry)]> output, (count + 1)%nat)
    else mret (output, count)) (replicate (length output) None, 0%nat).

End queue.
Arguments t : clear implicits.

End DeadlineQueue.

(** * The sources of one CPU *)

Record LogicalDeadline (T : Type) : Type := {
  logical_generation : Z;
  logical_deadline_ns : Z;
  logical_payload : T;
}.
Arguments logical_generation {T} _.
Arguments logical_deadline_ns {T} _.
Arguments logical_payload {T} _.

Module DeadlineSourceError.
Inductive t : Type := InvalidGeneration | InvalidDeadline | GenerationRegression.
End DeadlineSourceError.

Module LocalDeadlineSource.

Section source.
Context {T : Type} `{EqDecision T}.

Record t : Type := { armed : option (LogicalDeadline T); last_generation : Z }.

Definition new : t := {| armed := None; last_generation := 0 |}.

Definition earliest (self : t) : option Z := logical_deadline_ns <$> armed self.

Definition replace (generation deadline : Z) (payload : T) : M t DeadlineSourceError.t unit :=
  if generation =? 0 then fail DeadlineSourceError.InvalidGeneration
  else if (deadline =? 0) || (deadline =? 2 ^ 64 - 1) then fail DeadlineSourceError.InvalidDeadline
  else
    self ← get;
    if generation <=? last_generation self then fail DeadlineSourceError.GenerationRegression
    else
      put {| armed := Some {| logical_generation := generation; logical_deadline_ns := deadline;
                              logical_payload := payload |};
             last_generation := generation |}.

Definition cancel {E} (generation : Z) (payload : T) : M t E bool :=
  self ← get;
  if match armed self with
     | Some armed => (logical_generation armed =? generation) && bool_decide (logical_payload armed = payload)
     | None => false
     end
  then put {| armed := None; last_generation := last_generation self |};; mret true
  else mret false.

Definition take_due {E} (now_ns : Z) : M t E (option T) :=
  self ← get;
  if match armed self with Some armed => logical_deadline_ns armed <=? now_ns | None => false end
  then put {| armed := None; last_generation := last_generation self |};;
       mret (logical_payload <$> armed self)
  else mret None.

End source.
Arguments t : clear implicits.

End LocalDeadlineSource.

(** The [while] loop over the three sources. *)
Definition earliest_deadline (sources : list (option Z)) (maintenance_deadline : Z) : Z :=
  foldl (λ earliest source,
    match source with
    | Some deadline => if deadline <? earliest then deadline else earliest
    | None => earliest
    end) maintenance_deadline sources.

Record HardwareArmIntent : Type := {
  arm_generation : Z;
  arm_source_revision : Z;
  arm_deadline_ns : Z;
  arm_shot : ApicOneShot;
}.

Record HardwareStopIntent : Type := { stop_generation : Z; stop_source_revision : Z }.

Module PhysicalArmSequence.

Record t : Type := { next_generation : Z; desired_generation : Z; source_revision : Z }.

Definition initialized : t :=
  {| next_generation := 2; desired_generation := 1; source_revision := 1 |}.

Definition source_mutated : M t DeadlineQueueError.t unit :=
  self ← get;
  revision ← ok_or (next_nonzero 64 (source_revision self)) DeadlineQueueError.GenerationExhausted;
  put {| next_generation := next_generation self; desired_generation := desired_generation self;
         source_revision := revision |}.

(** The generation of the next intent: the counter has advanced even when
    the intent is then refused. *)
Definition take_generation : M t DeadlineQueueError.t Z :=
  self ← get;
  next ← ok_or (next_nonzero 64 (next_generation self)) DeadlineQueueError.GenerationExhausted;
  put {| next_generation := next; desired_generation := desired_generation self;
         source_revision := source_revision self |};;
  mret (next_generation self).

Definition desire {E} (generation : Z) : M t E unit :=
  modify (λ self, {| next_generation := next_generation self; desired_generation := generation;
                     source_revision := source_revision self |}).

Definition prepare (deadline now_ns timer_hz : Z) : M t DeadlineQueueError.t HardwareArmIntent :=
  generation ← take_generation;
  shot ← lift (apic_one_shot_for_delta (saturating_sub deadline now_ns) timer_hz);
  desire generation;;
  self ← get;
  mret {| arm_generation := generation; arm_source_revision := source_revision self;
          arm_deadline_ns := deadline; arm_shot := shot |}.

Definition prepare_stop : M t DeadlineQueueError.t HardwareStopIntent :=
  generation ← take_generation;
  desire generation;;
  self ← get;
  mret {| stop_generation := generation; stop_source_revision := source_revision self |}.

Definition is_current (self : t) (intent : HardwareArmIntent) : bool :=
  (desired_generation self =? arm_generation intent) && (source_revision self =? arm_source_revision intent).

Definition is_stop_current (self : t) (intent : HardwareStopIntent) : bool :=
  (desired_generation self =? stop_generation intent) && (source_revision self =? stop_source_revision intent).

End PhysicalArmSequence.
