(* ===== verification/DeadlineFacts.v ===== *)
(** * Facts about deadline queues

    A registration names a slot and a generation; [at_key] is the entry it
    stands for, if it still stands for one.  The operations are specified by
    what they do to [at_key] and to the set of keys ever issued. *)

From stdpp Require Import base tactics numbers list.
From Stdlib Require Import ZArith Lia.
From S2P Require Import Prelude Abi Wait WaitFacts Clock Deadline.
Import DeadlineQueue.
Local Open Scope Z_scope.

(** A slot and a generation. *)
Abbreviation key := (nat * Z)%type.

Definition key_of (registration : DeadlineRegistration) : key :=
  (registration_slot registration, registration_generation registration).

Definition registration_of (domain : Z) (k : key) : DeadlineRegistration :=
  {| registration_domain := domain; registration_slot := k.1; registration_generation := k.2 |}.

Section facts.
Context {T : Type}.
Implicit Types (q : DeadlineQueue.t T) (k : key) (s : DeadlineSlot T).

Definition at_key q k : option (DeadlineEntry T) :=
  match slots q !! k.1 with
  | Some s => if generation s =? k.2 then entry s else None
  | None => None
  end.

(** The key was issued by some registration. *)
Definition issued q k : Prop := ∃ s, slots q !! k.1 = Some s ∧ 1 ≤ k.2 ≤ generation s.

Record slot_wf s : Prop := {
  sw_generation : is_uint 32 (generation s);
  sw_entry : is_Some (entry s) → 1 ≤ generation s;
}.

Definition queue_wf q : Prop := Forall slot_wf (slots q).

(** The queue differs from [q] in the keys of one slot. *)
Record sets_slot q (i : nat) s q' : Prop := {
  ss_domain : domain q' = domain q;
  ss_slots : slots q' = <[i := s]> (slots q);
  ss_range : (i < length (slots q))%nat;
}.

Lemma with_slot_sets q i s : (i < length (slots q))%nat → sets_slot q i s (with_slot i s q).
Proof. done. Qed.

Lemma sets_at_key q i s q' k : sets_slot q i s q' →
  at_key q' k = if decide (k.1 = i) then if generation s =? k.2 then entry s else None else at_key q k.
Proof.
  intros [_ Hs Hi]. unfold at_key. rewrite Hs. case_decide as Hk.
  - rewrite Hk, list_lookup_insert_eq by done. done.
  - by rewrite list_lookup_insert_ne.
Qed.

Lemma sets_wf q i s q' : queue_wf q → slot_wf s → sets_slot q i s q' → queue_wf q'.
Proof. intros Hq Hs [_ Hsl _]. unfold queue_wf. rewrite Hsl. by apply Forall_insert. Qed.

Lemma queue_wf_slot q i s : queue_wf q → slots q !! i = Some s → slot_wf s.
Proof. intros Hq Hi. unfold queue_wf in Hq. rewrite Forall_lookup in Hq. eauto. Qed.

(** Keys stay issued. *)
Lemma sets_issued q i s s' q' k : slots q !! i = Some s → sets_slot q i s' q' → generation s ≤ generation s' →
  issued q k → issued q' k.
Proof.
  intros Hi [_ Hsl Hlt] Hge (s0 & Hk & Hg). unfold issued. rewrite Hsl. destruct (decide (k.1 = i)) as [Heq|Hne].
  - rewrite Heq, list_lookup_insert_eq by done. rewrite Heq, Hi in Hk. injection Hk as <-. exists s'. split; [done|lia].
  - rewrite list_lookup_insert_ne by done. by exists s0.
Qed.

Lemma at_key_issued q k e : queue_wf q → at_key q k = Some e → issued q k.
Proof.
  intros Hq. unfold at_key. destruct (slots q !! k.1) as [s|] eqn:Hs; [|done].
  destruct (Z.eqb_spec (generation s) k.2) as [Heq|]; [|done]. intros He. exists s. split; [done|].
  destruct (queue_wf_slot _ _ _ Hq Hs) as [_ Hge]. rewrite He in Hge. specialize (Hge ltac:(done)). lia.
Qed.

(** ** Registration *)

Lemma next_in_spec s g : slot_wf s → next_in s = Some g ↔
  entry s = None ∧ g = generation s + 1 ∧ generation s + 1 < 2 ^ 32.
Proof.
  intros [[H0 _] _]. unfold next_in. destruct (entry s); simpl; [split; [done|by intros []]|].
  rewrite next_nonzero_Some by done. naive_solver lia.
Qed.

Lemma find_free_Some from ss i g : find_free (T:=T) from ss = Some (i, g) →
  ∃ j s, i = (from + j)%nat ∧ ss !! j = Some s ∧ next_in s = Some g ∧
    ∀ j' s', (j' < j)%nat → ss !! j' = Some s' → next_in s' = None.
Proof.
  revert from. induction ss as [|s ss IH]; intros from; simpl; [done|]. destruct (next_in s) as [g'|] eqn:Hn.
  - intros [= <- <-]. exists 0%nat, s. split_and!; [lia|done|done|lia].
  - intros (j & s' & -> & Hj & Hg & Hfirst)%IH. exists (S j), s'. split_and!; [lia|done|done|].
    intros [|j'] s'' Hlt; simpl; [by intros [= <-]|]. apply Hfirst. lia.
Qed.

Lemma find_free_None from ss s : find_free (T:=T) from ss = None → s ∈ ss → next_in s = None.
Proof.
  revert from. induction ss as [|s' ss IH]; intros from; simpl; [by intros _ ?%elem_of_nil|].
  destruct (next_in s') eqn:Hn; [done|]. intros Hf [->|Hin]%elem_of_cons; [done|by eapply IH].
Qed.

Lemma is_sentinel_spec d : is_sentinel d = true ↔ d = DW_DEADLINE_NOW ∨ d = DW_DEADLINE_INFINITE.
Proof. unfold is_sentinel. rewrite orb_true_iff, !Z.eqb_eq. done. Qed.

(** A fresh key [k] for [e] is added. *)
Record adds q k (e : DeadlineEntry T) q' : Prop := {
  ad_wf : queue_wf q';
  ad_domain : domain q' = domain q;
  ad_length : length (slots q') = length (slots q);
  ad_fresh : ¬ issued q k;
  ad_issued k' : issued q k' → issued q' k';
  ad_new : issued q' k;
  ad_at k' : at_key q' k' = if decide (k' = k) then Some e else at_key q k';
}.

Lemma bump_adds q i s e q' : queue_wf q → slots q !! i = Some s → entry s = None → generation s + 1 < 2 ^ 32 →
  sets_slot q i {| generation := generation s + 1; entry := Some e |} q' → adds q (i, generation s + 1) e q'.
Proof.
  intros Hq Hi Hn Hlt Hset. pose proof (queue_wf_slot _ _ _ Hq Hi) as [[H0 _] _]. split.
  - eapply sets_wf; [done| |done]. split; simpl; [unfold is_uint; lia|lia].
  - apply Hset.
  - by rewrite (ss_slots _ _ _ _ Hset), length_insert.
  - intros (s' & Hs' & Hg). simpl in *. rewrite Hi in Hs'. injection Hs' as <-. lia.
  - intros k'. eapply sets_issued; [done..|]. simpl. lia.
  - eexists. simpl. rewrite (ss_slots _ _ _ _ Hset), list_lookup_insert_eq by apply Hset. split; [done|]. simpl. lia.
  - intros [j g]. rewrite (sets_at_key _ _ _ _ _ Hset). simpl. destruct (decide (j = i)) as [->|Hne].
    + destruct (Z.eqb_spec (generation s + 1) g) as [<-|Hg]; [by rewrite decide_True|].
      rewrite decide_False by congruence. unfold at_key. simpl. rewrite Hi. by destruct (_ =? _).
    + by rewrite decide_False by congruence.
Qed.

(** Why nothing is registered. *)
Definition not_registered q (deadline : Z) (error : DeadlineQueueError.t) : Prop :=
  match error with
  | DeadlineQueueError.InvalidDeadline => is_sentinel deadline = true
  | DeadlineQueueError.Capacity | DeadlineQueueError.GenerationExhausted =>
      ∀ i s, (Z.of_nat i < 2 ^ 16) → slots q !! i = Some s → is_Some (entry s) ∨ generation s = 2 ^ 32 - 1
  | _ => False
  end.

Lemma register_deadline_wp deadline payload q : queue_wf q →
  wp (register deadline payload) q
    (λ registration q', is_sentinel deadline = false ∧ registration_domain registration = domain q ∧
       adds q (key_of registration) {| deadline_ns := deadline; payload := payload |} q')
    (λ error q', q' = q ∧ not_registered q deadline error).
Proof.
  intros Hq. unfold register. destruct (is_sentinel deadline) eqn:Hsen; [by wp_step|]. do 3 wp_step.
  assert (∀ i s, slots q !! i = Some s → next_in s = None → is_Some (entry s) ∨ generation s = 2 ^ 32 - 1) as Hstuck.
  { intros i s Hi Hn. destruct (entry s) eqn:He; [by left|right]. pose proof (queue_wf_slot _ _ _ Hq Hi) as Hs.
    pose proof (next_in_spec s (generation s + 1) Hs) as Hspec. rewrite Hn in Hspec.
    pose proof (sw_generation _ Hs) as [_ Hlt]. assert (¬ generation s + 1 < 2 ^ 32) by naive_solver. lia. }
  destruct (find_free 0 (slots q)) as [[i g]|] eqn:Hfind; apply wp_ok_or.
  2:{ split; [done|]. assert (∀ i s, slots q !! i = Some s → is_Some (entry s) ∨ generation s = 2 ^ 32 - 1) as Hall.
      { intros i s Hi. eapply Hstuck; [done|]. eapply find_free_None; [done|by eapply list_elem_of_lookup_2]. }
      by destruct (existsb _ _); simpl; eauto. }
  pose proof (find_free_Some _ _ _ _ Hfind) as (j & s & Hij & Hs & Hg & Hfirst). simpl in Hij. subst j.
  apply next_in_spec in Hg as (Hn & -> & Hlt); [|by eapply queue_wf_slot].
  wp_step. unfold try_from. destruct (Z.ltb_spec (Z.of_nat i) (2 ^ 16)) as [H16|H16]; apply wp_ok_or.
  2:{ split; [done|]. intros i' s' Hi' Hs'. eapply Hstuck; [done|]. eapply Hfirst; [|done]. lia. }
  rewrite Nat2Z.id. wp_step. pose proof (lookup_lt_Some _ _ _ Hs) as Hi.
  apply wp_assert; [by apply Nat.ltb_lt|]. do 3 wp_step. split_and!; [done..|]. by apply bump_adds.
Qed.

(** ** Cancellation *)

(** The entry of [k] is taken out. *)
Record removes q k q' : Prop := {
  rm_wf : queue_wf q';
  rm_domain : domain q' = domain q;
  rm_length : length (slots q') = length (slots q);
  rm_issued k' : issued q k' ↔ issued q' k';
  rm_at k' : at_key q' k' = if decide (k' = k) then None else at_key q k';
}.

Lemma removes_refl q k : queue_wf q → at_key q k = None → removes q k q.
Proof. intros Hq Hk. split; try done. intros k'. by case_decide; subst. Qed.

Lemma clear_removes q i s q' : queue_wf q → slots q !! i = Some s →
  sets_slot q i {| generation := generation s; entry := None |} q' → removes q (i, generation s) q'.
Proof.
  intros Hq Hi Hset. pose proof (queue_wf_slot _ _ _ Hq Hi) as [Hg _]. split.
  - eapply sets_wf; [done| |done]. split; simpl; [done|by intros []].
  - apply Hset.
  - by rewrite (ss_slots _ _ _ _ Hset), length_insert.
  - intros k. split; [by eapply sets_issued|]. intros (s' & Hs' & Hr). rewrite (ss_slots _ _ _ _ Hset) in Hs'.
    destruct (decide (k.1 = i)) as [Heq|Hne].
    + rewrite Heq, list_lookup_insert_eq in Hs' by apply Hset. injection Hs' as <-. exists s. by rewrite Heq.
    + rewrite list_lookup_insert_ne in Hs' by done. by exists s'.
  - intros [j g]. rewrite (sets_at_key _ _ _ _ _ Hset). simpl. destruct (decide (j = i)) as [->|Hne].
    + destruct (Z.eqb_spec (generation s) g) as [<-|Hne]; [by rewrite decide_True|].
      rewrite decide_False by congruence. unfold at_key. simpl. rewrite Hi. by rewrite (proj2 (Z.eqb_neq _ _)).
    + by rewrite decide_False by congruence.
Qed.

Lemma at_key_slot q i s : slots q !! i = Some s → at_key q (i, generation s) = entry s.
Proof. intros Hi. unfold at_key. simpl. by rewrite Hi, Z.eqb_refl. Qed.

Lemma at_key_other q i s g : slots q !! i = Some s → g ≠ generation s → at_key q (i, g) = None.
Proof. intros Hi Hne. unfold at_key. simpl. rewrite Hi. by rewrite (proj2 (Z.eqb_neq _ _)). Qed.

(** A registration of this queue is cancelled, or found consumed. *)
Lemma cancel_if_live_wp registration q : queue_wf q → registration_domain registration = domain q →
  issued q (key_of registration) →
  wp (cancel_if_live_ref registration) q
    (λ result q', result = payload <$> at_key q (key_of registration) ∧ removes q (key_of registration) q')
    (λ _ _, False).
Proof.
  intros Hq Hd (s & Hs & Hg). unfold key_of in *. simpl in *. unfold cancel_if_live_ref. do 2 wp_step.
  rewrite Hd, Z.eqb_refl. cbn [negb]. wp_step. rewrite Hs. apply wp_ok_or.
  rewrite (proj2 (Z.ltb_ge _ _)) by lia. destruct (Z.ltb_spec (registration_generation registration) (generation s)).
  - wp_step. rewrite (at_key_other _ _ s) by (done || lia). split; [done|]. apply removes_refl; [done|].
    by apply (at_key_other _ _ s); [|lia].
  - assert (registration_generation registration = generation s) as -> by lia. do 3 wp_step.
    rewrite (at_key_slot _ _ _ Hs). split; [done|]. apply clear_removes; [done..|].
    apply with_slot_sets. by eapply lookup_lt_Some.
Qed.

Lemma cancel_deadline_wp registration q : queue_wf q → registration_domain registration = domain q →
  issued q (key_of registration) →
  wp (cancel registration) q
    (λ result q', Some result = payload <$> at_key q (key_of registration) ∧ removes q (key_of registration) q')
    (λ error q', error = DeadlineQueueError.StaleRegistration ∧ at_key q (key_of registration) = None ∧
       removes q (key_of registration) q').
Proof.
  intros Hq Hd (s & Hs & Hg). unfold key_of in *. simpl in *. unfold cancel. do 2 wp_step.
  rewrite Hd, Z.eqb_refl. cbn [negb]. wp_step. rewrite Hs. apply wp_ok_or.
  destruct (Z.eqb_spec (generation s) (registration_generation registration)) as [<-|Hne]; cbn [negb].
  - do 2 wp_step. rewrite (at_key_slot _ _ _ Hs).
    assert (removes q (registration_slot registration, generation s)
      (with_slot (registration_slot registration) {| generation := generation s; entry := None |} q)) as Hrm.
    { apply clear_removes; [done..|]. apply with_slot_sets. by eapply lookup_lt_Some. }
    destruct (entry s); apply wp_ok_or; done.
  - wp_step. assert (at_key q (registration_slot registration, registration_generation registration) = None) as Hnone.
    { apply (at_key_other _ _ s); [done|congruence]. }
    split_and!; [done..|]. by apply removes_refl.
Qed.

(** The entry of [k] is replaced by the entry [e] under a fresh key [k']. *)
Definition moves q k k' (e : DeadlineEntry T) q' : Prop := ∃ q1, removes q k q1 ∧ adds q1 k' e q'.

Lemma replace_if_live_wp registration deadline payload q : queue_wf q →
  registration_domain registration = domain q → issued q (key_of registration) →
  let k := key_of registration in
  wp (replace_if_live registration deadline payload) q
    (λ result q', is_sentinel deadline = false ∧
       match result with
       | Some registration' => is_Some (at_key q k) ∧ registration_domain registration' = domain q ∧
           moves q k (key_of registration') {| deadline_ns := deadline; payload := payload |} q'
       | None => q' = q ∧ at_key q k = None
       end)
    (λ error q', q' = q ∧
       (error = DeadlineQueueError.InvalidDeadline ∧ is_sentinel deadline = true ∨
        error = DeadlineQueueError.GenerationExhausted ∧ is_Some (at_key q k))).
Proof.
  intros Hq Hd (s & Hs & Hg) k. unfold k, key_of in *. simpl in *. unfold replace_if_live.
  destruct (is_sentinel deadline) eqn:Hsen; [wp_step; by auto|]. do 2 wp_step.
  rewrite Hd, Z.eqb_refl. cbn [negb]. wp_step. rewrite Hs. apply wp_ok_or.
  rewrite (proj2 (Z.ltb_ge _ _)) by lia. destruct (Z.ltb_spec (registration_generation registration) (generation s)); cbn [orb].
  { wp_step. split; [done|]. split; [done|]. apply (at_key_other _ _ s); [done|lia]. }
  assert (registration_generation registration = generation s) as -> by lia. rewrite (at_key_slot _ _ _ Hs).
  destruct (entry s) as [e|] eqn:He; simpl; [|by wp_step].
  pose proof (queue_wf_slot _ _ _ Hq Hs) as [[H0 Hlt] _].
  wp_step. rewrite next_nonzero_spec by done. pose proof (lookup_lt_Some _ _ _ Hs) as Hi.
  destruct (Z.ltb_spec (generation s + 1) (2 ^ 32)); apply wp_ok_or; [|by eauto]. do 3 wp_step.
  split_and!; [done..|]. exists (with_slot (registration_slot registration) {| generation := generation s; entry := None |} q).
  assert (removes q (registration_slot registration, generation s)
    (with_slot (registration_slot registration) {| generation := generation s; entry := None |} q)) as Hrm.
  { apply clear_removes; [done..|]. by apply with_slot_sets. }
  split; [done|].
  apply (bump_adds _ _ {| generation := generation s; entry := None |}); [by apply Hrm| |done|done|].
  - simpl. by rewrite list_lookup_insert_eq.
  - split; simpl; [done| |by rewrite length_insert]. by rewrite list_insert_insert_eq.
Qed.

(** ** Expiry *)

Definition cleared (now : Z) s : DeadlineSlot T :=
  if due now s then {| generation := generation s; entry := None |} else s.

Definition expired (now : Z) (ss : list (DeadlineSlot T)) : list T :=
  omap (λ s, if due now s then payload <$> entry s else None) ss.

Lemma expired_snoc now ss s : expired now (ss ++ [s]) =
  expired now ss ++ (if due now s then option_list (payload <$> entry s) else []).
Proof. unfold expired. rewrite omap_app. simpl. by destruct (due now s), (entry s). Qed.

Lemma length_expired now ss : (length (expired now ss) ≤ length ss)%nat.
Proof. apply length_omap. Qed.

Lemma expire_wp {E} now output q (R : E → DeadlineQueue.t T → Prop) : (length (slots q) ≤ length output)%nat →
  wp (expire now output) q
    (λ r q', r = ((Some <$> expired now (slots q)) ++
                    replicate (length output - length (expired now (slots q))) None,
                  length (expired now (slots q))) ∧
       q' = {| domain := domain q; slots := cleared now <$> slots q |}) R.
Proof.
  intros Hroom. unfold expire. do 2 wp_step.
  apply (wp_for_each (λ pre '(out, count) q', let n := length pre in
    count = length (expired now (take n (slots q))) ∧
    out = (Some <$> expired now (take n (slots q))) ++
            replicate (length output - length (expired now (take n (slots q)))) None ∧
    q' = {| domain := domain q; slots := (cleared now <$> take n (slots q)) ++ drop n (slots q) |})).
  - simpl. rewrite Nat.sub_0_r. split_and!; [done..|]. by destruct q.
  - intros pre i post [out count] q' Hsplit (-> & -> & ->). apply seq_split_at in Hsplit as [-> Hi].
    destruct (lookup_lt_is_Some_2 (slots q) (length pre)) as [s Hs]; [done|].
    pose proof (length_expired now (take (length pre) (slots q))) as Hle. rewrite length_take in Hle.
    assert (length (cleared now <$> take (length pre) (slots q)) = length pre) as Hlen.
    { rewrite length_fmap, length_take. lia. }
    cbn beta iota. do 3 wp_step. simpl. eapply wp_expect.
    { rewrite lookup_app_r by lia. rewrite Hlen, Nat.sub_diag, lookup_drop, Nat.add_0_r. done. }
    assert (∀ x, length (pre ++ [x]) = S (length pre)) as Hpre by (intros x; rewrite length_app; simpl; lia).
    assert (cleared now <$> take (S (length pre)) (slots q) =
      (cleared now <$> take (length pre) (slots q)) ++ [cleared now s]) as Hclear.
    { by rewrite (take_S_r _ _ _ Hs), fmap_app. }
    destruct (due now s) eqn:Hdue.
    2:{ wp_step. rewrite Hpre, Hclear, (take_S_r _ _ _ Hs), expired_snoc, Hdue, app_nil_r, (drop_S _ _ _ Hs), <- app_assoc.
        split_and!; [done..|]. unfold cleared. by rewrite Hdue. }
    destruct (entry s) as [e|] eqn:He; [|by unfold due in Hdue; rewrite He in Hdue]. wp_step. eapply wp_expect; [done|].
    do 3 wp_step. apply wp_assert; [apply Nat.ltb_lt; rewrite length_fill; lia|]. wp_step.
    rewrite Hpre, Hclear, (take_S_r _ _ _ Hs), expired_snoc, Hdue, He. cbn [fmap option_fmap option_map option_list].
    split_and!; [by rewrite length_app|apply fill_next; lia|].
    unfold with_slot. simpl. f_equal. rewrite insert_app_r_alt by lia. rewrite Hlen, Nat.sub_diag, (drop_S _ _ _ Hs). simpl.
    rewrite <- app_assoc. simpl. unfold cleared at 3. by rewrite Hdue.
  - intros [out count] q'. cbv zeta. rewrite length_seq, take_ge, drop_ge, app_nil_r by lia. by intros (-> & -> & ->).
Qed.

Lemma cleared_wf now s : slot_wf s → slot_wf (cleared now s).
Proof. intros [Hg He]. unfold cleared. destruct (due now s); split; simpl; done || by intros []. Qed.

Lemma cleared_generation now s : generation (cleared now s) = generation s.
Proof. unfold cleared. by destruct (due now s). Qed.

(** The queue after [expire]. *)
Definition swept (now : Z) q : DeadlineQueue.t T := {| domain := domain q; slots := cleared now <$> slots q |}.

Lemma swept_wf now q : queue_wf q → queue_wf (swept now q).
Proof. intros Hq. apply Forall_fmap. eapply Forall_impl; [exact Hq|]. intros s. apply cleared_wf. Qed.

Lemma swept_issued now q k : issued q k ↔ issued (swept now q) k.
Proof.
  unfold issued, swept. simpl. setoid_rewrite list_lookup_fmap. split.
  - intros (s & -> & Hg). exists (cleared now s). by rewrite cleared_generation.
  - destruct (slots q !! k.1) as [s|]; [|by intros (? & ? & _)]. intros (? & [= <-] & Hg).
    exists s. by rewrite cleared_generation in Hg.
Qed.

Lemma swept_at now q k : at_key (swept now q) k =
  match at_key q k with Some e => if deadline_ns e <=? now then None else Some e | None => None end.
Proof.
  unfold at_key, swept. simpl. rewrite list_lookup_fmap. destruct (slots q !! k.1) as [s|]; [|done]. simpl.
  rewrite cleared_generation. destruct (generation s =? k.2); [|done]. unfold cleared, due.
  destruct (entry s) as [e|] eqn:He; [|by rewrite He]. by destruct (deadline_ns e <=? now).
Qed.

(** The due entries with their keys, in slot order. *)
Fixpoint due_entries (now : Z) (from : nat) (ss : list (DeadlineSlot T)) : list (key * DeadlineEntry T) :=
  match ss with
  | [] => []
  | s :: ss =>
      match entry s with
      | Some e => if deadline_ns e <=? now then [((from, generation s), e)] else []
      | None => []
      end ++ due_entries now (S from) ss
  end.

Lemma expired_due_entries now from ss : expired now ss = (λ ke, payload ke.2) <$> due_entries now from ss.
Proof.
  revert from. induction ss as [|s ss IH]; intros from; [done|]. unfold expired in *. simpl.
  unfold due at 1. destruct (entry s) as [e|]; [|apply IH]. destruct (deadline_ns e <=? now); simpl; [|apply IH].
  f_equal. apply IH.
Qed.

Lemma due_entries_ge now from ss k e : (k, e) ∈ due_entries now from ss → (from ≤ k.1)%nat.
Proof.
  revert from. induction ss as [|s ss IH]; intros from; simpl; [by intros ?%elem_of_nil|].
  rewrite elem_of_app. intros [Hin|Hin%IH]; [|lia]. destruct (entry s); [|by apply elem_of_nil in Hin].
  destruct (_ <=? now); [|by apply elem_of_nil in Hin]. apply list_elem_of_singleton in Hin. by injection Hin as -> _.
Qed.

Lemma due_entries_NoDup now from ss : NoDup (due_entries now from ss).*1.
Proof.
  revert from. induction ss as [|s ss IH]; intros from; simpl; [apply list.NoDup_nil; done|].
  rewrite fmap_app. apply NoDup_app. split_and!; [| |apply IH].
  - destruct (entry s); [destruct (_ <=? now)|]; simpl; [apply NoDup_singleton|by apply list.NoDup_nil..].
  - intros k Hk ([k' e] & -> & Hin%due_entries_ge)%list_elem_of_fmap. simpl in *.
    destruct (entry s); [destruct (_ <=? now)|]; simpl in Hk; [|by apply elem_of_nil in Hk..].
    apply list_elem_of_singleton in Hk. subst k'. simpl in Hin. lia.
Qed.

Lemma elem_of_due_entries now q k e :
  (k, e) ∈ due_entries now 0 (slots q) ↔ at_key q k = Some e ∧ deadline_ns e ≤ now.
Proof.
  assert (∀ ss from, (k, e) ∈ due_entries now from ss ↔
    ∃ i s, k = ((from + i)%nat, generation s) ∧ ss !! i = Some s ∧ entry s = Some e ∧ deadline_ns e ≤ now) as Hgen.
  { induction ss as [|s ss IH]; intros from; simpl; [split; [by intros ?%elem_of_nil|by intros (? & ? & _ & ? & _)]|].
    rewrite elem_of_app, IH. split.
    - intros [Hin|(i & s' & -> & Hs & He & Hd)]; [|exists (S i), s'; split_and!; [f_equal; lia|done..]].
      destruct (entry s) as [e'|] eqn:He; [|by apply elem_of_nil in Hin].
      destruct (Z.leb_spec (deadline_ns e') now); [|by apply elem_of_nil in Hin].
      apply list_elem_of_singleton in Hin. injection Hin as -> ->. exists 0%nat, s. split_and!; [f_equal; lia|done..].
    - intros ([|i] & s' & -> & Hs & He & Hd); simpl in Hs.
      + injection Hs as <-. left. rewrite He, (proj2 (Z.leb_le _ _) Hd). rewrite Nat.add_0_r. by left.
      + right. exists i, s'. split_and!; [f_equal; lia|done..]. }
  rewrite Hgen. unfold at_key. simpl. split.
  - intros (i & s & -> & Hs & He & Hd). simpl. by rewrite Hs, Z.eqb_refl.
  - destruct k as [i g]. simpl. destruct (slots q !! i) as [s|] eqn:Hs; [|by intros []].
    destruct (Z.eqb_spec (generation s) g) as [<-|]; [|by intros []]. intros [? ?]. by exists i, s.
Qed.

(** ** The earliest deadline *)

Lemma earliest_spec q m : earliest q = Some m ↔
  (∃ k e, at_key q k = Some e ∧ deadline_ns e = m) ∧ ∀ k e, at_key q k = Some e → m ≤ deadline_ns e.
Proof.
  unfold earliest. rewrite minimum_spec.
  assert (∀ x, x ∈ omap (λ s, deadline_ns <$> entry s) (slots q) ↔ ∃ k e, at_key q k = Some e ∧ deadline_ns e = x) as Hel.
  { intros x. rewrite list_elem_of_omap. split.
    - intros (s & [i Hi]%list_elem_of_lookup & Hx). destruct (entry s) as [e|] eqn:He; [|done]. injection Hx as <-.
      exists (i, generation s), e. by rewrite (at_key_slot _ _ _ Hi).
    - intros ([i g] & e & Hk & <-). unfold at_key in Hk. simpl in Hk. destruct (slots q !! i) as [s|] eqn:Hs; [|done].
      destruct (_ =? g); [|done]. exists s. split; [by eapply list_elem_of_lookup_2|]. by rewrite Hk. }
  setoid_rewrite Hel. naive_solver.
Qed.

Lemma earliest_None q : earliest q = None ↔ ∀ k, at_key q k = None.
Proof.
  split.
  - intros Hn [i g]. unfold at_key. simpl. destruct (slots q !! i) as [s|] eqn:Hs; [|done].
    destruct (_ =? g); [|done]. destruct (entry s) as [e|] eqn:He; [|done]. exfalso.
    destruct (minimum_is_Some (omap (λ s, deadline_ns <$> entry s) (slots q)) (deadline_ns e)) as [m Hm].
    + apply list_elem_of_omap. exists s. split; [by eapply list_elem_of_lookup_2|]. by rewrite He.
    + unfold earliest in Hn. congruence.
  - intros Hall. destruct (earliest q) as [m|] eqn:He; [|done].
    apply earliest_spec in He as [(k & e & Hk & _) _]. by rewrite Hall in Hk.
Qed.
End facts.
