(* ===== verification/DeadlineTheorems.v ===== *)
(** * A deadline queue is a finite map

    The specification of a queue: a finite map from the keys it has issued to
    deadlines and payloads.  Every operation, of a holder with a registration
    of the queue, is a step of the map. *)

From stdpp Require Import base tactics numbers list gmap sets fin_maps.
From Stdlib Require Import ZArith Lia.
From S2P Require Import Prelude Abi Wait WaitFacts Clock Deadline DeadlineFacts.
Import DeadlineQueue.
Local Open Scope Z_scope.

Section refinement.
Context {T : Type}.

Inductive queue_op : Type :=
| Register (deadline : Z) (payload : T)
| Cancel (k : key)
| CancelIfLive (k : key)
| ReplaceIfLive (k : key) (deadline : Z) (payload : T)
| Expire (now : Z)
| Earliest.

Inductive queue_result : Type :=
| Issued (k : key)
| Taken (payload : T)
| Found (payload : option T)
| Replaced (k : option key)
| Expired (payloads : list (option T)) (count : nat)
| First (deadline : option Z)
| Refused (error : DeadlineQueueError.t).

(** [Ok] and [Err] of a call as a result. *)
Definition answer {A} (f : A → queue_result) (r : Result A DeadlineQueueError.t) : queue_result :=
  match r with Ok a => f a | Err error => Refused error end.

Definition queue_exec (op : queue_op) : M (DeadlineQueue.t T) Empty_set queue_result :=
  self ← get;
  match op with
  | Register deadline payload =>
      r ← try (register deadline payload); mret (answer (λ reg, Issued (key_of reg)) r)
  | Cancel k => r ← try (cancel (registration_of (domain self) k)); mret (answer Taken r)
  | CancelIfLive k => r ← try (cancel_if_live (registration_of (domain self) k)); mret (answer Found r)
  | ReplaceIfLive k deadline payload =>
      r ← try (replace_if_live (registration_of (domain self) k) deadline payload);
      mret (answer (λ reg, Replaced (key_of <$> reg)) r)
  | Expire now =>
      '(payloads, count) ← expire now (replicate (length (slots self)) None);
      mret (Expired payloads count)
  | Earliest => mret (First (earliest self))
  end.

(** The specification: the entries, and the keys ever issued. *)
Record timetable : Type := { booked : gmap key (DeadlineEntry T); known : gset key }.

Definition is_due (now : Z) (ke : key * DeadlineEntry T) : Prop := deadline_ns ke.2 ≤ now.

#[global] Instance is_due_dec now ke : Decision (is_due now ke).
Proof. unfold is_due. apply _. Defined.

Definition timetable_step (t : timetable) (op : queue_op) (r : queue_result) (t' : timetable) : Prop :=
  match op, r with
  | Register deadline payload, Issued k =>
      is_sentinel deadline = false ∧ (k ∉ known t) ∧
      t' = {| booked := <[k := {| deadline_ns := deadline; payload := payload |}]> (booked t);
              known := {[k]} ∪ known t |}
  | Register deadline _, Refused error => t' = t ∧
      (error = DeadlineQueueError.InvalidDeadline ∧ is_sentinel deadline = true ∨
       error = DeadlineQueueError.Capacity ∨ error = DeadlineQueueError.GenerationExhausted)
  | Cancel k, Taken p => Some p = payload <$> booked t !! k ∧
      t' = {| booked := delete k (booked t); known := known t |}
  | Cancel k, Refused error => t' = t ∧ error = DeadlineQueueError.StaleRegistration ∧ booked t !! k = None
  | CancelIfLive k, Found p => p = payload <$> booked t !! k ∧
      t' = {| booked := delete k (booked t); known := known t |}
  | ReplaceIfLive k deadline payload, Replaced (Some k') =>
      is_Some (booked t !! k) ∧ is_sentinel deadline = false ∧ (k' ∉ known t) ∧
      t' = {| booked := <[k' := {| deadline_ns := deadline; payload := payload |}]> (delete k (booked t));
              known := {[k']} ∪ known t |}
  | ReplaceIfLive k _ _, Replaced None => t' = t ∧ booked t !! k = None
  | ReplaceIfLive k deadline _, Refused error => t' = t ∧
      (error = DeadlineQueueError.InvalidDeadline ∧ is_sentinel deadline = true ∨
       error = DeadlineQueueError.GenerationExhausted ∧ is_Some (booked t !! k))
  | Expire now, Expired payloads count =>
      omap id payloads ≡ₚ ((λ ke, payload ke.2) <$> map_to_list (filter (is_due now) (booked t))) ∧
      count = size (filter (is_due now) (booked t)) ∧
      t' = {| booked := filter (λ ke, ¬ is_due now ke) (booked t); known := known t |}
  | Earliest, First None => t' = t ∧ booked t = ∅
  | Earliest, First (Some d) => t' = t ∧
      (∃ k e, booked t !! k = Some e ∧ deadline_ns e = d) ∧ ∀ k e, booked t !! k = Some e → d ≤ deadline_ns e
  | _, _ => False
  end.

(** Registrations the callers present were issued by the queue. *)
Definition op_known (t : timetable) (op : queue_op) : Prop :=
  match op with
  | Cancel k | CancelIfLive k | ReplaceIfLive k _ _ => k ∈ known t
  | _ => True
  end.

Record represents (q : DeadlineQueue.t T) (t : timetable) : Prop := {
  rp_wf : queue_wf q;
  rp_booked k : booked t !! k = at_key q k;
  rp_known k : k ∈ known t → issued q k;
}.

Lemma represents_adds q t k e q' : represents q t → adds q k e q' → (k ∉ known t) ∧
  represents q' {| booked := <[k := e]> (booked t); known := {[k]} ∪ known t |}.
Proof.
  intros [Hwf Hb Hk] [Hwf' _ _ Hfr Hiss Hnew Hat]. split; [by intros ?%Hk|]. split; simpl; [done| |].
  - intros k'. rewrite Hat, <- Hb. case_decide; [by subst; rewrite lookup_insert_eq|by rewrite lookup_insert_ne].
  - intros k' [->%elem_of_singleton|Hin%Hk]%elem_of_union; [done|by apply Hiss].
Qed.

Lemma represents_removes q t k q' : represents q t → removes q k q' →
  represents q' {| booked := delete k (booked t); known := known t |}.
Proof.
  intros [Hwf Hb Hk] [Hwf' _ _ Hiss Hat]. split; simpl; [done| |].
  - intros k'. rewrite Hat, <- Hb. case_decide; [by subst; rewrite lookup_delete_eq|by rewrite lookup_delete_ne].
  - intros k' Hin%Hk. by apply Hiss.
Qed.

Lemma represents_swept now q t : represents q t →
  represents (swept now q) {| booked := filter (λ ke, ¬ is_due now ke) (booked t); known := known t |}.
Proof.
  intros [Hwf Hb Hk]. split; simpl; [by apply swept_wf| |].
  - intros k. rewrite swept_at, <- Hb, map_lookup_filter. destruct (booked t !! k) as [e|]; [|done]. simpl.
    unfold is_due. simpl. destruct (Z.leb_spec (deadline_ns e) now).
    + rewrite option_guard_False; [done|]. tauto.
    + rewrite option_guard_True; [done|]. lia.
  - intros k Hin%Hk. by apply swept_issued.
Qed.

Lemma due_entries_booked now q t : represents q t →
  due_entries now 0 (slots q) ≡ₚ map_to_list (filter (is_due now) (booked t)).
Proof.
  intros [Hwf Hb _]. apply NoDup_Permutation.
  - apply (NoDup_fmap_1 fst), due_entries_NoDup.
  - apply NoDup_map_to_list.
  - intros [k e]. rewrite elem_of_due_entries, elem_of_map_to_list, map_lookup_filter_Some, Hb. done.
Qed.

Lemma key_of_registration domain k : key_of (registration_of domain k) = k.
Proof. by destruct k. Qed.

Lemma queue_exec_simulated op q t : represents q t → op_known t op →
  wp (queue_exec op) q (λ r q', ∃ t', timetable_step t op r t' ∧ represents q' t') (λ _ _, False).
Proof.
  intros Hrep Hop. pose proof Hrep as [Hwf Hb Hk]. unfold queue_exec. do 2 wp_step.
  destruct op as [deadline p|k|k|k deadline p|now|]; cbn [op_known] in Hop.
  - wp_step. apply wp_try. eapply wp_mono; [by apply register_deadline_wp| |].
    + intros reg q' (Hs & _ & Hadd). wp_step. destruct (represents_adds _ _ _ _ _ Hrep Hadd). eexists. by split.
    + intros error q' [-> Hno]. wp_step. exists t. split; [|done]. simpl. split; [done|]. destruct error; naive_solver.
  - apply Hk in Hop. wp_step. apply wp_try.
    pose proof (cancel_deadline_wp (registration_of (domain q) k) q Hwf eq_refl) as Hwp. rewrite key_of_registration, <- Hb in Hwp.
    eapply wp_mono; [by apply Hwp| |].
    + intros p q' [Hp Hrm]. wp_step. eexists. split; [|by eapply represents_removes]. done.
    + intros error q' (-> & Hnone & Hrm). wp_step. pose proof (represents_removes _ _ _ _ Hrep Hrm) as Hrep'.
      rewrite delete_id in Hrep' by done. exists t. split; [done|]. by destruct t.
  - apply Hk in Hop. wp_step. apply wp_try.
    pose proof (cancel_if_live_wp (registration_of (domain q) k) q Hwf eq_refl) as Hwp. rewrite key_of_registration, <- Hb in Hwp.
    eapply wp_mono; [by apply Hwp| |done]. intros p q' [-> Hrm]. wp_step. eexists. by split; [|by eapply represents_removes].
  - apply Hk in Hop. wp_step. apply wp_try.
    pose proof (replace_if_live_wp (registration_of (domain q) k) deadline p q Hwf eq_refl) as Hwp. cbv zeta in Hwp.
    rewrite key_of_registration, <- Hb in Hwp. eapply wp_mono; [by apply Hwp| |].
    + intros [reg|] q' [Hs Hres]; wp_step; [|destruct Hres as [-> Hnone]; by exists t].
      destruct Hres as (Hsome & _ & q1 & Hrm & Hadd). pose proof (represents_removes _ _ _ _ Hrep Hrm) as Hrep1.
      destruct (represents_adds _ _ _ _ _ Hrep1 Hadd). eexists. by split.
    + intros error q' [-> Hno]. wp_step. by exists t.
  - wp_step. eapply wp_mono; [apply (expire_wp now _ _ (λ _ _, False)); by rewrite length_replicate| |done].
    intros [ps count] q' [[= -> ->] ->]. wp_step. eexists. split; [|by apply represents_swept]. simpl.
    pose proof (due_entries_booked now _ _ Hrep) as Hperm. split_and!; [| |done].
    + rewrite omap_fill, (expired_due_entries now 0), Hperm. done.
    + rewrite (expired_due_entries now 0), length_fmap, Hperm, length_map_to_list. done.
  - wp_step. exists t. split; [|done]. simpl. destruct (earliest q) as [d|] eqn:He.
    + apply earliest_spec in He as [Hex Hall]. split; [done|]. setoid_rewrite Hb. done.
    + split; [done|]. apply map_empty. intros k. rewrite Hb. by apply earliest_None.
Qed.

(** However the queue is used by callers that present registrations it
    issued, every answer is a step of the timetable. *)
Fixpoint conforms (q : DeadlineQueue.t T) (t : timetable) (ops : list queue_op) : Prop :=
  match ops with
  | [] => True
  | op :: ops => op_known t op →
      ∃ q' r t', queue_exec op q = Ret q' r ∧ timetable_step t op r t' ∧ conforms q' t' ops
  end.

Lemma represents_conforms ops q t : represents q t → conforms q t ops.
Proof.
  revert q t. induction ops as [|op ops IH]; intros q t Hrep; simpl; [done|]. intros Hop.
  pose proof (queue_exec_simulated op q t Hrep Hop) as Hwp. unfold wp in Hwp.
  destruct (queue_exec op q) as [q' r|? []|]; [|done]. destruct Hwp as (t' & Hstep & Hrep'). exists q', r, t'. eauto.
Qed.

(** C20. A deadline queue refines a finite map.  From a new queue, in any
    order of calls whose registrations the queue issued: no call panics, a
    registration gets a key that no registration ever had, cancelling or
    replacing touches the entry of exactly that key or finds it gone, an
    expiry takes exactly the entries that are due, each once, and the
    earliest deadline is the minimum. *)
Theorem deadline_queue_refines_timetable CAPACITY domain domain' (q : DeadlineQueue.t T) ops :
  new (E:=Empty_set) CAPACITY domain = Ret domain' q → conforms q {| booked := ∅; known := ∅ |} ops.
Proof.
  intros Hnew. apply represents_conforms. unfold new, mint_domain, mbind, M_bind, get, expect, put in Hnew.
  destruct (next_nonzero 64 domain); [|done]. injection Hnew as _ <-.
  assert (∀ i s, replicate CAPACITY (empty_slot (T:=T)) !! i = Some s → s = empty_slot) as Hempty.
  { by intros i s [-> _]%lookup_replicate. }
  split; simpl; [| |set_solver].
  - apply Forall_lookup. intros i s ->%Hempty. split; simpl; [done|by intros []].
  - intros [i g]. rewrite lookup_empty. unfold at_key. simpl. destruct (_ !! i) as [s|] eqn:Hs; [|done].
    apply Hempty in Hs as ->. by destruct g.
Qed.
End refinement.

Lemma deadline_queue_refines_timetable_witness :
  ∃ q', new (T:=nat) (E:=Empty_set) 2 7 = Ret 8 q' ∧
    conforms q' {| booked := ∅; known := ∅ |} [Register 30 1%nat; Register 10 2%nat; Expire 10; Earliest].
Proof.
  eexists. split; [reflexivity|].
  exact (deadline_queue_refines_timetable 2 7 8 _ _ eq_refl).
Defined.
