(* ===== verification/Timer.v ===== *)
(** * Timer objects

    [kernel/src/time/timer.rs].  A Timer is armed, cancelled, expired and
    finalized in two or three critical sections of the timer lock, with the
    deadline authority and the wait registry called in between: an operation
    marks the Timer with a transition, and every other operation that finds
    the mark backs off.  Each critical section is a definition of its own, so
    that they can be interleaved; the operations compose them.

    [TimerDeadlineAuthority] is the trait the operations call; the methods of
    the kernel's implementation are in [LiveTime.v]. *)

From stdpp Require Import base tactics numbers list.
From Stdlib Require Import ZArith Lia.
From S2P Require Import Prelude Abi Object HandleTable Wait Clock Deadline.
Local Open Scope Z_scope.

(** The static [NEXT_TIMER_DOMAIN] is the state. *)
Definition mint_timer_domain {E} : M Z E Z :=
  value ← get;
  next ← expect (next_nonzero 64 value);
  put next;;
  mret value.

Module TimerDeadlineError.
Inductive t : Type := Expired | Capacity | Fault.
End TimerDeadlineError.

Module TimerError.
Inductive t : Type :=
| Capacity
| InvalidObject
| InvalidDeadline
| InvalidSignals
| AccessDenied
| GenerationExhausted
| TransitionInProgress
| ForeignExpiry
| Deadline (error : TimerDeadlineError.t)
| FinalizationMismatch
| Reference.
End TimerError.

Module TimerCreateError.
Inductive t : Type :=
| Registry (error : ObjectRegistryError.t)
| Timer (error : TimerError.t).
End TimerCreateError.

Record TimerKey : Type := { timer_key_object : ObjectId }.

Record TimerExpiryToken : Type := {
  token_domain : Z;
  token_object : ObjectId;
  token_generation : Z;
}.

Global Instance TimerExpiryToken_eq_dec : EqDecision TimerExpiryToken.
Proof. solve_decision. Defined.

(** The trait of the deadline authority, over its state [D]. *)
Class TimerDeadlineAuthority (D : Type) : Type := {
  replace_timer_deadline : option DeadlineRegistration → Z → TimerExpiryToken →
    M D TimerDeadlineError.t (option DeadlineRegistration);
  cancel_timer_deadline : DeadlineRegistration → M D TimerDeadlineError.t unit;
}.

Record TimerPayloadBinding : Type := { timer_creation : CreationRef; timer_key : TimerKey }.
Record TimerPayloadCleanup : Type := { timer_cleanup_release : FinalRelease }.
Record TimerFinalization : Type := { timer_final_release : FinalRelease }.

Global Instance TimerPayloadBinding_proof : PayloadBindingProof TimerPayloadBinding := timer_creation.
Global Instance TimerPayloadCleanup_proof : PayloadCleanupProof TimerPayloadCleanup := timer_cleanup_release.

(** [TimerArm] holds nothing but its registration. *)
Abbreviation TimerArm := DeadlineRegistration (only parsing).

Module TimerTransition.
Inductive t : Type :=
| Set_ (generation : Z)
| Cancel
| Finalize
| Expire (generation : Z)
| Readiness (generation : Z).

#[global] Instance t_eq_dec : EqDecision t.
Proof. solve_decision. Defined.
End TimerTransition.

Record TimerRecord : Type := {
  timer_object : ObjectId;
  timer_generation : Z;
  timer_arm : option TimerArm;
  timer_signaled : bool;
  timer_transition : option TimerTransition.t;
}.

Module TimerWaitOutcome.
Inductive t : Type :=
| Ready (observed : DwSignals) (pin : InternalRef)
| Registered (registration : WaitRegistration).
End TimerWaitOutcome.

Definition map_wait_error (error : WaitError.t) : TimerError.t :=
  match error with
  | WaitError.Capacity => TimerError.Capacity
  | WaitError.AccessDenied => TimerError.AccessDenied
  | WaitError.InvalidSignals => TimerError.InvalidSignals
  | _ => TimerError.InvalidObject
  end.

Module TimerAuthority.

Record t : Type := { domain : Z; timers : list (option TimerRecord) }.

Definition new {E} (TIMERS : nat) : M Z E t :=
  domain ← mint_timer_domain;
  mret {| domain := domain; timers := replicate TIMERS None |}.

Definition with_timer (index : nat) (timer : option TimerRecord) (self : t) : t :=
  {| domain := domain self; timers := <[index := timer]> (timers self) |}.

(** The slot holds the record of [object]. *)
Definition records (object : ObjectId) (slot : option TimerRecord) : bool :=
  match slot with
  | Some timer => bool_decide (timer_object timer = object)
  | None => false
  end.

(** [timers.iter_mut().flatten().find(|timer| timer.object == object)] *)
Definition find (object : ObjectId) (self : t) : option (nat * TimerRecord) :=
  '(index, slot) ← list_find (λ slot, records object slot) (timers self);
  timer ← slot;
  Some (index, timer).

(** The record an operation has marked with [transition] must still be
    there, and marked. *)
Definition staged {E} (object : ObjectId) (transition : TimerTransition.t) : M t E (nat * TimerRecord) :=
  self ← get;
  '(index, timer) ← expect (find object self);
  assert_that (bool_decide (timer_transition timer = Some transition));;
  mret (index, timer).

Definition bind_timer (creation : CreationRef) : M t (TimerError.t * CreationRef) TimerPayloadBinding :=
  if negb (creation_type creation =? DW_OBJECT_TYPE_TIMER)
  then fail (TimerError.InvalidObject, creation)
  else
    let key := {| timer_key_object := creation_id creation |} in
    self ← get;
    if existsb (records (timer_key_object key)) (timers self)
    then fail (TimerError.Reference, creation)
    else
      '(index, _) ← ok_or (list_find (λ slot, slot = None) (timers self)) (TimerError.Capacity, creation);
      modify (with_timer index (Some
        {| timer_object := timer_key_object key; timer_generation := 0; timer_arm := None;
           timer_signaled := false; timer_transition := None |}));;
      mret {| timer_creation := creation; timer_key := key |}.

Definition create_timer : M (t * ObjectRegistry.t) TimerCreateError.t (TimerKey * HandleRef) :=
  creation ← on_snd (map_err TimerCreateError.Registry (ObjectRegistry.create DW_OBJECT_TYPE_TIMER));
  bound ← on_fst (try (bind_timer creation));
  match bound with
  | Err (error, creation) =>
      on_snd (unwrap (ObjectRegistry.cancel_creation creation));;
      fail (TimerCreateError.Timer error)
  | Ok binding =>
      let key := timer_key binding in
      bound ← on_snd (unwrap (ObjectRegistry.finish_payload_binding binding));
      handle ← on_snd (unwrap (ObjectRegistry.bound_into_handle bound));
      mret (key, handle)
  end.

Definition current_signals (self : t) (key : TimerKey) : Result DwSignals TimerError.t :=
  match find (timer_key_object key) self with
  | None => Err TimerError.InvalidObject
  | Some (_, timer) =>
      match timer_transition timer with
      | Some _ => Err TimerError.TransitionInProgress
      | None => Ok (if timer_signaled timer then DW_SIGNAL_SIGNALED else 0)
      end
  end.

(** ** Critical sections *)

Definition with_fields (timer : TimerRecord) (generation : Z) (arm : option TimerArm) (signaled : bool)
    (transition : option TimerTransition.t) : TimerRecord :=
  {| timer_object := timer_object timer; timer_generation := generation; timer_arm := arm;
     timer_signaled := signaled; timer_transition := transition |}.

(** The first section of [set]. *)
Definition stage_set (key : TimerKey) : M t TimerError.t (Z * option TimerArm * bool) :=
  self ← get;
  '(index, timer) ← ok_or (find (timer_key_object key) self) TimerError.InvalidObject;
  match timer_transition timer with
  | Some _ => fail TimerError.TransitionInProgress
  | None =>
      generation ← ok_or (next_nonzero 32 (timer_generation timer)) TimerError.GenerationExhausted;
      modify (with_timer index (Some (with_fields timer (timer_generation timer) None
        (timer_signaled timer) (Some (TimerTransition.Set_ generation)))));;
      mret (generation, timer_arm timer, timer_signaled timer)
  end.

(** The second section of [set], after the deadline was replaced. *)
Definition commit_set {E} (key : TimerKey) (generation : Z) (registration : option DeadlineRegistration)
    : M t E unit :=
  '(index, timer) ← staged (timer_key_object key) (TimerTransition.Set_ generation);
  let became_signaled := is_none registration in
  modify (with_timer index (Some (with_fields timer generation registration became_signaled
    (if became_signaled then Some (TimerTransition.Readiness generation) else None)))).

Definition restore_set {E} (key : TimerKey) (generation : Z) (old_arm : option TimerArm)
    (was_signaled : bool) : M t E unit :=
  '(index, timer) ← staged (timer_key_object key) (TimerTransition.Set_ generation);
  modify (with_timer index (Some (with_fields timer (timer_generation timer) old_arm was_signaled None))).

Definition complete_readiness {E} (key : TimerKey) (generation : Z) : M t E unit :=
  '(index, timer) ← staged (timer_key_object key) (TimerTransition.Readiness generation);
  modify (with_timer index (Some (with_fields timer (timer_generation timer) (timer_arm timer)
    (timer_signaled timer) None))).

(** The first section of [cancel]. *)
Definition stage_cancel (key : TimerKey) : M t TimerError.t (option TimerArm * bool * option Z) :=
  self ← get;
  '(index, timer) ← ok_or (find (timer_key_object key) self) TimerError.InvalidObject;
  match timer_transition timer with
  | Some _ => fail TimerError.TransitionInProgress
  | None =>
      next_generation ←
        match timer_arm timer with
        | Some _ =>
            generation ← ok_or (next_nonzero 32 (timer_generation timer)) TimerError.GenerationExhausted;
            mret (Some generation)
        | None => mret None
        end;
      modify (with_timer index (Some (with_fields timer (timer_generation timer) None
        (timer_signaled timer) (Some TimerTransition.Cancel))));;
      mret (timer_arm timer, timer_signaled timer, next_generation)
  end.

(** The second section of [cancel]. *)
Definition commit_cancel {E} (key : TimerKey) (next_generation : option Z) : M t E unit :=
  '(index, timer) ← staged (timer_key_object key) TimerTransition.Cancel;
  let generation := match next_generation with Some generation => generation | None => timer_generation timer end in
  modify (with_timer index (Some (with_fields timer generation (timer_arm timer) false None))).

Definition restore_cancel {E} (key : TimerKey) (old_arm : TimerArm) (was_signaled : bool) : M t E unit :=
  '(index, timer) ← staged (timer_key_object key) TimerTransition.Cancel;
  modify (with_timer index (Some (with_fields timer (timer_generation timer) (Some old_arm) was_signaled None))).

(** The first section of [expire]: [None] when the token is stale. *)
Definition stage_expire (token : TimerExpiryToken) : M t TimerError.t (option ObjectId) :=
  self ← get;
  if negb (token_domain token =? domain self) then fail TimerError.ForeignExpiry
  else
    match find (token_object token) self with
    | None => mret None
    | Some (index, timer) =>
        match timer_transition timer with
        | Some _ => fail TimerError.TransitionInProgress
        | None =>
            if negb (timer_generation timer =? token_generation token) || is_none (timer_arm timer)
            then mret None
            else
              modify (with_timer index (Some (with_fields timer (timer_generation timer) None
                (timer_signaled timer) (Some (TimerTransition.Expire (token_generation token))))));;
              mret (Some (timer_object timer))
        end
    end.

(** The second section of [expire]. *)
Definition commit_expire {E} (object : ObjectId) (token : TimerExpiryToken) : M t E unit :=
  '(index, timer) ← staged object (TimerTransition.Expire (token_generation token));
  modify (with_timer index (Some (with_fields timer (timer_generation timer) (timer_arm timer) true None))).

(** The sections of [take_finalization]. *)
Definition stage_finalization (final_release : FinalRelease)
    : M t (TimerError.t * FinalRelease) (option TimerArm) :=
  if negb (final_type final_release =? DW_OBJECT_TYPE_TIMER)
  then fail (TimerError.FinalizationMismatch, final_release)
  else
    self ← get;
    '(index, timer) ← ok_or (find (final_id final_release) self)
                        (TimerError.FinalizationMismatch, final_release);
    match timer_transition timer with
    | Some _ => fail (TimerError.TransitionInProgress, final_release)
    | None =>
        modify (with_timer index (Some (with_fields timer (timer_generation timer) None
          (timer_signaled timer) (Some TimerTransition.Finalize))));;
        mret (timer_arm timer)
    end.

Definition restore_finalization {E} (final_release : FinalRelease) (old_arm : TimerArm) : M t E unit :=
  '(index, timer) ← staged (final_id final_release) TimerTransition.Finalize;
  modify (with_timer index (Some (with_fields timer (timer_generation timer) (Some old_arm)
    (timer_signaled timer) None))).

Definition commit_finalization {E} (final_release : FinalRelease) : M t E TimerFinalization :=
  '(index, _) ← staged (final_id final_release) TimerTransition.Finalize;
  modify (with_timer index None);;
  mret {| timer_final_release := final_release |}.

(** ** Operations *)

Section operations.
Context {D : Type} `{!TimerDeadlineAuthority D}.

(** The timers, the deadline authority and the wait registry. *)
Definition on_timers {W E A} (m : M t E A) : M (t * D * W) E A := on_fst (on_fst m).
Definition on_deadlines {W E A} (m : M D E A) : M (t * D * W) E A := on_fst (on_snd m).

(** [set], without the hook its tests install before the waiters are
    collected. *)
Definition set (key : TimerKey) (deadline : Z)
    : M (t * D * WaitRegistry.t) TimerError.t WakeBatch.t :=
  if deadline =? DW_DEADLINE_INFINITE then fail TimerError.InvalidDeadline
  else
    '(generation, old_arm, was_signaled) ← on_timers (stage_set key);
    self ← on_timers get;
    let token := {| token_domain := domain self; token_object := timer_key_object key;
                    token_generation := generation |} in
    result ← on_deadlines (try (replace_timer_deadline old_arm deadline token));
    match result with
    | Err error =>
        on_timers (restore_set key generation old_arm was_signaled);;
        fail (TimerError.Deadline error)
    | Ok registration =>
        on_timers (commit_set key generation registration);;
        if is_none registration then
          wakes ← on_snd (WaitRegistry.take_ready (timer_key_object key) DW_SIGNAL_SIGNALED);
          on_timers (complete_readiness key generation);;
          mret wakes
        else
          waits ← on_snd get;
          mret (WakeBatch.empty (length (WaitRegistry.slots waits)))
    end.

Definition cancel (key : TimerKey) : M (t * D) TimerError.t unit :=
  '(old_arm, was_signaled, next_generation) ← on_fst (stage_cancel key);
  result ← match old_arm with
           | Some arm => on_snd (try (cancel_timer_deadline arm))
           | None => mret (Ok tt)
           end;
  match old_arm, result with
  | Some arm, Err error =>
      on_fst (restore_cancel key arm was_signaled);;
      fail (TimerError.Deadline error)
  | _, _ => on_fst (commit_cancel key next_generation)
  end.

Definition expire (token : TimerExpiryToken) : M (t * WaitRegistry.t) TimerError.t WakeBatch.t :=
  staged ← on_fst (stage_expire token);
  match staged with
  | None =>
      waits ← on_snd get;
      mret (WakeBatch.empty (length (WaitRegistry.slots waits)))
  | Some object =>
      wakes ← on_snd (WaitRegistry.ready_wakes object DW_SIGNAL_SIGNALED);
      on_fst (commit_expire object token);;
      mret wakes
  end.

Definition register_wait (target : ResolvedHandle.t) (desired : DwSignals) (item_index : Z)
    (thread : ThreadKey) (wake : BlockWakeKey)
    : M (t * WaitRegistry.t) (TimerError.t * InternalRef) TimerWaitOutcome.t :=
  let pin := ResolvedHandle.into_internal target in
  if negb (ResolvedHandle.object_type target =? DW_OBJECT_TYPE_TIMER)
  then fail (TimerError.InvalidObject, pin)
  else if negb (Z.land (ResolvedHandle.rights target) DW_RIGHT_WAIT =? DW_RIGHT_WAIT)
  then fail (TimerError.AccessDenied, pin)
  else
    map_err (λ error, (map_wait_error error, pin))
      (lift (validate_wait_signals (ResolvedHandle.object_type target) desired));;
    self ← on_fst get;
    '(_, timer) ← ok_or (find (ResolvedHandle.object_id target) self) (TimerError.InvalidObject, pin);
    match timer_transition timer with
    | Some _ => fail (TimerError.TransitionInProgress, pin)
    | None =>
        if timer_signaled timer then mret (TimerWaitOutcome.Ready DW_SIGNAL_SIGNALED pin)
        else
          registration ← on_snd (map_err (λ failure, (map_wait_error failure.1, failure.2))
            (WaitRegistry.register pin desired item_index thread wake));
          mret (TimerWaitOutcome.Registered registration)
    end.

Definition take_finalization (final_release : FinalRelease)
    : M (t * D) (TimerError.t * FinalRelease) TimerFinalization :=
  old_arm ← on_fst (stage_finalization final_release);
  result ← match old_arm with
           | Some arm => on_snd (try (cancel_timer_deadline arm))
           | None => mret (Ok tt)
           end;
  match old_arm, result with
  | Some arm, Err error =>
      on_fst (restore_finalization final_release arm);;
      fail (TimerError.Deadline error, final_release)
  | _, _ => on_fst (commit_finalization final_release)
  end.

End operations.

End TimerAuthority.

Definition complete_timer_finalization {E} (finalization : TimerFinalization) : M ObjectRegistry.t E unit :=
  unwrap (ObjectRegistry.complete_payload_finalization
    {| timer_cleanup_release := timer_final_release finalization |}).
