(* ===== verification/LiveTime.v ===== *)
(** * The live time service

    The state [kernel/src/time/live.rs] keeps behind its two locks once it is
    initialized: the clock, the two deadline queues, the scheduler quantum of
    the bootstrap CPU and the hardware arms; the scheduler timer of another
    CPU; and the deadline authority Timers use.  Two registers of the machine
    are part of the state: the port of the ACPI counter, [pm_port], and the
    initial count the bootstrap CPU's interrupt controller was last given,
    [initial_count_register].

    What the local interrupt controller answers, whether it is reachable and
    which CPU runs are arguments of the routines that ask. *)

From stdpp Require Import base tactics numbers list.
From Stdlib Require Import ZArith Lia.
From S2P Require Import Prelude Abi Object HandleTable Cpu Wait Clock Deadline Timer.
Local Open Scope Z_scope.

(** [task::scheduler::SchedulerQuantumTicket] *)
Record SchedulerQuantumTicket : Type := {
  ticket_domain : Z;
  ticket_cpu : CpuIndex.t;
  ticket_thread : ThreadKey;
  ticket_execution_generation : Z;
  ticket_source_arm_generation : Z;
  ticket_deadline_ns : Z;
}.

Global Instance SchedulerQuantumTicket_eq_dec : EqDecision SchedulerQuantumTicket.
Proof. solve_decision. Defined.

Module LiveTimeError.
Inductive t : Type :=
| AlreadyInitialized
| AcpiTimerDidNotAdvance
| ApicDiscovery
| ApicMode
| ApicMapping
| ApicAccess
| CpuIdentity
| Calibration
| Clock
| Deadline
| NoWakeRuntime
| IpiTransport
| Faulted.
End LiveTimeError.

(** * The scheduler timer of an application processor *)

Module ApSchedulerTimerState.

Record t : Type := {
  cpu : CpuIndex.t;
  timer_hz : Z;
  scheduler_quantum : LocalDeadlineSource.t SchedulerQuantumTicket;
  hardware_arms : PhysicalArmSequence.t;
}.

Inductive PreparedApHardwareIntent : Type :=
| Arm (intent : HardwareArmIntent)
| Stop (intent : HardwareStopIntent).

Definition uninitialized : t :=
  {| cpu := CpuIndex.BOOTSTRAP; timer_hz := 0; scheduler_quantum := LocalDeadlineSource.new;
     hardware_arms := PhysicalArmSequence.initialized |}.

Definition on_quantum {E A} : M (LocalDeadlineSource.t SchedulerQuantumTicket) E A → M t E A :=
  on_part scheduler_quantum (λ q self,
    {| cpu := cpu self; timer_hz := timer_hz self; scheduler_quantum := q; hardware_arms := hardware_arms self |}).

Definition on_arms {E A} : M PhysicalArmSequence.t E A → M t E A :=
  on_part hardware_arms (λ arms self,
    {| cpu := cpu self; timer_hz := timer_hz self; scheduler_quantum := scheduler_quantum self;
       hardware_arms := arms |}).

Definition initialize (cpu_index : CpuIndex.t) (timer_rate : Z) : M t LiveTimeError.t unit :=
  self ← get;
  if bool_decide (cpu_index = CpuIndex.BOOTSTRAP) || (timer_rate =? 0) || negb (timer_hz self =? 0)
  then fail LiveTimeError.AlreadyInitialized
  else put {| cpu := cpu_index; timer_hz := timer_rate; scheduler_quantum := scheduler_quantum self;
              hardware_arms := hardware_arms self |}.

Definition record_source_mutation : M t LiveTimeError.t unit :=
  on_arms (map_err (λ _, LiveTimeError.Deadline) PhysicalArmSequence.source_mutated).

Definition arm (ticket : SchedulerQuantumTicket) : M t LiveTimeError.t unit :=
  self ← get;
  if negb (bool_decide (ticket_cpu ticket = cpu self)) || (ticket_source_arm_generation ticket =? 0)
     || (ticket_execution_generation ticket =? 0)
  then fail LiveTimeError.Deadline
  else
    on_quantum (map_err (λ _, LiveTimeError.Deadline)
      (LocalDeadlineSource.replace (ticket_source_arm_generation ticket) (ticket_deadline_ns ticket) ticket));;
    record_source_mutation.

Definition cancel (ticket : SchedulerQuantumTicket) : M t LiveTimeError.t bool :=
  self ← get;
  if negb (bool_decide (ticket_cpu ticket = cpu self)) then mret false
  else
    cancelled ← on_quantum (LocalDeadlineSource.cancel (ticket_source_arm_generation ticket) ticket);
    (if cancelled : bool then record_source_mutation else mret tt);;
    mret cancelled.

Definition take_due (now_ns : Z) : M t LiveTimeError.t (option SchedulerQuantumTicket) :=
  due ← on_quantum (LocalDeadlineSource.take_due now_ns);
  (if is_none due then mret tt else record_source_mutation);;
  mret due.

Definition prepare_hardware (now_ns : Z) : M t LiveTimeError.t PreparedApHardwareIntent :=
  self ← get;
  match LocalDeadlineSource.earliest (scheduler_quantum self) with
  | Some deadline =>
      intent ← on_arms (map_err (λ _, LiveTimeError.Deadline)
        (PhysicalArmSequence.prepare deadline now_ns (timer_hz self)));
      mret (Arm intent)
  | None =>
      intent ← on_arms (map_err (λ _, LiveTimeError.Deadline) PhysicalArmSequence.prepare_stop);
      mret (Stop intent)
  end.

Definition hardware_intent_is_current (self : t) (intent : PreparedApHardwareIntent) : bool :=
  match intent with
  | Arm intent => PhysicalArmSequence.is_current (hardware_arms self) intent
  | Stop intent => PhysicalArmSequence.is_stop_current (hardware_arms self) intent
  end.

End ApSchedulerTimerState.

(** * The bootstrap processor's time state *)

Record LiveClockState : Type := { pm : PmTimerState.t; last_sample : MonotonicSample }.

Record LiveTimeState : Type := {
  apic_timer_hz : Z;
  deadlines : DeadlineQueue.t BlockWakeKey;
  timer_deadlines : DeadlineQueue.t TimerExpiryToken;
  scheduler_quantum : LocalDeadlineSource.t SchedulerQuantumTicket;
  hardware_arms : PhysicalArmSequence.t;
}.

Record live : Type := {
  pm_port : Z;
  initial_count_register : Z;
  clock : LiveClockState;
  time : LiveTimeState;
}.

Definition on_time {E A} : M LiveTimeState E A → M live E A :=
  on_part time (λ t self,
    {| pm_port := pm_port self; initial_count_register := initial_count_register self;
       clock := clock self; time := t |}).

Definition on_deadline_queue {E A} : M (DeadlineQueue.t BlockWakeKey) E A → M live E A := λ m,
  on_time (on_part deadlines (λ q self,
    {| apic_timer_hz := apic_timer_hz self; deadlines := q; timer_deadlines := timer_deadlines self;
       scheduler_quantum := scheduler_quantum self; hardware_arms := hardware_arms self |}) m).

Definition on_timer_queue {E A} : M (DeadlineQueue.t TimerExpiryToken) E A → M live E A := λ m,
  on_time (on_part timer_deadlines (λ q self,
    {| apic_timer_hz := apic_timer_hz self; deadlines := deadlines self; timer_deadlines := q;
       scheduler_quantum := scheduler_quantum self; hardware_arms := hardware_arms self |}) m).

Definition on_scheduler_quantum {E A} : M (LocalDeadlineSource.t SchedulerQuantumTicket) E A → M live E A := λ m,
  on_time (on_part scheduler_quantum (λ q self,
    {| apic_timer_hz := apic_timer_hz self; deadlines := deadlines self;
       timer_deadlines := timer_deadlines self; scheduler_quantum := q;
       hardware_arms := hardware_arms self |}) m).

Definition on_hardware_arms {E A} : M PhysicalArmSequence.t E A → M live E A := λ m,
  on_time (on_part hardware_arms (λ arms self,
    {| apic_timer_hz := apic_timer_hz self; deadlines := deadlines self;
       timer_deadlines := timer_deadlines self; scheduler_quantum := scheduler_quantum self;
       hardware_arms := arms |}) m).

(** [LiveClockState::sample_now], reading the port. *)
Definition sample_now (raw : Z) : M LiveClockState LiveTimeError.t MonotonicSample :=
  sample ← on_part pm (λ pm self, {| pm := pm; last_sample := last_sample self |})
             (map_err (λ _, LiveTimeError.Clock) (PmTimerState.sample raw));
  modify (λ self, {| pm := pm self; last_sample := sample |});;
  mret sample.

Definition sample_clock_now : M live LiveTimeError.t MonotonicSample :=
  self ← get;
  on_part clock (λ c self,
    {| pm_port := pm_port self; initial_count_register := initial_count_register self;
       clock := c; time := time self |})
    (sample_now (pm_port self)).

Definition record_source_mutation {E} : M live E unit :=
  on_hardware_arms (unwrap PhysicalArmSequence.source_mutated).

Definition next_deadline (self : LiveTimeState) (sample : MonotonicSample) : Z :=
  earliest_deadline
    [DeadlineQueue.earliest (deadlines self); DeadlineQueue.earliest (timer_deadlines self);
     LocalDeadlineSource.earliest (scheduler_quantum self)]
    (maintenance_deadline sample).

Definition prepare_hardware_arm (sample : MonotonicSample) : M live LiveTimeError.t HardwareArmIntent :=
  self ← get;
  let next := next_deadline (time self) sample in
  on_hardware_arms (map_err (λ _, LiveTimeError.Deadline)
    (PhysicalArmSequence.prepare next (nanoseconds sample) (apic_timer_hz (time self)))).

(** ** The timer interrupt *)

Record InterruptOutcome : Type := {
  wakes : list (option BlockWakeKey);
  wake_count : nat;
  timer_expiries : list (option TimerExpiryToken);
  timer_expiry_count : nat;
  outcome_quantum : option SchedulerQuantumTicket;
}.

Definition empty_outcome : InterruptOutcome :=
  {| wakes := replicate DEADLINE_QUEUE_CAPACITY None; wake_count := 0;
     timer_expiries := replicate DEADLINE_QUEUE_CAPACITY None; timer_expiry_count := 0;
     outcome_quantum := None |}.

(** [assert_drained] *)
Definition is_drained (outcome : InterruptOutcome) : bool :=
  (wake_count outcome =? 0)%nat && forallb is_none (wakes outcome)
  && (timer_expiry_count outcome =? 0)%nat && forallb is_none (timer_expiries outcome)
  && is_none (outcome_quantum outcome).

Definition interrupt (outcome : InterruptOutcome) : M live LiveTimeError.t InterruptOutcome :=
  assert_that (is_drained outcome);;
  sample ← sample_clock_now;
  '(wakes, wake_count) ← on_deadline_queue (DeadlineQueue.expire (nanoseconds sample) (wakes outcome));
  '(expiries, expiry_count) ←
    on_timer_queue (DeadlineQueue.expire (nanoseconds sample) (timer_expiries outcome));
  quantum ← on_scheduler_quantum (LocalDeadlineSource.take_due (nanoseconds sample));
  (if negb (wake_count =? 0)%nat || negb (expiry_count =? 0)%nat || negb (is_none quantum)
   then record_source_mutation else mret tt);;
  mret {| wakes := wakes; wake_count := wake_count; timer_expiries := expiries;
          timer_expiry_count := expiry_count; outcome_quantum := quantum |}.

(** ** Deadlines of blocked threads *)

(** [DeadlineRegistrationFailure] *)
Definition DeadlineRegistrationFailure : Type := LiveTimeError.t * BlockWakeKey.

Definition register_deadline (deadline : Z) (wake : BlockWakeKey)
    : M live DeadlineRegistrationFailure DeadlineRegistration :=
  sample ← map_err (λ error, (error, wake)) sample_clock_now;
  if deadline <=? nanoseconds sample then fail (LiveTimeError.Deadline, wake)
  else
    registration ← on_deadline_queue
      (map_err (λ _, (LiveTimeError.Deadline, wake)) (DeadlineQueue.register deadline wake));
    record_source_mutation;;
    mret registration.

Definition cancel_deadline (registration : DeadlineRegistration) : M live LiveTimeError.t unit :=
  sample_clock_now;;
  cancelled ← on_deadline_queue
    (map_err (λ _, LiveTimeError.Deadline) (DeadlineQueue.cancel_if_live registration));
  if is_none cancelled then mret tt else record_source_mutation.

(** ** Deadlines of Timers *)

Definition map_timer_queue_error (error : DeadlineQueueError.t) : TimerDeadlineError.t :=
  match error with
  | DeadlineQueueError.Capacity | DeadlineQueueError.GenerationExhausted => TimerDeadlineError.Capacity
  | _ => TimerDeadlineError.Fault
  end.

(** [LiveTimeState::replace_timer_deadline] *)
Definition live_replace (old : option DeadlineRegistration) (deadline : Z) (token : TimerExpiryToken)
    : M live TimerDeadlineError.t (option DeadlineRegistration) :=
  sample ← map_err (λ _, TimerDeadlineError.Fault) sample_clock_now;
  if deadline <=? nanoseconds sample then
    match old with
    | Some old =>
        cancelled ← on_timer_queue
          (map_err (λ _, TimerDeadlineError.Fault) (DeadlineQueue.cancel_if_live_ref old));
        (if is_none cancelled then mret tt else record_source_mutation);;
        mret None
    | None => mret None
    end
  else
    registration ←
      match old with
      | Some old =>
          replaced ← on_timer_queue
            (map_err map_timer_queue_error (DeadlineQueue.replace_if_live old deadline token));
          match replaced with
          | Some registration => mret registration
          | None =>
              on_timer_queue (map_err map_timer_queue_error (DeadlineQueue.register deadline token))
          end
      | None => on_timer_queue (map_err map_timer_queue_error (DeadlineQueue.register deadline token))
      end;
    record_source_mutation;;
    mret (Some registration).

(** [LiveTimeState::cancel_timer_deadline] *)
Definition live_cancel (registration : DeadlineRegistration) : M live TimerDeadlineError.t unit :=
  map_err (λ _, TimerDeadlineError.Fault) sample_clock_now;;
  cancelled ← on_timer_queue
    (map_err (λ _, TimerDeadlineError.Fault) (DeadlineQueue.cancel_if_live_ref registration));
  if is_none cancelled then mret tt else record_source_mutation.

(** ** The bootstrap processor's quantum *)

Definition arm_scheduler_quantum (ticket : SchedulerQuantumTicket)
    : M live LiveTimeError.t (option SchedulerQuantumTicket) :=
  if negb (bool_decide (ticket_cpu ticket = CpuIndex.BOOTSTRAP)) || (ticket_source_arm_generation ticket =? 0)
     || (ticket_execution_generation ticket =? 0)
  then fail LiveTimeError.Deadline
  else
    sample ← sample_clock_now;
    on_scheduler_quantum (map_err (λ _, LiveTimeError.Deadline)
      (LocalDeadlineSource.replace (ticket_source_arm_generation ticket) (ticket_deadline_ns ticket) ticket));;
    record_source_mutation;;
    due ← on_scheduler_quantum (LocalDeadlineSource.take_due (nanoseconds sample));
    (if is_none due then mret tt else record_source_mutation);;
    mret due.

Definition cancel_scheduler_quantum (ticket : SchedulerQuantumTicket) : M live LiveTimeError.t bool :=
  cancelled ← on_scheduler_quantum
    (LocalDeadlineSource.cancel (ticket_source_arm_generation ticket) ticket);
  (if cancelled : bool then record_source_mutation else mret tt);;
  mret cancelled.

Definition take_due_scheduler_quantum : M live LiveTimeError.t (option SchedulerQuantumTicket) :=
  sample ← sample_clock_now;
  due ← on_scheduler_quantum (LocalDeadlineSource.take_due (nanoseconds sample));
  (if is_none due then mret tt else record_source_mutation);;
  mret due.

(** ** Programming the hardware *)

(** [program_one_shot_timer] on the bootstrap CPU's controller: [answer] is
    whether the controller takes the count. *)
Definition program_one_shot_timer (answer : Result unit LiveTimeError.t) (count : Z) : M live LiveTimeError.t unit :=
  lift answer;;
  modify (λ self, {| pm_port := pm_port self; initial_count_register := count;
                     clock := clock self; time := time self |}).

(** What surrounds one turn of [reconcile_bsp_hardware_arm]: what happens to
    the state between the sample and the lock, what the controller answers,
    and what happens before the lock is taken again. *)
Record surrounded_turn : Type := {
  before_prepare : M live Empty_set unit;
  controller_answer : Result unit LiveTimeError.t;
  before_commit : M live Empty_set unit;
}.

(** One turn: the intent that was programmed is returned when it is still
    current. *)
Definition reconcile_turn (turn : surrounded_turn) : M live LiveTimeError.t (option HardwareArmIntent) :=
  sample ← sample_clock_now;
  unwrap (before_prepare turn);;
  intent ← prepare_hardware_arm sample;
  assert_that (negb (arm_deadline_ns intent =? 0));;
  program_one_shot_timer (controller_answer turn) (initial_count (arm_shot intent));;
  unwrap (before_commit turn);;
  self ← get;
  mret (if PhysicalArmSequence.is_current (hardware_arms (time self)) intent then Some intent else None).

Fixpoint reconcile_turns (turns : list surrounded_turn) : M live LiveTimeError.t HardwareArmIntent :=
  match turns with
  | [] => fail LiveTimeError.Faulted
  | turn :: turns =>
      committed ← reconcile_turn turn;
      match committed with
      | Some intent => mret intent
      | None => reconcile_turns turns
      end
  end.

(** The routine on the CPU [cpu], over the turns its surroundings give it:
    at most eight are taken. *)
Definition reconcile_bsp_hardware_arm (cpu : Result CpuIndex.t LiveTimeError.t) (turns : list surrounded_turn)
    : M live LiveTimeError.t HardwareArmIntent :=
  current ← lift cpu;
  if negb (bool_decide (current = CpuIndex.BOOTSTRAP)) then fail LiveTimeError.CpuIdentity
  else reconcile_turns (take 8 turns).

(** * The deadline authority of Timers *)

(** What the authority finds around it: whether the timer service is healthy
    and an expiry target bound, the CPU it runs on, what surrounds the turns
    of programming the hardware, and whether the bootstrap CPU can be asked
    to do so. *)
Record surroundings : Type := {
  healthy : bool;
  expiry_bound : bool;
  current_cpu : Result CpuIndex.t LiveTimeError.t;
  turns : list surrounded_turn;
  request_bsp_timer_service : bool;
}.

Definition current_cpu_is_timer_service (env : surroundings) : M live LiveTimeError.t bool :=
  cpu ← lift (current_cpu env);
  mret (bool_decide (cpu = CpuIndex.BOOTSTRAP)).

(** What follows a committed change: [halt_forever] is a panic. *)
Definition after_mutation (env : surroundings) (program_local_timer : bool) : M live TimerDeadlineError.t unit :=
  if program_local_timer then
    map_err (λ _, TimerDeadlineError.Fault) (reconcile_bsp_hardware_arm (current_cpu env) (turns env));;
    mret tt
  else if request_bsp_timer_service env then mret tt
  else panic.

Definition authority_replace (env : surroundings) (old : option DeadlineRegistration) (deadline : Z)
    (token : TimerExpiryToken) : M live TimerDeadlineError.t (option DeadlineRegistration) :=
  if negb (healthy env) then fail TimerDeadlineError.Fault
  else if negb (expiry_bound env) then fail TimerDeadlineError.Fault
  else
    program_local_timer ← map_err (λ _, TimerDeadlineError.Fault) (current_cpu_is_timer_service env);
    registration ← live_replace old deadline token;
    after_mutation env program_local_timer;;
    mret registration.

Definition authority_cancel (env : surroundings) (registration : DeadlineRegistration)
    : M live TimerDeadlineError.t unit :=
  if negb (healthy env) then fail TimerDeadlineError.Fault
  else
    program_local_timer ← map_err (λ _, TimerDeadlineError.Fault) (current_cpu_is_timer_service env);
    live_cancel registration;;
    after_mutation env program_local_timer.

(** The trait's instance, for given surroundings. *)
Definition LiveTimerDeadlineAuthority (env : surroundings) : TimerDeadlineAuthority live :=
  {| replace_timer_deadline := authority_replace env; cancel_timer_deadline := authority_cancel env |}.
