(* ===== verification/LiveTimeFacts.v ===== *)
(** * What the hardware is armed for

    The logical sources of the bootstrap CPU's timer, and the revision that
    every change of a source advances.  The intent that
    [reconcile_bsp_hardware_arm] leaves in the hardware is never later than
    any pending deadline. *)

From stdpp Require Import base tactics numbers list.
From Stdlib Require Import ZArith Lia.
From S2P Require Import Prelude Abi Object HandleTable Wait WaitFacts Clock ClockTheorems Deadline DeadlineFacts Timer LiveTime.
Local Open Scope Z_scope.

(** A deadline some source waits for. *)
Definition pending (t : LiveTimeState) (d : Z) : Prop :=
  (∃ k e, at_key (deadlines t) k = Some e ∧ deadline_ns e = d) ∨
  (∃ k e, at_key (timer_deadlines t) k = Some e ∧ deadline_ns e = d) ∨
  (∃ a, LocalDeadlineSource.armed (scheduler_quantum t) = Some a ∧ logical_deadline_ns a = d).

Lemma earliest_deadline_le sources m :
  earliest_deadline sources m ≤ m ∧ ∀ d, Some d ∈ sources → earliest_deadline sources m ≤ d.
Proof.
  unfold earliest_deadline. revert m. induction sources as [|x xs IH]; intros m; simpl.
  - split; [lia|by intros d ?%elem_of_nil].
  - set (m' := match x with Some d => if d <? m then d else m | None => m end).
    assert (m' ≤ m ∧ ∀ d, x = Some d → m' ≤ d) as [Hm Hx].
    { unfold m'. destruct x as [d|]; [|split; [lia|done]]. split; [|intros ? [= <-]]; destruct (Z.ltb_spec d m); lia. }
    destruct (IH m') as [Hle Hall]. split; [lia|].
    intros d [Heq|Hin]%elem_of_cons; [specialize (Hx d (eq_sym Heq)); lia|by apply Hall].
Qed.

Lemma next_deadline_le t sample d : pending t d → next_deadline t sample ≤ d.
Proof.
  intros Hp. unfold next_deadline. destruct (earliest_deadline_le
    [DeadlineQueue.earliest (deadlines t); DeadlineQueue.earliest (timer_deadlines t);
     LocalDeadlineSource.earliest (scheduler_quantum t)] (maintenance_deadline sample)) as [_ Hall].
  assert (∀ (T : Type) (q : DeadlineQueue.t T) k e, at_key q k = Some e →
    ∃ m, DeadlineQueue.earliest q = Some m ∧ m ≤ deadline_ns e) as Hq.
  { intros T q k e Hk. destruct (DeadlineQueue.earliest q) as [m|] eqn:He.
    - exists m. split; [done|]. by apply earliest_spec in He as [_ Hmin]; eapply Hmin.
    - rewrite earliest_None in He. by rewrite He in Hk. }
  destruct Hp as [(k & e & Hk & <-)|[(k & e & Hk & <-)|(a & Ha & <-)]].
  - destruct (Hq _ _ _ _ Hk) as (m & Hm & Hle).
    etrans; [apply (Hall m); rewrite Hm; by left|done].
  - destruct (Hq _ _ _ _ Hk) as (m & Hm & Hle).
    etrans; [apply (Hall m); rewrite Hm; right; by left|done].
  - apply Hall. assert (LocalDeadlineSource.earliest (scheduler_quantum t) = Some (logical_deadline_ns a)) as ->.
    { unfold LocalDeadlineSource.earliest. by rewrite Ha. }
    right. right. by left.
Qed.

(** ** Revisions *)

Definition sources (t : LiveTimeState) :=
  (apic_timer_hz t, deadlines t, timer_deadlines t, scheduler_quantum t).

Definition revision (l : live) : Z := PhysicalArmSequence.source_revision (hardware_arms (time l)).
Definition desired (l : live) : Z := PhysicalArmSequence.desired_generation (hardware_arms (time l)).

(** A source changes only together with the revision. *)
Definition marked (l l' : live) : Prop :=
  revision l ≤ revision l' ∧ (revision l' = revision l → sources (time l') = sources (time l)).

Lemma marked_refl l : marked l l.
Proof. split; [lia|done]. Qed.

Lemma marked_trans l l' l'' : marked l l' → marked l' l'' → marked l l''.
Proof.
  intros [Hr Hs] [Hr' Hs']. split; [lia|]. intros Heq. rewrite Hs' by lia. apply Hs. lia.
Qed.

(** The hardware arms: the next generation, the desired one and the count
    the hardware was given. *)
Definition arms (l : live) :=
  (PhysicalArmSequence.next_generation (hardware_arms (time l)), desired l, initial_count_register l).

(** The count the hardware has changes only together with the desired
    generation, which is then one that was not taken. *)
Definition rearmed (l l' : live) : Prop :=
  PhysicalArmSequence.next_generation (hardware_arms (time l)) ≤ PhysicalArmSequence.next_generation (hardware_arms (time l')) ∧
  (desired l' = desired l ∧ initial_count_register l' = initial_count_register l ∨
   PhysicalArmSequence.next_generation (hardware_arms (time l)) ≤ desired l').

Lemma rearmed_same l l' : arms l' = arms l → rearmed l l'.
Proof. intros [= Hn Hd Hc]. split; [lia|]. by left. Qed.

Lemma rearmed_trans l l1 l2 : rearmed l l1 → rearmed l1 l2 → rearmed l l2.
Proof.
  intros [Hn [[Hd Hc]|Hd]] [Hn' [[Hd' Hc']|Hd']]; (split; [lia|]); [|right; lia..].
  left. split; congruence.
Qed.

(** The sources are untouched, whatever the revision does. *)
Definition unmoved (l l' : live) : Prop := sources (time l') = sources (time l) ∧ revision l ≤ revision l'.

Lemma unmoved_marked l l' : unmoved l l' → marked l l'.
Proof. intros [? ?]. by split. Qed.

(** A new revision covers any change. *)
Lemma bumped_marked l l' : revision l < revision l' → marked l l'.
Proof. intros Hlt. split; [lia|]. lia. Qed.

(** ** Queues and sources under a call *)

Section touch.
Context {T : Type}.
Implicit Types (q : DeadlineQueue.t T).

(** The table keeps its size, and is the same when [same]. *)
Definition touched q (same : Prop) q' : Prop :=
  length (DeadlineQueue.slots q') = length (DeadlineQueue.slots q) ∧ (same → q' = q).

Lemma touched_refl q same : touched q same q.
Proof. done. Qed.

Lemma touched_slot q i s same : (same → DeadlineQueue.slots q !! i = Some s) → touched q same (DeadlineQueue.with_slot i s q).
Proof.
  intros Hs. split; [apply length_insert|]. intros Hi%Hs. unfold DeadlineQueue.with_slot.
  rewrite list_insert_id by done. by destruct q.
Qed.

Lemma register_touch deadline p q :
  wlp (DeadlineQueue.register deadline p) q (λ _ q', touched q False q') (λ _ q', True ∧ touched q True q').
Proof.
  unfold DeadlineQueue.register. wlp_step; [by wlp_step|]. do 3 wlp_step. wlp_step; [|done].
  destruct p0 as [i g]. wlp_step. wlp_step; [|done]. unfold wlp, assert_that, mbind, M_bind. simpl.
  destruct (_ <? _)%nat; [|done]. simpl. by apply touched_slot.
Qed.

Lemma cancel_if_live_touch reg q :
  wlp (DeadlineQueue.cancel_if_live_ref reg) q (λ r q', touched q (r = None) q') (λ _ q', True ∧ touched q True q').
Proof.
  unfold DeadlineQueue.cancel_if_live_ref. do 2 wlp_step. wlp_step; [by wlp_step|]. wlp_step. wlp_step; [|done].
  wlp_step; [by wlp_step|]. wlp_step; [by wlp_step|]. do 3 wlp_step. apply touched_slot.
  intros Hn. apply fmap_None in Hn. rewrite Heqo. destruct d as [g e]. simpl in *. by subst.
Qed.

Lemma replace_if_live_touch reg deadline p q :
  wlp (DeadlineQueue.replace_if_live reg deadline p) q (λ r q', touched q (r = None) q') (λ _ q', True ∧ touched q True q').
Proof.
  unfold DeadlineQueue.replace_if_live. wlp_step; [by wlp_step|]. do 2 wlp_step. wlp_step; [by wlp_step|].
  wlp_step. wlp_step; [|done]. wlp_step; [by wlp_step|]. wlp_step; [by wlp_step|]. wlp_step. wlp_step; [|done].
  do 3 wlp_step. by apply touched_slot.
Qed.

Lemma expire_touch {E} now output q : (length (DeadlineQueue.slots q) ≤ length output)%nat →
  wlp (E:=E) (DeadlineQueue.expire now output) q (λ r q', touched q (r.2 = 0%nat) q') (λ _ q', False ∧ touched q True q').
Proof.
  intros Hlen. apply wlp_wp. eapply wp_mono; [by apply (expire_wp now output q (λ _ _, False))| |done].
  intros [out count] q' [[= -> ->] ->]. split; simpl; [by rewrite length_fmap|].
  intros Hnone%nil_length_inv. destruct q as [d ss]. f_equal. simpl in *.
  induction ss as [|s ss IH]; [done|]. simpl in *. unfold expired, cleared in *. simpl in Hnone |- *.
  unfold DeadlineQueue.due in *. destruct (entry s) as [e|]; simpl in *; [|by f_equal; apply IH; [lia|]].
  destruct (deadline_ns e <=? now); [done|]. f_equal. apply IH; [lia|done].
Qed.
End touch.

(** ** Every operation marks what it changes *)

Record live_wf (l : live) : Prop := {
  lw_deadlines : length (DeadlineQueue.slots (deadlines (time l))) = DEADLINE_QUEUE_CAPACITY;
  lw_timers : length (DeadlineQueue.slots (timer_deadlines (time l))) = DEADLINE_QUEUE_CAPACITY;
  lw_rate : is_uint 64 (apic_timer_hz (time l));
}.

(** A change that is not marked yet; the sources are the same when [same]. *)
Record edited (l : live) (same : Prop) (l' : live) : Prop := {
  ed_wf : live_wf l → live_wf l';
  ed_revision : revision l' = revision l;
  ed_arms : arms l' = arms l;
  ed_same : same → sources (time l') = sources (time l);
}.

Lemma edited_refl l same : edited l same l.
Proof. by split. Qed.

Lemma edited_trans l l1 l2 same same' : edited l same l1 → edited l1 same' l2 → edited l (same ∧ same') l2.
Proof.
  intros [Hw Hr Ha Hs] [Hw' Hr' Ha' Hs']. split; [auto|congruence..|]. intros [? ?]. rewrite Hs' by done. by apply Hs.
Qed.

Ltac chain := cbn beta in *; eapply edited_trans; eassumption.

Lemma edited_weaken l same same' l' : edited l same l' → (same' → same) → edited l same' l'.
Proof. intros [Hw Hr Ha Hs] Himp. split; auto. Qed.

(** The operation is done: what changed is marked. *)
Definition done_well (l l' : live) : Prop := (live_wf l → live_wf l') ∧ marked l l' ∧ rearmed l l'.

Lemma edited_done l l' : edited l True l' → done_well l l'.
Proof.
  intros [Hw Hr Ha Hs]. split; [done|]. split; [|by apply rearmed_same]. split; [lia|]. intros _. by apply Hs.
Qed.

Lemma done_well_trans l l1 l2 : done_well l l1 → done_well l1 l2 → done_well l l2.
Proof.
  intros (Hw & Hm & Ha) (Hw' & Hm' & Ha'). split; [auto|].
  split; [by eapply marked_trans|by eapply rearmed_trans].
Qed.

Lemma sample_edited l : wlp sample_clock_now l (λ _ l', edited l True l') (λ _ l', edited l True l').
Proof.
  unfold sample_clock_now. do 2 wlp_step. apply wlp_on_part. unfold wlp.
  destruct (sample_now (pm_port l) (clock l)); [split; [by intros []|done..]..|done].
Qed.

Lemma deadline_queue_edited {E A} (m : M (DeadlineQueue.t BlockWakeKey) E A) l (same : A → Prop) (fails : Prop) :
  wlp m (deadlines (time l)) (λ a q', touched (deadlines (time l)) (same a) q')
    (λ _ q', fails ∧ touched (deadlines (time l)) True q') →
  wlp (on_deadline_queue m) l (λ a l', edited l (same a) l') (λ _ l', fails ∧ edited l True l').
Proof.
  intros Hm. unfold on_deadline_queue, on_time. do 2 apply wlp_on_part.
  eapply wlp_mono; [exact Hm|..].
  - intros x q' [Hlen Hq]. split; [intros []; split; simpl; congruence || done|done..|].
    intros Hs%Hq. unfold sources. simpl. congruence.
  - intros x q' [Hf [Hlen Hq]]. split; [done|]. split; [intros []; split; simpl; congruence || done|done..|].
    intros Hs%Hq. unfold sources. simpl. congruence.
Qed.

Lemma timer_queue_edited {E A} (m : M (DeadlineQueue.t TimerExpiryToken) E A) l (same : A → Prop) (fails : Prop) :
  wlp m (timer_deadlines (time l)) (λ a q', touched (timer_deadlines (time l)) (same a) q')
    (λ _ q', fails ∧ touched (timer_deadlines (time l)) True q') →
  wlp (on_timer_queue m) l (λ a l', edited l (same a) l') (λ _ l', fails ∧ edited l True l').
Proof.
  intros Hm. unfold on_timer_queue, on_time. do 2 apply wlp_on_part.
  eapply wlp_mono; [exact Hm|..].
  - intros x q' [Hlen Hq]. split; [intros []; split; simpl; congruence || done|done..|].
    intros Hs%Hq. unfold sources. simpl. congruence.
  - intros x q' [Hf [Hlen Hq]]. split; [done|]. split; [intros []; split; simpl; congruence || done|done..|].
    intros Hs%Hq. unfold sources. simpl. congruence.
Qed.

Lemma quantum_edited {E A} (m : M (LocalDeadlineSource.t SchedulerQuantumTicket) E A) l (same : A → Prop) (fails : Prop) :
  wlp m (scheduler_quantum (time l)) (λ a q', same a → q' = scheduler_quantum (time l))
    (λ _ q', fails ∧ q' = scheduler_quantum (time l)) →
  wlp (on_scheduler_quantum m) l (λ a l', edited l (same a) l') (λ _ l', fails ∧ edited l True l').
Proof.
  intros Hm. unfold on_scheduler_quantum, on_time. do 2 apply wlp_on_part.
  eapply wlp_mono; [exact Hm|..].
  - intros x q' Hq. split; [by intros []|done..|]. intros Hs%Hq. unfold sources. simpl. congruence.
  - intros x q' [Hf ->]. split; [done|]. split; [by intros []|done..].
Qed.

(** An unmarked change followed by the mark. *)
Lemma record_done {E} l same l1 (R : E → live → Prop) : edited l same l1 →
  wlp record_source_mutation l1 (λ _ l', done_well l l') R.
Proof.
  intros [Hw Hr Ha _]. unfold record_source_mutation, on_hardware_arms, on_time.
  apply wlp_on_part, wlp_on_part, wlp_unwrap. unfold PhysicalArmSequence.source_mutated. do 3 wlp_step.
  wlp_step; [|done]. wlp_step. split; [by intros []; split; apply Hw|]. split; [|by apply rearmed_same]. apply bumped_marked.
  unfold revision in *. simpl. rewrite <- Hr. unfold next_nonzero, checked_add, filter_nonzero in Heqo.
  destruct (_ <? _); [|done]. destruct (_ =? 0); [done|]. injection Heqo as <-. lia.
Qed.

Lemma take_due_same {E} now q : wlp (E:=E) (LocalDeadlineSource.take_due (T:=SchedulerQuantumTicket) now) q
  (λ r q', r = None → q' = q) (λ _ q', False ∧ q' = q).
Proof.
  unfold LocalDeadlineSource.take_due. do 2 wlp_step. wlp_step; [|by wlp_step].
  do 3 wlp_step. intros Hn%fmap_None. by rewrite Hn in Heqb.
Qed.

Lemma cancel_same {E} g ticket q : wlp (E:=E) (LocalDeadlineSource.cancel (T:=SchedulerQuantumTicket) g ticket) q
  (λ r q', r = false → q' = q) (λ _ q', False ∧ q' = q).
Proof. unfold LocalDeadlineSource.cancel. do 2 wlp_step. wlp_step; [|by wlp_step]. by do 3 wlp_step. Qed.

Lemma replace_same g deadline ticket q :
  wlp (LocalDeadlineSource.replace (T:=SchedulerQuantumTicket) g deadline ticket) q (λ _ q', False → q' = q) (λ _ q', True ∧ q' = q).
Proof.
  unfold LocalDeadlineSource.replace. wlp_step; [by wlp_step|]. wlp_step; [by wlp_step|]. do 2 wlp_step.
  wlp_step; [by wlp_step|]. by wlp_step.
Qed.

(** Marked when something changed. *)
Lemma record_after {A} l (r : option A) l1 (Q : live → Prop) : edited l (r = None) l1 →
  (∀ l', done_well l l' → Q l') → ∀ {E} (R : E → live → Prop),
  wlp (if is_none r then mret tt else record_source_mutation) l1 (λ _ l', Q l') R.
Proof.
  intros Hed HQ E R. destruct r; simpl.
  - eapply wlp_mono; [by apply (record_done l (Some a = None) l1 (λ _ _, False))| |done]. intros ? l'. apply HQ.
  - apply wlp_wp, wp_ret, HQ, edited_done. by eapply edited_weaken.
Qed.

Lemma register_deadline_done deadline wake l :
  wlp (register_deadline deadline wake) l (λ _ l', done_well l l') (λ _ l', done_well l l').
Proof.
  unfold register_deadline. wlp_step. wlp_step. eapply wlp_mono; [apply sample_edited| |by intros ? ? ?%edited_done].
  intros sample l1 H1. wlp_step; [wlp_step; by apply edited_done|]. wlp_step.
  eapply wlp_mono; [eapply (deadline_queue_edited _ _ (λ _, False) _); wlp_step; apply register_touch| |].
  - intros reg l2 H2. wlp_step. eapply wlp_mono; [eapply (record_done l _ _ (λ _ _, False)); chain| |done]. intros ? l' Hd. by wlp_step.
  - intros ? l2 [_ H2]. apply edited_done. eapply edited_weaken; [chain|done].
Qed.

Lemma cancel_deadline_done reg l :
  wlp (cancel_deadline reg) l (λ _ l', done_well l l') (λ _ l', done_well l l').
Proof.
  unfold cancel_deadline. wlp_step. eapply wlp_mono; [apply sample_edited| |by intros ? ? ?%edited_done].
  intros sample l1 H1. wlp_step.
  eapply wlp_mono; [eapply (deadline_queue_edited _ _ (λ r, r = None) _); wlp_step; apply cancel_if_live_touch| |].
  - intros r l2 H2. apply (record_after l r l2); [|done]. eapply edited_weaken; [chain|done].
  - intros ? l2 [_ H2]. apply edited_done. eapply edited_weaken; [chain|done].
Qed.

Lemma live_cancel_done reg l : wlp (live_cancel reg) l (λ _ l', done_well l l') (λ _ l', done_well l l').
Proof.
  unfold live_cancel. wlp_step. wlp_step. eapply wlp_mono; [apply sample_edited| |by intros ? ? ?%edited_done].
  intros sample l1 H1. wlp_step.
  eapply wlp_mono; [eapply (timer_queue_edited _ _ (λ r, r = None) _); wlp_step; apply cancel_if_live_touch| |].
  - intros r l2 H2. apply (record_after l r l2); [|done]. eapply edited_weaken; [chain|done].
  - intros ? l2 [_ H2]. apply edited_done. eapply edited_weaken; [chain|done].
Qed.

Lemma live_replace_done old deadline token l :
  wlp (live_replace old deadline token) l (λ _ l', done_well l l') (λ _ l', done_well l l').
Proof.
  unfold live_replace. wlp_step. wlp_step. eapply wlp_mono; [apply sample_edited| |by intros ? ? ?%edited_done].
  intros sample l1 H1. assert (∀ l2, edited l1 True l2 → edited l True l2) as Htr.
  { intros l2 H2. eapply edited_weaken; [chain|done]. }
  assert (∀ l2, edited l True l2 → wlp (on_timer_queue (map_err map_timer_queue_error (DeadlineQueue.register deadline token))) l2
    (λ _ l3, edited l False l3) (λ _ l3, done_well l l3)) as Hreg.
  { intros l2 H2. eapply wlp_mono; [eapply (timer_queue_edited _ _ (λ _, False) _); wlp_step; apply register_touch| |].
    - intros ? l3 H3. eapply edited_weaken; [chain|done].
    - intros ? l3 [_ H3]. apply edited_done. eapply edited_weaken; [chain|done]. }
  wlp_step.
  - destruct old as [old|]; [|wlp_step; by apply edited_done]. wlp_step.
    eapply wlp_mono; [eapply (timer_queue_edited _ _ (λ r, r = None) _); wlp_step; apply cancel_if_live_touch| |].
    + intros r l2 H2. wlp_step. apply (record_after l r l2); [|intros l' Hd; by wlp_step].
      eapply edited_weaken; [chain|done].
    + intros ? l2 [_ H2]. by apply edited_done, Htr.
  - wlp_step. eapply wlp_mono; [instantiate (1 := λ _ l', done_well l l'); instantiate (1 := λ _ l', edited l False l')| |done].
    + destruct old as [old|]; [|by apply Hreg]. wlp_step.
      eapply wlp_mono; [eapply (timer_queue_edited _ _ (λ r, r = None) _); wlp_step; apply replace_if_live_touch| |].
      * intros [r|] l2 H2; [|by apply Hreg, Htr; eapply edited_weaken]. wlp_step.
        eapply edited_weaken; [chain|done].
      * intros ? l2 [_ H2]. by apply edited_done, Htr.
    + intros reg l2 H2. wlp_step. eapply wlp_mono; [eapply (record_done l _ _ (λ _ _, False)); cbn beta in *; eassumption| |done]. intros ? l' Hd. by wlp_step.
Qed.

Lemma arm_quantum_done ticket l :
  wlp (arm_scheduler_quantum ticket) l (λ _ l', done_well l l') (λ _ l', done_well l l').
Proof.
  unfold arm_scheduler_quantum. wlp_step; [wlp_step; apply edited_done, edited_refl|]. wlp_step.
  eapply wlp_mono; [apply sample_edited| |by intros ? ? ?%edited_done]. intros sample l1 H1. wlp_step.
  eapply wlp_mono; [eapply (quantum_edited _ _ (λ _, False) _); wlp_step; apply replace_same| |].
  2:{ intros ? l2 [_ H2]. apply edited_done. eapply edited_weaken; [chain|done]. }
  intros ? l2 H2. wlp_step. eapply wlp_mono; [eapply (record_done l _ _ (λ _ _, False)); chain| |done]. intros ? l3 Hd. wlp_step.
  eapply wlp_mono; [eapply (quantum_edited _ _ (λ r, r = None) _); apply take_due_same| |].
  - intros r l4 H4. wlp_step. apply (record_after l3 r l4); [done|]. intros l' Hd'. wlp_step. eapply done_well_trans; [exact Hd|exact Hd'].
  - intros ? l4 [_ H4]. eapply done_well_trans; [exact Hd|by apply edited_done].
Qed.

Lemma cancel_quantum_done ticket l :
  wlp (cancel_scheduler_quantum ticket) l (λ _ l', done_well l l') (λ _ l', done_well l l').
Proof.
  unfold cancel_scheduler_quantum. wlp_step.
  eapply wlp_mono; [eapply (quantum_edited _ _ (λ r, r = false) _); apply cancel_same| |by intros ? ? [[] _]].
  intros r l1 H1. wlp_step. destruct r.
  - eapply wlp_mono; [eapply (record_done l _ _ (λ _ _, False)); cbn beta in *; eassumption| |done]. intros ? l' Hd. by wlp_step.
  - wlp_step. wlp_step. apply edited_done. by eapply edited_weaken.
Qed.

Lemma take_due_quantum_done l :
  wlp take_due_scheduler_quantum l (λ _ l', done_well l l') (λ _ l', done_well l l').
Proof.
  unfold take_due_scheduler_quantum. wlp_step. eapply wlp_mono; [apply sample_edited| |by intros ? ? ?%edited_done].
  intros sample l1 H1. wlp_step.
  eapply wlp_mono; [eapply (quantum_edited _ _ (λ r, r = None) _); apply take_due_same| |].
  - intros r l2 H2. wlp_step. apply (record_after l r l2); [|intros l' Hd; by wlp_step].
    eapply edited_weaken; [chain|done].
  - intros ? l2 [_ H2]. apply edited_done. eapply edited_weaken; [chain|done].
Qed.

Lemma interrupt_done l : live_wf l →
  wlp (interrupt empty_outcome) l (λ _ l', done_well l l') (λ _ l', done_well l l').
Proof.
  intros Hwf. unfold interrupt. wlp_step. apply wlp_wp, wp_assert; [done|].
  wlp_step. eapply wlp_mono; [apply sample_edited| |by intros ? ? ?%edited_done].
  intros sample l1 H1. pose proof (ed_wf _ _ _ H1 Hwf) as Hwf1. wlp_step.
  eapply wlp_mono; [eapply (deadline_queue_edited _ _ (λ r, r.2 = 0%nat) False)| |by intros ? ? [[] _]].
  { apply expire_touch. rewrite (lw_deadlines _ Hwf1). done. }
  intros [ws wc] l2 H2. pose proof (ed_wf _ _ _ H2 Hwf1) as Hwf2. wlp_step.
  eapply wlp_mono; [eapply (timer_queue_edited _ _ (λ r, r.2 = 0%nat) False)| |by intros ? ? [[] _]].
  { apply expire_touch. rewrite (lw_timers _ Hwf2). done. }
  intros [ts tc] l3 H3. wlp_step. simpl in H2, H3.
  eapply wlp_mono; [eapply (quantum_edited _ _ (λ r, r = None) _); apply take_due_same| |by intros ? ? [[] _]].
  intros r l4 H4. wlp_step.
  pose proof (edited_trans _ _ _ _ _ H1 (edited_trans _ _ _ _ _ H2 (edited_trans _ _ _ _ _ H3 H4))) as Hall.
  destruct (negb (wc =? 0)%nat || negb (tc =? 0)%nat || negb (is_none r)) eqn:Hany.
  - eapply wlp_mono; [eapply (record_done l _ _ (λ _ _, False)); cbn beta in *; eassumption| |done]. intros ? l' Hd. by wlp_step.
  - wlp_step. wlp_step. apply edited_done. eapply edited_weaken; [exact Hall|]. intros _.
    apply orb_false_iff in Hany as [[Hw Ht]%orb_false_iff Hr]. apply negb_false_iff in Hw, Ht, Hr.
    apply Nat.eqb_eq in Hw, Ht. split_and!; [done..|]. by destruct r.
Qed.
