(* ===== verification/LiveTimeTheorems.v ===== *)
(** * The hardware covers every deadline

    What can happen to the time state while the bootstrap CPU programs its
    timer, and that the count it leaves in the hardware is the one for the
    earliest deadline of the state it leaves behind. *)

From stdpp Require Import base tactics numbers list.
From Stdlib Require Import ZArith Lia.
From S2P Require Import Prelude Abi Object HandleTable Cpu Wait WaitFacts Clock ClockTheorems Deadline DeadlineFacts Timer LiveTime LiveTimeFacts.
Local Open Scope Z_scope.

(** ** What other CPUs and interrupts do *)

Inductive live_op : Type :=
| AdvanceCounter (raw : Z)
| RegisterDeadline (deadline : Z) (wake : BlockWakeKey)
| CancelDeadline (registration : DeadlineRegistration)
| ReplaceTimer (old : option DeadlineRegistration) (deadline : Z) (token : TimerExpiryToken)
| CancelTimer (registration : DeadlineRegistration)
| ArmQuantum (ticket : SchedulerQuantumTicket)
| CancelQuantum (ticket : SchedulerQuantumTicket)
| TakeDueQuantum
| Interrupt
| Rearm (answer : Result unit LiveTimeError.t).

(** An operation whose answer is somebody else's. *)
Definition attempt {E A} (m : M live E A) : M live Empty_set unit := try m;; mret tt.

(** A turn nobody disturbs. *)
Definition quiet_turn (answer : Result unit LiveTimeError.t) : surrounded_turn :=
  {| before_prepare := mret tt; controller_answer := answer; before_commit := mret tt |}.

Definition run_op (op : live_op) : M live Empty_set unit :=
  match op with
  | AdvanceCounter raw =>
      modify (λ self, {| pm_port := raw; initial_count_register := initial_count_register self;
                         clock := clock self; time := time self |})
  | RegisterDeadline deadline wake => attempt (register_deadline deadline wake)
  | CancelDeadline registration => attempt (cancel_deadline registration)
  | ReplaceTimer old deadline token => attempt (live_replace old deadline token)
  | CancelTimer registration => attempt (live_cancel registration)
  | ArmQuantum ticket => attempt (arm_scheduler_quantum ticket)
  | CancelQuantum ticket => attempt (cancel_scheduler_quantum ticket)
  | TakeDueQuantum => attempt take_due_scheduler_quantum
  | Interrupt => attempt (interrupt empty_outcome)
  | Rearm answer => attempt (reconcile_turn (quiet_turn answer))
  end.

Fixpoint run_ops (ops : list live_op) : M live Empty_set unit :=
  match ops with
  | [] => mret tt
  | op :: ops => run_op op;; run_ops ops
  end.

(** A turn with operations between its steps. *)
Definition disturbed_turn (turn : list live_op * Result unit LiveTimeError.t * list live_op) : surrounded_turn :=
  let '(before, answer, after) := turn in
  {| before_prepare := run_ops before; controller_answer := answer; before_commit := run_ops after |}.

(** ** One turn *)

(** What preparing an intent leaves. *)
Record prepared (l : live) (sample : MonotonicSample) (intent : HardwareArmIntent) (l' : live) : Prop := {
  pr_sources : sources (time l') = sources (time l);
  pr_revision : revision l' = revision l;
  pr_arm_revision : arm_source_revision intent = revision l;
  pr_count : initial_count_register l' = initial_count_register l;
  pr_generation : arm_generation intent = PhysicalArmSequence.next_generation (hardware_arms (time l));
  pr_desired : desired l' = arm_generation intent;
  pr_next : PhysicalArmSequence.next_generation (hardware_arms (time l')) = arm_generation intent + 1;
  pr_deadline : arm_deadline_ns intent = next_deadline (time l) sample;
  pr_shot : apic_one_shot_for_delta (saturating_sub (arm_deadline_ns intent) (nanoseconds sample))
              (apic_timer_hz (time l)) = Ok (arm_shot intent);
}.

Lemma sources_wf l l' : sources (time l') = sources (time l) → live_wf l → live_wf l'.
Proof. intros [= Hh Hd Ht Hq] [Hld Hlt Hr]. split; by rewrite ?Hd, ?Ht, ?Hh. Qed.

Lemma prepared_done l sample intent l' : prepared l sample intent l' → done_well l l'.
Proof.
  intros [Hs Hr _ Hc Hg Hd Hn _ _]. split; [by apply sources_wf|]. split; [split; [lia|done]|].
  split; [lia|]. right. lia.
Qed.

Lemma prepare_prepared sample l :
  wlp (prepare_hardware_arm sample) l (λ intent l', prepared l sample intent l') (λ _ l', done_well l l').
Proof.
  unfold wlp. cbv [prepare_hardware_arm on_hardware_arms on_time on_part map_err mbind M_bind get lift ok_or modify put
    PhysicalArmSequence.prepare PhysicalArmSequence.take_generation PhysicalArmSequence.desire].
  destruct (next_nonzero 64 _) as [next|] eqn:Hnext; [|apply edited_done; by split; [apply sources_wf|..]].
  assert (next = PhysicalArmSequence.next_generation (hardware_arms (time l)) + 1) as ->.
  { unfold next_nonzero, checked_add, filter_nonzero in Hnext. destruct (_ <? _); [|done].
    destruct (_ =? 0); [done|]. by injection Hnext. }
  cbn beta iota. destruct (apic_one_shot_for_delta _ _) as [shot|error] eqn:Hshot; [by split|].
  split; [by apply sources_wf|]. split; [by split|]. split; [simpl; lia|]. by left.
Qed.

Lemma program_count answer count l :
  wlp (program_one_shot_timer answer count) l
    (λ _ l', l' = {| pm_port := pm_port l; initial_count_register := count; clock := clock l; time := time l |})
    (λ _ l', l' = l).
Proof. unfold wlp, program_one_shot_timer. by destruct answer. Qed.

(** Operations that leave nothing unmarked. *)
Definition benign (m : M live Empty_set unit) : Prop :=
  ∀ l, live_wf l → wlp m l (λ _ l', done_well l l') (λ _ _, False).

Lemma benign_ret : benign (mret tt).
Proof. intros l Hwf. apply wlp_wp, wp_ret, edited_done, edited_refl. Qed.

(** The intent is in the hardware and no pending deadline is before it; the
    count was computed from [sample], taken in the state [l]. *)
Record covered (l : live) (sample : MonotonicSample) (intent : HardwareArmIntent) (l' : live) : Prop := {
  co_sample : ∃ ls, sample_clock_now l = Ret ls sample;
  co_count : initial_count_register l' = initial_count (arm_shot intent);
  co_pending : ∀ d, pending (time l') d → arm_deadline_ns intent ≤ d;
  co_maintenance : arm_deadline_ns intent ≤ maintenance_deadline sample;
  co_shot : apic_one_shot_for_delta (saturating_sub (arm_deadline_ns intent) (nanoseconds sample))
              (apic_timer_hz (time l')) = Ok (arm_shot intent);
}.

Lemma pending_sources t t' d : sources t' = sources t → pending t' d → pending t d.
Proof. unfold sources, pending. intros [= _ -> -> ->]. done. Qed.

(** An intent that is still current after [l3], where it was programmed. *)
Lemma current_covered l sample l2 intent l3 l' :
  (∃ ls, sample_clock_now l = Ret ls sample) → prepared l2 sample intent l3 →
  let programmed := {| pm_port := pm_port l3; initial_count_register := initial_count (arm_shot intent);
                       clock := clock l3; time := time l3 |} in
  done_well programmed l' → PhysicalArmSequence.is_current (hardware_arms (time l')) intent = true →
  covered l sample intent l'.
Proof.
  intros Hs Hp programmed (_ & [_ Hsrc] & [_ Harm]) [Hcur Hrev]%andb_true_iff. apply Z.eqb_eq in Hcur, Hrev.
  destruct Hp as [Hs3 Hr3 Hra _ _ Hd3 Hn3 Hdl Hshot].
  assert (sources (time l') = sources (time l2)) as Hsame.
  { rewrite Hsrc; [done|]. unfold revision, programmed in *. simpl. congruence. }
  destruct (earliest_deadline_le [DeadlineQueue.earliest (deadlines (time l2));
    DeadlineQueue.earliest (timer_deadlines (time l2)); LocalDeadlineSource.earliest (scheduler_quantum (time l2))]
    (maintenance_deadline sample)) as [Hmain _].
  split; [done| | |by rewrite Hdl|].
  - destruct Harm as [[_ Hc]|Hnext]; [done|]. unfold desired, programmed in *. simpl in *. lia.
  - intros d Hd. rewrite Hdl. apply next_deadline_le. by eapply pending_sources.
  - by injection Hsame as -> _ _ _.
Qed.

(** Programming what was prepared leaves nothing unmarked either. *)
Lemma programmed_done l sample intent l' count : prepared l sample intent l' →
  done_well l {| pm_port := pm_port l'; initial_count_register := count; clock := clock l'; time := time l' |}.
Proof.
  intros Hp. pose proof Hp as [Hs Hr _ Hc Hg Hd Hn _ _].
  split; [by apply sources_wf|]. split; [by split; [unfold revision in *; simpl; lia|]|].
  split; [simpl; lia|]. right. unfold desired in *. simpl. lia.
Qed.

Lemma turn_wlp turn l : benign (before_prepare turn) → benign (before_commit turn) → live_wf l →
  wlp (reconcile_turn turn) l
    (λ r l', done_well l l' ∧ ∀ intent, r = Some intent → ∃ sample, covered l sample intent l')
    (λ _ l', done_well l l').
Proof.
  intros Hb1 Hb2 Hwf. unfold reconcile_turn. wlp_step.
  assert (wlp sample_clock_now l (λ sample l1, edited l True l1 ∧ ∃ ls, sample_clock_now l = Ret ls sample)
    (λ _ l1, edited l True l1)) as Hsample.
  { pose proof (sample_edited l) as Hs. unfold wlp in *. destruct (sample_clock_now l); eauto. }
  eapply wlp_mono; [exact Hsample| |by intros ? ? ?%edited_done].
  intros sample l1 [H1%edited_done Hs]. pose proof (proj1 H1 Hwf) as Hwf1. do 2 wlp_step.
  eapply wlp_mono; [by apply Hb1| |done]. intros ? l2 H2. pose proof (proj1 H2 Hwf1) as Hwf2. wlp_step.
  pose proof (done_well_trans _ _ _ H1 H2) as H12.
  eapply wlp_mono; [apply prepare_prepared| |intros ? l3 H3; by eapply done_well_trans].
  intros intent l3 H3. wlp_step. unfold wlp at 1, assert_that. destruct (negb _); [|done]. simpl. wlp_step.
  eapply wlp_mono; [apply program_count| |intros ? ? ->; eapply done_well_trans; [done|by eapply prepared_done]].
  intros ? l4 Hl4. pose proof (programmed_done _ _ _ _ (initial_count (arm_shot intent)) H3) as H4.
  rewrite <- Hl4 in H4. do 2 wlp_step.
  eapply wlp_mono; [by apply Hb2, H4| |done]. intros ? l5 H5. do 3 wlp_step.
  split; [by eapply done_well_trans; [|eapply done_well_trans]|]. intros intent' Hcur.
  destruct (PhysicalArmSequence.is_current _ _) eqn:Heq; [|done]. injection Hcur as <-.
  exists sample. cbn beta in Hl4. subst l4. by eapply current_covered.
Qed.

(** ** The operations are benign *)

Lemma attempt_wlp {E A} (m : M live E A) l :
  wlp m l (λ _ l', done_well l l') (λ _ l', done_well l l') →
  wlp (attempt m) l (λ _ l', done_well l l') (λ _ _, False).
Proof. unfold wlp, attempt, try, mbind, M_bind. by destruct (m l). Qed.

Lemma run_op_benign op : benign (run_op op).
Proof.
  intros l Hwf. destruct op; simpl; try apply attempt_wlp.
  - apply wlp_wp, wp_modify, edited_done. by split; [by apply sources_wf|..].
  - apply register_deadline_done.
  - apply cancel_deadline_done.
  - apply live_replace_done.
  - apply live_cancel_done.
  - apply arm_quantum_done.
  - apply cancel_quantum_done.
  - apply take_due_quantum_done.
  - by apply interrupt_done.
  - eapply wlp_mono; [by apply turn_wlp; [apply benign_ret..|]| |done]. by intros ? ? [? _].
Qed.

Lemma run_ops_benign ops : benign (run_ops ops).
Proof.
  induction ops as [|op ops IH]; [exact benign_ret|]. intros l Hwf. simpl. wlp_step.
  eapply wlp_mono; [by apply run_op_benign| |done]. intros ? l1 H1.
  eapply wlp_mono; [by apply IH, H1| |done]. intros ? l2 H2. exact (done_well_trans _ _ _ H1 H2).
Qed.

Lemma turns_wlp turns l : live_wf l →
  wlp (reconcile_turns (disturbed_turn <$> turns)) l
    (λ intent l', ∃ turn lt sample, turn ∈ turns ∧ reconcile_turn (disturbed_turn turn) lt = Ret l' (Some intent) ∧
       live_wf l' ∧ covered lt sample intent l')
    (λ _ l', done_well l l').
Proof.
  revert l. induction turns as [|turn turns IH]; intros l Hwf; simpl; [apply wlp_wp, wp_fail, edited_done, edited_refl|].
  wlp_step. assert (wlp (reconcile_turn (disturbed_turn turn)) l
    (λ r l', (done_well l l' ∧ ∀ intent, r = Some intent → ∃ sample, covered l sample intent l') ∧
       reconcile_turn (disturbed_turn turn) l = Ret l' r) (λ _ l', done_well l l')) as Hturn.
  { pose proof (turn_wlp (disturbed_turn turn) l) as Ht. unfold wlp in *.
    destruct (reconcile_turn _ l); [split; [|done]|..]; apply Ht; try done; destruct turn as [[]]; apply run_ops_benign. }
  eapply wlp_mono; [exact Hturn| |done]. intros r l1 [[Hd Hcov] Heq]. destruct r as [intent|].
  - destruct (Hcov intent eq_refl) as [sample Hc]. wlp_step. exists turn, l, sample. split; [by left|]. split_and!; [done|by apply Hd|done].
  - eapply wlp_mono; [by apply IH, Hd| |].
    + intros intent l' (t & lt & sample & Hin & Hrest). exists t, lt, sample. by split; [right|].
    + intros ? l' Hd'. exact (done_well_trans _ _ _ Hd Hd').
Qed.

(** ** The count *)

Definition clock_width (l : live) : PmTimerWidth.t := PmTimerDescriptor.width (PmTimerState.descriptor (pm (clock l))).

Lemma sample_maintenance l ls sample : sample_clock_now l = Ret ls sample →
  maintenance_deadline sample = nanoseconds sample + arm_ns (clock_width l).
Proof.
  cbv [sample_clock_now sample_now on_part map_err mbind M_bind get modify mret M_ret]. cbn beta iota.
  unfold PmTimerState.sample. cbv [mbind M_bind get]. cbn beta iota. fold (clock_width l).
  destruct (_ <? _); [done|]. destruct (checked_add 64 _ _) as [ticks|]; [|done]. cbn [ok_or].
  cbv [mret M_ret]. cbn beta iota. destruct (ticks_to_nanoseconds ticks) as [nanos|]; [|done]. cbn [lift].
  unfold PmTimerDescriptor.maintenance_arm_nanoseconds. fold (clock_width l).
  rewrite ticks_to_nanoseconds_spec by (by destruct (clock_width l)). fold (arm_ns (clock_width l)).
  replace (arm_ns (clock_width l) <? DW_DEADLINE_INFINITE) with true by (by destruct (clock_width l)).
  cbv [lift mret M_ret]. cbn beta iota. unfold checked_add.
  destruct (_ <? 2 ^ 64); [|done]. simpl. destruct (_ <? _); [|done]. cbn. by intros [= <- <-].
Qed.

Lemma covered_shot l sample intent l' : live_wf l' → covered l sample intent l' →
  arm_deadline_ns intent ≤ nanoseconds sample + arm_ns (clock_width l) ∧
  shot_spec (saturating_sub (arm_deadline_ns intent) (nanoseconds sample)) (apic_timer_hz (time l')) (arm_shot intent).
Proof.
  intros [_ _ Hrate] [[ls Hs] _ _ Hmain Hshot]. rewrite (sample_maintenance _ _ _ Hs) in Hmain. split; [done|].
  assert (arm_ns (clock_width l) < 2 ^ 64) by (by destruct (clock_width l)).
  pose proof (one_shot_spec (saturating_sub (arm_deadline_ns intent) (nanoseconds sample)) _
    ltac:(unfold is_uint, saturating_sub; lia) Hrate) as Hspec. rewrite Hshot in Hspec. apply Hspec.
Qed.

(** A turn that nobody disturbs commits, when the clock can be read, the
    controller answers, and there is a rate and a generation left. *)
Lemma quiet_turn_commits l ls sample : sample_clock_now l = Ret ls sample →
  is_uint 64 (apic_timer_hz (time l)) → apic_timer_hz (time l) ≠ 0 → next_deadline (time l) sample ≠ 0 →
  0 ≤ PhysicalArmSequence.next_generation (hardware_arms (time l)) < 2 ^ 64 - 1 →
  ∃ l' intent, reconcile_turn (quiet_turn (Ok tt)) l = Ret l' (Some intent).
Proof.
  intros Hs Hrate Hhz Hnz Hgen. assert (time ls = time l) as Ht.
  { unfold sample_clock_now, on_part, get, mbind, M_bind in Hs. cbn in Hs. destruct (sample_now _ _); [|done..]. by injection Hs as <- _. }
  destruct (earliest_deadline_le [DeadlineQueue.earliest (deadlines (time l));
    DeadlineQueue.earliest (timer_deadlines (time l)); LocalDeadlineSource.earliest (scheduler_quantum (time l))]
    (maintenance_deadline sample)) as [Hmain _]. fold (next_deadline (time l) sample) in Hmain.
  rewrite (sample_maintenance _ _ _ Hs) in Hmain.
  assert (arm_ns (clock_width l) < 2 ^ 64) by (by destruct (clock_width l)).
  pose proof (one_shot_spec (saturating_sub (next_deadline (time l) sample) (nanoseconds sample)) _
    ltac:(unfold is_uint, saturating_sub; lia) Hrate) as Hspec.
  destruct (apic_one_shot_for_delta _ _) as [shot|] eqn:Hshot; [|by destruct Hspec].
  assert (next_nonzero 64 (PhysicalArmSequence.next_generation (hardware_arms (time l))) =
    Some (PhysicalArmSequence.next_generation (hardware_arms (time l)) + 1)) as Hnext.
  { unfold next_nonzero, checked_add, filter_nonzero. rewrite (proj2 (Z.ltb_lt _ _)) by lia.
    by rewrite (proj2 (Z.eqb_neq _ _)) by lia. }
  cbv [reconcile_turn quiet_turn prepare_hardware_arm on_hardware_arms on_time on_part mbind M_bind get map_err
    PhysicalArmSequence.prepare PhysicalArmSequence.take_generation PhysicalArmSequence.desire
    before_prepare before_commit controller_answer unwrap mret M_ret ok_or].
  rewrite Hs. cbn beta iota. rewrite Ht, Hnext. cbn beta iota.
  cbv [put modify]. cbn beta iota. rewrite Hshot. cbn beta iota delta [lift mret M_ret].
  cbn beta iota delta [assert_that arm_deadline_ns]. rewrite (proj2 (Z.eqb_neq _ _) Hnz).
  cbv [program_one_shot_timer lift modify mbind M_bind mret M_ret negb PhysicalArmSequence.is_current].
  cbn -[next_deadline]. rewrite !Z.eqb_refl. by eexists _, _.
Qed.

(** C10. The count the bootstrap CPU leaves in its timer covers every
    deadline.  Whatever other CPUs and interrupts do between the steps of
    [reconcile_bsp_hardware_arm] - blocked threads, Timers and quanta coming
    and going, the hardware being armed again - when it succeeds the register
    holds the count of the intent it returns, no deadline pending in the state
    it leaves is before that intent's, the intent is at most a quarter wrap of
    the clock after the sample its count was computed from, and the count is
    not early and less than one count late, or the largest there is. *)
Theorem hardware_covers_every_deadline turns l l' intent : live_wf l →
  reconcile_bsp_hardware_arm (Ok CpuIndex.BOOTSTRAP) (disturbed_turn <$> turns) l = Ret l' intent →
  ∃ turn lt ls sample, turn ∈ take 8 turns ∧
    reconcile_turn (disturbed_turn turn) lt = Ret l' (Some intent) ∧ sample_clock_now lt = Ret ls sample ∧
    initial_count_register l' = initial_count (arm_shot intent) ∧
    (∀ d, pending (time l') d → arm_deadline_ns intent ≤ d) ∧
    arm_deadline_ns intent ≤ nanoseconds sample + arm_ns (clock_width lt) ∧
    shot_spec (saturating_sub (arm_deadline_ns intent) (nanoseconds sample)) (apic_timer_hz (time l'))
      (arm_shot intent).
Proof.
  intros Hwf Hrun. unfold reconcile_bsp_hardware_arm in Hrun. cbn [lift] in Hrun.
  change (reconcile_turns (take 8 (disturbed_turn <$> turns)) l = Ret l' intent) in Hrun.
  rewrite <- fmap_take in Hrun. pose proof (turns_wlp (take 8 turns) l Hwf) as Hw. unfold wlp in Hw.
  rewrite Hrun in Hw. destruct Hw as (turn & lt & sample & Hin & Hturn & Hwf' & Hcov).
  pose proof (covered_shot _ _ _ _ Hwf' Hcov) as [Hnear Hshot]. destruct Hcov as [[ls Hs] Hc Hp _ _].
  by exists turn, lt, ls, sample.
Qed.

(** A clock at one millisecond, a rate of one count per nanosecond and
    nothing pending. *)
Definition demo_live : live :=
  {| pm_port := 3580; initial_count_register := 0;
     clock := {| pm := PmTimerState.new
                   {| PmTimerDescriptor.port := 0x608; PmTimerDescriptor.width := PmTimerWidth.Bits24 |} 0;
                 last_sample := {| nanoseconds := 0; maintenance_deadline := 0 |} |};
     time := {| apic_timer_hz := 1000000000;
                deadlines := {| DeadlineQueue.domain := 1;
                                DeadlineQueue.slots := replicate DEADLINE_QUEUE_CAPACITY DeadlineQueue.empty_slot |};
                timer_deadlines := {| DeadlineQueue.domain := 2;
                                      DeadlineQueue.slots := replicate DEADLINE_QUEUE_CAPACITY DeadlineQueue.empty_slot |};
                scheduler_quantum := LocalDeadlineSource.new;
                hardware_arms := PhysicalArmSequence.initialized |} |}.

Definition demo_timer_token : TimerExpiryToken :=
  {| token_domain := 1; token_object := {| oid_domain := 1; oid_raw := 1 |}; token_generation := 1 |}.

(** Another CPU arms a Timer for two milliseconds while the first turn
    programs the maintenance deadline. *)
Definition demo_turns : list (list live_op * Result unit LiveTimeError.t * list live_op) :=
  [([], Ok tt, [ReplaceTimer None 2000000 demo_timer_token; AdvanceCounter 3600]); ([], Ok tt, [])].

Lemma demo_live_wf : live_wf demo_live.
Proof. by split. Qed.

Definition demo_run := reconcile_bsp_hardware_arm (Ok CpuIndex.BOOTSTRAP) (disturbed_turn <$> demo_turns) demo_live.

Lemma hardware_covers_every_deadline_witness :
  match demo_run with
  | Ret l' intent => arm_deadline_ns intent = 2000000 ∧ ∀ d, pending (time l') d → arm_deadline_ns intent ≤ d
  | _ => False
  end.
Proof.
  destruct demo_run as [l' intent| |] eqn:Hrun; [|by vm_compute in Hrun..].
  destruct (hardware_covers_every_deadline demo_turns demo_live l' intent demo_live_wf Hrun)
    as (_ & _ & _ & _ & _ & _ & _ & _ & Hp & _).
  split; [|exact Hp]. vm_compute in Hrun. by injection Hrun as <- <-.
Defined.
