(* ===== verification/TimerFacts.v ===== *)
(** * Facts about the timer authority

    The table of timers, and what each critical section of [Timer.v] does to
    the record of the Timer it is about: it finds the record it expects, and
    changes no other. *)

From stdpp Require Import base tactics numbers list.
From Stdlib Require Import ZArith Lia.
From S2P Require Import Prelude Abi Object HandleTable Wait WaitFacts Clock Deadline Timer.
Import TimerAuthority.
Local Open Scope Z_scope.

Implicit Types (self : TimerAuthority.t) (o : ObjectId) (t : TimerRecord).

(** ** The table *)

Lemma records_Some o slot : records o slot = true ↔ ∃ t, slot = Some t ∧ timer_object t = o.
Proof. unfold records. destruct slot as [t|]; [|naive_solver]. rewrite bool_decide_eq_true. naive_solver. Qed.

Lemma find_timer_spec self o i t : find o self = Some (i, t) ↔
  timers self !! i = Some (Some t) ∧ timer_object t = o ∧
  ∀ j slot, (j < i)%nat → timers self !! j = Some slot → records o slot = false.
Proof.
  unfold find. split.
  - destruct (list_find _ _) as [[j slot]|] eqn:Hf; [|done]. apply list_find_Some in Hf as (Hj & Hr%Is_true_true & Hmin).
    apply records_Some in Hr as (t' & -> & Ho). intros [= <- <-]. split_and!; [done..|].
    intros k slot Hk Hs. apply not_true_is_false. intros Hr. by eapply Hmin; [done..|]; apply Is_true_true.
  - intros (Hi & Ho & Hmin). assert (list_find (λ slot, records o slot) (timers self) = Some (i, Some t)) as ->; [|done].
    apply list_find_Some. split_and!; [done|apply Is_true_true, records_Some; eauto|].
    intros k slot Hs Hk Hr%Is_true_true. by rewrite (Hmin k slot Hk Hs) in Hr.
Qed.

Lemma find_timer_None self o : find o self = None ↔ ∀ i t, timers self !! i = Some (Some t) → timer_object t ≠ o.
Proof.
  unfold find. destruct (list_find _ _) as [[j slot]|] eqn:Hf.
  - apply list_find_Some in Hf as (Hj & Hr%Is_true_true & _). apply records_Some in Hr as (t & -> & Ho).
    split; [done|]. intros Hno. by destruct (Hno j t Hj).
  - apply list_find_None in Hf. split; [|done]. intros _ i t Hi Ho. rewrite list.Forall_forall in Hf.
    eapply (Hf (Some t)); [by eapply list_elem_of_lookup_2|]. apply Is_true_true, records_Some. eauto.
Qed.

(** The record of an object. *)
Definition timer_at self o : option TimerRecord := (find o self) ≫= λ it, Some it.2.

Lemma timer_at_Some self o t : timer_at self o = Some t ↔ ∃ i, find o self = Some (i, t).
Proof. unfold timer_at. destruct (find o self) as [[i t']|]; naive_solver. Qed.

(** No object is recorded twice. *)
Definition timers_wf self : Prop := ∀ i j t t',
  timers self !! i = Some (Some t) → timers self !! j = Some (Some t') → timer_object t = timer_object t' → i = j.

(** The record of [o] becomes [t'], and nothing else changes. *)
Record sets_timer self o (t' : option TimerRecord) self' : Prop := {
  st_domain : domain self' = domain self;
  st_wf : timers_wf self → timers_wf self';
  st_at : timers_wf self → ∀ o', timer_at self' o' = if decide (o' = o) then t' else timer_at self o';
}.

Lemma find_unique self i t : timers_wf self → timers self !! i = Some (Some t) → find (timer_object t) self = Some (i, t).
Proof.
  intros Hwf Hi. apply find_timer_spec. split_and!; [done..|]. intros j slot Hj Hs. apply not_true_is_false.
  intros (t' & -> & Ho)%records_Some. assert (j = i) by (by eapply Hwf). lia.
Qed.

Lemma timer_at_unique self o t : timers_wf self → timer_at self o = Some t ↔
  ∃ i, timers self !! i = Some (Some t) ∧ timer_object t = o.
Proof.
  intros Hwf. rewrite timer_at_Some. split.
  - intros (i & (Hi & Ho & _)%find_timer_spec). by exists i.
  - intros (i & Hi & <-). exists i. by apply find_unique.
Qed.

Lemma insert_lookup_Some {A} (xs : list A) i x j y : (i < length xs)%nat →
  <[i := x]> xs !! j = Some y ↔ j = i ∧ y = x ∨ j ≠ i ∧ xs !! j = Some y.
Proof.
  intros Hi. destruct (decide (j = i)) as [->|Hne].
  - rewrite list_lookup_insert_eq by done. naive_solver.
  - rewrite list_lookup_insert_ne by done. naive_solver.
Qed.

(** A slot that records nobody but [o] is overwritten by one that does so. *)
Lemma with_timer_sets self o i slot (t' : option TimerRecord) : timers self !! i = Some slot →
  (∀ t, slot = Some t → timer_object t = o) → (∀ t, t' = Some t → timer_object t = o) →
  (slot = None → timer_at self o = None) → sets_timer self o t' (with_timer i t' self).
Proof.
  intros Hi Hslot Ht' Hfree. pose proof (lookup_lt_Some _ _ _ Hi) as Hlt.
  assert (timers_wf self → ∀ j t, j ≠ i → timers self !! j = Some (Some t) → timer_object t ≠ o) as Hother.
  { intros Hwf j t Hne Hj Ho. destruct slot as [t0|].
    - apply Hne. eapply Hwf; [done..|]. by rewrite Ho, Hslot.
    - specialize (Hfree eq_refl). assert (timer_at self o = Some t); [|congruence].
      apply timer_at_unique; [done|]. by exists j. }
  assert (timers_wf self → timers_wf (with_timer i t' self)) as Hwf'.
  { intros Hwf j k t1 t2. simpl. rewrite !insert_lookup_Some by done.
    intros [[-> H1]|[Hj H1]] [[-> H2]|[Hk H2]] Ho; [done| | |by eapply Hwf].
    - exfalso. eapply (Hother Hwf k t2); [done..|]. rewrite <- Ho. by apply Ht'.
    - exfalso. eapply (Hother Hwf j t1); [done..|]. rewrite Ho. by apply Ht'. }
  split; [done|done|]. intros Hwf o'. apply option_eq. intros t. rewrite (timer_at_unique _ _ _ (Hwf' Hwf)). simpl.
  setoid_rewrite insert_lookup_Some; [|done]. case_decide as Hd.
  - subst o'. split; [|intros ->; exists i; split; [by left|by apply Ht']].
    intros (j & [[-> H]|[Hne Hj]] & Ho); [done|]. by destruct (Hother Hwf j t Hne Hj).
  - rewrite (timer_at_unique _ _ _ Hwf). split.
    + intros (j & [[-> H]|[Hne Hj]] & Ho); [|by exists j]. destruct Hd. by rewrite <- Ho; apply Ht'.
    + intros (j & Hj & Ho). exists j. split; [|done]. right. split; [|done]. intros ->. destruct Hd.
      rewrite <- Ho. apply Hslot. congruence.
Qed.

(** ** The critical sections *)

Lemma find_sets self i o t (t' : option TimerRecord) : find o self = Some (i, t) → (∀ r, t' = Some r → timer_object r = o) →
  sets_timer self o t' (with_timer i t' self).
Proof.
  intros (Hi & Ho & _)%find_timer_spec Ht'. by apply (with_timer_sets _ _ _ (Some t)); [|intros ? [= <-]| |].
Qed.

(** The object and what a section leaves of the record. *)
Lemma update_sets {E} self i o t g arm sig tr (Q : unit → TimerAuthority.t → Prop) (R : E → TimerAuthority.t → Prop) :
  find o self = Some (i, t) →
  (∀ self', sets_timer self o (Some (with_fields t g arm sig tr)) self' → Q tt self') →
  wp (modify (with_timer i (Some (with_fields t g arm sig tr)))) self Q R.
Proof.
  intros Hf HQ. apply wp_modify, HQ. eapply find_sets; [done|]. intros r [= <-]. simpl.
  by apply find_timer_spec in Hf as (_ & <- & _).
Qed.

Lemma staged_wp {E} self o t tr (Q : nat * TimerRecord → TimerAuthority.t → Prop) (R : E → TimerAuthority.t → Prop) :
  timer_at self o = Some t → timer_transition t = Some tr →
  (∀ i, find o self = Some (i, t) → Q (i, t) self) → wp (staged o tr) self Q R.
Proof.
  intros [i Hf]%timer_at_Some Htr HQ. unfold staged. do 2 wp_step. rewrite Hf. wp_step.
  eapply wp_expect; [done|]. simpl. wp_step. rewrite Htr, bool_decide_eq_true_2 by done. apply wp_assert; [done|]. wp_step. by apply HQ.
Qed.

Lemma generation_spec g g' : next_nonzero 32 g = Some g' → g' = g + 1.
Proof. unfold next_nonzero, checked_add, filter_nonzero. destruct (_ <? _); [|done]. destruct (_ =? 0); naive_solver. Qed.

(** What the first section of an operation finds. *)
Definition free_timer self o t : Prop := timer_at self o = Some t ∧ timer_transition t = None.

Lemma stage_set_wp key self :
  wp (stage_set key) self
    (λ '(g, old, was) self', ∃ t, free_timer self (timer_key_object key) t ∧
       g = timer_generation t + 1 ∧ old = timer_arm t ∧ was = timer_signaled t ∧
       sets_timer self (timer_key_object key)
         (Some (with_fields t (timer_generation t) None (timer_signaled t) (Some (TimerTransition.Set_ g)))) self')
    (λ _ self', self' = self).
Proof.
  unfold stage_set. do 3 wp_step. destruct (find _ self) as [[i t]|] eqn:Hf; apply wp_ok_or; [|done]. simpl.
  destruct (timer_transition t) eqn:Htr; [by wp_step|]. wp_step.
  destruct (next_nonzero 32 _) as [g|] eqn:Hg; apply wp_ok_or; [|done]. apply generation_spec in Hg as ->. wp_step.
  eapply update_sets; [done|]. intros self' Hs. wp_step. exists t. split_and!; try done. split; [|done].
  apply timer_at_Some. by exists i.
Qed.

Lemma stage_cancel_wp key self :
  wp (stage_cancel key) self
    (λ '(old, was, next) self', ∃ t, free_timer self (timer_key_object key) t ∧
       old = timer_arm t ∧ was = timer_signaled t ∧ next = (λ _, timer_generation t + 1) <$> timer_arm t ∧
       sets_timer self (timer_key_object key)
         (Some (with_fields t (timer_generation t) None (timer_signaled t) (Some TimerTransition.Cancel))) self')
    (λ _ self', self' = self).
Proof.
  unfold stage_cancel. do 3 wp_step. destruct (find _ self) as [[i t]|] eqn:Hf; apply wp_ok_or; [|done]. simpl.
  destruct (timer_transition t) eqn:Htr; [by wp_step|]. wp_step.
  assert (free_timer self (timer_key_object key) t) as Hfree by (split; [apply timer_at_Some; by exists i|done]).
  destruct (timer_arm t) as [arm|] eqn:Harm; wp_step.
  - destruct (next_nonzero 32 _) as [g|] eqn:Hg; apply wp_ok_or; [|done]. apply generation_spec in Hg as ->. do 2 wp_step.
    eapply update_sets; [done|]. intros self' Hs. wp_step. by exists t; rewrite Harm.
  - wp_step. eapply update_sets; [done|]. intros self' Hs. wp_step. by exists t; rewrite Harm.
Qed.

Lemma stage_finalization_wp final_release self :
  wp (stage_finalization final_release) self
    (λ old self', ∃ t, free_timer self (final_id final_release) t ∧ old = timer_arm t ∧
       sets_timer self (final_id final_release)
         (Some (with_fields t (timer_generation t) None (timer_signaled t) (Some TimerTransition.Finalize))) self')
    (λ _ self', self' = self).
Proof.
  unfold stage_finalization. wp_step; [by wp_step|]. do 3 wp_step.
  destruct (find _ self) as [[i t]|] eqn:Hf; apply wp_ok_or; [|done]. simpl.
  destruct (timer_transition t) eqn:Htr; [by wp_step|]. wp_step.
  eapply update_sets; [done|]. intros self' Hs. wp_step. exists t. split_and!; try done. split; [|done].
  apply timer_at_Some. by exists i.
Qed.

Lemma stage_expire_wp token self : token_domain token = domain self →
  wp (stage_expire token) self
    (λ r self', match r with
       | Some o => o = token_object token ∧ ∃ t reg, free_timer self o t ∧ timer_arm t = Some reg ∧
           timer_generation t = token_generation token ∧
           sets_timer self o (Some (with_fields t (timer_generation t) None (timer_signaled t)
             (Some (TimerTransition.Expire (token_generation token))))) self'
       | None => self' = self ∧ ∀ t, timer_at self (token_object token) = Some t →
           timer_transition t = None ∧ (timer_generation t ≠ token_generation token ∨ timer_arm t = None)
       end)
    (λ error self', self' = self ∧ error = TimerError.TransitionInProgress ∧
       ∃ t, timer_at self (token_object token) = Some t ∧ is_Some (timer_transition t)).
Proof.
  intros Hd. unfold stage_expire. do 2 wp_step. rewrite Hd, Z.eqb_refl. cbn [negb].
  destruct (find _ self) as [[i t]|] eqn:Hf.
  2:{ wp_step. split; [done|]. intros t Ht. unfold timer_at in Ht. by rewrite Hf in Ht. }
  assert (timer_at self (token_object token) = Some t) as Hat by (apply timer_at_Some; by exists i).
  destruct (timer_transition t) as [tr|] eqn:Htr; [wp_step; eauto|].
  destruct (Z.eqb_spec (timer_generation t) (token_generation token)) as [Hg|Hg]; cbn [negb orb];
    [destruct (timer_arm t) as [reg|] eqn:Harm; cbn [is_none]|].
  - wp_step. eapply update_sets; [done|]. intros self' Hs. wp_step.
    pose proof Hf as (_ & Ho & _)%find_timer_spec. split; [done|]. exists t, reg. rewrite Ho.
    split_and!; [by split|done..].
  - wp_step. split; [done|]. rewrite Hat. intros ? [= <-]. auto.
  - wp_step. split; [done|]. rewrite Hat. intros ? [= <-]. auto.
Qed.

(** A later section: it finds its mark and leaves [left]. *)
Definition completes {E A} (m : M TimerAuthority.t E A) self o (left : option TimerRecord) : Prop :=
  wp m self (λ _ self', sets_timer self o left self') (λ _ _, False).

Section later.
Context {E : Type}.
Implicit Types (key : TimerKey).

Ltac later Ht Htr :=
  unfold completes; wp_step; eapply staged_wp; [exact Ht|exact Htr|];
  intros i Hf; eapply update_sets; [exact Hf|]; intros self' Hs; exact Hs.

Lemma commit_set_wp key g registration self t : timer_at self (timer_key_object key) = Some t →
  timer_transition t = Some (TimerTransition.Set_ g) →
  completes (commit_set (E:=E) key g registration) self (timer_key_object key)
    (Some (with_fields t g registration (is_none registration)
       (if is_none registration then Some (TimerTransition.Readiness g) else None))).
Proof. intros Ht Htr. unfold commit_set. later Ht Htr. Qed.

Lemma restore_set_wp key g old was self t : timer_at self (timer_key_object key) = Some t →
  timer_transition t = Some (TimerTransition.Set_ g) →
  completes (restore_set (E:=E) key g old was) self (timer_key_object key)
    (Some (with_fields t (timer_generation t) old was None)).
Proof. intros Ht Htr. unfold restore_set. later Ht Htr. Qed.

Lemma complete_readiness_wp key g self t : timer_at self (timer_key_object key) = Some t →
  timer_transition t = Some (TimerTransition.Readiness g) →
  completes (complete_readiness (E:=E) key g) self (timer_key_object key)
    (Some (with_fields t (timer_generation t) (timer_arm t) (timer_signaled t) None)).
Proof. intros Ht Htr. unfold complete_readiness. later Ht Htr. Qed.

Lemma commit_cancel_wp key next self t : timer_at self (timer_key_object key) = Some t →
  timer_transition t = Some TimerTransition.Cancel →
  completes (commit_cancel (E:=E) key next) self (timer_key_object key)
    (Some (with_fields t (default (timer_generation t) next) (timer_arm t) false None)).
Proof. intros Ht Htr. unfold commit_cancel. later Ht Htr. Qed.

Lemma restore_cancel_wp key arm was self t : timer_at self (timer_key_object key) = Some t →
  timer_transition t = Some TimerTransition.Cancel →
  completes (restore_cancel (E:=E) key arm was) self (timer_key_object key)
    (Some (with_fields t (timer_generation t) (Some arm) was None)).
Proof. intros Ht Htr. unfold restore_cancel. later Ht Htr. Qed.

Lemma commit_expire_wp o token self t : timer_at self o = Some t →
  timer_transition t = Some (TimerTransition.Expire (token_generation token)) →
  completes (commit_expire (E:=E) o token) self o (Some (with_fields t (timer_generation t) (timer_arm t) true None)).
Proof. intros Ht Htr. unfold commit_expire. later Ht Htr. Qed.

Lemma restore_finalization_wp f arm self t : timer_at self (final_id f) = Some t →
  timer_transition t = Some TimerTransition.Finalize →
  completes (restore_finalization (E:=E) f arm) self (final_id f)
    (Some (with_fields t (timer_generation t) (Some arm) (timer_signaled t) None)).
Proof. intros Ht Htr. unfold restore_finalization. later Ht Htr. Qed.

Lemma commit_finalization_wp f self t : timer_at self (final_id f) = Some t →
  timer_transition t = Some TimerTransition.Finalize →
  completes (commit_finalization (E:=E) f) self (final_id f) None.
Proof.
  intros Ht Htr. unfold completes, commit_finalization. wp_step. eapply staged_wp; [done..|]. intros i Hf.
  do 3 wp_step. by eapply find_sets.
Qed.
End later.

Definition new_timer o : TimerRecord :=
  {| timer_object := o; timer_generation := 0; timer_arm := None; timer_signaled := false; timer_transition := None |}.

Lemma bind_timer_wp creation self :
  wp (bind_timer creation) self
    (λ binding self', timer_at self (creation_id creation) = None ∧ timer_creation binding = creation ∧
       timer_key binding = {| timer_key_object := creation_id creation |} ∧
       sets_timer self (creation_id creation) (Some (new_timer (creation_id creation))) self')
    (λ failure self', self' = self ∧ failure.2 = creation).
Proof.
  unfold bind_timer. wp_step; [by wp_step|]. cbv zeta. simpl. do 2 wp_step.
  destruct (existsb _ _) eqn:Hex; [by wp_step|].
  assert (timer_at self (creation_id creation) = None) as Hno.
  { unfold timer_at. destruct (find _ self) as [[i t]|] eqn:Hf; [|done]. exfalso.
    apply find_timer_spec in Hf as (Hi & Ho & _). apply not_true_iff_false in Hex. apply Hex, existsb_exists.
    exists (Some t). split; [by eapply list_elem_of_In, list_elem_of_lookup_2|]. apply records_Some. eauto. }
  wp_step. destruct (list_find _ _) as [[i slot]|] eqn:Hf; apply wp_ok_or; [|done]. simpl.
  apply list_find_Some in Hf as (Hi & -> & _). do 3 wp_step. split_and!; [done..|].
  by eapply with_timer_sets; [done|done|intros ? [= <-]|].
Qed.

(** A wait is registered only on a Timer that is neither in transition nor
    signalled. *)
Lemma register_timer_wait_wp target desired item_index thread wake self ws : wait_wf ws →
  let pin := ResolvedHandle.reference target in
  wp (register_wait target desired item_index thread wake) (self, ws)
    (λ outcome st, internal_type pin = DW_OBJECT_TYPE_TIMER ∧ st.1 = self ∧
       ∃ t, free_timer self (internal_id pin) t ∧
       match outcome with
       | TimerWaitOutcome.Ready observed p =>
           timer_signaled t = true ∧ observed = DW_SIGNAL_SIGNALED ∧ p = pin ∧ st.2 = ws
       | TimerWaitOutcome.Registered registration =>
           timer_signaled t = false ∧ WaitRegistry.register pin desired item_index thread wake ws = Ret st.2 registration
       end)
    (λ failure st, st = (self, ws) ∧ failure.2 = pin).
Proof.
  intros Hwf pin. unfold register_wait, ResolvedHandle.into_internal, ResolvedHandle.object_type, ResolvedHandle.object_id.
  fold pin. cbv zeta. destruct (Z.eqb_spec (internal_type pin) DW_OBJECT_TYPE_TIMER) as [Hty|]; [|by wp_step].
  cbn [negb]. wp_step; [by wp_step|]. do 3 wp_step. destruct (validate_wait_signals _ _) as [[]|]; [|done].
  do 4 wp_step. destruct (find _ self) as [[i t]|] eqn:Hf; apply wp_ok_or; [|done]. cbn beta iota.
  destruct (timer_transition t) eqn:Htr; [by wp_step|].
  assert (free_timer self (internal_id pin) t) as Hfree by (split; [apply timer_at_Some; by exists i|done]).
  destruct (timer_signaled t) eqn:Hsig; [wp_step; eauto 10|].
  do 3 wp_step. pose proof (register_wp pin desired item_index thread wake ws Hwf) as Hreg. unfold wp in *.
  destruct (WaitRegistry.register _ _ _ _ _ ws) as [ws' reg|ws' failure|] eqn:Hq; [| |done].
  - split_and!; [done..|]. by exists t.
  - by destruct Hreg as (-> & ? & _).
Qed.
