(* ===== verification/TimerContract.v ===== *)
(** * What Timers rely on

    The contract between the timer authority and the deadlines it is given:
    the documented behaviour of the trait [TimerDeadlineAuthority]
    ([kernel/src/time/timer.rs]) together with the interrupt that detaches due
    registrations and hands out their tokens.  Timers are proved correct
    against the contract; the kernel's deadlines are an instance of it on
    every CPU in [LiveTimer.v].

    The trait's caller takes an error to mean that nothing changed.  The
    kernel keeps this except where the CPU that calls also programs the
    hardware: there the change stands and the call fails when programming
    does.  The contract says so: a failed call has either changed nothing or
    has made its change at a site that programs the hardware. *)

From stdpp Require Import base tactics numbers list.
From Stdlib Require Import ZArith Lia.
From S2P Require Import Prelude Abi Object HandleTable Wait Clock Deadline Timer LiveTime.
Local Open Scope Z_scope.

Global Instance DeadlineRegistration_eq_dec : EqDecision DeadlineRegistration.
Proof. solve_decision. Defined.

(** The trait's methods as they behave where they are called, whether the
    hardware is programmed there, the interrupt, and what the rest of the
    kernel may do to the state in between. *)
Class DeadlineService (D : Type) : Type := {
  ds_site : Type;
  ds_authority : ds_site → TimerDeadlineAuthority D;
  ds_programs : ds_site → bool;
  ds_interrupt : M D LiveTimeError.t (list TimerExpiryToken);
  ds_elsewhere : D → D → Prop;
}.

Section contract.
Context {D : Type}.

(** What a caller knows of the state: the time it shows, the registrations
    it has handed out, and the deadline and token each still waits for. *)
Record deadline_view : Type := {
  dv_ok : D → Prop;
  dv_now : D → Z;
  dv_issued : D → DeadlineRegistration → Prop;
  dv_armed : D → DeadlineRegistration → option (DeadlineEntry TimerExpiryToken);
}.

(** Time passes and handed out registrations stay so. *)
Record follows (v : deadline_view) (s s' : D) : Prop := {
  fo_ok : dv_ok v s';
  fo_now : dv_now v s ≤ dv_now v s';
  fo_issued reg : dv_issued v s reg → dv_issued v s' reg;
}.

(** Nothing is armed, disarmed or delivered. *)
Definition idles (v : deadline_view) (s s' : D) : Prop :=
  follows v s s' ∧ ∀ reg, dv_armed v s' reg = dv_armed v s reg.

(** [old] is given up for a [new] registration, or for none. *)
Definition replaces (v : deadline_view) (old new : option DeadlineRegistration) (e : DeadlineEntry TimerExpiryToken)
    (s s' : D) : Prop :=
  follows v s s' ∧
  (∀ reg, new = Some reg → dv_issued v s' reg ∧ ¬ dv_issued v s reg) ∧
  ∀ reg, dv_armed v s' reg =
    if decide (new = Some reg) then Some e
    else if decide (old = Some reg) then None else dv_armed v s reg.

(** The due registrations are detached, and their tokens are those handed
    out. *)
Definition delivers (v : deadline_view) (tokens : list TimerExpiryToken) (s s' : D) : Prop :=
  follows v s s' ∧
  (∀ reg, dv_armed v s' reg =
     match dv_armed v s reg with
     | Some e => if deadline_ns e <=? dv_now v s' then None else Some e
     | None => None
     end) ∧
  ∀ token, token ∈ tokens ↔
    ∃ reg e, dv_armed v s reg = Some e ∧ deadline_ns e ≤ dv_now v s' ∧ payload e = token.
End contract.
Arguments deadline_view D : clear implicits.

(** The contract.  A failed call leaves the old registration as it was, or
    has replaced it where the hardware is programmed. *)
Class DeadlineContract (D : Type) `{!DeadlineService D} : Type := {
  dc_view : deadline_view D;
  dc_replace site old deadline token s : dv_ok dc_view s → deadline ≠ DW_DEADLINE_INFINITE →
    (∀ reg, old = Some reg → dv_issued dc_view s reg) →
    wlp (@replace_timer_deadline _ (ds_authority site) old deadline token) s
      (λ new s', replaces dc_view old new {| deadline_ns := deadline; payload := token |} s s' ∧
         (new = None → deadline ≤ dv_now dc_view s'))
      (λ _ s', idles dc_view s s' ∨ ds_programs site = true ∧
         ∃ new, replaces dc_view old new {| deadline_ns := deadline; payload := token |} s s');
  dc_cancel site registration s : dv_ok dc_view s → dv_issued dc_view s registration →
    wlp (@cancel_timer_deadline _ (ds_authority site) registration) s
      (λ _ s', ∀ e, replaces dc_view (Some registration) None e s s')
      (λ _ s', idles dc_view s s' ∨ ds_programs site = true ∧ ∀ e, replaces dc_view (Some registration) None e s s');
  dc_interrupt s : dv_ok dc_view s →
    wlp ds_interrupt s (λ tokens s', delivers dc_view tokens s s') (λ _ s', idles dc_view s s');
  dc_elsewhere s s' : dv_ok dc_view s → ds_elsewhere s s' → idles dc_view s s';
}.
