(* ===== verification/TimerSystem.v ===== *)
(** * Timers, deadlines and waiters together

    The operations of [Timer.v] as many CPUs interleave them: each is a
    flight from one critical section to the next, the interrupt detaches due
    registrations and hands their tokens, one by one, to the runtime's inbox,
    and the bootstrap processor empties the inbox under the runtime lock
    ([kernel/src/arch/x86_64/mm/activation/primordial.rs]).

    Every call of the deadline authority is made at a site of its own, the
    bootstrap processor included.  A call that fails where the hardware is
    programmed may have changed the deadlines all the same; the Timer it was
    made for is then listed as [tw_faulted], and nothing is said of when
    such a Timer fires. *)

From stdpp Require Import base tactics numbers list sets relations.
From Stdlib Require Import ZArith Lia.
From S2P Require Import Prelude Abi Object HandleTable Wait WaitFacts WaitTheorems Clock Deadline Timer LiveTime TimerFacts TimerContract.
Import TimerAuthority.
Local Open Scope Z_scope.

(** ** Flights *)

(** Where an operation is, with what it has taken along. *)
Inductive flight : Type :=
| Setting (key : TimerKey) (deadline generation : Z) (old_arm : option TimerArm) (was_signaled : bool)
| SetAnswered (key : TimerKey) (deadline generation : Z) (old_arm : option TimerArm) (was_signaled : bool)
    (answer : Result (option DeadlineRegistration) TimerDeadlineError.t)
| SetReady (key : TimerKey) (generation : Z)
| SetTaken (key : TimerKey) (generation : Z)
| Cancelling (key : TimerKey) (old_arm : option TimerArm) (was_signaled : bool) (next_generation : option Z)
| CancelAnswered (key : TimerKey) (old_arm : option TimerArm) (was_signaled : bool) (next_generation : option Z)
    (answer : Result unit TimerDeadlineError.t)
| Finalizing (final_release : FinalRelease) (old_arm : option TimerArm)
| FinalAnswered (final_release : FinalRelease) (old_arm : option TimerArm) (answer : Result unit TimerDeadlineError.t).

Definition flight_object (f : flight) : ObjectId :=
  match f with
  | Setting key _ _ _ _ | SetAnswered key _ _ _ _ _ | SetReady key _ | SetTaken key _
  | Cancelling key _ _ _ | CancelAnswered key _ _ _ _ => timer_key_object key
  | Finalizing f _ | FinalAnswered f _ _ => final_id f
  end.

(** The mark it has left on the Timer. *)
Definition flight_transition (f : flight) : TimerTransition.t :=
  match f with
  | Setting _ _ g _ _ | SetAnswered _ _ g _ _ _ => TimerTransition.Set_ g
  | SetReady _ g | SetTaken _ g => TimerTransition.Readiness g
  | Cancelling _ _ _ _ | CancelAnswered _ _ _ _ _ => TimerTransition.Cancel
  | Finalizing _ _ | FinalAnswered _ _ _ => TimerTransition.Finalize
  end.

Section system.
Context {D : Type} `{!DeadlineService D}.

Abbreviation timer_state := (TimerAuthority.t * D * WaitRegistry.t)%type.

Definition token_of (self : TimerAuthority.t) (o : ObjectId) (generation : Z) : TimerExpiryToken :=
  {| token_domain := domain self; token_object := o; token_generation := generation |}.

(** [if let Some(old_arm) = old_arm && let Err(_) = cancel(old_arm)] *)
Definition cancel_arm (site : ds_site) (old_arm : option TimerArm) : M timer_state Empty_set (Result unit TimerDeadlineError.t) :=
  match old_arm with
  | Some arm => on_deadlines (try (@cancel_timer_deadline _ (ds_authority site) arm))
  | None => mret (Ok tt)
  end.

(** The next step of a flight, at a site: the flight that is left of it, and
    the wakes its operation returns. *)
Definition advance (site : ds_site) (f : flight) : M timer_state Empty_set (option flight * list WakeIntent) :=
  match f with
  | Setting key deadline g old_arm was_signaled =>
      self ← on_timers get;
      answer ← on_deadlines (try (@replace_timer_deadline _ (ds_authority site) old_arm deadline
                                    (token_of self (timer_key_object key) g)));
      mret (Some (SetAnswered key deadline g old_arm was_signaled answer), [])
  | SetAnswered key _ g old_arm was_signaled (Err _) =>
      on_timers (restore_set key g old_arm was_signaled);;
      mret (None, [])
  | SetAnswered key _ g _ _ (Ok registration) =>
      on_timers (commit_set key g registration);;
      mret (if is_none registration then Some (SetReady key g) else None, [])
  | SetReady key g =>
      wakes ← on_snd (WaitRegistry.take_ready (timer_key_object key) DW_SIGNAL_SIGNALED);
      mret (Some (SetTaken key g), wakes_in wakes)
  | SetTaken key g =>
      on_timers (complete_readiness key g);;
      mret (None, [])
  | Cancelling key old_arm was_signaled next_generation =>
      answer ← cancel_arm site old_arm;
      mret (Some (CancelAnswered key old_arm was_signaled next_generation answer), [])
  | CancelAnswered key old_arm was_signaled next_generation answer =>
      match old_arm, answer with
      | Some arm, Err _ => on_timers (restore_cancel key arm was_signaled)
      | _, _ => on_timers (commit_cancel key next_generation)
      end;;
      mret (None, [])
  | Finalizing f old_arm =>
      answer ← cancel_arm site old_arm;
      mret (Some (FinalAnswered f old_arm answer), [])
  | FinalAnswered f old_arm answer =>
      match old_arm, answer with
      | Some arm, Err _ => on_timers (restore_finalization f arm)
      | _, _ => on_timers (commit_finalization f);; mret tt
      end;;
      mret (None, [])
  end.

(** The calls that start a flight. *)
Inductive timer_call : Type :=
| CallSet (key : TimerKey) (deadline : Z)
| CallCancel (key : TimerKey)
| CallFinalize (final_release : FinalRelease).

Definition begin_call (c : timer_call) : M TimerAuthority.t Empty_set (option flight) :=
  match c with
  | CallSet key deadline =>
      if deadline =? DW_DEADLINE_INFINITE then mret None
      else
        staged ← try (stage_set key);
        mret match staged with
             | Ok (g, old_arm, was_signaled) => Some (Setting key deadline g old_arm was_signaled)
             | Err _ => None
             end
  | CallCancel key =>
      staged ← try (stage_cancel key);
      mret match staged with
           | Ok (old_arm, was_signaled, next) => Some (Cancelling key old_arm was_signaled next)
           | Err _ => None
           end
  | CallFinalize f =>
      staged ← try (stage_finalization f);
      mret match staged with Ok old_arm => Some (Finalizing f old_arm) | Err _ => None end
  end.

(** A call of the authority that failed where the hardware is programmed:
    the Timer it was for. *)
Definition faulted_by (site : ds_site) (left : option flight) : list ObjectId :=
  match left with
  | Some ((SetAnswered _ _ _ _ _ (Err _) | CancelAnswered _ _ _ _ (Err _) | FinalAnswered _ _ (Err _)) as f) =>
      if ds_programs site then [flight_object f] else []
  | _ => []
  end.

(** ** The inbox *)

(** [TimerExpiryTarget::expire_timer] of the runtime: the first free slot
    takes the token. *)
Definition expire_timer (token : TimerExpiryToken) : M (list (option TimerExpiryToken)) Empty_set unit :=
  pending ← get;
  match list_find (λ slot, slot = None) pending with
  | Some (slot, _) => put (<[slot := Some token]> pending)
  | None => panic
  end.

(** The interrupt's loop over the tokens it has detached. *)
Definition hand_over (tokens : list TimerExpiryToken) : M (list (option TimerExpiryToken)) Empty_set unit :=
  for_each tokens (λ token _, expire_timer token) tt.

(** [service_pending_timer_expiries_on_bootstrap]: the whole inbox is taken
    and each token expires its Timer; the wakes are passed on. *)
Definition expire_pending (pending : list TimerExpiryToken)
    : M (TimerAuthority.t * WaitRegistry.t) Empty_set (list WakeIntent) :=
  for_each pending (λ token served, wakes ← unwrap (expire token); mret (served ++ wakes_in wakes)) [].

Definition service_pending_timer_expiries
    : M (list (option TimerExpiryToken) * (TimerAuthority.t * WaitRegistry.t)) Empty_set (list WakeIntent) :=
  pending ← on_fst get;
  on_fst (put (replicate DEADLINE_QUEUE_CAPACITY None));;
  on_snd (expire_pending (omap id pending)).

(** ** The world *)

Record timer_world : Type := {
  tw_timers : TimerAuthority.t;
  tw_deadlines : D;
  tw_waits : WaitRegistry.t;
  tw_flights : list flight;
  (** The tokens the interrupt has detached and not yet handed over. *)
  tw_detached : list TimerExpiryToken;
  (** Those it has handed over. *)
  tw_inbox : list (option TimerExpiryToken);
  (** The block generations that have been handed a wake. *)
  tw_woken : list BlockWakeKey;
  (** The deadline each generation of a Timer was last set for. *)
  tw_asked : TimerExpiryToken → Z;
  (** The deadline a Timer was last set for, unless cancelled since. *)
  tw_status : ObjectId → option Z;
  (** The objects that were Timers once. *)
  tw_known : list ObjectId;
  (** The Timers a call failed for where the hardware is programmed. *)
  tw_faulted : list ObjectId;
}.

Implicit Types (w : timer_world).

Definition tw_state w : timer_state := (tw_timers w, tw_deadlines w, tw_waits w).

Definition assign {A B} `{EqDecision A} (f : A → B) (a : A) (b : B) : A → B := λ a', if decide (a' = a) then b else f a'.

(** What a call asks for. *)
Definition asked_by w (f : option flight) : TimerExpiryToken → Z :=
  match f with
  | Some (Setting key deadline g _ _) => assign (tw_asked w) (token_of (tw_timers w) (timer_key_object key) g) deadline
  | _ => tw_asked w
  end.

(** What the last section of an operation makes of the Timer. *)
Definition status_by w (f : flight) : ObjectId → option Z :=
  match f with
  | SetAnswered key deadline _ _ _ (Ok _) => assign (tw_status w) (timer_key_object key) (Some deadline)
  | CancelAnswered key old_arm _ _ answer =>
      match old_arm, answer with
      | Some _, Err _ => tw_status w
      | _, _ => assign (tw_status w) (timer_key_object key) None
      end
  | _ => tw_status w
  end.

Definition after_create w (o : ObjectId) (timers : TimerAuthority.t) : timer_world :=
  {| tw_timers := timers; tw_deadlines := tw_deadlines w; tw_waits := tw_waits w; tw_flights := tw_flights w;
     tw_detached := tw_detached w; tw_inbox := tw_inbox w; tw_woken := tw_woken w; tw_asked := tw_asked w;
     tw_status := assign (tw_status w) o None; tw_known := o :: tw_known w;
     tw_faulted := tw_faulted w |}.

Definition after_begin w (timers : TimerAuthority.t) (f : option flight) : timer_world :=
  {| tw_timers := timers; tw_deadlines := tw_deadlines w; tw_waits := tw_waits w;
     tw_flights := option_list f ++ tw_flights w; tw_detached := tw_detached w; tw_inbox := tw_inbox w;
     tw_woken := tw_woken w; tw_asked := asked_by w f; tw_status := tw_status w; tw_known := tw_known w; tw_faulted := tw_faulted w |}.

Definition after_advance w (f : flight) (st : timer_state) (flights : list flight) (wakes : list WakeIntent)
    (faulted : list ObjectId) : timer_world :=
  {| tw_timers := st.1.1; tw_deadlines := st.1.2; tw_waits := st.2; tw_flights := flights;
     tw_detached := tw_detached w; tw_inbox := tw_inbox w; tw_woken := (intent_wake <$> wakes) ++ tw_woken w; tw_asked := tw_asked w;
     tw_status := status_by w f; tw_known := tw_known w; tw_faulted := faulted ++ tw_faulted w |}.

Definition with_deadlines w (d : D) (detached : list TimerExpiryToken) (inbox : list (option TimerExpiryToken)) : timer_world :=
  {| tw_timers := tw_timers w; tw_deadlines := d; tw_waits := tw_waits w; tw_flights := tw_flights w;
     tw_detached := detached; tw_inbox := inbox; tw_woken := tw_woken w; tw_asked := tw_asked w; tw_status := tw_status w;
     tw_known := tw_known w; tw_faulted := tw_faulted w |}.

Definition with_waits w (waits : WaitRegistry.t) : timer_world :=
  {| tw_timers := tw_timers w; tw_deadlines := tw_deadlines w; tw_waits := waits; tw_flights := tw_flights w;
     tw_detached := tw_detached w; tw_inbox := tw_inbox w; tw_woken := tw_woken w; tw_asked := tw_asked w;
     tw_status := tw_status w; tw_known := tw_known w; tw_faulted := tw_faulted w |}.

Definition after_service w (inbox : list (option TimerExpiryToken)) (timers : TimerAuthority.t) (waits : WaitRegistry.t)
    (wakes : list WakeIntent) : timer_world :=
  {| tw_timers := timers; tw_deadlines := tw_deadlines w; tw_waits := waits; tw_flights := tw_flights w;
     tw_detached := tw_detached w; tw_inbox := inbox; tw_woken := (intent_wake <$> wakes) ++ tw_woken w; tw_asked := tw_asked w;
     tw_status := tw_status w; tw_known := tw_known w; tw_faulted := tw_faulted w |}.

(** A step of the world.  The identity of a new Timer is one the object
    registry has not handed out before; a Timer is waited for through
    [register_wait].  The inbox is emptied under the runtime lock, which the
    operations on Timers hold from beginning to end, by the processor that
    takes the interrupt and not while it does.  There is no step for an interrupt that fails
    or finds the inbox full: the machine halts. *)
Inductive timer_step : timer_world → timer_world → Prop :=
| ts_create w creation timers binding :
    creation_id creation ∉ tw_known w → bind_timer creation (tw_timers w) = Ret timers binding →
    timer_step w (after_create w (creation_id creation) timers)
| ts_call w c timers f :
    begin_call c (tw_timers w) = Ret timers f → timer_step w (after_begin w timers f)
| ts_advance w site pre f post st left wakes :
    tw_flights w = pre ++ f :: post → advance site f (tw_state w) = Ret st (left, wakes) →
    timer_step w (after_advance w f st (pre ++ option_list left ++ post) wakes (faulted_by site left))
| ts_interrupt w d tokens :
    tw_detached w = [] → ds_interrupt (tw_deadlines w) = Ret d tokens →
    timer_step w (with_deadlines w d tokens (tw_inbox w))
| ts_expire_timer w token tokens inbox :
    tw_detached w = token :: tokens → expire_timer token (tw_inbox w) = Ret inbox tt →
    timer_step w (with_deadlines w (tw_deadlines w) tokens inbox)
| ts_service w inbox timers waits wakes :
    tw_flights w = [] → tw_detached w = [] →
    service_pending_timer_expiries (tw_inbox w, (tw_timers w, tw_waits w)) = Ret (inbox, (timers, waits)) wakes →
    timer_step w (after_service w inbox timers waits wakes)
| ts_elsewhere w d :
    ds_elsewhere (tw_deadlines w) d → timer_step w (with_deadlines w d (tw_detached w) (tw_inbox w))
| ts_register w target desired item_index thread wake st outcome :
    is_uint 64 desired →
    register_wait target desired item_index thread wake (tw_timers w, tw_waits w) = Ret st outcome →
    timer_step w (with_waits w st.2)
| ts_waits w o waits moved :
    (∀ pin desired item_index thread wake, o = Register pin desired item_index thread wake →
       internal_type pin ≠ DW_OBJECT_TYPE_TIMER) →
    exec o (tw_waits w) = Ret waits moved → timer_step w (with_waits w waits).

(** No Timers, nothing armed. *)
Definition start (domain : Z) (n : nat) (d : D) (waits : WaitRegistry.t) : timer_world :=
  {| tw_timers := {| TimerAuthority.domain := domain; timers := replicate n None |};
     tw_deadlines := d; tw_waits := waits; tw_flights := []; tw_detached := []; tw_inbox := replicate DEADLINE_QUEUE_CAPACITY None;
     tw_woken := []; tw_asked := λ _, 0; tw_status := λ _, None; tw_known := []; tw_faulted := [] |}.

End system.
Arguments timer_world D : clear implicits.
Arguments timer_step D {_} _ _.

(** * The invariant of Timers

    A Timer in transition belongs to exactly one flight, which knows all that
    was taken from the record; a Timer that was set waits for its deadline,
    in the queue or in the inbox, or is signalled, unless a call for it
    faulted; and whoever waits for a signalled Timer has been handed a
    wake. *)

Import TimerAuthority.
Local Open Scope Z_scope.

Section invariant.
Context {D : Type} `{!DeadlineService D, !DeadlineContract D}.
Implicit Types (w : timer_world D) (o : ObjectId) (t : TimerRecord) (f : flight).

Definition now w : Z := dv_now dc_view (tw_deadlines w).
Definition armed w (reg : DeadlineRegistration) := dv_armed dc_view (tw_deadlines w) reg.
Definition issued w (reg : DeadlineRegistration) := dv_issued dc_view (tw_deadlines w) reg.
Definition tok w o (g : Z) : TimerExpiryToken := token_of (tw_timers w) o g.

(** The tokens on their way to a Timer. *)
Definition handed w : list TimerExpiryToken := tw_detached w ++ omap id (tw_inbox w).

(** No call for the Timer has faulted. *)
Definition sound w o : Prop := o ∉ tw_faulted w.

(** The token is somewhere. *)
Definition queued w (token : TimerExpiryToken) : Prop :=
  (∃ reg e, armed w reg = Some e ∧ payload e = token) ∨ token ∈ handed w.

(** No token of a later generation is. *)
Definition bounded w o (g : Z) : Prop := sound w o →
  ∀ token, queued w token → token_object token = o → token_generation token ≤ g.

(** The registration will deliver the token, or has. *)
Definition on_its_way w (reg : DeadlineRegistration) (token : TimerExpiryToken) : Prop :=
  issued w reg ∧
  match armed w reg with
  | Some e => e = {| deadline_ns := tw_asked w token; payload := token |}
  | None => token ∈ handed w
  end.

(** The registration is the object's. *)
Definition held w o (reg : DeadlineRegistration) : Prop :=
  issued w reg ∧ ∀ e, armed w reg = Some e → token_object (payload e) = o.

(** What becomes of a Timer that was set, or was not. *)
Definition told w o (g : Z) (arm : option TimerArm) (signaled : bool) : Prop :=
  match tw_status w o with
  | None => arm = None ∧ signaled = false
  | Some d => tw_asked w (tok w o g) = d ∧
      match arm with
      | Some reg => signaled = false ∧ on_its_way w reg (tok w o g)
      | None => signaled = true ∧ d ≤ now w
      end
  end.

Definition settled w o (g : Z) (arm : option TimerArm) (signaled : bool) : Prop :=
  (∀ reg, arm = Some reg → held w o reg) ∧ (sound w o → told w o g arm signaled).

(** Whoever waits for the Timer has been handed a wake. *)
Definition all_woken w o : Prop := ∀ e, e ∈ WaitRegistry.entries (tw_waits w) →
  internal_type (wait_pin e) = DW_OBJECT_TYPE_TIMER → wait_object (wait_identity e) = o →
  wait_wake (wait_identity e) ∈ tw_woken w.

(** A flight and the record it has marked. *)
Definition flight_ok w o t f : Prop :=
  match f with
  | Setting _ d g old was | SetAnswered _ d g old was (Err _) =>
      g = timer_generation t + 1 ∧ was = timer_signaled t ∧ d ≠ DW_DEADLINE_INFINITE ∧ tw_asked w (tok w o g) = d ∧
      bounded w o (timer_generation t) ∧ settled w o (timer_generation t) old was
  | SetAnswered _ d g _ _ (Ok new) =>
      g = timer_generation t + 1 ∧ tw_asked w (tok w o g) = d ∧ bounded w o g ∧
      match new with None => d ≤ now w | Some reg => on_its_way w reg (tok w o g) end
  | SetReady _ g | SetTaken _ g =>
      g = timer_generation t ∧ timer_signaled t = true ∧ bounded w o g ∧ settled w o g None true
  | Cancelling _ old was next =>
      was = timer_signaled t ∧ next = (λ _, timer_generation t + 1) <$> old ∧
      bounded w o (timer_generation t) ∧ settled w o (timer_generation t) old was
  | CancelAnswered _ old was next answer =>
      was = timer_signaled t ∧ next = (λ _, timer_generation t + 1) <$> old ∧ bounded w o (timer_generation t) ∧
      match old, answer with
      | Some _, Err _ => settled w o (timer_generation t) old was
      | _, _ => True
      end
  | Finalizing _ old =>
      bounded w o (timer_generation t) ∧ settled w o (timer_generation t) old (timer_signaled t)
  | FinalAnswered _ old answer =>
      bounded w o (timer_generation t) ∧
      match old, answer with
      | Some _, Err _ => settled w o (timer_generation t) old (timer_signaled t)
      | _, _ => True
      end
  end.

(** The waiters have been seen to. *)
Definition seen_to t (f : option flight) : Prop :=
  match f with
  | Some (SetReady _ _) => False
  | _ => timer_signaled t = true
  end.

Definition timer_ok w o t (f : option flight) : Prop :=
  timer_transition t = flight_transition <$> f ∧ (seen_to t f → all_woken w o) ∧
  match f with
  | None => bounded w o (timer_generation t) ∧ settled w o (timer_generation t) (timer_arm t) (timer_signaled t)
  | Some f => timer_arm t = None ∧ flight_ok w o t f
  end.

(** The flight an object belongs to, if any. *)
Definition owner (fs : list flight) o (f : option flight) : Prop :=
  match f with
  | Some f => f ∈ fs ∧ flight_object f = o
  | None => ∀ f, f ∈ fs → flight_object f ≠ o
  end.

(** What holds of the parts. *)
Record parts_ok w : Prop := {
  po_deadlines : dv_ok dc_view (tw_deadlines w);
  po_timers : timers_wf (tw_timers w);
  po_flights : NoDup (flight_object <$> tw_flights w);
  po_owned f : f ∈ tw_flights w → is_Some (timer_at (tw_timers w) (flight_object f));
  po_known o : is_Some (timer_at (tw_timers w) o) → o ∈ tw_known w;
  po_queued token : queued w token → token_object token ∈ tw_known w ∧ token_domain token = domain (tw_timers w);
  po_armed reg e : armed w reg = Some e → sound w (token_object (payload e)) →
    tw_asked w (payload e) = deadline_ns e;
  po_inbox token : token ∈ handed w → sound w (token_object token) → tw_asked w token ≤ now w;
  po_waits : wait_wf (tw_waits w);
  po_masks e : e ∈ WaitRegistry.entries (tw_waits w) → internal_type (wait_pin e) = DW_OBJECT_TYPE_TIMER →
    is_uint 64 (wait_desired e);
}.

Record timer_inv w : Prop := {
  ti_parts : parts_ok w;
  ti_timers o t (f : option flight) : timer_at (tw_timers w) o = Some t → owner (tw_flights w) o f → timer_ok w o t f;
}.

(** ** What other objects see of a step *)

Record calm w w' o : Prop := {
  ca_domain : domain (tw_timers w') = domain (tw_timers w);
  ca_now : now w ≤ now w';
  ca_status : tw_status w' o = tw_status w o;
  ca_asked g : tw_asked w' (tok w o g) = tw_asked w (tok w o g);
  ca_sound : sound w' o → sound w o;
  ca_held reg : held w o reg → held w' o reg;
  ca_way reg g : on_its_way w reg (tok w o g) → on_its_way w' reg (tok w o g);
  ca_queued token : token_object token = o → queued w' token → queued w token;
  ca_woken : all_woken w o → all_woken w' o;
}.

Lemma calm_tok w w' o g : domain (tw_timers w') = domain (tw_timers w) → tok w' o g = tok w o g.
Proof. unfold tok, token_of. by intros ->. Qed.

Lemma bounded_calm w w' o g : calm w w' o → bounded w o g → bounded w' o g.
Proof.
  intros Hc Hb Hs token Hq Ho. apply Hb; [by apply (ca_sound _ _ _ Hc)|by apply (ca_queued _ _ _ Hc)|done].
Qed.

Lemma settled_calm w w' o g arm sig : calm w w' o → settled w o g arm sig → settled w' o g arm sig.
Proof.
  intros Hc [Hheld Htold]. split; [intros reg Hr; by apply Hc, Hheld|]. intros Hs%(ca_sound _ _ _ Hc). revert Htold.
  intros Htold%(λ H, H Hs). revert Htold. unfold told. rewrite (ca_status _ _ _ Hc), (calm_tok w w') by apply Hc.
  destruct (tw_status w o) as [d|]; [|done]. rewrite (ca_asked _ _ _ Hc). intros [Hd Harm]. split; [done|].
  destruct arm as [reg|]; [destruct Harm; split; [done|by apply Hc]|].
  destruct Harm. split; [done|]. pose proof (ca_now _ _ _ Hc). lia.
Qed.

(** A registration on its way to an object is the object's. *)
Lemma way_held w o reg g : on_its_way w reg (tok w o g) → held w o reg.
Proof. intros [Hi Hway]. split; [done|]. intros e He. rewrite He in Hway. by rewrite Hway. Qed.

Lemma flight_ok_calm w w' o t f : calm w w' o → flight_ok w o t f → flight_ok w' o t f.
Proof.
  intros Hc. pose proof (bounded_calm _ _ _ (timer_generation t) Hc) as Hb.
  pose proof (λ g, bounded_calm _ _ _ g Hc) as Hb'.
  pose proof (λ g arm sig, settled_calm _ _ _ g arm sig Hc) as Hs. pose proof (ca_now _ _ _ Hc) as Hn.
  assert (∀ g, tok w' o g = tok w o g) as Ht by (intros; apply calm_tok, Hc). pose proof (ca_asked _ _ _ Hc) as Ha.
  destruct f as [key d g old was|key d g old was [new|]|key g|key g|key old was next|key old was next answer|
    fr old|fr old answer]; simpl; rewrite ?Ht, ?Ha; try naive_solver.
  - intros (-> & Hd & Hbd & Hnew). split_and!; [done..|by apply Hb'|].
    destruct new as [reg|]; [by apply Hc|lia].
  - intros (Hw & Hnx & Hbd & Hold). split_and!; [done..|by apply Hb|]. destruct old, answer; auto.
  - intros (Hbd & Hold). split; [by apply Hb|]. destruct old, answer; auto.
Qed.

Lemma timer_ok_calm w w' o t (f : option flight) : calm w w' o → timer_ok w o t f → timer_ok w' o t f.
Proof.
  intros Hc (Htr & Hseen & Hrest). split_and!; [done| |].
  - intros Hs. apply Hc. by apply Hseen.
  - destruct f as [f|]; destruct Hrest as [H1 H2]; split; try done.
    + by eapply flight_ok_calm.
    + by eapply bounded_calm.
    + by eapply settled_calm.
Qed.

(** A step on the Timer [o]: what it leaves of [o] has to be shown, and that
    the others see nothing of it. *)
Lemma inv_step w w' o (t' : option TimerRecord) :
  timer_inv w → parts_ok w' → sets_timer (tw_timers w) o t' (tw_timers w') →
  (∀ o' (f : option flight), o' ≠ o → owner (tw_flights w') o' f → owner (tw_flights w) o' f) →
  (∀ o', o' ≠ o → calm w w' o') →
  (∀ t (f : option flight), t' = Some t → owner (tw_flights w') o f → timer_ok w' o t f) → timer_inv w'.
Proof.
  intros [Hp Ht] Hp' Hset Hown Hcalm Hnew. split; [done|]. intros o' t f Hat Hf.
  rewrite (st_at _ _ _ _ Hset (po_timers _ Hp)) in Hat. case_decide as Hd.
  - subst o'. by apply Hnew.
  - eapply timer_ok_calm; [by apply Hcalm|]. eapply Ht; [done|by apply Hown].
Qed.

(** A step on no Timer. *)
Lemma inv_quiet_step w w' : timer_inv w → parts_ok w' → tw_timers w' = tw_timers w → tw_flights w' = tw_flights w →
  (∀ o, calm w w' o) → timer_inv w'.
Proof.
  intros [Hp Ht] Hp' Heq Hfs Hcalm. split; [done|]. rewrite Heq, Hfs. intros o t f Hat Hf.
  eapply timer_ok_calm; [by apply Hcalm|]. by eapply Ht.
Qed.
End invariant.
