(* ===== verification/TimerSteps.v ===== *)
(** * The invariant of Timers is kept

    The steps of the world of [TimerSystem.v] that are not those of a flight
    keep its invariant: what becomes of the deadlines and of the inbox, new
    Timers, new waiters and the first section of every operation. *)

From stdpp Require Import base tactics numbers list sets relations.
From Stdlib Require Import ZArith Lia.
From S2P Require Import Prelude Abi Object HandleTable Wait WaitFacts WaitTheorems Clock Deadline Timer TimerFacts LiveTime TimerContract TimerSystem.
Import TimerAuthority.
Local Open Scope Z_scope.

(** ** Owners *)

Lemma owner_exists fs o : ∃ f, owner fs o f.
Proof.
  destruct (list_find (λ f, flight_object f = o) fs) as [[i f]|] eqn:Hf.
  - apply list_find_Some in Hf as (Hi & Ho & _). exists (Some f). split; [by eapply list_elem_of_lookup_2|done].
  - apply list_find_None in Hf. exists None. intros f Hin Ho. rewrite list.Forall_forall in Hf. by eapply Hf.
Qed.

Lemma owner_middle pre f post g : NoDup (flight_object <$> pre ++ f :: post) →
  owner (pre ++ f :: post) (flight_object f) g → g = Some f.
Proof.
  rewrite fmap_app. intros (_ & Hdis & Hnd)%NoDup_app. cbn [fmap list_fmap] in Hnd.
  apply list.NoDup_cons in Hnd as [Hnot _]. destruct g as [g|]; simpl; [|intros Hno; exfalso; apply (Hno f); [set_solver|done]].
  intros [Hin Ho]. f_equal. apply elem_of_app in Hin as [Hin|[->|Hin]%elem_of_cons]; [|done|].
  - exfalso. eapply (Hdis (flight_object f)); [|by left]. rewrite <- Ho. by apply list_elem_of_fmap_2.
  - exfalso. apply Hnot. rewrite <- Ho. by apply list_elem_of_fmap_2.
Qed.

Lemma owner_added f fs o g : o ≠ flight_object f → owner (f :: fs) o g → owner fs o g.
Proof.
  intros Hne. destruct g as [g|]; simpl.
  - intros [[->|Hin]%elem_of_cons Ho]; [done|]. done.
  - intros Hno g Hin. apply Hno. by right.
Qed.

(** The flight [f] becomes [left]. *)
Lemma owner_replaced pre f post left o g : (∀ f', left = Some f' → flight_object f' = flight_object f) →
  o ≠ flight_object f → owner (pre ++ option_list left ++ post) o g → owner (pre ++ f :: post) o g.
Proof.
  intros Hleft Hne. destruct g as [g|]; simpl.
  - intros [Hin Ho]. split; [|done]. rewrite !elem_of_app in Hin. destruct Hin as [Hin|[Hin|Hin]]; [set_solver| |set_solver].
    destruct left as [f'|]; [|by apply elem_of_nil in Hin]. apply list_elem_of_singleton in Hin as ->.
    by rewrite (Hleft f') in Ho.
  - intros Hno g Hin. apply elem_of_app in Hin as [Hin|[->|Hin]%elem_of_cons]; [|done|]; apply Hno; set_solver.
Qed.

Lemma NoDup_replaced pre f post left : (∀ f', left = Some f' → flight_object f' = flight_object f) →
  NoDup (flight_object <$> pre ++ f :: post) → NoDup (flight_object <$> pre ++ option_list left ++ post).
Proof.
  intros Hleft. rewrite !fmap_app. cbn [fmap list_fmap]. destruct left as [f'|]; simpl.
  - by rewrite (Hleft f').
  - rewrite !NoDup_app. setoid_rewrite elem_of_cons. rewrite list.NoDup_cons. naive_solver.
Qed.

(** What is left of the owner of [f]'s object. *)
Lemma owner_left pre f post left g : NoDup (flight_object <$> pre ++ f :: post) →
  (∀ f', left = Some f' → flight_object f' = flight_object f) →
  owner (pre ++ option_list left ++ post) (flight_object f) g → g = left.
Proof.
  intros Hnd Hleft Hown. pose proof (NoDup_replaced _ _ _ _ Hleft Hnd) as Hnd'. destruct left as [f'|].
  - rewrite <- (Hleft f' eq_refl) in Hown. by eapply owner_middle in Hown.
  - destruct g as [g|]; [|done]. destruct Hown as [Hin Ho]. exfalso. simpl in Hin.
    assert (g ∈ pre ++ f :: post) as Hin' by set_solver.
    assert (Some g = Some f) as [= ->] by (by eapply owner_middle; [|split]).
    rewrite fmap_app in Hnd. apply NoDup_app in Hnd as (_ & Hdis & Hcons). cbn [fmap list_fmap] in *.
    apply list.NoDup_cons in Hcons as [Hnot _].
    apply elem_of_app in Hin as [Hin|Hin]; [eapply (Hdis (flight_object f)); [|by left]|apply Hnot]; by apply list_elem_of_fmap_2.
Qed.

Section steps.
Context {D : Type} `{!DeadlineService D, !DeadlineContract D}.
Implicit Types (w : timer_world D) (o : ObjectId) (t : TimerRecord).

Lemma sets_timer_refl (self : TimerAuthority.t) o (t : option TimerRecord) : timer_at self o = t → sets_timer self o t self.
Proof. intros Ht. split; [done|done|]. intros _ o'. by case_decide as Hd; [subst|]. Qed.

Lemma free_owner w o t f : timer_inv w → free_timer (tw_timers w) o t → owner (tw_flights w) o f →
  f = None ∧ timer_ok w o t None.
Proof.
  intros Hinv [Hat Hfree] Hown. pose proof (ti_timers _ Hinv _ _ _ Hat Hown) as Hok.
  destruct f as [f|]; [|done]. destruct Hok as [Htr _]. rewrite Hfree in Htr. done.
Qed.

(** ** The inbox *)

Lemma expire_timer_wlp token inbox : wlp (expire_timer token) inbox
  (λ _ inbox', length inbox' = length inbox ∧ omap id inbox' ≡ₚ token :: omap id inbox) (λ _ _, False).
Proof.
  unfold expire_timer. wlp_step. wlp_step. destruct (list_find _ inbox) as [[i slot]|] eqn:Hf; [|done].
  apply list_find_Some in Hf as (Hi & -> & _). wlp_step. split; [by rewrite length_insert|].
  apply list_elem_of_split_length in Hi as (pre & post & -> & ->). rewrite insert_app_r_alt, Nat.sub_diag by done.
  rewrite !omap_app. simpl. by rewrite Permutation_middle.
Qed.

Lemma expire_timer_room token inbox : (length (omap id inbox) < length inbox)%nat → expire_timer token inbox ≠ Panic.
Proof.
  intros Hroom. unfold expire_timer, mbind, M_bind, get. simpl. destruct (list_find _ inbox) as [[i slot]|] eqn:Hf; [done|].
  apply list_find_None in Hf. exfalso. clear -Hroom Hf.
  assert (length (omap id inbox) = length inbox); [|lia]. clear Hroom.
  induction Hf as [|[x|] inbox Hx _ IH]; [done| |done]. csimpl. by rewrite IH.
Qed.

(** The inbox takes as many tokens as it has room for. *)
Lemma hand_over_room tokens inbox : (length tokens + length (omap id inbox) ≤ length inbox)%nat →
  ∃ inbox', hand_over tokens inbox = Ret inbox' tt.
Proof.
  unfold hand_over. revert inbox. induction tokens as [|token tokens IH]; intros inbox Hroom; simpl in *; [by exists inbox|].
  unfold mbind, M_bind. pose proof (expire_timer_wlp token inbox) as Hw.
  pose proof (expire_timer_room token inbox ltac:(lia)) as Hok. unfold wlp in Hw.
  destruct (expire_timer token inbox) as [inbox1 []|? []|]; [|done]. destruct Hw as [Hl Hp]. apply IH.
  apply Permutation_length in Hp. simpl in Hp. lia.
Qed.

(** ** Deadlines *)

(** Nothing is armed, disarmed or delivered; the tokens on their way are the
    same. *)
Lemma idle_inv w d detached inbox : timer_inv w → idles dc_view (tw_deadlines w) d →
  (∀ x, x ∈ detached ++ omap id inbox ↔ x ∈ handed w) → timer_inv (with_deadlines w d detached inbox).
Proof.
  intros Hinv Hidle Hbox. pose proof Hidle as [[Hok Hnow Hiss] Ha]. pose proof (ti_parts _ Hinv) as [].
  assert (∀ x, x ∈ handed (with_deadlines w d detached inbox) ↔ x ∈ handed w) as Hh by exact Hbox.
  assert (∀ token, queued (with_deadlines w d detached inbox) token ↔ queued w token) as Hq.
  { intros token. unfold queued, armed. rewrite Hh. simpl. setoid_rewrite Ha. done. }
  apply (inv_quiet_step w); [done| |done|done|].
  - split; simpl; try done.
    + intros token. rewrite Hq. apply po_queued.
    + intros reg e. unfold armed. simpl. rewrite Ha. apply po_armed.
    + intros token Hin%Hh Hs. specialize (po_inbox _ Hin Hs). unfold now in *. simpl. lia.
  - intros o. split; try done.
    + intros reg [Hi He]. split; [by apply Hiss|]. intros e. unfold armed in *. simpl. rewrite Ha. apply He.
    + intros reg g [Hi Hway]. split; [by apply Hiss|]. unfold armed in *. simpl. rewrite Ha.
      destruct (dv_armed _ _ reg); [done|by apply Hh].
    + intros token _. apply Hq.
Qed.

(** The due registrations are detached, and their tokens are on their way. *)
Lemma deliver_inv w d tokens detached inbox : timer_inv w → delivers dc_view tokens (tw_deadlines w) d →
  (∀ x, x ∈ detached ++ omap id inbox ↔ x ∈ tokens ∨ x ∈ handed w) → timer_inv (with_deadlines w d detached inbox).
Proof.
  intros Hinv ([Hok Hnow Hiss] & Ha & Htok) Hbox. pose proof (ti_parts _ Hinv) as [].
  assert (∀ x, x ∈ handed (with_deadlines w d detached inbox) ↔ x ∈ tokens ∨ x ∈ handed w) as Hh by exact Hbox.
  assert (∀ reg e, armed (with_deadlines w d detached inbox) reg = Some e → armed w reg = Some e) as Harm.
  { intros reg e. unfold armed. simpl. rewrite Ha. destruct (dv_armed _ _ reg) as [e'|]; [|done]. by destruct (_ <=? _). }
  assert (∀ token, queued (with_deadlines w d detached inbox) token → queued w token) as Hq.
  { intros token [(reg & e & Hreg & He)|[Hin|Hin]%Hh]; [left; exists reg, e; auto| |by right].
    apply Htok in Hin as (reg & e & Hreg & _ & He). left. by exists reg, e. }
  apply (inv_quiet_step w); [done| |done|done|].
  - split; simpl; try done.
    + intros token Hin. by apply po_queued, Hq.
    + intros reg e Hreg%Harm. by apply po_armed with reg.
    + intros token [(reg & e & Hreg & Hd & <-)%Htok|Hin]%Hh Hs; unfold now in *; simpl.
      * by rewrite (po_armed _ _ Hreg Hs).
      * specialize (po_inbox _ Hin Hs). lia.
  - intros o. split; try done.
    + intros reg [Hi He]. split; [by apply Hiss|]. auto.
    + intros reg g [Hi Hway]. split; [by apply Hiss|]. unfold armed in *. simpl. rewrite Ha.
      destruct (dv_armed _ _ reg) as [e|] eqn:He; [|apply Hh; by right].
      destruct (Z.leb_spec (deadline_ns e) (dv_now dc_view d)); [|done]. apply Hh. left. apply Htok.
      exists reg, e. split_and!; [done..|]. by rewrite Hway.
    + intros token _. apply Hq.
Qed.

(** ** Creation *)

Lemma create_inv w creation timers binding : timer_inv w → creation_id creation ∉ tw_known w →
  bind_timer creation (tw_timers w) = Ret timers binding → timer_inv (after_create w (creation_id creation) timers).
Proof.
  intros Hinv Hnew Hbind. pose proof (ti_parts _ Hinv) as [].
  destruct (wp_Ret _ _ _ _ _ _ (bind_timer_wp creation (tw_timers w)) Hbind) as (Hno & _ & _ & Hset).
  set (o := creation_id creation) in *. assert (∀ token, queued (after_create w o timers) token ↔ queued w token) as Hq by done.
  assert (∀ o', timer_at timers o' = if decide (o' = o) then Some (new_timer o) else timer_at (tw_timers w) o') as Hat
    by (by apply Hset).
  assert (domain timers = domain (tw_timers w)) as Hdom by apply Hset.
  apply (inv_step w _ o (Some (new_timer o))); [done| |done|done| |].
  - split; simpl; try done; [by apply Hset| | |].
    + intros f Hin. rewrite Hat. case_decide; [done|]. by apply po_owned.
    + intros o'. rewrite Hat. case_decide; [intros _; subst; by left|]. intros. right. by apply po_known.
    + intros token [Hk Hd]%Hq%po_queued. split; [by right|congruence].
  - intros o' Hne. split; try done. simpl. by unfold assign; rewrite decide_False.
  - intros t f [= <-] Hown. destruct f as [f|].
    { destruct Hown as [Hin Ho]. exfalso. apply Hnew, po_known. rewrite <- Ho. by apply po_owned. }
    split_and!; [done|done| |].
    + intros _ token [Hk _]%Hq%po_queued Ho. by rewrite Ho in Hk.
    + split; [done|]. intros _. unfold told. simpl. unfold assign. by rewrite decide_True.
Qed.

(** ** Waiters *)

Lemma waits_parts w waits : parts_ok w → wait_wf waits →
  (∀ e, e ∈ WaitRegistry.entries waits → internal_type (wait_pin e) = DW_OBJECT_TYPE_TIMER → is_uint 64 (wait_desired e)) →
  parts_ok (with_waits w waits).
Proof. by intros []. Qed.

Lemma waits_inv w op waits moved : timer_inv w →
  (∀ pin desired item_index thread wake, op = Register pin desired item_index thread wake →
     internal_type pin ≠ DW_OBJECT_TYPE_TIMER) →
  exec op (tw_waits w) = Ret waits moved → timer_inv (with_waits w waits).
Proof.
  intros Hinv Hadm Hex. pose proof (ti_parts _ Hinv) as Hp. pose proof (po_waits _ Hp) as Hwf.
  destruct (wp_Ret _ _ _ _ _ _ (exec_wp op _ Hwf) Hex) as (Hwf' & _).
  destruct (wp_Ret _ _ _ _ _ _ (exec_entries op _ Hwf) Hex) as (_ & Hent).
  assert (∀ e, e ∈ WaitRegistry.entries waits → internal_type (wait_pin e) = DW_OBJECT_TYPE_TIMER →
    e ∈ WaitRegistry.entries (tw_waits w)) as Hold.
  { intros e [?|(pin & d & i & th & wk & Hop & ->)]%Hent Hty; [done|]. by destruct (Hadm _ _ _ _ _ Hop). }
  apply (inv_quiet_step w); [done| |done|done|].
  - apply waits_parts; [done..|]. intros e He Hty. apply (po_masks _ Hp); auto.
  - intros o. split; try done. intros Hwoken e He Hty Ho. apply Hwoken; auto.
Qed.

Lemma register_inv w target desired item_index thread wake st outcome : timer_inv w → is_uint 64 desired →
  register_wait target desired item_index thread wake (tw_timers w, tw_waits w) = Ret st outcome →
  timer_inv (with_waits w st.2).
Proof.
  intros Hinv Hu Hreg. pose proof (ti_parts _ Hinv) as Hp. pose proof (po_waits _ Hp) as Hwf.
  set (pin := ResolvedHandle.reference target).
  destruct (wp_Ret _ _ _ _ _ _ (register_timer_wait_wp target desired item_index thread wake _ _ Hwf) Hreg)
    as (Hty & _ & t & Hfree & Hout). fold pin in Hty, Hfree, Hout. destruct outcome as [obs p|registration].
  { destruct Hout as (_ & _ & _ & ->). by destruct w. }
  destruct Hout as [Hsig Hreg']. pose (op := Register pin desired item_index thread wake).
  assert (exec op (tw_waits w) = Ret st.2 ([pin], [])) as Hex.
  { unfold op. simpl. unfold mbind, M_bind, try. by rewrite Hreg'. }
  destruct (wp_Ret _ _ _ _ _ _ (exec_wp op _ Hwf) Hex) as (Hwf' & _).
  destruct (wp_Ret _ _ _ _ _ _ (exec_entries op _ Hwf) Hex) as (_ & Hent).
  assert (∀ e, e ∈ WaitRegistry.entries st.2 → e ∈ WaitRegistry.entries (tw_waits w) ∨
    e = new_entry pin desired item_index thread wake) as Hnew.
  { intros e [?|(? & ? & ? & ? & ? & [=] & ->)]%Hent; [by left|]. right. congruence. }
  apply (inv_step w _ (internal_id pin) (Some t)); [done| |by apply sets_timer_refl, Hfree|done| |].
  - apply waits_parts; [done..|]. intros e [He| ->]%Hnew Hte; [by apply (po_masks _ Hp)|done].
  - intros o' Hne. split; try done. intros Hwoken e [He| ->]%Hnew Hte Ho; [by apply Hwoken|]. by destruct Hne.
  - intros t' f [= <-] Hown. destruct (free_owner _ _ _ _ Hinv Hfree Hown) as [-> (Htr & _ & Hrest)].
    split; [done|]. split; [|exact Hrest]. simpl. by rewrite Hsig.
Qed.

(** ** The first section of an operation *)

Lemma other_or w o token : sound w (token_object token) → queued w token →
  token_object token ≠ o ∨ sound w o ∧ queued w token.
Proof. intros Hs Hq. destruct (decide (token_object token = o)) as [<-|]; [by right|by left]. Qed.

Lemma begin_inv w o t t1 timers f :
  timer_inv w → free_timer (tw_timers w) o t → sets_timer (tw_timers w) o (Some t1) timers → flight_object f = o →
  (∀ token, token_object token ≠ o ∨ sound w o ∧ queued w token → asked_by w (Some f) token = tw_asked w token) →
  (timer_ok w o t None → timer_ok (after_begin w timers (Some f)) o t1 (Some f)) →
  timer_inv (after_begin w timers (Some f)).
Proof.
  intros Hinv Hfree Hset Hobj Hasked Hok. pose proof (ti_parts _ Hinv) as [].
  destruct (owner_exists (tw_flights w) o) as [fl Hown]. destruct (free_owner _ _ _ _ Hinv Hfree Hown) as [-> Hok0].
  specialize (Hok Hok0). clear Hok0. set (w' := after_begin w timers (Some f)) in *.
  assert (∀ token, queued w' token → queued w token) as Hq by done.
  assert (domain timers = domain (tw_timers w)) as Hdom by apply Hset.
  apply (inv_step w _ o (Some t1)); [done| |done| | |].
  - split; try done; simpl.
    + by apply Hset.
    + cbn [fmap list_fmap]. apply list.NoDup_cons. split; [|done]. rewrite Hobj.
      intros (g & Hg & Hin)%list_elem_of_fmap. by apply (Hown g).
    + intros g [->|Hin]%elem_of_cons; rewrite (st_at _ _ _ _ Hset) by done; case_decide; try done. by apply po_owned.
    + intros o'. rewrite (st_at _ _ _ _ Hset) by done. case_decide as Hd; [|by apply po_known].
      intros _. subst o'. apply po_known. by rewrite (proj1 Hfree).
    + intros token [Hk Hd]%Hq%po_queued. split; [done|congruence].
    + intros reg e Hreg Hs. rewrite Hasked; [by eapply po_armed|]. apply other_or; [done|]. left. by exists reg, e.
    + intros token Hin Hs. rewrite Hasked; [by apply po_inbox|]. apply other_or; [done|]. by right.
  - intros o' f' Hne. simpl. apply owner_added. by rewrite Hobj.
  - intros o' Hne. split; try done.
    + intros g. apply Hasked. by left.
    + intros reg g [Hi Hway]. split; [done|]. change (armed w' reg) with (armed w reg).
      destruct (armed w reg) as [e|]; [|done]. rewrite Hway. f_equal. symmetry. apply Hasked. by left.
  - intros t' f' [= <-] Hown'. assert (f' = Some f) as ->; [|done]. simpl in Hown'. rewrite <- Hobj in Hown'.
    apply (owner_middle [] f (tw_flights w)); [|done]. simpl. cbn [fmap list_fmap]. apply list.NoDup_cons.
    split; [|done]. rewrite Hobj. intros (g & Hg & Hin)%list_elem_of_fmap. by apply (Hown g).
Qed.

(** The first section marks the Timer and takes its arm. *)
Lemma begin_settled w timers f o g arm sig : domain timers = domain (tw_timers w) →
  asked_by w f (tok w o g) = tw_asked w (tok w o g) →
  settled w o g arm sig → settled (after_begin w timers f) o g arm sig.
Proof.
  intros Hdom Hasked [Hheld Htold]. split; [done|]. intros Hsound. specialize (Htold Hsound). revert Htold.
  unfold told. simpl. rewrite (calm_tok w (after_begin w timers f) _ _ Hdom).
  destruct (tw_status w o) as [d|]; [|done]. rewrite Hasked. intros [Hd Harm]. split; [done|].
  destruct arm as [reg|]; [|done]. destruct Harm as [Hs [Hi Hway]]. split; [done|]. split; [done|].
  change (armed (after_begin w timers f) reg) with (armed w reg).
  destruct (armed w reg) as [e|]; [|done]. simpl. by rewrite Hasked.
Qed.

Lemma free_ok w o t : timer_inv w → free_timer (tw_timers w) o t → timer_ok w o t None.
Proof.
  intros Hinv Hfree. destruct (owner_exists (tw_flights w) o) as [fl Hown].
  by destruct (free_owner _ _ _ _ Hinv Hfree Hown).
Qed.

Lemma begin_none w : after_begin w (tw_timers w) None = w.
Proof. by destruct w. Qed.

(** The tokens a new generation may be asked for. *)
Lemma fresh_token w o g token deadline : bounded w o g → token_object token ≠ o ∨ sound w o ∧ queued w token →
  assign (tw_asked w) (tok w o (g + 1)) deadline token = tw_asked w token.
Proof.
  intros Hb Htok. unfold assign. rewrite decide_False; [done|]. intros ->. destruct Htok as [Hne|[Hs Hq]]; [done|].
  specialize (Hb Hs _ Hq eq_refl). simpl in Hb. lia.
Qed.

Lemma set_inv w key deadline timers f : timer_inv w → begin_call (CallSet key deadline) (tw_timers w) = Ret timers f →
  timer_inv (after_begin w timers f).
Proof.
  intros Hinv. unfold begin_call. destruct (Z.eqb_spec deadline DW_DEADLINE_INFINITE) as [|Hinf].
  { intros [= <- <-]. by rewrite begin_none. }
  pose proof (stage_set_wp key (tw_timers w)) as Hwp. unfold mbind, M_bind, try, wp in *.
  destruct (stage_set key (tw_timers w)) as [timers' [[g old] was]|timers' e|]; [|intros [= <- <-]; subst; by rewrite begin_none|done].
  intros [= <- <-]. destruct Hwp as (t & Hfree & -> & -> & -> & Hset). set (o := timer_key_object key) in *.
  pose proof (free_ok _ _ _ Hinv Hfree) as (_ & Hseen & Hb & Hs). assert (domain timers' = domain (tw_timers w)) as Hdom by apply Hset.
  eapply begin_inv; [done..| |].
  - intros token Htok. by apply fresh_token.
  - intros _. split; [done|]. split; [done|]. split; [done|]. simpl. split_and!; try done.
    + unfold assign, tok, token_of. simpl. by rewrite Hdom, decide_True.
    + apply begin_settled; [done| |done]. simpl. unfold assign. rewrite decide_False; [done|]. intros [=]. lia.
Qed.

Lemma cancel_inv w key timers f : timer_inv w → begin_call (CallCancel key) (tw_timers w) = Ret timers f →
  timer_inv (after_begin w timers f).
Proof.
  intros Hinv. unfold begin_call. pose proof (stage_cancel_wp key (tw_timers w)) as Hwp. unfold mbind, M_bind, try, wp in *.
  destruct (stage_cancel key (tw_timers w)) as [timers' [[old was] next]|timers' e|]; [|intros [= <- <-]; subst; by rewrite begin_none|done].
  intros [= <- <-]. destruct Hwp as (t & Hfree & -> & -> & -> & Hset).
  pose proof (free_ok _ _ _ Hinv Hfree) as (_ & Hseen & Hb & Hs). eapply begin_inv; [done..|].
  intros _. split; [done|]. split; [done|]. split; [done|]. simpl. split_and!; try done.
  by apply begin_settled; [apply Hset|..].
Qed.

Lemma finalize_inv w fr timers f : timer_inv w → begin_call (CallFinalize fr) (tw_timers w) = Ret timers f →
  timer_inv (after_begin w timers f).
Proof.
  intros Hinv. unfold begin_call. pose proof (stage_finalization_wp fr (tw_timers w)) as Hwp. unfold mbind, M_bind, try, wp in *.
  destruct (stage_finalization fr (tw_timers w)) as [timers' old|timers' e|]; [|intros [= <- <-]; subst; by rewrite begin_none|done].
  intros [= <- <-]. destruct Hwp as (t & Hfree & -> & Hset).
  pose proof (free_ok _ _ _ Hinv Hfree) as (_ & Hseen & Hb & Hs). eapply begin_inv; [done..|].
  intros _. split; [done|]. split; [done|]. split; [done|]. simpl. split; [done|].
  by apply begin_settled; [apply Hset|..].
Qed.

(** ** Expiry *)

(** A stale token is dropped. *)
Lemma drop_inv w inbox token : timer_inv w → (∀ x, x ∈ omap id inbox → x ∈ omap id (tw_inbox w)) →
  (∀ x, x ≠ token → x ∈ omap id (tw_inbox w) → x ∈ omap id inbox) →
  (∀ t, timer_at (tw_timers w) (token_object token) = Some t →
     timer_transition t = None ∧ (timer_generation t ≠ token_generation token ∨ timer_arm t = None)) →
  timer_inv (with_deadlines w (tw_deadlines w) (tw_detached w) inbox).
Proof.
  intros Hinv Hsub Hkeep Hstale. pose proof (ti_parts _ Hinv) as [].
  set (w' := with_deadlines w (tw_deadlines w) (tw_detached w) inbox).
  assert (∀ x, x ∈ handed w' → x ∈ handed w) as Hless by (intros x; unfold handed; rewrite !elem_of_app; naive_solver).
  assert (∀ x, x ≠ token → x ∈ handed w → x ∈ handed w') as Hmore by (intros x Hx; unfold handed; rewrite !elem_of_app; naive_solver).
  assert (∀ x, queued w' x → queued w x) as Hq by (intros x [Hreg|Hin]; [by left|right; by apply Hless]).
  apply (inv_step w _ (token_object token) (timer_at (tw_timers w) (token_object token))); [done| |by apply sets_timer_refl|done| |].
  - split; try done; [intros x Hx; by apply po_queued, Hq|intros x Hx; by apply po_inbox, Hless].
  - intros o' Hne. split; try done; [|intros x _; apply Hq]. intros reg g [Hi Hway]. split; [done|].
    change (armed w' reg) with (armed w reg). destruct (armed w reg); [done|]. apply Hmore; [|done]. intros Heq. apply Hne. by rewrite <- Heq.
  - intros t f Hat Hown. destruct (Hstale t Hat) as [Hfree Hgen].
    destruct (free_owner _ _ _ f Hinv (conj Hat Hfree) Hown) as [-> (Htr & Hseen & Hb & Hheld & Hs)].
    split; [done|]. split; [done|]. split; [intros Hsound x Hx; by apply Hb, Hq|]. split; [done|].
    intros Hsound. specialize (Hs Hsound). unfold told in *. change (tw_status w') with (tw_status w).
    destruct (tw_status w _) as [d|]; [|done]. destruct Hs as [Hd Hs]. split; [done|]. destruct (timer_arm t) as [reg|]; [|done].
    destruct Hs as [Hsig [Hi Hway]]. split; [done|]. split; [done|]. change (armed w' reg) with (armed w reg).
    destruct (armed w reg); [done|]. apply Hmore; [|done]. intros Heq. rewrite <- Heq in Hgen. by destruct Hgen.
Qed.
End steps.
