(* ===== verification/TimerAdvance.v ===== *)
(** * Flights keep the invariant

    The sections after the first: each finds the Timer as its flight left it,
    and leaves the invariant of [TimerSystem.v].  With them every step keeps
    it. *)

From stdpp Require Import base tactics numbers list sets relations.
From Stdlib Require Import ZArith Lia.
From S2P Require Import Prelude Abi Object HandleTable Wait WaitFacts WaitTheorems Clock Deadline Timer TimerFacts LiveTime TimerContract TimerSystem TimerSteps.
Import TimerAuthority.
Local Open Scope Z_scope.

Section advance.
Context {D : Type} `{!DeadlineService D, !DeadlineContract D}.
Implicit Types (w : timer_world D) (o : ObjectId) (t : TimerRecord) (f : flight).

Lemma flying w pre f post : timer_inv w → tw_flights w = pre ++ f :: post →
  ∃ t, timer_at (tw_timers w) (flight_object f) = Some t ∧ timer_ok w (flight_object f) t (Some f).
Proof.
  intros Hinv Hfs. assert (f ∈ tw_flights w) as Hin by (rewrite Hfs; set_solver).
  destruct (po_owned _ (ti_parts _ Hinv) f Hin) as [t Ht]. exists t. split; [done|]. by apply (ti_timers _ Hinv).
Qed.

Lemma status_by_other w f o : o ≠ flight_object f → status_by w f o = tw_status w o.
Proof.
  intros Hne. destruct f as [|? ? ? ? ? []| | | |? old ? ? answer| |]; try done; simpl in *.
  - unfold assign. by rewrite decide_False.
  - destruct old; [destruct answer|]; try done; unfold assign; by rewrite decide_False.
Qed.

(** A step of the flight [f] that leaves [left] of it and [t'] of its Timer:
    what it arms is for its own Timer, and it adds no waiter. *)
Lemma advance_inv w pre f post left (t' : option TimerRecord) st wakes faulted :
  let o := flight_object f in
  let w' := after_advance w f st (pre ++ option_list left ++ post) wakes faulted in
  (∀ x, x ∈ faulted → x = o) →
  timer_inv w → tw_flights w = pre ++ f :: post → (∀ f', left = Some f' → flight_object f' = o) →
  sets_timer (tw_timers w) o t' st.1.1 → (t' = None → left = None) →
  follows dc_view (tw_deadlines w) st.1.2 →
  (∀ reg e, armed w' reg = Some e → armed w reg = Some e ∨
     tw_asked w (payload e) = deadline_ns e ∧ ∃ g, payload e = tok w o g) →
  (∀ reg o', o' ≠ o → held w o' reg → held w' o' reg) →
  (∀ reg o' g, o' ≠ o → on_its_way w reg (tok w o' g) → on_its_way w' reg (tok w o' g)) →
  wait_wf st.2 → (∀ e, e ∈ WaitRegistry.entries st.2 → e ∈ WaitRegistry.entries (tw_waits w)) →
  (∀ t, t' = Some t → timer_ok w' o t left) → timer_inv w'.
Proof.
  intros o w' Hfault Hinv Hfs Hleft Hset Hgone Hfol Harm Hheld Hway Hwf Hent Hok. pose proof (ti_parts _ Hinv) as Hp.
  pose proof Hp as []. destruct st as [[timers d] waits]. simpl in *.
  assert (domain timers = domain (tw_timers w)) as Hdom by apply Hset.
  assert (∀ o', sound w' o' → sound w o') as Hsound by (intros o' Hs Hin; apply Hs, elem_of_app; by right).
  assert (is_Some (timer_at (tw_timers w) o)) as Hin by (apply po_owned; rewrite Hfs; set_solver).
  assert (∀ token, queued w' token → queued w token ∨ ∃ g, token = tok w o g) as Hq.
  { intros token [(reg & e & Hreg & He)|Hbox]; [|by left; right].
    destruct (Harm reg e Hreg) as [Hold|[_ [g Hg]]]; [left; left; by exists reg, e|right; exists g; congruence]. }
  rewrite Hfs in po_flights. apply (inv_step w _ o t'); [done| |done| | |].
  - split; simpl; try done; [apply Hfol|by apply Hset|by eapply NoDup_replaced| | | | | |auto].
    + intros g Hg. rewrite (st_at _ _ _ _ Hset) by done. case_decide as Hd.
      * destruct t' as [t'|]; [done|]. exfalso. rewrite (Hgone eq_refl) in Hg. simpl in Hg.
        assert (Some g = None) as [=]. eapply (owner_left pre f post None); [done|done|]. simpl. split; [set_solver|done].
      * apply po_owned. rewrite Hfs. rewrite !elem_of_app in Hg. destruct Hg as [Hg|[Hg|Hg]]; [set_solver| |set_solver].
        destruct left as [f'|]; [|by apply elem_of_nil in Hg]. apply list_elem_of_singleton in Hg as ->. by rewrite Hleft in Hd.
    + intros o'. rewrite (st_at _ _ _ _ Hset) by done. case_decide as Hd; [subst o'; intros _; by apply po_known|apply po_known].
    + intros token [[Hk Hd]%po_queued|[g ->]]%Hq; [split; [done|congruence]|]. split; [by apply po_known|done].
    + intros reg e [Hold|[Ha _]]%Harm Hs; [by eapply po_armed, Hsound|done].
    + intros token Hbox Hs. specialize (po_inbox _ Hbox (Hsound _ Hs)). pose proof (fo_now _ _ _ Hfol). unfold now in *. simpl. lia.
  - intros o' g Hne Hown. rewrite Hfs. by eapply owner_replaced.
  - intros o' Hne. split; try done.
    + apply Hfol.
    + simpl. by apply status_by_other.
    + apply Hsound.
    + intros reg. by apply Hheld.
    + intros reg g. by apply Hway.
    + intros token Ho [?|[g ->]]%Hq; [done|]. by destruct Hne.
    + intros Hw e He Hty Ho. apply elem_of_app. right. apply Hw; auto.
  - intros t g Ht Hown. rewrite (owner_left _ _ _ _ _ po_flights Hleft Hown). by apply Hok.
Qed.

Lemma follows_refl w : parts_ok w → follows dc_view (tw_deadlines w) (tw_deadlines w).
Proof. intros []. by split. Qed.

(** ** Sections of the timer lock *)

(** What a section on the timers leaves for the invariant to see. *)
Definition committed w f (timers : TimerAuthority.t) (flights : list flight) : timer_world D :=
  after_advance w f (timers, tw_deadlines w, tw_waits w) flights [] [].

Lemma commit_tok w f timers flights o g : domain timers = domain (tw_timers w) →
  tok (committed w f timers flights) o g = tok w o g.
Proof. unfold tok, token_of. simpl. by intros ->. Qed.

Lemma commit_settled w f timers flights o g arm sig : domain timers = domain (tw_timers w) →
  status_by w f o = tw_status w o → settled w o g arm sig → settled (committed w f timers flights) o g arm sig.
Proof.
  intros Hdom Hst [Hheld Htold]. split; [done|]. intros Hs. specialize (Htold Hs). revert Htold.
  unfold told. rewrite (commit_tok _ _ _ _ _ _ Hdom). simpl. by rewrite Hst.
Qed.

Lemma commit_wp {A} w pre f post (m : M TimerAuthority.t Empty_set A) left (t' : option TimerRecord)
    (Q : option flight * list WakeIntent → TimerAuthority.t * D * WaitRegistry.t → Prop) :
  let o := flight_object f in
  timer_inv w → tw_flights w = pre ++ f :: post → (∀ f', left = Some f' → flight_object f' = o) →
  completes m (tw_timers w) o t' → (t' = None → left = None) →
  (∀ timers t, domain timers = domain (tw_timers w) → t' = Some t →
     timer_ok (committed w f timers (pre ++ option_list left ++ post)) o t left) →
  (∀ st, timer_inv (after_advance w f st (pre ++ option_list left ++ post) [] []) → Q (left, []) st) →
  wp (on_timers m;; mret (left, [])) (tw_state w) Q (λ _ _, False).
Proof.
  intros o Hinv Hfs Hleft Hm Hgone Hok HQ. pose proof (ti_parts _ Hinv) as Hp. wp_step. unfold on_timers, tw_state. do 2 wp_step.
  eapply wp_mono; [exact Hm| |done]. intros a timers Hset. wp_step. apply HQ.
  apply (advance_inv w pre f post left t'); try done; [by intros x ?%elem_of_nil|by apply follows_refl|by left|apply Hp|].
  intros t Ht. apply Hok; [apply Hset|done].
Qed.

(** The flight [f] advances, and the invariant is kept. *)
Definition advances w site pre f post : Prop :=
  wp (advance site f) (tw_state w)
    (λ r st, timer_inv (after_advance w f st (pre ++ option_list r.1 ++ post) r.2 (faulted_by site r.1))) (λ _ _, False).

Lemma set_committed_wp w site pre key d g old was new post : let f := SetAnswered key d g old was (Ok new) in
  timer_inv w → tw_flights w = pre ++ f :: post → advances w site pre f post.
Proof.
  intros f Hinv Hfs. destruct (flying _ _ _ _ Hinv Hfs) as (t & Hat & Htr & Hseen & Harm & Hok).
  destruct Hok as (-> & Hd & Hb & Hnew).
  eapply (commit_wp _ _ _ _ _ (if is_none new then Some (SetReady key (timer_generation t + 1)) else None));
    [done|done|by destruct new; intros f' [= <-]|by apply commit_set_wp|done| |by destruct new].
  intros timers t1 Hdom [= <-]. set (w' := committed _ _ _ _).
  assert (settled w' (timer_key_object key) (timer_generation t + 1) new (is_none new)) as Hs.
  { split; [intros reg Hr; subst new; exact (way_held w _ _ _ Hnew)|]. intros _.
    unfold told, w'. rewrite commit_tok by done. simpl. unfold assign. rewrite decide_True by done.
    split; [done|]. by destruct new. }
  destruct new as [reg|]; (split; [done|]; split; [done|]; simpl; split_and!; try done).
Qed.

Lemma set_restored_wp w site pre key d g old was e post : let f := SetAnswered key d g old was (Err e) in
  timer_inv w → tw_flights w = pre ++ f :: post → advances w site pre f post.
Proof.
  intros f Hinv Hfs. destruct (flying _ _ _ _ Hinv Hfs) as (t & Hat & Htr & Hseen & Harm & Hok).
  destruct Hok as (-> & -> & _ & Hd & Hb & Hs). eapply (commit_wp _ _ _ _ _ None); [done|done|done|by apply restore_set_wp|done| |done].
  intros timers t1 Hdom [= <-]. split; [done|]. split; [done|]. split; [done|]. by apply commit_settled.
Qed.

Lemma set_taken_wp w site pre key g post : let f := SetTaken key g in
  timer_inv w → tw_flights w = pre ++ f :: post → advances w site pre f post.
Proof.
  intros f Hinv Hfs. destruct (flying _ _ _ _ Hinv Hfs) as (t & Hat & Htr & Hseen & Harm & Hok).
  destruct Hok as (-> & Hsig & Hb & Hs). eapply (commit_wp _ _ _ _ _ None); [done|done|done|by apply complete_readiness_wp|done| |done].
  intros timers t1 Hdom [= <-]. split; [done|]. split; [done|]. split; [done|]. simpl. rewrite Harm, Hsig. by apply commit_settled.
Qed.

Lemma cancel_restored_wp w site pre key arm was next e post : let f := CancelAnswered key (Some arm) was next (Err e) in
  timer_inv w → tw_flights w = pre ++ f :: post → advances w site pre f post.
Proof.
  intros f Hinv Hfs. destruct (flying _ _ _ _ Hinv Hfs) as (t & Hat & Htr & Hseen & Harm & Hok).
  destruct Hok as (-> & -> & Hb & Hs). eapply (commit_wp _ _ _ _ _ None); [done|done|done|by apply restore_cancel_wp|done| |done].
  intros timers t1 Hdom [= <-]. split; [done|]. split; [done|]. split; [done|]. by apply commit_settled.
Qed.

Lemma cancel_committed_wp w site pre key old was next answer post : let f := CancelAnswered key old was next answer in
  match old, answer with Some _, Err _ => False | _, _ => True end →
  timer_inv w → tw_flights w = pre ++ f :: post → advances w site pre f post.
Proof.
  intros f Hcase Hinv Hfs. destruct (flying _ _ _ _ Hinv Hfs) as (t & Hat & Htr & Hseen & Harm & Hok).
  destruct Hok as (-> & -> & Hb & _).
  assert (advance site f = (on_timers (D:=D) (W:=WaitRegistry.t) (commit_cancel key ((λ _, timer_generation t + 1) <$> old));; mret (None, []))) as Hadv
    by (unfold f; simpl; by destruct old; [destruct answer|]).
  assert (status_by w f (timer_key_object key) = None) as Hst.
  { unfold f. simpl. by destruct old; [destruct answer|]; try done; unfold assign; rewrite decide_True. }
  unfold advances. rewrite Hadv. eapply (commit_wp _ _ _ _ _ None); [done|done|done|by apply commit_cancel_wp|done| |done].
  intros timers t1 Hdom [= <-]. split; [done|]. split; [done|]. split.
  - intros Hs token Hq Ho. specialize (Hb Hs token Hq Ho). destruct old; simpl; lia.
  - simpl. rewrite Harm. split; [done|]. intros _. unfold told. replace (tw_status _ _) with (@None Z) by (symmetry; exact Hst). done.
Qed.

Lemma final_restored_wp w site pre fr arm e post : let f := FinalAnswered fr (Some arm) (Err e) in
  timer_inv w → tw_flights w = pre ++ f :: post → advances w site pre f post.
Proof.
  intros f Hinv Hfs. destruct (flying _ _ _ _ Hinv Hfs) as (t & Hat & Htr & Hseen & Harm & Hb & Hs).
  eapply (commit_wp _ _ _ _ _ None); [done|done|done|by apply restore_finalization_wp|done| |done].
  intros timers t1 Hdom [= <-]. split; [done|]. split; [done|]. split; [done|]. by apply commit_settled.
Qed.

Lemma final_committed_wp w site pre fr old answer post : let f := FinalAnswered fr old answer in
  match old, answer with Some _, Err _ => False | _, _ => True end →
  timer_inv w → tw_flights w = pre ++ f :: post → advances w site pre f post.
Proof.
  intros f Hcase Hinv Hfs. destruct (flying _ _ _ _ Hinv Hfs) as (t & Hat & Htr & Hseen & Harm & Hok).
  assert (advance site f = ((on_timers (D:=D) (W:=WaitRegistry.t) (commit_finalization fr);; mret tt);; mret (None, []))) as Hadv
    by (unfold f; simpl; by destruct old; [destruct answer|]).
  unfold advances. rewrite Hadv. wp_step. wp_step. unfold on_timers, tw_state. do 2 wp_step.
  eapply wp_mono; [by eapply commit_finalization_wp| |done]. intros ? timers Hset. do 2 wp_step.
  pose proof (ti_parts _ Hinv) as Hp.
  by apply (advance_inv w pre f post None None); try done; [by intros x ?%elem_of_nil|by apply follows_refl|by left|apply Hp].
Qed.

(** ** Calls of the wait registry *)

Lemma timer_waiter_ready w e : parts_ok w → e ∈ WaitRegistry.entries (tw_waits w) →
  internal_type (wait_pin e) = DW_OBJECT_TYPE_TIMER →
  wait_wake (wait_identity e) ∈ ready_keys (wait_object (wait_identity e)) DW_SIGNAL_SIGNALED (WaitRegistry.slots (tw_waits w)).
Proof.
  intros Hp He Hty. apply ready_entry_woken; [done|]. apply Is_true_true. unfold WaitRegistry.is_ready.
  rewrite bool_decide_eq_true_2 by done. destruct (entry_wf _ _ (po_waits _ Hp) He) as [_ Hv]. rewrite Hty in Hv.
  rewrite (proj2 (Z.eqb_neq _ 0)); [done|]. apply (land_only_signal DW_OBJECT_TYPE_TIMER); [done..|]. by apply (po_masks _ Hp).
Qed.

Lemma intents_wakes ws o (keys : list BlockWakeKey) : intent_wake <$> (intent ws o DW_SIGNAL_SIGNALED <$> keys) = keys.
Proof. rewrite <- list_fmap_compose. apply list_fmap_id. Qed.

(** A section on the wait registry leaves the timers and the deadlines. *)
Lemma waits_wp w pre f post left ws' wakes t : let o := flight_object f in
  let w' := after_advance w f (tw_timers w, tw_deadlines w, ws') (pre ++ left :: post) wakes [] in
  timer_inv w → tw_flights w = pre ++ f :: post → flight_object left = o → timer_at (tw_timers w) o = Some t →
  wait_wf ws' → (∀ e, e ∈ WaitRegistry.entries ws' → e ∈ WaitRegistry.entries (tw_waits w)) →
  timer_ok w' o t (Some left) → timer_inv w'.
Proof.
  intros o w' Hinv Hfs Hleft Hat Hwf Hent Hok. pose proof (ti_parts _ Hinv) as Hp.
  apply (advance_inv w pre f post (Some left) (Some t)); try done;
    [by intros x ?%elem_of_nil|by intros f' [= <-]|by apply sets_timer_refl|by apply follows_refl|by left|by intros t' [= <-]].
Qed.

Lemma set_ready_wp w site pre key g post : let f := SetReady key g in
  timer_inv w → tw_flights w = pre ++ f :: post → advances w site pre f post.
Proof.
  intros f Hinv Hfs. destruct (flying _ _ _ _ Hinv Hfs) as (t & Hat & Htr & Hseen & Harm & Hok).
  pose proof (ti_parts _ Hinv) as Hp. unfold advances, f. simpl. wp_step. unfold tw_state. wp_step.
  eapply wp_eq; [apply take_ready_eq|]. wp_step. simpl. rewrite wakes_in_batch.
  eapply waits_wp; [done|done|done|exact Hat|apply wait_wf_cleared, Hp|by intros e [? _]%entries_cleared|].
  split; [done|]. split; [|by split]. intros _ e He Hty Ho. simpl in He. apply entries_cleared in He as [He Hnot].
  exfalso. apply Hnot. simpl in Ho. rewrite <- Ho. by apply timer_waiter_ready.
Qed.

(** ** Calls of the deadline authority *)

(** What others hold is not the registration given up. *)
Lemma held_replaced w f reg old new e d flights wakes faulted o : o ≠ flight_object f →
  (∀ r, new = Some r → token_object (payload e) = flight_object f) →
  replaces dc_view old new e (tw_deadlines w) d → held w o reg →
  held (after_advance w f (tw_timers w, d, tw_waits w) flights wakes faulted) o reg.
Proof.
  intros Hne Hmine (Hfol & Hnew & Harm) [Hi Hobj]. split; [by apply Hfol|]. intros e'. unfold armed in *. simpl. rewrite Harm.
  destruct (decide (new = Some reg)) as [Heq|]; [by destruct (Hnew _ Heq)|].
  destruct (decide (old = Some reg)); [done|]. apply Hobj.
Qed.

Lemma way_replaced w f reg old new e d flights wakes faulted o g : o ≠ flight_object f →
  (∀ r, old = Some r → held w (flight_object f) r) →
  replaces dc_view old new e (tw_deadlines w) d → on_its_way w reg (tok w o g) →
  on_its_way (after_advance w f (tw_timers w, d, tw_waits w) flights wakes faulted) reg (tok w o g).
Proof.
  intros Hne Hold (Hfol & Hnew & Harm) [Hi Hway]. split; [by apply Hfol|]. unfold armed in *. simpl. rewrite Harm.
  destruct (decide (new = Some reg)) as [Heq|]; [by destruct (Hnew _ Heq)|].
  destruct (decide (old = Some reg)) as [Heq|]; [|done]. destruct (Hold _ Heq) as [_ Hobj]. unfold armed in Hobj.
  destruct (dv_armed _ _ reg) as [e'|]; [|done]. specialize (Hobj e' eq_refl). rewrite Hway in Hobj. by destruct Hne.
Qed.

(** A call of the authority leaves the timers and the waiters. *)
Lemma authority_inv w pre f post left old new e d t faulted : let o := flight_object f in
  let w' := after_advance w f (tw_timers w, d, tw_waits w) (pre ++ left :: post) [] faulted in
  (∀ x, x ∈ faulted → x = o) →
  timer_inv w → tw_flights w = pre ++ f :: post → flight_object left = o → timer_at (tw_timers w) o = Some t →
  (∀ r, old = Some r → held w o r) → replaces dc_view old new e (tw_deadlines w) d →
  (∀ r, new = Some r → tw_asked w (payload e) = deadline_ns e ∧ ∃ g, payload e = tok w o g) →
  timer_ok w' o t (Some left) → timer_inv w'.
Proof.
  intros o w' Hfault Hinv Hfs Hleft Hat Hold Hrep Hnew Hok. pose proof (ti_parts _ Hinv) as Hp.
  apply (advance_inv w pre f post (Some left) (Some t)); try done;
    [by intros f' [= <-]|by apply sets_timer_refl|apply Hrep| | | |apply Hp|by intros t' [= <-]].
  - intros reg e'. destruct Hrep as (_ & _ & Harm). unfold armed. simpl. rewrite Harm.
    destruct (decide (new = Some reg)) as [Heq|]; [|destruct (decide (old = Some reg)); [done|by left]].
    intros [= <-]. right. by eapply Hnew.
  - intros reg o' Hne. eapply held_replaced; [done| |done]. intros r Hr. by destruct (Hnew r Hr) as [_ [g ->]].
  - intros reg o' g Hne. by eapply way_replaced.
Qed.

(** A call that arms and disarms nothing. *)
Lemma idle_replaces w d e : idles dc_view (tw_deadlines w) d → replaces dc_view None None e (tw_deadlines w) d.
Proof. intros [Hf Ha]. split_and!; [done|done|]. intros reg. by rewrite !decide_False. Qed.

(** A failed call has changed nothing, or the Timer is faulted. *)
Lemma failed_inv w pre f post left old new e d t faulted : let o := flight_object f in
  let w' := after_advance w f (tw_timers w, d, tw_waits w) (pre ++ left :: post) [] faulted in
  (∀ x, x ∈ faulted → x = o) →
  timer_inv w → tw_flights w = pre ++ f :: post → flight_object left = o → timer_at (tw_timers w) o = Some t →
  (∀ r, old = Some r → held w o r) →
  idles dc_view (tw_deadlines w) d ∨ o ∈ faulted ∧ replaces dc_view old new e (tw_deadlines w) d →
  (∀ r, new = Some r → tw_asked w (payload e) = deadline_ns e ∧ ∃ g, payload e = tok w o g) →
  timer_ok w' o t (Some left) → timer_inv w'.
Proof.
  intros o w' Hfault Hinv Hfs Hleft Hat Hold [Hidle|[_ Hrep]] Hnew Hok; [|by eapply authority_inv].
  by apply (authority_inv _ _ _ _ _ None None {| deadline_ns := 0; payload := tok w o 0 |} _ t);
    [..|apply idle_replaces| |].
Qed.

(** Whatever the registration given up, no token appears but the new one. *)
Lemma replaced_bounded w f st flights wakes faulted old new e d o g g' : st = (tw_timers w, d, tw_waits w) →
  replaces dc_view old new e (tw_deadlines w) d → bounded w o g → g ≤ g' →
  (∀ r, new = Some r → token_generation (payload e) ≤ g') →
  bounded (after_advance w f st flights wakes faulted) o g'.
Proof.
  intros -> (_ & _ & Harm) Hb Hle Hnew Hsound.
  assert (sound w o) as Hs by (intros Hin; apply Hsound, elem_of_app; by right). specialize (Hb Hs).
  intros token [(reg & e' & Hreg & <-)|Hin] Ho.
  - unfold armed in Hreg. simpl in Hreg. rewrite Harm in Hreg. destruct (decide (new = Some reg)) as [Heq|].
    + injection Hreg as <-. by eapply Hnew.
    + destruct (decide (old = Some reg)); [done|]. etrans; [|exact Hle]. apply Hb; [left; by exists reg, e'|done].
  - etrans; [|exact Hle]. apply Hb; [by right|done].
Qed.

(** What a failed call leaves of the flight: nothing has changed, or the
    Timer is faulted. *)
Lemma failed_bounded w f flights wakes faulted d o g : idles dc_view (tw_deadlines w) d ∨ o ∈ faulted →
  bounded w o g → bounded (after_advance w f (tw_timers w, d, tw_waits w) flights wakes faulted) o g.
Proof.
  intros [Hidle|Hin] Hb; [|intros Hs; destruct Hs; apply elem_of_app; by left].
  by apply (replaced_bounded _ _ _ _ _ _ None None {| deadline_ns := 0; payload := tok w o 0 |} d _ g);
    [|apply idle_replaces| | |].
Qed.

Lemma failed_settled w f flights wakes faulted d g arm sig old new e : let o := flight_object f in
  idles dc_view (tw_deadlines w) d ∨ o ∈ faulted ∧ replaces dc_view old new e (tw_deadlines w) d →
  status_by w f o = tw_status w o → settled w o g arm sig →
  settled (after_advance w f (tw_timers w, d, tw_waits w) flights wakes faulted) o g arm sig.
Proof.
  intros o Hcase Hst [Hheld Htold]. split.
  - intros reg Hr. destruct (Hheld reg Hr) as [Hi Hobj]. destruct Hcase as [[Hfol Ha]|(_ & Hfol & Hnew & Ha)].
    + split; [by apply Hfol|]. intros e'. unfold armed in *. simpl. rewrite Ha. apply Hobj.
    + split; [by apply Hfol|]. intros e'. unfold armed in *. simpl. rewrite Ha.
      destruct (decide (new = Some reg)) as [Heq|]; [by destruct (Hnew _ Heq)|]. destruct (decide _); [done|apply Hobj].
  - intros Hs. destruct Hcase as [[Hfol Ha]|[Hin _]]; [|by destruct Hs; apply elem_of_app; left].
    assert (sound w o) as Hs' by (intros Hin; apply Hs, elem_of_app; by right). specialize (Htold Hs'). revert Htold.
    unfold told. simpl. rewrite Hst. change (tok (after_advance _ _ _ _ _ _) o g) with (tok w o g).
    destruct (tw_status w o) as [d'|]; [|done]. intros [Hd Harm]. split; [done|]. destruct arm as [reg|].
    + destruct Harm as [Hsig [Hi Hway]]. split; [done|]. split; [by apply Hfol|]. unfold armed in *. simpl. by rewrite Ha.
    + destruct Harm as [Hsig Hle]. split; [done|]. pose proof (fo_now _ _ _ Hfol). unfold now in *. simpl. lia.
Qed.

(** The flight [f] advances, unless the authority halts the machine. *)
Definition may_advance w site pre f post : Prop :=
  wlp (advance site f) (tw_state w)
    (λ r st, timer_inv (after_advance w f st (pre ++ option_list r.1 ++ post) r.2 (faulted_by site r.1))) (λ _ _, False).

Lemma setting_wlp w site pre key deadline g old was post : let f := Setting key deadline g old was in
  timer_inv w → tw_flights w = pre ++ f :: post → may_advance w site pre f post.
Proof.
  intros f Hinv Hfs. destruct (flying _ _ _ _ Hinv Hfs) as (t & Hat & Htr & Hseen & Harm & Hok).
  pose proof (ti_parts _ Hinv) as Hp. destruct Hok as (-> & Hwas & Hinf & Hask & Hb & Hs). pose proof Hs as [Hold _].
  set (e := {| deadline_ns := deadline; payload := tok w (flight_object f) (timer_generation t + 1) |}).
  assert (∀ (new : option DeadlineRegistration) r, new = Some r →
    tw_asked w (payload e) = deadline_ns e ∧ ∃ g, payload e = tok w (flight_object f) g) as Hmine by (intros; split; [done|by eexists]).
  pose proof (dc_replace site old deadline (payload e) _ (po_deadlines _ Hp) Hinf (λ r Hr, proj1 (Hold r Hr))) as Hrep.
  unfold may_advance, wlp. simpl. unfold mbind, M_bind, on_timers, on_deadlines, on_fst, on_snd, try, get, tw_state. simpl.
  unfold wlp in Hrep. cbn [flight_object f payload e] in Hrep. unfold tok in Hrep.
  destruct (@replace_timer_deadline _ _ _ _ _ _) as [d new|d error|]; [| |done]; simpl.
  - destruct Hrep as [Hrep Hnone]. pose proof Hrep as (Hfol & Hiss & Ha).
    eapply (authority_inv _ _ _ _ _ _ new e); [by intros x ?%elem_of_nil|done|exact Hfs|done|exact Hat|exact Hold|exact Hrep|by apply Hmine|].
    split; [done|]. split; [done|]. split; [done|]. simpl. split_and!; [done..| |].
    + eapply replaced_bounded; [done|exact Hrep|exact Hb|lia|]. simpl. lia.
    + destruct new as [reg|]; [|by apply Hnone]. split; [by apply Hiss|]. unfold armed. simpl.
      rewrite Ha, decide_True by done. simpl. f_equal. symmetry. exact Hask.
  - assert (∃ new, idles dc_view (tw_deadlines w) d ∨ timer_key_object key ∈ (if ds_programs site then [timer_key_object key] else []) ∧
      replaces dc_view old new e (tw_deadlines w) d) as [new Hcase].
    { destruct Hrep as [Hidle|[-> [new Hrep]]]; [by exists None; left|exists new; right; split; [by left|done]]. }
    eapply failed_inv; [by destruct (ds_programs site); set_solver|done|exact Hfs|done|exact Hat|exact Hold|exact Hcase|by apply Hmine|].
    split; [done|]. split; [done|]. split; [done|]. simpl. split_and!; [done..| |by eapply failed_settled].
    apply failed_bounded; [naive_solver|done].
Qed.

(** Cancelling an arm: the answer, and what it leaves. *)
Lemma cancel_arm_wlp w site old : parts_ok w → (∀ r, old = Some r → issued w r) →
  wlp (cancel_arm site old) (tw_state w)
    (λ answer st, ∃ d, st = (tw_timers w, d, tw_waits w) ∧
       match answer with
       | Ok _ => ∀ e, replaces dc_view old None e (tw_deadlines w) d
       | Err _ => is_Some old ∧ (idles dc_view (tw_deadlines w) d ∨
           ds_programs site = true ∧ ∀ e, replaces dc_view old None e (tw_deadlines w) d)
       end) (λ _ _, False).
Proof.
  intros Hp Hold. unfold cancel_arm. destruct old as [arm|].
  - pose proof (dc_cancel site arm _ (po_deadlines _ Hp) (Hold _ eq_refl)) as Hc.
    unfold wlp, on_deadlines, on_fst, on_snd, try, tw_state in *. simpl.
    destruct (@cancel_timer_deadline _ _ _ _) as [d []|d e|]; simpl; [by exists d|by exists d|done].
  - apply wlp_wp, wp_ret. exists (tw_deadlines w). split; [done|]. intros e. apply idle_replaces. split; [|done].
    by apply follows_refl.
Qed.

(** What the answer leaves, whichever of the two operations cancels. *)
Lemma cancelled_inv w site pre f post old d t (answer : Result unit TimerDeadlineError.t) left : let o := flight_object f in
  let faulted := match answer with Ok _ => [] | Err _ => if ds_programs site then [o] else [] end in
  let w' := after_advance w f (tw_timers w, d, tw_waits w) (pre ++ left :: post) [] faulted in
  timer_inv w → tw_flights w = pre ++ f :: post → flight_object left = o → timer_at (tw_timers w) o = Some t →
  bounded w o (timer_generation t) → settled w o (timer_generation t) old (timer_signaled t) → status_by w f o = tw_status w o →
  match answer with
  | Ok _ => ∀ e, replaces dc_view old None e (tw_deadlines w) d
  | Err _ => is_Some old ∧ (idles dc_view (tw_deadlines w) d ∨
      ds_programs site = true ∧ ∀ e, replaces dc_view old None e (tw_deadlines w) d)
  end →
  (bounded w' o (timer_generation t) →
   match old, answer with Some _, Err _ => settled w' o (timer_generation t) old (timer_signaled t) | _, _ => True end →
   timer_ok w' o t (Some left)) → timer_inv w'.
Proof.
  intros o faulted w' Hinv Hfs Hleft Hat Hb Hs Hst Hans Hok. pose proof Hs as [Hold _].
  set (e0 := {| deadline_ns := 0; payload := tok w o 0 |}).
  assert (∀ x, x ∈ faulted → x = o) as Hfault by (unfold faulted; destruct answer, (ds_programs site); set_solver).
  destruct answer as [u|e].
  - eapply (authority_inv _ _ _ _ _ old None e0); [done|done|exact Hfs|done|exact Hat|done|apply Hans|done|].
    apply Hok; [|by destruct old]. eapply (replaced_bounded _ _ _ _ _ _ _ None e0); [done|apply Hans|exact Hb|lia|done].
  - destruct Hans as [[arm ->] Hcase].
    assert (idles dc_view (tw_deadlines w) d ∨ o ∈ faulted ∧ replaces dc_view (Some arm) None e0 (tw_deadlines w) d) as Hcase'.
    { destruct Hcase as [Hidle|[Hpr Hrep]]; [by left|]. right. split; [unfold faulted; rewrite Hpr; by left|apply Hrep]. }
    eapply failed_inv; [done|done|exact Hfs|done|exact Hat|exact Hold|exact Hcase'|done|].
    apply Hok; [apply failed_bounded; [naive_solver|done]|by eapply failed_settled].
Qed.

Lemma cancelling_wlp w site pre key old was next post : let f := Cancelling key old was next in
  timer_inv w → tw_flights w = pre ++ f :: post → may_advance w site pre f post.
Proof.
  intros f Hinv Hfs. destruct (flying _ _ _ _ Hinv Hfs) as (t & Hat & Htr & Hseen & Harm & Hwas & Hnext & Hb & Hs).
  pose proof Hs as [Hold _]. unfold may_advance. simpl. wlp_step.
  eapply wlp_mono; [apply cancel_arm_wlp; [apply Hinv|intros r Hr; by apply Hold]| |done].
  intros answer st (d & -> & Hans). wlp_step. simpl. subst was.
  pose proof (cancelled_inv w site pre f post old d t answer (CancelAnswered key old (timer_signaled t) next answer)
    Hinv Hfs eq_refl Hat Hb Hs eq_refl Hans) as Hdone.
  destruct answer; apply Hdone; intros Hb' Hs'; by repeat (split; [done|]).
Qed.

Lemma finalizing_wlp w site pre fr old post : let f := Finalizing fr old in
  timer_inv w → tw_flights w = pre ++ f :: post → may_advance w site pre f post.
Proof.
  intros f Hinv Hfs. destruct (flying _ _ _ _ Hinv Hfs) as (t & Hat & Htr & Hseen & Harm & Hb & Hs).
  pose proof Hs as [Hold _]. unfold may_advance. simpl. wlp_step.
  eapply wlp_mono; [apply cancel_arm_wlp; [apply Hinv|intros r Hr; by apply Hold]| |done].
  intros answer st (d & -> & Hans). wlp_step. simpl.
  pose proof (cancelled_inv w site pre f post old d t answer (FinalAnswered fr old answer)
    Hinv Hfs eq_refl Hat Hb Hs eq_refl Hans) as Hdone.
  destruct answer; apply Hdone; intros Hb' Hs'; by repeat (split; [done|]).
Qed.

(** ** Every flight *)

(** The flight's next step is a call of the authority. *)
Definition asks_authority f : bool :=
  match f with Setting _ _ _ _ _ | Cancelling _ _ _ _ | Finalizing _ _ => true | _ => false end.

Lemma advance_total w site pre f post : timer_inv w → tw_flights w = pre ++ f :: post → asks_authority f = false →
  advances w site pre f post.
Proof.
  intros Hinv Hfs Hask.
  destruct f as [|key d g old was [new|e]|key g|key g| |key [arm|] was next [u|e]| |fr [arm|] [u|e]]; try done.
  - by apply set_committed_wp.
  - by apply set_restored_wp.
  - by apply set_ready_wp.
  - by apply set_taken_wp.
  - by apply cancel_committed_wp.
  - by apply cancel_restored_wp.
  - by apply cancel_committed_wp.
  - by apply cancel_committed_wp.
  - by apply final_committed_wp.
  - by apply final_restored_wp.
  - by apply final_committed_wp.
  - by apply final_committed_wp.
Qed.

Lemma advance_wlp w site pre f post : timer_inv w → tw_flights w = pre ++ f :: post → may_advance w site pre f post.
Proof.
  intros Hinv Hfs. destruct (asks_authority f) eqn:Hask; [|by apply wlp_wp, advance_total].
  destruct f; try done; [by apply setting_wlp|by apply cancelling_wlp|by apply finalizing_wlp].
Qed.

(** ** The service of the inbox *)

Lemma sets_timer_trans (self self1 self2 : TimerAuthority.t) o (t1 t2 : option TimerRecord) : timers_wf self →
  sets_timer self o t1 self1 → sets_timer self1 o t2 self2 → sets_timer self o t2 self2.
Proof.
  intros Hwf [Hd1 Hw1 Ha1] [Hd2 Hw2 Ha2]. split; [congruence|auto|]. intros _ o'. rewrite Ha2, Ha1 by auto. by case_decide.
Qed.

(** The Timer of the current token is signalled, and its waiters are woken. *)
Lemma fired_inv w token inbox timers t reg : let o := token_object token in
  let wakes := intent (tw_waits w) o DW_SIGNAL_SIGNALED <$> ready_keys o DW_SIGNAL_SIGNALED (WaitRegistry.slots (tw_waits w)) in
  timer_inv w → token ∈ omap id (tw_inbox w) → free_timer (tw_timers w) o t → timer_arm t = Some reg →
  timer_generation t = token_generation token →
  (∀ x, x ∈ omap id inbox → x ∈ omap id (tw_inbox w)) → (∀ x, x ≠ token → x ∈ omap id (tw_inbox w) → x ∈ omap id inbox) →
  sets_timer (tw_timers w) o (Some (with_fields t (timer_generation t) None true None)) timers →
  timer_inv (after_service w inbox timers (tw_waits w) wakes).
Proof.
  intros o wakes Hinv Hin Hfree Harm Hgen Hsub Hkeep Hset. pose proof (ti_parts _ Hinv) as Hp. pose proof Hp as [].
  set (w' := after_service w inbox timers (tw_waits w) wakes).
  assert (∀ x, x ∈ handed w' → x ∈ handed w) as Hless by (intros x; unfold handed; rewrite !elem_of_app; naive_solver).
  assert (∀ x, x ≠ token → x ∈ handed w → x ∈ handed w') as Hmore by (intros x Hx; unfold handed; rewrite !elem_of_app; naive_solver).
  assert (token ∈ handed w) as Hhand by (apply elem_of_app; by right).
  assert (∀ x, queued w' x → queued w x) as Hq by (intros x [Hreg|Hx]; [by left|right; by apply Hless]).
  assert (domain timers = domain (tw_timers w)) as Hdom by apply Hset.
  assert (token = tok w o (timer_generation t)) as Htok.
  { destruct (po_queued token (or_intror Hhand)) as [_ Hd]. unfold tok, token_of, o. destruct token. simpl in *. congruence. }
  apply (inv_step w _ o (Some (with_fields t (timer_generation t) None true None))); [done| |done|done| |].
  - split; simpl; try done.
    + by apply Hset.
    + intros f Hf. rewrite (st_at _ _ _ _ Hset) by done. case_decide; [done|by apply po_owned].
    + intros o'. rewrite (st_at _ _ _ _ Hset) by done. case_decide as Hd; [|by apply po_known].
      intros _. subst o'. apply po_known. by rewrite (proj1 Hfree).
    + intros x [Hk Hd]%Hq%po_queued. split; [done|congruence].
    + intros x Hx%Hless. by apply po_inbox.
  - intros o' Hne. split; try done; [|intros x _; apply Hq|].
    + intros r g [Hi Hway]. split; [done|]. change (armed w' r) with (armed w r). destruct (armed w r); [done|].
      apply Hmore; [|done]. intros Heq. apply Hne. unfold o. by rewrite <- Heq.
    + intros Hw e He Hty Ho. apply elem_of_app. right. by apply Hw.
  - intros t' f [= <-] Hown. destruct (free_owner _ _ _ f Hinv Hfree Hown) as [-> (_ & _ & Hb & [_ Hs])].
    split; [done|]. split; [|split; [intros Hsound x Hx; by apply Hb, Hq|split; [done|]]].
    + intros _ e He Hty Ho. simpl. unfold wakes. rewrite intents_wakes. apply elem_of_app. left. rewrite <- Ho.
      by apply timer_waiter_ready.
    + intros Hsound. specialize (Hs Hsound). unfold told in *. simpl. rewrite (calm_tok w w') by done. rewrite Harm in Hs.
      destruct (tw_status w o) as [d|]; [|by destruct Hs]. destruct Hs as [Hd _]. split; [done|]. split; [done|].
      rewrite <- Hd, <- Htok. by apply po_inbox.
Qed.

(** No Timer comes or goes. *)
Definition same_timers (self self' : TimerAuthority.t) : Prop := ∀ o, is_Some (timer_at self' o) ↔ is_Some (timer_at self o).

(** One token of the inbox: under the runtime lock [expire] returns. *)
Lemma expire_serves_wp w token rest : timer_inv w → tw_flights w = [] → tw_inbox w = Some <$> token :: rest →
  wp (expire token) (tw_timers w, tw_waits w)
    (λ batch st, same_timers (tw_timers w) st.1 ∧
       timer_inv (after_service w (Some <$> rest) st.1 st.2 (wakes_in batch))) (λ _ _, False).
Proof.
  intros Hinv Hfs Hbox. pose proof (ti_parts _ Hinv) as Hp.
  assert (∀ x, x ∈ omap id (tw_inbox w) ↔ x = token ∨ x ∈ omap id (Some <$> rest)) as Hh.
  { intros x. rewrite Hbox. csimpl. by rewrite elem_of_cons. }
  destruct (po_queued _ Hp token) as [_ Hdom]; [right; apply elem_of_app; right; apply Hh; by left|].
  unfold expire. wp_step. wp_step. eapply wp_mono; [by apply stage_expire_wp| |].
  - intros [o|] timers1; [intros (-> & t & reg & Hfree & Harm & Hgen & Hset)|intros [-> Hstale]].
    + wp_step. wp_step. eapply wp_eq; [apply ready_wakes_eq|]. wp_step. wp_step.
      eapply wp_mono; [eapply (commit_expire_wp (token_object token) token)| |done].
      { by rewrite (st_at _ _ _ _ Hset (po_timers _ Hp)), decide_True. }
      { done. }
      intros [] timers2 Hset2. pose proof (sets_timer_trans _ _ _ _ _ _ (po_timers _ Hp) Hset Hset2) as Hset'.
      wp_step. simpl. rewrite wakes_in_batch. split.
      { intros o. rewrite (st_at _ _ _ _ Hset' (po_timers _ Hp)). case_decide; [|done]. subst o. by rewrite (proj1 Hfree). }
      eapply fired_inv; [done|apply Hh; by left|exact Hfree|exact Harm|exact Hgen|..].
      * intros x Hx. apply Hh. by right.
      * intros x Hne [->|Hx]%Hh; done.
      * exact Hset'.
    + do 4 wp_step. simpl. rewrite batch_of_empty, wakes_in_batch. split; [done|].
      eapply (drop_inv w (Some <$> rest) token); [done|..|done].
      * intros x Hx. apply Hh. by right.
      * intros x Hne [->|Hx]%Hh; done.
  - intros error timers1 (_ & _ & t & Hat & Htr). destruct (owner_exists (tw_flights w) (token_object token)) as [f Hown].
    pose proof (ti_timers _ Hinv _ _ _ Hat Hown) as [Htr' _]. rewrite Htr' in Htr. destruct f as [f|]; [|by destruct Htr].
    destruct Hown as [Hin _]. rewrite Hfs in Hin. by apply elem_of_nil in Hin.
Qed.

(** The list of those woken matters as a set. *)
Lemma woken_inv w woken : timer_inv w → (∀ k, k ∈ tw_woken w → k ∈ woken) →
  timer_inv {| tw_timers := tw_timers w; tw_deadlines := tw_deadlines w; tw_waits := tw_waits w;
    tw_flights := tw_flights w; tw_detached := tw_detached w; tw_inbox := tw_inbox w; tw_woken := woken; tw_asked := tw_asked w;
    tw_status := tw_status w; tw_known := tw_known w; tw_faulted := tw_faulted w |}.
Proof.
  intros Hinv Hsub. pose proof (ti_parts _ Hinv) as []. apply (inv_quiet_step w); [done|by split|done|done|].
  intros o. split; try done. intros Hw e He Hty Ho. by apply Hsub, Hw.
Qed.

Lemma expire_pending_wp tokens : ∀ w, timer_inv w → tw_flights w = [] → tw_inbox w = Some <$> tokens →
  wp (expire_pending tokens) (tw_timers w, tw_waits w)
    (λ wakes st, same_timers (tw_timers w) st.1 ∧ timer_inv (after_service w [] st.1 st.2 wakes)) (λ _ _, False).
Proof.
  unfold expire_pending. intros w.
  assert (∀ served, timer_inv w → tw_flights w = [] → tw_inbox w = Some <$> tokens →
    wp (E:=Empty_set) (for_each tokens (λ token served, wakes ← unwrap (expire token); mret (served ++ wakes_in wakes)) served)
      (tw_timers w, tw_waits w)
      (λ wakes st, ∃ more, wakes = served ++ more ∧ same_timers (tw_timers w) st.1 ∧ timer_inv (after_service w [] st.1 st.2 more)) (λ _ _, False)) as Hgen.
  { revert w. induction tokens as [|token tokens IH]; intros w served Hinv Hfs Hbox; simpl.
    - wp_step. exists []. split; [by rewrite app_nil_r|]. split; [done|]. destruct w. simpl in *. by subst.
    - wp_step. wp_step. wp_step. eapply wp_mono; [by eapply expire_serves_wp| |done]. intros batch [timers waits] [Hsame1 Hinv1]. wp_step.
      set (w1 := after_service w (Some <$> tokens) timers waits (wakes_in batch)) in *.
      eapply wp_mono; [exact (IH w1 (served ++ wakes_in batch) Hinv1 Hfs eq_refl)| |done].
      intros wakes [timers2 waits2] (more & -> & Hsame2 & Hinv2). exists (wakes_in batch ++ more).
      split; [by rewrite app_assoc|]. split; [intros o; etrans; [apply Hsame2|apply Hsame1]|].
      apply (woken_inv _ ((intent_wake <$> wakes_in batch ++ more) ++ tw_woken w)) in Hinv2; [exact Hinv2|].
      intros k. simpl. rewrite fmap_app, !elem_of_app. tauto. }
  intros Hinv Hfs Hbox. eapply wp_mono; [by apply (Hgen [])| |done]. intros wakes st (more & -> & Hdone). exact Hdone.
Qed.

(** The service returns: no token finds a Timer in transition. *)
Lemma service_wp w : timer_inv w → tw_flights w = [] →
  wp service_pending_timer_expiries (tw_inbox w, (tw_timers w, tw_waits w))
    (λ wakes st, st.1 = replicate DEADLINE_QUEUE_CAPACITY None ∧ same_timers (tw_timers w) st.2.1 ∧
       timer_inv (after_service w st.1 st.2.1 st.2.2 wakes)) (λ _ _, False).
Proof.
  intros Hinv Hfs. unfold service_pending_timer_expiries. do 5 wp_step.
  assert (∀ xs : list TimerExpiryToken, omap id (Some <$> xs) = xs) as Hid by (intros xs; induction xs; csimpl; congruence).
  pose proof (follows_refl _ (ti_parts _ Hinv)) as Hfol. set (pending := omap id (tw_inbox w)).
  assert (timer_inv (with_deadlines w (tw_deadlines w) (tw_detached w) (Some <$> pending))) as Hinv1.
  { apply idle_inv; [done|by split|]. intros x. by rewrite Hid. }
  do 2 wp_step. eapply wp_mono; [exact (expire_pending_wp pending _ Hinv1 Hfs eq_refl)| |done].
  intros wakes [timers waits] [Hsame Hinv2]. split; [done|]. split; [exact Hsame|].
  apply (idle_inv _ (tw_deadlines w) (tw_detached w) (replicate DEADLINE_QUEUE_CAPACITY None)) in Hinv2;
    [exact Hinv2|by split|]. done.
Qed.

(** Every step keeps the invariant. *)
Lemma timer_step_inv w w' : timer_inv w → timer_step D w w' → timer_inv w'.
Proof.
  intros Hinv Hstep. pose proof (po_deadlines _ (ti_parts _ Hinv)) as Hd.
  destruct Hstep as [w creation timers binding Hnew Hbind|w c timers f Hc|w site pre f post st left wakes Hfs Hadv|
    w d tokens Hnone Hint|w token tokens inbox Hdet Hexp|w inbox timers waits wakes Hfs _ Hrun|w d Helse|w target desired i thread wake st outcome Hu Hreg|
    w op waits moved Hty Hex].
  - by eapply create_inv.
  - destruct c; [by eapply set_inv|by eapply cancel_inv|by eapply finalize_inv].
  - pose proof (advance_wlp _ site _ _ _ Hinv Hfs) as Hw. unfold may_advance, wlp in Hw. by rewrite Hadv in Hw.
  - pose proof (dc_interrupt _ Hd) as Hw. unfold wlp in Hw. rewrite Hint in Hw. eapply deliver_inv; [done|done|].
    intros x. unfold handed. rewrite Hnone, !elem_of_app, elem_of_nil. tauto.
  - apply idle_inv; [done|by split; [apply follows_refl, Hinv|]|].
    pose proof (expire_timer_wlp token (tw_inbox w)) as Hb. unfold wlp in Hb. rewrite Hexp in Hb. destruct Hb as [_ Hp].
    intros x. unfold handed. rewrite Hdet, !elem_of_app, Hp, !elem_of_cons. tauto.
  - destruct (wp_Ret _ _ _ _ _ _ (service_wp _ Hinv Hfs) Hrun) as (_ & _ & Hinv'). exact Hinv'.
  - apply idle_inv; [done|by apply dc_elsewhere|done].
  - by eapply register_inv.
  - by eapply waits_inv.
Qed.

Lemma start_inv domain n d waits : dv_ok dc_view d → (∀ reg, dv_armed dc_view d reg = None) → wait_wf waits →
  WaitRegistry.entries waits = [] → timer_inv (start domain n d waits).
Proof.
  intros Hok Harm Hwf Hent. assert (∀ o, timer_at (tw_timers (start domain n d waits)) o = None) as Hno.
  { intros o. unfold timer_at. destruct (find _ _) as [[i t]|] eqn:Hf; [|done]. exfalso.
    apply find_timer_spec in Hf as (Hi & _). simpl in Hi. apply lookup_replicate in Hi as [? _]. done. }
  assert (∀ token, ¬ queued (start domain n d waits) token) as Hq.
  { intros token [(reg & e & Hreg & _)|Hin]; [|by apply elem_of_nil in Hin]. unfold armed in Hreg. simpl in Hreg.
    by rewrite Harm in Hreg. }
  split; [split|]; simpl; try done.
  - intros i j t t' Hi. simpl in Hi. by apply lookup_replicate in Hi as [? _].
  - by apply list.NoDup_nil.
  - by intros f ?%elem_of_nil.
  - intros o. by rewrite Hno; intros [].
  - by intros token ?%Hq.
  - intros reg e Hreg. unfold armed in Hreg. simpl in Hreg. by rewrite Harm in Hreg.
  - by intros token ?%elem_of_nil.
  - rewrite Hent. by intros e ?%elem_of_nil.
  - intros o t f Hat. by rewrite Hno in Hat.
Qed.
End advance.
