(* ===== verification/LiveTimer.v ===== *)
(** * The kernel's deadlines keep the Timers' contract

    [LiveTimerDeadlineAuthority] ([kernel/src/time/live.rs]) on every CPU.
    The bootstrap CPU is the one that programs the hardware: there a call may
    fail after its change of the deadlines. *)

From stdpp Require Import base tactics numbers list.
From Stdlib Require Import ZArith Lia.
From S2P Require Import Prelude Abi Object HandleTable Cpu Wait WaitFacts Clock ClockTheorems Deadline DeadlineFacts Timer LiveTime LiveTimeFacts LiveTimeTheorems TimerContract.
Local Open Scope Z_scope.

(** ** The clock *)

(** The last sample shows the ticks counted. *)
Definition clock_ok (c : LiveClockState) : Prop :=
  0 ≤ PmTimerState.extended_ticks (pm c) ∧ nanoseconds (last_sample c) = ns_of (PmTimerState.extended_ticks (pm c)).

Definition live_now (l : live) : Z := nanoseconds (last_sample (clock l)).

(** The clock has not gone back. *)
Definition clock_moves (c c' : LiveClockState) : Prop :=
  clock_ok c' ∧ nanoseconds (last_sample c) ≤ nanoseconds (last_sample c').

Lemma clock_moves_trans c c1 c2 : clock_moves c c1 → clock_moves c1 c2 → clock_moves c c2.
Proof. intros [_ Hn] [Hok Hn']. split; [done|lia]. Qed.

Lemma sample_now_moves raw c : clock_ok c →
  wlp (sample_now raw) c (λ sample c', clock_moves c c' ∧ nanoseconds (last_sample c') = nanoseconds sample) (λ _ c', c' = c).
Proof.
  intros [H0 Hns]. unfold sample_now. wlp_step. do 2 wlp_step. unfold PmTimerState.sample. do 2 wlp_step. cbv beta zeta.
  set (delta := Z.land (wrapping_sub _ _ _) _). assert (0 ≤ delta) as Hdelta.
  { apply Z.land_nonneg. right. by destruct (PmTimerDescriptor.width _). }
  wlp_step; [wlp_step; by destruct c|]. wlp_step. unfold checked_add.
  destruct (Z.ltb_spec (PmTimerState.extended_ticks (pm c) + delta) (2 ^ 64)); apply wlp_wp, wp_ok_or; [|by destruct c].
  wlp_step. apply wlp_wp, wp_lift. rewrite ticks_to_nanoseconds_spec by lia. destruct (ns_of _ <? _); [|by destruct c].
  wlp_step. apply wlp_wp, wp_lift. destruct (PmTimerDescriptor.maintenance_arm_nanoseconds _); [|by destruct c].
  wlp_step. apply wlp_wp, wp_ok_or. destruct (filter_option _ _); [|by destruct c]. do 5 wlp_step.
  split; [|done]. split; [split; [simpl; lia|done]|]. simpl. rewrite Hns. unfold ns_of.
  apply Z.div_le_mono; [done|]. unfold NANOS_PER_SECOND. lia.
Qed.

Lemma clock_moves_refl c : clock_ok c → clock_moves c c.
Proof. intros Hc. split; [done|lia]. Qed.

(** ** What leaves the timer queue alone *)

Definition keeps (l l' : live) : Prop :=
  timer_deadlines (time l') = timer_deadlines (time l) ∧ clock_moves (clock l) (clock l').

Lemma keeps_refl l : clock_ok (clock l) → keeps l l.
Proof. intros Hc. split; [done|by apply clock_moves_refl]. Qed.

Lemma keeps_trans l l1 l2 : keeps l l1 → keeps l1 l2 → keeps l l2.
Proof. intros [Ht Hc] [Ht' Hc']. split; [congruence|by eapply clock_moves_trans]. Qed.

Definition framed {E A} (m : M live E A) : Prop :=
  ∀ l, clock_ok (clock l) → wlp m l (λ _ l', keeps l l') (λ _ l', keeps l l').

Section framed.
Context {E : Type}.

Lemma framed_ret {A} (a : A) : framed (E:=E) (mret a).
Proof. intros l Hc. by apply wlp_wp, wp_ret, keeps_refl. Qed.

Lemma framed_fail {A} (e : E) : framed (A:=A) (fail e).
Proof. intros l Hc. by apply wlp_wp, wp_fail, keeps_refl. Qed.

Lemma framed_get : framed (E:=E) get.
Proof. intros l Hc. by apply wlp_wp, wp_get, keeps_refl. Qed.

Lemma framed_lift {A} (r : Result A E) : framed (lift r).
Proof. intros l Hc. apply wlp_wp, wp_lift. by destruct r; apply keeps_refl. Qed.

Lemma framed_assert b : framed (E:=E) (assert_that b).
Proof. intros l Hc. unfold wlp, assert_that. by destruct b; [apply keeps_refl|]. Qed.

Lemma framed_bind {A B} (m : M live E A) (f : A → M live E B) : framed m → (∀ a, framed (f a)) → framed (m ≫= f).
Proof.
  intros Hm Hf l Hc. apply wlp_bind. eapply wlp_mono; [by apply Hm| |done]. intros a l1 H1.
  eapply wlp_mono; [apply Hf, H1| |]; intros ? l2 H2; exact (keeps_trans _ _ _ H1 H2).
Qed.

Lemma framed_map_err {E' A} (g : E' → E) (m : M live E' A) : framed m → framed (map_err g m).
Proof. intros Hm l Hc. by apply wlp_map_err, Hm. Qed.

Lemma framed_unwrap {E' A} (m : M live E' A) : framed m → framed (E:=E) (unwrap m).
Proof. intros Hm l Hc. apply wlp_unwrap. by eapply wlp_mono; [apply Hm| |]. Qed.

Lemma framed_try {E' A} (m : M live E' A) : framed m → framed (E:=E) (try m).
Proof. intros Hm l Hc. specialize (Hm l Hc). unfold wlp, try in *. by destruct (m l). Qed.

(** Calls on the other parts. *)
Lemma framed_part {P A} (part : LiveTimeState → P) with_part (m : M P E A) :
  (∀ p s, timer_deadlines (with_part p s) = timer_deadlines s) → framed (on_time (on_part part with_part m)).
Proof.
  intros Hw l Hc. do 2 apply wlp_on_part. unfold wlp. destruct (m _); [split; [apply Hw|by apply clock_moves_refl]..|done].
Qed.

Lemma framed_arms {A} (m : M PhysicalArmSequence.t E A) : framed (on_hardware_arms m).
Proof. by apply framed_part. Qed.

Lemma framed_quantum {A} (m : M (LocalDeadlineSource.t SchedulerQuantumTicket) E A) : framed (on_scheduler_quantum m).
Proof. by apply framed_part. Qed.

Lemma framed_deadlines {A} (m : M (DeadlineQueue.t BlockWakeKey) E A) : framed (on_deadline_queue m).
Proof. by apply framed_part. Qed.

Lemma framed_record : framed (E:=E) record_source_mutation.
Proof. apply framed_arms. Qed.
End framed.

Lemma framed_sample : framed sample_clock_now.
Proof.
  intros l Hc. unfold sample_clock_now. do 2 wlp_step. apply wlp_on_part.
  eapply wlp_mono; [by apply sample_now_moves| |].
  - intros sample c [Hm _]. by split.
  - intros e c ->. split; [done|by apply clock_moves_refl].
Qed.

Lemma framed_program answer count : framed (program_one_shot_timer answer count).
Proof. apply framed_bind; [apply framed_lift|]. intros _ l Hc. apply wlp_wp, wp_modify. split; [done|by apply clock_moves_refl]. Qed.

Create HintDb framed.
#[export] Hint Resolve framed_ret framed_fail framed_get framed_lift framed_assert framed_bind framed_map_err
  framed_unwrap framed_try framed_arms framed_quantum framed_deadlines framed_record framed_sample framed_program : framed.

Ltac frame := repeat first
  [ progress (auto with framed nocore)
  | apply framed_bind; [|intros ?]
  | apply framed_try
  | apply framed_map_err
  | apply framed_unwrap
  | case_match ].

Lemma framed_turn turn : framed (before_prepare turn) → framed (before_commit turn) → framed (reconcile_turn turn).
Proof. intros Hb Ha. unfold reconcile_turn, prepare_hardware_arm. frame. Qed.

Lemma framed_turns turns : Forall (λ turn, framed (reconcile_turn turn)) turns → framed (reconcile_turns turns).
Proof. induction 1; simpl; frame. Qed.

(** The operations that are not about Timers. *)
Definition not_timers (op : live_op) : bool :=
  match op with ReplaceTimer _ _ _ | CancelTimer _ | Interrupt => false | _ => true end.

Lemma framed_op op : not_timers op = true → framed (run_op op).
Proof.
  destruct op; intros Hop; try done; unfold run_op, attempt.
  - unfold register_deadline. frame.
  - unfold cancel_deadline. frame.
  - unfold arm_scheduler_quantum. frame.
  - unfold cancel_scheduler_quantum. frame.
  - unfold take_due_scheduler_quantum. frame.
  - apply framed_bind; [apply framed_try, framed_turn; simpl; frame|frame].
Qed.

(** ** The view *)

Abbreviation tq l := (timer_deadlines (time l)) (only parsing).

Definition live_ok (l : live) : Prop :=
  queue_wf (tq l) ∧ length (DeadlineQueue.slots (tq l)) = DEADLINE_QUEUE_CAPACITY ∧ clock_ok (clock l).

Definition live_view : deadline_view live :=
  {| dv_ok := live_ok;
     dv_now := live_now;
     dv_issued l reg := registration_domain reg = DeadlineQueue.domain (tq l) ∧ issued (tq l) (key_of reg);
     dv_armed l reg := if registration_domain reg =? DeadlineQueue.domain (tq l) then at_key (tq l) (key_of reg) else None |}.

Lemma keeps_idles l l' : live_ok l → keeps l l' → idles live_view l l'.
Proof.
  intros (Hq & Hlen & _) [Ht [Hok Hn]]. split; [split|]; simpl.
  - unfold live_ok. by rewrite Ht.
  - done.
  - by rewrite Ht.
  - by rewrite Ht.
Qed.

Lemma key_of_inj r r' : registration_domain r = registration_domain r' → key_of r = key_of r' → r = r'.
Proof. destruct r, r'. unfold key_of. simpl. intros -> [= -> ->]. done. Qed.

(** The queue after a call, as the view sees it. *)
Record exchanges (q : DeadlineQueue.t TimerExpiryToken) (old new : option DeadlineRegistration)
    (e : DeadlineEntry TimerExpiryToken) (q' : DeadlineQueue.t TimerExpiryToken) : Prop := {
  ex_wf : queue_wf q';
  ex_domain : DeadlineQueue.domain q' = DeadlineQueue.domain q;
  ex_length : length (DeadlineQueue.slots q') = length (DeadlineQueue.slots q);
  ex_issued k : issued q k → issued q' k;
  ex_new r : new = Some r → registration_domain r = DeadlineQueue.domain q ∧ issued q' (key_of r) ∧ ¬ issued q (key_of r);
  ex_at k : at_key q' k = if decide (key_of <$> new = Some k) then Some e
                          else if decide (key_of <$> old = Some k) then None else at_key q k;
}.

Lemma exchanges_replaces l l' old new e : live_ok l →
  (∀ r, old = Some r → registration_domain r = DeadlineQueue.domain (tq l)) →
  exchanges (tq l) old new e (tq l') → clock_moves (clock l) (clock l') → replaces live_view old new e l l'.
Proof.
  intros (Hq & Hlen & _) Hold [Hwf Hd Hl Hi Hn Hat] [Hc Hnow]. split_and!.
  - split; simpl; [by split_and!; [|congruence|]|done|]. rewrite Hd. intros reg [? ?]. auto.
  - intros reg Hr. destruct (Hn _ Hr) as (Hdom & His & Hnot). simpl. rewrite Hd. naive_solver.
  - intros reg. simpl. rewrite Hd. destruct (Z.eqb_spec (registration_domain reg) (DeadlineQueue.domain (tq l))) as [Hdr|Hdr].
    + rewrite Hat. assert (∀ o : option DeadlineRegistration, (∀ r, o = Some r → registration_domain r = DeadlineQueue.domain (tq l)) →
        key_of <$> o = Some (key_of reg) ↔ o = Some reg) as Hkey.
      { intros o Ho. split; [|by intros ->]. destruct o as [r|]; [|done]. intros [= Hk]. f_equal.
        apply key_of_inj; [|by unfold key_of; congruence]. rewrite Hdr. by apply Ho. }
      rewrite (decide_ext _ _ _ _ (Hkey new (λ r Hr, proj1 (Hn r Hr)))), (decide_ext _ _ _ _ (Hkey old Hold)). done.
    + rewrite !decide_False; [done|..].
      * intros Heq. apply Hdr. by apply Hold.
      * intros Heq. apply Hdr. by apply (Hn reg).
Qed.

Lemma removes_exchanges q reg q' e : removes q (key_of reg) q' → exchanges q (Some reg) None e q'.
Proof.
  intros [Hwf Hd Hl Hi Hat]. split; try done; [by intros k ?%Hi|]. intros k. rewrite Hat. simpl.
  repeat case_decide; congruence.
Qed.

Lemma adds_exchanges q r e q' : registration_domain r = DeadlineQueue.domain q → adds q (key_of r) e q' → exchanges q None (Some r) e q'.
Proof.
  intros Hdom [Hwf Hd Hl Hf Hi Hn Hat]. split; try done; [by intros ? [= <-]|]. intros k. rewrite Hat. simpl.
  repeat case_decide; congruence.
Qed.

Lemma moves_exchanges q old r e q' : registration_domain r = DeadlineQueue.domain q →
  moves q (key_of old) (key_of r) e q' → exchanges q (Some old) (Some r) e q'.
Proof.
  intros Hdom (q1 & Hrm & Had). destruct Hrm as [Hwf1 Hd1 Hl1 Hi1 Hat1]. destruct Had as [Hwf Hd Hl Hf Hi Hn Hat].
  split; try congruence; [by intros k ?%Hi1%Hi| |].
  - intros ? [= <-]. split_and!; [done..|]. by intros ?%Hi1.
  - intros k. rewrite Hat, Hat1. simpl. repeat case_decide; congruence.
Qed.

(** ** The operations *)

Lemma on_timer_queue_wlp {E A} (m : M (DeadlineQueue.t TimerExpiryToken) E A) l Q R :
  wlp m (tq l) (λ a q', ∀ l', tq l' = q' → clock l' = clock l → Q a l')
    (λ e q', ∀ l', tq l' = q' → clock l' = clock l → R e l') → wlp (on_timer_queue m) l Q R.
Proof.
  intros Hm. unfold on_timer_queue, on_time. do 2 apply wlp_on_part. eapply wlp_mono; [exact Hm|..]; intros x q' Hq; by apply Hq.
Qed.

Lemma sample_live l : clock_ok (clock l) →
  wlp sample_clock_now l (λ sample l', keeps l l' ∧ live_now l' = nanoseconds sample) (λ _ l', keeps l l').
Proof.
  intros Hc. unfold sample_clock_now. do 2 wlp_step. apply wlp_on_part.
  eapply wlp_mono; [by apply sample_now_moves| |].
  - intros sample c [Hm Heq]. split; [by split|exact Heq].
  - intros e c ->. split; [done|by apply clock_moves_refl].
Qed.

Lemma keeps_ok l l' : live_ok l → keeps l l' → live_ok l'.
Proof. intros (Hq & Hlen & _) [Ht [Hc _]]. unfold live_ok. by rewrite Ht. Qed.

(** After the queue was changed, the mark is set. *)
Lemma record_keeps {E} l (R : E → live → Prop) : clock_ok (clock l) →
  wlp record_source_mutation l (λ _ l', keeps l l') R.
Proof.
  intros Hc. pose proof (framed_record (E:=Empty_set) l Hc) as Hm. unfold wlp, record_source_mutation, on_hardware_arms, on_time, on_part, unwrap in *.
  by destruct (PhysicalArmSequence.source_mutated _).
Qed.

Lemma changed_replaces l l1 l2 l' old new e : live_ok l →
  (∀ r, old = Some r → dv_issued live_view l r) → keeps l l1 →
  exchanges (tq l1) old new e (tq l2) → clock l2 = clock l1 → keeps l2 l' →
  replaces live_view old new e l l' ∧ live_now l1 ≤ live_now l'.
Proof.
  intros Hok Hold [Ht Hc] Hex Heq [Ht' Hc']. rewrite Heq in Hc'. split; [|apply Hc'].
  apply exchanges_replaces; [done|intros r Hr; by apply Hold|by rewrite Ht', <- Ht|by eapply clock_moves_trans].
Qed.

(** The old registration is given up for none. *)
Lemma given_up_wlp {E} (g : DeadlineQueueError.t → E) l l1 reg : live_ok l → dv_issued live_view l reg → keeps l l1 →
  wlp (cancelled ← on_timer_queue (map_err g (DeadlineQueue.cancel_if_live_ref reg));
       if is_none cancelled then mret tt else record_source_mutation) l1
    (λ _ l', ∀ e, replaces live_view (Some reg) None e l l' ∧ live_now l1 ≤ live_now l') (λ _ _, False).
Proof.
  intros Hok Hreg H1. pose proof (keeps_ok _ _ Hok H1) as (Hq1 & _ & Hc1). pose proof H1 as [Ht _].
  wlp_step. apply on_timer_queue_wlp. wlp_step. destruct Hreg as [Hd Hi].
  eapply wlp_mono; [apply wlp_wp, cancel_if_live_wp; [done|by rewrite Ht..]| |done].
  intros r q' [_ Hrm] l2 Hq2 Heq2. rewrite <- Hq2 in Hrm.
  assert (∀ r', Some reg = Some r' → dv_issued live_view l r') as Hold by (by intros ? [= <-]).
  assert (clock_ok (clock l2)) as Hc2 by (by rewrite Heq2).
  destruct (is_none r); [wlp_step|eapply wlp_mono; [by apply (record_keeps l2 (λ _ _, False))| |done]; intros ? l' H'];
    intros e; apply (removes_exchanges _ _ _ e) in Hrm; (eapply changed_replaces; [done..|]); [by apply keeps_refl|done].
Qed.

(** A new one is taken for it. *)
Lemma taken_wlp l l1 old new deadline token : live_ok l → (∀ r, old = Some r → dv_issued live_view l r) → keeps l l1 →
  ∀ l2, exchanges (tq l1) old (Some new) {| deadline_ns := deadline; payload := token |} (tq l2) → clock l2 = clock l1 →
  wlp (E:=TimerDeadlineError.t) (record_source_mutation;; mret (Some new)) l2
    (λ r l', replaces live_view old r {| deadline_ns := deadline; payload := token |} l l' ∧
       (r = None → deadline ≤ live_now l')) (λ _ l', idles live_view l l').
Proof.
  intros Hok Hold H1 l2 Hex Heq. pose proof (keeps_ok _ _ Hok H1) as (_ & _ & Hc1). wlp_step.
  eapply wlp_mono; [apply (record_keeps l2 (λ _ _, False)); by rewrite Heq| |done]. intros ? l' H'. wlp_step.
  split; [|done]. eapply changed_replaces; done.
Qed.

Lemma exchanges_dead q old new e q' : at_key q (key_of old) = None → exchanges q None new e q' → exchanges q (Some old) new e q'.
Proof.
  intros Hnone [Hwf Hd Hl Hi Hn Hat]. split; try done. intros k. rewrite Hat. simpl. repeat case_decide; try congruence.
Qed.

Lemma registers_wlp l1 deadline token : queue_wf (tq l1) → clock_ok (clock l1) →
  wlp (on_timer_queue (map_err map_timer_queue_error (DeadlineQueue.register deadline token))) l1
    (λ new l2, exchanges (tq l1) None (Some new) {| deadline_ns := deadline; payload := token |} (tq l2) ∧ clock l2 = clock l1)
    (λ _ l2, keeps l1 l2).
Proof.
  intros Hq Hc. apply on_timer_queue_wlp. wlp_step. eapply wlp_mono; [by apply wlp_wp, register_deadline_wp| |].
  - intros new q' (_ & Hdom & Hadd) l2 Hq2 Heq. split; [|done]. rewrite Hq2. by apply adds_exchanges.
  - intros e q' [-> _] l2 Hq2 Heq. split; [done|]. rewrite Heq. by apply clock_moves_refl.
Qed.

(** The registration [live_replace] takes. *)
Lemma takes_wlp l1 old deadline token : queue_wf (tq l1) → clock_ok (clock l1) →
  (∀ r, old = Some r → registration_domain r = DeadlineQueue.domain (tq l1) ∧ issued (tq l1) (key_of r)) →
  wlp match old with
      | Some old =>
          replaced ← on_timer_queue (map_err map_timer_queue_error (DeadlineQueue.replace_if_live old deadline token));
          match replaced with
          | Some registration => mret registration
          | None => on_timer_queue (map_err map_timer_queue_error (DeadlineQueue.register deadline token))
          end
      | None => on_timer_queue (map_err map_timer_queue_error (DeadlineQueue.register deadline token))
      end l1
    (λ new l2, exchanges (tq l1) old (Some new) {| deadline_ns := deadline; payload := token |} (tq l2) ∧ clock l2 = clock l1)
    (λ _ l2, keeps l1 l2).
Proof.
  intros Hq Hc Hold. destruct old as [old|]; [|by apply registers_wlp]. destruct (Hold old eq_refl) as [Hd Hi].
  wlp_step. apply on_timer_queue_wlp. wlp_step. eapply wlp_mono; [by apply wlp_wp, replace_if_live_wp| |].
  - intros [new|] q' [_ Hres] l2 Hq2 Heq.
    + destruct Hres as (_ & Hdom & Hmv). wlp_step. split; [|done]. rewrite Hq2. by apply moves_exchanges.
    + destruct Hres as [-> Hnone]. rewrite <- Hq2 in Hnone.
      eapply wlp_mono; [apply registers_wlp; [by rewrite Hq2|by rewrite Heq]| |].
      * intros new l3 [Hex Heq3]. rewrite <- Hq2, <- Heq. split; [by apply exchanges_dead|done].
      * intros e l3 [Ht3 Hc3]. split; [congruence|]. by rewrite <- Heq.
  - intros e q' Hf l2 Hq2 Heq. split; [|rewrite Heq; by apply clock_moves_refl]. rewrite Hq2. apply Hf.
Qed.

Lemma live_replace_law old deadline token l : live_ok l →
  (∀ r, old = Some r → dv_issued live_view l r) →
  wlp (live_replace old deadline token) l
    (λ new l', replaces live_view old new {| deadline_ns := deadline; payload := token |} l l' ∧
       (new = None → deadline ≤ live_now l'))
    (λ _ l', idles live_view l l').
Proof.
  intros Hok Hold. unfold live_replace. do 2 wlp_step.
  eapply wlp_mono; [by apply sample_live, Hok| |intros e l1 H1; by apply keeps_idles].
  intros sample l1 [H1 Hnow]. pose proof (keeps_ok _ _ Hok H1) as (Hq1 & Hlen1 & Hc1). pose proof H1 as [Ht _].
  destruct (Z.leb_spec deadline (nanoseconds sample)) as [Hdue|Hlater]; [destruct old as [old|]|].
  - apply wlp_assoc. eapply wlp_mono; [apply (given_up_wlp _ l); [done|by apply Hold|done]| |done].
    intros ? l' Hup. wlp_step. destruct (Hup {| deadline_ns := deadline; payload := token |}) as [Hrep Hle].
    split; [exact Hrep|]. intros _. lia.
  - wlp_step. split; [|intros _; lia]. destruct (keeps_idles _ _ Hok H1) as [Hf Ha]. split_and!; [done|done|].
    intros reg. by rewrite !decide_False.
  - wlp_step. eapply wlp_mono; [apply takes_wlp; [done..|]| |].
    + intros r Hr. rewrite Ht. by apply Hold.
    + intros new l2 [Hex Heq]. by eapply taken_wlp.
    + intros e l2 H2. apply keeps_idles; [done|by eapply keeps_trans].
Qed.

Lemma live_cancel_law reg l : live_ok l → dv_issued live_view l reg →
  wlp (live_cancel reg) l (λ _ l', ∀ e, replaces live_view (Some reg) None e l l') (λ _ l', idles live_view l l').
Proof.
  intros Hok Hreg. unfold live_cancel. do 2 wlp_step.
  eapply wlp_mono; [by apply sample_live, Hok| |intros e l1 H1; by apply keeps_idles].
  intros sample l1 [H1 _]. eapply wlp_mono; [by apply (given_up_wlp _ l)| |done].
  intros ? l' Hup e. by destruct (Hup e).
Qed.

(** ** The interrupt *)

(** Neither the timer queue nor the clock is touched. *)
Definition still (l l' : live) : Prop := tq l' = tq l ∧ clock l' = clock l.

Lemma part_still {E P A} (part : LiveTimeState → P) with_part (m : M P E A) l :
  (∀ p s, timer_deadlines (with_part p s) = timer_deadlines s) →
  wlp (on_time (on_part part with_part m)) l (λ _ l', still l l') (λ _ l', still l l').
Proof. intros Hw. do 2 apply wlp_on_part. unfold wlp. by destruct (m _); [split; [apply Hw|]..|]. Qed.

Lemma still_trans l l1 l2 : still l l1 → still l1 l2 → still l l2.
Proof. intros [? ?] [? ?]. split; congruence. Qed.

Lemma still_idles l l1 l2 : live_ok l → keeps l l1 → still l1 l2 → idles live_view l l2.
Proof. intros Hok [Ht Hc] [Ht' Hc']. apply keeps_idles; [done|]. split; [congruence|by rewrite Hc']. Qed.

Lemma swept_delivers l l1 l' : live_ok l → keeps l l1 → tq l' = swept (live_now l1) (tq l1) → clock l' = clock l1 →
  delivers live_view (expired (live_now l1) (DeadlineQueue.slots (tq l1))) l l'.
Proof.
  intros (Hq & Hlen & _) [Ht [Hc Hn]] Htq Hcl. assert (live_now l' = live_now l1) as Hnow by (unfold live_now; by rewrite Hcl).
  rewrite Ht in *. split_and!.
  - split; simpl; rewrite ?Htq, ?Hnow; [|done|].
    + split_and!; rewrite ?Htq, ?Hcl; [by apply swept_wf|by simpl; rewrite length_fmap|done].
    + intros reg [Hd Hi]. split; [done|]. by apply swept_issued.
  - intros reg. simpl. rewrite Htq, Hnow. simpl. destruct (_ =? _); [|done]. apply swept_at.
  - intros token. rewrite (expired_due_entries _ 0), list_elem_of_fmap. simpl. rewrite Hnow. split.
    + intros ([k e] & -> & [Hk Hd]%elem_of_due_entries). exists (registration_of (DeadlineQueue.domain (tq l)) k), e.
      simpl. rewrite Z.eqb_refl. split_and!; [by destruct k|done..].
    + intros (reg & e & Hreg & Hd & <-). exists (key_of reg, e). split; [done|]. apply elem_of_due_entries.
      by destruct (_ =? _).
Qed.

Lemma take_due_still {E} now l (R : E → live → Prop) :
  wlp (on_scheduler_quantum (LocalDeadlineSource.take_due now)) l (λ _ l', still l l') R.
Proof.
  unfold on_scheduler_quantum, on_time, LocalDeadlineSource.take_due. do 2 apply wlp_on_part. do 2 wlp_step.
  wlp_step; [do 3 wlp_step|wlp_step]; done.
Qed.

Lemma record_still {E} l (R : E → live → Prop) : wlp record_source_mutation l (λ _ l', still l l') R.
Proof.
  unfold record_source_mutation, on_hardware_arms, on_time. do 2 apply wlp_on_part. unfold wlp, unwrap.
  by destruct (PhysicalArmSequence.source_mutated _).
Qed.

(** The tokens the interrupt hands to the dispatch. *)
Definition interrupt_tokens : M live LiveTimeError.t (list TimerExpiryToken) :=
  outcome ← interrupt empty_outcome;
  mret (omap id (timer_expiries outcome)).

Lemma interrupt_law l : live_ok l →
  wlp interrupt_tokens l (λ tokens l', delivers live_view tokens l l') (λ _ l', idles live_view l l').
Proof.
  intros Hok. unfold interrupt_tokens, interrupt. wlp_step. wlp_step. apply wlp_wp, wp_assert; [done|]. wlp_step.
  eapply wlp_mono; [by apply sample_live, Hok| |intros e l1 H1; by apply keeps_idles].
  intros sample l1 [H1 Hnow]. pose proof (keeps_ok _ _ Hok H1) as (Hq1 & Hlen1 & Hc1). wlp_step.
  eapply wlp_mono; [by apply part_still| |intros ? l2 H2; by eapply still_idles].
  intros [ws wc] l2 [Ht2 Hcl2]. wlp_step. apply on_timer_queue_wlp.
  eapply wlp_mono; [apply wlp_wp, (expire_wp _ _ _ (λ _ _, False)); rewrite Ht2, Hlen1; done| |done].
  intros r q' [-> ->] l3 Hq3 Hcl3. rewrite Ht2 in Hq3. cbv beta iota. wlp_step.
  assert (∀ l4, still l3 l4 → delivers live_view (expired (nanoseconds sample) (DeadlineQueue.slots (tq l1))) l l4) as Hdel.
  { intros l4 [Ht4 Hcl4]. rewrite <- Hnow. apply swept_delivers; [done|done|by rewrite Ht4, Hq3, Hnow|congruence]. }
  eapply wlp_mono; [apply (take_due_still _ _ (λ _ _, False))| |done]. intros quantum l4 H4. wlp_step.
  eapply wlp_mono; [instantiate (1 := λ _ _, False); instantiate (1 := λ _ l5, still l3 l5)| |done].
  - destruct (_ || _); [|by wlp_step]. eapply wlp_mono; [apply (record_still l4 (λ _ _, False))| |done].
    intros ? l5 H5. exact (still_trans _ _ _ H4 H5).
  - intros ? l5 H5. do 2 wlp_step. simpl. rewrite Ht2, omap_fill. by apply Hdel.
Qed.

(** ** The instance *)

(** Where a call of the authority is made.  The other CPUs do to the
    deadlines what they do under their own locks; the Timers are the
    caller's, who holds the runtime lock and takes no interrupt. *)
Record call_site : Type := {
  site_healthy : bool;
  site_expiry_bound : bool;
  site_cpu : Result CpuIndex.t LiveTimeError.t;
  site_turns : list (list live_op * Result unit LiveTimeError.t * list live_op);
  site_request : bool;
  site_quiet : forallb (λ turn, forallb not_timers (turn.1.1 ++ turn.2)) site_turns = true;
}.

Definition surroundings_of (site : call_site) : surroundings :=
  {| healthy := site_healthy site; expiry_bound := site_expiry_bound site; current_cpu := site_cpu site;
     turns := disturbed_turn <$> site_turns site; request_bsp_timer_service := site_request site |}.

(** The bootstrap CPU programs the hardware itself. *)
Definition site_programs (site : call_site) : bool :=
  match site_cpu site with Ok cpu => bool_decide (cpu = CpuIndex.BOOTSTRAP) | Err _ => false end.

Lemma framed_ops ops : forallb not_timers ops = true → framed (run_ops ops).
Proof.
  induction ops as [|op ops IH]; intros Hops; simpl in *; [apply framed_ret|].
  apply andb_prop in Hops as [Hop Hops]. apply framed_bind; [by apply framed_op|]. intros ?. by apply IH.
Qed.

Lemma site_framed site : framed (reconcile_bsp_hardware_arm (site_cpu site) (turns (surroundings_of site))).
Proof.
  unfold reconcile_bsp_hardware_arm. apply framed_bind; [apply framed_lift|]. intros cpu.
  destruct (negb _); [apply framed_fail|]. apply framed_turns, Forall_take, Forall_fmap. pose proof (site_quiet site) as Hq. apply Is_true_true, forallb_True in Hq.
  eapply Forall_impl; [exact Hq|]. intros [[before answer] after] Hops. simpl in *.
  apply Is_true_true in Hops. rewrite forallb_app in Hops. apply andb_prop in Hops as [Hb Ha].
  by apply framed_turn; apply framed_ops.
Qed.

Lemma idles_refl l : live_ok l → idles live_view l l.
Proof. intros Hok. apply keeps_idles; [done|]. by apply keeps_refl, Hok. Qed.

(** Nothing that leaves the Timers alone undoes a change. *)
Lemma replaces_keeps old new e l l1 l' : replaces live_view old new e l l1 → keeps l1 l' → replaces live_view old new e l l'.
Proof.
  intros ([Hok Hn Hi] & Hnew & Harm) Hk. pose proof (keeps_idles _ _ Hok Hk) as [[Hok' Hn' Hi'] Ha'].
  split_and!; [split; [done|lia|auto]|intros r Hr; destruct (Hnew r Hr); auto|]. intros reg. by rewrite Ha', Harm.
Qed.

(** Before the change of the queue nothing changes; after it the bootstrap
    CPU may fail to program the hardware. *)
Lemma at_site_wlp {A} site (m : M live TimerDeadlineError.t A) l (Q : A → live → Prop) : live_ok l →
  wlp m l Q (λ _ l', idles live_view l l') → (∀ a l', Q a l' → live_ok l') →
  (∀ a l' l'', Q a l' → keeps l' l'' → Q a l'') →
  wlp (program_local_timer ← map_err (λ _, TimerDeadlineError.Fault) (current_cpu_is_timer_service (surroundings_of site));
       a ← m; after_mutation (surroundings_of site) program_local_timer;; mret a) l Q
    (λ _ l', idles live_view l l' ∨ site_programs site = true ∧ ∃ a, Q a l').
Proof.
  intros Hok Hm HQok HQ. unfold current_cpu_is_timer_service. do 3 wlp_step. apply wlp_wp, wp_lift. unfold site_programs. simpl.
  destruct (site_cpu site) as [cpu|e] eqn:Hcpu; [|left; by apply idles_refl].
  do 2 wlp_step. eapply wlp_mono; [exact Hm| |by left]. intros a l1 H1. wlp_step. unfold after_mutation.
  case_bool_decide as Hboot; [|wlp_step; [by do 2 wlp_step|done]].
  pose proof (site_framed site l1 ltac:(by apply (HQok a))) as Hf. rewrite Hcpu in Hf. simpl. rewrite Hcpu.
  do 2 wlp_step. eapply wlp_mono; [exact Hf| |].
  - intros intent l' Hk. do 2 wlp_step. by eapply HQ.
  - intros e l' Hk. right. split; [done|]. exists a. by eapply HQ.
Qed.

Lemma authority_replace_law site old deadline token l : live_ok l →
  (∀ r, old = Some r → dv_issued live_view l r) →
  wlp (authority_replace (surroundings_of site) old deadline token) l
    (λ new l', replaces live_view old new {| deadline_ns := deadline; payload := token |} l l' ∧
       (new = None → deadline ≤ live_now l'))
    (λ _ l', idles live_view l l' ∨ site_programs site = true ∧
       ∃ new, replaces live_view old new {| deadline_ns := deadline; payload := token |} l l').
Proof.
  intros Hok Hold. unfold authority_replace. wlp_step; [wlp_step; left; by apply idles_refl|].
  wlp_step; [wlp_step; left; by apply idles_refl|].
  eapply wlp_mono; [eapply (at_site_wlp site); [done|by apply live_replace_law|..]|done|].
  - intros new l' [([Hok' _ _] & _) _]. exact Hok'.
  - intros new l1 l2 [Hrep Hnow] Hk. split; [by eapply replaces_keeps|]. intros Hnone%Hnow. destruct Hk as [_ [_ Hn]].
    unfold live_now in *. lia.
  - intros e l' [Hidle|[Hpr (new & Hrep & _)]]; [by left|right; split; [done|by exists new]].
Qed.

Lemma authority_cancel_law site reg l : live_ok l → dv_issued live_view l reg →
  wlp (authority_cancel (surroundings_of site) reg) l (λ _ l', ∀ e, replaces live_view (Some reg) None e l l')
    (λ _ l', idles live_view l l' ∨ site_programs site = true ∧ ∀ e, replaces live_view (Some reg) None e l l').
Proof.
  intros Hok Hreg. unfold authority_cancel. wlp_step; [wlp_step; left; by apply idles_refl|].
  assert (wlp (program_local_timer ← map_err (λ _, TimerDeadlineError.Fault) (current_cpu_is_timer_service (surroundings_of site));
    a ← live_cancel reg; after_mutation (surroundings_of site) program_local_timer;; mret a) l
    (λ _ l', ∀ e, replaces live_view (Some reg) None e l l')
    (λ _ l', idles live_view l l' ∨ site_programs site = true ∧ ∃ _ : unit, ∀ e, replaces live_view (Some reg) None e l l')) as Hw.
  { apply at_site_wlp; [done|by apply live_cancel_law|..].
    - intros ? l' Hrep. by destruct (Hrep {| deadline_ns := 0; payload := {| token_domain := 0;
        token_object := {| oid_domain := 0; oid_raw := 0 |}; token_generation := 0 |} |}) as [[] _].
    - intros ? l1 l2 Hrep Hk e. by eapply replaces_keeps. }
  unfold wlp, mbind, M_bind in *. destruct (map_err _ _ l) as [l1 local| |]; [|naive_solver|done].
  destruct (live_cancel reg l1) as [l2 []| |]; [|naive_solver|done].
  destruct (after_mutation _ local l2) as [? []| |]; [done|naive_solver|done].
Qed.

#[export] Instance LiveDeadlineService : DeadlineService live :=
  {| ds_site := call_site;
     ds_authority site := LiveTimerDeadlineAuthority (surroundings_of site);
     ds_programs := site_programs;
     ds_interrupt := interrupt_tokens;
     ds_elsewhere l l' := ∃ op, not_timers op = true ∧ run_op op l = Ret l' tt |}.

Lemma live_elsewhere l l' : live_ok l → ds_elsewhere l l' → idles live_view l l'.
Proof.
  intros Hok (op & Hop & Hrun). apply keeps_idles; [done|]. pose proof (framed_op op Hop l ltac:(apply Hok)) as Hf.
  unfold wlp in Hf. by rewrite Hrun in Hf.
Qed.

#[export] Instance LiveDeadlineContract : DeadlineContract live :=
  {| dc_view := live_view;
     dc_replace site old deadline token l Hok _ := authority_replace_law site old deadline token l Hok;
     dc_cancel := authority_cancel_law;
     dc_interrupt := interrupt_law;
     dc_elsewhere := live_elsewhere |}.
