(* ===== verification/TimerTheorems.v ===== *)
(** * Timers: claims

    The kernel's Timers on the kernel's deadlines, on every CPU: they never
    lose track of themselves, are signalled exactly when their deadline has
    passed, and wake whoever waits for them, except that a call that fails on
    the bootstrap CPU while it programs the hardware may leave a Timer with a
    deadline that is not its own. *)

From stdpp Require Import base tactics numbers list sets relations.
From Stdlib Require Import ZArith Lia.
From S2P Require Import Prelude Abi Object HandleTable Cpu Wait WaitFacts WaitTheorems Clock ClockTheorems Deadline DeadlineFacts Timer TimerFacts LiveTime LiveTimeFacts LiveTimeTheorems TimerContract TimerSystem TimerSteps TimerAdvance LiveTimer.
Import TimerAuthority.
Local Open Scope Z_scope.

(** ** Operations are their flights *)

(** Two readings of code that has no errors to return. *)
Definition agree {S E E' A} (m : M S E A) (m' : M S E' A) : Prop := ∀ s,
  match m s with
  | Ret s' a => m' s = Ret s' a
  | Fail _ _ => False
  | Panic => m' s = Panic
  end.

Section agree.
Context {S E E' : Type}.

Lemma agree_ret {A} (a : A) : agree (S:=S) (E:=E) (E':=E') (mret a) (mret a).
Proof. done. Qed.

Lemma agree_bind {A B} (m : M S E A) (m' : M S E' A) (f : A → M S E B) (f' : A → M S E' B) :
  agree m m' → (∀ a, agree (f a) (f' a)) → agree (m ≫= f) (m' ≫= f').
Proof.
  intros Hm Hf s. unfold mbind, M_bind. specialize (Hm s). destruct (m s) as [s1 a| |]; [|done|by rewrite Hm].
  rewrite Hm. apply Hf.
Qed.

Lemma agree_get : agree (S:=S) (E:=E) (E':=E') get get.
Proof. done. Qed.

Lemma agree_modify g : agree (S:=S) (E:=E) (E':=E') (modify g) (modify g).
Proof. done. Qed.

Lemma agree_expect {A} (o : option A) : agree (S:=S) (E:=E) (E':=E') (expect o) (expect o).
Proof. intros s. by destruct o. Qed.

Lemma agree_assert b : agree (S:=S) (E:=E) (E':=E') (assert_that b) (assert_that b).
Proof. intros s. by destruct b. Qed.
End agree.

Section sections.
Context {E E' : Type}.

Ltac agrees := repeat first
  [ apply agree_ret | apply agree_get | apply agree_modify | apply agree_expect | apply agree_assert
  | apply agree_bind; [|intros ?] | case_match ].

Lemma agree_staged o tr : agree (staged (E:=E) o tr) (staged (E:=E') o tr).
Proof. unfold staged. agrees. Qed.

Ltac section_agrees := apply agree_bind; [apply agree_staged|intros [? ?]]; agrees.

Lemma agree_commit_set key g registration :
  agree (commit_set (E:=E) key g registration) (commit_set (E:=E') key g registration).
Proof. section_agrees. Qed.

Lemma agree_restore_set key g old was : agree (restore_set (E:=E) key g old was) (restore_set (E:=E') key g old was).
Proof. section_agrees. Qed.

Lemma agree_complete_readiness key g : agree (complete_readiness (E:=E) key g) (complete_readiness (E:=E') key g).
Proof. section_agrees. Qed.

Lemma agree_commit_cancel key next : agree (commit_cancel (E:=E) key next) (commit_cancel (E:=E') key next).
Proof. section_agrees. Qed.

Lemma agree_restore_cancel key arm was : agree (restore_cancel (E:=E) key arm was) (restore_cancel (E:=E') key arm was).
Proof. section_agrees. Qed.

Lemma agree_commit_finalization f : agree (commit_finalization (E:=E) f) (commit_finalization (E:=E') f).
Proof. section_agrees. Qed.

Lemma agree_restore_finalization f arm : agree (restore_finalization (E:=E) f arm) (restore_finalization (E:=E') f arm).
Proof. section_agrees. Qed.

End sections.

Section flights.
Context {D : Type} `{!DeadlineService D}.

(** The flight to its end; no operation has more than four steps. *)
Fixpoint finish (site : ds_site) (fuel : nat) (f : option flight) : M (TimerAuthority.t * D * WaitRegistry.t) Empty_set (list WakeIntent) :=
  match fuel, f with
  | _, None => mret []
  | O, Some _ => panic
  | S fuel, Some f =>
      '(rest, wakes) ← advance site f;
      more ← finish site fuel rest;
      mret (wakes ++ more)
  end.

(** The wakes a call returns, none when it fails. *)
Definition wakes_of {S E} (m : M S E WakeBatch.t) : M S Empty_set (list WakeIntent) :=
  result ← try m;
  mret match result with Ok batch => wakes_in batch | Err _ => [] end.

Lemma wakes_in_empty n : wakes_in (WakeBatch.empty n) = [].
Proof. by rewrite batch_of_empty, wakes_in_batch. Qed.

Lemma set_is_its_flight site key deadline st :
  wakes_of (@set _ (ds_authority site) key deadline) st = (f ← on_timers (begin_call (CallSet key deadline)); finish site 4 f) st.
Proof.
  destruct st as [[self d] ws].
  unfold wakes_of, set, begin_call, on_timers, on_deadlines, mbind, M_bind, try, on_fst, on_snd. simpl.
  destruct (deadline =? DW_DEADLINE_INFINITE); [done|]. cbn [fst snd].
  destruct (stage_set key self) as [self1 [[g old] was]|self1 e|]; [|done|done]. simpl.
  unfold on_timers, on_deadlines, mbind, M_bind, try, on_fst, on_snd, get. simpl. unfold token_of.
  destruct (@replace_timer_deadline _ _ _ _ _ d) as [d1 [reg|]|d1 e|]; [| | |done]; simpl;
    unfold mbind, M_bind, on_timers, on_fst, on_snd; simpl.
  - pose proof (agree_commit_set (E:=TimerError.t) (E':=Empty_set) key g (Some reg) self1) as Ha.
    destruct (commit_set key g (Some reg) self1) as [self2 []| |]; [|done|by rewrite Ha]. rewrite Ha. simpl.
    by rewrite wakes_in_empty.
  - pose proof (agree_commit_set (E:=TimerError.t) (E':=Empty_set) key g None self1) as Ha.
    destruct (commit_set key g None self1) as [self2 []| |]; [|done|by rewrite Ha]. rewrite Ha. simpl.
    unfold mbind, M_bind, on_snd. simpl. rewrite !take_ready_eq. simpl. unfold mbind, M_bind, on_timers, on_fst. simpl.
    pose proof (agree_complete_readiness (E:=TimerError.t) (E':=Empty_set) key g self2) as Hb.
    destruct (complete_readiness key g self2) as [self3 []| |]; [|done|by rewrite Hb]. rewrite Hb. simpl. by rewrite app_nil_r.
  - pose proof (agree_restore_set (E:=TimerError.t) (E':=Empty_set) key g old was self1) as Ha.
    destruct (restore_set key g old was self1) as [self2 []| |]; [|done|by rewrite Ha]. by rewrite Ha.
Qed.

(** A call that returns no wakes. *)
Definition silent {S E A} (m : M S E A) : M S Empty_set (list WakeIntent) := try m;; mret [].

Lemma cancel_is_its_flight site key st :
  silent (on_fst (@cancel _ (ds_authority site) key)) st = (f ← on_timers (begin_call (CallCancel key)); finish site 4 f) st.
Proof.
  destruct st as [[self d] ws].
  unfold silent, cancel, begin_call, on_timers, mbind, M_bind, try, on_fst, on_snd. simpl.
  destruct (stage_cancel key self) as [self1 [[old was] next]|self1 e|]; [|done|done]. simpl.
  pose proof (agree_commit_cancel (E:=TimerError.t) (E':=Empty_set) key next self1) as Ha.
  destruct old as [arm|]; simpl; unfold mbind, M_bind, on_timers, on_deadlines, on_fst, on_snd, try; simpl.
  - destruct (@cancel_timer_deadline _ _ arm d) as [d1 []|d1 e|]; [| |done]; simpl;
      unfold mbind, M_bind, on_timers, on_fst; simpl.
    + destruct (commit_cancel key next self1) as [self2 []| |]; [|done|by rewrite Ha]. by rewrite Ha.
    + pose proof (agree_restore_cancel (E:=TimerError.t) (E':=Empty_set) key arm was self1) as Hb.
      destruct (restore_cancel key arm was self1) as [self2 []| |]; [|done|by rewrite Hb]. by rewrite Hb.
  - unfold mbind, M_bind, on_timers, on_fst. simpl.
    destruct (commit_cancel key next self1) as [self2 []| |]; [|done|by rewrite Ha]. by rewrite Ha.
Qed.

Lemma finalization_is_its_flight site f st :
  silent (on_fst (@take_finalization _ (ds_authority site) f)) st = (f ← on_timers (begin_call (CallFinalize f)); finish site 4 f) st.
Proof.
  destruct st as [[self d] ws].
  unfold silent, take_finalization, begin_call, on_timers, mbind, M_bind, try, on_fst, on_snd. simpl.
  destruct (stage_finalization f self) as [self1 old|self1 e|]; [|done|done]. simpl.
  pose proof (agree_commit_finalization (E:=TimerError.t * FinalRelease) (E':=Empty_set) f self1) as Ha.
  destruct old as [arm|]; simpl; unfold mbind, M_bind, on_timers, on_deadlines, on_fst, on_snd, try; simpl.
  - destruct (@cancel_timer_deadline _ _ arm d) as [d1 []|d1 e|]; [| |done]; simpl;
      unfold mbind, M_bind, on_timers, on_fst; simpl.
    + destruct (commit_finalization f self1) as [self2 x| |]; [|done|by rewrite Ha]. by rewrite Ha.
    + pose proof (agree_restore_finalization (E:=TimerError.t * FinalRelease) (E':=Empty_set) f arm self1) as Hb.
      destruct (restore_finalization f arm self1) as [self2 []| |]; [|done|by rewrite Hb]. by rewrite Hb.
  - unfold mbind, M_bind, on_timers, on_fst. simpl.
    destruct (commit_finalization f self1) as [self2 x| |]; [|done|by rewrite Ha]. by rewrite Ha.
Qed.

End flights.

(** ** Reachable worlds *)

Section claims.
Context {D : Type} `{!DeadlineService D, !DeadlineContract D}.
Implicit Types (w : timer_world D).

(** Worlds that come of one without Timers, waiters or armed deadlines. *)
Definition reachable w : Prop := ∃ domain n d waits,
  dv_ok dc_view d ∧ (∀ reg, dv_armed dc_view d reg = None) ∧ wait_wf waits ∧ WaitRegistry.entries waits = [] ∧
  rtc (timer_step D) (start domain n d waits) w.

Lemma reachable_inv w : reachable w → timer_inv w.
Proof.
  intros (domain & n & d & waits & Hok & Harm & Hwf & Hent & Hsteps).
  assert (timer_inv (start domain n d waits)) as Hinv by (by apply start_inv). clear -Hsteps Hinv.
  induction Hsteps as [|w1 w2 w3 Hstep _ IH]; [done|]. apply IH. by eapply timer_step_inv.
Qed.




(** What a Timer should show: whether it was set, and not cancelled since,
    for a deadline that has passed. *)
Definition alarm (status : option Z) (time : Z) : bool :=
  match status with Some d => d <=? time | None => false end.

(** Nothing is due that has not expired. *)
Definition caught_up w : Prop :=
  handed w = [] ∧ ∀ reg e, armed w reg = Some e → now w < deadline_ns e.

(** What a Timer that is not in transition shows. *)
Lemma timer_shows w o t : timer_inv w → free_timer (tw_timers w) o t →
  (timer_signaled t = true → all_woken w o) ∧
  (sound w o → (timer_signaled t = true → alarm (tw_status w o) (now w) = true) ∧
     (caught_up w → timer_signaled t = alarm (tw_status w o) (now w))).
Proof.
  intros Hinv Hfree. pose proof (free_ok _ _ _ Hinv Hfree) as (_ & Hseen & _ & _ & Hs). split; [done|].
  intros Hsound. specialize (Hs Hsound). unfold told in Hs. unfold alarm. destruct (tw_status w o) as [d|].
  - destruct Hs as [Hd Hs]. destruct (timer_arm t) as [reg|].
    + destruct Hs as [Hsig [_ Hway]]. rewrite Hsig. split; [done|]. intros [Hbox Hdue].
      destruct (armed w reg) as [e|] eqn:He; [|rewrite Hbox in Hway; by apply elem_of_nil in Hway].
      specialize (Hdue _ _ He). rewrite Hway in Hdue. simpl in Hdue. symmetry. apply Z.leb_gt. lia.
    + destruct Hs as [Hsig Hle]. by rewrite Hsig, (proj2 (Z.leb_le _ _) Hle).
  - destruct Hs as [_ ->]. by split.
Qed.


End claims.

(** ** The kernel's Timers *)


(** C6. Timers tell the time.  In every reachable world of the kernel's
    Timers, a Timer that is not in transition and is signalled has had
    whoever waits for it handed a wake.  Unless a call for it has failed on
    the bootstrap CPU, which programs the hardware, it is never signalled
    before the deadline it was last set for; and once the interrupt and the
    service of the inbox have caught up it is signalled exactly when that
    deadline has passed, and not since the Timer was cancelled: no expiry is
    lost, to whatever operation it is concurrent, and none of an earlier
    setting is mistaken for the current one. *)
Theorem timers_tell_the_time (w : timer_world live) o t :
  reachable w → timer_at (tw_timers w) o = Some t → timer_transition t = None →
  (timer_signaled t = true → all_woken w o) ∧
  (o ∉ tw_faulted w →
     (timer_signaled t = true → alarm (tw_status w o) (live_now (tw_deadlines w)) = true) ∧
     (caught_up w → timer_signaled t = alarm (tw_status w o) (live_now (tw_deadlines w)))).
Proof. intros Hinv%reachable_inv Hat Htr. exact (timer_shows w o t Hinv (conj Hat Htr)). Qed.


(** ** A run of the kernel's deadlines *)

(** A processor that asks the bootstrap processor to program the timer. *)
Definition demo_site : call_site :=
  {| site_healthy := true; site_expiry_bound := true; site_cpu := Ok CpuIndex.Cpu1; site_turns := [];
     site_request := true; site_quiet := eq_refl |}.

Inductive move : Type :=
| MCreate (creation : CreationRef)
| MCall (c : timer_call)
| MAdvance
| MInterrupt
| MHandOver
| MService
| MElsewhere (op : live_op).

(** The world after a move. *)
Definition make (m : move) (w : timer_world live) : option (timer_world live) :=
  match m with
  | MCreate creation =>
      if decide (creation_id creation ∈ tw_known w) then None
      else match bind_timer creation (tw_timers w) with
           | Ret timers _ => Some (after_create w (creation_id creation) timers)
           | _ => None
           end
  | MCall c =>
      match begin_call c (tw_timers w) with
      | Ret timers f => Some (after_begin w timers f)
      | _ => None
      end
  | MAdvance =>
      match tw_flights w with
      | f :: fs =>
          match advance demo_site f (tw_state w) with
          | Ret st (rest, wakes) => Some (after_advance w f st (option_list rest ++ fs) wakes (faulted_by demo_site rest))
          | _ => None
          end
      | [] => None
      end
  | MInterrupt =>
      match tw_detached w, interrupt_tokens (tw_deadlines w) with
      | [], Ret d tokens => Some (with_deadlines w d tokens (tw_inbox w))
      | _, _ => None
      end
  | MHandOver =>
      match tw_detached w with
      | token :: tokens =>
          match expire_timer token (tw_inbox w) with
          | Ret inbox _ => Some (with_deadlines w (tw_deadlines w) tokens inbox)
          | _ => None
          end
      | [] => None
      end
  | MService =>
      match tw_flights w, tw_detached w, service_pending_timer_expiries (tw_inbox w, (tw_timers w, tw_waits w)) with
      | [], [], Ret (inbox, (timers, waits)) wakes => Some (after_service w inbox timers waits wakes)
      | _, _, _ => None
      end
  | MElsewhere op =>
      if not_timers op then
        match run_op op (tw_deadlines w) with Ret d _ => Some (with_deadlines w d (tw_detached w) (tw_inbox w)) | _ => None end
      else None
  end.

Definition play (ms : list move) (w : timer_world live) : option (timer_world live) :=
  foldl (λ w m, w ≫= make m) (Some w) ms.

Lemma make_step m w w' : make m w = Some w' → timer_step live w w'.
Proof.
  destruct m as [creation|c| | | | |op]; simpl.
  - destruct (decide _); [done|]. destruct (bind_timer _ _) eqn:Hb; [|done..]. intros [= <-]. by eapply ts_create.
  - destruct (begin_call _ _) eqn:Hb; [|done..]. intros [= <-]. by eapply ts_call.
  - destruct (tw_flights w) as [|f fs] eqn:Hfs; [done|].
    destruct (advance _ f _) as [st [rest wakes]| |] eqn:Ha; [|done..].
    intros [= <-]. exact (ts_advance (DeadlineService0:=LiveDeadlineService) w demo_site [] f fs st rest wakes Hfs Ha).
  - destruct (tw_detached w) eqn:Hd; [|done]. destruct (interrupt_tokens _) as [d tokens| |] eqn:Hi; [|done..].
    intros [= <-]. by apply ts_interrupt.
  - destruct (tw_detached w) as [|token tokens] eqn:Hd; [done|]. destruct (expire_timer _ _) as [inbox []| |] eqn:He; [|done..].
    intros [= <-]. by eapply ts_expire_timer.
  - destruct (tw_flights w) eqn:Hfs; [|done]. destruct (tw_detached w) eqn:Hd; [|done].
    destruct (service_pending_timer_expiries _) as [[inbox [timers waits]] wakes| |] eqn:Hr; [|done..].
    intros [= <-]. by apply ts_service.
  - destruct (not_timers op) eqn:Hop; [|done]. destruct (run_op op _) as [d []| |] eqn:Hr; [|done..]. intros [= <-].
    apply ts_elsewhere. by exists op.
Qed.

Lemma play_none ms : foldl (λ w m, w ≫= make m) None ms = None.
Proof. by induction ms. Qed.

Lemma play_steps ms w w' : play ms w = Some w' → rtc (timer_step live) w w'.
Proof.
  unfold play. revert w. induction ms as [|m ms IH]; intros w; simpl; [by intros [= <-]|].
  destruct (make m w) as [w1|] eqn:Hm; [|by rewrite play_none]. intros Hp. eapply rtc_l; [by eapply make_step|by apply IH].
Qed.

Definition no_waits : WaitRegistry.t :=
  {| WaitRegistry.domain := 1; WaitRegistry.slots := replicate 2 {| wait_generation := 0; wait_entry := None |} |}.

Definition demo_start : timer_world live := start 7 2 demo_live no_waits.

Lemma fresh_at_key {T} d n k :
  at_key (T:=T) {| DeadlineQueue.domain := d; DeadlineQueue.slots := replicate n DeadlineQueue.empty_slot |} k = None.
Proof.
  unfold at_key. cbn [DeadlineQueue.slots]. destruct (replicate n _ !! k.1) as [s|] eqn:Hs; [|done].
  apply lookup_replicate in Hs as [-> _]. by destruct (_ =? _).
Qed.

Lemma demo_live_ok : live_ok demo_live.
Proof. split_and!; [|done|by split]. apply Forall_replicate. by split; [|intros []]. Qed.

Lemma demo_reachable ms w : play ms demo_start = Some w → reachable w.
Proof.
  intros Hp%play_steps. exists 7, 2%nat, demo_live, no_waits. split_and!; [| |apply fresh_wait_wf|done|exact Hp].
  - apply demo_live_ok.
  - intros reg. unfold dv_armed, dc_view, LiveDeadlineContract, live_view.
    destruct (_ =? _); [|done]. apply fresh_at_key.
Qed.

(** A Timer is set for two milliseconds while the clock shows one. *)
Definition demo_timer : ObjectId := {| oid_domain := 1; oid_raw := 9 |}.
Definition demo_creation : CreationRef := {| creation_id := demo_timer; creation_type := DW_OBJECT_TYPE_TIMER |}.
Definition demo_key : TimerKey := {| timer_key_object := demo_timer |}.
Definition demo_moves : list move := [MCreate demo_creation; MCall (CallSet demo_key 2000000); MAdvance].

(** A run that gets there, and what it shows there. *)
Lemma played {A} ms (show : timer_world live → A) a : show <$> play ms demo_start = Some a →
  ∃ w, play ms demo_start = Some w ∧ reachable w ∧ show w = a.
Proof.
  destruct (play ms demo_start) as [w|] eqn:Hp; [|done]. intros [= <-]. exists w. split; [done|]. split; [|done]. by eapply demo_reachable.
Qed.



(** The Timer is armed, and the clock passes the deadline. *)
Definition demo_due : list move := demo_moves ++ [MAdvance; MElsewhere (AdvanceCounter 9000); MElsewhere TakeDueQuantum].

Definition demo_record (arm : option TimerArm) (signaled : bool) : TimerRecord :=
  {| timer_object := demo_timer; timer_generation := 1; timer_arm := arm; timer_signaled := signaled;
     timer_transition := None |}.



(** The expiry is delivered and serviced. *)
Definition demo_fired : list move := demo_due ++ [MInterrupt; MHandOver; MService].

Lemma timers_tell_the_time_witness : ∃ w, play demo_fired demo_start = Some w ∧
  timer_at (tw_timers w) demo_timer = Some (demo_record None true) ∧
  alarm (tw_status w demo_timer) (live_now (tw_deadlines w)) = true.
Proof.
  destruct (played demo_fired (λ w, (timer_at (tw_timers w) demo_timer, tw_faulted w)) (Some (demo_record None true), []))
    as (w & Hp & Hr & Hshow); [by vm_compute|]. injection Hshow as Hat Hf.
  destruct (timers_tell_the_time w demo_timer _ Hr Hat eq_refl) as [_ Htells].
  destruct Htells as [Hal _]; [rewrite Hf; by apply not_elem_of_nil|].
  exists w. exact (conj Hp (conj Hat (Hal eq_refl))).
Defined.

(** ** A failed call on the bootstrap CPU *)
















