(* ===== verification/Gate.v ===== *)
(** * The operation gate of a process

    The part of [kernel/src/task/authority.rs] and [kernel/src/task/mod.rs]
    that decides whether a process accepts operations: a lease is acquired
    for every operation that may publish shared state, a process that is to
    end closes its gate, and it may exit when no lease is left.  Of
    [TaskAuthority] and [ProcessRecord] the fields these operations read and
    write are modelled: task groups, threads, handles and regions are not. *)

From stdpp Require Import base tactics numbers list.
From Stdlib Require Import ZArith Lia.
From S2P Require Import Prelude Abi Object.
Local Open Scope Z_scope.

Definition DW_TASK_STATE_CREATED : Z := 1.
Definition DW_TASK_STATE_RUNNING : Z := 2.
Definition DW_TASK_STATE_EXITED : Z := 3.

Module TaskError.
Inductive t : Type :=
| Capacity
| OperationsInFlight
| InvalidParent
| ParentTerminating
| InvalidTask
| BadState
| WrongObjectType
| Reference.
End TaskError.

Module ProcessGateError.
Inductive t : Type :=
| Task (error : TaskError.t)
| OperationsInFlight.
End ProcessGateError.

Module ProcessLifecycleState.
Inductive t : Type :=
| AcceptingOperations
| Quiescing
| Exited.

#[global] Instance t_eq_dec : EqDecision t.
Proof. solve_decision. Defined.
End ProcessLifecycleState.

Record ProcessKey : Type := { process_key_object : ObjectId }.

Global Instance ProcessKey_eq_dec : EqDecision ProcessKey.
Proof. solve_decision. Defined.

Record TerminationRecord : Type := {
  reason : Z;
  application_code : Z;
  exception_type : Z;
  detail : Z;
  fault_address : Z;
}.

Global Instance TerminationRecord_eq_dec : EqDecision TerminationRecord.
Proof. solve_decision. Defined.

Module TaskStateRecord.
Record t : Type := { state : Z; termination : option TerminationRecord }.

Definition created : t := {| state := DW_TASK_STATE_CREATED; termination := None |}.

Definition terminate (record : TerminationRecord) (self : t) : Result t TaskError.t :=
  if state self =? DW_TASK_STATE_EXITED then Err TaskError.BadState
  else Ok {| state := DW_TASK_STATE_EXITED; termination := Some record |}.
End TaskStateRecord.

Record ProcessOperationState : Type := {
  phase : ProcessLifecycleState.t;
  generation : Z;
  active : Z;
  pending_termination : option TerminationRecord;
}.

Definition accepting : ProcessOperationState :=
  {| phase := ProcessLifecycleState.AcceptingOperations; generation := 1; active := 0;
     pending_termination := None |}.

(** A lease is move-only; [completed] is set when it is released, and a lease
    that is dropped without it panics. *)
Record ProcessOperationLease : Type := {
  lease_domain : Z;
  lease_process : ProcessKey;
  lease_generation : Z;
  lease_completed : bool;
}.

Global Instance ProcessOperationLease_eq_dec : EqDecision ProcessOperationLease.
Proof. solve_decision. Defined.

Definition drop_lease {S E} (lease : ProcessOperationLease) : M S E unit := assert_that (lease_completed lease).

Record ProcessQuiescenceProof : Type := {
  proof_domain : Z;
  proof_process : ProcessKey;
  proof_generation : Z;
}.

Record ProcessRecord : Type := {
  process_object : ObjectId;
  process_state : TaskStateRecord.t;
  operations : ProcessOperationState;
}.

Module TaskAuthority.

Record t : Type := { operation_domain : Z; processes : list (option ProcessRecord) }.

(** The slot holds the record of the process. *)
Definition records (key : ProcessKey) (slot : option ProcessRecord) : bool :=
  match slot with
  | Some record => bool_decide (process_object record = process_key_object key)
  | None => false
  end.

Definition process_slot {E} (key : ProcessKey) (other : TaskError.t → E) : M t E nat :=
  self ← get;
  '(slot, _) ← ok_or (list_find (λ slot, records key slot) (processes self)) (other TaskError.InvalidTask);
  mret slot.

(** [process] and [process_mut]: the slot and the record in it. *)
Definition process {E} (key : ProcessKey) (other : TaskError.t → E) : M t E (nat * ProcessRecord) :=
  slot ← process_slot key other;
  self ← get;
  entry ← expect (processes self !! slot);
  record ← expect entry;
  mret (slot, record).

Definition with_operations (slot : nat) (record : ProcessRecord) (operations : ProcessOperationState) (self : t) : t :=
  {| operation_domain := operation_domain self;
     processes := <[slot := Some {| process_object := process_object record; process_state := process_state record;
                                    operations := operations |}]> (processes self) |}.

Definition acquire_process_operation (key : ProcessKey) : M t TaskError.t ProcessOperationLease :=
  self ← get;
  '(slot, record) ← process key id;
  let ops := operations record in
  if negb (bool_decide (phase ops = ProcessLifecycleState.AcceptingOperations)) then fail TaskError.BadState
  else
    count ← ok_or (checked_add 32 (active ops) 1) TaskError.Capacity;
    modify (with_operations slot record
      {| phase := phase ops; generation := generation ops; active := count;
         pending_termination := pending_termination ops |});;
    mret {| lease_domain := operation_domain self; lease_process := key; lease_generation := generation ops;
            lease_completed := false |}.

Definition validate_process_operation (lease : ProcessOperationLease) (key : ProcessKey) : M t TaskError.t unit :=
  self ← get;
  '(_, record) ← process key id;
  let ops := operations record in
  if lease_completed lease || negb (lease_domain lease =? operation_domain self)
     || negb (bool_decide (lease_process lease = key)) || negb (lease_generation lease =? generation ops)
     || bool_decide (phase ops = ProcessLifecycleState.Exited) || (active ops =? 0)
  then fail TaskError.Reference
  else mret tt.

(** On an error the lease comes back; on success it is completed and gone. *)
Definition release_process_operation (lease : ProcessOperationLease)
    : M t (TaskError.t * ProcessOperationLease) unit :=
  self ← get;
  '(slot, record) ← process (lease_process lease) (λ error, (error, lease));
  let ops := operations record in
  if lease_completed lease || negb (lease_domain lease =? operation_domain self)
     || negb (lease_generation lease =? generation ops)
     || bool_decide (phase ops = ProcessLifecycleState.Exited) || (active ops =? 0)
  then fail (TaskError.Reference, lease)
  else
    count ← expect (checked_sub (active ops) 1);
    modify (with_operations slot record
      {| phase := phase ops; generation := generation ops; active := count;
         pending_termination := pending_termination ops |}).

Definition begin_process_quiesce (key : ProcessKey) : M t ProcessGateError.t ProcessQuiescenceProof :=
  self ← get;
  '(slot, record) ← process key ProcessGateError.Task;
  let ops := operations record in
  match phase ops with
  | ProcessLifecycleState.AcceptingOperations =>
      modify (with_operations slot record
        {| phase := ProcessLifecycleState.Quiescing; generation := generation ops; active := active ops;
           pending_termination := pending_termination ops |})
  | ProcessLifecycleState.Quiescing => mret tt
  | ProcessLifecycleState.Exited => fail (ProcessGateError.Task TaskError.BadState)
  end;;
  if negb (active ops =? 0) then fail ProcessGateError.OperationsInFlight
  else mret {| proof_domain := operation_domain self; proof_process := key; proof_generation := generation ops |}.

Definition process_quiescence_proof (key : ProcessKey) : M t TaskError.t ProcessQuiescenceProof :=
  self ← get;
  '(_, record) ← process key id;
  let ops := operations record in
  if bool_decide (phase ops = ProcessLifecycleState.AcceptingOperations) || negb (active ops =? 0)
  then fail TaskError.BadState
  else mret {| proof_domain := operation_domain self; proof_process := key; proof_generation := generation ops |}.

Definition validate_process_quiescence (proof : ProcessQuiescenceProof) (key : ProcessKey) : M t TaskError.t unit :=
  self ← get;
  '(_, record) ← process key id;
  let ops := operations record in
  if negb (proof_domain proof =? operation_domain self) || negb (bool_decide (proof_process proof = key))
     || negb (proof_generation proof =? generation ops)
     || bool_decide (phase ops = ProcessLifecycleState.AcceptingOperations) || negb (active ops =? 0)
  then fail TaskError.Reference
  else mret tt.

Definition finish_process_exit (proof : ProcessQuiescenceProof) (record : TerminationRecord) : M t TaskError.t unit :=
  validate_process_quiescence proof (proof_process proof);;
  '(slot, process) ← process (proof_process proof) id;
  let ops := operations process in
  if negb (bool_decide (phase ops = ProcessLifecycleState.Quiescing)) then fail TaskError.BadState
  else if negb (bool_decide (pending_termination ops = Some record)) then fail TaskError.BadState
  else
    state ← lift (TaskStateRecord.terminate record (process_state process));
    modify (with_operations slot
      {| process_object := process_object process; process_state := state; operations := ops |}
      {| phase := ProcessLifecycleState.Exited; generation := generation ops; active := active ops;
         pending_termination := pending_termination ops |}).

Definition begin_process_termination (key : ProcessKey) (record : TerminationRecord)
    : M t ProcessGateError.t ProcessQuiescenceProof :=
  '(slot, process) ← process key ProcessGateError.Task;
  let ops := operations process in
  match pending_termination ops with
  | None =>
      modify (with_operations slot process
        {| phase := phase ops; generation := generation ops; active := active ops;
           pending_termination := Some record |})
  | Some selected =>
      if bool_decide (selected = record) then mret tt
      else fail (ProcessGateError.Task TaskError.BadState)
  end;;
  begin_process_quiesce key.

End TaskAuthority.
