(* ===== verification/GateFacts.v ===== *)
(** * Facts about the operation gate

    [gate_at] is the gate of a process.  Every operation of [Gate.v] touches
    the gate of one process, and changes no other. *)

From stdpp Require Import base tactics numbers list.
From Stdlib Require Import ZArith Lia.
From S2P Require Import Prelude Abi Object Gate.
Import TaskAuthority.
Local Open Scope Z_scope.

Implicit Types (t : TaskAuthority.t) (p : ProcessKey) (g : ProcessOperationState).

Definition find_process t p : option (nat * ProcessRecord) :=
  '(slot, entry) ← list_find (λ slot, records p slot) (processes t);
  record ← entry;
  Some (slot, record).

Definition gate_at t p : option ProcessOperationState := '(_, record) ← find_process t p; Some (operations record).

Lemma records_process p o : records p o = true ↔ ∃ record, o = Some record ∧ process_object record = process_key_object p.
Proof. destruct o; simpl; [rewrite bool_decide_eq_true|]; naive_solver. Qed.

Lemma find_process_Some t p i record : find_process t p = Some (i, record) ↔
  processes t !! i = Some (Some record) ∧ process_object record = process_key_object p ∧
  ∀ j o, (j < i)%nat → processes t !! j = Some o → records p o = false.
Proof.
  unfold find_process. rewrite bind_Some. split.
  - intros ([j o] & (Hj & Hr & Hfirst)%list_find_Some & Ho). apply bind_Some in Ho as (r & -> & [= <- <-]).
    apply Is_true_true, records_process in Hr as (? & [= <-] & Hr). split_and!; [done..|].
    intros j' o Hlt Hj'. apply not_true_iff_false. rewrite <- Is_true_true. by eapply Hfirst.
  - intros (Hi & Hr & Hfirst). exists (i, Some record). split; [|done]. apply list_find_Some. split_and!; [done| |].
    + apply Is_true_true, records_process. eauto.
    + intros j o Hj Hlt. rewrite Is_true_true. by rewrite (Hfirst j o).
Qed.

Lemma find_process_None t p i o : find_process t p = None → processes t !! i = Some o → records p o = false.
Proof.
  unfold find_process. intros Hn Hi. apply bind_None in Hn as [Hn|([j o'] & (Hj & Hr & _)%list_find_Some & Ho)].
  - apply list_find_None in Hn. rewrite list.Forall_forall in Hn. apply not_true_iff_false. rewrite <- Is_true_true.
    apply Hn. by eapply list_elem_of_lookup_2.
  - apply Is_true_true, records_process in Hr as (? & -> & _). done.
Qed.

Lemma process_wp {E} p (other : TaskError.t → E) t Q R :
  (∀ i record, find_process t p = Some (i, record) → Q (i, record) t) →
  (gate_at t p = None → R (other TaskError.InvalidTask) t) → wp (process p other) t Q R.
Proof.
  intros HQ HR. unfold process, process_slot. wp_step. wp_step. wp_step. wp_step. apply wp_ok_or.
  destruct (list_find _ _) as [[i o]|] eqn:Hf.
  - pose proof Hf as (Hi & Hr & _)%list_find_Some. apply Is_true_true, records_process in Hr as (r & -> & _).
    wp_step. do 3 wp_step. eapply wp_expect; [exact Hi|]. wp_step. eapply wp_expect; [done|]. wp_step. apply HQ.
    unfold find_process. by rewrite Hf.
  - apply HR. unfold gate_at, find_process. by rewrite Hf.
Qed.

(** The objects that have a record. *)
Definition objects t : list ObjectId := omap (fmap process_object) (processes t).

(** The gate of [p] becomes [g]. *)
Record gates t p g t' : Prop := {
  ga_domain : operation_domain t' = operation_domain t;
  ga_at p' : gate_at t' p' = if decide (p' = p) then Some g else gate_at t p';
  ga_objects : objects t' = objects t;
}.

Lemma gates_refl t p g : gate_at t p = Some g → gates t p g t.
Proof. intros Hg. split; [done| |done]. intros p'. by case_decide; subst. Qed.

Lemma gates_trans t p g t1 g' t2 : gates t p g t1 → gates t1 p g' t2 → gates t p g' t2.
Proof.
  intros [Hd Ha Ho] [Hd' Ha' Ho']. split; [congruence| |congruence]. intros p'. rewrite Ha', Ha. by case_decide.
Qed.

Lemma ProcessKey_eq p p' : process_key_object p = process_key_object p' → p = p'.
Proof. destruct p, p'. simpl. by intros ->. Qed.

Lemma find_process_insert t p i record record' p' : find_process t p = Some (i, record) →
  process_object record' = process_object record →
  find_process {| operation_domain := operation_domain t; processes := <[i := Some record']> (processes t) |} p' =
    if decide (p' = p) then Some (i, record') else find_process t p'.
Proof.
  intros (Hi & Hr & Hfirst)%find_process_Some Hobj. pose proof (lookup_lt_Some _ _ _ Hi) as Hlt. case_decide as Hp.
  - subst p'. apply find_process_Some. simpl. rewrite list_lookup_insert_eq by done. split_and!; [done|congruence|].
    intros j o Hj. rewrite list_lookup_insert_ne by lia. by apply Hfirst.
  - unfold find_process. simpl.
    assert (list_find (λ slot, records p' slot) (<[i := Some record']> (processes t)) =
            list_find (λ slot, records p' slot) (processes t)) as ->; [|done].
    assert (records p' (Some record') = false) as Hno.
    { simpl. apply bool_decide_eq_false. intros Heq. apply Hp, ProcessKey_eq. congruence. }
    assert (records p' (Some record) = false) as Hno'.
    { simpl. apply bool_decide_eq_false. intros Heq. apply Hp, ProcessKey_eq. congruence. }
    apply option_eq. intros [j o]. rewrite !list_find_Some.
    assert (∀ j o, records p' o → <[i := Some record']> (processes t) !! j = Some o ↔ processes t !! j = Some o) as Hsame.
    { intros j' o' Ho. destruct (decide (j' = i)) as [->|]; [|by rewrite list_lookup_insert_ne].
      rewrite list_lookup_insert_eq, Hi by done. split; intros [= <-]; [by rewrite Hno in Ho|by rewrite Hno' in Ho]. }
    split; intros (Hj & Ho & Hf); (split; [by apply Hsame|]; split; [done|]); intros j' o' Hj' Hlt' Ho';
      apply (Hf j' o'); try done; by apply Hsame.
Qed.

Lemma with_operations_gates t p i record record' g : find_process t p = Some (i, record) →
  process_object record' = process_object record → gates t p g (with_operations i record' g t).
Proof.
  intros Hf Hobj. pose proof Hf as (Hi & Hr & _)%find_process_Some. unfold with_operations. split; [done| |].
  - intros p'. unfold gate_at. rewrite (find_process_insert t p i record) by done. by case_decide.
  - unfold objects. simpl. rewrite <- (take_drop_middle (processes t) i (Some record)) at 2 by done.
    rewrite insert_take_drop by (by eapply lookup_lt_Some). rewrite !omap_app. simpl. by rewrite Hobj.
Qed.

Lemma gate_find t p i record : find_process t p = Some (i, record) → gate_at t p = Some (operations record).
Proof. intros Hf. unfold gate_at. by rewrite Hf. Qed.

Definition with_active (n : Z) g : ProcessOperationState :=
  {| phase := phase g; generation := generation g; active := n; pending_termination := pending_termination g |}.

(** The lease an open gate gives out. *)
Definition lease_of (domain : Z) p g : ProcessOperationLease :=
  {| lease_domain := domain; lease_process := p; lease_generation := generation g; lease_completed := false |}.

Lemma acquire_wp p t : wp (acquire_process_operation p) t
  (λ lease t', ∃ g, gate_at t p = Some g ∧ phase g = ProcessLifecycleState.AcceptingOperations ∧
     active g + 1 < 2 ^ 32 ∧ lease = lease_of (operation_domain t) p g ∧ gates t p (with_active (active g + 1) g) t')
  (λ _ t', t' = t).
Proof.
  unfold acquire_process_operation. wp_step. wp_step. wp_step. apply process_wp; [|done]. intros i record Hf.
  wp_step; [wp_step; done|]. apply negb_false_iff, bool_decide_eq_true in Heqb. wp_step. apply wp_ok_or.
  unfold checked_add. destruct (Z.ltb_spec (active (operations record) + 1) (2 ^ 32)); [|done].
  do 3 wp_step. exists (operations record). split_and!; [by eapply gate_find|done..|].
  by eapply with_operations_gates.
Qed.

Lemma validate_lease_wp lease p t g : gate_at t p = Some g → lease = lease_of (operation_domain t) p g →
  phase g ≠ ProcessLifecycleState.Exited → active g ≠ 0 →
  wp (validate_process_operation lease p) t (λ _ t', t' = t) (λ _ _, False).
Proof.
  intros Hg -> Hph Ha. unfold validate_process_operation. wp_step. wp_step. wp_step.
  apply process_wp; [|congruence]. intros i record Hf. rewrite (gate_find _ _ _ _ Hf) in Hg. injection Hg as <-. simpl.
  rewrite !Z.eqb_refl, bool_decide_true, bool_decide_false by done. rewrite (proj2 (Z.eqb_neq _ _)) by done. simpl.
  by wp_step.
Qed.

Lemma release_lease_wp lease p t g : gate_at t p = Some g → lease = lease_of (operation_domain t) p g →
  phase g ≠ ProcessLifecycleState.Exited → 1 ≤ active g →
  wp (release_process_operation lease) t (λ _ t', gates t p (with_active (active g - 1) g) t') (λ _ _, False).
Proof.
  intros Hg -> Hph Ha. unfold release_process_operation. wp_step. wp_step. wp_step.
  apply process_wp; [|simpl; congruence]. simpl. intros i record Hf.
  rewrite (gate_find _ _ _ _ Hf) in Hg. injection Hg as <-.
  rewrite !Z.eqb_refl, bool_decide_false by done. rewrite (proj2 (Z.eqb_neq _ _)) by lia. simpl.
  wp_step. unfold checked_sub. rewrite (proj2 (Z.leb_le _ _)) by lia. eapply wp_expect; [done|]. wp_step.
  by eapply with_operations_gates.
Qed.

(** A step towards the end of the process: the gate closes or is closed. *)
Record closes g g' : Prop := {
  cl_generation : generation g' = generation g;
  cl_active : active g' = active g;
  cl_phase : phase g ≠ ProcessLifecycleState.AcceptingOperations → phase g' ≠ ProcessLifecycleState.AcceptingOperations;
  cl_exited : phase g' = ProcessLifecycleState.Exited → phase g = ProcessLifecycleState.Exited ∨ active g = 0;
}.

Lemma closes_refl g : closes g g.
Proof. split; auto. Qed.

Definition advances t p t' : Prop := ∃ g g', gate_at t p = Some g ∧ closes g g' ∧ gates t p g' t'.

Lemma quiesce_wp p t : wp (begin_process_quiesce p) t
  (λ proof t', advances t p t' ∧ ∃ g, gate_at t' p = Some g ∧ active g = 0 ∧
     phase g = ProcessLifecycleState.Quiescing ∧
     proof = {| proof_domain := operation_domain t; proof_process := p; proof_generation := generation g |})
  (λ _ t', t' = t ∨ advances t p t').
Proof.
  unfold begin_process_quiesce. wp_step. wp_step. wp_step. apply process_wp; [|by left]. intros i record Hf.
  pose proof (gate_find _ _ _ _ Hf) as Hg. wp_step. destruct (phase (operations record)) eqn:Hph.
  - wp_step. pose proof (with_operations_gates t p i record record
      {| phase := ProcessLifecycleState.Quiescing; generation := generation (operations record);
         active := active (operations record); pending_termination := pending_termination (operations record) |}
      Hf eq_refl) as Hgs.
    assert (advances t p (with_operations i record
      {| phase := ProcessLifecycleState.Quiescing; generation := generation (operations record);
         active := active (operations record); pending_termination := pending_termination (operations record) |} t))
      as Hadv by (eexists _, _; split_and!; [exact Hg| |exact Hgs]; by split).
    wp_step; wp_step; [by right|]. apply negb_false_iff, Z.eqb_eq in Heqb. split; [done|].
    eexists. split; [by rewrite (ga_at _ _ _ _ Hgs), decide_True|done].
  - wp_step. assert (advances t p t) as Hadv
      by (eexists _, _; split_and!; [exact Hg|apply closes_refl|by apply gates_refl]).
    wp_step; wp_step; [by right|]. apply negb_false_iff, Z.eqb_eq in Heqb. split; [done|]. by exists (operations record).
  - wp_step. by left.
Qed.

Lemma closes_trans g g1 g2 : closes g g1 → closes g1 g2 → closes g g2.
Proof.
  intros [Hg Ha Hp He] [Hg' Ha' Hp' He']. split; [congruence|congruence|by auto|].
  intros Hx. destruct (He' Hx) as [?|?]; [by auto|]. right. congruence.
Qed.

Lemma advances_trans t p t1 t2 : advances t p t1 → advances t1 p t2 → advances t p t2.
Proof.
  intros (g & g1 & Hg & Hc & Hgs) (g1' & g2 & Hg' & Hc' & Hgs').
  rewrite (ga_at _ _ _ _ Hgs), decide_True in Hg' by done. injection Hg' as <-.
  exists g, g2. split_and!; [done|by eapply closes_trans|by eapply gates_trans].
Qed.

Lemma terminate_wp p record t : wp (begin_process_termination p record) t
  (λ _ t', advances t p t') (λ _ t', t' = t ∨ advances t p t').
Proof.
  unfold begin_process_termination. wp_step. apply process_wp; [|by left]. intros i r Hf.
  pose proof (gate_find _ _ _ _ Hf) as Hg. wp_step.
  assert (∀ t1, advances t p t1 → wp (begin_process_quiesce p) t1 (λ _ t', advances t p t')
            (λ _ t', t' = t ∨ advances t p t')) as Hq.
  { intros t1 H1. eapply wp_mono; [apply quiesce_wp| |].
    - intros _ t2 [H2 _]. by eapply advances_trans.
    - intros _ t2 [->|H2]; right; [done|by eapply advances_trans]. }
  wp_step; [wp_step|]; [..|wp_step]; [|wp_step; by left|].
  - apply Hq. eexists _, _. split_and!; [exact Hg|apply closes_refl|by apply gates_refl].
  - apply Hq. eexists _, _. split_and!; [exact Hg| |by eapply with_operations_gates]. split; auto.
Qed.

(** A proof of quiescence that is good for the authority. *)
Definition quiescent t (proof : ProcessQuiescenceProof) : Prop :=
  ∃ g, gate_at t (proof_process proof) = Some g ∧ proof_domain proof = operation_domain t ∧
    proof_generation proof = generation g ∧ phase g ≠ ProcessLifecycleState.AcceptingOperations ∧ active g = 0.

Lemma validate_quiescence_wp proof t : wp (validate_process_quiescence proof (proof_process proof)) t
  (λ _ t', t' = t ∧ quiescent t proof) (λ _ t', t' = t ∧ ¬ quiescent t proof).
Proof.
  unfold validate_process_quiescence. wp_step. wp_step. wp_step.
  apply process_wp; [|intros Hn; split; [done|]; intros (g & Hg & _); congruence].
  intros i record Hf. pose proof (gate_find _ _ _ _ Hf) as Hg. rewrite bool_decide_true by done. simpl.
  wp_step; wp_step; split; [done| |done|].
  - intros (g & Hg' & Hd & Hgen & Hph & Ha). rewrite Hg in Hg'. injection Hg' as <-.
    rewrite Hd, Hgen, !Z.eqb_refl, bool_decide_false, Ha in Heqb by done. done.
  - exists (operations record). rewrite !orb_false_iff, !negb_false_iff, !Z.eqb_eq, bool_decide_eq_false in Heqb.
    tauto.
Qed.

Lemma finish_exit_wp proof record t : wp (finish_process_exit proof record) t
  (λ _ t', advances t (proof_process proof) t') (λ _ t', t' = t).
Proof.
  unfold finish_process_exit. wp_step. eapply wp_mono; [apply validate_quiescence_wp| |by intros ? ? [-> _]].
  intros _ ? [-> (g & Hg & _ & _ & _ & Ha)]. wp_step. apply process_wp; [|done]. intros i r Hf.
  pose proof (gate_find _ _ _ _ Hf) as Hg'. rewrite Hg in Hg'. injection Hg' as ->.
  wp_step; [by wp_step|]. wp_step; [by wp_step|]. wp_step. wp_step.
  destruct (TaskStateRecord.terminate _ _) as [state|] eqn:Hs; [|done]. wp_step.
  eexists _, _. split_and!; [exact Hg| |by eapply with_operations_gates]. split; simpl; auto.
Qed.
