(* ===== verification/Blocked.v ===== *)
(** * Blocked operations and their winners

    [kernel/src/task/blocked_operation.rs].  Everything that can end a block
    (a signal, an atomic wake, a timeout, a cancellation, termination) claims
    it in one ledger, and the first claim wins.  A [BlockedOperation] owns
    what survives the block: its slot of the ledger, the resources of the
    system call and a lease on its process.  It is move-only, and dropping one
    that was not completed panics; where the source lets one go out of scope,
    [drop_operation] says so. *)

From stdpp Require Import base tactics numbers list.
From Stdlib Require Import ZArith Lia.
From S2P Require Import Prelude Abi Object Wait Gate.
Local Open Scope Z_scope.

Module BlockedOperationError.
Inductive t : Type :=
| Capacity
| DuplicateThread
| ForeignReservation
| StaleReservation
| ProcessStillBlocked
| WinnerMismatch
| Task (error : TaskError.t)
| OperationLeaseRequired.
End BlockedOperationError.

Module BlockedOperationWinner.
Inductive t : Type :=
| Signal (item_index : Z) (observed : DwSignals)
| AtomicWake
| Timeout
| Cancelled
| Terminal.

#[global] Instance t_eq_dec : EqDecision t.
Proof. solve_decision. Defined.
End BlockedOperationWinner.

(** The static [NEXT_BLOCKED_DOMAIN] is the state. *)
Definition mint_blocked_domain {E} : M Z E Z :=
  domain ← get;
  next ← expect (next_nonzero 64 domain);
  put next;;
  mret domain.

Record BlockedOperationReservation : Type := {
  reservation_domain : Z;
  reservation_slot : nat;
  reservation_generation : Z;
  reservation_process : ProcessKey;
  reservation_thread : ThreadKey;
  reservation_wake : BlockWakeKey;
}.

Record BlockedOperationsDrained : Type := {
  drained_domain : Z;
  drained_process : ProcessKey;
  task_domain : option Z;
  task_generation : option Z;
}.

Module BlockedOperationRegistry.

Record Entry : Type := {
  process : ProcessKey;
  thread : ThreadKey;
  wake : BlockWakeKey;
  winner : option BlockedOperationWinner.t;
}.

Record Slot : Type := { generation : Z; entry : option Entry }.

Definition EMPTY_SLOT : Slot := {| generation := 0; entry := None |}.

Record t : Type := { domain : Z; slots : list Slot }.

Definition new {E} (CAPACITY : nat) : M Z E t :=
  domain ← mint_blocked_domain;
  mret {| domain := domain; slots := replicate CAPACITY EMPTY_SLOT |}.

Definition with_slot (index : nat) (slot : Slot) (self : t) : t :=
  {| domain := domain self; slots := <[index := slot]> (slots self) |}.

(** [slot.entry.is_some_and(..)] *)
Definition holds (p : Entry → bool) (slot : Slot) : bool :=
  match entry slot with Some entry => p entry | None => false end.

Definition reserve (process : ProcessKey) (thread : ThreadKey) (wake : BlockWakeKey)
    : M t BlockedOperationError.t BlockedOperationReservation :=
  self ← get;
  if existsb (holds (λ entry, bool_decide (BlockedOperationRegistry.thread entry = thread))) (slots self)
  then fail BlockedOperationError.DuplicateThread
  else
    '(index, slot) ← ok_or (list_find (λ slot, entry slot = None ∧ generation slot ≠ 2 ^ 32 - 1) (slots self))
      BlockedOperationError.Capacity;
    generation ← ok_or (next_nonzero 32 (generation slot)) BlockedOperationError.Capacity;
    modify (with_slot index
      {| generation := generation;
         entry := Some {| process := process; thread := thread; wake := wake; winner := None |} |});;
    slot ← ok_or (try_from 16 (Z.of_nat index)) BlockedOperationError.Capacity;
    mret {| reservation_domain := domain self; reservation_slot := Z.to_nat slot;
            reservation_generation := generation; reservation_process := process;
            reservation_thread := thread; reservation_wake := wake |}.

Definition complete (reservation : BlockedOperationReservation) : M t BlockedOperationError.t unit :=
  self ← get;
  if negb (reservation_domain reservation =? domain self) then fail BlockedOperationError.ForeignReservation
  else
    slot ← ok_or (slots self !! reservation_slot reservation) BlockedOperationError.StaleReservation;
    if negb (generation slot =? reservation_generation reservation)
       || negb (holds (λ entry, bool_decide (process entry = reservation_process reservation)
                                && bool_decide (thread entry = reservation_thread reservation)
                                && bool_decide (wake entry = reservation_wake reservation)) slot)
    then fail BlockedOperationError.StaleReservation
    else modify (with_slot (reservation_slot reservation) {| generation := generation slot; entry := None |}).

(** [.filter_map(|slot| slot.entry..).find(|entry| entry.wake == wake)] *)
Definition find_wake (key : BlockWakeKey) (self : t) : option (nat * Slot) :=
  list_find (λ slot, holds (λ entry, bool_decide (wake entry = key)) slot) (slots self).

Definition try_claim_winner (key : BlockWakeKey) (claim : BlockedOperationWinner.t)
    : M t BlockedOperationError.t bool :=
  self ← get;
  '(index, slot) ← ok_or (find_wake key self) BlockedOperationError.StaleReservation;
  found ← expect (entry slot);
  match winner found with
  | Some _ => mret false
  | None =>
      modify (with_slot index
        {| generation := generation slot;
           entry := Some {| process := process found; thread := thread found; wake := wake found;
                            winner := Some claim |} |});;
      mret true
  end.

(** The method [winner]. *)
Definition winner_of (key : BlockWakeKey) : M t BlockedOperationError.t (option BlockedOperationWinner.t) :=
  self ← get;
  '(_, slot) ← ok_or (find_wake key self) BlockedOperationError.StaleReservation;
  found ← expect (entry slot);
  mret (winner found).

Definition has_thread (key : ThreadKey) (self : t) : bool :=
  existsb (holds (λ entry, bool_decide (thread entry = key))) (slots self).

Definition has_process (key : ProcessKey) (self : t) : bool :=
  existsb (holds (λ entry, bool_decide (process entry = key))) (slots self).

Definition drained_inner (self : t) (process : ProcessKey) : Result BlockedOperationsDrained BlockedOperationError.t :=
  if has_process process self then Err BlockedOperationError.ProcessStillBlocked
  else Ok {| drained_domain := domain self; drained_process := process; task_domain := None; task_generation := None |}.

Definition drained_after_quiesce (self : t) (proof : ProcessQuiescenceProof)
    : M TaskAuthority.t BlockedOperationError.t BlockedOperationsDrained :=
  map_err BlockedOperationError.Task (TaskAuthority.validate_process_quiescence proof (proof_process proof));;
  drained ← lift (drained_inner self (proof_process proof));
  mret {| drained_domain := drained_domain drained; drained_process := drained_process drained;
          task_domain := Some (proof_domain proof); task_generation := Some (proof_generation proof) |}.

Definition validate_drained_inner (self : t) (proof : BlockedOperationsDrained) (process : ProcessKey)
    : Result unit BlockedOperationError.t :=
  if negb (drained_domain proof =? domain self) || negb (bool_decide (drained_process proof = process))
  then Err BlockedOperationError.ForeignReservation
  else if has_process process self then Err BlockedOperationError.ProcessStillBlocked
  else Ok tt.

Definition validate_drained_after_quiesce (self : t) (proof : ProcessQuiescenceProof)
    (drained : BlockedOperationsDrained) : M TaskAuthority.t BlockedOperationError.t unit :=
  map_err BlockedOperationError.Task (TaskAuthority.validate_process_quiescence proof (proof_process proof));;
  if negb (bool_decide (task_domain drained = Some (proof_domain proof)))
     || negb (bool_decide (task_generation drained = Some (proof_generation proof)))
  then fail BlockedOperationError.ForeignReservation
  else lift (validate_drained_inner self drained (proof_process proof)).

End BlockedOperationRegistry.

(** * The owner of a blocked operation *)

Record BlockedOperation (RESOURCES : Type) : Type := {
  reservation : option BlockedOperationReservation;
  resources : option RESOURCES;
  process_lease : option ProcessOperationLease;
}.
Arguments reservation {_}.
Arguments resources {_}.
Arguments process_lease {_}.

Section operation.
Context {RESOURCES : Type}.
Implicit Types (self : BlockedOperation RESOURCES).

(** The destructor. *)
Definition drop_operation {S E} self : M S E unit :=
  assert_that (match reservation self, resources self with None, None => true | _, _ => false end);;
  assert_that (match process_lease self with None => true | _ => false end).

(** [?] in a method that owns [self]. *)
Definition or_drop {S E A} self (m : M S E A) : M S E A :=
  result ← try m;
  match result with
  | Ok a => mret a
  | Err error => drop_operation self;; fail error
  end.

Definition wake_key {S E} self : M S E BlockWakeKey :=
  reservation ← expect (reservation self);
  mret (reservation_wake reservation).

Definition publish_with_process_lease (lease : ProcessOperationLease) (process : ProcessKey)
    (thread : ThreadKey) (wake : BlockWakeKey) (resources : RESOURCES)
    : M (TaskAuthority.t * BlockedOperationRegistry.t) (BlockedOperationError.t * RESOURCES)
        (BlockedOperation RESOURCES) :=
  valid ← on_fst (try (TaskAuthority.validate_process_operation lease process));
  match valid with
  | Err error =>
      on_fst (unwrap (TaskAuthority.release_process_operation lease));;
      fail (BlockedOperationError.Task error, resources)
  | Ok _ =>
      reserved ← on_snd (try (BlockedOperationRegistry.reserve process thread wake));
      match reserved with
      | Ok reservation =>
          mret {| reservation := Some reservation; resources := Some resources; process_lease := Some lease |}
      | Err error =>
          on_fst (unwrap (TaskAuthority.release_process_operation lease));;
          fail (error, resources)
      end
  end.

Definition publish_for_process (process : ProcessKey) (thread : ThreadKey) (wake : BlockWakeKey)
    (resources : RESOURCES)
    : M (TaskAuthority.t * BlockedOperationRegistry.t) (BlockedOperationError.t * RESOURCES)
        (BlockedOperation RESOURCES) :=
  lease ← on_fst (map_err (λ error, (BlockedOperationError.Task error, resources))
                    (TaskAuthority.acquire_process_operation process));
  publish_with_process_lease lease process thread wake resources.

Definition complete_inner {RESULT} self (winner : BlockedOperationWinner.t) (cleanup : RESOURCES → RESULT)
    : M BlockedOperationRegistry.t BlockedOperationError.t RESULT :=
  held ← expect (reservation self);
  claimed ← or_drop self (BlockedOperationRegistry.try_claim_winner (reservation_wake held) winner);
  (if (claimed : bool) then mret tt
   else
     current ← or_drop self (BlockedOperationRegistry.winner_of (reservation_wake held));
     if bool_decide (current = Some winner) then mret tt
     else drop_operation self;; fail BlockedOperationError.WinnerMismatch);;
  owned ← expect (resources self);
  let result := cleanup owned in
  let spent := {| reservation := None; resources := None; process_lease := process_lease self |} in
  or_drop spent (BlockedOperationRegistry.complete held);;
  drop_operation spent;;
  mret result.

Definition complete_for_process {RESULT} self (winner : BlockedOperationWinner.t) (cleanup : RESOURCES → RESULT)
    : M (TaskAuthority.t * BlockedOperationRegistry.t) BlockedOperationError.t RESULT :=
  match process_lease self with
  | None => drop_operation self;; fail BlockedOperationError.OperationLeaseRequired
  | Some lease =>
      let rest := {| reservation := reservation self; resources := resources self; process_lease := None |} in
      completed ← on_snd (try (complete_inner rest winner cleanup));
      match completed with
      | Err error => drop_lease lease;; fail error
      | Ok result =>
          released ← on_fst (try (TaskAuthority.release_process_operation lease));
          match released with
          | Err (error, lease) => drop_lease lease;; fail (BlockedOperationError.Task error)
          | Ok _ => mret result
          end
      end
  end.

End operation.
