(* ===== verification/BlockedFacts.v ===== *)
(** * Facts about the ledger of blocked operations

    [entry_at] is what the ledger says of a block generation.  Reserving adds
    one entry, claiming decides an entry that is undecided, completing removes
    the entry of exactly the reservation. *)

From stdpp Require Import base tactics numbers list.
From Stdlib Require Import ZArith Lia.
From S2P Require Import Prelude Abi Object Wait Gate Blocked.
Import BlockedOperationRegistry.
Local Open Scope Z_scope.

Implicit Types (r : BlockedOperationRegistry.t) (k : BlockWakeKey) (e : Entry) (s : Slot).

Definition entries r : list Entry := omap entry (slots r).

Definition entry_at r k : option Entry := '(_, s) ← find_wake k r; entry s.

Record ledger_wf r : Prop := {
  lw_generation i s : slots r !! i = Some s → is_uint 32 (generation s);
  lw_live i s e : slots r !! i = Some s → entry s = Some e → 1 ≤ generation s;
  lw_wakes i j s s' e e' : slots r !! i = Some s → slots r !! j = Some s' → entry s = Some e → entry s' = Some e' →
    wake e = wake e' → i = j;
  lw_threads i j s s' e e' : slots r !! i = Some s → slots r !! j = Some s' → entry s = Some e → entry s' = Some e' →
    thread e = thread e' → i = j;
  lw_fits : Z.of_nat (length (slots r)) ≤ 2 ^ 16;
}.

Lemma holds_spec p s : holds p s = true ↔ ∃ e, entry s = Some e ∧ p e = true.
Proof. unfold holds. destruct (entry s); naive_solver. Qed.

Lemma find_wake_Some k r i s : find_wake k r = Some (i, s) →
  slots r !! i = Some s ∧ ∃ e, entry s = Some e ∧ wake e = k.
Proof.
  unfold find_wake. intros (Hi & Hh & _)%list_find_Some. split; [done|].
  apply Is_true_true, holds_spec in Hh as (e & He & Hk). exists e. by apply bool_decide_eq_true in Hk.
Qed.

Lemma find_wake_None k r i s e : find_wake k r = None → slots r !! i = Some s → entry s = Some e → wake e ≠ k.
Proof.
  unfold find_wake. intros Hn Hi He Hk. apply list_find_None in Hn. rewrite list.Forall_forall in Hn.
  apply (Hn s); [by eapply list_elem_of_lookup_2|]. apply Is_true_true, holds_spec. exists e.
  split; [done|]. by apply bool_decide_eq_true.
Qed.

Lemma entry_at_Some r k e : ledger_wf r →
  entry_at r k = Some e ↔ ∃ i s, slots r !! i = Some s ∧ entry s = Some e ∧ wake e = k.
Proof.
  intros Hwf. unfold entry_at. destruct (find_wake k r) as [[i s]|] eqn:Hf; simpl.
  - apply find_wake_Some in Hf as (Hi & e' & He' & Hk). split.
    + intros He. rewrite He' in He. injection He as ->. by exists i, s.
    + intros (j & s' & Hj & He & Hw). assert (i = j) as ->.
      { eapply (lw_wakes _ Hwf i j); [done..|congruence]. }
      congruence.
  - split; [done|]. intros (i & s & Hi & He & Hk). by destruct (find_wake_None _ _ _ _ _ Hf Hi He).
Qed.

Lemma entry_at_None r k i s e : ledger_wf r → entry_at r k = None → slots r !! i = Some s → entry s = Some e → wake e ≠ k.
Proof. intros Hwf Hn Hi He Hk. assert (entry_at r k = Some e) by (apply entry_at_Some; eauto). congruence. Qed.

Lemma has_process_spec r p : has_process p r = true ↔
  ∃ i s e, slots r !! i = Some s ∧ entry s = Some e ∧ process e = p.
Proof.
  unfold has_process. rewrite existsb_exists. split.
  - intros (s & (i & Hi)%list_elem_of_In%list_elem_of_lookup_1 & (e & He & Hp)%holds_spec).
    apply bool_decide_eq_true in Hp. eauto 6.
  - intros (i & s & e & Hi & He & Hp). exists s. split; [by eapply list_elem_of_In, list_elem_of_lookup_2|].
    apply holds_spec. exists e. split; [done|]. by apply bool_decide_eq_true.
Qed.

(** ** Updates of one slot *)

(** The slot [i] holds [o] at a generation that is not smaller. *)
Record sets r (i : nat) (g : Z) (o : option Entry) r' : Prop := {
  se_domain : domain r' = domain r;
  se_slots : slots r' = <[i := {| generation := g; entry := o |}]> (slots r);
  se_range : (i < length (slots r))%nat;
}.

Lemma sets_with_slot r i g o : (i < length (slots r))%nat →
  sets r i g o (with_slot i {| generation := g; entry := o |} r).
Proof. done. Qed.

Lemma sets_lookup r i g o r' j s : sets r i g o r' → slots r' !! j = Some s →
  (j = i ∧ s = {| generation := g; entry := o |}) ∨ (j ≠ i ∧ slots r !! j = Some s).
Proof.
  intros [_ Hs Hi]. rewrite Hs. destruct (decide (j = i)) as [->|Hne].
  - rewrite list_lookup_insert_eq by done. intros [= <-]. by left.
  - rewrite list_lookup_insert_ne by done. by right.
Qed.

Lemma slot_sets_wf r i g o r' : ledger_wf r → sets r i g o r' → is_uint 32 g → (is_Some o → 1 ≤ g) →
  (∀ e j s e', o = Some e → j ≠ i → slots r !! j = Some s → entry s = Some e' →
     wake e' ≠ wake e ∧ thread e' ≠ thread e) → ledger_wf r'.
Proof.
  intros Hwf Hset Hg Hlive Hfresh. split.
  - intros j s [[-> ->]|[_ Hj]]%(sets_lookup _ _ _ _ _ _ _ Hset); [done|by eapply Hwf].
  - intros j s e [[-> ->]|[_ Hj]]%(sets_lookup _ _ _ _ _ _ _ Hset) He; [apply Hlive; eauto|by eapply Hwf].
  - intros j1 j2 s1 s2 e1 e2 [[-> ->]|[Hn1 H1]]%(sets_lookup _ _ _ _ _ _ _ Hset)
      [[-> ->]|[Hn2 H2]]%(sets_lookup _ _ _ _ _ _ _ Hset) He1 He2 Hw; simpl in *; [done|..].
    + by destruct (Hfresh e1 j2 s2 e2).
    + by destruct (Hfresh e2 j1 s1 e1).
    + by eapply (lw_wakes _ Hwf).
  - intros j1 j2 s1 s2 e1 e2 [[-> ->]|[Hn1 H1]]%(sets_lookup _ _ _ _ _ _ _ Hset)
      [[-> ->]|[Hn2 H2]]%(sets_lookup _ _ _ _ _ _ _ Hset) He1 He2 Hw; simpl in *; [done|..].
    + by destruct (Hfresh e1 j2 s2 e2).
    + by destruct (Hfresh e2 j1 s1 e1).
    + by eapply (lw_threads _ Hwf).
  - rewrite (se_slots _ _ _ _ _ Hset), length_insert. apply Hwf.
Qed.

(** What an update does to [entry_at]: the old entry of the slot goes, the
    new one comes. *)
Lemma sets_entry_at r i g o r' s k : ledger_wf r → ledger_wf r' → sets r i g o r' → slots r !! i = Some s →
  entry_at r' k = if decide (Some k = wake <$> o) then o
                  else if decide (Some k = wake <$> entry s) then None else entry_at r k.
Proof.
  intros Hwf Hwf' Hset Hi. pose proof (se_range _ _ _ _ _ Hset) as Hlt.
  assert (slots r' !! i = Some {| generation := g; entry := o |}) as Hi'.
  { by rewrite (se_slots _ _ _ _ _ Hset), list_lookup_insert_eq. }
  case_decide as Hk; [|case_decide as Hk'].
  - destruct o as [e|]; simplify_eq/=. apply entry_at_Some; [done|]. by exists i, {| generation := g; entry := Some e |}.
  - destruct (entry_at r' k) as [e'|] eqn:He'; [|done]. apply entry_at_Some in He' as (j & s' & Hj & He' & Hw); [|done].
    exfalso. destruct (sets_lookup _ _ _ _ _ _ _ Hset Hj) as [[-> ->]|[Hne Hj0]]; simpl in *; [by subst o; simplify_eq/=|].
    destruct (entry s) as [e0|] eqn:He0; simplify_eq/=. by destruct Hne; eapply (lw_wakes _ Hwf).
  - apply option_eq. intros e'. rewrite !entry_at_Some by done. split.
    + intros (j & s' & Hj & He' & Hw). destruct (sets_lookup _ _ _ _ _ _ _ Hset Hj) as [[-> ->]|[Hne Hj0]]; simpl in *.
      * by subst o; simplify_eq/=.
      * by exists j, s'.
    + intros (j & s' & Hj & He' & Hw). exists j, s'. split; [|done].
      rewrite (se_slots _ _ _ _ _ Hset). destruct (decide (j = i)) as [->|]; [|by rewrite list_lookup_insert_ne].
      rewrite Hi in Hj. injection Hj as ->. rewrite He' in Hk'. by simplify_eq/=.
Qed.

(** ** The operations *)

(** The reservation's own entry is in the ledger. *)
Definition reserved r (res : BlockedOperationReservation) (w : option BlockedOperationWinner.t) : Prop :=
  reservation_domain res = domain r ∧
  slots r !! reservation_slot res = Some {| generation := reservation_generation res;
    entry := Some {| process := reservation_process res; thread := reservation_thread res;
                     wake := reservation_wake res; winner := w |} |}.

Lemma reserved_entry_at r res w : ledger_wf r → reserved r res w →
  entry_at r (reservation_wake res) = Some {| process := reservation_process res; thread := reservation_thread res;
                                              wake := reservation_wake res; winner := w |}.
Proof. intros Hwf [_ Hs]. apply entry_at_Some; [done|]. eauto. Qed.

Lemma reserved_has_process r res w : reserved r res w → has_process (reservation_process res) r = true.
Proof. intros [_ Hs]. apply has_process_spec. by eexists _, _, _. Qed.

(** The ledger grows by an undecided entry. *)
Record adds r (p : ProcessKey) (th : ThreadKey) k (res : BlockedOperationReservation) r' : Prop := {
  ad_wf : ledger_wf r';
  ad_domain : domain r' = domain r;
  ad_process : reservation_process res = p;
  ad_thread : reservation_thread res = th;
  ad_wake : reservation_wake res = k;
  ad_reserved : reserved r' res None;
  ad_others res' w : reserved r res' w → reserved r' res' w;
  ad_at k' : entry_at r' k' = if decide (k' = k)
    then Some {| process := p; thread := th; wake := k; winner := None |} else entry_at r k';
}.

Lemma reserve_block_wp p th k r : ledger_wf r → entry_at r k = None →
  wp (reserve p th k) r (λ res r', adds r p th k res r')
    (λ error r', r' = r ∧
       match error with
       | BlockedOperationError.DuplicateThread => has_thread th r = true
       | BlockedOperationError.Capacity => Forall (λ s, is_Some (entry s) ∨ generation s = 2 ^ 32 - 1) (slots r)
       | _ => False
       end).
Proof.
  intros Hwf Hn. unfold reserve. wp_step. wp_step. wp_step.
  { apply wp_fail. split; [done|]. done. }
  rename Heqb into Hdup. wp_step. apply wp_ok_or.
  destruct (list_find _ _) as [[i s]|] eqn:Hf.
  2: { split; [done|]. apply list_find_None in Hf. eapply Forall_impl; [exact Hf|]. intros s Hs.
       destruct (entry s) eqn:He; [left; eauto|]. right. destruct (decide (generation s = 2 ^ 32 - 1)); [done|]. by destruct Hs. }
  apply list_find_Some in Hf as (Hi & [He Hmax] & _). pose proof (lookup_lt_Some _ _ _ Hi) as Hlt.
  pose proof (lw_generation _ Hwf _ _ Hi) as Hg. pose proof (lw_fits _ Hwf) as Hfits.
  wp_step. apply wp_ok_or. unfold is_uint in Hg. destruct (next_nonzero 32 (generation s)) as [g|] eqn:Hnext.
  2: { apply next_nonzero_None in Hnext; [lia|done]. }
  apply next_nonzero_Some in Hnext as [-> Hg']; [|lia]. wp_step. wp_step. wp_step. apply wp_ok_or.
  unfold try_from. rewrite (proj2 (Z.ltb_lt _ _)) by lia. wp_step. rewrite Nat2Z.id.
  set (e := {| process := p; thread := th; wake := k; winner := None |}).
  pose proof (sets_with_slot r i (generation s + 1) (Some e) Hlt) as Hset.
  assert (ledger_wf (with_slot i {| generation := generation s + 1; entry := Some e |} r)) as Hwf'.
  { eapply slot_sets_wf; [done|exact Hset|unfold is_uint; lia|lia|]. intros ? j s' e' [= <-] Hne Hj He'. simpl. split.
    - by eapply entry_at_None.
    - intros Hth. apply not_true_iff_false in Hdup. apply Hdup, existsb_exists. exists s'.
      split; [by eapply list_elem_of_In, list_elem_of_lookup_2|]. apply holds_spec. exists e'.
      split; [done|]. by apply bool_decide_eq_true. }
  split; [done..| | |].
  - split; [done|]. simpl. by rewrite list_lookup_insert_eq.
  - intros res' w [Hd Hs]. split; [done|]. simpl. rewrite list_lookup_insert_ne; [done|].
    intros ->. rewrite Hi in Hs. by simplify_eq/=.
  - intros k'. rewrite (sets_entry_at _ _ _ _ _ _ _ Hwf Hwf' Hset Hi), He. simpl.
    subst e. simpl. repeat case_decide; simplify_eq; done.
Qed.

(** The entry of [k] is decided for [claim]; nothing else changes. *)
Record decides r k (claim : BlockedOperationWinner.t) e r' : Prop := {
  de_wf : ledger_wf r';
  de_undecided : entry_at r k = Some e ∧ winner e = None;
  de_others res w : reserved r res w → reservation_wake res ≠ k → reserved r' res w;
  de_mine res w : reserved r res w → reservation_wake res = k → reserved r' res (Some claim);
  de_domain : domain r' = domain r;
  de_at k' : entry_at r' k' = if decide (k' = k)
    then Some {| process := process e; thread := thread e; wake := k; winner := Some claim |} else entry_at r k';
}.

Lemma try_claim_winner_wp k claim r : ledger_wf r →
  wp (try_claim_winner k claim) r
    (λ won r', ∃ e, entry_at r k = Some e ∧
       if won then decides r k claim e r' else r' = r ∧ is_Some (winner e))
    (λ error r', r' = r ∧ error = BlockedOperationError.StaleReservation ∧ entry_at r k = None).
Proof.
  intros Hwf. unfold try_claim_winner. wp_step. wp_step. wp_step. apply wp_ok_or.
  destruct (find_wake k r) as [[i s]|] eqn:Hf; [|by unfold entry_at; rewrite Hf].
  pose proof (find_wake_Some _ _ _ _ Hf) as (Hi & e & He & Hk). pose proof (lookup_lt_Some _ _ _ Hi) as Hlt.
  assert (entry_at r k = Some e) as Hat by (apply entry_at_Some; eauto).
  wp_step. eapply wp_expect; [exact He|]. destruct (winner e) as [w|] eqn:Hw.
  { wp_step. exists e. split; [done|]. split; [done|]. by rewrite Hw. }
  wp_step. wp_step. wp_step. exists e. split; [done|].
  set (o := Some {| process := process e; thread := thread e; wake := wake e; winner := Some claim |}).
  pose proof (sets_with_slot r i (generation s) o Hlt) as Hset.
  assert (ledger_wf (with_slot i {| generation := generation s; entry := o |} r)) as Hwf'.
  { eapply slot_sets_wf; [done|exact Hset|by eapply Hwf|intros _; by eapply Hwf|].
    intros ? j s' e' [= <-] Hne Hj He'. simpl. split; intros Heq; destruct Hne.
    - by eapply (lw_wakes _ Hwf).
    - by eapply (lw_threads _ Hwf). }
  split; [done|done| | |done|].
  - intros res w [Hd Hs] Hne. split; [done|]. simpl. rewrite list_lookup_insert_ne; [done|].
    intros ->. rewrite Hi in Hs. injection Hs as ->. by simplify_eq/=.
  - intros res w [Hd Hs] Hres. split; [done|]. simpl.
    assert (i = reservation_slot res) as ->. { eapply (lw_wakes _ Hwf); [done|done|done|done|]. simpl. congruence. }
    rewrite list_lookup_insert_eq by done. rewrite Hi in Hs. injection Hs as ->. by simplify_eq/=.
  - intros k'. rewrite (sets_entry_at _ _ _ _ _ _ _ Hwf Hwf' Hset Hi), He. subst o. simpl. rewrite Hk.
    repeat case_decide; simplify_eq; done.
Qed.

Lemma winner_of_wp k r : ledger_wf r →
  wp (winner_of k) r (λ w r', r' = r ∧ ∃ e, entry_at r k = Some e ∧ winner e = w)
    (λ error r', r' = r ∧ error = BlockedOperationError.StaleReservation ∧ entry_at r k = None).
Proof.
  intros Hwf. unfold winner_of. wp_step. wp_step. wp_step. apply wp_ok_or.
  destruct (find_wake k r) as [[i s]|] eqn:Hf; [|by unfold entry_at; rewrite Hf].
  pose proof (find_wake_Some _ _ _ _ Hf) as (Hi & e & He & Hk).
  wp_step. eapply wp_expect; [exact He|]. wp_step. split; [done|]. exists e. split; [|done].
  apply entry_at_Some; eauto.
Qed.

(** The entry of the reservation goes. *)
Record removes r (res : BlockedOperationReservation) r' : Prop := {
  rm_wf : ledger_wf r';
  rm_domain : domain r' = domain r;
  rm_others res' w : reserved r res' w → reservation_wake res' ≠ reservation_wake res → reserved r' res' w;
  rm_at k : entry_at r' k = if decide (k = reservation_wake res) then None else entry_at r k;
}.

Lemma complete_wp res w r : ledger_wf r → reserved r res w →
  wp (complete res) r (λ _ r', removes r res r') (λ _ _, False).
Proof.
  intros Hwf [Hd Hs]. pose proof (lookup_lt_Some _ _ _ Hs) as Hlt. unfold complete. wp_step. wp_step.
  rewrite Hd, Z.eqb_refl. simpl. wp_step. apply wp_ok_or. rewrite Hs. simpl. rewrite Z.eqb_refl. simpl.
  unfold holds. simpl. rewrite !bool_decide_true by done. simpl. wp_step.
  pose proof (sets_with_slot r (reservation_slot res) (reservation_generation res) None Hlt) as Hset.
  match type of Hset with sets _ _ _ _ ?x => assert (ledger_wf x) as Hwf' end.
  { eapply slot_sets_wf; [done|exact Hset|by apply (lw_generation _ Hwf _ _ Hs)|by intros []|done]. }
  split; [done|done| |].
  - intros res' w' [Hd' Hs'] Hne. split; [done|]. simpl. rewrite list_lookup_insert_ne; [done|].
    intros Heq. rewrite <- Heq, Hs in Hs'. by simplify_eq/=.
  - intros k. rewrite (sets_entry_at _ _ _ _ _ _ _ Hwf Hwf' Hset Hs). simpl.
    repeat case_decide; simplify_eq; done.
Qed.
