(* ===== verification/BlockedMoves.v ===== *)
(** * Publishing and completing a blocked operation

    The two operations that reach both the gate of a process and the ledger.
    Publishing takes a lease and a ledger entry or neither; completing gives
    both back, or panics when something else has won. *)

From stdpp Require Import base tactics numbers list.
From Stdlib Require Import ZArith Lia.
From S2P Require Import Prelude Abi Object Wait Gate GateFacts Blocked BlockedFacts.
Import BlockedOperationRegistry.
Local Open Scope Z_scope.

Section moves.
Context {RESOURCES : Type}.
Implicit Types (op : BlockedOperation RESOURCES) (t : TaskAuthority.t) (r : BlockedOperationRegistry.t).

(** An operation as it is published: nothing is taken out of it yet. *)
Definition owns (res : BlockedOperationReservation) (owned : RESOURCES) (lease : ProcessOperationLease)
    : BlockedOperation RESOURCES :=
  {| reservation := Some res; resources := Some owned; process_lease := Some lease |}.

(** A lease that is given back. *)
Lemma returned g : with_active (active (with_active (active g + 1) g) - 1) (with_active (active g + 1) g) = g.
Proof. destruct g. unfold with_active. simpl. f_equal. lia. Qed.

Lemma publish_block_wp p th k owned t r : ledger_wf r → entry_at r k = None →
  (∀ g, gate_at t p = Some g → 0 ≤ active g) →
  wp (publish_for_process p th k owned) (t, r)
    (λ op '(t', r'), ∃ g res, gate_at t p = Some g ∧ phase g = ProcessLifecycleState.AcceptingOperations ∧
       gates t p (with_active (active g + 1) g) t' ∧ adds r p th k res r' ∧
       op = owns res owned (lease_of (TaskAuthority.operation_domain t) p g))
    (λ '(_, back) '(t', r'), back = owned ∧ r' = r ∧ (t' = t ∨ ∃ g, gate_at t p = Some g ∧ gates t p g t')).
Proof.
  intros Hwf Hk Hpos. unfold publish_for_process, publish_with_process_lease. wp_step. apply wp_on_fst. wp_step.
  eapply wp_mono; [apply acquire_wp| |]; cbn beta; [|intros error t' ->; split_and!; auto].
  intros lease t1 (g & Hg & Hph & Hlt & -> & Hgs). pose proof (Hpos _ Hg) as Hge.
  assert (gate_at t1 p = Some (with_active (active g + 1) g)) as Hg1 by (by rewrite (ga_at _ _ _ _ Hgs), decide_True).
  pose proof (ga_domain _ _ _ _ Hgs) as Hd.
  wp_step. apply wp_on_fst, wp_try. eapply wp_mono; [eapply validate_lease_wp; [exact Hg1|by rewrite Hd|..]| |done].
  { simpl. by rewrite Hph. }
  { simpl. lia. }
  intros _ ? ->. simpl. wp_step. apply wp_on_snd, wp_try. eapply wp_mono; [by apply reserve_block_wp| |].
  - intros res r' Had. wp_step. by exists g, res.
  - intros error r' [-> _]. wp_step. apply wp_on_fst, wp_unwrap.
    eapply wp_mono; [eapply release_lease_wp; [exact Hg1|by rewrite Hd|simpl; by rewrite Hph|simpl; lia]| |done].
    intros ? t2 Hgs2. wp_step. split_and!; [done..|]. right. exists g. split; [done|].
    eapply gates_trans; [exact Hgs|]. by rewrite returned in Hgs2.
Qed.

Lemma or_drop_wp {S E A} op (m : M S E A) s (Q : A → S → Prop) R :
  wp m s Q (λ _ _, False) → wp (or_drop op m) s Q R.
Proof.
  intros Hm. unfold or_drop. wp_step. apply wp_try. eapply wp_mono; [exact Hm| |done]. intros a s' HQ. by wp_step.
Qed.

Lemma complete_inner_wp {RESULT} res owned w c (cleanup : RESOURCES → RESULT) r : ledger_wf r → reserved r res w →
  w = None ∨ w = Some c →
  wp (complete_inner {| reservation := Some res; resources := Some owned; process_lease := None |} c cleanup) r
    (λ result r', result = cleanup owned ∧ removes r res r') (λ _ _, False).
Proof.
  intros Hwf Hres Hw. unfold complete_inner. cbn [reservation resources process_lease].
  pose proof (reserved_entry_at _ _ _ Hwf Hres) as Hat. wp_step. eapply wp_expect; [done|]. wp_step. apply or_drop_wp.
  eapply wp_mono; [by apply try_claim_winner_wp| |].
  2: { cbn beta. intros error r' (_ & _ & Hn). congruence. }
  intros claimed r1 (e & He & Hcl). rewrite Hat in He. injection He as <-. simpl in Hcl.
  assert (ledger_wf r1 ∧ reserved r1 res (Some c) ∧ domain r1 = domain r ∧
    (claimed = false → r1 = r ∧ w = Some c) ∧
    (∀ k, entry_at r1 k = if decide (k = reservation_wake res) then entry_at r1 k else entry_at r k) ∧
    (∀ res' w', reserved r res' w' → reservation_wake res' ≠ reservation_wake res → reserved r1 res' w'))
    as (Hwf1 & Hres1 & Hd1 & Hcl1 & Hat1 & Hoth).
  { destruct claimed.
    - split_and!; [apply Hcl|by eapply (de_mine _ _ _ _ _ Hcl)|apply Hcl|done| |by eapply (de_others _ _ _ _ _ Hcl)].
      intros k. rewrite (de_at _ _ _ _ _ Hcl k). by case_decide.
    - destruct Hcl as [-> Hs]. destruct Hw as [->| ->]; [by destruct Hs|]. split_and!; auto. intros k. by case_decide. }
  wp_step. eapply (wp_mono _ _ (λ _ r2, r2 = r1) _ (λ _ _, False)); [|intros [] ? ->|done].
  { destruct claimed; [by wp_step|]. destruct (Hcl1 eq_refl) as [-> ->]. wp_step. apply or_drop_wp.
    eapply wp_mono; [by apply winner_of_wp| |by intros ? ? (_ & _ & Hn); congruence].
    intros w ? [-> (e & He & <-)]. rewrite Hat in He. injection He as <-. simpl.
    rewrite bool_decide_true by done. by wp_step. }
  wp_step. eapply wp_expect; [done|]. wp_step. apply or_drop_wp.
  eapply wp_mono; [by eapply complete_wp| |done]. intros [] r2 Hrm.
  unfold drop_operation. cbn [reservation resources process_lease]. do 2 wp_step. apply wp_assert; [done|].
  apply wp_assert; [done|]. wp_step. split; [done|]. split; [apply Hrm|by rewrite (rm_domain _ _ _ Hrm)| |].
  - intros res' w' Hr' Hne. eapply (rm_others _ _ _ Hrm); auto.
  - intros k. rewrite (rm_at _ _ _ Hrm), Hat1. by case_decide.
Qed.

Lemma complete_wp_process {RESULT} res owned lease p w c (cleanup : RESOURCES → RESULT) t g r :
  ledger_wf r → reserved r res w → w = None ∨ w = Some c → gate_at t p = Some g →
  lease = lease_of (TaskAuthority.operation_domain t) p g → phase g ≠ ProcessLifecycleState.Exited → 1 ≤ active g →
  wp (complete_for_process (owns res owned lease) c cleanup) (t, r)
    (λ result '(t', r'), result = cleanup owned ∧ gates t p (with_active (active g - 1) g) t' ∧ removes r res r')
    (λ _ _, False).
Proof.
  intros Hwf Hres Hw Hg Hl Hph Ha. unfold complete_for_process. cbn [owns process_lease reservation resources].
  wp_step. apply wp_on_snd, wp_try. eapply wp_mono; [by eapply complete_inner_wp| |done].
  intros result r' [-> Hrm]. wp_step. apply wp_on_fst, wp_try. eapply wp_mono; [by eapply release_lease_wp| |done].
  intros [] t' Hgs. by wp_step.
Qed.

(** Completing with another winner than the one that won panics: the
    operation is dropped with its reservation. *)
Lemma mismatch_panics {RESULT} res owned lease w c (cleanup : RESOURCES → RESULT) t r :
  ledger_wf r → reserved r res (Some w) → w ≠ c → complete_for_process (owns res owned lease) c cleanup (t, r) = Panic.
Proof.
  intros Hwf Hres Hne. pose proof (reserved_entry_at _ _ _ Hwf Hres) as Hat.
  assert (try_claim_winner (reservation_wake res) c r = Ret r false) as Hclaim.
  { apply wp_returns. eapply wp_mono; [by apply try_claim_winner_wp| |by intros ? ? (_ & _ & ?); congruence].
    intros [] r' (e & He & Hd); rewrite Hat in He; injection He as <-; [|by destruct Hd].
    destruct (de_undecided _ _ _ _ _ Hd) as [_ Hn]. done. }
  assert (winner_of (reservation_wake res) r = Ret r (Some w)) as Hwin.
  { apply wp_returns. eapply wp_mono; [by apply winner_of_wp| |by intros ? ? (_ & _ & ?); congruence].
    intros ? r' [-> (e & He & <-)]. rewrite Hat in He. by injection He as <-. }
  unfold complete_for_process, complete_inner, or_drop, on_snd, try, mbind, M_bind, mret, M_ret, expect.
  cbn [owns process_lease reservation resources fst snd]. rewrite Hclaim. cbn beta iota. rewrite Hwin. cbn beta iota.
  rewrite bool_decide_false by congruence. done.
Qed.
End moves.
