(* ===== verification/BlockedSystem.v ===== *)
(** * Blocked operations of all threads together

    Threads publish blocked operations, anything may claim them, their owners
    complete them; processes come, close their gates and go.  The world keeps
    what the kernel's owners hold (operations and leases) and, for the
    statements, the claims that won in order and the keys and processes ever
    used. *)

From stdpp Require Import base tactics numbers list relations.
From Stdlib Require Import ZArith Lia.
From S2P Require Import Prelude Abi Object Wait Gate GateFacts Blocked BlockedFacts BlockedMoves.
Local Open Scope Z_scope.

(** ** Leases and gates *)

Definition leases_of (p : ProcessKey) (leases : list ProcessOperationLease) : Z :=
  Z.of_nat (length (filter (λ l, lease_process l = p) leases)).

(** The gates count exactly the leases outstanding. *)
Record gate_ok (t : TaskAuthority.t) (leases : list ProcessOperationLease) (known : list ObjectId) : Prop := {
  go_lease l : l ∈ leases → ∃ g, gate_at t (lease_process l) = Some g ∧
    l = lease_of (TaskAuthority.operation_domain t) (lease_process l) g ∧ phase g ≠ ProcessLifecycleState.Exited;
  go_count p g : gate_at t p = Some g → active g = leases_of p leases;
  go_objects : NoDup (objects t);
  go_known o : o ∈ objects t → o ∈ known;
}.

Lemma leases_of_cons p l leases :
  leases_of p (l :: leases) = leases_of p leases + (if decide (lease_process l = p) then 1 else 0).
Proof. unfold leases_of. rewrite filter_cons. case_decide; simpl; lia. Qed.

Lemma leases_of_pos p leases : 0 ≤ leases_of p leases.
Proof. unfold leases_of. lia. Qed.

Lemma leases_of_elem l leases : l ∈ leases → 1 ≤ leases_of (lease_process l) leases.
Proof.
  induction leases as [|l' leases IH]; [by intros ?%elem_of_nil|]. rewrite leases_of_cons, elem_of_cons.
  pose proof (leases_of_pos (lease_process l) leases). intros [->|Hin]; [rewrite decide_True by done; lia|].
  specialize (IH Hin). case_decide; lia.
Qed.

Lemma gate_ok_perm t leases leases' known : leases ≡ₚ leases' → gate_ok t leases known → gate_ok t leases' known.
Proof.
  intros Hp [Hl Hc Ho Hk]. split; [|intros p g Hg|done..].
  - intros l. rewrite <- Hp. apply Hl.
  - rewrite (Hc _ _ Hg). unfold leases_of. by rewrite Hp.
Qed.

(** The gate of [p] becomes [g'], with [leases'] outstanding. *)
Lemma gate_ok_gates t leases known p g g' t' leases' : gate_ok t leases known → gate_at t p = Some g → gates t p g' t' →
  generation g' = generation g → active g' = leases_of p leases' →
  (1 ≤ active g' → phase g' ≠ ProcessLifecycleState.Exited) →
  (∀ p', p' ≠ p → leases_of p' leases' = leases_of p' leases) →
  (∀ l, l ∈ leases' → l ∈ leases ∨ l = lease_of (TaskAuthority.operation_domain t) p g) → gate_ok t' leases' known.
Proof.
  intros [Hl Hc Ho Hk] Hg Hgs Hgen Hact Hex Hoth Hin. pose proof (ga_domain _ _ _ _ Hgs) as Hd. split.
  - intros l Hin'. rewrite (ga_at _ _ _ _ Hgs), Hd. case_decide as Hp.
    + exists g'. pose proof (leases_of_elem _ _ Hin') as H1. rewrite Hp in H1. split; [done|]. split; [|apply Hex; lia].
      destruct (Hin _ Hin') as [(g0 & Hg0 & Heq & _)%Hl|Heq].
      * rewrite Hp, Hg in Hg0. injection Hg0 as <-. rewrite Heq. unfold lease_of. simpl. by rewrite Hgen.
      * rewrite Heq. unfold lease_of. simpl. by rewrite Hgen.
    + destruct (Hin _ Hin') as [(g0 & Hg0 & Heq & Hph)%Hl|Heq]; [by exists g0|]. by rewrite Heq in Hp.
  - intros p' g0. rewrite (ga_at _ _ _ _ Hgs). case_decide as Hp; [by intros [= <-]; subst p'|].
    intros Hg0. by rewrite (Hc _ _ Hg0), Hoth.
  - by rewrite (ga_objects _ _ _ _ Hgs).
  - intros o. rewrite (ga_objects _ _ _ _ Hgs). apply Hk.
Qed.

Lemma gate_ok_acquire t leases known p g t' : gate_ok t leases known → gate_at t p = Some g →
  phase g = ProcessLifecycleState.AcceptingOperations → gates t p (with_active (active g + 1) g) t' →
  gate_ok t' (lease_of (TaskAuthority.operation_domain t) p g :: leases) known.
Proof.
  intros Hok Hg Hph Hgs. eapply gate_ok_gates; [exact Hok|exact Hg|exact Hgs|done| | | |].
  - rewrite leases_of_cons. simpl. rewrite decide_True by done. by rewrite (go_count _ _ _ Hok _ _ Hg).
  - simpl. by rewrite Hph.
  - intros p' Hne. rewrite leases_of_cons. simpl. rewrite decide_False by done. lia.
  - intros l. rewrite elem_of_cons. tauto.
Qed.

Lemma gate_ok_release t l leases known g t' : gate_ok t (l :: leases) known → gate_at t (lease_process l) = Some g →
  gates t (lease_process l) (with_active (active g - 1) g) t' → gate_ok t' leases known.
Proof.
  intros Hok Hg Hgs. pose proof (go_count _ _ _ Hok _ _ Hg) as Hc. rewrite leases_of_cons, decide_True in Hc by done.
  destruct (go_lease _ _ _ Hok l) as (g0 & Hg0 & _ & Hph); [by left|]. rewrite Hg in Hg0. injection Hg0 as <-.
  eapply gate_ok_gates; [exact Hok|exact Hg|exact Hgs|done|simpl; lia|done| |].
  - intros p' Hne. rewrite leases_of_cons, decide_False by done. lia.
  - intros l' Hin. left. by right.
Qed.

Lemma gate_ok_advance t leases known p t' : gate_ok t leases known → advances t p t' → gate_ok t' leases known.
Proof.
  intros Hok (g & g' & Hg & [Hgen Hact _ Hex] & Hgs). pose proof (go_count _ _ _ Hok _ _ Hg) as Hc.
  eapply gate_ok_gates; [exact Hok|exact Hg|exact Hgs|done|congruence| |done|by left].
  intros H1 Hx. destruct (Hex Hx) as [Hph|]; [|lia].
  assert (∃ l, l ∈ leases ∧ lease_process l = p) as (l & Hin & <-).
  { rewrite Hact, Hc in H1. unfold leases_of in H1. destruct (filter _ leases) as [|l ls] eqn:Hf; [simpl in H1; lia|].
    assert (l ∈ filter (λ l, lease_process l = p) leases) as [Hp Hin]%list_elem_of_filter by (rewrite Hf; by left).
    by exists l. }
  destruct (go_lease _ _ _ Hok _ Hin) as (g0 & Hg0 & _ & Hph0). congruence.
Qed.

(** Records come and go. *)
Lemma gate_at_spec t p g : NoDup (objects t) → gate_at t p = Some g ↔
  ∃ i record, TaskAuthority.processes t !! i = Some (Some record) ∧ process_object record = process_key_object p ∧
    operations record = g.
Proof.
  intros Hnd. split.
  - unfold gate_at. intros ([i record] & (Hi & Hr & _)%find_process_Some & [= <-])%bind_Some. by exists i, record.
  - intros (i & record & Hi & Hr & <-). destruct (find_process t p) as [[j record']|] eqn:Hf.
    + rewrite (gate_find _ _ _ _ Hf). apply find_process_Some in Hf as (Hj & Hr' & Hfirst).
      destruct (decide (j = i)) as [->|Hne]; [congruence|]. exfalso.
      assert (j < i)%nat as Hlt.
      { destruct (decide (i < j)%nat) as [Hij|]; [|lia]. pose proof (Hfirst _ _ Hij Hi) as Hno.
        simpl in Hno. by rewrite bool_decide_true in Hno. }
      unfold objects in Hnd. rewrite <- (take_drop_middle _ _ _ Hi), omap_app in Hnd. simpl in Hnd.
      apply NoDup_app in Hnd as (_ & Hdis & _). apply (Hdis (process_object record)).
      * rewrite Hr, <- Hr'. apply list_elem_of_omap. exists (Some record'). split; [|done].
        apply list_elem_of_lookup. exists j. by rewrite lookup_take_lt.
      * by left.
    + eapply find_process_None in Hf; [|exact Hi]. simpl in Hf. by rewrite bool_decide_true in Hf.
Qed.

(** A record with a new object appears. *)
Definition appears (i : nat) (o : ObjectId) (t : TaskAuthority.t) : TaskAuthority.t :=
  {| TaskAuthority.operation_domain := TaskAuthority.operation_domain t;
     TaskAuthority.processes := <[i := Some {| process_object := o; process_state := TaskStateRecord.created;
                                               operations := accepting |}]> (TaskAuthority.processes t) |}.

(** A record disappears. *)
Definition disappears (i : nat) (t : TaskAuthority.t) : TaskAuthority.t :=
  {| TaskAuthority.operation_domain := TaskAuthority.operation_domain t;
     TaskAuthority.processes := <[i := None]> (TaskAuthority.processes t) |}.

Lemma objects_insert t i o o' domain : TaskAuthority.processes t !! i = Some o →
  option_list (process_object <$> o) ++
    objects {| TaskAuthority.operation_domain := domain; TaskAuthority.processes := <[i := o']> (TaskAuthority.processes t) |}
  ≡ₚ option_list (process_object <$> o') ++ objects t.
Proof.
  intros Hi. unfold objects. simpl. rewrite insert_take_drop by (by eapply lookup_lt_Some).
  rewrite <- (take_drop_middle (TaskAuthority.processes t) i o) at 3 by done. rewrite !omap_app. simpl.
  destruct o as [r|], o' as [r'|]; simpl; rewrite <- ?Permutation_middle; [apply perm_swap|done..].
Qed.

Lemma gate_ok_appears t leases known i o : gate_ok t leases known → TaskAuthority.processes t !! i = Some None →
  o ∉ known → gate_ok (appears i o t) leases (o :: known) ∧
  ∀ p, gate_at (appears i o t) p = if decide (process_key_object p = o) then Some accepting else gate_at t p.
Proof.
  intros [Hl Hc Ho Hk] Hi Hnew. pose proof (lookup_lt_Some _ _ _ Hi) as Hlt.
  pose proof (objects_insert t i None (Some {| process_object := o; process_state := TaskStateRecord.created;
    operations := accepting |}) (TaskAuthority.operation_domain t) Hi) as Hperm. simpl in Hperm.
  assert (NoDup (objects (appears i o t))) as Hnd.
  { unfold appears. rewrite Hperm. apply list.NoDup_cons. split; [|done]. auto. }
  assert (∀ p, gate_at (appears i o t) p = if decide (process_key_object p = o) then Some accepting else gate_at t p) as Hat.
  { intros p. apply option_eq. intros g. rewrite (gate_at_spec _ _ _ Hnd). case_decide as Hp.
    - split.
      + intros (j & r & Hj & Hr & <-). simpl in Hj. destruct (decide (j = i)) as [->|Hne].
        * rewrite list_lookup_insert_eq in Hj by done. by simplify_eq/=.
        * rewrite list_lookup_insert_ne in Hj by done. destruct Hnew. rewrite <- Hp, <- Hr. apply Hk, list_elem_of_omap.
          exists (Some r). split; [by eapply list_elem_of_lookup_2|done].
      + intros [= <-]. eexists i, _. simpl. by rewrite list_lookup_insert_eq.
    - rewrite (gate_at_spec _ _ _ Ho). split; intros (j & r & Hj & Hr & <-); exists j, r; (split; [|done]); simpl in *.
      + destruct (decide (j = i)) as [->|Hne]; [|by rewrite list_lookup_insert_ne in Hj].
        rewrite list_lookup_insert_eq in Hj by done. by simplify_eq/=.
      + by rewrite list_lookup_insert_ne by congruence. }
  split; [|done]. split; [|intros p g|done|].
  - intros l (g & Hg & Heq)%Hl. exists g. rewrite Hat, decide_False; [done|]. intros Hp. apply Hnew. rewrite <- Hp. apply Hk.
    apply (gate_at_spec _ _ _ Ho) in Hg as (j & r & Hj & <- & _). apply list_elem_of_omap.
    exists (Some r). split; [by eapply list_elem_of_lookup_2|done].
  - rewrite Hat. case_decide as Hp; [|apply Hc]. intros [= <-]. simpl. unfold leases_of.
    destruct (filter _ leases) as [|l ls] eqn:Hf; [done|]. exfalso. apply Hnew.
    assert (l ∈ filter (λ l, lease_process l = p) leases) as [Hlp (g & Hg & _)%Hl]%list_elem_of_filter
      by (rewrite Hf; by left).
    rewrite <- Hp, <- Hlp. apply Hk. apply (gate_at_spec _ _ _ Ho) in Hg as (j & r & Hj & <- & _).
    apply list_elem_of_omap. exists (Some r). split; [by eapply list_elem_of_lookup_2|done].
  - intros o'. unfold appears. rewrite Hperm, !elem_of_cons. naive_solver.
Qed.

Lemma gate_ok_disappears t leases known i record : gate_ok t leases known →
  TaskAuthority.processes t !! i = Some (Some record) → active (operations record) = 0 →
  gate_ok (disappears i t) leases known ∧
  ∀ p, gate_at (disappears i t) p = if decide (process_key_object p = process_object record) then None else gate_at t p.
Proof.
  intros [Hl Hc Ho Hk] Hi Hact. pose proof (lookup_lt_Some _ _ _ Hi) as Hlt.
  pose proof (objects_insert t i (Some record) None (TaskAuthority.operation_domain t) Hi) as Hperm. simpl in Hperm.
  assert ((process_object record ∉ objects (disappears i t)) ∧ NoDup (objects (disappears i t))) as [Hgone Hnd].
  { apply list.NoDup_cons. unfold disappears. by rewrite Hperm. }
  assert (∀ p, gate_at (disappears i t) p =
    if decide (process_key_object p = process_object record) then None else gate_at t p) as Hat.
  { intros p. apply option_eq. intros g. rewrite (gate_at_spec _ _ _ Hnd). case_decide as Hp.
    - split; [|done]. intros (j & r & Hj & Hr & _). destruct Hgone. rewrite <- Hp, <- Hr. apply list_elem_of_omap.
      exists (Some r). split; [by eapply list_elem_of_lookup_2|done].
    - rewrite (gate_at_spec _ _ _ Ho). split; intros (j & r & Hj & Hr & <-); exists j, r; (split; [|done]); simpl in *.
      + destruct (decide (j = i)) as [->|Hne]; [|by rewrite list_lookup_insert_ne in Hj].
        by rewrite list_lookup_insert_eq in Hj.
      + rewrite list_lookup_insert_ne; [done|]. intros ->. rewrite Hi in Hj. by simplify_eq. }
  split; [|done]. split; [|intros p g|done|].
  - intros l Hin. destruct (Hl _ Hin) as (g & Hg & Heq). exists g. rewrite Hat, decide_False; [done|]. intros Hp.
    assert (gate_at t (lease_process l) = Some (operations record)) as Hg'
      by (apply (gate_at_spec _ _ _ Ho); by exists i, record).
    pose proof (leases_of_elem _ _ Hin). rewrite <- (Hc _ _ Hg') in *. lia.
  - rewrite Hat. case_decide; [done|apply Hc].
  - intros o Hin. apply Hk. rewrite <- Hperm. by right.
Qed.

(** ** The world *)

Section world.
Context {RESOURCES : Type}.

Record block_world : Type := {
  bw_tasks : TaskAuthority.t;
  bw_ledger : BlockedOperationRegistry.t;
  bw_operations : list (BlockedOperation RESOURCES);
  bw_leases : list ProcessOperationLease;
  bw_won : list (BlockWakeKey * BlockedOperationWinner.t);
  bw_used : list BlockWakeKey;
  bw_known : list ObjectId;
}.

Implicit Types (w : block_world) (op : BlockedOperation RESOURCES) (k : BlockWakeKey).

(** The first claim on [k] that won. *)
Definition decided (won : list (BlockWakeKey * BlockedOperationWinner.t)) k : option BlockedOperationWinner.t :=
  snd <$> head (filter (λ x, x.1 = k) won).

Definition settle (won : list (BlockWakeKey * BlockedOperationWinner.t)) k (c : BlockedOperationWinner.t) :=
  match decided won k with Some _ => won | None => won ++ [(k, c)] end.

Definition op_wake op : option BlockWakeKey := reservation_wake <$> reservation op.

(** Calls that move the gate of a process towards its end. *)
Inductive gate_call (t : TaskAuthority.t) : TaskAuthority.t → Prop :=
| gc_quiesce p t' proof : TaskAuthority.begin_process_quiesce p t = Ret t' proof → gate_call t t'
| gc_quiesce_fails p t' error : TaskAuthority.begin_process_quiesce p t = Fail t' error → gate_call t t'
| gc_terminate p record t' proof : TaskAuthority.begin_process_termination p record t = Ret t' proof → gate_call t t'
| gc_terminate_fails p record t' error :
    TaskAuthority.begin_process_termination p record t = Fail t' error → gate_call t t'
| gc_exit proof record t' : TaskAuthority.finish_process_exit proof record t = Ret t' tt → gate_call t t'
| gc_exit_fails proof record t' error : TaskAuthority.finish_process_exit proof record t = Fail t' error → gate_call t t'.

Definition with_tasks (t : TaskAuthority.t) w : block_world :=
  {| bw_tasks := t; bw_ledger := bw_ledger w; bw_operations := bw_operations w; bw_leases := bw_leases w;
     bw_won := bw_won w; bw_used := bw_used w; bw_known := bw_known w |}.

Inductive block_step w : block_world → Prop :=
| bs_publish p th k (owned : RESOURCES) t r op : k ∉ bw_used w →
    publish_for_process p th k owned (bw_tasks w, bw_ledger w) = Ret (t, r) op →
    block_step w {| bw_tasks := t; bw_ledger := r; bw_operations := op :: bw_operations w; bw_leases := bw_leases w;
      bw_won := bw_won w; bw_used := k :: bw_used w; bw_known := bw_known w |}
| bs_publish_fails p th k (owned : RESOURCES) t r error : k ∉ bw_used w →
    publish_for_process p th k owned (bw_tasks w, bw_ledger w) = Fail (t, r) error →
    block_step w {| bw_tasks := t; bw_ledger := r; bw_operations := bw_operations w; bw_leases := bw_leases w;
      bw_won := bw_won w; bw_used := k :: bw_used w; bw_known := bw_known w |}
| bs_claim k c r (b : bool) : BlockedOperationRegistry.try_claim_winner k c (bw_ledger w) = Ret r b →
    block_step w {| bw_tasks := bw_tasks w; bw_ledger := r; bw_operations := bw_operations w; bw_leases := bw_leases w;
      bw_won := if b then bw_won w ++ [(k, c)] else bw_won w; bw_used := bw_used w; bw_known := bw_known w |}
| bs_complete op ops k c RESULT (cleanup : RESOURCES → RESULT) t r result : bw_operations w ≡ₚ op :: ops →
    op_wake op = Some k → complete_for_process op c cleanup (bw_tasks w, bw_ledger w) = Ret (t, r) result →
    block_step w {| bw_tasks := t; bw_ledger := r; bw_operations := ops; bw_leases := bw_leases w;
      bw_won := settle (bw_won w) k c; bw_used := bw_used w; bw_known := bw_known w |}
| bs_acquire p t lease : TaskAuthority.acquire_process_operation p (bw_tasks w) = Ret t lease →
    block_step w {| bw_tasks := t; bw_ledger := bw_ledger w; bw_operations := bw_operations w;
      bw_leases := lease :: bw_leases w; bw_won := bw_won w; bw_used := bw_used w; bw_known := bw_known w |}
| bs_release lease leases t : bw_leases w ≡ₚ lease :: leases →
    TaskAuthority.release_process_operation lease (bw_tasks w) = Ret t tt →
    block_step w {| bw_tasks := t; bw_ledger := bw_ledger w; bw_operations := bw_operations w;
      bw_leases := leases; bw_won := bw_won w; bw_used := bw_used w; bw_known := bw_known w |}
| bs_gate t : gate_call (bw_tasks w) t → block_step w (with_tasks t w)
| bs_appears i o : TaskAuthority.processes (bw_tasks w) !! i = Some None → o ∉ bw_known w →
    block_step w {| bw_tasks := appears i o (bw_tasks w); bw_ledger := bw_ledger w; bw_operations := bw_operations w;
      bw_leases := bw_leases w; bw_won := bw_won w; bw_used := bw_used w; bw_known := o :: bw_known w |}
| bs_disappears i record : TaskAuthority.processes (bw_tasks w) !! i = Some (Some record) →
    active (operations record) = 0 → block_step w (with_tasks (disappears i (bw_tasks w)) w).

(** ** The invariant *)

Definition all_leases w : list ProcessOperationLease := omap process_lease (bw_operations w) ++ bw_leases w.

(** An outstanding operation and what the ledger says of it. *)
Definition op_ok (r : BlockedOperationRegistry.t) (won : list (BlockWakeKey * BlockedOperationWinner.t)) op : Prop :=
  ∃ res owned lease, op = owns res owned lease ∧ lease_process lease = reservation_process res ∧
    reserved r res (decided won (reservation_wake res)).

Record ledger_ok (r : BlockedOperationRegistry.t) (ops : list (BlockedOperation RESOURCES))
    (won : list (BlockWakeKey * BlockedOperationWinner.t)) (used : list BlockWakeKey) : Prop := {
  lo_wf : ledger_wf r;
  lo_ops : Forall (op_ok r won) ops;
  lo_unique : NoDup (omap op_wake ops);
  lo_used k : k ∈ omap op_wake ops → k ∈ used;
  lo_owned k e : entry_at r k = Some e → k ∈ omap op_wake ops;
  lo_won : NoDup won.*1;
  lo_won_used k : k ∈ won.*1 → k ∈ used;
}.

Definition block_ok w : Prop :=
  ledger_ok (bw_ledger w) (bw_operations w) (bw_won w) (bw_used w) ∧
  gate_ok (bw_tasks w) (all_leases w) (bw_known w).

Lemma decided_app won k c k' :
  decided (won ++ [(k, c)]) k' =
    match decided won k' with Some c' => Some c' | None => if decide (k' = k) then Some c else None end.
Proof.
  unfold decided. rewrite filter_app. destruct (filter (λ x, x.1 = k') won) as [|[k0 c0] xs]; [|done].
  rewrite filter_cons. simpl. by repeat case_decide; simplify_eq/=.
Qed.

Lemma decided_None won k : decided won k = None ↔ k ∉ won.*1.
Proof.
  unfold decided. rewrite fmap_None, head_None. split.
  - intros Hf (x & -> & Hx)%list_elem_of_fmap.
    assert (x ∈ filter (λ y, y.1 = x.1) won) as Hin by (by apply list_elem_of_filter). rewrite Hf in Hin. by apply elem_of_nil in Hin.
  - intros Hn. destruct (filter _ won) as [|x xs] eqn:Hf; [done|]. exfalso. apply Hn.
    assert (x ∈ filter (λ y, y.1 = k) won) as [Hx Hin]%list_elem_of_filter by (rewrite Hf; by left).
    apply list_elem_of_fmap. by exists x.
Qed.

Lemma op_wake_owns res owned lease : op_wake (owns res owned lease) = Some (reservation_wake res).
Proof. done. Qed.

(** The ledger changes, and the operations that stay are told the same. *)
Lemma ops_ok_impl r r' won won' ops : Forall (op_ok r won) ops →
  (∀ res c, reservation_wake res ∈ omap op_wake ops → reserved r res c → c = decided won (reservation_wake res) →
     reserved r' res (decided won' (reservation_wake res))) → Forall (op_ok r' won') ops.
Proof.
  rewrite !list.Forall_forall. intros Hops Himp op Hin.
  destruct (Hops op Hin) as (res & owned & lease & -> & Hp & Hres). exists res, owned, lease. split_and!; [done..|].
  eapply Himp; [|exact Hres|done]. apply list_elem_of_omap. by exists (owns res owned lease).
Qed.

Lemma ledger_ok_publish r ops won used p th k owned res lease r' : ledger_ok r ops won used → k ∉ used →
  adds r p th k res r' → lease_process lease = p → ledger_ok r' (owns res owned lease :: ops) won (k :: used).
Proof.
  intros [Hwf Hops Hu Hused Howned Hwon Hwu] Hk Had Hl. pose proof (ad_wake _ _ _ _ _ _ Had) as Hw. split.
  - apply Had.
  - apply Forall_cons. split.
    + exists res, owned, lease. split_and!; [done|by rewrite (ad_process _ _ _ _ _ _ Had)|].
      rewrite Hw. rewrite (proj2 (decided_None won k)) by (by intros ?%Hwu). apply Had.
    + eapply ops_ok_impl; [exact Hops|]. intros res' c _ Hres ->. by eapply (ad_others _ _ _ _ _ _ Had).
  - simpl. rewrite Hw. apply list.NoDup_cons. split; [|done]. by intros ?%Hused.
  - simpl. rewrite Hw. intros k'. rewrite !elem_of_cons. intros [->|?]; auto.
  - intros k' e. rewrite (ad_at _ _ _ _ _ _ Had). simpl. rewrite Hw, elem_of_cons. case_decide; [by left|]. eauto.
  - done.
  - intros k' ?%Hwu. by right.
Qed.

Lemma ledger_ok_claim r ops won used k c e r' : ledger_ok r ops won used → decides r k c e r' →
  ledger_ok r' ops (won ++ [(k, c)]) used.
Proof.
  intros [Hwf Hops Hu Hused Howned Hwon Hwu] Hd. destruct (de_undecided _ _ _ _ _ Hd) as [Hat Hn].
  pose proof (Howned _ _ Hat) as Hin.
  assert (decided won k = None) as Hdec.
  { apply list_elem_of_omap in Hin as (op & Hop & Hk). rewrite list.Forall_forall in Hops.
    destruct (Hops op Hop) as (res & owned & lease & -> & _ & Hres). injection Hk as Hk. rewrite <- Hk.
    apply (reserved_entry_at _ _ _ Hwf) in Hres. rewrite Hk, Hat in Hres. injection Hres as ->. by rewrite <- Hn, Hk. }
  split; [apply Hd| |done..| | |].
  - eapply ops_ok_impl; [exact Hops|]. intros res c' _ Hres ->. rewrite decided_app.
    destruct (decide (reservation_wake res = k)) as [Heq|Hne].
    + rewrite Heq, Hdec. by eapply (de_mine _ _ _ _ _ Hd).
    + destruct (decided won (reservation_wake res)) eqn:?; by apply (de_others _ _ _ _ _ Hd).
  - intros k' e'. rewrite (de_at _ _ _ _ _ Hd). case_decide; [subst; done|]. apply Howned.
  - rewrite fmap_app. apply NoDup_app. split_and!; [done| |apply NoDup_singleton].
    intros k' Hk'. simpl. intros ->%list_elem_of_singleton. by apply decided_None in Hdec.
  - intros k'. rewrite fmap_app, elem_of_app. simpl. rewrite list_elem_of_singleton. intros [?| ->]; auto.
Qed.

Lemma ledger_ok_complete r op ops won used k c res r' : ledger_ok r (op :: ops) won used → op_wake op = Some k →
  reservation_wake res = k → removes r res r' → ledger_ok r' ops (settle won k c) used.
Proof.
  intros [Hwf Hops Hu Hused Howned Hwon Hwu] Hk Hres Hrm. simpl in Hu. rewrite Hk in Hu.
  apply list.NoDup_cons in Hu as [Hnk Hu]. apply Forall_cons in Hops as [_ Hops]. split; [apply Hrm| |done| | | |].
  - eapply ops_ok_impl; [exact Hops|]. intros res' c' Hin Hr ->.
    assert (reservation_wake res' ≠ k) as Hne by (intros Heq; apply Hnk; by rewrite <- Heq).
    assert (decided (settle won k c) (reservation_wake res') = decided won (reservation_wake res')) as ->.
    { unfold settle. destruct (decided won k); [done|]. rewrite decided_app, decide_False by done. by destruct (decided won _). }
    apply (rm_others _ _ _ Hrm); [done|congruence].
  - intros k' Hin. apply Hused. simpl. rewrite Hk. by right.
  - intros k' e. rewrite (rm_at _ _ _ Hrm). case_decide as Hd; [done|]. intros Hat%Howned. simpl in Hat. rewrite Hk in Hat.
    apply elem_of_cons in Hat as [Heq|?]; [congruence|done].
  - unfold settle. destruct (decided won k) eqn:Hd; [done|]. rewrite fmap_app. apply NoDup_app.
    split_and!; [done| |apply NoDup_singleton]. intros k' Hk'. simpl. intros ->%list_elem_of_singleton. by apply decided_None in Hd.
  - unfold settle. destruct (decided won k); [done|]. intros k'. rewrite fmap_app, elem_of_app. simpl.
    rewrite list_elem_of_singleton. intros [?| ->]; [auto|]. apply Hused. simpl. rewrite Hk. by left.
Qed.

Lemma ledger_ok_perm r ops ops' won used : ops ≡ₚ ops' → ledger_ok r ops won used → ledger_ok r ops' won used.
Proof.
  intros Hp [Hwf Hops Hu Hused Howned Hwon Hwu]. split; [done|by rewrite <- Hp|by rewrite <- Hp| | |done..].
  - intros k. rewrite <- Hp. apply Hused.
  - intros k e. rewrite <- Hp. apply Howned.
Qed.

Lemma ledger_ok_used r ops won used used' : (∀ k, k ∈ used → k ∈ used') → ledger_ok r ops won used →
  ledger_ok r ops won used'.
Proof. intros Hs [Hwf Hops Hu Hused Howned Hwon Hwu]. split; auto. Qed.

(** What is known of an outstanding operation. *)
Lemma op_facts w op : block_ok w → op ∈ bw_operations w →
  ∃ res owned lease g, op = owns res owned lease ∧ lease_process lease = reservation_process res ∧
    reserved (bw_ledger w) res (decided (bw_won w) (reservation_wake res)) ∧ lease ∈ all_leases w ∧
    gate_at (bw_tasks w) (lease_process lease) = Some g ∧
    lease = lease_of (TaskAuthority.operation_domain (bw_tasks w)) (lease_process lease) g ∧
    phase g ≠ ProcessLifecycleState.Exited ∧ 1 ≤ active g.
Proof.
  intros [Hlo Hgo] Hin. pose proof (lo_ops _ _ _ _ Hlo) as Hops. rewrite list.Forall_forall in Hops.
  destruct (Hops op Hin) as (res & owned & lease & -> & Hp & Hres).
  assert (lease ∈ all_leases w) as Hl.
  { apply elem_of_app. left. apply list_elem_of_omap. by exists (owns res owned lease). }
  destruct (go_lease _ _ _ Hgo _ Hl) as (g & Hg & Heq & Hph). exists res, owned, lease, g. split_and!; try done.
  rewrite (go_count _ _ _ Hgo _ _ Hg). by apply leases_of_elem.
Qed.

(** Completion as the winner, or as the first. *)
Lemma complete_returns w op k c RESULT (cleanup : RESOURCES → RESULT) : block_ok w → op ∈ bw_operations w →
  op_wake op = Some k →
  match decided (bw_won w) k with
  | Some c' => if decide (c' = c) then True else complete_for_process op c cleanup (bw_tasks w, bw_ledger w) = Panic
  | None => True
  end ∧
  (decided (bw_won w) k = None ∨ decided (bw_won w) k = Some c →
   ∃ res owned lease g t r, op = owns res owned lease ∧ reservation_wake res = k ∧ gate_at (bw_tasks w) (lease_process lease) = Some g ∧
     complete_for_process op c cleanup (bw_tasks w, bw_ledger w) = Ret (t, r) (cleanup owned) ∧
     gates (bw_tasks w) (lease_process lease) (with_active (active g - 1) g) t ∧ removes (bw_ledger w) res r).
Proof.
  intros Hok Hin Hk. destruct (op_facts _ _ Hok Hin) as (res & owned & lease & g & -> & Hp & Hres & Hl & Hg & Heq & Hph & Ha).
  injection Hk as Hk. rewrite Hk in Hres. pose proof (lo_wf _ _ _ _ (proj1 Hok)) as Hwf. split.
  - destruct (decided (bw_won w) k) as [c'|]; [|done]. case_decide; [done|]. by eapply mismatch_panics.
  - intros Hd. pose proof (complete_wp_process res owned lease (lease_process lease) _ c cleanup _ g _ Hwf Hres Hd Hg Heq Hph Ha) as Hw.
    unfold wp in Hw. destruct (complete_for_process _ _ _ _) as [[t r] result| |] eqn:Hc; [|done..].
    destruct Hw as (-> & Hgs & Hrm). by exists res, owned, lease, g, t, r.
Qed.

Lemma gate_call_advances t t' : gate_call t t' → t' = t ∨ ∃ p, advances t p t'.
Proof.
  intros [p ? proof H|p ? error H|p record ? proof H|p record ? error H|proof record ? H|proof record ? error H].
  - right. exists p. by apply (wp_Ret _ _ _ _ _ _ (quiesce_wp p t) H).
  - pose proof (wp_Fail _ _ _ _ _ _ (quiesce_wp p t) H) as [->|]; eauto.
  - right. exists p. by apply (wp_Ret _ _ _ _ _ _ (terminate_wp p record t) H).
  - pose proof (wp_Fail _ _ _ _ _ _ (terminate_wp p record t) H) as [->|]; eauto.
  - right. exists (proof_process proof). by apply (wp_Ret _ _ _ _ _ _ (finish_exit_wp proof record t) H).
  - left. by apply (wp_Fail _ _ _ _ _ _ (finish_exit_wp proof record t) H).
Qed.

Lemma all_leases_cons w op ops res owned lease : bw_operations w ≡ₚ op :: ops → op = owns res owned lease →
  all_leases w ≡ₚ lease :: omap process_lease ops ++ bw_leases w.
Proof. intros Hp ->. unfold all_leases. by rewrite Hp. Qed.

(** A key that was never used is not in the ledger. *)
Lemma unused_key w k : block_ok w → k ∉ bw_used w → entry_at (bw_ledger w) k = None.
Proof.
  intros [Hlo _] Hk. destruct (entry_at _ k) as [e|] eqn:He; [|done]. destruct Hk.
  by apply (lo_used _ _ _ _ Hlo), (lo_owned _ _ _ _ Hlo _ e).
Qed.

Lemma gate_positive w p g : block_ok w → gate_at (bw_tasks w) p = Some g → 0 ≤ active g.
Proof. intros [_ Hgo] Hg. rewrite (go_count _ _ _ Hgo _ _ Hg). apply leases_of_pos. Qed.

Lemma block_step_ok w w' : block_ok w → block_step w w' → block_ok w'.
Proof.
  intros Hok Hstep. pose proof Hok as [Hlo Hgo].
  destruct Hstep as [p th k owned t r op Hk Hrun|p th k owned t r error Hk Hrun|k c r b Hrun
    |op ops k c RESULT cleanup t r result Hperm Hk Hrun|p t lease Hrun|lease leases t Hperm Hrun|t Hcall|i o Hi Ho|i record Hi Ha].
  - pose proof (wp_Ret _ _ _ _ _ _ (publish_block_wp p th k owned _ _ (lo_wf _ _ _ _ Hlo) (unused_key _ _ Hok Hk)
      (λ g, gate_positive _ _ _ Hok)) Hrun) as (g & res & Hg & Hph & Hgs & Had & ->).
    split; simpl; [by eapply ledger_ok_publish|]. unfold all_leases. simpl. by eapply gate_ok_acquire.
  - pose proof (wp_Fail _ _ _ _ _ _ (publish_block_wp p th k owned _ _ (lo_wf _ _ _ _ Hlo) (unused_key _ _ Hok Hk)
      (λ g, gate_positive _ _ _ Hok)) Hrun) as Hf. destruct error as [error back]. destruct Hf as (_ & -> & Ht).
    split; simpl; [eapply ledger_ok_used; [|exact Hlo]; by right|]. destruct Ht as [->|(g & Hg & Hgs)]; [done|].
    eapply gate_ok_advance; [exact Hgo|]. exists g, g. split_and!; [done|apply closes_refl|done].
  - pose proof (wp_Ret _ _ _ _ _ _ (try_claim_winner_wp k c _ (lo_wf _ _ _ _ Hlo)) Hrun) as (e & He & Hd).
    destruct b; [|destruct Hd as [-> _]; by destruct w]. split; [by eapply ledger_ok_claim|done].
  - assert (op ∈ bw_operations w) as Hin by (rewrite Hperm; by left).
    destruct (complete_returns w op k c RESULT cleanup Hok Hin Hk) as [Hbad Hgood].
    assert (decided (bw_won w) k = None ∨ decided (bw_won w) k = Some c) as Hd.
    { destruct (decided (bw_won w) k) as [c'|]; [|by left]. case_decide; [by subst; right|]. congruence. }
    destruct (Hgood Hd) as (res & owned & lease & g & t' & r' & Hop & Hkey & Hg & Hrun' & Hgs & Hrm).
    rewrite Hrun in Hrun'. injection Hrun' as <- <- _. split; simpl.
    + eapply ledger_ok_complete; [by eapply ledger_ok_perm|done|exact Hkey|done].
    + eapply gate_ok_release; [|exact Hg|exact Hgs]. exact (gate_ok_perm _ _ _ _ (all_leases_cons w op ops res owned lease Hperm Hop) Hgo).
  - pose proof (wp_Ret _ _ _ _ _ _ (acquire_wp p _) Hrun) as (g & Hg & Hph & _ & -> & Hgs). split; [done|].
    eapply gate_ok_perm; [apply Permutation_middle|]. by eapply gate_ok_acquire.
  - assert (all_leases w ≡ₚ lease :: omap process_lease (bw_operations w) ++ leases) as Hal.
    { unfold all_leases. rewrite Hperm. symmetry. apply Permutation_middle. }
    destruct (go_lease _ _ _ Hgo lease) as (g & Hg & Heq & Hph); [rewrite Hal; by left|].
    assert (1 ≤ active g) as Ha.
    { rewrite (go_count _ _ _ Hgo _ _ Hg). apply leases_of_elem. rewrite Hal. by left. }
    pose proof (wp_Ret _ _ _ _ _ _ (release_lease_wp _ _ _ _ Hg Heq Hph Ha) Hrun) as Hgs.
    split; [done|]. eapply gate_ok_release; [by eapply gate_ok_perm|exact Hg|exact Hgs].
  - split; [done|]. simpl. destruct (gate_call_advances _ _ Hcall) as [->|(p & Hadv)]; [done|]. by eapply gate_ok_advance.
  - split; [done|]. simpl. by apply gate_ok_appears.
  - split; [done|]. simpl. by eapply gate_ok_disappears.
Qed.

(** ** The beginning *)

Definition block_start (tdomain rdomain : Z) (PROCESSES CAPACITY : nat) : block_world :=
  {| bw_tasks := {| TaskAuthority.operation_domain := tdomain; TaskAuthority.processes := replicate PROCESSES None |};
     bw_ledger := {| BlockedOperationRegistry.domain := rdomain;
                     BlockedOperationRegistry.slots := replicate CAPACITY BlockedOperationRegistry.EMPTY_SLOT |};
     bw_operations := []; bw_leases := []; bw_won := []; bw_used := []; bw_known := [] |}.

Lemma start_ledger rdomain CAPACITY : Z.of_nat CAPACITY ≤ 2 ^ 16 →
  ledger_wf {| BlockedOperationRegistry.domain := rdomain;
               BlockedOperationRegistry.slots := replicate CAPACITY BlockedOperationRegistry.EMPTY_SLOT |}.
Proof.
  intros Hc. split; simpl.
  - by intros i s [-> _]%lookup_replicate.
  - by intros i s e [-> _]%lookup_replicate.
  - by intros i j s s' e e' [-> _]%lookup_replicate.
  - by intros i j s s' e e' [-> _]%lookup_replicate.
  - by rewrite length_replicate.
Qed.

Lemma block_start_ok tdomain rdomain PROCESSES CAPACITY : Z.of_nat CAPACITY ≤ 2 ^ 16 →
  block_ok (block_start tdomain rdomain PROCESSES CAPACITY).
Proof.
  intros Hc. pose proof (start_ledger rdomain CAPACITY Hc) as Hwf. split.
  - split; simpl; [done|by apply Forall_nil|by apply NoDup_nil|done| |by apply NoDup_nil|done].
    intros k e He. apply entry_at_Some in He as (i & s & Hs & He & _); [|done].
    apply lookup_replicate in Hs as [-> _]. done.
  - assert (objects (bw_tasks (block_start tdomain rdomain PROCESSES CAPACITY)) = []) as Hnone.
    { unfold objects. simpl. by induction PROCESSES. }
    simpl in Hnone. split; simpl; [by intros l ?%elem_of_nil| |by rewrite Hnone; apply NoDup_nil|by rewrite Hnone].
    intros p g Hg. apply gate_at_spec in Hg as (i & record & Hi & _); [|by rewrite Hnone; apply NoDup_nil].
    by apply lookup_replicate in Hi as [? _].
Qed.

Lemma block_run_ok w w' : block_ok w → rtc block_step w w' → block_ok w'.
Proof. induction 2; [done|]. eauto using block_step_ok. Qed.

End world.
Arguments block_world : clear implicits.
