(* ===== verification/BlockedTheorems.v ===== *)
(** * The first claim wins, and a drained process stays drained: claims

    What holds of the ledger of blocked operations and of the operation gates
    of processes however threads, timers and terminations interleave. *)

From stdpp Require Import base tactics numbers list relations.
From Stdlib Require Import ZArith Lia.
From S2P Require Import Prelude Abi Object Cpu Wait Gate GateFacts Blocked BlockedFacts BlockedMoves BlockedSystem.
Import BlockedOperationRegistry.
Local Open Scope Z_scope.

Section claims.
Context {RESOURCES : Type}.
Implicit Types (w : block_world RESOURCES) (op : BlockedOperation RESOURCES) (k : BlockWakeKey) (p : ProcessKey).

(** Completing [op] for [c] gives its resources back. *)
Definition completes w op (c : BlockedOperationWinner.t) : Prop :=
  ∀ RESULT (cleanup : RESOURCES → RESULT), ∃ owned t r, resources op = Some owned ∧
    complete_for_process op c cleanup (bw_tasks w, bw_ledger w) = Ret (t, r) (cleanup owned).

Lemma outstanding_decided w k e : block_ok w → entry_at (bw_ledger w) k = Some e →
  k ∈ omap op_wake (bw_operations w) ∧ winner e = decided (bw_won w) k.
Proof.
  intros [Hlo _] He. pose proof (lo_owned _ _ _ _ Hlo _ _ He) as Hin. split; [done|].
  apply list_elem_of_omap in Hin as (op & Hop & Hk). pose proof (lo_ops _ _ _ _ Hlo) as Hops.
  rewrite list.Forall_forall in Hops. destruct (Hops op Hop) as (res & owned & lease & -> & _ & Hres).
  injection Hk as Hk. apply (reserved_entry_at _ _ _ (lo_wf _ _ _ _ Hlo)) in Hres. rewrite Hk, He in Hres. by injection Hres as ->.
Qed.

Lemma outstanding_entry w k : block_ok w → k ∈ omap op_wake (bw_operations w) → is_Some (entry_at (bw_ledger w) k).
Proof.
  intros [Hlo _] (op & Hop & Hk)%list_elem_of_omap. pose proof (lo_ops _ _ _ _ Hlo) as Hops.
  rewrite list.Forall_forall in Hops. destruct (Hops op Hop) as (res & owned & lease & -> & _ & Hres).
  injection Hk as Hk. apply (reserved_entry_at _ _ _ (lo_wf _ _ _ _ Hlo)) in Hres. rewrite <- Hk. eauto.
Qed.

(** C11. The first claim wins, and only it.  However threads block, and
    signals, wakes, deadlines and terminations claim their blocks, no block is
    won twice; a claim on a block that is outstanding wins exactly when none
    has won before, and on any other block it is refused as stale and changes
    nothing; and its owner can complete a block, and get its resources back,
    exactly in the name of the winner, or in any name while there is none:
    completing it in another name panics. *)
Theorem first_claim_wins tdomain rdomain PROCESSES CAPACITY w : Z.of_nat CAPACITY ≤ 2 ^ 16 →
  rtc block_step (block_start tdomain rdomain PROCESSES CAPACITY) w →
  NoDup (bw_won w).*1 ∧
  (∀ k c, match try_claim_winner k c (bw_ledger w) with
          | Ret _ won => k ∈ omap op_wake (bw_operations w) ∧ (won = true ↔ decided (bw_won w) k = None)
          | Fail r error => (k ∉ omap op_wake (bw_operations w)) ∧ r = bw_ledger w ∧
              error = BlockedOperationError.StaleReservation
          | Panic => False
          end) ∧
  ∀ op k c, op ∈ bw_operations w → op_wake op = Some k →
    match decided (bw_won w) k with
    | Some c' => if decide (c' = c) then completes w op c
                 else ∀ RESULT (cleanup : RESOURCES → RESULT),
                   complete_for_process op c cleanup (bw_tasks w, bw_ledger w) = Panic
    | None => completes w op c
    end.
Proof.
  intros Hc Hrun. pose proof (block_run_ok _ _ (block_start_ok tdomain rdomain PROCESSES CAPACITY Hc) Hrun) as Hok.
  pose proof Hok as [Hlo Hgo]. split; [apply Hlo|]. split.
  - intros k c. pose proof (try_claim_winner_wp k c _ (lo_wf _ _ _ _ Hlo)) as Hw. unfold wp in Hw.
    destruct (try_claim_winner k c (bw_ledger w)) as [r won|r error|]; [| |done].
    + destruct Hw as (e & He & Hd). destruct (outstanding_decided _ _ _ Hok He) as [Hin Hdec]. split; [done|].
      rewrite <- Hdec. destruct won.
      * destruct (de_undecided _ _ _ _ _ Hd) as [_ ->]. done.
      * destruct Hd as [_ [c' ->]]. done.
    + destruct Hw as (-> & -> & Hn). split; [|done]. intros [e He]%(outstanding_entry _ _ Hok). congruence.
  - intros op k c Hin Hk.
    assert (decided (bw_won w) k = None ∨ decided (bw_won w) k = Some c → completes w op c) as Hgood.
    { intros Hd RESULT cleanup. destruct (complete_returns w op k c RESULT cleanup Hok Hin Hk) as [_ Hg].
      destruct (Hg Hd) as (res & owned & lease & g & t & r & -> & _ & _ & Hret & _). by exists owned, t, r. }
    destruct (decided (bw_won w) k) as [c'|] eqn:Hd; [|auto]. case_decide as Hcc; [subst; auto|].
    intros RESULT cleanup. destruct (complete_returns w op k c RESULT cleanup Hok Hin Hk) as [Hbad _].
    by rewrite Hd, decide_False in Hbad.
Qed.

(** ** Drained processes *)

(** The gate of [p] is closed and nothing is inside, or [p] is gone. *)
Definition shut (generation : Z) p w : Prop :=
  process_key_object p ∈ bw_known w ∧
  ∀ g, gate_at (bw_tasks w) p = Some g →
    phase g ≠ ProcessLifecycleState.AcceptingOperations ∧ active g = 0 ∧ Gate.generation g = generation.

Definition domains w : Z * Z := (TaskAuthority.operation_domain (bw_tasks w), domain (bw_ledger w)).

(** A step that sets the gate of a process that is not shut. *)
Lemma shut_gates generation p p' g g' t' w w' : shut generation p w → gate_at (bw_tasks w) p' = Some g →
  gates (bw_tasks w) p' g' t' → bw_tasks w' = t' → bw_known w' = bw_known w →
  (p = p' → phase g ≠ ProcessLifecycleState.AcceptingOperations → active g = 0 → closes g g') → shut generation p w'.
Proof.
  intros [Hkn Hsh] Hg Hgs Ht Hk Hcl. split; [by rewrite Hk|]. intros g0. rewrite Ht, (ga_at _ _ _ _ Hgs).
  case_decide as Hp; [|apply Hsh]. intros [= <-]. subst p'. destruct (Hsh _ Hg) as (Hph & Ha & Hgen).
  destruct (Hcl eq_refl Hph Ha) as [Hg1 Ha1 Hph1 _]. split_and!; [auto|congruence..].
Qed.

Lemma lease_inside w l p g : block_ok w → l ∈ all_leases w → lease_process l = p → gate_at (bw_tasks w) p = Some g →
  active g = 0 → False.
Proof.
  intros [_ Hgo] Hin <- Hg Ha. rewrite (go_count _ _ _ Hgo _ _ Hg) in Ha. pose proof (leases_of_elem _ _ Hin). lia.
Qed.

Lemma shut_step generation p w w' : block_ok w → shut generation p w → block_step w w' →
  shut generation p w' ∧ domains w' = domains w.
Proof.
  intros Hok Hsh Hstep. pose proof Hok as [Hlo Hgo].
  destruct Hstep as [p' th k owned t r op Hk Hrun|p' th k owned t r error Hk Hrun|k c r b Hrun
    |op ops k c RESULT cleanup t r result Hperm Hk Hrun|p' t lease Hrun|lease leases t Hperm Hrun|t Hcall|i o Hi Ho|i record Hi Ha].
  - pose proof (wp_Ret _ _ _ _ _ _ (publish_block_wp p' th k owned _ _ (lo_wf _ _ _ _ Hlo) (unused_key _ _ Hok Hk)
      (λ g, gate_positive _ _ _ Hok)) Hrun) as (g & res & Hg & Hph & Hgs & Had & ->). split.
    + by eapply shut_gates; [exact Hsh|exact Hg|exact Hgs|..].
    + unfold domains. simpl. by rewrite (ga_domain _ _ _ _ Hgs), (ad_domain _ _ _ _ _ _ Had).
  - pose proof (wp_Fail _ _ _ _ _ _ (publish_block_wp p' th k owned _ _ (lo_wf _ _ _ _ Hlo) (unused_key _ _ Hok Hk)
      (λ g, gate_positive _ _ _ Hok)) Hrun) as Hf. destruct error as [error back]. destruct Hf as (_ & -> & Ht).
    destruct Ht as [->|(g & Hg & Hgs)]; [done|]. split.
    + eapply shut_gates; [exact Hsh|exact Hg|exact Hgs|done..|]. intros _ _ _. apply closes_refl.
    + unfold domains. simpl. by rewrite (ga_domain _ _ _ _ Hgs).
  - pose proof (wp_Ret _ _ _ _ _ _ (try_claim_winner_wp k c _ (lo_wf _ _ _ _ Hlo)) Hrun) as (e & He & Hd).
    split; [done|]. unfold domains. simpl. destruct b; [by rewrite (de_domain _ _ _ _ _ Hd)|by destruct Hd as [-> _]].
  - assert (op ∈ bw_operations w) as Hin by (rewrite Hperm; by left).
    destruct (complete_returns w op k c RESULT cleanup Hok Hin Hk) as [Hbad Hgood].
    destruct Hgood as (res & owned & lease & g & t' & r' & Hop & Hkey & Hg & Hrun' & Hgs & Hrm).
    { destruct (decided (bw_won w) k) as [c'|]; [|by left]. case_decide; [by subst; right|]. congruence. }
    rewrite Hrun in Hrun'. injection Hrun' as <- <- _. split.
    + eapply shut_gates; [exact Hsh|exact Hg|exact Hgs|done..|]. intros Hp _ Ha. exfalso.
      eapply (lease_inside w lease (lease_process lease) g); [done| |done..]. rewrite (all_leases_cons _ _ _ _ _ _ Hperm Hop). by left.
    + unfold domains. simpl. by rewrite (ga_domain _ _ _ _ Hgs), (rm_domain _ _ _ Hrm).
  - pose proof (wp_Ret _ _ _ _ _ _ (acquire_wp p' _) Hrun) as (g & Hg & Hph & _ & -> & Hgs). split.
    + by eapply shut_gates; [exact Hsh|exact Hg|exact Hgs|..].
    + unfold domains. simpl. by rewrite (ga_domain _ _ _ _ Hgs).
  - assert (lease ∈ all_leases w) as Hin by (unfold all_leases; rewrite Hperm; apply elem_of_app; right; by left).
    destruct (go_lease _ _ _ Hgo lease Hin) as (g & Hg & Heq & Hph).
    pose proof (wp_Ret _ _ _ _ _ _ (release_lease_wp _ _ _ _ Hg Heq Hph
      ltac:(rewrite (go_count _ _ _ Hgo _ _ Hg); by apply leases_of_elem)) Hrun) as Hgs. split.
    + eapply shut_gates; [exact Hsh|exact Hg|exact Hgs|done..|]. intros _ _ Ha. exfalso.
      by eapply (lease_inside w lease (lease_process lease) g).
    + unfold domains. simpl. by rewrite (ga_domain _ _ _ _ Hgs).
  - destruct (gate_call_advances _ _ Hcall) as [->|(p' & g & g' & Hg & Hc & Hgs)]; [by destruct w|]. split.
    + by eapply shut_gates; [exact Hsh|exact Hg|exact Hgs|..].
    + unfold domains. simpl. by rewrite (ga_domain _ _ _ _ Hgs).
  - split; [|done]. destruct (gate_ok_appears _ _ _ _ _ Hgo Hi Ho) as [_ Hat]. destruct Hsh as [Hkn Hsh].
    split; [by right|]. simpl. intros g. rewrite Hat. case_decide as Hp; [by rewrite Hp in Hkn|apply Hsh].
  - split; [|done]. destruct (gate_ok_disappears _ _ _ _ _ Hgo Hi Ha) as [_ Hat]. destruct Hsh as [Hkn Hsh].
    split; [done|]. simpl. intros g. rewrite Hat. case_decide; [done|apply Hsh].
Qed.

Lemma shut_run generation p w w' : block_ok w → shut generation p w → rtc block_step w w' →
  block_ok w' ∧ shut generation p w' ∧ domains w' = domains w.
Proof.
  intros Hok Hsh Hrun. revert Hok Hsh. induction Hrun as [w|w w1 w2 Hstep _ IH]; [done|]. intros Hok Hsh.
  destruct (shut_step _ _ _ _ Hok Hsh Hstep) as [Hsh1 Hd]. destruct (IH (block_step_ok _ _ Hok Hstep) Hsh1) as (? & ? & ?).
  split_and!; [done..|congruence].
Qed.

(** Nothing of a shut process is blocked. *)
Lemma shut_empty generation p w : block_ok w → shut generation p w →
  (∀ op res, op ∈ bw_operations w → reservation op = Some res → reservation_process res ≠ p) ∧
  has_process p (bw_ledger w) = false.
Proof.
  intros Hok [_ Hsh].
  assert (∀ op res, op ∈ bw_operations w → reservation op = Some res → reservation_process res ≠ p) as Hops.
  { intros op res Hin Hres Hp. destruct (op_facts _ _ Hok Hin) as (res' & owned & lease & g' & -> & Hlp & _ & Hl & Hg & _ & _ & Ha).
    injection Hres as ->. rewrite Hlp, Hp in Hg. destruct (Hsh _ Hg) as (_ & H0 & _). lia. }
  split; [done|]. apply not_true_iff_false. intros (i & s & e & Hi & He & Hp)%has_process_spec.
  pose proof Hok as [Hlo _]. assert (entry_at (bw_ledger w) (wake e) = Some e) as Hat
    by (apply entry_at_Some; [apply Hlo|]; eauto).
  pose proof (lo_owned _ _ _ _ Hlo _ _ Hat) as (op & Hop & Hk)%list_elem_of_omap.
  pose proof (lo_ops _ _ _ _ Hlo) as Hall. rewrite list.Forall_forall in Hall.
  destruct (Hall op Hop) as (res & owned & lease & -> & _ & Hres). injection Hk as Hk.
  apply (reserved_entry_at _ _ _ (lo_wf _ _ _ _ Hlo)) in Hres. rewrite Hk, Hat in Hres. injection Hres as Heq.
  apply (Hops (owns res owned lease) res); [done..|]. by rewrite <- Hp, Heq.
Qed.

Lemma drained_spec r proof t t' drained : drained_after_quiesce r proof t = Ret t' drained →
  quiescent t proof ∧ drained = {| drained_domain := domain r; drained_process := proof_process proof;
    task_domain := Some (proof_domain proof); task_generation := Some (proof_generation proof) |}.
Proof.
  intros Hdr. enough (wp (drained_after_quiesce r proof) t (λ d _, quiescent t proof ∧
    d = {| drained_domain := domain r; drained_process := proof_process proof;
           task_domain := Some (proof_domain proof); task_generation := Some (proof_generation proof) |}) (λ _ _, True))
    as Hw by (by apply (wp_Ret _ _ _ _ _ _ Hw Hdr)).
  unfold drained_after_quiesce. wp_step. apply wp_map_err.
  eapply wp_mono; [apply validate_quiescence_wp| |done]. intros _ ? [-> Hq]. wp_step. wp_step.
  unfold drained_inner. destruct (has_process _ r); [done|]. by wp_step.
Qed.

Lemma validate_drained_wp r proof t : quiescent t proof → has_process (proof_process proof) r = false →
  wp (validate_drained_after_quiesce r proof {| drained_domain := domain r; drained_process := proof_process proof;
        task_domain := Some (proof_domain proof); task_generation := Some (proof_generation proof) |}) t
    (λ a t', a = tt ∧ t' = t) (λ _ _, False).
Proof.
  intros Hq Hno. unfold validate_drained_after_quiesce. wp_step. apply wp_map_err.
  eapply wp_mono; [apply validate_quiescence_wp| |by intros ? ? [_ []]]. intros _ ? [-> _]. simpl.
  rewrite !bool_decide_true by done. simpl. wp_step. unfold validate_drained_inner. simpl.
  by rewrite Z.eqb_refl, bool_decide_true, Hno by done.
Qed.

Lemma validate_drained_gone r proof drained t : gate_at t (proof_process proof) = None →
  validate_drained_after_quiesce r proof drained t = Fail t (BlockedOperationError.Task TaskError.InvalidTask).
Proof.
  intros Hg. unfold validate_drained_after_quiesce, TaskAuthority.validate_process_quiescence, TaskAuthority.process,
    TaskAuthority.process_slot, map_err, mbind, M_bind, get, ok_or. simpl. unfold gate_at, find_process in Hg.
  destruct (list_find _ _) as [[i o]|] eqn:Hf; [|done]. exfalso.
  apply list_find_Some in Hf as (_ & Hr & _). apply Is_true_true, records_process in Hr as (record & -> & _). done.
Qed.

Lemma gate_known w p g : block_ok w → gate_at (bw_tasks w) p = Some g → process_key_object p ∈ bw_known w.
Proof.
  intros [_ Hgo] Hg. apply (go_known _ _ _ Hgo).
  apply (gate_at_spec _ _ _ (go_objects _ _ _ Hgo)) in Hg as (i & record & Hi & <- & _). apply list_elem_of_omap.
  exists (Some record). split; [by eapply list_elem_of_lookup_2|done].
Qed.

(** C23. A drained process stays drained.  When the gate of a process is closed
    with no operation inside and the ledger has no blocked operation of it,
    then however the kernel goes on no operation of that process is ever
    blocked again, and the two proofs handed out stay valid for as long as
    the process has a record. *)
Theorem drained_process_stays_drained tdomain rdomain PROCESSES CAPACITY w w' proof t drained :
  Z.of_nat CAPACITY ≤ 2 ^ 16 → rtc block_step (block_start tdomain rdomain PROCESSES CAPACITY) w →
  drained_after_quiesce (bw_ledger w) proof (bw_tasks w) = Ret t drained → rtc block_step w w' →
  (∀ op res, op ∈ bw_operations w' → reservation op = Some res → reservation_process res ≠ proof_process proof) ∧
  has_process (proof_process proof) (bw_ledger w') = false ∧
  validate_drained_after_quiesce (bw_ledger w') proof drained (bw_tasks w') =
    match gate_at (bw_tasks w') (proof_process proof) with
    | Some _ => Ret (bw_tasks w') tt
    | None => Fail (bw_tasks w') (BlockedOperationError.Task TaskError.InvalidTask)
    end.
Proof.
  intros Hc Hrun Hdr Hrun'. pose proof (block_run_ok _ _ (block_start_ok tdomain rdomain PROCESSES CAPACITY Hc) Hrun) as Hok.
  destruct (drained_spec _ _ _ _ _ Hdr) as ((g & Hg & Hd & Hgen & Hph & Ha) & Heq).
  assert (shut (proof_generation proof) (proof_process proof) w) as Hsh.
  { split; [by eapply gate_known|]. intros g'. rewrite Hg. intros [= <-]. by rewrite Hgen. }
  destruct (shut_run _ _ _ _ Hok Hsh Hrun') as (Hok' & Hsh' & [= Hdt Hdl]).
  destruct (shut_empty _ _ _ Hok' Hsh') as [Hops Hno]. split_and!; [done..|]. subst drained.
  destruct Hsh' as [_ Hsh']. destruct (gate_at (bw_tasks w') (proof_process proof)) as [g'|] eqn:Hg'.
  - apply wp_returns. rewrite <- Hdl. apply validate_drained_wp; [|done]. destruct (Hsh' _ eq_refl) as (? & ? & ?).
    exists g'. split_and!; [done|congruence|done..].
  - by apply validate_drained_gone.
Qed.

End claims.

(** ** A process with one thread

    A process appears, its thread blocks, a deadline claims the block, and the
    process is drained once the block is completed. *)

Definition demo_process : ProcessKey := {| process_key_object := {| oid_domain := 1; oid_raw := 2 ^ 32 + 5 |} |}.
Definition demo_thread : ThreadKey := {| thread_object := {| oid_domain := 1; oid_raw := 2 ^ 32 + 6 |} |}.
Definition demo_wake : BlockWakeKey :=
  {| wake_domain := 1; wake_token := 1; wake_thread := demo_thread; wake_cpu := CpuIndex.Cpu1; wake_execution_generation := 1 |}.

Definition demo_record : ProcessRecord :=
  {| process_object := process_key_object demo_process; process_state := TaskStateRecord.created; operations := accepting |}.

Definition demo_tasks (g : ProcessOperationState) : TaskAuthority.t :=
  {| TaskAuthority.operation_domain := 3;
     TaskAuthority.processes := [Some {| process_object := process_key_object demo_process;
                                         process_state := TaskStateRecord.created; operations := g |}] |}.

Definition demo_ledger (generation : Z) (entry : option Entry) : BlockedOperationRegistry.t :=
  {| domain := 4; slots := [{| generation := generation; entry := entry |}] |}.

Definition demo_operation : BlockedOperation unit :=
  owns {| reservation_domain := 4; reservation_slot := 0; reservation_generation := 1;
          reservation_process := demo_process; reservation_thread := demo_thread; reservation_wake := demo_wake |}
    tt {| lease_domain := 3; lease_process := demo_process; lease_generation := 1; lease_completed := false |}.

(** The thread blocked, and the deadline has claimed it. *)
Definition timed_out : block_world unit :=
  {| bw_tasks := demo_tasks (with_active 1 accepting);
     bw_ledger := demo_ledger 1 (Some {| process := demo_process; thread := demo_thread; wake := demo_wake;
                                         winner := Some BlockedOperationWinner.Timeout |});
     bw_operations := [demo_operation]; bw_leases := [];
     bw_won := [(demo_wake, BlockedOperationWinner.Timeout)]; bw_used := [demo_wake];
     bw_known := [process_key_object demo_process] |}.

Lemma timed_out_reachable : rtc block_step (block_start 3 4 1 1) timed_out.
Proof.
  eapply rtc_l; [eapply (bs_appears _ 0 (process_key_object demo_process)); [done|by intros ?%elem_of_nil]|].
  eapply rtc_l; [eapply (bs_publish _ demo_process demo_thread demo_wake tt); [by intros ?%elem_of_nil|reflexivity]|].
  eapply rtc_l; [eapply (bs_claim _ demo_wake BlockedOperationWinner.Timeout); reflexivity|].
  apply rtc_refl.
Qed.

Lemma first_claim_wins_witness :
  try_claim_winner demo_wake BlockedOperationWinner.AtomicWake (bw_ledger timed_out) = Ret (bw_ledger timed_out) false ∧
  completes timed_out demo_operation BlockedOperationWinner.Timeout ∧
  complete_for_process demo_operation BlockedOperationWinner.Cancelled (λ _, tt) (bw_tasks timed_out, bw_ledger timed_out) = Panic.
Proof.
  destruct (first_claim_wins 3 4 1 1 timed_out) as (_ & _ & Hall); [done|exact timed_out_reachable|].
  split; [reflexivity|]. split.
  - exact (Hall demo_operation demo_wake BlockedOperationWinner.Timeout ltac:(by left) eq_refl).
  - exact (Hall demo_operation demo_wake BlockedOperationWinner.Cancelled ltac:(by left) eq_refl unit (λ _, tt)).
Defined.

Definition demo_proof : ProcessQuiescenceProof :=
  {| proof_domain := 3; proof_process := demo_process; proof_generation := 1 |}.

(** The block is completed and the gate closed. *)
Definition quiet : block_world unit :=
  {| bw_tasks := demo_tasks {| phase := ProcessLifecycleState.Quiescing; Gate.generation := 1; active := 0;
                               pending_termination := None |};
     bw_ledger := demo_ledger 1 None; bw_operations := []; bw_leases := [];
     bw_won := [(demo_wake, BlockedOperationWinner.Timeout)]; bw_used := [demo_wake];
     bw_known := [process_key_object demo_process] |}.

Lemma quiet_reachable : rtc block_step (block_start 3 4 1 1) quiet.
Proof.
  etrans; [exact timed_out_reachable|].
  eapply rtc_l; [apply (bs_complete _ demo_operation [] demo_wake BlockedOperationWinner.Timeout unit (λ _, tt)
    (demo_tasks accepting) (demo_ledger 1 None) tt); [done|done|vm_compute; reflexivity]|].
  eapply rtc_l; [apply bs_gate, (gc_quiesce _ demo_process (bw_tasks quiet) demo_proof); vm_compute; reflexivity|].
  apply rtc_refl.
Qed.

Definition demo_drained : BlockedOperationsDrained :=
  {| drained_domain := 4; drained_process := demo_process; task_domain := Some 3; task_generation := Some 1 |}.

Lemma drained_process_stays_drained_witness :
  validate_drained_after_quiesce (bw_ledger quiet) demo_proof demo_drained (bw_tasks quiet) = Ret (bw_tasks quiet) tt.
Proof.
  destruct (drained_process_stays_drained 3 4 1 1 quiet quiet demo_proof (bw_tasks quiet) demo_drained) as (_ & _ & Hv).
  - done.
  - exact quiet_reachable.
  - reflexivity.
  - apply rtc_refl.
  - exact Hv.
Defined.
