(* ===== verification/AtomicWait.v ===== *)
(** * Atomic waits: the index of waiters and the suspended operations

    [kernel/src/atomic_wait.rs].  A thread that waits for a word of memory to
    change is entered in an index by the identity of the word, under the lock
    that [atomic_wake] takes, and after the word was read again.  The
    suspended operation, which owns the pin of the word, the index entry and
    the deadline, is kept in a table of its own. *)

From stdpp Require Import base tactics numbers list.
From Stdlib Require Import ZArith Lia.
From S2P Require Import Prelude Abi Object Wait Deadline Gate Blocked.
Local Open Scope Z_scope.

Definition DW_ATOMIC_WAKE_ALL : Z := 4294967295.

(** [memory::address_region::AtomicWaitKey]. *)
Record AtomicWaitKey : Type := { key_object : ObjectId; key_object_offset : Z }.

Global Instance AtomicWaitKey_eq_dec : EqDecision AtomicWaitKey.
Proof. solve_decision. Defined.

(** The static [NEXT_ATOMIC_WAIT_DOMAIN] is the state. *)
Definition mint_atomic_domain {E} : M Z E Z :=
  domain ← get;
  next ← expect (next_nonzero 64 domain);
  put next;;
  mret domain.

Module AtomicWaitError.
Inductive t : Type :=
| Capacity
| DuplicateThread
| ForeignRegistration
| StaleRegistration
| Blocked (error : BlockedOperationError.t).
End AtomicWaitError.

Record AtomicWaitEntry : Type := {
  entry_key : AtomicWaitKey;
  entry_wake : BlockWakeKey;
  entry_sequence : Z;
}.

Record AtomicWaitSlot : Type := { slot_generation : Z; slot_entry : option AtomicWaitEntry }.

Definition EMPTY_SLOT : AtomicWaitSlot := {| slot_generation := 0; slot_entry := None |}.

Record AtomicWaitRegistration : Type := {
  registered_domain : Z;
  registered_slot : nat;
  registered_generation : Z;
  registered_key : AtomicWaitKey;
  registered_wake : BlockWakeKey;
}.

Module AtomicWaitRegisterOutcome.
Inductive t : Type :=
| Mismatch (observed : Z)
| Registered (registration : AtomicWaitRegistration).
End AtomicWaitRegisterOutcome.

Module AtomicWakeBatch.
Record t : Type := { wakes : list (option BlockWakeKey); len : nat }.

Definition empty (CAPACITY : nat) : t := {| wakes := replicate CAPACITY None; len := 0 |}.

Definition push {S E} (self : t) (wake : BlockWakeKey) : M S E t :=
  assert_that (len self <? length (wakes self))%nat;;
  mret {| wakes := <[len self := Some wake]> (wakes self); len := len self + 1 |}.
End AtomicWakeBatch.

(** [oldest_keyed_slot]: the first slot of the least sequence number. *)
Fixpoint oldest_from (from : nat) (key : AtomicWaitKey) (slots : list AtomicWaitSlot) : option (nat * Z) :=
  match slots with
  | [] => None
  | slot :: slots =>
      let rest := oldest_from (S from) key slots in
      match slot_entry slot with
      | Some entry =>
          if bool_decide (entry_key entry = key) then
            match rest with
            | Some (index, sequence) =>
                if sequence <? entry_sequence entry then Some (index, sequence)
                else Some (from, entry_sequence entry)
            | None => Some (from, entry_sequence entry)
            end
          else rest
      | None => rest
      end
  end.

Definition oldest_keyed_slot (slots : list AtomicWaitSlot) (key : AtomicWaitKey) : option nat :=
  fst <$> oldest_from 0 key slots.

Module AtomicWaitRegistry.

Record t : Type := { domain : Z; next_sequence : Z; slots : list AtomicWaitSlot }.

Definition new {E} (CAPACITY : nat) : M Z E t :=
  domain ← mint_atomic_domain;
  mret {| domain := domain; next_sequence := 1; slots := replicate CAPACITY EMPTY_SLOT |}.

Definition with_slot (index : nat) (slot : AtomicWaitSlot) (self : t) : t :=
  {| domain := domain self; next_sequence := next_sequence self; slots := <[index := slot]> (slots self) |}.

Definition with_sequence (sequence : Z) (self : t) : t :=
  {| domain := domain self; next_sequence := sequence; slots := slots self |}.

(** The closure of [find_map]. *)
Definition next_in (slot : AtomicWaitSlot) : option Z :=
  match slot_entry slot with
  | Some _ => None
  | None => next_nonzero 32 (slot_generation slot)
  end.

Fixpoint find_free (from : nat) (slots : list AtomicWaitSlot) : option (nat * Z) :=
  match slots with
  | [] => None
  | slot :: slots =>
      match next_in slot with
      | Some generation => Some (from, generation)
      | None => find_free (S from) slots
      end
  end.

(** [observed] is what [load] finds under the lock. *)
Definition register_if_expected (key : AtomicWaitKey) (wake : BlockWakeKey) (expected observed : Z)
    : M t AtomicWaitError.t AtomicWaitRegisterOutcome.t :=
  if negb (observed =? expected) then mret (AtomicWaitRegisterOutcome.Mismatch observed)
  else
    self ← get;
    '(index, generation) ← ok_or (find_free 0 (slots self)) AtomicWaitError.Capacity;
    next ← ok_or (next_nonzero 64 (next_sequence self)) AtomicWaitError.Capacity;
    let sequence := next_sequence self in
    modify (with_sequence next);;
    slot_index ← ok_or (try_from 16 (Z.of_nat index)) AtomicWaitError.Capacity;
    modify (with_slot index
      {| slot_generation := generation;
         slot_entry := Some {| entry_key := key; entry_wake := wake; entry_sequence := sequence |} |});;
    mret (AtomicWaitRegisterOutcome.Registered
      {| registered_domain := domain self; registered_slot := Z.to_nat slot_index;
         registered_generation := generation; registered_key := key; registered_wake := wake |}).

Definition cancel_if_live (registration : AtomicWaitRegistration) : M t AtomicWaitError.t bool :=
  self ← get;
  if negb (registered_domain registration =? domain self) then fail AtomicWaitError.ForeignRegistration
  else
    slot ← ok_or (slots self !! registered_slot registration) AtomicWaitError.StaleRegistration;
    if slot_generation slot <? registered_generation registration then fail AtomicWaitError.StaleRegistration
    else
      match slot_entry slot with
      | None => mret false
      | Some entry =>
          if registered_generation registration <? slot_generation slot then mret false
          else if negb (bool_decide (entry_key entry = registered_key registration)
                        && bool_decide (entry_wake entry = registered_wake registration))
          then fail AtomicWaitError.StaleRegistration
          else
            modify (with_slot (registered_slot registration)
              {| slot_generation := slot_generation slot; slot_entry := None |});;
            mret true
      end.

Definition clear_entry (index : nat) (slot : AtomicWaitSlot) : t → t :=
  with_slot index {| slot_generation := slot_generation slot; slot_entry := None |}.

(** The loop of [claim_wake]. *)
Fixpoint claim_loop (fuel limit : nat) (key : AtomicWaitKey) (batch : AtomicWakeBatch.t)
    : M (t * BlockedOperationRegistry.t) AtomicWaitError.t AtomicWakeBatch.t :=
  if (limit <=? AtomicWakeBatch.len batch)%nat then mret batch
  else
    match fuel with
    | O => panic
    | S fuel =>
        self ← on_fst get;
        match oldest_keyed_slot (slots self) key with
        | None => mret batch
        | Some index =>
            slot ← expect (slots self !! index);
            entry ← expect (slot_entry slot);
            claimed ← on_snd (try (BlockedOperationRegistry.try_claim_winner (entry_wake entry)
                                     BlockedOperationWinner.AtomicWake));
            match claimed with
            | Ok true =>
                on_fst (modify (clear_entry index slot));;
                batch ← AtomicWakeBatch.push batch (entry_wake entry);
                claim_loop fuel limit key batch
            | Ok false | Err BlockedOperationError.StaleReservation =>
                on_fst (modify (clear_entry index slot));;
                claim_loop fuel limit key batch
            | Err error => fail (AtomicWaitError.Blocked error)
            end
        end
    end.

Definition claim_wake (key : AtomicWaitKey) (count : Z)
    : M (t * BlockedOperationRegistry.t) AtomicWaitError.t AtomicWakeBatch.t :=
  self ← on_fst get;
  let CAPACITY := length (slots self) in
  let limit := if count =? DW_ATOMIC_WAKE_ALL then CAPACITY else Z.to_nat count in
  let batch := AtomicWakeBatch.empty CAPACITY in
  if (limit =? 0)%nat then mret batch
  else claim_loop (S CAPACITY) limit key batch.

Definition is_empty (self : t) : bool :=
  forallb (λ slot, match slot_entry slot with None => true | Some _ => false end) (slots self).

End AtomicWaitRegistry.

(** * Suspended operations *)

Record AtomicWaitOperation (PIN : Type) : Type := {
  operation_process : ProcessKey;
  operation_thread : ThreadKey;
  operation_blocked : BlockedOperation unit;
  operation_pin : PIN;
  operation_registration : AtomicWaitRegistration;
  operation_deadline : option DeadlineRegistration;
}.
Arguments operation_process {_}.
Arguments operation_thread {_}.
Arguments operation_blocked {_}.
Arguments operation_pin {_}.
Arguments operation_registration {_}.
Arguments operation_deadline {_}.

Module AtomicWaitOperation.
Section operation.
Context {PIN : Type}.
Implicit Types (self : AtomicWaitOperation PIN).

Definition complete self (winner : BlockedOperationWinner.t)
    : M (TaskAuthority.t * BlockedOperationRegistry.t) BlockedOperationError.t
        (PIN * AtomicWaitRegistration * option DeadlineRegistration) :=
  complete_for_process (operation_blocked self) winner (λ _, tt);;
  mret (operation_pin self, operation_registration self, operation_deadline self).

Definition complete_terminal self
    : M (TaskAuthority.t * BlockedOperationRegistry.t) BlockedOperationError.t
        (PIN * AtomicWaitRegistration * option DeadlineRegistration) :=
  wake ← wake_key (operation_blocked self);
  current ← or_drop (operation_blocked self) (on_snd (BlockedOperationRegistry.winner_of wake));
  winner ← match current with
           | Some winner => mret winner
           | None =>
               claimed ← or_drop (operation_blocked self)
                 (on_snd (BlockedOperationRegistry.try_claim_winner wake BlockedOperationWinner.Terminal));
               assert_that claimed;;
               mret BlockedOperationWinner.Terminal
           end;
  complete self winner.
End operation.
End AtomicWaitOperation.

Module AtomicWaitOperationRegistry.
Section operations.
Context {PIN : Type}.

Definition t : Type := list (option (AtomicWaitOperation PIN)).

Definition new (CAPACITY : nat) : t := replicate CAPACITY None.

(** The entry's thread is [thread]. *)
Definition of_thread (thread : ThreadKey) (entry : option (AtomicWaitOperation PIN)) : bool :=
  match entry with
  | Some operation => bool_decide (operation_thread operation = thread)
  | None => false
  end.

(** On an error the operation stays with the caller. *)
Definition publish (operation : AtomicWaitOperation PIN) : M t AtomicWaitError.t unit :=
  self ← get;
  if existsb (of_thread (operation_thread operation)) self then fail AtomicWaitError.DuplicateThread
  else
    '(slot, _) ← ok_or (list_find (λ entry, entry = None) self) AtomicWaitError.Capacity;
    put (<[slot := Some operation]> self).

(** [iter_mut().find(|entry| .. entry.wake_key() == wake)] *)
Fixpoint find_wake {T E} (wake : BlockWakeKey) (from : nat) (entries : t)
    : M T E (option (nat * AtomicWaitOperation PIN)) :=
  match entries with
  | [] => mret None
  | None :: entries => find_wake wake (S from) entries
  | Some operation :: entries =>
      key ← wake_key (operation_blocked operation);
      if bool_decide (key = wake) then mret (Some (from, operation)) else find_wake wake (S from) entries
  end.

Definition take_wake (wake : BlockWakeKey) : M t AtomicWaitError.t (AtomicWaitOperation PIN) :=
  self ← get;
  found ← find_wake wake 0 self;
  '(slot, operation) ← ok_or found AtomicWaitError.StaleRegistration;
  put (<[slot := None]> self);;
  mret operation.

Definition take_thread {E} (thread : ThreadKey) : M t E (option (AtomicWaitOperation PIN)) :=
  self ← get;
  match list_find (λ entry, of_thread thread entry) self with
  | Some (slot, entry) => put (<[slot := None]> self);; mret entry
  | None => mret None
  end.

Definition wake_key_for_thread {S E} (self : t) (thread : ThreadKey) : M S E (option BlockWakeKey) :=
  match list_find (λ entry, of_thread thread entry) self with
  | Some (_, Some operation) => key ← wake_key (operation_blocked operation); mret (Some key)
  | _ => mret None
  end.

Definition is_empty (self : t) : bool :=
  forallb (λ entry, match entry with None => true | Some _ => false end) self.

End operations.
Arguments t : clear implicits.
End AtomicWaitOperationRegistry.
