(* ===== verification/AtomicFacts.v ===== *)
(** * Facts about the index of atomic waiters

    The index is a table of slots; by their sequence numbers the entries of a
    key form a queue.  Registering appends to the queue of its key, waking
    serves the queue from its head. *)

From stdpp Require Import base tactics numbers list sorting.
From Stdlib Require Import ZArith Lia.
From S2P Require Import Prelude Abi Object Wait Gate Blocked BlockedFacts AtomicWait.
Import AtomicWaitRegistry.
Local Open Scope Z_scope.

Implicit Types (a : AtomicWaitRegistry.t) (r : BlockedOperationRegistry.t) (key : AtomicWaitKey)
  (e : AtomicWaitEntry) (s : AtomicWaitSlot) (q : list AtomicWaitEntry).

Definition live_entries a : list AtomicWaitEntry := omap slot_entry (slots a).

Definition entries_of a key : list AtomicWaitEntry := filter (λ e, entry_key e = key) (live_entries a).

Record index_wf a : Prop := {
  iw_generation i s : slots a !! i = Some s → is_uint 32 (slot_generation s);
  iw_live i s e : slots a !! i = Some s → slot_entry s = Some e → 1 ≤ slot_generation s;
  iw_sequence : 1 ≤ next_sequence a < 2 ^ 64;
  iw_before e : e ∈ live_entries a → entry_sequence e < next_sequence a;
  iw_unique : NoDup (entry_sequence <$> live_entries a);
  iw_fits : Z.of_nat (length (slots a)) ≤ 2 ^ 16;
}.

(** [q] is the queue of [key]: its entries in the order they came. *)
Record fifo a key q : Prop := {
  ff_entries : q ≡ₚ entries_of a key;
  ff_sorted : StronglySorted (λ e e', entry_sequence e < entry_sequence e') q;
}.

Lemma live_entries_split a i s : slots a !! i = Some s →
  live_entries a = omap slot_entry (take i (slots a)) ++ option_list (slot_entry s) ++ omap slot_entry (drop (S i) (slots a)).
Proof.
  intros Hi. unfold live_entries. rewrite <- (take_drop_middle (slots a) i s) at 1 by done. rewrite omap_app. simpl.
  by destruct (slot_entry s).
Qed.

Lemma live_entries_insert a i s s' : slots a !! i = Some s →
  live_entries (with_slot i s' a) =
    omap slot_entry (take i (slots a)) ++ option_list (slot_entry s') ++ omap slot_entry (drop (S i) (slots a)).
Proof.
  intros Hi. unfold live_entries. simpl. rewrite insert_take_drop by (by eapply lookup_lt_Some). rewrite omap_app. simpl.
  by destruct (slot_entry s').
Qed.

Lemma elem_of_live a e : e ∈ live_entries a ↔ ∃ i s, slots a !! i = Some s ∧ slot_entry s = Some e.
Proof.
  unfold live_entries. rewrite list_elem_of_omap. split.
  - intros (s & (i & Hi)%list_elem_of_lookup_1 & He). eauto.
  - intros (i & s & Hi & He). exists s. split; [by eapply list_elem_of_lookup_2|done].
Qed.

(** ** The oldest entry *)

Lemma oldest_from_spec from key ss :
  match oldest_from from key ss with
  | None => ∀ i s e, ss !! i = Some s → slot_entry s = Some e → entry_key e ≠ key
  | Some (index, sequence) => ∃ i s e, index = (from + i)%nat ∧ ss !! i = Some s ∧ slot_entry s = Some e ∧
      entry_key e = key ∧ entry_sequence e = sequence ∧
      ∀ j s' e', ss !! j = Some s' → slot_entry s' = Some e' → entry_key e' = key → sequence ≤ entry_sequence e'
  end.
Proof.
  revert from. induction ss as [|s0 ss IH]; intros from; simpl; [done|]. specialize (IH (S from)).
  assert (slot_entry s0 = None ∨ ∃ e0, slot_entry s0 = Some e0) as [H0|[e0 H0]] by (destruct (slot_entry s0); eauto);
    rewrite H0.
  - destruct (oldest_from (S from) key ss) as [[index sequence]|].
    + destruct IH as (i & s & e & -> & Hi & He & Hk & Hq & Hmin). exists (S i), s, e. split_and!; [lia|done..|].
      intros [|j] s' e' Hj; simpl in Hj; [congruence|by eapply Hmin].
    + intros [|i] s e Hi; simpl in Hi; [congruence|by eapply IH].
  - case_bool_decide as Hk0.
    + destruct (oldest_from (S from) key ss) as [[index sequence]|].
      * destruct IH as (i & s & e & -> & Hi & He & Hk & Hq & Hmin). destruct (Z.ltb_spec sequence (entry_sequence e0)).
        -- exists (S i), s, e. split_and!; [lia|done..|]. intros [|j] s' e' Hj He' Hk'; simpl in Hj; [|by eapply Hmin].
           simplify_eq. lia.
        -- exists 0%nat, s0, e0. split_and!; [lia|done..|]. intros [|j] s' e' Hj He' Hk'; simpl in Hj; [by simplify_eq|].
           pose proof (Hmin _ _ _ Hj He' Hk'). lia.
      * exists 0%nat, s0, e0. split_and!; [lia|done..|]. intros [|j] s' e' Hj He' Hk'; simpl in Hj; [by simplify_eq|].
        by destruct (IH _ _ _ Hj He').
    + destruct (oldest_from (S from) key ss) as [[index sequence]|].
      * destruct IH as (i & s & e & -> & Hi & He & Hk & Hq & Hmin). exists (S i), s, e. split_and!; [lia|done..|].
        intros [|j] s' e' Hj; simpl in Hj; [congruence|by eapply Hmin].
      * intros [|i] s e Hi; simpl in Hi; [congruence|by eapply IH].
Qed.

Lemma clear_wf a i s : index_wf a → slots a !! i = Some s → index_wf (clear_entry i s a).
Proof.
  intros Hwf Hi. pose proof (lookup_lt_Some _ _ _ Hi) as Hlt. unfold clear_entry.
  assert (∀ e, e ∈ live_entries (clear_entry i s a) → e ∈ live_entries a) as Hsub.
  { intros e. unfold clear_entry. rewrite (live_entries_insert _ _ s), (live_entries_split _ _ _ Hi) by done. simpl.
    rewrite !elem_of_app. tauto. }
  split; try apply Hwf.
  - intros j s' Hj. simpl in Hj. destruct (decide (j = i)) as [->|Hne].
    + rewrite list_lookup_insert_eq in Hj by done. injection Hj as <-. by eapply (iw_generation _ Hwf i s).
    + rewrite list_lookup_insert_ne in Hj by done. by eapply (iw_generation _ Hwf j).
  - intros j s' e Hj He. simpl in Hj. destruct (decide (j = i)) as [->|Hne].
    + rewrite list_lookup_insert_eq in Hj by done. by injection Hj as <-.
    + rewrite list_lookup_insert_ne in Hj by done. by eapply (iw_live _ Hwf j).
  - intros e He%Hsub. by apply (iw_before _ Hwf).
  - rewrite (live_entries_insert _ _ s) by done. simpl. pose proof (iw_unique _ Hwf) as Hnd.
    rewrite (live_entries_split _ _ _ Hi), !fmap_app in Hnd. rewrite fmap_app. destruct (slot_entry s) as [e|]; [|done].
    simpl in Hnd. apply NoDup_app in Hnd as (H1 & H2 & H3). apply list.NoDup_cons in H3 as [_ H3].
    apply NoDup_app. split_and!; [done| |done]. intros x Hx Hin. apply (H2 x Hx). by right.
  - simpl. rewrite length_insert. apply Hwf.
Qed.

(** The head of the queue is what [oldest_keyed_slot] finds, and clearing its
    slot leaves the rest. *)
Lemma oldest_head a key q : index_wf a → fifo a key q →
  match oldest_keyed_slot (slots a) key, q with
  | None, [] => True
  | Some i, e :: q' => ∃ s, slots a !! i = Some s ∧ slot_entry s = Some e ∧ entry_key e = key ∧
      fifo (clear_entry i s a) key q' ∧
      ∀ key' p, key' ≠ key → fifo a key' p → fifo (clear_entry i s a) key' p
  | _, _ => False
  end.
Proof.
  intros Hwf [Hp Hs]. unfold oldest_keyed_slot. pose proof (oldest_from_spec 0 key (slots a)) as Ho.
  destruct (oldest_from 0 key (slots a)) as [[index sequence]|]; simpl.
  - destruct Ho as (i & s & e & -> & Hi & He & Hk & <- & Hmin). simpl.
    assert (e ∈ q) as Hin.
    { rewrite Hp. apply list_elem_of_filter. split; [done|]. apply elem_of_live. eauto. }
    destruct q as [|e' q]; [by apply elem_of_nil in Hin|]. apply StronglySorted_inv in Hs as [Hs Hall].
    assert (e' = e) as ->.
    { apply elem_of_cons in Hin as [->|Hin]; [done|]. rewrite list.Forall_forall in Hall. pose proof (Hall _ Hin).
      assert (e' ∈ entries_of a key) as [Hk' (j & s' & Hj & He')%elem_of_live]%list_elem_of_filter by (rewrite <- Hp; by left).
      pose proof (Hmin _ _ _ Hj He' Hk'). lia. }
    exists s. split_and!; [done..| |].
    + split; [|done]. apply (Permutation_cons_inv (a:=e)). rewrite Hp. unfold entries_of, clear_entry.
      rewrite (live_entries_insert _ _ s), (live_entries_split _ _ _ Hi), He by done. simpl. rewrite !filter_app. simpl.
      rewrite filter_cons, decide_True by done. by rewrite <- Permutation_middle.
    + intros key' p Hne [Hp' Hs']. split; [|done]. rewrite Hp'. unfold entries_of, clear_entry.
      rewrite (live_entries_insert _ _ s), (live_entries_split _ _ _ Hi), He by done. simpl. rewrite !filter_app. simpl.
      by rewrite filter_cons, decide_False by congruence.
  - destruct q as [|e q]; [done|].
    assert (e ∈ entries_of a key) as [Hk (j & s & Hj & He)%elem_of_live]%list_elem_of_filter by (rewrite <- Hp; by left).
    by destruct (Ho _ _ _ Hj He).
Qed.

(** ** Waking *)

(** Serving up to [limit] from the queue: an entry whose block is still
    undecided is claimed and woken, any other is dropped. *)
Fixpoint serve (limit : nat) q r : list BlockWakeKey * list AtomicWaitEntry * BlockedOperationRegistry.t :=
  match limit, q with
  | O, _ | _, [] => ([], q, r)
  | S n, e :: q =>
      match BlockedOperationRegistry.try_claim_winner (entry_wake e) BlockedOperationWinner.AtomicWake r with
      | Ret r' true => let '(served, rest, r'') := serve n q r' in (entry_wake e :: served, rest, r'')
      | _ => serve limit q r
      end
  end.

(** A batch of [CAPACITY] with the wakes [ws]. *)
Definition filled (CAPACITY : nat) (ws : list BlockWakeKey) : AtomicWakeBatch.t :=
  {| AtomicWakeBatch.wakes := (Some <$> ws) ++ replicate (CAPACITY - length ws) None; AtomicWakeBatch.len := length ws |}.

(** What a wake on [key] leaves of the index. *)
Record served_index a key rest a' : Prop := {
  si_wf : index_wf a';
  si_mine : fifo a' key rest;
  si_others key' p : key' ≠ key → fifo a key' p → fifo a' key' p;
  si_length : length (slots a') = length (slots a);
  si_next : next_sequence a' = next_sequence a;
}.

Lemma served_clear a key i s q rest a' : fifo (clear_entry i s a) key q →
  (∀ key' p, key' ≠ key → fifo a key' p → fifo (clear_entry i s a) key' p) →
  served_index (clear_entry i s a) key rest a' → served_index a key rest a'.
Proof.
  intros _ Hoth [Hwf Hm Ho Hlen Hn]. split; [done|done|auto| |done].
  rewrite Hlen. simpl. by rewrite length_insert.
Qed.

Lemma claim_loop_wp limit key q : ∀ fuel a r ws CAPACITY, index_wf a → ledger_wf r → fifo a key q →
  (length q < fuel)%nat → (length ws + length q ≤ CAPACITY)%nat →
  wp (claim_loop fuel limit key (filled CAPACITY ws)) (a, r)
    (λ batch '(a', r'), let '(served, rest, r'') := serve (limit - length ws) q r in
       r' = r'' ∧ batch = filled CAPACITY (ws ++ served) ∧ served_index a key rest a')
    (λ _ _, False).
Proof.
  induction q as [|e q IH]; intros fuel a r ws CAPACITY Hwf Hlw Hq Hfuel Hcap;
    (destruct fuel as [|fuel]; [simpl in Hfuel; lia|]); cbn [claim_loop AtomicWakeBatch.len filled];
    (destruct (Nat.leb_spec limit (length ws)) as [Hlim|Hlim];
       [replace (limit - length ws)%nat with 0%nat by lia; wp_step; simpl; rewrite app_nil_r; by split_and!|]);
    wp_step; apply wp_on_fst; wp_step; pose proof (oldest_head a key _ Hwf Hq) as Ho;
    destruct (oldest_keyed_slot (slots a) key) as [i|]; try done.
  { wp_step. destruct (limit - length ws)%nat; simpl; rewrite app_nil_r; by split_and!. }
  destruct Ho as (s & Hi & He & Hk & Hq' & Hoth). simpl in Hfuel, Hcap.
  replace (limit - length ws)%nat with (S (limit - S (length ws))) by lia. cbn [serve].
  do 2 (wp_step; eapply wp_expect; [done|]). wp_step. apply wp_on_snd.
  pose proof (try_claim_winner_wp (entry_wake e) BlockedOperationWinner.AtomicWake r Hlw) as Hc. unfold wp in Hc.
  destruct (BlockedOperationRegistry.try_claim_winner _ _ r) as [r1 won|r1 error|] eqn:Hrun; [| |done].
  - eapply (wp_eq _ _ _ _ r1 (Ok won)); [unfold try; by rewrite Hrun|]. destruct Hc as (en & Hen & Hd). destruct won.
    + wp_step. apply wp_on_fst. wp_step. wp_step. unfold AtomicWakeBatch.push. wp_step. apply wp_assert.
      { simpl. rewrite length_fill by lia. apply Nat.ltb_lt. lia. }
      wp_step. cbn [filled AtomicWakeBatch.wakes AtomicWakeBatch.len].
      assert ({| AtomicWakeBatch.wakes := <[length ws := Some (entry_wake e)]> ((Some <$> ws) ++ replicate (CAPACITY - length ws) None);
                 AtomicWakeBatch.len := length ws + 1 |} = filled CAPACITY (ws ++ [entry_wake e])) as ->.
      { unfold filled. rewrite fill_next by lia. f_equal. rewrite length_app. simpl. lia. }
      eapply wp_mono; [apply (IH fuel (clear_entry i s a) r1 (ws ++ [entry_wake e]) CAPACITY)| |done].
      * by apply clear_wf.
      * apply Hd.
      * done.
      * lia.
      * rewrite length_app. simpl. lia.
      * intros batch [a' r']. rewrite length_app. simpl. replace (limit - (length ws + 1))%nat with (limit - S (length ws))%nat by lia.
        destruct (serve (limit - S (length ws)) q r1) as [[served rest] r''].
        intros (-> & -> & Hsi). rewrite <- app_assoc. split_and!; [done..|]. by eapply served_clear.
    + destruct Hd as [-> _]. wp_step. apply wp_on_fst. wp_step.
      eapply wp_mono; [by apply (IH fuel (clear_entry i s a) r ws CAPACITY); [apply clear_wf|..|lia|lia]| |done].
      intros batch [a' r']. replace (limit - length ws)%nat with (S (limit - S (length ws))) by lia.
      destruct (serve (S (limit - S (length ws))) q r) as [[served rest] r''].
      intros (-> & -> & Hsi). split_and!; [done..|]. by eapply served_clear.
  - eapply (wp_eq _ _ _ _ r1 (Err error)); [unfold try; by rewrite Hrun|]. destruct Hc as (-> & -> & _). wp_step. apply wp_on_fst. wp_step.
    eapply wp_mono; [by apply (IH fuel (clear_entry i s a) r ws CAPACITY); [apply clear_wf|..|lia|lia]| |done].
    intros batch [a' r']. replace (limit - length ws)%nat with (S (limit - S (length ws))) by lia.
    destruct (serve (S (limit - S (length ws))) q r) as [[served rest] r''].
    intros (-> & -> & Hsi). split_and!; [done..|]. by eapply served_clear.
Qed.

(** How many a call may wake. *)
Definition wake_limit (count : Z) a : nat :=
  if count =? DW_ATOMIC_WAKE_ALL then length (slots a) else Z.to_nat count.

Lemma fifo_length a key q : fifo a key q → (length q ≤ length (slots a))%nat.
Proof.
  intros [Hp _]. rewrite Hp. unfold entries_of, live_entries. etrans; [apply length_filter|]. apply length_omap.
Qed.

Lemma claim_wake_wp key count a r q : index_wf a → ledger_wf r → fifo a key q →
  wp (claim_wake key count) (a, r)
    (λ batch '(a', r'), let '(served, rest, r'') := serve (wake_limit count a) q r in
       r' = r'' ∧ batch = filled (length (slots a)) served ∧ served_index a key rest a')
    (λ _ _, False).
Proof.
  intros Hwf Hlw Hq. unfold claim_wake. wp_step. apply wp_on_fst. wp_step. cbv zeta. fold (wake_limit count a).
  assert (AtomicWakeBatch.empty (length (slots a)) = filled (length (slots a)) []) as ->.
  { unfold filled, AtomicWakeBatch.empty. simpl. by rewrite Nat.sub_0_r. }
  pose proof (fifo_length _ _ _ Hq) as Hlen. destruct (Nat.eqb_spec (wake_limit count a) 0) as [->|Hpos].
  - wp_step. destruct q; simpl; by split_and!.
  - eapply wp_mono; [apply (claim_loop_wp (wake_limit count a) key q _ _ _ [] (length (slots a))); [done..|lia|simpl; lia]| |done].
    intros batch [a' r']. simpl. by rewrite Nat.sub_0_r.
Qed.

(** When there is room for all, all undecided are woken and the queue is
    empty. *)
Lemma serve_all limit q r : ledger_wf r → (length q ≤ limit)%nat →
  let '(served, rest, r') := serve limit q r in
  rest = [] ∧ ∀ e en, e ∈ q → entry_at r (entry_wake e) = Some en → BlockedOperationRegistry.winner en = None →
    entry_wake e ∈ served.
Proof.
  revert limit r. induction q as [|e q IH]; intros limit r Hwf Hlen; simpl.
  { destruct limit; (split; [done|by intros ? ? ?%elem_of_nil]). }
  destruct limit as [|limit]; [simpl in Hlen; lia|]. simpl in Hlen.
  pose proof (try_claim_winner_wp (entry_wake e) BlockedOperationWinner.AtomicWake r Hwf) as Hc. unfold wp in Hc.
  destruct (BlockedOperationRegistry.try_claim_winner _ _ r) as [r1 [|]|r1 error|]; [..|done].
  - destruct Hc as (en & Hen & Hd). specialize (IH limit r1 (de_wf _ _ _ _ _ Hd) ltac:(lia)).
    destruct (serve limit q r1) as [[served rest] r2]. destruct IH as [-> IH]. split; [done|].
    intros e' en' [->|Hin]%elem_of_cons He' Hw; [by left|].
    destruct (decide (entry_wake e' = entry_wake e)) as [->|Hne]; [by left|]. right. eapply IH; [done| |exact Hw].
    by rewrite (de_at _ _ _ _ _ Hd), decide_False.
  - destruct Hc as (en & Hen & -> & [c Hc]). specialize (IH (S limit) r Hwf ltac:(lia)).
    destruct (serve (S limit) q r) as [[served rest] r2]. destruct IH as [-> IH]. split; [done|].
    intros e' en' [->|Hin]%elem_of_cons He' Hw; [congruence|by eapply IH].
  - destruct Hc as (-> & _ & Hn). specialize (IH (S limit) r Hwf ltac:(lia)).
    destruct (serve (S limit) q r) as [[served rest] r2]. destruct IH as [-> IH]. split; [done|].
    intros e' en' [->|Hin]%elem_of_cons He' Hw; [congruence|by eapply IH].
Qed.

(** What is left was there before. *)
Lemma serve_suffix limit q r : ledger_wf r → let '(served, rest, r') := serve limit q r in
  ledger_wf r' ∧ ∀ e, e ∈ rest → e ∈ q.
Proof.
  revert limit r. induction q as [|e q IH]; intros limit r Hwf; simpl; [by destruct limit|].
  destruct limit as [|limit]; [done|].
  pose proof (try_claim_winner_wp (entry_wake e) BlockedOperationWinner.AtomicWake r Hwf) as Hc. unfold wp in Hc.
  destruct (BlockedOperationRegistry.try_claim_winner _ _ r) as [r1 [|]|r1 error|]; [|..|done].
  - destruct Hc as (en & Hen & Hd). specialize (IH limit r1 (de_wf _ _ _ _ _ Hd)).
    destruct (serve limit q r1) as [[served rest] r2]. destruct IH as [? IH]. split; [done|]. intros e' ?%IH. by right.
  - specialize (IH (S limit) r Hwf). destruct (serve (S limit) q r) as [[served rest] r2]. destruct IH as [? IH].
    split; [done|]. intros e' ?%IH. by right.
  - specialize (IH (S limit) r Hwf). destruct (serve (S limit) q r) as [[served rest] r2]. destruct IH as [? IH].
    split; [done|]. intros e' ?%IH. by right.
Qed.

(** ** Registering and cancelling *)

Lemma next_in_Some s g : is_uint 32 (slot_generation s) → next_in s = Some g →
  slot_entry s = None ∧ g = slot_generation s + 1 ∧ slot_generation s + 1 < 2 ^ 32.
Proof.
  unfold is_uint, next_in. intros Hg. destruct (slot_entry s); [done|]. rewrite next_nonzero_Some by lia. naive_solver.
Qed.

Lemma find_free_slot from ss i g : find_free from ss = Some (i, g) →
  ∃ j s, i = (from + j)%nat ∧ ss !! j = Some s ∧ next_in s = Some g.
Proof.
  revert from. induction ss as [|s ss IH]; intros from; simpl; [done|]. destruct (next_in s) as [g'|] eqn:Hn.
  - intros [= <- <-]. exists 0%nat, s. split_and!; [lia|done|done].
  - intros (j & s' & -> & Hj & Hg)%IH. exists (S j), s'. split_and!; [lia|done|done].
Qed.

(** A new entry at the end of its queue. *)
Record joins a key (wake : BlockWakeKey) (reg : AtomicWaitRegistration) a' : Prop := {
  jo_wf : index_wf a';
  jo_mine q : fifo a key q →
    fifo a' key (q ++ [{| entry_key := key; entry_wake := wake; entry_sequence := next_sequence a |}]);
  jo_others key' p : key' ≠ key → fifo a key' p → fifo a' key' p;
  jo_key : registered_key reg = key;
  jo_wake : registered_wake reg = wake;
  jo_entries : live_entries a' ≡ₚ
    {| entry_key := key; entry_wake := wake; entry_sequence := next_sequence a |} :: live_entries a;
}.

Lemma StronglySorted_last {A} (R : A → A → Prop) l x : StronglySorted R l → (∀ y, y ∈ l → R y x) →
  StronglySorted R (l ++ [x]).
Proof.
  intros Hl Hx. apply StronglySorted_app. split_and!; [|done|by repeat constructor].
  intros y z Hy ->%list_elem_of_singleton. auto.
Qed.

Lemma register_expected_wp key wake expected observed a : index_wf a →
  wp (register_if_expected key wake expected observed) a
    (λ outcome a', match outcome with
       | AtomicWaitRegisterOutcome.Mismatch o => a' = a ∧ o = observed ∧ observed ≠ expected
       | AtomicWaitRegisterOutcome.Registered reg => observed = expected ∧ joins a key wake reg a'
       end)
    (λ error a', a' = a ∧ error = AtomicWaitError.Capacity).
Proof.
  intros Hwf. unfold register_if_expected. destruct (Z.eqb_spec observed expected) as [->|Hne]; simpl; [|by wp_step].
  wp_step. wp_step. wp_step. apply wp_ok_or. destruct (find_free 0 (slots a)) as [[i g]|] eqn:Hf; [|done].
  apply find_free_slot in Hf as (j & s & Heq & Hj & Hg). simpl in Heq. subst j.
  destruct (next_in_Some _ _ (iw_generation _ Hwf _ _ Hj) Hg) as (Hnone & -> & Hlt).
  pose proof (iw_sequence _ Hwf) as Hseq. pose proof (iw_fits _ Hwf) as Hfits. pose proof (lookup_lt_Some _ _ _ Hj) as Hi.
  wp_step. apply wp_ok_or. destruct (next_nonzero 64 (next_sequence a)) as [n|] eqn:Hn; [|done].
  apply next_nonzero_Some in Hn as [-> Hn]; [|lia]. wp_step. wp_step. wp_step. apply wp_ok_or.
  unfold try_from. rewrite (proj2 (Z.ltb_lt _ _)) by lia. wp_step. wp_step. wp_step. split; [done|].
  set (e := {| entry_key := key; entry_wake := wake; entry_sequence := next_sequence a |}).
  set (a' := with_slot i _ _).
  assert (live_entries a' ≡ₚ e :: live_entries a) as Hperm.
  { unfold a'. rewrite (live_entries_insert (with_sequence (next_sequence a + 1) a) i s) by done. simpl.
    rewrite (live_entries_split a i s), Hnone by done. simpl. by rewrite <- Permutation_middle. }
  assert (index_wf a') as Hwf'.
  { split.
    - intros k s' Hk. simpl in Hk. destruct (decide (k = i)) as [->|Hki].
      + rewrite list_lookup_insert_eq in Hk by done. injection Hk as <-. pose proof (iw_generation _ Hwf _ _ Hj) as [? ?].
        unfold is_uint. simpl. lia.
      + rewrite list_lookup_insert_ne in Hk by done. by eapply (iw_generation _ Hwf).
    - intros k s' e' Hk He'. simpl in Hk. destruct (decide (k = i)) as [->|Hki].
      + rewrite list_lookup_insert_eq in Hk by done. injection Hk as <-. pose proof (iw_generation _ Hwf _ _ Hj) as [? ?].
        simpl. lia.
      + rewrite list_lookup_insert_ne in Hk by done. by eapply (iw_live _ Hwf).
    - simpl. lia.
    - intros e'. rewrite Hperm. intros [->|He'%(iw_before _ Hwf)]%elem_of_cons; simpl; lia.
    - rewrite Hperm. simpl. apply list.NoDup_cons. split; [|apply Hwf].
      intros (e' & He' & Hin%(iw_before _ Hwf))%list_elem_of_fmap. simpl in He'. lia.
    - simpl. by rewrite length_insert. }
  split; [done| | |done|done|done].
  - intros q [Hp Hs]. split.
    + unfold entries_of. rewrite Hperm, filter_cons, decide_True by done. rewrite Hp. by rewrite <- Permutation_cons_append.
    + apply StronglySorted_last; [done|]. intros y. rewrite Hp. intros [_ Hy%(iw_before _ Hwf)]%list_elem_of_filter. done.
  - intros key' p Hne [Hp Hs]. split; [|done]. rewrite Hp. unfold entries_of. rewrite Hperm, filter_cons, decide_False; [done|].
    simpl. congruence.
Qed.

Lemma cancel_registration_wp reg a : index_wf a → wp (cancel_if_live reg) a
  (λ (b : bool) a', index_wf a' ∧ ∀ e, e ∈ live_entries a' → e ∈ live_entries a) (λ _ a', a' = a).
Proof.
  intros Hwf. unfold cancel_if_live. wp_step. wp_step. wp_step; [by wp_step|]. wp_step. apply wp_ok_or.
  destruct (slots a !! registered_slot reg) as [s|] eqn:Hs; [|done]. wp_step; [by wp_step|].
  wp_step; [|by wp_step]. wp_step; [by wp_step|]. wp_step; [by wp_step|]. do 3 wp_step.
  split; [by apply (clear_wf _ _ _ Hwf Hs)|]. intros e.
  rewrite (live_entries_insert _ _ s), (live_entries_split _ _ _ Hs) by done. simpl. rewrite !elem_of_app. tauto.
Qed.

(** Every key has a queue. *)
Lemma sorted_strict q : StronglySorted (λ e e', entry_sequence e ≤ entry_sequence e') q → NoDup (entry_sequence <$> q) →
  StronglySorted (λ e e', entry_sequence e < entry_sequence e') q.
Proof.
  induction 1 as [|e q Hs IH Hall]; [constructor|]. simpl. intros [Hni Hnd]%list.NoDup_cons. constructor; [by apply IH|].
  rewrite list.Forall_forall in *. intros e' He'. pose proof (Hall _ He').
  assert (entry_sequence e ≠ entry_sequence e'); [|lia]. intros Heq. apply Hni. rewrite Heq. apply list_elem_of_fmap. eauto.
Qed.

Lemma fifo_exists a key : index_wf a → ∃ q, fifo a key q.
Proof.
  intros Hwf. set (R := λ e e', entry_sequence e ≤ entry_sequence e').
  assert (∀ x y, Decision (R x y)) as HD by (intros x y; unfold R; apply _).
  exists (merge_sort R (entries_of a key)). split; [apply merge_sort_Permutation|].
  assert (Transitive R) as HT by (intros x y z; unfold R; lia).
  assert (Total R) as HTot by (intros x y; unfold R; lia).
  apply sorted_strict; [by apply (StronglySorted_merge_sort R)|].
  rewrite merge_sort_Permutation. unfold entries_of. pose proof (iw_unique _ Hwf) as Hnd.
  clear -Hnd. induction (live_entries a) as [|e es IH]; [done|]. simpl in Hnd. apply list.NoDup_cons in Hnd as [Hni Hnd].
  rewrite filter_cons. case_decide; [|by apply IH]. simpl. apply list.NoDup_cons. split; [|by apply IH].
  intros (e' & He' & [_ Hin]%list_elem_of_filter)%list_elem_of_fmap. apply Hni. rewrite He'. apply list_elem_of_fmap. eauto.
Qed.
