(* ===== verification/AtomicTheorems.v ===== *)
(** * Atomic waits: claims

    Words of memory, the index of waiters and the ledger of blocked
    operations together.  The index implements one queue per word, and no
    wakeup is lost. *)

From stdpp Require Import base tactics numbers list relations.
From Stdlib Require Import ZArith Lia.
From S2P Require Import Prelude Abi Object Wait Gate GateFacts Blocked BlockedFacts BlockedMoves BlockedSystem BlockedTheorems AtomicWait AtomicFacts.
Import AtomicWaitRegistry.
Local Open Scope Z_scope.

(** The value each registration, by its sequence number, expected to find is
    kept for the statements. *)
Record atomic_world : Type := {
  aw_blocks : block_world unit;
  aw_index : AtomicWaitRegistry.t;
  aw_words : AtomicWaitKey → Z;
  aw_expected : Z → Z;
}.

Implicit Types (w : atomic_world) (key : AtomicWaitKey) (e : AtomicWaitEntry).

Definition aw_ledger w : BlockedOperationRegistry.t := bw_ledger (aw_blocks w).

Definition with_index (a : AtomicWaitRegistry.t) w : atomic_world :=
  {| aw_blocks := aw_blocks w; aw_index := a; aw_words := aw_words w; aw_expected := aw_expected w |}.

Definition store key (v : Z) w : atomic_world :=
  {| aw_blocks := aw_blocks w; aw_index := aw_index w;
     aw_words := λ key', if decide (key' = key) then v else aw_words w key'; aw_expected := aw_expected w |}.

(** A registration is entered in the books. *)
Definition after_register (expected : Z) (a : AtomicWaitRegistry.t) (outcome : AtomicWaitRegisterOutcome.t) w : atomic_world :=
  {| aw_blocks := aw_blocks w; aw_index := a; aw_words := aw_words w;
     aw_expected := match outcome with
                    | AtomicWaitRegisterOutcome.Mismatch _ => aw_expected w
                    | AtomicWaitRegisterOutcome.Registered _ =>
                        λ n, if decide (n = next_sequence (aw_index w)) then expected else aw_expected w n
                    end |}.

(** The wakes of a batch have won. *)
Definition woken (batch : AtomicWakeBatch.t) : list BlockWakeKey := omap id (AtomicWakeBatch.wakes batch).

Definition after_wake (a : AtomicWaitRegistry.t) (r : BlockedOperationRegistry.t) (batch : AtomicWakeBatch.t) w : atomic_world :=
  let b := aw_blocks w in
  {| aw_blocks := {| bw_tasks := bw_tasks b; bw_ledger := r; bw_operations := bw_operations b; bw_leases := bw_leases b;
       bw_won := bw_won b ++ ((λ k, (k, BlockedOperationWinner.AtomicWake)) <$> woken batch);
       bw_used := bw_used b; bw_known := bw_known b |};
     aw_index := a; aw_words := aw_words w; aw_expected := aw_expected w |}.

(** Steps; [quiet] says which words are not written. *)
Inductive atomic_step (quiet : AtomicWaitKey → Prop) w : atomic_world → Prop :=
| as_block b : block_step (aw_blocks w) b →
    atomic_step quiet w {| aw_blocks := b; aw_index := aw_index w; aw_words := aw_words w; aw_expected := aw_expected w |}
| as_store key v : ¬ quiet key → atomic_step quiet w (store key v w)
| as_register key wake expected a outcome :
    register_if_expected key wake expected (aw_words w key) (aw_index w) = Ret a outcome →
    atomic_step quiet w (after_register expected a outcome w)
| as_cancel registration a b : cancel_if_live registration (aw_index w) = Ret a b → atomic_step quiet w (with_index a w)
| as_wake key count a r batch : claim_wake key count (aw_index w, aw_ledger w) = Ret (a, r) batch →
    atomic_step quiet w (after_wake a r batch w).

Definition atomic_ok w : Prop := block_ok (aw_blocks w) ∧ index_wf (aw_index w).

(** Serving a queue is a sequence of claims. *)
Lemma serve_ledger_ok limit q r (ops : list (BlockedOperation unit)) won used : ledger_ok r ops won used →
  let '(served, rest, r') := serve limit q r in
  ledger_ok r' ops (won ++ ((λ k, (k, BlockedOperationWinner.AtomicWake)) <$> served)) used.
Proof.
  revert limit r won. induction q as [|e q IH]; intros limit r won Hlo; simpl.
  { destruct limit; by rewrite app_nil_r. }
  destruct limit as [|limit]; [by rewrite app_nil_r|].
  pose proof (try_claim_winner_wp (entry_wake e) BlockedOperationWinner.AtomicWake r (lo_wf _ _ _ _ Hlo)) as Hc.
  unfold wp in Hc. destruct (BlockedOperationRegistry.try_claim_winner _ _ r) as [r1 [|]|r1 error|]; [|by apply IH..|done].
  destruct Hc as (en & Hen & Hd). specialize (IH limit r1 _ (ledger_ok_claim _ _ _ _ _ _ _ _ Hlo Hd)).
  destruct (serve limit q r1) as [[served rest] r2]. by rewrite <- app_assoc in IH.
Qed.

Lemma woken_filled n ws : woken (filled n ws) = ws.
Proof. apply omap_fill. Qed.

Lemma wake_ok w key count a r batch : atomic_ok w → claim_wake key count (aw_index w, aw_ledger w) = Ret (a, r) batch →
  atomic_ok (after_wake a r batch w) ∧ (∀ e, e ∈ live_entries a → e ∈ live_entries (aw_index w)) ∧
  next_sequence a = next_sequence (aw_index w).
Proof.
  intros [[Hlo Hgo] Hiw] Hrun. destruct (fifo_exists _ key Hiw) as [q Hq].
  pose proof (wp_Ret _ _ _ _ _ _ (claim_wake_wp key count _ _ q Hiw (lo_wf _ _ _ _ Hlo) Hq) Hrun) as Hw. simpl in Hw.
  pose proof (serve_ledger_ok (wake_limit count (aw_index w)) q _ _ _ _ Hlo) as Hlo'.
  pose proof (serve_suffix (wake_limit count (aw_index w)) q _ (lo_wf _ _ _ _ Hlo)) as Hsuf. unfold aw_ledger in Hw.
  destruct (serve _ q _) as [[served rest] r']. destruct Hw as (-> & -> & Hsi). destruct Hsuf as [_ Hsuf]. split_and!.
  - split; [|apply Hsi]. split; [|done]. simpl. by rewrite woken_filled.
  - intros e He. destruct (decide (entry_key e = key)) as [<-|Hne].
    + assert (e ∈ rest) as Hin%Hsuf. { rewrite (ff_entries _ _ _ (si_mine _ _ _ _ Hsi)). by apply list_elem_of_filter. }
      rewrite (ff_entries _ _ _ Hq) in Hin. by apply list_elem_of_filter in Hin as [_ ?].
    + destruct (fifo_exists _ (entry_key e) Hiw) as [q' Hq']. pose proof (si_others _ _ _ _ Hsi _ _ Hne Hq') as Hf.
      assert (e ∈ q') as Hin by (rewrite (ff_entries _ _ _ Hf); by apply list_elem_of_filter).
      rewrite (ff_entries _ _ _ Hq') in Hin. by apply list_elem_of_filter in Hin as [_ ?].
  - apply Hsi.
Qed.

Lemma atomic_step_ok quiet w w' : atomic_ok w → atomic_step quiet w w' → atomic_ok w'.
Proof.
  intros Hok Hstep. pose proof Hok as [Hb Hi]. destruct Hstep as [b Hb'|key v _|key wake expected a outcome Hrun|reg a b Hrun|key count a r batch Hrun].
  - split; [|done]. by eapply block_step_ok.
  - done.
  - split; [done|]. pose proof (wp_Ret _ _ _ _ _ _ (register_expected_wp key wake expected _ _ Hi) Hrun) as Hw.
    destruct outcome; [by destruct Hw as [-> _]|]. destruct Hw as [_ Hj]. apply Hj.
  - split; [done|]. by apply (wp_Ret _ _ _ _ _ _ (cancel_registration_wp reg _ Hi) Hrun).
  - by eapply wake_ok.
Qed.

Lemma atomic_run_ok quiet w w' : atomic_ok w → rtc (atomic_step quiet) w w' → atomic_ok w'.
Proof. induction 2; [done|]. eauto using atomic_step_ok. Qed.

(** ** The beginning *)

Definition atomic_start (tdomain rdomain idomain : Z) (PROCESSES BLOCKED CAPACITY : nat) : atomic_world :=
  {| aw_blocks := block_start tdomain rdomain PROCESSES BLOCKED;
     aw_index := {| domain := idomain; next_sequence := 1; slots := replicate CAPACITY EMPTY_SLOT |};
     aw_words := λ _, 0; aw_expected := λ _, 0 |}.

Lemma atomic_start_ok tdomain rdomain idomain PROCESSES BLOCKED CAPACITY : Z.of_nat BLOCKED ≤ 2 ^ 16 →
  Z.of_nat CAPACITY ≤ 2 ^ 16 → atomic_ok (atomic_start tdomain rdomain idomain PROCESSES BLOCKED CAPACITY).
Proof.
  intros Hb Hc. split; [by apply block_start_ok|].
  assert (live_entries (aw_index (atomic_start tdomain rdomain idomain PROCESSES BLOCKED CAPACITY)) = []) as Hnone.
  { unfold live_entries. simpl. clear. by induction CAPACITY. }
  split; simpl.
  - by intros i s [-> _]%lookup_replicate.
  - by intros i s e [-> _]%lookup_replicate.
  - lia.
  - intros e. simpl in Hnone. rewrite Hnone. by intros ?%elem_of_nil.
  - simpl in Hnone. rewrite Hnone. apply NoDup_nil_2.
  - by rewrite length_replicate.
Qed.

Section claims.
Context (tdomain rdomain idomain : Z) (PROCESSES BLOCKED CAPACITY : nat).

Definition reachable w : Prop := Z.of_nat BLOCKED ≤ 2 ^ 16 ∧ Z.of_nat CAPACITY ≤ 2 ^ 16 ∧
  rtc (atomic_step (λ _, False)) (atomic_start tdomain rdomain idomain PROCESSES BLOCKED CAPACITY) w.

Lemma reachable_ok w : reachable w → atomic_ok w.
Proof. intros (Hb & Hc & Hrun). eapply atomic_run_ok; [|exact Hrun]. by apply atomic_start_ok. Qed.

(** C24. The index of atomic waiters implements one queue per word.  In every
    state it reaches, the entries of a word, by their numbers, are a queue.
    A thread that registers while the word has the value it expects is
    appended to the queue of its word and changes no other; it is refused
    only with the word changed, or when the index is full.  A wake serves the
    queue of its word from the head, up to its count: it claims and returns
    exactly the blocks that are still undecided, drops those already decided
    on the way, leaves the rest in order and the other queues alone, and
    never fails. *)
Theorem atomic_index_refines_queues w key : reachable w →
  (∃ q, fifo (aw_index w) key q) ∧
  ∀ q, fifo (aw_index w) key q →
    (∀ wake expected, match register_if_expected key wake expected (aw_words w key) (aw_index w) with
       | Ret a (AtomicWaitRegisterOutcome.Registered registration) => aw_words w key = expected ∧
           fifo a key (q ++ [{| entry_key := key; entry_wake := wake; entry_sequence := next_sequence (aw_index w) |}]) ∧
           ∀ key' p, key' ≠ key → fifo (aw_index w) key' p → fifo a key' p
       | Ret a (AtomicWaitRegisterOutcome.Mismatch observed) => a = aw_index w ∧ aw_words w key ≠ expected
       | Fail a error => a = aw_index w ∧ error = AtomicWaitError.Capacity
       | Panic => False
       end) ∧
    ∀ count, let '(served, rest, r) := serve (wake_limit count (aw_index w)) q (aw_ledger w) in
      ∃ a batch, claim_wake key count (aw_index w, aw_ledger w) = Ret (a, r) batch ∧ woken batch = served ∧
        fifo a key rest ∧ ∀ key' p, key' ≠ key → fifo (aw_index w) key' p → fifo a key' p.
Proof.
  intros [[Hlo Hgo] Hiw]%reachable_ok. split; [by apply fifo_exists|]. intros q Hq. split.
  - intros wake expected. pose proof (register_expected_wp key wake expected (aw_words w key) _ Hiw) as Hw. unfold wp in Hw.
    destruct (register_if_expected _ _ _ _ _) as [a [observed|reg]|a error|]; [|..|done].
    + by destruct Hw as (-> & _ & ?).
    + destruct Hw as [-> [_ Hm Ho _ _ _]]. split_and!; auto.
    + done.
  - intros count. pose proof (claim_wake_wp key count _ _ q Hiw (lo_wf _ _ _ _ Hlo) Hq) as Hw. unfold wp in Hw.
    unfold aw_ledger in *. destruct (serve _ q _) as [[served rest] r'].
    destruct (claim_wake _ _ _) as [[a r] batch| |]; [|done..]. destruct Hw as (-> & -> & Hsi).
    exists a, (filled (length (slots (aw_index w))) served). split_and!; [done|apply woken_filled|apply Hsi..].
Qed.

(** Everyone in the queue of [key] expects [v], and the word is [v]. *)
Definition expecting key (v : Z) w : Prop :=
  aw_words w key = v ∧ ∀ e, e ∈ entries_of (aw_index w) key → aw_expected w (entry_sequence e) = v.

Lemma expecting_step key v w w' : atomic_ok w → expecting key v w → atomic_step (λ key', key' = key) w w' → expecting key v w'.
Proof.
  intros Hok [Hv Hall] Hstep. pose proof Hok as [Hb Hi].
  destruct Hstep as [b Hb'|key' v' Hne|key' wake expected a outcome Hrun|reg a b Hrun|key' count a r batch Hrun]; simpl.
  - done.
  - split; simpl; [|done]. by rewrite decide_False.
  - split; [done|]. simpl. pose proof (wp_Ret _ _ _ _ _ _ (register_expected_wp key' wake expected _ _ Hi) Hrun) as Hw.
    destruct outcome as [observed|registration]; [destruct Hw as [-> _]; apply Hall|]. destruct Hw as [Heq Hj].
    intros e [Hk He]%list_elem_of_filter. rewrite (jo_entries _ _ _ _ _ Hj) in He.
    apply elem_of_cons in He as [->|He]; simpl in *; [rewrite decide_True by done; congruence|].
    pose proof (iw_before _ Hi _ He). rewrite decide_False by lia. apply Hall. by apply list_elem_of_filter.
  - split; [done|]. simpl. destruct (wp_Ret _ _ _ _ _ _ (cancel_registration_wp reg _ Hi) Hrun) as [_ Hsub].
    intros e [Hk He%Hsub]%list_elem_of_filter. apply Hall. by apply list_elem_of_filter.
  - split; [done|]. simpl. destruct (wake_ok _ _ _ _ _ _ Hok Hrun) as (_ & Hsub & _).
    intros e [Hk He%Hsub]%list_elem_of_filter. apply Hall. by apply list_elem_of_filter.
Qed.

(** The block of the entry is outstanding and nobody has won it. *)
Definition waits w e : Prop :=
  entry_wake e ∈ omap op_wake (bw_operations (aw_blocks w)) ∧ decided (bw_won (aw_blocks w)) (entry_wake e) = None.

Lemma waits_entry w e : block_ok (aw_blocks w) → waits w e →
  ∃ en, entry_at (aw_ledger w) (entry_wake e) = Some en ∧ BlockedOperationRegistry.winner en = None.
Proof.
  intros [Hlo _] [(op & Hop & Hk)%list_elem_of_omap Hd]. pose proof (lo_ops _ _ _ _ Hlo) as Hops.
  rewrite list.Forall_forall in Hops. destruct (Hops op Hop) as (res & owned & lease & -> & _ & Hres).
  injection Hk as Hk. apply (reserved_entry_at _ _ _ (lo_wf _ _ _ _ Hlo)) in Hres. rewrite Hk, Hd in Hres.
  eexists. by split; [exact Hres|].
Qed.

(** C12. No atomic wakeup is lost.  When all waiters of a word are woken, every
    thread that waits for it is in the batch; and from then on, for as long as
    the word is not written, whoever is entered for the word has found the
    value it expected after the wake: a thread that still waits for another
    value than the word has does not exist. *)
Theorem no_atomic_wakeup_is_lost w key a r batch w' : reachable w →
  claim_wake key DW_ATOMIC_WAKE_ALL (aw_index w, aw_ledger w) = Ret (a, r) batch →
  (∀ e, e ∈ entries_of (aw_index w) key → waits w e → entry_wake e ∈ woken batch) ∧
  (rtc (atomic_step (λ key', key' = key)) (after_wake a r batch w) w' → expecting key (aw_words w key) w').
Proof.
  intros Hok%reachable_ok Hrun. pose proof Hok as [[Hlo Hgo] Hiw]. destruct (fifo_exists _ key Hiw) as [q Hq].
  pose proof (wp_Ret _ _ _ _ _ _ (claim_wake_wp key _ _ _ q Hiw (lo_wf _ _ _ _ Hlo) Hq) Hrun) as Hw. simpl in Hw.
  pose proof (serve_all (wake_limit DW_ATOMIC_WAKE_ALL (aw_index w)) q _ (lo_wf _ _ _ _ Hlo) (fifo_length _ _ _ Hq)) as Hall.
  unfold aw_ledger in Hw. destruct (serve _ q _) as [[served rest] r']. destruct Hw as (-> & -> & Hsi). destruct Hall as [-> Hall].
  split.
  - intros e He Hwaits. destruct (waits_entry w e (conj Hlo Hgo) Hwaits) as (en & Hen & Hn). rewrite woken_filled.
    eapply Hall; [|exact Hen|exact Hn]. by rewrite (ff_entries _ _ _ Hq).
  - intros Hsteps. assert (expecting key (aw_words w key) (after_wake a r' (filled (length (slots (aw_index w))) served) w)) as Hex.
    { split; [done|]. simpl. intros e. rewrite <- (ff_entries _ _ _ (si_mine _ _ _ _ Hsi)). by intros ?%elem_of_nil. }
    destruct (wake_ok _ _ _ _ _ _ Hok Hrun) as [Hok1 _]. revert Hok1 Hex. clear -Hsteps.
    induction Hsteps as [|w0 w1 w2 Hstep _ IH]; [done|]. intros Hok0 Hex. apply IH; [by eapply atomic_step_ok|].
    by eapply expecting_step.
Qed.

End claims.

(** ** One thread waits for one word *)

Definition demo_key : AtomicWaitKey := {| key_object := {| oid_domain := 1; oid_raw := 2 ^ 32 + 9 |}; key_object_offset := 64 |}.

Definition demo_entry : AtomicWaitEntry := {| entry_key := demo_key; entry_wake := demo_wake; entry_sequence := 1 |}.

Definition blocked_once : block_world unit :=
  {| bw_tasks := demo_tasks (with_active 1 accepting);
     bw_ledger := demo_ledger 1 (Some {| BlockedOperationRegistry.process := demo_process;
       BlockedOperationRegistry.thread := demo_thread; BlockedOperationRegistry.wake := demo_wake;
       BlockedOperationRegistry.winner := None |});
     bw_operations := [demo_operation]; bw_leases := []; bw_won := []; bw_used := [demo_wake];
     bw_known := [process_key_object demo_process] |}.

Definition demo_index (entry : option AtomicWaitEntry) : AtomicWaitRegistry.t :=
  {| domain := 5; next_sequence := 2; slots := [{| slot_generation := 1; slot_entry := entry |}; EMPTY_SLOT] |}.

Definition demo_registration : AtomicWaitRegistration :=
  {| registered_domain := 5; registered_slot := 0; registered_generation := 1;
     registered_key := demo_key; registered_wake := demo_wake |}.

Definition before_waiting : atomic_world :=
  {| aw_blocks := blocked_once; aw_index := {| domain := 5; next_sequence := 1; slots := replicate 2 EMPTY_SLOT |};
     aw_words := λ _, 0; aw_expected := λ _, 0 |}.

(** The thread is registered for the word, which holds zero. *)
Definition waiting_once : atomic_world :=
  after_register 0 (demo_index (Some demo_entry)) (AtomicWaitRegisterOutcome.Registered demo_registration) before_waiting.

Lemma blocks_run quiet b b' index words expected : rtc block_step b b' →
  rtc (atomic_step quiet) {| aw_blocks := b; aw_index := index; aw_words := words; aw_expected := expected |}
    {| aw_blocks := b'; aw_index := index; aw_words := words; aw_expected := expected |}.
Proof.
  induction 1 as [|b b1 b2 Hstep _ IH]; [apply rtc_refl|]. eapply rtc_l; [|exact IH].
  exact (as_block quiet {| aw_blocks := b; aw_index := index; aw_words := words; aw_expected := expected |} b1 Hstep).
Qed.

Lemma blocked_once_reachable : rtc block_step (block_start 3 4 1 1) blocked_once.
Proof.
  eapply rtc_l; [eapply (bs_appears _ 0 (process_key_object demo_process)); [done|by intros ?%elem_of_nil]|].
  eapply rtc_l; [eapply (bs_publish _ demo_process demo_thread demo_wake tt); [by intros ?%elem_of_nil|reflexivity]|].
  apply rtc_refl.
Qed.

Lemma waiting_once_reachable : reachable 3 4 5 1 1 2 waiting_once.
Proof.
  split; [done|]. split; [done|]. etrans; [exact (blocks_run _ _ _ _ _ _ blocked_once_reachable)|].
  eapply rtc_l; [|apply rtc_refl].
  refine (as_register _ before_waiting demo_key demo_wake 0 (demo_index (Some demo_entry)) _ _). vm_compute. reflexivity.
Qed.

Lemma demo_fifo : fifo (demo_index (Some demo_entry)) demo_key [demo_entry].
Proof. split; [reflexivity|repeat constructor]. Qed.

Lemma atomic_index_refines_queues_witness : ∃ a batch,
  claim_wake demo_key 1 (aw_index waiting_once, aw_ledger waiting_once) =
    Ret (a, demo_ledger 1 (Some {| BlockedOperationRegistry.process := demo_process;
       BlockedOperationRegistry.thread := demo_thread; BlockedOperationRegistry.wake := demo_wake;
       BlockedOperationRegistry.winner := Some BlockedOperationWinner.AtomicWake |})) batch ∧
  woken batch = [demo_wake] ∧ fifo a demo_key [].
Proof.
  destruct (atomic_index_refines_queues 3 4 5 1 1 2 waiting_once demo_key waiting_once_reachable) as [_ Hall].
  destruct (Hall [demo_entry] demo_fifo) as [_ Hw]. destruct (Hw 1) as (a & batch & Hrun & Hs & Hf & _).
  exists a, batch. exact (conj Hrun (conj Hs Hf)).
Defined.

Definition demo_batch : AtomicWakeBatch.t := {| AtomicWakeBatch.wakes := [Some demo_wake; None]; AtomicWakeBatch.len := 1 |}.

Definition woken_ledger : BlockedOperationRegistry.t :=
  demo_ledger 1 (Some {| BlockedOperationRegistry.process := demo_process;
    BlockedOperationRegistry.thread := demo_thread; BlockedOperationRegistry.wake := demo_wake;
    BlockedOperationRegistry.winner := Some BlockedOperationWinner.AtomicWake |}).

Lemma no_atomic_wakeup_is_lost_witness :
  demo_wake ∈ woken demo_batch ∧
  expecting demo_key 0 (after_wake (demo_index None) woken_ledger demo_batch waiting_once).
Proof.
  destruct (no_atomic_wakeup_is_lost 3 4 5 1 1 2 waiting_once demo_key (demo_index None) woken_ledger demo_batch
    (after_wake (demo_index None) woken_ledger demo_batch waiting_once) waiting_once_reachable) as [Hall Hex].
  - vm_compute. reflexivity.
  - split.
    + apply (Hall demo_entry); [by left|]. split; [by left|done].
    + apply Hex, rtc_refl.
Defined.
