(* ===== verification/Scheduler.v ===== *)
(** * The scheduler: state and internal methods

    [kernel/src/task/scheduler.rs] in the configuration the kernel ships in
    (neither [test] nor one of the evidence configurations), and the state of
    [scheduler/carrier_admission.rs] it embeds.  A method that takes
    [&mut self] is a computation in [M SchedulerState.t]; the lock around a
    public method makes it one step.  Every public method that changes the
    state ends with [assert_invariants], which panics when
    [check_invariants] finds anything wrong.

    Traces, which are recorded in tests only, and the mirror of the state for
    the liveness diagnostics are left out. *)

From stdpp Require Import base tactics numbers list.
From Stdlib Require Import ZArith Lia.
From S2P Require Import Prelude Abi Object Cpu Wait Clock Deadline Timer LiveTime.
Local Open Scope Z_scope.

Module SchedulerError.
Inductive t : Type :=
| Capacity
| DuplicateThread
| ForeignReservation
| StaleReservation
| ForeignBlockToken
| StaleBlockToken
| CurrentThreadRunning
| NotScheduled
| NotRunning
| WrongCpu
| ForeignExecutionClaim
| StaleExecutionClaim
| TokenExhausted
| BlockPreparationActive
| SwitchPending
| ContinuationOwned
| AccountingOverflow
| AccountingUnderflow
| TimeRegression
| IdleAccountingActive
| CarrierUnavailable
| StaleIdleAccounting
| QuantumUnavailable
| StaleQuantum
| PreemptionDisabled
| PreemptionDepthOverflow
| PreemptionDepthUnderflow.
End SchedulerError.

(** [mint_scheduler_domain]: the receiver is the counter. *)
Definition mint_scheduler_domain {E} : M Z E Z :=
  value ← get;
  next ← expect (next_nonzero 64 value);
  put next;;
  mret value.

Definition DEFAULT_NORMAL_QUANTUM_NS : Z := 5000000.

(** [(1_u64 << H2_SCHEDULER_CPU_CAPACITY) - 1] *)
Definition ALL_CPUS_MASK : Z := Z.shiftl 1 (Z.of_nat CPU_CAPACITY) - 1.

(** [1_u64 << cpu.index()] *)
Definition cpu_bit (cpu : CpuIndex.t) : Z := Z.shiftl 1 (Z.of_nat (CpuIndex.index cpu)).

Module SchedulerThreadState.
Inductive t : Type :=
| Reserved
| Runnable
| Running
| Blocked.

#[global] Instance eq_dec : EqDecision t.
Proof. solve_decision. Defined.
End SchedulerThreadState.

Record SchedulerExecutionClaim : Type := {
  claim_domain : Z;
  claim_cpu : CpuIndex.t;
  claim_thread : ThreadKey;
  claim_generation : Z;
}.

Record BlockReservation : Type := { block_key : BlockWakeKey }.

Record BlockReservationFailure : Type := { block_error : SchedulerError.t; failed_block : BlockReservation }.

Record BlockToken : Type := { token_key : BlockWakeKey }.

Record SchedulerReservation : Type := {
  reservation_domain : Z;
  reservation_token : Z;
  reservation_thread : ThreadKey;
}.

Record SchedulerReservationFailure : Type := {
  reservation_error : SchedulerError.t;
  failed_reservation : SchedulerReservation;
}.

Record ScheduleDecision : Type := {
  previous : option ThreadKey;
  current : option ThreadKey;
  cancelled_quantum : option SchedulerQuantumTicket;
}.

Module SchedulerPreemptionDecision.
Inductive t : Type :=
| Deferred
| RetainCurrent (consumed_published_expiry : SchedulerQuantumTicket)
| Switch (decision : ScheduleDecision) (outgoing : SchedulerExecutionClaim).
End SchedulerPreemptionDecision.

Record ClearedPreemption : Type := {
  cleared_quantum : option SchedulerQuantumTicket;
  published_expiry : option SchedulerQuantumTicket;
}.

Record SchedulerTerminalStop : Type := { stop_cancelled_quantum : option SchedulerQuantumTicket }.

Record RunnablePublication : Type := { target : CpuIndex.t; continuation_bound : bool }.

Record SchedulerWakePublication : Type := {
  wake_runnable : RunnablePublication;
  wake_source : CpuIndex.t;
  wake_generation : Z;
}.

Definition wake_affinity (self : RunnablePublication) : option CpuIndex.t :=
  if continuation_bound self then Some (target self) else None.

Record SchedulerCompletedSwitch : Type := {
  runnable_publication : option RunnablePublication;
  incoming_claim : option SchedulerExecutionClaim;
  completed_generation : Z;
  completed_involuntary : bool;
}.

Record SchedulerMigrationRecord : Type := {
  migration_thread : ThreadKey;
  migration_execution_generation : Z;
  migration_source : CpuIndex.t;
  migration_target : CpuIndex.t;
  migration_generation : Z;
  migration_enqueue_generation : Z;
}.

Record SchedulerDispatch : Type := {
  dispatch_decision : ScheduleDecision;
  dispatch_migration : option SchedulerMigrationRecord;
}.

Module IdleScheduleDecision.
Inductive t : Type :=
| ContinueIdle
| ResumeCurrent
| Switch (decision : ScheduleDecision).
End IdleScheduleDecision.

Record SchedulerIdleDispatch : Type := {
  idle_decision : IdleScheduleDecision.t;
  idle_migration : option SchedulerMigrationRecord;
}.

Record QueueEntry : Type := {
  q_thread : ThreadKey;
  q_state : SchedulerThreadState.t;
  q_token : Z;
  q_started_execution_generation : Z;
  q_block_cpu : option CpuIndex.t;
  q_block_execution_generation : Z;
  q_continuation_cpu : option CpuIndex.t;
  q_continuation_generation : Z;
  q_target_cpu : CpuIndex.t;
  q_last_cpu : option CpuIndex.t;
  q_eligibility_mask : Z;
  q_enqueue_generation : Z;
  q_migration_generation : Z;
  q_migration_eligibility_generation : Z;
  q_ready_at_ns : option Z;
}.

Record SchedulerIdleAccountingToken : Type := {
  idle_domain : Z;
  idle_cpu : CpuIndex.t;
  idle_generation : Z;
  started_at_ns : Z;
}.

#[global] Instance SchedulerIdleAccountingToken_eq_dec : EqDecision SchedulerIdleAccountingToken.
Proof. solve_decision. Defined.

Record RunningClaim : Type := { run_thread : ThreadKey; run_generation : Z }.

#[global] Instance RunningClaim_eq_dec : EqDecision RunningClaim.
Proof. solve_decision. Defined.

Module SuspendedPublication.
Inductive t : Type :=
| Queued
| Retired.

#[global] Instance eq_dec : EqDecision t.
Proof. solve_decision. Defined.
End SuspendedPublication.

Record SuspendedContinuation : Type := {
  susp_thread : ThreadKey;
  susp_generation : Z;
  susp_publication : SuspendedPublication.t;
  susp_involuntary_preemption : bool;
}.

(** * Accounting *)

Module SchedulerEvent.
Inductive t : Type :=
| ContextSwitch
| VoluntaryBlock
| VoluntaryYield
| Wakeup
| IdleEntry
| QuantumExpiration
| InvoluntaryPreemption
| StealIn
| StealOut
| MigrationIn
| MigrationOut.

#[global] Instance eq_dec : EqDecision t.
Proof. solve_decision. Defined.
End SchedulerEvent.

Module SchedulerCounters.

Record t : Type := {
  current_runnable : Z;
  context_switches : Z;
  quantum_expirations : Z;
  involuntary_preemptions : Z;
  voluntary_blocks : Z;
  voluntary_yields : Z;
  wakeups : Z;
  steals_in : Z;
  steals_out : Z;
  migrations_in : Z;
  migrations_out : Z;
  idle_entries : Z;
  idle_time_ns : Z;
  longest_ready_delay_ns : Z;
  overflow_fault : bool;
}.

Definition default : t :=
  {| current_runnable := 0; context_switches := 0; quantum_expirations := 0; involuntary_preemptions := 0;
     voluntary_blocks := 0; voluntary_yields := 0; wakeups := 0; steals_in := 0; steals_out := 0;
     migrations_in := 0; migrations_out := 0; idle_entries := 0; idle_time_ns := 0; longest_ready_delay_ns := 0;
     overflow_fault := false |}.

(** The counter of an event. *)
Definition counter (event : SchedulerEvent.t) (self : t) : Z :=
  match event with
  | SchedulerEvent.ContextSwitch => context_switches self
  | SchedulerEvent.VoluntaryBlock => voluntary_blocks self
  | SchedulerEvent.VoluntaryYield => voluntary_yields self
  | SchedulerEvent.Wakeup => wakeups self
  | SchedulerEvent.IdleEntry => idle_entries self
  | SchedulerEvent.QuantumExpiration => quantum_expirations self
  | SchedulerEvent.InvoluntaryPreemption => involuntary_preemptions self
  | SchedulerEvent.StealIn => steals_in self
  | SchedulerEvent.StealOut => steals_out self
  | SchedulerEvent.MigrationIn => migrations_in self
  | SchedulerEvent.MigrationOut => migrations_out self
  end.

(** The fields that are not the counter of an event are given. *)
Definition with_fields (event : option SchedulerEvent.t) (n runnable idle delay : Z) (fault : bool) (self : t) : t :=
  let count e := if decide (event = Some e) then n else counter e self in
  {| current_runnable := runnable; context_switches := count SchedulerEvent.ContextSwitch;
     quantum_expirations := count SchedulerEvent.QuantumExpiration;
     involuntary_preemptions := count SchedulerEvent.InvoluntaryPreemption;
     voluntary_blocks := count SchedulerEvent.VoluntaryBlock; voluntary_yields := count SchedulerEvent.VoluntaryYield;
     wakeups := count SchedulerEvent.Wakeup; steals_in := count SchedulerEvent.StealIn;
     steals_out := count SchedulerEvent.StealOut; migrations_in := count SchedulerEvent.MigrationIn;
     migrations_out := count SchedulerEvent.MigrationOut; idle_entries := count SchedulerEvent.IdleEntry;
     idle_time_ns := idle; longest_ready_delay_ns := delay; overflow_fault := fault |}.

Definition with_counter (event : SchedulerEvent.t) (n : Z) (self : t) : t :=
  with_fields (Some event) n (current_runnable self) (idle_time_ns self) (longest_ready_delay_ns self)
    (overflow_fault self) self.

Definition with_runnable (n : Z) (self : t) : t :=
  with_fields None 0 n (idle_time_ns self) (longest_ready_delay_ns self) (overflow_fault self) self.

Definition with_idle_time (n : Z) (self : t) : t :=
  with_fields None 0 (current_runnable self) n (longest_ready_delay_ns self) (overflow_fault self) self.

Definition with_ready_delay (n : Z) (self : t) : t :=
  with_fields None 0 (current_runnable self) (idle_time_ns self) n (overflow_fault self) self.

Definition with_overflow_fault (fault : bool) (self : t) : t :=
  with_fields None 0 (current_runnable self) (idle_time_ns self) (longest_ready_delay_ns self) fault self.

Definition overflow : M t SchedulerError.t unit :=
  modify (with_overflow_fault true);;
  fail SchedulerError.AccountingOverflow.

Definition increment (event : SchedulerEvent.t) : M t SchedulerError.t unit :=
  self ← get;
  match checked_add 64 (counter event self) 1 with
  | None => overflow
  | Some next => put (with_counter event next self)
  end.

Definition increment_runnable : M t SchedulerError.t unit :=
  self ← get;
  match checked_add 64 (current_runnable self) 1 with
  | None => overflow
  | Some next => put (with_runnable next self)
  end.

Definition decrement_runnable : M t SchedulerError.t unit :=
  self ← get;
  match checked_sub (current_runnable self) 1 with
  | None => fail SchedulerError.AccountingUnderflow
  | Some next => put (with_runnable next self)
  end.

Definition record_idle_time (elapsed_ns : Z) : M t SchedulerError.t unit :=
  self ← get;
  match checked_add 64 (idle_time_ns self) elapsed_ns with
  | None => overflow
  | Some next => put (with_idle_time next self)
  end.

Definition observe_ready_delay (ready_at_ns dispatch_at_ns : Z) : M t SchedulerError.t unit :=
  self ← get;
  delay ← ok_or (checked_sub dispatch_at_ns ready_at_ns) SchedulerError.TimeRegression;
  put (with_ready_delay (Z.max (longest_ready_delay_ns self) delay) self).

End SchedulerCounters.

Module SchedulerAccounting.

(** [[SchedulerCounters; H2_SCHEDULER_CPU_CAPACITY]] *)
Abbreviation t := (cpu_array SchedulerCounters.t).

Definition counters_mut {E A} (cpu : CpuIndex.t) : M SchedulerCounters.t E A → M t E A :=
  on_part (λ self, self !!! cpu) (λ counters self, <[cpu := counters]> self).

Definition increment (cpu : CpuIndex.t) (event : SchedulerEvent.t) : M t SchedulerError.t unit :=
  counters_mut cpu (SchedulerCounters.increment event).

Definition increment_runnable (cpu : CpuIndex.t) : M t SchedulerError.t unit :=
  counters_mut cpu SchedulerCounters.increment_runnable.

Definition decrement_runnable (cpu : CpuIndex.t) : M t SchedulerError.t unit :=
  counters_mut cpu SchedulerCounters.decrement_runnable.

Definition observe_ready_delay (dispatch_cpu : CpuIndex.t) (ready_at_ns dispatch_at_ns : option Z)
    : M t SchedulerError.t unit :=
  match ready_at_ns, dispatch_at_ns with
  | Some ready_at_ns, Some dispatch_at_ns =>
      counters_mut dispatch_cpu (SchedulerCounters.observe_ready_delay ready_at_ns dispatch_at_ns)
  | _, _ => mret tt
  end.

Definition retain_fault (cpu : CpuIndex.t) (attempted self : t) : t :=
  let mine := self !!! cpu in
  <[cpu := SchedulerCounters.with_overflow_fault
             (SchedulerCounters.overflow_fault mine || SchedulerCounters.overflow_fault (attempted !!! cpu)) mine]> self.

Definition retain_faults_from (attempted self : t) : t :=
  foldr (λ cpu self, retain_fault cpu attempted self) self cpus.

End SchedulerAccounting.

(** * Carrier admission *)

Module CarrierAdmissionLifecycle.
Inductive t : Type :=
| Unavailable
| Preparing
| CarrierReady
| Schedulable
| Failed.

#[global] Instance eq_dec : EqDecision t.
Proof. solve_decision. Defined.
End CarrierAdmissionLifecycle.

Module CarrierDeadlineState.
Inductive t : Type :=
| BootstrapArbiterReady
| ApSchedulerTimerMasked.

#[global] Instance eq_dec : EqDecision t.
Proof. solve_decision. Defined.
End CarrierDeadlineState.

Record CarrierResourceTuple : Type := {
  carrier_cpu : CpuIndex.t;
  local_apic_id : Z;
  resource_online_generation : Z;
  root_generation : Z;
  descriptor_cpu : CpuIndex.t;
  runtime_cpu : CpuIndex.t;
  entry_stack_cpu : CpuIndex.t;
  reaper_stack_cpu : CpuIndex.t;
  root_cpu : CpuIndex.t;
  scratch_cpu : CpuIndex.t;
  idle_mailbox_cpu : CpuIndex.t;
  tlb_mailbox_cpu : CpuIndex.t;
  carrier_deadline : CarrierDeadlineState.t;
}.

#[global] Instance CarrierResourceTuple_eq_dec : EqDecision CarrierResourceTuple.
Proof. solve_decision. Defined.

Record CarrierAdmissionSlot : Type := {
  lifecycle : CarrierAdmissionLifecycle.t;
  slot_resources : option CarrierResourceTuple;
  slot_online_generation : Z;
  slot_admission_generation : Z;
  slot_scheduler_slot_generation : Z;
  idle_wake_ready : bool;
}.

Definition new_carrier_slot : CarrierAdmissionSlot :=
  {| lifecycle := CarrierAdmissionLifecycle.Unavailable; slot_resources := None; slot_online_generation := 0;
     slot_admission_generation := 0; slot_scheduler_slot_generation := 0; idle_wake_ready := false |}.

Module CarrierAdmissionState.
Record t : Type := {
  next_admission_generation : Z;
  next_scheduler_slot_generation : Z;
  slots : cpu_array CarrierAdmissionSlot;
  schedulable_mask : Z;
  enforced : bool;
}.

Definition new : t :=
  {| next_admission_generation := 1; next_scheduler_slot_generation := 1; slots := all_cpus new_carrier_slot;
     schedulable_mask := 0; enforced := false |}.
End CarrierAdmissionState.

(** * The state *)

Module SchedulerState.

Record t : Type := Scheduled {
  domain : Z;
  next_token : Z;
  next_execution_generation : Z;
  next_enqueue_generation : Z;
  next_migration_generation : Z;
  next_migration_eligibility_generation : Z;
  next_idle_generation : Z;
  next_wake_generation : Z;
  next_completed_switch_generation : Z;
  next_quantum_generation : cpu_array Z;
  queue : list (option QueueEntry);
  len : nat;
  running : cpu_array (option RunningClaim);
  pending_block : cpu_array (option BlockWakeKey);
  suspended : cpu_array (option SuspendedContinuation);
  accounting : SchedulerAccounting.t;
  active_idle : cpu_array (option SchedulerIdleAccountingToken);
  instrumentation_now_ns : cpu_array (option Z);
  instrumentation_global_now_ns : option Z;
  quantum : cpu_array (option SchedulerQuantumTicket);
  need_resched : cpu_array (option SchedulerQuantumTicket);
  preemption_disable_depth : cpu_array Z;
  last_migration : option SchedulerMigrationRecord;
  carrier_admission : CarrierAdmissionState.t;
}.

Definition with_next_token (x : Z) (self : t) : t :=
  Scheduled (domain self) x (next_execution_generation self) (next_enqueue_generation self)
     (next_migration_generation self) (next_migration_eligibility_generation self) (next_idle_generation self)
     (next_wake_generation self) (next_completed_switch_generation self) (next_quantum_generation self)
     (queue self) (len self) (running self) (pending_block self) (suspended self) (accounting self)
     (active_idle self) (instrumentation_now_ns self) (instrumentation_global_now_ns self) (quantum self)
     (need_resched self) (preemption_disable_depth self) (last_migration self) (carrier_admission self).

Definition with_next_execution_generation (x : Z) (self : t) : t :=
  Scheduled (domain self) (next_token self) x (next_enqueue_generation self) (next_migration_generation self)
     (next_migration_eligibility_generation self) (next_idle_generation self) (next_wake_generation self)
     (next_completed_switch_generation self) (next_quantum_generation self) (queue self) (len self)
     (running self) (pending_block self) (suspended self) (accounting self) (active_idle self)
     (instrumentation_now_ns self) (instrumentation_global_now_ns self) (quantum self) (need_resched self)
     (preemption_disable_depth self) (last_migration self) (carrier_admission self).

Definition with_next_enqueue_generation (x : Z) (self : t) : t :=
  Scheduled (domain self) (next_token self) (next_execution_generation self) x
     (next_migration_generation self) (next_migration_eligibility_generation self) (next_idle_generation self)
     (next_wake_generation self) (next_completed_switch_generation self) (next_quantum_generation self)
     (queue self) (len self) (running self) (pending_block self) (suspended self) (accounting self)
     (active_idle self) (instrumentation_now_ns self) (instrumentation_global_now_ns self) (quantum self)
     (need_resched self) (preemption_disable_depth self) (last_migration self) (carrier_admission self).

Definition with_next_migration_generation (x : Z) (self : t) : t :=
  Scheduled (domain self) (next_token self) (next_execution_generation self) (next_enqueue_generation self) x
     (next_migration_eligibility_generation self) (next_idle_generation self) (next_wake_generation self)
     (next_completed_switch_generation self) (next_quantum_generation self) (queue self) (len self)
     (running self) (pending_block self) (suspended self) (accounting self) (active_idle self)
     (instrumentation_now_ns self) (instrumentation_global_now_ns self) (quantum self) (need_resched self)
     (preemption_disable_depth self) (last_migration self) (carrier_admission self).

Definition with_next_migration_eligibility_generation (x : Z) (self : t) : t :=
  Scheduled (domain self) (next_token self) (next_execution_generation self) (next_enqueue_generation self)
     (next_migration_generation self) x (next_idle_generation self) (next_wake_generation self)
     (next_completed_switch_generation self) (next_quantum_generation self) (queue self) (len self)
     (running self) (pending_block self) (suspended self) (accounting self) (active_idle self)
     (instrumentation_now_ns self) (instrumentation_global_now_ns self) (quantum self) (need_resched self)
     (preemption_disable_depth self) (last_migration self) (carrier_admission self).

Definition with_next_idle_generation (x : Z) (self : t) : t :=
  Scheduled (domain self) (next_token self) (next_execution_generation self) (next_enqueue_generation self)
     (next_migration_generation self) (next_migration_eligibility_generation self) x
     (next_wake_generation self) (next_completed_switch_generation self) (next_quantum_generation self)
     (queue self) (len self) (running self) (pending_block self) (suspended self) (accounting self)
     (active_idle self) (instrumentation_now_ns self) (instrumentation_global_now_ns self) (quantum self)
     (need_resched self) (preemption_disable_depth self) (last_migration self) (carrier_admission self).

Definition with_next_wake_generation (x : Z) (self : t) : t :=
  Scheduled (domain self) (next_token self) (next_execution_generation self) (next_enqueue_generation self)
     (next_migration_generation self) (next_migration_eligibility_generation self) (next_idle_generation self)
     x (next_completed_switch_generation self) (next_quantum_generation self) (queue self) (len self)
     (running self) (pending_block self) (suspended self) (accounting self) (active_idle self)
     (instrumentation_now_ns self) (instrumentation_global_now_ns self) (quantum self) (need_resched self)
     (preemption_disable_depth self) (last_migration self) (carrier_admission self).

Definition with_next_completed_switch_generation (x : Z) (self : t) : t :=
  Scheduled (domain self) (next_token self) (next_execution_generation self) (next_enqueue_generation self)
     (next_migration_generation self) (next_migration_eligibility_generation self) (next_idle_generation self)
     (next_wake_generation self) x (next_quantum_generation self) (queue self) (len self) (running self)
     (pending_block self) (suspended self) (accounting self) (active_idle self) (instrumentation_now_ns self)
     (instrumentation_global_now_ns self) (quantum self) (need_resched self) (preemption_disable_depth self)
     (last_migration self) (carrier_admission self).

Definition with_next_quantum_generation (x : cpu_array Z) (self : t) : t :=
  Scheduled (domain self) (next_token self) (next_execution_generation self) (next_enqueue_generation self)
     (next_migration_generation self) (next_migration_eligibility_generation self) (next_idle_generation self)
     (next_wake_generation self) (next_completed_switch_generation self) x (queue self) (len self)
     (running self) (pending_block self) (suspended self) (accounting self) (active_idle self)
     (instrumentation_now_ns self) (instrumentation_global_now_ns self) (quantum self) (need_resched self)
     (preemption_disable_depth self) (last_migration self) (carrier_admission self).

Definition with_queue (x : list (option QueueEntry)) (self : t) : t :=
  Scheduled (domain self) (next_token self) (next_execution_generation self) (next_enqueue_generation self)
     (next_migration_generation self) (next_migration_eligibility_generation self) (next_idle_generation self)
     (next_wake_generation self) (next_completed_switch_generation self) (next_quantum_generation self) x
     (len self) (running self) (pending_block self) (suspended self) (accounting self) (active_idle self)
     (instrumentation_now_ns self) (instrumentation_global_now_ns self) (quantum self) (need_resched self)
     (preemption_disable_depth self) (last_migration self) (carrier_admission self).

Definition with_len (x : nat) (self : t) : t :=
  Scheduled (domain self) (next_token self) (next_execution_generation self) (next_enqueue_generation self)
     (next_migration_generation self) (next_migration_eligibility_generation self) (next_idle_generation self)
     (next_wake_generation self) (next_completed_switch_generation self) (next_quantum_generation self)
     (queue self) x (running self) (pending_block self) (suspended self) (accounting self) (active_idle self)
     (instrumentation_now_ns self) (instrumentation_global_now_ns self) (quantum self) (need_resched self)
     (preemption_disable_depth self) (last_migration self) (carrier_admission self).

Definition with_running (x : cpu_array (option RunningClaim)) (self : t) : t :=
  Scheduled (domain self) (next_token self) (next_execution_generation self) (next_enqueue_generation self)
     (next_migration_generation self) (next_migration_eligibility_generation self) (next_idle_generation self)
     (next_wake_generation self) (next_completed_switch_generation self) (next_quantum_generation self)
     (queue self) (len self) x (pending_block self) (suspended self) (accounting self) (active_idle self)
     (instrumentation_now_ns self) (instrumentation_global_now_ns self) (quantum self) (need_resched self)
     (preemption_disable_depth self) (last_migration self) (carrier_admission self).

Definition with_pending_block (x : cpu_array (option BlockWakeKey)) (self : t) : t :=
  Scheduled (domain self) (next_token self) (next_execution_generation self) (next_enqueue_generation self)
     (next_migration_generation self) (next_migration_eligibility_generation self) (next_idle_generation self)
     (next_wake_generation self) (next_completed_switch_generation self) (next_quantum_generation self)
     (queue self) (len self) (running self) x (suspended self) (accounting self) (active_idle self)
     (instrumentation_now_ns self) (instrumentation_global_now_ns self) (quantum self) (need_resched self)
     (preemption_disable_depth self) (last_migration self) (carrier_admission self).

Definition with_suspended (x : cpu_array (option SuspendedContinuation)) (self : t) : t :=
  Scheduled (domain self) (next_token self) (next_execution_generation self) (next_enqueue_generation self)
     (next_migration_generation self) (next_migration_eligibility_generation self) (next_idle_generation self)
     (next_wake_generation self) (next_completed_switch_generation self) (next_quantum_generation self)
     (queue self) (len self) (running self) (pending_block self) x (accounting self) (active_idle self)
     (instrumentation_now_ns self) (instrumentation_global_now_ns self) (quantum self) (need_resched self)
     (preemption_disable_depth self) (last_migration self) (carrier_admission self).

Definition with_accounting (x : SchedulerAccounting.t) (self : t) : t :=
  Scheduled (domain self) (next_token self) (next_execution_generation self) (next_enqueue_generation self)
     (next_migration_generation self) (next_migration_eligibility_generation self) (next_idle_generation self)
     (next_wake_generation self) (next_completed_switch_generation self) (next_quantum_generation self)
     (queue self) (len self) (running self) (pending_block self) (suspended self) x (active_idle self)
     (instrumentation_now_ns self) (instrumentation_global_now_ns self) (quantum self) (need_resched self)
     (preemption_disable_depth self) (last_migration self) (carrier_admission self).

Definition with_active_idle (x : cpu_array (option SchedulerIdleAccountingToken)) (self : t) : t :=
  Scheduled (domain self) (next_token self) (next_execution_generation self) (next_enqueue_generation self)
     (next_migration_generation self) (next_migration_eligibility_generation self) (next_idle_generation self)
     (next_wake_generation self) (next_completed_switch_generation self) (next_quantum_generation self)
     (queue self) (len self) (running self) (pending_block self) (suspended self) (accounting self) x
     (instrumentation_now_ns self) (instrumentation_global_now_ns self) (quantum self) (need_resched self)
     (preemption_disable_depth self) (last_migration self) (carrier_admission self).

Definition with_instrumentation_now_ns (x : cpu_array (option Z)) (self : t) : t :=
  Scheduled (domain self) (next_token self) (next_execution_generation self) (next_enqueue_generation self)
     (next_migration_generation self) (next_migration_eligibility_generation self) (next_idle_generation self)
     (next_wake_generation self) (next_completed_switch_generation self) (next_quantum_generation self)
     (queue self) (len self) (running self) (pending_block self) (suspended self) (accounting self)
     (active_idle self) x (instrumentation_global_now_ns self) (quantum self) (need_resched self)
     (preemption_disable_depth self) (last_migration self) (carrier_admission self).

Definition with_instrumentation_global_now_ns (x : option Z) (self : t) : t :=
  Scheduled (domain self) (next_token self) (next_execution_generation self) (next_enqueue_generation self)
     (next_migration_generation self) (next_migration_eligibility_generation self) (next_idle_generation self)
     (next_wake_generation self) (next_completed_switch_generation self) (next_quantum_generation self)
     (queue self) (len self) (running self) (pending_block self) (suspended self) (accounting self)
     (active_idle self) (instrumentation_now_ns self) x (quantum self) (need_resched self)
     (preemption_disable_depth self) (last_migration self) (carrier_admission self).

Definition with_quantum (x : cpu_array (option SchedulerQuantumTicket)) (self : t) : t :=
  Scheduled (domain self) (next_token self) (next_execution_generation self) (next_enqueue_generation self)
     (next_migration_generation self) (next_migration_eligibility_generation self) (next_idle_generation self)
     (next_wake_generation self) (next_completed_switch_generation self) (next_quantum_generation self)
     (queue self) (len self) (running self) (pending_block self) (suspended self) (accounting self)
     (active_idle self) (instrumentation_now_ns self) (instrumentation_global_now_ns self) x
     (need_resched self) (preemption_disable_depth self) (last_migration self) (carrier_admission self).

Definition with_need_resched (x : cpu_array (option SchedulerQuantumTicket)) (self : t) : t :=
  Scheduled (domain self) (next_token self) (next_execution_generation self) (next_enqueue_generation self)
     (next_migration_generation self) (next_migration_eligibility_generation self) (next_idle_generation self)
     (next_wake_generation self) (next_completed_switch_generation self) (next_quantum_generation self)
     (queue self) (len self) (running self) (pending_block self) (suspended self) (accounting self)
     (active_idle self) (instrumentation_now_ns self) (instrumentation_global_now_ns self) (quantum self) x
     (preemption_disable_depth self) (last_migration self) (carrier_admission self).

Definition with_preemption_disable_depth (x : cpu_array Z) (self : t) : t :=
  Scheduled (domain self) (next_token self) (next_execution_generation self) (next_enqueue_generation self)
     (next_migration_generation self) (next_migration_eligibility_generation self) (next_idle_generation self)
     (next_wake_generation self) (next_completed_switch_generation self) (next_quantum_generation self)
     (queue self) (len self) (running self) (pending_block self) (suspended self) (accounting self)
     (active_idle self) (instrumentation_now_ns self) (instrumentation_global_now_ns self) (quantum self)
     (need_resched self) x (last_migration self) (carrier_admission self).

Definition with_last_migration (x : option SchedulerMigrationRecord) (self : t) : t :=
  Scheduled (domain self) (next_token self) (next_execution_generation self) (next_enqueue_generation self)
     (next_migration_generation self) (next_migration_eligibility_generation self) (next_idle_generation self)
     (next_wake_generation self) (next_completed_switch_generation self) (next_quantum_generation self)
     (queue self) (len self) (running self) (pending_block self) (suspended self) (accounting self)
     (active_idle self) (instrumentation_now_ns self) (instrumentation_global_now_ns self) (quantum self)
     (need_resched self) (preemption_disable_depth self) x (carrier_admission self).

Definition with_carrier_admission (x : CarrierAdmissionState.t) (self : t) : t :=
  Scheduled (domain self) (next_token self) (next_execution_generation self) (next_enqueue_generation self)
     (next_migration_generation self) (next_migration_eligibility_generation self) (next_idle_generation self)
     (next_wake_generation self) (next_completed_switch_generation self) (next_quantum_generation self)
     (queue self) (len self) (running self) (pending_block self) (suspended self) (accounting self)
     (active_idle self) (instrumentation_now_ns self) (instrumentation_global_now_ns self) (quantum self)
     (need_resched self) (preemption_disable_depth self) (last_migration self) x.

Definition new {E} (CAPACITY : nat) : M Z E t :=
  domain ← mint_scheduler_domain;
  mret {| domain := domain; next_token := 1; next_execution_generation := 1; next_enqueue_generation := 1;
          next_migration_generation := 1; next_migration_eligibility_generation := 1; next_idle_generation := 1;
          next_wake_generation := 1; next_completed_switch_generation := 1; next_quantum_generation := all_cpus 1;
          queue := replicate CAPACITY None; len := 0; running := all_cpus None; pending_block := all_cpus None;
          suspended := all_cpus None; accounting := all_cpus SchedulerCounters.default; active_idle := all_cpus None;
          instrumentation_now_ns := all_cpus None; instrumentation_global_now_ns := None; quantum := all_cpus None;
          need_resched := all_cpus None; preemption_disable_depth := all_cpus 0; last_migration := None;
          carrier_admission := CarrierAdmissionState.new |}.

(** Assignments to one cell of an array. *)
Definition set_running (cpu : CpuIndex.t) (x : option RunningClaim) (self : t) : t :=
  with_running (<[cpu := x]> (running self)) self.
Definition set_pending_block (cpu : CpuIndex.t) (x : option BlockWakeKey) (self : t) : t :=
  with_pending_block (<[cpu := x]> (pending_block self)) self.
Definition set_suspended (cpu : CpuIndex.t) (x : option SuspendedContinuation) (self : t) : t :=
  with_suspended (<[cpu := x]> (suspended self)) self.
Definition set_active_idle (cpu : CpuIndex.t) (x : option SchedulerIdleAccountingToken) (self : t) : t :=
  with_active_idle (<[cpu := x]> (active_idle self)) self.
Definition set_quantum (cpu : CpuIndex.t) (x : option SchedulerQuantumTicket) (self : t) : t :=
  with_quantum (<[cpu := x]> (quantum self)) self.
Definition set_need_resched (cpu : CpuIndex.t) (x : option SchedulerQuantumTicket) (self : t) : t :=
  with_need_resched (<[cpu := x]> (need_resched self)) self.

(** [queue[..len].iter()], without and with [flatten()]. *)
Definition queued (self : t) : list (option QueueEntry) := take (len self) (queue self).
Definition entries (self : t) : list QueueEntry := omap id (queued self).

Definition is_some_and {A} (p : A → bool) (o : option A) : bool :=
  match o with Some a => p a | None => false end.

Definition position (p : QueueEntry → bool) (self : t) : option nat :=
  fst <$> list_find (λ o, is_some_and p o) (queued self).

Definition find (p : QueueEntry → bool) (self : t) : option QueueEntry :=
  snd <$> list_find (λ entry, p entry) (entries self).

Definition of_thread (thread : ThreadKey) (entry : QueueEntry) : bool := bool_decide (q_thread entry = thread).

Definition claims (thread : ThreadKey) : option RunningClaim → bool :=
  is_some_and (λ claim, bool_decide (run_thread claim = thread)).

Definition suspends (thread : ThreadKey) : option SuspendedContinuation → bool :=
  is_some_and (λ owner, bool_decide (susp_thread owner = thread)).

Definition is_runnable (entry : QueueEntry) : bool := bool_decide (q_state entry = SchedulerThreadState.Runnable).

(** The entries [cpu] may claim, while it runs and while it idles. *)
Definition local_runnable (cpu : CpuIndex.t) (entry : QueueEntry) : bool :=
  is_runnable entry && bool_decide (q_target_cpu entry = cpu) && is_none (q_continuation_cpu entry).

Definition idle_runnable (cpu : CpuIndex.t) (entry : QueueEntry) : bool :=
  is_runnable entry && bool_decide (q_target_cpu entry = cpu)
  && (is_none (q_continuation_cpu entry) || bool_decide (q_continuation_cpu entry = Some cpu)).

Definition contains (thread : ThreadKey) (self : t) : bool :=
  existsb (claims thread) (cells (running self)) || existsb (of_thread thread) (entries self).

(** In the kernel's configuration every rejection panics. *)
Definition reject_accounting {A} (attempted : SchedulerAccounting.t) (error : SchedulerError.t)
    : M t SchedulerError.t A :=
  match error with
  | SchedulerError.AccountingOverflow | SchedulerError.AccountingUnderflow =>
      modify (λ self, with_accounting (SchedulerAccounting.retain_faults_from attempted (accounting self)) self)
  | SchedulerError.TimeRegression => mret tt
  | _ => panic
  end;;
  panic.

(** [let mut accounting = self.accounting; ..; if let Err(error) = .. { .. }]:
    the new accounting, or what follows an error. *)
Definition account_or (cleanup : M t SchedulerError.t unit) (m : M SchedulerAccounting.t SchedulerError.t unit)
    : M t SchedulerError.t SchedulerAccounting.t :=
  self ← get;
  match m (accounting self) with
  | Ret accounting _ => mret accounting
  | Fail attempted error => cleanup;; reject_accounting attempted error
  | Panic => panic
  end.

Definition account : M SchedulerAccounting.t SchedulerError.t unit → M t SchedulerError.t SchedulerAccounting.t :=
  account_or (mret tt).

Definition execution_generation_available (self : t) : bool :=
  negb (is_none (next_nonzero 64 (next_execution_generation self))).

Definition push (entry : QueueEntry) : M t SchedulerError.t unit :=
  self ← get;
  if (len self =? length (queue self))%nat then fail SchedulerError.Capacity
  else if existsb (of_thread (q_thread entry)) (entries self) then fail SchedulerError.DuplicateThread
  else
    put (with_len (len self + 1) (with_queue (<[len self := Some entry]> (queue self)) self)).

(** [queue[current] = queue[current + 1].take()] *)
Definition shift_into {E} (current : nat) : M t E unit :=
  self ← get;
  next ← expect (queue self !! S current);
  put (with_queue (<[current := next]> (<[S current := None]> (queue self))) self).

Definition remove_index {E} (index : nat) : M t E QueueEntry :=
  self ← get;
  assert_that (index <? len self)%nat;;
  removed ← expect (mjoin (queue self !! index));
  put (with_queue (<[index := None]> (queue self)) self);;
  for_each (seq index (len self - 1 - index)) (λ current _, shift_into current) tt;;
  modify (λ self, with_len (len self - 1) self);;
  modify (λ self, with_queue (<[len self := None]> (queue self)) self);;
  mret removed.

(** [queue[index] = Some(entry)], in range. *)
Definition write_entry (index : nat) (entry : QueueEntry) (self : t) : t :=
  with_queue (<[index := Some entry]> (queue self)) self.

Definition schedulable_mask (self : t) : Z :=
  if CarrierAdmissionState.enforced (carrier_admission self)
  then CarrierAdmissionState.schedulable_mask (carrier_admission self)
  else ALL_CPUS_MASK.

Definition cpu_admissible (cpu : CpuIndex.t) (eligibility_mask : Z) (self : t) : bool :=
  negb (Z.land (Z.land (schedulable_mask self) eligibility_mask) (cpu_bit cpu) =? 0).

Definition deepen (cpu : CpuIndex.t) (depths : cpu_array nat) : cpu_array nat := <[cpu := S (depths !!! cpu)]> depths.

Definition runnable_depths (self : t) : cpu_array nat :=
  let queued := foldl (λ depths entry, if is_runnable entry then deepen (q_target_cpu entry) depths else depths)
                  (all_cpus 0%nat) (entries self) in
  foldl (λ depths cpu, if is_none (running self !!! cpu) then depths else deepen cpu depths) queued cpus.

(** [min_by_key(|cpu| (depths[cpu.index()], cpu.index()))] over CPUs in the
    order of their indices. *)
Fixpoint shallowest (depths : cpu_array nat) (candidates : list CpuIndex.t) : option CpuIndex.t :=
  match candidates with
  | [] => None
  | cpu :: candidates =>
      match shallowest depths candidates with
      | Some other => if (depths !!! other <? depths !!! cpu)%nat then Some other else Some cpu
      | None => Some cpu
      end
  end.

(** [Option::filter] and [Option::or]. *)
Definition keep {A} (p : A → bool) (o : option A) : option A := if is_some_and p o then o else None.
Definition or {A} (o o' : option A) : option A := match o with Some _ => o | None => o' end.

Definition select_placement (entry : QueueEntry) (requester : CpuIndex.t) (self : t) : option CpuIndex.t :=
  let admissible cpu := cpu_admissible cpu (q_eligibility_mask entry) self in
  match q_continuation_cpu entry with
  | Some continuation_cpu => if admissible continuation_cpu then Some continuation_cpu else None
  | None =>
      let retained := keep admissible (q_last_cpu entry) in
      let requested := if admissible requester then Some requester else None in
      let candidates := List.filter admissible cpus in
      let depths := runnable_depths self in
      if existsb (λ cpu, (depths !!! cpu =? 0)%nat) candidates
      then or (or retained requested) (head candidates)
      else
        match shallowest depths candidates with
        | None => None
        | Some shallowest =>
            let least := depths !!! shallowest in
            let as_shallow cpu := (depths !!! cpu =? least)%nat in
            or (or (keep as_shallow retained) (keep as_shallow requested)) (Some shallowest)
        end
  end.

Definition first_local_runnable_index (cpu : CpuIndex.t) : t → option nat := position (local_runnable cpu).

Definition entry_migratable (entry : QueueEntry) (victim target : CpuIndex.t) (self : t) : bool :=
  is_runnable entry
  && bool_decide (q_target_cpu entry = victim)
  && (q_token entry =? 0)
  && is_none (q_block_cpu entry)
  && (q_block_execution_generation entry =? 0)
  && is_none (q_continuation_cpu entry)
  && (q_continuation_generation entry =? 0)
  && negb (q_migration_eligibility_generation entry =? 0)
  && cpu_admissible target (q_eligibility_mask entry) self
  && negb (existsb (claims (q_thread entry)) (cells (running self)))
  && negb (existsb (is_some_and (λ pending, bool_decide (wake_thread pending = q_thread entry)))
             (cells (pending_block self)))
  && negb (existsb (suspends (q_thread entry)) (cells (suspended self))).

Definition mint_execution_generation : M t SchedulerError.t Z :=
  self ← get;
  next ← ok_or (next_nonzero 64 (next_execution_generation self)) SchedulerError.TokenExhausted;
  put (with_next_execution_generation next self);;
  mret (next_execution_generation self).

Definition mint_migration_eligibility_generation : M t SchedulerError.t Z :=
  self ← get;
  next ← ok_or (next_nonzero 64 (next_migration_eligibility_generation self)) SchedulerError.TokenExhausted;
  put (with_next_migration_eligibility_generation next self);;
  mret (next_migration_eligibility_generation self).

(** [checked_completed_switch_generation] and [checked_wake_generation]. *)
Definition checked_generation (generation : Z) : M t SchedulerError.t (Z * Z) :=
  if generation =? 0 then fail SchedulerError.TokenExhausted
  else
    next ← ok_or (next_nonzero 64 generation) SchedulerError.TokenExhausted;
    mret (generation, next).

Definition claim_first_runnable_on (cpu : CpuIndex.t) : M t SchedulerError.t (option RunningClaim) :=
  self ← get;
  match first_local_runnable_index cpu self with
  | None => mret None
  | Some index =>
      entry ← remove_index index;
      generation ← (if negb (q_started_execution_generation entry =? 0)
                    then mret (q_started_execution_generation entry)
                    else mint_execution_generation);
      mret (Some {| run_thread := q_thread entry; run_generation := generation |})
  end.

Definition claim_first_runnable_for_idle (cpu : CpuIndex.t) (suspended : SuspendedContinuation)
    : M t SchedulerError.t (option RunningClaim) :=
  self ← get;
  match position (idle_runnable cpu) self with
  | None => mret None
  | Some index =>
      entry ← expect (mjoin (queue self !! index));
      generation ← (if bool_decide (q_continuation_cpu entry = Some cpu) then
                      if negb (bool_decide (q_thread entry = susp_thread suspended))
                         || negb (q_continuation_generation entry =? susp_generation suspended)
                      then fail SchedulerError.StaleExecutionClaim
                      else mret (susp_generation suspended)
                    else if negb (q_started_execution_generation entry =? 0)
                    then mret (q_started_execution_generation entry)
                    else mint_execution_generation);
      entry ← remove_index index;
      mret (Some {| run_thread := q_thread entry; run_generation := generation |})
  end.

Record PendingMigration : Type := {
  pending_record : SchedulerMigrationRecord;
  pending_index : nat;
  prior_entry : QueueEntry;
  prior_accounting : SchedulerAccounting.t;
  prior_last_migration : option SchedulerMigrationRecord;
  prior_next_generation : Z;
}.

(** The entry is moved to [target] under [generation]. *)
Definition migrated (target : CpuIndex.t) (generation : Z) (entry : QueueEntry) : QueueEntry :=
  {| q_thread := q_thread entry; q_state := q_state entry; q_token := q_token entry;
     q_started_execution_generation := q_started_execution_generation entry; q_block_cpu := q_block_cpu entry;
     q_block_execution_generation := q_block_execution_generation entry;
     q_continuation_cpu := q_continuation_cpu entry; q_continuation_generation := q_continuation_generation entry;
     q_target_cpu := target; q_last_cpu := q_last_cpu entry; q_eligibility_mask := q_eligibility_mask entry;
     q_enqueue_generation := q_enqueue_generation entry; q_migration_generation := generation;
     q_migration_eligibility_generation := q_migration_eligibility_generation entry;
     q_ready_at_ns := q_ready_at_ns entry |}.

(** The body of the victim loop once a candidate is found at [index]. *)
Definition pull_from (victim target : CpuIndex.t) (index : nat) : M t SchedulerError.t PendingMigration :=
  self ← get;
  let generation := next_migration_generation self in
  next_generation ← ok_or (next_nonzero 64 generation) SchedulerError.TokenExhausted;
  accounting' ← account (
    SchedulerAccounting.decrement_runnable victim;;
    SchedulerAccounting.increment_runnable target;;
    SchedulerAccounting.increment victim SchedulerEvent.StealOut;;
    SchedulerAccounting.increment target SchedulerEvent.StealIn;;
    SchedulerAccounting.increment victim SchedulerEvent.MigrationOut;;
    SchedulerAccounting.increment target SchedulerEvent.MigrationIn);
  prior_entry ← expect (mjoin (queue self !! index));
  let migration := {| migration_thread := q_thread prior_entry;
                      migration_execution_generation := q_started_execution_generation prior_entry;
                      migration_source := victim; migration_target := target; migration_generation := generation;
                      migration_enqueue_generation := q_enqueue_generation prior_entry |} in
  modify (write_entry index (migrated target generation prior_entry));;
  modify (with_last_migration (Some migration));;
  modify (with_next_migration_generation next_generation);;
  modify (with_accounting accounting');;
  mret {| pending_record := migration; pending_index := index; prior_entry := prior_entry;
          prior_accounting := accounting self; prior_last_migration := last_migration self;
          prior_next_generation := next_migration_generation self |}.

(** The threshold of a rebalancing pull cannot overflow: the depths count
    entries of a fixed table. *)
Definition pull_oldest_for (target : CpuIndex.t) (rebalance : bool) : M t SchedulerError.t (option PendingMigration) :=
  self ← get;
  let mask := schedulable_mask self in
  let depths := runnable_depths self in
  let threshold := if rebalance then Some (depths !!! target + 2)%nat else None in
  pulled ← loop (seq 1 (CPU_CAPACITY - 1)) (λ offset _,
    let victim_index := ((CpuIndex.index target + offset) mod CPU_CAPACITY)%nat in
    victim ← expect (CpuIndex.new victim_index);
    if Z.land mask (cpu_bit victim) =? 0 then mret (Continue tt)
    else if is_some_and (λ threshold, (depths !!! victim <? threshold)%nat) threshold then mret (Continue tt)
    else
      self ← get;
      match position (λ entry, entry_migratable entry victim target self) self with
      | None => mret (Continue tt)
      | Some index =>
          pending ← pull_from victim target index;
          mret (Break pending)
      end) tt;
  mret (match pulled with Break pending => Some pending | Continue _ => None end).

Definition steal_oldest_for (target : CpuIndex.t) : M t SchedulerError.t (option PendingMigration) :=
  pull_oldest_for target false.

Definition rebalance_pull_for (target : CpuIndex.t) : M t SchedulerError.t (option PendingMigration) :=
  pull_oldest_for target true.

Definition rollback_pending_migration {E} (pending : PendingMigration) : M t E unit :=
  self ← get;
  current ← expect (mjoin (queue self !! pending_index pending));
  assert_that (bool_decide (q_thread current = migration_thread (pending_record pending)));;
  assert_that (bool_decide (q_target_cpu current = migration_target (pending_record pending)));;
  assert_that (q_migration_generation current =? migration_generation (pending_record pending));;
  modify (write_entry (pending_index pending) (prior_entry pending));;
  modify (with_accounting (prior_accounting pending));;
  modify (with_last_migration (prior_last_migration pending));;
  modify (with_next_migration_generation (prior_next_generation pending)).

(** [if let Some(pending) = .. { rollback_pending_migration(pending) }] *)
Definition roll_back {E} (pending : option PendingMigration) : M t E unit :=
  match pending with Some pending => rollback_pending_migration pending | None => mret tt end.

Definition running_cpu (thread : ThreadKey) (self : t) : option CpuIndex.t :=
  snd <$> list_find (λ cpu, claims thread (running self !!! cpu)) cpus.

Definition clear_preemption_on {E} (cpu : CpuIndex.t) : M t E ClearedPreemption :=
  self ← get;
  modify (set_quantum cpu None);;
  modify (set_need_resched cpu None);;
  assert_that (is_none (quantum self !!! cpu) || is_none (need_resched self !!! cpu));;
  mret {| cleared_quantum := quantum self !!! cpu; published_expiry := need_resched self !!! cpu |}.

Definition mint_quantum_on (cpu : CpuIndex.t) (claim : RunningClaim) (now_ns : Z)
    : M t SchedulerError.t SchedulerQuantumTicket :=
  self ← get;
  deadline_ns ← ok_or (checked_add 64 now_ns DEFAULT_NORMAL_QUANTUM_NS) SchedulerError.TokenExhausted;
  let source_arm_generation := next_quantum_generation self !!! cpu in
  next ← ok_or (next_nonzero 64 source_arm_generation) SchedulerError.TokenExhausted;
  modify (with_next_quantum_generation (<[cpu := next]> (next_quantum_generation self)));;
  let ticket := {| ticket_domain := domain self; ticket_cpu := cpu; ticket_thread := run_thread claim;
                   ticket_execution_generation := run_generation claim;
                   ticket_source_arm_generation := source_arm_generation; ticket_deadline_ns := deadline_ns |} in
  modify (set_quantum cpu (Some ticket));;
  mret ticket.

(** ** The checks *)

Definition reject_if (b : bool) (error : SchedulerError.t) : Result unit SchedulerError.t :=
  if b then Err error else Ok tt.

(** A loop of checks. *)
Fixpoint check_each {A} (check : A → Result unit SchedulerError.t) (xs : list A) : Result unit SchedulerError.t :=
  match xs with
  | [] => Ok tt
  | x :: xs => and_then (check x) (check_each check xs)
  end.

(** [claim.thread == thread && claim.generation == generation] *)
Definition runs (thread : ThreadKey) (generation : Z) : option RunningClaim → bool :=
  is_some_and (λ claim, bool_decide (run_thread claim = thread) && (run_generation claim =? generation)).

Definition check_pending_block (self : t) (cpu : CpuIndex.t) : Result unit SchedulerError.t :=
  match pending_block self !!! cpu with
  | None => Ok tt
  | Some pending =>
      reject_if (negb (bool_decide (wake_cpu pending = cpu))
                 || negb (runs (wake_thread pending) (wake_execution_generation pending) (running self !!! cpu))
                 || (wake_execution_generation pending =? 0)) SchedulerError.StaleBlockToken
  end.

Definition check_running (self : t) (cpu : CpuIndex.t) : Result unit SchedulerError.t :=
  match running self !!! cpu with
  | None => Ok tt
  | Some current =>
      reject_if ((run_generation current =? 0)
                 || existsb (claims (run_thread current)) (take (CpuIndex.index cpu) (cells (running self)))
                 || existsb (of_thread (run_thread current)) (entries self)) SchedulerError.DuplicateThread
  end.

Definition check_ticket (self : t) (cpu : CpuIndex.t) (ticket : option SchedulerQuantumTicket)
    : Result unit SchedulerError.t :=
  match ticket with
  | None => Ok tt
  | Some ticket =>
      reject_if (negb (ticket_domain ticket =? domain self)
                 || negb (bool_decide (ticket_cpu ticket = cpu))
                 || (ticket_execution_generation ticket =? 0)
                 || (ticket_source_arm_generation ticket =? 0)
                 || (ticket_deadline_ns ticket =? 0)
                 || negb (runs (ticket_thread ticket) (ticket_execution_generation ticket) (running self !!! cpu)))
        SchedulerError.StaleQuantum
  end.

Definition check_quantum (self : t) (cpu : CpuIndex.t) : Result unit SchedulerError.t :=
  and_then (reject_if (negb (is_none (quantum self !!! cpu)) && negb (is_none (need_resched self !!! cpu)))
              SchedulerError.StaleQuantum)
    (check_each (check_ticket self cpu) [quantum self !!! cpu; need_resched self !!! cpu]).

Definition check_suspended (self : t) (cpu : CpuIndex.t) : Result unit SchedulerError.t :=
  match suspended self !!! cpu with
  | None => Ok tt
  | Some owner =>
      and_then
        (reject_if (existsb (suspends (susp_thread owner)) (take (CpuIndex.index cpu) (cells (suspended self)))
                    || (susp_generation owner =? 0)
                    || existsb (claims (susp_thread owner)) (cells (running self))) SchedulerError.DuplicateThread)
        (let queued_owner := (λ entry, (q_continuation_cpu entry, q_continuation_generation entry))
                               <$> find (of_thread (susp_thread owner)) self in
         match susp_publication owner with
         | SuspendedPublication.Queued =>
             reject_if (negb (bool_decide (queued_owner = Some (Some cpu, susp_generation owner))))
               SchedulerError.ContinuationOwned
         | SuspendedPublication.Retired => reject_if (negb (is_none queued_owner)) SchedulerError.ContinuationOwned
         end)
  end.

Definition check_entry (self : t) (item : nat * option QueueEntry) : Result unit SchedulerError.t :=
  let '(index, entry) := item in
  match entry with
  | None => Err SchedulerError.NotScheduled
  | Some entry =>
      let blocked := bool_decide (q_state entry = SchedulerThreadState.Blocked) in
      let reserved := bool_decide (q_state entry = SchedulerThreadState.Reserved) in
      check_each id
        [ reject_if ((reserved || blocked) && (q_token entry =? 0)) SchedulerError.StaleReservation;
          reject_if (is_runnable entry && negb (q_token entry =? 0)) SchedulerError.StaleReservation;
          reject_if (xorb (is_runnable entry) (negb (q_enqueue_generation entry =? 0)))
            SchedulerError.StaleReservation;
          reject_if (blocked && (is_none (q_block_cpu entry) || (q_block_execution_generation entry =? 0)))
            SchedulerError.StaleBlockToken;
          reject_if (negb blocked && (negb (is_none (q_block_cpu entry))
                                      || negb (q_block_execution_generation entry =? 0)))
            SchedulerError.StaleBlockToken;
          reject_if (negb (is_none (q_continuation_cpu entry))
                     && negb (existsb (is_some_and (λ owner, bool_decide (susp_thread owner = q_thread entry)
                                && bool_decide (susp_publication owner = SuspendedPublication.Queued)))
                                (cells (suspended self)))) SchedulerError.ContinuationOwned;
          reject_if (xorb (negb (is_none (q_continuation_cpu entry))) (negb (q_continuation_generation entry =? 0)))
            SchedulerError.StaleExecutionClaim;
          reject_if (is_runnable entry && is_none (q_continuation_cpu entry)
                     && (q_migration_eligibility_generation entry =? 0)) SchedulerError.StaleExecutionClaim;
          reject_if (existsb (claims (q_thread entry)) (cells (running self))
                     || existsb (of_thread (q_thread entry)) (omap id (take index (queued self))))
            SchedulerError.DuplicateThread ]
  end.

Definition check_accounting (self : t) (cpu : CpuIndex.t) : Result unit SchedulerError.t :=
  let runnable := List.filter (λ entry, is_runnable entry && bool_decide (q_target_cpu entry = cpu)) (entries self) in
  and_then (reject_if (negb (SchedulerCounters.current_runnable (accounting self !!! cpu)
                             =? truncate 64 (Z.of_nat (length runnable)))) SchedulerError.AccountingUnderflow)
    (reject_if (negb (is_none (active_idle self !!! cpu)) && negb (is_none (running self !!! cpu)))
       SchedulerError.IdleAccountingActive).

Definition check_invariants (self : t) : Result unit SchedulerError.t :=
  check_each id
    [ reject_if (existsb SchedulerCounters.overflow_fault (cells (accounting self))) SchedulerError.AccountingOverflow;
      reject_if (next_completed_switch_generation self =? 0) SchedulerError.TokenExhausted;
      reject_if (next_wake_generation self =? 0) SchedulerError.TokenExhausted;
      reject_if ((length (queue self) <? len self)%nat
                 || existsb (λ slot, negb (is_none slot)) (drop (len self) (queue self))) SchedulerError.Capacity;
      check_each (check_pending_block self) cpus;
      check_each (check_running self) cpus;
      check_each (check_quantum self) cpus;
      check_each (check_suspended self) cpus;
      check_each (check_entry self) (imap pair (queued self));
      check_each (check_accounting self) cpus ].

Definition assert_invariants {E} : M t E unit :=
  self ← get;
  match check_invariants self with
  | Ok _ => mret tt
  | Err _ => panic
  end.

End SchedulerState.
