(* ===== verification/SchedulerOps.v ===== *)
(** * The scheduler: public methods

    The methods of [CooperativeScheduler] in [kernel/src/task/scheduler.rs],
    in the order of the source. *)

From stdpp Require Import base tactics numbers list.
From Stdlib Require Import ZArith Lia.
From S2P Require Import Prelude Abi Object Cpu Wait Clock Deadline Timer LiveTime Scheduler.
Import SchedulerState.
Local Open Scope Z_scope.

Record SchedulerPreemptionSnapshot : Type := {
  snap_running : option SchedulerExecutionClaim;
  snap_quantum : option SchedulerQuantumTicket;
  snap_request : option SchedulerQuantumTicket;
  snap_preemption_disable_depth : Z;
  snap_counters : SchedulerCounters.t;
}.

Module CooperativeScheduler.

(** [SchedulerExecutionClaim] of what runs on [cpu]. *)
Definition execution_claim (self : SchedulerState.t) (cpu : CpuIndex.t) (claim : RunningClaim)
    : SchedulerExecutionClaim :=
  {| claim_domain := domain self; claim_cpu := cpu; claim_thread := run_thread claim;
     claim_generation := run_generation claim |}.

(** ** Reservation *)

Definition reserve (thread : ThreadKey) : M SchedulerState.t SchedulerError.t SchedulerReservation :=
  state ← get;
  if contains thread state then fail SchedulerError.DuplicateThread
  else if (length (queue state) <=? len state + length (omap id (cells (running state))))%nat
  then fail SchedulerError.Capacity
  else
    let token := next_token state in
    next_token ← ok_or (next_nonzero 64 token) SchedulerError.TokenExhausted;
    push {| q_thread := thread; q_state := SchedulerThreadState.Reserved; q_token := token;
            q_started_execution_generation := 0; q_block_cpu := None; q_block_execution_generation := 0;
            q_continuation_cpu := None; q_continuation_generation := 0; q_target_cpu := CpuIndex.BOOTSTRAP;
            q_last_cpu := None; q_eligibility_mask := ALL_CPUS_MASK; q_enqueue_generation := 0;
            q_migration_generation := 0; q_migration_eligibility_generation := 0; q_ready_at_ns := None |};;
    modify (with_next_token next_token);;
    assert_invariants;;
    mret {| reservation_domain := domain state; reservation_token := token; reservation_thread := thread |}.

Definition commit_on (requester : CpuIndex.t) (reservation : SchedulerReservation)
    : M SchedulerState.t SchedulerReservationFailure RunnablePublication :=
  let failure error := {| reservation_error := error; failed_reservation := reservation |} in
  map_err failure (
    state ← get;
    if negb (reservation_domain reservation =? domain state) then fail SchedulerError.ForeignReservation
    else
      index ← ok_or (position (λ entry, of_thread (reservation_thread reservation) entry
                                        && (q_token entry =? reservation_token reservation)) state)
        SchedulerError.StaleReservation;
      reserved ← expect (mjoin (queue state !! index));
      if negb (bool_decide (q_state reserved = SchedulerThreadState.Reserved))
      then fail SchedulerError.StaleReservation
      else
        started_execution_generation ← mint_execution_generation;
        let enqueue_generation := next_enqueue_generation state in
        next_enqueue_generation ← ok_or (next_nonzero 64 enqueue_generation) SchedulerError.TokenExhausted;
        target ← ok_or (select_placement reserved requester state) SchedulerError.CarrierUnavailable;
        let eligibility_generation := next_migration_eligibility_generation state in
        next_eligibility_generation ← ok_or (next_nonzero 64 eligibility_generation) SchedulerError.TokenExhausted;
        accounting ← account (SchedulerAccounting.increment_runnable target);
        modify (write_entry index
          {| q_thread := q_thread reserved; q_state := SchedulerThreadState.Runnable; q_token := 0;
             q_started_execution_generation := started_execution_generation; q_block_cpu := q_block_cpu reserved;
             q_block_execution_generation := q_block_execution_generation reserved;
             q_continuation_cpu := q_continuation_cpu reserved;
             q_continuation_generation := q_continuation_generation reserved; q_target_cpu := target;
             q_last_cpu := q_last_cpu reserved; q_eligibility_mask := q_eligibility_mask reserved;
             q_enqueue_generation := enqueue_generation; q_migration_generation := q_migration_generation reserved;
             q_migration_eligibility_generation := eligibility_generation;
             q_ready_at_ns := instrumentation_global_now_ns state |});;
        modify (with_next_enqueue_generation next_enqueue_generation);;
        modify (with_next_migration_eligibility_generation next_eligibility_generation);;
        modify (with_accounting accounting);;
        assert_invariants;;
        mret {| target := target; continuation_bound := false |}).

Definition commit (reservation : SchedulerReservation)
    : M SchedulerState.t SchedulerReservationFailure RunnablePublication :=
  commit_on CpuIndex.BOOTSTRAP reservation.

Definition cancel (reservation : SchedulerReservation) : M SchedulerState.t SchedulerReservationFailure unit :=
  let failure error := {| reservation_error := error; failed_reservation := reservation |} in
  map_err failure (
    state ← get;
    if negb (reservation_domain reservation =? domain state) then fail SchedulerError.ForeignReservation
    else
      index ← ok_or (position (λ entry, of_thread (reservation_thread reservation) entry
                                        && (q_token entry =? reservation_token reservation)
                                        && bool_decide (q_state entry = SchedulerThreadState.Reserved)) state)
        SchedulerError.StaleReservation;
      remove_index index;;
      assert_invariants).

(** ** Dispatch *)

(** The gate of an enforced carrier admission. *)
Definition carrier_refuses (cpu : CpuIndex.t) (state : SchedulerState.t) : bool :=
  CarrierAdmissionState.enforced (carrier_admission state)
  && (Z.land (CarrierAdmissionState.schedulable_mask (carrier_admission state)) (cpu_bit cpu) =? 0).

(** [match claim { Err(error) => { rollback; return Err(error) } .. }] *)
Definition or_roll_back {A} (pending : option PendingMigration) (m : M SchedulerState.t SchedulerError.t A)
    : M SchedulerState.t SchedulerError.t A :=
  claimed ← try m;
  match claimed with
  | Ok a => mret a
  | Err error => roll_back pending;; fail error
  end.

Definition schedule_next_on_with_migration (cpu : CpuIndex.t) : M SchedulerState.t SchedulerError.t SchedulerDispatch :=
  state ← get;
  if carrier_refuses cpu state then fail SchedulerError.CarrierUnavailable
  else if negb (is_none (running state !!! cpu)) then fail SchedulerError.CurrentThreadRunning
  else if negb (is_none (suspended state !!! cpu)) then fail SchedulerError.SwitchPending
  else if negb (is_none (active_idle state !!! cpu)) then fail SchedulerError.IdleAccountingActive
  else
    pending_migration ← (if is_none (first_local_runnable_index cpu state) then steal_oldest_for cpu else mret None);
    state ← get;
    accounting ← account_or (roll_back pending_migration) (
      match find (local_runnable cpu) state with
      | Some entry =>
          SchedulerAccounting.decrement_runnable (q_target_cpu entry);;
          SchedulerAccounting.observe_ready_delay cpu (q_ready_at_ns entry) (instrumentation_global_now_ns state);;
          SchedulerAccounting.increment cpu SchedulerEvent.ContextSwitch
      | None => mret tt
      end);
    current ← or_roll_back pending_migration (claim_first_runnable_on cpu);
    modify (set_running cpu current);;
    modify (with_accounting accounting);;
    assert_invariants;;
    mret {| dispatch_decision := {| previous := None; current := run_thread <$> current; cancelled_quantum := None |};
            dispatch_migration := pending_record <$> pending_migration |}.

Definition schedule_next_on (cpu : CpuIndex.t) : M SchedulerState.t SchedulerError.t ScheduleDecision :=
  dispatch ← schedule_next_on_with_migration cpu;
  mret (dispatch_decision dispatch).

(** The check that [thread] runs on [cpu], with which yielding and blocking
    begin. *)
Definition running_claim_of (cpu : CpuIndex.t) (thread : ThreadKey) : M SchedulerState.t SchedulerError.t RunningClaim :=
  state ← get;
  let elsewhere := if is_none (running_cpu thread state) then SchedulerError.NotRunning else SchedulerError.WrongCpu in
  match running state !!! cpu with
  | None => fail elsewhere
  | Some claim => if negb (bool_decide (run_thread claim = thread)) then fail elsewhere else mret claim
  end.

(** The entry of a thread that leaves its CPU and stays runnable. *)
Definition outgoing_entry (cpu : CpuIndex.t) (claim : RunningClaim) (enqueue_generation : Z) (ready_at_ns : option Z)
    : QueueEntry :=
  {| q_thread := run_thread claim; q_state := SchedulerThreadState.Runnable; q_token := 0;
     q_started_execution_generation := 0; q_block_cpu := None; q_block_execution_generation := 0;
     q_continuation_cpu := Some cpu; q_continuation_generation := run_generation claim; q_target_cpu := cpu;
     q_last_cpu := Some cpu; q_eligibility_mask := ALL_CPUS_MASK; q_enqueue_generation := enqueue_generation;
     q_migration_generation := 0; q_migration_eligibility_generation := 0; q_ready_at_ns := ready_at_ns |}.

Definition suspension (claim : RunningClaim) (publication : SuspendedPublication.t) (involuntary : bool)
    : SuspendedContinuation :=
  {| susp_thread := run_thread claim; susp_generation := run_generation claim; susp_publication := publication;
     susp_involuntary_preemption := involuntary |}.

Definition yield_current_on (cpu : CpuIndex.t) (thread : ThreadKey) : M SchedulerState.t SchedulerError.t ScheduleDecision :=
  previous_claim ← running_claim_of cpu thread;
  state ← get;
  if negb (is_none (pending_block state !!! cpu)) then fail SchedulerError.BlockPreparationActive
  else if negb (is_none (suspended state !!! cpu)) then fail SchedulerError.SwitchPending
  else
    match find (local_runnable cpu) state with
    | None =>
        accounting ← account (SchedulerAccounting.increment cpu SchedulerEvent.VoluntaryYield);
        modify (with_accounting accounting);;
        assert_invariants;;
        mret {| previous := Some thread; current := Some thread; cancelled_quantum := None |}
    | Some next_entry =>
        let enqueue_generation := next_enqueue_generation state in
        next_enqueue_generation ← ok_or (next_nonzero 64 enqueue_generation) SchedulerError.TokenExhausted;
        accounting ← account (
          SchedulerAccounting.decrement_runnable (q_target_cpu next_entry);;
          SchedulerAccounting.observe_ready_delay cpu (q_ready_at_ns next_entry) (instrumentation_global_now_ns state);;
          SchedulerAccounting.increment_runnable cpu;;
          SchedulerAccounting.increment cpu SchedulerEvent.VoluntaryYield;;
          SchedulerAccounting.increment cpu SchedulerEvent.ContextSwitch);
        claimed ← claim_first_runnable_on cpu;
        next ← expect claimed;
        cleared ← clear_preemption_on cpu;
        modify (set_running cpu (Some next));;
        unwrap (push (outgoing_entry cpu previous_claim enqueue_generation (instrumentation_global_now_ns state)));;
        modify (set_suspended cpu (Some (suspension previous_claim SuspendedPublication.Queued false)));;
        modify (with_next_enqueue_generation next_enqueue_generation);;
        modify (with_accounting accounting);;
        assert_invariants;;
        mret {| previous := Some thread; current := Some (run_thread next);
                cancelled_quantum := cleared_quantum cleared |}
    end.

(** ** Quanta *)

Definition prepare_quantum_if_needed_on (cpu : CpuIndex.t) (now_ns : Z)
    : M SchedulerState.t SchedulerError.t (option SchedulerQuantumTicket) :=
  state ← get;
  claim ← ok_or (running state !!! cpu) SchedulerError.NotRunning;
  if negb (is_none (suspended state !!! cpu)) || negb (is_none (pending_block state !!! cpu))
     || negb (is_none (need_resched state !!! cpu))
  then fail SchedulerError.QuantumUnavailable
  else if negb (is_none (quantum state !!! cpu)) then assert_invariants;; mret None
  else
    ticket ← mint_quantum_on cpu claim now_ns;
    assert_invariants;;
    mret (Some ticket).

Definition publish_quantum_expiry (ticket : SchedulerQuantumTicket) : M SchedulerState.t SchedulerError.t bool :=
  state ← get;
  let cpu := ticket_cpu ticket in
  if negb (ticket_domain ticket =? domain state) then mret false
  else if negb (bool_decide (quantum state !!! cpu = Some ticket))
          || negb (runs (ticket_thread ticket) (ticket_execution_generation ticket) (running state !!! cpu))
  then mret false
  else
    accounting ← account (SchedulerAccounting.increment cpu SchedulerEvent.QuantumExpiration);
    modify (set_quantum cpu None);;
    (match need_resched state !!! cpu with
     | None => modify (set_need_resched cpu (Some ticket))
     | Some current =>
         if bool_decide (current = ticket) then mret tt
         else assert_invariants;; fail SchedulerError.StaleQuantum
     end);;
    modify (with_accounting accounting);;
    assert_invariants;;
    mret true.

Definition has_reschedule_request_on (cpu : CpuIndex.t) (state : SchedulerState.t) : bool :=
  negb (is_none (need_resched state !!! cpu)).

Definition preemption_disable_on (cpu : CpuIndex.t) : M SchedulerState.t SchedulerError.t unit :=
  state ← get;
  depth ← ok_or (checked_add 32 (preemption_disable_depth state !!! cpu) 1) SchedulerError.PreemptionDepthOverflow;
  modify (with_preemption_disable_depth (<[cpu := depth]> (preemption_disable_depth state)));;
  assert_invariants.

Definition preemption_enable_on (cpu : CpuIndex.t) : M SchedulerState.t SchedulerError.t bool :=
  state ← get;
  depth ← ok_or (checked_sub (preemption_disable_depth state !!! cpu) 1) SchedulerError.PreemptionDepthUnderflow;
  modify (with_preemption_disable_depth (<[cpu := depth]> (preemption_disable_depth state)));;
  assert_invariants;;
  mret ((depth =? 0) && has_reschedule_request_on cpu state).

Definition preempt_current_on (cpu : CpuIndex.t) : M SchedulerState.t SchedulerError.t SchedulerPreemptionDecision.t :=
  state ← get;
  request ← ok_or (need_resched state !!! cpu) SchedulerError.StaleQuantum;
  outgoing ← ok_or (running state !!! cpu) SchedulerError.NotRunning;
  if negb (bool_decide (run_thread outgoing = ticket_thread request))
     || negb (run_generation outgoing =? ticket_execution_generation request)
  then
    modify (set_need_resched cpu None);;
    assert_invariants;;
    fail SchedulerError.StaleQuantum
  else if negb (preemption_disable_depth state !!! cpu =? 0) || negb (is_none (pending_block state !!! cpu))
          || negb (is_none (suspended state !!! cpu))
  then mret SchedulerPreemptionDecision.Deferred
  else
    pulled ← rebalance_pull_for cpu;
    state ← get;
    match find (local_runnable cpu) state with
    | None =>
        roll_back pulled;;
        modify (set_need_resched cpu None);;
        assert_invariants;;
        mret (SchedulerPreemptionDecision.RetainCurrent request)
    | Some next_entry =>
        let enqueue_generation := next_enqueue_generation state in
        match next_nonzero 64 enqueue_generation with
        | None => roll_back pulled;; fail SchedulerError.TokenExhausted
        | Some next_enqueue_generation =>
            accounting ← account_or (roll_back pulled) (
              SchedulerAccounting.decrement_runnable (q_target_cpu next_entry);;
              SchedulerAccounting.observe_ready_delay cpu (q_ready_at_ns next_entry)
                (instrumentation_global_now_ns state);;
              SchedulerAccounting.increment_runnable cpu;;
              SchedulerAccounting.increment cpu SchedulerEvent.ContextSwitch);
            claimed ← or_roll_back pulled (claim_first_runnable_on cpu);
            next ← expect claimed;
            modify (set_running cpu (Some next));;
            unwrap (push (outgoing_entry cpu outgoing enqueue_generation (instrumentation_global_now_ns state)));;
            modify (set_suspended cpu (Some (suspension outgoing SuspendedPublication.Queued true)));;
            modify (with_next_enqueue_generation next_enqueue_generation);;
            modify (set_need_resched cpu None);;
            modify (set_quantum cpu None);;
            modify (with_accounting accounting);;
            assert_invariants;;
            mret (SchedulerPreemptionDecision.Switch
              {| previous := Some (run_thread outgoing); current := Some (run_thread next); cancelled_quantum := None |}
              (execution_claim state cpu outgoing))
        end
    end.

(** ** Blocking *)

Definition prepare_block_current_on (cpu : CpuIndex.t) (thread : ThreadKey)
    : M SchedulerState.t SchedulerError.t BlockReservation :=
  running_claim ← running_claim_of cpu thread;
  state ← get;
  if negb (is_none (suspended state !!! cpu)) then fail SchedulerError.SwitchPending
  else if negb (is_none (pending_block state !!! cpu)) then fail SchedulerError.BlockPreparationActive
  else
    let token := next_token state in
    next_token ← ok_or (next_nonzero 64 token) SchedulerError.TokenExhausted;
    modify (with_next_token next_token);;
    let key := {| wake_domain := domain state; wake_token := token; wake_thread := thread; wake_cpu := cpu;
                  wake_execution_generation := run_generation running_claim |} in
    modify (set_pending_block cpu (Some key));;
    assert_invariants;;
    mret {| block_key := key |}.

Definition cancel_block_on (cpu : CpuIndex.t) (reservation : BlockReservation)
    : M SchedulerState.t BlockReservationFailure unit :=
  let failure error := {| block_error := error; failed_block := reservation |} in
  map_err failure (
    state ← get;
    let key := block_key reservation in
    if negb (wake_domain key =? domain state) then fail SchedulerError.ForeignBlockToken
    else if negb (bool_decide (wake_cpu key = cpu)) || negb (bool_decide (pending_block state !!! cpu = Some key))
    then fail SchedulerError.StaleBlockToken
    else
      modify (set_pending_block cpu None);;
      assert_invariants).

(** The entry of a thread that blocks. *)
Definition blocked_entry (cpu : CpuIndex.t) (key : BlockWakeKey) : QueueEntry :=
  {| q_thread := wake_thread key; q_state := SchedulerThreadState.Blocked; q_token := wake_token key;
     q_started_execution_generation := 0; q_block_cpu := Some cpu;
     q_block_execution_generation := wake_execution_generation key; q_continuation_cpu := Some cpu;
     q_continuation_generation := wake_execution_generation key; q_target_cpu := cpu; q_last_cpu := Some cpu;
     q_eligibility_mask := ALL_CPUS_MASK; q_enqueue_generation := 0; q_migration_generation := 0;
     q_migration_eligibility_generation := 0; q_ready_at_ns := None |}.

Definition commit_block_on (cpu : CpuIndex.t) (reservation : BlockReservation)
    : M SchedulerState.t BlockReservationFailure ScheduleDecision :=
  let failure error := {| block_error := error; failed_block := reservation |} in
  map_err failure (
    state ← get;
    let key := block_key reservation in
    if negb (wake_domain key =? domain state) then fail SchedulerError.ForeignBlockToken
    else if negb (bool_decide (wake_cpu key = cpu)) || negb (bool_decide (pending_block state !!! cpu = Some key))
            || negb (runs (wake_thread key) (wake_execution_generation key) (running state !!! cpu))
            || negb (is_none (suspended state !!! cpu))
    then fail SchedulerError.StaleBlockToken
    else
      accounting ← account (
        SchedulerAccounting.increment cpu SchedulerEvent.VoluntaryBlock;;
        (match find (local_runnable cpu) state with
         | Some entry =>
             SchedulerAccounting.decrement_runnable (q_target_cpu entry);;
             SchedulerAccounting.observe_ready_delay cpu (q_ready_at_ns entry) (instrumentation_global_now_ns state)
         | None => mret tt
         end);;
        SchedulerAccounting.increment cpu SchedulerEvent.ContextSwitch);
      current ← claim_first_runnable_on cpu;
      modify (set_pending_block cpu None);;
      cleared ← clear_preemption_on cpu;
      modify (set_running cpu None);;
      unwrap (push (blocked_entry cpu key));;
      modify (set_running cpu current);;
      modify (set_suspended cpu (Some {| susp_thread := wake_thread key; susp_generation := wake_execution_generation key;
                                         susp_publication := SuspendedPublication.Queued;
                                         susp_involuntary_preemption := false |}));;
      modify (with_accounting accounting);;
      assert_invariants;;
      mret {| previous := Some (wake_thread key); current := run_thread <$> current;
              cancelled_quantum := cleared_quantum cleared |}).

Definition block_current_on (cpu : CpuIndex.t) (thread : ThreadKey)
    : M SchedulerState.t SchedulerError.t (BlockToken * ScheduleDecision) :=
  reservation ← prepare_block_current_on cpu thread;
  decision ← map_err block_error (commit_block_on cpu reservation);
  mret ({| token_key := block_key reservation |}, decision).

(** The entry [key] blocks. *)
Definition blocked_by (key : BlockWakeKey) (entry : QueueEntry) : bool :=
  of_thread (wake_thread key) entry && (q_token entry =? wake_token key)
  && bool_decide (q_block_cpu entry = Some (wake_cpu key))
  && (q_block_execution_generation entry =? wake_execution_generation key)
  && bool_decide (q_state entry = SchedulerThreadState.Blocked).

Definition wake_on (requester : CpuIndex.t) (key : BlockWakeKey)
    : M SchedulerState.t SchedulerError.t SchedulerWakePublication :=
  state ← get;
  if negb (wake_domain key =? domain state) then fail SchedulerError.ForeignBlockToken
  else
    index ← ok_or (position (blocked_by key) state) SchedulerError.StaleBlockToken;
    blocked ← expect (mjoin (queue state !! index));
    target ← ok_or (select_placement blocked requester state) SchedulerError.CarrierUnavailable;
    '(wake_generation, next_wake_generation) ← checked_generation (next_wake_generation state);
    eligibility ← (if is_none (q_continuation_cpu blocked) then
                     let generation := next_migration_eligibility_generation state in
                     next ← ok_or (next_nonzero 64 generation) SchedulerError.TokenExhausted;
                     mret (Some (generation, next))
                   else mret None);
    let enqueue_generation := next_enqueue_generation state in
    next_enqueue_generation ← ok_or (next_nonzero 64 enqueue_generation) SchedulerError.TokenExhausted;
    accounting ← account (
      SchedulerAccounting.increment_runnable target;;
      SchedulerAccounting.increment requester SchedulerEvent.Wakeup);
    modify (write_entry index
      {| q_thread := q_thread blocked; q_state := SchedulerThreadState.Runnable; q_token := 0;
         q_started_execution_generation := wake_execution_generation key; q_block_cpu := None;
         q_block_execution_generation := 0; q_continuation_cpu := q_continuation_cpu blocked;
         q_continuation_generation := q_continuation_generation blocked; q_target_cpu := target;
         q_last_cpu := q_last_cpu blocked; q_eligibility_mask := q_eligibility_mask blocked;
         q_enqueue_generation := enqueue_generation; q_migration_generation := q_migration_generation blocked;
         q_migration_eligibility_generation := match eligibility with Some (generation, _) => generation | None => 0 end;
         q_ready_at_ns := instrumentation_global_now_ns state |});;
    modify (with_next_enqueue_generation next_enqueue_generation);;
    (match eligibility with
     | Some (_, next) => modify (with_next_migration_eligibility_generation next)
     | None => mret tt
     end);;
    modify (with_next_wake_generation next_wake_generation);;
    modify (with_accounting accounting);;
    assert_invariants;;
    mret {| wake_runnable := {| target := target; continuation_bound := negb (is_none (q_continuation_cpu blocked)) |};
            wake_source := requester; wake_generation := wake_generation |}.

Definition wake_with_affinity (key : BlockWakeKey) : M SchedulerState.t SchedulerError.t (option CpuIndex.t) :=
  publication ← wake_on (wake_cpu key) key;
  mret (wake_affinity (wake_runnable publication)).

Definition wake (key : BlockWakeKey) : M SchedulerState.t SchedulerError.t unit :=
  wake_with_affinity key;;
  mret tt.

Definition validate_issued_wake_key (state : SchedulerState.t) (key : BlockWakeKey) : Result unit SchedulerError.t :=
  if negb (wake_domain key =? domain state) then Err SchedulerError.ForeignBlockToken
  else if (wake_token key =? 0) || (next_token state <=? wake_token key) then Err SchedulerError.StaleBlockToken
  else if existsb (is_some_and (λ pending, (wake_token pending =? wake_token key) && negb (bool_decide (pending = key))))
            (cells (pending_block state))
          || existsb (λ entry, (q_token entry =? wake_token key)
                               && (negb (of_thread (wake_thread key) entry)
                                   || negb (bool_decide (q_state entry = SchedulerThreadState.Blocked))
                                   || negb (bool_decide (q_block_cpu entry = Some (wake_cpu key)))
                                   || negb (q_block_execution_generation entry =? wake_execution_generation key)))
               (entries state)
  then Err SchedulerError.StaleBlockToken
  else Ok tt.

(** ** Dispatch from idle *)

Definition schedule_from_idle_on_with_migration (cpu : CpuIndex.t) (thread : ThreadKey)
    : M SchedulerState.t SchedulerError.t SchedulerIdleDispatch :=
  state ← get;
  if carrier_refuses cpu state then fail SchedulerError.CarrierUnavailable
  else if negb (is_none (running state !!! cpu)) then fail SchedulerError.CurrentThreadRunning
  else if negb (is_none (active_idle state !!! cpu)) then fail SchedulerError.IdleAccountingActive
  else
    suspended_claim ← ok_or (suspended state !!! cpu) SchedulerError.ContinuationOwned;
    if negb (bool_decide (susp_thread suspended_claim = thread))
       || negb (bool_decide (susp_publication suspended_claim = SuspendedPublication.Queued))
    then fail SchedulerError.ContinuationOwned
    else
      pending_migration ← (if existsb (is_some_and (idle_runnable cpu)) (queued state) then mret None
                           else steal_oldest_for cpu);
      state ← get;
      match find (idle_runnable cpu) state with
      | None =>
          roll_back pending_migration;;
          assert_invariants;;
          mret {| idle_decision := IdleScheduleDecision.ContinueIdle; idle_migration := None |}
      | Some next_entry =>
          accounting ← account_or (roll_back pending_migration) (
            SchedulerAccounting.decrement_runnable (q_target_cpu next_entry);;
            SchedulerAccounting.observe_ready_delay cpu (q_ready_at_ns next_entry) (instrumentation_global_now_ns state);;
            if of_thread thread next_entry then mret tt
            else SchedulerAccounting.increment cpu SchedulerEvent.ContextSwitch);
          claimed ← or_roll_back pending_migration (claim_first_runnable_for_idle cpu suspended_claim);
          next ← expect claimed;
          modify (set_running cpu (Some next));;
          modify (with_accounting accounting);;
          if bool_decide (run_thread next = thread) then
            modify (set_suspended cpu None);;
            assert_invariants;;
            mret {| idle_decision := IdleScheduleDecision.ResumeCurrent;
                    idle_migration := pending_record <$> pending_migration |}
          else
            assert_invariants;;
            mret {| idle_decision := IdleScheduleDecision.Switch
                      {| previous := Some thread; current := Some (run_thread next); cancelled_quantum := None |};
                    idle_migration := pending_record <$> pending_migration |}
      end.

Definition schedule_from_idle_on (cpu : CpuIndex.t) (thread : ThreadKey)
    : M SchedulerState.t SchedulerError.t IdleScheduleDecision.t :=
  dispatch ← schedule_from_idle_on_with_migration cpu thread;
  mret (idle_decision dispatch).

(** The entry's continuation is released. *)
Definition released_entry (eligibility_generation : Z) (entry : QueueEntry) : QueueEntry :=
  {| q_thread := q_thread entry; q_state := q_state entry; q_token := q_token entry;
     q_started_execution_generation := q_started_execution_generation entry; q_block_cpu := q_block_cpu entry;
     q_block_execution_generation := q_block_execution_generation entry; q_continuation_cpu := None;
     q_continuation_generation := 0; q_target_cpu := q_target_cpu entry; q_last_cpu := q_last_cpu entry;
     q_eligibility_mask := q_eligibility_mask entry; q_enqueue_generation := q_enqueue_generation entry;
     q_migration_generation := q_migration_generation entry;
     q_migration_eligibility_generation := eligibility_generation; q_ready_at_ns := q_ready_at_ns entry |}.

Definition complete_switch_on_with_runnable_publication (claim : SchedulerExecutionClaim)
    : M SchedulerState.t SchedulerError.t SchedulerCompletedSwitch :=
  state ← get;
  let cpu := claim_cpu claim in
  if negb (claim_domain claim =? domain state) then fail SchedulerError.ForeignExecutionClaim
  else if claim_generation claim =? 0 then fail SchedulerError.StaleExecutionClaim
  else
    owner ← ok_or (suspended state !!! cpu) SchedulerError.StaleExecutionClaim;
    if negb (bool_decide (susp_thread owner = claim_thread claim))
       || negb (susp_generation owner =? claim_generation claim)
    then fail SchedulerError.StaleExecutionClaim
    else
      '(generation, next_generation) ← checked_generation (next_completed_switch_generation state);
      published_runnable ←
        (if bool_decide (susp_publication owner = SuspendedPublication.Queued) then
           index ← ok_or (position (of_thread (claim_thread claim)) state) SchedulerError.NotScheduled;
           entry ← expect (mjoin (queue state !! index));
           eligibility_generation ← (if is_runnable entry then mint_migration_eligibility_generation else mret 0);
           if negb (bool_decide (q_continuation_cpu entry = Some cpu))
              || negb (q_continuation_generation entry =? claim_generation claim)
           then fail SchedulerError.StaleExecutionClaim
           else
             modify (write_entry index (released_entry eligibility_generation entry));;
             mret (if is_runnable entry
                   then Some {| target := q_target_cpu entry; continuation_bound := false |} else None)
         else mret None);
      (if susp_involuntary_preemption owner then
         accounting ← account (SchedulerAccounting.increment cpu SchedulerEvent.InvoluntaryPreemption);
         modify (with_accounting accounting)
       else mret tt);;
      modify (with_next_completed_switch_generation next_generation);;
      modify (set_suspended cpu None);;
      state ← get;
      assert_invariants;;
      mret {| runnable_publication := published_runnable;
              incoming_claim := execution_claim state cpu <$> running state !!! cpu;
              completed_generation := generation; completed_involuntary := susp_involuntary_preemption owner |}.

Definition complete_switch_on (claim : SchedulerExecutionClaim) : M SchedulerState.t SchedulerError.t unit :=
  complete_switch_on_with_runnable_publication claim;;
  mret tt.

(** ** Retirement *)

(** [if pending_block[cpu] .. thread == thread { pending_block[cpu] = None }] *)
Definition drop_pending_block {E} (cpu : CpuIndex.t) (thread : ThreadKey) : M SchedulerState.t E unit :=
  state ← get;
  if is_some_and (λ pending, bool_decide (wake_thread pending = thread)) (pending_block state !!! cpu)
  then modify (set_pending_block cpu None) else mret tt.

(** [retire_on] of a thread that runs on [cpu]. *)
Definition retire_running (cpu : CpuIndex.t) (thread : ThreadKey) : M SchedulerState.t SchedulerError.t ScheduleDecision :=
  state ← get;
  if negb (is_none (suspended state !!! cpu)) then fail SchedulerError.SwitchPending
  else
    outgoing ← expect (running state !!! cpu);
    accounting ← account (
      SchedulerAccounting.increment cpu SchedulerEvent.ContextSwitch;;
      match find (local_runnable cpu) state with
      | Some entry =>
          SchedulerAccounting.decrement_runnable (q_target_cpu entry);;
          SchedulerAccounting.observe_ready_delay cpu (q_ready_at_ns entry) (instrumentation_global_now_ns state)
      | None => mret tt
      end);
    current ← claim_first_runnable_on cpu;
    drop_pending_block cpu thread;;
    cleared ← clear_preemption_on cpu;
    modify (set_running cpu current);;
    modify (set_suspended cpu (Some {| susp_thread := thread; susp_generation := run_generation outgoing;
                                       susp_publication := SuspendedPublication.Retired;
                                       susp_involuntary_preemption := false |}));;
    modify (with_accounting accounting);;
    assert_invariants;;
    mret {| previous := Some thread; current := run_thread <$> current; cancelled_quantum := cleared_quantum cleared |}.

(** [retire_on] of a thread whose continuation [cpu] still holds. *)
Definition retire_suspended (cpu : CpuIndex.t) (thread : ThreadKey) : M SchedulerState.t SchedulerError.t ScheduleDecision :=
  state ← get;
  index ← ok_or (position (of_thread thread) state) SchedulerError.NotScheduled;
  removed ← expect (mjoin (queue state !! index));
  let others := omap id (delete index (queued state)) in
  let next_entry := snd <$> list_find (λ entry, local_runnable cpu entry) others in
  let will_claim := is_none (running state !!! cpu) && negb (is_none next_entry) in
  if will_claim && negb (execution_generation_available state) then fail SchedulerError.TokenExhausted
  else
    accounting ← account (
      (if is_runnable removed then SchedulerAccounting.decrement_runnable (q_target_cpu removed) else mret tt);;
      match keep (λ _, will_claim) next_entry with
      | Some entry =>
          SchedulerAccounting.decrement_runnable (q_target_cpu entry);;
          SchedulerAccounting.observe_ready_delay cpu (q_ready_at_ns entry) (instrumentation_global_now_ns state);;
          SchedulerAccounting.increment cpu SchedulerEvent.ContextSwitch
      | None => mret tt
      end);
    remove_index index;;
    owner ← expect (suspended state !!! cpu);
    modify (set_suspended cpu (Some {| susp_thread := thread; susp_generation := susp_generation owner;
                                       susp_publication := SuspendedPublication.Retired;
                                       susp_involuntary_preemption := false |}));;
    (if is_none (running state !!! cpu) then
       claimed ← claim_first_runnable_on cpu;
       modify (set_running cpu claimed)
     else mret tt);;
    modify (with_accounting accounting);;
    assert_invariants;;
    state ← get;
    mret {| previous := Some thread; current := run_thread <$> running state !!! cpu; cancelled_quantum := None |}.

(** [retire_on] of a thread that is queued only. *)
Definition retire_queued (cpu : CpuIndex.t) (thread : ThreadKey) : M SchedulerState.t SchedulerError.t ScheduleDecision :=
  state ← get;
  index ← ok_or (position (of_thread thread) state) SchedulerError.NotScheduled;
  removed ← expect (mjoin (queue state !! index));
  if negb (is_none (q_continuation_cpu removed)) then fail SchedulerError.ContinuationOwned
  else
    accounting ← account (
      if is_runnable removed then SchedulerAccounting.decrement_runnable (q_target_cpu removed) else mret tt);
    remove_index index;;
    modify (with_accounting accounting);;
    assert_invariants;;
    let here := run_thread <$> running state !!! cpu in
    mret {| previous := here; current := here; cancelled_quantum := None |}.

(** The CPU that holds the continuation of [thread]. *)
Definition suspended_cpu (thread : ThreadKey) (state : SchedulerState.t) : option CpuIndex.t :=
  snd <$> list_find (λ cpu, suspends thread (suspended state !!! cpu)) cpus.

Definition retire_on (cpu : CpuIndex.t) (thread : ThreadKey) : M SchedulerState.t SchedulerError.t ScheduleDecision :=
  state ← get;
  match running_cpu thread state with
  | Some running_cpu =>
      if negb (bool_decide (running_cpu = cpu)) then fail SchedulerError.WrongCpu else retire_running cpu thread
  | None =>
      match suspended_cpu thread state with
      | Some owner_cpu =>
          if negb (bool_decide (owner_cpu = cpu)) then fail SchedulerError.WrongCpu else retire_suspended cpu thread
      | None => retire_queued cpu thread
      end
  end.

Definition stop_running_claim_on (claim : SchedulerExecutionClaim)
    : M SchedulerState.t SchedulerError.t SchedulerTerminalStop :=
  state ← get;
  let cpu := claim_cpu claim in
  if negb (claim_domain claim =? domain state) then fail SchedulerError.ForeignExecutionClaim
  else if claim_generation claim =? 0 then fail SchedulerError.StaleExecutionClaim
  else if negb (runs (claim_thread claim) (claim_generation claim) (running state !!! cpu))
  then fail SchedulerError.StaleExecutionClaim
  else if negb (is_none (suspended state !!! cpu)) then fail SchedulerError.SwitchPending
  else
    accounting ← account (SchedulerAccounting.increment cpu SchedulerEvent.ContextSwitch);
    drop_pending_block cpu (claim_thread claim);;
    cleared ← clear_preemption_on cpu;
    modify (set_running cpu None);;
    modify (set_suspended cpu (Some {| susp_thread := claim_thread claim; susp_generation := claim_generation claim;
                                       susp_publication := SuspendedPublication.Retired;
                                       susp_involuntary_preemption := false |}));;
    modify (with_accounting accounting);;
    assert_invariants;;
    mret {| stop_cancelled_quantum := cleared_quantum cleared |}.

Definition retire_unentered_running_claim_on (claim : SchedulerExecutionClaim)
    : M SchedulerState.t SchedulerError.t SchedulerTerminalStop :=
  state ← get;
  let cpu := claim_cpu claim in
  if negb (claim_domain claim =? domain state) || (claim_generation claim =? 0)
     || negb (runs (claim_thread claim) (claim_generation claim) (running state !!! cpu))
  then fail SchedulerError.StaleExecutionClaim
  else
    owner ← ok_or (suspended state !!! cpu) SchedulerError.SwitchPending;
    if negb (bool_decide (susp_publication owner = SuspendedPublication.Queued))
       || bool_decide (susp_thread owner = claim_thread claim)
    then fail SchedulerError.SwitchPending
    else
      drop_pending_block cpu (claim_thread claim);;
      cleared ← clear_preemption_on cpu;
      modify (set_running cpu None);;
      assert_invariants;;
      mret {| stop_cancelled_quantum := cleared_quantum cleared |}.

Definition stop_suspended_claim_on (claim : SchedulerExecutionClaim) : M SchedulerState.t SchedulerError.t unit :=
  state ← get;
  let cpu := claim_cpu claim in
  if negb (claim_domain claim =? domain state) || (claim_generation claim =? 0)
  then fail SchedulerError.StaleExecutionClaim
  else
    owner ← ok_or (suspended state !!! cpu) SchedulerError.StaleExecutionClaim;
    if negb (bool_decide (susp_thread owner = claim_thread claim))
       || negb (susp_generation owner =? claim_generation claim)
       || negb (bool_decide (susp_publication owner = SuspendedPublication.Queued))
    then fail SchedulerError.StaleExecutionClaim
    else
      index ← ok_or (position (of_thread (claim_thread claim)) state) SchedulerError.NotScheduled;
      entry ← expect (mjoin (queue state !! index));
      if negb (bool_decide (q_continuation_cpu entry = Some cpu))
         || negb (q_continuation_generation entry =? claim_generation claim)
      then fail SchedulerError.StaleExecutionClaim
      else
        accounting ← account (
          if is_runnable entry then SchedulerAccounting.decrement_runnable (q_target_cpu entry) else mret tt);
        remove_index index;;
        modify (set_suspended cpu (Some {| susp_thread := claim_thread claim; susp_generation := claim_generation claim;
                                           susp_publication := SuspendedPublication.Retired;
                                           susp_involuntary_preemption := false |}));;
        modify (with_accounting accounting);;
        assert_invariants.

(** ** Queries *)

Definition state_of (thread : ThreadKey) (state : SchedulerState.t) : option SchedulerThreadState.t :=
  if existsb (claims thread) (cells (running state)) then Some SchedulerThreadState.Running
  else q_state <$> find (of_thread thread) state.

Definition current_on (cpu : CpuIndex.t) (state : SchedulerState.t) : option ThreadKey :=
  run_thread <$> running state !!! cpu.

Definition running_claim_on (cpu : CpuIndex.t) (state : SchedulerState.t) : option SchedulerExecutionClaim :=
  execution_claim state cpu <$> running state !!! cpu.

Definition suspended_claim_on (cpu : CpuIndex.t) (state : SchedulerState.t) : option SchedulerExecutionClaim :=
  (λ owner, {| claim_domain := domain state; claim_cpu := cpu; claim_thread := susp_thread owner;
               claim_generation := susp_generation owner |}) <$> suspended state !!! cpu.

(** The execution a thread was given when it was made runnable, before its
    first dispatch. *)
Definition runnable_start_generation (thread : ThreadKey) (state : SchedulerState.t) : option Z :=
  q_started_execution_generation <$> find (λ entry, of_thread thread entry && is_runnable entry
    && negb (q_started_execution_generation entry =? 0)) state.

Definition suspended_on_cpu (cpu : CpuIndex.t) (state : SchedulerState.t) : option ThreadKey :=
  susp_thread <$> suspended state !!! cpu.

Definition preemption_snapshot_on (cpu : CpuIndex.t) (state : SchedulerState.t) : SchedulerPreemptionSnapshot :=
  {| snap_running := running_claim_on cpu state; snap_quantum := quantum state !!! cpu;
     snap_request := need_resched state !!! cpu;
     snap_preemption_disable_depth := preemption_disable_depth state !!! cpu;
     snap_counters := accounting state !!! cpu |}.

Definition validate_switch_on (state : SchedulerState.t) (cpu : CpuIndex.t) (decision : ScheduleDecision)
    : Result unit SchedulerError.t :=
  match previous decision, current decision with
  | Some previous, Some current =>
      if negb (claims current (running state !!! cpu)) then
        Err (if is_none (running_cpu current state) then SchedulerError.NotRunning else SchedulerError.WrongCpu)
      else if negb (suspends previous (suspended state !!! cpu)) then Err SchedulerError.ContinuationOwned
      else Ok tt
  | _, _ => Err SchedulerError.NotRunning
  end.

(** ** Idle accounting *)

(** [instrumentation_now_ns[cpu].is_some_and(|previous| now_ns < previous)] *)
Definition regresses (cpu : CpuIndex.t) (now_ns : Z) (state : SchedulerState.t) : bool :=
  is_some_and (λ previous, now_ns <? previous) (instrumentation_now_ns state !!! cpu).

Definition observe_time (cpu : CpuIndex.t) (now_ns : Z) (state : SchedulerState.t) : SchedulerState.t :=
  with_instrumentation_global_now_ns
    (Some (match instrumentation_global_now_ns state with Some global => Z.max global now_ns | None => now_ns end))
    (with_instrumentation_now_ns (<[cpu := Some now_ns]> (instrumentation_now_ns state)) state).

Definition observe_instrumentation_time_on (cpu : CpuIndex.t) (now_ns : Z) : M SchedulerState.t SchedulerError.t unit :=
  state ← get;
  if regresses cpu now_ns state then fail SchedulerError.TimeRegression
  else
    modify (observe_time cpu now_ns);;
    assert_invariants.

Definition publish_idle_on (cpu : CpuIndex.t) (started : Z) : M SchedulerState.t SchedulerError.t SchedulerIdleAccountingToken :=
  state ← get;
  if negb (is_none (running state !!! cpu)) then fail SchedulerError.CurrentThreadRunning
  else if negb (is_none (active_idle state !!! cpu)) then fail SchedulerError.IdleAccountingActive
  else if regresses cpu started state then fail SchedulerError.TimeRegression
  else
    let generation := next_idle_generation state in
    next_generation ← ok_or (next_nonzero 64 generation) SchedulerError.TokenExhausted;
    accounting ← account (SchedulerAccounting.increment cpu SchedulerEvent.IdleEntry);
    let token := {| idle_domain := domain state; idle_cpu := cpu; idle_generation := generation;
                    started_at_ns := started |} in
    modify (with_next_idle_generation next_generation);;
    modify (set_active_idle cpu (Some token));;
    modify (observe_time cpu started);;
    modify (with_accounting accounting);;
    assert_invariants;;
    mret token.

Definition finish_idle_on (token : SchedulerIdleAccountingToken) (finished_at_ns : Z) : M SchedulerState.t SchedulerError.t unit :=
  state ← get;
  let cpu := idle_cpu token in
  if negb (idle_domain token =? domain state) || (idle_generation token =? 0)
     || negb (bool_decide (active_idle state !!! cpu = Some token))
  then fail SchedulerError.StaleIdleAccounting
  else if regresses cpu finished_at_ns state then fail SchedulerError.TimeRegression
  else
    elapsed_ns ← ok_or (checked_sub finished_at_ns (started_at_ns token)) SchedulerError.TimeRegression;
    accounting ← account (SchedulerAccounting.counters_mut cpu (SchedulerCounters.record_idle_time elapsed_ns));
    modify (set_active_idle cpu None);;
    modify (observe_time cpu finished_at_ns);;
    modify (with_accounting accounting);;
    assert_invariants.

End CooperativeScheduler.

(** * The adapters of the bootstrap processor

    What callers that know one CPU only use: each method on CPU 0, followed
    by the completion of the switch it decides on. *)

Module BootstrapAdapters.
Import CooperativeScheduler.

Definition complete_bsp_model_switch (decision : ScheduleDecision) : M SchedulerState.t SchedulerError.t unit :=
  match previous decision with
  | Some previous =>
      if bool_decide (Some previous = current decision) then mret tt
      else
        state ← get;
        claim ← ok_or (suspended_claim_on CpuIndex.BOOTSTRAP state) SchedulerError.StaleExecutionClaim;
        if negb (bool_decide (claim_thread claim = previous)) then fail SchedulerError.StaleExecutionClaim
        else complete_switch_on claim
  | None => mret tt
  end.

Definition schedule_from_idle (thread : ThreadKey) : M SchedulerState.t SchedulerError.t IdleScheduleDecision.t :=
  decision ← schedule_from_idle_on CpuIndex.BOOTSTRAP thread;
  (match decision with
   | IdleScheduleDecision.Switch decision => complete_bsp_model_switch decision
   | _ => mret tt
   end);;
  mret decision.

Definition schedule_next : M SchedulerState.t SchedulerError.t ScheduleDecision :=
  state ← get;
  match suspended_on_cpu CpuIndex.BOOTSTRAP state with
  | Some thread =>
      decision ← schedule_from_idle thread;
      mret (match decision with
            | IdleScheduleDecision.ContinueIdle =>
                {| previous := Some thread; current := None; cancelled_quantum := None |}
            | IdleScheduleDecision.ResumeCurrent =>
                {| previous := Some thread; current := Some thread; cancelled_quantum := None |}
            | IdleScheduleDecision.Switch decision => decision
            end)
  | None => schedule_next_on CpuIndex.BOOTSTRAP
  end.

Definition yield_current (thread : ThreadKey) : M SchedulerState.t SchedulerError.t ScheduleDecision :=
  decision ← yield_current_on CpuIndex.BOOTSTRAP thread;
  complete_bsp_model_switch decision;;
  mret decision.

Definition prepare_block_current (thread : ThreadKey) : M SchedulerState.t SchedulerError.t BlockReservation :=
  prepare_block_current_on CpuIndex.BOOTSTRAP thread.

Definition cancel_block (reservation : BlockReservation) : M SchedulerState.t BlockReservationFailure unit :=
  cancel_block_on (wake_cpu (block_key reservation)) reservation.

Definition commit_block (reservation : BlockReservation) : M SchedulerState.t BlockReservationFailure ScheduleDecision :=
  let cpu := wake_cpu (block_key reservation) in
  decision ← commit_block_on cpu reservation;
  (if is_none (current decision) then mret tt
   else
     state ← get;
     claim ← expect (suspended_claim_on cpu state);
     unwrap (complete_switch_on claim));;
  mret decision.

Definition block_current (thread : ThreadKey) : M SchedulerState.t SchedulerError.t (BlockToken * ScheduleDecision) :=
  reservation ← prepare_block_current thread;
  decision ← map_err block_error (commit_block reservation);
  mret ({| token_key := block_key reservation |}, decision).

Definition retire (thread : ThreadKey) : M SchedulerState.t SchedulerError.t ScheduleDecision :=
  state ← get;
  if is_some_and (λ cpu, negb (bool_decide (cpu = CpuIndex.BOOTSTRAP))) (running_cpu thread state)
  then fail SchedulerError.WrongCpu
  else
    decision ← retire_on CpuIndex.BOOTSTRAP thread;
    complete_bsp_model_switch decision;;
    mret decision.

Definition current (state : SchedulerState.t) : option ThreadKey := current_on CpuIndex.BOOTSTRAP state.
End BootstrapAdapters.
