(* ===== verification/Carrier.v ===== *)
(** * Carrier admission

    [kernel/src/task/scheduler/carrier_admission.rs]: a CPU runs ordinary
    threads once its carrier was prepared, has published that it is ready,
    and was committed as schedulable, each step under the ticket of the
    first.  The operations are methods of the scheduler and change its
    [carrier_admission] only. *)

From stdpp Require Import base tactics numbers list.
From Stdlib Require Import ZArith.
From S2P Require Import Prelude Abi Object Cpu Wait Clock Deadline Timer LiveTime Scheduler.
Import SchedulerState.
Local Open Scope Z_scope.

Module CarrierRuntimeState.
Inductive t : Type :=
| Running
| Parked
| Executing.

#[global] Instance eq_dec : EqDecision t.
Proof. solve_decision. Defined.
End CarrierRuntimeState.

Module CarrierAdmissionError.
Inductive t : Type :=
| InvalidTuple
| WrongRuntimeState
| WrongSchedulerState
| StaleTicket
| UnexpectedState
| GenerationExhausted
| IdleWakeUnavailable.
End CarrierAdmissionError.

Record CarrierAdmissionTicket : Type := {
  admission_domain : Z;
  admission_cpu : CpuIndex.t;
  online_generation : Z;
  admission_generation : Z;
  scheduler_slot_generation : Z;
}.

Record CarrierAdmissionSnapshot : Type := {
  snapshot_lifecycle : CarrierAdmissionLifecycle.t;
  snapshot_online_generation : Z;
  snapshot_admission_generation : Z;
  snapshot_scheduler_slot_generation : Z;
  snapshot_idle_wake_ready : bool;
}.

Definition validates_fixed_ownership (self : CarrierResourceTuple) : bool :=
  negb (resource_online_generation self =? 0) && negb (root_generation self =? 0)
  && forallb (λ owner, bool_decide (owner = carrier_cpu self))
       [descriptor_cpu self; runtime_cpu self; entry_stack_cpu self; reaper_stack_cpu self; root_cpu self; scratch_cpu self;
        idle_mailbox_cpu self; tlb_mailbox_cpu self]
  && match carrier_deadline self with
     | CarrierDeadlineState.BootstrapArbiterReady => bool_decide (carrier_cpu self = CpuIndex.BOOTSTRAP)
     | CarrierDeadlineState.ApSchedulerTimerMasked => negb (bool_decide (carrier_cpu self = CpuIndex.BOOTSTRAP))
     end.

Module CarrierAdmission.
Import CarrierAdmissionState.

Definition with_next_generations (admission slot : Z) (self : CarrierAdmissionState.t) : CarrierAdmissionState.t :=
  {| next_admission_generation := admission; next_scheduler_slot_generation := slot; slots := slots self;
     schedulable_mask := schedulable_mask self; enforced := enforced self |}.

Definition with_slots (x : cpu_array CarrierAdmissionSlot) (self : CarrierAdmissionState.t) : CarrierAdmissionState.t :=
  {| next_admission_generation := next_admission_generation self;
     next_scheduler_slot_generation := next_scheduler_slot_generation self; slots := x;
     schedulable_mask := schedulable_mask self; enforced := enforced self |}.

Definition with_schedulable_mask (x : Z) (self : CarrierAdmissionState.t) : CarrierAdmissionState.t :=
  {| next_admission_generation := next_admission_generation self;
     next_scheduler_slot_generation := next_scheduler_slot_generation self; slots := slots self;
     schedulable_mask := x; enforced := enforced self |}.

Definition enforce (self : CarrierAdmissionState.t) : CarrierAdmissionState.t :=
  {| next_admission_generation := next_admission_generation self;
     next_scheduler_slot_generation := next_scheduler_slot_generation self; slots := slots self;
     schedulable_mask := schedulable_mask self; enforced := true |}.

Definition with_lifecycle (x : CarrierAdmissionLifecycle.t) (self : CarrierAdmissionSlot) : CarrierAdmissionSlot :=
  {| lifecycle := x; slot_resources := slot_resources self; slot_online_generation := slot_online_generation self;
     slot_admission_generation := slot_admission_generation self;
     slot_scheduler_slot_generation := slot_scheduler_slot_generation self; idle_wake_ready := idle_wake_ready self |}.

Definition with_idle_wake_ready (x : bool) (self : CarrierAdmissionSlot) : CarrierAdmissionSlot :=
  {| lifecycle := lifecycle self; slot_resources := slot_resources self; slot_online_generation := slot_online_generation self;
     slot_admission_generation := slot_admission_generation self;
     slot_scheduler_slot_generation := slot_scheduler_slot_generation self; idle_wake_ready := x |}.

(** [state.carrier_admission.slots[cpu]] is written. *)
Definition set_slot (cpu : CpuIndex.t) (f : CarrierAdmissionSlot → CarrierAdmissionSlot) (self : CarrierAdmissionState.t)
    : CarrierAdmissionState.t := with_slots (<[cpu := f (slots self !!! cpu)]> (slots self)) self.

Definition on_admission (f : CarrierAdmissionState.t → CarrierAdmissionState.t) (state : SchedulerState.t) : SchedulerState.t :=
  with_carrier_admission (f (carrier_admission state)) state.

Definition slot (state : SchedulerState.t) (cpu : CpuIndex.t) : CarrierAdmissionSlot := slots (carrier_admission state) !!! cpu.

Definition snapshot (self : CarrierAdmissionSlot) : CarrierAdmissionSnapshot :=
  {| snapshot_lifecycle := lifecycle self; snapshot_online_generation := slot_online_generation self;
     snapshot_admission_generation := slot_admission_generation self;
     snapshot_scheduler_slot_generation := slot_scheduler_slot_generation self;
     snapshot_idle_wake_ready := idle_wake_ready self |}.

(** The first generation stays advanced when the second is exhausted. *)
Definition mint_generations : M SchedulerState.t CarrierAdmissionError.t (Z * Z) :=
  state ← get;
  let admission := next_admission_generation (carrier_admission state) in
  let scheduler_slot := next_scheduler_slot_generation (carrier_admission state) in
  next_admission ← ok_or (next_nonzero 64 admission) CarrierAdmissionError.GenerationExhausted;
  modify (on_admission (with_next_generations next_admission scheduler_slot));;
  next_slot ← ok_or (next_nonzero 64 scheduler_slot) CarrierAdmissionError.GenerationExhausted;
  modify (on_admission (with_next_generations next_admission next_slot));;
  mret (admission, scheduler_slot).

Definition ticket_matches (state : SchedulerState.t) (ticket : CarrierAdmissionTicket) : bool :=
  let slot := slot state (admission_cpu ticket) in
  (admission_domain ticket =? domain state)
  && (online_generation ticket =? slot_online_generation slot)
  && (admission_generation ticket =? slot_admission_generation slot)
  && (scheduler_slot_generation ticket =? slot_scheduler_slot_generation slot)
  && negb (online_generation ticket =? 0)
  && negb (admission_generation ticket =? 0)
  && negb (scheduler_slot_generation ticket =? 0).

(** The end of both preparations. *)
Definition prepare_slot (cpu : CpuIndex.t) (resources : CarrierResourceTuple)
    : M SchedulerState.t CarrierAdmissionError.t CarrierAdmissionTicket :=
  state ← get;
  '(admission, scheduler_slot) ← mint_generations;
  modify (on_admission (set_slot cpu (λ _,
    {| lifecycle := CarrierAdmissionLifecycle.Preparing; slot_resources := Some resources;
       slot_online_generation := resource_online_generation resources; slot_admission_generation := admission;
       slot_scheduler_slot_generation := scheduler_slot; idle_wake_ready := false |})));;
  modify (on_admission enforce);;
  mret {| admission_domain := domain state; admission_cpu := cpu;
          online_generation := resource_online_generation resources; admission_generation := admission;
          scheduler_slot_generation := scheduler_slot |}.

Definition prepare_bootstrap_carrier (resources : CarrierResourceTuple) (runtime : CarrierRuntimeState.t)
    : M SchedulerState.t CarrierAdmissionError.t CarrierAdmissionTicket :=
  if negb (bool_decide (carrier_cpu resources = CpuIndex.BOOTSTRAP)) || negb (validates_fixed_ownership resources)
  then fail CarrierAdmissionError.InvalidTuple
  else if negb (bool_decide (runtime = CarrierRuntimeState.Running)) then fail CarrierAdmissionError.WrongRuntimeState
  else
    state ← get;
    let cpu := CpuIndex.BOOTSTRAP in
    if is_none (running state !!! cpu) || negb (is_none (suspended state !!! cpu)) || negb (is_none (pending_block state !!! cpu))
       || negb (bool_decide (lifecycle (slot state cpu) = CarrierAdmissionLifecycle.Unavailable))
    then fail CarrierAdmissionError.WrongSchedulerState
    else prepare_slot cpu resources.

(** [slot.lifecycle = Failed; return Err(error)] *)
Definition latch_failed {A} (cpu : CpuIndex.t) (error : CarrierAdmissionError.t) : M SchedulerState.t CarrierAdmissionError.t A :=
  modify (on_admission (set_slot cpu (with_lifecycle CarrierAdmissionLifecycle.Failed)));;
  fail error.

Definition publish_bootstrap_carrier_ready (ticket : CarrierAdmissionTicket) (resources : CarrierResourceTuple)
    (runtime : CarrierRuntimeState.t) : M SchedulerState.t CarrierAdmissionError.t unit :=
  if negb (bool_decide (runtime = CarrierRuntimeState.Running)) then fail CarrierAdmissionError.WrongRuntimeState
  else
    state ← get;
    if negb (ticket_matches state ticket) then fail CarrierAdmissionError.StaleTicket
    else
      let cpu := admission_cpu ticket in
      if negb (bool_decide (cpu = CpuIndex.BOOTSTRAP)) || negb (validates_fixed_ownership resources)
         || negb (bool_decide (lifecycle (slot state cpu) = CarrierAdmissionLifecycle.Preparing))
         || negb (bool_decide (slot_resources (slot state cpu) = Some resources)) || is_none (running state !!! cpu)
      then latch_failed cpu CarrierAdmissionError.WrongSchedulerState
      else modify (on_admission (set_slot cpu (with_lifecycle CarrierAdmissionLifecycle.CarrierReady))).

(** The end of both commitments. *)
Definition admit_slot (cpu : CpuIndex.t) : M SchedulerState.t CarrierAdmissionError.t unit :=
  modify (on_admission (set_slot cpu (with_idle_wake_ready true)));;
  modify (on_admission (set_slot cpu (with_lifecycle CarrierAdmissionLifecycle.Schedulable)));;
  modify (on_admission (λ self, with_schedulable_mask (Z.lor (schedulable_mask self) (cpu_bit cpu)) self)).

Definition commit_bootstrap_schedulable (ticket : CarrierAdmissionTicket) (resources : CarrierResourceTuple)
    : M SchedulerState.t CarrierAdmissionError.t unit :=
  state ← get;
  if negb (ticket_matches state ticket) then fail CarrierAdmissionError.StaleTicket
  else
    let cpu := admission_cpu ticket in
    if negb (bool_decide (cpu = CpuIndex.BOOTSTRAP))
       || negb (bool_decide (lifecycle (slot state cpu) = CarrierAdmissionLifecycle.CarrierReady))
       || negb (bool_decide (slot_resources (slot state cpu) = Some resources)) || is_none (running state !!! cpu)
    then latch_failed cpu CarrierAdmissionError.WrongSchedulerState
    else admit_slot cpu.

Definition prepare_ap_carrier (resources : CarrierResourceTuple) (runtime : CarrierRuntimeState.t)
    : M SchedulerState.t CarrierAdmissionError.t CarrierAdmissionTicket :=
  if bool_decide (carrier_cpu resources = CpuIndex.BOOTSTRAP) || negb (validates_fixed_ownership resources)
  then fail CarrierAdmissionError.InvalidTuple
  else if negb (bool_decide (runtime = CarrierRuntimeState.Parked)) then fail CarrierAdmissionError.WrongRuntimeState
  else
    state ← get;
    let cpu := carrier_cpu resources in
    if negb (is_none (running state !!! cpu)) || negb (is_none (suspended state !!! cpu))
       || negb (is_none (pending_block state !!! cpu)) || negb (is_none (active_idle state !!! cpu))
       || negb (bool_decide (lifecycle (slot state cpu) = CarrierAdmissionLifecycle.Unavailable))
    then fail CarrierAdmissionError.WrongSchedulerState
    else prepare_slot cpu resources.

Definition publish_ap_carrier_ready (ticket : CarrierAdmissionTicket) (resources : CarrierResourceTuple)
    (runtime : CarrierRuntimeState.t) : M SchedulerState.t CarrierAdmissionError.t unit :=
  state ← get;
  if negb (ticket_matches state ticket) then fail CarrierAdmissionError.StaleTicket
  else
    let cpu := admission_cpu ticket in
    if negb (bool_decide (runtime = CarrierRuntimeState.Executing)) || negb (validates_fixed_ownership resources)
       || negb (bool_decide (lifecycle (slot state cpu) = CarrierAdmissionLifecycle.Preparing))
       || negb (bool_decide (slot_resources (slot state cpu) = Some resources))
    then latch_failed cpu (if negb (bool_decide (runtime = CarrierRuntimeState.Executing))
                           then CarrierAdmissionError.WrongRuntimeState else CarrierAdmissionError.UnexpectedState)
    else modify (on_admission (set_slot cpu (with_lifecycle CarrierAdmissionLifecycle.CarrierReady))).

(** [enable_idle_wake] is what the closure that enables the wake slot of the
    CPU answers; it does not reach the scheduler, whose lock is held. *)
Definition commit_ap_schedulable (ticket : CarrierAdmissionTicket) (resources : CarrierResourceTuple) (enable_idle_wake : bool)
    : M SchedulerState.t CarrierAdmissionError.t unit :=
  state ← get;
  if negb (ticket_matches state ticket) then fail CarrierAdmissionError.StaleTicket
  else
    let cpu := admission_cpu ticket in
    if negb (bool_decide (lifecycle (slot state cpu) = CarrierAdmissionLifecycle.CarrierReady))
       || negb (bool_decide (slot_resources (slot state cpu) = Some resources))
       || negb (is_none (running state !!! cpu)) || negb (is_none (suspended state !!! cpu))
       || negb (is_none (pending_block state !!! cpu)) || negb (is_none (active_idle state !!! cpu))
    then latch_failed cpu CarrierAdmissionError.WrongSchedulerState
    else if negb enable_idle_wake then latch_failed cpu CarrierAdmissionError.IdleWakeUnavailable
    else admit_slot cpu.

Definition carrier_admission_snapshot (state : SchedulerState.t) (cpu : CpuIndex.t) : CarrierAdmissionSnapshot :=
  snapshot (slot state cpu).

Definition carrier_ticket_is_schedulable (state : SchedulerState.t) (ticket : CarrierAdmissionTicket) : bool :=
  ticket_matches state ticket
  && bool_decide (lifecycle (slot state (admission_cpu ticket)) = CarrierAdmissionLifecycle.Schedulable)
  && idle_wake_ready (slot state (admission_cpu ticket))
  && negb (Z.land (schedulable_mask (carrier_admission state)) (cpu_bit (admission_cpu ticket)) =? 0).

Definition carrier_accepts_runnable_target (state : SchedulerState.t) (cpu : CpuIndex.t) : bool :=
  negb (Z.land (schedulable_mask (carrier_admission state)) (cpu_bit cpu) =? 0)
  && bool_decide (lifecycle (slot state cpu) = CarrierAdmissionLifecycle.Schedulable).

Definition fail_carrier_admission {E} (cpu : CpuIndex.t) : M SchedulerState.t E unit :=
  state ← get;
  assert_that (negb (bool_decide (lifecycle (slot state cpu) = CarrierAdmissionLifecycle.Schedulable)));;
  modify (on_admission (set_slot cpu (with_lifecycle CarrierAdmissionLifecycle.Failed)));;
  modify (on_admission (set_slot cpu (with_idle_wake_ready false)));;
  modify (on_admission (λ self, with_schedulable_mask (Z.land (schedulable_mask self) (unot 64 (cpu_bit cpu))) self));;
  modify (on_admission enforce).
End CarrierAdmission.
