(* ===== verification/SchedulerSpec.v ===== *)
(** * The life of a thread

    The abstract view of the scheduler: a thread is unknown to it, or in one
    of four states with the token, key or claim that names it there, and each
    method may take certain threads from one state to another.  [permits] is
    that specification; that the methods of [SchedulerOps] implement it is
    proved in [SchedulerTheorems]. *)

From stdpp Require Import base tactics numbers list.
From Stdlib Require Import ZArith.
From S2P Require Import Prelude Abi Object Cpu Wait Clock Deadline Timer LiveTime Scheduler SchedulerOps Carrier.
Import SchedulerState.
Local Open Scope Z_scope.

(** ** Calls *)

Module SchedulerCall.
Inductive t : Type :=
| Reserve (thread : ThreadKey)
| CommitOn (requester : CpuIndex.t) (reservation : SchedulerReservation)
| Cancel (reservation : SchedulerReservation)
| ScheduleNextOn (cpu : CpuIndex.t)
| YieldCurrentOn (cpu : CpuIndex.t) (thread : ThreadKey)
| PrepareQuantumOn (cpu : CpuIndex.t) (now_ns : Z)
| PublishQuantumExpiry (ticket : SchedulerQuantumTicket)
| PreemptionDisableOn (cpu : CpuIndex.t)
| PreemptionEnableOn (cpu : CpuIndex.t)
| PreemptCurrentOn (cpu : CpuIndex.t)
| PrepareBlockOn (cpu : CpuIndex.t) (thread : ThreadKey)
| CancelBlockOn (cpu : CpuIndex.t) (reservation : BlockReservation)
| CommitBlockOn (cpu : CpuIndex.t) (reservation : BlockReservation)
| WakeOn (requester : CpuIndex.t) (key : BlockWakeKey)
| ScheduleFromIdleOn (cpu : CpuIndex.t) (thread : ThreadKey)
| CompleteSwitchOn (claim : SchedulerExecutionClaim)
| RetireOn (cpu : CpuIndex.t) (thread : ThreadKey)
| StopRunningClaimOn (claim : SchedulerExecutionClaim)
| RetireUnenteredOn (claim : SchedulerExecutionClaim)
| StopSuspendedClaimOn (claim : SchedulerExecutionClaim)
| ObserveTimeOn (cpu : CpuIndex.t) (now_ns : Z)
| PublishIdleOn (cpu : CpuIndex.t) (started : Z)
| FinishIdleOn (token : SchedulerIdleAccountingToken) (finished_at_ns : Z)
| PrepareBootstrapCarrier (resources : CarrierResourceTuple) (runtime : CarrierRuntimeState.t)
| PublishBootstrapReady (ticket : CarrierAdmissionTicket) (resources : CarrierResourceTuple) (runtime : CarrierRuntimeState.t)
| CommitBootstrap (ticket : CarrierAdmissionTicket) (resources : CarrierResourceTuple)
| PrepareApCarrier (resources : CarrierResourceTuple) (runtime : CarrierRuntimeState.t)
| PublishApReady (ticket : CarrierAdmissionTicket) (resources : CarrierResourceTuple) (runtime : CarrierRuntimeState.t)
| CommitAp (ticket : CarrierAdmissionTicket) (resources : CarrierResourceTuple) (enable_idle_wake : bool)
| FailCarrier (cpu : CpuIndex.t).

(** The state a call leaves, whether it succeeds or fails; none if it
    panics. *)
Definition left_by {E A} (o : outcome SchedulerState.t E A) : option SchedulerState.t :=
  match o with Ret s _ => Some s | Fail s _ => Some s | Panic => None end.

Definition perform (call : t) (s : SchedulerState.t) : option SchedulerState.t :=
  match call with
  | Reserve thread => left_by (CooperativeScheduler.reserve thread s)
  | CommitOn requester reservation => left_by (CooperativeScheduler.commit_on requester reservation s)
  | Cancel reservation => left_by (CooperativeScheduler.cancel reservation s)
  | ScheduleNextOn cpu => left_by (CooperativeScheduler.schedule_next_on_with_migration cpu s)
  | YieldCurrentOn cpu thread => left_by (CooperativeScheduler.yield_current_on cpu thread s)
  | PrepareQuantumOn cpu now => left_by (CooperativeScheduler.prepare_quantum_if_needed_on cpu now s)
  | PublishQuantumExpiry ticket => left_by (CooperativeScheduler.publish_quantum_expiry ticket s)
  | PreemptionDisableOn cpu => left_by (CooperativeScheduler.preemption_disable_on cpu s)
  | PreemptionEnableOn cpu => left_by (CooperativeScheduler.preemption_enable_on cpu s)
  | PreemptCurrentOn cpu => left_by (CooperativeScheduler.preempt_current_on cpu s)
  | PrepareBlockOn cpu thread => left_by (CooperativeScheduler.prepare_block_current_on cpu thread s)
  | CancelBlockOn cpu reservation => left_by (CooperativeScheduler.cancel_block_on cpu reservation s)
  | CommitBlockOn cpu reservation => left_by (CooperativeScheduler.commit_block_on cpu reservation s)
  | WakeOn requester key => left_by (CooperativeScheduler.wake_on requester key s)
  | ScheduleFromIdleOn cpu thread => left_by (CooperativeScheduler.schedule_from_idle_on_with_migration cpu thread s)
  | CompleteSwitchOn claim => left_by (CooperativeScheduler.complete_switch_on_with_runnable_publication claim s)
  | RetireOn cpu thread => left_by (CooperativeScheduler.retire_on cpu thread s)
  | StopRunningClaimOn claim => left_by (CooperativeScheduler.stop_running_claim_on claim s)
  | RetireUnenteredOn claim => left_by (CooperativeScheduler.retire_unentered_running_claim_on claim s)
  | StopSuspendedClaimOn claim => left_by (CooperativeScheduler.stop_suspended_claim_on claim s)
  | ObserveTimeOn cpu now => left_by (CooperativeScheduler.observe_instrumentation_time_on cpu now s)
  | PublishIdleOn cpu started => left_by (CooperativeScheduler.publish_idle_on cpu started s)
  | FinishIdleOn token finished => left_by (CooperativeScheduler.finish_idle_on token finished s)
  | PrepareBootstrapCarrier resources runtime => left_by (CarrierAdmission.prepare_bootstrap_carrier resources runtime s)
  | PublishBootstrapReady ticket resources runtime =>
      left_by (CarrierAdmission.publish_bootstrap_carrier_ready ticket resources runtime s)
  | CommitBootstrap ticket resources => left_by (CarrierAdmission.commit_bootstrap_schedulable ticket resources s)
  | PrepareApCarrier resources runtime => left_by (CarrierAdmission.prepare_ap_carrier resources runtime s)
  | PublishApReady ticket resources runtime => left_by (CarrierAdmission.publish_ap_carrier_ready ticket resources runtime s)
  | CommitAp ticket resources enable => left_by (CarrierAdmission.commit_ap_schedulable ticket resources enable s)
  | FailCarrier cpu => left_by (CarrierAdmission.fail_carrier_admission (E := CarrierAdmissionError.t) cpu s)
  end.

(** What the callers see to: a thread is not reserved while a CPU still
    holds its continuation, no thread is retired on behalf of a CPU that
    accounts for idleness, a carrier is not failed once it is schedulable,
    and times are [u64]s. *)
Definition u64 (x : Z) : bool := (0 <=? x) && (x <? 2 ^ 64).

Definition allowed (call : t) (s : SchedulerState.t) : bool :=
  match call with
  | Reserve thread => negb (existsb (suspends thread) (cells (suspended s)))
  | RetireOn cpu _ => is_none (active_idle s !!! cpu)
  | FailCarrier cpu => negb (bool_decide (lifecycle (CarrierAdmission.slot s cpu) = CarrierAdmissionLifecycle.Schedulable))
  | PrepareQuantumOn _ time | ObserveTimeOn _ time | PublishIdleOn _ time | FinishIdleOn _ time => u64 time
  | _ => true
  end.

(** A sequence of calls, and that each is made when it may be. *)
Fixpoint run (calls : list t) (s : SchedulerState.t) : option SchedulerState.t :=
  match calls with
  | [] => Some s
  | call :: calls => match perform call s with Some s' => run calls s' | None => None end
  end.

Fixpoint admissible (calls : list t) (s : SchedulerState.t) : bool :=
  match calls with
  | [] => true
  | call :: calls => allowed call s && match perform call s with Some s' => admissible calls s' | None => true end
  end.
End SchedulerCall.

(** ** The life of a thread *)

(** What the scheduler knows of a thread.  [held] is the execution whose
    switch is not completed, with the CPU that holds its continuation; [block]
    is the token of the block that is being prepared. *)
Module ThreadLife.
Inductive t : Type :=
| Reserved (token : Z)
| Runnable (held : option (CpuIndex.t * Z))
| Running (cpu : CpuIndex.t) (generation : Z) (block : option Z)
| Blocked (token : Z) (cpu : option CpuIndex.t) (generation : Z) (held : option (CpuIndex.t * Z)).

Definition state (life : t) : SchedulerThreadState.t :=
  match life with
  | Reserved _ => SchedulerThreadState.Reserved
  | Runnable _ => SchedulerThreadState.Runnable
  | Running _ _ _ => SchedulerThreadState.Running
  | Blocked _ _ _ _ => SchedulerThreadState.Blocked
  end.
End ThreadLife.

Definition held (entry : QueueEntry) : option (CpuIndex.t * Z) :=
  (λ cpu, (cpu, q_continuation_generation entry)) <$> q_continuation_cpu entry.

Definition entry_life (entry : QueueEntry) : ThreadLife.t :=
  match q_state entry with
  | SchedulerThreadState.Reserved => ThreadLife.Reserved (q_token entry)
  | SchedulerThreadState.Blocked =>
      ThreadLife.Blocked (q_token entry) (q_block_cpu entry) (q_block_execution_generation entry) (held entry)
  | _ => ThreadLife.Runnable (held entry)
  end.

(** [None] is outside the scheduler. *)
Definition life (thread : ThreadKey) (s : SchedulerState.t) : option ThreadLife.t :=
  match running_cpu thread s with
  | Some cpu =>
      (λ claim, ThreadLife.Running cpu (run_generation claim) (wake_token <$> pending_block s !!! cpu)) <$> running s !!! cpu
  | None => entry_life <$> find (of_thread thread) s
  end.

(** ** The specification *)

Section permits.
Import SchedulerCall ThreadLife.

(** [cpu] starts to run a thread whose last switch is completed. *)
Definition dispatched (cpu : CpuIndex.t) (a b : option ThreadLife.t) : Prop :=
  a = Some (Runnable None) ∧ ∃ generation, b = Some (Running cpu generation None).

(** [cpu] stops running a thread, and holds its continuation. *)
Definition descheduled (cpu : CpuIndex.t) (a b : option ThreadLife.t) : Prop :=
  ∃ generation, a = Some (Running cpu generation None) ∧ b = Some (Runnable (Some (cpu, generation))).

(** The CPU that runs a thread, or holds its continuation. *)
Definition bound_to (life : option ThreadLife.t) : option CpuIndex.t :=
  match life with
  | Some (Running cpu _ _) => Some cpu
  | Some (Runnable held) | Some (Blocked _ _ _ held) => fst <$> held
  | _ => None
  end.

(** [permits domain call thread a b]: on a scheduler of that domain [call]
    may take [thread] from [a] to [b].  A reservation, a key or a claim is
    good for nothing but what it was issued for, which is all compared. *)
Definition permits (domain : Z) (call : SchedulerCall.t) (thread : ThreadKey) (a b : option ThreadLife.t) : Prop :=
  match call with
  | Reserve thread' => thread = thread' ∧ a = None ∧ ∃ token, b = Some (Reserved token)
  | CommitOn _ reservation =>
      reservation_domain reservation = domain ∧ thread = reservation_thread reservation ∧
      a = Some (Reserved (reservation_token reservation)) ∧ b = Some (Runnable None)
  | Cancel reservation =>
      reservation_domain reservation = domain ∧ thread = reservation_thread reservation ∧
      a = Some (Reserved (reservation_token reservation)) ∧ b = None
  | ScheduleNextOn cpu => dispatched cpu a b
  | ScheduleFromIdleOn cpu thread' =>
      dispatched cpu a b ∨
      thread = thread' ∧ ∃ generation, a = Some (Runnable (Some (cpu, generation))) ∧ b = Some (Running cpu generation None)
  | YieldCurrentOn cpu thread' => if decide (thread = thread') then descheduled cpu a b else dispatched cpu a b
  | PreemptCurrentOn cpu => descheduled cpu a b ∨ dispatched cpu a b
  | PrepareBlockOn cpu thread' =>
      thread = thread' ∧ ∃ generation token, a = Some (Running cpu generation None) ∧ b = Some (Running cpu generation (Some token))
  | CancelBlockOn cpu reservation =>
      let key := block_key reservation in
      wake_domain key = domain ∧ thread = wake_thread key ∧ wake_cpu key = cpu ∧
      a = Some (Running cpu (wake_execution_generation key) (Some (wake_token key))) ∧
      b = Some (Running cpu (wake_execution_generation key) None)
  | CommitBlockOn cpu reservation =>
      let key := block_key reservation in
      if decide (thread = wake_thread key) then
        wake_domain key = domain ∧ wake_cpu key = cpu ∧
        a = Some (Running cpu (wake_execution_generation key) (Some (wake_token key))) ∧
        b = Some (Blocked (wake_token key) (Some cpu) (wake_execution_generation key) (Some (cpu, wake_execution_generation key)))
      else dispatched cpu a b
  | WakeOn _ key =>
      wake_domain key = domain ∧ thread = wake_thread key ∧ ∃ held,
      a = Some (Blocked (wake_token key) (Some (wake_cpu key)) (wake_execution_generation key) held) ∧ b = Some (Runnable held)
  | CompleteSwitchOn claim =>
      let held := Some (claim_cpu claim, claim_generation claim) in
      claim_domain claim = domain ∧ thread = claim_thread claim ∧
      (a = Some (Runnable held) ∧ b = Some (Runnable None) ∨
       ∃ token cpu generation, a = Some (Blocked token cpu generation held) ∧ b = Some (Blocked token cpu generation None))
  | RetireOn cpu thread' =>
      if decide (thread = thread') then a ≠ None ∧ b = None ∧ (bound_to a = None ∨ bound_to a = Some cpu) else dispatched cpu a b
  | StopRunningClaimOn claim | RetireUnenteredOn claim =>
      claim_domain claim = domain ∧ thread = claim_thread claim ∧
      (∃ block, a = Some (Running (claim_cpu claim) (claim_generation claim) block)) ∧ b = None
  | StopSuspendedClaimOn claim =>
      let held := Some (claim_cpu claim, claim_generation claim) in
      claim_domain claim = domain ∧ thread = claim_thread claim ∧
      (a = Some (Runnable held) ∨ ∃ token cpu generation, a = Some (Blocked token cpu generation held)) ∧ b = None
  | _ => False
  end.
End permits.

(** ** Carriers *)

(** Whether [cpu] is in the placement mask. *)
Definition admitted (state : SchedulerState.t) (cpu : CpuIndex.t) : bool :=
  negb (Z.land (CarrierAdmissionState.schedulable_mask (carrier_admission state)) (cpu_bit cpu) =? 0).

(** A carrier is in a state of its lifecycle, and in the mask or not. *)
Definition carrier (state : SchedulerState.t) (cpu : CpuIndex.t) : CarrierAdmissionLifecycle.t * bool :=
  (lifecycle (CarrierAdmission.slot state cpu), admitted state cpu).

(** A carrier with all that is known of it. *)
Definition carrier_view (state : SchedulerState.t) (cpu : CpuIndex.t) : CarrierAdmissionSlot * bool :=
  (CarrierAdmission.slot state cpu, admitted state cpu).

(** The ticket that was issued for a carrier. *)
Definition slot_ticket (domain : Z) (cpu : CpuIndex.t) (slot : CarrierAdmissionSlot) : CarrierAdmissionTicket :=
  {| admission_domain := domain; admission_cpu := cpu; online_generation := slot_online_generation slot;
     admission_generation := slot_admission_generation slot; scheduler_slot_generation := slot_scheduler_slot_generation slot |}.

(** A call with the ticket of a carrier that is admitted already. *)
Definition replays (call : SchedulerCall.t) (state : SchedulerState.t) : bool :=
  match call with
  | SchedulerCall.PublishBootstrapReady ticket _ _ | SchedulerCall.PublishApReady ticket _ _
  | SchedulerCall.CommitBootstrap ticket _ | SchedulerCall.CommitAp ticket _ _ =>
      CarrierAdmission.carrier_ticket_is_schedulable state ticket
  | _ => false
  end.

(** No call of the sequence does. *)
Fixpoint replay_free (calls : list SchedulerCall.t) (state : SchedulerState.t) : bool :=
  match calls with
  | [] => true
  | call :: calls =>
      negb (replays call state)
      && match SchedulerCall.perform call state with Some state' => replay_free calls state' | None => true end
  end.

Section admits.
Import SchedulerCall CarrierAdmission CarrierAdmissionLifecycle.
Implicit Types (a b : CarrierAdmissionSlot * bool).

Definition prepared (cpu : CpuIndex.t) (resources : CarrierResourceTuple) a b : Prop :=
  cpu = carrier_cpu resources ∧ validates_fixed_ownership resources = true ∧ lifecycle a.1 = Unavailable ∧
  ∃ admission scheduler_slot,
    b = ({| lifecycle := Preparing; slot_resources := Some resources;
            slot_online_generation := resource_online_generation resources; slot_admission_generation := admission;
            slot_scheduler_slot_generation := scheduler_slot; idle_wake_ready := false |}, a.2).

Definition readied (resources : CarrierResourceTuple) a b : Prop :=
  lifecycle a.1 = Preparing ∧ slot_resources a.1 = Some resources ∧ b = (with_lifecycle CarrierReady a.1, a.2).

Definition committed (resources : CarrierResourceTuple) a b : Prop :=
  lifecycle a.1 = CarrierReady ∧ slot_resources a.1 = Some resources ∧
  b = (with_lifecycle Schedulable (with_idle_wake_ready true a.1), true).

(** A carrier that is not yet admitted fails, outside the mask. *)
Definition refused a b : Prop :=
  (lifecycle a.1 = Preparing ∨ lifecycle a.1 = CarrierReady) ∧ b = (with_lifecycle Failed a.1, false).

(** [admits domain call cpu a b]: on a scheduler of that domain [call] may
    take the carrier of [cpu] from [a] to [b].  A carrier is prepared once, is
    made ready only while it is prepared and enters the mask only from ready,
    each time with the resources it was prepared with and with the very
    ticket that was issued for it; a call with its ticket that finds it in
    another state fails it, before it is admitted. *)
Definition admits (domain : Z) (call : SchedulerCall.t) (cpu : CpuIndex.t) a b : Prop :=
  match call with
  | PrepareBootstrapCarrier resources runtime =>
      cpu = CpuIndex.BOOTSTRAP ∧ runtime = CarrierRuntimeState.Running ∧ prepared cpu resources a b
  | PrepareApCarrier resources runtime =>
      cpu ≠ CpuIndex.BOOTSTRAP ∧ runtime = CarrierRuntimeState.Parked ∧ prepared cpu resources a b
  | PublishBootstrapReady ticket resources runtime =>
      ticket = slot_ticket domain cpu a.1 ∧ runtime = CarrierRuntimeState.Running ∧
      (cpu = CpuIndex.BOOTSTRAP ∧ readied resources a b ∨ refused a b)
  | PublishApReady ticket resources runtime =>
      ticket = slot_ticket domain cpu a.1 ∧ (runtime = CarrierRuntimeState.Executing ∧ readied resources a b ∨ refused a b)
  | CommitBootstrap ticket resources =>
      ticket = slot_ticket domain cpu a.1 ∧ (cpu = CpuIndex.BOOTSTRAP ∧ committed resources a b ∨ refused a b)
  | CommitAp ticket resources enable_idle_wake =>
      ticket = slot_ticket domain cpu a.1 ∧ (enable_idle_wake = true ∧ committed resources a b ∨ refused a b)
  | FailCarrier cpu' =>
      cpu = cpu' ∧ lifecycle a.1 ≠ Schedulable ∧ b = (with_idle_wake_ready false (with_lifecycle Failed a.1), false)
  | _ => False
  end.
End admits.
