(* ===== verification/SchedulerFacts.v ===== *)
(** * Facts about the scheduler's queue and accounting

    The queue is an array whose first [len] cells hold the entries.
    [requeue es s] is [s] with the entries [es]; on a queue of that shape
    adding, removing and overwriting an entry are list operations. *)

From stdpp Require Import base tactics numbers list.
From Stdlib Require Import ZArith Lia.
From S2P Require Import Prelude Abi Object Cpu Wait Clock Deadline Timer LiveTime Scheduler.
Import SchedulerState.
Local Open Scope Z_scope.

Implicit Types (s : SchedulerState.t) (es : list QueueEntry) (e : QueueEntry) (cpu : CpuIndex.t) (thread : ThreadKey).

(** The array of [n] cells that holds [es]. *)
Definition cells_of (n : nat) es : list (option QueueEntry) := (Some <$> es) ++ replicate (n - length es) None.

Definition requeue es s : SchedulerState.t := with_len (length es) (with_queue (cells_of (length (queue s)) es) s).

Record shape s es : Prop := {
  sh_queue : queue s = cells_of (length (queue s)) es;
  sh_len : len s = length es;
}.

Lemma shape_requeue s es : shape s es ↔ s = requeue es s.
Proof.
  split.
  - intros [Hq Hl]. unfold requeue. rewrite <- Hq, <- Hl. by destruct s.
  - intros Heq. split; rewrite Heq at 1; done.
Qed.

Lemma length_cells_of n es : (length es ≤ n)%nat → length (cells_of n es) = n.
Proof. intros ?. unfold cells_of. rewrite length_app, length_fmap, length_replicate. lia. Qed.

Lemma shape_length s es : shape s es → (length es ≤ length (queue s))%nat.
Proof.
  intros [Hq _]. rewrite Hq. unfold cells_of. rewrite length_app, length_fmap. lia.
Qed.

Lemma requeue_shape s es : (length es ≤ length (queue s))%nat → shape (requeue es s) es.
Proof. intros ?. split; [|done]. cbn [requeue queue with_len with_queue]. by rewrite length_cells_of. Qed.

Lemma queued_shape s es : shape s es → queued s = Some <$> es.
Proof. intros [Hq Hl]. unfold queued. rewrite Hq, Hl. unfold cells_of. by rewrite take_app_length' by (by rewrite length_fmap). Qed.

Lemma omap_Some {A} (l : list A) : omap id (Some <$> l) = l.
Proof. induction l; simpl; by f_equal. Qed.

Lemma entries_shape s es : shape s es → entries s = es.
Proof. intros H. unfold entries. by rewrite (queued_shape _ _ H), omap_Some. Qed.

Lemma list_find_Some_fmap (p : QueueEntry → bool) es :
  fst <$> list_find (λ o, is_some_and p o) (Some <$> es) = fst <$> list_find (λ e, p e) es.
Proof.
  induction es as [|e es IH]; [done|]. rewrite fmap_cons. cbn [list_find is_some_and].
  repeat case_decide; try done.
  destruct (list_find (λ o, is_some_and p o) (Some <$> es)) as [[i o]|], (list_find (λ e, p e) es) as [[j e']|];
    simpl in *; congruence.
Qed.

Lemma position_shape p s es : shape s es → position p s = fst <$> list_find (λ e, p e) es.
Proof. intros H. unfold position. rewrite (queued_shape _ _ H). apply list_find_Some_fmap. Qed.

Lemma find_shape p s es : shape s es → find p s = snd <$> list_find (λ e, p e) es.
Proof. intros H. unfold find. by rewrite (entries_shape _ _ H). Qed.

Lemma lookup_shape s es i : shape s es → (i < length es)%nat → mjoin (queue s !! i) = es !! i.
Proof.
  intros [Hq _] Hi. rewrite Hq. unfold cells_of. rewrite lookup_app_l by (by rewrite length_fmap).
  rewrite list_lookup_fmap. by destruct (es !! i).
Qed.

(** An entry found at an index. *)
Lemma position_Some p s es i : shape s es → position p s = Some i →
  ∃ e, es !! i = Some e ∧ p e = true ∧ mjoin (queue s !! i) = Some e ∧ list_find (λ e, p e) es = Some (i, e).
Proof.
  intros Hs. rewrite (position_shape _ _ _ Hs). destruct (list_find _ es) as [[j e]|] eqn:Hf; [|done]. simpl. intros [= <-].
  pose proof Hf as (Hj & Hp%Is_true_true & _)%list_find_Some. exists e. split_and!; [done..| |done].
  rewrite (lookup_shape _ _ _ Hs); [done|by eapply lookup_lt_Some].
Qed.

Lemma position_None p s es : shape s es → position p s = None → ∀ e, e ∈ es → p e = false.
Proof.
  intros Hs. rewrite (position_shape _ _ _ Hs). destruct (list_find _ es) as [[j e]|] eqn:Hf; [done|]. intros _ e He.
  apply list_find_None in Hf. rewrite list.Forall_forall in Hf. apply not_true_iff_false. intros Hp. by apply (Hf e He), Is_true_true.
Qed.

Lemma sched_find_Some p s es e : shape s es → find p s = Some e → ∃ i, es !! i = Some e ∧ p e = true ∧ position p s = Some i.
Proof.
  intros Hs. rewrite (find_shape _ _ _ Hs), (position_shape _ _ _ Hs). destruct (list_find _ es) as [[i e']|] eqn:Hf; [|done].
  simpl. intros [= ->]. apply list_find_Some in Hf as (Hi & Hp%Is_true_true & _). eauto.
Qed.

Lemma sched_find_None p s es : shape s es → find p s = None → position p s = None.
Proof. intros Hs. rewrite (find_shape _ _ _ Hs), (position_shape _ _ _ Hs). by destruct (list_find _ es). Qed.

(** ** Adding and overwriting *)

Lemma push_shape s es e : shape s es → (length es < length (queue s))%nat → q_thread e ∉ (q_thread <$> es) →
  push e s = Ret (requeue (es ++ [e]) s) tt.
Proof.
  intros Hs Hlt Hth. pose proof Hs as [Hq Hl]. unfold push, mbind, M_bind, get.
  rewrite Hl, (proj2 (Nat.eqb_neq _ _)) by lia. rewrite (entries_shape _ _ Hs).
  destruct (existsb _ es) eqn:Hdup.
  { apply existsb_exists in Hdup as (e' & He'%list_elem_of_In & Heq%bool_decide_eq_true). destruct Hth. rewrite <- Heq.
    apply list_elem_of_fmap. eauto. }
  unfold put, requeue. f_equal. rewrite length_app. simpl. f_equal. f_equal. rewrite Hq at 1. unfold cells_of.
  rewrite length_app. simpl. rewrite insert_app_r_alt by (by rewrite length_fmap). rewrite length_fmap, Nat.sub_diag.
  replace (length (queue s) - length es)%nat with (S (length (queue s) - (length es + 1))) by lia. simpl.
  by rewrite fmap_app, <- app_assoc.
Qed.

Lemma write_entry_shape s es i e : shape s es → (i < length es)%nat → write_entry i e s = requeue (<[i := e]> es) s.
Proof.
  intros [Hq Hl] Hi. unfold write_entry, requeue. rewrite length_insert, <- Hl. rewrite Hq at 1. unfold cells_of.
  rewrite insert_app_l by (by rewrite length_fmap). rewrite length_insert, list_fmap_insert. by destruct s.
Qed.

(** ** Removing *)

Lemma shift_one s pre x post : queue s = pre ++ None :: x :: post →
  shift_into (E := SchedulerError.t) (length pre) s = Ret (with_queue (pre ++ x :: None :: post) s) tt.
Proof.
  intros Hq. unfold shift_into, mbind, M_bind, get. rewrite Hq.
  rewrite lookup_app_r by lia. replace (S (length pre) - length pre)%nat with 1%nat by lia. simpl. unfold put. f_equal. f_equal.
  rewrite insert_app_r_alt by lia. replace (S (length pre) - length pre)%nat with 1%nat by lia. simpl.
  rewrite insert_app_r_alt by lia. by rewrite Nat.sub_diag.
Qed.

Lemma with_queue_twice q q' s : with_queue q (with_queue q' s) = with_queue q s.
Proof. done. Qed.

Lemma shift_all xs : ∀ s pre post, queue s = pre ++ None :: xs ++ post →
  for_each (seq (length pre) (length xs)) (λ current _, shift_into (E := SchedulerError.t) current) tt s =
    Ret (with_queue (pre ++ xs ++ None :: post) s) tt.
Proof.
  induction xs as [|x xs IH]; intros s pre post Hq; simpl.
  - unfold mret, M_ret. f_equal. simpl in Hq. rewrite <- Hq. by destruct s.
  - unfold mbind, M_bind. simpl in Hq. rewrite (shift_one _ _ _ _ Hq).
    specialize (IH (with_queue (pre ++ x :: None :: xs ++ post) s) (pre ++ [x]) post).
    rewrite length_app, Nat.add_1_r in IH. rewrite IH; [by rewrite <- app_assoc|]. simpl. by rewrite <- app_assoc.
Qed.

Lemma remove_index_shape s es i e : shape s es → es !! i = Some e →
  remove_index (E := SchedulerError.t) i s = Ret (requeue (delete i es) s) e.
Proof.
  intros Hs Hi. pose proof Hs as [Hq Hl]. pose proof (lookup_lt_Some _ _ _ Hi) as Hlt. pose proof (shape_length _ _ Hs) as Hcap.
  unfold remove_index, mbind, M_bind, get, assert_that. rewrite Hl, (proj2 (Nat.ltb_lt _ _)) by done.
  rewrite (lookup_shape _ _ _ Hs), Hi by done. unfold expect, put. cbn beta iota.
  set (pre := Some <$> take i es). set (xs := Some <$> drop (S i) es). set (post := replicate (length (queue s) - length es) (@None QueueEntry)).
  assert (length pre = i) as Hpre by (unfold pre; rewrite length_fmap, length_take; lia).
  assert (length xs = (length es - 1 - i)%nat) as Hxs by (unfold xs; rewrite length_fmap, length_drop; lia).
  assert (<[i := None]> (queue s) = pre ++ None :: xs ++ post) as Hq1.
  { rewrite Hq. unfold cells_of. rewrite insert_app_l by (by rewrite length_fmap). rewrite insert_take_drop by (by rewrite length_fmap).
    by rewrite <- fmap_take, <- fmap_drop, <- app_assoc. }
  pose proof (shift_all xs (with_queue (<[i := None]> (queue s)) s) pre post Hq1) as Hsh. rewrite Hpre, Hxs in Hsh.
  rewrite Hsh. unfold modify, mret, M_ret. cbn beta iota. f_equal. unfold requeue.
  cbn [with_queue with_len queue len]. rewrite Hl.
  assert (delete i es = take i es ++ drop (S i) es) as Hdel by (by rewrite delete_take_drop).
  assert (length (delete i es) = (length es - 1)%nat) as Hdl by (rewrite length_delete; [lia|eauto]).
  rewrite Hdl. f_equal. unfold cells_of. rewrite Hdl, Hdel, fmap_app, <- app_assoc. fold pre xs. f_equal.
  rewrite !insert_app_r_alt by (rewrite ?Hpre, ?Hxs; lia). rewrite Hpre, Hxs.
  replace (length es - 1 - i - (length es - 1 - i))%nat with 0%nat by lia. simpl. f_equal.
  replace (length (queue s) - (length es - 1))%nat with (S (length (queue s) - length es)) by lia. done.
Qed.

(** ** How many entries of a CPU are runnable *)

Definition on_cpu cpu e : bool := is_runnable e && bool_decide (q_target_cpu e = cpu).

Definition load es cpu : Z := Z.of_nat (length (List.filter (on_cpu cpu) es)).

Lemma load_cons e es cpu : load (e :: es) cpu = Z.b2z (on_cpu cpu e) + load es cpu.
Proof. unfold load. simpl. destruct (on_cpu cpu e); simpl; lia. Qed.

Lemma load_app es es' cpu : load (es ++ es') cpu = load es cpu + load es' cpu.
Proof. unfold load. rewrite List.filter_app, length_app. lia. Qed.

Lemma load_split es i e cpu : es !! i = Some e →
  load es cpu = load (take i es) cpu + Z.b2z (on_cpu cpu e) + load (drop (S i) es) cpu.
Proof. intros Hi. rewrite <- (take_drop_middle es i e Hi) at 1. rewrite load_app, load_cons. lia. Qed.

Lemma load_delete es i e cpu : es !! i = Some e → load (delete i es) cpu = load es cpu - Z.b2z (on_cpu cpu e).
Proof. intros Hi. rewrite (load_split _ _ _ _ Hi), delete_take_drop, load_app. lia. Qed.

Lemma load_insert es i e e' cpu : es !! i = Some e →
  load (<[i := e']> es) cpu = load es cpu - Z.b2z (on_cpu cpu e) + Z.b2z (on_cpu cpu e').
Proof.
  intros Hi. rewrite (load_split _ _ _ _ Hi), insert_take_drop by (by eapply lookup_lt_Some).
  rewrite load_app, load_cons. lia.
Qed.

Lemma load_bounds es cpu : 0 ≤ load es cpu ≤ Z.of_nat (length es).
Proof. unfold load. pose proof (List.filter_length_le (on_cpu cpu) es). lia. Qed.

Lemma load_pos es i e cpu : es !! i = Some e → on_cpu cpu e = true → 1 ≤ load es cpu.
Proof.
  intros Hi He. rewrite (load_split _ _ _ _ Hi), He. pose proof (load_bounds (take i es) cpu).
  pose proof (load_bounds (drop (S i) es) cpu). simpl. lia.
Qed.

(** ** Accounting *)

(** No counter is above [b]; the runnable entries and the idle times are
    those given; nothing has overflowed. *)
Record tally (b : Z) (runnable idle : CpuIndex.t → Z) (a : SchedulerAccounting.t) : Prop := {
  ta_counter cpu event : 0 ≤ SchedulerCounters.counter event (a !!! cpu) ≤ b;
  ta_runnable cpu : SchedulerCounters.current_runnable (a !!! cpu) = runnable cpu;
  ta_idle cpu : SchedulerCounters.idle_time_ns (a !!! cpu) = idle cpu;
  ta_fault cpu : SchedulerCounters.overflow_fault (a !!! cpu) = false;
}.

Definition bump (cpu : CpuIndex.t) (d : Z) (f : CpuIndex.t → Z) : CpuIndex.t → Z :=
  λ cpu', f cpu' + if decide (cpu' = cpu) then d else 0.

Lemma tally_ext b b' r r' i i' a : tally b r i a → b ≤ b' → (∀ cpu, r cpu = r' cpu) → (∀ cpu, i cpu = i' cpu) → tally b' r' i' a.
Proof.
  intros [Hc Hr Hi Hf] Hb Hrr Hii. split; [|congruence|congruence|done]. intros cpu event. specialize (Hc cpu event). lia.
Qed.

Lemma counter_with_fields event event' n r i d f c :
  SchedulerCounters.counter event (SchedulerCounters.with_fields event' n r i d f c) =
    if decide (event' = Some event) then n else SchedulerCounters.counter event c.
Proof. by destruct event. Qed.

Section accounting.
Context (b : Z) (r i : CpuIndex.t → Z).
Implicit Types a : SchedulerAccounting.t.

Lemma wp_counters {A E} cpu (m : M SchedulerCounters.t E A) a Q R :
  wp m (a !!! cpu) (λ x c, Q x (<[cpu := c]> a)) (λ x c, R x (<[cpu := c]> a)) →
  wp (SchedulerAccounting.counters_mut cpu m) a Q R.
Proof. unfold wp, SchedulerAccounting.counters_mut, on_part. by destruct (m (a !!! cpu)). Qed.

(** One CPU's counters are replaced. *)
Lemma tally_insert b' r' i' a cpu c : tally b r i a → b ≤ b' → (∀ event, 0 ≤ SchedulerCounters.counter event c ≤ b') →
  SchedulerCounters.overflow_fault c = false →
  (∀ cpu', r' cpu' = if decide (cpu' = cpu) then SchedulerCounters.current_runnable c else r cpu') →
  (∀ cpu', i' cpu' = if decide (cpu' = cpu) then SchedulerCounters.idle_time_ns c else i cpu') →
  tally b' r' i' (<[cpu := c]> a).
Proof.
  intros [Hc Hr Hi Hf] Hb Hc' Hf' Hr' Hi'.
  split; [intros cpu' event|intros cpu'; rewrite Hr'|intros cpu'; rewrite Hi'|intros cpu']; rewrite cpu_lookup_insert;
    case_decide; try done. specialize (Hc cpu' event). lia.
Qed.

Lemma increment_wp a cpu event : tally b r i a → b + 1 < 2 ^ 64 →
  wp (SchedulerAccounting.increment cpu event) a (λ _ a', tally (b + 1) r i a') (λ _ _, False).
Proof.
  intros Ht Hb. pose proof Ht as [Hc Hr Hi Hf]. apply wp_counters. unfold SchedulerCounters.increment. wp_step. wp_step.
  unfold checked_add. pose proof (Hc cpu event). rewrite (proj2 (Z.ltb_lt _ _)) by lia. wp_step.
  eapply tally_insert; [done|lia|..].
  - intros event'. unfold SchedulerCounters.with_counter. rewrite counter_with_fields. pose proof (Hc cpu event'). case_decide; lia.
  - apply Hf.
  - intros cpu'. case_decide; subst; [symmetry; apply Hr|done].
  - intros cpu'. case_decide; subst; [symmetry; apply Hi|done].
Qed.

Lemma increment_runnable_wp a cpu : tally b r i a → r cpu + 1 < 2 ^ 64 →
  wp (SchedulerAccounting.increment_runnable cpu) a (λ _ a', tally b (bump cpu 1 r) i a') (λ _ _, False).
Proof.
  intros Ht Hb. pose proof Ht as [Hc Hr Hi Hf]. apply wp_counters. unfold SchedulerCounters.increment_runnable. wp_step. wp_step.
  unfold checked_add. rewrite Hr, (proj2 (Z.ltb_lt _ _)) by lia. wp_step.
  eapply tally_insert; [done|lia|..].
  - intros event'. unfold SchedulerCounters.with_runnable. rewrite counter_with_fields. pose proof (Hc cpu event'). case_decide; [done|lia].
  - apply Hf.
  - intros cpu'. unfold bump. case_decide; subst; [done|lia].
  - intros cpu'. case_decide; subst; [symmetry; apply Hi|done].
Qed.

Lemma decrement_runnable_wp a cpu : tally b r i a → 1 ≤ r cpu →
  wp (SchedulerAccounting.decrement_runnable cpu) a (λ _ a', tally b (bump cpu (-1) r) i a') (λ _ _, False).
Proof.
  intros Ht Hb. pose proof Ht as [Hc Hr Hi Hf]. apply wp_counters. unfold SchedulerCounters.decrement_runnable. wp_step. wp_step.
  unfold checked_sub. rewrite Hr, (proj2 (Z.leb_le _ _)) by lia. wp_step.
  eapply tally_insert; [done|lia|..].
  - intros event'. unfold SchedulerCounters.with_runnable. rewrite counter_with_fields. pose proof (Hc cpu event'). case_decide; [done|lia].
  - apply Hf.
  - intros cpu'. unfold bump. case_decide; subst; simpl; lia.
  - intros cpu'. case_decide; subst; [symmetry; apply Hi|done].
Qed.

Lemma observe_ready_delay_wp a cpu ready now : tally b r i a →
  (∀ t, ready = Some t → ∃ g, now = Some g ∧ t ≤ g) →
  wp (SchedulerAccounting.observe_ready_delay cpu ready now) a (λ _ a', tally b r i a') (λ _ _, False).
Proof.
  intros Ht Hready. pose proof Ht as [Hc Hr Hi Hf]. unfold SchedulerAccounting.observe_ready_delay.
  destruct ready as [t|]; [|by wp_step]. destruct (Hready t eq_refl) as (g & -> & Hle).
  apply wp_counters. unfold SchedulerCounters.observe_ready_delay. do 3 wp_step.
  apply wp_ok_or. unfold checked_sub. rewrite (proj2 (Z.leb_le _ _)) by lia. wp_step.
  eapply tally_insert; [done|lia|..].
  - intros event'. unfold SchedulerCounters.with_ready_delay. rewrite counter_with_fields. pose proof (Hc cpu event'). case_decide; [done|lia].
  - apply Hf.
  - intros cpu'. case_decide; subst; [symmetry; apply Hr|done].
  - intros cpu'. case_decide; subst; [symmetry; apply Hi|done].
Qed.

Lemma record_idle_time_wp a cpu elapsed : tally b r i a → i cpu + elapsed < 2 ^ 64 →
  wp (SchedulerAccounting.counters_mut cpu (SchedulerCounters.record_idle_time elapsed)) a
    (λ _ a', tally b r (bump cpu elapsed i) a') (λ _ _, False).
Proof.
  intros Ht Hb. pose proof Ht as [Hc Hr Hi Hf]. apply wp_counters. unfold SchedulerCounters.record_idle_time. wp_step. wp_step.
  unfold checked_add. rewrite Hi, (proj2 (Z.ltb_lt _ _)) by lia. wp_step.
  eapply tally_insert; [done|lia|..].
  - intros event'. unfold SchedulerCounters.with_idle_time. rewrite counter_with_fields. pose proof (Hc cpu event'). case_decide; [done|lia].
  - apply Hf.
  - intros cpu'. case_decide; subst; [symmetry; apply Hr|done].
  - intros cpu'. unfold bump. case_decide; subst; simpl; lia.
Qed.
End accounting.

Lemma account_or_wp cleanup (m : M SchedulerAccounting.t SchedulerError.t unit) s (Q : SchedulerAccounting.t → SchedulerState.t → Prop) R :
  wp m (accounting s) (λ _ a, Q a s) (λ _ _, False) → wp (account_or cleanup m) s Q R.
Proof. unfold wp, account_or, mbind, M_bind, get. by destruct (m (accounting s)). Qed.
