(* ===== verification/SchedulerInvariant.v ===== *)
(** * The invariant of the scheduler

    [sched_ok n s]: [s] is a state the scheduler may be in after [n] calls.
    It is stronger than what [check_invariants] looks at, and implies that
    the check passes. *)

From stdpp Require Import base tactics numbers list.
From Stdlib Require Import ZArith Lia.
From S2P Require Import Prelude Abi Object Cpu Wait Clock Deadline Timer LiveTime Scheduler SchedulerFacts.
Import SchedulerState.
Local Open Scope Z_scope.

Implicit Types (s : SchedulerState.t) (es : list QueueEntry) (e : QueueEntry) (cpu : CpuIndex.t) (thread : ThreadKey)
  (run : cpu_array (option RunningClaim)) (susp : cpu_array (option SuspendedContinuation)) (k : RunningClaim)
  (u : SuspendedContinuation).

Record entry_ok e : Prop := {
  eo_state : match q_state e with
    | SchedulerThreadState.Reserved => q_token e ≠ 0 ∧ q_enqueue_generation e = 0 ∧ q_continuation_cpu e = None
    | SchedulerThreadState.Runnable => q_token e = 0 ∧ q_enqueue_generation e ≠ 0 ∧
        (q_continuation_cpu e = None → q_migration_eligibility_generation e ≠ 0)
    | SchedulerThreadState.Blocked => q_token e ≠ 0 ∧ q_enqueue_generation e = 0
    | SchedulerThreadState.Running => False
    end;
  eo_block : match q_state e with
    | SchedulerThreadState.Blocked => is_Some (q_block_cpu e) ∧ q_block_execution_generation e ≠ 0
    | _ => q_block_cpu e = None ∧ q_block_execution_generation e = 0
    end;
  eo_continuation : match q_continuation_cpu e with
    | Some _ => q_continuation_generation e ≠ 0
    | None => q_continuation_generation e = 0
    end;
}.

(** [e] is the entry of the continuation [u] that [cpu] holds. *)
Definition continues cpu u e : Prop :=
  q_thread e = susp_thread u ∧ q_continuation_cpu e = Some cpu ∧ q_continuation_generation e = susp_generation u.

(** Every thread is in one place. *)
Record threads_ok es run susp : Prop := {
  th_queued : NoDup (q_thread <$> es);
  th_running cpu k : run !!! cpu = Some k → run_generation k ≠ 0 ∧ run_thread k ∉ (q_thread <$> es);
  th_once cpu cpu' k k' : run !!! cpu = Some k → run !!! cpu' = Some k' → run_thread k = run_thread k' → cpu = cpu';
  th_suspended cpu u : susp !!! cpu = Some u → susp_generation u ≠ 0 ∧
    (∀ cpu' k, run !!! cpu' = Some k → run_thread k ≠ susp_thread u) ∧
    match susp_publication u with
    | SuspendedPublication.Queued => ∃ e, e ∈ es ∧ continues cpu u e
    | SuspendedPublication.Retired => susp_thread u ∉ (q_thread <$> es)
    end;
  th_held cpu cpu' u u' : susp !!! cpu = Some u → susp !!! cpu' = Some u' → susp_thread u = susp_thread u' → cpu = cpu';
  th_entry e : e ∈ es → entry_ok e;
  th_continued e cpu : e ∈ es → q_continuation_cpu e = Some cpu →
    ∃ u, susp !!! cpu = Some u ∧ susp_thread u = q_thread e ∧ susp_publication u = SuspendedPublication.Queued;
}.

Definition pending_ok run (pending : cpu_array (option BlockWakeKey)) : Prop := ∀ cpu key, pending !!! cpu = Some key →
  wake_cpu key = cpu ∧ wake_token key ≠ 0 ∧
  run !!! cpu = Some {| run_thread := wake_thread key; run_generation := wake_execution_generation key |}.

Definition ticket_ok (domain : Z) run cpu (ticket : SchedulerQuantumTicket) : Prop :=
  ticket_domain ticket = domain ∧ ticket_cpu ticket = cpu ∧ ticket_source_arm_generation ticket ≠ 0 ∧
  ticket_deadline_ns ticket ≠ 0 ∧
  run !!! cpu = Some {| run_thread := ticket_thread ticket; run_generation := ticket_execution_generation ticket |}.

Record tickets_ok (domain : Z) run (quantum need : cpu_array (option SchedulerQuantumTicket)) : Prop := {
  ti_quantum cpu ticket : quantum !!! cpu = Some ticket → ticket_ok domain run cpu ticket;
  ti_need cpu ticket : need !!! cpu = Some ticket → ticket_ok domain run cpu ticket;
  ti_one cpu : quantum !!! cpu = None ∨ need !!! cpu = None;
}.

Record times_ok es (domain : Z) (idle : cpu_array (option SchedulerIdleAccountingToken)) (now : cpu_array (option Z))
    (global : option Z) (spent : CpuIndex.t → Z) : Prop := {
  tm_ready e t : e ∈ es → q_ready_at_ns e = Some t → ∃ g, global = Some g ∧ t ≤ g;
  tm_token cpu token : idle !!! cpu = Some token → idle_domain token = domain ∧ idle_cpu token = cpu ∧
    idle_generation token ≠ 0 ∧ spent cpu ≤ started_at_ns token ∧ ∃ t, now !!! cpu = Some t ∧ started_at_ns token ≤ t;
  tm_spent cpu : 0 ≤ spent cpu ≤ default 0 (now !!! cpu);
}.

(** The CPUs that run a thread. *)
Definition busy run : nat := length (omap id (cells run)).

(** How long each CPU has been idle. *)
Definition spent_idle s cpu : Z := SchedulerCounters.idle_time_ns (accounting s !!! cpu).

(** A counter that advances at most once in a call. *)
Definition minted (n x : Z) : Prop := 1 ≤ x ≤ n + 1.

Record generations_ok (n : Z) s : Prop := {
  ge_token : minted n (next_token s);
  ge_execution : minted n (next_execution_generation s);
  ge_enqueue : minted n (next_enqueue_generation s);
  ge_migration : minted n (next_migration_generation s);
  ge_eligibility : minted n (next_migration_eligibility_generation s);
  ge_idle : minted n (next_idle_generation s);
  ge_wake : minted n (next_wake_generation s);
  ge_completed : minted n (next_completed_switch_generation s);
  ge_quantum cpu : minted n (next_quantum_generation s !!! cpu);
}.

(** What is queued was enqueued before [next]. *)
Definition older (next : Z) es : Prop := Forall (λ e, q_enqueue_generation e < next) es.

Record sched_ok (n : Z) s : Prop := {
  so_shape : shape s (entries s);
  so_fits : Z.of_nat (length (queue s)) < 2 ^ 64;
  so_threads : threads_ok (entries s) (running s) (suspended s);
  so_pending : pending_ok (running s) (pending_block s);
  so_tickets : tickets_ok (domain s) (running s) (quantum s) (need_resched s);
  so_idle cpu : active_idle s !!! cpu = None ∨ running s !!! cpu = None;
  so_room : (length (entries s) + busy (running s) ≤ length (queue s))%nat;
  so_tally : tally (8 * n) (load (entries s)) (spent_idle s) (accounting s);
  so_times : times_ok (entries s) (domain s) (active_idle s) (instrumentation_now_ns s) (instrumentation_global_now_ns s)
    (spent_idle s);
  so_generations : generations_ok n s;
  so_order : older (next_enqueue_generation s) (entries s);
}.

(** ** The check passes *)

Lemma check_each_ok {A} (f : A → Result unit SchedulerError.t) xs : (∀ x, x ∈ xs → f x = Ok tt) → check_each f xs = Ok tt.
Proof.
  induction xs as [|x xs IH]; intros H; simpl; [done|]. rewrite H by (by left). simpl. apply IH.
  intros y Hy. apply H. by right.
Qed.

Lemma reject_if_ok b error : b = false → reject_if b error = Ok tt.
Proof. by intros ->. Qed.

Lemma existsb_false {A} (p : A → bool) xs : (∀ x, x ∈ xs → p x = false) → existsb p xs = false.
Proof.
  intros H. apply not_true_iff_false. intros (x & Hx%list_elem_of_In & Hp)%existsb_exists. by rewrite H in Hp.
Qed.

Lemma elem_of_take_cells {A} cpu (a : cpu_array A) x :
  x ∈ take (CpuIndex.index cpu) (cells a) → ∃ cpu', cpu' ≠ cpu ∧ a !!! cpu' = x.
Proof.
  unfold cells. rewrite <- fmap_take, list_elem_of_fmap. intros (cpu' & -> & Hin). exists cpu'. split; [|done].
  intros ->. unfold cpus in Hin. destruct cpu; cbn in Hin; rewrite ?elem_of_cons, ?elem_of_nil in Hin; intuition congruence.
Qed.

Lemma runs_ok run cpu thread generation : run !!! cpu = Some {| run_thread := thread; run_generation := generation |} →
  runs thread generation (run !!! cpu) = true.
Proof. intros ->. simpl. by rewrite bool_decide_true, Z.eqb_refl. Qed.

Section check.
Context (n : Z) (s : SchedulerState.t) (Hok : sched_ok n s).

Lemma check_pending_block_ok cpu : check_pending_block s cpu = Ok tt.
Proof using Hok.
  unfold check_pending_block. destruct (pending_block s !!! cpu) as [key|] eqn:Hp; [|done].
  destruct (so_pending _ _ Hok _ _ Hp) as (Hc & _ & Hr). apply reject_if_ok. rewrite bool_decide_true, (runs_ok _ _ _ _ Hr) by done.
  simpl. apply Z.eqb_neq. by destruct (th_running _ _ _ (so_threads _ _ Hok) _ _ Hr).
Qed.

Lemma check_running_ok cpu : check_running s cpu = Ok tt.
Proof using Hok.
  unfold check_running. destruct (running s !!! cpu) as [k|] eqn:Hr; [|done]. pose proof (so_threads _ _ Hok) as Ht.
  destruct (th_running _ _ _ Ht _ _ Hr) as [Hg Hni]. apply reject_if_ok. rewrite (proj2 (Z.eqb_neq _ _) Hg). simpl.
  apply orb_false_intro; apply existsb_false.
  - intros x (cpu' & Hne & <-)%elem_of_take_cells. destruct (running s !!! cpu') as [k'|] eqn:Hr'; [|done]. simpl.
    apply bool_decide_eq_false. intros Heq. destruct Hne. by eapply (th_once _ _ _ Ht).
  - intros e He. apply bool_decide_eq_false. intros Heq. apply Hni. rewrite <- Heq. apply list_elem_of_fmap. eauto.
Qed.

Lemma check_ticket_ok cpu ticket : (∀ t, ticket = Some t → ticket_ok (domain s) (running s) cpu t) →
  check_ticket s cpu ticket = Ok tt.
Proof using Hok.
  destruct ticket as [ticket|]; [|done]. intros Htk. destruct (Htk _ eq_refl) as (Hd & Hc & Hg & Hdl & Hr). simpl. apply reject_if_ok.
  rewrite Hd, Z.eqb_refl, bool_decide_true, (runs_ok _ _ _ _ Hr) by done. simpl.
  destruct (th_running _ _ _ (so_threads _ _ Hok) _ _ Hr) as [Hg' _]. simpl in Hg'.
  by rewrite !(proj2 (Z.eqb_neq _ _)) by done.
Qed.

Lemma check_quantum_ok cpu : check_quantum s cpu = Ok tt.
Proof using Hok.
  unfold check_quantum. pose proof (so_tickets _ _ Hok) as [Hq Hn Hone]. rewrite reject_if_ok; simpl.
  - rewrite !check_ticket_ok; [done|apply Hn|apply Hq].
  - destruct (Hone cpu) as [-> | ->]; [done|apply andb_false_r].
Qed.

Lemma find_queued thread e : e ∈ entries s → q_thread e = thread → find (of_thread thread) s = Some e.
Proof using Hok.
  intros He Hth. pose proof (so_shape _ _ Hok) as Hs. pose proof (th_queued _ _ _ (so_threads _ _ Hok)) as Hnd.
  destruct (find (of_thread thread) s) as [e'|] eqn:Hf.
  - destruct (sched_find_Some _ _ _ _ Hs Hf) as (i & Hi & Hp%bool_decide_eq_true & _).
    apply list_elem_of_lookup_1 in He as [j Hj].
    assert (i = j) as ->; [|congruence]. eapply (NoDup_lookup _ i j (q_thread e)); [exact Hnd|..]; rewrite list_lookup_fmap, ?Hi, ?Hj; simpl; congruence.
  - apply (sched_find_None _ _ _ Hs) in Hf. pose proof (position_None _ _ _ Hs Hf _ He) as Hp. apply bool_decide_eq_false in Hp. done.
Qed.

Lemma find_absent thread : thread ∉ (q_thread <$> entries s) → find (of_thread thread) s = None.
Proof using Hok.
  intros Hni. destruct (find (of_thread thread) s) as [e|] eqn:Hf; [|done].
  destruct (sched_find_Some _ _ _ _ (so_shape _ _ Hok) Hf) as (i & Hi%list_elem_of_lookup_2 & Hp%bool_decide_eq_true & _).
  destruct Hni. rewrite <- Hp. apply list_elem_of_fmap. eauto.
Qed.

Lemma check_suspended_ok cpu : check_suspended s cpu = Ok tt.
Proof using Hok.
  unfold check_suspended. destruct (suspended s !!! cpu) as [u|] eqn:Hu; [|done]. pose proof (so_threads _ _ Hok) as Ht.
  destruct (th_suspended _ _ _ Ht _ _ Hu) as (Hg & Hnr & Hpub). rewrite reject_if_ok; cbn [and_then].
  - destruct (susp_publication u).
    + destruct Hpub as (e & He & Hth & Hc & Hcg). rewrite (find_queued _ _ He Hth). simpl. rewrite Hc, Hcg.
      apply reject_if_ok. by rewrite bool_decide_true.
    + by rewrite (find_absent _ Hpub).
  - rewrite (proj2 (Z.eqb_neq _ _) Hg), orb_false_r. apply orb_false_intro; apply existsb_false.
    + intros x (cpu' & Hne & <-)%elem_of_take_cells. destruct (suspended s !!! cpu') as [u'|] eqn:Hu'; [|done]. simpl.
      apply bool_decide_eq_false. intros Heq. destruct Hne. by eapply (th_held _ _ _ Ht).
    + intros x (cpu' & <-)%elem_of_cells. destruct (running s !!! cpu') as [k|] eqn:Hr; [|done]. simpl.
      apply bool_decide_eq_false. by eapply Hnr.
Qed.

Lemma check_entry_ok item : item ∈ imap pair (queued s) → check_entry s item = Ok tt.
Proof using Hok.
  pose proof (so_shape _ _ Hok) as Hs. pose proof (so_threads _ _ Hok) as Ht. rewrite (queued_shape _ _ Hs).
  intros (i & Hi)%list_elem_of_lookup_1. rewrite list_lookup_imap, list_lookup_fmap in Hi.
  destruct (entries s !! i) as [e|] eqn:He; [|done]. injection Hi as <-.
  pose proof (list_elem_of_lookup_2 _ _ _ He) as Hin. destruct (th_entry _ _ _ Ht _ Hin) as [Hst Hbl Hco].
  assert (existsb (is_some_and (λ owner, bool_decide (susp_thread owner = q_thread e) &&
    bool_decide (susp_publication owner = SuspendedPublication.Queued))) (cells (suspended s)) = true ∨ q_continuation_cpu e = None) as Hcont.
  { destruct (q_continuation_cpu e) as [cpu|] eqn:Hc; [|by right]. left.
    destruct (th_continued _ _ _ Ht _ _ Hin Hc) as (u & Hu & Hth & Hp). apply existsb_exists. exists (Some u).
    split; [apply list_elem_of_In, elem_of_cells; eauto|]. simpl. by rewrite !bool_decide_true. }
  assert (existsb (claims (q_thread e)) (cells (running s)) ||
    existsb (of_thread (q_thread e)) (omap id (take i (queued s))) = false) as Hdup.
  { apply orb_false_intro; apply existsb_false.
    - intros x (cpu & <-)%elem_of_cells. destruct (running s !!! cpu) as [k|] eqn:Hr; [|done]. simpl.
      apply bool_decide_eq_false. intros Heq. destruct (th_running _ _ _ Ht _ _ Hr) as [_ Hni]. apply Hni. rewrite Heq.
      apply list_elem_of_fmap. eauto.
    - rewrite (queued_shape _ _ Hs), <- fmap_take, omap_Some. intros e' (j & Hj)%list_elem_of_lookup_1.
      apply lookup_take_Some in Hj as [Hj Hlt]. apply bool_decide_eq_false. intros Heq.
      assert (j = i); [|lia]. eapply (NoDup_lookup _ j i (q_thread e)); [apply (th_queued _ _ _ Ht)|..]; rewrite list_lookup_fmap, ?He, ?Hj; simpl; congruence. }
  unfold check_entry. cbv zeta. apply check_each_ok. intros x. rewrite !elem_of_cons, elem_of_nil. clear Hs Ht.
  intros [-> |[-> |[-> |[-> |[-> |[-> |[-> |[-> |[-> |[]]]]]]]]]]; unfold id; apply reject_if_ok; [..|exact Hdup].
  6: { destruct Hcont as [-> | ->]; [apply andb_false_r|done]. }
  all: unfold is_runnable; clear Hdup Hcont; destruct (q_state e); try done; destruct_and?; simpl;
    destruct (q_continuation_cpu e); simpl; try done;
    rewrite ?orb_false_iff, ?negb_false_iff, ?Z.eqb_neq, ?Z.eqb_eq; try done; eauto;
    repeat match goal with H : is_Some _ |- _ => destruct H as [? ->] | H : q_block_cpu _ = None |- _ => rewrite H end;
    try done; by rewrite (proj2 (Z.eqb_neq _ _)).
Qed.

Lemma check_accounting_ok cpu : check_accounting s cpu = Ok tt.
Proof using Hok.
  unfold check_accounting. pose proof (so_room _ _ Hok) as Hroom. pose proof (so_fits _ _ Hok) as Hfits. rewrite reject_if_ok; simpl.
  - apply reject_if_ok. destruct (so_idle _ _ Hok cpu) as [-> | ->]; [done|apply andb_false_r].
  - rewrite (ta_runnable _ _ _ _ (so_tally _ _ Hok)). fold (on_cpu cpu). pose proof (load_bounds (entries s) cpu) as Hb.
    unfold load in *. unfold truncate. rewrite Z.mod_small by lia. by rewrite Z.eqb_refl.
Qed.

Lemma check_invariants_ok : check_invariants s = Ok tt.
Proof using Hok.
  pose proof (so_shape _ _ Hok) as Hs. pose proof (so_generations _ _ Hok) as Hg. unfold check_invariants.
  apply check_each_ok. intros x. rewrite !elem_of_cons, elem_of_nil.
  intros [-> |[-> |[-> |[-> |[-> |[-> |[-> |[-> |[-> |[-> |[]]]]]]]]]]]; unfold id.
  - apply reject_if_ok, existsb_false. intros c (cpu & <-)%elem_of_cells. apply (ta_fault _ _ _ _ (so_tally _ _ Hok)).
  - apply reject_if_ok, Z.eqb_neq. pose proof (ge_completed _ _ Hg) as [? _]. lia.
  - apply reject_if_ok, Z.eqb_neq. pose proof (ge_wake _ _ Hg) as [? _]. lia.
  - apply reject_if_ok, orb_false_intro.
    + apply Nat.ltb_ge. rewrite (sh_len _ _ Hs). by apply shape_length.
    + rewrite (sh_queue _ _ Hs), (sh_len _ _ Hs). unfold cells_of. rewrite drop_app_length' by (by rewrite length_fmap).
      apply existsb_false. by intros ? [-> _]%elem_of_replicate.
  - apply check_each_ok. intros cpu _. apply check_pending_block_ok.
  - apply check_each_ok. intros cpu _. apply check_running_ok.
  - apply check_each_ok. intros cpu _. apply check_quantum_ok.
  - apply check_each_ok. intros cpu _. apply check_suspended_ok.
  - apply check_each_ok. apply check_entry_ok.
  - apply check_each_ok. intros cpu _. apply check_accounting_ok.
Qed.
End check.

Lemma assert_invariants_wp {E} n s (Q : unit → SchedulerState.t → Prop) (R : E → SchedulerState.t → Prop) :
  sched_ok n s → Q tt s → wp assert_invariants s Q R.
Proof. intros Hok HQ. unfold assert_invariants. do 2 wp_step. by rewrite (check_invariants_ok _ _ Hok). Qed.
