(* ===== verification/SchedulerMoves.v ===== *)
(** * Moves of threads

    The ways a thread goes from one place to another (queue, CPU, suspended
    continuation), each preserving that every thread is in one place.  The
    methods of the scheduler are composed of these. *)

From stdpp Require Import base tactics numbers list.
From Stdlib Require Import ZArith Lia.
From S2P Require Import Prelude Abi Object Cpu Wait Clock Deadline Timer LiveTime Scheduler SchedulerOps Carrier SchedulerSpec SchedulerFacts SchedulerInvariant.
Import SchedulerState.
Local Open Scope Z_scope.

Implicit Types (s : SchedulerState.t) (es : list QueueEntry) (e : QueueEntry) (cpu : CpuIndex.t) (thread : ThreadKey)
  (run : cpu_array (option RunningClaim)) (susp : cpu_array (option SuspendedContinuation)) (k : RunningClaim)
  (u : SuspendedContinuation).

(** Case analysis on the CPU of an updated cell. *)
Ltac cpu_cases :=
  repeat match goal with
  | H : context [<[_ := _]> _ !!! _] |- _ => rewrite cpu_lookup_insert in H
  | |- context [<[_ := _]> _ !!! _] => rewrite cpu_lookup_insert
  | H : context [decide (?a = ?b)] |- _ => destruct (decide (a = b)); first [subst a|subst b|idtac]
  | |- context [decide (?a = ?b)] => destruct (decide (a = b)); first [subst a|subst b|idtac]
  end; simplify_eq/=.

Lemma elem_of_threads thread es : thread ∈ (q_thread <$> es) ↔ ∃ e, e ∈ es ∧ q_thread e = thread.
Proof. rewrite list_elem_of_fmap. naive_solver. Qed.

Lemma elem_of_delete_thread es i e e' : NoDup (q_thread <$> es) → es !! i = Some e →
  e' ∈ delete i es ↔ e' ∈ es ∧ q_thread e' ≠ q_thread e.
Proof.
  intros Hnd Hi. rewrite <- (take_drop_middle es i e Hi) in Hnd |- *.
  rewrite delete_take_drop. rewrite fmap_app, fmap_cons in Hnd.
  assert (length (take i es) = i) as Hlen by (apply length_take_le; apply lookup_lt_Some in Hi; lia).
  rewrite take_app_length', drop_app_ge by lia. rewrite Hlen. replace (S i - i)%nat with 1%nat by lia. simpl. rewrite drop_0.
  apply NoDup_app in Hnd as (_ & Hd & [Hni _]%list.NoDup_cons). rewrite !elem_of_app, elem_of_cons. split.
  - intros [He'|He']; (split; [tauto|]); intros Heq.
    + apply (Hd (q_thread e')); [apply elem_of_threads; eauto|]. rewrite Heq. by left.
    + apply Hni. rewrite <- Heq. apply elem_of_threads. eauto.
  - intros [[?|[-> |?]] Hne]; [tauto|done|tauto].
Qed.

Lemma elem_of_insert_thread es i e e' e'' : NoDup (q_thread <$> es) → es !! i = Some e →
  e'' ∈ <[i := e']> es ↔ e'' = e' ∨ (e'' ∈ es ∧ q_thread e'' ≠ q_thread e).
Proof.
  intros Hnd Hi. rewrite <- (elem_of_delete_thread _ _ _ _ Hnd Hi).
  rewrite insert_take_drop, delete_take_drop by (by eapply lookup_lt_Some). rewrite !elem_of_app, elem_of_cons. tauto.
Qed.

Lemma NoDup_delete_threads es i : NoDup (q_thread <$> es) → NoDup (q_thread <$> delete i es).
Proof. intros Hnd. rewrite list_fmap_delete. eapply sublist_NoDup; [exact Hnd|apply sublist_delete]. Qed.

Lemma threads_insert es i e e' : es !! i = Some e → q_thread e' = q_thread e → q_thread <$> <[i := e']> es = q_thread <$> es.
Proof. intros Hi Hth. rewrite list_fmap_insert, Hth. apply list_insert_id. by rewrite list_lookup_fmap, Hi. Qed.

Lemma delete_insert_at {A} (l : list A) i x : delete i (<[i := x]> l) = delete i l.
Proof. revert i. induction l as [|y l IH]; intros [|i]; simpl; [done..|]. by rewrite IH. Qed.

Lemma delete_app_at {A} (l l' : list A) i : (i < length l)%nat → delete i (l ++ l') = delete i l ++ l'.
Proof. revert i. induction l as [|y l IH]; intros [|i]; simpl; intros; [lia..|done|]. rewrite IH by lia. done. Qed.

Section moves.
Context es run susp (Ht : threads_ok es run susp).

Lemma same_entry e e' : e ∈ es → e' ∈ es → q_thread e = q_thread e' → e = e'.
Proof using Ht.
  intros (i & Hi)%list_elem_of_lookup_1 (j & Hj)%list_elem_of_lookup_1 Heq.
  assert (i = j) as ->; [|congruence]. eapply (NoDup_lookup _ i j (q_thread e)); [apply Ht|..]; rewrite list_lookup_fmap, ?Hi, ?Hj; simpl; congruence.
Qed.

(** The continuation of a queued thread is held where its entry says. *)
Lemma held_entry cpu u e : susp !!! cpu = Some u → e ∈ es → q_thread e = susp_thread u → continues cpu u e ∧
  susp_publication u = SuspendedPublication.Queued.
Proof using Ht.
  intros Hu He Hth. destruct (th_suspended _ _ _ Ht _ _ Hu) as (_ & _ & Hp). destruct (susp_publication u).
  - destruct Hp as (e' & He' & Hc). assert (e = e') as ->; [|done]. apply same_entry; [done..|]. destruct Hc. congruence.
  - destruct Hp. apply elem_of_threads. eauto.
Qed.

(** A thread that has no continuation is not suspended. *)
Lemma free_entry cpu u e : susp !!! cpu = Some u → e ∈ es → q_continuation_cpu e = None → susp_thread u ≠ q_thread e.
Proof using Ht. intros Hu He Hc Heq. destruct (held_entry cpu u e) as [[_ [Hc' _]] _]; [done..|]. congruence. Qed.

Lemma threads_fresh e : q_thread e ∉ (q_thread <$> es) → (∀ cpu k, run !!! cpu = Some k → run_thread k ≠ q_thread e) →
  (∀ cpu u, susp !!! cpu = Some u → susp_thread u ≠ q_thread e) → entry_ok e → q_continuation_cpu e = None →
  threads_ok (es ++ [e]) run susp.
Proof using Ht.
  intros Hni Hr Hs He Hc. destruct Ht as [Hq Hru Ho Hsu Hh Hen Hco]. split; auto.
  - rewrite fmap_app. apply NoDup_app. split_and!; [done| |by apply NoDup_singleton]. by intros x Hx ->%list_elem_of_singleton.
  - intros cpu k Hk. destruct (Hru _ _ Hk) as [? Hnk]. split; [done|]. rewrite fmap_app, elem_of_app. intros [?|Hx%list_elem_of_singleton]; [done|].
    by eapply Hr.
  - intros cpu u Hu. destruct (Hsu _ _ Hu) as (? & ? & Hp). split_and!; [done..|]. destruct (susp_publication u).
    + destruct Hp as (e' & He' & ?). exists e'. rewrite elem_of_app. tauto.
    + rewrite fmap_app, elem_of_app. intros [?|Hx%list_elem_of_singleton]; [done|]. by eapply Hs.
  - intros e' [?| ->%list_elem_of_singleton]%elem_of_app; auto.
  - intros e' cpu [?| ->%list_elem_of_singleton]%elem_of_app ?; [eauto|congruence].
Qed.

Lemma threads_replace i e e' : es !! i = Some e → q_thread e' = q_thread e →
  q_continuation_cpu e' = q_continuation_cpu e → q_continuation_generation e' = q_continuation_generation e → entry_ok e' →
  threads_ok (<[i := e']> es) run susp.
Proof using Ht.
  intros Hi Hth Hc Hg He'. pose proof (list_elem_of_lookup_2 _ _ _ Hi) as He. pose proof Ht as [Hq Hru Ho Hsu Hh Hen Hco].
  pose proof (λ e'', elem_of_insert_thread es i e e' e'' Hq Hi) as Hin. split; rewrite ?(threads_insert _ _ _ _ Hi Hth); auto.
  - intros cpu u Hu. destruct (Hsu _ _ Hu) as (? & ? & Hp). split_and!; [done..|]. destruct (susp_publication u); [|done].
    destruct Hp as (e0 & He0 & Hc0). destruct (decide (q_thread e0 = q_thread e)) as [Heq|Hne].
    + assert (e0 = e) as -> by (by apply same_entry). exists e'. rewrite Hin. split; [by left|]. unfold continues in *. by rewrite Hth, Hc, Hg.
    + exists e0. rewrite Hin. auto.
  - intros e''. rewrite Hin. intros [-> |[? _]]; auto.
  - intros e'' cpu. rewrite Hin. intros [-> |[? _]]; [|eauto]. rewrite Hc, Hth. eauto.
Qed.

Lemma threads_remove i e : es !! i = Some e → q_continuation_cpu e = None → threads_ok (delete i es) run susp.
Proof using Ht.
  intros Hi Hc. pose proof (list_elem_of_lookup_2 _ _ _ Hi) as He. pose proof Ht as [Hq Hru Ho Hsu Hh Hen Hco].
  pose proof (λ e', elem_of_delete_thread es i e e' Hq Hi) as Hin.
  assert (∀ th, th ∉ (q_thread <$> es) → th ∉ (q_thread <$> delete i es)) as Hout.
  { intros th Hni. rewrite elem_of_threads. intros (e' & [He' _]%Hin & <-). apply Hni, elem_of_threads. eauto. }
  split; auto.
  - by apply NoDup_delete_threads.
  - intros cpu k Hk. destruct (Hru _ _ Hk). auto.
  - intros cpu u Hu. destruct (Hsu _ _ Hu) as (? & ? & Hp). split_and!; [done..|]. destruct (susp_publication u) eqn:Hpub; [|auto].
    destruct Hp as (e0 & He0 & Hc0). exists e0. rewrite Hin. split_and!; [done| |done]. intros Heq.
    assert (e0 = e) as -> by (by apply same_entry). destruct Hc0 as (_ & ? & _). congruence.
  - intros e' [? _]%Hin. auto.
  - intros e' cpu [? _]%Hin. eauto.
Qed.

Lemma threads_stop cpu : threads_ok es (<[cpu := None]> run) susp.
Proof using Ht.
  destruct Ht as [Hq Hru Ho Hsu Hh Hen Hco]. split; auto.
  - intros cpu' k Hk. cpu_cases. eauto.
  - intros cpu1 cpu2 k1 k2 H1 H2 ?. cpu_cases. eauto.
  - intros cpu' u Hu. destruct (Hsu _ _ Hu) as (? & ? & ?). split_and!; [done| |done]. intros cpu'' k Hk. cpu_cases. eauto.
Qed.

(** A thread that is nowhere starts to run. *)
Lemma threads_start cpu k : run !!! cpu = None → run_generation k ≠ 0 → run_thread k ∉ (q_thread <$> es) →
  (∀ cpu' k', run !!! cpu' = Some k' → run_thread k' ≠ run_thread k) →
  (∀ cpu' u, susp !!! cpu' = Some u → susp_thread u ≠ run_thread k) → threads_ok es (<[cpu := Some k]> run) susp.
Proof using Ht.
  intros Hn Hg Hni Hr Hs. destruct Ht as [Hq Hru Ho Hsu Hh Hen Hco]. split; auto.
  - intros cpu' k' Hk. cpu_cases; eauto.
  - intros cpu1 cpu2 k1 k2 H1 H2 Heq. cpu_cases; eauto; exfalso; by eapply Hr.
  - intros cpu' u Hu. destruct (Hsu _ _ Hu) as (? & ? & ?). split_and!; [done| |done]. intros cpu'' k' Hk. cpu_cases; eauto.
    intros Heq. by eapply Hs.
Qed.

(** A suspended continuation is replaced by a retired one, or set up. *)
Lemma threads_abandon cpu u : susp_generation u ≠ 0 → susp_publication u = SuspendedPublication.Retired →
  susp_thread u ∉ (q_thread <$> es) → (∀ cpu' k, run !!! cpu' = Some k → run_thread k ≠ susp_thread u) →
  (∀ cpu' u', cpu' ≠ cpu → susp !!! cpu' = Some u' → susp_thread u' ≠ susp_thread u) →
  (∀ e, e ∈ es → q_continuation_cpu e ≠ Some cpu) → threads_ok es run (<[cpu := Some u]> susp).
Proof using Ht.
  intros Hg Hp Hni Hr Hs Hc. destruct Ht as [Hq Hru Ho Hsu Hh Hen Hco]. split; auto.
  - intros cpu' u' Hu. cpu_cases; [|by apply Hsu]. by rewrite Hp.
  - intros cpu1 cpu2 u1 u2 H1 H2 Heq. cpu_cases; eauto; exfalso; (eapply Hs; [|done|]; congruence).
  - intros e cpu' He Hce. cpu_cases; [by destruct (Hc e)|]. eauto.
Qed.

Lemma threads_forget cpu : (∀ e, e ∈ es → q_continuation_cpu e ≠ Some cpu) → threads_ok es run (<[cpu := None]> susp).
Proof using Ht.
  intros Hc. destruct Ht as [Hq Hru Ho Hsu Hh Hen Hco]. split; auto.
  - intros cpu' u' Hu. cpu_cases. by apply Hsu.
  - intros cpu1 cpu2 u1 u2 H1 H2 Heq. cpu_cases. eauto.
  - intros e cpu' He Hce. cpu_cases; [by destruct (Hc e)|]. eauto.
Qed.

(** A running thread leaves its CPU and is queued with its continuation. *)
Lemma threads_leave cpu k u e : run !!! cpu = Some k → susp !!! cpu = None → susp_thread u = run_thread k →
  susp_generation u = run_generation k → susp_publication u = SuspendedPublication.Queued → continues cpu u e → entry_ok e →
  threads_ok (es ++ [e]) (<[cpu := None]> run) (<[cpu := Some u]> susp).
Proof using Ht.
  intros Hk Hn Hth Hg Hp Hc He. pose proof Ht as [Hq Hru Ho Hsu Hh Hen Hco]. destruct (Hru _ _ Hk) as [Hkg Hni].
  assert (q_thread e = run_thread k) as Hte by (destruct Hc; congruence). split.
  - rewrite fmap_app. apply NoDup_app. split_and!; [done| |by apply NoDup_singleton].
    intros x Hx ->%list_elem_of_singleton. by rewrite Hte in Hx.
  - intros cpu' k' Hk'. cpu_cases. destruct (Hru _ _ Hk') as [? Hnk]. split; [done|].
    rewrite fmap_app, elem_of_app. intros [?|Hx%list_elem_of_singleton]; [done|]. rewrite Hte in Hx. eauto.
  - intros cpu1 cpu2 k1 k2 H1 H2 ?. cpu_cases. eauto.
  - intros cpu' u' Hu. cpu_cases.
    + rewrite Hp, Hg. split_and!; [done| |exists e; split; [rewrite elem_of_app; right; by left|done]].
      intros cpu' k' Hk'. cpu_cases. rewrite Hth. intros Heq. eauto.
    + destruct (Hsu _ _ Hu) as (? & Hnr & Hp'). split_and!; [done|intros cpu'' k' Hk'; cpu_cases; eauto|].
      destruct (susp_publication u').
      * destruct Hp' as (e' & ? & ?). exists e'. rewrite elem_of_app. tauto.
      * rewrite fmap_app, elem_of_app. intros [?|Hx%list_elem_of_singleton]; [done|]. rewrite Hte in Hx. by eapply Hnr.
  - intros cpu1 cpu2 u1 u2 H1 H2 Heq. cpu_cases; eauto; exfalso;
      (match goal with H : susp !!! _ = Some _ |- _ => destruct (Hsu _ _ H) as (_ & Hnr & _) end; eapply Hnr; [exact Hk|congruence]).
  - intros e' [?| ->%list_elem_of_singleton]%elem_of_app; auto.
  - intros e' cpu' [He'| ->%list_elem_of_singleton]%elem_of_app Hce.
    + destruct (Hco _ _ He' Hce) as (u' & Hu' & ?). exists u'. cpu_cases; first [done|congruence].
    + destruct Hc as (? & Hce' & _). rewrite Hce' in Hce. injection Hce as <-. exists u. cpu_cases. split_and!; [done|congruence|done].
Qed.
End moves.

(** A queued thread without continuation is claimed by an empty CPU. *)
Lemma threads_claim es run susp i e cpu generation : threads_ok es run susp → es !! i = Some e → q_continuation_cpu e = None → run !!! cpu = None → generation ≠ 0 →
  threads_ok (delete i es) (<[cpu := Some {| run_thread := q_thread e; run_generation := generation |}]> run) susp.
Proof.
  intros Ht Hi Hc Hn Hg. pose proof (list_elem_of_lookup_2 _ _ _ Hi) as He. pose proof Ht as [Hq Hru _ _ _ _ _].
  apply threads_start; simpl; [by eapply threads_remove|done|done| | |].
  - rewrite elem_of_threads. intros (e' & [_ ?]%(elem_of_delete_thread _ _ _ _ Hq Hi) & ?). done.
  - intros cpu' k' Hk' Heq. destruct (Hru _ _ Hk') as [_ Hni]. apply Hni. rewrite Heq. apply elem_of_threads. eauto.
  - intros cpu' u Hu. by eapply free_entry.
Qed.

Section composed.
Context es run susp (Ht : threads_ok es run susp).

(** A running thread is queued and a queued one takes its place. *)
Lemma threads_switch i e cpu k u e' generation : es !! i = Some e → q_continuation_cpu e = None → run !!! cpu = Some k →
  susp !!! cpu = None → susp_thread u = run_thread k → susp_generation u = run_generation k →
  susp_publication u = SuspendedPublication.Queued → continues cpu u e' → entry_ok e' → generation ≠ 0 →
  threads_ok (delete i es ++ [e']) (<[cpu := Some {| run_thread := q_thread e; run_generation := generation |}]> run)
    (<[cpu := Some u]> susp).
Proof using Ht.
  intros Hi Hc Hk Hn Hth Hg Hp Hcont He' Hg'. pose proof (threads_leave _ _ _ Ht cpu k u e' Hk Hn Hth Hg Hp Hcont He') as Hl.
  assert ((es ++ [e']) !! i = Some e) as Hi' by (by apply lookup_app_l_Some).
  pose proof (threads_claim _ _ _ i e cpu generation Hl Hi' Hc (cpu_lookup_insert_eq _ _ _) Hg') as Hr.
  by rewrite cpu_insert_insert, delete_app_at in Hr by (by eapply lookup_lt_Some).
Qed.

(** A running thread ends. *)
Lemma threads_retire cpu k u : run !!! cpu = Some k → susp !!! cpu = None → susp_thread u = run_thread k →
  susp_generation u = run_generation k → susp_publication u = SuspendedPublication.Retired →
  threads_ok es (<[cpu := None]> run) (<[cpu := Some u]> susp).
Proof using Ht.
  intros Hk Hn Hth Hg Hp. pose proof Ht as [Hq Hru Ho Hsu Hh Hen Hco]. destruct (Hru _ _ Hk) as [Hkg Hni].
  apply threads_abandon; [by apply threads_stop|congruence|done|congruence| | |].
  - intros cpu' k' Hk' Heq. cpu_cases. rewrite Hth in Heq. eauto.
  - intros cpu' u' Hne Hu'. destruct (Hsu _ _ Hu') as (_ & Hnr & _). rewrite Hth. intros Heq. by eapply Hnr.
  - intros e He Hce. destruct (Hco _ _ He Hce) as (? & ? & _). congruence.
Qed.

(** What holds a continuation is the only one to. *)
Lemma only_holder i e cpu u e' : susp !!! cpu = Some u → es !! i = Some e → q_thread e = susp_thread u →
  e' ∈ delete i es → q_continuation_cpu e' ≠ Some cpu.
Proof using Ht.
  intros Hu Hi Hth [He' Hne]%(elem_of_delete_thread _ _ _ _ (th_queued _ _ _ Ht) Hi) Hce.
  destruct (th_continued _ _ _ Ht _ _ He' Hce) as (u' & Hu' & ? & _). congruence.
Qed.

(** The entry of a suspended thread goes, and its continuation is marked. *)
Lemma threads_retire_held i e cpu u u' : susp !!! cpu = Some u → es !! i = Some e → q_thread e = susp_thread u →
  susp_thread u' = susp_thread u → susp_generation u' ≠ 0 → susp_publication u' = SuspendedPublication.Retired →
  threads_ok (delete i es) run (<[cpu := Some u']> susp).
Proof using Ht.
  intros Hu Hi Hth Hth' Hg Hp. pose proof (list_elem_of_lookup_2 _ _ _ Hi) as He. pose proof Ht as [Hq Hru Ho Hsu Hh Hen Hco].
  pose proof (λ e', elem_of_delete_thread es i e e' Hq Hi) as Hin. split.
  - by apply NoDup_delete_threads.
  - intros cpu' k Hk. destruct (Hru _ _ Hk) as [? Hni]. split; [done|]. rewrite elem_of_threads. intros (e' & [He' _]%Hin & Heq).
    apply Hni, elem_of_threads. eauto.
  - done.
  - intros cpu' u0 Hu0. cpu_cases.
    + rewrite Hp. split_and!; [done|rewrite Hth'; by apply (Hsu _ _ Hu)|]. rewrite elem_of_threads. intros (e' & [_ ?]%Hin & ?). congruence.
    + destruct (Hsu _ _ Hu0) as (? & ? & Hp0). split_and!; [done..|]. destruct (susp_publication u0).
      * destruct Hp0 as (e' & He' & Hc'). exists e'. rewrite Hin. split_and!; [done| |done]. intros Heq.
        assert (cpu' = cpu); [|done]. eapply Hh; [done..|]. destruct Hc'. congruence.
      * rewrite elem_of_threads. intros (e' & [He' _]%Hin & Heq). apply Hp0, elem_of_threads. eauto.
  - intros cpu1 cpu2 u1 u2 H1 H2 Heq. cpu_cases; eauto; exfalso; rewrite Hth' in Heq;
      match goal with H : ?a ≠ ?b |- _ => apply H; eapply Hh; [done..|congruence] end.
  - intros e' [? _]%Hin. auto.
  - intros e' cpu' He' Hce. cpu_cases; [by destruct (only_holder i e cpu u e')|]. apply Hin in He' as [He' _]. eauto.
Qed.

(** The continuation of a queued thread is released. *)
Lemma threads_release i e e' cpu u : susp !!! cpu = Some u → es !! i = Some e → q_thread e = susp_thread u →
  q_thread e' = q_thread e → q_continuation_cpu e' = None → entry_ok e' →
  threads_ok (<[i := e']> es) run (<[cpu := None]> susp).
Proof using Ht.
  intros Hu Hi Hth Hth' Hc He'. pose proof (list_elem_of_lookup_2 _ _ _ Hi) as He. pose proof Ht as [Hq Hru Ho Hsu Hh Hen Hco].
  pose proof (λ e'', elem_of_insert_thread es i e e' e'' Hq Hi) as Hin.
  split; rewrite ?(threads_insert _ _ _ _ Hi Hth'); auto.
  - intros cpu' u0 Hu0. cpu_cases. destruct (Hsu _ _ Hu0) as (? & ? & Hp0). split_and!; [done..|]. destruct (susp_publication u0); [|done].
    destruct Hp0 as (e0 & He0 & Hc0). exists e0. rewrite Hin. split; [|done]. right. split; [done|]. intros Heq.
    assert (cpu' = cpu); [|done]. eapply Hh; [done..|]. destruct Hc0. congruence.
  - intros cpu1 cpu2 u1 u2 H1 H2 Heq. cpu_cases. eauto.
  - intros e'' [-> |[? _]]%Hin; auto.
  - intros e'' cpu' [-> |[He'' Hne]]%Hin Hce; [congruence|]. destruct (Hco _ _ He'' Hce) as (u' & Hu' & Hth'' & ?). exists u'.
    cpu_cases; first [done|congruence].
Qed.

(** A suspended thread resumes on the CPU that holds its continuation. *)
Lemma threads_resume i e cpu u generation : susp !!! cpu = Some u → es !! i = Some e → q_thread e = susp_thread u →
  run !!! cpu = None → generation ≠ 0 →
  threads_ok (delete i es) (<[cpu := Some {| run_thread := q_thread e; run_generation := generation |}]> run) (<[cpu := None]> susp).
Proof using Ht.
  intros Hu Hi Hth Hn Hg. pose proof (list_elem_of_lookup_2 _ _ _ Hi) as He. pose proof Ht as [Hq Hru Ho Hsu Hh Hen Hco].
  assert (threads_ok (delete i es) run (<[cpu := None]> susp)) as Ht'.
  { set (e0 := {| q_thread := q_thread e; q_state := SchedulerThreadState.Reserved; q_token := 1; q_started_execution_generation := 0;
      q_block_cpu := None; q_block_execution_generation := 0; q_continuation_cpu := None; q_continuation_generation := 0;
      q_target_cpu := cpu; q_last_cpu := None; q_eligibility_mask := 0; q_enqueue_generation := 0; q_migration_generation := 0;
      q_migration_eligibility_generation := 0; q_ready_at_ns := None |}).
    assert (threads_ok (<[i := e0]> es) run (<[cpu := None]> susp)) as Hr by (by eapply (threads_release i e e0 cpu u)).
    rewrite <- (delete_insert_at es i e0). eapply (threads_remove _ _ _ Hr _ e0); [|done]. apply list_lookup_insert_eq. by eapply lookup_lt_Some. }
  apply threads_start; simpl; [done..| | |].
  - rewrite elem_of_threads. intros (e' & [_ ?]%(elem_of_delete_thread _ _ _ _ Hq Hi) & ?). done.
  - intros cpu' k' Hk'. rewrite Hth. by eapply (Hsu _ _ Hu).
  - intros cpu' u' Hu' Heq. cpu_cases. assert (cpu' = cpu); [|done]. eapply Hh; [done..|congruence].
Qed.
End composed.

(** ** The life of a thread *)

Definition runs_on run thread : option CpuIndex.t := snd <$> list_find (λ cpu, claims thread (run !!! cpu)) cpus.

Definition queued_as es thread : option ThreadLife.t :=
  entry_life <$> (snd <$> list_find (λ e, of_thread thread e) es).

(** What [life] answers. *)
Definition status es run (pend : cpu_array (option BlockWakeKey)) thread : option ThreadLife.t :=
  match runs_on run thread with
  | Some cpu => (λ k, ThreadLife.Running cpu (run_generation k) (wake_token <$> pend !!! cpu)) <$> run !!! cpu
  | None => queued_as es thread
  end.

Lemma runs_on_Some run thread cpu : runs_on run thread = Some cpu → ∃ k, run !!! cpu = Some k ∧ run_thread k = thread.
Proof.
  unfold runs_on. destruct (list_find _ cpus) as [[j c]|] eqn:Hf; [|done]. intros [= ->].
  apply list_find_Some in Hf as (_ & Hc%Is_true_true & _). destruct (run !!! cpu) as [k|]; [|done]. exists k.
  split; [done|]. by apply bool_decide_eq_true in Hc.
Qed.

Lemma runs_nowhere_spec run thread : runs_on run thread = None ↔ ∀ cpu k, run !!! cpu = Some k → run_thread k ≠ thread.
Proof.
  unfold runs_on. destruct (list_find _ cpus) as [[j c]|] eqn:Hf; simpl.
  - split; [done|]. intros Hn. assert (runs_on run thread = Some c) as (k & Hk & Hth)%runs_on_Some by (unfold runs_on; by rewrite Hf).
    by destruct (Hn c k Hk).
  - split; [|done]. intros _ cpu k Hk Heq. apply list_find_None in Hf. rewrite list.Forall_forall in Hf.
    apply (Hf cpu (elem_of_cpus cpu)), Is_true_true. rewrite Hk. by apply bool_decide_eq_true.
Qed.

Lemma queued_as_Some es thread e : NoDup (q_thread <$> es) → e ∈ es → q_thread e = thread → queued_as es thread = Some (entry_life e).
Proof.
  intros Hnd (j & Hj)%list_elem_of_lookup_1 Hth. unfold queued_as. destruct (list_find _ es) as [[i e']|] eqn:Hf.
  - apply list_find_Some in Hf as (Hi & Hp%Is_true_true%bool_decide_eq_true & _). simpl.
    assert (i = j) as ->; [|congruence]. eapply (NoDup_lookup _ i j thread); [exact Hnd|..]; rewrite list_lookup_fmap, ?Hi, ?Hj; simpl; congruence.
  - apply list_find_None in Hf. rewrite list.Forall_forall in Hf. destruct (Hf e (list_elem_of_lookup_2 _ _ _ Hj)).
    apply Is_true_true. by apply bool_decide_eq_true.
Qed.

Lemma queued_as_None es thread : thread ∉ (q_thread <$> es) → queued_as es thread = None.
Proof.
  intros Hni. unfold queued_as. destruct (list_find _ es) as [[i e]|] eqn:Hf; [|done].
  apply list_find_Some in Hf as (Hi%list_elem_of_lookup_2 & Hp%Is_true_true%bool_decide_eq_true & _).
  destruct Hni. apply elem_of_threads. eauto.
Qed.

Section status.
Context es run susp (Ht : threads_ok es run susp).

Lemma status_running pend cpu k : run !!! cpu = Some k →
  status es run pend (run_thread k) = Some (ThreadLife.Running cpu (run_generation k) (wake_token <$> pend !!! cpu)).
Proof using Ht.
  intros Hk. unfold status. destruct (runs_on run (run_thread k)) as [c|] eqn:Hr.
  - apply runs_on_Some in Hr as (k' & Hk' & Heq). assert (c = cpu) as -> by (by eapply (th_once _ _ _ Ht)). by rewrite Hk.
  - by destruct (proj1 (runs_nowhere_spec _ _) Hr cpu k Hk).
Qed.

Lemma not_running e : e ∈ es → runs_on run (q_thread e) = None.
Proof using Ht.
  intros He. apply runs_nowhere_spec. intros cpu k Hk Heq. destruct (th_running _ _ _ Ht _ _ Hk) as [_ Hni].
  apply Hni, elem_of_threads. eauto.
Qed.

Lemma status_queued pend e : e ∈ es → status es run pend (q_thread e) = Some (entry_life e).
Proof using Ht. intros He. unfold status. rewrite (not_running e He). apply queued_as_Some; [apply Ht|done..]. Qed.

Lemma status_absent pend thread : thread ∉ (q_thread <$> es) → (∀ cpu k, run !!! cpu = Some k → run_thread k ≠ thread) →
  status es run pend thread = None.
Proof. intros Hni Hr. unfold status. rewrite (proj2 (runs_nowhere_spec _ _) Hr). by apply queued_as_None. Qed.
End status.

(** The life of a thread depends on where it is only. *)
Lemma status_same es es' run run' susp susp' pend pend' thread : threads_ok es run susp → threads_ok es' run' susp' →
  (∀ e, q_thread e = thread → e ∈ es' ↔ e ∈ es) →
  (∀ cpu k, run_thread k = thread → run' !!! cpu = Some k ↔ run !!! cpu = Some k) →
  (∀ cpu k, run_thread k = thread → run !!! cpu = Some k → pend' !!! cpu = pend !!! cpu) →
  status es' run' pend' thread = status es run pend thread.
Proof.
  intros Ht Ht' Hes Hrun Hpend. destruct (runs_on run thread) as [cpu|] eqn:Hr.
  - apply runs_on_Some in Hr as (k & Hk & <-). rewrite (status_running _ _ _ Ht _ _ _ Hk), (status_running _ _ _ Ht' _ cpu k) by (by apply Hrun).
    by rewrite (Hpend cpu k).
  - pose proof (proj1 (runs_nowhere_spec _ _) Hr) as Hno. assert (∀ cpu k, run' !!! cpu = Some k → run_thread k ≠ thread) as Hno'.
    { intros cpu k Hk Heq. by apply (Hno cpu k), Heq; apply Hrun. }
    destruct (decide (thread ∈ (q_thread <$> es))) as [(e & He & <-)%elem_of_threads|Hni].
    + rewrite (status_queued _ _ _ Ht _ _ He), (status_queued _ _ _ Ht'); [done|by apply Hes].
    + rewrite !status_absent; [done..| |done]. intros (e & He & Hth)%elem_of_threads. apply Hni, elem_of_threads. exists e.
      split; [by apply Hes|done].
Qed.

(** The threads whose life two places differ in are among [ths]. *)
Lemma status_differs es run susp es' run' susp' pend pend' (ths : list ThreadKey) thread :
  threads_ok es run susp → threads_ok es' run' susp' → (∀ e, (q_thread e ∉ ths) → e ∈ es' ↔ e ∈ es) →
  (∀ cpu, run' !!! cpu = run !!! cpu ∧ pend' !!! cpu = pend !!! cpu ∨
    (∀ k, run' !!! cpu = Some k → run_thread k ∈ ths) ∧ (∀ k, run !!! cpu = Some k → run_thread k ∈ ths)) →
  (thread ∉ ths) → status es' run' pend' thread = status es run pend thread.
Proof.
  intros Ht Ht' Hes Hrun Hth. eapply status_same; [exact Ht|exact Ht'|intros e <-; by apply Hes| |].
  - intros cpu k <-. destruct (Hrun cpu) as [[-> _]|[H1 H2]]; [done|]. split; intros Hk; destruct Hth; eauto.
  - intros cpu k <- Hk. destruct (Hrun cpu) as [[_ ->]|[H1 H2]]; [done|]. destruct Hth; eauto.
Qed.
