(* ===== verification/SchedulerSteps.v ===== *)
(** * One call of the scheduler

    What the proofs of all methods share: how a call re-establishes the
    invariant, how each part of it is kept, and the helpers that claim a
    thread for a CPU and pull one from another. *)

From stdpp Require Import base tactics numbers list.
From Stdlib Require Import ZArith Lia.
From S2P Require Import Prelude Abi Object Cpu Wait Clock Deadline Timer LiveTime Scheduler SchedulerOps Carrier SchedulerSpec SchedulerFacts SchedulerInvariant SchedulerMoves.
Import SchedulerState.
Local Open Scope Z_scope.

Implicit Types (s : SchedulerState.t) (es : list QueueEntry) (e : QueueEntry) (cpu : CpuIndex.t) (thread : ThreadKey)
  (run : cpu_array (option RunningClaim)) (susp : cpu_array (option SuspendedContinuation)) (k : RunningClaim)
  (u : SuspendedContinuation).

Lemma is_none_true {A} (o : option A) : is_none o = true ↔ o = None.
Proof. by destruct o. Qed.

(** ** The parts of the invariant *)

Lemma shape_ext s s' es : queue s' = queue s → len s' = len s → shape s es → shape s' es.
Proof. intros Hq Hl [??]. split; congruence. Qed.

Lemma shape_cells n s es : queue s = cells_of n es → len s = length es → (length es ≤ n)%nat → shape s es.
Proof. intros Hq Hl Hn. split; [|done]. by rewrite Hq, length_cells_of. Qed.

Lemma minted_weaken n n' x : minted n x → n ≤ n' → minted n' x.
Proof. unfold minted. lia. Qed.

Lemma minted_nonzero n x : minted n x → x ≠ 0.
Proof. unfold minted. lia. Qed.

Lemma minted_next n x : minted n x → minted (n + 1) (x + 1).
Proof. unfold minted. lia. Qed.

Lemma next_minted n x : minted n x → 8 * (n + 1) < 2 ^ 64 → next_nonzero 64 x = Some (x + 1).
Proof. unfold minted. intros ??. rewrite next_nonzero_spec, (proj2 (Z.ltb_lt _ _)) by lia. done. Qed.

Lemma generations_weaken n n' s : generations_ok n s → n ≤ n' → generations_ok n' s.
Proof. intros [] ?. split; intros; eapply minted_weaken; eauto. Qed.

Lemma sched_ok_weaken n n' s : sched_ok n s → n ≤ n' → sched_ok n' s.
Proof.
  intros [] ?. split; [done..| |done| |done]; [eapply tally_ext; [done|lia|done..]|by eapply generations_weaken].
Qed.

(** What a call has to establish, from what held before. *)
Lemma sched_step n s s' es spent : sched_ok n s → length (queue s') = length (queue s) → domain s' = domain s → shape s' es →
  threads_ok es (running s') (suspended s') → pending_ok (running s') (pending_block s') →
  tickets_ok (domain s) (running s') (quantum s') (need_resched s') →
  (∀ cpu, active_idle s' !!! cpu = None ∨ running s' !!! cpu = None) →
  (length es + busy (running s') ≤ length (queue s))%nat →
  tally (8 * n + 8) (load es) spent (accounting s') →
  times_ok es (domain s) (active_idle s') (instrumentation_now_ns s') (instrumentation_global_now_ns s') spent →
  generations_ok (n + 1) s' → older (next_enqueue_generation s') es → sched_ok (n + 1) s'.
Proof.
  intros Hok Hq Hd Hs Hth Hp Ht Hi Hr Hta [Htr Htt Hts] Hg Ho.
  assert (∀ cpu, spent_idle s' cpu = spent cpu) as Hsp by (intros; apply (ta_idle _ _ _ _ Hta)).
  split; rewrite ?(entries_shape _ _ Hs), ?Hq, ?Hd; try done.
  - apply (so_fits _ _ Hok).
  - eapply tally_ext; [done|lia|done|done].
  - split; [done|intros cpu token; rewrite Hsp; apply Htt|intros cpu; rewrite Hsp; apply Hts].
Qed.

Lemma pending_run run pending cpu x : pending_ok run pending → pending !!! cpu = None → pending_ok (<[cpu := x]> run) pending.
Proof. intros Hp Hn cpu' key Hk. destruct (Hp _ _ Hk) as (? & ? & ?). cpu_cases. done. Qed.

Lemma pending_clear run pending cpu : pending_ok run pending → pending_ok run (<[cpu := None]> pending).
Proof. intros Hp cpu' key Hk. cpu_cases. by apply Hp. Qed.

Lemma tickets_run d run quantum need cpu x : tickets_ok d run quantum need → quantum !!! cpu = None → need !!! cpu = None →
  tickets_ok d (<[cpu := x]> run) quantum need.
Proof.
  intros [Hq Hn Ho] Hqn Hnn. split; [..|done]; unfold ticket_ok in *.
  - intros cpu' ticket Ht. destruct (Hq _ _ Ht) as (? & ? & ? & ? & ?). cpu_cases. done.
  - intros cpu' ticket Ht. destruct (Hn _ _ Ht) as (? & ? & ? & ? & ?). cpu_cases. done.
Qed.

Lemma tickets_clear d run quantum need cpu : tickets_ok d run quantum need →
  tickets_ok d run (<[cpu := None]> quantum) (<[cpu := None]> need).
Proof.
  intros [Hq Hn Ho]. split.
  - intros cpu' ticket Ht. cpu_cases. by apply Hq.
  - intros cpu' ticket Ht. cpu_cases. by apply Hn.
  - intros cpu'. cpu_cases; auto.
Qed.

Lemma tickets_unneed d run quantum need cpu : tickets_ok d run quantum need → tickets_ok d run quantum (<[cpu := None]> need).
Proof.
  intros [Hq Hn Ho]. split; [done|..].
  - intros cpu' ticket Ht. cpu_cases. by apply Hn.
  - intros cpu'. cpu_cases; auto.
Qed.

Lemma tickets_arm d run quantum need cpu ticket : tickets_ok d run quantum need → ticket_ok d run cpu ticket → need !!! cpu = None →
  tickets_ok d run (<[cpu := Some ticket]> quantum) need.
Proof.
  intros [Hq Hn Ho] Ht Hnn. split; [|done|].
  - intros cpu' ticket' Ht'. cpu_cases; [done|by apply Hq].
  - intros cpu'. cpu_cases; auto.
Qed.

Lemma tickets_expire d run quantum need cpu ticket : tickets_ok d run quantum need → quantum !!! cpu = Some ticket →
  tickets_ok d run (<[cpu := None]> quantum) (<[cpu := Some ticket]> need).
Proof.
  intros [Hq Hn Ho] Ht. split.
  - intros cpu' ticket' Ht'. cpu_cases. by apply Hq.
  - intros cpu' ticket' Ht'. cpu_cases; [by apply Hq|by apply Hn].
  - intros cpu'. cpu_cases; auto.
Qed.

(** Nothing is pending on a CPU that runs nothing. *)
Lemma idle_pending n s cpu : sched_ok n s → running s !!! cpu = None → pending_block s !!! cpu = None.
Proof.
  intros Hok Hr. destruct (pending_block s !!! cpu) eqn:Hp; [|done]. destruct (so_pending _ _ Hok _ _ Hp) as (_ & _ & ?). congruence.
Qed.

Lemma idle_quantum n s cpu : sched_ok n s → running s !!! cpu = None → quantum s !!! cpu = None.
Proof.
  intros Hok Hr. destruct (quantum s !!! cpu) eqn:Hp; [|done].
  destruct (ti_quantum _ _ _ _ (so_tickets _ _ Hok) _ _ Hp) as (_ & _ & _ & _ & ?). congruence.
Qed.

Lemma idle_need n s cpu : sched_ok n s → running s !!! cpu = None → need_resched s !!! cpu = None.
Proof.
  intros Hok Hr. destruct (need_resched s !!! cpu) eqn:Hp; [|done].
  destruct (ti_need _ _ _ _ (so_tickets _ _ Hok) _ _ Hp) as (_ & _ & _ & _ & ?). congruence.
Qed.

Definition occupied (x : option RunningClaim) : nat := match x with Some _ => 1 | None => 0 end.

Lemma busy_run run cpu x : (busy (<[cpu := x]> run) + occupied (run !!! cpu) = busy run + occupied x)%nat.
Proof.
  destruct run as [r0 r1 r2 r3]. unfold busy, cells, cpus. destruct cpu; cbn; destruct r0, r1, r2, r3, x; cbn; lia.
Qed.

(** The entry became ready at a time that has been observed. *)
Definition timely (global : option Z) e : Prop := ∀ t, q_ready_at_ns e = Some t → ∃ g, global = Some g ∧ t ≤ g.

Section times.
Context es (d : Z) (idle : cpu_array (option SchedulerIdleAccountingToken)) (now : cpu_array (option Z)) (global : option Z)
  (spent : CpuIndex.t → Z) (Ht : times_ok es d idle now global spent).

Lemma times_entry e : e ∈ es → timely global e.
Proof using Ht. intros He t Hr. by apply (tm_ready _ _ _ _ _ _ Ht e). Qed.

Lemma times_push e : timely global e → times_ok (es ++ [e]) d idle now global spent.
Proof using Ht.
  intros He. destruct Ht. split; [|done..]. intros e' t [?| ->%list_elem_of_singleton]%elem_of_app; [eauto|apply He].
Qed.

Lemma times_delete i : times_ok (delete i es) d idle now global spent.
Proof using Ht.
  destruct Ht. split; [|done..]. intros e t He. assert (e ∈ es); [|eauto].
  eapply elem_of_submseteq; [exact He|]. apply sublist_submseteq, sublist_delete.
Qed.

Lemma times_insert i e : timely global e → times_ok (<[i := e]> es) d idle now global spent.
Proof using Ht.
  intros He. destruct Ht. split; [|done..]. intros e' t (j & Hj)%list_elem_of_lookup_1.
  apply list_lookup_insert_Some in Hj as [(_ & -> & _)|[_ Hj%list_elem_of_lookup_2]]; [apply He|eauto].
Qed.
End times.

Lemma timely_never global e : q_ready_at_ns e = None → timely global e.
Proof. intros He t Ht. congruence. Qed.

Lemma timely_now global e : q_ready_at_ns e = global → timely global e.
Proof. intros <- t ->. eauto with lia. Qed.

Ltac times :=
  repeat lazymatch goal with
  | |- times_ok (_ ++ [_]) _ _ _ _ _ => apply times_push
  | |- times_ok (delete _ _) _ _ _ _ _ => apply times_delete
  | |- times_ok (<[_ := _]> _) _ _ _ _ _ => apply times_insert
  end;
  match goal with
  | Hok : sched_ok _ _ |- times_ok _ _ _ _ _ _ => exact (so_times _ _ Hok)
  | |- timely _ _ => first [by apply timely_never|by apply timely_now]
  end.

(** ** Enqueue generations *)

Lemma older_mono next next' es : older next es → next ≤ next' → older next' es.
Proof. intros Ho Hle. eapply Forall_impl; [exact Ho|]. cbn. lia. Qed.

Lemma older_push next es e : older next es → q_enqueue_generation e < next → older next (es ++ [e]).
Proof. intros Ho He. apply Forall_app. split; [done|]. by apply Forall_singleton. Qed.

Lemma older_delete next es i : older next es → older next (delete i es).
Proof. apply Forall_delete. Qed.

Lemma older_insert next es i e : older next es → q_enqueue_generation e < next → older next (<[i := e]> es).
Proof. intros Ho He. by apply Forall_insert. Qed.

Lemma older_lookup next es i e : older next es → es !! i = Some e → q_enqueue_generation e < next.
Proof. intros Ho He. exact (Forall_lookup_1 _ _ _ _ Ho He). Qed.

Ltac ordered :=
  match goal with Hok : sched_ok _ _ |- _ =>
    pose proof (ge_enqueue _ _ (so_generations _ _ Hok));
    cbn; repeat lazymatch goal with
    | |- older _ (_ ++ [_]) => apply older_push
    | |- older _ (delete _ _) => apply older_delete
    | |- older _ (<[_ := _]> _) => apply older_insert
    end;
    lazymatch goal with
    | |- older _ _ => eapply older_mono; [first [eassumption|exact (so_order _ _ Hok)]|cbn; lia]
    | |- _ < _ =>
        try match goal with Hi : entries _ !! _ = Some _ |- _ => pose proof (older_lookup _ _ _ _ (so_order _ _ Hok) Hi) end;
        unfold minted in *; cbn; lia
    end
  end.

(** ** Loads after a change of the queue *)

Lemma on_cpu_runnable cpu e : is_runnable e = true → on_cpu cpu e = bool_decide (q_target_cpu e = cpu).
Proof. unfold on_cpu. by intros ->. Qed.

Lemma on_cpu_other cpu e : is_runnable e = false → on_cpu cpu e = false.
Proof. unfold on_cpu. by intros ->. Qed.

Lemma load_disjoint es cpu cpu' : cpu ≠ cpu' → load es cpu + load es cpu' ≤ Z.of_nat (length es).
Proof.
  intros Hne. induction es as [|e es IH]; [done|]. rewrite !load_cons. cbn [length]. unfold on_cpu.
  destruct (is_runnable e); simpl; [|lia]. repeat case_bool_decide; subst; simpl; [done|lia..].
Qed.

Lemma bump_b2z cpu d f cpu' e : is_runnable e = true → q_target_cpu e = cpu →
  bump cpu d f cpu' = f cpu' + d * Z.b2z (on_cpu cpu' e).
Proof.
  intros Hr <-. unfold bump. rewrite (on_cpu_runnable _ _ Hr). case_decide; case_bool_decide; subst; simpl; try done; lia.
Qed.

Lemma local_runnable_true cpu e : local_runnable cpu e = true →
  is_runnable e = true ∧ q_target_cpu e = cpu ∧ q_continuation_cpu e = None.
Proof.
  unfold local_runnable. intros [[Hr Hc%bool_decide_eq_true]%andb_true_iff Hn]%andb_true_iff.
  by destruct (q_continuation_cpu e).
Qed.

(** ** Claiming a thread *)

Lemma with_same_execution s : with_next_execution_generation (next_execution_generation s) s = s.
Proof. by destruct s. Qed.

(** The generation a claimed entry runs under. *)
Lemma execution_wp n s e Q (R : SchedulerError.t → SchedulerState.t → Prop) :
  minted n (next_execution_generation s) → 8 * (n + 1) < 2 ^ 64 →
  (∀ g x, g ≠ 0 → minted (n + 1) x → Q g (with_next_execution_generation x s)) →
  wp (if negb (q_started_execution_generation e =? 0) then mret (q_started_execution_generation e)
      else mint_execution_generation) s Q R.
Proof.
  intros Hm Hn HQ. destruct (q_started_execution_generation e =? 0) eqn:Hg; simpl.
  - unfold mint_execution_generation. wp_step. wp_step. wp_step. apply wp_ok_or. rewrite (next_minted _ _ Hm Hn).
    do 3 wp_step. apply HQ; [unfold minted in Hm; lia|by apply minted_next].
  - wp_step. rewrite <- (with_same_execution s). apply HQ; [by apply Z.eqb_neq|]. eapply minted_weaken; [done|lia].
Qed.

Lemma claim_wp n s es cpu Q (R : SchedulerError.t → SchedulerState.t → Prop) : shape s es →
  minted n (next_execution_generation s) → 8 * (n + 1) < 2 ^ 64 →
  (find (local_runnable cpu) s = None → Q None s) →
  (∀ i e g x, es !! i = Some e → local_runnable cpu e = true → find (local_runnable cpu) s = Some e → g ≠ 0 → minted (n + 1) x →
    Q (Some {| run_thread := q_thread e; run_generation := g |}) (with_next_execution_generation x (requeue (delete i es) s))) →
  wp (claim_first_runnable_on cpu) s Q R.
Proof.
  intros Hs Hm Hn HN HS. unfold claim_first_runnable_on. do 2 wp_step. unfold first_local_runnable_index.
  destruct (position (local_runnable cpu) s) as [i|] eqn:Hp.
  - destruct (position_Some _ _ _ _ Hs Hp) as (e & Hi & He & _ & Hf). wp_step.
    eapply wp_eq; [by apply (remove_index_shape _ es)|]. cbv beta. wp_step.
    apply (execution_wp n); [done..|]. intros g x Hg Hx. wp_step. apply HS; [done..| |done|done].
    by rewrite (find_shape _ _ _ Hs), Hf.
  - wp_step. apply HN. rewrite (find_shape _ _ _ Hs). rewrite (position_shape _ _ _ Hs) in Hp.
    by destruct (list_find _ es).
Qed.

(** ** Accounting *)

(** Runs a straight line of updates of the counters. *)
Ltac account_step :=
  lazymatch goal with
  | |- wp (_ ≫= _) _ _ _ => apply wp_bind
  | |- wp (mret _) _ _ _ => apply wp_ret
  | |- wp (SchedulerAccounting.increment _ _) _ _ _ =>
      eapply wp_mono; [eapply increment_wp; [eassumption|lia]|let H := fresh "Hta" in let a := fresh "a" in intros ? a H; cbv beta in H |- *|by intros]
  | |- wp (SchedulerAccounting.increment_runnable _) _ _ _ =>
      eapply wp_mono; [eapply increment_runnable_wp; [eassumption|]|let H := fresh "Hta" in let a := fresh "a" in intros ? a H; cbv beta in H |- *|by intros]
  | |- wp (SchedulerAccounting.decrement_runnable _) _ _ _ =>
      eapply wp_mono; [eapply decrement_runnable_wp; [eassumption|]|let H := fresh "Hta" in let a := fresh "a" in intros ? a H; cbv beta in H |- *|by intros]
  | |- wp (SchedulerAccounting.observe_ready_delay _ _ _) _ _ _ =>
      eapply wp_mono; [eapply observe_ready_delay_wp; [eassumption|]|let H := fresh "Hta" in let a := fresh "a" in intros ? a H; cbv beta in H |- *|by intros]
  end.

(** The loads after a change of the queue. *)
Ltac loads :=
  intros; unfold bump, on_cpu in *;
  repeat match goal with
  | |- context [load (_ ++ _) _] => rewrite load_app
  | |- context [load (_ :: _) _] => rewrite load_cons
  | |- context [load [] _] => change (load [] _) with 0
  | H : ?es !! ?i = Some _ |- context [load (delete ?i ?es) _] => rewrite (load_delete _ _ _ _ H)
  | H : ?es !! ?i = Some _ |- context [load (<[?i := _]> ?es) _] => rewrite (load_insert _ _ _ _ _ H)
  end; unfold on_cpu; cbn [q_target_cpu];
  repeat match goal with
  | |- context [is_runnable ?e] => let b := eval vm_compute in (is_runnable e) in is_constructor b; change (is_runnable e) with b
  end;
  repeat match goal with H : is_runnable _ = _ |- _ => rewrite H end; cbn [andb];
  repeat case_decide; repeat case_bool_decide; cbn [Z.b2z]; try congruence; try lia;
  try (repeat match goal with H : q_target_cpu _ = _ |- _ => progress cbn in H | H : q_target_cpu _ ≠ _ |- _ => progress cbn in H end; congruence).

(** Runs a program up to its next branch or call. *)
Ltac wp_line :=
  repeat lazymatch goal with
  | |- wp (_ ≫= _) _ _ _ => apply wp_bind
  | |- wp get _ _ _ => apply wp_get
  | |- wp (put _) _ _ _ => apply wp_put
  | |- wp (modify _) _ _ _ => apply wp_modify
  | |- wp (mret _) _ _ _ => apply wp_ret
  | |- wp (map_err _ _) _ _ _ => apply wp_map_err
  | |- wp (unwrap _) _ _ _ => apply wp_unwrap
  | |- wp (let _ := _ in _) _ _ _ => cbv zeta
  end; cbv beta.

(** Advances a generation that cannot be exhausted. *)
Ltac mint H := wp_line; apply wp_ok_or; erewrite (next_minted _ _ H) by lia; cbn beta iota; wp_line.

(** ** Lives of threads *)

(** Every thread is as it was, or was moved as [P] allows. *)
Definition moved (P : ThreadKey → option ThreadLife.t → option ThreadLife.t → Prop) s s' : Prop :=
  ∀ thread, life thread s' = life thread s ∨ P thread (life thread s) (life thread s').

Lemma moved_by n n' P s s' (ths : list ThreadKey) : sched_ok n s → sched_ok n' s' →
  (∀ e, (q_thread e ∉ ths) → e ∈ entries s' ↔ e ∈ entries s) →
  (∀ cpu, running s' !!! cpu = running s !!! cpu ∧ pending_block s' !!! cpu = pending_block s !!! cpu ∨
    (∀ k, running s' !!! cpu = Some k → run_thread k ∈ ths) ∧ (∀ k, running s !!! cpu = Some k → run_thread k ∈ ths)) →
  (∀ thread, thread ∈ ths → life thread s' = life thread s ∨ P thread (life thread s) (life thread s')) →
  moved P s s'.
Proof.
  intros Hok Hok' Hes Hrun Hths thread. destruct (decide (thread ∈ ths)) as [Hin|Hni]; [by apply Hths|]. left.
  exact (status_differs _ _ _ _ _ _ _ _ ths thread (so_threads _ _ Hok) (so_threads _ _ Hok') Hes Hrun Hni).
Qed.

Section lives.
Context (n : Z) s (Hok : sched_ok n s).

Lemma life_running cpu k thread : running s !!! cpu = Some k → run_thread k = thread →
  life thread s = Some (ThreadLife.Running cpu (run_generation k) (wake_token <$> pending_block s !!! cpu)).
Proof using Hok. intros Hk <-. exact (status_running (entries s) _ _ (so_threads _ _ Hok) _ _ _ Hk). Qed.

Lemma life_queued e thread : e ∈ entries s → q_thread e = thread → life thread s = Some (entry_life e).
Proof using Hok. intros He <-. exact (status_queued _ _ _ (so_threads _ _ Hok) _ _ He). Qed.

Lemma life_absent thread : thread ∉ (q_thread <$> entries s) → (∀ cpu k, running s !!! cpu = Some k → run_thread k ≠ thread) →
  life thread s = None.
Proof. intros Hni Hr. exact (status_absent _ _ _ _ Hni Hr). Qed.

(** The state [state_of] reports is that of the life. *)
Lemma state_of_life thread : CooperativeScheduler.state_of thread s = ThreadLife.state <$> life thread s.
Proof using Hok.
  unfold CooperativeScheduler.state_of. destruct (runs_on (running s) thread) as [cpu|] eqn:Hr.
  - apply runs_on_Some in Hr as (k & Hk & Hth). rewrite (life_running _ _ _ Hk Hth). assert (existsb (claims thread) (cells (running s)) = true) as ->; [|done].
    apply existsb_exists. exists (Some k). split; [apply list_elem_of_In, elem_of_cells; eauto|]. by apply bool_decide_eq_true.
  - assert (existsb (claims thread) (cells (running s)) = false) as ->.
    { apply not_true_iff_false. intros (x & (cpu & <-)%list_elem_of_In%elem_of_cells & Hc)%existsb_exists.
      destruct (running s !!! cpu) as [k|] eqn:Hk; [|done]. apply bool_decide_eq_true in Hc.
      by apply (proj1 (runs_nowhere_spec _ _) Hr cpu k). }
    assert (life thread s = entry_life <$> find (of_thread thread) s) as -> by (unfold life; by rewrite (Hr : running_cpu thread s = None)).
    destruct (find (of_thread thread) s) as [e|] eqn:Hf; [|done]. simpl. f_equal.
    destruct (sched_find_Some _ _ _ _ (so_shape _ _ Hok) Hf) as (i & Hi%list_elem_of_lookup_2 & _).
    destruct (th_entry _ _ _ (so_threads _ _ Hok) _ Hi) as [Hst _ _]. unfold entry_life. by destruct (q_state e).
Qed.
End lives.

(** ** Pulling a thread *)

(** [s'] differs from [s] in what is queued only. *)
Record same_cpus s s' : Prop := {
  sa_running : running s' = running s;
  sa_suspended : suspended s' = suspended s;
  sa_pending : pending_block s' = pending_block s;
  sa_idle : active_idle s' = active_idle s;
  sa_carrier : carrier_admission s' = carrier_admission s;
  sa_status thread : life thread s' = life thread s;
}.

(** The state and the record of a pull of the entry [e], at [i], with the new
    accounting [a]. *)
Definition pull_record victim target e s : SchedulerMigrationRecord :=
  {| migration_thread := q_thread e; migration_execution_generation := q_started_execution_generation e;
     migration_source := victim; migration_target := target; migration_generation := next_migration_generation s;
     migration_enqueue_generation := q_enqueue_generation e |}.

Definition pulled_state victim target (i : nat) e (a : SchedulerAccounting.t) s : SchedulerState.t :=
  with_accounting a (with_next_migration_generation (next_migration_generation s + 1)
    (with_last_migration (Some (pull_record victim target e s))
      (requeue (<[i := migrated target (next_migration_generation s) e]> (entries s)) s))).

Definition pulled_pending victim target (i : nat) e s : PendingMigration :=
  {| pending_record := pull_record victim target e s; pending_index := i; prior_entry := e;
     prior_accounting := accounting s; prior_last_migration := last_migration s;
     prior_next_generation := next_migration_generation s |}.

Lemma migratable_spec e victim target s : entry_migratable e victim target s = true →
  is_runnable e = true ∧ q_target_cpu e = victim ∧ q_continuation_cpu e = None.
Proof.
  unfold entry_migratable. rewrite !andb_true_iff. intros [[[[[[[[[[[Hr Hv%bool_decide_eq_true] _] _] _] Hc%is_none_true] _] _] _] _] _] _].
  done.
Qed.

Section pulled.
Context (n : Z) s (victim target : CpuIndex.t) (i : nat) (e : QueueEntry) (a : SchedulerAccounting.t) (Hok : sched_ok n s)
  (Hne : victim ≠ target) (Hi : entries s !! i = Some e) (He : entry_migratable e victim target s = true).

Let e' := migrated target (next_migration_generation s) e.
Let s' := pulled_state victim target i e a s.

Lemma pulled_shape : shape s' (<[i := e']> (entries s)).
Proof using Hok. eapply shape_cells; [done..|]. rewrite length_insert. apply shape_length, Hok. Qed.

Lemma pulled_threads : threads_ok (<[i := e']> (entries s)) (running s) (suspended s).
Proof using Hok Hi.
  eapply threads_replace; [apply Hok|exact Hi|done..|].
  destruct (th_entry _ _ _ (so_threads _ _ Hok) e); [by eapply list_elem_of_lookup_2|]. by split.
Qed.

Lemma pulled_load cpu : load (<[i := e']> (entries s)) cpu = bump target 1 (bump victim (-1) (load (entries s))) cpu.
Proof using Hi He Hne.
  destruct (migratable_spec _ _ _ _ He) as (Hr & Hv & _). assert (is_runnable e' = true) as Hr' by done.
  assert (q_target_cpu e' = target) as Hv' by done. clearbody e'. loads.
Qed.

Lemma pulled_ok : tally (8 * n + 4) (bump target 1 (bump victim (-1) (load (entries s)))) (spent_idle s) a → sched_ok (n + 1) s'.
Proof using Hok Hne Hi He.
  intros Hta. eapply (sched_step n s s' (<[i := e']> (entries s)) (spent_idle s)); [done|..]; try apply Hok.
  - cbn. rewrite length_cells_of; [done|]. rewrite length_insert. apply shape_length, Hok.
  - done.
  - apply pulled_shape.
  - apply pulled_threads.
  - rewrite length_insert. apply Hok.
  - eapply tally_ext; [done|lia| |done]. intros cpu. by rewrite pulled_load.
  - apply times_insert; [apply Hok|].
    by eapply (times_entry _ _ _ _ _ _ (so_times _ _ Hok) e), list_elem_of_lookup_2.
  - destruct (so_generations _ _ Hok). split; intros; cbn; auto using minted_next; eapply minted_weaken; eauto; lia.
  - ordered.
Qed.

Lemma pulled_same : same_cpus s s'.
Proof using Hok Hi.
  pose proof (list_elem_of_lookup_2 _ _ _ Hi) as Hin. pose proof (th_queued _ _ _ (so_threads _ _ Hok)) as Hnd.
  split; [done..|]. intros thread. change (life thread s') with (status (entries s') (running s) (pending_block s) thread).
  rewrite (entries_shape _ _ pulled_shape). change (life thread s) with (status (entries s) (running s) (pending_block s) thread).
  destruct (decide (thread = q_thread e)) as [-> |Hne'].
  - rewrite (status_queued _ _ _ (so_threads _ _ Hok) _ _ Hin). change (q_thread e) with (q_thread e').
    rewrite (status_queued _ _ _ pulled_threads _ e'); [done|]. by apply (elem_of_insert_thread _ _ _ _ _ Hnd Hi); left.
  - eapply status_same; [apply Hok|apply pulled_threads| |done..]. intros e0 <-. rewrite (elem_of_insert_thread _ _ _ _ _ Hnd Hi). naive_solver.
Qed.

Lemma pulled_runnable : find (local_runnable target) s' ≠ None.
Proof using Hok Hi He.
  intros Hf%(sched_find_None _ _ _ pulled_shape). pose proof (position_None _ _ _ pulled_shape Hf e') as Hx.
  destruct (migratable_spec _ _ _ _ He) as (Hr & _ & Hc). assert (is_runnable e' = true) as Hr' by done.
  unfold local_runnable in Hx. rewrite Hr', bool_decide_true in Hx by done. cbn in Hx. rewrite Hc in Hx. cbn in Hx.
  assert (true = false); [apply Hx|done]. eapply list_elem_of_lookup_2, list_lookup_insert_eq. by eapply lookup_lt_Some.
Qed.
End pulled.

Lemma pull_from_wp n s victim target i Q (R : SchedulerError.t → SchedulerState.t → Prop) :
  sched_ok n s → 8 * (n + 1) < 2 ^ 64 → position (λ e, entry_migratable e victim target s) s = Some i → victim ≠ target →
  (∀ e a, entries s !! i = Some e → entry_migratable e victim target s = true →
    sched_ok (n + 1) (pulled_state victim target i e a s) → Q (pulled_pending victim target i e s) (pulled_state victim target i e a s)) →
  wp (pull_from victim target i) s Q R.
Proof.
  intros Hok Hn Hp Hne HQ. pose proof (so_shape _ _ Hok) as Hs. pose proof (so_tally _ _ Hok) as Hta.
  destruct (position_Some _ _ _ _ Hs Hp) as (e & Hi & He & Hq & _). destruct (migratable_spec _ _ _ _ He) as (Hr & Hv & _).
  assert (1 ≤ load (entries s) victim).
  { eapply load_pos; [exact Hi|]. by rewrite (on_cpu_runnable _ _ Hr), bool_decide_true. }
  unfold pull_from. mint (ge_migration _ _ (so_generations _ _ Hok)).
  apply account_or_wp. repeat account_step; [done| |].
  { unfold bump. rewrite decide_False by done. pose proof (load_disjoint (entries s) _ _ Hne). pose proof (so_room _ _ Hok).
    pose proof (so_fits _ _ Hok). lia. }
  wp_line. eapply wp_expect; [exact Hq|]. wp_line. rewrite (write_entry_shape _ _ _ _ Hs) by (by eapply lookup_lt_Some).
  apply HQ; [done..|]. apply (pulled_ok n); [done..|]. eapply tally_ext; [done|lia|done..].
Qed.

Lemma victim_of target offset : offset ∈ seq 1 (CPU_CAPACITY - 1) →
  ∃ victim, CpuIndex.new ((CpuIndex.index target + offset) mod CPU_CAPACITY) = Some victim ∧ victim ≠ target.
Proof. intros Ho. destruct target; repeat (apply elem_of_cons in Ho as [-> |Ho]; [by eexists|]); by apply elem_of_nil in Ho. Qed.

(** The CPUs [target] turns to, in order. *)
Definition turn target (offset : nat) : option CpuIndex.t := CpuIndex.new ((CpuIndex.index target + offset) mod CPU_CAPACITY).
Arguments turn : simpl never.

Definition victims target : list CpuIndex.t := omap (turn target) (seq 1 (CPU_CAPACITY - 1)).

(** Whether [target] may pull from [victim] at all. *)
Definition gives (rebalance : bool) target s victim : bool :=
  negb (Z.land (schedulable_mask s) (cpu_bit victim) =? 0)
  && negb (rebalance && (runnable_depths s !!! victim <? runnable_depths s !!! target + 2)%nat).

(** The victim and the index of the entry to pull. *)
Definition donated (rebalance : bool) target s victim : option (CpuIndex.t * nat) :=
  if gives rebalance target s victim then pair victim <$> position (λ e, entry_migratable e victim target s) s else None.

Definition donor (rebalance : bool) target s : option (CpuIndex.t * nat) := head (omap (donated rebalance target s) (victims target)).

Lemma pull_exact n s target rebalance : sched_ok n s → 8 * (n + 1) < 2 ^ 64 →
  wp (pull_oldest_for target rebalance) s
    (λ pulled s', match donor rebalance target s with
      | None => pulled = None ∧ s' = s
      | Some (victim, i) => ∃ e a, entries s !! i = Some e ∧ entry_migratable e victim target s = true ∧ victim ≠ target ∧
          gives rebalance target s victim = true ∧
          pulled = Some (pulled_pending victim target i e s) ∧ s' = pulled_state victim target i e a s ∧ sched_ok (n + 1) s'
      end) (λ _ _, False).
Proof.
  intros Hok Hn. unfold pull_oldest_for. wp_line.
  apply (wp_loop (λ pre _ s', s' = s ∧ omap (donated rebalance target s)
    (omap (turn target) pre) = [])); [done| |].
  2: { intros _ ? [-> Hd]. wp_line. unfold donor, victims. by rewrite Hd. }
  intros pre offset post [] ? Hxs [-> Hd]. destruct (victim_of target offset) as (victim & Hv & Hne).
  { rewrite Hxs, elem_of_app. right. by left. }
  assert (turn target offset = Some victim) as Ht by exact Hv.
  assert (donated rebalance target s victim = None → omap (donated rebalance target s)
    (omap (turn target) (pre ++ [offset])) = []) as Hnone.
  { intros Hdv. rewrite !omap_app, Hd. simpl. rewrite Ht. simpl. by rewrite Hdv. }
  rewrite Hv. wp_line. eapply wp_expect; [done|].
  destruct (Z.land (schedulable_mask s) (cpu_bit victim) =? 0) eqn:Hmask.
  { wp_line. split; [done|]. apply Hnone. unfold donated, gives. by rewrite Hmask. }
  assert (is_some_and (λ threshold, (runnable_depths s !!! victim <? threshold)%nat)
    (if rebalance then Some (runnable_depths s !!! target + 2)%nat else None) =
    rebalance && (runnable_depths s !!! victim <? runnable_depths s !!! target + 2)%nat) as -> by (by destruct rebalance).
  destruct (rebalance && _) eqn:Hth.
  { wp_line. split; [done|]. apply Hnone. unfold donated, gives. by rewrite Hth, andb_false_r. }
  assert (gives rebalance target s victim = true) as Hg by (unfold gives; by rewrite Hmask, Hth).
  wp_line. destruct (position _ s) as [i|] eqn:Hp.
  2: { wp_line. split; [done|]. apply Hnone. unfold donated. by rewrite Hg, Hp. }
  assert (donor rebalance target s = Some (victim, i)) as ->.
  { unfold donor, victims. rewrite Hxs, !omap_app, Hd. simpl. rewrite Ht. simpl. unfold donated at 1. by rewrite Hg, Hp. }
  wp_line. eapply pull_from_wp; [done..|]. intros e a Hi He Hok'. wp_line. exists e, a. done.
Qed.

(** A thread that was pulled can be claimed, so that nothing is rolled back. *)
Lemma pull_wp n s target rebalance : sched_ok n s → 8 * (n + 1) < 2 ^ 64 →
  wp (pull_oldest_for target rebalance) s
    (λ pulled s', sched_ok (n + 1) s' ∧ same_cpus s s' ∧ (pulled = None ∨ find (local_runnable target) s' ≠ None)) (λ _ _, False).
Proof.
  intros Hok Hn. eapply wp_mono; [by apply (pull_exact n)| |done]. intros pulled s'.
  destruct (donor rebalance target s) as [[victim i]|].
  - intros (e & a & Hi & He & _ & _ & -> & -> & Hok'). split_and!; [done|by eapply pulled_same|right; by eapply pulled_runnable].
  - intros [-> ->]. split_and!; [eapply sched_ok_weaken; [done|lia]|done|by left].
Qed.

(** ** Whole calls *)

(** What a call leaves: the invariant, threads moved as [P] allows, and the
    carriers. *)
Definition kept (n : Z) (P : ThreadKey → option ThreadLife.t → option ThreadLife.t → Prop) s s' : Prop :=
  sched_ok (n + 2) s' ∧ moved P s s' ∧ carrier_admission s' = carrier_admission s.

(** The call comes back, whether it succeeds or not. *)
Definition keeps {E A} (n : Z) (m : M SchedulerState.t E A) s
    (P : ThreadKey → option ThreadLife.t → option ThreadLife.t → Prop) : Prop :=
  wp m s (λ _ s', kept n P s s') (λ _ s', kept n P s s').

Lemma keeps_from {E A} n s s1 P (m : M SchedulerState.t E A) : same_cpus s s1 →
  wp m s1 (λ _ s', kept n P s1 s') (λ _ s', kept n P s1 s') → wp m s1 (λ _ s', kept n P s s') (λ _ s', kept n P s s').
Proof.
  intros Hsame H. eapply wp_mono; [exact H|..]; intros ? s' (Hok & Hm & Hc);
    (split_and!; [done| |by rewrite Hc; apply Hsame]); intros thread; rewrite <- (sa_status _ _ Hsame thread); apply Hm.
Qed.

(** A call that fails, or changes nothing. *)
Ltac unchanged := wp_line; split_and!; [eapply sched_ok_weaken; [eassumption|lia]|by left|done].

(** The generations, each of which was kept or advanced once. *)
Ltac generations :=
  match goal with H : sched_ok _ ?s |- generations_ok _ _ =>
    destruct (so_generations _ _ H); split; intros; cbn; cpu_cases; auto using minted_next; eapply minted_weaken; eauto; lia
  end.

(** The lengths of queues that are changed in place. *)
Ltac lengths :=
  cbn;
  repeat match goal with
  | |- context [length (cells_of _ _)] => rewrite length_cells_of
  | |- context [length (_ ++ _)] => rewrite length_app
  | |- context [length (<[_ := _]> _)] => rewrite length_insert
  | |- context [busy (<[?cpu := _]> (<[?cpu := _]> _))] => rewrite cpu_insert_insert
  | H : ?es !! ?i = Some _ |- context [length (delete ?i ?es)] => rewrite (length_delete es i (ex_intro _ _ H))
  end; cbn; try done; try lia.

(** Only the next execution generation is changed. *)
Lemma sched_execution n s x : sched_ok n s → minted (n + 1) x → sched_ok (n + 1) (with_next_execution_generation x s).
Proof.
  intros Hok Hx. apply (sched_step n s _ (entries s) (spent_idle s)); try apply Hok; try done; [..|generations].
  - by eapply shape_ext; [..|apply (so_shape _ _ Hok)].
  - eapply tally_ext; [apply Hok|lia|done..].
Qed.

(** The end of a call: what it did to the queue is read off its state, and
    the parts of the invariant that it did not touch are kept. *)
Ltac conclude spent :=
  match goal with
  | Hok : sched_ok ?n ?s |- wp _ ?x _ _ =>
      let es := match x with context [requeue ?es _] => es | _ => constr:(entries s) end in
      let s' := fresh "s'" in let Hok' := fresh "Hok'" in let Hsh' := fresh "Hsh'" in
      pose proof (shape_length _ _ (so_shape _ _ Hok)); pose proof (so_room _ _ Hok); set (s' := x);
      assert (shape s' es) as Hsh'
        by (first [eapply shape_cells; [reflexivity|reflexivity|by lengths]|by eapply shape_ext; [..|apply (so_shape _ _ Hok)]]);
      assert (sched_ok (n + 1) s') as Hok';
      [ eapply (sched_step n s s' es spent Hok);
        [ by lengths
        | done
        | exact Hsh'
        | try exact (so_threads _ _ Hok)
        | try exact (so_pending _ _ Hok)
        | try exact (so_tickets _ _ Hok)
        | try exact (so_idle _ _ Hok)
        | try by lengths
        | first [eapply tally_ext; [eassumption|lia| |done]; loads|eapply tally_ext; [apply (so_tally _ _ Hok)|lia| |done]; loads|idtac]
        | try by times
        | try generations
        | try ordered ]
      | wp_line; eapply assert_invariants_wp; [exact Hok'|]; wp_line;
        split_and!; [eapply sched_ok_weaken; [exact Hok'|lia]| |done]; pose proof (entries_shape _ _ Hsh') as Hes'; try (by intros ?; left) ]
  end.

(** The entries of the threads that a call does not name are those there
    were. *)
Ltac same_entries Hok :=
  let e := fresh "e" in let He := fresh "He" in
  intros e He;
  repeat match goal with
  | |- context [_ ∈ _ ++ _] => rewrite elem_of_app
  | |- context [_ ∈ [_]] => rewrite list_elem_of_singleton
  | Hnd : NoDup (q_thread <$> ?es), H : ?es !! ?i = Some _ |- context [_ ∈ delete ?i ?es] =>
      rewrite (elem_of_delete_thread _ _ _ _ Hnd H)
  | H : ∀ _, _ ∈ ?es ↔ _ |- context [_ ∈ ?es] => rewrite H
  | H : ?es !! ?i = Some _ |- context [_ ∈ delete ?i ?es] => rewrite (elem_of_delete_thread _ _ _ _ (th_queued _ _ _ (so_threads _ _ Hok)) H)
  | H : ?es !! ?i = Some _ |- context [_ ∈ <[?i := _]> ?es] => rewrite (elem_of_insert_thread _ _ _ _ _ (th_queued _ _ _ (so_threads _ _ Hok)) H)
  end;
  rewrite ?elem_of_cons, ?elem_of_nil in He; naive_solver.

Lemma gone_from_delete es i e : NoDup (q_thread <$> es) → es !! i = Some e → q_thread e ∉ (q_thread <$> delete i es).
Proof. intros Hnd Hi (e' & [_ ?]%(elem_of_delete_thread _ _ _ _ Hnd Hi) & ?)%elem_of_threads. done. Qed.

(** A removed thread is outside the scheduler. *)
Lemma life_gone n s s' i e : sched_ok n s → entries s !! i = Some e → entries s' = delete i (entries s) → running s' = running s →
  life (q_thread e) s' = None.
Proof.
  intros Hok Hi Hes Hr. apply life_absent.
  - rewrite Hes. eapply gone_from_delete; [apply Hok|done].
  - rewrite Hr. apply runs_nowhere_spec. eapply not_running; [apply Hok|]. by eapply list_elem_of_lookup_2.
Qed.

Lemma elem_of_pushed es e : e ∈ es ++ [e].
Proof. apply elem_of_app. right. by left. Qed.

Lemma elem_of_written es i e : (i < length es)%nat → e ∈ <[i := e]> es.
Proof. intros Hi. by eapply list_elem_of_lookup_2, list_lookup_insert_eq. Qed.

(** The life of the thread whose entry was added last. *)
Lemma life_pushed n s es e thread : sched_ok n s → entries s = es ++ [e] → q_thread e = thread → life thread s = Some (entry_life e).
Proof. intros Hok Hes. eapply (life_queued _ _ Hok). rewrite Hes. apply elem_of_pushed. Qed.

(** A call moves the threads [ths]. *)
Ltac moving Hok ths :=
  match goal with
  | Hok' : sched_ok _ ?s' |- moved _ ?s ?s' =>
      eapply (moved_by _ _ _ s s' ths Hok Hok');
      [ match goal with H : entries s' = _ |- _ => rewrite H end; same_entries Hok
      | try match goal with H : running s' = _ |- _ => rewrite H end;
        try match goal with H : pending_block s' = _ |- _ => rewrite H end;
        first
        [ by left; split
        | let c := fresh "c" in
          intros c; cbn; cpu_cases;
          [right; split; intros; simplify_eq/=; rewrite ?elem_of_cons; auto|by left; split] ]
      | let th := fresh "th" in let Hin := fresh "Hin" in
        intros th; rewrite ?elem_of_cons, elem_of_nil; intros Hin;
        repeat match type of Hin with _ ∨ _ => destruct Hin as [-> |Hin] end; [..|by destruct Hin]; right ]
  end.
