(* ===== verification/SchedulerCalls.v ===== *)
(** * Calls that move no running thread

    Reservation, waking, quanta, preparation of a block and idle accounting
    keep the invariant, and never panic. *)

From stdpp Require Import base tactics numbers list.
From Stdlib Require Import ZArith Lia.
From S2P Require Import Prelude Abi Object Cpu Wait Clock Deadline Timer LiveTime Scheduler SchedulerOps Carrier SchedulerSpec SchedulerFacts SchedulerInvariant SchedulerMoves SchedulerSteps.
Import SchedulerState CooperativeScheduler.
Local Open Scope Z_scope.

Implicit Types (s : SchedulerState.t) (es : list QueueEntry) (e : QueueEntry) (cpu : CpuIndex.t) (thread : ThreadKey).

Section calls.
Context (n : Z) s (Hok : sched_ok n s) (Hn : 8 * (n + 2) < 2 ^ 64).

Lemma contains_spec thread : contains thread s = false →
  (thread ∉ (q_thread <$> entries s)) ∧ ∀ cpu k, running s !!! cpu = Some k → run_thread k ≠ thread.
Proof.
  unfold contains. rewrite orb_false_iff. intros [Hr Hq]. split.
  - intros (e & He & Heq)%elem_of_threads. apply not_true_iff_false in Hq. apply Hq, existsb_exists. exists e.
    split; [by apply list_elem_of_In|]. by apply bool_decide_eq_true.
  - intros cpu k Hk Heq. apply not_true_iff_false in Hr. apply Hr, existsb_exists. exists (Some k).
    split; [apply list_elem_of_In, elem_of_cells; eauto|]. by apply bool_decide_eq_true.
Qed.

Lemma reserve_keeps thread : (∀ cpu u, suspended s !!! cpu = Some u → susp_thread u ≠ thread) → keeps n (reserve thread) s (permits (domain s) (SchedulerCall.Reserve thread)).
Proof using Hok Hn.
  intros Hsusp. unfold keeps, reserve. wp_line. wp_step; [unchanged|]. wp_step; [unchanged|].
  apply contains_spec in Heqb as [Hq Hr]. apply Nat.leb_gt in Heqb0. pose proof (so_shape _ _ Hok) as Hs.
  rewrite (sh_len _ _ Hs) in Heqb0. fold (busy (running s)) in Heqb0. mint (ge_token _ _ (so_generations _ _ Hok)).
  eapply wp_eq; [apply (push_shape _ _ _ Hs); [lia|done]|]. wp_line. conclude (spent_idle s).
  { apply threads_fresh; try done; [apply Hok|]. split; try done. split_and!; try done. cbn. pose proof (ge_token _ _ (so_generations _ _ Hok)) as [? _]. lia. }
  moving Hok [thread]. split_and!; [done|by apply life_absent|]. eexists. by rewrite (life_pushed _ _ _ _ _ Hok' Hes').
Qed.

(** The entry a reservation or a wake key is for. *)
Lemma found p i : position p s = Some i → ∃ e, entries s !! i = Some e ∧ p e = true ∧ mjoin (queue s !! i) = Some e ∧
  (i < length (entries s))%nat ∧ entry_ok e.
Proof using Hok.
  intros Hp. destruct (position_Some _ _ _ _ (so_shape _ _ Hok) Hp) as (e & Hi & He & Hq & _). exists e.
  split_and!; [done..|by eapply lookup_lt_Some|]. eapply th_entry; [apply Hok|]. by eapply list_elem_of_lookup_2.
Qed.

(** There is room for one more runnable entry where one is not runnable. *)
Lemma load_room i e cpu : entries s !! i = Some e → is_runnable e = false → load (entries s) cpu + 1 < 2 ^ 64.
Proof using Hok.
  intros Hi Hr. rewrite (load_split _ _ _ _ Hi), (on_cpu_other _ _ Hr). pose proof (load_bounds (take i (entries s)) cpu).
  pose proof (load_bounds (drop (S i) (entries s)) cpu). pose proof (lookup_lt_Some _ _ _ Hi). rewrite length_take, length_drop in *.
  pose proof (so_room _ _ Hok). pose proof (so_fits _ _ Hok). cbn [Z.b2z]. lia.
Qed.

(** The life of a thread whose entry is written in place. *)
Lemma life_here i e thread : entries s !! i = Some e → q_thread e = thread → life thread s = Some (entry_life e).
Proof using Hok. intros Hi. eapply (life_queued _ _ Hok). by eapply list_elem_of_lookup_2. Qed.

Lemma life_written n' s' i e thread : sched_ok n' s' → entries s' = <[i := e]> (entries s) → (i < length (entries s))%nat → q_thread e = thread →
  life thread s' = Some (entry_life e).
Proof. intros Hok' Hes' Hi. apply (life_queued _ _ Hok'). rewrite Hes'. by apply elem_of_written. Qed.

Lemma commit_on_keeps requester reservation : keeps n (commit_on requester reservation) s (permits (domain s) (SchedulerCall.CommitOn requester reservation)).
Proof using Hok Hn.
  unfold keeps, commit_on. wp_line. wp_step; [unchanged|]. wp_line. wp_step; [|unchanged].
  destruct (found _ _ Heqo) as (e & Hi & He & Hq & Hlt & [Hst Hbl Hco]). wp_line. eapply wp_expect; [exact Hq|]. wp_step; [unchanged|].
  apply negb_false_iff, bool_decide_eq_true in Heqb0. rewrite Heqb0 in Hst, Hbl. destruct Hst as (_ & _ & Hc).
  pose proof (so_generations _ _ Hok) as Hg. unfold mint_execution_generation. mint (ge_execution _ _ Hg).
  pose proof (sched_execution _ _ _ Hok (minted_next _ _ (ge_execution _ _ Hg))) as Hok1.
  mint (ge_enqueue _ _ Hg). wp_step; [|unchanged]. mint (ge_eligibility _ _ Hg).
  assert (is_runnable e = false) as Hr by (unfold is_runnable; by rewrite Heqb0).
  pose proof (so_tally _ _ Hok) as Hta. apply account_or_wp. repeat account_step; [by eapply load_room|]. wp_line.
  rewrite (write_entry_shape _ _ _ _ (so_shape _ _ Hok1)) by done. conclude (spent_idle s).
  - eapply threads_replace; [apply Hok|exact Hi|done..|]. split; try done. split_and!; [done|apply (minted_nonzero _ _ (ge_enqueue _ _ Hg))|intros _; apply (minted_nonzero _ _ (ge_eligibility _ _ Hg))].
  - apply andb_true_iff in He as [He%bool_decide_eq_true Htok%Z.eqb_eq]. apply negb_false_iff, Z.eqb_eq in Heqb.
    moving Hok [q_thread e]. split_and!; [done..| |].
    + rewrite (life_here _ _ _ Hi) by done. unfold entry_life. by rewrite Heqb0, Htok.
    + rewrite (life_written _ _ _ _ _ Hok' Hes' Hlt) by done. unfold entry_life, held. cbn. by rewrite Hc.
Qed.

Lemma cancel_keeps reservation : keeps n (cancel reservation) s (permits (domain s) (SchedulerCall.Cancel reservation)).
Proof using Hok Hn.
  unfold keeps, cancel. wp_line. wp_step; [unchanged|]. wp_line. wp_step; [|unchanged].
  destruct (found _ _ Heqo) as (e & Hi & He & Hq & Hlt & [Hst Hbl Hco]). rewrite !andb_true_iff in He.
  destruct He as [[Hof%bool_decide_eq_true Htok%Z.eqb_eq] Hres%bool_decide_eq_true]. apply negb_false_iff, Z.eqb_eq in Heqb. rewrite Hres in Hst. destruct Hst as (_ & _ & Hc).
  assert (is_runnable e = false) as Hr by (unfold is_runnable; by rewrite Hres).
  wp_line. eapply wp_eq; [by apply (remove_index_shape _ _ _ _ (so_shape _ _ Hok))|]. wp_line. conclude (spent_idle s).
  - eapply threads_remove; [apply Hok|done..].
  - moving Hok [q_thread e]. split_and!; [done..| |].
    + rewrite (life_here _ _ _ Hi) by done. unfold entry_life. by rewrite Hres, Htok.
    + by eapply (life_gone n s); [done..|exact Hes'|].
Qed.

Lemma wake_on_keeps requester key : keeps n (wake_on requester key) s (permits (domain s) (SchedulerCall.WakeOn requester key)).
Proof using Hok Hn.
  unfold keeps, wake_on. wp_line. wp_step; [unchanged|]. wp_line. wp_step; [|unchanged].
  destruct (found _ _ Heqo) as (e & Hi & He & Hq & Hlt & [Hst Hbl Hco]). unfold blocked_by in He. rewrite !andb_true_iff in He.
  destruct He as [[[[Hof%bool_decide_eq_true Htok%Z.eqb_eq] Hcpu%bool_decide_eq_true] Hgen%Z.eqb_eq] Hb%bool_decide_eq_true].
  apply negb_false_iff, Z.eqb_eq in Heqb. assert (life (q_thread e) s = Some (ThreadLife.Blocked (wake_token key) (Some (wake_cpu key))
    (wake_execution_generation key) (held e))) as Hlife.
  { rewrite (life_here _ _ _ Hi) by done. unfold entry_life. by rewrite Hb, Htok, Hcpu, Hgen. }
  assert (is_runnable e = false) as Hr by (unfold is_runnable; by rewrite Hb).
  wp_line. eapply wp_expect; [exact Hq|]. wp_line. wp_step; [|unchanged]. wp_line.
  pose proof (so_generations _ _ Hok) as Hg. unfold checked_generation. wp_step; [unchanged|]. mint (ge_wake _ _ Hg).
  pose proof (so_tally _ _ Hok) as Hta. pose proof (so_shape _ _ Hok) as Hs.
  destruct (is_none (q_continuation_cpu e)) eqn:Hc.
  - mint (ge_eligibility _ _ Hg). mint (ge_enqueue _ _ Hg). apply account_or_wp. repeat account_step; [by eapply load_room|]. wp_line.
    rewrite (write_entry_shape _ _ _ _ Hs) by done. conclude (spent_idle s).
    2: { moving Hok [q_thread e]. split_and!; [done..|]. exists (held e). split; [done|]. by rewrite (life_written _ _ _ _ _ Hok' Hes' Hlt). }
    eapply threads_replace; [apply Hok|exact Hi|done..|]. split; try done. split_and!; [done|apply (minted_nonzero _ _ (ge_enqueue _ _ Hg))|intros _; apply (minted_nonzero _ _ (ge_eligibility _ _ Hg))].
  - wp_line. mint (ge_enqueue _ _ Hg). apply account_or_wp. repeat account_step; [by eapply load_room|]. wp_line.
    rewrite (write_entry_shape _ _ _ _ Hs) by done. conclude (spent_idle s).
    2: { moving Hok [q_thread e]. split_and!; [done..|]. exists (held e). split; [done|]. by rewrite (life_written _ _ _ _ _ Hok' Hes' Hlt). }
    eapply threads_replace; [apply Hok|exact Hi|done..|]. split; try done. 
    split_and!; [done|apply (minted_nonzero _ _ (ge_enqueue _ _ Hg))|]. cbn. by destruct (q_continuation_cpu e).
Qed.

(** ** Quanta *)

Lemma prepare_quantum_keeps cpu now : 0 ≤ now → keeps n (prepare_quantum_if_needed_on cpu now) s (permits (domain s) (SchedulerCall.PrepareQuantumOn cpu now)).
Proof using Hok Hn.
  intros Hnow. unfold keeps, prepare_quantum_if_needed_on. wp_line. wp_step; [|unchanged]. wp_step; [unchanged|].
  wp_step; [by wp_line; eapply assert_invariants_wp; [exact Hok|unchanged]|]. unfold mint_quantum_on. wp_line. wp_step; [|unchanged].
  mint (ge_quantum _ _ (so_generations _ _ Hok) cpu). conclude (spent_idle s).
  rewrite !orb_false_iff, !negb_false_iff in Heqb. destruct Heqb as [_ Hneed]. apply is_none_true in Hneed.
  unfold checked_add in Heqo0. case_match; [|done]. injection Heqo0 as <-. apply tickets_arm; [apply Hok| |done]. split_and!; try done.
  - apply (minted_nonzero n), Hok.
  - cbn. unfold DEFAULT_NORMAL_QUANTUM_NS. lia.
  - cbn. rewrite Heqo. by destruct r.
Qed.

Lemma publish_quantum_expiry_keeps ticket : keeps n (publish_quantum_expiry ticket) s (permits (domain s) (SchedulerCall.PublishQuantumExpiry ticket)).
Proof using Hok Hn.
  unfold keeps, publish_quantum_expiry. wp_line. wp_step; [unchanged|]. wp_step; [unchanged|].
  rewrite orb_false_iff, !negb_false_iff, bool_decide_eq_true in Heqb0. destruct Heqb0 as [Hq _].
  destruct (ti_one _ _ _ _ (so_tickets _ _ Hok) (ticket_cpu ticket)) as [?|Hneed]; [congruence|].
  pose proof (so_tally _ _ Hok) as Hta. wp_line. apply account_or_wp. repeat account_step. wp_line.
  rewrite Hneed. wp_line. conclude (spent_idle s). apply tickets_expire; [apply Hok|done].
Qed.

Lemma preemption_disable_keeps cpu : keeps n (preemption_disable_on cpu) s (permits (domain s) (SchedulerCall.PreemptionDisableOn cpu)).
Proof using Hok Hn. unfold keeps, preemption_disable_on. wp_line. wp_step; [|unchanged]. wp_line. conclude (spent_idle s). Qed.

Lemma preemption_enable_keeps cpu : keeps n (preemption_enable_on cpu) s (permits (domain s) (SchedulerCall.PreemptionEnableOn cpu)).
Proof using Hok Hn. unfold keeps, preemption_enable_on. wp_line. wp_step; [|unchanged]. wp_line. conclude (spent_idle s). Qed.

(** ** Blocking *)

Lemma running_claim_wp {R : SchedulerError.t → SchedulerState.t → Prop} cpu thread Q :
  (∀ error, R error s) → (∀ k, running s !!! cpu = Some k → run_thread k = thread → Q k s) → wp (running_claim_of cpu thread) s Q R.
Proof.
  intros HR HQ. unfold running_claim_of. wp_line. destruct (running s !!! cpu) as [k|] eqn:Hk; [|by wp_step].
  wp_step; [by wp_step|]. apply negb_false_iff, bool_decide_eq_true in Heqb. wp_step. by apply HQ.
Qed.

Lemma prepare_block_keeps cpu thread : keeps n (prepare_block_current_on cpu thread) s (permits (domain s) (SchedulerCall.PrepareBlockOn cpu thread)).
Proof using Hok Hn.
  unfold keeps, prepare_block_current_on. wp_line. apply running_claim_wp; [intros; unchanged|]. intros k Hk Hth. wp_line.
  wp_step; [unchanged|]. wp_step; [unchanged|]. mint (ge_token _ _ (so_generations _ _ Hok)). conclude (spent_idle s).
  - intros cpu' key Hkey. cbn in Hkey. cpu_cases; [|by apply (so_pending _ _ Hok)]. split_and!; [done| |destruct k; by subst].
    apply (minted_nonzero n), Hok.
  - apply negb_false_iff, is_none_true in Heqb0. moving Hok [thread]. split; [done|]. do 2 eexists. split.
    + rewrite (life_running _ _ Hok _ _ _ Hk Hth). by rewrite Heqb0.
    + rewrite (life_running _ _ Hok' _ _ _ Hk Hth). cbn. by rewrite cpu_lookup_insert_eq.
Qed.

Lemma cancel_block_keeps cpu reservation : keeps n (cancel_block_on cpu reservation) s (permits (domain s) (SchedulerCall.CancelBlockOn cpu reservation)).
Proof using Hok Hn.
  unfold keeps, cancel_block_on. wp_line. wp_step; [unchanged|]. wp_step; [unchanged|]. wp_line. conclude (spent_idle s).
  - apply pending_clear, Hok.
  - rewrite orb_false_iff, !negb_false_iff, !bool_decide_eq_true in Heqb0. destruct Heqb0 as [Hcpu Hp]. apply negb_false_iff, Z.eqb_eq in Heqb.
    destruct (so_pending _ _ Hok _ _ Hp) as (_ & _ & Hk). moving Hok [wake_thread (block_key reservation)]. split_and!; [done..| |].
    + rewrite (life_running _ _ Hok _ _ _ Hk) by done. by rewrite Hp.
    + rewrite (life_running _ _ Hok' cpu _ _ Hk) by done. cbn. by rewrite cpu_lookup_insert_eq.
Qed.

(** ** Time *)

Lemma times_observe es d idle now global spent cpu t : times_ok es d idle now global spent →
  is_some_and (λ previous, t <? previous) (now !!! cpu) = false → 0 ≤ t →
  times_ok es d idle (<[cpu := Some t]> now) (Some (match global with Some g => Z.max g t | None => t end)) spent.
Proof.
  intros [Hr Ht Hs] Hreg H0. assert (∀ x, now !!! cpu = Some x → x ≤ t) as Hge.
  { intros x Hx. rewrite Hx in Hreg. simpl in Hreg. apply Z.ltb_ge in Hreg. done. }
  split.
  - intros e x He Hx. destruct (Hr _ _ He Hx) as (g & -> & ?). eexists. split; [done|]. lia.
  - intros cpu' token Htk. destruct (Ht _ _ Htk) as (? & ? & ? & ? & x & Hx & ?). split_and!; [done..|].
    cpu_cases; [|eauto]. eexists. split; [done|]. specialize (Hge _ Hx). lia.
  - intros cpu'. pose proof (Hs cpu') as Hs'. cpu_cases; [|done]. destruct (now !!! cpu) as [x|] eqn:Hx; cbn in *; [|lia].
    specialize (Hge x eq_refl). lia.
Qed.

Lemma observe_keeps cpu t : 0 ≤ t → keeps n (observe_instrumentation_time_on cpu t) s (permits (domain s) (SchedulerCall.ObserveTimeOn cpu t)).
Proof using Hok Hn.
  intros H0. unfold keeps, observe_instrumentation_time_on. wp_line. wp_step; [unchanged|]. wp_line. conclude (spent_idle s).
  apply times_observe; [apply Hok|done..].
Qed.

Lemma publish_idle_keeps cpu t : 0 ≤ t → keeps n (publish_idle_on cpu t) s (permits (domain s) (SchedulerCall.PublishIdleOn cpu t)).
Proof using Hok Hn.
  intros H0. unfold keeps, publish_idle_on. wp_line. wp_step; [unchanged|]. wp_step; [unchanged|]. wp_step; [unchanged|].
  pose proof (so_tally _ _ Hok) as Hta. mint (ge_idle _ _ (so_generations _ _ Hok)). apply account_or_wp. repeat account_step. wp_line.
  conclude (spent_idle s).
  - intros cpu'. cbn. cpu_cases; [|apply Hok]. right. apply negb_false_iff, is_none_true in Heqb. done.
  - destruct (times_observe _ _ _ _ _ _ _ t (so_times _ _ Hok) Heqb1 H0) as [Hr Ht Hsp]. split; [done| |done].
    intros cpu' token Htk. cbn in Htk. cpu_cases; [|by apply Ht]. pose proof (Hsp cpu) as Hs. cbn. rewrite cpu_lookup_insert_eq in *. cbn in Hs.
    split_and!; [done..|apply (minted_nonzero n), Hok|lia|].
    by exists t.
Qed.

Lemma finish_idle_keeps token t : 0 ≤ t < 2 ^ 64 → keeps n (finish_idle_on token t) s (permits (domain s) (SchedulerCall.FinishIdleOn token t)).
Proof using Hok Hn.
  intros H0. unfold keeps, finish_idle_on. wp_line. wp_step; [unchanged|]. wp_step; [unchanged|]. wp_line. wp_step; [|unchanged].
  rewrite !orb_false_iff, !negb_false_iff in Heqb. destruct Heqb as [_ Htk%bool_decide_eq_true].
  destruct (tm_token _ _ _ _ _ _ (so_times _ _ Hok) _ _ Htk) as (_ & _ & _ & Hsp & _).
  unfold checked_sub in Heqo. case_match; [|done]. injection Heqo as <-. pose proof (so_tally _ _ Hok) as Hta.
  wp_line. apply account_or_wp. eapply wp_mono; [eapply record_idle_time_wp; [exact Hta|]|intros ? a Ha; cbv beta in Ha|by intros]; [lia|].
  wp_line. conclude (bump (idle_cpu token) (t - started_at_ns token) (spent_idle s)).
  - intros cpu'. cbn. cpu_cases; [by left|apply Hok].
  - destruct (times_observe _ _ _ _ _ _ _ t (so_times _ _ Hok) Heqb0) as [Hr Ht Hs]; [lia|]. split; [done|..].
    + intros cpu' token' Htk'. cbn in Htk'. unfold bump. cpu_cases. rewrite Z.add_0_r. by apply Ht.
    + intros cpu'. pose proof (Hs cpu') as Hc. unfold bump. cbn in *. apply Z.leb_le in H. cpu_cases; lia.
Qed.
End calls.
