(* ===== verification/SchedulerSwitches.v ===== *)
(** * Calls that move running threads

    Dispatch, yielding, preemption, blocking, completion of a switch and
    retirement keep the invariant, and never panic. *)

From stdpp Require Import base tactics numbers list.
From Stdlib Require Import ZArith Lia.
From S2P Require Import Prelude Abi Object Cpu Wait Clock Deadline Timer LiveTime Scheduler SchedulerOps Carrier SchedulerSpec SchedulerFacts SchedulerInvariant SchedulerMoves SchedulerSteps SchedulerCalls.
Import SchedulerState CooperativeScheduler.
Local Open Scope Z_scope.

Implicit Types (s : SchedulerState.t) (es : list QueueEntry) (e : QueueEntry) (cpu : CpuIndex.t) (thread : ThreadKey).

(** ** What a switch changes on its CPU *)

Lemma idle_run (idle : cpu_array (option SchedulerIdleAccountingToken)) (run : cpu_array (option RunningClaim)) cpu x :
  (∀ cpu', idle !!! cpu' = None ∨ run !!! cpu' = None) → idle !!! cpu = None →
  ∀ cpu', idle !!! cpu' = None ∨ <[cpu := x]> run !!! cpu' = None.
Proof. intros Hi Hn cpu'. cpu_cases; [by left|apply Hi]. Qed.

(** The parts of the invariant of one CPU, whose running thread changes. *)
Ltac on_this_cpu Hok :=
  cbn;
  lazymatch goal with
  | |- pending_ok _ _ =>
      repeat first [apply pending_run; [|by rewrite ?cpu_lookup_insert_eq]|apply pending_clear]; exact (so_pending _ _ Hok)
  | |- tickets_ok _ _ _ _ =>
      repeat first [apply tickets_run; [|by rewrite ?cpu_lookup_insert_eq|by rewrite ?cpu_lookup_insert_eq]|apply tickets_clear];
      exact (so_tickets _ _ Hok)
  | |- ∀ _, _ ∨ _ => repeat (apply idle_run; [|done]); exact (so_idle _ _ Hok)
  end.

Section parts.
Context (n : Z) s (Hok : sched_ok n s).

(** The entry a CPU claims next. *)
Lemma next_entry cpu e : find (local_runnable cpu) s = Some e →
  1 ≤ load (entries s) (q_target_cpu e) ∧ timely (instrumentation_global_now_ns s) e ∧ is_runnable e = true ∧
  q_target_cpu e = cpu ∧ q_continuation_cpu e = None.
Proof using Hok.
  intros Hf. destruct (sched_find_Some _ _ _ _ (so_shape _ _ Hok) Hf) as (i & Hi & He & _).
  destruct (local_runnable_true _ _ He) as (Hr & Ht & Hc). split_and!; try done.
  - eapply load_pos; [exact Hi|]. by rewrite (on_cpu_runnable _ _ Hr), bool_decide_true.
  - eapply times_entry; [apply Hok|]. by eapply list_elem_of_lookup_2.
Qed.

Lemma next_idle_entry cpu e : find (idle_runnable cpu) s = Some e →
  1 ≤ load (entries s) (q_target_cpu e) ∧ timely (instrumentation_global_now_ns s) e ∧ is_runnable e = true ∧
  q_target_cpu e = cpu ∧ (q_continuation_cpu e = None ∨ q_continuation_cpu e = Some cpu).
Proof using Hok.
  intros Hf. destruct (sched_find_Some _ _ _ _ (so_shape _ _ Hok) Hf) as (i & Hi & He & _). unfold idle_runnable in He.
  rewrite !andb_true_iff, orb_true_iff, is_none_true, !bool_decide_eq_true in He. destruct He as [[Hr Ht] Hc]. split_and!; try done.
  - eapply load_pos; [exact Hi|]. by rewrite (on_cpu_runnable _ _ Hr), bool_decide_true.
  - eapply times_entry; [apply Hok|]. by eapply list_elem_of_lookup_2.
Qed.

Lemma local_is_idle cpu : find (idle_runnable cpu) s = None → find (local_runnable cpu) s = None.
Proof using Hok.
  pose proof (so_shape _ _ Hok) as Hs. intros Hf%(sched_find_None _ _ _ Hs). destruct (find (local_runnable cpu) s) as [e|] eqn:Hl; [|done].
  destruct (sched_find_Some _ _ _ _ Hs Hl) as (i & Hi & He & _). pose proof (position_None _ _ _ Hs Hf e (list_elem_of_lookup_2 _ _ _ Hi)) as Hn.
  destruct (local_runnable_true _ _ He) as (Hr & Ht & Hc). unfold idle_runnable in Hn. rewrite Hr, Hc, bool_decide_true in Hn by done. done.
Qed.

Lemma running_idle cpu k : running s !!! cpu = Some k → active_idle s !!! cpu = None.
Proof using Hok. intros Hk. destruct (so_idle _ _ Hok cpu) as [?|?]; congruence. Qed.

Lemma running_pending cpu k key : running s !!! cpu = Some k → pending_block s !!! cpu = Some key → wake_thread key = run_thread k.
Proof using Hok. intros Hk Hp. destruct (so_pending _ _ Hok _ _ Hp) as (_ & _ & Hr). rewrite Hk in Hr. by injection Hr as ->. Qed.
End parts.

Lemma clear_wp {E} s cpu (Q : ClearedPreemption → SchedulerState.t → Prop) (R : E → SchedulerState.t → Prop) :
  quantum s !!! cpu = None ∨ need_resched s !!! cpu = None →
  (∀ cleared, Q cleared (set_need_resched cpu None (set_quantum cpu None s))) → wp (clear_preemption_on cpu) s Q R.
Proof.
  intros Ho HQ. unfold clear_preemption_on. wp_line. apply wp_assert; [|by wp_line]. apply orb_true_iff.
  rewrite !is_none_true. done.
Qed.

Lemma drop_wp {E} s cpu thread (Q : unit → SchedulerState.t → Prop) (R : E → SchedulerState.t → Prop) :
  (∀ key, pending_block s !!! cpu = Some key → wake_thread key = thread) → Q tt (set_pending_block cpu None s) →
  wp (drop_pending_block cpu thread) s Q R.
Proof.
  intros Hp HQ. unfold drop_pending_block. wp_line. destruct (pending_block s !!! cpu) as [key|] eqn:Hk; simpl.
  - rewrite bool_decide_true by auto. by wp_line.
  - wp_line. unfold set_pending_block in HQ. rewrite <- Hk, cpu_insert_id in HQ. by destruct s.
Qed.

Lemma push_wp m s es e (Q : unit → SchedulerState.t → Prop) (R : SchedulerError.t → SchedulerState.t → Prop) :
  queue s = cells_of m es → len s = length es → (length es < m)%nat → q_thread e ∉ (q_thread <$> es) →
  Q tt (requeue (es ++ [e]) s) → wp (push e) s Q R.
Proof.
  intros Hq Hl Hm Hni HQ. eapply wp_eq; [|exact HQ]. apply push_shape; [|by rewrite Hq, length_cells_of by lia|done].
  eapply shape_cells; [done..|lia].
Qed.

Lemma absent_after_delete thread es i : thread ∉ (q_thread <$> es) → thread ∉ (q_thread <$> delete i es).
Proof.
  intros Hni (e & He & Heq)%elem_of_threads. apply Hni, elem_of_threads. exists e. split; [|done].
  eapply elem_of_submseteq; [exact He|]. apply sublist_submseteq, sublist_delete.
Qed.

(** ** Moves of a switch *)

Lemma runnable_state e : is_runnable e = true → q_state e = SchedulerThreadState.Runnable.
Proof. unfold is_runnable. apply bool_decide_eq_true. Qed.

Lemma other_thread es i e thread : es !! i = Some e → thread ∉ (q_thread <$> es) → q_thread e ≠ thread.
Proof. intros Hi Hni <-. apply Hni, elem_of_threads. exists e. split; [by eapply list_elem_of_lookup_2|done]. Qed.

Lemma runnable_life e : is_runnable e = true → entry_life e = ThreadLife.Runnable (held e).
Proof. intros Hr%runnable_state. unfold entry_life. by rewrite Hr. Qed.

Lemma released e : q_continuation_cpu e = None → held e = None.
Proof. unfold held. by intros ->. Qed.

Section dispatches.
Context (n n' : Z) s s' (Hok : sched_ok n s) (Hok' : sched_ok n' s') (i : nat) (e : QueueEntry) (cpu : CpuIndex.t) (g : Z)
  (Hi : entries s !! i = Some e) (Hr : is_runnable e = true)
  (Hrun : running s' = <[cpu := Some {| run_thread := q_thread e; run_generation := g |}]> (running s))
  (Hpend : pending_block s' = <[cpu := None]> (pending_block s)).

(** The claimed thread was runnable and runs. *)
Lemma claimed_moves (P : ThreadKey → option ThreadLife.t → option ThreadLife.t → Prop) :
  P (q_thread e) (Some (ThreadLife.Runnable (held e))) (Some (ThreadLife.Running cpu g None)) →
  P (q_thread e) (life (q_thread e) s) (life (q_thread e) s').
Proof using Hok Hok' Hi Hr Hrun Hpend.
  intros HP. rewrite (life_queued _ _ Hok e) by (by eapply list_elem_of_lookup_2 || done). rewrite (runnable_life _ Hr).
  rewrite (life_running _ _ Hok' cpu {| run_thread := q_thread e; run_generation := g |});
    [|by rewrite Hrun, cpu_lookup_insert_eq|done]. by rewrite Hpend, cpu_lookup_insert_eq.
Qed.

(** Only the claimed thread moves, if the CPU ran none. *)
Lemma claim_moves P : running s !!! cpu = None → entries s' = delete i (entries s) →
  P (q_thread e) (Some (ThreadLife.Runnable (held e))) (Some (ThreadLife.Running cpu g None)) → moved P s s'.
Proof using Hok Hok' Hi Hr Hrun Hpend.
  intros Hn Hes' HP. moving Hok [q_thread e].
  by apply claimed_moves.
Qed.

(** The claimed thread takes the place of [k], which is queued or gone. *)
Lemma switch_moves P k es' : running s !!! cpu = Some k → entries s' = delete i (entries s) ++ es' →
  (∀ e', e' ∈ es' → q_thread e' = run_thread k) →
  P (q_thread e) (Some (ThreadLife.Runnable (held e))) (Some (ThreadLife.Running cpu g None)) →
  P (run_thread k) (Some (ThreadLife.Running cpu (run_generation k) (wake_token <$> pending_block s !!! cpu))) (life (run_thread k) s') →
  moved P s s'.
Proof using Hok Hok' Hi Hr Hrun Hpend.
  intros Hk Hes' Hout HP HP'. moving Hok [q_thread e; run_thread k].
  - by apply claimed_moves.
  - by rewrite (life_running _ _ Hok _ _ _ Hk).
Qed.
End dispatches.

(** A running thread leaves its CPU empty. *)
Lemma leave_moves n n' s s' cpu k es' P : sched_ok n s → sched_ok n' s' → running s !!! cpu = Some k →
  running s' = <[cpu := None]> (running s) → pending_block s' = <[cpu := None]> (pending_block s) →
  entries s' = entries s ++ es' → (∀ e', e' ∈ es' → q_thread e' = run_thread k) →
  P (run_thread k) (Some (ThreadLife.Running cpu (run_generation k) (wake_token <$> pending_block s !!! cpu))) (life (run_thread k) s') →
  moved P s s'.
Proof.
  intros Hok Hok' Hk Hrun Hpend Hes' Hout HP. moving Hok [run_thread k]. by rewrite (life_running _ _ Hok _ _ _ Hk).
Qed.

(** A CPU with no pending block. *)
Lemma pending_none s cpu : pending_block s !!! cpu = None → pending_block s = <[cpu := None]> (pending_block s).
Proof. intros <-. by rewrite cpu_insert_id. Qed.

(** ** Dispatch *)

Section switches.
Context (n : Z) s (Hok : sched_ok n s) (Hn : 8 * (n + 2) < 2 ^ 64).

Lemma maybe_pull_wp (b : bool) cpu :
  wp (if b then steal_oldest_for cpu else mret None) s
    (λ pulled s', sched_ok (n + 1) s' ∧ same_cpus s s' ∧ (pulled = None ∨ find (local_runnable cpu) s' ≠ None)) (λ _ _, False).
Proof using Hok Hn.
  destruct b; [apply pull_wp; [done|lia]|]. wp_line. split_and!; [eapply sched_ok_weaken; [done|lia]|done|by left].
Qed.

Lemma schedule_next_keeps cpu : keeps n (schedule_next_on_with_migration cpu) s (permits (domain s) (SchedulerCall.ScheduleNextOn cpu)).
Proof using Hok Hn.
  unfold keeps, schedule_next_on_with_migration. wp_line. do 4 (wp_step; [unchanged|]).
  apply negb_false_iff, is_none_true in Heqb0, Heqb1, Heqb2. wp_line. eapply wp_mono; [apply maybe_pull_wp| |by intros].
  intros pending s1 (Hok1 & Hsame & _). apply (keeps_from _ _ _ _ _ Hsame). destruct Hsame as [Hr _ _ Hi _]. rewrite <- Hr in Heqb0. rewrite <- Hi in Heqb2. clear Hr Hi.
  pose proof (so_shape _ _ Hok1) as Hs. pose proof (so_tally _ _ Hok1) as Hta.
  pose proof (idle_pending _ _ _ Hok1 Heqb0). pose proof (idle_quantum _ _ _ Hok1 Heqb0). pose proof (idle_need _ _ _ Hok1 Heqb0).
  pose proof (busy_run (running s1) cpu) as Hb. rewrite Heqb0 in Hb.
  wp_line. apply account_or_wp. destruct (find (local_runnable cpu) s1) as [e|] eqn:Hf.
  - destruct (next_entry _ _ Hok1 _ _ Hf) as (Hl & Ht & Hrun & Htg & Hc). repeat account_step; [done|done|]. unfold or_roll_back. wp_line.
    apply wp_try. eapply (claim_wp (n + 1)); [exact Hs|apply Hok1|lia|congruence|]. intros i e' g x Hi' He' Hf' Hg Hx.
    assert (e' = e) as -> by congruence. wp_line. specialize (Hb (Some {| run_thread := q_thread e; run_generation := g |})). cbn in Hb.
    pose proof (lookup_lt_Some _ _ _ Hi').
    conclude (spent_idle s1); try on_this_cpu Hok1; [by eapply threads_claim; [apply Hok1|..]|].
    eapply (claim_moves _ _ _ _ Hok1 Hok' _ _ _ _ Hi' Hrun eq_refl (pending_none _ _ H) _ Heqb0 Hes'). split; [|by eexists]. by rewrite released.
  - account_step. unfold or_roll_back. wp_line. apply wp_try. eapply (claim_wp (n + 1)); [exact Hs|apply Hok1|lia| |congruence].
    intros _. wp_line. specialize (Hb None). cbn in Hb. conclude (spent_idle s1); try on_this_cpu Hok1; [apply threads_stop, Hok1|].
    moving Hok1 (@nil ThreadKey).
Qed.

Lemma entry_outgoing cpu k g ready : run_generation k ≠ 0 → g ≠ 0 → entry_ok (outgoing_entry cpu k g ready).
Proof. intros ??. by split. Qed.

Lemma yield_keeps cpu thread : keeps n (yield_current_on cpu thread) s (permits (domain s) (SchedulerCall.YieldCurrentOn cpu thread)).
Proof using Hok Hn.
  unfold keeps, yield_current_on. wp_line. apply running_claim_wp; [intros; unchanged|]. intros k Hk Hth. wp_line.
  do 2 (wp_step; [unchanged|]). apply negb_false_iff, is_none_true in Heqb, Heqb0. pose proof (so_tally _ _ Hok) as Hta.
  pose proof (so_shape _ _ Hok) as Hs. pose proof (running_idle _ _ Hok _ _ Hk). destruct (th_running _ _ _ (so_threads _ _ Hok) _ _ Hk) as [Hkg Hni].
  destruct (find (local_runnable cpu) s) as [e|] eqn:Hf.
  - destruct (next_entry _ _ Hok _ _ Hf) as (Hl & Ht & Hrun & Htg & Hc). pose proof (so_generations _ _ Hok) as Hg.
    mint (ge_enqueue _ _ Hg). apply account_or_wp. repeat account_step; [done|done| |].
    { unfold bump. rewrite Htg, decide_True by done. pose proof (load_bounds (entries s) cpu). pose proof (so_room _ _ Hok).
      pose proof (so_fits _ _ Hok). lia. }
    wp_line. eapply (claim_wp n); [exact Hs|apply Hg|lia|congruence|]. intros i e' g x Hi He' Hf' Hg' Hx.
    assert (e' = e) as -> by congruence. wp_line. eapply wp_expect; [done|]. wp_line.
    apply clear_wp; [apply (ti_one _ _ _ _ (so_tickets _ _ Hok))|]. intros cleared. wp_line.
    pose proof (busy_run (running s) cpu (Some {| run_thread := q_thread e; run_generation := g |})) as Hb. rewrite Hk in Hb. cbn in Hb.
    pose proof (lookup_lt_Some _ _ _ Hi). pose proof (shape_length _ _ Hs).
    eapply push_wp; [done|done|by lengths|by apply absent_after_delete|]. wp_line. conclude (spent_idle s); try on_this_cpu Hok.
    + by eapply threads_switch; try done; [apply Hok|apply entry_outgoing; [done|]; apply (minted_nonzero _ _ (ge_enqueue _ _ Hg))].
    + eapply (switch_moves n _ s _ Hok Hok' i e cpu g Hi Hrun eq_refl (pending_none _ _ Heqb) _ k _ Hk Hes');
        [by intros ? ->%list_elem_of_singleton| |]; unfold permits.
      * rewrite decide_False by (rewrite <- Hth; by eapply other_thread). split; [by rewrite released|by eexists].
      * rewrite decide_True, Heqb, (life_pushed _ _ _ _ _ Hok' Hes') by done. by eexists.
  - wp_line. apply account_or_wp. repeat account_step. wp_line. conclude (spent_idle s).
Qed.

Lemma commit_block_keeps cpu reservation : keeps n (commit_block_on cpu reservation) s (permits (domain s) (SchedulerCall.CommitBlockOn cpu reservation)).
Proof using Hok Hn.
  unfold keeps, commit_block_on. wp_line. do 2 (wp_step; [unchanged|]). set (key := block_key reservation) in *. apply negb_false_iff, Z.eqb_eq in Heqb.
  rewrite !orb_false_iff, !negb_false_iff in Heqb0. destruct Heqb0 as [[[Hcpu%bool_decide_eq_true Hp%bool_decide_eq_true] _] Hsu%is_none_true].
  destruct (so_pending _ _ Hok _ _ Hp) as (_ & Htok & Hk). pose proof (so_tally _ _ Hok) as Hta. pose proof (so_shape _ _ Hok) as Hs.
  pose proof (running_idle _ _ Hok _ _ Hk). destruct (th_running _ _ _ (so_threads _ _ Hok) _ _ Hk) as [Hkg Hni].
  pose proof (shape_length _ _ Hs). pose proof (so_room _ _ Hok) as Hroom. pose proof (λ x, busy_run (running s) cpu x) as Hb. rewrite Hk in Hb.
  pose proof (Hb None) as Hb0. cbn in Hb0.
  assert (entry_ok (blocked_entry cpu key)) as Heo by (by split).
  wp_line. apply account_or_wp. account_step. account_step. account_step. destruct (find (local_runnable cpu) s) as [e|] eqn:Hf.
  - destruct (next_entry _ _ Hok _ _ Hf) as (Hl & Ht & Hrun & Htg & Hc). repeat account_step; [done|done|].
    wp_line. eapply (claim_wp n); [exact Hs|apply Hok|lia|congruence|]. intros i e' g x Hi He' Hf' Hg' Hx.
    assert (e' = e) as -> by congruence. wp_line. apply clear_wp; [apply (ti_one _ _ _ _ (so_tickets _ _ Hok))|]. intros cleared. wp_line.
    specialize (Hb (Some {| run_thread := q_thread e; run_generation := g |})). cbn in Hb. pose proof (lookup_lt_Some _ _ _ Hi).
    eapply push_wp; [done|done|by lengths|by apply absent_after_delete|]. wp_line. conclude (spent_idle s); try on_this_cpu Hok.
    + cbn. rewrite cpu_insert_insert. by eapply threads_switch; try done; apply Hok.
    + eapply (switch_moves n _ s _ Hok Hok' i e cpu g Hi Hrun (cpu_insert_insert _ _ _ _) eq_refl _ _ _ Hk Hes');
        [by intros ? ->%list_elem_of_singleton| |]; unfold permits; fold key.
      * rewrite decide_False by (by eapply other_thread). split; [by rewrite released|by eexists].
      * rewrite decide_True, Hp, (life_pushed _ _ _ _ _ Hok' Hes') by done. by split_and!.
  - repeat account_step. wp_line. eapply (claim_wp n); [exact Hs|apply Hok|lia| |congruence]. intros _. wp_line.
    apply clear_wp; [apply (ti_one _ _ _ _ (so_tickets _ _ Hok))|]. intros cleared. wp_line.
    eapply push_wp; [apply Hs|apply Hs|lia|done|]. wp_line. conclude (spent_idle s); try on_this_cpu Hok.
    + cbn. rewrite cpu_insert_insert. by eapply threads_leave; try done; apply Hok.
    + eapply (leave_moves n _ s _ cpu _ _ _ Hok Hok' Hk (cpu_insert_insert _ _ _ _) eq_refl Hes'); [by intros ? ->%list_elem_of_singleton|].
      unfold permits. fold key. rewrite decide_True, Hp, (life_pushed _ _ _ _ _ Hok' Hes') by done. by split_and!.
Qed.

(** Where a CPU still has a continuation, none is pulled but the last is
    completed first. *)
Lemma preempt_keeps cpu : keeps n (preempt_current_on cpu) s (permits (domain s) (SchedulerCall.PreemptCurrentOn cpu)).
Proof using Hok Hn.
  unfold keeps, preempt_current_on. wp_line. do 2 (wp_step; [|unchanged]; wp_line). rename s0 into request, r into k. wp_step.
  { wp_line. conclude (spent_idle s). apply tickets_unneed, Hok. }
  wp_step; [unchanged|]. rewrite !orb_false_iff, !negb_false_iff, !is_none_true in Heqb0. destruct Heqb0 as [[_ Hp] Hsu].
  wp_line. eapply wp_mono; [apply pull_wp; [exact Hok|lia]| |by intros].
  intros pulled s1 (Hok1 & Hsame & Hpulled). apply (keeps_from _ _ _ _ _ Hsame). destruct Hsame as [Hr1 Hsu1 Hp1 _ _]. rewrite <- Hr1 in Heqo0. rewrite <- Hp1 in Hp. rewrite <- Hsu1 in Hsu. clear Hr1 Hsu1 Hp1.
  pose proof (so_tally _ _ Hok1) as Hta. pose proof (so_shape _ _ Hok1) as Hs. pose proof (running_idle _ _ Hok1 _ _ Heqo0).
  destruct (th_running _ _ _ (so_threads _ _ Hok1) _ _ Heqo0) as [Hkg Hni]. wp_line. destruct (find (local_runnable cpu) s1) as [e|] eqn:Hf.
  - destruct (next_entry _ _ Hok1 _ _ Hf) as (Hl & Ht & Hrun & Htg & Hc). pose proof (so_generations _ _ Hok1) as Hg.
    cbv zeta. rewrite (next_minted _ _ (ge_enqueue _ _ Hg)) by lia. wp_line. apply account_or_wp. repeat account_step; [done|done| |].
    { unfold bump. rewrite Htg, decide_True by done. pose proof (load_bounds (entries s1) cpu). pose proof (so_room _ _ Hok1).
      pose proof (so_fits _ _ Hok1). lia. }
    unfold or_roll_back. wp_line. apply wp_try.
    eapply (claim_wp (n + 1)); [exact Hs|apply Hg|lia|congruence|]. intros i e' g x Hi He' Hf' Hg' Hx.
    assert (e' = e) as -> by congruence. wp_line. eapply wp_expect; [done|]. wp_line.
    pose proof (busy_run (running s1) cpu (Some {| run_thread := q_thread e; run_generation := g |})) as Hb. rewrite Heqo0 in Hb. cbn in Hb.
    pose proof (lookup_lt_Some _ _ _ Hi). pose proof (shape_length _ _ Hs).
    eapply push_wp; [done|done|by lengths|by apply absent_after_delete|]. wp_line. conclude (spent_idle s1); try on_this_cpu Hok1.
    + by eapply threads_switch; try done; [apply Hok1|apply entry_outgoing; [done|]; apply (minted_nonzero _ _ (ge_enqueue _ _ Hg))].
    + eapply (switch_moves _ _ s1 _ Hok1 Hok' i e cpu g Hi Hrun eq_refl (pending_none _ _ Hp) _ k _ Heqo0 Hes'); [by intros ? ->%list_elem_of_singleton|right|left].
      * split; [by rewrite released|by eexists].
      * rewrite Hp, (life_pushed _ _ _ _ _ Hok' Hes') by done. by eexists.
  - destruct Hpulled as [-> |?]; [|done]. cbn [roll_back]. wp_line. conclude (spent_idle s1). apply tickets_unneed, Hok1.
Qed.

(** A suspended CPU claims the first entry that it may run, which can be its
    own suspended thread. *)
Lemma claim_idle_wp m s1 cpu u Q (R : SchedulerError.t → SchedulerState.t → Prop) : sched_ok m s1 → 8 * (m + 1) < 2 ^ 64 →
  suspended s1 !!! cpu = Some u →
  (find (idle_runnable cpu) s1 = None → Q None s1) →
  (∀ i e g x, entries s1 !! i = Some e → find (idle_runnable cpu) s1 = Some e → g ≠ 0 → minted (m + 1) x →
    (q_continuation_cpu e = Some cpu → q_continuation_generation e = g) →
    Q (Some {| run_thread := q_thread e; run_generation := g |}) (with_next_execution_generation x (requeue (delete i (entries s1)) s1))) →
  wp (claim_first_runnable_for_idle cpu u) s1 Q R.
Proof.
  intros Hok1 Hm Hu HN HS. pose proof (so_shape _ _ Hok1) as Hs. unfold claim_first_runnable_for_idle. wp_line.
  destruct (position (idle_runnable cpu) s1) as [i|] eqn:Hp.
  - destruct (position_Some _ _ _ _ Hs Hp) as (e & Hi & He & Hq & Hf). wp_line. eapply wp_expect; [exact Hq|]. wp_line.
    assert (find (idle_runnable cpu) s1 = Some e) as Hfe by (by rewrite (find_shape _ _ _ Hs), Hf). wp_step.
    + apply bool_decide_eq_true in Heqb. pose proof (list_elem_of_lookup_2 _ _ _ Hi) as Hin.
      destruct (th_continued _ _ _ (so_threads _ _ Hok1) _ _ Hin Heqb) as (u' & Hu' & Hth & _). assert (u' = u) as -> by congruence.
      destruct (held_entry _ _ _ (so_threads _ _ Hok1) _ _ _ Hu Hin) as [(_ & _ & Hg) _]; [done|].
      rewrite Hth, bool_decide_true, Hg, Z.eqb_refl by done. cbn. wp_line.
      eapply wp_eq; [by apply (remove_index_shape _ _ _ _ Hs)|]. wp_line.
      rewrite <- (with_same_execution (requeue _ _)). apply HS; [done..| | |].
      * by destruct (th_suspended _ _ _ (so_threads _ _ Hok1) _ _ Hu).
      * eapply minted_weaken; [apply Hok1|lia].
      * done.
    + apply bool_decide_eq_false in Heqb. apply (execution_wp m); [apply Hok1|lia|]. intros g x Hg Hx. wp_line.
      eapply wp_eq; [apply (remove_index_shape (with_next_execution_generation x s1) (entries s1) i e); [|done]|].
      { by eapply shape_ext; [..|exact Hs]. }
      wp_line. by apply (HS i e g x); [..|intros ?].
  - wp_line. apply HN. rewrite (find_shape _ _ _ Hs). rewrite (position_shape _ _ _ Hs) in Hp. by destruct (list_find _ (entries s1)).
Qed.

Lemma schedule_from_idle_keeps cpu thread : keeps n (schedule_from_idle_on_with_migration cpu thread) s (permits (domain s) (SchedulerCall.ScheduleFromIdleOn cpu thread)).
Proof using Hok Hn.
  unfold keeps, schedule_from_idle_on_with_migration. wp_line. do 3 (wp_step; [unchanged|]).
  apply negb_false_iff, is_none_true in Heqb0, Heqb1. wp_line. wp_step; [|unchanged]. rename s0 into u. wp_step; [unchanged|].
  rewrite orb_false_iff, !negb_false_iff, !bool_decide_eq_true in Heqb2. destruct Heqb2 as [Hth Hpub].
  assert (∀ (b : bool) (a c : M SchedulerState.t SchedulerError.t (option PendingMigration)), (if b then a else c) = if negb b then c else a) as Hneg
    by (by intros []). rewrite Hneg. wp_line. eapply wp_mono; [apply maybe_pull_wp| |by intros].
  intros pending s1 (Hok1 & Hsame & Hpulled). apply (keeps_from _ _ _ _ _ Hsame). destruct Hsame as [Hr1 Hsu1 _ Hi1 _]. rewrite <- Hr1 in Heqb0. rewrite <- Hi1 in Heqb1. rewrite <- Hsu1 in Heqo. clear Hr1 Hsu1 Hi1 Hneg.
  pose proof (so_shape _ _ Hok1) as Hs. pose proof (so_tally _ _ Hok1) as Hta.
  pose proof (idle_pending _ _ _ Hok1 Heqb0). pose proof (idle_quantum _ _ _ Hok1 Heqb0). pose proof (idle_need _ _ _ Hok1 Heqb0).
  pose proof (busy_run (running s1) cpu) as Hb. rewrite Heqb0 in Hb.
  wp_line. destruct (find (idle_runnable cpu) s1) as [e|] eqn:Hf.
  - destruct (next_idle_entry _ _ Hok1 _ _ Hf) as (Hl & Ht & Hrun & Htg & Hc).
    assert (∀ i g, entries s1 !! i = Some e → g ≠ 0 → q_thread e ≠ thread →
      threads_ok (delete i (entries s1)) (<[cpu := Some {| run_thread := q_thread e; run_generation := g |}]> (running s1)) (suspended s1)) as Hclaim.
    { intros i g Hi Hg Hne. destruct Hc as [Hc|Hc]; [by eapply threads_claim; [apply Hok1|..]|].
      destruct (th_continued _ _ _ (so_threads _ _ Hok1) _ _ (list_elem_of_lookup_2 _ _ _ Hi) Hc) as (? & ? & ? & _). congruence. }
    wp_line. apply account_or_wp. do 2 account_step; [done|]. do 2 account_step; [done|].
    eapply (wp_mono _ _ (λ _ a', tally (8 * (n + 1) + 1) (bump (q_target_cpu e) (-1) (load (entries s1))) (spent_idle s1) a') _ (λ _ _, False)); [|intros ? a' Hta'; cbv beta in Hta'|by intros].
    { destruct (of_thread thread e); account_step; [eapply tally_ext; [done|lia|done..]|done]. }
    wp_line. unfold or_roll_back. wp_line. apply wp_try. eapply (claim_idle_wp (n + 1)); [exact Hok1|lia|done|congruence|].
    intros i e' g x Hi Hf' Hg Hx Hcg. assert (e' = e) as -> by congruence. wp_line. eapply wp_expect; [done|]. wp_line.
    assert (permits (domain s) (SchedulerCall.ScheduleFromIdleOn cpu thread) (q_thread e) (Some (ThreadLife.Runnable (held e)))
      (Some (ThreadLife.Running cpu g None))) as HP.
    { destruct Hc as [Hc|Hc]; [left; split; [by rewrite released|by eexists]|right].
      destruct (th_continued _ _ _ (so_threads _ _ Hok1) _ _ (list_elem_of_lookup_2 _ _ _ Hi) Hc) as (u' & Hu' & Hth' & _).
      assert (u' = u) as -> by congruence. split; [congruence|]. exists g. unfold held. by rewrite Hc, <- (Hcg Hc). }
    specialize (Hb (Some {| run_thread := q_thread e; run_generation := g |})). cbn in Hb. pose proof (lookup_lt_Some _ _ _ Hi).
    cbn [run_thread]. wp_step; wp_line; (conclude (spent_idle s1); try on_this_cpu Hok1).
    2,4: by eapply (claim_moves _ _ _ _ Hok1 Hok' _ _ _ _ Hi Hrun eq_refl (pending_none _ _ H) _ Heqb0 Hes').
    + apply bool_decide_eq_true in Heqb2. eapply threads_resume; [apply Hok1|exact Heqo|done|congruence|done..].
    + apply bool_decide_eq_false in Heqb2. by apply Hclaim.
  - destruct Hpulled as [-> |Hl].
    + cbn [roll_back]. wp_line. eapply assert_invariants_wp; [exact Hok1|]. unchanged.
    + by destruct Hl; apply (local_is_idle _ _ Hok1).
Qed.
End switches.

(** * Calls that end a continuation or a thread

    Completion of a switch, retirement and terminal stops keep the
    invariant, and never panic. *)

Import SchedulerState CooperativeScheduler.
Local Open Scope Z_scope.

(** The thread whose continuation is released. *)
Lemma released_moves n n' s s' i e g P : sched_ok n s → sched_ok n' s' → entries s !! i = Some e →
  entries s' = <[i := released_entry g e]> (entries s) → running s' = running s → pending_block s' = pending_block s →
  P (q_thread e) (Some (entry_life e)) (Some (entry_life (released_entry g e))) → moved P s s'.
Proof.
  intros Hok Hok' Hi Hes' Hr Hp HP. moving Hok [q_thread e].
  rewrite (life_queued _ _ Hok e) by (by eapply list_elem_of_lookup_2 || done).
  by rewrite (life_queued _ _ Hok' (released_entry g e)) by (rewrite ?Hes'; first [by eapply elem_of_written, lookup_lt_Some|done]).
Qed.

(** What completing a switch does to the life of the thread. *)
Lemma released_life e g cpu : entry_ok e → q_continuation_cpu e = Some cpu →
  let held := Some (cpu, q_continuation_generation e) in let a := Some (entry_life e) in let b := Some (entry_life (released_entry g e)) in
  a = Some (ThreadLife.Runnable held) ∧ b = Some (ThreadLife.Runnable None) ∨
  ∃ token blocker generation, a = Some (ThreadLife.Blocked token blocker generation held) ∧ b = Some (ThreadLife.Blocked token blocker generation None).
Proof.
  intros [Hst _ _] Hc. unfold entry_life, held. cbn. rewrite Hc. destruct (q_state e); [destruct Hst as (_ & _ & ?); congruence|by left|done|].
  right. eauto.
Qed.

(** A thread whose continuation is retired is outside the scheduler. *)
Lemma life_retired n s cpu u thread : sched_ok n s → suspended s !!! cpu = Some u → susp_thread u = thread →
  susp_publication u = SuspendedPublication.Retired → life thread s = None.
Proof.
  intros Hok Hu <- Hp. destruct (th_suspended _ _ _ (so_threads _ _ Hok) _ _ Hu) as (_ & Hr & Hq). rewrite Hp in Hq. by apply life_absent.
Qed.

Section ends.
Context (n : Z) s (Hok : sched_ok n s) (Hn : 8 * (n + 2) < 2 ^ 64).

(** What a call knows of the entry of a suspended thread. *)
Lemma found_held cpu u i e thread : suspended s !!! cpu = Some u → entries s !! i = Some e → of_thread thread e = true →
  susp_thread u = thread → q_thread e = susp_thread u ∧ q_continuation_cpu e = Some cpu ∧
  q_continuation_generation e = susp_generation u ∧ susp_publication u = SuspendedPublication.Queued.
Proof using Hok.
  intros Hu Hi He%bool_decide_eq_true Hth. pose proof (list_elem_of_lookup_2 _ _ _ Hi) as Hin.
  destruct (held_entry _ _ _ (so_threads _ _ Hok) _ _ _ Hu Hin) as [(? & ? & ?) ?]; [congruence|done].
Qed.

Lemma entry_released e g : entry_ok e → is_Some (q_continuation_cpu e) → (is_runnable e = true → g ≠ 0) → entry_ok (released_entry g e).
Proof.
  intros [Hst Hbl Hco] [cpu Hc] Hg. unfold is_runnable in Hg. split; cbn; [|done|done].
  destruct (q_state e); try done.
  - destruct Hst as (_ & _ & ?). congruence.
  - destruct Hst as (? & ? & _). split_and!; [done..|]. intros _. by apply Hg.
Qed.

Lemma complete_switch_keeps claim : keeps n (complete_switch_on_with_runnable_publication claim) s (permits (domain s) (SchedulerCall.CompleteSwitchOn claim)).
Proof using Hok Hn.
  unfold keeps, complete_switch_on_with_runnable_publication. wp_line. do 2 (wp_step; [unchanged|]). wp_line. wp_step; [|unchanged].
  rename s0 into u. wp_step; [unchanged|]. rewrite orb_false_iff, !negb_false_iff, bool_decide_eq_true, Z.eqb_eq in Heqb1.
  destruct Heqb1 as [Hth Hgen]. pose proof (so_generations _ _ Hok) as Hg. pose proof (so_tally _ _ Hok) as Hta. pose proof (so_shape _ _ Hok) as Hs.
  unfold checked_generation. wp_line. wp_step; [unchanged|]. mint (ge_completed _ _ Hg). wp_step.
  - wp_line. wp_step; [|unchanged]. destruct (found _ _ Hok _ _ Heqo0) as (e & Hi & He & Hq & Hlt & Heok).
    destruct (found_held _ _ _ _ _ Heqo Hi He Hth) as (Hte & Hc & Hcg & _). wp_line. eapply wp_expect; [exact Hq|]. wp_line.
    pose proof (λ g, entry_released e g Heok (ex_intro _ _ Hc)) as Hrel.
    assert (∀ g, permits (domain s) (SchedulerCall.CompleteSwitchOn claim) (q_thread e) (Some (entry_life e)) (Some (entry_life (released_entry g e)))) as HP.
    { intros g. pose proof (released_life e g _ Heok Hc) as Hlife. rewrite Hcg, Hgen in Hlife. split_and!; [by apply Z.eqb_eq, negb_false_iff|congruence|done]. }
    assert (bool_decide (q_continuation_cpu e = Some (claim_cpu claim)) = true) as Hb1 by (by apply bool_decide_eq_true).
    assert ((q_continuation_generation e =? claim_generation claim) = true) as Hb2 by (apply Z.eqb_eq; congruence).
    assert (timely (instrumentation_global_now_ns s) e) as Hready by (eapply times_entry; [apply Hok|by eapply list_elem_of_lookup_2]).
    wp_step.
    + unfold mint_migration_eligibility_generation. mint (ge_eligibility _ _ Hg). rewrite Hb1, Hb2. cbn [negb orb]. wp_line.
      set (g := next_migration_eligibility_generation s). assert (is_runnable (released_entry g e) = true) as Hr' by done.
      match goal with |- context [write_entry n0 _ ?x] => rewrite (write_entry_shape x (entries s)) by first [done|by eapply shape_ext; [..|exact Hs]] end.
      destruct (susp_involuntary_preemption u); wp_line; [apply account_or_wp; repeat account_step; wp_line|];
      (conclude (spent_idle s); [|apply times_insert; [apply Hok|by apply Hready]|by apply (released_moves n _ s _ _ e _ _ Hok Hok' Hi Hes')]);
      (eapply threads_release; [apply Hok|exact Heqo|exact Hi|done..|]; apply Hrel; intros _; apply (minted_nonzero _ _ (ge_eligibility _ _ Hg))).
    + wp_line. rewrite Hb1, Hb2. cbn [negb orb]. wp_line. assert (is_runnable (released_entry 0 e) = false) as Hr' by done.
      rewrite (write_entry_shape _ _ _ _ Hs) by done.
      destruct (susp_involuntary_preemption u); wp_line; [apply account_or_wp; repeat account_step; wp_line|];
      (conclude (spent_idle s); [|apply times_insert; [apply Hok|by apply Hready]|by apply (released_moves n _ s _ _ e _ _ Hok Hok' Hi Hes')]);
      (eapply threads_release; [apply Hok|exact Heqo|exact Hi|done..|]; apply Hrel; congruence).
  - apply bool_decide_eq_false in Heqb2. assert (∀ e, e ∈ entries s → q_continuation_cpu e ≠ Some (claim_cpu claim)) as Hnone.
    { intros e He Hc. destruct (th_continued _ _ _ (so_threads _ _ Hok) _ _ He Hc) as (? & ? & _ & ?). congruence. }
    wp_line. destruct (susp_involuntary_preemption u); wp_line; [apply account_or_wp; repeat account_step; wp_line|];
    (conclude (spent_idle s); apply threads_forget; [apply Hok|done]).
Qed.

(** ** Retirement *)

Lemma retire_running_keeps cpu thread : claims thread (running s !!! cpu) = true → keeps n (retire_running cpu thread) s (permits (domain s) (SchedulerCall.RetireOn cpu thread)).
Proof using Hok Hn.
  intros Hcl. destruct (running s !!! cpu) as [k|] eqn:Hk; [|done]. apply bool_decide_eq_true in Hcl. unfold keeps, retire_running. wp_line.
  wp_step; [unchanged|]. apply negb_false_iff, is_none_true in Heqb. wp_line. eapply wp_expect; [exact Hk|].
  pose proof (so_tally _ _ Hok) as Hta. pose proof (so_shape _ _ Hok) as Hs. pose proof (running_idle _ _ Hok _ _ Hk).
  destruct (th_running _ _ _ (so_threads _ _ Hok) _ _ Hk) as [_ Hni]. pose proof (busy_run (running s) cpu) as Hb. rewrite Hk in Hb.
  assert (∀ key, pending_block s !!! cpu = Some key → wake_thread key = thread) as Hpend.
  { intros key Hkey. rewrite (running_pending _ _ Hok _ _ _ Hk Hkey). done. }
  pose proof (threads_retire _ _ _ (so_threads _ _ Hok) cpu k {| susp_thread := thread; susp_generation := run_generation k;
    susp_publication := SuspendedPublication.Retired; susp_involuntary_preemption := false |} Hk Heqb (eq_sym Hcl) eq_refl eq_refl) as Hret.
  wp_line. apply account_or_wp. do 2 account_step. destruct (find (local_runnable cpu) s) as [e|] eqn:Hf.
  - destruct (next_entry _ _ Hok _ _ Hf) as (Hl & Ht & Hrun & Htg & Hc). repeat account_step; [done|done|].
    wp_line. eapply (claim_wp n); [exact Hs|apply Hok|lia|congruence|]. intros i e' g x Hi He' Hf' Hg' Hx.
    assert (e' = e) as -> by congruence. wp_line. apply drop_wp; [done|]. wp_line.
    apply clear_wp; [apply (ti_one _ _ _ _ (so_tickets _ _ Hok))|]. intros cleared. wp_line.
    specialize (Hb (Some {| run_thread := q_thread e; run_generation := g |})). cbn in Hb. pose proof (lookup_lt_Some _ _ _ Hi).
    conclude (spent_idle s); try on_this_cpu Hok.
    + cbn. rewrite <- (cpu_insert_insert cpu _ None). eapply threads_claim; [exact Hret|done..|apply cpu_lookup_insert_eq|done].
    + rewrite <- (app_nil_r (delete i _)) in Hes'.
      eapply (switch_moves n _ s _ Hok Hok' i e cpu g Hi Hrun eq_refl eq_refl _ k _ Hk Hes'); [by intros ? ?%elem_of_nil| |]; unfold permits.
      * rewrite decide_False by (rewrite <- Hcl; by eapply other_thread). split; [by rewrite released|by eexists].
      * rewrite decide_True by done. split_and!; [done| |by right].
        by eapply (life_retired _ _ cpu); [exact Hok'|apply cpu_lookup_insert_eq|..].
  - account_step. wp_line. eapply (claim_wp n); [exact Hs|apply Hok|lia| |congruence]. intros _. wp_line. apply drop_wp; [done|]. wp_line.
    apply clear_wp; [apply (ti_one _ _ _ _ (so_tickets _ _ Hok))|]. intros cleared. wp_line. specialize (Hb None). cbn in Hb.
    conclude (spent_idle s); try on_this_cpu Hok; [exact Hret|]. rewrite <- (app_nil_r (entries s)) in Hes'.
    eapply (leave_moves n _ s _ cpu k _ _ Hok Hok' Hk eq_refl eq_refl Hes'); [by intros ? ?%elem_of_nil|].
    unfold permits. rewrite decide_True by done. split_and!; [done| |by right]. by eapply (life_retired _ _ cpu); [exact Hok'|apply cpu_lookup_insert_eq|..].
Qed.

Lemma unbound e : q_continuation_cpu e = None → bound_to (Some (entry_life e)) = None.
Proof. intros Hc. unfold entry_life. destruct (q_state e); cbn; unfold held; by rewrite ?Hc. Qed.

Lemma bound e cpu : entry_ok e → q_continuation_cpu e = Some cpu → bound_to (Some (entry_life e)) = Some cpu.
Proof.
  intros [Hst _ _] Hc. unfold entry_life. destruct (q_state e); cbn; unfold held; rewrite ?Hc; try done. destruct Hst as (_ & _ & ?). congruence.
Qed.

Lemma retire_queued_keeps cpu thread : keeps n (retire_queued cpu thread) s (permits (domain s) (SchedulerCall.RetireOn cpu thread)).
Proof using Hok Hn.
  unfold keeps, retire_queued. wp_line. wp_step; [|unchanged]. destruct (found _ _ Hok _ _ Heqo) as (e & Hi & He & Hq & Hlt & _).
  wp_line. eapply wp_expect; [exact Hq|]. wp_step; [unchanged|]. apply negb_false_iff, is_none_true in Heqb.
  pose proof (so_tally _ _ Hok) as Hta. pose proof (so_shape _ _ Hok) as Hs. wp_line. apply account_or_wp. destruct (is_runnable e) eqn:Hr.
  - account_step. { eapply load_pos; [exact Hi|]. by rewrite (on_cpu_runnable _ _ Hr), bool_decide_true. }
    wp_line. eapply wp_eq; [by apply (remove_index_shape _ _ _ _ Hs)|]. wp_line. (conclude (spent_idle s); [by eapply threads_remove; [apply Hok|..]|]).
    moving Hok [q_thread e]. apply bool_decide_eq_true in He. unfold permits. rewrite decide_True by done.
    rewrite (life_here _ _ Hok _ _ _ Hi) by done. split_and!; [done|by eapply (life_gone n s); [done..|exact Hes'|]|left; by apply unbound].
  - account_step. wp_line. eapply wp_eq; [by apply (remove_index_shape _ _ _ _ Hs)|]. wp_line. (conclude (spent_idle s); [by eapply threads_remove; [apply Hok|..]|]).
    moving Hok [q_thread e]. apply bool_decide_eq_true in He. unfold permits. rewrite decide_True by done.
    rewrite (life_here _ _ Hok _ _ _ Hi) by done. split_and!; [done|by eapply (life_gone n s); [done..|exact Hes'|]|left; by apply unbound].
Qed.

Lemma stop_running_keeps claim : keeps n (stop_running_claim_on claim) s (permits (domain s) (SchedulerCall.StopRunningClaimOn claim)).
Proof using Hok Hn.
  unfold keeps, stop_running_claim_on. wp_line. do 4 (wp_step; [unchanged|]). apply negb_false_iff in Heqb1. apply negb_false_iff, is_none_true in Heqb2.
  destruct (running s !!! claim_cpu claim) as [k|] eqn:Hk; [|done]. cbn in Heqb1. rewrite andb_true_iff, bool_decide_eq_true, Z.eqb_eq in Heqb1.
  destruct Heqb1 as [Hth Hg]. pose proof (so_tally _ _ Hok) as Hta. pose proof (running_idle _ _ Hok _ _ Hk).
  wp_line. apply account_or_wp. repeat account_step. wp_line.
  apply drop_wp; [intros key Hkey; by rewrite (running_pending _ _ Hok _ _ _ Hk Hkey)|]. wp_line.
  apply clear_wp; [apply (ti_one _ _ _ _ (so_tickets _ _ Hok))|]. intros cleared. wp_line.
  pose proof (busy_run (running s) (claim_cpu claim) None) as Hb. rewrite Hk in Hb. cbn in Hb.
  conclude (spent_idle s); try on_this_cpu Hok; [by eapply threads_retire; [apply Hok|exact Hk|..]|].
  rewrite <- (app_nil_r (entries s)) in Hes'.
  eapply (leave_moves n _ s _ _ k _ _ Hok Hok' Hk eq_refl eq_refl Hes'); [by intros ? ?%elem_of_nil|].
  split_and!; [by apply Z.eqb_eq, negb_false_iff|done|rewrite <- Hg; by eexists|]. by eapply (life_retired _ _ _ _ _ Hok'); [apply cpu_lookup_insert_eq|..].
Qed.

Lemma retire_unentered_keeps claim : keeps n (retire_unentered_running_claim_on claim) s (permits (domain s) (SchedulerCall.RetireUnenteredOn claim)).
Proof using Hok Hn.
  unfold keeps, retire_unentered_running_claim_on. wp_line. wp_step; [unchanged|]. wp_line. wp_step; [|unchanged]. wp_step; [unchanged|].
  rewrite !orb_false_iff, !negb_false_iff, Z.eqb_eq in Heqb. destruct Heqb as [[Hdom _] Hr].
  destruct (running s !!! claim_cpu claim) as [k|] eqn:Hk; [|done]. cbn in Hr. rewrite andb_true_iff, bool_decide_eq_true, Z.eqb_eq in Hr.
  destruct Hr as [Hth Hg]. pose proof (running_idle _ _ Hok _ _ Hk).
  wp_line. apply drop_wp; [intros key Hkey; by rewrite (running_pending _ _ Hok _ _ _ Hk Hkey)|]. wp_line.
  apply clear_wp; [apply (ti_one _ _ _ _ (so_tickets _ _ Hok))|]. intros cleared. wp_line.
  pose proof (busy_run (running s) (claim_cpu claim) None) as Hb. rewrite Hk in Hb. cbn in Hb.
  conclude (spent_idle s); try on_this_cpu Hok; [apply threads_stop, Hok|].
  destruct (th_running _ _ _ (so_threads _ _ Hok) _ _ Hk) as [_ Hni]. assert (life (run_thread k) s' = None) as Hgone.
  { apply life_absent; [by rewrite Hes'|]. cbn. intros c k' Hk'. cpu_cases. intros Heq.
    assert (c = claim_cpu claim); [|done]. by eapply (th_once _ _ _ (so_threads _ _ Hok)). }
  rewrite <- (app_nil_r (entries s)) in Hes'.
  eapply (leave_moves n _ s _ _ k _ _ Hok Hok' Hk eq_refl eq_refl Hes'); [by intros ? ?%elem_of_nil|].
  split_and!; [done..|rewrite <- Hg; by eexists|done].
Qed.

Lemma stop_suspended_keeps claim : keeps n (stop_suspended_claim_on claim) s (permits (domain s) (SchedulerCall.StopSuspendedClaimOn claim)).
Proof using Hok Hn.
  unfold keeps, stop_suspended_claim_on. wp_line. wp_step; [unchanged|]. wp_line. wp_step; [|unchanged]. rename s0 into u. wp_step; [unchanged|].
  rewrite !orb_false_iff, !negb_false_iff, !bool_decide_eq_true, Z.eqb_eq in Heqb0. destruct Heqb0 as [[Hth Hg] Hpub].
  rewrite orb_false_iff, negb_false_iff, Z.eqb_eq in Heqb. destruct Heqb as [Hdom _]. wp_line. wp_step; [|unchanged].
  destruct (found _ _ Hok _ _ Heqo0) as (e & Hi & He & Hq & Hlt & Heok). pose proof (list_elem_of_lookup_2 _ _ _ Hi) as Hin. destruct (found_held _ _ _ _ _ Heqo Hi He Hth) as (Hte & Hc & Hcg & _).
  wp_line. eapply wp_expect; [exact Hq|]. wp_step; [unchanged|]. pose proof (so_tally _ _ Hok) as Hta. pose proof (so_shape _ _ Hok) as Hs.
  assert (susp_generation u ≠ 0) by (by destruct (th_suspended _ _ _ (so_threads _ _ Hok) _ _ Heqo)).
  wp_line. apply account_or_wp. destruct (is_runnable e) eqn:Hr.
  - account_step. { eapply load_pos; [exact Hi|]. by rewrite (on_cpu_runnable _ _ Hr), bool_decide_true. }
    wp_line. eapply wp_eq; [by apply (remove_index_shape _ _ _ _ Hs)|]. wp_line. conclude (spent_idle s).
    { eapply threads_retire_held; [apply Hok|exact Heqo|exact Hi|done|done|cbn; congruence|done]. }
    moving Hok [q_thread e]. split_and!; [done|congruence|rewrite (life_here _ _ Hok _ _ _ Hi) by done|by eapply (life_gone n s); [done..|exact Hes'|]].
    rewrite <- Hg, <- Hcg. destruct (released_life e 0 _ Heok Hc) as [[? _]|(? & ? & ? & ? & _)]; [by left|right; eauto].
  - assert (q_state e = SchedulerThreadState.Blocked) as Hbl.
    { destruct Heok as [Hst _ _]. unfold is_runnable in Hr. apply bool_decide_eq_false in Hr. destruct (q_state e); try done.
      destruct Hst as (_ & _ & ?). congruence. }
    account_step. wp_line. eapply wp_eq; [by apply (remove_index_shape _ _ _ _ Hs)|]. wp_line. conclude (spent_idle s).
    { eapply threads_retire_held; [apply Hok|exact Heqo|exact Hi|done|done|cbn; congruence|done]. }
    moving Hok [q_thread e]. split_and!; [done|congruence|rewrite (life_here _ _ Hok _ _ _ Hi) by done|by eapply (life_gone n s); [done..|exact Hes'|]].
    rewrite <- Hg, <- Hcg. destruct (released_life e 0 _ Heok Hc) as [[? _]|(? & ? & ? & ? & _)]; [by left|right; eauto].
Qed.

Lemma drop_load_wp i e (R : SchedulerError.t → SchedulerAccounting.t → Prop) Q : entries s !! i = Some e →
  (∀ a, tally (8 * n) (load (delete i (entries s))) (spent_idle s) a → Q tt a) →
  wp (if is_runnable e then SchedulerAccounting.decrement_runnable (q_target_cpu e) else mret tt) (accounting s) Q R.
Proof using Hok.
  intros Hi HQ. pose proof (so_tally _ _ Hok) as Hta. destruct (is_runnable e) eqn:Hr; account_step.
  - eapply load_pos; [exact Hi|]. by rewrite (on_cpu_runnable _ _ Hr), bool_decide_true.
  - destruct a0. apply HQ. eapply tally_ext; [done|done| |done]. loads.
  - apply HQ. eapply tally_ext; [done|done| |done]. loads.
Qed.

Lemma others_entries i : omap id (delete i (queued s)) = delete i (entries s).
Proof using Hok. by rewrite (queued_shape _ _ (so_shape _ _ Hok)), <- list_fmap_delete, omap_Some. Qed.

Lemma retire_suspended_keeps cpu thread : suspends thread (suspended s !!! cpu) = true → active_idle s !!! cpu = None →
  keeps n (retire_suspended cpu thread) s (permits (domain s) (SchedulerCall.RetireOn cpu thread)).
Proof using Hok Hn.
  intros Hsu Hidle. destruct (suspended s !!! cpu) as [u|] eqn:Hu; [|done]. apply bool_decide_eq_true in Hsu.
  unfold keeps, retire_suspended. wp_line. wp_step; [|unchanged]. rename n0 into i.
  destruct (found _ _ Hok _ _ Heqo) as (e & Hi & He & Hq & Hlt & Heok). destruct (found_held _ _ _ _ _ Hu Hi He Hsu) as (Hte & Hc & Hcg & _).
  wp_line. eapply wp_expect; [exact Hq|]. rewrite others_entries. wp_line. wp_step; [unchanged|].
  pose proof (so_shape _ _ Hok) as Hs. pose proof (shape_length _ _ Hs) as Hlen.
  assert (susp_generation u ≠ 0) as Hg by (by destruct (th_suspended _ _ _ (so_threads _ _ Hok) _ _ Hu)).
  set (u' := {| susp_thread := thread; susp_generation := susp_generation u; susp_publication := SuspendedPublication.Retired;
                susp_involuntary_preemption := false |}).
  pose proof (threads_retire_held _ _ _ (so_threads _ _ Hok) i e cpu u u' Hu Hi Hte (eq_sym Hsu) Hg eq_refl) as Hret.
  set (es1 := delete i (entries s)) in *. assert (length es1 = length (entries s) - 1)%nat as Hlen1.
  { unfold es1. rewrite length_delete by eauto. lia. }
  pose proof (λ e', elem_of_delete_thread _ _ _ e' (th_queued _ _ _ (so_threads _ _ Hok)) Hi) as Hin1.
  pose proof (th_queued _ _ _ Hret) as Hnd1. apply bool_decide_eq_true in He.
  pose proof (times_delete _ _ _ _ _ _ (so_times _ _ Hok) i) as Htm1. pose proof (remove_index_shape _ _ _ _ Hs Hi) as Hrem.
  pose proof (older_delete _ _ i (so_order _ _ Hok)) as Ho1. wp_line. apply account_or_wp. wp_line. eapply drop_load_wp; [exact Hi|]. intros a Hta. fold es1 in Htm1, Hrem, Hta, Hin1, Ho1. clearbody es1. cbv beta.
  destruct (running s !!! cpu) as [k|] eqn:Hk.
  - cbn [is_none andb]. assert (∀ o : option QueueEntry, keep (λ _, false) o = None) as -> by (by intros []). account_step.
    wp_line. eapply wp_eq; [exact Hrem|]. wp_line. rewrite Hu. eapply wp_expect; [done|]. wp_line. cbn [is_none]. wp_line.
    conclude (spent_idle s).
    + exact Hret.
    + exact Htm1.
    + moving Hok [q_thread e]. unfold permits. rewrite decide_True by done. rewrite (life_here _ _ Hok _ _ _ Hi) by done.
      split_and!; [done| |by right; apply bound].
      by eapply (life_retired _ _ cpu); [exact Hok'|apply cpu_lookup_insert_eq|..].
  - pose proof (idle_pending _ _ _ Hok Hk). pose proof (idle_quantum _ _ _ Hok Hk). pose proof (idle_need _ _ _ Hok Hk).
    pose proof (busy_run (running s) cpu) as Hb. rewrite Hk in Hb. cbn [is_none andb].
    set (s1 := set_suspended cpu (Some u') (requeue es1 s)). assert (shape s1 es1) as Hs1.
    { eapply shape_cells; [reflexivity|reflexivity|lia]. }
    pose proof (find_shape (local_runnable cpu) _ _ Hs1) as Hfind.
    destruct (snd <$> list_find (λ entry, local_runnable cpu entry) es1) as [e2|] eqn:Hf.
    + cbn [is_none negb keep is_some_and]. destruct (sched_find_Some _ _ _ _ Hs1 Hfind) as (j & Hj & He2 & _).
      destruct (local_runnable_true _ _ He2) as (Hr2 & Ht2 & Hc2). repeat account_step.
      { eapply load_pos; [exact Hj|]. by rewrite (on_cpu_runnable _ _ Hr2), bool_decide_true. }
      { eapply times_entry; [apply Htm1|by eapply list_elem_of_lookup_2]. }
      wp_line. eapply wp_eq; [exact Hrem|]. wp_line. rewrite Hu. eapply wp_expect; [done|]. wp_line.
      eapply (claim_wp n s1 es1); [exact Hs1|apply Hok|lia|congruence|]. intros j' e' g x Hj' He' Hf' Hg' Hx.
      assert (e' = e2) as -> by congruence. wp_line. pose proof (lookup_lt_Some _ _ _ Hj').
      specialize (Hb (Some {| run_thread := q_thread e2; run_generation := g |})). cbn in Hb. unfold s1.
      conclude (spent_idle s); try on_this_cpu Hok. 2: apply times_delete, Htm1.
      * by eapply threads_claim; [exact Hret|..].
      * moving Hok [q_thread e; q_thread e2].
        -- unfold permits. rewrite decide_True by done. rewrite (life_here _ _ Hok _ _ _ Hi) by done.
           split_and!; [done| |by right; apply bound]. by eapply (life_retired _ _ cpu); [exact Hok'|apply cpu_lookup_insert_eq|..].
        -- unfold permits. rewrite decide_False by (rewrite <- He; intros Heq; by destruct (proj1 (Hin1 e2) (list_elem_of_lookup_2 _ _ _ Hj))).
           rewrite (life_queued _ _ Hok e2) by (by apply Hin1, (list_elem_of_lookup_2 _ _ _ Hj) || done). rewrite runnable_life, released by done.
           split; [done|]. exists g. rewrite (life_running _ _ Hok' cpu _ _ (cpu_lookup_insert_eq _ _ _)) by done. change (pending_block s') with (pending_block s). by rewrite H.
    + cbn [is_none negb keep is_some_and]. repeat account_step.
      wp_line. eapply wp_eq; [exact Hrem|]. wp_line. rewrite Hu. eapply wp_expect; [done|]. wp_line.
      eapply (claim_wp n s1 es1); [exact Hs1|apply Hok|lia| |congruence]. intros _. wp_line. specialize (Hb None). cbn in Hb. unfold s1.
      conclude (spent_idle s); try on_this_cpu Hok. 2: exact Htm1.
      * by apply threads_stop.
      * moving Hok [q_thread e]. unfold permits. rewrite decide_True by done. rewrite (life_here _ _ Hok _ _ _ Hi) by done.
        split_and!; [done| |by right; apply bound].
        by eapply (life_retired _ _ cpu); [exact Hok'|apply cpu_lookup_insert_eq|..].
Qed.

Lemma retire_keeps cpu thread : active_idle s !!! cpu = None → keeps n (retire_on cpu thread) s (permits (domain s) (SchedulerCall.RetireOn cpu thread)).
Proof using Hok Hn.
  intros Hidle. unfold keeps, retire_on. wp_line. destruct (running_cpu thread s) as [cpu'|] eqn:Hr.
  - wp_step; [unchanged|]. apply negb_false_iff, bool_decide_eq_true in Heqb as ->. apply retire_running_keeps.
    unfold running_cpu in Hr. destruct (list_find _ cpus) as [[j c]|] eqn:Hf; [|done]. injection Hr as ->.
    apply list_find_Some in Hf as (_ & ?%Is_true_true & _). done.
  - destruct (suspended_cpu thread s) as [cpu'|] eqn:Hsu; [|by apply retire_queued_keeps].
    wp_step; [unchanged|]. apply negb_false_iff, bool_decide_eq_true in Heqb as ->. apply retire_suspended_keeps; [|done].
    unfold suspended_cpu in Hsu. destruct (list_find _ cpus) as [[j c]|] eqn:Hf; [|done]. injection Hsu as ->.
    apply list_find_Some in Hf as (_ & ?%Is_true_true & _). done.
Qed.
End ends.
