(* ===== verification/CarrierFacts.v ===== *)
(** * Facts about carrier admission

    The operations keep the invariant of the scheduler, of which they change
    the carriers only, and an invariant of the carriers. *)

From stdpp Require Import base tactics numbers list.
From Stdlib Require Import ZArith Lia.
From S2P Require Import Prelude Abi Object Cpu Wait Clock Deadline Timer LiveTime Scheduler SchedulerOps Carrier SchedulerSpec SchedulerFacts SchedulerInvariant SchedulerMoves SchedulerSteps.
Import SchedulerState CarrierAdmission.
Local Open Scope Z_scope.

Implicit Types (s : SchedulerState.t) (cpu : CpuIndex.t) (call : SchedulerCall.t) (ca : CarrierAdmissionState.t).

(** ** The mask *)

Definition in_mask cpu (mask : Z) : bool := negb (Z.land mask (cpu_bit cpu) =? 0).

Lemma in_mask_testbit cpu mask : in_mask cpu mask = Z.testbit mask (Z.of_nat (CpuIndex.index cpu)).
Proof.
  unfold in_mask, cpu_bit. set (i := Z.of_nat (CpuIndex.index cpu)). assert (0 ≤ i) by lia. rewrite Z.shiftl_1_l.
  destruct (Z.testbit mask i) eqn:Hb.
  - apply negb_true_iff, Z.eqb_neq. intros H0. assert (Z.testbit (Z.land mask (2 ^ i)) i = true) as Ht.
    { by rewrite Z.land_spec, Hb, Z.pow2_bits_true. }
    by rewrite H0, Z.bits_0 in Ht.
  - apply negb_false_iff, Z.eqb_eq, Z.bits_inj'. intros j Hj. rewrite Z.bits_0, Z.land_spec.
    destruct (decide (j = i)) as [-> |]; [by rewrite Hb|]. by rewrite Z.pow2_bits_false, andb_false_r.
Qed.

Lemma bit_of_cpu cpu cpu' : Z.testbit (cpu_bit cpu) (Z.of_nat (CpuIndex.index cpu')) = bool_decide (cpu = cpu').
Proof. by destruct cpu, cpu'. Qed.

Lemma in_mask_lor cpu cpu' mask : in_mask cpu' (Z.lor mask (cpu_bit cpu)) = in_mask cpu' mask || bool_decide (cpu = cpu').
Proof. by rewrite !in_mask_testbit, Z.lor_spec, bit_of_cpu. Qed.

Lemma in_mask_clear cpu cpu' mask : in_mask cpu' (Z.land mask (unot 64 (cpu_bit cpu))) = in_mask cpu' mask && negb (bool_decide (cpu = cpu')).
Proof.
  rewrite !in_mask_testbit, Z.land_spec. unfold unot. rewrite Z.lxor_spec, bit_of_cpu.
  rewrite (Z.ones_spec_low 64) by (pose proof (cpu_index_lt cpu'); unfold CPU_CAPACITY in *; lia). by rewrite xorb_true_l.
Qed.

(** ** The invariant *)

Definition owned cpu (r : CarrierResourceTuple) : Prop := validates_fixed_ownership r = true ∧ carrier_cpu r = cpu.

Record carrier_ok cpu (enforced : bool) (slot : CarrierAdmissionSlot) (bit : bool) : Prop := {
  ca_enforced : lifecycle slot ≠ CarrierAdmissionLifecycle.Unavailable → enforced = true;
  ca_outside : match lifecycle slot with
    | CarrierAdmissionLifecycle.Unavailable | CarrierAdmissionLifecycle.Preparing | CarrierAdmissionLifecycle.CarrierReady => bit = false
    | CarrierAdmissionLifecycle.Schedulable => bit = true
    | CarrierAdmissionLifecycle.Failed => True
    end;
  ca_ready : bit = true → idle_wake_ready slot = true ∧ ∃ r, slot_resources slot = Some r;
  ca_prepared : lifecycle slot = CarrierAdmissionLifecycle.CarrierReady → ∃ r, slot_resources slot = Some r;
  ca_minted : slot_admission_generation slot ≠ 0 → enforced = true;
  ca_unminted : lifecycle slot = CarrierAdmissionLifecycle.Unavailable → slot_admission_generation slot = 0;
  ca_owned r : slot_resources slot = Some r → owned cpu r;
}.

Definition carriers_ok ca : Prop := ∀ cpu, carrier_ok cpu (CarrierAdmissionState.enforced ca) (CarrierAdmissionState.slots ca !!! cpu)
  (in_mask cpu (CarrierAdmissionState.schedulable_mask ca)).

(** A carrier is left as it was, or as the protocol says. *)
Definition follows call cpu s s' : Prop :=
  carrier_view s' cpu = carrier_view s cpu ∨ admits (domain s) call cpu (carrier_view s cpu) (carrier_view s' cpu).

(** What a call leaves of the carriers. *)
Definition carriers_kept (n : Z) call s s' : Prop :=
  sched_ok (n + 2) s' ∧ moved (permits (domain s) call) s s' ∧ carriers_ok (carrier_admission s') ∧
  (replays call s = false → ∀ cpu, follows call cpu s s').

Lemma sched_carrier n s ca : sched_ok n s → sched_ok n (with_carrier_admission ca s).
Proof.
  intros [Hs ? ? ? ? ? ? ? ? [] ?]. split; try done. by eapply shape_ext; [..|exact Hs].
Qed.

Section carriers.
Context (n : Z) s (Hok : sched_ok n s) (Hca : carriers_ok (carrier_admission s)).

(** Only the carriers changed, and only that of [cpu]. *)
Lemma kept_carriers call cpu ca : CarrierAdmissionState.slots ca = <[cpu := CarrierAdmissionState.slots ca !!! cpu]> (CarrierAdmissionState.slots (carrier_admission s)) →
  (∀ cpu', cpu' ≠ cpu → in_mask cpu' (CarrierAdmissionState.schedulable_mask ca) = in_mask cpu' (CarrierAdmissionState.schedulable_mask (carrier_admission s))) →
  (CarrierAdmissionState.enforced (carrier_admission s) = true → CarrierAdmissionState.enforced ca = true) →
  carrier_ok cpu (CarrierAdmissionState.enforced ca) (CarrierAdmissionState.slots ca !!! cpu) (in_mask cpu (CarrierAdmissionState.schedulable_mask ca)) →
  (replays call s = false → follows call cpu s (with_carrier_admission ca s)) →
  carriers_kept n call s (with_carrier_admission ca s).
Proof using Hok Hca.
  intros Hslots Hmask Henf Hcpu Hadm.
  assert (∀ cpu', cpu' ≠ cpu → CarrierAdmissionState.slots ca !!! cpu' = CarrierAdmissionState.slots (carrier_admission s) !!! cpu') as Ho.
  { intros cpu' Hne. rewrite Hslots. by apply cpu_lookup_insert_ne. }
  split_and!; [apply sched_carrier; eapply sched_ok_weaken; [done|lia]|by left| |].
  - intros cpu'. destruct (decide (cpu' = cpu)) as [-> |Hne]; [done|]. cbn [carrier_admission with_carrier_admission].
    rewrite (Ho _ Hne), (Hmask _ Hne). destruct (Hca cpu'). split; auto.
  - intros Hre cpu'. destruct (decide (cpu' = cpu)) as [-> |Hne]; [by apply Hadm|]. left. unfold carrier_view, admitted, slot. cbn.
    rewrite (Ho _ Hne). f_equal. by apply Hmask.
Qed.

(** The carriers are as they were. *)
Lemma carriers_kept_same call : carriers_kept n call s s.
Proof using Hok Hca. split_and!; [eapply sched_ok_weaken; [done|lia]|by left|done|by intros; left]. Qed.
End carriers.

(** Ends a call: [cpu] is the CPU whose carrier it changed. *)
Ltac carried Hok Hca cpu :=
  match goal with
  | |- carriers_kept _ _ ?s ?x =>
      change x with (with_carrier_admission (carrier_admission x) s); apply (kept_carriers _ _ Hok Hca _ cpu);
      [ cbn; by rewrite ?cpu_lookup_insert_eq, ?cpu_insert_insert, ?cpu_insert_id
      | cbn; intros; rewrite ?in_mask_lor, ?in_mask_clear, ?bool_decide_false, ?orb_false_r, ?andb_true_r by done; try done
      | try done
      | cbn; rewrite ?cpu_lookup_insert_eq; cbn; rewrite ?cpu_lookup_insert_eq
      | intros Hfirst; unfold follows, carrier_view, admitted, slot; cbn; rewrite ?cpu_lookup_insert_eq; cbn; rewrite ?cpu_lookup_insert_eq ]
  end.

Section calls.
Context (n : Z) s (Hok : sched_ok n s) (Hca : carriers_ok (carrier_admission s)).

Lemma ticket_enforced ticket : ticket_matches s ticket = true →
  CarrierAdmissionState.enforced (carrier_admission s) = true ∧ admission_generation ticket ≠ 0 ∧
  ticket = slot_ticket (domain s) (admission_cpu ticket) (slot s (admission_cpu ticket)).
Proof using Hca.
  unfold ticket_matches. rewrite !andb_true_iff, !negb_true_iff, !Z.eqb_eq, !Z.eqb_neq. intros [[[[[[Hd Ho] Hg] Hs] _] Hn] _]. split_and!; [|done|].
  - apply (ca_minted _ _ _ _ (Hca (admission_cpu ticket))). unfold slot in Hg. congruence.
  - destruct ticket as [d c o g k]. unfold slot_ticket. cbn in *. by subst.
Qed.

(** A ticket of an admitted carrier is replayed. *)
Lemma admitted_replays ticket : ticket_matches s ticket = true →
  lifecycle (slot s (admission_cpu ticket)) = CarrierAdmissionLifecycle.Schedulable → carrier_ticket_is_schedulable s ticket = true.
Proof using Hca.
  intros Hm Hl. unfold carrier_ticket_is_schedulable. rewrite Hm, bool_decide_true by done. cbn [andb].
  destruct (Hca (admission_cpu ticket)) as [_ Hout Hrd _ _ _ _]. unfold slot in *. rewrite Hl in Hout. destruct (Hrd Hout) as [-> _].
  exact Hout.
Qed.

Lemma latch_failed_kept {A} call ticket error (Q : A → SchedulerState.t → Prop) : ticket_matches s ticket = true →
  replays call s = carrier_ticket_is_schedulable s ticket →
  (∀ a b, ticket = slot_ticket (domain s) (admission_cpu ticket) a.1 → refused a b → admits (domain s) call (admission_cpu ticket) a b) →
  wp (latch_failed (admission_cpu ticket) error) s Q (λ _ s', carriers_kept n call s s').
Proof using Hok Hca.
  intros Hm Hrep Hadm. destruct (ticket_enforced _ Hm) as (Henf & Hg & Ht). unfold latch_failed. wp_line. apply wp_fail.
  set (cpu := admission_cpu ticket) in *. pose proof (admitted_replays _ Hm) as Hsch. fold cpu in Hsch. carried Hok Hca cpu.
  - destruct (Hca cpu). by split.
  - rewrite Hrep in Hfirst. destruct (Hca cpu) as [_ Hout _ _ _ Hun _]. unfold slot in *. unfold in_mask in Hout.
    set (slot := CarrierAdmissionState.slots (carrier_admission s) !!! cpu) in *. rewrite Ht in Hg. cbn in Hg.
    destruct (lifecycle slot) eqn:Hl.
    + by rewrite Hun in Hg.
    + right. apply Hadm; [done|]. split; [by left|]. by rewrite Hout.
    + right. apply Hadm; [done|]. split; [by right|]. by rewrite Hout.
    + rewrite Hsch in Hfirst; done.
    + left. f_equal. clearbody slot. clear - Hl. destruct slot. cbn in *. by subst.
Qed.

Lemma prepare_slot_kept call cpu r : owned cpu r → lifecycle (slot s cpu) = CarrierAdmissionLifecycle.Unavailable →
  (∀ a b, prepared cpu r a b → admits (domain s) call cpu a b) →
  wp (prepare_slot cpu r) s (λ _ s', carriers_kept n call s s') (λ _ s', carriers_kept n call s s').
Proof using Hok Hca.
  intros Hown Hun Hadm. unfold prepare_slot, mint_generations. wp_line. wp_step; [|by apply carriers_kept_same]. wp_line. wp_step.
  - wp_line. carried Hok Hca cpu.
    + pose proof (ca_outside _ _ _ _ (Hca cpu)) as Hout. unfold slot in Hun. rewrite Hun in Hout. split; try done; cbn; [by rewrite Hout|].
      by intros ? [= <-].
    + right. apply Hadm. destruct Hown. split_and!; [done..|]. by do 2 eexists.
  - apply wp_fail || idtac. carried Hok Hca cpu; [apply Hca|by left].
Qed.

Lemma admit_slot_kept call cpu r : slot_resources (slot s cpu) = Some r → lifecycle (slot s cpu) = CarrierAdmissionLifecycle.CarrierReady →
  (∀ b, committed r (carrier_view s cpu) b → admits (domain s) call cpu (carrier_view s cpu) b) →
  wp (admit_slot cpu) s (λ _ s', carriers_kept n call s s') (λ _ s', carriers_kept n call s s').
Proof using Hok Hca.
  intros Hr Hre Hadm. unfold admit_slot. wp_line. pose proof (in_mask_lor cpu cpu (CarrierAdmissionState.schedulable_mask (carrier_admission s))) as Hm.
  rewrite bool_decide_true, orb_true_r in Hm by done. carried Hok Hca cpu.
  - destruct (Hca cpu) as [Henf _ _ Hp Hmi _ Hown]. unfold slot in Hre. split; cbn; try done.
    + intros _. apply Henf. congruence.
    + intros _. split; [done|]. by apply Hp.
  - unfold in_mask in Hm. rewrite Hm. right. by apply Hadm.
Qed.

Lemma ready_kept call cpu r : slot_resources (slot s cpu) = Some r → lifecycle (slot s cpu) = CarrierAdmissionLifecycle.Preparing →
  (∀ b, readied r (carrier_view s cpu) b → admits (domain s) call cpu (carrier_view s cpu) b) →
  wp (E := CarrierAdmissionError.t) (modify (on_admission (set_slot cpu (with_lifecycle CarrierAdmissionLifecycle.CarrierReady)))) s
    (λ _ s', carriers_kept n call s s') (λ _ s', carriers_kept n call s s').
Proof using Hok Hca.
  intros Hr Hpr Hadm. wp_line. carried Hok Hca cpu.
  - destruct (Hca cpu) as [Henf Hout Hrd _ Hmi _ Hown]. unfold slot in *. rewrite Hpr in Hout. split; cbn; try done.
    + intros _. apply Henf. congruence.
    + intros _. eauto.
  - right. by apply Hadm.
Qed.

Ltac truths := repeat match goal with
  | H : _ || _ = false |- _ => apply orb_false_iff in H as [? H]
  | H : negb _ = false |- _ => apply negb_false_iff in H
  | H : bool_decide _ = true |- _ => apply bool_decide_eq_true in H
  | H : bool_decide _ = false |- _ => apply bool_decide_eq_false in H
  end.

Lemma prepare_bootstrap_kept r runtime : wp (prepare_bootstrap_carrier r runtime) s
  (λ _ s', carriers_kept n (SchedulerCall.PrepareBootstrapCarrier r runtime) s s') (λ _ s', carriers_kept n (SchedulerCall.PrepareBootstrapCarrier r runtime) s s').
Proof using Hok Hca.
  unfold prepare_bootstrap_carrier. do 2 (wp_step; [by apply carriers_kept_same|]). wp_line. wp_step; [by apply carriers_kept_same|]. truths.
  apply prepare_slot_kept; [done|done|]. intros a b Hp. by split_and!.
Qed.

Lemma prepare_ap_kept r runtime : wp (prepare_ap_carrier r runtime) s
  (λ _ s', carriers_kept n (SchedulerCall.PrepareApCarrier r runtime) s s') (λ _ s', carriers_kept n (SchedulerCall.PrepareApCarrier r runtime) s s').
Proof using Hok Hca.
  unfold prepare_ap_carrier. do 2 (wp_step; [by apply carriers_kept_same|]). wp_line. wp_step; [by apply carriers_kept_same|]. truths.
  apply prepare_slot_kept; [done|done|]. intros a b Hp. by split_and!.
Qed.

Lemma publish_bootstrap_kept ticket r runtime : wp (publish_bootstrap_carrier_ready ticket r runtime) s
  (λ _ s', carriers_kept n (SchedulerCall.PublishBootstrapReady ticket r runtime) s s')
  (λ _ s', carriers_kept n (SchedulerCall.PublishBootstrapReady ticket r runtime) s s').
Proof using Hok Hca.
  unfold publish_bootstrap_carrier_ready. wp_step; [by apply carriers_kept_same|]. wp_line. wp_step; [by apply carriers_kept_same|].
  apply negb_false_iff in Heqb, Heqb0. apply bool_decide_eq_true in Heqb. destruct (ticket_enforced _ Heqb0) as (_ & _ & Ht).
  wp_step; [apply (latch_failed_kept _ ticket); [done..|split; auto]|]. truths. eapply ready_kept; [done|done|]. intros b Hb. split; auto.
Qed.

Lemma publish_ap_kept ticket r runtime : wp (publish_ap_carrier_ready ticket r runtime) s
  (λ _ s', carriers_kept n (SchedulerCall.PublishApReady ticket r runtime) s s')
  (λ _ s', carriers_kept n (SchedulerCall.PublishApReady ticket r runtime) s s').
Proof using Hok Hca.
  unfold publish_ap_carrier_ready. wp_line. wp_step; [by apply carriers_kept_same|].
  apply negb_false_iff in Heqb. destruct (ticket_enforced _ Heqb) as (_ & _ & Ht).
  wp_step; [apply (latch_failed_kept _ ticket); [done..|split; auto]|]. truths. eapply ready_kept; [done|done|]. intros b Hb. split; auto.
Qed.

Lemma commit_bootstrap_kept ticket r : wp (commit_bootstrap_schedulable ticket r) s
  (λ _ s', carriers_kept n (SchedulerCall.CommitBootstrap ticket r) s s') (λ _ s', carriers_kept n (SchedulerCall.CommitBootstrap ticket r) s s').
Proof using Hok Hca.
  unfold commit_bootstrap_schedulable. wp_line. wp_step; [by apply carriers_kept_same|].
  apply negb_false_iff in Heqb. destruct (ticket_enforced _ Heqb) as (_ & _ & Ht).
  wp_step; [apply (latch_failed_kept _ ticket); [done..|split; auto]|]. truths. eapply admit_slot_kept; [done|done|]. intros b Hb. split; auto.
Qed.

Lemma commit_ap_kept ticket r wake : wp (commit_ap_schedulable ticket r wake) s
  (λ _ s', carriers_kept n (SchedulerCall.CommitAp ticket r wake) s s') (λ _ s', carriers_kept n (SchedulerCall.CommitAp ticket r wake) s s').
Proof using Hok Hca.
  unfold commit_ap_schedulable. wp_line. wp_step; [by apply carriers_kept_same|].
  apply negb_false_iff in Heqb. destruct (ticket_enforced _ Heqb) as (_ & _ & Ht).
  do 2 (wp_step; [apply (latch_failed_kept _ ticket); [done..|split; auto]|]). truths. eapply admit_slot_kept; [done|done|]. intros b Hb. split; auto.
Qed.

Lemma fail_carrier_kept {E} cpu : lifecycle (slot s cpu) ≠ CarrierAdmissionLifecycle.Schedulable → wp (E := E) (fail_carrier_admission cpu) s
  (λ _ s', carriers_kept n (SchedulerCall.FailCarrier cpu) s s') (λ _ s', carriers_kept n (SchedulerCall.FailCarrier cpu) s s').
Proof using Hok Hca.
  intros Hl. unfold fail_carrier_admission. wp_line. apply wp_assert; [by rewrite bool_decide_false|]. wp_line.
  pose proof (in_mask_clear cpu cpu (CarrierAdmissionState.schedulable_mask (carrier_admission s))) as Hm.
  rewrite bool_decide_true, andb_false_r in Hm by done. carried Hok Hca cpu.
  - destruct (Hca cpu). split; cbn; try done. by rewrite Hm.
  - unfold in_mask in Hm. rewrite Hm. right. by split_and!.
Qed.
End calls.
