(* ===== verification/SchedulerTheorems.v ===== *)
(** * Theorems about the scheduler *)

From stdpp Require Import base tactics numbers list.
From Stdlib Require Import ZArith Lia.
From S2P Require Import Prelude Abi Object Cpu Wait Clock Deadline Timer LiveTime Scheduler SchedulerOps Carrier SchedulerSpec SchedulerFacts SchedulerInvariant SchedulerMoves SchedulerSteps SchedulerCalls SchedulerSwitches CarrierFacts.
Import SchedulerState.
Local Open Scope Z_scope.

Implicit Types (s : SchedulerState.t) (es : list QueueEntry) (e : QueueEntry) (cpu : CpuIndex.t) (thread : ThreadKey)
  (call : SchedulerCall.t) (calls : list SchedulerCall.t).

(** ** Calls from a good state *)

Lemma keeps_left_by {E A} n (m : M SchedulerState.t E A) s P : keeps n m s P →
  ∃ s', SchedulerCall.left_by (m s) = Some s' ∧ kept n P s s'.
Proof. unfold keeps, wp. destruct (m s) as [s' a|s' e|]; simpl; [eauto..|done]. Qed.

Lemma kept_left_by {E A} n (m : M SchedulerState.t E A) s call :
  wp m s (λ _ s', carriers_kept n call s s') (λ _ s', carriers_kept n call s s') →
  ∃ s', SchedulerCall.left_by (m s) = Some s' ∧ carriers_kept n call s s'.
Proof. unfold wp. destruct (m s) as [s' a|s' e|]; simpl; [eauto..|done]. Qed.

Lemma keeps_carriers {E A} n (m : M SchedulerState.t E A) s call : carriers_ok (carrier_admission s) → keeps n m s (permits (domain s) call) →
  ∃ s', SchedulerCall.left_by (m s) = Some s' ∧ carriers_kept n call s s'.
Proof.
  intros Hca (s' & Hl & Hok & Hm & Hc)%keeps_left_by. exists s'. split; [done|]. split_and!; [done..|by rewrite Hc|].
  intros _ cpu. left. unfold carrier_view, admitted, CarrierAdmission.slot. by rewrite Hc.
Qed.

Lemma u64_spec x : SchedulerCall.u64 x = true → 0 ≤ x < 2 ^ 64.
Proof. unfold SchedulerCall.u64. lia. Qed.

Lemma perform_keeps n call s : sched_ok n s → carriers_ok (carrier_admission s) → 8 * (n + 2) < 2 ^ 64 →
  SchedulerCall.allowed call s = true → ∃ s', SchedulerCall.perform call s = Some s' ∧ carriers_kept n call s s'.
Proof.
  intros Hok Hca Hn Ha. destruct call; cbn [SchedulerCall.allowed] in Ha.
  1-23: apply (keeps_carriers n _ _ _ Hca).
  24-30: apply kept_left_by.
  - apply reserve_keeps; [done..|]. intros cpu u Hu Heq. apply negb_true_iff, not_true_iff_false in Ha. apply Ha, existsb_exists.
    exists (Some u). split; [apply list_elem_of_In, elem_of_cells; eauto|]. by apply bool_decide_eq_true.
  - by apply commit_on_keeps.
  - by apply cancel_keeps.
  - by apply schedule_next_keeps.
  - by apply yield_keeps.
  - apply u64_spec in Ha. apply prepare_quantum_keeps; [done..|lia].
  - by apply publish_quantum_expiry_keeps.
  - by apply preemption_disable_keeps.
  - by apply preemption_enable_keeps.
  - by apply preempt_keeps.
  - by apply prepare_block_keeps.
  - by apply cancel_block_keeps.
  - by apply commit_block_keeps.
  - by apply wake_on_keeps.
  - by apply schedule_from_idle_keeps.
  - by apply complete_switch_keeps.
  - by apply retire_keeps, is_none_true.
  - by apply stop_running_keeps.
  - by apply retire_unentered_keeps.
  - by apply stop_suspended_keeps.
  - apply u64_spec in Ha. apply observe_keeps; [done..|lia].
  - apply u64_spec in Ha. apply publish_idle_keeps; [done..|lia].
  - apply u64_spec in Ha. by apply finish_idle_keeps.
  - by apply prepare_bootstrap_kept.
  - by apply publish_bootstrap_kept.
  - by apply commit_bootstrap_kept.
  - by apply prepare_ap_kept.
  - by apply publish_ap_kept.
  - by apply commit_ap_kept.
  - apply fail_carrier_kept; [done..|]. by apply negb_true_iff, bool_decide_eq_false in Ha.
Qed.

(** ** The initial state *)

Lemma new_ok {E} CAPACITY d d' s : new (E := E) CAPACITY d = Ret d' s → Z.of_nat CAPACITY < 2 ^ 64 →
  sched_ok 0 s ∧ carriers_ok (carrier_admission s).
Proof.
  unfold new, mbind, M_bind. destruct (mint_scheduler_domain (E := E) d) as [d1 dom| |]; [|done..]. intros [= <- <-] Hcap.
  set (s := {| domain := dom |}).
  assert (shape s []) as Hs by (split; [cbn; by rewrite length_replicate, Nat.sub_0_r|done]).
  assert (∀ {A} (x : A) cpu, all_cpus x !!! cpu = x) as Hall by (intros; apply cpu_lookup_all).
  split; [|intros cpu; cbn; rewrite Hall; by split; cbn; try done; destruct cpu].
  split; rewrite ?(entries_shape _ _ Hs); cbn [s running suspended pending_block domain quantum need_resched active_idle queue].
  - done.
  - by rewrite length_replicate.
  - split; try (intros *; rewrite Hall; done).
    + apply NoDup_nil_2.
    + by intros e ?%elem_of_nil.
    + by intros e cpu ?%elem_of_nil.
  - intros cpu key. by rewrite Hall.
  - split; [intros *; by rewrite Hall..|]. intros cpu. rewrite Hall. by left.
  - intros cpu. rewrite Hall. by left.
  - rewrite length_replicate. apply Nat.le_0_l.
  - split; intros cpu; [intros event|..]; unfold spent_idle; cbn [accounting s]; rewrite !Hall; [by destruct event|done..].
  - split; [by intros ? ? ?%elem_of_nil|intros *; cbn; by rewrite Hall|]. intros cpu. unfold spent_idle. cbn. by rewrite !Hall.
  - split; intros; cbn; rewrite ?Hall; unfold minted; lia.
  - constructor.
Qed.

(** ** Sequences of calls *)

Lemma run_keeps calls : ∀ n s, sched_ok n s → carriers_ok (carrier_admission s) → 8 * (n + 2 * Z.of_nat (length calls)) < 2 ^ 64 →
  SchedulerCall.admissible calls s = true →
  ∃ s', SchedulerCall.run calls s = Some s' ∧ sched_ok (n + 2 * Z.of_nat (length calls)) s' ∧ carriers_ok (carrier_admission s').
Proof.
  induction calls as [|call calls IH]; intros n s Hok Hca Hn Ha; simpl in *.
  - exists s. split_and!; [done| |done]. eapply sched_ok_weaken; [done|lia].
  - apply andb_true_iff in Ha as [Hc Ha]. destruct (perform_keeps n call s Hok Hca) as (s1 & Hp & Hok1 & _ & Hca1 & _); [lia|done|].
    rewrite Hp in Ha |- *. destruct (IH (n + 2) s1 Hok1 Hca1) as (s' & Hr & Hok' & Hca'); [lia|done|]. exists s'. split_and!; [done| |done].
    eapply sched_ok_weaken; [done|lia].
Qed.

(** [s] is the state after [calls] on a new scheduler, each made when it may
    be, and fewer than [2 ^ 60] of them. *)
Definition after_calls calls s : Prop := ∃ CAPACITY d d' s0,
  new (E := SchedulerError.t) CAPACITY d = Ret d' s0 ∧ Z.of_nat CAPACITY < 2 ^ 64 ∧
  Z.of_nat (length calls) < 2 ^ 60 - 1 ∧ SchedulerCall.admissible calls s0 = true ∧ SchedulerCall.run calls s0 = Some s.

Lemma after_calls_at calls s : after_calls calls s → sched_ok (2 * Z.of_nat (length calls)) s ∧ Z.of_nat (length calls) < 2 ^ 60 - 1.
Proof.
  intros (CAPACITY & d & d' & s0 & Hnew & Hcap & Hlen & Ha & Hr). destruct (new_ok _ _ _ _ Hnew Hcap) as [Hok Hca].
  destruct (run_keeps calls 0 s0 Hok Hca) as (s' & Hr' & Hok' & _); [lia|done|]. by assert (s' = s) as -> by congruence.
Qed.

Lemma after_calls_ok calls s : after_calls calls s → ∃ n, sched_ok n s ∧ 8 * (n + 2) < 2 ^ 64.
Proof. intros [Hok Hl]%after_calls_at. eexists. split; [exact Hok|lia]. Qed.

Lemma after_calls_carriers calls s : after_calls calls s → carriers_ok (carrier_admission s).
Proof.
  intros (CAPACITY & d & d' & s0 & Hnew & Hcap & Hlen & Ha & Hr). destruct (new_ok _ _ _ _ Hnew Hcap) as [Hok Hca].
  destruct (run_keeps calls 0 s0 Hok Hca) as (s' & Hr' & _ & Hca'); [lia|done|]. by assert (s' = s) as -> by congruence.
Qed.

(** A call in a state the scheduler may be in. *)
Lemma after_calls_perform calls call s s' : after_calls calls s → SchedulerCall.allowed call s = true →
  SchedulerCall.perform call s = Some s' → ∃ n, carriers_kept n call s s'.
Proof.
  intros Hc Ha Hp. destruct (after_calls_ok _ _ Hc) as (n & Hok & Hn).
  destruct (perform_keeps n call s Hok (after_calls_carriers _ _ Hc) Hn Ha) as (s1 & Hp' & Hk). assert (s1 = s') as -> by congruence. eauto.
Qed.

(** ** A history

    Three threads are created and the first runs on CPU 0. *)

Definition sample_thread (i : Z) : ThreadKey := {| thread_object := {| oid_domain := 1; oid_raw := 2 ^ 32 + i |} |}.

Definition sample_creation (i : Z) : list SchedulerCall.t :=
  [SchedulerCall.Reserve (sample_thread i);
   SchedulerCall.CommitOn CpuIndex.Cpu0
     {| reservation_domain := 1; reservation_token := i; reservation_thread := sample_thread i |}].

Definition sample_calls : list SchedulerCall.t :=
  sample_creation 1 ++ sample_creation 2 ++ sample_creation 3 ++ [SchedulerCall.ScheduleNextOn CpuIndex.Cpu0].

Definition sample_new : outcome Z SchedulerError.t SchedulerState.t := new 8 1.

Definition sample_start : SchedulerState.t :=
  Eval vm_compute in
    match sample_new as o return (match o with Ret _ _ => SchedulerState.t | _ => unit end) with Ret _ s => s | _ => tt end.

Definition state_after calls : option SchedulerState.t :=
  match sample_new with Ret _ s => SchedulerCall.run calls s | _ => None end.

Definition the_state (o : option SchedulerState.t) : match o with Some _ => SchedulerState.t | None => unit end :=
  match o with Some s => s | None => tt end.

Definition sample_state : SchedulerState.t := Eval vm_compute in the_state (state_after sample_calls).

Definition sample_admissible calls : bool :=
  match sample_new with Ret _ s => SchedulerCall.admissible calls s | _ => false end.

Lemma state_after_calls calls s : state_after calls = Some s → sample_admissible calls = true → Z.of_nat (length calls) < 2 ^ 60 - 1 →
  after_calls calls s.
Proof.
  unfold state_after, sample_admissible, sample_new. destruct (new 8 1) as [d s0| |] eqn:Hnew; [|done..]. intros Hr Ha Hl.
  exists 8%nat, 1, d, s0. by split_and!.
Qed.

Lemma sample_state_after : after_calls sample_calls sample_state.
Proof. apply state_after_calls; vm_compute; reflexivity. Qed.

(** C2. The scheduler never panics: whatever calls of its methods are made
    on a new scheduler (reserve, commit, dispatch, steal, yield, preempt,
    block, wake, retire, account for idleness, admit carriers, ...), in whatever order and on
    whatever CPUs, with whatever keys and claims, stale or foreign, each comes
    back, and after each all the checks of [check_invariants] pass, which the
    kernel asserts.  The callers only see to it that a thread is not reserved
    again before its last switch is completed, that a CPU does not retire a
    suspended thread within an idle interval, and that a carrier that is
    schedulable is not failed; and the counters of [u64] last
    for [2 ^ 60] calls. *)
Theorem scheduler_never_panics CAPACITY d d' s0 calls :
  new (E := SchedulerError.t) CAPACITY d = Ret d' s0 → Z.of_nat CAPACITY < 2 ^ 64 → Z.of_nat (length calls) < 2 ^ 60 →
  SchedulerCall.admissible calls s0 = true →
  ∃ s, SchedulerCall.run calls s0 = Some s ∧ check_invariants s = Ok tt.
Proof.
  intros Hnew Hcap Hlen Ha. destruct (new_ok _ _ _ _ Hnew Hcap) as [Hok0 Hca0].
  destruct (run_keeps calls 0 s0 Hok0 Hca0) as (s & Hr & Hok & _); [lia|done|].
  exists s. split; [done|]. by eapply check_invariants_ok.
Qed.

Lemma scheduler_never_panics_witness : ∃ s,
  SchedulerCall.run (sample_calls ++ [SchedulerCall.YieldCurrentOn CpuIndex.Cpu0 (sample_thread 1)]) sample_start = Some s ∧
  check_invariants s = Ok tt.
Proof.
  apply (scheduler_never_panics 8 1 2 sample_start); vm_compute; reflexivity.
Defined.

(** C4. Each thread lives as specified: a call takes a thread from one state
    to another only as [permits] says of that call and that thread, and leaves
    every other thread as it was.  A reservation is committed or cancelled
    only with its own token; only a runnable thread whose last switch is
    completed is dispatched, or resumed by the CPU that holds its
    continuation, in the execution it left; only the thread a CPU runs yields,
    prepares to block or blocks, and blocks only under the token it has
    prepared; a blocked thread is woken only by the key it blocked with, its
    domain, token, CPU and execution all compared; a switch is completed, and
    an execution stopped, only by the claim of that very execution. *)
Theorem scheduler_refines_lifecycle calls call s s' thread : after_calls calls s → SchedulerCall.allowed call s = true →
  SchedulerCall.perform call s = Some s' →
  life thread s' = life thread s ∨ permits (domain s) call thread (life thread s) (life thread s').
Proof.
  intros Hc Ha Hp. destruct (after_calls_perform _ _ _ _ Hc Ha Hp) as (n & _ & Hm & _). apply Hm.
Qed.

Lemma scheduler_refines_lifecycle_witness : ∃ s',
  SchedulerCall.perform (SchedulerCall.YieldCurrentOn CpuIndex.Cpu0 (sample_thread 1)) sample_state = Some s' ∧
  (life (sample_thread 2) s' = life (sample_thread 2) sample_state ∨
   permits (domain sample_state) (SchedulerCall.YieldCurrentOn CpuIndex.Cpu0 (sample_thread 1)) (sample_thread 2)
     (life (sample_thread 2) sample_state) (life (sample_thread 2) s')).
Proof.
  eexists. split; [vm_compute; reflexivity|].
  eapply (scheduler_refines_lifecycle sample_calls); [apply sample_state_after|vm_compute; reflexivity|vm_compute; reflexivity].
Defined.

Lemma filter_nothing {A} (p : A → bool) l : (∀ x, x ∈ l → p x = false) → length (List.filter p l) = 0%nat.
Proof.
  induction l as [|x l IH]; intros Hp; simpl; [done|]. rewrite Hp by (by left). apply IH. intros y Hy. apply Hp. by right.
Qed.

Lemma filter_once {A} (p : A → bool) l : NoDup l → (∀ x y, x ∈ l → y ∈ l → p x = true → p y = true → x = y) →
  (length (List.filter p l) ≤ 1)%nat.
Proof.
  induction l as [|x l IH]; simpl; intros Hnd Hp; [lia|]. apply list.NoDup_cons in Hnd as [Hni Hnd]. destruct (p x) eqn:Hx.
  - simpl. rewrite filter_nothing; [lia|]. intros y Hy. apply not_true_iff_false. intros Hpy. destruct Hni.
    by rewrite (Hp x y); [|left|right|..].
  - apply IH; [done|]. intros y z Hy Hz. apply Hp; by right.
Qed.

Lemma filter_map_length {A B} (f : A → B) (p : B → bool) l : length (List.filter p (f <$> l)) = length (List.filter (λ x, p (f x)) l).
Proof. induction l as [|x l IH]; simpl; [done|]. destruct (p (f x)); simpl; [f_equal|]; exact IH. Qed.

Section one_place.
Context es run susp (Ht : threads_ok es run susp).

Lemma run_once thread : (length (List.filter (claims thread) (cells run)) ≤ 1)%nat.
Proof using Ht.
  unfold cells. rewrite filter_map_length. apply filter_once; [apply NoDup_cpus|]. intros c c' _ _ Hc Hc'.
  destruct (run !!! c) as [k|] eqn:Hk; [|done]. destruct (run !!! c') as [k'|] eqn:Hk'; [|done].
  cbn in Hc, Hc'. apply bool_decide_eq_true in Hc, Hc'. apply (th_once _ _ _ Ht _ _ _ _ Hk Hk'). congruence.
Qed.

Lemma queued_once thread : (length (List.filter (of_thread thread) es) ≤ 1)%nat.
Proof using Ht.
  apply filter_once; [eapply NoDup_fmap_1, Ht|]. intros e e' He He' Hp%bool_decide_eq_true Hp'%bool_decide_eq_true.
  apply (same_entry _ _ _ Ht e e' He He'). congruence.
Qed.
End one_place.

(** Where a thread is: the CPUs that run it and the entries it is queued in. *)
Definition places thread s : nat :=
  length (List.filter (claims thread) (cells (running s))) + length (List.filter (of_thread thread) (entries s)).

(** C13. No thread is in two places: however the scheduler was called, a
    thread runs on at most one CPU, is queued at most once, and is not queued
    while it runs; and the room its table of [CAPACITY] entries has is enough
    for what is queued and running together. *)
Theorem thread_is_in_one_place calls s thread : after_calls calls s →
  (places thread s ≤ 1)%nat ∧ (length (entries s) + length (omap id (cells (running s))) ≤ length (queue s))%nat.
Proof.
  intros (n & Hok & _)%after_calls_ok. split; [|apply Hok]. unfold places. pose proof (so_threads _ _ Hok) as Ht.
  pose proof (run_once _ _ _ Ht thread) as Hrun. pose proof (queued_once _ _ _ Ht thread) as Hq.
  destruct (decide (thread ∈ (q_thread <$> entries s))) as [Hin|Hni].
  - rewrite (filter_nothing (claims thread)); [lia|]. intros x (cpu & <-)%elem_of_cells.
    destruct (running s !!! cpu) as [k|] eqn:Hk; [|done]. apply bool_decide_eq_false. intros <-.
    by destruct (th_running _ _ _ Ht _ _ Hk).
  - rewrite (filter_nothing (of_thread thread)); [lia|]. intros e He. apply bool_decide_eq_false. intros <-.
    apply Hni, elem_of_threads. eauto.
Qed.

Lemma thread_is_in_one_place_witness : (places (sample_thread 1) sample_state ≤ 1)%nat ∧
  (length (entries sample_state) + length (omap id (cells (running sample_state))) ≤ length (queue sample_state))%nat.
Proof.
  apply (thread_is_in_one_place sample_calls), sample_state_after.
Defined.

(** ** Carriers *)

Definition schedulable s cpu : bool := bool_decide (lifecycle (CarrierAdmission.slot s cpu) = CarrierAdmissionLifecycle.Schedulable).

(** The carriers of the mask are the schedulable ones, and only they can be
    woken. *)
Definition mask_agrees s : Prop := ∀ cpu,
  admitted s cpu = schedulable s cpu ∧ idle_wake_ready (CarrierAdmission.slot s cpu) = schedulable s cpu.

Lemma follows_agrees call cpu s s' : follows call cpu s s' →
  admitted s cpu = schedulable s cpu ∧ idle_wake_ready (CarrierAdmission.slot s cpu) = schedulable s cpu →
  admitted s' cpu = schedulable s' cpu ∧ idle_wake_ready (CarrierAdmission.slot s' cpu) = schedulable s' cpu.
Proof.
  unfold follows, carrier_view, schedulable. generalize (CarrierAdmission.slot s cpu) (CarrierAdmission.slot s' cpu) (admitted s cpu) (admitted s' cpu).
  intros a b x y [[= -> ->]|Hadm] [Hx Hw]; [done|].
  assert (∀ r, readied r (a, x) (b, y) → y = bool_decide (lifecycle b = CarrierAdmissionLifecycle.Schedulable) ∧
    idle_wake_ready b = bool_decide (lifecycle b = CarrierAdmissionLifecycle.Schedulable)) as Hready.
  { intros r (Hl & _ & [= -> ->]). cbn in Hl. rewrite Hl in Hx, Hw. by split. }
  assert (∀ r, committed r (a, x) (b, y) → y = bool_decide (lifecycle b = CarrierAdmissionLifecycle.Schedulable) ∧
    idle_wake_ready b = bool_decide (lifecycle b = CarrierAdmissionLifecycle.Schedulable)) as Hcommit.
  { by intros r (Hl & _ & [= -> ->]). }
  assert (refused (a, x) (b, y) → y = bool_decide (lifecycle b = CarrierAdmissionLifecycle.Schedulable) ∧
    idle_wake_ready b = bool_decide (lifecycle b = CarrierAdmissionLifecycle.Schedulable)) as Hrefuse.
  { intros [[Hl|Hl] [= -> ->]]; cbn in Hl; rewrite Hl in Hw; by split. }
  destruct call; cbn in Hadm; try done.
  - destruct Hadm as (_ & _ & _ & _ & Hl & ? & ? & [= -> ->]). cbn in Hl. by rewrite Hl in Hx.
  - destruct Hadm as (_ & _ & [[_ ?]|?]); eauto.
  - destruct Hadm as (_ & [[_ ?]|?]); eauto.
  - destruct Hadm as (_ & _ & _ & _ & Hl & ? & ? & [= -> ->]). cbn in Hl. by rewrite Hl in Hx.
  - destruct Hadm as (_ & [[_ ?]|?]); eauto.
  - destruct Hadm as (_ & [[_ ?]|?]); eauto.
  - by destruct Hadm as (_ & _ & [= -> ->]).
Qed.

(** [s] is the state after [calls], none of which used the ticket of an
    admitted carrier. *)
Definition after_first_uses calls s : Prop := ∃ CAPACITY d d' s0,
  new (E := SchedulerError.t) CAPACITY d = Ret d' s0 ∧ Z.of_nat CAPACITY < 2 ^ 64 ∧ Z.of_nat (length calls) < 2 ^ 60 - 1 ∧
  SchedulerCall.admissible calls s0 = true ∧ replay_free calls s0 = true ∧ SchedulerCall.run calls s0 = Some s.

Lemma run_agrees calls : ∀ n s s', sched_ok n s → carriers_ok (carrier_admission s) → 8 * (n + 2 * Z.of_nat (length calls)) < 2 ^ 64 →
  SchedulerCall.admissible calls s = true → replay_free calls s = true → mask_agrees s → SchedulerCall.run calls s = Some s' → mask_agrees s'.
Proof.
  induction calls as [|call calls IH]; intros n s s' Hok Hca Hn Ha Hf Hm Hr; simpl in *; [by injection Hr as <-|].
  apply andb_true_iff in Ha as [Hc Ha]. apply andb_true_iff in Hf as [Hre%negb_true_iff Hf].
  destruct (perform_keeps n call s Hok Hca) as (s1 & Hp & Hok1 & _ & Hca1 & Hfol); [lia|done|]. rewrite Hp in *.
  eapply (IH (n + 2) s1); [done|done|lia|done|done| |done]. intros cpu. by eapply follows_agrees; [apply Hfol|apply Hm].
Qed.

Lemma new_agrees {E} CAPACITY d d' s : new (E := E) CAPACITY d = Ret d' s → mask_agrees s.
Proof.
  unfold new, mbind, M_bind. destruct (mint_scheduler_domain (E := E) d) as [d1 dom| |]; [|done..]. intros [= <- <-] cpu. by destruct cpu.
Qed.

Lemma first_uses_agree calls s : after_first_uses calls s → after_calls calls s ∧ mask_agrees s.
Proof.
  intros (CAPACITY & d & d' & s0 & Hnew & Hcap & Hlen & Ha & Hf & Hr). split; [by exists CAPACITY, d, d', s0|].
  destruct (new_ok _ _ _ _ Hnew Hcap) as [Hok Hca]. eapply (run_agrees calls 0 s0); try done; [lia|]. by eapply new_agrees.
Qed.

(** C14. A CPU enters the placement mask only along the protocol of carrier
    admission: a carrier is prepared once, becomes ready only from prepared
    and schedulable only from ready, with the resources it was prepared with
    and by a call with the very ticket issued for it, whose domain, CPU and
    three generations are all compared; a call with its ticket that finds it
    otherwise fails it, only before it is admitted and outside the mask; no
    other call touches it.  The mask holds exactly the schedulable carriers,
    which are exactly those that can be woken, and their resources all belong
    to their own CPU.  This is of histories in which the ticket of an admitted
    carrier is not used
    again; what one that is used again does is shown below. *)
Theorem carrier_admission_follows_protocol calls call s s' cpu : after_first_uses calls s → SchedulerCall.allowed call s = true →
  replays call s = false → SchedulerCall.perform call s = Some s' →
  (carrier_view s' cpu = carrier_view s cpu ∨ admits (domain s) call cpu (carrier_view s cpu) (carrier_view s' cpu)) ∧
  admitted s' cpu = schedulable s' cpu ∧ idle_wake_ready (CarrierAdmission.slot s' cpu) = schedulable s' cpu ∧
  (admitted s' cpu = true → CarrierAdmissionState.enforced (carrier_admission s') = true ∧
    ∃ r, slot_resources (CarrierAdmission.slot s' cpu) = Some r ∧ validates_fixed_ownership r = true ∧ carrier_cpu r = cpu).
Proof.
  intros [Hc Hm]%first_uses_agree Ha Hre Hp. destruct (after_calls_perform _ _ _ _ Hc Ha Hp) as (n & _ & _ & Hca & Hadm).
  destruct (follows_agrees call cpu s s' (Hadm Hre cpu) (Hm cpu)) as [Hbit Hw]. split_and!; [by apply Hadm|done..|].
  destruct (Hca cpu) as [Henf Hout Hrd _ _ _ Hown]. intros Hin. destruct (Hrd Hin) as (_ & r & Hr).
  split; [|exists r; split; [done|by apply Hown]]. apply Henf. rewrite Hin in Hbit. symmetry in Hbit. apply bool_decide_eq_true in Hbit.
  unfold CarrierAdmission.slot in Hbit. congruence.
Qed.

(** The carrier of CPU 1 is prepared. *)
Definition sample_resources : CarrierResourceTuple :=
  {| carrier_cpu := CpuIndex.Cpu1; local_apic_id := 1; resource_online_generation := 7; root_generation := 3;
     descriptor_cpu := CpuIndex.Cpu1; runtime_cpu := CpuIndex.Cpu1; entry_stack_cpu := CpuIndex.Cpu1;
     reaper_stack_cpu := CpuIndex.Cpu1; root_cpu := CpuIndex.Cpu1; scratch_cpu := CpuIndex.Cpu1;
     idle_mailbox_cpu := CpuIndex.Cpu1; tlb_mailbox_cpu := CpuIndex.Cpu1;
     carrier_deadline := CarrierDeadlineState.ApSchedulerTimerMasked |}.

Definition sample_ticket : CarrierAdmissionTicket :=
  {| admission_domain := 1; admission_cpu := CpuIndex.Cpu1; online_generation := 7; admission_generation := 1;
     scheduler_slot_generation := 1 |}.

Definition sample_admission : list SchedulerCall.t :=
  [SchedulerCall.PrepareApCarrier sample_resources CarrierRuntimeState.Parked;
   SchedulerCall.PublishApReady sample_ticket sample_resources CarrierRuntimeState.Executing].

Definition sample_prepared : SchedulerState.t := Eval vm_compute in the_state (state_after sample_admission).

Definition sample_admitted : SchedulerState.t := Eval vm_compute in
  the_state (state_after (sample_admission ++ [SchedulerCall.CommitAp sample_ticket sample_resources true])).

Lemma carrier_admission_follows_protocol_witness :
  admitted sample_admitted CpuIndex.Cpu1 = schedulable sample_admitted CpuIndex.Cpu1 ∧
  idle_wake_ready (CarrierAdmission.slot sample_admitted CpuIndex.Cpu1) = schedulable sample_admitted CpuIndex.Cpu1.
Proof.
  destruct (carrier_admission_follows_protocol sample_admission (SchedulerCall.CommitAp sample_ticket sample_resources true)
    sample_prepared sample_admitted CpuIndex.Cpu1) as (_ & Ha & Hw & _).
  - exists 8%nat, 1, 2, sample_start. split_and!; vm_compute; reflexivity.
  - vm_compute. reflexivity.
  - vm_compute. reflexivity.
  - vm_compute. reflexivity.
  - exact (conj Ha Hw).
Defined.

(** C40. A ticket used again fails the carrier it has admitted, and leaves it
    in the mask: where [ticket] is that of a schedulable carrier, publishing
    it as ready once more is rejected, but only after the carrier is marked
    [Failed]; the CPU is still in the placement mask, so that it is
    dispatched to and placed on as before, while
    [carrier_accepts_runnable_target] denies it. *)
Theorem replayed_ticket_fails_an_admitted_carrier s ticket r : CarrierAdmission.carrier_ticket_is_schedulable s ticket = true →
  CarrierAdmissionState.enforced (carrier_admission s) = true →
  ∃ s', CarrierAdmission.publish_ap_carrier_ready ticket r CarrierRuntimeState.Executing s = Fail s' CarrierAdmissionError.UnexpectedState ∧
    carrier s' (admission_cpu ticket) = (CarrierAdmissionLifecycle.Failed, true) ∧
    CooperativeScheduler.carrier_refuses (admission_cpu ticket) s' = false ∧
    CarrierAdmission.carrier_accepts_runnable_target s' (admission_cpu ticket) = false.
Proof.
  unfold CarrierAdmission.carrier_ticket_is_schedulable. rewrite !andb_true_iff, bool_decide_eq_true. intros [[[Hm Hl] Hw] Hbit] Henf.
  eexists. unfold CarrierAdmission.publish_ap_carrier_ready, mbind, M_bind, get. rewrite Hm, Hl. cbn [negb].
  rewrite (bool_decide_false (CarrierAdmissionLifecycle.Schedulable = _)) by done. rewrite bool_decide_true by done. cbn [negb].
  rewrite orb_true_r. cbn [orb]. split; [reflexivity|]. unfold carrier, admitted, CarrierAdmission.slot, CooperativeScheduler.carrier_refuses,
    CarrierAdmission.carrier_accepts_runnable_target, CarrierAdmission.slot. cbn. rewrite cpu_lookup_insert_eq, Henf. cbn.
  apply negb_true_iff in Hbit. rewrite Hbit. done.
Qed.

Lemma replayed_ticket_fails_an_admitted_carrier_witness : ∃ s',
  CarrierAdmission.publish_ap_carrier_ready sample_ticket sample_resources CarrierRuntimeState.Executing sample_admitted =
    Fail s' CarrierAdmissionError.UnexpectedState ∧
  carrier s' CpuIndex.Cpu1 = (CarrierAdmissionLifecycle.Failed, true) ∧
  CooperativeScheduler.carrier_refuses CpuIndex.Cpu1 s' = false ∧
  CarrierAdmission.carrier_accepts_runnable_target s' CpuIndex.Cpu1 = false.
Proof.
  apply (replayed_ticket_fails_an_admitted_carrier sample_admitted sample_ticket sample_resources); vm_compute; reflexivity.
Defined.
