(* ===== verification/SchedulerPolicy.v ===== *)
(** * The policy of the scheduler

    Placement, dispatch, stealing and rebalancing against the contract of
    [Plans/DW1_A0_PREEMPTIVE_SCHEDULER_CONTRACT.md], sections 4 and 5. *)

From stdpp Require Import base tactics numbers list.
From Stdlib Require Import ZArith Lia.
From S2P Require Import Prelude Abi Object Cpu Wait Clock Deadline Timer LiveTime Scheduler SchedulerOps Carrier SchedulerSpec SchedulerFacts SchedulerInvariant SchedulerMoves SchedulerSteps SchedulerCalls SchedulerSwitches CarrierFacts SchedulerTheorems.
Import SchedulerState.
Local Open Scope Z_scope.

Implicit Types (s : SchedulerState.t) (es : list QueueEntry) (e : QueueEntry) (cpu : CpuIndex.t) (thread : ThreadKey)
  (calls : list SchedulerCall.t).

(** ** Load *)

(** What a CPU carries: its runnable entries and the thread it runs. *)
Definition carried es (run : cpu_array (option RunningClaim)) cpu : nat :=
  length (List.filter (on_cpu cpu) es) + occupied (run !!! cpu).

Lemma deepen_lookup cpu cpu' depths : deepen cpu depths !!! cpu' = (depths !!! cpu' + if decide (cpu' = cpu) then 1 else 0)%nat.
Proof. unfold deepen. rewrite cpu_lookup_insert. case_decide; subst; lia. Qed.

Lemma depths_of_entries es depths cpu :
  foldl (λ depths entry, if is_runnable entry then deepen (q_target_cpu entry) depths else depths) depths es !!! cpu =
    (depths !!! cpu + length (List.filter (on_cpu cpu) es))%nat.
Proof.
  revert depths. induction es as [|e es IH]; intros depths; simpl; [lia|]. rewrite IH. unfold on_cpu at 2. destruct (is_runnable e); simpl; [|done].
  rewrite deepen_lookup. case_decide; case_bool_decide; simpl; subst; try done; lia.
Qed.

Lemma depths_of_running (run : cpu_array (option RunningClaim)) depths cpu :
  foldl (λ depths cpu, if is_none (run !!! cpu) then depths else deepen cpu depths) depths cpus !!! cpu =
    (depths !!! cpu + occupied (run !!! cpu))%nat.
Proof. destruct run as [r0 r1 r2 r3], depths as [d0 d1 d2 d3]. unfold cpus. destruct r0, r1, r2, r3, cpu; cbn; lia. Qed.

Lemma runnable_depths_spec s cpu : runnable_depths s !!! cpu = carried (entries s) (running s) cpu.
Proof. unfold runnable_depths. cbv zeta. rewrite depths_of_running, depths_of_entries, cpu_lookup_all. done. Qed.

(** ** Placement *)

Section placement.
Context (e : QueueEntry) (requester : CpuIndex.t) (s : SchedulerState.t).

(** Online and eligible. *)
Definition eligible cpu : bool := cpu_admissible cpu (q_eligibility_mask e) s.

Definition carries cpu : nat := carried (entries s) (running s) cpu.

(** The CPUs the preference order chooses from: all that are eligible while
    one of them carries no work, and otherwise the least loaded. *)
Definition candidate cpu : bool :=
  eligible cpu
  && (existsb (λ c, eligible c && (carries c =? 0)%nat) cpus
      || forallb (λ c, negb (eligible c) || (carries cpu <=? carries c)%nat) cpus).

(** The last CPU, the requester, and the lowest index. *)
Definition preferred : option CpuIndex.t :=
  match q_last_cpu e with
  | Some last => if candidate last then Some last else if candidate requester then Some requester else head (List.filter candidate cpus)
  | None => if candidate requester then Some requester else head (List.filter candidate cpus)
  end.

Definition contract_placement : option CpuIndex.t :=
  match q_continuation_cpu e with
  | Some cpu => if eligible cpu then Some cpu else None
  | None => preferred
  end.
End placement.

(** The first of the least loaded. *)
Lemma shallowest_spec (depths : cpu_array nat) l m : shallowest depths l = Some m → ∃ pre post, l = pre ++ m :: post ∧
  (∀ c, c ∈ pre → (depths !!! m < depths !!! c)%nat) ∧ (∀ c, c ∈ post → (depths !!! m ≤ depths !!! c)%nat).
Proof.
  revert m. induction l as [|c l IH]; intros m; simpl; [done|]. destruct (shallowest depths l) as [o|] eqn:Hl.
  - destruct (IH o eq_refl) as (pre & post & -> & Hpre & Hpost). destruct (Nat.ltb_spec (depths !!! o) (depths !!! c)).
    + intros [= <-]. exists (c :: pre), post. split; [done|]. split; [|done]. intros c' [-> |?]%elem_of_cons; [lia|auto].
    + intros [= <-]. exists [], (pre ++ o :: post). split; [done|]. split; [by intros ? ?%elem_of_nil|].
      intros c' [Hc|[-> |Hc]%elem_of_cons]%elem_of_app; [specialize (Hpre _ Hc)|..|specialize (Hpost _ Hc)]; lia.
  - intros [= <-]. exists [], l. split; [done|]. split; [by intros ? ?%elem_of_nil|]. destruct l as [|c' l]; [by intros ? ?%elem_of_nil|].
    simpl in Hl. destruct (shallowest depths l); [by destruct (_ <? _)%nat|done].
Qed.

Lemma shallowest_None (depths : cpu_array nat) l : shallowest depths l = None → l = [].
Proof. destruct l as [|c l]; [done|]. simpl. destruct (shallowest depths l); [by destruct (_ <? _)%nat|done]. Qed.

Lemma head_filter {A} (p : A → bool) pre x post : (∀ y, y ∈ pre → p y = false) → p x = true → head (List.filter p (pre ++ x :: post)) = Some x.
Proof.
  intros Hpre Hx. induction pre as [|y pre IH]; simpl; [by rewrite Hx|]. rewrite Hpre by (by left). apply IH. intros z Hz. apply Hpre. by right.
Qed.

Lemma filter_within {A} (p q : A → bool) l : (∀ x, q x = true → p x = true) → List.filter q l = List.filter q (List.filter p l).
Proof.
  intros Hpq. induction l as [|x l IH]; simpl; [done|]. destruct (p x) eqn:Hp; simpl; [by rewrite IH|].
  destruct (q x) eqn:Hq; [by rewrite (Hpq _ Hq) in Hp|done].
Qed.

Section placed.
Context (e : QueueEntry) (requester : CpuIndex.t) (s : SchedulerState.t).
Let elig := eligible e s.
Let choices := List.filter elig cpus.
Let depths := runnable_depths s.

Lemma elem_of_choices c : c ∈ choices ↔ elig c = true.
Proof. unfold choices. rewrite list_elem_of_In, List.filter_In, <- list_elem_of_In. pose proof (elem_of_cpus c). tauto. Qed.

Lemma idle_choice : existsb (λ c, elig c && (carries s c =? 0)%nat) cpus = existsb (λ c, (depths !!! c =? 0)%nat) choices.
Proof.
  unfold choices. induction cpus as [|c l IH]; simpl; [done|]. rewrite IH. destruct (elig c); simpl; [|done].
  unfold depths. by rewrite runnable_depths_spec.
Qed.

(** While a CPU is idle, every eligible one is a candidate. *)
Lemma candidate_idle c : existsb (λ c, (depths !!! c =? 0)%nat) choices = true → candidate e s c = elig c.
Proof. intros Hi. unfold candidate. fold elig. rewrite idle_choice, Hi. apply andb_true_r. Qed.

(** Otherwise those that carry as little as the shallowest. *)
Lemma candidate_busy m c : existsb (λ c, (depths !!! c =? 0)%nat) choices = false → shallowest depths choices = Some m →
  candidate e s c = elig c && (depths !!! c =? depths !!! m)%nat.
Proof.
  intros Hi (pre & post & Hl & Hpre & Hpost)%shallowest_spec. unfold candidate. fold elig. rewrite idle_choice, Hi. cbn [orb].
  assert (∀ c, elig c = true → (depths !!! m ≤ depths !!! c)%nat) as Hleast.
  { intros c' Hc'%elem_of_choices. rewrite Hl, elem_of_app, elem_of_cons in Hc'. destruct Hc' as [Hc'|[-> |Hc']]; [|lia|auto].
    specialize (Hpre _ Hc'). lia. }
  assert (elig m = true) as Hm by (apply elem_of_choices; rewrite Hl, elem_of_app; right; by left).
  destruct (elig c) eqn:Hc; cbn [andb]; [|done]. apply eq_true_iff_eq. rewrite forallb_forall, Nat.eqb_eq. split.
  - intros Hall. specialize (Hall m (proj1 (list_elem_of_In _ _) (elem_of_cpus m))). rewrite Hm in Hall. simpl in Hall.
    apply Nat.leb_le in Hall. unfold carries in Hall. rewrite <- !runnable_depths_spec in Hall. specialize (Hleast c Hc). unfold depths in *. lia.
  - intros Heq c' _. destruct (elig c') eqn:Hc'; simpl; [|done]. apply Nat.leb_le. unfold carries. rewrite <- !runnable_depths_spec.
    specialize (Hleast c' Hc'). unfold depths in *. lia.
Qed.

Lemma head_candidates_busy m : existsb (λ c, (depths !!! c =? 0)%nat) choices = false → shallowest depths choices = Some m →
  head (List.filter (candidate e s) cpus) = Some m.
Proof.
  intros Hi Hm. pose proof (candidate_busy m) as Hc. rewrite (filter_within elig) by (intros c; rewrite Hc by done; by intros [? _]%andb_true_iff).
  fold choices. destruct (shallowest_spec _ _ _ Hm) as (pre & post & Hl & Hpre & _). rewrite Hl. apply head_filter.
  - intros c Hcp. rewrite Hc by done. rewrite (proj2 (Nat.eqb_neq _ _)); [apply andb_false_r|]. specialize (Hpre _ Hcp). lia.
  - rewrite Hc, Nat.eqb_refl, andb_true_r by done. apply elem_of_choices. rewrite Hl, elem_of_app. right. by left.
Qed.
End placed.

(** C25. A thread is placed as the contract says: a continuation-bound thread
    on the CPU of its continuation, if that is online and eligible; any other
    on its last CPU, else on the requester, else on the lowest index, among
    all online eligible CPUs while one of them carries no work and among the
    least loaded of them otherwise.  The load is what is queued and running. *)
Theorem placement_follows_the_contract e requester s : select_placement e requester s = contract_placement e requester s.
Proof.
  unfold select_placement, contract_placement, preferred. destruct (q_continuation_cpu e) as [c|]; [done|]. cbv zeta.
  change (λ cpu, cpu_admissible cpu (q_eligibility_mask e) s) with (eligible e s).
  change (cpu_admissible requester (q_eligibility_mask e) s) with (eligible e s requester).
  destruct (existsb _ (List.filter (eligible e s) cpus)) eqn:Hi.
  - pose proof (λ c, candidate_idle e s c Hi) as Hc. rewrite (List.filter_ext _ _ Hc), !Hc.
    destruct (q_last_cpu e) as [last|]; unfold keep, or; cbn [is_some_and]; rewrite ?Hc; destruct (eligible e s requester);
      try destruct (eligible e s last); done.
  - destruct (shallowest _ _) as [m|] eqn:Hm.
    + pose proof (λ c, candidate_busy e s m c Hi Hm) as Hc. rewrite (head_candidates_busy e s m Hi Hm), !Hc.
      destruct (q_last_cpu e) as [last|]; unfold keep, or; cbn [is_some_and]; rewrite ?Hc;
      destruct (eligible e s requester); try destruct (eligible e s last); cbn [is_some_and andb];
      repeat destruct (_ =? _)%nat; done.
    + apply shallowest_None in Hm. assert (∀ c, eligible e s c = false) as Hne.
      { intros c. apply not_true_iff_false. intros Hc%elem_of_choices. by rewrite Hm in Hc; apply elem_of_nil in Hc. }
      assert (∀ c, candidate e s c = false) as Hc by (intros c; unfold candidate; by rewrite Hne).
      rewrite (List.filter_ext _ (λ _, false)), !Hc by done. destruct (q_last_cpu e) as [last|]; rewrite ?Hc; done.
Qed.

(** ** Migration *)

(** What a pull returns from a state the scheduler may be in. *)
Lemma pull_result calls s target rebalance : after_calls calls s →
  match pull_oldest_for target rebalance s with
  | Ret s' pulled => match donor rebalance target s with
      | None => pulled = None ∧ s' = s
      | Some (victim, i) => ∃ n e a, sched_ok n s ∧ entries s !! i = Some e ∧ entry_migratable e victim target s = true ∧ victim ≠ target ∧
          gives rebalance target s victim = true ∧
          pulled = Some (pulled_pending victim target i e s) ∧ s' = pulled_state victim target i e a s
      end
  | _ => False
  end.
Proof.
  intros (n & Hok & Hn)%after_calls_ok. pose proof (pull_exact n s target rebalance Hok) as Hp. unfold wp in Hp.
  destruct (pull_oldest_for target rebalance s) as [s' pulled| |]; [|apply Hp; lia..]. specialize (Hp ltac:(lia)).
  destruct (donor rebalance target s) as [[victim i]|]; [|done]. destruct Hp as (e & a & ?). exists n, e, a. naive_solver.
Qed.

(** C29. A migration that is given up leaves no trace: rolling back a pull
    restores the scheduler as it was, the entry at its place in the queue of
    its CPU, the counters, the last migration and the next generation
    included. *)
Theorem rolled_back_pull_restores_the_scheduler calls s target rebalance s' pending : after_calls calls s →
  pull_oldest_for target rebalance s = Ret s' (Some pending) →
  rollback_pending_migration (E := SchedulerError.t) pending s' = Ret s tt.
Proof.
  intros Ha Hp. pose proof (pull_result _ _ target rebalance Ha) as Hr. rewrite Hp in Hr.
  destruct (donor rebalance target s) as [[victim i]|]; [|by destruct Hr].
  destruct Hr as (n & e & a & Hok & Hi & He & Hne & _ & [= ->] & ->).
  pose proof (pulled_shape n s victim target i e a Hok) as Hs'. pose proof (lookup_lt_Some _ _ _ Hi) as Hlt.
  unfold rollback_pending_migration, mbind, M_bind, get. cbn [pending_index pulled_pending].
  rewrite (lookup_shape _ _ _ Hs') by (by rewrite length_insert). rewrite list_lookup_insert_eq by done.
  unfold expect, assert_that, modify. cbn [pending_record prior_entry prior_accounting prior_last_migration prior_next_generation pulled_pending].
  rewrite !bool_decide_true by done. cbn [q_migration_generation migrated migration_generation pull_record]. rewrite Z.eqb_refl.
  rewrite (write_entry_shape _ _ _ _ Hs') by (by rewrite length_insert). rewrite list_insert_insert_eq, (list_insert_id _ _ _ Hi).
  f_equal. transitivity (requeue (entries s) s); [|symmetry; apply shape_requeue, Hok]. unfold requeue at 1.
  cbn [queue pulled_state with_accounting with_next_migration_generation with_last_migration requeue with_len with_queue].
  rewrite length_cells_of; [done|]. rewrite length_insert. apply shape_length, Hok.
Qed.

Lemma rolled_back_pull_restores_the_scheduler_witness : ∃ s' pending,
  pull_oldest_for CpuIndex.Cpu1 false sample_state = Ret s' (Some pending) ∧
  rollback_pending_migration (E := SchedulerError.t) pending s' = Ret sample_state tt.
Proof.
  do 2 eexists. split; [vm_compute; reflexivity|].
  eapply (rolled_back_pull_restores_the_scheduler sample_calls _ CpuIndex.Cpu1 false); [apply sample_state_after|vm_compute; reflexivity].
Defined.

(** The squares of what the CPUs carry: the less, the better the balance. *)
Definition imbalance s : nat := foldr (λ cpu sum, runnable_depths s !!! cpu * runnable_depths s !!! cpu + sum)%nat 0%nat cpus.

Lemma pulled_depths n s victim target i e a cpu : sched_ok n s → victim ≠ target → entries s !! i = Some e →
  entry_migratable e victim target s = true →
  Z.of_nat (runnable_depths (pulled_state victim target i e a s) !!! cpu) =
    bump target 1 (bump victim (-1) (λ cpu, Z.of_nat (runnable_depths s !!! cpu))) cpu.
Proof.
  intros Hok Hne Hi He. unfold bump. rewrite !runnable_depths_spec. unfold carried.
  rewrite (entries_shape _ _ (pulled_shape n s victim target i e a Hok)).
  pose proof (pulled_load s victim target i e Hne Hi He cpu) as Hl. unfold load, bump in Hl. cbn [running pulled_state with_accounting with_next_migration_generation with_last_migration requeue with_len with_queue].
  lia.
Qed.

Lemma squares_decrease (f g : CpuIndex.t → nat) a b : a ≠ b → (f b + 2 ≤ f a)%nat → (g a + 1 = f a)%nat → (g b = f b + 1)%nat →
  (∀ c, c ≠ a → c ≠ b → g c = f c) →
  (foldr (λ c sum, g c * g c + sum) 0 cpus < foldr (λ c sum, f c * f c + sum) 0 cpus)%nat.
Proof.
  intros Hne Hab Ha Hb Hc. unfold cpus. cbn.
  destruct a, b; try done; rewrite ?(Hc CpuIndex.Cpu0), ?(Hc CpuIndex.Cpu1), ?(Hc CpuIndex.Cpu2), ?(Hc CpuIndex.Cpu3) by done; nia.
Qed.

(** C28. A rebalancing pull repairs a measurably worse shape: it takes only
    from a CPU that carries at least two more than the puller, which still
    carries at least as much afterwards; what the other CPUs carry is
    unchanged, and the sum of squares of what each carries goes down, so that
    no sequence of pulls alone goes on for ever.  Otherwise it changes
    nothing. *)
Theorem rebalancing_pull_improves_balance calls s target : after_calls calls s →
  match rebalance_pull_for target s with
  | Ret s' (Some pending) => let victim := migration_source (pending_record pending) in
      (runnable_depths s !!! target + 2 ≤ runnable_depths s !!! victim)%nat ∧
      (runnable_depths s' !!! target ≤ runnable_depths s' !!! victim)%nat ∧
      (∀ cpu, cpu ≠ victim → cpu ≠ target → runnable_depths s' !!! cpu = runnable_depths s !!! cpu) ∧
      (imbalance s' < imbalance s)%nat
  | Ret s' None => s' = s
  | _ => False
  end.
Proof.
  intros Ha. pose proof (pull_result _ _ target true Ha) as Hr. unfold rebalance_pull_for.
  destruct (pull_oldest_for target true s) as [s' pulled| |]; [|done..]. destruct (donor true target s) as [[victim i]|]; [|by destruct Hr as [-> ->]].
  destruct Hr as (n & e & a & Hok & Hi & He & Hne & Hg & -> & ->). cbv zeta. change (migration_source (pending_record _)) with victim.
  pose proof (pulled_depths n s victim target i e a) as Hd. unfold bump in Hd. unfold gives in Hg. apply andb_true_iff in Hg as [_ Hg].
  cbn [andb] in Hg. apply negb_true_iff, Nat.ltb_ge in Hg.
  pose proof (Hd victim Hok Hne Hi He) as Hv. pose proof (Hd target Hok Hne Hi He) as Ht. repeat case_decide; try congruence.
  assert (∀ cpu, cpu ≠ victim → cpu ≠ target → runnable_depths (pulled_state victim target i e a s) !!! cpu = runnable_depths s !!! cpu) as Ho.
  { intros cpu ??. pose proof (Hd cpu Hok Hne Hi He) as Hc. rewrite !decide_False in Hc by done. lia. }
  split_and!; [lia|lia|done|]. apply (squares_decrease (λ c, runnable_depths s !!! c) (λ c, runnable_depths _ !!! c) victim target); [done|lia..|done].
Qed.

Lemma rebalancing_pull_improves_balance_witness :
  match rebalance_pull_for CpuIndex.Cpu1 sample_state with
  | Ret s' (Some pending) => (imbalance s' < imbalance sample_state)%nat
  | _ => False
  end.
Proof.
  exact (proj2 (proj2 (proj2 (rebalancing_pull_improves_balance sample_calls sample_state CpuIndex.Cpu1 sample_state_after)))).
Defined.

(** ** Dispatch *)

Ltac wlp_line :=
  repeat lazymatch goal with
  | |- wlp (_ ≫= _) _ _ _ => apply wlp_bind
  | |- wlp get _ _ _ => apply wlp_wp, wp_get
  | |- wlp (modify _) _ _ _ => apply wlp_wp, wp_modify
  | |- wlp (mret _) _ _ _ => apply wlp_wp, wp_ret
  | |- wlp (let _ := _ in _) _ _ _ => cbv zeta
  end; cbv beta.

Lemma reject_never_returns {A} attempted error s Q (R : SchedulerError.t → SchedulerState.t → Prop) :
  wlp (reject_accounting (A := A) attempted error) s Q R.
Proof. by destruct error. Qed.

Lemma roll_back_never_fails pending s : wlp (roll_back (E := SchedulerError.t) pending) s (λ _ _, True) (λ _ _, False).
Proof.
  destruct pending as [pending|]; [|done]. unfold wlp, roll_back, rollback_pending_migration, mbind, M_bind, get, expect, assert_that, modify.
  repeat (case_match; simplify_eq; try done).
Qed.

(** The accounting of a dispatch does not choose what is dispatched. *)
Lemma account_wlp pending m s (Q : SchedulerAccounting.t → SchedulerState.t → Prop) (R : SchedulerError.t → SchedulerState.t → Prop) :
  (∀ a, Q a s) → wlp (account_or (roll_back pending) m) s Q R.
Proof.
  intros HQ. unfold account_or. wlp_step. apply wlp_wp, wp_get. cbv beta. destruct (m (accounting s)) as [a []|a error|].
  - apply wlp_wp. by wp_line.
  - apply wlp_bind. eapply wlp_mono; [apply roll_back_never_fails| |by intros]. intros _ s' _. apply reject_never_returns.
  - done.
Qed.

Lemma assert_wlp {E} s (Q : unit → SchedulerState.t → Prop) (R : E → SchedulerState.t → Prop) : Q tt s → wlp assert_invariants s Q R.
Proof. intros HQ. unfold wlp, assert_invariants, mbind, M_bind, get. by destruct (check_invariants s). Qed.

(** The thread [cpu] is to run next: the oldest it may run itself, or else
    the oldest it may take from the first CPU in turn that has one. *)
Definition next_for cpu s : option ThreadKey :=
  match find (local_runnable cpu) s with
  | Some e => Some (q_thread e)
  | None => match donor false cpu s with Some (_, i) => q_thread <$> entries s !! i | None => None end
  end.

Section dispatch.
Context (n : Z) s (Hok : sched_ok n s) (Hn : 8 * (n + 2) < 2 ^ 64) (cpu : CpuIndex.t).

(** What a pull makes claimable is the entry that was pulled. *)
Lemma find_pulled victim i e a : find (local_runnable cpu) s = None → entries s !! i = Some e → entry_migratable e victim cpu s = true →
  find (local_runnable cpu) (pulled_state victim cpu i e a s) = Some (migrated cpu (next_migration_generation s) e).
Proof using Hok.
  intros Hf Hi He. pose proof (so_shape _ _ Hok) as Hs. pose proof (lookup_lt_Some _ _ _ Hi) as Hlt.
  destruct (migratable_spec _ _ _ _ He) as (Hr & _ & Hc). rewrite (find_shape _ _ _ (pulled_shape n s victim cpu i e a Hok)).
  erewrite (proj2 (list_find_Some _ _ i _)); [done|]. split_and!.
  - by apply list_lookup_insert_eq.
  - apply Is_true_true. unfold local_runnable. cbn [q_target_cpu q_continuation_cpu migrated].
    assert (is_runnable (migrated cpu (next_migration_generation s) e) = true) as -> by done. by rewrite Hc, bool_decide_true.
  - intros j y Hj Hlt'. rewrite list_lookup_insert_ne in Hj by lia. rewrite Is_true_true.
    by rewrite (position_None _ _ _ Hs (sched_find_None _ _ _ Hs Hf) y (list_elem_of_lookup_2 _ _ _ Hj)).
Qed.

Lemma schedule_next_result : CooperativeScheduler.carrier_refuses cpu s = false → running s !!! cpu = None → suspended s !!! cpu = None →
  active_idle s !!! cpu = None →
  wlp (CooperativeScheduler.schedule_next_on_with_migration cpu) s
    (λ d s', current (dispatch_decision d) = next_for cpu s ∧ CooperativeScheduler.current_on cpu s' = next_for cpu s) (λ _ _, False).
Proof using Hok Hn.
  intros Hca Hr Hsu Hi. unfold CooperativeScheduler.schedule_next_on_with_migration. wlp_line. rewrite Hca, Hr, Hsu, Hi. cbn [negb is_none].
  wlp_line. eapply (wlp_mono _ _ (λ _ s1, sched_ok (n + 1) s1 ∧ q_thread <$> find (local_runnable cpu) s1 = next_for cpu s) _ (λ _ _, False));
    [|clear Hr|by intros].
  - unfold next_for. pose proof (so_shape _ _ Hok) as Hs. assert (sched_ok (n + 1) s) by (eapply sched_ok_weaken; [done|lia]).
    unfold first_local_runnable_index. destruct (find (local_runnable cpu) s) as [e|] eqn:Hf.
    + destruct (sched_find_Some _ _ _ _ Hs Hf) as (i & _ & _ & ->). cbn [is_none]. wlp_line. by rewrite Hf.
    + rewrite (sched_find_None _ _ _ Hs Hf). cbn [is_none]. apply wlp_wp. eapply wp_mono; [apply (pull_exact n); [done|lia]| |done].
      intros pulled s1. destruct (donor false cpu s) as [[victim i]|]; [|intros [-> ->]; by rewrite Hf].
      intros (e & a & Hi' & He & _ & _ & _ & -> & Hok1). split; [done|]. by rewrite (find_pulled victim i e a), Hi'.
  - intros pending s1 [Hok1 <-]. wlp_line. apply account_wlp. intros a. unfold CooperativeScheduler.or_roll_back. wlp_line.
    apply wlp_wp, wp_try. eapply (claim_wp (n + 1)); [apply Hok1..|lia|intros ->|intros i e g x _ _ -> _ _];
      wlp_line; apply assert_wlp; wlp_line; unfold CooperativeScheduler.current_on; cbn; by rewrite cpu_lookup_insert_eq.
Qed.
End dispatch.

(** The first that satisfies a predicate. *)
Lemma find_oldest n s p e : sched_ok n s → find p s = Some e → ∃ i, entries s !! i = Some e ∧ p e = true ∧
  ∀ j e', (j < i)%nat → entries s !! j = Some e' → p e' = false.
Proof.
  intros Hok. rewrite (find_shape _ _ _ (so_shape _ _ Hok)). destruct (list_find _ _) as [[i e0]|] eqn:Hf; [|done]. intros [= ->].
  apply list_find_Some in Hf as (Hi & Hp%Is_true_true & Hlt). exists i. split_and!; [done..|].
  intros j e' Hj He'. apply not_true_iff_false. intros Hp'. by apply (Hlt j e' He' Hj), Is_true_true.
Qed.

Lemma position_oldest n s p i : sched_ok n s → position p s = Some i → ∃ e, entries s !! i = Some e ∧ p e = true ∧
  ∀ j e', (j < i)%nat → entries s !! j = Some e' → p e' = false.
Proof.
  intros Hok Hp. destruct (position_Some _ _ _ _ (so_shape _ _ Hok) Hp) as (e & Hi & He & _ & Hf). exists e. split_and!; [done..|].
  apply list_find_Some in Hf as (_ & _ & Hlt). intros j e' Hj He'. apply not_true_iff_false. intros Hp'.
  by apply (Hlt j e' He' Hj), Is_true_true.
Qed.

Lemma elem_of_victims cpu victim : victim ≠ cpu → victim ∈ victims cpu.
Proof. intros Hne. unfold victims. apply list_elem_of_omap. destruct cpu, victim; try done; (exists 1%nat; split; [apply elem_of_seq; cbn; lia|done]) || (exists 2%nat; split; [apply elem_of_seq; cbn; lia|done]) || (exists 3%nat; split; [apply elem_of_seq; cbn; lia|done]). Qed.

Lemma donor_None cpu s victim : donor false cpu s = None → victim ≠ cpu → gives false cpu s victim = true →
  position (λ e, entry_migratable e victim cpu s) s = None.
Proof.
  intros Hd Hne Hg. destruct (position _ s) as [i|] eqn:Hp; [|done]. unfold donor in Hd.
  assert ((victim, i) ∈ omap (donated false cpu s) (victims cpu)) as Hin.
  { apply list_elem_of_omap. exists victim. split; [by apply elem_of_victims|]. unfold donated. by rewrite Hg, Hp. }
  destruct (omap _ _); [by apply elem_of_nil in Hin|done].
Qed.

Lemma head_omap {A B} (f : A → option B) l y : head (omap f l) = Some y →
  ∃ before x after, l = before ++ x :: after ∧ f x = Some y ∧ ∀ z, z ∈ before → f z = None.
Proof.
  induction l as [|x l IH]; simpl; [done|]. destruct (f x) as [y'|] eqn:Hx; simpl.
  - intros [= <-]. exists [], x, l. split_and!; [done..|]. by intros z ?%elem_of_nil.
  - intros (before & x' & after & -> & Hf & Hb)%IH. exists (x :: before), x', after. split_and!; [done..|].
    intros z [-> |Hz]%elem_of_cons; auto.
Qed.

Lemma donor_Some cpu s victim i : donor false cpu s = Some (victim, i) →
  ∃ before after, victims cpu = before ++ victim :: after ∧ gives false cpu s victim = true ∧
    position (λ e, entry_migratable e victim cpu s) s = Some i ∧
    ∀ other, other ∈ before → gives false cpu s other = true → position (λ e, entry_migratable e other cpu s) s = None.
Proof.
  intros (before & v & after & Hv & Hd & Hb)%head_omap. unfold donated in Hd. destruct (gives false cpu s v) eqn:Hg; [|done].
  destruct (position _ s) eqn:Hp; [|done]. injection Hd as -> ->. exists before, after. split_and!; [done..|].
  intros other Ho Hgo. specialize (Hb _ Ho). unfold donated in Hb. rewrite Hgo in Hb. by apply fmap_None in Hb.
Qed.

Lemma gives_spec cpu s victim : gives false cpu s victim = true ↔ Z.land (schedulable_mask s) (cpu_bit victim) ≠ 0.
Proof. unfold gives. rewrite andb_true_r, negb_true_iff. apply Z.eqb_neq. Qed.

(** The first entry [cpu] may run, in the order of the queue. *)
Definition own_work cpu s (i : nat) e : Prop :=
  local_runnable cpu e = true ∧ ∀ j e', (j < i)%nat → entries s !! j = Some e' → local_runnable cpu e' = false.

Definition online s cpu : Prop := Z.land (schedulable_mask s) (cpu_bit cpu) ≠ 0.

(** The first entry, in the order of the queue, that may be migrated from
    [victim] to [cpu]; [victim] is the first CPU online, going round from the
    one after [cpu], that has any. *)
Definition stolen_work cpu s (i : nat) e : Prop := ∃ before victim after,
  victims cpu = before ++ victim :: after ∧ online s victim ∧
  (∀ other e', other ∈ before → online s other → e' ∈ entries s → entry_migratable e' other cpu s = false) ∧
  entry_migratable e victim cpu s = true ∧
  ∀ j e', (j < i)%nat → entries s !! j = Some e' → entry_migratable e' victim cpu s = false.

Lemma next_for_spec n s cpu : sched_ok n s →
  match next_for cpu s with
  | Some thread => ∃ i e, entries s !! i = Some e ∧ q_thread e = thread ∧
      (own_work cpu s i e ∨ (∀ e', e' ∈ entries s → local_runnable cpu e' = false) ∧ stolen_work cpu s i e)
  | None => ∀ e, e ∈ entries s → local_runnable cpu e = false ∧
      ∀ victim, victim ≠ cpu → online s victim → entry_migratable e victim cpu s = false
  end.
Proof.
  intros Hok. pose proof (so_shape _ _ Hok) as Hs. unfold next_for. destruct (find (local_runnable cpu) s) as [e|] eqn:Hf.
  - destruct (find_oldest _ _ _ _ Hok Hf) as (i & Hi & He & Hold). exists i, e. split_and!; [done..|]. by left.
  - pose proof (position_None _ _ _ Hs (sched_find_None _ _ _ Hs Hf)) as Hnone. destruct (donor false cpu s) as [[victim i]|] eqn:Hd.
    + destruct (donor_Some _ _ _ _ Hd) as (before & after & Hv & Hg & Hp & Hb).
      destruct (position_oldest _ _ _ _ Hok Hp) as (e & Hi & He & Hold). rewrite Hi. simpl.
      exists i, e. split_and!; [done..|]. right. split; [done|]. exists before, victim, after.
      split_and!; [done|by eapply gives_spec| |done..]. intros other e' Ho Hon He'.
      by apply (position_None _ _ _ Hs (Hb other Ho (proj2 (gives_spec cpu s other) Hon))).
    + intros e He. split; [by apply Hnone|]. intros victim Hne Hm.
      by apply (position_None _ _ _ Hs (donor_None _ _ _ Hd Hne (proj2 (gives_spec cpu s victim) Hm))).
Qed.

(** C26. Dispatch is work-conserving, and takes work in turn: where
    [schedule_next_on] is called for a CPU that is admitted and has nothing
    running, suspended or accounted idle, it succeeds.  The thread it makes
    run is the first in the queue that the CPU may run itself; only when there
    is none is one taken from another CPU, namely from the first one online,
    going round from the CPU's successor, that has a thread that may be
    migrated, and of those the first in the queue.  If it makes none run then
    no queued thread could have run there, neither the CPU's own nor one that
    may be migrated to it.  The order of the queue is that of its array. *)
Theorem dispatch_takes_work_in_turn calls s cpu : after_calls calls s → CooperativeScheduler.carrier_refuses cpu s = false →
  running s !!! cpu = None → suspended s !!! cpu = None → active_idle s !!! cpu = None →
  ∃ s' dispatch, CooperativeScheduler.schedule_next_on_with_migration cpu s = Ret s' dispatch ∧
    current (dispatch_decision dispatch) = CooperativeScheduler.current_on cpu s' ∧
    match CooperativeScheduler.current_on cpu s' with
    | Some thread => ∃ i e, entries s !! i = Some e ∧ q_thread e = thread ∧
        (own_work cpu s i e ∨ (∀ e', e' ∈ entries s → local_runnable cpu e' = false) ∧ stolen_work cpu s i e)
    | None => ∀ e, e ∈ entries s → local_runnable cpu e = false ∧
        ∀ victim, victim ≠ cpu → online s victim → entry_migratable e victim cpu s = false
    end.
Proof.
  intros (n & Hok & Hn)%after_calls_ok Hca Hr Hsu Hi. pose proof (schedule_next_result n s Hok Hn cpu Hca Hr Hsu Hi) as Hres.
  destruct (keeps_left_by _ _ _ _ (schedule_next_keeps n s Hok Hn cpu)) as (s1 & Hl & _ & _). unfold wlp in Hres.
  destruct (CooperativeScheduler.schedule_next_on_with_migration cpu s) as [s' d| |]; [|done..].
  exists s', d. destruct Hres as [-> ->]. split_and!; [done..|]. clear Hl. by apply (next_for_spec n).
Qed.

Lemma dispatch_takes_work_in_turn_witness : ∃ s' dispatch,
  CooperativeScheduler.schedule_next_on_with_migration CpuIndex.Cpu1 sample_state = Ret s' dispatch ∧
  current (dispatch_decision dispatch) = CooperativeScheduler.current_on CpuIndex.Cpu1 s'.
Proof.
  destruct (dispatch_takes_work_in_turn sample_calls sample_state CpuIndex.Cpu1 sample_state_after) as (s' & dispatch & Hs & Hc & _);
    [vm_compute; reflexivity..|]. exists s', dispatch. split; [exact Hs|exact Hc].
Defined.

(** ** The place of a woken thread *)











(** * Switches that complete, and the adapters of the bootstrap processor

    The switch a CPU holds can always be completed, which is why the adapters
    of [BootstrapAdapters], which expect it, do not panic. *)

Import SchedulerState CooperativeScheduler.
Local Open Scope Z_scope.

Implicit Types (claim : SchedulerExecutionClaim).

(** ** The switch a CPU holds *)

Lemma held_claim s cpu claim : suspended_claim_on cpu s = Some claim → ∃ u, suspended s !!! cpu = Some u ∧
  claim = {| claim_domain := domain s; claim_cpu := cpu; claim_thread := susp_thread u; claim_generation := susp_generation u |}.
Proof. unfold suspended_claim_on. destruct (suspended s !!! cpu) as [u|]; [|done]. intros [= <-]. eauto. Qed.

Section held.
Context n s (Hok : sched_ok n s) (Hn : 8 * (n + 2) < 2 ^ 64).

Lemma held_queued cpu u : suspended s !!! cpu = Some u → susp_publication u = SuspendedPublication.Queued →
  ∃ i, position (of_thread (susp_thread u)) s = Some i.
Proof using Hok.
  intros Hu Hp. destruct (th_suspended _ _ _ (so_threads _ _ Hok) _ _ Hu) as (_ & _ & Hq). rewrite Hp in Hq.
  destruct Hq as (e & He & Hc). destruct (position _ s) as [i|] eqn:Hpos; [eauto|].
  pose proof (position_None _ _ _ (so_shape _ _ Hok) Hpos e He) as Hn'. apply bool_decide_eq_false in Hn'. by destruct Hn', Hc.
Qed.

Lemma held_switch_succeeds cpu claim : suspended_claim_on cpu s = Some claim →
  wlp (complete_switch_on_with_runnable_publication claim) s
    (λ _ s', suspended s' !!! cpu = None ∧ running s' = running s) (λ _ _, False).
Proof using Hok Hn.
  intros (u & Hu & ->)%held_claim. unfold complete_switch_on_with_runnable_publication. wlp_line.
  cbn [claim_domain claim_cpu claim_thread claim_generation]. pose proof (so_generations _ _ Hok) as Hg.
  destruct (th_suspended _ _ _ (so_threads _ _ Hok) _ _ Hu) as (Hgen & _ & _).
  rewrite Z.eqb_refl, (proj2 (Z.eqb_neq _ 0) Hgen). cbn [negb]. rewrite Hu. wlp_line.
  apply wlp_wp, wp_ok_or. cbn beta iota. rewrite bool_decide_true, Z.eqb_refl by done. cbn [negb orb].
  unfold checked_generation. rewrite (proj2 (Z.eqb_neq _ 0)) by (apply (minted_nonzero _ _ (ge_completed _ _ Hg))).
  wlp_line. apply wlp_wp, wp_ok_or. erewrite (next_minted _ _ (ge_completed _ _ Hg)) by lia. cbn beta iota. wlp_line.
  eapply (wlp_mono _ _ (λ _ s', running s' = running s) _ (λ _ _, False)); [|intros published s1 Hr|done].
  - wlp_step; [|wlp_line; done]. apply bool_decide_eq_true in Heqb. destruct (held_queued _ _ Hu Heqb) as (i & Hi). rewrite Hi.
    wlp_line. apply wlp_wp, wp_ok_or. cbn beta iota. destruct (found _ _ Hok _ _ Hi) as (e & He & Hp & Hq & _).
    destruct (found_held _ _ Hok _ _ _ _ _ Hu He Hp eq_refl) as (_ & Hc & Hcg & _). wlp_line. apply wlp_wp. eapply wp_expect; [exact Hq|].
    wlp_line. eapply (wlp_mono _ _ (λ _ s', running s' = running s) _ (λ _ _, False)); [|intros g s1 Hr|done].
    + wlp_step; [|by wlp_line]. apply wlp_wp. unfold mint_migration_eligibility_generation. mint (ge_eligibility _ _ Hg). done.
    + rewrite Hc, Hcg, bool_decide_true, Z.eqb_refl by done. cbn [negb orb]. wlp_line. done.
  - wlp_line. eapply (wlp_mono _ _ (λ _ s', running s' = running s) _ (λ _ _, False)); [|intros _ s2 Hr2|done].
    + destruct (susp_involuntary_preemption u); wlp_line; [|done]. apply (account_wlp None). intros a. by wlp_line.
    + wlp_line. apply assert_wlp. wlp_line. cbn. by rewrite cpu_lookup_insert_eq.
Qed.
End held.

(** A switch that was decided on and is completed. *)
Lemma held_switch_wp n s cpu claim : sched_ok n s → 8 * (n + 2) < 2 ^ 64 → suspended_claim_on cpu s = Some claim →
  wp (complete_switch_on claim) s (λ _ s', kept n (permits (domain s) (SchedulerCall.CompleteSwitchOn claim)) s s' ∧ suspended s' !!! cpu = None ∧ running s' = running s)
    (λ _ _, False).
Proof.
  intros Hok Hn Hc. unfold complete_switch_on. wp_step.
  eapply wp_mono; [eapply wp_wlp; [by eapply complete_switch_keeps|by eapply held_switch_succeeds]| |by intros ? ? []].
  intros done s' [Hk Hs]. wp_step. done.
Qed.

(** C27. A switch that was decided on can always be completed: however the
    scheduler was called, the claim a CPU holds for the thread it switches
    away from is accepted by [complete_switch_on], which then holds none,
    and neither what the CPUs run nor the state of any thread has changed. *)
Theorem held_switch_completes calls s cpu claim : after_calls calls s → suspended_claim_on cpu s = Some claim →
  ∃ s', complete_switch_on claim s = Ret s' tt ∧ suspended_claim_on cpu s' = None ∧ running s' = running s ∧
    ∀ thread, CooperativeScheduler.state_of thread s' = CooperativeScheduler.state_of thread s.
Proof.
  intros (n & Hok & Hn)%after_calls_ok Hc. pose proof (held_switch_wp n s cpu claim Hok Hn Hc) as Hwp.
  unfold wp in Hwp. destruct (complete_switch_on claim s) as [s' []| |]; [|done..]. destruct Hwp as ((Hok' & Hm & _) & Hs & Hr).
  exists s'. split_and!; [done|unfold suspended_claim_on; by rewrite Hs|done|]. intros thread.
  rewrite (state_of_life _ _ Hok), (state_of_life _ _ Hok'). destruct (Hm thread) as [-> |(_ & _ & [[-> ->]|(? & ? & ? & -> & ->)])]; done.
Qed.

Definition sample_yielded : SchedulerState.t := Eval vm_compute in
  the_state (state_after (sample_calls ++ [SchedulerCall.YieldCurrentOn CpuIndex.Cpu0 (sample_thread 1)])).

Definition sample_claim : SchedulerExecutionClaim :=
  {| claim_domain := 1; claim_cpu := CpuIndex.Cpu0; claim_thread := sample_thread 1; claim_generation := 1 |}.

Lemma held_switch_completes_witness : ∃ s', complete_switch_on sample_claim sample_yielded = Ret s' tt ∧
  suspended_claim_on CpuIndex.Cpu0 s' = None ∧ running s' = running sample_yielded ∧
  ∀ thread, CooperativeScheduler.state_of thread s' = CooperativeScheduler.state_of thread sample_yielded.
Proof.
  apply (held_switch_completes (sample_calls ++ [SchedulerCall.YieldCurrentOn CpuIndex.Cpu0 (sample_thread 1)]));
    [apply state_after_calls; vm_compute; reflexivity|vm_compute; reflexivity].
Defined.

(** ** The adapters *)

(** What blocks leaves its continuation with its CPU. *)
Lemma commit_block_suspends cpu reservation s :
  wlp (commit_block_on cpu reservation) s (λ _ s', suspended_claim_on cpu s' ≠ None) (λ _ _, True).
Proof.
  unfold commit_block_on. wlp_step. wlp_line. do 2 (wlp_step; [done|]). do 2 (wlp_line; apply wlp_any; intros).
  wlp_line. apply wlp_any. intros. wlp_line. apply wlp_any. intros. wlp_line. apply assert_wlp. wlp_line.
  unfold suspended_claim_on. cbn. by rewrite cpu_lookup_insert_eq.
Qed.

Module BspCall.
Inductive t : Type :=
| ScheduleNext
| YieldCurrent (thread : ThreadKey)
| CancelBlock (reservation : BlockReservation)
| CommitBlock (reservation : BlockReservation)
| BlockCurrent (thread : ThreadKey)
| ScheduleFromIdle (thread : ThreadKey)
| Retire (thread : ThreadKey).

Definition perform (call : t) (s : SchedulerState.t) : option SchedulerState.t :=
  match call with
  | ScheduleNext => SchedulerCall.left_by (BootstrapAdapters.schedule_next s)
  | YieldCurrent thread => SchedulerCall.left_by (BootstrapAdapters.yield_current thread s)
  | CancelBlock reservation => SchedulerCall.left_by (BootstrapAdapters.cancel_block reservation s)
  | CommitBlock reservation => SchedulerCall.left_by (BootstrapAdapters.commit_block reservation s)
  | BlockCurrent thread => SchedulerCall.left_by (BootstrapAdapters.block_current thread s)
  | ScheduleFromIdle thread => SchedulerCall.left_by (BootstrapAdapters.schedule_from_idle thread s)
  | Retire thread => SchedulerCall.left_by (BootstrapAdapters.retire thread s)
  end.

Definition allowed (call : t) (s : SchedulerState.t) : bool :=
  match call with Retire _ => is_none (active_idle s !!! CpuIndex.BOOTSTRAP) | _ => true end.
End BspCall.

(** [m] leads from a good state to one at most [d] steps further. *)
Definition good {E A} (d : Z) (m : M SchedulerState.t E A) : Prop := ∀ n s, sched_ok n s → 8 * (n + d) < 2 ^ 64 →
  wp m s (λ _ s', sched_ok (n + d) s') (λ _ s', sched_ok (n + d) s').

Lemma good_keeps {E A} (m : M SchedulerState.t E A) n s P : keeps n m s P →
  wp m s (λ _ s', sched_ok (n + 2) s') (λ _ s', sched_ok (n + 2) s').
Proof. intros Hk. eapply wp_mono; [exact Hk|..]; intros ? ? [? _]; done. Qed.

Lemma good_complete decision : good 2 (BootstrapAdapters.complete_bsp_model_switch decision).
Proof.
  intros n s Hok Hn. assert (sched_ok (n + 2) s) by (eapply sched_ok_weaken; [eassumption|lia]).
  unfold BootstrapAdapters.complete_bsp_model_switch, complete_switch_on. wp_step; [|by wp_step]. wp_step; [by wp_step|].
  wp_line. wp_step; [|done]. wp_step; [done|]. apply wp_bind.
  eapply wp_mono; [by eapply (good_keeps _ n), complete_switch_keeps| |by intros]. intros. by apply wp_ret.
Qed.

(** A call and then the completion of what it decided. *)
Lemma good_then {E A B} d d' (m : M SchedulerState.t E A) (f : A → M SchedulerState.t E B) : 0 ≤ d' → good d m → (∀ a, good d' (f a)) →
  good (d + d') (m ≫= f).
Proof.
  intros Hd Hm Hf n s Hok Hn. apply wp_bind. eapply wp_mono; [apply (Hm n); [done|lia]|..].
  - intros a s1 Hok1. eapply wp_mono; [apply (Hf a (n + d)); [done|lia]|..]; intros ? ?; by rewrite Z.add_assoc.
  - intros e s1 Hok1. eapply sched_ok_weaken; [exact Hok1|lia].
Qed.

Lemma good_weaken {E A} d d' (m : M SchedulerState.t E A) : d ≤ d' → good d m → good d' m.
Proof.
  intros Hd Hm n s Hok Hn. eapply wp_mono; [apply (Hm n); [done|lia]|..]; intros ? ? Hok'; (eapply sched_ok_weaken; [exact Hok'|lia]).
Qed.

Lemma good_ret {E A} (a : A) : good (E := E) 0 (mret a).
Proof. intros n s Hok _. apply wp_ret. by rewrite Z.add_0_r. Qed.

Lemma good_schedule_from_idle thread : good 4 (BootstrapAdapters.schedule_from_idle thread).
Proof.
  apply (good_then 2 2); [lia| |].
  - apply (good_then 2 0); [lia| |intros; apply good_ret]. intros n s Hok Hn. by eapply good_keeps, schedule_from_idle_keeps.
  - intros decision. apply (good_then 2 0); [lia| |intros; apply good_ret].
    destruct decision; [apply (good_weaken 0); [lia|apply good_ret]..|apply good_complete].
Qed.

(** The state at hand is read first. *)
Lemma good_get {E A} d (f : SchedulerState.t → M SchedulerState.t E A) : (∀ s, good d (f s)) → good d (s ← get; f s).
Proof. intros Hf n s Hok Hn. apply wp_bind, wp_get. by apply Hf. Qed.

Lemma good_schedule_next : good 4 BootstrapAdapters.schedule_next.
Proof.
  apply good_get. intros s0. destruct (suspended_on_cpu _ s0).
  - apply (good_then 4 0); [lia|apply good_schedule_from_idle|intros; apply good_ret].
  - apply (good_weaken 2); [lia|]. apply (good_then 2 0); [lia| |intros; apply good_ret].
    intros n s Hok Hn. by eapply (good_keeps _ n), schedule_next_keeps.
Qed.

Lemma good_yield thread : good 4 (BootstrapAdapters.yield_current thread).
Proof.
  apply (good_then 2 2); [lia|intros n s Hok Hn; by eapply (good_keeps _ n), yield_keeps|].
  intros decision. apply (good_then 2 0); [lia|apply good_complete|intros; apply good_ret].
Qed.

Lemma good_commit_block reservation : good 4 (BootstrapAdapters.commit_block reservation).
Proof.
  intros n s Hok Hn. unfold BootstrapAdapters.commit_block. wp_line.
  eapply wp_mono; [eapply wp_wlp; [apply (commit_block_keeps n s Hok); lia|apply commit_block_suspends]|..].
  - intros decision s1 [[Hok1 _] Hc]. apply wp_bind. wp_step.
    + wp_line. eapply sched_ok_weaken; [done|lia].
    + wp_line. destruct (suspended_claim_on _ s1) as [claim|] eqn:Hs; [|done]. eapply wp_expect; [done|].
      wp_step. eapply wp_mono; [eapply (held_switch_wp (n + 2)); [done|lia|done]| |done].
      intros _ s2 [[Hok2 _] _]. wp_line. eapply sched_ok_weaken; [done|lia].
  - intros e s1 [[Hok1 _] _]. eapply sched_ok_weaken; [done|lia].
Qed.

Lemma good_block_current thread : good 6 (BootstrapAdapters.block_current thread).
Proof.
  apply (good_then 2 4); [lia|intros n s Hok Hn; by eapply (good_keeps _ n), prepare_block_keeps|].
  intros reservation. apply (good_then 4 0); [lia| |intros; apply good_ret]. intros n s Hok Hn. apply wp_map_err. by apply good_commit_block.
Qed.

Lemma good_retire thread n s : sched_ok n s → 8 * (n + 4) < 2 ^ 64 → active_idle s !!! CpuIndex.BOOTSTRAP = None →
  wp (BootstrapAdapters.retire thread) s (λ _ s', sched_ok (n + 4) s') (λ _ s', sched_ok (n + 4) s').
Proof.
  intros Hok Hn Hi. unfold BootstrapAdapters.retire. wp_line. wp_step; [eapply sched_ok_weaken; [exact Hok|lia]|]. apply wp_bind.
  eapply wp_mono; [eapply (good_keeps _ n), (retire_keeps n s Hok); [lia|done]|..].
  - intros decision s1 Hok1. replace (n + 4) with (n + 2 + 2) by lia. apply wp_bind.
    eapply wp_mono; [apply good_complete; [exact Hok1|lia]| |by intros]. intros. by apply wp_ret.
  - intros e s1 Hok1. eapply sched_ok_weaken; [exact Hok1|lia].
Qed.

Lemma good_left_by {E A} n (m : M SchedulerState.t E A) s : wp m s (λ _ s', sched_ok n s') (λ _ s', sched_ok n s') →
  ∃ s', SchedulerCall.left_by (m s) = Some s' ∧ check_invariants s' = Ok tt.
Proof.
  unfold wp. destruct (m s) as [s' a|s' e|]; simpl; [intros Hok; exists s'; split; [done|by eapply check_invariants_ok]..|done].
Qed.

(** The adapters of the bootstrap processor never panic: [commit_block]
    expects CPU 0 to hold the continuation of what it blocked and its switch
    to complete, and both do; after each adapter the checks of
    [check_invariants] pass. *)
Theorem bootstrap_adapters_never_panic calls s call : after_calls calls s → Z.of_nat (length calls) < 2 ^ 60 - 3 →
  BspCall.allowed call s = true → ∃ s', BspCall.perform call s = Some s' ∧ check_invariants s' = Ok tt.
Proof.
  intros [Hok _]%after_calls_at Hl Ha. set (n := 2 * Z.of_nat (length calls)) in *. assert (8 * (n + 6) < 2 ^ 64) as Hn by lia.
  destruct call; cbn [BspCall.perform]; eapply good_left_by.
  - by apply (good_weaken 4 6 _ ltac:(lia) good_schedule_next n s).
  - by apply (good_weaken 4 6 _ ltac:(lia) (good_yield thread) n s).
  - eapply (good_keeps _ n), (cancel_block_keeps n s Hok). lia.
  - by apply (good_weaken 4 6 _ ltac:(lia) (good_commit_block reservation) n s).
  - by apply (good_block_current thread n s).
  - by apply (good_weaken 4 6 _ ltac:(lia) (good_schedule_from_idle thread) n s).
  - eapply (good_retire thread n s Hok); [lia|by apply is_none_true].
Qed.

Lemma bootstrap_adapters_never_panic_witness : ∃ s',
  BspCall.perform (BspCall.BlockCurrent (sample_thread 1)) sample_state = Some s' ∧ check_invariants s' = Ok tt.
Proof.
  apply (bootstrap_adapters_never_panic sample_calls); [apply sample_state_after|vm_compute; reflexivity|vm_compute; reflexivity].
Defined.
